(* ===== verification/_CoqProject ===== *)
-Q . S2P
Prelude.v
Text.v
Chars.v
Timeline.v
Spans.v
MinQueue.v
JoinNearest.v
SpanSet.v
Identity.v
Pagination.v
Storage.v
Session.v
Job.v
Failure.v
Retry.v
Admission.v
Worker.v
VisualSample.v
VisualWindow.v
VisualAnalysis.v
VisualStates.v
VisualBudget.v
VisualIndex.v
VisualSound.v
VisualCoverage.v
ScreenChange.v
ScreenPlan.v
ScreenRegions.v
ScreenFill.v
ScreenCount.v
ScreenCompare.v
Watch.v
AsrPlan.v
AsrRun.v
Cues.v
AsrOutput.v
SeamWords.v
SeamRules.v
SeamGuard.v
SeamMerge.v
SeamGuardLocal.v
SeamTail.v
SeamLocal.v
Settled.v
Revision.v
Coverage.v
DerivedIdentity.v
TranscriptRead.v
RevisionBuild.v
Search.v
SearchNormal.v
SearchRead.v
RevisionGrowth.v
Progress.v
Checkpoint.v
Transcribe.v
TranscribeResume.v
TranscribePublish.v
JobKeys.v
JobRecord.v
JobStore.v
Publish.v
PublishSafe.v
JobSteps.v
JobCommit.v
JobCalls.v
JobRun.v
JobRule.v
JobOnce.v
Capacity.v
JobPrepare.v
