(* ===== verification/Prelude.v ===== *)
(** * The VSift verification development

    VSift turns a recording into evidence that a person or an agent can cite:
    exact frames, transcript segments and lists of what changed on screen, each
    with its place on the timeline of the source. The program is layered. The
    crate [crates/vsift-domain] holds the rules (times, ranges, candidates,
    sessions, jobs, retries) as pure code on machine integers; above it
    [vsift-application] runs them over ports for media tools, recognizers and
    stores, [vsift-infrastructure] implements the ports against the operating
    system, [vsift-contract] defines the documents that are exchanged, and
    [vsift] and [vsift-cli] put the parts together. This development models the
    domain crate, where the decisions are made, and the services of
    [vsift-application] that transcribe a recording: a recognition run with its
    checkpoints, the revisions it publishes, and the job that runs, commits,
    resumes and cancels it. The crates above call them.

    ** Conventions

    A machine integer is a [Z]; a record field keeps no range of its own, and
    the theorems state the ranges they need ([is_u64] and the like). Checked,
    saturating and unchecked operations of the code are [checked_*],
    [saturating_*] and [wrap_*] below: the release profile of the workspace
    leaves overflow checks off, so an unchecked operator wraps, and a theorem
    that a result is exact includes that nothing wrapped. A [usize] is 64 bits
    wide. [Result] is [result], with [let?] for the operator [?]; a [&str] is
    the list of its UTF-8 bytes; a [Vec] used as a stack is a list with its top
    first. A Rust type with private fields is a record whose constructor
    function ([new], [parse]) is the definition of the same name; what the
    constructors establish is the predicate [wf] of the module.

    A service that calls ports is a function of a world, an arbitrary type, and
    gives the world its calls leave ([Eff] in [Transcribe], with a bind for
    results). A port is a record of functions over the world, so an
    implementation may remember, fail or answer differently each time, within
    the laws that a theorem states of it.

    ** Files

    Shared: [Prelude] (results, machine integers, slices, automation and the
    lemmas all components use), [Text] (bytes, digits, splitting) and [Chars]
    (the characters of UTF-8 text, trimming and the classes of characters).

    Time and space: [Timeline] models [timeline.rs]: ranges, frame sizes, crop
    rectangles ([crop_compose_lineage], [crop_parse_canonical]) and stream
    timestamps, with the rule that selects the first frame at or after a time
    ([first_at_or_after_selects_frames]). [Spans], [MinQueue], [JoinNearest]
    and [SpanSet] model [spans.rs]: merging, overlap and subtraction of
    canonical span lists ([merged_canonical_form], [span_queries_exact]), the
    bounded join of the nearest spans, where the version with a heap is proved
    equal to the search it replaces ([join_nearest_equivalence]) and sound
    ([join_nearest_sound]), and the growing set of spans, which refines the
    merged list ([insert_all_is_merged], [gaps_within_is_subtract]). [MinQueue] is the
    interface of the heap: a class of operations with their laws, with a list as its instance; the join
    is proved against the class.

    Work: [Session] (lifetimes: [session_lifetime_bounded]), [Job] (the state
    machine as a transition relation with reachable histories:
    [job_lifecycle], [job_identifiers_parse]), [Failure] (the stable codes),
    [Retry] (backoff with its jitter and the verdict on a chunk that keeps
    failing: [retry_policy_bounded], [poisoned_chunk_correct]), [Admission]
    (bounded waits and the division of the recognition budget:
    [bounded_wait_terminates], [recognition_fits_root]), [Worker] (which failed
    steps may run again: [step_retry_safe]), [Storage] (policies and
    generations), [Identity] (opaque and digest identifiers:
    [identifiers_never_confused]) and [Pagination] (cursors:
    [cursor_roundtrip]) model the files of the same names ([session.rs],
    [job.rs] and so on).

    Recognition, [asr.rs]: [AsrPlan] cuts ranges into chunks
    ([plan_chunks_cover]) and puts windows on the chunk grid of a whole run
    ([aligned_window_shares_chunks], which also states the windows near the
    end of a source for which the code misses the grid); [AsrRun] validates
    runs ([run_is_its_plan]) and decides which earlier text a retranscription
    keeps ([earlier_text_kept]). [AsrOutput] validates what a recognizer
    answered for a chunk: what an accepted answer holds, said in terms of the
    answer alone ([chunk_output_placed]), and for which of its faults an answer is
    refused ([chunk_output_refused]). [SeamWords], [SeamRules], [SeamGuard] and
    [SeamMerge] join the chunks of a run at their seams: the comparison of
    words, rules 1 and 2 (who owns a time, which copy at a cut is kept), the
    guard that puts lost speech back, and rule 3 with the assembled result.
    The whole of it loses no stretch of speech longer than the tolerance
    ([merge_loses_no_speech]), invents, repeats and reorders nothing
    ([merged_segments_sound]) and lists the words it could not place
    ([unplaced_words_listed]). [SeamGuardLocal], [SeamTail] and [SeamLocal]
    prove the rules local: what lies before a time that nothing crosses is
    decided by what lies before it. [Settled] models [asr/settled.rs], the part
    of an unfinished run that is published: it is final
    ([settled_part_is_final], which the source leaves to a test) and only grows
    ([settled_part_grows]).

    The transcript, [transcript.rs] and the values of [evidence.rs] it uses:
    [Cues] models cue text and timing, the warnings of an import
    ([warnings_one_entry_per_kind]) and the alignment of imported cues with the
    source ([imported_cues_aligned]). [Revision] models the revisions of a
    transcript: the constructors accept exactly the consistent ones
    ([revision_accepted_exactly]), and a requested range is widened to the
    least one that cuts no segment ([snap_is_least]). [Coverage] models
    [search/coverage.rs], what a search can vouch for: the instants it counts
    as transcribed, quiet and pending are exactly those some run, file or
    segment of the revision answers for ([coverage_is_exact]). [Search] and
    [SearchNormal] model the text search of [search.rs]: normalising words again
    changes nothing ([normalised_words_settle]), and a text matches in a tier
    exactly when its words do ([query_matches_exactly]). [SearchRead] models the
    search service of [vsift-application]: a reader that follows the cursors has
    read every hit, ranked, once ([search_reads_all_hits]).

    From the crate [vsift-application]: [DerivedIdentity] (identities derived
    with SHA-256), [TranscriptRead] (a reader that follows the cursors has read
    every segment of its range once: [pages_complete]) and [RevisionBuild], the
    assembly of a revision from a parsed file or from a finished run over an
    earlier revision. A finished run always becomes a valid revision, with the
    earlier text it may not replace unchanged beside its own
    ([asr_revision_built]), and along any chain of such revisions what nobody
    transcribed stays listed as untranscribed until a run reads it
    ([untranscribed_until_read]). [RevisionGrowth] builds the revision a run
    publishes while it works and the one it seals when it stops.

    A recognition run, [asr.rs] of [vsift-application]: [Transcribe] models the
    run chunk by chunk over its ports, with [Progress] (its figures) and
    [Checkpoint] (the kept result of a chunk). [TranscribeResume] proves that
    interruptions, lost checkpoints and a seed do not change what a run ends
    with ([resumed_run_is_the_same]) and says which runs fail, and after which
    chunk ([run_judged_by_majority]). [TranscribePublish] proves that after every chunk
    the run can be published, validly, and that what it ends with continues that
    ([published_while_running]).

    Jobs, [job.rs], [job/publish.rs] and [job/run.rs] of [vsift-application]:
    [JobKeys] (the digests that identify requests, recognitions and commits:
    [recognition_keys_tell_apart]), [JobRecord] (the stored record and the
    changes to it), [JobStore] (the ports of a job) and [Publish] (the publisher
    of an attempt and the seal of a stopped run). [PublishSafe] proves that
    whatever attempts came before, under the same merge rules and with a
    recognizer that answers alike, and wherever the store refused, a session
    shows the beginning of what the run seals ([publishing_never_diverges]).
    [JobCommit] (reconciling a job, committing its revision), [JobCalls] (looking
    up, cancelling, reading, replaying) and [JobRun] (an attempt, the settling of
    a failed one, the whole call) are the services. [JobSteps] proves once, for
    any preorder on worlds, that a run with its publisher keeps what its ports
    keep; [JobRule] states the rule of ADR 0020 as an invariant of the session,
    and [JobOnce] proves that every service keeps it although the process may
    end at any call and others work on the session: a job commits at most one
    revision, and every answer of success names it ([job_commits_once]), for as
    long as the store has left no process unsure of a commit. [Capacity] models
    the admission of a run and the gate between its chunks: a wait that is not
    queued ends within its budget ([capacity_wait_bounded]), and queued work takes
    capacity only when nobody waits for it ([queued_work_gives_way]).
    [JobPrepare], [job/prepare.rs], prepares a session stream by stream and
    records how that ended ([prepare_recorded_as_it_ended]).

    The visual index, [visual.rs]: [VisualSample] (grey samples, hashes and the
    rule of change: [from_gray_exact], [hash_text_roundtrip],
    [change_rule_exact]), [VisualWindow] (the grid of windows and cells:
    [visual_grid_tiles]), [VisualAnalysis] (the analysis of one window), [VisualIndex]
    (committed windows, their validation, lookups and coverage gaps).
    [VisualStates], [VisualBudget] and [VisualSound] prove that every analysis
    passes the validation of the index ([analysis_passes_validation]), an end-to-end refinement through
    states, motion runs, the budget and the coverage pass; [VisualCoverage]
    proves that a committed index names as gaps all it has not seen
    ([coverage_is_honest]).

    Screen changes, [screen_change.rs]: [ScreenChange] reads the candidates of
    the index as changes and [ScreenPlan] proves the plan complete and without
    repetition, each run of motion one change ([screen_changes_planned]); [ScreenRegions] compares two frames,
    [ScreenCount] proves the counts exact ([tile_counts_exact]), [ScreenFill] proves that the flood fill finds
    exactly the connected components, and [ScreenCompare] that the report says
    what they are ([compare_frames_reports]).

    Outputs: [Watch] models [watch.rs]: names ([output_names_fit],
    [frame_names_sort_in_time]), the choice of frames and listed screens
    ([frames_spread_evenly], [settled_screens_exact]) and the text of subtitle
    cues ([subrip_cue_text_cannot_forge]).

    Components call each other as the code does: [VisualIndex] builds on the
    windows and drafts of [VisualAnalysis], [ScreenChange] on [VisualIndex],
    [SpanSet] on [Spans], [SeamGuard] and [SeamMerge] on [SpanSet] and
    [JoinNearest], [SeamRules] on the validated chunks of [AsrOutput] and those
    on the values of [Cues], and the identities, ranges and times of [Identity]
    and [Timeline] are used throughout. A run of [Transcribe] validates answers
    with [AsrOutput], takes its verdict from [Retry], and merges through
    [Settled] and [SeamMerge]; [Publish] hands its records to [RevisionGrowth];
    [JobRun] runs [Transcribe] under [Publish] and commits with [JobCommit].

    ** Loops and fuel

    A loop whose recursion is not structural takes fuel, and each theorem about
    it shows that the fuel given is enough, by proving the full result and not
    only a bound: the join of spans takes two iterations per span; the cells of
    a window as many as the rounded-up quotient of its length; the plan of chunks
    one more than the most chunks it may have; the flood fill
    one per tile, because a tile is pushed at most once; the loop over the
    candidates of a window one per candidate; the chunks of a slice and the
    replacements in a text at most its length, as do the markers and characters
    read from it; the decimal form of a [u64] twenty digits; the search for a
    confidence 14 halvings of its 10,001 values; the loop of rule 3 at the
    seams one turn per kept segment, since each turn moves on or drops one. The
    loops of a job that tries again (its commit, its attempts) take no fuel of
    the model: they recur on the automatic retries the policy leaves
    ([retries_left]), and [commit_loop_again] proves of the commit that every
    further turn uses one up and [run_attempts_enough] of the attempts that they
    are never cut short. The wait for capacity takes the turns its budget allows
    ([ADMISSION_TURNS], proved enough in [capacity_wait_bounded]), and the pauses
    of queued work the turns it is given ([yield_loop_enough]); a queued wait that
    somebody keeps in front of may last forever, so it answers [None] after them.

    ** Assumptions

    Nothing is assumed of code outside the repository except the laws of
    [MinQueue], which state what the documentation of [BinaryHeap] promises;
    its list instance shows they can hold. The digest of the crate [sha2] is
    the class [Sha256]: it answers every text with 32 bytes ([Sha256Laws]), and
    a theorem that needs the derived identities of a revision to differ says so
    of the texts it derives them from ([no_clash]). The tables of Unicode that say which
    characters beyond ASCII are letters and what their lower case is are the
    class [UnicodeTables]. Only the theorems on search need anything of them:
    lower case is settled and no letter is a space ([UnicodeLaws], with an
    instance for ASCII).
    An [f64] is a [spec_float] of the Standard Library at binary64 precision,
    with its rounding. Sorting
    ([sort_by], [sort_by_key]) is the stable insertion sort of [Prelude], and
    [sort_unstable], called on totally ordered values, stdpp's merge sort.
    Theorems about stored values say which constructors made them ([committed], [wf], [pixels_wf]).

    The laws of ports are records, each with a session that satisfies it in a
    witness. A run is compared with its resumption for a recognizer and audio
    that answer a chunk alike each time, a checkpoint store and a seed that give
    back what was kept or nothing, and an observer that leaves the store alone
    ([ports_laws], [scope_laws], [seed_laws], [run_hears] in [TranscribeResume]
    and [TranscribePublish]). The publisher needs a store that keeps what it says
    it kept ([store_laws] in [PublishSafe]). The rule of a job needs a record
    that only its owner writes and other processes that follow the rule
    ([record_laws]), other ports that leave the record and the chain alone
    ([other_laws]), and identities that tell commits of the result from those of
    its parts ([operations_told_apart]), all in [JobRule]; every call may fail, a
    process may end, and others may act, at any call of a port. The rule stops
    where the store fails to publish a commit and then to read the chain, which
    leaves the process unsure of it ([unsure_when_unread]). A preparation needs a
    record that only its owner changes ([prepare_laws]). That a record is pruned is not modelled.

    ** What the code does otherwise

    In eight places the code does what a comment or a document describes
    otherwise, or what looks unintended: the windows near the end of a
    source that miss the chunk grid ([aligned_window_shares_chunks]); a decimal
    keeps the zeros it starts with when it is searched ([leading_zeros_kept]); a
    stop may fail where an earlier segment crosses the settled time
    ([stop_fails_at_the_cut]); a chunk taken from a seed counts as kept though
    no checkpoint holds it ([seeded_chunks_count_as_kept]); a commit that
    landed is reported as interrupted when the chain cannot be read afterwards
    ([landed_commit_forgotten]); a preparation interrupted in its last attempt is
    reported as resumable though it never runs again ([prepare_out_of_attempts]);
    names of frames from 100 hours on do not
    sort in the order of time ([frame_names_beyond_100_hours]); and a change in
    the last tiles of a frame nearly 2^32 pixels wide or high has no region
    ([region_beyond_u32]).

    ** Not modelled

    [JobRun] takes the admission and the gate as arguments, since a queued wait
    may last forever; the progress record of a preparation is advisory and left
    out. Not yet, in this order: the rest of
    evidence ([evidence/navigation.rs], [evidence/record.rs]) with the
    navigation between frames and the validation of records; the clocks of a
    source ([time_anchor.rs], [clock_track.rs], [clock_register.rs],
    [clock_face.rs], [source_origin.rs]); screen text ([screen_text.rs]) and its
    search; [media.rs], [provisioning.rs] and [agent_skill.rs]. Not at
    all: [Display] messages, serialization, and the crates above the
    application, whose steps are calls of the operating system and of external
    programs. *)

From Stdlib Require Export ZArith Lia ZifyNat.
From stdpp Require Export base tactics list numbers option sorting strings.

#[global] Set Default Goal Selector "!".
#[global] Open Scope Z_scope.

Declare Scope vsift_scope.
Delimit Scope vsift_scope with vsift.
#[global] Open Scope vsift_scope.

(** ** Fallible code: Rust's [Result] *)

Inductive result (A E : Type) : Type :=
| Ok (value : A)
| Err (error : E).
Arguments Ok {A E} value.
Arguments Err {A E} error.

Definition result_bind {A B E : Type} (r : result A E) (k : A -> result B E) : result B E :=
  match r with
  | Ok a => k a
  | Err e => Err e
  end.

(** [Option::ok_or] *)
Definition ok_or {A E : Type} (o : option A) (e : E) : result A E :=
  match o with
  | Some a => Ok a
  | None => Err e
  end.

(** [Result::map_err] *)
Definition map_err {A E F : Type} (f : E -> F) (r : result A E) : result A F :=
  match r with
  | Ok a => Ok a
  | Err e => Err (f e)
  end.

(** [Result::ok] *)
Definition result_ok {A E : Type} (r : result A E) : option A :=
  match r with
  | Ok a => Some a
  | Err _ => None
  end.

Definition is_ok {A E : Type} (r : result A E) : bool :=
  match r with
  | Ok _ => true
  | Err _ => false
  end.

(** [let? x := e in k] is Rust's [let x = e?; k]. *)
Notation "'let?' x ':=' e 'in' k" := (result_bind e (fun x => k))
  (at level 10, x name, e at level 200, k at level 200) : vsift_scope.

(** ** Machine integers

    A [w]-bit integer is a [Z]; [checked_*], [saturating_*] and [wrap_*] are
    the operations of the Rust standard library written out. The release
    profile of the workspace leaves overflow checks off, so an unchecked
    operator wraps. *)

Definition U8_MAX : Z := 255.
Definition U16_MAX : Z := 65535.
Definition U32_MAX : Z := 4294967295.
Definition U64_MAX : Z := 18446744073709551615.
Definition I64_MIN : Z := -9223372036854775808.
Definition I64_MAX : Z := 9223372036854775807.
Definition I128_MIN : Z := -170141183460469231731687303715884105728.
Definition I128_MAX : Z := 170141183460469231731687303715884105727.

Definition in_range (lo hi x : Z) : bool := (lo <=? x) && (x <=? hi).

Definition is_u8 (x : Z) : Prop := 0 <= x <= U8_MAX.
Definition is_u16 (x : Z) : Prop := 0 <= x <= U16_MAX.
Definition is_u32 (x : Z) : Prop := 0 <= x <= U32_MAX.
Definition is_u64 (x : Z) : Prop := 0 <= x <= U64_MAX.
Definition is_i64 (x : Z) : Prop := I64_MIN <= x <= I64_MAX.
Definition is_i128 (x : Z) : Prop := I128_MIN <= x <= I128_MAX.

(** [T::try_from(x).ok()] and the result of a checked operation. *)
Definition checked (lo hi x : Z) : option Z :=
  if in_range lo hi x then Some x else None.

Definition checked_u16 : Z -> option Z := checked 0 U16_MAX.
Definition checked_u32 : Z -> option Z := checked 0 U32_MAX.
Definition checked_u64 : Z -> option Z := checked 0 U64_MAX.
Definition checked_i64 : Z -> option Z := checked I64_MIN I64_MAX.
Definition checked_i128 : Z -> option Z := checked I128_MIN I128_MAX.

Definition saturating_u8 (x : Z) : Z := Z.max 0 (Z.min U8_MAX x).
Definition saturating_u16 (x : Z) : Z := Z.max 0 (Z.min U16_MAX x).
Definition saturating_u32 (x : Z) : Z := Z.max 0 (Z.min U32_MAX x).
Definition saturating_u64 (x : Z) : Z := Z.max 0 (Z.min U64_MAX x).

Definition wrap_u32 (x : Z) : Z := x mod 4294967296.
Definition wrap_u64 (x : Z) : Z := x mod 18446744073709551616.
Definition wrap_i128 (x : Z) : Z :=
  (x - I128_MIN) mod 340282366920938463463374607431768211456 + I128_MIN.

(** [div_ceil] of unsigned integers. *)
Definition div_ceil (a b : Z) : Z :=
  if a mod b =? 0 then a / b else a / b + 1.

(** ** Slices *)

(** [slice::partition_point]: where the prefix satisfying [p] ends. *)
Fixpoint partition_point {A : Type} (p : A -> bool) (l : list A) : nat :=
  match l with
  | [] => O
  | a :: rest => if p a then S (partition_point p rest) else O
  end.

(** [Iterator::min_by_key]: the first of the least elements. *)
Fixpoint min_by_key {A : Type} (key : A -> Z) (l : list A) : option A :=
  match l with
  | [] => None
  | a :: rest =>
      match min_by_key key rest with
      | None => Some a
      | Some b => if key a <=? key b then Some a else Some b
      end
  end.

(** [slice::windows(2)] *)
Fixpoint windows2 {A : Type} (l : list A) : list (A * A) :=
  match l with
  | a :: (b :: _) as rest => (a, b) :: windows2 rest
  | _ => []
  end.

(** [Iterator::enumerate] *)
Definition enumerate {A : Type} (l : list A) : list (nat * A) := zip (seq 0 (length l)) l.

(** [sort_by] and [sort_by_key]: a stable sort. An element is put before the
    first of the later ones it may stand before, so equal ones keep their
    order. Where the code calls [sort_unstable] on values that are equal only
    when they are the same, any sort will do and the model takes stdpp's
    [merge_sort], which is not stable. *)
Fixpoint sorted_insert {A : Type} (R : A -> A -> Prop) `{!RelDecision R} (x : A) (l : list A) : list A :=
  match l with
  | [] => [x]
  | y :: rest => if decide (R x y) then x :: l else y :: sorted_insert R x rest
  end.

Definition stable_sort {A : Type} (R : A -> A -> Prop) `{!RelDecision R} (l : list A) : list A :=
  foldr (sorted_insert R) [] l.

(** [Iterator::take_while] *)
Fixpoint take_while {A : Type} (p : A -> bool) (l : list A) : list A :=
  match l with
  | [] => []
  | a :: rest => if p a then a :: take_while p rest else []
  end.

(** ** Automation *)

Create HintDb vsift.

(** [ulia]: [lia] with the integer widths unfolded. *)
Ltac unfold_widths :=
  unfold is_u8, is_u16, is_u32, is_u64, is_i64, is_i128,
    saturating_u8, saturating_u16, saturating_u32, saturating_u64 in *;
  unfold U8_MAX, U16_MAX, U32_MAX, U64_MAX, I64_MIN, I64_MAX, I128_MIN, I128_MAX in *.

Ltac ulia := unfold_widths; lia.
Ltac unia := unfold_widths; nia.

(** [divlia]: [lia] with division by constants, of naturals and integers. *)
Ltac divlia := zify; Z.to_euclidean_division_equations; lia.

(** [bool_prop]: turn boolean tests of the code in the hypotheses and the
    goal into propositions. *)
Ltac bool_prop :=
  repeat match goal with
  | H : andb _ _ = true |- _ => apply andb_true_iff in H; destruct H
  | H : andb _ _ = false |- _ => apply andb_false_iff in H
  | H : orb _ _ = true |- _ => apply orb_true_iff in H
  | H : orb _ _ = false |- _ => apply orb_false_iff in H; destruct H
  | H : negb _ = true |- _ => apply negb_true_iff in H
  | H : negb _ = false |- _ => apply negb_false_iff in H
  | H : (_ <=? _) = true |- _ => apply Z.leb_le in H
  | H : (_ <=? _) = false |- _ => apply Z.leb_gt in H
  | H : (_ <? _) = true |- _ => apply Z.ltb_lt in H
  | H : (_ <? _) = false |- _ => apply Z.ltb_ge in H
  | H : (_ =? _) = true |- _ => apply Z.eqb_eq in H
  | H : (_ =? _) = false |- _ => apply Z.eqb_neq in H
  end.

(** [split_if]: case analysis on the tests that decide the goal. *)
Ltac split_if :=
  repeat match goal with
  | |- context [if ?b then _ else _] => destruct b eqn:?
  end; bool_prop.

(** [by_cases H]: walk through the early returns of a function whose result
    [H] records. *)
Ltac by_cases H :=
  repeat match type of H with
  | context [if ?b then _ else _] => destruct b eqn:?; try discriminate H
  | context [result_bind ?r _] => destruct r eqn:?; cbn [result_bind] in H; try discriminate H
  | context [match ?o with _ => _ end] => destruct o eqn:?; try discriminate H
  end; bool_prop.

(** [decide_constants]: decide the equations in the goal between constants. *)
Ltac decide_constants :=
  repeat match goal with
  | |- context [@decide (?a = ?b) _] =>
      first [rewrite (decide_True (P := a = b)) by done | rewrite (decide_False (P := a = b)) by done]
  end.

(** [concrete]: a conjunction of closed comparisons, by evaluation. *)
Ltac concrete :=
  repeat split; vm_compute; first [reflexivity | intros; discriminate | done].

(** ** Lemmas on machine integers *)

Lemma in_range_true lo hi x : in_range lo hi x = true <-> lo <= x <= hi.
Proof. unfold in_range. rewrite andb_true_iff, !Z.leb_le. lia. Qed.

Lemma checked_Some lo hi x y : checked lo hi x = Some y <-> y = x /\ lo <= x <= hi.
Proof.
  unfold checked. destruct (in_range lo hi x) eqn:E.
  - apply in_range_true in E. split; [intros [= <-]; auto | intros [-> _]; done].
  - split; [done|]. intros [_ H]. apply in_range_true in H. congruence.
Qed.

Lemma checked_None lo hi x : checked lo hi x = None <-> ~ lo <= x <= hi.
Proof.
  unfold checked. rewrite <- in_range_true. destruct (in_range lo hi x); naive_solver.
Qed.

Lemma checked_in lo hi x : lo <= x <= hi -> checked lo hi x = Some x.
Proof. intros H. by apply checked_Some. Qed.

Lemma wrap_u64_id x : is_u64 x -> wrap_u64 x = x.
Proof. intros H. unfold wrap_u64. apply Z.mod_small. ulia. Qed.

Lemma wrap_u32_id x : is_u32 x -> wrap_u32 x = x.
Proof. intros H. unfold wrap_u32. apply Z.mod_small. ulia. Qed.

Lemma wrap_i128_id x : is_i128 x -> wrap_i128 x = x.
Proof. intros H. unfold wrap_i128. rewrite Z.mod_small; ulia. Qed.

Lemma div_ceil_spec a b q :
  0 < b -> div_ceil a b <= q <-> a <= q * b.
Proof.
  intros Hb. unfold div_ceil.
  pose proof (Z.div_mod a b ltac:(lia)). pose proof (Z.mod_pos_bound a b Hb).
  destruct (a mod b =? 0) eqn:E; bool_prop; split; intros; nia.
Qed.

Lemma div_ceil_bounds a b : 0 < b -> a <= b * div_ceil a b < a + b.
Proof.
  intros Hb. unfold div_ceil. pose proof (Z.div_mod a b ltac:(lia)).
  pose proof (Z.mod_pos_bound a b Hb). destruct (a mod b =? 0) eqn:E; bool_prop; lia.
Qed.

(** ** Lemmas on fallible code *)

Lemma bind_Ok {A B E} (r : result A E) (k : A -> result B E) b :
  result_bind r k = Ok b <-> exists a, r = Ok a /\ k a = Ok b.
Proof. destruct r; cbn; naive_solver. Qed.

Lemma ok_or_Ok {A E} (o : option A) (e : E) a : ok_or o e = Ok a <-> o = Some a.
Proof. destruct o; cbn; naive_solver. Qed.

Lemma map_err_Ok {A E F} (f : E -> F) (r : result A E) a : map_err f r = Ok a <-> r = Ok a.
Proof. destruct r; cbn; naive_solver. Qed.

(** An early return. *)
Lemma guard_Ok {A E} (b : bool) (e : E) (r : result A E) a :
  (if b then Err e else r) = Ok a <-> b = false /\ r = Ok a.
Proof. destruct b; naive_solver. Qed.

Lemma existsb_false {A} (f : A -> bool) l : existsb f l = false <-> Forall (fun a => f a = false) l.
Proof.
  induction l as [|a l IH]; cbn; [by split|]. by rewrite orb_false_iff, Forall_cons, IH.
Qed.

(** ** Lemmas on slices *)

Lemma partition_point_le {A} p (l : list A) : (partition_point p l <= length l)%nat.
Proof. induction l as [|a l IH]; cbn; [lia|]. destruct (p a); cbn; lia. Qed.

Lemma partition_point_lt {A} p (l : list A) i a :
  l !! i = Some a -> (i < partition_point p l)%nat -> p a = true.
Proof.
  revert i. induction l as [|b l IH]; intros i Hi Hlt; cbn in *; [lia|].
  destruct (p b) eqn:E; [|lia]. destruct i as [|i]; cbn in Hi; [congruence|].
  apply (IH i); [done|lia].
Qed.

Lemma partition_point_eq {A} p (l : list A) a :
  l !! partition_point p l = Some a -> p a = false.
Proof.
  induction l as [|b l IH]; cbn; [done|].
  destruct (p b) eqn:E; cbn; [done|]. by intros [= ->].
Qed.

Lemma partition_point_gt {A} p (l : list A) i :
  (i < length l)%nat -> (forall j a, (j <= i)%nat -> l !! j = Some a -> p a = true) ->
  (i < partition_point p l)%nat.
Proof.
  revert i. induction l as [|a l IH]; intros i Hi Hp; cbn in *; [lia|].
  rewrite (Hp 0%nat a) by (done || lia). destruct i as [|i]; [lia|].
  apply (proj1 (Nat.succ_lt_mono _ _)), IH; [lia|]. intros j b Hj. apply (Hp (S j)). lia.
Qed.

Lemma fold_max_spec {A} (f : A -> Z) l m :
  m <= fold_left (fun m a => Z.max m (f a)) l m
  /\ forall a, a ∈ l -> f a <= fold_left (fun m a => Z.max m (f a)) l m.
Proof.
  revert m. induction l as [|a l IH]; intros m; cbn [fold_left].
  { split; [lia|]. by intros a ?%not_elem_of_nil. }
  destruct (IH (Z.max m (f a))) as [H1 H2]. split; [lia|].
  intros b [->|Hb]%elem_of_cons; [lia|by apply H2].
Qed.

Lemma fold_left_const {A B} (f : B -> A -> B) l b :
  (forall a, a ∈ l -> f b a = b) -> fold_left f l b = b.
Proof.
  induction l as [|a l IH]; intros H; [done|]. cbn. rewrite H by (by left).
  apply IH. intros a' ?. apply H. by right.
Qed.

Lemma StronglySorted_sublist {A} (R : A -> A -> Prop) l k :
  k `sublist_of` l -> StronglySorted R l -> StronglySorted R k.
Proof.
  induction 1 as [|a k l Hsub IH|a k l Hsub IH]; intros Hs; [done| |].
  - apply StronglySorted_inv in Hs as [Hs Hf]. constructor; [by apply IH|].
    rewrite Forall_forall in Hf |- *. intros x Hx. apply Hf. by eapply elem_of_sublist.
  - apply StronglySorted_inv in Hs as [Hs _]. by apply IH.
Qed.

Lemma fold_left_inv {A B} (P : B -> Prop) (f : B -> A -> B) l b :
  P b -> (forall b a, P b -> a ∈ l -> P (f b a)) -> P (fold_left f l b).
Proof.
  revert b. induction l as [|a l IH]; intros b Hb Hstep; [done|]. cbn. apply IH.
  - apply Hstep; [done|by left].
  - intros b' a' ? ?. apply Hstep; [done|by right].
Qed.

Lemma take_while_app {A} (p : A -> bool) (l k : list A) :
  Forall (fun a => p a = true) l -> Forall (fun a => p a = false) k -> take_while p (l ++ k) = l.
Proof.
  intros Hl Hk. induction Hl as [|a l Ha _ IH]; cbn.
  - destruct Hk as [|a k Ha _]; cbn; [done|]. by rewrite Ha.
  - by rewrite Ha, IH.
Qed.

(** A sorted list is its elements with a property that passes down the order,
    and then the others. *)
Lemma StronglySorted_partition {A} (R : A -> A -> Prop) (P : A -> Prop) `{!forall a, Decision (P a)} l :
  StronglySorted R l -> (forall a b, a ∈ l -> b ∈ l -> R a b -> P b -> P a) ->
  l = filter P l ++ filter (fun a => ~ P a) l.
Proof.
  induction 1 as [|a l Hl IH Ha]; intros HP; [done|]. rewrite !filter_cons.
  assert (Hrest : l = filter P l ++ filter (fun a => ~ P a) l)
    by (apply IH; intros x y ? ?; apply HP; by right).
  destruct (decide (P a)) as [Hp|Hp].
  - rewrite decide_False by (intros Hn; by apply Hn). cbn. by f_equal.
  - rewrite (decide_True (P := ~ P a)) by done.
    assert (Hn : filter P l = []).
    { apply elem_of_nil_inv. intros b [Hb Hin]%list_elem_of_filter. apply Hp.
      rewrite Forall_forall in Ha. apply (HP a b); [by left|by right|by apply Ha|done]. }
    rewrite Hn in *. cbn in *. by f_equal.
Qed.

Lemma delete_app_l {A} (l k : list A) i : (i < length l)%nat -> delete i (l ++ k) = delete i l ++ k.
Proof.
  revert i. induction l as [|a l IH]; intros [|i] Hi; cbn in *; [lia|lia|done|]. f_equal. apply IH. lia.
Qed.

Lemma delete_app_r {A} (l k : list A) i :
  (length l <= i)%nat -> delete i (l ++ k) = l ++ delete (i - length l)%nat k.
Proof.
  revert i. induction l as [|a l IH]; intros i Hi; cbn in *; [by rewrite Nat.sub_0_r|].
  destruct i as [|i]; [lia|]. cbn. f_equal. apply IH. lia.
Qed.

Lemma fold_left_inv2 {A B C} (P : B -> C -> Prop) (f : B -> A -> B) (g : C -> A -> C) l b c :
  P b c -> (forall b c a, P b c -> a ∈ l -> P (f b a) (g c a)) -> P (fold_left f l b) (fold_left g l c).
Proof.
  revert b c. induction l as [|a l IH]; intros b c Hb Hf; [done|]. cbn [fold_left]. apply IH.
  - apply Hf; [done|by left].
  - intros b' c' a' Hb' Ha'. apply Hf; [done|by right].
Qed.

Lemma Forall2_permuted {A B} (R : A -> B -> Prop) l k k' :
  k ≡ₚ k' -> Forall2 R l k -> exists l', l ≡ₚ l' /\ Forall2 R l' k'.
Proof.
  intros Hp. revert l. induction Hp as [|x k k' _ IH|x y k|k k' k'' _ IH1 _ IH2]; intros l Hf.
  - by exists l.
  - apply Forall2_cons_inv_r in Hf as (a & l1 & Hr & Hf & ->). destruct (IH l1 Hf) as (l' & Hl & Hf').
    exists (a :: l'). split; [by rewrite Hl|by constructor].
  - apply Forall2_cons_inv_r in Hf as (a & l1 & Ha & Hf & ->).
    apply Forall2_cons_inv_r in Hf as (b & l2 & Hb & Hf & ->).
    exists (b :: a :: l2). split; [apply Permutation_swap|by repeat constructor].
  - destruct (IH1 l Hf) as (l1 & H1 & Hf1). destruct (IH2 l1 Hf1) as (l2 & H2 & Hf2).
    exists l2. split; [by rewrite H1|done].
Qed.

Lemma min_by_key_None {A} key (l : list A) : min_by_key key l = None <-> l = [].
Proof.
  destruct l as [|a l]; cbn; [done|]. destruct (min_by_key key l); [|done].
  by destruct (key a <=? key a0).
Qed.

(** The first of the least elements, by position. *)
Lemma min_by_key_Some {A} key (l : list A) b :
  min_by_key key l = Some b ->
  exists k, l !! k = Some b
    /\ forall k' c, l !! k' = Some c -> key b < key c \/ (key b = key c /\ (k <= k')%nat).
Proof.
  revert b. induction l as [|a l IH]; intros b; cbn; [done|].
  destruct (min_by_key key l) as [m|] eqn:E.
  - destruct (IH m eq_refl) as (k & Hk & Hmin).
    destruct (key a <=? key m) eqn:Ek; bool_prop; intros [= <-].
    + exists 0%nat. split; [done|]. intros [|k'] c Hc; cbn in Hc; [|].
      * injection Hc as <-. right. split; [done|lia].
      * destruct (Hmin k' c Hc) as [?|[? ?]]; destruct (decide (key a = key c)); lia.
    + exists (S k). split; [done|]. intros [|k'] c Hc; cbn in Hc; [|].
      * injection Hc as <-. by left.
      * destruct (Hmin k' c Hc) as [?|[? ?]]; [by left|right; split; [done|lia]].
  - intros [= <-]. apply min_by_key_None in E as ->.
    exists 0%nat. split; [done|]. intros [|k'] c Hc; cbn in Hc; [|done].
    injection Hc as <-. right. split; [done|lia].
Qed.

Lemma windows2_lookup {A} (l : list A) i a b :
  windows2 l !! i = Some (a, b) <-> l !! i = Some a /\ l !! S i = Some b.
Proof.
  revert i. induction l as [|x l IH]; intros i; [by rewrite !lookup_nil; naive_solver|].
  destruct l as [|y l]; [by destruct i; cbn; rewrite ?lookup_nil; naive_solver|].
  destruct i as [|i]; [cbn; naive_solver|]. cbn [windows2 lookup list_lookup]. apply IH.
Qed.

Lemma omap_cons_app {A B} (f : A -> option B) a l : omap f (a :: l) = option_list (f a) ++ omap f l.
Proof. cbn. by destruct (f a). Qed.

Lemma enumerate_lookup {A} (l : list A) i k a :
  enumerate l !! i = Some (k, a) <-> k = i /\ l !! i = Some a.
Proof.
  unfold enumerate. rewrite lookup_zip_with_Some. split.
  - intros (k' & a' & [= <- <-] & Hk & Ha). apply lookup_seq in Hk. naive_solver.
  - intros [-> Ha]. exists i, a. split; [done|]. split; [|done].
    apply lookup_seq. split; [done|]. by apply lookup_lt_Some in Ha.
Qed.

Lemma filter_all {A} (P : A -> Prop) `{!forall a, Decision (P a)} (l : list A) :
  Forall P l -> filter P l = l.
Proof.
  induction 1 as [|a l Ha _ IH]; [done|]. rewrite filter_cons. by rewrite decide_True, IH.
Qed.

Lemma filter_none {A} (P : A -> Prop) `{!forall a, Decision (P a)} (l : list A) :
  Forall (fun a => ~ P a) l -> filter P l = [].
Proof.
  induction 1 as [|a l Ha _ IH]; [done|]. rewrite filter_cons. by rewrite decide_False, IH.
Qed.

(** A slice of limited length needs no more than one element beyond it. *)
Lemma take_enough {A} n (l k : list A) :
  take (S n) l = take (S n) k -> take n l = take n k /\ (n <? length l)%nat = (n <? length k)%nat.
Proof.
  intros E. split.
  - assert (H : take n (take (S n) l) = take n (take (S n) k)) by (by rewrite E).
    rewrite !take_take in H. by replace (n `min` S n)%nat with n in H by lia.
  - assert (H : length (take (S n) l) = length (take (S n) k)) by (by rewrite E).
    rewrite !length_take in H. destruct (Nat.ltb_spec n (length l)), (Nat.ltb_spec n (length k)); lia.
Qed.

(** Nested loops are one loop over the concatenation. *)
Lemma fold_left_bind {A B C} (step : C -> B -> C) (f : A -> list B) (l : list A) (c : C) :
  fold_left (fun c a => fold_left step (f a) c) l c = fold_left step (l ≫= f) c.
Proof.
  revert c. induction l as [|a l IH]; intros c; cbn; [done|]. by rewrite IH, fold_left_app.
Qed.

Lemma fold_left_fmap {A B C} (step : C -> B -> C) (f : A -> B) (l : list A) (c : C) :
  fold_left step (f <$> l) c = fold_left (fun c a => step c (f a)) l c.
Proof. revert c. induction l as [|a l IH]; intros c; cbn; [done|]. apply IH. Qed.

Lemma fold_left_ext {A C} (step step' : C -> A -> C) (l : list A) (c : C) :
  (forall c a, a ∈ l -> step c a = step' c a) -> fold_left step l c = fold_left step' l c.
Proof.
  revert c. induction l as [|a l IH]; intros c H; cbn; [done|].
  rewrite H by (by left). apply IH. intros c' a' Ha. apply H. by right.
Qed.

Lemma filter_ext_in {A} (P Q : A -> Prop) `{!forall a, Decision (P a)} `{!forall a, Decision (Q a)}
    (l : list A) :
  (forall a, a ∈ l -> P a <-> Q a) -> filter P l = filter Q l.
Proof.
  induction l as [|a l IH]; intros Hpq; [done|].
  rewrite !filter_cons, IH by (intros; apply Hpq; by right).
  assert (P a <-> Q a) as Ha by (apply Hpq; by left).
  destruct (decide (P a)), (decide (Q a)); by tauto.
Qed.

(** Sortedness by position. *)
Lemma StronglySorted_lookup {A} (R : A -> A -> Prop) (l : list A) :
  StronglySorted R l <->
  forall i j a b, (i < j)%nat -> l !! i = Some a -> l !! j = Some b -> R a b.
Proof.
  split.
  - induction 1 as [|x l _ IH Hx]; intros i j a b Hij Hi Hj; [done|].
    destruct j as [|j]; [lia|]. cbn in Hj. destruct i as [|i]; cbn in Hi.
    + injection Hi as ->. rewrite Forall_lookup in Hx. by eapply Hx.
    + eapply (IH i j); [lia|done|done].
  - induction l as [|x l IH]; intros H; [constructor|]. constructor.
    + apply IH. intros i j a b Hij Hi Hj. by apply (H (S i) (S j)); [lia| |].
    + apply Forall_lookup. intros j b Hj. by apply (H 0%nat (S j)); [lia| |].
Qed.

(** Mapping and filtering a sorted list. *)
Lemma StronglySorted_omap {A B} (RA : A -> A -> Prop) (R : B -> B -> Prop) (f : A -> option B) l :
  StronglySorted RA l ->
  (forall x y a b, RA x y -> f x = Some a -> f y = Some b -> R a b) ->
  StronglySorted R (omap f l).
Proof.
  intros Hl Hf. induction Hl as [|x l _ IH Hx]; cbn; [constructor|].
  destruct (f x) as [a|] eqn:E; [|done]. constructor; [done|].
  apply Forall_forall. intros b (y & Hy & Hb)%list_elem_of_omap.
  rewrite Forall_forall in Hx. by eapply Hf; [apply Hx| |].
Qed.

Lemma StronglySorted_filter {A} (R : A -> A -> Prop) (P : A -> Prop) `{!forall a, Decision (P a)} l :
  StronglySorted R l -> StronglySorted R (filter P l).
Proof.
  induction 1 as [|a l Hl IH Ha]; [constructor|]. rewrite filter_cons.
  destruct (decide (P a)); [|done]. constructor; [done|].
  apply Forall_forall. intros b Hb. apply list_elem_of_filter in Hb as [_ Hb].
  by apply (proj1 (Forall_forall _ _) Ha).
Qed.

Lemma StronglySorted_bind {A B} (RA : A -> A -> Prop) (R : B -> B -> Prop) (f : A -> list B) l :
  StronglySorted RA l -> (forall a, a ∈ l -> StronglySorted R (f a)) ->
  (forall a b x y, a ∈ l -> b ∈ l -> RA a b -> x ∈ f a -> y ∈ f b -> R x y) ->
  StronglySorted R (l ≫= f).
Proof.
  induction 1 as [|a l Hl IH Ha]; intros Hf Hcross; cbn; [constructor|].
  assert (Hrest : StronglySorted R (l ≫= f)).
  { apply IH; [intros; apply Hf; by right|]. intros c b x y Hc Hb. apply Hcross; by right. }
  assert (Hfst : Forall (fun x => Forall (R x) (l ≫= f)) (f a)).
  { apply Forall_forall. intros x Hx. apply Forall_forall. intros y (b & Hy & Hb)%list_elem_of_bind.
    rewrite Forall_forall in Ha. apply (Hcross a b); [by left|by right|by apply Ha|done|done]. }
  specialize (Hf a ltac:(by left)). clear - Hf Hrest Hfst.
  induction Hf as [|x m _ IHm Hx]; cbn; [done|]. apply Forall_cons in Hfst as [Hx' Hm].
  constructor; [by apply IHm|]. by apply Forall_app.
Qed.

(** The first item a predicate holds of. *)
Lemma find_split {A} (p : A -> bool) (l : list A) :
  match List.find p l with
  | Some a => exists pre post, l = pre ++ a :: post /\ Forall (fun b => p b = false) pre /\ p a = true
  | None => Forall (fun b => p b = false) l
  end.
Proof.
  induction l as [|b l IH]; cbn; [constructor|]. destruct (p b) eqn:E.
  - exists [], l. split; [done|]. by split; [constructor|].
  - destruct (List.find p l) as [a|]; [|by constructor].
    destruct IH as (pre & post & -> & Hpre & Ha). exists (b :: pre), post.
    split; [done|]. by split; [constructor|].
Qed.

Lemma enumerate_sorted {A} (l : list A) : StronglySorted (fun a b => (a.1 < b.1)%nat) (enumerate l).
Proof.
  apply StronglySorted_lookup. intros i j [k a] [k' b] Hij.
  rewrite !enumerate_lookup. cbn. intros [-> _] [-> _]. done.
Qed.

Lemma elem_of_enumerate {A} (l : list A) k a : (k, a) ∈ enumerate l <-> l !! k = Some a.
Proof.
  rewrite list_elem_of_lookup. setoid_rewrite enumerate_lookup. naive_solver.
Qed.

(** Mapping consecutive positions none of which is left out. *)
Lemma omap_seq_all {A} (f : nat -> option A) k m :
  (forall p, (k <= p < k + m)%nat -> is_Some (f p)) ->
  length (omap f (seq k m)) = m
  /\ forall p, (p < m)%nat -> omap f (seq k m) !! p = f (k + p)%nat.
Proof.
  revert k. induction m as [|m IH]; intros k Hf; [split; [done|intros; lia]|].
  cbn [seq omap list_omap]. destruct (Hf k ltac:(lia)) as [a Ha].
  destruct (IH (S k)) as [Hl Hp]; [intros p Hp; apply Hf; lia|]. rewrite Ha.
  split; [cbn; by rewrite Hl|]. intros [|p] Hlt; cbn.
  - by rewrite Nat.add_0_r, Ha.
  - rewrite Hp by lia. f_equal. lia.
Qed.

#[export] Hint Resolve wrap_u64_id wrap_u32_id wrap_i128_id checked_in : vsift.

(** ** Lemmas on the stable sort *)

Section StableSort.
Context {A : Type} (R : A -> A -> Prop) `{!RelDecision R}.

Lemma sorted_insert_Permutation x l : sorted_insert R x l ≡ₚ x :: l.
Proof.
  induction l as [|y l IH]; cbn [sorted_insert]; [done|]. destruct (decide (R x y)); [done|].
  by rewrite IH, Permutation_swap.
Qed.

Lemma stable_sort_Permutation l : stable_sort R l ≡ₚ l.
Proof.
  induction l as [|x l IH]; [done|]. change (sorted_insert R x (stable_sort R l) ≡ₚ x :: l).
  by rewrite sorted_insert_Permutation, IH.
Qed.

Context `{!Total R} `{!Transitive R}.

Lemma sorted_insert_sorted x l : StronglySorted R l -> StronglySorted R (sorted_insert R x l).
Proof.
  induction 1 as [|y l Hl IH Hy]; cbn [sorted_insert]; [by repeat constructor|].
  destruct (decide (R x y)) as [Hxy|Hxy].
  - constructor; [by constructor|]. constructor; [done|].
    eapply Forall_impl; [exact Hy|]. intros z Hz. by transitivity y.
  - constructor; [done|]. rewrite sorted_insert_Permutation. constructor; [|done].
    by destruct (total R x y).
Qed.

Lemma StronglySorted_stable_sort l : StronglySorted R (stable_sort R l).
Proof. induction l as [|x l IH]; [constructor|]. by apply sorted_insert_sorted. Qed.

Lemma stable_sort_sorted l : StronglySorted R l -> stable_sort R l = l.
Proof.
  induction 1 as [|x l Hl IH Hx]; [done|]. cbn [stable_sort foldr]. fold (stable_sort R l). rewrite IH.
  destruct l as [|y l]; [done|]. apply Forall_cons in Hx as [Hxy _]. cbn [sorted_insert].
  by rewrite decide_True.
Qed.

(** A stable sort sorts every part of a list on its own. *)
Lemma sorted_insert_filter (P : A -> Prop) `{!forall a, Decision (P a)} x l :
  StronglySorted R l ->
  filter P (sorted_insert R x l) = if decide (P x) then sorted_insert R x (filter P l) else filter P l.
Proof.
  induction 1 as [|y l Hl IH Hy]; cbn [sorted_insert].
  { rewrite filter_cons, filter_nil. by destruct (decide (P x)). }
  destruct (decide (R x y)) as [Hxy|Hxy].
  - rewrite (filter_cons _ x). destruct (decide (P x)) as [Hx|]; [|done].
    assert (Hall : Forall (R x) (filter P (y :: l))).
    { apply Forall_forall. intros z [_ Hz]%list_elem_of_filter. apply elem_of_cons in Hz as [->|Hz]; [done|].
      rewrite Forall_forall in Hy. transitivity y; [done|by apply Hy]. }
    destruct (filter P (y :: l)) as [|z k]; [done|]. apply Forall_cons in Hall as [Hz _].
    cbn [sorted_insert]. by rewrite decide_True by done.
  - rewrite (filter_cons _ y), IH, (filter_cons _ y). destruct (decide (P x)); [|done].
    destruct (decide (P y)); [|done]. cbn [sorted_insert]. by rewrite decide_False by done.
Qed.

Lemma stable_sort_filter (P : A -> Prop) `{!forall a, Decision (P a)} l :
  filter P (stable_sort R l) = stable_sort R (filter P l).
Proof.
  induction l as [|x l IH]; [done|].
  change (filter P (sorted_insert R x (stable_sort R l)) = stable_sort R (filter P (x :: l))).
  rewrite sorted_insert_filter by apply StronglySorted_stable_sort. rewrite IH, filter_cons.
  by destruct (decide (P x)).
Qed.
End StableSort.
