(* ===== verification/Text.v ===== *)
(** * Text: byte strings, decimal numbers and splitting

    A [&str] is the list of its bytes. The operations of the Rust standard
    library that the modelled code calls on text are written out here: ASCII
    classification, [str::split] on one character, [str::parse::<u32>] on
    digits, and the decimal form of [format!]. *)

From Stdlib Require Import Ascii.
From S2P Require Import Prelude.

Abbreviation text := (list ascii).

Definition byte_of (c : ascii) : Z := Z.of_N (N_of_ascii c).

Definition is_ascii_digit (c : ascii) : bool := (48 <=? byte_of c) && (byte_of c <=? 57).

(** [str::split] on one ASCII character: always at least one part. *)
Fixpoint split_on (sep : ascii) (s : text) : list text :=
  match s with
  | [] => [[]]
  | c :: rest =>
      if (c =? sep)%char then [] :: split_on sep rest
      else match split_on sep rest with
           | part :: parts => (c :: part) :: parts
           | [] => [[c]]
           end
  end.

(** [str::parse::<u32>] on a text of ASCII digits: most significant digit
    first, every step checked. *)
Fixpoint parse_u32_from (acc : Z) (s : text) : option Z :=
  match s with
  | [] => Some acc
  | c :: rest =>
      match checked_u32 (acc * 10) with
      | None => None
      | Some scaled =>
          match checked_u32 (scaled + (byte_of c - 48)) with
          | None => None
          | Some acc' => parse_u32_from acc' rest
          end
      end
  end.

Definition zero_char : ascii := "0"%char.
Definition comma : ascii := ","%char.
Definition hyphen : ascii := "-"%char.

Definition starts_with (c : ascii) (s : text) : bool :=
  match s with
  | c' :: _ => (c' =? c)%char
  | [] => false
  end.

(** [u8::is_ascii_lowercase] and a lowercase hexadecimal letter. *)
Definition is_ascii_lowercase (c : ascii) : bool := (97 <=? byte_of c) && (byte_of c <=? 122).
Definition is_hex_letter (c : ascii) : bool := (97 <=? byte_of c) && (byte_of c <=? 102).

(** A literal of the source. *)
Definition literal (s : string) : text := Stdlib.Strings.String.list_ascii_of_string s.

(** [str::strip_prefix] *)
Fixpoint strip_prefix (prefix s : text) : option text :=
  match prefix, s with
  | [], _ => Some s
  | p :: prefix', c :: s' => if (p =? c)%char then strip_prefix prefix' s' else None
  | _ :: _, [] => None
  end.

(** [str::contains] of a pattern. *)
Fixpoint contains_text (pattern s : text) : bool :=
  match strip_prefix pattern s with
  | Some _ => true
  | None => match s with [] => false | _ :: rest => contains_text pattern rest end
  end.

(** ** The decimal form [format!("{}", n)] of an unsigned integer *)

Definition digit_char (d : Z) : ascii := ascii_of_N (Z.to_N (48 + d)).

(** Least significant digit last; [fuel] bounds the number of digits. *)
Fixpoint decimal_digits (fuel : nat) (n : Z) : text :=
  match fuel with
  | O => []
  | S fuel' =>
      if n <? 10 then [digit_char n]
      else decimal_digits fuel' (n / 10) ++ [digit_char (n mod 10)]
  end.

(** Twenty digits hold every [u64]. *)
Definition decimal (n : Z) : text := decimal_digits 20 n.
Arguments decimal n : simpl never.

(** The number a text of digits denotes, continuing from [acc]. *)
Definition digits_value (acc : Z) (s : text) : Z :=
  fold_left (fun a c => a * 10 + (byte_of c - 48)) s acc.

(** Joining with a separator, the inverse of [split_on]. *)
Fixpoint join_with (sep : ascii) (parts : list text) : text :=
  match parts with
  | [] => []
  | [part] => part
  | part :: rest => part ++ sep :: join_with sep rest
  end.

(** ** Facts *)

Lemma strip_prefix_Some prefix s suffix :
  strip_prefix prefix s = Some suffix <-> s = prefix ++ suffix.
Proof.
  revert s. induction prefix as [|p prefix IH]; intros s; cbn.
  - split; [by intros [= ->]|by intros ->].
  - destruct s as [|c s]; [split; discriminate|]. destruct (p =? c)%char eqn:E.
    + apply Ascii.eqb_eq in E as ->. rewrite IH. split; [by intros ->|by intros [= ->]].
    + apply Ascii.eqb_neq in E. split; [discriminate|congruence].
Qed.

Lemma strip_prefix_None prefix s :
  strip_prefix prefix s = None <-> forall suffix, s <> prefix ++ suffix.
Proof.
  split.
  - intros H suffix Hs. apply strip_prefix_Some in Hs. congruence.
  - intros H. destruct (strip_prefix prefix s) as [suffix|] eqn:E; [|done].
    apply strip_prefix_Some in E. by destruct (H suffix).
Qed.

Lemma is_ascii_digit_spec c : is_ascii_digit c = true <-> 0 <= byte_of c - 48 <= 9.
Proof. unfold is_ascii_digit. rewrite andb_true_iff, !Z.leb_le. lia. Qed.

Lemma byte_of_digit_char d : 0 <= d <= 9 -> byte_of (digit_char d) = 48 + d.
Proof.
  intros H. unfold byte_of, digit_char. rewrite N_ascii_embedding by lia. lia.
Qed.

Lemma digit_char_byte c : is_ascii_digit c = true -> digit_char (byte_of c - 48) = c.
Proof.
  intros H. unfold digit_char, byte_of.
  replace (Z.to_N (48 + (Z.of_N (N_of_ascii c) - 48))) with (N_of_ascii c) by lia.
  apply ascii_N_embedding.
Qed.

Lemma digit_char_is_digit d : 0 <= d <= 9 -> is_ascii_digit (digit_char d) = true.
Proof. intros H. apply is_ascii_digit_spec. rewrite byte_of_digit_char by done. lia. Qed.

Lemma digits_value_snoc acc s c :
  digits_value acc (s ++ [c]) = digits_value acc s * 10 + (byte_of c - 48).
Proof. unfold digits_value. by rewrite fold_left_app. Qed.

Lemma digits_value_ge s acc :
  forallb is_ascii_digit s = true -> 0 <= acc -> acc <= digits_value acc s.
Proof.
  revert acc. induction s as [|c s IH]; intros acc; cbn; [lia|].
  intros [Hc Hs]%andb_true_iff Ha. apply is_ascii_digit_spec in Hc.
  specialize (IH (acc * 10 + (byte_of c - 48)) Hs ltac:(lia)). unfold digits_value in *. lia.
Qed.

(** Checked parsing is the value of the digits when it fits. *)
Lemma parse_u32_from_value s acc :
  forallb is_ascii_digit s = true -> is_u32 acc ->
  parse_u32_from acc s = checked_u32 (digits_value acc s).
Proof.
  revert acc. induction s as [|c s IH]; intros acc; cbn.
  - intros _ Ha. unfold checked_u32. by rewrite checked_in.
  - intros [Hc Hs]%andb_true_iff Ha. apply is_ascii_digit_spec in Hc.
    pose proof (digits_value_ge s (acc * 10 + (byte_of c - 48)) Hs ltac:(ulia)).
    change (fold_left _ s _) with (digits_value (acc * 10 + (byte_of c - 48)) s).
    assert (Hover : ~ acc * 10 + (byte_of c - 48) <= U32_MAX ->
                    checked_u32 (digits_value (acc * 10 + (byte_of c - 48)) s) = None).
    { intros Hn. apply checked_None. lia. }
    unfold checked_u32 at 1. destruct (checked 0 U32_MAX (acc * 10)) as [v|] eqn:E1.
    + apply checked_Some in E1 as [-> _]. unfold checked_u32 at 1.
      destruct (checked 0 U32_MAX _) as [w|] eqn:E2.
      * apply checked_Some in E2 as [-> Hw]. by apply IH.
      * apply checked_None in E2. rewrite Hover; [done|ulia].
    + apply checked_None in E1. rewrite Hover; [done|ulia].
Qed.

Lemma decimal_digits_value fuel n :
  0 <= n < 10 ^ Z.of_nat fuel ->
  forallb is_ascii_digit (decimal_digits fuel n) = true
  /\ digits_value 0 (decimal_digits fuel n) = n.
Proof.
  revert n. induction fuel as [|fuel IH]; intros n Hn; [cbn in *; lia|].
  rewrite Nat2Z.inj_succ, Z.pow_succ_r in Hn by lia.
  cbn [decimal_digits]. destruct (n <? 10) eqn:E; bool_prop.
  - cbn. rewrite digit_char_is_digit, byte_of_digit_char by lia. split; [done|lia].
  - destruct (IH (n / 10)) as [Hd Hv].
    { split; [apply Z.div_pos; lia|]. apply Z.div_lt_upper_bound; lia. }
    pose proof (Z.mod_pos_bound n 10 ltac:(lia)).
    rewrite forallb_app, digits_value_snoc, Hd, Hv, byte_of_digit_char by lia.
    cbn. rewrite digit_char_is_digit by lia. split; [done|].
    pose proof (Z.div_mod n 10 ltac:(lia)). lia.
Qed.

(** The decimal form has no leading zero. *)
Lemma decimal_digits_canonical fuel n :
  0 <= n < 10 ^ Z.of_nat (S fuel) ->
  decimal_digits (S fuel) n <> []
  /\ (decimal_digits (S fuel) n = [zero_char]
      \/ starts_with zero_char (decimal_digits (S fuel) n) = false).
Proof.
  revert n. induction fuel as [|fuel IH]; intros n Hn;
    cbn [decimal_digits]; destruct (n <? 10) eqn:E; bool_prop; try (cbn in Hn; lia).
  1,2: split; [done|]; destruct (decide (n = 0)) as [->|]; [by left|right]; cbn;
       apply Ascii.eqb_neq; intros Heq; apply (f_equal byte_of) in Heq;
       rewrite byte_of_digit_char in Heq by lia; change (byte_of zero_char) with 48 in Heq; lia.
  rewrite Nat2Z.inj_succ, Z.pow_succ_r in Hn by lia.
  destruct (IH (n / 10)) as [Hne Hz].
  { split; [apply Z.div_pos; lia|]. apply Z.div_lt_upper_bound; lia. }
  assert (Hval : digits_value 0 (decimal_digits (S fuel) (n / 10)) = n / 10).
  { apply decimal_digits_value. split; [apply Z.div_pos; lia|].
    apply Z.div_lt_upper_bound; lia. }
  assert (1 <= n / 10) by (apply Z.div_le_lower_bound; lia).
  change (if n / 10 <? 10 then _ else _) with (decimal_digits (S fuel) (n / 10)).
  destruct (decimal_digits (S fuel) (n / 10)) as [|c rest] eqn:Ed; [done|].
  split; [done|right]. destruct Hz as [[= -> ->]|Hz]; [|exact Hz].
  change (0 = n / 10) in Hval. lia.
Qed.

(** Digits without a leading zero are the decimal form of their value. *)
Lemma canonical_digits_decimal fuel s :
  forallb is_ascii_digit s = true -> s <> [] ->
  s = [zero_char] \/ starts_with zero_char s = false ->
  digits_value 0 s < 10 ^ Z.of_nat (S fuel) ->
  decimal_digits (S fuel) (digits_value 0 s) = s.
Proof.
  revert fuel. induction s as [|c s IH] using rev_ind; [done|].
  intros fuel Hd _ Hz Hlt. rewrite forallb_app in Hd. apply andb_true_iff in Hd as [Hs Hc].
  cbn in Hc. rewrite andb_true_r in Hc. pose proof Hc as Hc'. apply is_ascii_digit_spec in Hc'.
  pose proof (digits_value_ge s 0 Hs ltac:(lia)) as Hge.
  rewrite digits_value_snoc in *.
  rewrite Nat2Z.inj_succ, Z.pow_succ_r in Hlt by lia. cbn [decimal_digits].
  destruct s as [|c0 s].
  - change (digits_value 0 []) with 0 in *.
    replace (0 * 10 + (byte_of c - 48)) with (byte_of c - 48) in * by lia.
    destruct (byte_of c - 48 <? 10) eqn:E; bool_prop; [|lia].
    rewrite digit_char_byte by done. done.
  - assert (Hne : (c0 =? zero_char)%char = false).
    { destruct Hz as [Hz|Hz]; [|exact Hz]. destruct s; discriminate. }
    assert (1 <= digits_value 0 (c0 :: s)).
    { cbn in Hs. apply andb_true_iff in Hs as [Hc0 Hs0].
      apply is_ascii_digit_spec in Hc0 as Hc0'.
      pose proof (digits_value_ge s (byte_of c0 - 48) Hs0 ltac:(lia)) as Hge0.
      change (digits_value 0 (c0 :: s)) with (digits_value (byte_of c0 - 48) s).
      destruct (decide (byte_of c0 - 48 = 0)) as [E0|]; [|lia].
      exfalso. apply Ascii.eqb_neq in Hne. apply Hne.
      rewrite <- (digit_char_byte c0 Hc0), E0. reflexivity. }
    set (v := digits_value 0 (c0 :: s)) in *.
    destruct (v * 10 + (byte_of c - 48) <? 10) eqn:E; bool_prop; [lia|].
    replace ((v * 10 + (byte_of c - 48)) / 10) with v
      by (apply Z.div_unique with (byte_of c - 48); lia).
    replace ((v * 10 + (byte_of c - 48)) mod 10) with (byte_of c - 48)
      by (apply Z.mod_unique with v; lia).
    rewrite digit_char_byte by done. f_equal.
    destruct fuel as [|fuel]; [cbn [Z.of_nat] in Hlt; lia|].
    apply IH; [done|done|by right|lia].
Qed.

(** ** Splitting and joining *)

Lemma split_on_nonempty sep s : split_on sep s <> [].
Proof.
  destruct s as [|c s]; cbn; [done|]. destruct (c =? sep)%char; [done|].
  by destruct (split_on sep s).
Qed.

Lemma join_split sep s : join_with sep (split_on sep s) = s.
Proof.
  induction s as [|c s IH]; [done|]. cbn. pose proof (split_on_nonempty sep s).
  destruct (c =? sep)%char eqn:E.
  - apply Ascii.eqb_eq in E as ->. destruct (split_on sep s); [done|]. cbn in *. by f_equal.
  - destruct (split_on sep s) as [|part [|p ps]]; cbn in *; [done|by f_equal|by f_equal].
Qed.

Lemma split_on_app sep part s :
  Forall (fun c => c <> sep) part -> split_on sep (part ++ sep :: s) = part :: split_on sep s.
Proof.
  induction 1 as [|c part Hc _ IH]; cbn; [by rewrite Ascii.eqb_refl|].
  apply Ascii.eqb_neq in Hc as ->. by rewrite IH.
Qed.

Lemma split_on_single sep part :
  Forall (fun c => c <> sep) part -> split_on sep part = [part].
Proof.
  induction 1 as [|c part Hc _ IH]; cbn; [done|].
  apply Ascii.eqb_neq in Hc as ->. by rewrite IH.
Qed.

Lemma split_join sep parts :
  parts <> [] -> Forall (Forall (fun c => c <> sep)) parts -> split_on sep (join_with sep parts) = parts.
Proof.
  intros Hne. induction 1 as [|part parts Hp Hparts IH]; [done|]. destruct parts as [|p parts].
  - cbn [join_with]. by apply split_on_single.
  - change (join_with sep (part :: p :: parts)) with (part ++ sep :: join_with sep (p :: parts)).
    rewrite split_on_app by done. by rewrite IH.
Qed.

Lemma join_snoc sep parts part :
  parts <> [] -> join_with sep (parts ++ [part]) = join_with sep parts ++ sep :: part.
Proof.
  induction parts as [|p parts IH]; [done|]. intros _. destruct parts as [|p' parts]; [done|].
  change (p ++ sep :: join_with sep ((p' :: parts) ++ [part])
          = (p ++ sep :: join_with sep (p' :: parts)) ++ sep :: part).
  rewrite IH by done. by rewrite <- app_assoc.
Qed.

Lemma digits_not_sep sep s :
  is_ascii_digit sep = false -> forallb is_ascii_digit s = true ->
  Forall (fun c => c <> sep) s.
Proof.
  intros Hsep Hs. apply Forall_forall. intros c Hc ->.
  rewrite forallb_forall in Hs. apply list_elem_of_In in Hc. apply Hs in Hc. congruence.
Qed.

Lemma contains_text_spec pattern s :
  contains_text pattern s = true <-> exists before after, s = before ++ pattern ++ after.
Proof.
  split.
  - induction s as [|c s IH]; cbn.
    + destruct (strip_prefix pattern []) as [rest|] eqn:E; [|done]. apply strip_prefix_Some in E.
      intros _. by exists [], rest.
    + destruct (strip_prefix pattern (c :: s)) as [rest|] eqn:E.
      * apply strip_prefix_Some in E. intros _. by exists [], rest.
      * intros (before & after & ->)%IH. by exists (c :: before), after.
  - intros (before & after & ->). induction before as [|c before IH]; cbn [app].
    + assert (E : strip_prefix pattern (pattern ++ after) = Some after) by (by apply strip_prefix_Some).
      destruct (pattern ++ after) eqn:Ep; cbn [contains_text]; by rewrite E.
    + cbn [contains_text]. by destruct (strip_prefix _ _).
Qed.

