(* ===== verification/Chars.v ===== *)
(** * Chars: the characters of a text

    A [&str] is the list of its UTF-8 bytes ([Text]); a [char] of it is the
    list of the bytes that encode it. This file holds the operations of the
    standard library that look at characters: [chars], [trim],
    [split_whitespace], [is_control] and the classes of letters and digits.
    Of the last two, [is_alphanumeric] and [to_lowercase], the ASCII half is
    written out; the tables of the Unicode standard for the wider characters
    are an interface, so every theorem holds for any of its versions. *)

From Stdlib Require Import Ascii.
From S2P Require Import Prelude.
From S2P Require Import Text.

(** ** Trimming *)

Definition bytes (l : list Z) : text := (fun b => ascii_of_N (Z.to_N b)) <$> l.

(** The UTF-8 encodings of the characters [char::is_whitespace] holds of. *)
Definition WHITESPACE : list text :=
  bytes <$>
  [[9]; [10]; [11]; [12]; [13]; [32]; [194; 133]; [194; 160]; [225; 154; 128];
   [226; 128; 128]; [226; 128; 129]; [226; 128; 130]; [226; 128; 131]; [226; 128; 132];
   [226; 128; 133]; [226; 128; 134]; [226; 128; 135]; [226; 128; 136]; [226; 128; 137];
   [226; 128; 138]; [226; 128; 168]; [226; 128; 169]; [226; 128; 175]; [226; 129; 159];
   [227; 128; 128]].

(** The rest of a text after one of the prefixes, none of which is empty. *)
Definition strip_any (prefixes : list text) (s : text) : option text :=
  head (omap (fun p => strip_prefix p s) prefixes).

Fixpoint strip_all (fuel : nat) (prefixes : list text) (s : text) : text :=
  match fuel with
  | O => s
  | S fuel => match strip_any prefixes s with
              | Some rest => strip_all fuel prefixes rest
              | None => s
              end
  end.

(** [str::trim_start] and [str::trim] *)
Definition trim_start (s : text) : text := strip_all (length s) WHITESPACE s.

Definition trim (s : text) : text :=
  let started := trim_start s in
  reverse (strip_all (length started) (reverse <$> WHITESPACE) (reverse started)).

(** ** Characters *)

(** The length of the encoding that a first byte announces. *)
Definition char_length (first : ascii) : nat :=
  if byte_of first <? 128 then 1
  else if byte_of first <? 224 then 2
  else if byte_of first <? 240 then 3
  else 4.

(** [str::chars]: each step takes a character, so the length is fuel enough. *)
Fixpoint chars_from (fuel : nat) (s : text) : list text :=
  match fuel, s with
  | S fuel, c :: _ => take (char_length c) s :: chars_from fuel (drop (char_length c) s)
  | _, _ => []
  end.

Definition chars (s : text) : list text := chars_from (length s) s.

(** [char::is_whitespace] *)
Definition is_whitespace (c : text) : bool := existsb (fun w => bool_decide (w = c)) WHITESPACE.

(** [char::is_control]: the general category Cc. *)
Definition is_control (c : text) : bool :=
  match c with
  | [b] => (byte_of b <? 32) || (byte_of b =? 127)
  | [a; b] => (byte_of a =? 194) && (128 <=? byte_of b) && (byte_of b <=? 159)
  | _ => false
  end.

Definition is_ascii_uppercase (c : ascii) : bool := (65 <=? byte_of c) && (byte_of c <=? 90).
Definition is_ascii_alphabetic (c : ascii) : bool := is_ascii_uppercase c || is_ascii_lowercase c.
Definition is_ascii_alphanumeric (c : ascii) : bool := is_ascii_alphabetic c || is_ascii_digit c.

Definition to_ascii_lowercase (c : ascii) : ascii :=
  if is_ascii_uppercase c then ascii_of_N (Z.to_N (byte_of c + 32)) else c.

(** The tables of the Unicode standard for characters of two bytes or more. *)
Class UnicodeTables := {
  wide_alphanumeric : text -> bool;
  wide_lowercase : text -> text
}.

(** No wide letters at all: an instance for evaluation on ASCII text. *)
Definition ascii_tables : UnicodeTables := {|
  wide_alphanumeric := fun _ => false;
  wide_lowercase := fun c => c
|}.

(** [char::is_alphanumeric] and [char::to_lowercase] *)
Definition is_alphanumeric `{UnicodeTables} (c : text) : bool :=
  match c with [b] => is_ascii_alphanumeric b | _ => wide_alphanumeric c end.

Definition to_lowercase `{UnicodeTables} (c : text) : text :=
  match c with [b] => [to_ascii_lowercase b] | _ => wide_lowercase c end.

(** ** Words *)

(** The runs of characters between whitespace, some of them empty. *)
Fixpoint split_at_whitespace (cs : list text) : list (list text) :=
  match cs with
  | [] => [[]]
  | c :: rest =>
      if is_whitespace c then [] :: split_at_whitespace rest
      else match split_at_whitespace rest with
           | word :: words => (c :: word) :: words
           | [] => [[c]]
           end
  end.

(** [str::split_whitespace], each word as its characters. *)
Definition split_whitespace (s : text) : list (list text) :=
  filter (fun w => w <> []) (split_at_whitespace (chars s)).

(** ** Facts *)

Lemma strip_all_suffix fuel prefixes s : exists removed, s = removed ++ strip_all fuel prefixes s.
Proof.
  revert s. induction fuel as [|fuel IH]; intros s; [by exists []|]. cbn [strip_all].
  destruct (strip_any prefixes s) as [rest|] eqn:E; [|by exists []].
  unfold strip_any in E. destruct (omap _ prefixes) as [|r rs] eqn:Eo; [done|]. injection E as ->.
  assert (Hin : rest ∈ omap (fun p => strip_prefix p s) prefixes) by (rewrite Eo; by left).
  apply list_elem_of_omap in Hin as (p & _ & Hp). apply strip_prefix_Some in Hp.
  destruct (IH rest) as [removed Hr]. exists (p ++ removed). by rewrite <- app_assoc, <- Hr.
Qed.

(** Trimming removes a prefix and a suffix. *)
Lemma trim_infix s : exists before after, s = before ++ trim s ++ after.
Proof.
  unfold trim, trim_start. set (started := strip_all (length s) WHITESPACE s).
  destruct (strip_all_suffix (length s) WHITESPACE s) as [before Hb]. fold started in Hb.
  destruct (strip_all_suffix (length started) (reverse <$> WHITESPACE) (reverse started)) as [after Ha].
  exists before, (reverse after). rewrite Hb at 1. f_equal.
  apply (f_equal reverse) in Ha. rewrite reverse_involutive, reverse_app in Ha. done.
Qed.

Lemma trim_Forall (P : ascii -> Prop) s : Forall P s -> Forall P (trim s).
Proof.
  destruct (trim_infix s) as (before & after & E). intros H. rewrite E in H.
  by apply Forall_app in H as [_ [H _]%Forall_app].
Qed.

(** ** Encoded characters *)

(** The encoding of one character: one byte below 128, or a first byte that
    says how many follow, all of them 128 or more. *)
Definition is_char (c : text) : Prop :=
  match c with
  | [] => False
  | [b] => byte_of b < 128
  | b :: _ => length c = char_length b /\ Forall (fun a => 128 <= byte_of a) c
  end.

(** A text of whole characters, as every [str] is. *)
Definition well_formed (s : text) : Prop := Forall is_char (chars s).

(** What the standard says of the tables: the lower case of a character is
    characters that are their own lower case, and a letter is not a space. *)
Class UnicodeLaws `{UnicodeTables} : Prop := {
  lower_stable c : is_char c ->
    exists cs, to_lowercase c = concat cs /\ Forall (fun d => is_char d /\ to_lowercase d = d) cs;
  letter_not_space c : is_alphanumeric c = true -> is_whitespace c = false
}.

Lemma is_char_length b c : is_char (b :: c) -> length (b :: c) = char_length b.
Proof.
  destruct c; [|by intros [H _]]. cbn [is_char]. intros H. unfold char_length.
  by rewrite (proj2 (Z.ltb_lt _ _)).
Qed.

Lemma chars_concat cs : Forall is_char cs -> chars (concat cs) = cs.
Proof.
  intros Hcs. unfold chars.
  assert (Hfuel : forall fuel, (length (concat cs) <= fuel)%nat -> chars_from fuel (concat cs) = cs);
    [|by apply Hfuel].
  induction Hcs as [|c cs Hc _ IH]; intros fuel Hf; cbn [concat] in *; [by destruct fuel|].
  destruct c as [|b c]; [done|]. rewrite length_app in Hf. cbn [length] in Hf.
  destruct fuel as [|fuel]; [lia|]. pose proof (is_char_length _ _ Hc) as Hl.
  cbn [app chars_from]. rewrite <- Hl. change (b :: c ++ concat cs) with ((b :: c) ++ concat cs).
  rewrite take_app_length, drop_app_length. by rewrite IH by lia.
Qed.

Lemma concat_chars_from fuel s : (length s <= fuel)%nat -> concat (chars_from fuel s) = s.
Proof.
  revert s. induction fuel as [|fuel IH]; intros [|c s] Hf; cbn [length] in Hf; try (done || lia).
  cbn [chars_from concat]. rewrite IH, take_drop; [done|]. rewrite length_drop. cbn [length].
  assert (1 <= char_length c)%nat by (unfold char_length; repeat case_match; lia). lia.
Qed.

Lemma concat_chars s : concat (chars s) = s.
Proof. by apply concat_chars_from. Qed.

Lemma is_char_space c : is_whitespace c = true -> is_char c.
Proof.
  unfold is_whitespace. intros (w & Hin%list_elem_of_In & Hw%bool_decide_eq_true)%existsb_exists. subst w.
  revert c Hin. apply (proj1 (Forall_forall is_char WHITESPACE)).
  repeat (constructor; [vm_compute; try (split; [done|repeat constructor]); done|]). constructor.
Qed.

(** ASCII alone is a lawful part of the tables. *)
Lemma ascii_lower b : byte_of b < 128 -> byte_of (to_ascii_lowercase b) < 128
  /\ to_ascii_lowercase (to_ascii_lowercase b) = to_ascii_lowercase b.
Proof. intros H. destruct b as [[][][][][][][][]]; vm_compute in H; try discriminate H; by vm_compute. Qed.

Lemma ascii_alphanumeric_not_space b : is_ascii_alphanumeric b = true -> is_whitespace [b] = false.
Proof. intros H. destruct b as [[][][][][][][][]]; vm_compute in H; try discriminate H; by vm_compute. Qed.

Lemma ascii_tables_laws : UnicodeLaws (H := ascii_tables).
Proof.
  constructor.
  - intros [|b [|b' c]] Hc; [done| |].
    + destruct (ascii_lower b Hc) as [H1 H2]. exists [[to_ascii_lowercase b]]. split; [done|].
      constructor; [|done]. split; [exact H1|]. cbn. by rewrite H2.
    + exists [b :: b' :: c]. split; [cbn; by rewrite app_nil_r|].
      constructor; [|constructor]. by split.
  - intros [|b [|b' c]] Hc; [done| |done]. by apply ascii_alphanumeric_not_space.
Qed.

Lemma chars_nonempty s : Forall (fun c => c <> []) (chars s).
Proof.
  unfold chars. generalize (length s) as fuel. intros fuel. revert s.
  induction fuel as [|fuel IH]; intros [|c s]; try constructor; [|apply IH].
  unfold char_length. repeat case_match; done.
Qed.

Lemma split_at_whitespace_Forall (P : text -> Prop) cs : Forall P cs -> Forall (Forall P) (split_at_whitespace cs).
Proof.
  induction 1 as [|c cs Hc _ IH]; cbn [split_at_whitespace]; [by repeat constructor|].
  destruct (is_whitespace c); [by constructor|]. destruct IH as [|word words Hw Hws]; by repeat constructor.
Qed.

Lemma split_whitespace_nonempty s word : word ∈ split_whitespace s -> concat word <> [].
Proof.
  intros [Hne Hin]%list_elem_of_filter. pose proof (split_at_whitespace_Forall _ _ (chars_nonempty s)) as H.
  rewrite Forall_forall in H. specialize (H _ Hin). destruct H as [|c word Hc _]; [done|].
  cbn. by destruct c.
Qed.
