(* ===== verification/Timeline.v ===== *)
(** * Timeline: integer source time and pixel geometry

    Models [crates/vsift-domain/src/timeline.rs]: [TimeRange],
    [FrameDimensions], [CropRect] (construction, parsing, composition),
    [StreamTime] (normalization and the frame-selection bound) and
    [FrameTiming]. A [MediaTime] is a [u64] of microseconds, kept as a [Z]. *)

From Stdlib Require Import Ascii.
From S2P Require Import Prelude.
From S2P Require Import Text.

Definition MICROS_PER_SECOND : Z := 1000000.

(** The [u64] newtype of normalized microseconds. *)
Definition MediaTime : Type := Z.

Module TimeRange.
Record t := mk { start : MediaTime; end_ : MediaTime }.

Inductive error := NotPositive.

Definition new (start end_ : MediaTime) : result t error :=
  if end_ <=? start then Err NotPositive else Ok (mk start end_).

Definition duration_micros (r : t) : Z := wrap_u64 (end_ r - start r).

(** What the private fields of a [TimeRange] always satisfy. *)
Definition wf (r : t) : Prop := is_u64 (start r) /\ is_u64 (end_ r) /\ start r < end_ r.

Definition contains (r : t) (time : MediaTime) : bool :=
  (start r <=? time) && (time <? end_ r).

#[global] Instance eq_dec : EqDecision t.
Proof. solve_decision. Defined.
End TimeRange.

Module FrameDimensions.
Record t := mk { width : Z; height : Z }.

Definition quarter_turn (d : t) : t := mk (height d) (width d).

Definition wf (d : t) : Prop :=
  is_u32 (width d) /\ is_u32 (height d) /\ 0 < width d /\ 0 < height d.

#[global] Instance eq_dec : EqDecision t.
Proof. solve_decision. Defined.
End FrameDimensions.

Inductive GeometryError := ZeroSize | Overflow | OutsideFrame.

Inductive CropParseError := Malformed | Geometry (e : GeometryError).

Definition FrameDimensions_new (width height : Z) : result FrameDimensions.t GeometryError :=
  if (width =? 0) || (height =? 0) then Err ZeroSize
  else Ok (FrameDimensions.mk width height).

(** Reads one crop coordinate: ASCII digits only, no leading zero. *)
Definition parse_crop_coordinate (s : text) : option Z :=
  let canonical :=
    negb (bool_decide (s = [])) && forallb is_ascii_digit s
    && (bool_decide (s = [zero_char]) || negb (starts_with zero_char s)) in
  if canonical then parse_u32_from 0 s else None.

Module CropRect.
Record t := mk { x : Z; y : Z; width : Z; height : Z }.

Definition new (x y width height : Z) (frame : FrameDimensions.t) : result t GeometryError :=
  if (width =? 0) || (height =? 0) then Err ZeroSize
  else
    let? right := ok_or (checked_u32 (x + width)) Overflow in
    let? bottom := ok_or (checked_u32 (y + height)) Overflow in
    if (FrameDimensions.width frame <? right) || (FrameDimensions.height frame <? bottom)
    then Err OutsideFrame
    else Ok (mk x y width height).

Definition dimensions (r : t) : FrameDimensions.t := FrameDimensions.mk (width r) (height r).

(** Four coordinates from the parts, then no part left. *)
Definition parse (s : text) (frame : FrameDimensions.t) : result t CropParseError :=
  let next (parts : list text) : result (Z * list text) CropParseError :=
    match parts with
    | [] => Err Malformed
    | part :: rest =>
        let? value := ok_or (parse_crop_coordinate part) Malformed in Ok (value, rest)
    end in
  let parts := split_on comma s in
  let? a := next parts in
  let? b := next a.2 in
  let? c := next b.2 in
  let? d := next c.2 in
  match d.2 with
  | _ :: _ => Err Malformed
  | [] => map_err Geometry (new a.1 b.1 c.1 d.1 frame)
  end.

Definition compose (outer inner : t) : result t GeometryError :=
  let? within := new (x inner) (y inner) (width inner) (height inner) (dimensions outer) in
  let? x' := ok_or (checked_u32 (x outer + x within)) Overflow in
  let? y' := ok_or (checked_u32 (y outer + y within)) Overflow in
  Ok (mk x' y' (width within) (height within)).

(** A rectangle of machine integers. *)
Definition typed (r : t) : Prop :=
  is_u32 (x r) /\ is_u32 (y r) /\ is_u32 (width r) /\ is_u32 (height r).

(** A positive rectangle inside a frame. *)
Definition wf (frame : FrameDimensions.t) (r : t) : Prop :=
  0 <= x r /\ 0 <= y r /\ 0 < width r /\ 0 < height r
  /\ x r + width r <= FrameDimensions.width frame
  /\ y r + height r <= FrameDimensions.height frame.

#[global] Instance eq_dec : EqDecision t.
Proof. solve_decision. Defined.
End CropRect.

(** ** Stream timestamps *)

Inductive TimeConversionError := InvalidTimeBase | ConversionOverflow | OutsideTimeline.

(** Floor of [numerator / denominator] for a positive denominator; [/] and
    [%] of [i128] truncate toward zero. *)
Definition floor_division (numerator denominator : Z) : Z :=
  let quotient := Z.quot numerator denominator in
  if Z.rem numerator denominator <? 0 then quotient - 1 else quotient.

Definition ceiling_division (numerator denominator : Z) : Z :=
  let quotient := Z.quot numerator denominator in
  if 0 <? Z.rem numerator denominator then quotient + 1 else quotient.

Module StreamTime.
Record t := mk {
  stream_index : Z;
  presentation_timestamp : Z;
  time_base_numerator : Z;
  time_base_denominator : Z;
  timeline_offset_micros : Z
}.

Definition to_media_time (s : t) : result MediaTime TimeConversionError :=
  if (time_base_numerator s =? 0) || (time_base_denominator s =? 0) then Err InvalidTimeBase
  else
    let? value := ok_or (checked_i128 (presentation_timestamp s * time_base_numerator s))
                    ConversionOverflow in
    let? scaled := ok_or (checked_i128 (value * MICROS_PER_SECOND)) ConversionOverflow in
    let? normalized :=
      ok_or (checked_i128 (Z.quot scaled (time_base_denominator s) + timeline_offset_micros s))
        ConversionOverflow in
    ok_or (checked_u64 normalized) OutsideTimeline.

Definition first_at_or_after (stream_index numerator denominator offset : Z) (time : MediaTime)
    : result t TimeConversionError :=
  if (numerator =? 0) || (denominator =? 0) then Err InvalidTimeBase
  else
    let scale := wrap_i128 (numerator * MICROS_PER_SECOND) in
    let target := wrap_i128 (time - offset) in
    let bound :=
      if 0 <? target
      then ceiling_division (wrap_i128 (target * denominator)) scale
      else wrap_i128 (floor_division (wrap_i128 (wrap_i128 (target - 1) * denominator)) scale + 1)
    in
    let? presentation_timestamp := ok_or (checked_i64 bound) ConversionOverflow in
    Ok (mk stream_index presentation_timestamp numerator denominator offset).

(** The normalized time of a timestamp before it is narrowed to [u64]. *)
Definition normalized (s : t) : Z :=
  Z.quot (presentation_timestamp s * time_base_numerator s * MICROS_PER_SECOND)
    (time_base_denominator s) + timeline_offset_micros s.

Definition with_timestamp (s : t) (p : Z) : t :=
  mk (stream_index s) p (time_base_numerator s) (time_base_denominator s)
    (timeline_offset_micros s).

Definition typed (s : t) : Prop :=
  is_u32 (stream_index s) /\ is_i64 (presentation_timestamp s)
  /\ is_u32 (time_base_numerator s) /\ is_u32 (time_base_denominator s)
  /\ is_i64 (timeline_offset_micros s).
End StreamTime.

Module FrameTiming.
Record t := mk { requested : MediaTime; actual : MediaTime; delta_micros : Z }.

Definition new (requested actual : MediaTime) : result t TimeConversionError :=
  let? delta_micros := ok_or (checked_i64 (actual - requested)) ConversionOverflow in
  Ok (mk requested actual delta_micros).
End FrameTiming.

(** ** Ranges *)

Lemma duration_exact r :
  TimeRange.wf r -> TimeRange.duration_micros r = TimeRange.end_ r - TimeRange.start r.
Proof. intros (? & ? & ?). unfold TimeRange.duration_micros. apply wrap_u64_id. ulia. Qed.

Lemma TimeRange_new_Ok start end_ r :
  is_u64 start -> is_u64 end_ -> result_ok (TimeRange.new start end_) = Some r ->
  TimeRange.wf r /\ TimeRange.start r = start /\ TimeRange.end_ r = end_.
Proof.
  intros Hs He. unfold TimeRange.new. destruct (end_ <=? start) eqn:E; [done|]. bool_prop.
  intros [= <-]. by repeat split; cbn; try lia; apply Hs || apply He.
Qed.

(** ** Division toward zero and the rounding helpers *)

Lemma quot_threshold a d t :
  0 < d ->
  t <= Z.quot a d <-> (if 0 <? t then t * d <= a else (t - 1) * d < a).
Proof.
  intros Hd. pose proof (Z.quot_rem' a d) as Hqr.
  destruct (Z.le_gt_cases 0 a) as [Ha|Ha].
  - pose proof (Z.rem_bound_pos a d Ha Hd). pose proof (Z.quot_pos a d Ha Hd).
    destruct (0 <? t) eqn:Ht; bool_prop; split; intros; nia.
  - pose proof (Z.rem_bound_pos_neg a d Hd ltac:(lia)).
    assert (Z.quot a d <= 0) by (apply Z.quot_le_upper_bound; lia).
    destruct (0 <? t) eqn:Ht; bool_prop; split; intros; nia.
Qed.

Lemma floor_division_spec a d p : 0 < d -> floor_division a d + 1 <= p <-> a < p * d.
Proof.
  intros Hd. unfold floor_division. pose proof (Z.quot_rem' a d).
  pose proof (Z.rem_bound_abs a d ltac:(lia)).
  destruct (Z.rem a d <? 0) eqn:E; bool_prop; split; intros; nia.
Qed.

Lemma ceiling_division_spec a d p : 0 < d -> ceiling_division a d <= p <-> a <= p * d.
Proof.
  intros Hd. unfold ceiling_division. pose proof (Z.quot_rem' a d).
  pose proof (Z.rem_bound_abs a d ltac:(lia)).
  destruct (0 <? Z.rem a d) eqn:E; bool_prop; split; intros; nia.
Qed.

Module StreamTimeFacts.
Import StreamTime.

(** Every typed conversion stays inside [i128], so only the base and the
    final narrowing can fail. *)
Lemma to_media_time_exact s :
  typed s -> time_base_numerator s <> 0 -> time_base_denominator s <> 0 ->
  to_media_time s = ok_or (checked_u64 (normalized s)) OutsideTimeline.
Proof.
  intros (_ & Hp & Hn & Hd & Ho) Hn0 Hd0. unfold to_media_time, normalized.
  apply Z.eqb_neq in Hn0 as ->. pose proof Hd0 as Hd1. apply Z.eqb_neq in Hd1 as ->.
  cbn [orb]. unfold checked_i128, MICROS_PER_SECOND.
  set (p := presentation_timestamp s) in *. set (n := time_base_numerator s) in *.
  set (d := time_base_denominator s) in *.
  rewrite checked_in by (unfold_widths; nia). cbn [ok_or result_bind].
  rewrite checked_in by (unfold_widths; nia). cbn [ok_or result_bind].
  assert (Hq : Z.abs (Z.quot (p * n * 1000000) d) <= Z.abs (p * n * 1000000)).
  { rewrite <- Z.quot_abs by done. rewrite Z.quot_div_nonneg by (unfold_widths; lia).
    apply Z.div_le_upper_bound; [unfold_widths; lia|].
    pose proof (Z.abs_nonneg (p * n * 1000000)). unfold_widths. nia. }
  assert (Z.abs (p * n * 1000000) <= 9223372036854775808 * 4294967295 * 1000000)
    by (unfold_widths; nia).
  rewrite checked_in by (unfold_widths; lia). done.
Qed.

Lemma normalized_with_timestamp s p :
  normalized (with_timestamp s p) =
  Z.quot (p * (time_base_numerator s * MICROS_PER_SECOND)) (time_base_denominator s)
  + timeline_offset_micros s.
Proof. unfold normalized, with_timestamp. cbn. by rewrite Z.mul_assoc. Qed.

(** The bound the code computes, before it is narrowed to [i64]. *)
Definition exact_bound (numerator denominator offset time : Z) : Z :=
  let scale := numerator * MICROS_PER_SECOND in
  let target := time - offset in
  if 0 <? target then ceiling_division (target * denominator) scale
  else floor_division ((target - 1) * denominator) scale + 1.

Lemma exact_bound_threshold s time p :
  0 < time_base_numerator s -> 0 < time_base_denominator s ->
  exact_bound (time_base_numerator s) (time_base_denominator s) (timeline_offset_micros s) time
    <= p <-> time <= normalized (with_timestamp s p).
Proof.
  intros Hn Hd. rewrite normalized_with_timestamp. unfold exact_bound.
  set (scale := time_base_numerator s * MICROS_PER_SECOND).
  assert (0 < scale) by (unfold scale, MICROS_PER_SECOND; lia).
  set (target := time - timeline_offset_micros s).
  transitivity (target <= Z.quot (p * scale) (time_base_denominator s)); [|lia].
  rewrite quot_threshold by done.
  destruct (0 <? target).
  - by apply ceiling_division_spec.
  - by apply floor_division_spec.
Qed.

Lemma floor_division_abs a d : 0 < d -> Z.abs (floor_division a d) <= Z.abs a.
Proof.
  intros Hd. unfold floor_division. pose proof (Z.quot_rem' a d).
  pose proof (Z.rem_bound_abs a d ltac:(lia)).
  destruct (Z.rem a d <? 0) eqn:E; bool_prop; [|nia].
  pose proof (Z.rem_nonneg a d ltac:(lia)). nia.
Qed.

(** No [i128] operation of the bound wraps. *)
Lemma first_at_or_after_exact si n d off time :
  is_u32 n -> is_u32 d -> is_i64 off -> is_u64 time -> n <> 0 -> d <> 0 ->
  first_at_or_after si n d off time =
  (let? pts := ok_or (checked_i64 (exact_bound n d off time)) ConversionOverflow in
   Ok (mk si pts n d off)).
Proof.
  intros Hn Hd Ho Ht Hn0 Hd0. unfold first_at_or_after, exact_bound.
  apply Z.eqb_neq in Hn0 as Hn1. apply Z.eqb_neq in Hd0 as Hd1. rewrite Hn1, Hd1. cbn [orb].
  unfold MICROS_PER_SECOND.
  rewrite (wrap_i128_id (n * 1000000)) by (unfold_widths; nia).
  rewrite (wrap_i128_id (time - off)) by (unfold_widths; lia).
  set (target := time - off) in *.
  assert (-9223372036854775808 <= target <= 27670116110564327424) by (unfold_widths; lia).
  rewrite (wrap_i128_id (target * d)) by (unfold_widths; nia).
  rewrite (wrap_i128_id (target - 1)) by (unfold_widths; lia).
  rewrite (wrap_i128_id ((target - 1) * d)) by (unfold_widths; nia).
  destruct (0 <? target); [done|].
  pose proof (floor_division_abs ((target - 1) * d) (n * 1000000) ltac:(unfold_widths; nia)).
  rewrite wrap_i128_id; [done|].
  assert (Z.abs ((target - 1) * d) <= 27670116110564327424 * 4294967295) by (unfold_widths; nia).
  unfold_widths. lia.
Qed.
End StreamTimeFacts.

Section FrameSelection.
Import StreamTime StreamTimeFacts.

(** [first_at_or_after] answers exactly which timestamps of a stream show a
    frame at or after a requested time, on every branch: a returned bound
    separates them, an overflow means no [i64] timestamp separates them, and
    a base with a zero is refused. A timestamp whose normalized time does not
    fit is beyond the timeline's end only when it is past the bound.
    Claim C36. *)
Theorem first_at_or_after_selects_frames si n d off time :
  is_u32 si -> is_u32 n -> is_u32 d -> is_i64 off -> is_u64 time ->
  match first_at_or_after si n d off time with
  | Ok bound =>
      forall p, is_i64 p ->
        match to_media_time (with_timestamp bound p) with
        | Ok m => time <= m <-> presentation_timestamp bound <= p
        | Err e => e = OutsideTimeline
                   /\ (presentation_timestamp bound <= p
                       <-> U64_MAX < normalized (with_timestamp bound p))
        end
  | Err ConversionOverflow =>
      (forall p, is_i64 p -> time <= normalized (mk si p n d off))
      \/ (forall p, is_i64 p -> normalized (mk si p n d off) < time)
  | Err InvalidTimeBase => n = 0 \/ d = 0
  | Err OutsideTimeline => False
  end.
Proof.
  intros Hsi Hn Hd Ho Ht.
  destruct (decide (n = 0)) as [->|Hn0]; [left; done|].
  destruct (decide (d = 0)) as [->|Hd0].
  { unfold first_at_or_after. rewrite orb_true_r. by right. }
  rewrite first_at_or_after_exact by done.
  assert (Hthr : forall p, exact_bound n d off time <= p <->
                           time <= normalized (mk si p n d off)).
  { intros p. apply (exact_bound_threshold (mk si p n d off)); cbn; ulia. }
  destruct (checked_i64 (exact_bound n d off time)) as [pts|] eqn:E; cbn.
  - apply checked_Some in E as [-> Hb]. intros p Hp.
    rewrite to_media_time_exact by (unfold typed; cbn; done || auto).
    change (with_timestamp _ p) with (mk si p n d off).
    destruct (checked_u64 _) as [m|] eqn:Em; cbn [ok_or presentation_timestamp]; rewrite Hthr.
    + by apply checked_Some in Em as [-> _].
    + apply checked_None in Em. split; [done|]. unfold_widths. lia.
  - apply checked_None in E.
    destruct (Z.le_gt_cases (exact_bound n d off time) I64_MIN).
    + left. intros p Hp. apply Hthr. ulia.
    + right. intros p Hp. apply Z.nle_gt. rewrite <- Hthr. ulia.
Qed.

Lemma first_at_or_after_selects_frames_witness :
  first_at_or_after 0 1 90000 0 33367
    = Ok (mk 0 3004 1 90000 0)
  /\ (33367 <= 33377 <-> 3004 <= 3004).
Proof.
  assert (E : first_at_or_after 0 1 90000 0 33367 = Ok (mk 0 3004 1 90000 0))
    by (vm_compute; reflexivity).
  split; [exact E|].
  pose proof (first_at_or_after_selects_frames 0 1 90000 0 33367
    ltac:(ulia) ltac:(ulia) ltac:(ulia) ltac:(ulia) ltac:(ulia)) as H.
  rewrite E in H. specialize (H 3004 ltac:(ulia)).
  assert (E' : to_media_time (with_timestamp (mk 0 3004 1 90000 0) 3004) = Ok 33377)
    by (vm_compute; reflexivity).
  rewrite E' in H. exact H.
Defined.
End FrameSelection.

(** ** Crop rectangles *)

Section CropFacts.
Import CropRect.

Lemma crop_new_spec x y w h frame :
  FrameDimensions.wf frame -> is_u32 x -> is_u32 y -> is_u32 w -> is_u32 h ->
  match new x y w h frame with
  | Ok r => r = mk x y w h /\ wf frame r
  | Err _ => ~ wf frame (mk x y w h)
  end.
Proof.
  intros Hf Hx Hy Hw Hh. unfold new, wf. cbn.
  destruct ((w =? 0) || (h =? 0)) eqn:E0; bool_prop; [lia|].
  destruct (checked_u32 (x + w)) as [right|] eqn:E1; cbn;
    [apply checked_Some in E1 as [-> _]|apply checked_None in E1; unfold FrameDimensions.wf in Hf; ulia].
  destruct (checked_u32 (y + h)) as [bottom|] eqn:E2; cbn;
    [apply checked_Some in E2 as [-> _]|apply checked_None in E2; unfold FrameDimensions.wf in Hf; ulia].
  destruct (_ || _) eqn:E3; bool_prop; cbn; [lia|]. split; [done|]. ulia.
Qed.

Lemma crop_new_Ok x y w h frame r :
  FrameDimensions.wf frame -> is_u32 x -> is_u32 y -> is_u32 w -> is_u32 h ->
  new x y w h frame = Ok r <-> r = mk x y w h /\ wf frame r.
Proof.
  intros Hf Hx Hy Hw Hh. pose proof (crop_new_spec x y w h frame Hf Hx Hy Hw Hh) as H.
  destruct (new x y w h frame); split; [by intros [= ->]| |done|].
  - intros [-> _]. by destruct H as [-> _].
  - by intros [-> ?].
Qed.

Lemma crop_wf_typed frame r : FrameDimensions.wf frame -> wf frame r -> typed r.
Proof. unfold FrameDimensions.wf, wf, typed. ulia. Qed.

Lemma crop_dimensions_wf frame r :
  FrameDimensions.wf frame -> wf frame r -> FrameDimensions.wf (dimensions r).
Proof. unfold FrameDimensions.wf, wf, dimensions. cbn. ulia. Qed.

(** A crop of a crop names source pixels: composition succeeds exactly when
    the inner rectangle lies in the outer crop's own image, the result lies
    in the original frame, and a pixel of the inner rectangle is the pixel of
    the result at the same place. Nothing of it can overflow. *)
Theorem crop_compose_lineage frame outer inner :
  FrameDimensions.wf frame -> wf frame outer -> typed inner ->
  match compose outer inner with
  | Ok r =>
      wf (dimensions outer) inner /\ wf frame r
      /\ (forall px py,
            (x r <= px < x r + width r /\ y r <= py < y r + height r)
            <-> (x inner <= px - x outer < x inner + width inner
                 /\ y inner <= py - y outer < y inner + height inner))
  | Err _ => ~ wf (dimensions outer) inner
  end.
Proof.
  intros Hf Ho (Hx & Hy & Hw & Hh). unfold compose.
  pose proof (crop_new_spec (x inner) (y inner) (width inner) (height inner) (dimensions outer)
    (crop_dimensions_wf _ _ Hf Ho) Hx Hy Hw Hh) as Hnew.
  destruct (new _ _ _ _ _) as [within|]; cbn [result_bind]; [|by destruct inner].
  destruct Hnew as [-> Hin]. destruct inner as [ix iy iw ih], outer as [ox oy ow oh].
  unfold wf, FrameDimensions.wf, dimensions in *. cbn in *. unfold checked_u32.
  rewrite checked_in by ulia. cbn. rewrite checked_in by ulia. cbn.
  repeat split; lia.
Qed.

Lemma crop_compose_lineage_witness :
  compose (mk 100 50 64 48) (mk 10 20 30 28) = Ok (mk 110 70 30 28)
  /\ (110 <= 110 < 110 + 30 <-> 10 <= 110 - 100 < 10 + 30).
Proof.
  pose proof (crop_compose_lineage (FrameDimensions.mk 640 480) (mk 100 50 64 48)
    (mk 10 20 30 28) ltac:(concrete) ltac:(concrete) ltac:(concrete)) as H.
  assert (E : compose (mk 100 50 64 48) (mk 10 20 30 28) = Ok (mk 110 70 30 28))
    by (vm_compute; reflexivity).
  rewrite E in H. destruct H as (_ & _ & H). specialize (H 110 70). cbn in H.
  split; [exact E|]. lia.
Defined.

(** The public text form of a rectangle. *)
Definition print_crop (r : t) : text :=
  join_with comma [decimal (x r); decimal (y r); decimal (width r); decimal (height r)].

Lemma decimal_u32 v :
  is_u32 v -> forallb is_ascii_digit (decimal v) = true /\ digits_value 0 (decimal v) = v.
Proof. intros H. apply decimal_digits_value. split; [ulia|]. cbn. ulia. Qed.

(** A coordinate has exactly one spelling, its decimal form. *)
Lemma parse_crop_coordinate_iff s v :
  parse_crop_coordinate s = Some v <-> is_u32 v /\ s = decimal v.
Proof.
  unfold parse_crop_coordinate. split.
  - destruct (_ && _ && _) eqn:E; [|done].
    apply andb_true_iff in E as [[Hne Hd]%andb_true_iff Hz].
    rewrite parse_u32_from_value by (done || ulia). intros [-> Hv]%checked_Some.
    split; [done|]. symmetry. apply (canonical_digits_decimal 19); [done| | |cbn; ulia].
    + apply negb_true_iff, bool_decide_eq_false in Hne. done.
    + apply orb_true_iff in Hz as [Hz|Hz].
      * left. by apply bool_decide_eq_true in Hz.
      * right. by apply negb_true_iff in Hz.
  - intros [Hv ->]. destruct (decimal_u32 v Hv) as [Hd Hval].
    destruct (decimal_digits_canonical 19 v) as [Hne Hz]; [cbn; ulia|].
    change (decimal_digits 20 v) with (decimal v) in *.
    rewrite parse_u32_from_value, Hval, Hd by (done || ulia).
    rewrite bool_decide_eq_false_2 by done. cbn [negb andb].
    destruct Hz as [Hz|Hz].
    + rewrite bool_decide_eq_true_2 by done. cbn. by apply checked_in.
    + rewrite Hz, orb_true_r. by apply checked_in.
Qed.

(** [CropRect::parse] accepts exactly the canonical text of a rectangle of
    the frame: one spelling names one rectangle, printing and parsing are
    inverse to each other, and every other text is refused. *)
Theorem crop_parse_canonical s frame r :
  FrameDimensions.wf frame ->
  parse s frame = Ok r <-> wf frame r /\ s = print_crop r.
Proof.
  intros Hf. unfold parse, print_crop. split.
  - pose proof (join_split comma s) as Hj.
    destruct (split_on comma s) as [|p0 [|p1 [|p2 [|p3 ps]]]];
      cbn [result_bind snd]; intros H;
      repeat (destruct (parse_crop_coordinate _) as [?v|] eqn:?E in H; cbn in H; [|discriminate H]);
      try discriminate H.
    destruct ps; [|discriminate H].
    apply parse_crop_coordinate_iff in E as [? ->], E0 as [? ->], E1 as [? ->], E2 as [? ->].
    destruct (new v v0 v1 v2 frame) as [r'|] eqn:En; cbn in H; [|discriminate H].
    injection H as <-. apply crop_new_Ok in En as [-> Hr]; [|done..].
    split; [exact Hr|]. symmetry. exact Hj.
  - intros [Hr ->]. pose proof (crop_wf_typed _ _ Hf Hr) as (Hx & Hy & Hw & Hh).
    assert (Hsep : forall v, is_u32 v -> Forall (fun c => c <> comma) (decimal v)).
    { intros v Hv. apply digits_not_sep; [done|]. by apply decimal_u32. }
    assert (Hp : forall v, is_u32 v -> parse_crop_coordinate (decimal v) = Some v).
    { intros v Hv. by apply parse_crop_coordinate_iff. }
    cbn [join_with].
    rewrite !split_on_app, split_on_single by auto.
    cbn. repeat (rewrite Hp by done; cbn).
    destruct (crop_new_Ok (x r) (y r) (width r) (height r) frame r) as [_ ->]; try done.
    split; [by destruct r|done].
Qed.

Lemma crop_parse_canonical_witness :
  parse (String.list_ascii_of_string "120,280,480,110") (FrameDimensions.mk 1440 900)
    = Ok (mk 120 280 480 110)
  /\ parse (String.list_ascii_of_string "0120,280,480,110") (FrameDimensions.mk 1440 900)
    <> Ok (mk 120 280 480 110).
Proof.
  pose proof (crop_parse_canonical (String.list_ascii_of_string "0120,280,480,110")
    (FrameDimensions.mk 1440 900) (mk 120 280 480 110) ltac:(concrete)) as H.
  split.
  - vm_compute. reflexivity.
  - rewrite H. intros [_ E]. vm_compute in E. discriminate E.
Defined.
End CropFacts.
