(* ===== verification/Spans.v ===== *)
(** * Spans: half-open spans of source time

    Models [merged], [overlaps_any] and [subtract] of
    [crates/vsift-domain/src/spans.rs]. A list is canonical ("merged" in the
    code) when it is sorted, holds no empty span and has no two spans that
    overlap or touch; a list of spans covers the instants its spans hold. *)

From S2P Require Import Prelude.
From S2P Require Import Timeline.

Abbreviation Span := (Z * Z)%type.

Definition span (range : TimeRange.t) : Span := (TimeRange.start range, TimeRange.end_ range).

Definition to_range (s : Span) : option TimeRange.t := result_ok (TimeRange.new s.1 s.2).

Definition to_ranges (spans : list Span) : list TimeRange.t := omap to_range spans.

(** The lexicographic order of [(u64, u64)] that [sort_unstable] uses. *)
Definition span_le (a b : Span) : Prop := a.1 < b.1 \/ (a.1 = b.1 /\ a.2 <= b.2).

#[export] Instance span_le_dec : RelDecision span_le.
Proof. intros a b. unfold span_le. apply _. Defined.

(** One step of the merging loop; the result is kept last span first. *)
Definition merge_into (acc : list Span) (s : Span) : list Span :=
  match acc with
  | last :: rest => if s.1 <=? last.2 then (last.1, Z.max last.2 s.2) :: rest else s :: acc
  | [] => [s]
  end.

Definition merged (spans : list Span) : list Span :=
  let retained := filter (fun s => s.1 < s.2) spans in
  let sorted := merge_sort span_le retained in
  reverse (fold_left merge_into sorted []).

Definition overlaps_any (spans : list Span) (candidate : Span) : bool :=
  let first_ending_after := partition_point (fun s : Span => s.2 <=? candidate.1) spans in
  match spans !! first_ending_after with
  | Some s => s.1 <? candidate.2
  | None => false
  end.

(** The inner loop of [subtract] for one span, from [cursor]. *)
Fixpoint subtract_from (cursor end_ : Z) (removed : list Span) : list Span :=
  match removed with
  | [] => if cursor <? end_ then [(cursor, end_)] else []
  | r :: rest =>
      if r.2 <=? cursor then subtract_from cursor end_ rest
      else if end_ <=? r.1 then (if cursor <? end_ then [(cursor, end_)] else [])
      else
        let pushed := if cursor <? r.1 then [(cursor, r.1)] else [] in
        let cursor' := Z.max cursor r.2 in
        if end_ <=? cursor' then pushed else pushed ++ subtract_from cursor' end_ rest
  end.

Definition subtract (spans removed : list Span) : list Span :=
  s ← spans; subtract_from s.1 s.2 removed.

(** ** Specification *)

(** [canon lo l]: [l] is canonical and starts after [lo]. *)
Fixpoint canon (lo : Z) (l : list Span) : Prop :=
  match l with
  | [] => True
  | s :: rest => lo < s.1 /\ s.1 < s.2 /\ canon s.2 rest
  end.

(** A canonical list of [u64] spans. *)
Definition canonical (l : list Span) : Prop := canon (-1) l.

(** Spans of machine integers. *)
Definition spans_typed (l : list Span) : Prop := Forall (fun s => is_u64 s.1 /\ is_u64 s.2) l.

Definition in_span (s : Span) (x : Z) : Prop := s.1 <= x < s.2.

Definition covers (l : list Span) (x : Z) : Prop := Exists (fun s => in_span s x) l.

(** Two lists cover the same instants. *)
Definition same_cover (l l' : list Span) : Prop := forall x, covers l x <-> covers l' x.

#[export] Instance same_cover_equivalence : Equivalence same_cover.
Proof. unfold same_cover. split; red; naive_solver. Qed.

(** ** Facts on canonical lists *)

Lemma covers_nil x : covers [] x <-> False.
Proof. unfold covers. by rewrite Exists_nil. Qed.

Lemma covers_cons s l x : covers (s :: l) x <-> in_span s x \/ covers l x.
Proof. unfold covers. by rewrite Exists_cons. Qed.

Lemma covers_app l l' x : covers (l ++ l') x <-> covers l x \/ covers l' x.
Proof. unfold covers. by rewrite Exists_app. Qed.

Lemma covers_perm l l' : l ≡ₚ l' -> same_cover l l'.
Proof. intros H x. unfold covers. by rewrite H. Qed.

#[export] Instance covers_proper : Proper (same_cover ==> eq ==> iff) covers.
Proof. intros l l' H x ? <-. apply H. Qed.

#[export] Instance app_same_cover : Proper (same_cover ==> same_cover ==> same_cover) (app (A:=Span)).
Proof. intros a a' Ha b b' Hb x. by rewrite !covers_app, (Ha x), (Hb x). Qed.

Lemma canon_weaken lo lo' l : lo' <= lo -> canon lo l -> canon lo' l.
Proof. destruct l; cbn; [done|]. intuition lia. Qed.

Lemma canon_covers_gt lo l x : canon lo l -> covers l x -> lo < x.
Proof.
  revert lo. induction l as [|s l IH]; intros lo; [by rewrite covers_nil|].
  intros (Hlo & Hs & Hl). rewrite covers_cons. intros [H|H]; [unfold in_span in H; lia|].
  specialize (IH _ Hl H). lia.
Qed.

Lemma canon_app lo l l' :
  canon lo (l ++ l') <-> canon lo l /\ canon (default lo (snd <$> last l)) l'.
Proof.
  revert lo. induction l as [|s l IH]; intros lo; [cbn; naive_solver|].
  cbn [app canon]. rewrite IH. destruct l as [|s' l]; [cbn; naive_solver|].
  rewrite last_cons_cons. destruct (last (s' :: l)) eqn:E; [cbn; naive_solver|].
  by apply last_None in E.
Qed.

Lemma canon_nonneg lo l : -1 <= lo -> canon lo l -> Forall (fun s => 0 <= s.1) l.
Proof.
  revert lo. induction l as [|s l IH]; intros lo Hlo; [by constructor|].
  intros (H1 & H2 & H3). constructor; [lia|]. apply (IH s.2); [lia|done].
Qed.

Lemma canon_last_gt lo l s : canon lo l -> last l = Some s -> lo < s.2.
Proof.
  revert lo. induction l as [|s' l IH]; intros lo; [done|].
  intros (H1 & H2 & H3). destruct l as [|s'' l]; [intros [= ->]; lia|].
  intros H. specialize (IH _ H3 H). lia.
Qed.

(** The instants below the end of the first span are in the first span. *)
Lemma canon_covers_head lo s l x :
  canon lo (s :: l) -> x < s.2 -> covers (s :: l) x <-> s.1 <= x.
Proof.
  intros (H1 & H2 & H3) Hx. rewrite covers_cons. unfold in_span. split; [|lia].
  intros [H|H]; [lia|]. apply (canon_covers_gt _ _ _ H3) in H. lia.
Qed.

Lemma canon_head_start lo s s' l l' :
  canon lo (s :: l) -> canon lo (s' :: l') -> same_cover (s :: l) (s' :: l') -> s.1 <= s'.1.
Proof.
  intros H H' Hc.
  destruct (Z.le_gt_cases s.1 s'.1) as [|Hlt]; [done|exfalso].
  destruct H' as (Ha & Hb & _).
  assert (Hx : covers (s :: l) s'.1).
  { apply Hc. rewrite covers_cons. left. unfold in_span. lia. }
  destruct H as (Hc' & Hd & He). rewrite covers_cons in Hx. destruct Hx as [Hx|Hx].
  - unfold in_span in Hx. lia.
  - apply (canon_covers_gt _ _ _ He) in Hx. lia.
Qed.

Lemma canon_head_end lo s s' l l' :
  canon lo (s :: l) -> canon lo (s' :: l') -> s.1 = s'.1 ->
  same_cover (s :: l) (s' :: l') -> s.2 <= s'.2.
Proof.
  intros (H1 & H2 & H3) (H1' & H2' & H3') Heq Hc.
  destruct (Z.le_gt_cases s.2 s'.2) as [|Hlt]; [done|exfalso].
  assert (Hx : covers (s' :: l') s'.2).
  { apply Hc. rewrite covers_cons. left. unfold in_span. lia. }
  rewrite covers_cons in Hx. destruct Hx as [Hx|Hx]; [unfold in_span in Hx; lia|].
  destruct l' as [|s'' l']; [by rewrite covers_nil in Hx|].
  apply (canon_covers_gt _ _ _ H3') in Hx. lia.
Qed.

Lemma same_cover_nil lo s l : canon lo (s :: l) -> ~ same_cover (s :: l) [].
Proof.
  intros (_ & H & _) Hc. apply (covers_nil s.1), Hc. rewrite covers_cons. left.
  unfold in_span. lia.
Qed.

(** A set of instants has one canonical list. *)
Lemma canon_unique lo l l' : canon lo l -> canon lo l' -> same_cover l l' -> l = l'.
Proof.
  revert lo l'. induction l as [|s l IH]; intros lo [|s' l'] H H' Hc; [done|..].
  - destruct (same_cover_nil _ _ _ H'). by symmetry.
  - by destruct (same_cover_nil _ _ _ H).
  - assert (Hst : s.1 = s'.1).
    { apply Z.le_antisymm; eapply canon_head_start; try eassumption. by symmetry. }
    assert (Hen : s.2 = s'.2).
    { apply Z.le_antisymm; eapply canon_head_end; try eassumption; by symmetry. }
    destruct s as [a b], s' as [a' b']. cbn in *. subst a' b'. f_equal.
    destruct H as (H1 & H2 & H3), H' as (_ & _ & H3').
    apply (IH b); [done|done|]. intros x.
    specialize (Hc x). rewrite !covers_cons in Hc.
    pose proof (canon_covers_gt _ _ x H3). pose proof (canon_covers_gt _ _ x H3').
    unfold in_span in Hc. cbn in *. split; intros Hx; destruct (proj1 Hc) || destruct (proj2 Hc);
      try (by right); try done; intuition lia.
Qed.

(** ** [merged] *)

#[export] Instance span_le_total : Total span_le.
Proof. intros a b. unfold span_le. lia. Qed.

#[export] Instance span_le_transitive : Transitive span_le.
Proof. intros a b c. unfold span_le. lia. Qed.

(** The loop invariant: the spans merged so far, in order, are canonical and
    cover what was consumed, and the rest starts no earlier than the last. *)
Lemma merge_loop lo l acc :
  canon lo (reverse acc) ->
  Forall (fun s => lo < s.1 /\ s.1 < s.2) l ->
  StronglySorted span_le l ->
  Forall (fun s => forall m, head acc = Some m -> m.1 <= s.1) l ->
  canon lo (reverse (fold_left merge_into l acc))
  /\ same_cover (reverse (fold_left merge_into l acc)) (reverse acc ++ l).
Proof.
  revert acc. induction l as [|s l IH]; intros acc Hacc Hpos Hsort Hord; cbn [fold_left].
  { by rewrite app_nil_r. }
  apply Forall_cons in Hpos as [[Hlo Hs] Hpos]. apply Forall_cons in Hord as [Hos Hord].
  apply StronglySorted_inv in Hsort as [Hsort Hle].
  assert (Hstep : canon lo (reverse (merge_into acc s))
    /\ same_cover (reverse (merge_into acc s)) (reverse acc ++ [s])
    /\ exists m, head (merge_into acc s) = Some m /\ m.1 <= s.1).
  { destruct acc as [|m acc]; cbn [merge_into].
    - split; [cbn; lia|]. split; [done|]. exists s. split; [done|lia].
    - specialize (Hos m eq_refl). rewrite !reverse_cons in *.
      apply canon_app in Hacc as [Ha (Hm1 & Hm2 & _)].
      destruct (s.1 <=? m.2) eqn:E; bool_prop.
      + rewrite reverse_cons. split; [|split].
        * apply canon_app. split; [done|]. cbn. lia.
        * intros x. rewrite !covers_app, !covers_cons, !covers_nil. unfold in_span. cbn.
          split; intuition lia.
        * exists (m.1, Z.max m.2 s.2). split; [done|cbn; lia].
      + rewrite !reverse_cons. split; [|split].
        * apply canon_app. rewrite last_snoc. cbn. split; [|lia].
          apply canon_app. split; [done|]. cbn. lia.
        * done.
        * exists s. split; [done|lia]. }
  destruct Hstep as (Hc & Hcov & m & Hm & Hms).
  destruct (IH (merge_into acc s)) as [HA HB]; [done|done|done| |].
  - apply Forall_forall. intros s' Hs' m' Hm'. rewrite Forall_forall in Hle.
    specialize (Hle s' Hs'). unfold span_le in Hle. rewrite Hm in Hm'. injection Hm' as <-. lia.
  - split; [done|]. rewrite HB, Hcov. by rewrite <- app_assoc.
Qed.

Lemma filter_covers l : same_cover (filter (fun s : Span => s.1 < s.2) l) l.
Proof.
  intros x. unfold covers. rewrite !Exists_exists. unfold in_span. split.
  - intros (s & Hs & Hx). apply list_elem_of_filter in Hs as [_ Hs]. by exists s.
  - intros (s & Hs & Hx). exists s. split; [|done]. apply list_elem_of_filter.
    split; [lia|done].
Qed.

Lemma merged_spec l :
  Forall (fun s => 0 <= s.1) l -> canonical (merged l) /\ same_cover (merged l) l.
Proof.
  intros Hty. unfold merged, canonical.
  set (kept := filter (fun s : Span => s.1 < s.2) l).
  pose proof (merge_sort_Permutation span_le kept) as Hperm.
  destruct (merge_loop (-1) (merge_sort span_le kept) []) as [HA HB].
  - done.
  - rewrite Hperm. apply Forall_forall. intros s Hs. apply list_elem_of_filter in Hs as [Hlt Hs].
    rewrite Forall_forall in Hty. specialize (Hty s Hs). lia.
  - apply (StronglySorted_merge_sort span_le). 
  - apply Forall_forall. by intros s _ m [=].
  - split; [exact HA|]. etransitivity; [exact HB|].
    change (reverse [] ++ merge_sort span_le kept) with (merge_sort span_le kept).
    rewrite (covers_perm _ _ Hperm). apply filter_covers.
Qed.

(** [merged] gives the one canonical list of the instants its input covers:
    sorted, with no empty span and no two spans that touch; merging again
    changes nothing, and lists that cover the same instants merge to the same
    list. *)
Theorem merged_canonical_form l :
  spans_typed l ->
  canonical (merged l)
  /\ (forall x, covers (merged l) x <-> covers l x)
  /\ (forall l', canonical l' -> same_cover l' l -> l' = merged l)
  /\ merged (merged l) = merged l.
Proof.
  intros Hty.
  assert (Hnn : Forall (fun s => 0 <= s.1) l).
  { eapply Forall_impl; [exact Hty|]. intros s [H _]. ulia. }
  destruct (merged_spec l Hnn) as [Hcan Hcov].
  assert (Huniq : forall l', canonical l' -> same_cover l' l -> l' = merged l).
  { intros l' Hl' Hc. apply (canon_unique (-1)); [done|done|]. rewrite Hcov. exact Hc. }
  split; [done|]. split; [done|]. split; [exact Huniq|].
  destruct (merged_spec (merged l) (canon_nonneg (-1) _ ltac:(lia) Hcan)) as [Hcan' Hcov'].
  apply Huniq; [done|]. by rewrite Hcov'.
Qed.

Lemma merged_canonical_form_witness :
  merged [(20, 30); (5, 9); (8, 20); (40, 40)] = [(5, 30)]
  /\ merged [(5, 30)] = [(5, 30)].
Proof.
  destruct (merged_canonical_form [(20, 30); (5, 9); (8, 20); (40, 40)]) as (_ & _ & _ & H).
  { repeat constructor; concrete. }
  assert (E : merged [(20, 30); (5, 9); (8, 20); (40, 40)] = [(5, 30)])
    by (vm_compute; reflexivity).
  rewrite E in H. split; [exact E|exact H].
Defined.

(** ** [overlaps_any] *)

Lemma canon_lookup_order lo l i j a b :
  canon lo l -> l !! i = Some a -> l !! j = Some b -> (i < j)%nat -> a.2 < b.1.
Proof.
  revert lo i j. induction l as [|s l IH]; intros lo i j; [done|].
  intros (H1 & H2 & H3) Hi Hj Hij. destruct j as [|j]; [lia|]. destruct i as [|i].
  - cbn in *. injection Hi as ->. clear -H3 Hj. revert j Hj.
    enough (Hgen : forall lo', canon lo' l -> forall j, l !! j = Some b -> lo' < b.1) by eauto.
    clear. induction l as [|s l IH]; intros lo' H j Hj; [done|].
    destruct H as (Ha & Hb & Hc). destruct j as [|j]; cbn in Hj.
    + injection Hj as ->. done.
    + specialize (IH _ Hc j Hj). lia.
  - apply (IH _ i j H3); [done|done|lia].
Qed.

Lemma canon_lookup_pos lo l i a : canon lo l -> l !! i = Some a -> lo < a.1 /\ a.1 < a.2.
Proof.
  revert lo i. induction l as [|s l IH]; intros lo i; [done|].
  intros (H1 & H2 & H3) Hi. destruct i as [|i]; cbn in Hi; [by injection Hi as ->|].
  destruct (IH _ i H3 Hi). lia.
Qed.

(** The binary search finds an overlapping span exactly when the list has one:
    sharing an instant, not only an end. *)
Lemma overlaps_any_spec l candidate :
  canonical l -> candidate.1 < candidate.2 ->
  overlaps_any l candidate = true <-> exists x, covers l x /\ in_span candidate x.
Proof.
  intros Hl Hc. unfold overlaps_any, covers, in_span.
  set (p := fun s : Span => s.2 <=? candidate.1). set (k := partition_point p l).
  assert (Hin : (exists x, Exists (fun s => s.1 <= x < s.2) l /\ candidate.1 <= x < candidate.2)
                <-> exists i s, l !! i = Some s /\ candidate.1 < s.2 /\ s.1 < candidate.2).
  { setoid_rewrite Exists_exists. setoid_rewrite list_elem_of_lookup. split.
    - intros (x & (s & (i & Hi) & Hx) & Hx'). exists i, s. split; [done|lia].
    - intros (i & s & Hi & Ha & Hb). pose proof (canon_lookup_pos _ _ _ _ Hl Hi).
      exists (Z.max s.1 candidate.1). split; [|lia]. exists s. split; [by exists i|lia]. }
  rewrite Hin. clear Hin. destruct (l !! k) as [s|] eqn:Hk.
  - pose proof (partition_point_eq p l s Hk) as Hp. unfold p in Hp. bool_prop.
    rewrite Z.ltb_lt. split.
    + intros Hlt. exists k, s. split; [done|lia].
    + intros (i & t & Hi & Ha & Hb).
      destruct (Nat.lt_trichotomy i k) as [Hik|[->|Hik]].
      * pose proof (partition_point_lt p l i t Hi Hik) as Hpt. unfold p in Hpt. bool_prop. lia.
      * congruence.
      * pose proof (canon_lookup_order _ _ _ _ _ _ Hl Hk Hi Hik).
        pose proof (canon_lookup_pos _ _ _ _ Hl Hk). lia.
  - split; [done|]. intros (i & t & Hi & Ha & Hb). apply lookup_ge_None in Hk.
    apply lookup_lt_Some in Hi as Hlen.
    pose proof (partition_point_lt p l i t Hi ltac:(lia)) as Hpt. unfold p in Hpt. bool_prop. lia.
Qed.

(** ** [subtract] *)

(** The loop invariant: from [cursor], the removed spans not yet passed. *)
Lemma subtract_from_spec lo cursor end_ removed :
  canon lo removed -> cursor < end_ ->
  (forall lo', lo' < cursor -> canon lo' (subtract_from cursor end_ removed))
  /\ (forall x, covers (subtract_from cursor end_ removed) x
                <-> in_span (cursor, end_) x /\ ~ covers removed x)
  /\ Forall (fun s => s.2 <= end_) (subtract_from cursor end_ removed).
Proof.
  revert lo cursor. induction removed as [|r removed IH]; intros lo cursor Hc Hlt;
    cbn [subtract_from].
  { apply Z.ltb_lt in Hlt as Hb. rewrite Hb. split; [|split].
    - cbn. apply Z.ltb_lt in Hb. lia.
    - intros x. rewrite covers_cons, !covers_nil. unfold in_span. cbn. intuition lia.
    - repeat constructor. done. }
  destruct Hc as (H1 & H2 & H3).
  destruct (r.2 <=? cursor) eqn:E1; bool_prop.
  { destruct (IH _ cursor H3 Hlt) as (HA & HB & HC). split; [done|]. split; [|done].
    intros x. rewrite HB, covers_cons. unfold in_span. cbn. intuition lia. }
  assert (Hgt : forall x, covers removed x -> r.2 < x) by (intros x; by apply canon_covers_gt).
  destruct (end_ <=? r.1) eqn:E2; bool_prop.
  { apply Z.ltb_lt in Hlt as Hb. rewrite Hb. split; [|split].
    - cbn. apply Z.ltb_lt in Hb. lia.
    - intros x. specialize (Hgt x). rewrite !covers_cons, !covers_nil. unfold in_span. cbn.
      intuition lia.
    - repeat constructor. done. }
  rewrite Z.max_r by lia.
  assert (Hpush : (forall lo', lo' < cursor ->
                     canon lo' (if cursor <? r.1 then [(cursor, r.1)] else []))
    /\ (forall x, covers (if cursor <? r.1 then [(cursor, r.1)] else []) x
                  <-> cursor <= x < r.1)
    /\ Forall (fun s => s.2 <= r.1) (if cursor <? r.1 then [(cursor, r.1)] else [])).
  { destruct (cursor <? r.1) eqn:E3; bool_prop; split; cbn; try lia; split.
    - intros x. rewrite covers_cons, covers_nil. unfold in_span. cbn. lia.
    - repeat constructor. cbn. lia.
    - intros x. rewrite covers_nil. lia.
    - constructor. }
  destruct Hpush as (PA & PB & PC).
  destruct (end_ <=? r.2) eqn:E4; bool_prop.
  { split; [done|]. split.
    - intros x. specialize (Hgt x). rewrite PB, covers_cons. unfold in_span. cbn. intuition lia.
    - eapply Forall_impl; [exact PC|]. cbn. intros; lia. }
  destruct (IH _ r.2 H3 ltac:(lia)) as (HA & HB & HC). split; [|split].
  - intros lo' Hlo'. destruct (cursor <? r.1) eqn:E3; bool_prop; cbn [app canon fst snd].
    + split; [lia|]. split; [lia|]. apply HA. lia.
    + apply HA. lia.
  - intros x. specialize (Hgt x). rewrite covers_app, PB, HB, covers_cons. unfold in_span. cbn.
    destruct (Z.lt_ge_cases x r.1), (Z.lt_ge_cases x r.2); intuition lia.
  - apply Forall_app. split; [|done]. eapply Forall_impl; [exact PC|]. cbn. intros; lia.
Qed.

(** The result is the canonical list of the instants of [l] that no span of
    [removed] holds. *)
Lemma subtract_spec l removed :
  canonical l -> canonical removed ->
  canonical (subtract l removed)
  /\ forall x, covers (subtract l removed) x <-> covers l x /\ ~ covers removed x.
Proof.
  unfold canonical, subtract. intros Hl Hr. revert Hl.
  enough (Hgen : forall lo, canon lo l ->
    canon lo (s ← l; subtract_from s.1 s.2 removed)
    /\ forall x, covers (s ← l; subtract_from s.1 s.2 removed) x
                 <-> covers l x /\ ~ covers removed x) by auto.
  induction l as [|s l IH]; intros lo; cbn [canon].
  { intros _. split; [done|]. intros x. rewrite !covers_nil. naive_solver. }
  intros (H1 & H2 & H3). destruct (IH _ H3) as [HA HB].
  destruct (subtract_from_spec (-1) s.1 s.2 removed Hr H2) as (SA & SB & SC).
  cbn [mbind list_bind]. split.
  - apply canon_app. split; [by apply SA|].
    destruct (last (subtract_from s.1 s.2 removed)) as [m|] eqn:Em; cbn.
    + apply last_Some_elem_of in Em. rewrite Forall_forall in SC. specialize (SC _ Em).
      eapply canon_weaken; [exact SC|]. exact HA.
    + apply (canon_weaken s.2); [lia|exact HA].
  - intros x. rewrite covers_app, SB, HB, covers_cons. unfold in_span. cbn. tauto.
Qed.

(** The questions asked of merged lists are answered exactly: subtracting one
    from another gives the merged list of the instants only the first covers,
    and the binary search for an overlap finds one exactly when the list and
    the candidate share an instant, not only an end. *)
Theorem span_queries_exact l removed candidate :
  canonical l -> canonical removed -> candidate.1 < candidate.2 ->
  (canonical (subtract l removed)
   /\ forall x, covers (subtract l removed) x <-> covers l x /\ ~ covers removed x)
  /\ (overlaps_any l candidate = true <-> exists x, covers l x /\ in_span candidate x)
  /\ (overlaps_any (subtract l removed) candidate = true
      <-> exists x, in_span candidate x /\ covers l x /\ ~ covers removed x).
Proof.
  intros Hl Hr Hc. destruct (subtract_spec l removed Hl Hr) as [Hcan Hcov].
  split; [done|]. split; [by apply overlaps_any_spec|].
  rewrite overlaps_any_spec by done. setoid_rewrite Hcov. naive_solver.
Qed.

Lemma span_queries_exact_witness :
  subtract [(0, 60)] [(5, 20); (30, 50)] = [(0, 5); (20, 30); (50, 60)]
  /\ canonical (subtract [(0, 60)] [(5, 20); (30, 50)])
  /\ overlaps_any [(0, 60)] (59, 61) = true.
Proof.
  split; [vm_compute; reflexivity|].
  destruct (span_queries_exact [(0, 60)] [(5, 20); (30, 50)] (59, 61)) as ((H & _) & _ & _);
    [concrete|concrete|concrete|].
  split; [exact H|]. vm_compute. reflexivity.
Defined.

(** Covered stretches of a canonical list lie in one of its spans. *)
Lemma canon_interval lo l a b :
  canon lo l -> a < b -> (forall x, a <= x < b -> covers l x) ->
  exists s, s ∈ l /\ s.1 <= a /\ b <= s.2.
Proof.
  revert lo. induction l as [|s l IH]; intros lo Hc Hab Hcov.
  { exfalso. apply (covers_nil a), Hcov. lia. }
  destruct Hc as (H1 & H2 & Hc).
  destruct (decide (in_span s a)) as [Ha|Ha].
  - exists s. split; [by left|]. split; [apply Ha|].
    destruct (Z.le_gt_cases b s.2) as [?|Hgt]; [done|]. exfalso.
    assert (Hs : covers (s :: l) s.2) by (apply Hcov; unfold in_span in Ha; lia).
    apply covers_cons in Hs as [Hs|Hs]; [unfold in_span in Hs; lia|].
    apply (canon_covers_gt _ _ _ Hc) in Hs. lia.
  - assert (Hin : forall x, a <= x < b -> covers l x).
    { intros x Hx. pose proof (Hcov a ltac:(lia)) as Hl. apply covers_cons in Hl as [Hl|Hl]; [done|].
      apply (canon_covers_gt _ _ _ Hc) in Hl. pose proof (Hcov x Hx) as Hs.
      apply covers_cons in Hs as [Hs|?]; [unfold in_span in Hs; lia|done]. }
    destruct (IH _ Hc Hab Hin) as (s' & ? & ?). exists s'. by split; [right|].
Qed.

Lemma canon_filter (P : Span -> Prop) `{!forall s, Decision (P s)} lo l :
  canon lo l -> canon lo (filter P l).
Proof.
  revert lo. induction l as [|s l IH]; intros lo; [done|]. intros (H1 & H2 & H3).
  rewrite filter_cons. case_decide; [by repeat split; [..|apply IH]|].
  apply (canon_weaken s.2); [lia|by apply IH].
Qed.

(** Canonical lists that cover the same instants before a time have the same
    spans that end before it. *)
Lemma canon_outside lo l s :
  canon lo l -> s ∈ l -> s.1 < s.2 /\ ~ covers l (s.1 - 1) /\ ~ covers l s.2.
Proof.
  intros Hc Hs. apply list_elem_of_lookup in Hs as [i Hi]. destruct (canon_lookup_pos _ _ _ _ Hc Hi) as [_ Hlt].
  split; [done|]. unfold covers. rewrite !Exists_exists.
  split; intros (s' & Hs' & Hx); apply list_elem_of_lookup in Hs' as [j Hj]; unfold in_span in Hx;
    (destruct (Nat.lt_trichotomy i j) as [H|[->|H]];
      [pose proof (canon_lookup_order _ _ _ _ _ _ Hc Hi Hj H); pose proof (canon_lookup_pos _ _ _ _ Hc Hj); lia
      |replace s' with s in * by congruence; lia
      |pose proof (canon_lookup_order _ _ _ _ _ _ Hc Hj Hi H); lia]).
Qed.

Lemma canon_elem_before cut lo l l' s :
  canon lo l -> canon lo l' -> (forall x, x < cut -> covers l x <-> covers l' x) ->
  s ∈ l -> s.2 < cut -> s ∈ l'.
Proof.
  intros Hc Hc' Hx Hs Hcut. destruct (canon_outside _ _ _ Hc Hs) as (Hlt & Hbefore & Hafter).
  destruct (canon_interval lo l' s.1 s.2 Hc' Hlt) as (s' & Hs' & H1 & H2).
  { intros x Hin. apply Hx; [lia|]. apply Exists_exists. by exists s. }
  destruct (decide (s'.1 = s.1 /\ s'.2 = s.2)) as [[E1 E2]|Hne].
  { replace s with s'; [done|]. destruct s, s'. cbn in *. by subst. }
  exfalso. destruct (Z.le_gt_cases s.1 s'.1).
  - apply Hafter, Hx; [done|]. apply Exists_exists. exists s'. split; [done|]. unfold in_span. lia.
  - apply Hbefore, Hx; [lia|]. apply Exists_exists. exists s'. split; [done|]. unfold in_span. lia.
Qed.

Lemma canon_before_unique cut lo l l' :
  canon lo l -> canon lo l' -> (forall x, x < cut -> covers l x <-> covers l' x) ->
  filter (fun s => s.2 < cut) l = filter (fun s => s.2 < cut) l'.
Proof.
  intros Hc Hc' Hx. apply (canon_unique lo); [by apply canon_filter..|]. intros x. unfold covers.
  rewrite !Exists_exists. split; intros (s & [He Hs]%list_elem_of_filter & Hin); exists s;
    (split; [apply list_elem_of_filter; split; [done|]|done]).
  - by apply (canon_elem_before cut lo l).
  - apply (canon_elem_before cut lo l'); try done. intros y Hy. by rewrite Hx.
Qed.
