(* ===== verification/MinQueue.v ===== *)
(** * MinQueue: the priority queue interface

    [join_nearest] keeps its candidate pairs in a
    [BinaryHeap<Reverse<(u64, usize, usize)>>]: the entry popped is the least
    tuple in lexicographic order. The interface states that, over the
    multiset of entries; the client is proved against it, and the instance is
    a list whose least entry is taken out. *)

From S2P Require Import Prelude.

(** A distance, then the positions of the pair. *)
Abbreviation entry := (Z * nat * nat)%type.

Definition entry_lt (a b : entry) : bool :=
  let '(da, la, ra) := a in
  let '(db, lb, rb) := b in
  (da <? db) || ((da =? db) && ((la <? lb)%nat || ((la =? lb)%nat && (ra <? rb)%nat))).

Definition entry_le (a b : entry) : Prop := entry_lt b a = false.

Class MinQueue (Q : Type) : Type := {
  queue_empty : Q;
  queue_push : entry -> Q -> Q;
  queue_pop : Q -> option (entry * Q);
  queue_entries : Q -> list entry;
}.

(** The laws of [BinaryHeap] the client relies on. *)
Class MinQueueLaws (Q : Type) `{MinQueue Q} : Prop := {
  queue_empty_entries : queue_entries queue_empty = [];
  queue_push_entries e q : queue_entries (queue_push e q) ≡ₚ e :: queue_entries q;
  queue_pop_None q : queue_pop q = None <-> queue_entries q = [];
  queue_pop_Some q e q' :
    queue_pop q = Some (e, q') ->
    queue_entries q ≡ₚ e :: queue_entries q' /\ Forall (entry_le e) (queue_entries q);
}.

(** ** The list instance *)

Fixpoint extract_min (e : entry) (l : list entry) : entry * list entry :=
  match l with
  | [] => (e, [])
  | e' :: rest =>
      if entry_lt e' e
      then let (m, others) := extract_min e' rest in (m, e :: others)
      else let (m, others) := extract_min e rest in (m, e' :: others)
  end.

Definition list_pop (l : list entry) : option (entry * list entry) :=
  match l with
  | [] => None
  | e :: rest => Some (extract_min e rest)
  end.

#[export] Instance list_min_queue : MinQueue (list entry) := {
  queue_empty := [];
  queue_push := cons;
  queue_pop := list_pop;
  queue_entries l := l;
}.

Lemma entry_lt_spec da la ra db lb rb :
  entry_lt (da, la, ra) (db, lb, rb) = true
  <-> da < db \/ (da = db /\ ((la < lb)%nat \/ (la = lb /\ (ra < rb)%nat))).
Proof.
  unfold entry_lt.
  rewrite !orb_true_iff, !andb_true_iff, !orb_true_iff, !andb_true_iff,
    Z.ltb_lt, Z.eqb_eq, !Nat.ltb_lt, Nat.eqb_eq. done.
Qed.

Lemma entry_le_spec da la ra db lb rb :
  entry_le (da, la, ra) (db, lb, rb)
  <-> da < db \/ (da = db /\ ((la < lb)%nat \/ (la = lb /\ (ra <= rb)%nat))).
Proof.
  unfold entry_le. pose proof (entry_lt_spec db lb rb da la ra) as H.
  destruct (entry_lt _ _); split; intros; try done; try lia.
Qed.

#[export] Instance entry_le_trans : Transitive entry_le.
Proof. intros [[? ?] ?] [[? ?] ?] [[? ?] ?]. rewrite !entry_le_spec. lia. Qed.

Lemma entry_lt_le a b : entry_lt a b = true -> entry_le a b.
Proof.
  destruct a as [[? ?] ?], b as [[? ?] ?]. rewrite entry_lt_spec, entry_le_spec. lia.
Qed.

Lemma extract_min_spec e l m others :
  extract_min e l = (m, others) -> e :: l ≡ₚ m :: others /\ Forall (entry_le m) (e :: l).
Proof.
  revert e m others. induction l as [|e' l IH]; intros e m others; cbn [extract_min].
  - intros [= <- <-]. split; [done|]. repeat constructor.
    destruct e as [[? ?] ?]. apply entry_le_spec. lia.
  - destruct (entry_lt e' e) eqn:E.
    + destruct (extract_min e' l) as [m' others'] eqn:Em. intros [= <- <-].
      destruct (IH _ _ _ Em) as [Hp Hm]. split.
      * rewrite Hp. by constructor.
      * apply Forall_cons. split; [|done]. apply Forall_cons in Hm as [Hm _].
        transitivity e'; [done|]. by apply entry_lt_le.
    + destruct (extract_min e l) as [m' others'] eqn:Em. intros [= <- <-].
      destruct (IH _ _ _ Em) as [Hp Hm]. split.
      * rewrite Permutation_swap, Hp. by constructor.
      * apply Forall_cons in Hm as [Hm Hl]. apply Forall_cons. split; [done|].
        apply Forall_cons. split; [|done]. by transitivity e.
Qed.

#[export] Instance list_min_queue_laws : MinQueueLaws (list entry).
Proof.
  split; cbn.
  - done.
  - done.
  - intros [|e q]; cbn; [done|]. split; [|done]. by destruct (extract_min e q).
  - intros [|e q] m q'; cbn; [done|]. intros [= H]. by apply extract_min_spec.
Qed.
