(* ===== verification/JoinNearest.v ===== *)
(** * JoinNearest: bounding a list of spans by joining the nearest

    Models [join_nearest] of [crates/vsift-domain/src/spans.rs]: the vectors
    [ends], [next] and [alive], the heap of candidate pairs with its stale
    entries, and the loop that pops until the limit is met. The reference
    definition, [nearest_first_by_searching], searches the whole list for the
    nearest pair before every join; the code's own test suite states it. *)

From S2P Require Import Prelude.
From S2P Require Import Timeline.
From S2P Require Import Spans.
From S2P Require Import MinQueue.

(** Whether two neighbours may be joined: not across [keep_apart]. *)
Definition may_join (keep_apart : option Span) (left_end right_start : Z) : bool :=
  match keep_apart with
  | None => true
  | Some s => negb ((left_end <=? s.1) && (s.2 <=? right_start))
  end.

(** [right_start.saturating_sub(left_end)] *)
Definition distance (left_end right_start : Z) : Z := saturating_u64 (right_start - left_end).

Section Join.
Context {Q : Type} `{MQ : MinQueue Q}.

(** The mutable state of the loop. *)
Record JoinState := mkJoinState {
  ends : list Z;
  next : list (option nat);
  alive : list bool;
  heap : Q;
  remaining : nat;
}.

Definition initial_heap (spans : list Span) (keep_apart : option Span) : Q :=
  fold_left
    (fun h (item : nat * (Span * Span)) =>
       let '(li, (a, b)) := item in
       if may_join keep_apart a.2 b.1 then queue_push (distance a.2 b.1, li, S li) h else h)
    (enumerate (windows2 spans)) queue_empty.

Definition initial_state (spans : list Span) (keep_apart : option Span) : JoinState :=
  mkJoinState
    (snd <$> spans)
    ((fun index => if (S index <? length spans)%nat then Some (S index) else None)
       <$> seq 0 (length spans))
    (replicate (length spans) true)
    (initial_heap spans keep_apart)
    (length spans).

(** After a join only the pair to the right of the extended span is new. *)
Definition push_following (spans : list Span) (keep_apart : option Span) (li : nat)
    (left_end : Z) (following : option nat) (h : Q) : option Q :=
  match following with
  | None => Some h
  | Some f =>
      f_span ← spans !! f;
      Some (if may_join keep_apart left_end (f_span : Span).1
            then queue_push (distance left_end f_span.1, li, f) h else h)
  end.

(** One iteration of [while remaining > limit]: [Some (false, _)] is the
    [break] on an empty heap, [None] an index out of range, a panic. *)
Definition join_iteration (spans : list Span) (keep_apart : option Span) (st : JoinState)
    : option (bool * JoinState) :=
  match queue_pop (heap st) with
  | None => Some (false, st)
  | Some ((dist, li, ri), h) =>
      alive_left ← alive st !! li;
      alive_right ← alive st !! ri;
      next_left ← next st !! li;
      right_span ← spans !! ri;
      left_end ← ends st !! li;
      let current :=
        alive_left && alive_right && bool_decide (next_left = Some ri)
        && (dist =? distance left_end (right_span : Span).1) in
      if negb current
      then Some (true, mkJoinState (ends st) (next st) (alive st) h (remaining st))
      else
        right_end ← ends st !! ri;
        following ← next st !! ri;
        let left_end' := Z.max left_end right_end in
        h' ← push_following spans keep_apart li left_end' following h;
        Some (true, mkJoinState (<[li := left_end']> (ends st)) (<[li := following]> (next st))
                      (<[ri := false]> (alive st)) h' (remaining st - 1))
  end.

Fixpoint join_loop (fuel : nat) (spans : list Span) (limit : nat) (keep_apart : option Span)
    (st : JoinState) : option JoinState :=
  match fuel with
  | O => None
  | S fuel' =>
      if (limit <? remaining st)%nat then
        match join_iteration spans keep_apart st with
        | None => None
        | Some (false, st') => Some st'
        | Some (true, st') => join_loop fuel' spans limit keep_apart st'
        end
      else Some st
  end.

(** The spans still alive, each from its own start to its extended end. *)
Definition collect (spans : list Span) (st : JoinState) : list Span :=
  omap (fun item : Span * Z * bool =>
          let '(s, end_, is_alive) := item in if is_alive then Some (s.1, end_) else None)
    (zip (zip spans (ends st)) (alive st)).

(** Every iteration takes an entry out of the heap or joins two spans, so
    [2 * length spans] iterations are enough. *)
Definition join_nearest (spans : list Span) (limit : nat) (keep_apart : option Span)
    : option (list Span) :=
  let limit := Nat.max limit 1 in
  if (length spans <=? limit)%nat then Some spans
  else
    st ← join_loop (2 * length spans) spans limit keep_apart (initial_state spans keep_apart);
    Some (collect spans st).
End Join.
Arguments JoinState Q : clear implicits.

(** ** The reference definition *)

(** The position of the nearest pair that may be joined, leftmost first. *)
Definition nearest (spans : list Span) (keep_apart : option Span) : option nat :=
  let pairs := filter (fun item : nat * (Span * Span) =>
                         may_join keep_apart item.2.1.2 item.2.2.1 = true)
                 (enumerate (windows2 spans)) in
  fst <$> min_by_key (fun item : nat * (Span * Span) => distance item.2.1.2 item.2.2.1) pairs.

(** Removing the right span of a pair and extending the left one over it. *)
Definition join_at (index : nat) (spans : list Span) : list Span :=
  match spans !! index, spans !! S index with
  | Some joined, Some removed =>
      <[index := (joined.1, Z.max joined.2 removed.2)]> (delete (S index) spans)
  | _, _ => spans
  end.

Fixpoint search_loop (fuel : nat) (spans : list Span) (limit : nat) (keep_apart : option Span)
    : list Span :=
  match fuel with
  | O => spans
  | S fuel' =>
      if (limit <? length spans)%nat then
        match nearest spans keep_apart with
        | None => spans
        | Some index => search_loop fuel' (join_at index spans) limit keep_apart
        end
      else spans
  end.

Definition nearest_first_by_searching (spans : list Span) (limit : nat)
    (keep_apart : option Span) : list Span :=
  search_loop (length spans) spans (Nat.max limit 1) keep_apart.

(** ** Facts on the reference definition *)

(** Whether the pair at [k] may be joined, and its distance. *)
Definition joinable (keep_apart : option Span) (l : list Span) (k : nat) (d : Z) : Prop :=
  exists a b, l !! k = Some a /\ l !! S k = Some b
    /\ may_join keep_apart a.2 b.1 = true /\ d = distance a.2 b.1.

(** The pairs [nearest] chooses from, in order. *)
Lemma pairs_lookup keep l :
  let pairs := filter (fun item : nat * (Span * Span) =>
                         may_join keep item.2.1.2 item.2.2.1 = true)
                 (enumerate (windows2 l)) in
  (forall i k ab, pairs !! i = Some (k, ab) ->
     l !! k = Some ab.1 /\ l !! S k = Some ab.2 /\ may_join keep ab.1.2 ab.2.1 = true)
  /\ (forall k a b, l !! k = Some a -> l !! S k = Some b -> may_join keep a.2 b.1 = true ->
        exists i, pairs !! i = Some (k, (a, b)))
  /\ (forall i j k k' x y, pairs !! i = Some (k, x) -> pairs !! j = Some (k', y) ->
        (i <= j)%nat -> (k <= k')%nat).
Proof.
  cbn zeta. set (P := fun item : nat * (Span * Span) => _ = true).
  split; [|split].
  - intros i k [a b] Hi. apply list_elem_of_lookup_2 in Hi.
    apply list_elem_of_filter in Hi as [HP Hi]. apply list_elem_of_lookup in Hi as [j Hj].
    apply enumerate_lookup in Hj as [-> Hj]. apply windows2_lookup in Hj as [? ?]. done.
  - intros k a b Ha Hb HP. apply list_elem_of_lookup. apply list_elem_of_filter. split; [done|].
    apply list_elem_of_lookup. exists k. apply enumerate_lookup. split; [done|].
    by apply windows2_lookup.
  - assert (Hs : StronglySorted (fun x y : nat * (Span * Span) => (x.1 < y.1)%nat)
                   (filter P (enumerate (windows2 l)))).
    { unfold enumerate. generalize 0%nat. generalize (windows2 l) as ws. intros ws.
      induction ws as [|w ws IH]; intros n; cbn [length seq zip_with]; [constructor|].
      assert (Hall : Forall (fun x : nat * (Span * Span) => (n < x.1)%nat)
                       (filter P (zip (seq (S n) (length ws)) ws))).
      { apply Forall_forall. intros [m x] Hx. apply list_elem_of_filter in Hx as [_ Hx].
        apply elem_of_zip_l, elem_of_seq in Hx. cbn. lia. }
      rewrite filter_cons. destruct (decide (P (n, w))); [|apply IH].
      constructor; [apply IH|exact Hall]. }
    intros i j k k' x y Hi Hj Hij. destruct (decide (i = j)) as [->|Hne].
    + rewrite Hi in Hj. injection Hj as -> _. done.
    + clear -Hs Hi Hj Hij Hne. revert i j Hi Hj Hij Hne.
      induction Hs as [|z l' Hs IH Hz]; intros i j Hi Hj Hij Hne; [done|].
      destruct j as [|j]; [lia|]. destruct i as [|i]; cbn in Hi, Hj.
      * injection Hi as ->. rewrite Forall_forall in Hz. apply list_elem_of_lookup_2 in Hj.
        specialize (Hz _ Hj). cbn in Hz. lia.
      * apply (IH i j); [done|done|lia|lia].
Qed.

Lemma nearest_Some keep l k :
  nearest l keep = Some k ->
  exists d, joinable keep l k d
    /\ forall k' d', joinable keep l k' d' -> d < d' \/ (d = d' /\ (k <= k')%nat).
Proof.
  unfold nearest. destruct (pairs_lookup keep l) as (HA & HB & HC). cbv zeta in HA, HB, HC.
  intros H. apply fmap_Some in H as ([k0 ab] & Hmin & ->).
  apply min_by_key_Some in Hmin as (i & Hi & Hleast). cbn [fst] in *.
  destruct (HA _ _ _ Hi) as (Ha & Hb & Hj). destruct ab as [a b]. cbn in *.
  exists (distance a.2 b.1). split; [by exists a, b|].
  intros k' d' (a' & b' & Ha' & Hb' & Hj' & ->).
  destruct (HB _ _ _ Ha' Hb' Hj') as [i' Hi'].
  destruct (Hleast _ _ Hi') as [?|[? ?]]; cbn in *; [by left|right].
  split; [done|]. by eapply (HC i i').
Qed.

Lemma nearest_None keep l k d : nearest l keep = None -> ~ joinable keep l k d.
Proof.
  unfold nearest. destruct (pairs_lookup keep l) as (_ & HB & _). cbv zeta in HB.
  intros H (a & b & Ha & Hb & Hj & _). apply fmap_None, min_by_key_None in H.
  destruct (HB _ _ _ Ha Hb Hj) as [i Hi]. rewrite H in Hi. done.
Qed.

(** The nearest pair is determined by its position and distance. *)
Lemma nearest_intro keep l k d :
  joinable keep l k d ->
  (forall k' d', joinable keep l k' d' -> d < d' \/ (d = d' /\ (k <= k')%nat)) ->
  nearest l keep = Some k.
Proof.
  intros Hj Hmin. destruct (nearest l keep) as [k0|] eqn:E.
  - apply nearest_Some in E as (d0 & Hj0 & Hmin0). f_equal.
    destruct (Hmin _ _ Hj0), (Hmin0 _ _ Hj); lia.
  - by destruct (nearest_None _ _ _ _ E Hj).
Qed.

Lemma join_at_lookup k l a b :
  l !! k = Some a -> l !! S k = Some b ->
  forall j, join_at k l !! j =
    if decide (j = k) then Some (a.1, Z.max a.2 b.2)
    else if decide (j < k)%nat then l !! j else l !! S j.
Proof.
  intros Ha Hb j. unfold join_at. rewrite Ha, Hb.
  apply lookup_lt_Some in Hb as Hlen.
  assert (length (delete (S k) l) = (length l - 1)%nat) by (by apply length_delete).
  destruct (decide (j = k)) as [->|Hne].
  - apply list_lookup_insert_eq. lia.
  - rewrite list_lookup_insert_ne by done. destruct (decide (j < k)%nat).
    + apply list_lookup_delete_lt; lia.
    + apply list_lookup_delete_ge; lia.
Qed.

Lemma join_at_length k l a b :
  l !! k = Some a -> l !! S k = Some b -> length (join_at k l) = (length l - 1)%nat.
Proof.
  intros Ha Hb. unfold join_at. rewrite Ha, Hb, length_insert. by apply length_delete.
Qed.

Lemma join_at_split k l a b :
  l !! k = Some a -> l !! S k = Some b ->
  exists l1 l2, l = l1 ++ a :: b :: l2 /\ length l1 = k
    /\ join_at k l = l1 ++ (a.1, Z.max a.2 b.2) :: l2.
Proof.
  intros Ha Hb. exists (take k l), (drop (S (S k)) l).
  assert (Hl : l = take k l ++ a :: b :: drop (S (S k)) l).
  { rewrite <- (drop_S _ _ _ Hb), <- (drop_S _ _ _ Ha). by rewrite take_drop. }
  apply lookup_lt_Some in Ha as Hlt.
  assert (Hk : length (take k l) = k) by (rewrite length_take; lia).
  split; [exact Hl|]. split; [exact Hk|].
  unfold join_at. rewrite Ha, Hb. rewrite Hl at 1. rewrite delete_take_drop.
  rewrite <- Hl. rewrite (take_S_r _ _ _ Ha), insert_app_l by (rewrite length_app; cbn; lia).
  rewrite insert_app_r_alt by lia. rewrite Hk, Nat.sub_diag. cbn.
  by rewrite <- app_assoc.
Qed.

Lemma join_at_canon lo k l a b :
  canon lo l -> l !! k = Some a -> l !! S k = Some b -> canon lo (join_at k l).
Proof.
  intros Hl Ha Hb. destruct (join_at_split k l a b Ha Hb) as (l1 & l2 & -> & _ & ->).
  apply canon_app in Hl as [H1 H2]. apply canon_app. split; [done|].
  cbn in *. rewrite Z.max_r by lia. intuition lia.
Qed.

(** ** The loop simulates the search *)

(** A strictly increasing list of positions. *)
Definition increasing (L : list nat) : Prop :=
  forall i j a b, L !! i = Some a -> L !! j = Some b -> (i < j)%nat -> (a < b)%nat.

Lemma increasing_inj L i j a :
  increasing L -> L !! i = Some a -> L !! j = Some a -> i = j.
Proof.
  intros HL Hi Hj. destruct (Nat.lt_trichotomy i j) as [H|[H|H]]; [|done|].
  - pose proof (HL _ _ _ _ Hi Hj H). lia.
  - pose proof (HL _ _ _ _ Hj Hi H). lia.
Qed.

Lemma increasing_delete L k : increasing L -> increasing (delete k L).
Proof.
  intros HL i j a b. rewrite !list_lookup_delete. intros Hi Hj Hij.
  apply (HL _ _ _ _ Hi Hj). destruct (decide (i < k)%nat), (decide (j < k)%nat); lia.
Qed.

Lemma increasing_seq n : increasing (seq 0 n).
Proof. intros i j a b [-> _]%lookup_seq [-> _]%lookup_seq. lia. Qed.

Lemma increasing_sorted L : increasing L <-> StronglySorted lt L.
Proof.
  split.
  - induction L as [|a L IH]; intros HL; [constructor|]. constructor.
    + apply IH. intros i j x y Hi Hj Hij. apply (HL (S i) (S j) x y Hi Hj). lia.
    + apply Forall_lookup. intros j b Hb. apply (HL 0%nat (S j) a b); [done|done|lia].
  - induction 1 as [|a L HL IH Ha]; intros i j x y Hi Hj Hij; [done|].
    destruct j as [|j]; [lia|]. destruct i as [|i]; cbn in Hi, Hj.
    + injection Hi as ->. apply (proj1 (Forall_lookup _ _) Ha _ _ Hj).
    + apply (IH i j); [done|done|lia].
Qed.

(** An increasing list of positions is the sub-list of all positions it
    selects. *)
Lemma filter_seq_increasing L n :
  increasing L -> Forall (fun i => (i < n)%nat) L -> filter (fun i => i ∈ L) (seq 0 n) = L.
Proof.
  intros HL%increasing_sorted Hn.
  assert (Hseq : StronglySorted lt (filter (fun i => i ∈ L) (seq 0 n)))
    by (apply StronglySorted_filter, increasing_sorted, increasing_seq).
  apply (StronglySorted_unique_strong lt); [lia|done|done|].
  assert (Hnd : forall l, StronglySorted lt l -> NoDup l).
  { intros l Hl. apply NoDup_alt. intros i j x Hi Hj. apply increasing_sorted in Hl.
    by apply (increasing_inj l i j x). }
  apply NoDup_Permutation; [by apply Hnd|by apply Hnd|]. intros i.
  rewrite list_elem_of_filter, elem_of_seq. split; [naive_solver|]. intros Hi. split; [done|].
  rewrite Forall_forall in Hn. specialize (Hn i Hi). lia.
Qed.

Lemma omap_filter {A B} (f : A -> B) (P : A -> Prop) `{!forall a, Decision (P a)} (l : list A) :
  omap (fun a => if bool_decide (P a) then Some (f a) else None) l = f <$> filter P l.
Proof.
  induction l as [|a l IH]; [done|]. rewrite filter_cons. cbn [omap list_omap]. rewrite IH.
  by case_bool_decide; case_decide.
Qed.

Section Simulation.
Context {Q : Type} `{MQ : MinQueue Q, !MinQueueLaws Q}.
Context (spans : list Span) (keep : option Span).
Hypothesis spans_canonical : canonical spans.
Hypothesis spans_u64 : spans_typed spans.

(** The abstract list of a state whose live positions are [L]. *)
Definition view (st : JoinState Q) (L : list nat) : list Span :=
  (fun i => ((spans !!! i).1, ends st !!! i)) <$> L.

(** A heap entry for the pair of a span ending at [e] and the span [r]. *)
Definition entry_sound (e : entry) : Prop :=
  let '(d, l, r) := e in
  (l < length spans)%nat /\ (r < length spans)%nat
  /\ exists end_, end_ < (spans !!! r).1 /\ 0 <= end_
       /\ d = distance end_ (spans !!! r).1 /\ may_join keep end_ (spans !!! r).1 = true.

Record sim (st : JoinState Q) (L : list nat) : Prop := {
  sim_ends : length (ends st) = length spans;
  sim_next_length : length (next st) = length spans;
  sim_alive_length : length (alive st) = length spans;
  sim_increasing : increasing L;
  sim_bound : Forall (fun i => (i < length spans)%nat) L;
  sim_remaining : remaining st = length L;
  sim_alive : forall i, (i < length spans)%nat -> alive st !! i = Some (bool_decide (i ∈ L));
  sim_next : forall k i, L !! k = Some i -> next st !! i = Some (L !! S k);
  sim_canon : canonical (view st L);
  sim_typed : spans_typed (view st L);
  sim_sound : Forall entry_sound (queue_entries (heap st));
  sim_complete : forall k a b, L !! k = Some a -> L !! S k = Some b ->
    may_join keep (ends st !!! a) (spans !!! b).1 = true ->
    (distance (ends st !!! a) (spans !!! b).1, a, b) ∈ queue_entries (heap st);
}.

Lemma view_lookup st L k :
  view st L !! k = (fun i => ((spans !!! i).1, ends st !!! i)) <$> L !! k.
Proof. unfold view. apply list_lookup_fmap. Qed.

Lemma view_length st L : length (view st L) = length L.
Proof. unfold view. apply length_fmap. Qed.

(** Neighbours of the abstract list are apart, so no distance saturates. *)
Lemma sim_gap st L k a b :
  sim st L -> L !! k = Some a -> L !! S k = Some b ->
  0 <= ends st !!! a < (spans !!! b).1 /\ (spans !!! b).1 <= U64_MAX
  /\ (spans !!! b).1 < ends st !!! b.
Proof.
  intros Hs Ha Hb.
  assert (Ha' : view st L !! k = Some ((spans !!! a).1, ends st !!! a)) by (by rewrite view_lookup, Ha).
  assert (Hb' : view st L !! S k = Some ((spans !!! b).1, ends st !!! b)) by (by rewrite view_lookup, Hb).
  pose proof (canon_lookup_order _ _ _ _ _ _ (sim_canon _ _ Hs) Ha' Hb' ltac:(lia)) as H1.
  pose proof (canon_lookup_pos _ _ _ _ (sim_canon _ _ Hs) Ha') as H2.
  pose proof (canon_lookup_pos _ _ _ _ (sim_canon _ _ Hs) Hb') as H3.
  pose proof (proj1 (Forall_lookup _ _) (sim_typed _ _ Hs) _ _ Hb') as [H4 _].
  cbn in *. split; [lia|]. split; [apply H4|lia].
Qed.

Lemma joinable_view st L k d :
  joinable keep (view st L) k d <->
  exists a b, L !! k = Some a /\ L !! S k = Some b
    /\ may_join keep (ends st !!! a) (spans !!! b).1 = true
    /\ d = distance (ends st !!! a) (spans !!! b).1.
Proof.
  unfold joinable. setoid_rewrite view_lookup. split.
  - intros (x & y & Hx & Hy & Hj & ->). apply fmap_Some in Hx as (a & Ha & ->).
    apply fmap_Some in Hy as (b & Hb & ->). by exists a, b.
  - intros (a & b & Ha & Hb & Hj & ->). rewrite Ha, Hb. cbn.
    by exists ((spans !!! a).1, ends st !!! a), ((spans !!! b).1, ends st !!! b).
Qed.

(** An entry the code takes for current is the pair of two live neighbours
    that may be joined, at their distance. *)
Lemma current_entry st L d l r :
  sim st L -> entry_sound (d, l, r) -> l ∈ L -> next st !! l = Some (Some r) ->
  d = distance (ends st !!! l) (spans !!! r).1 ->
  exists k, L !! k = Some l /\ L !! S k = Some r
    /\ may_join keep (ends st !!! l) (spans !!! r).1 = true.
Proof.
  intros Hs (_ & _ & e & He & He0 & Hd & Hj) Hl Hn Hd'.
  apply list_elem_of_lookup in Hl as [k Hk]. exists k.
  pose proof (sim_next _ _ Hs _ _ Hk) as Hnk. rewrite Hn in Hnk. injection Hnk as Hr.
  symmetry in Hr. split; [done|]. split; [done|].
  pose proof (sim_gap _ _ _ _ _ Hs Hk Hr) as (Hgap & Hmax & _).
  assert (e = ends st !!! l) as <-; [|done].
  unfold distance in *. ulia.
Qed.

(** The popped entry is the nearest pair of the abstract list. *)
Lemma popped_is_nearest st L d l r h k :
  sim st L -> queue_pop (heap st) = Some ((d, l, r), h) ->
  L !! k = Some l -> L !! S k = Some r ->
  may_join keep (ends st !!! l) (spans !!! r).1 = true ->
  d = distance (ends st !!! l) (spans !!! r).1 ->
  nearest (view st L) keep = Some k.
Proof.
  intros Hs Hpop Hk Hk' Hj Hd. apply nearest_intro with d.
  - apply joinable_view. by exists l, r.
  - intros k' d' (a & b & Ha & Hb & Hj' & ->)%joinable_view.
    pose proof (sim_complete _ _ Hs _ _ _ Ha Hb Hj') as Hin.
    apply queue_pop_Some in Hpop as [_ Hmin].
    rewrite Forall_forall in Hmin. specialize (Hmin _ Hin). apply entry_le_spec in Hmin.
    destruct Hmin as [?|[? Hle]]; [by left|right]. split; [done|].
    destruct (decide (k <= k')%nat) as [|Hlt]; [done|exfalso].
    pose proof (sim_increasing _ _ Hs _ _ _ _ Ha Hk ltac:(lia)). lia.
Qed.

(** Joining the pair at [k]: position [r] dies, [l] takes its end. *)
Definition joined (st : JoinState Q) (l r : nat) (following : option nat) (h : Q) : JoinState Q :=
  mkJoinState (<[l := Z.max (ends st !!! l) (ends st !!! r)]> (ends st))
    (<[l := following]> (next st)) (<[r := false]> (alive st)) h (remaining st - 1).

Lemma delete_lookup_cases (L : list nat) k j :
  delete (S k) L !! j = if decide (j <= k)%nat then L !! j else L !! S j.
Proof.
  rewrite list_lookup_delete. destruct (decide (j < S k)%nat), (decide (j <= k)%nat); done || lia.
Qed.

Section JoinStep.
Context (st : JoinState Q) (L : list nat) (k l r : nat) (h h' : Q).
Hypothesis Hs : sim st L.
Hypothesis Hl : L !! k = Some l.
Hypothesis Hr : L !! S k = Some r.

Let L' : list nat := delete (S k) L.
Let following : option nat := L !! S (S k).
Let st' : JoinState Q := joined st l r following h'.

Lemma live_bound i j : L !! j = Some i -> (i < length spans)%nat.
Proof.
  intros H. apply (proj1 (Forall_forall _ _) (sim_bound _ _ Hs)).
  by apply list_elem_of_lookup_2 in H.
Qed.

Lemma joined_ends_other i j : L !! j = Some i -> j <> k -> ends st' !!! i = ends st !!! i.
Proof.
  intros Hi Hj. cbn. apply list_lookup_total_insert_ne. intros ->.
  by apply Hj, (increasing_inj L j k i (sim_increasing _ _ Hs)).
Qed.

Lemma joined_ends_l : ends st' !!! l = Z.max (ends st !!! l) (ends st !!! r).
Proof.
  cbn. apply list_lookup_total_insert_eq. rewrite (sim_ends _ _ Hs). by apply (live_bound l k).
Qed.

Lemma joined_view : view st' L' = join_at k (view st L).
Proof.
  apply list_eq. intros j.
  rewrite (join_at_lookup k (view st L) ((spans !!! l).1, ends st !!! l)
             ((spans !!! r).1, ends st !!! r)) by (by rewrite view_lookup, ?Hl, ?Hr).
  rewrite !view_lookup. unfold L'. rewrite delete_lookup_cases.
  destruct (decide (j = k)) as [->|Hne].
  - rewrite decide_True, Hl by lia. cbn [fmap option_fmap option_map]. by rewrite joined_ends_l.
  - destruct (decide (j <= k)%nat), (decide (j < k)%nat); try lia.
    + destruct (L !! j) as [i|] eqn:Hi; [|done]. cbn [fmap option_fmap option_map].
      by rewrite (joined_ends_other i j).
    + destruct (L !! S j) as [i|] eqn:Hi; [|done]. cbn [fmap option_fmap option_map].
      by rewrite (joined_ends_other i (S j)) by (done || lia).
Qed.

Lemma joined_elem i : i ∈ L' <-> i ∈ L /\ i <> r.
Proof.
  unfold L'. rewrite !list_elem_of_lookup. split.
  - intros [j Hj]. rewrite delete_lookup_cases in Hj. split.
    + destruct (decide (j <= k)%nat); eauto.
    + intros ->. destruct (decide (j <= k)%nat);
        pose proof (increasing_inj _ _ _ _ (sim_increasing _ _ Hs) Hj Hr); lia.
  - intros [[j Hj] Hne]. destruct (decide (j <= k)%nat) as [Hle|Hgt].
    + exists j. by rewrite delete_lookup_cases, decide_True.
    + destruct j as [|j]; [lia|]. exists j. rewrite delete_lookup_cases.
      destruct (decide (j <= k)%nat); [|done].
      assert (j = k) as -> by lia. congruence.
Qed.

Lemma joined_next j i : L' !! j = Some i -> next st' !! i = Some (L' !! S j).
Proof.
  unfold L'. rewrite !delete_lookup_cases. intros Hi. cbn.
  pose proof (sim_next_length _ _ Hs) as Hlen.
  destruct (decide (j = k)) as [->|Hne].
  - rewrite decide_True in Hi by lia. rewrite decide_False by lia.
    assert (i = l) as -> by congruence.
    apply list_lookup_insert_eq. rewrite Hlen. by apply (live_bound l k).
  - assert (Hil : i <> l).
    { intros ->. destruct (decide (j <= k)%nat);
        pose proof (increasing_inj _ _ _ _ (sim_increasing _ _ Hs) Hi Hl); lia. }
    rewrite list_lookup_insert_ne by done.
    destruct (decide (j <= k)%nat); rewrite (sim_next _ _ Hs _ _ Hi); [|by rewrite decide_False by lia].
    by rewrite decide_True by lia.
Qed.

(** The pairs of the new list that were neighbours before keep their entry;
    the pair to the right of the join has the entry [h'] adds. *)
Lemma joined_complete d :
  queue_entries (heap st) ≡ₚ (d, l, r) :: queue_entries h ->
  (forall e, e ∈ queue_entries h -> e ∈ queue_entries h') ->
  (forall f, following = Some f ->
     may_join keep (Z.max (ends st !!! l) (ends st !!! r)) (spans !!! f).1 = true ->
     (distance (Z.max (ends st !!! l) (ends st !!! r)) (spans !!! f).1, l, f)
       ∈ queue_entries h') ->
  forall j a b, L' !! j = Some a -> L' !! S j = Some b ->
    may_join keep (ends st' !!! a) (spans !!! b).1 = true ->
    (distance (ends st' !!! a) (spans !!! b).1, a, b) ∈ queue_entries (heap st').
Proof.
  intros Hperm Hsub Hnew j a b. unfold L'. rewrite !delete_lookup_cases. intros Ha Hb Hj. cbn [heap st' joined].
  assert (Hold : forall m, m <> k -> L !! m = Some a -> L !! S m = Some b ->
            (distance (ends st' !!! a) (spans !!! b).1, a, b) ∈ queue_entries h').
  { intros m Hm Hma Hmb. rewrite (joined_ends_other a m) in * by done.
    pose proof (sim_complete _ _ Hs _ _ _ Hma Hmb Hj) as Hin. rewrite Hperm in Hin.
    apply Hsub. apply elem_of_cons in Hin as [Heq|Hin]; [|done].
    injection Heq as _ -> _. by destruct Hm, (increasing_inj _ _ _ _ (sim_increasing _ _ Hs) Hma Hl). }
  destruct (decide (j = k)) as [->|Hne].
  - rewrite decide_True in Ha by lia. rewrite decide_False in Hb by lia.
    assert (a = l) as -> by congruence. rewrite joined_ends_l in *. by apply Hnew.
  - destruct (decide (j <= k)%nat).
    + rewrite decide_True in Hb by lia. by apply (Hold j).
    + rewrite decide_False in Hb by lia. apply (Hold (S j)); [lia|done|done].
Qed.

Lemma joined_length : length L' = (length L - 1)%nat.
Proof. apply length_delete. eauto. Qed.

Lemma joined_sim d :
  queue_entries (heap st) ≡ₚ (d, l, r) :: queue_entries h ->
  (forall e, e ∈ queue_entries h -> e ∈ queue_entries h') ->
  (forall f, following = Some f ->
     may_join keep (Z.max (ends st !!! l) (ends st !!! r)) (spans !!! f).1 = true ->
     (distance (Z.max (ends st !!! l) (ends st !!! r)) (spans !!! f).1, l, f)
       ∈ queue_entries h') ->
  Forall entry_sound (queue_entries h') ->
  sim st' L'.
Proof.
  intros Hperm Hsub Hnew Hsound.
  assert (Hview : forall j, view st L !! j = (fun i => ((spans !!! i).1, ends st !!! i)) <$> L !! j)
    by apply view_lookup.
  split.
  - cbn. by rewrite length_insert, (sim_ends _ _ Hs).
  - cbn. by rewrite length_insert, (sim_next_length _ _ Hs).
  - cbn. by rewrite length_insert, (sim_alive_length _ _ Hs).
  - apply increasing_delete, (sim_increasing _ _ Hs).
  - apply Forall_forall. intros i Hi. apply joined_elem in Hi as [Hi _].
    apply (proj1 (Forall_forall _ _) (sim_bound _ _ Hs) _ Hi).
  - rewrite joined_length. cbn. by rewrite (sim_remaining _ _ Hs).
  - intros i Hi. cbn. pose proof (sim_alive_length _ _ Hs).
    destruct (decide (i = r)) as [->|Hne].
    + rewrite list_lookup_insert_eq by lia. f_equal. symmetry. apply bool_decide_eq_false.
      rewrite joined_elem. naive_solver.
    + rewrite list_lookup_insert_ne by done. rewrite (sim_alive _ _ Hs _ Hi). f_equal.
      apply bool_decide_ext. rewrite joined_elem. naive_solver.
  - exact joined_next.
  - rewrite joined_view. eapply join_at_canon; [apply (sim_canon _ _ Hs)| |];
      rewrite Hview, ?Hl, ?Hr; done.
  - rewrite joined_view. apply Forall_lookup. intros j x.
    assert (Htl : forall m y, view st L !! m = Some y -> is_u64 y.1 /\ is_u64 y.2)
      by (apply Forall_lookup, (sim_typed _ _ Hs)).
    rewrite (join_at_lookup k _ ((spans !!! l).1, ends st !!! l) ((spans !!! r).1, ends st !!! r))
      by (by rewrite Hview, ?Hl, ?Hr).
    pose proof (Htl k ((spans !!! l).1, ends st !!! l) ltac:(by rewrite Hview, Hl)) as [? ?].
    pose proof (Htl (S k) ((spans !!! r).1, ends st !!! r) ltac:(by rewrite Hview, Hr)) as [? ?].
    destruct (decide (j = k)); [intros [= <-]; cbn in *; ulia|].
    destruct (decide (j < k)%nat); apply Htl.
  - exact Hsound.
  - by apply (joined_complete d).
Qed.
End JoinStep.

(** An entry that is not current leaves the abstract list alone. *)
Lemma sim_skip st L d l r h :
  sim st L -> queue_entries (heap st) ≡ₚ (d, l, r) :: queue_entries h ->
  (forall k, L !! k = Some l -> L !! S k = Some r ->
     d <> distance (ends st !!! l) (spans !!! r).1) ->
  sim (mkJoinState (ends st) (next st) (alive st) h (remaining st)) L.
Proof.
  intros [] Hperm Hstale. split; cbn; try done.
  - rewrite Hperm in sim_sound0. by apply Forall_cons in sim_sound0 as [_ ?].
  - intros k a b Ha Hb Hj. specialize (sim_complete0 _ _ _ Ha Hb Hj).
    rewrite Hperm in sim_complete0. apply elem_of_cons in sim_complete0 as [Heq|?]; [|done].
    exfalso. simplify_eq. by eapply (Hstale k).
Qed.

Lemma sound_push st L k l r f h :
  sim st L -> L !! k = Some l -> L !! S k = Some r -> L !! S (S k) = Some f ->
  Forall entry_sound (queue_entries h) ->
  may_join keep (Z.max (ends st !!! l) (ends st !!! r)) (spans !!! f).1 = true ->
  entry_sound (distance (Z.max (ends st !!! l) (ends st !!! r)) (spans !!! f).1, l, f).
Proof.
  intros Hs Hl Hr Hf Hh Hj.
  pose proof (sim_gap _ _ _ _ _ Hs Hl Hr) as (H1 & _ & H2).
  pose proof (sim_gap _ _ _ _ _ Hs Hr Hf) as (H3 & _ & _).
  split; [by apply (live_bound st L Hs l k)|]. split; [by apply (live_bound st L Hs f (S (S k)))|].
  exists (Z.max (ends st !!! l) (ends st !!! r)). split; [lia|]. split; [lia|]. done.
Qed.

(** The push after a join adds what the new neighbours need and no more. *)
Lemma push_following_spec st L k l r h :
  sim st L -> L !! k = Some l -> L !! S k = Some r ->
  Forall entry_sound (queue_entries h) ->
  exists h',
    push_following spans keep l (Z.max (ends st !!! l) (ends st !!! r)) (L !! S (S k)) h = Some h'
    /\ (length (queue_entries h') <= S (length (queue_entries h)))%nat
    /\ (forall e, e ∈ queue_entries h -> e ∈ queue_entries h')
    /\ (forall f, L !! S (S k) = Some f ->
          may_join keep (Z.max (ends st !!! l) (ends st !!! r)) (spans !!! f).1 = true ->
          (distance (Z.max (ends st !!! l) (ends st !!! r)) (spans !!! f).1, l, f)
            ∈ queue_entries h')
    /\ Forall entry_sound (queue_entries h').
Proof.
  intros Hs Hk Hk' Hsound. unfold push_following.
  destruct (L !! S (S k)) as [f|] eqn:Hf; [|exists h; split; [done|]; split; [lia|done]].
  rewrite (list_lookup_lookup_total_lt spans f) by (by apply (live_bound st L Hs f (S (S k)))).
  cbn [mbind option_bind]. set (e := Z.max _ _).
  destruct (may_join keep e (spans !!! f).1) eqn:Hm.
  - exists (queue_push (distance e (spans !!! f).1, l, f) h). split; [done|].
    pose proof (queue_push_entries (distance e (spans !!! f).1, l, f) h) as Hp.
    pose proof (Permutation_length Hp) as Hlen. cbn [length] in Hlen. split; [lia|].
    split; [intros x Hx; rewrite Hp; by apply elem_of_cons; right|]. split.
    + intros ? [= <-] _. rewrite Hp. apply elem_of_cons. by left.
    + rewrite Hp. apply Forall_cons. split; [|done]. by apply (sound_push st L k l r f h).
  - exists h. split; [done|]. split; [lia|]. split; [done|]. split; [|done].
    intros ? [= <-]. congruence.
Qed.

Definition measure (st : JoinState Q) : nat :=
  (length (queue_entries (heap st)) + remaining st)%nat.

(** One iteration: never out of range; it breaks only when no pair may be
    joined, skips a stale entry, or makes the join the search would make. *)
Lemma iteration_sim st L :
  sim st L ->
  (join_iteration spans keep st = Some (false, st) /\ nearest (view st L) keep = None)
  \/ (exists st', join_iteration spans keep st = Some (true, st') /\ sim st' L
        /\ view st' L = view st L /\ (measure st' < measure st)%nat)
  \/ (exists st' k, join_iteration spans keep st = Some (true, st')
        /\ nearest (view st L) keep = Some k /\ (S k < length L)%nat
        /\ sim st' (delete (S k) L)
        /\ view st' (delete (S k) L) = join_at k (view st L)
        /\ (measure st' < measure st)%nat).
Proof.
  intros Hs. unfold join_iteration. destruct (queue_pop (heap st)) as [[[[d l] r] h]|] eqn:Hpop.
  2: { left. split; [done|]. apply queue_pop_None in Hpop.
       destruct (nearest (view st L) keep) as [k|] eqn:En; [exfalso|done].
       apply nearest_Some in En as (d & (a & b & Ha & Hb & Hj & ->)%joinable_view & _).
       pose proof (sim_complete _ _ Hs _ _ _ Ha Hb Hj) as Hin. rewrite Hpop in Hin. by apply elem_of_nil in Hin. }
  right. pose proof (queue_pop_Some _ _ _ Hpop) as [Hperm _].
  pose proof (Permutation_length Hperm) as Hlen. cbn in Hlen.
  pose proof (sim_sound _ _ Hs) as Hsound. rewrite Hperm in Hsound.
  apply Forall_cons in Hsound as [He Hsound]. pose proof He as (Hl & Hr & _).
  rewrite (sim_alive _ _ Hs _ Hl), (sim_alive _ _ Hs _ Hr). cbn [mbind option_bind].
  destruct (lookup_lt_is_Some_2 (next st) l) as [nl Hnl]; [by rewrite (sim_next_length _ _ Hs)|].
  rewrite Hnl, (list_lookup_lookup_total_lt spans r Hr). cbn [mbind option_bind].
  rewrite (list_lookup_lookup_total_lt (ends st) l) by (by rewrite (sim_ends _ _ Hs)).
  cbn [mbind option_bind].
  destruct (_ && _ && _ && _) eqn:Ecur; cbn [negb].
  2: { left. eexists. split; [reflexivity|]. split.
       - apply (sim_skip st L d l r h Hs Hperm). intros k Hk Hk' ->.
         apply not_true_iff_false in Ecur. apply Ecur.
         rewrite Z.eqb_refl, andb_true_r, !andb_true_iff, !bool_decide_eq_true.
         pose proof (sim_next _ _ Hs _ _ Hk) as Hn. rewrite Hnl, Hk' in Hn.
         split; [split|congruence]; by eapply list_elem_of_lookup_2.
       - split; [done|]. unfold measure. cbn. lia. }
  right. apply andb_true_iff in Ecur as [[[Hal Har]%andb_true_iff Hn]%andb_true_iff Hd].
  apply bool_decide_eq_true in Hal, Hn. apply Z.eqb_eq in Hd. subst nl.
  destruct (current_entry _ _ _ _ _ Hs He Hal Hnl Hd) as (k & Hk & Hk' & Hj).
  rewrite (list_lookup_lookup_total_lt (ends st) r) by (by rewrite (sim_ends _ _ Hs)).
  rewrite (sim_next _ _ Hs _ _ Hk'). cbn [mbind option_bind].
  pose proof (popped_is_nearest _ _ _ _ _ _ _ Hs Hpop Hk Hk' Hj Hd) as Hnear.
  assert (Hbig : (S k < length L)%nat) by (by apply lookup_lt_Some in Hk').
  destruct (push_following_spec st L k l r h Hs Hk Hk' Hsound)
    as (h' & -> & Hlen' & Hsub & Hnew & Hsound'). cbn [mbind option_bind].
  exists (joined st l r (L !! S (S k)) h'), k. split; [reflexivity|]. split; [done|].
  split; [done|]. split; [by apply (joined_sim st L k l r h h' Hs Hk Hk' d)|].
  split; [by apply (joined_view st L k l r h' Hs)|].
  unfold measure. cbn. rewrite (sim_remaining _ _ Hs). lia.
Qed.

(** ** The initial state *)

Definition initial_entry (item : nat * (Span * Span)) : option entry :=
  let '(i, (a, b)) := item in
  if may_join keep a.2 b.1 then Some (distance a.2 b.1, i, S i) else None.

Lemma initial_heap_entries :
  queue_entries (initial_heap spans keep : Q)
    ≡ₚ omap initial_entry (enumerate (windows2 spans)).
Proof.
  unfold initial_heap. generalize (enumerate (windows2 spans)) as items. intros items.
  rewrite <- (app_nil_r (omap initial_entry items)), <- (queue_empty_entries (Q := Q)).
  generalize (queue_empty : Q). induction items as [|[i [a b]] items IH]; intros q; [done|].
  cbn [fold_left omap list_omap]. rewrite IH. unfold initial_entry at 2.
  destruct (may_join keep a.2 b.1); [|done].
  rewrite queue_push_entries. by rewrite <- Permutation_middle.
Qed.

Lemma length_windows2 {A} (l : list A) : length (windows2 l) = (length l - 1)%nat.
Proof.
  induction l as [|a [|b l] IH]; [done|done|]. cbn [windows2 length] in *. rewrite IH. lia.
Qed.

Lemma length_omap_le {A B} (f : A -> option B) l : (length (omap f l) <= length l)%nat.
Proof. induction l as [|a l IH]; cbn; [lia|]. destruct (f a); cbn; lia. Qed.

Lemma initial_measure : (measure (initial_state spans keep) <= length spans - 1 + length spans)%nat.
Proof.
  unfold measure. cbn. pose proof (Permutation_length initial_heap_entries) as ->.
  pose proof (length_omap_le initial_entry (enumerate (windows2 spans))) as H.
  assert (length (enumerate (windows2 spans)) = length spans - 1)%nat
    by (unfold enumerate; rewrite length_zip, length_seq, length_windows2; lia).
  lia.
Qed.

Lemma initial_view : view (initial_state spans keep) (seq 0 (length spans)) = spans.
Proof.
  apply list_eq. intros i. rewrite view_lookup. destruct (spans !! i) as [s|] eqn:Hi.
  - rewrite (proj2 (lookup_seq _ _ _ _)) by (split; [done|by apply lookup_lt_Some in Hi]).
    cbn. f_equal. rewrite (list_lookup_total_correct _ _ _ Hi).
    rewrite (list_lookup_total_correct (snd <$> spans) i s.2) by (by rewrite list_lookup_fmap, Hi).
    by destruct s.
  - rewrite (proj2 (lookup_ge_None _ _)); [done|]. rewrite length_seq. by apply lookup_ge_None.
Qed.

Lemma initial_sound : Forall entry_sound (queue_entries (heap (initial_state spans keep))).
Proof.
  cbn. rewrite initial_heap_entries. apply Forall_forall. intros [[d l] r] H.
  apply list_elem_of_omap in H as ([i [a b]] & Hi & Hx). cbn in Hx.
  apply list_elem_of_lookup in Hi as [j Hj]. apply enumerate_lookup in Hj as [-> Hj].
  apply windows2_lookup in Hj as [Ha Hb]. destruct (may_join keep a.2 b.1) eqn:Hm; [|done].
  injection Hx as <- <- <-. apply lookup_lt_Some in Ha as Hla. apply lookup_lt_Some in Hb as Hlb.
  split; [done|]. split; [done|]. rewrite (list_lookup_total_correct _ _ _ Hb).
  pose proof (canon_lookup_order _ _ _ _ _ _ spans_canonical Ha Hb ltac:(lia)).
  pose proof (canon_lookup_pos _ _ _ _ spans_canonical Ha).
  exists a.2. split; [done|]. split; [lia|done].
Qed.

Lemma initial_complete k a b :
  spans !! k = Some a -> spans !! S k = Some b -> may_join keep a.2 b.1 = true ->
  (distance a.2 b.1, k, S k) ∈ queue_entries (heap (initial_state spans keep)).
Proof.
  intros Ha Hb Hj. cbn. rewrite initial_heap_entries. apply list_elem_of_omap.
  exists (k, (a, b)). split; [|cbn; by rewrite Hj].
  apply list_elem_of_lookup. exists k. apply enumerate_lookup. split; [done|].
  by apply windows2_lookup.
Qed.

Lemma initial_sim : sim (initial_state spans keep) (seq 0 (length spans)).
Proof.
  split.
  - cbn. by rewrite length_fmap.
  - cbn. by rewrite length_fmap, length_seq.
  - cbn. by rewrite length_replicate.
  - apply increasing_seq.
  - apply Forall_forall. intros i Hi. apply elem_of_seq in Hi. lia.
  - cbn. by rewrite length_seq.
  - intros i Hi. cbn. rewrite lookup_replicate_2 by done. f_equal. symmetry.
    apply bool_decide_eq_true. apply elem_of_seq. lia.
  - intros k i [-> Hk]%lookup_seq. cbn [next initial_state]. rewrite list_lookup_fmap, (proj2 (lookup_seq _ _ _ _)) by done.
    cbn [fmap option_fmap option_map Nat.add]. f_equal.
    destruct (S k <? length spans)%nat eqn:E.
    + apply Nat.ltb_lt in E. symmetry. by apply lookup_seq.
    + apply Nat.ltb_ge in E. symmetry. apply lookup_ge_None. by rewrite length_seq.
  - by rewrite initial_view.
  - by rewrite initial_view.
  - apply initial_sound.
  - intros k a b [-> Ha]%lookup_seq [-> Hb]%lookup_seq. cbn [Nat.add].
    destruct (lookup_lt_is_Some_2 spans k Ha) as [x Hx].
    destruct (lookup_lt_is_Some_2 spans (S k) Hb) as [y Hy].
    rewrite (list_lookup_total_correct _ _ _ Hy). cbn [ends initial_state].
    rewrite (list_lookup_total_correct (snd <$> spans) k x.2) by (by rewrite list_lookup_fmap, Hx).
    intros Hj. by apply initial_complete.
Qed.

(** The loop ends within its fuel, out of range nowhere, at the list the
    search ends at. *)
Lemma loop_sim fuel limit st L fuel2 :
  sim st L -> (measure st < fuel)%nat -> (length L <= fuel2)%nat ->
  exists st' L', join_loop fuel spans limit keep st = Some st' /\ sim st' L'
    /\ view st' L' = search_loop fuel2 (view st L) limit keep.
Proof.
  revert st L fuel2. induction fuel as [|fuel IH]; intros st L fuel2 Hs Hm Hf; [lia|].
  cbn [join_loop]. rewrite (sim_remaining _ _ Hs). destruct (limit <? length L)%nat eqn:E.
  - destruct fuel2 as [|fuel2]; [apply Nat.ltb_lt in E; lia|]. cbn [search_loop].
    rewrite view_length, E.
    destruct (iteration_sim st L Hs)
      as [[-> ->]|[(st' & -> & Hs' & <- & Hm')|(st' & k & -> & -> & Hk & Hs' & <- & Hm')]].
    + by exists st, L.
    + destruct (IH st' L (S fuel2) Hs' ltac:(lia) Hf) as (st2 & L2 & HA & HB & HC).
      exists st2, L2. split; [done|]. split; [done|]. rewrite HC. cbn [search_loop].
      by rewrite view_length, E.
    + apply (IH st' _ fuel2 Hs'); [lia|].
      destruct (lookup_lt_is_Some_2 L (S k) Hk) as [r Hr].
      rewrite length_delete by eauto. lia.
  - exists st, L. split; [done|]. split; [done|].
    destruct fuel2; cbn [search_loop]; [done|]. by rewrite view_length, E.
Qed.

Lemma collect_omap st L :
  sim st L ->
  collect spans st =
  omap (fun i => if bool_decide (i ∈ L) then Some ((spans !!! i).1, ends st !!! i) else None)
    (seq 0 (length spans)).
Proof.
  intros Hs. unfold collect.
  assert (Hzip : zip (zip spans (ends st)) (alive st) =
    (fun i => (spans !!! i, ends st !!! i, bool_decide (i ∈ L))) <$> seq 0 (length spans)).
  { apply list_eq. intros i. rewrite list_lookup_fmap, !lookup_zip_with.
    destruct (spans !! i) as [s|] eqn:Hi.
    - apply lookup_lt_Some in Hi as Hlt.
      rewrite (proj2 (lookup_seq _ _ _ _)) by done. cbn [Nat.add fmap option_fmap option_map].
      rewrite (list_lookup_lookup_total_lt (ends st) i) by (by rewrite (sim_ends _ _ Hs)).
      rewrite (sim_alive _ _ Hs i Hlt), (list_lookup_total_correct _ _ _ Hi). done.
    - rewrite (proj2 (lookup_ge_None (seq _ _) i)); [done|].
      rewrite length_seq. by apply lookup_ge_None. }
  rewrite Hzip. clear Hzip. induction (seq 0 (length spans)) as [|i l IH]; [done|].
  cbn [fmap list_fmap omap list_omap]. rewrite IH. by destruct (bool_decide (i ∈ L)).
Qed.

Lemma collect_view st L : sim st L -> collect spans st = view st L.
Proof.
  intros Hs. rewrite (collect_omap st L Hs). unfold view.
  rewrite (omap_filter _ (fun i => i ∈ L)). f_equal.
  apply filter_seq_increasing; [apply (sim_increasing _ _ Hs)|apply (sim_bound _ _ Hs)].
Qed.

Lemma join_nearest_search limit :
  join_nearest (Q := Q) spans limit keep = Some (nearest_first_by_searching spans limit keep).
Proof.
  unfold join_nearest, nearest_first_by_searching. cbn zeta.
  destruct (length spans <=? Nat.max limit 1)%nat eqn:E.
  - f_equal. destruct spans as [|s l] eqn:Es; [done|]. rewrite <- Es in *.
    assert (Hlt : (Nat.max limit 1 <? length spans)%nat = false)
      by (apply Nat.ltb_ge, Nat.leb_le, E).
    destruct (length spans) eqn:El; [done|]. cbn [search_loop]. by rewrite El, Hlt.
  - apply Nat.leb_gt in E. pose proof initial_measure as Hm.
    destruct (loop_sim (2 * length spans) (Nat.max limit 1) (initial_state spans keep)
                (seq 0 (length spans)) (length spans) initial_sim) as (st & L & -> & Hs & Hv).
    + lia.
    + by rewrite length_seq.
    + cbn [mbind option_bind]. f_equal. by rewrite (collect_view st L Hs), Hv, initial_view.
Qed.
End Simulation.

(** The heap-driven join gives exactly what searching for the nearest pair
    before every join gives, ties to the left, whatever queue implements the
    heap: the loop ends, no index is out of range, and stale entries change
    nothing. Claim C14. *)
Theorem join_nearest_equivalence {Q : Type} `{!MinQueue Q, !MinQueueLaws Q} spans limit keep :
  canonical spans -> spans_typed spans ->
  join_nearest (Q := Q) spans limit keep = Some (nearest_first_by_searching spans limit keep).
Proof. intros Hc Ht. by apply join_nearest_search. Qed.

Lemma join_nearest_equivalence_witness :
  join_nearest (Q := list entry) [(0, 25); (55, 60); (70, 75); (105, 125)] 3 (Some (60, 70))
    = Some [(0, 60); (70, 75); (105, 125)]
  /\ nearest_first_by_searching [(0, 25); (55, 60); (70, 75); (105, 125)] 3 (Some (60, 70))
    = [(0, 60); (70, 75); (105, 125)].
Proof.
  pose proof (join_nearest_equivalence (Q := list entry)
    [(0, 25); (55, 60); (70, 75); (105, 125)] 3 (Some (60, 70))) as H.
  assert (E : nearest_first_by_searching [(0, 25); (55, 60); (70, 75); (105, 125)] 3
                (Some (60, 70)) = [(0, 60); (70, 75); (105, 125)]) by (vm_compute; reflexivity).
  split; [|exact E]. rewrite H, E; [done| |].
  - concrete.
  - repeat constructor; concrete.
Defined.

(** ** What joining keeps *)

Section Preservation.
Context (keep : option Span) (original : list Span).

(** The invariant of the search: canonical, nothing lost, no new start or
    end, nothing inside the range kept apart. *)
Definition join_inv (l : list Span) : Prop :=
  canonical l
  /\ (forall x, covers original x -> covers l x)
  /\ Forall (fun s => s.1 ∈ original.*1 /\ s.2 ∈ original.*2) l
  /\ (forall apart x, keep = Some apart -> in_span apart x -> ~ covers l x).

Hypothesis apart_positive : forall apart, keep = Some apart -> apart.1 < apart.2.

Lemma join_at_covers k l a b x :
  l !! k = Some a -> l !! S k = Some b -> a.1 < a.2 -> a.2 < b.1 -> b.1 < b.2 ->
  covers (join_at k l) x <-> covers l x \/ a.2 <= x < b.1.
Proof.
  intros Ha Hb H1 H2 H3. destruct (join_at_split k l a b Ha Hb) as (l1 & l2 & Hl & _ & ->).
  rewrite Hl, !covers_app, !covers_cons. unfold in_span. cbn. rewrite Z.max_r by lia.
  destruct (Z.lt_ge_cases x a.2), (Z.lt_ge_cases x b.1); intuition lia.
Qed.

Lemma join_inv_step k l a b :
  join_inv l -> l !! k = Some a -> l !! S k = Some b -> may_join keep a.2 b.1 = true ->
  join_inv (join_at k l).
Proof.
  intros (Hcan & Hcov & Hends & Hkeep) Ha Hb Hj.
  pose proof (canon_lookup_pos _ _ _ _ Hcan Ha) as [_ H1].
  pose proof (canon_lookup_pos _ _ _ _ Hcan Hb) as [_ H3].
  pose proof (canon_lookup_order _ _ _ _ _ _ Hcan Ha Hb ltac:(lia)) as H2.
  pose proof (join_at_covers k l a b) as Hx. split; [|split; [|split]].
  - by eapply join_at_canon.
  - intros x Hc. apply Hx; auto.
  - destruct (join_at_split k l a b Ha Hb) as (l1 & l2 & Hl & _ & ->). rewrite Hl in Hends.
    apply Forall_app in Hends as [He1 He2]. rewrite !Forall_cons in He2.
    destruct He2 as ([Ha1 _] & [_ Hb2] & He2). apply Forall_app. split; [done|].
    apply Forall_cons. cbn. rewrite Z.max_r by lia. done.
  - intros apart x Hk Hin. rewrite (Hx x Ha Hb H1 H2 H3). intros [Hc|Hgap];
      [by apply (Hkeep apart x)|].
    pose proof (apart_positive _ Hk) as Hpos. subst keep. cbn in Hj. bool_prop.
    unfold in_span in Hin.
    assert (Hca : forall y, a.1 <= y < a.2 -> covers l y).
    { intros y Hy. apply Exists_exists. exists a. split; [by eapply list_elem_of_lookup_2|done]. }
    assert (Hcb : forall y, b.1 <= y < b.2 -> covers l y).
    { intros y Hy. apply Exists_exists. exists b. split; [by eapply list_elem_of_lookup_2|done]. }
    destruct Hj as [Hj|Hj]; bool_prop.
    + apply (Hkeep apart (Z.max a.1 apart.1) eq_refl); [unfold in_span|apply Hca]; lia.
    + apply (Hkeep apart b.1 eq_refl); [unfold in_span|apply Hcb]; lia.
Qed.

Lemma search_loop_inv fuel l limit :
  join_inv l -> (length l <= fuel)%nat ->
  join_inv (search_loop fuel l limit keep)
  /\ ((length (search_loop fuel l limit keep) <= limit)%nat
      \/ nearest (search_loop fuel l limit keep) keep = None).
Proof.
  revert l. induction fuel as [|fuel IH]; intros l Hl Hf; cbn [search_loop].
  { split; [done|]. left. lia. }
  destruct (limit <? length l)%nat eqn:E; [|split; [done|left; by apply Nat.ltb_ge]].
  destruct (nearest l keep) as [k|] eqn:En; [|by auto].
  apply nearest_Some in En as (d & (a & b & Ha & Hb & Hj & _) & _).
  apply IH; [by eapply join_inv_step|]. rewrite (join_at_length k l a b) by done. lia.
Qed.

(** When no pair may be joined, at most two spans are left. *)
Lemma nearest_None_short l :
  canonical l -> nearest l keep = None ->
  (length l <= match keep with None => 1 | Some _ => 2 end)%nat.
Proof.
  intros Hl Hn.
  assert (Hno : forall k a b, l !! k = Some a -> l !! S k = Some b -> may_join keep a.2 b.1 = false).
  { intros k a b Ha Hb. apply not_true_iff_false. intros Hj.
    apply (nearest_None keep l k (distance a.2 b.1) Hn). by exists a, b. }
  destruct l as [|a [|b [|c l]]]; cbn; [destruct keep; lia|destruct keep; lia| |].
  - specialize (Hno 0%nat a b eq_refl eq_refl). destruct keep; [lia|done].
  - pose proof (Hno 0%nat a b eq_refl eq_refl) as H1.
    pose proof (Hno 1%nat b c eq_refl eq_refl) as H2.
    destruct keep as [apart|] eqn:Ek; [|done]. pose proof (apart_positive _ eq_refl).
    destruct Hl as (_ & _ & _ & Hb & _). cbn in H1, H2. bool_prop. lia.
Qed.
End Preservation.

(** The bound is met exactly: what had to be shortened is as long as it may be. *)
Lemma search_loop_length_ge fuel l limit keep :
  (limit <= length l)%nat -> (limit <= length (search_loop fuel l limit keep))%nat.
Proof.
  revert l. induction fuel as [|fuel IH]; intros l Hl; cbn [search_loop]; [done|].
  destruct (limit <? length l)%nat eqn:E; [|done]. apply Nat.ltb_lt in E.
  destruct (nearest l keep) as [k|] eqn:En; [|done].
  apply nearest_Some in En as (d & (a & b & Ha & Hb & Hj & _) & _).
  apply IH. rewrite (join_at_length k l a b) by done. lia.
Qed.

Lemma join_nearest_short {Q : Type} `{!MinQueue Q, !MinQueueLaws Q} spans limit keep l :
  canonical spans -> spans_typed spans ->
  join_nearest (Q := Q) spans limit keep = Some l -> (length l < limit)%nat -> l = spans.
Proof.
  intros Hc Ht Hj Hl. rewrite join_nearest_search in Hj by done. injection Hj as <-.
  unfold nearest_first_by_searching in *.
  destruct (decide (limit <= length spans)%nat).
  - pose proof (search_loop_length_ge (length spans) spans (Nat.max limit 1) keep ltac:(lia)). lia.
  - destruct (length spans) eqn:E; [done|]. cbn [search_loop]. rewrite (proj2 (Nat.ltb_ge _ _)); [done|lia].
Qed.

(** What the join keeps, shared with its callers. *)
Lemma join_nearest_spec {Q : Type} `{!MinQueue Q, !MinQueueLaws Q} spans limit keep :
  canonical spans -> spans_typed spans ->
  (forall apart, keep = Some apart ->
     apart.1 < apart.2 /\ forall x, in_span apart x -> ~ covers spans x) ->
  exists l, join_nearest (Q := Q) spans limit keep = Some l
    /\ canonical l
    /\ (forall x, covers spans x -> covers l x)
    /\ Forall (fun s => s.1 ∈ spans.*1 /\ s.2 ∈ spans.*2) l
    /\ (length l <= Nat.max limit (match keep with None => 1 | Some _ => 2 end))%nat
    /\ (forall apart x, keep = Some apart -> in_span apart x -> ~ covers l x).
Proof.
  intros Hc Ht Hk. exists (nearest_first_by_searching spans limit keep).
  split; [by apply join_nearest_search|]. unfold nearest_first_by_searching.
  destruct (search_loop_inv keep spans (fun a H => proj1 (Hk a H)) (length spans) spans
              (Nat.max limit 1)) as [(Ha & Hb & He & Hd) Hlen].
  { split; [done|]. split; [done|]. split.
    - apply Forall_forall. intros s Hs. split; by apply list_elem_of_fmap_2.
    - intros apart x Heq. by apply (Hk apart Heq). }
  { done. }
  split; [done|]. split; [done|]. split; [done|]. split; [|done].
  destruct Hlen as [Hlen|Hlen]; [destruct keep; lia|].
  pose proof (nearest_None_short keep (fun a H => proj1 (Hk a H)) _ Ha Hlen). lia.
Qed.

(** Bounding a list describes more than it was given, never less: every
    covered instant stays covered, every start and end of the result is one
    of the input, the list is canonical and no longer than the limit (at
    least one, or two when a range is kept apart), and a range no input span
    overlaps is never overlapped by a join. Claim C35. *)
Theorem join_nearest_sound {Q : Type} `{!MinQueue Q, !MinQueueLaws Q} spans limit keep :
  canonical spans -> spans_typed spans ->
  (forall apart, keep = Some apart ->
     apart.1 < apart.2 /\ forall x, in_span apart x -> ~ covers spans x) ->
  exists l, join_nearest (Q := Q) spans limit keep = Some l
    /\ canonical l
    /\ (forall x, covers spans x -> covers l x)
    /\ Forall (fun s => s.1 ∈ spans.*1 /\ s.2 ∈ spans.*2) l
    /\ (length l <= Nat.max limit (match keep with None => 1 | Some _ => 2 end))%nat
    /\ (forall apart x, keep = Some apart -> in_span apart x -> ~ covers l x).
Proof. apply join_nearest_spec. Qed.

Lemma join_nearest_sound_witness :
  exists l,
    join_nearest (Q := list entry) [(0, 25); (55, 60); (70, 75); (105, 125)] 2 (Some (60, 70))
      = Some l /\ (length l <= 2)%nat.
Proof.
  destruct (join_nearest_sound (Q := list entry) [(0, 25); (55, 60); (70, 75); (105, 125)] 2
              (Some (60, 70))) as (l & Hl & _ & _ & _ & Hlen & _).
  - concrete.
  - repeat constructor; concrete.
  - intros apart [= <-]. split; [concrete|]. intros x Hx Hc.
    unfold in_span in Hx. cbn in Hx.
    repeat (apply covers_cons in Hc as [Hc|Hc]; [unfold in_span in Hc; cbn in Hc; lia|]).
    by apply covers_nil in Hc.
  - exists l. split; [exact Hl|exact Hlen].
Defined.
