(* ===== verification/SpanSet.v ===== *)
(** * SpanSet: a growing set of spans

    Models [SpanSet] of [crates/vsift-domain/src/spans.rs]. Its
    [BTreeMap<u64, u64>], from a span's start to its end, is the list of its
    entries in key order, with the operations of the standard library the
    code calls on it. The set is shown to be the merged list of what was
    inserted, and its gaps the subtraction of that list. *)

From S2P Require Import Prelude.
From S2P Require Import Timeline.
From S2P Require Import Spans.

(** ** The ordered map *)

Definition map_remove (key : Z) (m : list Span) : list Span := filter (fun e => e.1 <> key) m.

Definition map_insert (key value : Z) (m : list Span) : list Span :=
  filter (fun e => e.1 < key) m ++ (key, value) :: filter (fun e => key < e.1) m.

(** [range(..=key).next_back()] *)
Definition map_last_le (key : Z) (m : list Span) : option Span :=
  last (filter (fun e => e.1 <= key) m).

(** [range(lo..=hi).next()] *)
Definition map_first_in (lo hi : Z) (m : list Span) : option Span :=
  head (filter (fun e => lo <= e.1 <= hi) m).

(** [range(lo..hi)] *)
Definition map_between (lo hi : Z) (m : list Span) : list Span :=
  filter (fun e => lo <= e.1 < hi) m.

(** ** The set *)

Record SpanSet := mkSpanSet { spans : list Span }.

Definition SpanSet_default : SpanSet := mkSpanSet [].

(** The [while let] of [insert]: each turn removes the entry it joins. *)
Fixpoint absorb (fuel : nat) (start end_ : Z) (m : list Span) : option (Z * list Span) :=
  match map_first_in start end_ m with
  | None => Some (end_, m)
  | Some e =>
      match fuel with
      | O => None
      | S fuel' => absorb fuel' start (Z.max end_ e.2) (map_remove e.1 m)
      end
  end.

Definition insert_span (set : SpanSet) (s : Span) : option SpanSet :=
  if s.2 <=? s.1 then Some set
  else
    let '(start, end_, m) :=
      match map_last_le s.1 (spans set) with
      | Some before =>
          if s.1 <=? before.2
          then (before.1, Z.max s.2 before.2, map_remove before.1 (spans set))
          else (s.1, s.2, spans set)
      | None => (s.1, s.2, spans set)
      end in
    absorbed ← absorb (length m) start end_ m;
    Some (mkSpanSet (map_insert start absorbed.1 absorbed.2)).

Fixpoint gaps_loop (cursor end_ : Z) (es : list Span) : list Span :=
  match es with
  | [] => if cursor <? end_ then [(cursor, end_)] else []
  | e :: rest =>
      if e.2 <=? cursor then gaps_loop cursor end_ rest
      else
        let pushed := if cursor <? e.1 then [(cursor, e.1)] else [] in
        let cursor' := Z.max cursor e.2 in
        if end_ <=? cursor' then pushed else pushed ++ gaps_loop cursor' end_ rest
  end.

Definition gaps_within (set : SpanSet) (s : Span) : list Span :=
  if s.2 <=? s.1 then []
  else
    let first := match map_last_le s.1 (spans set) with
                 | Some before => before.1
                 | None => s.1
                 end in
    gaps_loop s.1 s.2 (map_between first s.2 (spans set)).

(** Inserting spans one after another. *)
Fixpoint insert_all (set : SpanSet) (l : list Span) : option SpanSet :=
  match l with
  | [] => Some set
  | s :: rest => set' ← insert_span set s; insert_all set' rest
  end.

(** The set's invariant: disjoint and never touching, so every span is
    maximal. *)
Definition SpanSet_wf (set : SpanSet) : Prop := canonical (spans set).

(** ** The map operations on a canonical list *)

Lemma canon_keys_gt lo l : canon lo l -> Forall (fun s => lo < s.1 /\ s.1 < s.2) l.
Proof.
  intros H. apply Forall_lookup. intros i s Hi. by eapply canon_lookup_pos.
Qed.

(** A canonical list around the keys up to [key]. *)
Lemma split_at_key lo key l :
  canon lo l ->
  exists A B, l = A ++ B /\ Forall (fun s => s.1 <= key) A /\ Forall (fun s => key < s.1) B
    /\ map_last_le key l = last A.
Proof.
  intros H. exists (filter (fun s => s.1 <= key) l), (filter (fun s => key < s.1) l).
  split; [|split; [|split]].
  - revert lo H. induction l as [|s l IH]; intros lo H; [done|].
    destruct H as (H1 & H2 & H3). rewrite !filter_cons. destruct (decide (s.1 <= key)).
    + rewrite (decide_False (P := key < s.1)) by lia. cbn. f_equal. by eapply IH.
    + rewrite (decide_True (P := key < s.1)) by lia. pose proof (canon_keys_gt _ _ H3) as Hk.
      rewrite (filter_none (fun s => s.1 <= key) l), (filter_all (fun s => key < s.1) l).
      * done.
      * eapply Forall_impl; [exact Hk|]. cbn. intros; lia.
      * eapply Forall_impl; [exact Hk|]. cbn. intros; lia.
  - apply Forall_forall. intros s Hs. by apply list_elem_of_filter in Hs as [? _].
  - apply Forall_forall. intros s Hs. by apply list_elem_of_filter in Hs as [? _].
  - done.
Qed.

(** Around an entry of a canonical list: what precedes it ends before it
    starts, and what follows starts after it ends. *)
Lemma canon_middle lo A e B :
  canon lo (A ++ e :: B) ->
  lo < e.1 /\ e.1 < e.2
  /\ Forall (fun s => s.1 < s.2 /\ s.2 < e.1) A /\ Forall (fun s => e.2 < s.1 /\ s.1 < s.2) B.
Proof.
  intros H. pose proof H as [HA (H1 & H2 & HB)]%canon_app.
  assert (He : (A ++ e :: B) !! length A = Some e) by by apply list_lookup_middle.
  pose proof (canon_lookup_pos _ _ _ _ H He). split; [lia|]. split; [lia|]. split.
  - apply Forall_lookup. intros i s Hi. pose proof (canon_lookup_pos _ _ _ _ HA Hi).
    assert (Hi' : (A ++ e :: B) !! i = Some s) by by apply lookup_app_l_Some.
    pose proof (canon_lookup_order _ _ _ _ _ _ H Hi' He ltac:(by apply lookup_lt_Some in Hi)). lia.
  - by apply canon_keys_gt.
Qed.

Lemma map_remove_mid lo A e B :
  canon lo (A ++ e :: B) -> map_remove e.1 (A ++ e :: B) = A ++ B.
Proof.
  intros H. destruct (canon_middle _ _ _ _ H) as (_ & He & HA & HB).
  unfold map_remove. rewrite filter_app, filter_cons, decide_False by lia.
  rewrite (filter_all _ A), (filter_all _ B).
  - done.
  - eapply Forall_impl; [exact HB|]. cbn. intros; lia.
  - eapply Forall_impl; [exact HA|]. cbn. intros; lia.
Qed.

(** ** [insert] *)

(** [forall_from H]: the pointwise consequence of [H], by arithmetic. *)
Ltac forall_from H := (eapply Forall_impl; [exact H|]); cbn; intros; lia.

(** The loop that absorbs the entries starting inside the new span: [A] ends
    before the span and is left alone, and one turn per entry of [B] is
    enough. *)
Lemma absorb_spec fuel lo start end_ A B :
  canon lo A -> canon start B -> Forall (fun s => s.1 < s.2 /\ s.2 < start) A ->
  start < end_ -> (length B <= fuel)%nat ->
  (forall e B', B = e :: B' -> canon lo (A ++ B)) ->
  exists end' B',
    absorb fuel start end_ (A ++ B) = Some (end', A ++ B')
    /\ end_ <= end' /\ canon end' B'
    /\ same_cover ((start, end') :: B') ((start, end_) :: B).
Proof.
  revert end_ B. induction fuel as [|fuel IH]; intros end_ B HA HB HAs Hlt Hfuel Hcan;
    destruct B as [|b B].
  1, 3: exists end_, []; (split; [|done]); cbn [absorb]; unfold map_first_in;
    rewrite app_nil_r, filter_none; [done|];
    forall_from HAs.
  { cbn in Hfuel. lia. }
  destruct HB as (H1 & H2 & H3). pose proof (canon_keys_gt _ _ H3) as Hkeys.
  unfold absorb at 1. fold absorb. unfold map_first_in at 1.
  rewrite filter_app, (filter_none _ A)
    by forall_from HAs.
  rewrite filter_cons. cbn [app]. destruct (decide (start <= b.1 <= end_)) as [Hin|Hout].
  - cbn [head]. rewrite (map_remove_mid lo) by (by eapply Hcan).
    destruct (IH (Z.max end_ b.2) B) as (end' & B' & Hab & Hle & Hc & Hcov).
    + done.
    + by eapply canon_weaken; [|exact H3]; lia.
    + done.
    + lia.
    + cbn in Hfuel. lia.
    + intros e B0 _. specialize (Hcan _ _ eq_refl). apply canon_app in Hcan as [_ Hc].
      apply canon_app. split; [done|]. destruct Hc as (Hc1 & Hc2 & Hc3).
      by eapply canon_weaken; [|exact Hc3]; lia.
    + exists end', B'. split; [done|]. split; [lia|]. split; [done|]. rewrite Hcov. intros x.
      rewrite !covers_cons. unfold in_span. cbn. intuition lia.
  - rewrite (filter_none _ B) by forall_from Hkeys.
    exists end_, (b :: B). split; [done|]. split; [lia|]. split; [|done]. cbn.
    split; [lia|done].
Qed.

Lemma map_insert_between lo A start end_ B :
  canon lo A -> lo < start -> start < end_ ->
  Forall (fun s => s.1 < s.2 /\ s.2 < start) A -> canon end_ B ->
  map_insert start end_ (A ++ B) = A ++ (start, end_) :: B
  /\ canon lo (A ++ (start, end_) :: B).
Proof.
  intros HA Hlo Hlt HAs HB. pose proof (canon_keys_gt _ _ HB) as Hkeys. split.
  - unfold map_insert. rewrite !filter_app.
    rewrite (filter_all _ A), (filter_none _ B), (filter_none _ A), (filter_all _ B).
    + by rewrite app_nil_r.
    + forall_from Hkeys.
    + forall_from HAs.
    + forall_from Hkeys.
    + forall_from HAs.
  - apply canon_app. split; [done|]. cbn. split; [|done].
    destruct (last A) as [m|] eqn:E; cbn; [|done].
    apply last_Some_elem_of in E. rewrite Forall_forall in HAs. by apply HAs.
Qed.

(** An insertion returns, keeps the set canonical and adds exactly the span's
    instants. *)
Lemma insert_span_spec set s :
  SpanSet_wf set -> 0 <= s.1 ->
  exists set', insert_span set s = Some set' /\ SpanSet_wf set'
    /\ same_cover (spans set') (spans set ++ [s]).
Proof.
  unfold SpanSet_wf, canonical, insert_span. intros Hwf H0.
  destruct (s.2 <=? s.1) eqn:E; bool_prop.
  { exists set. split; [done|]. split; [done|]. intros x.
    rewrite covers_app, covers_cons, covers_nil. unfold in_span. intuition lia. }
  destruct (split_at_key _ s.1 _ Hwf) as (A & B & Hsp & HA & HB & Hlast).
  rewrite Hlast, Hsp in *. clear Hlast.
  pose proof Hwf as [HcA HcB]%canon_app.
  assert (Hgo : forall A0 start end_,
    canon (-1) A0 -> -1 < start -> start < end_ -> canon start B ->
    Forall (fun s => s.1 < s.2 /\ s.2 < start) A0 -> canon (-1) (A0 ++ B) ->
    same_cover (A0 ++ (start, end_) :: B) ((A ++ B) ++ [s]) ->
    exists set', (absorbed ← absorb (length (A0 ++ B)) start end_ (A0 ++ B);
                  Some (mkSpanSet (map_insert start absorbed.1 absorbed.2))) = Some set'
      /\ canon (-1) (spans set') /\ same_cover (spans set') ((A ++ B) ++ [s])).
  { intros A0 start end_ H1 H2 H3 H4 H5 H6 H7.
    destruct (absorb_spec (length (A0 ++ B)) (-1) start end_ A0 B)
      as (end' & B' & Hab & Hle & Hc & Hcov); [done|done|done|done| |done|].
    { rewrite length_app. lia. }
    rewrite Hab. cbn [mbind option_bind fst snd].
    destruct (map_insert_between (-1) A0 start end' B') as [Hm Hcan]; [done|done|lia|done|done|].
    rewrite Hm. exists (mkSpanSet (A0 ++ (start, end') :: B')). split; [done|].
    split; [done|]. cbn [spans]. by rewrite <- H7, Hcov. }
  assert (HBk : forall start, start <= s.1 -> canon start B).
  { intros start Hst. destruct B as [|b B]; [done|]. apply Forall_cons in HB as [Hb _].
    destruct HcB as (_ & Hb2 & Hb3). cbn. split; [lia|done]. }
  destruct (last A) as [before|] eqn:EA.
  - apply last_Some in EA as [A' ->]. rewrite <- app_assoc in Hwf. cbn in Hwf.
    destruct (canon_middle _ _ _ _ Hwf) as (Hb1 & Hb2 & HA' & HB').
    apply Forall_app in HA as [_ [HAb _]%Forall_cons].
    apply canon_app in HcA as [HcA' _].
    destruct (s.1 <=? before.2) eqn:Eb; bool_prop.
    + replace ((A' ++ [before]) ++ B) with (A' ++ before :: B) in * by (by rewrite <- app_assoc).
      rewrite (map_remove_mid (-1)) by done. apply Hgo.
      * done.
      * lia.
      * lia.
      * by apply HBk.
      * done.
      * apply canon_app in Hwf as [? (Ha & Hb & Hc)]. apply canon_app. split; [done|].
        by eapply canon_weaken; [|exact Hc]; lia.
      * intros x. rewrite !covers_app, !covers_cons, covers_nil. unfold in_span. cbn.
        intuition lia.
    + apply Hgo.
      * apply canon_app. split; [done|]. cbn. apply canon_app in Hwf as [_ (Ha & _ & _)]. lia.
      * lia.
      * lia.
      * by apply HBk.
      * apply Forall_app. split; [forall_from HA'|].
        repeat constructor; lia.
      * by rewrite <- app_assoc.
      * intros x. rewrite !covers_app, !covers_cons, covers_nil. destruct s; cbn. tauto.
  - apply last_None in EA as ->. apply Hgo; try done; [lia|by apply HBk|].
    intros x. rewrite !covers_app, !covers_cons, covers_nil. destruct s; cbn. tauto.
Qed.

Lemma insert_all_spec set l :
  SpanSet_wf set -> spans_typed l ->
  exists set', insert_all set l = Some set' /\ SpanSet_wf set'
    /\ same_cover (spans set') (spans set ++ l).
Proof.
  revert set. induction l as [|s l IH]; intros set Hwf Hty; cbn [insert_all].
  { exists set. by rewrite app_nil_r. }
  apply Forall_cons in Hty as [[Hs _] Hty].
  destruct (insert_span_spec set s Hwf ltac:(ulia)) as (set1 & -> & Hwf1 & Hcov1).
  destruct (IH set1 Hwf1 Hty) as (set2 & H2 & Hwf2 & Hcov2).
  exists set2. split; [done|]. split; [done|]. by rewrite Hcov2, Hcov1, <- app_assoc.
Qed.

(** Whatever the order spans are inserted in, every insertion returns and the
    set holds the merged list of all of them: the growing set and the sorted
    merge agree. *)
Theorem insert_all_is_merged l :
  spans_typed l ->
  exists set, insert_all SpanSet_default l = Some set /\ spans set = merged l.
Proof.
  intros Hty. destruct (insert_all_spec SpanSet_default l) as (set & Hins & Hwf & Hcov); [done..|].
  exists set. split; [done|].
  assert (Hnn : Forall (fun s => 0 <= s.1) l).
  { eapply Forall_impl; [exact Hty|]. intros s [H _]. ulia. }
  destruct (merged_spec l Hnn) as [Hm Hmc].
  apply (canon_unique (-1)); [done|done|]. by rewrite Hcov, Hmc.
Qed.

Lemma insert_all_is_merged_witness :
  exists set, insert_all SpanSet_default [(20, 30); (5, 9); (40, 50); (8, 20)] = Some set
    /\ spans set = merged [(20, 30); (5, 9); (40, 50); (8, 20)].
Proof.
  apply (insert_all_is_merged [(20, 30); (5, 9); (40, 50); (8, 20)]).
  repeat constructor; concrete.
Defined.

(** ** [gaps_within] *)

Lemma gaps_loop_subtract cursor end_ A B :
  Forall (fun s => s.1 < end_) A -> Forall (fun s => end_ <= s.1) B -> cursor < end_ ->
  Forall (fun s => s.1 < s.2) B ->
  gaps_loop cursor end_ A = subtract_from cursor end_ (A ++ B).
Proof.
  intros HA HB Hlt HB'. revert cursor Hlt.
  induction HA as [|a A Ha HA IH]; intros cursor Hlt; cbn [gaps_loop app subtract_from].
  - destruct HB as [|b B Hb HB]; [done|]. cbn. apply Forall_cons in HB' as [Hb' _].
    rewrite (proj2 (Z.leb_gt b.2 cursor)) by lia. by rewrite (proj2 (Z.leb_le end_ b.1)).
  - rewrite (proj2 (Z.leb_gt end_ a.1)) by lia. destruct (a.2 <=? cursor) eqn:E1; [by apply IH|].
    destruct (end_ <=? Z.max cursor a.2) eqn:E2; [done|]. bool_prop. by rewrite IH.
Qed.

Lemma subtract_from_skip cursor end_ A B :
  Forall (fun s => s.2 <= cursor) A ->
  subtract_from cursor end_ (A ++ B) = subtract_from cursor end_ B.
Proof.
  induction 1 as [|a A Ha _ IH]; [done|]. cbn [app subtract_from].
  by rewrite (proj2 (Z.leb_le _ _) Ha).
Qed.

(** The entries that start at or after [key]. *)
Lemma split_from_key lo key l :
  canon lo l ->
  exists A B, l = A ++ B /\ Forall (fun s => s.1 < key) A /\ Forall (fun s => key <= s.1) B.
Proof.
  intros H. destruct (split_at_key lo (key - 1) l H) as (A & B & Hl & HA & HB & _).
  exists A, B. split; [done|]. split; [forall_from HA|forall_from HB].
Qed.

(** The entries before the one that reaches into the span are behind the
    cursor. *)
Lemma before_first lo l key first A B :
  canon lo l ->
  first = match map_last_le key l with Some before => before.1 | None => key end ->
  l = A ++ B -> Forall (fun s => s.1 < first) A -> Forall (fun s => s.2 <= key) A.
Proof.
  intros Hc Hf Hl HA. destruct (split_at_key lo key l Hc) as (A' & B' & Hl' & HA' & HB' & Hlast).
  rewrite Hlast in Hf. clear Hlast. apply Forall_lookup. intros i s Hi.
  rewrite Forall_lookup in HA. specialize (HA i s Hi).
  assert (Hil : l !! i = Some s) by (rewrite Hl; by apply lookup_app_l_Some).
  destruct (last A') as [before|] eqn:EA; subst first.
  - apply last_Some in EA as [A1 ->]. rewrite <- app_assoc in Hl'. cbn in Hl'.
    assert (Hb : l !! length A1 = Some before) by (rewrite Hl'; by apply list_lookup_middle).
    assert (Hbk : before.1 <= key) by (by apply Forall_app in HA' as [_ [? _]%Forall_cons]).
    destruct (Nat.lt_trichotomy i (length A1)) as [Hlt|[->|Hgt]].
    + pose proof (canon_lookup_order _ _ _ _ _ _ Hc Hil Hb Hlt). lia.
    + replace before with s in * by congruence. lia.
    + pose proof (canon_lookup_order _ _ _ _ _ _ Hc Hb Hil Hgt).
      pose proof (canon_lookup_pos _ _ _ _ Hc Hb). lia.
  - apply last_None in EA as ->. cbn in Hl'. subst B'. rewrite Forall_lookup in HB'.
    specialize (HB' i s Hil). cbn in HB'. lia.
Qed.

(** The walk of a set's entries from the one that reaches into the span finds
    the same gaps as subtracting the set's merged list from it. *)
Theorem gaps_within_is_subtract set s :
  SpanSet_wf set -> gaps_within set s = subtract (filter (fun s => s.1 < s.2) [s]) (spans set).
Proof.
  unfold SpanSet_wf, canonical, gaps_within. intros Hwf. rewrite filter_cons, filter_nil.
  destruct (s.2 <=? s.1) eqn:E; bool_prop; [by rewrite decide_False by lia|].
  rewrite decide_True by lia. unfold subtract. cbn [mbind list_bind]. rewrite app_nil_r.
  set (first := match map_last_le s.1 (spans set) with Some b => b.1 | None => s.1 end).
  destruct (split_from_key _ first _ Hwf) as (A & BC & Hl & HA & HBC).
  assert (HcBC : exists lo, canon lo BC)
    by (rewrite Hl in Hwf; apply canon_app in Hwf as [_ ?]; by eexists).
  destruct HcBC as [lo HcBC].
  destruct (split_from_key _ s.2 _ HcBC) as (B & C & HlBC & HB & HC).
  pose proof (before_first _ _ s.1 first A BC Hwf eq_refl Hl HA) as Hskip.
  assert (Hmid : map_between first s.2 (spans set) = B).
  { unfold map_between. rewrite Hl, HlBC, !filter_app.
    rewrite HlBC in HBC. apply Forall_app in HBC as [HB1 HC1].
    rewrite (filter_none _ A) by forall_from HA. rewrite (filter_none _ C) by forall_from HC.
    rewrite (filter_all _ B), app_nil_r; [done|]. apply Forall_and. by split. }
  rewrite Hmid, Hl, HlBC, subtract_from_skip by done.
  apply gaps_loop_subtract; [done|done|lia|].
  apply canon_keys_gt in HcBC. rewrite HlBC in HcBC. apply Forall_app in HcBC as [_ HCk].
  forall_from HCk.
Qed.

Lemma gaps_within_is_subtract_witness :
  gaps_within (mkSpanSet [(5, 20); (30, 50)]) (0, 60) = [(0, 5); (20, 30); (50, 60)].
Proof.
  rewrite (gaps_within_is_subtract (mkSpanSet [(5, 20); (30, 50)]) (0, 60)).
  - vm_compute. reflexivity.
  - unfold SpanSet_wf. concrete.
Defined.

(** ** Insertion as a total function

    The [while let] of [insert] always ends ([insert_span_spec]), so the code
    that inserts goes on with a set. *)

Definition insert (set : SpanSet) (s : Span) : SpanSet := default set (insert_span set s).

Definition insert_many (set : SpanSet) (l : list Span) : SpanSet := fold_left insert l set.

Lemma insert_spec set s :
  SpanSet_wf set -> 0 <= s.1 ->
  SpanSet_wf (insert set s) /\ same_cover (spans (insert set s)) (s :: spans set).
Proof.
  intros Hwf Hs. destruct (insert_span_spec set s Hwf Hs) as (set' & E & Hwf' & Hc).
  unfold insert. rewrite E. cbn. split; [done|]. intros x. rewrite (Hc x), covers_app, !covers_cons, covers_nil.
  tauto.
Qed.

Lemma insert_many_spec set l :
  SpanSet_wf set -> Forall (fun s => 0 <= s.1) l ->
  SpanSet_wf (insert_many set l) /\ same_cover (spans (insert_many set l)) (l ++ spans set).
Proof.
  unfold insert_many. intros Hwf Hl. revert set Hwf. induction Hl as [|s l Hs Hl IH]; intros set Hwf.
  { by split. }
  cbn [fold_left]. destruct (insert_spec set s Hwf Hs) as [Hwf1 Hc1].
  destruct (IH _ Hwf1) as [H1 H2]. split; [done|]. intros x.
  rewrite (H2 x), covers_app, (Hc1 x), covers_app, !covers_cons. tauto.
Qed.

(** A gap is a part of the span that nothing in the set covers, as wide as
    can be: what its instants are, and that an uncovered stretch lies in one
    gap. *)
Lemma gaps_within_spec set s :
  SpanSet_wf set -> 0 <= s.1 ->
  canonical (gaps_within set s)
  /\ forall x, covers (gaps_within set s) x <-> in_span s x /\ ~ covers (spans set) x.
Proof.
  intros Hwf Hs. rewrite gaps_within_is_subtract by done. rewrite filter_cons, filter_nil.
  case_decide as E.
  - assert (Hc : canonical [s]) by (cbn; lia).
    destruct (subtract_spec [s] (spans set) Hc Hwf) as [H1 H2]. split; [done|]. intros x.
    rewrite H2, covers_cons, covers_nil. tauto.
  - split; [done|]. intros x. unfold subtract. cbn. rewrite covers_nil. unfold in_span. lia.
Qed.

(** The gaps of several spans, by one subtraction. *)
Lemma gaps_of_spans set l :
  SpanSet_wf set -> canonical l -> l ≫= gaps_within set = subtract l (spans set).
Proof.
  intros Hset. unfold canonical, subtract. generalize (-1). induction l as [|s l IH]; intros lo; [done|].
  intros (H1 & H2 & H3). cbn [mbind list_bind]. rewrite gaps_within_is_subtract by done.
  rewrite filter_cons, filter_nil, decide_True by done. unfold subtract. cbn [mbind list_bind].
  rewrite app_nil_r. f_equal. by apply (IH s.2).
Qed.
