(* ===== verification/Identity.v ===== *)
(** * Identity: validated opaque identifiers

    Models [crates/vsift-domain/src/identity.rs]. The types the macro
    [opaque_identifier!] makes differ in their prefix only: they are one
    definition indexed by an [IdKind]; the two digest identities, of a source
    and of an operation's key, are indexed by a [DigestKind]. *)

From Stdlib Require Import Ascii.
From S2P Require Import Prelude.
From S2P Require Import Text.

Definition MIN_OPAQUE_SUFFIX_LENGTH : nat := 16.
Definition MAX_OPAQUE_SUFFIX_LENGTH : nat := 64.
Definition SHA256_HEX_LENGTH : nat := 64.

Inductive IdentifierError := InvalidPrefix | InvalidLength | InvalidCharacter.

Inductive IdKind :=
| SessionId | JobId | OperationId | ArtifactId | EvidenceId | SourceSegmentId
| TranscriptRevisionId | TranscriptSegmentId | VisualIndexId | VisualCandidateId
| ScreenChangeId | ScreenTextIndexId | ScreenTextLineId.

Definition id_prefix (k : IdKind) : text :=
  literal match k with
          | SessionId => "ses_"
          | JobId => "job_"
          | OperationId => "op_"
          | ArtifactId => "art_"
          | EvidenceId => "evd_"
          | SourceSegmentId => "sgm_"
          | TranscriptRevisionId => "trv_"
          | TranscriptSegmentId => "tsg_"
          | VisualIndexId => "vix_"
          | VisualCandidateId => "vcd_"
          | ScreenChangeId => "chg_"
          | ScreenTextIndexId => "sti_"
          | ScreenTextLineId => "stl_"
          end.

Definition validate_opaque_identifier (value prefix : text) : result unit IdentifierError :=
  let? suffix := ok_or (strip_prefix prefix value) InvalidPrefix in
  if negb ((MIN_OPAQUE_SUFFIX_LENGTH <=? length suffix)
           && (length suffix <=? MAX_OPAQUE_SUFFIX_LENGTH))%nat
  then Err InvalidLength
  else if negb (forallb (fun byte => is_ascii_lowercase byte || is_ascii_digit byte) suffix)
  then Err InvalidCharacter
  else Ok tt.

Definition validate_digest (value : text) : result unit IdentifierError :=
  if negb (length value =? SHA256_HEX_LENGTH)%nat then Err InvalidLength
  else if negb (forallb (fun byte => is_ascii_digit byte || is_hex_letter byte) value)
  then Err InvalidCharacter
  else Ok tt.

(** An identifier of kind [k]. *)
Record OpaqueId (k : IdKind) := mkOpaqueId { as_str : text }.
Arguments mkOpaqueId {k} as_str.
Arguments as_str {k} _.

#[global] Instance OpaqueId_eq_dec k : EqDecision (OpaqueId k).
Proof. solve_decision. Defined.

Definition id_parse (k : IdKind) (value : text) : result (OpaqueId k) IdentifierError :=
  let? _ := validate_opaque_identifier value (id_prefix k) in
  Ok (mkOpaqueId value).

Inductive DigestKind := SourceId | OperationKey.

Definition digest_prefix (k : DigestKind) : text :=
  literal match k with SourceId => "src_sha256_" | OperationKey => "opk_sha256_" end.

Record DigestId (k : DigestKind) := mkDigestId { digest_str : text }.
Arguments mkDigestId {k} digest_str.
Arguments digest_str {k} _.

#[global] Instance DigestId_eq_dec k : EqDecision (DigestId k).
Proof. solve_decision. Defined.

Definition from_sha256 (k : DigestKind) (hex_digest : text) : result (DigestId k) IdentifierError :=
  let? _ := validate_digest hex_digest in
  Ok (mkDigestId (digest_prefix k ++ hex_digest)).

Definition digest_parse (k : DigestKind) (value : text) : result (DigestId k) IdentifierError :=
  let? digest := ok_or (strip_prefix (digest_prefix k) value) InvalidPrefix in
  let? _ := validate_digest digest in
  Ok (mkDigestId value).

(** ** Specification *)

(** The texts that are identifiers of kind [k]. *)
Definition is_identifier (k : IdKind) (value : text) : Prop :=
  exists suffix, value = id_prefix k ++ suffix
    /\ (16 <= length suffix <= 64)%nat
    /\ Forall (fun c => 97 <= byte_of c <= 122 \/ 48 <= byte_of c <= 57) suffix.

Definition is_digest (digest : text) : Prop :=
  length digest = 64%nat
  /\ Forall (fun c => 48 <= byte_of c <= 57 \/ 97 <= byte_of c <= 102) digest.

Lemma forallb_Forall_iff {A} (f : A -> bool) (P : A -> Prop) l :
  (forall a, f a = true <-> P a) -> forallb f l = true <-> Forall P l.
Proof.
  intros H. induction l as [|a l IH]; cbn; [by split|].
  by rewrite andb_true_iff, Forall_cons, H, IH.
Qed.

Lemma suffix_chars suffix :
  forallb (fun byte => is_ascii_lowercase byte || is_ascii_digit byte) suffix = true
  <-> Forall (fun c => 97 <= byte_of c <= 122 \/ 48 <= byte_of c <= 57) suffix.
Proof.
  apply forallb_Forall_iff. intros c. unfold is_ascii_lowercase, is_ascii_digit.
  rewrite orb_true_iff, !andb_true_iff, !Z.leb_le. tauto.
Qed.

Lemma digest_chars digest :
  forallb (fun byte => is_ascii_digit byte || is_hex_letter byte) digest = true
  <-> Forall (fun c => 48 <= byte_of c <= 57 \/ 97 <= byte_of c <= 102) digest.
Proof.
  apply forallb_Forall_iff. intros c. unfold is_hex_letter, is_ascii_digit.
  rewrite orb_true_iff, !andb_true_iff, !Z.leb_le. tauto.
Qed.

Lemma id_parse_spec k value id :
  id_parse k value = Ok id <-> is_identifier k value /\ id = mkOpaqueId value.
Proof.
  unfold id_parse, validate_opaque_identifier, is_identifier.
  unfold MIN_OPAQUE_SUFFIX_LENGTH, MAX_OPAQUE_SUFFIX_LENGTH. split.
  - intros H. destruct (strip_prefix _ _) as [suffix|] eqn:E; [|done].
    apply strip_prefix_Some in E. cbn [ok_or result_bind] in H.
    destruct (_ && _)%nat eqn:El; [|done]. destruct (forallb _ _) eqn:Ef; [|done].
    injection H as <-. split; [|done]. exists suffix. split; [done|].
    apply andb_true_iff in El as [E1%Nat.leb_le E2%Nat.leb_le]. apply suffix_chars in Ef.
    split; [lia|done].
  - intros [(suffix & Hv & Hl & Hf) ->]. apply strip_prefix_Some in Hv. rewrite Hv.
    cbn [ok_or result_bind]. rewrite (proj2 (Nat.leb_le 16 _)), (proj2 (Nat.leb_le _ 64)) by lia.
    by rewrite (proj2 (suffix_chars suffix) Hf).
Qed.

Lemma validate_digest_spec digest : validate_digest digest = Ok tt <-> is_digest digest.
Proof.
  unfold validate_digest, is_digest, SHA256_HEX_LENGTH. rewrite <- digest_chars.
  destruct (_ =? 64)%nat eqn:E; cbn [negb].
  - apply Nat.eqb_eq in E. destruct (forallb _ _); cbn; naive_solver.
  - apply Nat.eqb_neq in E. naive_solver.
Qed.

Lemma digest_parse_spec k value id :
  digest_parse k value = Ok id
  <-> exists digest, value = digest_prefix k ++ digest /\ is_digest digest /\ id = mkDigestId value.
Proof.
  unfold digest_parse. split.
  - intros H. destruct (strip_prefix _ _) as [digest|] eqn:E; [|done].
    apply strip_prefix_Some in E. cbn [ok_or result_bind] in H.
    destruct (validate_digest digest) as [[]|] eqn:Ev; [|done]. injection H as <-.
    exists digest. split; [done|]. split; [by apply validate_digest_spec|done].
  - intros (digest & Hv & Hd & ->). apply strip_prefix_Some in Hv. rewrite Hv.
    cbn [ok_or result_bind]. apply validate_digest_spec in Hd. by rewrite Hd.
Qed.

(** Identifiers of different kinds never share a text, and none is a source
    or operation digest. *)
Lemma prefixes_disjoint k k' s s' : id_prefix k ++ s = id_prefix k' ++ s' -> k = k'.
Proof. destruct k, k'; cbn; intros H; first [reflexivity | discriminate H]. Qed.

Lemma digest_prefixes_disjoint k k' s s' : digest_prefix k ++ s = digest_prefix k' ++ s' -> k = k'.
Proof. destruct k, k'; cbn; intros H; first [reflexivity | discriminate H]. Qed.

Lemma digest_id_disjoint k k' s s' : digest_prefix k ++ s = id_prefix k' ++ s' -> False.
Proof. destruct k, k'; cbn; intros H; discriminate H. Qed.

(** Parsing an identifier accepts exactly its canonical texts, keeps them as
    they are, and no text is an identifier of two kinds, so an identity of
    one type never passes for another; a digest identity is read back as it
    was made. *)
Theorem identifiers_never_confused value :
  (forall k, (exists id, id_parse k value = Ok id) <-> is_identifier k value)
  /\ (forall k id, id_parse k value = Ok id -> as_str id = value)
  /\ (forall k k' id id', id_parse k value = Ok id -> id_parse k' value = Ok id' -> k = k')
  /\ (forall k k' id id', digest_parse k value = Ok id -> digest_parse k' value = Ok id' -> k = k')
  /\ (forall k k' id id', digest_parse k value = Ok id -> id_parse k' value <> Ok id')
  /\ (forall k id, from_sha256 k value = Ok id ->
        digest_parse k (digest_str id) = Ok id /\ digest_str id = digest_prefix k ++ value).
Proof.
  split; [|split; [|split; [|split; [|split]]]].
  - intros k. split.
    + intros [id H]. by apply id_parse_spec in H as [? _].
    + intros H. exists (mkOpaqueId value). by apply id_parse_spec.
  - intros k id H. by apply id_parse_spec in H as [_ ->].
  - intros k k' id id' [(s & Hs & _) _]%id_parse_spec [(s' & Hs' & _) _]%id_parse_spec.
    apply (prefixes_disjoint k k' s s'). congruence.
  - intros k k' id id' (s & Hs & _)%digest_parse_spec (s' & Hs' & _)%digest_parse_spec.
    apply (digest_prefixes_disjoint k k' s s'). congruence.
  - intros k k' id id' (s & Hs & _)%digest_parse_spec [(s' & Hs' & _) _]%id_parse_spec.
    apply (digest_id_disjoint k k' s s'). congruence.
  - intros k id H. unfold from_sha256 in H.
    destruct (validate_digest value) as [[]|] eqn:E; [|done]. injection H as <-.
    split; [|done]. apply digest_parse_spec. exists value.
    split; [done|]. split; [by apply validate_digest_spec|done].
Qed.
