(* ===== verification/Pagination.v ===== *)
(** * Pagination: bounded pages and continuation cursors

    Models [crates/vsift-domain/src/pagination.rs]: the page limit, the query
    digest, and the cursor token with its encoding, parsing and scope check. *)

From Stdlib Require Import Ascii.
From S2P Require Import Prelude.
From S2P Require Import Text.
From S2P Require Import Identity.

Definition CURSOR_VERSION : text := literal "v1".
Definition CURSOR_SEPARATOR : ascii := "|"%char.
Definition MAX_CURSOR_BYTES : nat := 512.
Definition QUERY_DIGEST_LENGTH : nat := 64.
Definition MAX_LAST_KEY_LENGTH : nat := 64.

(** ** Page limits *)

Module PageLimit.
Inductive error := Zero | TooLarge.

Record t := mk { value : Z }.

Definition DEFAULT : t := mk 20.
Definition MAX : Z := 100.

Definition new (value : Z) : result t error :=
  if value =? 0 then Err Zero
  else if MAX <? value then Err TooLarge
  else Ok (mk value).
End PageLimit.

(** ** Cursors *)

Inductive CursorError :=
| TooLarge | UnsupportedVersion | Malformed | InvalidNumber | InvalidQueryDigest
| InvalidLastItemKey | Expired | WrongSession | WrongGeneration | WrongQuery.

Module QueryDigest.
Record t := mk { as_str : text }.

#[global] Instance eq_dec : EqDecision t.
Proof. solve_decision. Defined.

Definition parse (value : text) : result t CursorError :=
  if negb (length value =? QUERY_DIGEST_LENGTH)%nat
     || negb (forallb (fun byte => is_ascii_digit byte || is_hex_letter byte) value)
  then Err InvalidQueryDigest
  else Ok (mk value).
End QueryDigest.

(** The digits of [str::parse::<u64>], every step checked. *)
Fixpoint parse_u64_from (acc : Z) (s : text) : option Z :=
  match s with
  | [] => Some acc
  | c :: rest =>
      if is_ascii_digit c then
        scaled ← checked_u64 (acc * 10);
        acc' ← checked_u64 (scaled + (byte_of c - 48));
        parse_u64_from acc' rest
      else None
  end.

Definition plus_sign : ascii := "+"%char.

(** [str::parse::<u64>]: a plus sign may come before the digits. *)
Definition parse_u64 (s : text) : option Z :=
  match s with
  | [] => None
  | c :: rest =>
      if (c =? plus_sign)%char then match rest with [] => None | _ => parse_u64_from 0 rest end
      else parse_u64_from 0 s
  end.

Definition parse_positive_number (value : option text) : result Z CursorError :=
  let? digits := ok_or value Malformed in
  let? parsed := ok_or (parse_u64 digits) InvalidNumber in
  if parsed =? 0 then Err InvalidNumber else Ok parsed.

Definition underscore : ascii := "_"%char.

Definition validate_last_item_key (value : text) : result unit CursorError :=
  if (length value =? 0)%nat || (MAX_LAST_KEY_LENGTH <? length value)%nat
     || negb (forallb (fun byte => is_ascii_lowercase byte || is_ascii_digit byte
                                   || (byte =? underscore)%char || (byte =? hyphen)%char) value)
  then Err InvalidLastItemKey
  else Ok tt.

Module CursorToken.
Record t := mk {
  session_id : OpaqueId SessionId;
  generation : Z;
  query_digest : QueryDigest.t;
  last_item_key : text;
  expires_at_micros : Z
}.

Definition new (session_id : OpaqueId SessionId) (generation : Z) (query_digest : QueryDigest.t)
    (last_item_key : text) (expires_at_micros : Z) : result t CursorError :=
  let? _ := validate_last_item_key last_item_key in
  if (generation =? 0) || (expires_at_micros =? 0) then Err InvalidNumber
  else Ok (mk session_id generation query_digest last_item_key expires_at_micros).

Definition encode (c : t) : text :=
  CURSOR_VERSION ++ CURSOR_SEPARATOR :: as_str (session_id c)
  ++ CURSOR_SEPARATOR :: decimal (generation c)
  ++ CURSOR_SEPARATOR :: QueryDigest.as_str (query_digest c)
  ++ CURSOR_SEPARATOR :: last_item_key c
  ++ CURSOR_SEPARATOR :: decimal (expires_at_micros c).

(** The parts are taken one after the other: [head] is what [next] gives and
    [tail] what is left. *)
Definition parse (value : text) : result t CursorError :=
  if (MAX_CURSOR_BYTES <? length value)%nat then Err TooLarge
  else
    let parts := split_on CURSOR_SEPARATOR value in
    if negb (bool_decide (head parts = Some CURSOR_VERSION)) then Err UnsupportedVersion
    else
      let parts := tail parts in
      let? session_id := ok_or (head parts) Malformed in
      let? session_id := map_err (fun _ => Malformed) (id_parse SessionId session_id) in
      let parts := tail parts in
      let? generation := parse_positive_number (head parts) in
      let parts := tail parts in
      let? query_digest := ok_or (head parts) Malformed in
      let? query_digest := QueryDigest.parse query_digest in
      let parts := tail parts in
      let? last_item_key := ok_or (head parts) Malformed in
      let parts := tail parts in
      let? expires_at_micros := parse_positive_number (head parts) in
      let parts := tail parts in
      match head parts with
      | Some _ => Err Malformed
      | None => new session_id generation query_digest last_item_key expires_at_micros
      end.

Definition validate_scope (c : t) (session : OpaqueId SessionId) (current : Z)
    (query : QueryDigest.t) (now_micros : Z) : result unit CursorError :=
  if expires_at_micros c <=? now_micros then Err Expired
  else if negb (bool_decide (session_id c = session)) then Err WrongSession
  else if negb (generation c =? current) then Err WrongGeneration
  else if negb (bool_decide (query_digest c = query)) then Err WrongQuery
  else Ok tt.

(** A token whose parts were made by their own constructors. *)
Definition wf (c : t) : Prop :=
  is_identifier SessionId (as_str (session_id c))
  /\ 0 < generation c <= U64_MAX
  /\ is_digest (QueryDigest.as_str (query_digest c))
  /\ validate_last_item_key (last_item_key c) = Ok tt
  /\ 0 < expires_at_micros c <= U64_MAX.
End CursorToken.

(** ** Numbers *)

Lemma parse_u64_from_value s acc :
  forallb is_ascii_digit s = true -> is_u64 acc ->
  parse_u64_from acc s = checked_u64 (digits_value acc s).
Proof.
  revert acc. induction s as [|c s IH]; intros acc Hs Ha; cbn [parse_u64_from forallb] in *.
  { symmetry. by apply checked_in. }
  apply andb_true_iff in Hs as [Hc Hs]. rewrite Hc. apply is_ascii_digit_spec in Hc.
  change (digits_value acc (c :: s)) with (digits_value (acc * 10 + (byte_of c - 48)) s).
  pose proof (digits_value_ge s (acc * 10 + (byte_of c - 48)) Hs ltac:(ulia)) as Hge.
  destruct (checked_u64 (acc * 10)) as [n|] eqn:E1; cbn [mbind option_bind].
  2:{ apply checked_None in E1. symmetry. apply checked_None. ulia. }
  apply checked_Some in E1 as [-> ?].
  destruct (checked_u64 (acc * 10 + _)) as [n|] eqn:E2; cbn [mbind option_bind].
  2:{ apply checked_None in E2. symmetry. apply checked_None. ulia. }
  apply checked_Some in E2 as [-> ?]. by apply IH.
Qed.

Lemma decimal_u64 v :
  is_u64 v -> forallb is_ascii_digit (decimal v) = true /\ digits_value 0 (decimal v) = v
              /\ decimal v <> [].
Proof.
  intros H. assert (Hv : 0 <= v < 10 ^ Z.of_nat 20) by (split; [ulia|cbn; ulia]).
  destruct (decimal_digits_value 20 v Hv) as [H1 H2].
  destruct (decimal_digits_canonical 19 v Hv) as [H3 _]. done.
Qed.

Lemma decimal_length v : (length (decimal v) <= 20)%nat.
Proof.
  unfold decimal. generalize 20%nat. intros fuel. revert v.
  induction fuel as [|fuel IH]; intros v; cbn; [lia|]. destruct (v <? 10); [cbn; lia|].
  rewrite length_app. specialize (IH (v / 10)). cbn. lia.
Qed.

Lemma parse_positive_decimal v :
  0 < v <= U64_MAX -> parse_positive_number (Some (decimal v)) = Ok v.
Proof.
  intros Hv. destruct (decimal_u64 v ltac:(ulia)) as (Hd & Hval & Hne).
  unfold parse_positive_number, parse_u64. cbn [ok_or result_bind].
  destruct (decimal v) as [|c s] eqn:E; [done|].
  assert (Hc : (c =? plus_sign)%char = false).
  { apply Ascii.eqb_neq. intros ->. by cbn in Hd. }
  rewrite Hc, parse_u64_from_value, Hval by (done || ulia). unfold checked_u64.
  rewrite checked_in by ulia. cbn [ok_or result_bind].
  by destruct (v =? 0) eqn:E0; bool_prop; [lia|].
Qed.

Lemma parse_positive_bounds o v : parse_positive_number o = Ok v -> 0 < v <= U64_MAX.
Proof.
  unfold parse_positive_number. destruct o as [s|]; [|done]. cbn [ok_or result_bind].
  destruct (parse_u64 s) as [n|] eqn:E; [|done]. cbn [ok_or result_bind].
  destruct (n =? 0) eqn:E0; [done|]. intros [= <-]. bool_prop.
  assert (Hp : forall s acc n, is_u64 acc -> parse_u64_from acc s = Some n -> is_u64 n).
  { clear. induction s as [|c s IH]; intros acc n Ha; cbn; [by intros [= <-]|].
    destruct (is_ascii_digit c); [|done]. destruct (checked_u64 (acc * 10)) as [m|]; [|done].
    cbn [mbind option_bind]. destruct (checked_u64 (m + _)) as [k|] eqn:Ek; [|done].
    cbn [mbind option_bind]. apply IH. apply checked_Some in Ek as [-> ?]. done. }
  assert (is_u64 n); [|ulia]. unfold parse_u64 in E. destruct s as [|c s]; [done|].
  destruct (c =? plus_sign)%char; [destruct s; [done|]|]; eapply Hp; try exact E; ulia.
Qed.

(** ** Parts of a token *)

Lemma id_no_separator k value :
  is_identifier k value -> Forall (fun c => c <> CURSOR_SEPARATOR) value.
Proof.
  intros (suffix & -> & _ & Hs). apply Forall_app. split.
  - destruct k; repeat (constructor; [done|]); constructor.
  - eapply Forall_impl; [exact Hs|]. cbn. intros c Hc ->. change (byte_of CURSOR_SEPARATOR) with 124 in Hc. lia.
Qed.

Lemma digest_no_separator d : is_digest d -> Forall (fun c => c <> CURSOR_SEPARATOR) d.
Proof.
  intros [_ Hd]. eapply Forall_impl; [exact Hd|]. cbn. intros c Hc ->. change (byte_of CURSOR_SEPARATOR) with 124 in Hc. lia.
Qed.

Lemma key_facts key :
  validate_last_item_key key = Ok tt ->
  Forall (fun c => c <> CURSOR_SEPARATOR) key /\ (length key <= 64)%nat.
Proof.
  unfold validate_last_item_key, MAX_LAST_KEY_LENGTH.
  destruct (_ || _ || negb _) eqn:E; [done|]. intros _.
  apply orb_false_iff in E as [[_ Hl]%orb_false_iff Hchars%negb_false_iff].
  split; [|apply Nat.ltb_ge in Hl; lia]. apply Forall_forall. intros c Hc ->.
  rewrite forallb_forall in Hchars. apply list_elem_of_In in Hc. by specialize (Hchars _ Hc).
Qed.

Lemma digest_parse_iff value d :
  QueryDigest.parse value = Ok d <-> is_digest value /\ d = QueryDigest.mk value.
Proof.
  unfold QueryDigest.parse, is_digest, QUERY_DIGEST_LENGTH. rewrite <- digest_chars.
  destruct (length value =? 64)%nat eqn:E; cbn [negb orb].
  - apply Nat.eqb_eq in E. destruct (forallb _ value); cbn; naive_solver.
  - apply Nat.eqb_neq in E. naive_solver.
Qed.

Lemma new_spec session_id generation query_digest last_item_key expires c :
  CursorToken.new session_id generation query_digest last_item_key expires = Ok c <->
  validate_last_item_key last_item_key = Ok tt /\ generation <> 0 /\ expires <> 0
  /\ c = CursorToken.mk session_id generation query_digest last_item_key expires.
Proof.
  unfold CursorToken.new. destruct (validate_last_item_key _) as [[]|] eqn:E; cbn [result_bind].
  2:{ split; [done|naive_solver]. }
  destruct ((generation =? 0) || (expires =? 0)) eqn:E'; bool_prop.
  - split; [done|]. intros (_ & ? & ? & _). lia.
  - split; [intros [= <-]; tauto|]. by intros (_ & _ & _ & ->).
Qed.

Lemma encode_parts c :
  CursorToken.wf c ->
  split_on CURSOR_SEPARATOR (CursorToken.encode c)
  = [CURSOR_VERSION; as_str (CursorToken.session_id c); decimal (CursorToken.generation c);
     QueryDigest.as_str (CursorToken.query_digest c); CursorToken.last_item_key c;
     decimal (CursorToken.expires_at_micros c)].
Proof.
  intros (Hid & Hg & Hq & Hk & He).
  assert (Hdec : forall v, 0 < v <= U64_MAX -> Forall (fun c => c <> CURSOR_SEPARATOR) (decimal v)).
  { intros v Hv. apply digits_not_sep; [done|]. apply decimal_u64. ulia. }
  unfold CursorToken.encode. rewrite split_on_app by (repeat (constructor; [done|]); constructor).
  rewrite split_on_app by (by eapply id_no_separator). rewrite split_on_app by auto.
  rewrite split_on_app by (by apply digest_no_separator).
  rewrite split_on_app by (by apply key_facts). by rewrite split_on_single by auto.
Qed.

Lemma encode_length c : CursorToken.wf c -> (length (CursorToken.encode c) <= 243)%nat.
Proof.
  intros (Hid & _ & [Hq _] & Hk & _). apply key_facts in Hk as [_ Hk].
  destruct Hid as (suffix & Hid & Hs & _). unfold CursorToken.encode. rewrite Hid.
  repeat (rewrite length_app; cbn [length]). rewrite Hq.
  pose proof (decimal_length (CursorToken.generation c)).
  pose proof (decimal_length (CursorToken.expires_at_micros c)). cbn. lia.
Qed.

Lemma parse_encode c :
  CursorToken.wf c ->
  (length (CursorToken.encode c) <= MAX_CURSOR_BYTES)%nat
  /\ CursorToken.parse (CursorToken.encode c) = Ok c.
Proof.
  intros Hwf. pose proof (encode_length c Hwf) as Hl. unfold MAX_CURSOR_BYTES. split; [lia|].
  unfold CursorToken.parse, MAX_CURSOR_BYTES. rewrite (proj2 (Nat.ltb_ge _ _)) by lia.
  rewrite encode_parts by done. cbn [head tail]. rewrite bool_decide_true by done. cbn [negb].
  destruct Hwf as (Hid & Hg & Hq & Hk & He). cbn [ok_or result_bind].
  rewrite (proj2 (id_parse_spec SessionId _ (CursorToken.session_id c)))
    by (split; [done|by destruct (CursorToken.session_id c)]).
  cbn [map_err result_bind]. rewrite parse_positive_decimal by done. cbn [result_bind].
  rewrite (proj2 (digest_parse_iff _ (CursorToken.query_digest c)))
    by (split; [done|by destruct (CursorToken.query_digest c)]).
  cbn [result_bind]. rewrite parse_positive_decimal by done. cbn [result_bind].
  apply new_spec. split; [done|]. split; [lia|]. split; [lia|]. by destruct c.
Qed.

Lemma validate_scope_spec c session generation query now :
  CursorToken.validate_scope c session generation query now = Ok tt
  <-> now < CursorToken.expires_at_micros c /\ CursorToken.session_id c = session
      /\ CursorToken.generation c = generation /\ CursorToken.query_digest c = query.
Proof.
  unfold CursorToken.validate_scope. rewrite !guard_Ok, Z.leb_gt, !negb_false_iff, !bool_decide_eq_true, Z.eqb_eq.
  tauto.
Qed.

(** A cursor comes back exactly as it was encoded and always fits the size
    limit; whatever text is parsed, the token is one that the constructor
    accepts, with a valid session, digest and key and positive numbers; and a
    token passes for a request exactly while it has not expired and when its
    session, generation and query are those of the request. *)
Theorem cursor_roundtrip c :
  (CursorToken.wf c ->
     (length (CursorToken.encode c) <= MAX_CURSOR_BYTES)%nat
     /\ CursorToken.parse (CursorToken.encode c) = Ok c)
  /\ (forall value, CursorToken.parse value = Ok c -> CursorToken.wf c)
  /\ (forall session generation query now,
        CursorToken.validate_scope c session generation query now = Ok tt
        <-> now < CursorToken.expires_at_micros c /\ CursorToken.session_id c = session
            /\ CursorToken.generation c = generation /\ CursorToken.query_digest c = query).
Proof.
  split; [apply parse_encode|]. split; [|intros session generation query now; apply validate_scope_spec].
  intros value. unfold CursorToken.parse. destruct (_ <? _)%nat; [done|]. destruct (negb _); [done|].
  intros H. by_cases H. apply new_spec in H as (Hk & _ & _ & ->).
  repeat match goal with
  | E : parse_positive_number _ = Ok _ |- _ => apply parse_positive_bounds in E
  | E : QueryDigest.parse _ = Ok _ |- _ => apply digest_parse_iff in E as [? ->]
  | E : map_err _ ?r = Ok _ |- _ => destruct r eqn:?; [injection E as ->|discriminate E]
  | E : id_parse _ _ = Ok _ |- _ => apply id_parse_spec in E as [? ->]
  end.
  by unfold CursorToken.wf.
Qed.

Lemma cursor_roundtrip_witness :
  let c := CursorToken.mk (mkOpaqueId (literal "ses_0123456789abcdef")) 7
             (QueryDigest.mk (replicate 64 "a"%char)) (literal "evd_1") 1700000000000000 in
  CursorToken.parse (CursorToken.encode c) = Ok c
  /\ result_ok (CursorToken.parse (literal "v1|ses_0123456789abcdef|0")) = None.
Proof.
  intros c. split; [|vm_compute; reflexivity].
  apply (cursor_roundtrip c). split.
  { exists (literal "0123456789abcdef"). split; [reflexivity|]. split; [cbn; lia|].
    repeat (constructor; [first [right; concrete | left; concrete]|]). constructor. }
  split; [concrete|]. split; [|split; [vm_compute; reflexivity|concrete]].
  split; [reflexivity|]. apply Forall_replicate. right. concrete.
Defined.

(** A cursor made for a query is read back and accepted for it. *)
Lemma scoped_cursor session generation query key expires now :
  is_identifier SessionId (as_str session) -> 0 < generation <= U64_MAX -> is_digest (QueryDigest.as_str query) ->
  validate_last_item_key key = Ok tt -> 0 < expires <= U64_MAX -> now < expires ->
  let token := CursorToken.mk session generation query key expires in
  CursorToken.new session generation query key expires = Ok token
  /\ CursorToken.parse (CursorToken.encode token) = Ok token
  /\ CursorToken.validate_scope token session generation query now = Ok tt.
Proof.
  intros Hs Hg Hq Hk He Hn. cbn zeta. split; [apply new_spec; split; [done|]; split; [lia|]; split; [lia|done]|].
  split; [by apply parse_encode|]. by apply validate_scope_spec.
Qed.

(** ** A reader of pages *)

(** [page k cursor] is the answer to the request for the [k]th page: what it
    holds and the cursor of the next. The reader asks until there is none. *)
Section Reading.
Context {A : Type} (page : nat -> option text -> option (list A * option text)).

Fixpoint read_pages (fuel k : nat) (cursor : option text) : option (list (list A)) :=
  match fuel with
  | O => None
  | S fuel =>
      '(items, next) ← page k cursor;
      match next with
      | None => Some [items]
      | Some _ => rest ← read_pages fuel (S k) next; Some (items :: rest)
      end
  end.

(** When every cursor leads to what its page left, the reader ends and has
    read everything once and in order. *)
Lemma read_pages_spec (limit : nat -> nat) (leads_to : option text -> list A -> Prop) fuel k cursor rest :
  (forall k cursor rest, leads_to cursor rest -> exists next,
     page k cursor = Some (take (limit k) rest, next)
     /\ match next with
        | None => drop (limit k) rest = []
        | Some _ => length (take (limit k) rest) = limit k /\ leads_to next (drop (limit k) rest)
        end) ->
  (forall i, (0 < limit i)%nat) -> leads_to cursor rest -> (length rest < fuel)%nat ->
  exists pages, read_pages fuel k cursor = Some pages /\ concat pages = rest
    /\ forall i p, pages !! i = Some p ->
         (length p <= limit (k + i))%nat /\ ((S i < length pages)%nat -> length p = limit (k + i)%nat).
Proof.
  intros Hpage Hlim. revert k cursor rest. induction fuel as [|fuel IH]; intros k cursor rest Hc Hf; [lia|].
  destruct (Hpage k cursor rest Hc) as (next & Hp & Hnext). cbn [read_pages]. rewrite Hp. cbn [mbind option_bind].
  pose proof (Hlim k) as Hlk. destruct next as [token|].
  - destruct Hnext as [Hfull Hl'].
    assert (Hshort : (length (drop (limit k) rest) < fuel)%nat).
    { rewrite length_drop. rewrite length_take in Hfull. lia. }
    destruct (IH (S k) _ _ Hl' Hshort) as (pages & -> & Hcat & Hpages). cbn [mbind option_bind].
    eexists. split; [reflexivity|]. cbn [concat]. rewrite Hcat, take_drop. split; [done|].
    intros [|i] p; cbn [lookup list_lookup length].
    + intros [= <-]. rewrite Nat.add_0_r. split; [lia|done].
    + intros Hi. destruct (Hpages i p Hi) as [H1 H2]. replace (k + S i)%nat with (S k + i)%nat by lia.
      split; [done|]. intros Hlt. apply H2. lia.
  - eexists. split; [reflexivity|]. cbn [concat]. rewrite app_nil_r. split.
    { by rewrite <- (take_drop (limit k) rest) at 2; rewrite Hnext, app_nil_r. }
    intros [|i] p; cbn [lookup list_lookup length]; [|done].
    intros [= <-]. rewrite Nat.add_0_r, length_take. split; [lia|lia].
Qed.
End Reading.
