(* ===== verification/Storage.v ===== *)
(** * Storage: publication guarantees and generations

    Models [crates/vsift-domain/src/storage.rs]. *)

From S2P Require Import Prelude.

Inductive DurabilityRequirement := Ephemeral | Durable.

Inductive PublicationGuarantee := ProcessCrashConsistent | OsCrashDurable.

Definition required_guarantee (r : DurabilityRequirement) : PublicationGuarantee :=
  match r with
  | Ephemeral => ProcessCrashConsistent
  | Durable => OsCrashDurable
  end.

Definition durability_identifier (r : DurabilityRequirement) : string :=
  match r with Ephemeral => "ephemeral" | Durable => "durable" end.

Definition satisfies (g : PublicationGuarantee) (r : DurabilityRequirement) : bool :=
  match g, r with
  | ProcessCrashConsistent, Ephemeral | OsCrashDurable, Ephemeral => true
  | OsCrashDurable, Durable => true
  | _, _ => false
  end.

Definition guarantee_identifier (g : PublicationGuarantee) : string :=
  match g with
  | ProcessCrashConsistent => "process_crash_consistent"
  | OsCrashDurable => "os_crash_durable"
  end.

Module StorageGeneration.
(** The [u64] newtype. *)
Definition t : Type := Z.

Inductive error := Exhausted.

Definition INITIAL : t := 0.

Definition successor (g : t) : result t error :=
  match checked_u64 (g + 1) with
  | Some value => Ok value
  | None => Err Exhausted
  end.
End StorageGeneration.

(** The guarantee a requirement names is the weakest that satisfies it; the
    derived order puts crash consistency before durability. *)
Definition guarantee_le (a b : PublicationGuarantee) : bool :=
  match a, b with OsCrashDurable, ProcessCrashConsistent => false | _, _ => true end.

Lemma satisfies_iff_required g r : satisfies g r = guarantee_le (required_guarantee r) g.
Proof. by destruct g, r. Qed.

(** A generation's successor is strictly later, and only the last has none. *)
Lemma successor_spec g :
  is_u64 g ->
  StorageGeneration.successor g
  = if g =? U64_MAX then Err StorageGeneration.Exhausted else Ok (g + 1).
Proof.
  intros H. unfold StorageGeneration.successor, checked_u64. destruct (g =? U64_MAX) eqn:E; bool_prop.
  - subst. reflexivity.
  - rewrite checked_in; [done|ulia].
Qed.

