(* ===== verification/Session.v ===== *)
(** * Session: the lifetime of a disposable session

    Models [crates/vsift-domain/src/session.rs]: phases, artifact kinds,
    workspace retention and policy, and the lifetime's opening, loading from
    a record, expiry and renewal. Times are [u64] Unix seconds. *)

From S2P Require Import Prelude.
From S2P Require Import Storage.

Inductive SessionPhase := Open | Closed.

Definition phase_identifier (p : SessionPhase) : string :=
  match p with Open => "open" | Closed => "closed" end.

Definition MAX_TRANSCRIPT_PARTS : nat := 64.

Inductive SessionArtifactKind :=
| FramePng | AudioPcm | TranscriptRecord | VisualIndexRecord | AudioWav | EvidenceRecord
| ScreenTextIndexRecord | TranscriptPart.

Definition artifact_identifier (k : SessionArtifactKind) : string :=
  match k with
  | FramePng => "frame_png"
  | AudioPcm => "audio_pcm"
  | TranscriptRecord => "transcript_record"
  | VisualIndexRecord => "visual_index_record"
  | AudioWav => "audio_wav"
  | EvidenceRecord => "evidence_record"
  | ScreenTextIndexRecord => "screen_text_index_record"
  | TranscriptPart => "transcript_part"
  end.

Definition artifact_extension (k : SessionArtifactKind) : string :=
  match k with
  | FramePng => "png"
  | AudioPcm => "pcm"
  | AudioWav => "wav"
  | TranscriptRecord | VisualIndexRecord | EvidenceRecord | ScreenTextIndexRecord
  | TranscriptPart => "json"
  end.

Inductive SessionTransitionError := InvalidExpiry | NotOpen.

(** The [u64] newtype of retained seconds. *)
Module WorkspaceRetention.
Record t := mk { seconds : Z }.

Definition MIN : t := mk 3600.
Definition DEFAULT : t := mk (168 * 3600).
Definition MAX : t := mk (720 * 3600).

Definition from_seconds (s : Z) : result t SessionTransitionError :=
  if (s <? seconds MIN) || (seconds MAX <? s) then Err InvalidExpiry else Ok (mk s).

Definition from_hours (hours : Z) : result t SessionTransitionError :=
  match checked_u64 (hours * 3600) with
  | Some s => from_seconds s
  | None => Err InvalidExpiry
  end.

(** What the private field always satisfies. *)
Definition wf (r : t) : Prop := seconds MIN <= seconds r <= seconds MAX.
End WorkspaceRetention.

Inductive SessionLifetimePolicy := Desktop | Workspace (retention : WorkspaceRetention.t).

Definition IDLE_SECONDS : Z := 24 * 60 * 60.
Definition MAX_SECONDS : Z := 7 * 24 * 60 * 60.

Definition idle_seconds (p : SessionLifetimePolicy) : Z :=
  match p with
  | Desktop => IDLE_SECONDS
  | Workspace retention => WorkspaceRetention.seconds retention
  end.

Definition max_seconds (p : SessionLifetimePolicy) : Z :=
  match p with
  | Desktop => MAX_SECONDS
  | Workspace _ => WorkspaceRetention.seconds WorkspaceRetention.MAX
  end.

Definition policy_wf (p : SessionLifetimePolicy) : Prop :=
  match p with
  | Desktop => True
  | Workspace retention => WorkspaceRetention.wf retention
  end.

Module WorkspacePolicy.
Record t := mk {
  durability : DurabilityRequirement;
  admission_capacity : Z;
  retention : WorkspaceRetention.t
}.

Inductive error := AdmissionCapacity.

Definition MAX_ADMISSION_CAPACITY : Z := 64.

(** [capacity] is a [NonZeroU16]. *)
Definition new (durability : DurabilityRequirement) (capacity : Z)
    (retention : WorkspaceRetention.t) : result t error :=
  if MAX_ADMISSION_CAPACITY <? capacity then Err AdmissionCapacity
  else Ok (mk durability capacity retention).

Definition lifetime_policy (p : t) : SessionLifetimePolicy := Workspace (retention p).
End WorkspacePolicy.

Module SessionLifetime.
Record t := mk {
  policy : SessionLifetimePolicy;
  opened_at_unix_seconds : Z;
  expires_at_unix_seconds : Z
}.

Definition open_under (policy : SessionLifetimePolicy) (now : Z)
    : result t SessionTransitionError :=
  match checked_u64 (now + idle_seconds policy) with
  | None => Err InvalidExpiry
  | Some expires =>
      match checked_u64 (now + max_seconds policy) with
      | None => Err InvalidExpiry
      | Some _ => Ok (mk policy now expires)
      end
  end.

Definition open (now : Z) : result t SessionTransitionError := open_under Desktop now.

Definition from_record_under (policy : SessionLifetimePolicy) (opened expires : Z)
    : result t SessionTransitionError :=
  match checked_u64 (opened + max_seconds policy), checked_u64 (opened + idle_seconds policy) with
  | Some hard, Some initial =>
      if (expires <? initial) || (hard <? expires) then Err InvalidExpiry
      else Ok (mk policy opened expires)
  | _, _ => Err InvalidExpiry
  end.

Definition from_record (opened expires : Z) : result t SessionTransitionError :=
  from_record_under Desktop opened expires.

Definition expired (l : t) (now : Z) : bool := expires_at_unix_seconds l <=? now.

Definition renew (l : t) (now : Z) : result t SessionTransitionError :=
  if expired l now then Err NotOpen
  else
    let? hard := ok_or (checked_u64 (opened_at_unix_seconds l + max_seconds (policy l)))
                   InvalidExpiry in
    let? proposed := ok_or (checked_u64 (now + idle_seconds (policy l))) InvalidExpiry in
    Ok (mk (policy l) (opened_at_unix_seconds l)
          (Z.max (Z.min proposed hard) (expires_at_unix_seconds l))).

(** Any number of renewals of a lifetime opened at some time, each at the
    clock's reading [now], which may step backwards. *)
Inductive lived : t -> Prop :=
| lived_open p now l : policy_wf p -> is_u64 now -> open_under p now = Ok l -> lived l
| lived_renew l now l' : lived l -> is_u64 now -> renew l now = Ok l' -> lived l'.

(** When a session ends whatever is renewed. *)
Definition hard_end (l : t) : Z := opened_at_unix_seconds l + max_seconds (policy l).

Definition first_expiry (l : t) : Z := opened_at_unix_seconds l + idle_seconds (policy l).

Record wf (l : t) : Prop := {
  wf_policy : policy_wf (policy l);
  wf_opened : is_u64 (opened_at_unix_seconds l);
  wf_hard : is_u64 (hard_end l);
  wf_expires : first_expiry l <= expires_at_unix_seconds l <= hard_end l
}.
End SessionLifetime.

Section Lifetimes.
Import SessionLifetime.

Lemma idle_le_max p : policy_wf p -> 0 < idle_seconds p <= max_seconds p.
Proof.
  destruct p as [|[s]]; cbn; unfold WorkspaceRetention.wf; cbn; [|lia].
  unfold IDLE_SECONDS, MAX_SECONDS. lia.
Qed.

Lemma open_under_wf p now l :
  policy_wf p -> is_u64 now -> open_under p now = Ok l ->
  wf l /\ policy l = p /\ opened_at_unix_seconds l = now
  /\ expires_at_unix_seconds l = first_expiry l.
Proof.
  intros Hp Hnow H. unfold open_under in H. by_cases H.
  match goal with H : Some _ = Some _ |- _ => injection H as <- | _ => idtac end.
  injection H as <-. pose proof (idle_le_max p Hp).
  repeat match goal with H : checked_u64 _ = Some _ |- _ => apply checked_Some in H as [-> ?] end.
  split; [|done]. split; cbn; unfold first_expiry, hard_end; cbn; try done; ulia.
Qed.

Lemma renew_spec l now :
  wf l -> 0 <= now ->
  renew l now =
    if expires_at_unix_seconds l <=? now then Err NotOpen
    else if U64_MAX <? now + idle_seconds (policy l) then Err InvalidExpiry
    else Ok (mk (policy l) (opened_at_unix_seconds l)
               (Z.max (Z.min (now + idle_seconds (policy l)) (hard_end l))
                  (expires_at_unix_seconds l))).
Proof.
  intros [Hp Ho Hh He] Hnow. pose proof (idle_le_max _ Hp). unfold renew, expired.
  destruct (_ <=? now) eqn:E; [done|]. bool_prop.
  fold (hard_end l). unfold checked_u64 at 1. rewrite (checked_in _ _ (hard_end l)) by done.
  cbn [ok_or result_bind]. destruct (U64_MAX <? _) eqn:E2; bool_prop.
  - unfold checked_u64. rewrite (proj2 (checked_None _ _ _)) by lia. done.
  - unfold checked_u64. rewrite checked_in by lia. done.
Qed.

Lemma renew_wf l now l' :
  wf l -> is_u64 now -> renew l now = Ok l' ->
  wf l' /\ policy l' = policy l /\ opened_at_unix_seconds l' = opened_at_unix_seconds l
  /\ expires_at_unix_seconds l <= expires_at_unix_seconds l'
  /\ Z.min (now + idle_seconds (policy l)) (hard_end l) <= expires_at_unix_seconds l'.
Proof.
  intros Hwf Hnow H. rewrite renew_spec in H by (done || ulia). by_cases H. injection H as <-.
  destruct Hwf as [Hp Ho Hh He]. unfold hard_end, first_expiry in *.
  repeat split; cbn; unfold hard_end, first_expiry; cbn; try done; ulia.
Qed.

Lemma lived_wf l : lived l -> wf l.
Proof.
  induction 1 as [p now l Hp Hnow H | l now l' _ IH Hnow H].
  - by apply (open_under_wf p now).
  - by apply (renew_wf l now).
Qed.

Lemma from_record_wf l :
  wf l ->
  from_record_under (policy l) (opened_at_unix_seconds l) (expires_at_unix_seconds l) = Ok l.
Proof.
  intros [Hp Ho Hh He]. pose proof (idle_le_max _ Hp). unfold from_record_under.
  unfold hard_end, first_expiry in *. unfold checked_u64. rewrite !checked_in by ulia.
  rewrite (proj2 (Z.ltb_ge _ _)) by lia. rewrite (proj2 (Z.ltb_ge _ _)) by lia. by destruct l.
Qed.

(** However often it is renewed and whatever the clock reads, a session lives
    at least its policy's idle time and never beyond its hard end; it loads
    back from its record as it was; and a renewal is refused exactly when the
    session has expired or the new expiry is not a [u64], otherwise it keeps
    the opening and the policy, never shortens the life, and leaves the
    session open until the idle time has passed or the hard end is reached.
    Claim C25. *)
Theorem session_lifetime_bounded l :
  lived l ->
  (forall now, now < first_expiry l -> expired l now = false)
  /\ (forall now, hard_end l <= now -> expired l now = true)
  /\ from_record_under (policy l) (opened_at_unix_seconds l) (expires_at_unix_seconds l) = Ok l
  /\ (forall now, is_u64 now ->
       match renew l now with
       | Err NotOpen => expired l now = true
       | Err InvalidExpiry => expired l now = false /\ U64_MAX < now + idle_seconds (policy l)
       | Ok l' =>
           expired l now = false /\ lived l' /\ hard_end l' = hard_end l
           /\ (forall later, expired l later = false -> expired l' later = false)
           /\ (forall later, later < Z.min (now + idle_seconds (policy l)) (hard_end l) ->
                             expired l' later = false)
       end).
Proof.
  intros Hl. pose proof (lived_wf l Hl) as Hwf. pose proof Hwf as [Hp Ho Hh He].
  split; [|split; [|split]].
  - intros now H. apply Z.leb_gt. lia.
  - intros now H. apply Z.leb_le. lia.
  - by apply from_record_wf.
  - intros now Hnow. destruct (renew l now) as [l'|e] eqn:E.
    + destruct (renew_wf l now l' Hwf Hnow E) as (Hwf' & H1 & H2 & H3 & H4).
      split; [|split; [by eapply lived_renew|split; [|split]]].
      * unfold renew in E. by destruct (expired l now).
      * unfold hard_end. by rewrite H1, H2.
      * intros later Hlater. unfold expired in *. bool_prop. apply Z.leb_gt. lia.
      * intros later Hlater. apply Z.leb_gt. lia.
    + rewrite renew_spec in E by (done || ulia). unfold expired. by_cases E.
      * by injection E as <-.
      * by injection E as <-.
Qed.

Lemma session_lifetime_bounded_witness :
  exists l, open 1000 = Ok l /\ (forall now, 1000 + MAX_SECONDS <= now -> expired l now = true).
Proof.
  exists (mk Desktop 1000 87400). split; [reflexivity|].
  apply (session_lifetime_bounded (mk Desktop 1000 87400)).
  apply (lived_open Desktop 1000); [exact I|concrete|reflexivity].
Defined.
End Lifetimes.
