(* ===== verification/Job.v ===== *)
(** * Job: the lifecycle of a recoverable job

    Models [crates/vsift-domain/src/job.rs]: the states and the one function
    that applies a transition, job kinds, modes and streams with their stored
    identifiers. The step relation is the transitions that function accepts. *)

From stdpp Require Import relations.
From S2P Require Import Prelude.

(** ** Stored identifiers *)

(** An enumeration with its [ALL] list and its [identifier]. *)
Class Identified (A : Type) : Type := {
  all_values : list A;
  identifier : A -> string;
}.

(** [ALL.into_iter().find(|v| v.identifier() == text)] *)
Definition parse_identifier {A} `{Identified A} (s : string) : option A :=
  head (filter (fun v => identifier v = s) all_values).

Class IdentifiedLaws (A : Type) `{Identified A} : Prop := {
  all_complete : forall v : A, v ∈ all_values;
  identifier_inj : forall v w : A, identifier v = identifier w -> v = w;
}.

Lemma parse_identifier_spec {A} `{IdentifiedLaws A} s (v : A) :
  parse_identifier s = Some v <-> identifier v = s.
Proof.
  unfold parse_identifier. split.
  - intros Hv%head_Some_elem_of. by apply list_elem_of_filter in Hv as [? _].
  - intros <-. destruct (filter _ _) as [|w l] eqn:E.
    + assert (Hv : v ∈ filter (fun w => identifier w = identifier v) all_values)
        by (apply list_elem_of_filter; split; [done|apply all_complete]).
      rewrite E in Hv. by apply not_elem_of_nil in Hv.
    + cbn. f_equal. apply identifier_inj.
      assert (Hw : w ∈ filter (fun w => identifier w = identifier v) all_values)
        by (rewrite E; by left).
      by apply list_elem_of_filter in Hw as [? _].
Qed.

(** [identified]: the laws of an enumeration, by cases. *)
Ltac identified :=
  split;
  [ let v := fresh in intros v; destruct v;
    repeat first [apply list_elem_of_here | apply list_elem_of_further]
  | let v := fresh in let w := fresh in intros v w; destruct v, w; (done || discriminate) ].

(** ** States *)

Inductive JobState :=
| Queued | Running | Committing | Interrupted | Cancelling | Succeeded | Failed | Cancelled.

#[export] Instance JobState_eq_dec : EqDecision JobState.
Proof. solve_decision. Defined.

Definition JobState_ALL : list JobState :=
  [Queued; Running; Committing; Interrupted; Cancelling; Succeeded; Failed; Cancelled].

Definition JobState_identifier (s : JobState) : string :=
  match s with
  | Queued => "queued"
  | Running => "running"
  | Committing => "committing"
  | Interrupted => "interrupted"
  | Cancelling => "cancelling"
  | Succeeded => "succeeded"
  | Failed => "failed"
  | Cancelled => "cancelled"
  end.

#[export] Instance JobState_identified : Identified JobState :=
  {| all_values := JobState_ALL; identifier := JobState_identifier |}.

Definition JobState_parse (s : string) : option JobState := parse_identifier s.

Definition is_terminal (s : JobState) : bool :=
  match s with Succeeded | Failed | Cancelled => true | _ => false end.

Definition claims_an_owner (s : JobState) : bool :=
  match s with Running | Committing | Cancelling => true | _ => false end.

Record JobTransitionError := mkJobTransitionError { current : JobState; requested : JobState }.

Definition transition_to (s next : JobState) : result JobState JobTransitionError :=
  let legal :=
    match s, next with
    | Queued, (Running | Cancelling | Cancelled)
    | Running, (Committing | Interrupted | Cancelling | Failed)
    | Committing, (Succeeded | Failed | Interrupted)
    | Interrupted, (Running | Cancelled)
    | Cancelling, (Cancelled | Failed) => true
    | _, _ => false
    end in
  if legal then Ok next else Err (mkJobTransitionError s next).

(** ** Kinds, modes and streams *)

Inductive JobKind := Retranscribe | Prepare.

Definition JobKind_ALL : list JobKind := [Retranscribe; Prepare].

Definition JobKind_identifier (k : JobKind) : string :=
  match k with Retranscribe => "retranscribe" | Prepare => "prepare" end.

#[export] Instance JobKind_identified : Identified JobKind :=
  {| all_values := JobKind_ALL; identifier := JobKind_identifier |}.

Definition JobKind_parse (s : string) : option JobKind := parse_identifier s.

Module JobMode.
Inductive t := Quick | Watched | Queued.

Definition ALL : list t := [Quick; Watched; Queued].

Definition QUICK_LIMIT_MICROS : Z := 600000000.

Definition mode_identifier (m : t) : string :=
  match m with Quick => "quick" | Watched => "watched" | Queued => "queued" end.

#[global] Instance identified : Identified t :=
  {| all_values := ALL; identifier := mode_identifier |}.

Definition parse (s : string) : option t := parse_identifier s.

Definition for_duration (duration_micros : option Z) : t :=
  match duration_micros with
  | Some duration => if duration <? QUICK_LIMIT_MICROS then Quick else Watched
  | None => Watched
  end.
End JobMode.

Inductive PrepareStream := FirstWindow | Visual | Transcript.

Definition PrepareStream_ALL : list PrepareStream := [FirstWindow; Visual; Transcript].

Definition PrepareStream_identifier (s : PrepareStream) : string :=
  match s with FirstWindow => "first" | Visual => "visual" | Transcript => "transcript" end.

#[export] Instance PrepareStream_identified : Identified PrepareStream :=
  {| all_values := PrepareStream_ALL; identifier := PrepareStream_identifier |}.

Definition PrepareStream_parse (s : string) : option PrepareStream := parse_identifier s.

Definition MAX_FIRST_WINDOW_MICROS : Z := 1800000000.

(** ** Executions *)

(** One applied transition. *)
Definition step (s s' : JobState) : Prop := transition_to s s' = Ok s'.

(** The states a job went through, latest first, from its creation on. *)
Inductive history : list JobState -> Prop :=
| history_new : history [Queued]
| history_step s s' h : history (s :: h) -> step s s' -> history (s' :: s :: h).

#[export] Instance JobState_laws : IdentifiedLaws JobState.
Proof. identified. Qed.
#[export] Instance JobKind_laws : IdentifiedLaws JobKind.
Proof. identified. Qed.
#[export] Instance JobMode_laws : IdentifiedLaws JobMode.t.
Proof. identified. Qed.
#[export] Instance PrepareStream_laws : IdentifiedLaws PrepareStream.
Proof. identified. Qed.

(** [step_cases H]: the edges of the graph that [H : step s s'] can be. *)
Ltac step_cases H :=
  match type of H with
  | step ?s ?s' => unfold step, transition_to in H; destruct s; try (is_var s'; destruct s'); try discriminate H
  end.

(** What an execution satisfies after each step: the latest state decides
    what may lie behind it. *)
Definition history_inv (h : list JobState) : Prop :=
  match h with
  | [] => False
  | s :: past =>
      (s = Queued <-> past = [])
      /\ Forall (fun p => is_terminal p = false) past
      /\ (s = Succeeded -> exists past', past = Committing :: Running :: past')
      /\ (s = Committing -> exists past', past = Running :: past')
      /\ (Cancelling ∈ past -> is_terminal s = true)
      /\ (s = Succeeded \/ s = Committing -> Cancelling ∉ past)
  end.

Lemma history_invariant h : history h -> history_inv h.
Proof.
  induction 1 as [|s s' h Hh IH Hs]; cbn in *.
  - split; [done|]. split; [constructor|]. split; [done|]. split; [done|]. split.
    + intros H. by apply not_elem_of_nil in H.
    + intros _. apply not_elem_of_nil.
  - destruct IH as (I1 & I2 & I3 & I4 & I5 & I6). rewrite !Forall_cons, !not_elem_of_cons.
    split; [|split; [|split; [|split; [|split]]]].
    + step_cases Hs; naive_solver.
    + split; [|done]. by step_cases Hs.
    + intros ->. step_cases Hs. destruct (I4 eq_refl) as [past' ->]. by exists past'.
    + intros ->. step_cases Hs. by exists h.
    + rewrite elem_of_cons. intros [<-|Hc]; [by step_cases Hs|].
      specialize (I5 Hc). by step_cases Hs.
    + intros Hs'. split; [destruct Hs' as [-> | ->]; by step_cases Hs|].
      intros Hc. specialize (I5 Hc). by step_cases Hs.
Qed.

(** A job that has not ended can still end. *)
Lemma can_end s : exists s', rtc step s s' /\ is_terminal s' = true.
Proof.
  destruct s.
  - exists Cancelled. split; [by apply rtc_once|done].
  - exists Failed. split; [by apply rtc_once|done].
  - exists Succeeded. split; [by apply rtc_once|done].
  - exists Cancelled. split; [by apply rtc_once|done].
  - exists Cancelled. split; [by apply rtc_once|done].
  - by exists Succeeded.
  - by exists Failed.
  - by exists Cancelled.
Qed.

(** In every execution: terminal states are exactly the ones no transition
    leaves, so a job ends once; success comes only out of the commit of a
    running job; a job whose cancellation was requested never commits and
    never succeeds, and its next state is terminal; a refused transition
    names the states it was refused between and changes nothing; and from
    every state a terminal one is in reach. Claim C24. *)
Theorem job_lifecycle s h :
  history (s :: h) ->
  (is_terminal s = true <-> forall next, transition_to s next = Err (mkJobTransitionError s next))
  /\ Forall (fun p => is_terminal p = false) h
  /\ (s = Succeeded -> exists h', h = Committing :: Running :: h')
  /\ (Cancelling ∈ h -> s = Cancelled \/ s = Failed)
  /\ (forall next, transition_to s next = Ok next
                   \/ transition_to s next = Err (mkJobTransitionError s next))
  /\ (exists s', rtc step s s' /\ is_terminal s' = true).
Proof.
  intros H. destruct (history_invariant _ H) as (I1 & I2 & I3 & I4 & I5 & I6).
  split; [|split; [done|split; [done|split; [|split]]]].
  - split.
    + intros Ht next. destruct s; try discriminate Ht; by destruct next.
    + intros Hall. destruct s; try done;
        specialize (Hall Running) as H1; specialize (Hall Failed) as H2; discriminate.
  - intros Hc. specialize (I5 Hc). destruct s; try discriminate I5; [|by right|by left].
    exfalso. by apply I6; [left|].
  - intros next. unfold transition_to. destruct s, next; auto.
  - apply can_end.
Qed.

Lemma job_lifecycle_witness :
  history [Succeeded; Committing; Running; Queued]
  /\ forall next, transition_to Succeeded next = Err (mkJobTransitionError Succeeded next).
Proof.
  assert (H : history [Succeeded; Committing; Running; Queued])
    by (repeat (apply history_step; [|reflexivity]); apply history_new).
  split; [exact H|].
  by apply (job_lifecycle Succeeded [Committing; Running; Queued] H).
Defined.

(** The stored identifiers of states, kinds, modes and streams are read back
    to exactly the value that has them, and any other text to none. *)
Theorem job_identifiers_parse text :
  (forall s, JobState_parse text = Some s <-> JobState_identifier s = text)
  /\ (forall k, JobKind_parse text = Some k <-> JobKind_identifier k = text)
  /\ (forall m, JobMode.parse text = Some m <-> JobMode.mode_identifier m = text)
  /\ (forall p, PrepareStream_parse text = Some p <-> PrepareStream_identifier p = text).
Proof.
  split; [|split; [|split]]; intros v.
  - exact (parse_identifier_spec text v).
  - exact (parse_identifier_spec text v).
  - exact (parse_identifier_spec text v).
  - exact (parse_identifier_spec text v).
Qed.
