(* ===== verification/Failure.v ===== *)
(** * Failure: public failure codes and their classes

    Models [crates/vsift-domain/src/failure.rs]: codes with their stable
    identifiers and positions, and the class each belongs to. *)

From S2P Require Import Prelude.

Module FailureClass.
Inductive t := Internal | UsageOrCapability | Source | Retryable | Limit | Cancelled | StorageOrIo.
End FailureClass.

Module FailureCode.
Inductive t :=
| Internal | InvalidArgument | UnsupportedSchema | MissingCapability | IsolationUnavailable
| CommandNotImplemented | InvalidSource | Busy | DeadlineExceeded | ResourceLimit | Cancelled
| StorageIo | IntegrityFailure | IdempotencyConflict | DownloadFailed | SourceFetchFailed.

#[global] Instance eq_dec : EqDecision t.
Proof. solve_decision. Defined.

Definition ALL : list t :=
  [Internal; InvalidArgument; UnsupportedSchema; MissingCapability; IsolationUnavailable;
   CommandNotImplemented; InvalidSource; Busy; DeadlineExceeded; ResourceLimit; Cancelled;
   StorageIo; IntegrityFailure; IdempotencyConflict; DownloadFailed; SourceFetchFailed].

Definition ordinal (c : t) : nat :=
  match c with
  | Internal => 0 | InvalidArgument => 1 | UnsupportedSchema => 2 | MissingCapability => 3
  | IsolationUnavailable => 4 | CommandNotImplemented => 5 | InvalidSource => 6 | Busy => 7
  | DeadlineExceeded => 8 | ResourceLimit => 9 | Cancelled => 10 | StorageIo => 11
  | IntegrityFailure => 12 | IdempotencyConflict => 13 | DownloadFailed => 14
  | SourceFetchFailed => 15
  end%nat.

Definition identifier (c : t) : string :=
  match c with
  | Internal => "INTERNAL"
  | InvalidArgument => "INVALID_ARGUMENT"
  | UnsupportedSchema => "UNSUPPORTED_SCHEMA"
  | MissingCapability => "MISSING_CAPABILITY"
  | IsolationUnavailable => "ISOLATION_UNAVAILABLE"
  | CommandNotImplemented => "COMMAND_NOT_IMPLEMENTED"
  | InvalidSource => "INVALID_SOURCE"
  | Busy => "BUSY"
  | DeadlineExceeded => "DEADLINE_EXCEEDED"
  | ResourceLimit => "RESOURCE_LIMIT"
  | Cancelled => "CANCELLED"
  | StorageIo => "STORAGE_IO"
  | IntegrityFailure => "INTEGRITY_FAILURE"
  | IdempotencyConflict => "IDEMPOTENCY_CONFLICT"
  | DownloadFailed => "DOWNLOAD_FAILED"
  | SourceFetchFailed => "SOURCE_FETCH_FAILED"
  end.

Definition class (c : t) : FailureClass.t :=
  match c with
  | Internal => FailureClass.Internal
  | InvalidArgument | UnsupportedSchema | MissingCapability | IsolationUnavailable
  | CommandNotImplemented | IdempotencyConflict => FailureClass.UsageOrCapability
  | InvalidSource | SourceFetchFailed => FailureClass.Source
  | Busy => FailureClass.Retryable
  | DeadlineExceeded | ResourceLimit => FailureClass.Limit
  | Cancelled => FailureClass.Cancelled
  | StorageIo | IntegrityFailure | DownloadFailed => FailureClass.StorageOrIo
  end.

Definition retryable (c : t) : bool := match c with Busy => true | _ => false end.
End FailureCode.

Module OperationStatus.
Inductive t := Complete | Partial | Failed | Cancelled.

Definition identifier (s : t) : string :=
  match s with
  | Complete => "complete"
  | Partial => "partial"
  | Failed => "failed"
  | Cancelled => "cancelled"
  end.
End OperationStatus.

(** The compile-time guard of the list: every code sits at its position. *)
Lemma code_at_its_ordinal c : FailureCode.ALL !! FailureCode.ordinal c = Some c.
Proof. by destruct c. Qed.
