(* ===== verification/Retry.v ===== *)
(** * Retry: automatic retries, backoff and poisoned chunks

    Models [crates/vsift-domain/src/retry.rs]. A [Duration] is its
    nanoseconds, at most [DURATION_MAX]. *)

From S2P Require Import Prelude.
From S2P Require Import Failure.

(** ** [std::time::Duration] *)

Definition Duration : Type := Z.

Definition DURATION_MAX : Z := U64_MAX * 1000000000 + 999999999.

Definition is_duration (d : Duration) : Prop := 0 <= d <= DURATION_MAX.

Definition from_millis (ms : Z) : Duration := ms * 1000000.
Definition from_secs (s : Z) : Duration := s * 1000000000.
Definition as_millis (d : Duration) : Z := d / 1000000.
Definition checked_duration (d : Z) : option Duration := checked 0 DURATION_MAX d.

(** [1_u32.checked_shl(n).unwrap_or(u32::MAX)] *)
Definition doubling_factor (n : Z) : Z := if n <? 32 then Z.shiftl 1 n else U32_MAX.

(** ** The policy *)

Definition MAX_AUTOMATIC_RETRIES : Z := 2.
Definition RETRY_BASE_DELAY : Duration := from_millis 200.
Definition RETRY_MAX_DELAY : Duration := from_secs 2.
Definition POISON_THRESHOLD : nat := 3.
Definition MAX_JOB_ATTEMPTS : Z := 16.

(** A sample in [[0, 1)], the [u32] [bits] over [2^32]. *)
Module Jitter.
Record t := mk { bits : Z }.

Definition NONE : t := mk 0.
Definition FULL : t := mk U32_MAX.

Definition from_bits (b : Z) : t := mk b.

Definition typed (j : t) : Prop := is_u32 (bits j).

Definition scale (j : t) (ceiling : Duration) : Duration :=
  let millis := default U64_MAX (checked_u64 (as_millis ceiling)) in
  let scaled := Z.shiftr (millis * bits j) 32 in
  from_millis (default U64_MAX (checked_u64 scaled)).
End Jitter.

Inductive RetryClass := Transient | Resumable | Permanent.

Definition retry_class_of (code : FailureCode.t) : RetryClass :=
  match code with
  | FailureCode.Busy => Transient
  | FailureCode.DeadlineExceeded | FailureCode.StorageIo | FailureCode.Cancelled => Resumable
  | FailureCode.Internal | FailureCode.InvalidArgument | FailureCode.UnsupportedSchema
  | FailureCode.MissingCapability | FailureCode.IsolationUnavailable
  | FailureCode.CommandNotImplemented | FailureCode.InvalidSource | FailureCode.ResourceLimit
  | FailureCode.IntegrityFailure | FailureCode.IdempotencyConflict
  | FailureCode.DownloadFailed | FailureCode.SourceFetchFailed => Permanent
  end.

Inductive RetryDecision := RetryAfter (delay : Duration) | LeaveToCaller | Never.

Module RetryPolicy.
Record t := mk { max_automatic : Z; base : Duration; cap : Duration }.

Definition R0 : t := mk MAX_AUTOMATIC_RETRIES RETRY_BASE_DELAY RETRY_MAX_DELAY.

Definition ceiling (p : t) (retry : Z) : Duration :=
  match checked_duration (base p * doubling_factor retry) with
  | Some delay => Z.min delay (cap p)
  | None => cap p
  end.

Definition decide (p : t) (code : FailureCode.t) (retries_used : Z)
    (remaining : option Duration) (jitter : Jitter.t) : RetryDecision :=
  match retry_class_of code with
  | Permanent => Never
  | Resumable => LeaveToCaller
  | Transient =>
      if max_automatic p <=? retries_used then LeaveToCaller
      else
        let delay := Jitter.scale jitter (ceiling p retries_used) in
        if match remaining with Some r => r <? delay | None => false end
        then LeaveToCaller
        else RetryAfter delay
  end.
End RetryPolicy.

(** ** Poisoned chunks *)

Record AttemptFailure := mkAttemptFailure { chunk : option Z; code : FailureCode.t }.

(** The failures that count against one chunk with one code. *)
Definition same_failures (failures : list AttemptFailure) (c : Z) (k : FailureCode.t) : nat :=
  length (filter (fun other => chunk other = Some c /\ code other = k) failures).

Definition poisoned_chunk (failures : list AttemptFailure) : option Z :=
  head (omap (fun failure =>
    c ← chunk failure;
    if decide (code failure = FailureCode.Cancelled) then None
    else if (POISON_THRESHOLD <=? same_failures failures c (code failure))%nat then Some c
    else None) failures).

(** ** Facts on jitter and backoff *)

Lemma shiftl_1 n : 0 <= n -> Z.shiftl 1 n = 2 ^ n.
Proof. intros H. rewrite Z.shiftl_mul_pow2 by done. lia. Qed.

(** Scaling by a sample below one never reaches a positive ceiling. *)
Lemma scale_bounds j ceiling :
  Jitter.typed j -> is_duration ceiling ->
  0 <= Jitter.scale j ceiling <= ceiling
  /\ (0 < ceiling -> Jitter.scale j ceiling < ceiling).
Proof.
  intros Hj Hc. unfold Jitter.typed in Hj. unfold Jitter.scale, as_millis, from_millis.
  set (m := ceiling / 1000000).
  assert (Hm : 0 <= m <= U64_MAX * 1000 + 999).
  { unfold is_duration, DURATION_MAX in Hc. unfold m. split; [apply Z.div_pos; lia|].
    apply Z.lt_succ_r, Z.div_lt_upper_bound; ulia. }
  set (m' := default U64_MAX (checked_u64 m)).
  assert (Hm' : 0 <= m' <= m /\ m' <= U64_MAX).
  { unfold m', checked_u64, checked. destruct (in_range 0 U64_MAX m) eqn:E; cbn.
    - apply in_range_true in E. lia.
    - unfold in_range in E. bool_prop. destruct E; bool_prop; ulia. }
  rewrite Z.shiftr_div_pow2 by lia. set (s := m' * Jitter.bits j / 2 ^ 32).
  assert (Hs : 0 <= s <= m' /\ (0 < m' -> s < m')).
  { unfold s. change (2 ^ 32) with 4294967296. split; [split|].
    - apply Z.div_pos; unia.
    - apply Z.div_le_upper_bound; unia.
    - intros ?. apply Z.div_lt_upper_bound; unia. }
  assert (checked_u64 s = Some s) as -> by (apply checked_in; lia). cbn [default].
  pose proof (Z.mul_div_le ceiling 1000000 ltac:(lia)). fold m in H.
  unfold is_duration, id in *. split; [lia|]. intros Hpos. destruct (decide (0 < m')); lia.
Qed.

(** A larger sample never shortens the delay. *)
Lemma scale_mono j j' ceiling :
  Jitter.typed j -> Jitter.typed j' -> Jitter.bits j <= Jitter.bits j' -> is_duration ceiling ->
  Jitter.scale j ceiling <= Jitter.scale j' ceiling.
Proof.
  unfold Jitter.typed, Jitter.scale, from_millis. intros Hj Hj' Hle Hc.
  set (m := default U64_MAX (checked_u64 (as_millis ceiling))).
  assert (Hm : 0 <= m <= U64_MAX).
  { unfold m, checked_u64. destruct (checked 0 U64_MAX (as_millis ceiling)) eqn:E; cbn; [|ulia].
    by apply checked_Some in E as [-> ?]. }
  rewrite !Z.shiftr_div_pow2 by lia. change (2 ^ 32) with 4294967296.
  assert (Hb : forall b, 0 <= b <= U32_MAX -> 0 <= m * b / 4294967296 <= U64_MAX).
  { intros b Hb. split; [apply Z.div_pos; unia|]. apply Z.div_le_upper_bound; unia. }
  unfold checked_u64. rewrite !checked_in by (apply Hb; ulia). cbn [default]. unfold id.
  apply Z.mul_le_mono_nonneg_r; [lia|]. apply Z.div_le_mono; [lia|].
  apply Z.mul_le_mono_nonneg_l; ulia.
Qed.

(** The ceiling of a doubling backoff is the documented minimum, however many
    retries there were. *)
Lemma doubling_min base cap n :
  0 < base -> 0 <= cap <= base * U32_MAX -> cap <= DURATION_MAX -> 0 <= n ->
  match checked_duration (base * doubling_factor n) with
  | Some d => Z.min d cap
  | None => cap
  end = Z.min cap (base * 2 ^ n).
Proof.
  intros Hb Hc Hcd Hn. unfold doubling_factor.
  destruct (n <? 32) eqn:E; bool_prop.
  - rewrite shiftl_1 by done.
    destruct (checked_duration _) as [d|] eqn:Ed; [apply checked_Some in Ed as [-> _]; lia|].
    apply checked_None in Ed. pose proof (Z.pow_pos_nonneg 2 n). nia.
  - assert (H : 2 ^ 32 <= 2 ^ n) by (apply Z.pow_le_mono_r; lia).
    change (2 ^ 32) with 4294967296 in H.
    assert (cap <= base * 2 ^ n) by unia.
    destruct (checked_duration _) as [d|] eqn:Ed; [apply checked_Some in Ed as [-> _]; lia|lia].
Qed.

Lemma ceiling_R0 n :
  0 <= n -> RetryPolicy.ceiling RetryPolicy.R0 n = Z.min (from_secs 2) (from_millis 200 * 2 ^ n).
Proof.
  intros Hn. unfold RetryPolicy.ceiling. cbn [RetryPolicy.base RetryPolicy.cap RetryPolicy.R0].
  apply doubling_min; [concrete|concrete|concrete|done].
Qed.

(** ** The automatic retries *)

(** The delays an operation that keeps failing with [code] is told to wait,
    one jitter sample a failure, until the policy stops it. *)
Fixpoint automatic_delays (p : RetryPolicy.t) (code : FailureCode.t) (retries_used : Z)
    (samples : list Jitter.t) : list Duration :=
  match samples with
  | [] => []
  | j :: rest =>
      match RetryPolicy.decide p code retries_used None j with
      | RetryAfter d => d :: automatic_delays p code (retries_used + 1) rest
      | LeaveToCaller | Never => []
      end
  end.

Lemma ceiling_R0_duration n : 0 <= n -> is_duration (RetryPolicy.ceiling RetryPolicy.R0 n)
  /\ 0 < RetryPolicy.ceiling RetryPolicy.R0 n.
Proof.
  intros Hn. rewrite ceiling_R0 by done. pose proof (Z.pow_pos_nonneg 2 n).
  unfold is_duration, from_secs, from_millis, DURATION_MAX, U64_MAX. lia.
Qed.

Lemma delays_stop code n samples :
  2 <= n -> automatic_delays RetryPolicy.R0 code n samples = [].
Proof.
  intros Hn. destruct samples as [|j samples]; [done|]. cbn [automatic_delays].
  unfold RetryPolicy.decide. destruct (retry_class_of code); [|done|done].
  cbn [RetryPolicy.max_automatic RetryPolicy.R0]. unfold MAX_AUTOMATIC_RETRIES.
  by rewrite (proj2 (Z.leb_le 2 n)).
Qed.

(** The policy in full: a failure is retried only when it is contention,
    fewer than two retries ran and the jittered delay fits the deadline; the
    delay is below the documented ceiling [min(2 s, 200 ms * 2^retry)] and
    grows with the sample. However long an operation keeps failing and
    whatever the samples, it is retried at most twice and waits less than
    600 ms in all. Claim C38. *)
Theorem retry_policy_bounded code retries remaining j samples :
  0 <= retries -> Jitter.typed j -> Forall Jitter.typed samples ->
  let ceiling := Z.min (from_secs 2) (from_millis 200 * 2 ^ retries) in
  let delay := Jitter.scale j ceiling in
  (0 <= delay < ceiling)
  /\ (RetryPolicy.decide RetryPolicy.R0 code retries remaining j =
        if bool_decide (code = FailureCode.Busy)
        then if (retries <? 2) && default true ((fun r => delay <=? r) <$> remaining)
             then RetryAfter delay else LeaveToCaller
        else if bool_decide (code ∈ [FailureCode.DeadlineExceeded; FailureCode.StorageIo;
                                     FailureCode.Cancelled])
             then LeaveToCaller else Never)
  /\ (length (automatic_delays RetryPolicy.R0 code 0 samples) <= 2)%nat
  /\ foldr Z.add 0 (automatic_delays RetryPolicy.R0 code 0 samples)
     < from_millis 600.
Proof.
  intros Hr Hj Hs ceiling delay.
  destruct (ceiling_R0_duration retries Hr) as [Hd Hpos]. rewrite ceiling_R0 in Hd, Hpos by done.
  fold ceiling in Hd, Hpos. destruct (scale_bounds j ceiling Hj Hd) as [Hb Hlt].
  split; [fold delay in Hb, Hlt; lia|]. split; [|split].
  - unfold RetryPolicy.decide. rewrite ceiling_R0 by done. fold ceiling. fold delay.
    change (RetryPolicy.max_automatic RetryPolicy.R0) with 2.
    destruct code; try reflexivity. cbn [retry_class_of]. rewrite bool_decide_true by done.
    rewrite Z.leb_antisym. destruct (retries <? 2); [|done]. cbn [negb andb].
    destruct remaining as [r|]; [|done]. cbn. unfold id. rewrite Z.leb_antisym.
    by destruct (r <? delay).
  - destruct samples as [|j1 [|j2 rest]]; cbn [automatic_delays]; [cbn; lia|..].
    + destruct (RetryPolicy.decide _ _ _ _ _); cbn; lia.
    + destruct (RetryPolicy.decide _ _ 0 _ _); cbn [length]; [|lia|lia].
      destruct (RetryPolicy.decide _ _ _ _ _); cbn [length]; [|lia|lia].
      rewrite delays_stop by lia. cbn. lia.
  - assert (Hone : forall n k, 0 <= n -> Jitter.typed k ->
      match RetryPolicy.decide RetryPolicy.R0 code n None k with
      | RetryAfter d => 0 <= d < from_millis 200 * 2 ^ n
      | _ => True
      end).
    { intros n k Hn Hk. unfold RetryPolicy.decide. destruct (retry_class_of code); [|done|done].
      destruct (_ <=? n); [done|]. destruct (ceiling_R0_duration n Hn) as [Hd' Hp'].
      destruct (scale_bounds k _ Hk Hd') as [Hb' Hl']. specialize (Hl' Hp').
      rewrite ceiling_R0 in Hl' |- * by done. rewrite ceiling_R0 in Hb' by done. lia. }
    destruct samples as [|j1 [|j2 rest]]; cbn [automatic_delays]; [concrete|..].
    + apply Forall_cons in Hs as [H1 _]. specialize (Hone 0 j1 ltac:(lia) H1).
      destruct (RetryPolicy.decide _ _ _ _ _); [|concrete|concrete].
      cbn. unfold from_millis in *. lia.
    + apply Forall_cons in Hs as [H1 [H2 _]%Forall_cons].
      pose proof (Hone 0 j1 ltac:(lia) H1) as Ho1. pose proof (Hone 1 j2 ltac:(lia) H2) as Ho2.
      destruct (RetryPolicy.decide _ _ 0 _ _); [|concrete|concrete].
      destruct (RetryPolicy.decide _ _ _ _ _).
      * rewrite delays_stop by lia. cbn. unfold from_millis in *. lia.
      * cbn. unfold from_millis in *. lia.
      * cbn. unfold from_millis in *. lia.
Qed.

Lemma retry_policy_bounded_witness :
  let samples := [Jitter.FULL; Jitter.FULL; Jitter.FULL] in
  automatic_delays RetryPolicy.R0 FailureCode.Busy 0 samples = [from_millis 199; from_millis 399]
  /\ foldr Z.add 0 (automatic_delays RetryPolicy.R0 FailureCode.Busy 0 samples)
     < from_millis 600.
Proof.
  split; [reflexivity|].
  apply (retry_policy_bounded FailureCode.Busy 0 None Jitter.FULL); [concrete|concrete|].
  repeat constructor; concrete.
Defined.

(** ** Poisoned chunks *)

(** A chunk poisons its job exactly when three failures at it have the same
    code other than a cancellation; the chunk named is one of those; and a
    poisoned job stays so whatever else fails. *)
Theorem poisoned_chunk_correct failures :
  (poisoned_chunk failures = None <->
     forall c k, k <> FailureCode.Cancelled -> (same_failures failures c k < 3)%nat)
  /\ (forall c, poisoned_chunk failures = Some c ->
        exists k, k <> FailureCode.Cancelled /\ (3 <= same_failures failures c k)%nat)
  /\ (forall more, poisoned_chunk failures <> None -> poisoned_chunk (failures ++ more) <> None).
Proof.
  assert (Hspec : forall fs, (forall c, poisoned_chunk fs = Some c ->
        exists k, k <> FailureCode.Cancelled /\ (3 <= same_failures fs c k)%nat)
      /\ (poisoned_chunk fs = None ->
          forall c k, k <> FailureCode.Cancelled -> (same_failures fs c k < 3)%nat)).
  { intros fs. unfold poisoned_chunk. set (f := fun failure => _). split.
    - intros c Hc%head_Some_elem_of. apply list_elem_of_omap in Hc as (x & _ & Hx).
      unfold f in Hx. destruct (chunk x) as [c'|]; [|done]. cbn [mbind option_bind] in Hx.
      destruct (decide _) as [|Hk]; [done|]. destruct (POISON_THRESHOLD <=? _)%nat eqn:E; [|done].
      injection Hx as ->. apply Nat.leb_le in E. by exists (code x).
    - intros Hn c k Hk. destruct (decide (same_failures fs c k < 3)%nat) as [|Hge]; [done|].
      exfalso. unfold same_failures in Hge.
      destruct (filter _ fs) as [|x l] eqn:E; [cbn in Hge; lia|].
      assert (Hx : x ∈ filter (fun o => chunk o = Some c /\ code o = k) fs) by (rewrite E; by left).
      apply list_elem_of_filter in Hx as [[Hxc Hxk] Hx].
      assert (Hf : f x = Some c).
      { unfold f. rewrite Hxc. cbn [mbind option_bind]. rewrite decide_False by congruence.
        rewrite (proj2 (Nat.leb_le _ _)); [done|]. unfold POISON_THRESHOLD, same_failures.
        rewrite Hxk, E. lia. }
      apply head_None in Hn. assert (Hin : c ∈ omap f fs) by (apply list_elem_of_omap; eauto).
      rewrite Hn in Hin. by apply not_elem_of_nil in Hin. }
  destruct (Hspec failures) as [HS HN]. split; [|split; [done|]].
  - split; [done|]. intros Hall. destruct (poisoned_chunk failures) as [c|]; [|done].
    destruct (HS c eq_refl) as (k & Hk & H3). specialize (Hall c k Hk). lia.
  - intros more Hp Hnone. destruct (poisoned_chunk failures) as [c|]; [|done].
    destruct (HS c eq_refl) as (k & Hk & H3).
    pose proof (proj2 (Hspec (failures ++ more)) Hnone c k Hk) as Hlt.
    unfold same_failures in *. rewrite filter_app, length_app in Hlt. lia.
Qed.
