(* ===== verification/Admission.v ===== *)
(** * Admission: weights, shares and bounded waiting

    Models [crates/vsift-domain/src/admission.rs]. A [NonZeroU16] or
    [NonZeroUsize] is a positive [Z]; durations are those of [Retry]. *)

From S2P Require Import Prelude.
From S2P Require Import Retry.

Definition is_nonzero_u16 (x : Z) : Prop := 0 < x <= U16_MAX.

Definition SINGLE_STAGE_WEIGHT : Z := 1.
Definition VISUAL_WINDOW_WEIGHT : Z := 2.
Definition MAX_RECOGNIZER_THREADS : Z := 8.
Definition UNKNOWN_PARALLELISM_THREADS : Z := 4.

Definition recognizer_threads (parallelism : option Z) (capacity : Z) : Z :=
  let machine :=
    default
      match parallelism with
      | Some _ => MAX_RECOGNIZER_THREADS
      | None => UNKNOWN_PARALLELISM_THREADS
      end
      (threads ← parallelism;
       narrow ← checked_u16 threads;
       if narrow =? 0 then None else Some narrow) in
  Z.min (Z.min machine MAX_RECOGNIZER_THREADS) capacity.

Definition leaving_one_free (capacity : Z) : Z :=
  if capacity - 1 =? 0 then capacity else capacity - 1.

Module RecognitionShare.
Inductive t := Whole | LeavingOneFree.

Definition ALL : list t := [Whole; LeavingOneFree].

Definition identifier (s : t) : string :=
  match s with Whole => "whole" | LeavingOneFree => "leaving_one_free" end.

Definition parse (s : string) : option t :=
  head (filter (fun share => identifier share = s) ALL).

Definition share_of (s : t) (capacity : Z) : Z :=
  match s with
  | Whole => capacity
  | LeavingOneFree => leaving_one_free capacity
  end.
End RecognitionShare.

Definition MAX_ADMISSION_WAIT : Duration := from_secs 60.
Definition POLL_BASE : Duration := from_millis 50.
Definition POLL_CAP : Duration := from_secs 1.
Definition POLL_FLOOR : Duration := from_millis 10.
Definition ADMISSION_RETRY_AFTER : Duration := from_secs 2.

Module AdmissionBudget.
Record t := mk { duration : Duration }.

Inductive error := AdmissionBudgetError.

Definition MAX : t := mk MAX_ADMISSION_WAIT.

Definition new (wait : Duration) : result t error :=
  if (wait =? 0) || (MAX_ADMISSION_WAIT <? wait) then Err AdmissionBudgetError
  else Ok (mk wait).

(** What the private field always satisfies. *)
Definition wf (b : t) : Prop := 0 < duration b <= MAX_ADMISSION_WAIT.
End AdmissionBudget.

Definition QUEUED_ADMISSION_POLL : Duration := from_millis 500.
Definition QUEUED_YIELD_WAIT : Duration := from_secs 120.
Definition QUEUED_YIELD_POLL : Duration := from_millis 50.

Inductive AdmissionDecision := PollAfter (delay : Duration) | Busy (retry_after : Duration).

Module AdmissionWait.
Inductive t := Immediate | Bounded (budget : AdmissionBudget.t) | Queued.

Definition decide (w : t) (polls : Z) (waited : Duration) (jitter : Jitter.t)
    : AdmissionDecision :=
  let busy := Busy ADMISSION_RETRY_AFTER in
  match w with
  | Queued => PollAfter QUEUED_ADMISSION_POLL
  | Immediate => busy
  | Bounded budget =>
      match checked_duration (AdmissionBudget.duration budget - waited) with
      | Some remaining =>
          if remaining =? 0 then busy
          else
            let ceiling :=
              match checked_duration (POLL_BASE * doubling_factor polls) with
              | Some ceiling => Z.min ceiling POLL_CAP
              | None => POLL_CAP
              end in
            PollAfter (Z.min (Z.max (Jitter.scale jitter ceiling) POLL_FLOOR) remaining)
      | None => busy
      end
  end.
End AdmissionWait.

(** ** A wait from its first busy attempt on *)

(** The delays a caller sleeps while every attempt finds the root busy, one
    jitter sample an attempt, until it is answered [Busy]; it counts its own
    sleeps, as the waits of the code do. *)
Fixpoint busy_delays (w : AdmissionWait.t) (polls : Z) (waited : Duration)
    (samples : list Jitter.t) : list Duration :=
  match samples with
  | [] => []
  | j :: rest =>
      match AdmissionWait.decide w polls waited j with
      | PollAfter d => d :: busy_delays w (polls + 1) (waited + d) rest
      | Busy _ => []
      end
  end.

Definition total_delay (l : list Duration) : Z := foldr Z.add 0 l.

(** One decision of a bounded wait. *)
Lemma bounded_decide budget polls waited j :
  AdmissionBudget.wf budget -> Jitter.typed j -> 0 <= polls ->
  0 <= waited <= AdmissionBudget.duration budget ->
  let remaining := AdmissionBudget.duration budget - waited in
  let ceiling := Z.min POLL_CAP (POLL_BASE * 2 ^ polls) in
  AdmissionWait.decide (AdmissionWait.Bounded budget) polls waited j =
    if remaining =? 0 then Busy ADMISSION_RETRY_AFTER
    else PollAfter (Z.min (Z.max (Jitter.scale j ceiling) POLL_FLOOR) remaining).
Proof.
  intros Hb Hj Hp Hw remaining ceiling. unfold AdmissionBudget.wf in Hb.
  assert (Hm : MAX_ADMISSION_WAIT <= DURATION_MAX) by concrete.
  unfold AdmissionWait.decide. fold remaining.
  assert (checked_duration remaining = Some remaining) as ->
    by (apply checked_in; unfold remaining; lia).
  destruct (remaining =? 0); [done|]. rewrite doubling_min; [done|concrete|concrete|concrete|done].
Qed.

(** The invariant of the wait: it never passes its budget, each sleep is at
    least the floor or the rest of the budget, and an answer of [Busy] comes
    when the budget is spent to the nanosecond. *)
Lemma busy_delays_spec budget polls waited samples :
  AdmissionBudget.wf budget -> Forall Jitter.typed samples -> 0 <= polls ->
  0 <= waited <= AdmissionBudget.duration budget ->
  let delays := busy_delays (AdmissionWait.Bounded budget) polls waited samples in
  let remaining := AdmissionBudget.duration budget - waited in
  0 <= total_delay delays <= remaining
  /\ Z.of_nat (length delays) * POLL_FLOOR < remaining + POLL_FLOOR
  /\ ((length delays < length samples)%nat -> total_delay delays = remaining).
Proof.
  intros Hb Hs. revert polls waited. induction Hs as [|j samples Hj Hs IH]; intros polls waited Hp Hw.
  { unfold POLL_FLOOR, from_millis. cbn. lia. }
  cbn [busy_delays]. rewrite bounded_decide by done. cbn zeta.
  set (remaining := AdmissionBudget.duration budget - waited).
  set (delay := Z.min _ remaining).
  destruct (remaining =? 0) eqn:E; bool_prop.
  { unfold POLL_FLOOR, from_millis. cbn. lia. }
  assert (Hd : Z.min POLL_FLOOR remaining <= delay <= remaining) by (unfold delay; lia).
  assert (Hf : POLL_FLOOR = 10000000) by reflexivity.
  destruct (IH (polls + 1) (waited + delay)) as (H1 & H2 & H3); [lia|unfold remaining in *; lia|].
  cbn [total_delay foldr length]. fold (total_delay (busy_delays (AdmissionWait.Bounded budget)
    (polls + 1) (waited + delay) samples)).
  unfold remaining in *. split; [lia|]. split; [lia|]. intros Hl. rewrite H3 by lia. lia.
Qed.

(** A bounded wait ends: whatever the jitter, a caller polls at most 6,000
    times, never sleeps past its budget, and is told [Busy] only once it has
    slept exactly its budget, which takes at most 6,000 more busy attempts. *)
Theorem bounded_wait_terminates budget samples :
  AdmissionBudget.wf budget -> Forall Jitter.typed samples ->
  let delays := busy_delays (AdmissionWait.Bounded budget) 0 0 samples in
  Z.of_nat (length delays) <= 6000
  /\ total_delay delays <= AdmissionBudget.duration budget
  /\ ((length delays < length samples)%nat -> total_delay delays = AdmissionBudget.duration budget)
  /\ (6000 < Z.of_nat (length samples) -> total_delay delays = AdmissionBudget.duration budget).
Proof.
  intros Hb Hs delays. pose proof Hb as Hb'. unfold AdmissionBudget.wf in Hb'.
  destruct (busy_delays_spec budget 0 0 samples) as (H1 & H2 & H3); [done|done|done|lia|].
  fold delays in H1, H2, H3.
  assert (HM : MAX_ADMISSION_WAIT = 60000000000) by reflexivity.
  assert (HF : POLL_FLOOR = 10000000) by reflexivity.
  rewrite Z.sub_0_r in *. assert (Hlen : Z.of_nat (length delays) <= 6000) by lia.
  split; [done|]. split; [lia|]. split; [done|]. intros ?. apply H3. lia.
Qed.

Lemma bounded_wait_terminates_witness :
  let budget := AdmissionBudget.mk (from_millis 100) in
  let samples := replicate 4 Jitter.FULL in
  busy_delays (AdmissionWait.Bounded budget) 0 0 samples = [from_millis 49; from_millis 51]
  /\ total_delay (busy_delays (AdmissionWait.Bounded budget) 0 0 samples) = from_millis 100.
Proof.
  split; [vm_compute; reflexivity|].
  destruct (bounded_wait_terminates (AdmissionBudget.mk (from_millis 100))
    (replicate 4 Jitter.FULL)) as (_ & _ & H & _).
  - concrete.
  - repeat constructor; concrete.
  - apply H. vm_compute. lia.
Defined.

(** ** Weights and shares *)

(** A recognition always fits the root it runs in: it takes from one to eight
    threads and at most its share. On a root of two units or more a share
    that leaves one free leaves room for an evidence stage, and on a root of
    one unit it is the whole. *)
Theorem recognition_fits_root parallelism capacity share :
  is_nonzero_u16 capacity -> match parallelism with Some p => 0 < p | None => True end ->
  let taken := recognizer_threads parallelism (RecognitionShare.share_of share capacity) in
  1 <= taken <= MAX_RECOGNIZER_THREADS
  /\ taken <= capacity
  /\ (share = RecognitionShare.LeavingOneFree -> 2 <= capacity ->
      taken + SINGLE_STAGE_WEIGHT <= capacity)
  /\ (forall p, parallelism = Some p -> taken <= p)
  /\ (capacity = 1 -> taken = 1).
Proof.
  intros Hc Hp taken. unfold is_nonzero_u16 in Hc.
  assert (Hof : 1 <= RecognitionShare.share_of share capacity <= capacity
    /\ (share = RecognitionShare.LeavingOneFree -> 2 <= capacity ->
        RecognitionShare.share_of share capacity = capacity - 1)).
  { destruct share; cbn; [split; [lia|done]|]. unfold leaving_one_free.
    destruct (capacity - 1 =? 0) eqn:E; bool_prop; (split; [lia|intros; lia]). }
  unfold taken, recognizer_threads, MAX_RECOGNIZER_THREADS, SINGLE_STAGE_WEIGHT.
  set (room := RecognitionShare.share_of share capacity) in *. destruct Hof as [Hof Hshare].
  enough (Hgoal : forall machine, 1 <= machine -> (forall p, parallelism = Some p ->
      Z.min machine 8 <= p) ->
    let taken := Z.min (Z.min machine 8) room in
    1 <= taken <= 8 /\ taken <= capacity
    /\ (share = RecognitionShare.LeavingOneFree -> 2 <= capacity -> taken + 1 <= capacity)
    /\ (forall p, parallelism = Some p -> taken <= p) /\ (capacity = 1 -> taken = 1)).
  { apply Hgoal.
    - destruct parallelism as [p|]; cbn [mbind option_bind default]; unfold id; [|concrete].
      destruct (checked_u16 p) as [q|] eqn:Eq; cbn [mbind option_bind default]; [|concrete].
      apply checked_Some in Eq as [-> Hq]. rewrite (proj2 (Z.eqb_neq p 0)) by lia. cbn. lia.
    - intros p ->. cbn [mbind option_bind].
      destruct (checked_u16 p) as [q|] eqn:Eq; cbn [mbind option_bind].
      + apply checked_Some in Eq as [-> Hq]. rewrite (proj2 (Z.eqb_neq p 0)) by lia. cbn.
        unfold id. lia.
      + apply checked_None in Eq. cbn. unfold U16_MAX, id in *. lia. }
  intros machine Hm Hpm. cbn zeta. split; [lia|]. split; [lia|]. split; [|split; [|lia]].
  - intros Hs H2. specialize (Hshare Hs H2). lia.
  - intros p Hpe. specialize (Hpm p Hpe). lia.
Qed.

Lemma recognition_fits_root_witness :
  recognizer_threads (Some 16) (RecognitionShare.share_of RecognitionShare.LeavingOneFree 4) = 3
  /\ recognizer_threads (Some 16) (RecognitionShare.share_of RecognitionShare.LeavingOneFree 4)
     + SINGLE_STAGE_WEIGHT <= 4.
Proof.
  split; [reflexivity|].
  apply (recognition_fits_root (Some 16) 4 RecognitionShare.LeavingOneFree);
    [concrete|concrete|reflexivity|concrete].
Defined.
