(* ===== verification/Worker.v ===== *)
(** * Worker: the rules a worker host applies to one request

    Models [crates/vsift-domain/src/worker.rs]. *)

From S2P Require Import Prelude.
From S2P Require Import Failure.
From S2P Require Import Retry.
From S2P Require Import Admission.

Definition MIN_STEP_BUDGET : Duration := from_secs 1.

Record RecordedRequest := mkRecordedRequest { same_digest : bool; ended : bool }.

Inductive RequestAdmission := Start | Replay | Continue | Busy | Conflict.

Definition admit_request (record : option RecordedRequest) (held_elsewhere : bool)
    : RequestAdmission :=
  match record, held_elsewhere with
  | Some (mkRecordedRequest false _), _ => Conflict
  | _, true => Busy
  | None, false => Start
  | Some (mkRecordedRequest true true), false => Replay
  | Some (mkRecordedRequest true false), false => Continue
  end.

Definition ends_request (failure : option FailureCode.t) : bool :=
  match failure with
  | None => true
  | Some code => match retry_class_of code with Permanent => true | _ => false end
  end.

Inductive StepRetry := After (delay : Duration) | Report | DeadlineExceeded.

(** [Duration::saturating_sub] *)
Definition saturating_sub (a b : Duration) : Duration := Z.max 0 (a - b).

Definition step_retry (code : FailureCode.t) (polls : Z) (waited remaining : Duration)
    (wait : AdmissionWait.t) (jitter : Jitter.t) : StepRetry :=
  match retry_class_of code with
  | Transient =>
      match AdmissionWait.decide wait polls waited jitter with
      | Admission.Busy _ => Report
      | PollAfter delay =>
          if saturating_sub remaining delay <? MIN_STEP_BUDGET then DeadlineExceeded
          else After delay
      end
  | _ => Report
  end.

Definition step_may_start (remaining : Duration) : bool := MIN_STEP_BUDGET <=? remaining.

(** ** The steps of one request *)

(** A step that keeps failing with [code] under one deadline: what each retry
    waits, and the answer that ends it, [None] when the samples run out. The
    deadline runs down by the waits. *)
Fixpoint step_attempts (code : FailureCode.t) (polls : Z) (waited remaining : Duration)
    (wait : AdmissionWait.t) (samples : list Jitter.t) : list Duration * option StepRetry :=
  match samples with
  | [] => ([], None)
  | j :: rest =>
      match step_retry code polls waited remaining wait j with
      | After d =>
          let '(ds, answer) :=
            step_attempts code (polls + 1) (waited + d) (remaining - d) wait rest in
          (d :: ds, answer)
      | answer => ([], Some answer)
      end
  end.

Lemma retry_leaves_budget code polls waited remaining wait j d :
  step_retry code polls waited remaining wait j = After d ->
  code = FailureCode.Busy /\ wait <> AdmissionWait.Immediate
  /\ AdmissionWait.decide wait polls waited j = PollAfter d
  /\ MIN_STEP_BUDGET <= remaining - d.
Proof.
  unfold step_retry. intros H. destruct code; try discriminate H. cbn [retry_class_of] in H.
  destruct (AdmissionWait.decide wait polls waited j) as [d'|] eqn:E; [|discriminate H].
  destruct (_ <? MIN_STEP_BUDGET) eqn:Eb; [discriminate H|]. injection H as <-. bool_prop.
  unfold saturating_sub, MIN_STEP_BUDGET, from_secs in *.
  split; [done|]. split; [by intros ->|]. split; [done|lia].
Qed.

Lemma attempts_within code polls waited remaining wait samples :
  MIN_STEP_BUDGET <= remaining ->
  MIN_STEP_BUDGET <=
    remaining - total_delay (step_attempts code polls waited remaining wait samples).1.
Proof.
  revert polls waited remaining. induction samples as [|j samples IH]; intros polls waited remaining Hr;
    cbn [step_attempts].
  { cbn. lia. }
  destruct (step_retry _ _ _ _ _ _) as [d| |] eqn:E; [|cbn; lia|cbn; lia].
  apply retry_leaves_budget in E as (_ & _ & _ & Hd).
  specialize (IH (polls + 1) (waited + d) (remaining - d) Hd).
  destruct (step_attempts _ _ _ _ _ _) as [ds answer]. cbn in *. lia.
Qed.

Lemma attempts_bounded code polls waited remaining budget samples :
  AdmissionBudget.wf budget -> Forall Jitter.typed samples -> 0 <= polls ->
  0 <= waited <= AdmissionBudget.duration budget ->
  let ds := (step_attempts code polls waited remaining (AdmissionWait.Bounded budget) samples).1 in
  ds `prefix_of` busy_delays (AdmissionWait.Bounded budget) polls waited samples
  /\ ((length (busy_delays (AdmissionWait.Bounded budget) polls waited samples)
       < length samples)%nat ->
      (step_attempts code polls waited remaining (AdmissionWait.Bounded budget) samples).2 <> None).
Proof.
  intros Hb Hs. revert polls waited remaining.
  induction Hs as [|j samples Hj Hs IH]; intros polls waited remaining Hp Hw; cbn [step_attempts].
  { split; [done|cbn; lia]. }
  destruct (step_retry _ _ _ _ _ _) as [d| |] eqn:E.
  2, 3: split; [apply prefix_nil|done].
  apply retry_leaves_budget in E as (_ & _ & Hdec & _). cbn [busy_delays]. rewrite Hdec.
  assert (Hd : 0 <= waited + d <= AdmissionBudget.duration budget).
  { rewrite bounded_decide in Hdec by done. cbn zeta in Hdec.
    destruct (_ =? 0); [discriminate|]. injection Hdec as <-.
    unfold POLL_FLOOR, from_millis. lia. }
  destruct (IH (polls + 1) (waited + d) (remaining - d) ltac:(lia) Hd) as [H1 H2].
  destruct (step_attempts _ _ _ _ _ _) as [ds answer]. cbn in *. split.
  - by apply prefix_cons.
  - intros Hl. apply H2. lia.
Qed.

(** A step is tried again only for contention, only when its wait allows it,
    and never so late that less than the least step budget would be left, so
    the retry may start; a failure that ends the request is reported at once;
    under a bounded wait a step is retried at most 6,000 times and then gets
    an answer. Claim C26. *)
Theorem step_retry_safe code budget remaining samples :
  AdmissionBudget.wf budget -> Forall Jitter.typed samples -> step_may_start remaining = true ->
  let wait := AdmissionWait.Bounded budget in
  let '(delays, answer) := step_attempts code 0 0 remaining wait samples in
  step_may_start (remaining - total_delay delays) = true
  /\ Z.of_nat (length delays) <= 6000
  /\ (6000 < Z.of_nat (length samples) -> answer = Some Report \/ answer = Some DeadlineExceeded)
  /\ (ends_request (Some code) = true -> delays = [])
  /\ (code <> FailureCode.Busy -> delays = []).
Proof.
  intros Hb Hs Hr wait. unfold step_may_start in *. apply Z.leb_le in Hr.
  pose proof (attempts_within code 0 0 remaining wait samples Hr) as Hw.
  pose proof Hb as Hb'. unfold AdmissionBudget.wf in Hb'.
  destruct (attempts_bounded code 0 0 remaining budget samples) as [Hpre Hans]; [done|done|done|lia|].
  destruct (busy_delays_spec budget 0 0 samples) as (_ & Hlen & _); [done|done|done|lia|].
  assert (HM : MAX_ADMISSION_WAIT = 60000000000) by reflexivity.
  assert (HF : POLL_FLOOR = 10000000) by reflexivity.
  fold wait in Hpre, Hans, Hlen.
  assert (Hcode : code <> FailureCode.Busy -> (step_attempts code 0 0 remaining wait samples).1 = []).
  { intros Hc. destruct samples as [|j rest]; [done|]. cbn [step_attempts].
    destruct (step_retry _ _ _ _ _ _) eqn:E; [|done|done].
    by apply retry_leaves_budget in E as (? & _). }
  assert (Hnever : forall d, (step_attempts code 0 0 remaining wait samples).2 <> Some (After d)).
  { generalize 0 at 1. intros z. clear -z. revert z. generalize 0. revert remaining.
    induction samples as [|j rest IH]; intros remaining w z d; cbn [step_attempts]; [done|].
    destruct (step_retry _ _ _ _ _ _) as [d'| |]; [|done|done].
    specialize (IH (remaining - d') (w + d') (z + 1) d).
    by destruct (step_attempts _ _ _ _ _ _). }
  destruct (step_attempts code 0 0 remaining wait samples) as [delays answer]. cbn [fst snd] in *.
  apply prefix_length in Hpre. split; [by apply Z.leb_le|]. split; [lia|]. split; [|split].
  - intros Hl. destruct answer as [[d| |]|]; [by destruct (Hnever d)|by left|by right|].
    exfalso. apply Hans; [lia|done].
  - intros He. apply Hcode. by intros ->.
  - done.
Qed.

Lemma step_retry_safe_witness :
  let budget := AdmissionBudget.mk (from_millis 100) in
  step_attempts FailureCode.Busy 0 0 (from_secs 5) (AdmissionWait.Bounded budget)
    (replicate 4 Jitter.FULL) = ([from_millis 49; from_millis 51], Some Report)
  /\ step_may_start (from_secs 5 - from_millis 100) = true.
Proof.
  assert (H : step_attempts FailureCode.Busy 0 0 (from_secs 5)
      (AdmissionWait.Bounded (AdmissionBudget.mk (from_millis 100))) (replicate 4 Jitter.FULL)
      = ([from_millis 49; from_millis 51], Some Report)) by (vm_compute; reflexivity).
  split; [exact H|].
  assert (Hb : AdmissionBudget.wf (AdmissionBudget.mk (from_millis 100))) by concrete.
  assert (Hj : Forall Jitter.typed (replicate 4 Jitter.FULL)) by (repeat constructor; concrete).
  pose proof (step_retry_safe FailureCode.Busy (AdmissionBudget.mk (from_millis 100)) (from_secs 5)
    (replicate 4 Jitter.FULL) Hb Hj eq_refl) as Hsafe.
  cbv zeta in Hsafe. rewrite H in Hsafe. exact (proj1 Hsafe).
Defined.
