(* ===== verification/VisualSample.v ===== *)
(** * VisualSample: decoded frames reduced to block means and a hash

    Models the constants, [VisualHash], [VisualSample], [VisualDelta] and
    [VisualChangePolicy] of [crates/vsift-domain/src/visual.rs]. A frame is
    the list of its 9,216 grey bytes, row by row; sums are [u32], the hash is
    [u64], both with their wrap-around written out. *)

From Stdlib Require Import Ascii.
From S2P Require Import Prelude.
From S2P Require Import Text.
From S2P Require Import Timeline.

Definition VISUAL_FRAME_WIDTH : nat := 128.
Definition VISUAL_FRAME_HEIGHT : nat := 72.
Definition VISUAL_FRAME_BYTES : nat := VISUAL_FRAME_WIDTH * VISUAL_FRAME_HEIGHT.
Definition VISUAL_BLOCK_COLUMNS : nat := 16.
Definition VISUAL_BLOCK_ROWS : nat := 9.
Definition VISUAL_BLOCKS : nat := VISUAL_BLOCK_COLUMNS * VISUAL_BLOCK_ROWS.
Definition BLOCK_EDGE : nat := 8.
Definition BLOCK_PIXELS : Z := 64.
Definition HASH_COLUMNS : nat := 9.
Definition HASH_ROWS : nat := 8.

Inductive VisualIndexError :=
| InvalidDuration | InvalidWindow | UnorderedWindows | InvalidCandidate | InvalidChange
| InvalidCoverage | TooManyCandidates | DuplicateCandidate | InvalidHash.

(** ** The hash *)

Module VisualHash.
Record t := mk { bits : Z }.

#[global] Instance eq_dec : EqDecision t.
Proof. solve_decision. Defined.

(** [format!("{:016x}", bits)] *)
Definition hex_char (d : Z) : ascii :=
  ascii_of_N (Z.to_N (if d <? 10 then 48 + d else 87 + d)).

Fixpoint hex_digits (n : nat) (v : Z) : text :=
  match n with
  | O => []
  | S n' => hex_digits n' (v / 16) ++ [hex_char (v mod 16)]
  end.

Definition to_hex (h : t) : text := hex_digits 16 (bits h).

(** [u64::from_str_radix(text, 16)] on hexadecimal digits. *)
Definition hex_value (c : ascii) : Z :=
  if is_ascii_digit c then byte_of c - 48 else byte_of c - 87.

Fixpoint parse_radix16_from (acc : Z) (s : text) : option Z :=
  match s with
  | [] => Some acc
  | c :: rest =>
      scaled ← checked_u64 (acc * 16);
      acc' ← checked_u64 (scaled + hex_value c);
      parse_radix16_from acc' rest
  end.

Definition parse_hex (s : text) : result t VisualIndexError :=
  if negb (length s =? 16)%nat
     || negb (forallb (fun byte => is_ascii_digit byte || is_hex_letter byte) s)
  then Err InvalidHash
  else map_err (fun _ => InvalidHash) (ok_or (mk <$> parse_radix16_from 0 s) tt).

Definition wf (h : t) : Prop := is_u64 (bits h).
End VisualHash.

(** ** Samples *)

(** [pixels.get(lo..hi)] *)
Definition slice_get {A} (l : list A) (lo hi : nat) : option (list A) :=
  if ((lo <=? hi) && (hi <=? length l))%nat then Some (take (hi - lo) (drop lo l)) else None.

(** [values.iter().map(u32::from).sum()] *)
Definition sum_u32 (values : list Z) : Z := fold_left (fun sum v => wrap_u32 (sum + v)) values 0.

Definition region_sum (pixels : list Z) (left right top bottom : nat) : Z :=
  fold_left
    (fun sum row =>
       let start := (row * VISUAL_FRAME_WIDTH)%nat in
       match slice_get pixels (start + left) (start + right) with
       | Some values => wrap_u32 (sum + sum_u32 values)
       | None => sum
       end)
    (seq top (bottom - top)) 0.

(** The area mean of one cell of the hash grid. *)
Definition hash_mean (pixels : list Z) (row column : nat) : Z :=
  let top := (row * VISUAL_FRAME_HEIGHT / HASH_ROWS)%nat in
  let bottom := ((row + 1) * VISUAL_FRAME_HEIGHT / HASH_ROWS)%nat in
  let left := (column * VISUAL_FRAME_WIDTH / HASH_COLUMNS)%nat in
  let right := ((column + 1) * VISUAL_FRAME_WIDTH / HASH_COLUMNS)%nat in
  let area := default U32_MAX (checked_u32 (Z.of_nat ((right - left) * (bottom - top)))) in
  region_sum pixels left right top bottom / Z.max area 1.

(** [bits = (bits << 1) | u64::from(bit)] *)
Definition push_bit (bits : Z) (bit : bool) : Z := Z.lor (wrap_u64 (Z.shiftl bits 1)) (Z.b2z bit).

Definition difference_hash (pixels : list Z) : VisualHash.t :=
  VisualHash.mk
    (fold_left
       (fun bits row =>
          let means := hash_mean pixels row <$> seq 0 HASH_COLUMNS in
          fold_left (fun bits (pair : Z * Z) => push_bit bits (pair.2 <? pair.1))
            (windows2 means) bits)
       (seq 0 HASH_ROWS) 0).

Module VisualSample.
Record t := mk { time : MediaTime; blocks : list Z; hash : VisualHash.t }.

Definition from_gray (time : MediaTime) (pixels : list Z) : t :=
  let block index :=
    let left := ((index mod VISUAL_BLOCK_COLUMNS) * BLOCK_EDGE)%nat in
    let top := ((index / VISUAL_BLOCK_COLUMNS) * BLOCK_EDGE)%nat in
    let sum := region_sum pixels left (left + BLOCK_EDGE) top (top + BLOCK_EDGE) in
    default U8_MAX (checked 0 U8_MAX (wrap_u32 (sum + BLOCK_PIXELS / 2) / BLOCK_PIXELS)) in
  mk time (block <$> seq 0 VISUAL_BLOCKS) (difference_hash pixels).

Definition from_parts (time : MediaTime) (blocks : list Z) (hash : VisualHash.t) : t :=
  mk time blocks hash.

(** What the types of the fields say. *)
Definition typed (s : t) : Prop :=
  is_u64 (time s) /\ length (blocks s) = VISUAL_BLOCKS /\ Forall is_u8 (blocks s)
  /\ VisualHash.wf (hash s).
End VisualSample.

(** ** Differences *)

Module VisualDelta.
Record t := mk { changed_blocks : Z; max_block_delta : Z }.

#[global] Instance eq_dec : EqDecision t.
Proof. solve_decision. Defined.

(** The derived lexicographic order, strict. *)
Definition ltb (a b : t) : bool :=
  (changed_blocks a <? changed_blocks b)
  || ((changed_blocks a =? changed_blocks b) && (max_block_delta a <? max_block_delta b)).

Definition new (changed_blocks max_block_delta : Z) : result t VisualIndexError :=
  if Z.of_nat VISUAL_BLOCKS <? changed_blocks then Err InvalidChange
  else Ok (mk changed_blocks max_block_delta).
End VisualDelta.

Inductive VisualChangePolicy := PolicyR0.

Definition block_threshold (p : VisualChangePolicy) : Z := match p with PolicyR0 => 4 end.
Definition min_changed_blocks (p : VisualChangePolicy) : Z := match p with PolicyR0 => 2 end.
Definition single_block_threshold (p : VisualChangePolicy) : Z := match p with PolicyR0 => 6 end.

Definition delta (p : VisualChangePolicy) (before after : VisualSample.t) : VisualDelta.t :=
  let '(changed, largest) :=
    fold_left
      (fun (acc : Z * Z) (pair : Z * Z) =>
         let difference := Z.abs (pair.1 - pair.2) in
         (if block_threshold p <=? difference then saturating_u8 (acc.1 + 1) else acc.1,
          Z.max acc.2 difference))
      (zip (VisualSample.blocks before) (VisualSample.blocks after)) (0, 0) in
  VisualDelta.mk changed largest.

Definition is_change (p : VisualChangePolicy) (d : VisualDelta.t) : bool :=
  (min_changed_blocks p <=? VisualDelta.changed_blocks d)
  || (single_block_threshold p <=? VisualDelta.max_block_delta d).

Inductive VisualIndexProfile := ProfileR0.

Definition profile_identifier (p : VisualIndexProfile) : string :=
  match p with ProfileR0 => "r0-visual-v1" end.

Definition profile_policy (p : VisualIndexProfile) : VisualChangePolicy :=
  match p with ProfileR0 => PolicyR0 end.

(** ** Facts on the hash *)

#[global] Arguments hash_mean : simpl never.
#[global] Arguments region_sum : simpl never.

(** Looking into a concatenation of lists of the same length. *)
Lemma bind_lookup_uniform {A B} (f : A -> list B) n (l : list A) i j :
  (forall a, length (f a) = n) -> (j < n)%nat ->
  (l ≫= f) !! (n * i + j)%nat = (a ← l !! i; f a !! j).
Proof.
  intros Hf Hj. revert i. induction l as [|a l IH]; intros i; cbn [mbind list_bind].
  { by rewrite !lookup_nil. }
  destruct i as [|i].
  - rewrite Nat.mul_0_r, Nat.add_0_l, lookup_app_l by (rewrite Hf; lia). done.
  - rewrite lookup_app_r by (rewrite Hf; lia). cbn [lookup list_lookup]. rewrite <- IH.
    f_equal. rewrite Hf. lia.
Qed.

Lemma push_bit_value v bit n :
  0 <= v < 2 ^ n -> 0 <= n < 64 ->
  push_bit v bit = 2 * v + Z.b2z bit /\ 0 <= push_bit v bit < 2 ^ (n + 1).
Proof.
  intros Hv Hn. unfold push_bit. rewrite Z.shiftl_mul_pow2, Z.pow_1_r by lia.
  assert (H64 : 2 * 2 ^ n <= 2 ^ 64).
  { rewrite <- Z.pow_succ_r by lia. apply Z.pow_le_mono_r; lia. }
  replace (n + 1) with (Z.succ n) by lia. rewrite Z.pow_succ_r by lia.
  change (2 ^ 64) with 18446744073709551616 in H64.
  rewrite wrap_u64_id by ulia.
  assert (E : Z.lor (v * 2) (Z.b2z bit) = 2 * v + Z.b2z bit).
  { pose proof (Z.add_lor_land (v * 2) (Z.b2z bit)) as Hadd.
    enough (Hland : Z.land (v * 2) (Z.b2z bit) = 0) by lia. apply Z.bits_inj'. intros k Hk. rewrite Z.land_spec, Z.bits_0.
    destruct (decide (k = 0)) as [->|].
    - rewrite Z.mul_comm, Z.testbit_even_0. done.
    - destruct bit; cbn [Z.b2z]; [|by rewrite Z.testbit_0_l, andb_false_r].
      change 1 with (2 ^ 0). rewrite (Z.pow2_bits_false 0 k) by lia. apply andb_false_r. }
  rewrite E. destruct bit; cbn [Z.b2z]; lia.
Qed.

(** The bits pushed one after another, most significant first. *)
Lemma push_bits_spec l :
  (length l <= 64)%nat ->
  0 <= fold_left push_bit l 0 < 2 ^ Z.of_nat (length l)
  /\ forall i b, l !! i = Some b ->
       Z.testbit (fold_left push_bit l 0) (Z.of_nat (length l) - 1 - Z.of_nat i) = b.
Proof.
  induction l as [|b l IH] using rev_ind; intros Hl.
  { cbn. split; [lia|done]. }
  rewrite length_app in *. cbn [length] in *. destruct (IH ltac:(lia)) as [HA HB].
  rewrite fold_left_app. cbn [fold_left].
  destruct (push_bit_value _ b _ HA ltac:(lia)) as [HV HR].
  split; [by replace (Z.of_nat (length l + 1)) with (Z.of_nat (length l) + 1) by lia|].
  intros i b' Hi. rewrite HV. apply lookup_app_Some in Hi as [Hi|[Hge Hi]].
  - apply lookup_lt_Some in Hi as Hlt. specialize (HB i b' Hi). rewrite <- HB.
    replace (Z.of_nat (length l + 1) - 1 - Z.of_nat i)
      with (Z.succ (Z.of_nat (length l) - 1 - Z.of_nat i)) by lia.
    destruct b; cbn [Z.b2z]; [apply Z.testbit_odd_succ; lia|].
    rewrite Z.add_0_r. apply Z.testbit_even_succ. lia.
  - destruct (i - length l)%nat as [|d] eqn:Ei; [|done]. injection Hi as ->.
    replace (Z.of_nat (length l + 1) - 1 - Z.of_nat i) with 0 by lia.
    rewrite Z.add_comm. apply Z.add_b2z_double_bit0.
Qed.

(** The 64 comparisons of the hash, row by row. *)
Definition hash_bits (pixels : list Z) : list bool :=
  seq 0 HASH_ROWS ≫= (fun row =>
    (fun column => hash_mean pixels row (S column) <? hash_mean pixels row column) <$> seq 0 8).

Lemma difference_hash_bits pixels :
  VisualHash.bits (difference_hash pixels) = fold_left push_bit (hash_bits pixels) 0.
Proof.
  unfold difference_hash, hash_bits. cbn [VisualHash.bits].
  rewrite <- (fold_left_bind push_bit). unfold HASH_ROWS, HASH_COLUMNS. cbn. reflexivity.
Qed.

Lemma length_hash_bits pixels : length (hash_bits pixels) = 64%nat.
Proof. unfold hash_bits, HASH_ROWS. cbn. reflexivity. Qed.

Lemma hash_bits_lookup pixels row column :
  (row < 8)%nat -> (column < 8)%nat ->
  hash_bits pixels !! (8 * row + column)%nat
  = Some (hash_mean pixels row (S column) <? hash_mean pixels row column).
Proof.
  intros Hr Hc. unfold hash_bits. rewrite (bind_lookup_uniform _ 8); [|done|done].
  unfold HASH_ROWS. rewrite lookup_seq_lt by lia. cbn [mbind option_bind].
  rewrite list_lookup_fmap, lookup_seq_lt by lia. done.
Qed.

Lemma difference_hash_wf pixels : VisualHash.wf (difference_hash pixels).
Proof.
  unfold VisualHash.wf. rewrite difference_hash_bits.
  destruct (push_bits_spec (hash_bits pixels)) as [H _]; [by rewrite length_hash_bits|].
  rewrite length_hash_bits in H. change (2 ^ Z.of_nat 64) with 18446744073709551616 in H. ulia.
Qed.

(** ** Facts on sums *)

Definition sum_Z (l : list Z) : Z := foldr Z.add 0 l.

Definition pixel (pixels : list Z) (row column : nat) : Z :=
  default 0 (pixels !! (row * VISUAL_FRAME_WIDTH + column)%nat).

(** The sum of the pixels of a rectangle, unbounded. *)
Definition area_sum (pixels : list Z) (left right top bottom : nat) : Z :=
  sum_Z ((fun row => sum_Z (pixel pixels row <$> seq left (right - left)))
           <$> seq top (bottom - top)).

Lemma sum_Z_bounds l m : Forall (fun v => 0 <= v <= m) l -> 0 <= sum_Z l <= m * Z.of_nat (length l).
Proof.
  induction 1 as [|v l Hv _ IH]; [cbn; lia|].
  cbn [length sum_Z foldr]. fold (sum_Z l). rewrite Nat2Z.inj_succ, Z.mul_succ_r. lia.
Qed.

(** A fold of wrapping additions that stays below the width is exact. *)
Lemma wrapping_sum {A} (f : A -> Z) (l : list A) acc m :
  0 <= acc -> Forall (fun a => 0 <= f a <= m) l -> acc + m * Z.of_nat (length l) <= U32_MAX ->
  fold_left (fun sum a => wrap_u32 (sum + f a)) l acc = acc + sum_Z (f <$> l).
Proof.
  intros Hacc Hl. revert acc Hacc. induction Hl as [|a l Ha Hl IH]; intros acc Hacc Hb; cbn [fold_left].
  { cbn. lia. }
  cbn [length] in Hb. rewrite Nat2Z.inj_succ, Z.mul_succ_r in Hb.
  assert (0 <= m * Z.of_nat (length l)) by (apply Z.mul_nonneg_nonneg; lia).
  rewrite wrap_u32_id by (unfold is_u32; lia). rewrite IH; [|lia|lia]. rewrite fmap_cons. unfold sum_Z. cbn [foldr]. lia.
Qed.

Lemma take_drop_seq (l : list Z) lo n :
  (lo + n <= length l)%nat -> take n (drop lo l) = (fun i => default 0 (l !! i)) <$> seq lo n.
Proof.
  intros H. apply list_eq. intros i. destruct (decide (i < n)%nat) as [Hi|Hi].
  - rewrite lookup_take_lt, lookup_drop by done. rewrite list_lookup_fmap, lookup_seq_lt by done.
    cbn. destruct (l !! (lo + i)%nat) eqn:E; [done|]. apply lookup_ge_None in E. lia.
  - rewrite !lookup_ge_None_2; [done| |]; rewrite ?length_fmap, ?length_seq, ?length_take; lia.
Qed.

Definition gray_frame (pixels : list Z) : Prop :=
  length pixels = VISUAL_FRAME_BYTES /\ Forall is_u8 pixels.

Lemma pixel_bounds pixels row column : gray_frame pixels -> 0 <= pixel pixels row column <= U8_MAX.
Proof.
  intros [_ H]. unfold pixel. destruct (pixels !! _) as [v|] eqn:E; cbn; [|ulia].
  rewrite Forall_lookup in H. by apply (H _ _ E).
Qed.

Lemma row_sum_bounds pixels row lo n :
  gray_frame pixels -> 0 <= sum_Z (pixel pixels row <$> seq lo n) <= U8_MAX * Z.of_nat n.
Proof.
  intros H. pose proof (sum_Z_bounds (pixel pixels row <$> seq lo n) U8_MAX) as Hs.
  rewrite length_fmap, length_seq in Hs. apply Hs. apply Forall_fmap, Forall_forall.
  intros c _. by apply pixel_bounds.
Qed.

(** Inside the frame the [u32] sums neither wrap nor miss a row. *)
Lemma region_sum_exact pixels left right top bottom :
  gray_frame pixels -> (left <= right <= VISUAL_FRAME_WIDTH)%nat ->
  (top <= bottom <= VISUAL_FRAME_HEIGHT)%nat ->
  region_sum pixels left right top bottom = area_sum pixels left right top bottom
  /\ 0 <= area_sum pixels left right top bottom
     <= U8_MAX * Z.of_nat (right - left) * Z.of_nat (bottom - top).
Proof.
  intros Hg Hw Hh. pose proof Hg as [Hlen Hu].
  unfold VISUAL_FRAME_BYTES, VISUAL_FRAME_WIDTH, VISUAL_FRAME_HEIGHT in *.
  set (row_sum := fun row => sum_Z (pixel pixels row <$> seq left (right - left))).
  assert (Hrow : forall row, 0 <= row_sum row <= U8_MAX * Z.of_nat (right - left))
    by (intros row; by apply row_sum_bounds).
  split.
  - unfold region_sum, area_sum. fold row_sum.
    assert (Hstep : forall rows acc, Forall (fun row => (row < 72)%nat) rows ->
      fold_left (fun sum row => match slice_get pixels (row * 128 + left) (row * 128 + right) with
        | Some values => wrap_u32 (sum + sum_u32 values) | None => sum end) rows acc
      = fold_left (fun sum row => wrap_u32 (sum + row_sum row)) rows acc).
    { intros rows acc Hrows. revert acc. induction Hrows as [|row rows Hr _ IH]; intros acc; [done|].
      cbn [fold_left]. unfold slice_get at 2.
      rewrite (proj2 (Nat.leb_le (row * 128 + left) _)) by lia.
      rewrite (proj2 (Nat.leb_le (row * 128 + right) _)) by lia. cbn [andb].
      rewrite IH. f_equal. f_equal. f_equal. unfold sum_u32.
      replace (row * 128 + right - (row * 128 + left))%nat with (right - left)%nat by lia.
      rewrite take_drop_seq by lia. unfold row_sum.
      rewrite (wrapping_sum id _ 0 U8_MAX); [|lia| |].
      - rewrite list_fmap_id, Z.add_0_l. f_equal. apply list_eq. intros i.
        rewrite !list_lookup_fmap. destruct (decide (i < right - left)%nat).
        + rewrite !lookup_seq_lt by done. cbn. unfold pixel, VISUAL_FRAME_WIDTH.
          by rewrite Nat.add_assoc.
        + by rewrite !lookup_seq_ge by lia.
      - apply Forall_fmap, Forall_forall. intros i _. cbn. unfold id.
        destruct (pixels !! i) as [v|] eqn:E; cbn; [|ulia]. rewrite Forall_lookup in Hu.
        by apply (Hu _ _ E).
      - rewrite length_fmap, length_seq. ulia. }
    unfold VISUAL_FRAME_WIDTH. rewrite Hstep.
    + rewrite (wrapping_sum row_sum _ 0 (U8_MAX * Z.of_nat (right - left))); [done|lia| |].
      * apply Forall_forall. intros row _. apply Hrow.
      * rewrite length_seq. unia.
    + apply Forall_forall. intros row Hin%elem_of_seq. lia.
  - unfold area_sum. fold row_sum.
    pose proof (sum_Z_bounds (row_sum <$> seq top (bottom - top))
      (U8_MAX * Z.of_nat (right - left))) as Hs.
    rewrite length_fmap, length_seq in Hs. apply Hs. apply Forall_fmap, Forall_forall. cbn. auto.
Qed.

Lemma hash_grid row column :
  (row < 8)%nat -> (column < 9)%nat ->
  (column * 128 / 9 < (column + 1) * 128 / 9 <= 128)%nat
  /\ (row * 72 / 8 < (row + 1) * 72 / 8 <= 72)%nat.
Proof. intros Hr Hc. split; divlia. Qed.

(** The mean of a hash cell is the exact area mean, rounded down. *)
Definition cell_mean (pixels : list Z) (row column : nat) : Z :=
  let left := (column * 128 / 9)%nat in
  let right := ((column + 1) * 128 / 9)%nat in
  let top := (row * 9)%nat in
  area_sum pixels left right top (top + 9) / (Z.of_nat (right - left) * 9).

Lemma hash_mean_exact pixels row column :
  gray_frame pixels -> (row < 8)%nat -> (column < 9)%nat ->
  hash_mean pixels row column = cell_mean pixels row column.
Proof.
  intros Hg Hr Hc. destruct (hash_grid row column Hr Hc) as [Hw Hh].
  unfold hash_mean, cell_mean. unfold VISUAL_FRAME_WIDTH, VISUAL_FRAME_HEIGHT, HASH_COLUMNS, HASH_ROWS.
  replace ((row + 1) * 72 / 8)%nat with (row * 9 + 9)%nat by divlia.
  replace (row * 72 / 8)%nat with (row * 9)%nat by divlia.
  destruct (region_sum_exact pixels (column * 128 / 9) ((column + 1) * 128 / 9) (row * 9) (row * 9 + 9))
    as [-> _]; [done|unfold VISUAL_FRAME_WIDTH; lia|unfold VISUAL_FRAME_HEIGHT; lia|].
  unfold checked_u32. rewrite checked_in by ulia. cbn [default]. unfold id.
  f_equal. lia.
Qed.

(** A frame becomes exactly what the documentation says: 144 block means
    rounded half up, and a hash whose bit [8 * row + column], most
    significant first, tells whether a cell of the 9x8 grid of area means is
    brighter than its right neighbour; no sum wraps and no mean saturates. *)
Theorem from_gray_exact time pixels :
  is_u64 time -> gray_frame pixels ->
  let s := VisualSample.from_gray time pixels in
  VisualSample.typed s
  /\ (forall index, (index < 144)%nat ->
        exists b, VisualSample.blocks s !! index = Some b
          /\ let left := (index mod 16 * 8)%nat in
             let top := (index / 16 * 8)%nat in
             let sum := area_sum pixels left (left + 8) top (top + 8) in
             64 * b - 32 <= sum < 64 * b + 32)
  /\ (forall row column, (row < 8)%nat -> (column < 8)%nat ->
        Z.testbit (VisualHash.bits (VisualSample.hash s)) (63 - (8 * Z.of_nat row + Z.of_nat column))
        = (cell_mean pixels row (S column) <? cell_mean pixels row column)).
Proof.
  intros Ht Hg s.
  assert (Hblock : forall index, (index < 144)%nat ->
    exists b, VisualSample.blocks s !! index = Some b /\ is_u8 b
      /\ let left := (index mod 16 * 8)%nat in
         let top := (index / 16 * 8)%nat in
         let sum := area_sum pixels left (left + 8) top (top + 8) in
         64 * b - 32 <= sum < 64 * b + 32).
  { intros index Hi. unfold s, VisualSample.from_gray. cbn [VisualSample.blocks].
    unfold VISUAL_BLOCKS, VISUAL_BLOCK_COLUMNS, VISUAL_BLOCK_ROWS, BLOCK_EDGE, BLOCK_PIXELS.
    rewrite list_lookup_fmap, lookup_seq_lt, Nat.add_0_l by lia.
    cbn [fmap option_fmap option_map].
    set (left := (index mod 16 * 8)%nat). set (top := (index / 16 * 8)%nat).
    destruct (region_sum_exact pixels left (left + 8) top (top + 8)) as [-> Hb];
      [done|unfold left, VISUAL_FRAME_WIDTH; divlia|unfold top, VISUAL_FRAME_HEIGHT; divlia|].
    replace (left + 8 - left)%nat with 8%nat in Hb by lia.
    replace (top + 8 - top)%nat with 8%nat in Hb by lia.
    set (sum := area_sum _ _ _ _ _) in *. change (64 / 2) with 32.
    rewrite wrap_u32_id by ulia.
    assert (Hq : 0 <= (sum + 32) / 64 <= U8_MAX) by (unfold_widths; divlia).
    rewrite checked_in by done. eexists. split; [done|]. cbn [default]. unfold id. cbn zeta.
    unfold is_u8. split; [done|]. divlia. }
  split; [split; [|split; [|split]]|split].
  - done.
  - unfold s, VisualSample.from_gray. cbn [VisualSample.blocks]. by rewrite length_fmap, length_seq.
  - apply Forall_lookup. intros i b Hi. assert (Hlt : (i < 144)%nat).
    { apply lookup_lt_Some in Hi. unfold s, VisualSample.from_gray in Hi. cbn in Hi. lia. }
    destruct (Hblock i Hlt) as (b' & Hb' & Hu & _). rewrite Hb' in Hi. by injection Hi as <-.
  - apply difference_hash_wf.
  - intros index Hi. destruct (Hblock index Hi) as (b & Hb & _ & Hs). by exists b.
  - intros row column Hr Hc. unfold s, VisualSample.from_gray. cbn [VisualSample.hash].
    rewrite difference_hash_bits. destruct (push_bits_spec (hash_bits pixels)) as [_ Hbits];
      [by rewrite length_hash_bits|].
    rewrite <- !hash_mean_exact by (done || lia).
    rewrite <- (Hbits _ _ (hash_bits_lookup pixels row column Hr Hc)).
    f_equal. rewrite length_hash_bits. lia.
Qed.

Lemma from_gray_exact_witness :
  VisualSample.typed (VisualSample.from_gray 0 (replicate VISUAL_FRAME_BYTES 7)).
Proof.
  apply (from_gray_exact 0 (replicate VISUAL_FRAME_BYTES 7)); [concrete|].
  split; [vm_compute; reflexivity|]. apply Forall_replicate. concrete.
Defined.

(** ** The textual hash *)

Section Hex.
Import VisualHash.

Lemma hex_char_value d : 0 <= d < 16 ->
  hex_value (hex_char d) = d
  /\ is_ascii_digit (hex_char d) || is_hex_letter (hex_char d) = true.
Proof.
  intros Hd. assert (H : exists n, d = Z.of_nat n /\ (n < 16)%nat) by (exists (Z.to_nat d); lia).
  destruct H as (n & -> & Hn).
  do 16 (destruct n as [|n]; [split; vm_compute; reflexivity|]). lia.
Qed.

Lemma hex_char_of_value c :
  is_ascii_digit c || is_hex_letter c = true ->
  0 <= hex_value c < 16 /\ hex_char (hex_value c) = c.
Proof.
  destruct c as [[] [] [] [] [] [] [] []]; vm_compute; (discriminate || (split; [split|]; done || discriminate)).
Qed.

(** The number of hexadecimal digits, continuing from [acc]. *)
Definition radix16 (acc : Z) (s : text) : Z := fold_left (fun a c => a * 16 + hex_value c) s acc.

Lemma radix16_hex_digits n v :
  0 <= v < 16 ^ Z.of_nat n -> radix16 0 (hex_digits n v) = v.
Proof.
  revert v. induction n as [|n IH]; intros v Hv; cbn [hex_digits].
  { cbn in *. lia. }
  unfold radix16. rewrite fold_left_app. cbn [fold_left]. fold (radix16 0 (hex_digits n (v / 16))).
  rewrite Nat2Z.inj_succ, Z.pow_succ_r in Hv by lia.
  rewrite IH by (split; [apply Z.div_pos; lia|apply Z.div_lt_upper_bound; lia]).
  destruct (hex_char_value (v mod 16)) as [-> _]; [apply Z.mod_pos_bound; lia|].
  pose proof (Z.div_mod v 16). lia.
Qed.

Lemma radix16_bounds s :
  forallb (fun byte => is_ascii_digit byte || is_hex_letter byte) s = true ->
  0 <= radix16 0 s < 16 ^ Z.of_nat (length s)
  /\ hex_digits (length s) (radix16 0 s) = s.
Proof.
  induction s as [|c s IH] using rev_ind; [done|].
  rewrite forallb_app. cbn [forallb]. rewrite andb_true_r. intros [Hs Hc]%andb_true_iff.
  destruct (IH Hs) as [Hb Hd]. destruct (hex_char_of_value c Hc) as [Hv Hch].
  unfold radix16 in *. rewrite fold_left_app, length_app, Nat.add_1_r. cbn [fold_left length].
  rewrite Nat2Z.inj_succ, Z.pow_succ_r by lia. split; [lia|]. cbn [hex_digits].
  set (r := fold_left _ s 0) in *.
  rewrite Z.div_add_l, Z.div_small, Z.add_0_r by lia. rewrite Hd. do 2 f_equal.
  rewrite Z.add_comm, Z.mod_add, Z.mod_small by lia. done.
Qed.

(** Parsing checks every step; within sixteen digits none overflows. *)
Lemma parse_radix16 s acc :
  forallb (fun byte => is_ascii_digit byte || is_hex_letter byte) s = true ->
  0 <= acc -> radix16 acc s <= U64_MAX -> parse_radix16_from acc s = Some (radix16 acc s).
Proof.
  assert (Hge : forall s acc, forallb (fun byte => is_ascii_digit byte || is_hex_letter byte) s = true ->
    0 <= acc -> acc <= radix16 acc s).
  { clear. induction s as [|c s IH]; intros acc; [cbn; lia|]. cbn [forallb].
    intros [Hc Hs]%andb_true_iff Ha. destruct (hex_char_of_value c Hc) as [Hv _].
    specialize (IH (acc * 16 + hex_value c) Hs ltac:(lia)). unfold radix16 in *.
    cbn [fold_left]. lia. }
  revert acc. induction s as [|c s IH]; intros acc; [done|]. cbn [forallb].
  intros [Hc Hs]%andb_true_iff Ha Hb. destruct (hex_char_of_value c Hc) as [Hv _].
  unfold radix16 in *. cbn [parse_radix16_from fold_left] in *.
  pose proof (Hge s (acc * 16 + hex_value c) Hs ltac:(lia)).
  unfold checked_u64. rewrite checked_in by lia. cbn [mbind option_bind].
  rewrite checked_in by lia. cbn [mbind option_bind]. by apply IH; [|lia|].
Qed.

Lemma length_hex_digits n v : length (hex_digits n v) = n.
Proof.
  revert v. induction n as [|n IH]; intros v; cbn; [done|]. rewrite length_app, IH. cbn. lia.
Qed.

Lemma hex_digits_chars n v :
  0 <= v -> forallb (fun byte => is_ascii_digit byte || is_hex_letter byte) (hex_digits n v) = true.
Proof.
  revert v. induction n as [|n IH]; intros v Hv; cbn [hex_digits]; [done|].
  rewrite forallb_app, IH by (apply Z.div_pos; lia). cbn [forallb andb].
  destruct (hex_char_value (v mod 16)) as [_ ->]; [apply Z.mod_pos_bound; lia|done].
Qed.

(** Every hash has one text and every accepted text one hash: writing then
    parsing gives the hash back, and a text that parses is the one its hash is
    written as. *)
Theorem hash_text_roundtrip h s :
  wf h -> parse_hex (to_hex h) = Ok h /\ (parse_hex s = Ok h <-> s = to_hex h).
Proof.
  intros Hh. unfold wf in Hh.
  assert (H16 : 16 ^ Z.of_nat 16 = 18446744073709551616) by reflexivity.
  assert (Hback : parse_hex (to_hex h) = Ok h).
  { unfold parse_hex, to_hex. rewrite length_hex_digits, Nat.eqb_refl, hex_digits_chars by ulia.
    cbn [negb orb]. assert (Hr : radix16 0 (hex_digits 16 (bits h)) = bits h)
      by (apply radix16_hex_digits; rewrite H16; ulia).
    rewrite parse_radix16; [|apply hex_digits_chars; ulia|lia|rewrite Hr; ulia].
    rewrite Hr. by destruct h. }
  split; [done|]. split; [|by intros ->]. unfold parse_hex. intros H.
  destruct (length s =? 16)%nat eqn:El; [|done]. apply Nat.eqb_eq in El.
  destruct (forallb _ s) eqn:Ef; [|done]. cbn [negb orb] in H.
  destruct (radix16_bounds s Ef) as [Hb Hd]. rewrite El, H16 in Hb.
  rewrite parse_radix16 in H; [|done|lia|ulia]. injection H as <-.
  unfold to_hex. cbn [bits]. rewrite <- El. done.
Qed.

Lemma hash_text_roundtrip_witness :
  parse_hex (literal "00000000000000ff") = Ok (mk 255)
  /\ literal "00000000000000ff" = to_hex (mk 255).
Proof.
  assert (H : parse_hex (literal "00000000000000ff") = Ok (mk 255)) by (vm_compute; reflexivity).
  split; [exact H|]. apply (hash_text_roundtrip (mk 255) (literal "00000000000000ff")); [concrete|exact H].
Defined.
End Hex.

(** ** Differences *)

Definition differences (a b : VisualSample.t) : list Z :=
  zip_with (fun x y => Z.abs (x - y)) (VisualSample.blocks a) (VisualSample.blocks b).

Lemma delta_fold p xs ys c m :
  Forall is_u8 xs -> Forall is_u8 ys -> 0 <= c -> c + Z.of_nat (length xs) <= U8_MAX ->
  fold_left
    (fun (acc : Z * Z) (pair : Z * Z) =>
       let difference := Z.abs (pair.1 - pair.2) in
       (if block_threshold p <=? difference then saturating_u8 (acc.1 + 1) else acc.1,
        Z.max acc.2 difference))
    (zip xs ys) (c, m)
  = (c + Z.of_nat (length (filter (fun d => block_threshold p <= d)
                             (zip_with (fun x y => Z.abs (x - y)) xs ys))),
     foldr Z.max m (zip_with (fun x y => Z.abs (x - y)) xs ys)).
Proof.
  intros Hx. revert ys c m. induction Hx as [|x xs Hx Hxs IH]; intros ys c m Hy Hc Hl.
  { cbn. f_equal. lia. }
  destruct Hy as [|y ys Hy Hys]; [cbn; f_equal; lia|]. cbn [length] in Hl.
  cbn [zip_with fold_left fst snd foldr]. rewrite filter_cons.
  destruct (block_threshold p <=? Z.abs (x - y)) eqn:E; bool_prop.
  - rewrite decide_True by done. rewrite IH; [|done|ulia|ulia]. cbn [length]. f_equal; [ulia|].
    clear. induction (zip_with _ xs ys) as [|d l IH]; cbn [foldr]; lia.
  - rewrite decide_False by lia. rewrite IH; [|done|lia|lia]. f_equal.
    clear. induction (zip_with _ xs ys) as [|d l IH]; cbn [foldr]; lia.
Qed.

Lemma delta_spec p a b :
  VisualSample.typed a -> VisualSample.typed b ->
  delta p a b = VisualDelta.mk
    (Z.of_nat (length (filter (fun d => block_threshold p <= d) (differences a b))))
    (foldr Z.max 0 (differences a b)).
Proof.
  intros (_ & Hla & Ha & _) (_ & Hlb & Hb & _). unfold delta.
  rewrite delta_fold; [done|done|done|lia|]. rewrite Hla. unfold VISUAL_BLOCKS. concrete.
Qed.

Lemma max_ge_iff l t : 0 < t -> t <= foldr Z.max 0 l <-> Exists (fun d => t <= d) l.
Proof.
  intros Ht. induction l as [|d l IH]; cbn [foldr].
  - rewrite Exists_nil. lia.
  - rewrite Exists_cons, <- IH. lia.
Qed.

Lemma differences_sym a b : differences a b = differences b a.
Proof.
  unfold differences. generalize (VisualSample.blocks b) as ys.
  induction (VisualSample.blocks a) as [|x xs IH]; intros [|y ys]; cbn; [done..|].
  f_equal; [lia|done].
Qed.

Lemma differences_self a : Forall (fun d => d = 0) (differences a a).
Proof.
  unfold differences. induction (VisualSample.blocks a) as [|x xs IH]; cbn; constructor; [lia|done].
Qed.

Lemma differences_bounds a b :
  VisualSample.typed a -> VisualSample.typed b ->
  Forall (fun d => 0 <= d <= U8_MAX) (differences a b) /\ length (differences a b) = VISUAL_BLOCKS.
Proof.
  intros (_ & Hla & Ha & _) (_ & Hlb & Hb & _). split.
  - apply Forall_lookup. intros i d (x & y & -> & Hx & Hy)%lookup_zip_with_Some.
    rewrite Forall_lookup in Ha, Hb. specialize (Ha _ _ Hx). specialize (Hb _ _ Hy). ulia.
  - unfold differences. rewrite length_zip_with. lia.
Qed.

Lemma filter_two {A} (P : A -> Prop) `{!forall a, Decision (P a)} (l : list A) :
  (2 <= length (filter P l))%nat
  <-> exists i j x y, (i < j)%nat /\ l !! i = Some x /\ l !! j = Some y /\ P x /\ P y.
Proof.
  assert (Hone : forall l : list A, (1 <= length (filter P l))%nat <-> exists j y, l !! j = Some y /\ P y).
  { clear l. intros l. split.
    - intros Hl. destruct (filter P l) as [|y k] eqn:E; [cbn in Hl; lia|].
      assert (Hy : y ∈ filter P l) by (rewrite E; by left).
      apply list_elem_of_filter in Hy as [Hp [j Hj]%list_elem_of_lookup]. by exists j, y.
    - intros (j & y & Hj & Hp). assert (Hy : y ∈ filter P l).
      { apply list_elem_of_filter. split; [done|]. by eapply list_elem_of_lookup_2. }
      destruct (filter P l); [by apply not_elem_of_nil in Hy|cbn; lia]. }
  induction l as [|a l IH].
  { cbn. split; [lia|]. by intros (i & j & x & y & _ & Hi & _). }
  rewrite filter_cons. destruct (decide (P a)) as [Ha|Ha].
  - cbn [length]. split.
    + intros Hl. destruct (proj1 (Hone l) ltac:(lia)) as (j & y & Hj & Hp).
      exists 0%nat, (S j), a, y. split; [lia|done].
    + intros (i & [|j] & x & y & Hij & _ & Hj & _ & Hp); [lia|].
      pose proof (proj2 (Hone l) (ex_intro _ j (ex_intro _ y (conj Hj Hp)))). lia.
  - rewrite IH. split.
    + intros (i & j & x & y & Hij & Hr). exists (S i), (S j), x, y. split; [lia|apply Hr].
    + intros ([|i] & [|j] & x & y & Hij & Hi & Hj & Hx & Hy); [lia| |lia|].
      * cbn in Hi. congruence.
      * exists i, j, x, y. split; [lia|done].
Qed.

(** The comparison of two samples counts exactly the blocks that moved by the
    threshold and finds the largest move; it does not depend on which sample
    comes first, a sample never differs from itself, and a change is two
    different blocks that moved by 4 levels or one that moved by 6. *)
Theorem change_rule_exact a b :
  VisualSample.typed a -> VisualSample.typed b ->
  let d := delta PolicyR0 a b in
  delta PolicyR0 b a = d
  /\ is_change PolicyR0 (delta PolicyR0 a a) = false
  /\ 0 <= VisualDelta.changed_blocks d <= 144
  /\ 0 <= VisualDelta.max_block_delta d <= U8_MAX
  /\ (is_change PolicyR0 d = true <->
        (exists i j x y, (i < j)%nat /\ differences a b !! i = Some x
           /\ differences a b !! j = Some y /\ 4 <= x /\ 4 <= y)
        \/ (exists i x, differences a b !! i = Some x /\ 6 <= x)).
Proof.
  intros Ha Hb d. destruct (differences_bounds a b Ha Hb) as [Hbd Hlen].
  unfold d. rewrite !delta_spec by done. rewrite (differences_sym b a).
  cbn [block_threshold].
  split; [done|]. split; [|split; [|split]].
  - pose proof (differences_self a) as Hz. unfold is_change. cbn [VisualDelta.changed_blocks
      VisualDelta.max_block_delta block_threshold min_changed_blocks single_block_threshold].
    rewrite (filter_none (fun d => 4 <= d))
      by ((eapply Forall_impl; [exact Hz|]); cbn; intros ? ->; lia).
    replace (foldr Z.max 0 (differences a a)) with 0; [done|].
    induction Hz as [|x l -> _ IH]; cbn; lia.
  - cbn [VisualDelta.changed_blocks]. pose proof (length_filter (fun d => 4 <= d) (differences a b)).
    rewrite Hlen in *. cbn [block_threshold] in *. unfold VISUAL_BLOCKS, VISUAL_BLOCK_COLUMNS, VISUAL_BLOCK_ROWS in *. lia.
  - cbn [VisualDelta.max_block_delta]. clear -Hbd. induction Hbd; cbn [foldr]; ulia.
  - unfold is_change. cbn [VisualDelta.changed_blocks VisualDelta.max_block_delta
      block_threshold min_changed_blocks single_block_threshold].
    rewrite orb_true_iff, !Z.leb_le, max_ge_iff by lia.
    rewrite <- (filter_two (fun d => 4 <= d)), Exists_exists.
    setoid_rewrite list_elem_of_lookup. split; (intros [H|H]; [left; lia|right]); naive_solver.
Qed.

Lemma change_rule_exact_witness :
  let a := VisualSample.from_parts 0 (replicate 144 10) (VisualHash.mk 0) in
  let b := VisualSample.from_parts 1 (replicate 143 10 ++ [16]) (VisualHash.mk 0) in
  is_change PolicyR0 (delta PolicyR0 a b) = true /\ delta PolicyR0 b a = delta PolicyR0 a b.
Proof.
  assert (Hr : forall n, Forall is_u8 (replicate n 10)) by (intros n; apply Forall_replicate; concrete).
  split; [vm_compute; reflexivity|].
  apply (change_rule_exact (VisualSample.from_parts 0 (replicate 144 10) (VisualHash.mk 0))
    (VisualSample.from_parts 1 (replicate 143 10 ++ [16]) (VisualHash.mk 0))).
  - split; [concrete|]. split; [reflexivity|]. split; [apply Hr|concrete].
  - split; [concrete|]. split; [reflexivity|]. split; [|concrete].
    apply Forall_app. split; [apply Hr|]. repeat constructor; concrete.
Defined.
