(* ===== verification/VisualWindow.v ===== *)
(** * VisualWindow: the fixed grid of windows and coverage cells

    Models [VisualWindow] and [visual_window_count] of
    [crates/vsift-domain/src/visual.rs]. *)

From S2P Require Import Prelude.
From S2P Require Import Timeline.
From S2P Require Import VisualSample.

Definition VISUAL_WINDOW_MICROS : Z := 60000000.
Definition VISUAL_CELL_MICROS : Z := 10000000.
Definition VISUAL_SAMPLE_INTERVAL_MICROS : Z := 500000.
Definition VISUAL_LEAD_IN_MICROS : Z := 500000.
Definition MAX_WINDOW_SAMPLES : nat := 122.
Definition MAX_WINDOW_CANDIDATES : nat := 32.
Definition MAX_VISUAL_INDEX_DURATION_MICROS : Z := 4 * 60 * 60 * 1000000.

Definition visual_window_count (duration : MediaTime) : Z :=
  default U32_MAX (checked_u32 (div_ceil duration VISUAL_WINDOW_MICROS)).

(** [contains] of the analysis, on instants of a range. *)
Definition contains (range : TimeRange.t) (time : MediaTime) : bool :=
  (TimeRange.start range <=? time) && (time <? TimeRange.end_ range).

Module VisualWindow.
Record t := mk { ordinal : Z; range : TimeRange.t }.

#[global] Instance eq_dec : EqDecision t.
Proof. solve_decision. Defined.

Definition new (ordinal : Z) (duration : MediaTime) : result t VisualIndexError :=
  if (duration =? 0) || (MAX_VISUAL_INDEX_DURATION_MICROS <? duration) then Err InvalidDuration
  else
    let? start := ok_or (checked_u64 (ordinal * VISUAL_WINDOW_MICROS)) InvalidWindow in
    let end_ := Z.min (saturating_u64 (start + VISUAL_WINDOW_MICROS)) duration in
    let? range := map_err (fun _ => InvalidWindow) (TimeRange.new start end_) in
    Ok (mk ordinal range).

Definition lead_in_start (w : t) : MediaTime :=
  saturating_u64 (TimeRange.start (range w) - VISUAL_LEAD_IN_MICROS).

(** The [while start < end] of [cells]. *)
Fixpoint cells_from (fuel : nat) (start end_ : Z) : list TimeRange.t :=
  match fuel with
  | O => []
  | S fuel' =>
      if start <? end_ then
        let cell_end := Z.min (saturating_u64 (start + VISUAL_CELL_MICROS)) end_ in
        match TimeRange.new start cell_end with
        | Ok cell => [cell]
        | Err _ => []
        end ++ cells_from fuel' cell_end end_
      else []
  end.

(** One turn per started cell is enough. *)
Definition cells (w : t) : list TimeRange.t :=
  let start := TimeRange.start (range w) in
  let end_ := TimeRange.end_ (range w) in
  cells_from (Z.to_nat (div_ceil (end_ - start) VISUAL_CELL_MICROS)) start end_.

(** A window of the grid of some source. *)
Definition on_grid (w : t) : Prop :=
  exists duration, is_u64 duration /\ new (ordinal w) duration = Ok w.
End VisualWindow.

(** [tiles lo hi l]: the ranges of [l] follow one another from [lo] to [hi]
    without a gap or an overlap. *)
Fixpoint tiles (lo hi : Z) (l : list TimeRange.t) : Prop :=
  match l with
  | [] => lo = hi
  | r :: rest => TimeRange.start r = lo /\ lo < TimeRange.end_ r /\ tiles (TimeRange.end_ r) hi rest
  end.

Lemma contains_spec r x : contains r x = true <-> TimeRange.start r <= x < TimeRange.end_ r.
Proof. unfold contains. rewrite andb_true_iff, Z.leb_le, Z.ltb_lt. lia. Qed.

Lemma tiles_le lo hi l : tiles lo hi l -> lo <= hi.
Proof.
  revert lo. induction l as [|r l IH]; intros lo; cbn; [lia|].
  intros (_ & H & Ht). apply IH in Ht. lia.
Qed.

(** The ranges that tile a stretch hold each of its instants exactly once. *)
Lemma tiles_unique lo hi l x :
  tiles lo hi l -> lo <= x < hi ->
  exists k r, l !! k = Some r /\ contains r x = true
    /\ forall k' r', l !! k' = Some r' -> contains r' x = true -> k' = k.
Proof.
  revert lo. induction l as [|r l IH]; intros lo Ht Hx; cbn in Ht; [lia|].
  destruct Ht as (Hs & Hlt & Ht). pose proof (tiles_le _ _ _ Ht).
  assert (Hrest : forall k' r', l !! k' = Some r' -> TimeRange.end_ r <= TimeRange.start r').
  { clear -Ht. revert Ht. generalize (TimeRange.end_ r) as lo. induction l as [|r0 l IH]; [done|].
    intros lo (Hs & Hlt & Ht) [|k'] r' Hk; cbn in Hk; [injection Hk as ->; lia|].
    specialize (IH _ Ht _ _ Hk). lia. }
  destruct (decide (x < TimeRange.end_ r)) as [Hlo|Hge].
  - exists 0%nat, r. split; [done|]. split; [apply contains_spec; lia|].
    intros [|k'] r' Hk Hc; [done|]. cbn in Hk. specialize (Hrest _ _ Hk).
    apply contains_spec in Hc. lia.
  - destruct (IH _ Ht ltac:(lia)) as (k & r0 & Hk & Hc & Hu). exists (S k), r0.
    split; [done|]. split; [done|]. intros [|k'] r' Hk' Hc'; cbn in Hk'.
    + injection Hk' as ->. apply contains_spec in Hc'. lia.
    + f_equal. by eapply Hu.
Qed.

Lemma tiles_within lo hi l r : tiles lo hi l -> r ∈ l ->
  lo <= TimeRange.start r /\ TimeRange.start r < TimeRange.end_ r /\ TimeRange.end_ r <= hi.
Proof.
  intros Ht Hr. revert lo Ht. induction Hr as [r l|r r0 l _ IH]; intros lo (Hs & Hlt & Ht).
  - pose proof (tiles_le _ _ _ Ht). lia.
  - specialize (IH _ Ht). lia.
Qed.

Section Grid.
Import VisualWindow.

(** What [new] accepts, and the window it makes. *)
Lemma window_new_spec o d w :
  0 <= o -> is_u64 d ->
  new o d = Ok w <->
    0 < d <= MAX_VISUAL_INDEX_DURATION_MICROS /\ o * VISUAL_WINDOW_MICROS < d
    /\ w = mk o (TimeRange.mk (o * VISUAL_WINDOW_MICROS)
                   (Z.min ((o + 1) * VISUAL_WINDOW_MICROS) d)).
Proof.
  intros Ho Hd. unfold new, MAX_VISUAL_INDEX_DURATION_MICROS, VISUAL_WINDOW_MICROS.
  destruct ((d =? 0) || _) eqn:E.
  { split; [done|]. intros (? & ? & _). exfalso. apply orb_true_iff in E. destruct E; bool_prop; lia. }
  bool_prop. destruct (checked_u64 _) as [start|] eqn:Es.
  - apply checked_Some in Es as [-> Hs]. cbn [ok_or result_bind].
    assert (Hend : Z.min (saturating_u64 (o * 60000000 + 60000000)) d = Z.min ((o + 1) * 60000000) d)
      by ulia.
    rewrite Hend. unfold TimeRange.new. destruct (_ <=? o * 60000000) eqn:E2; bool_prop;
      cbn [map_err result_bind].
    + split; [done|]. intros (? & ? & _). exfalso. ulia.
    + split; [|by intros (_ & _ & ->)]. intros [= <-]. split; [lia|]. split; [lia|done].
  - apply checked_None in Es. cbn. split; [done|]. intros (? & ? & _). exfalso. ulia.
Qed.

Lemma on_grid_spec w :
  0 <= ordinal w -> on_grid w ->
  TimeRange.start (range w) = ordinal w * VISUAL_WINDOW_MICROS
  /\ 0 <= TimeRange.start (range w) < TimeRange.end_ (range w)
  /\ TimeRange.end_ (range w) <= TimeRange.start (range w) + VISUAL_WINDOW_MICROS
  /\ TimeRange.end_ (range w) <= MAX_VISUAL_INDEX_DURATION_MICROS.
Proof.
  intros Ho (d & Hd & Hnew). apply window_new_spec in Hnew as (H1 & H2 & Hw); [|done|done].
  rewrite Hw. cbn [range TimeRange.start TimeRange.end_ ordinal].
  unfold MAX_VISUAL_INDEX_DURATION_MICROS, VISUAL_WINDOW_MICROS in *. lia.
Qed.

Lemma div_ceil_step a b : 0 < b -> 0 < a -> div_ceil a b = div_ceil (Z.max 0 (a - b)) b + 1.
Proof.
  intros Hb Ha. assert (Hq : forall q, div_ceil a b <= q <-> div_ceil (Z.max 0 (a - b)) b <= q - 1).
  { intros q. rewrite !div_ceil_spec by done.
    destruct (decide (a <= b)) as [|]; [|nia]. rewrite Z.max_l by lia.
    split; intros; [assert (0 < q) by nia; nia|nia]. }
  pose proof (proj1 (Hq (div_ceil a b))).
  pose proof (proj2 (Hq (div_ceil (Z.max 0 (a - b)) b + 1))). lia.
Qed.

Lemma div_ceil_0 b : 0 < b -> div_ceil 0 b = 0.
Proof. intros Hb. unfold div_ceil. by rewrite Z.mod_0_l, Z.div_0_l by lia. Qed.

(** The loop tiles the window with cells of ten seconds, the last perhaps
    shorter; [div_ceil] turns are exactly enough. *)
Lemma cells_from_spec fuel start end_ :
  0 <= start -> start <= end_ -> end_ + VISUAL_CELL_MICROS <= U64_MAX ->
  Z.of_nat fuel = div_ceil (end_ - start) VISUAL_CELL_MICROS ->
  tiles start end_ (cells_from fuel start end_)
  /\ length (cells_from fuel start end_) = fuel
  /\ forall k c, cells_from fuel start end_ !! k = Some c ->
       TimeRange.start c = start + Z.of_nat k * VISUAL_CELL_MICROS
       /\ TimeRange.end_ c = Z.min (TimeRange.start c + VISUAL_CELL_MICROS) end_.
Proof.
  unfold VISUAL_CELL_MICROS. revert start. induction fuel as [|fuel IH]; intros start H0 Hle Hmax Hf.
  { assert (start = end_) as ->.
    { destruct (decide (start = end_)) as [|Hne]; [done|].
      rewrite (div_ceil_step (end_ - start)) in Hf by lia.
      assert (0 <= div_ceil (Z.max 0 (end_ - start - 10000000)) 10000000).
      { unfold div_ceil. destruct (_ =? 0); [apply Z.div_pos; lia|].
        assert (0 <= Z.max 0 (end_ - start - 10000000) / 10000000) by (apply Z.div_pos; lia). lia. }
      lia. }
    cbn. split; [done|]. split; [done|]. by intros k c Hk. }
  cbn [cells_from]. destruct (start <? end_) eqn:E; bool_prop.
  2: { replace (end_ - start) with 0 in Hf by lia. rewrite div_ceil_0 in Hf by lia. lia. }
  unfold VISUAL_CELL_MICROS. set (cell_end := Z.min (saturating_u64 (start + 10000000)) end_).
  assert (Hce : cell_end = Z.min (start + 10000000) end_) by (unfold cell_end; ulia).
  unfold TimeRange.new. rewrite (proj2 (Z.leb_gt cell_end start)) by lia. cbn [app].
  destruct (IH cell_end) as (HA & HB & HC); [lia|lia|lia| |].
  { rewrite (div_ceil_step (end_ - start)) in Hf by lia.
    replace (Z.max 0 (end_ - start - 10000000)) with (end_ - cell_end) in Hf by lia. lia. }
  split; [|split].
  - cbn [tiles TimeRange.start TimeRange.end_]. split; [done|]. split; [lia|done].
  - cbn [length]. by rewrite HB.
  - intros [|k] c Hk; cbn in Hk.
    + injection Hk as <-. cbn [TimeRange.start TimeRange.end_]. lia.
    + destruct (HC _ _ Hk) as [HC1 HC2]. split; [|done].
      assert (cell_end = start + 10000000).
      { destruct (decide (start + 10000000 <= end_)); [lia|]. exfalso.
        assert (cell_end = end_) by lia. rewrite H in HA.
        assert (Hc : c ∈ cells_from fuel end_ end_)
          by (rewrite <- H at 1; by eapply list_elem_of_lookup_2).
        apply (tiles_within _ _ _ _ HA) in Hc. lia. }
      lia.
Qed.

Lemma cells_spec w :
  0 <= ordinal w -> on_grid w ->
  tiles (TimeRange.start (range w)) (TimeRange.end_ (range w)) (cells w)
  /\ (length (cells w) <= 6)%nat
  /\ forall k c, cells w !! k = Some c ->
       TimeRange.start c = TimeRange.start (range w) + Z.of_nat k * VISUAL_CELL_MICROS
       /\ TimeRange.end_ c = Z.min (TimeRange.start c + VISUAL_CELL_MICROS) (TimeRange.end_ (range w)).
Proof.
  intros Ho Hg. destruct (on_grid_spec w Ho Hg) as (H1 & H2 & H3 & H4).
  unfold cells. set (s := TimeRange.start (range w)) in *. set (e := TimeRange.end_ (range w)) in *.
  assert (Hq : 0 <= div_ceil (e - s) VISUAL_CELL_MICROS <= 6).
  { split; [|apply div_ceil_spec; [concrete|unfold VISUAL_CELL_MICROS, VISUAL_WINDOW_MICROS in *; lia]].
    unfold div_ceil, VISUAL_CELL_MICROS. assert (0 <= (e - s) / 10000000) by (apply Z.div_pos; lia).
    destruct (_ =? 0); lia. }
  destruct (cells_from_spec (Z.to_nat (div_ceil (e - s) VISUAL_CELL_MICROS)) s e)
    as (HA & HB & HC); [lia|lia| |lia|].
  { unfold MAX_VISUAL_INDEX_DURATION_MICROS, VISUAL_CELL_MICROS in *. ulia. }
  split; [done|]. split; [rewrite HB; lia|done].
Qed.

Lemma window_count_exact d o :
  is_u64 d -> d <= MAX_VISUAL_INDEX_DURATION_MICROS -> 0 <= o ->
  o < visual_window_count d <-> o * VISUAL_WINDOW_MICROS < d.
Proof.
  intros Hd Hm Ho. unfold visual_window_count, MAX_VISUAL_INDEX_DURATION_MICROS in *.
  assert (Hq : 0 <= div_ceil d VISUAL_WINDOW_MICROS <= U32_MAX).
  { split; [|apply div_ceil_spec; [concrete|unfold VISUAL_WINDOW_MICROS; ulia]].
    unfold div_ceil, VISUAL_WINDOW_MICROS. assert (0 <= d / 60000000) by (apply Z.div_pos; ulia).
    destruct (_ =? 0); lia. }
  unfold checked_u32. rewrite checked_in by done. cbn [default]. unfold id.
  pose proof (div_ceil_spec d VISUAL_WINDOW_MICROS o ltac:(concrete)). lia.
Qed.

(** The grid of a source: a window exists exactly for the ordinals below the
    count; every instant of the source lies in the one window whose ordinal
    is the instant over sixty seconds, and in one of that window's at most
    six cells, which start on multiples of ten seconds of the source.
    Claim C39. *)
Theorem visual_grid_tiles duration time :
  is_u64 duration -> 0 < duration <= MAX_VISUAL_INDEX_DURATION_MICROS ->
  (forall o, is_u32 o -> (exists w, new o duration = Ok w) <-> o < visual_window_count duration)
  /\ (0 <= time < duration ->
      exists w k cell, new (time / VISUAL_WINDOW_MICROS) duration = Ok w
        /\ contains (range w) time = true
        /\ (forall o w', is_u32 o -> new o duration = Ok w' -> contains (range w') time = true ->
                         w' = w)
        /\ cells w !! k = Some cell /\ contains cell time = true
        /\ (forall k' cell', cells w !! k' = Some cell' -> contains cell' time = true -> k' = k)
        /\ (length (cells w) <= 6)%nat
        /\ TimeRange.start cell = time / VISUAL_CELL_MICROS * VISUAL_CELL_MICROS).
Proof.
  intros Hd Hm. split.
  - intros o Ho. rewrite window_count_exact by (done || ulia). split.
    + intros [w Hw]. apply window_new_spec in Hw; [tauto|ulia|done].
    + intros Hlt. eexists. apply window_new_spec; [ulia|done|]. split; [done|]. split; [done|].
      reflexivity.
  - intros Ht. set (o := time / VISUAL_WINDOW_MICROS).
    assert (Ho : 0 <= o /\ o * VISUAL_WINDOW_MICROS <= time < (o + 1) * VISUAL_WINDOW_MICROS)
      by (unfold o, VISUAL_WINDOW_MICROS; divlia).
    eexists (mk o _). assert (Hnew : new o duration = Ok (mk o (TimeRange.mk (o * VISUAL_WINDOW_MICROS)
      (Z.min ((o + 1) * VISUAL_WINDOW_MICROS) duration)))).
    { apply window_new_spec; [lia|done|]. split; [done|]. split; [lia|done]. }
    set (w := mk o _) in *.
    assert (Hg : on_grid w) by (by exists duration).
    destruct (cells_spec w ltac:(cbn; lia) Hg) as (HT & HL & HC).
    assert (Hin : contains (range w) time = true) by (apply contains_spec; cbn; lia).
    destruct (tiles_unique _ _ _ time HT) as (k & cell & Hk & Hc & Hu); [cbn; lia|].
    exists k, cell. split; [exact Hnew|]. split; [done|]. split; [|split; [done|split; [done|split; [done|]]]].
    + intros o' w' Ho' Hnew' Hc'. apply window_new_spec in Hnew' as (_ & _ & ->); [|ulia|done].
      apply contains_spec in Hc'. cbn in Hc'. unfold VISUAL_WINDOW_MICROS in *.
      assert (o' = o) as -> by lia. done.
    + destruct (HC _ _ Hk) as [Hst Hen]. apply lookup_lt_Some in Hk.
      split; [exact HL|]. apply contains_spec in Hc.
      assert (Hso : TimeRange.start cell = (o * 6 + Z.of_nat k) * VISUAL_CELL_MICROS)
        by (rewrite Hst; cbn; unfold VISUAL_CELL_MICROS, VISUAL_WINDOW_MICROS; lia).
      assert (Hsc : TimeRange.start cell <= time < TimeRange.start cell + VISUAL_CELL_MICROS) by lia.
      rewrite Hso in *. unfold VISUAL_CELL_MICROS in *. clear -Hsc. divlia.
Qed.

Lemma visual_grid_tiles_witness :
  visual_window_count 125000000 = 3
  /\ exists w k cell, new (61000000 / VISUAL_WINDOW_MICROS) 125000000 = Ok w
       /\ cells w !! k = Some cell /\ contains cell 61000000 = true.
Proof.
  split; [reflexivity|].
  destruct (visual_grid_tiles 125000000 61000000) as [_ H]; [concrete|concrete|].
  destruct H as (w & k & cell & H1 & _ & _ & H2 & H3 & _); [concrete|].
  exists w, k, cell. split; [exact H1|]. split; [exact H2|exact H3].
Defined.
End Grid.
