(* ===== verification/VisualAnalysis.v ===== *)
(** * VisualAnalysis: from one window's samples to its candidates

    Models [analyse_window] of [crates/vsift-domain/src/visual.rs] and
    everything it calls: screen states, motion, stability, the candidate
    budget and coverage. An index out of range never occurs where the code
    indexes through [get]: the same [get] is written here. *)

From stdpp Require Import list.
From S2P Require Import Prelude.
From S2P Require Import Timeline.
From S2P Require Import VisualSample.
From S2P Require Import VisualWindow.

(** ** Candidates *)

Module CandidateReason.
Inductive t := FirstFrame | VisualChange | MotionStart | SettledAfterMotion | PeriodicCoverage.

Definition ALL : list t :=
  [FirstFrame; VisualChange; MotionStart; SettledAfterMotion; PeriodicCoverage].

Definition identifier (r : t) : string :=
  match r with
  | FirstFrame => "first_frame"
  | VisualChange => "visual_change"
  | MotionStart => "motion_start"
  | SettledAfterMotion => "settled_after_motion"
  | PeriodicCoverage => "periodic_coverage"
  end.

Definition has_change (r : t) : bool :=
  match r with VisualChange | MotionStart | SettledAfterMotion => true | _ => false end.

#[global] Instance eq_dec : EqDecision t.
Proof. solve_decision. Defined.
End CandidateReason.

Module CandidateStability.
Inductive t := Settled | Transient | InMotion | OpenAtWindowEnd.

Definition ALL : list t := [Settled; Transient; InMotion; OpenAtWindowEnd].

Definition identifier (s : t) : string :=
  match s with
  | Settled => "settled"
  | Transient => "transient"
  | InMotion => "in_motion"
  | OpenAtWindowEnd => "open_at_window_end"
  end.

#[global] Instance eq_dec : EqDecision t.
Proof. solve_decision. Defined.
End CandidateStability.

Module CandidateChange.
Record t := mk { previous_sample : MediaTime; delta : VisualDelta.t }.
End CandidateChange.

Module CandidateDraft.
Record t := mk {
  reason : CandidateReason.t;
  representative : MediaTime;
  span : TimeRange.t;
  sample_count : Z;
  stability : CandidateStability.t;
  change : option CandidateChange.t;
  hash : VisualHash.t
}.
End CandidateDraft.

Inductive VisualAnalysisError := TooManySamples | SampleOutsideWindow | UnorderedSamples.

Module WindowAnalysis.
Record t := mk {
  window : VisualWindow.t;
  sample_count : Z;
  candidates : list CandidateDraft.t;
  dropped_candidates : Z;
  frameless_cells : list TimeRange.t
}.
End WindowAnalysis.

Module State.
Record t := mk {
  start : nat;
  reason : CandidateReason.t;
  change : option CandidateChange.t;
  motion : bool
}.
End State.

(** ** Validation *)

Fixpoint validate_from (lead_start end_ : MediaTime) (previous : option MediaTime)
    (samples : list VisualSample.t) : result unit VisualAnalysisError :=
  match samples with
  | [] => Ok tt
  | s :: rest =>
      let time := VisualSample.time s in
      if (time <? lead_start) || (end_ <=? time) then Err SampleOutsideWindow
      else if match previous with Some p => time <=? p | None => false end
           then Err UnorderedSamples
      else validate_from lead_start end_ (Some time) rest
  end.

Definition validate_samples (window : VisualWindow.t) (samples : list VisualSample.t)
    : result unit VisualAnalysisError :=
  if (MAX_WINDOW_SAMPLES <? length samples)%nat then Err TooManySamples
  else validate_from (VisualWindow.lead_in_start window)
         (TimeRange.end_ (VisualWindow.range window)) None samples.

(** ** States *)

(** The reason and the change a boundary opens a state with. *)
Definition boundary : Type := CandidateReason.t * option CandidateChange.t.

Definition boundary_at (policy : VisualChangePolicy) (index : nat)
    (previous anchor : option VisualSample.t) (sample : VisualSample.t) : option boundary :=
  let previous_delta := (fun before => (before, delta policy before sample)) <$> previous in
  let change (before : VisualSample.t) (d : VisualDelta.t) :=
    Some (CandidateReason.VisualChange,
          Some (CandidateChange.mk (VisualSample.time before) d)) in
  match index, previous_delta, anchor with
  | O, None, _ => Some (CandidateReason.FirstFrame, None)
  | O, Some (before, d), _ =>
      if is_change policy d then change before d
      else Some (CandidateReason.PeriodicCoverage, None)
  | S _, Some (before, d), Some anchor_sample =>
      let anchor_delta := delta policy anchor_sample sample in
      if is_change policy d then change before d
      else if is_change policy anchor_delta then change before anchor_delta
      else None
  | _, _, _ => None
  end.

Definition is_moving (policy : VisualChangePolicy) (previous : option VisualSample.t)
    (sample : VisualSample.t) : bool :=
  match previous with
  | Some before => is_change policy (delta policy before sample)
  | None => false
  end.

(** The first loop of [find_states]: each sample's boundary, and whether it
    differs from the sample before it. *)
Fixpoint scan (policy : VisualChangePolicy) (index : nat) (previous anchor : option VisualSample.t)
    (body : list VisualSample.t) : list (option boundary * bool) :=
  match body with
  | [] => []
  | sample :: rest =>
      let b := boundary_at policy index previous anchor sample in
      let anchor' := match b with Some _ => Some sample | None => anchor end in
      (b, is_moving policy previous sample) :: scan policy (S index) (Some sample) anchor' rest
  end.

(** [boundaries.iter_mut().take(hi).skip(lo)], each set to [None]. *)
Definition clear_range (lo hi : nat) (bs : list (option boundary)) : list (option boundary) :=
  imap (fun i b => if ((lo <=? i) && (i <? hi))%nat then None else b) bs.

(** [if let Some(Some(b)) = boundaries.get_mut(i) { b.0 = reason }] *)
Definition set_reason (i : nat) (reason : CandidateReason.t) (bs : list (option boundary))
    : list (option boundary) :=
  alter (fun b => (fun b0 : boundary => (reason, b0.2)) <$> b) i bs.

(** What one finished run of moving samples [start..=end_] does. *)
Definition close_run (body_len start end_ : nat)
    (st : list (option boundary) * list nat) : list (option boundary) * list nat :=
  if (3 <=? end_ - start + 1)%nat then
    let settles := (end_ + 1 <? body_len)%nat in
    let last_motion := if settles then end_ else (end_ + 1)%nat in
    let bs := clear_range (start + 1) last_motion st.1 in
    let bs := set_reason start CandidateReason.MotionStart bs in
    let bs := if settles then set_reason end_ CandidateReason.SettledAfterMotion bs else bs in
    (bs, st.2 ++ [start])
  else st.

(** The second loop of [find_states], over the indices [0..=body.len()]. *)
Fixpoint motion_loop (moving : list bool) (body_len : nat) (indices : list nat)
    (run_start : option nat) (st : list (option boundary) * list nat)
    : list (option boundary) * list nat :=
  match indices with
  | [] => st
  | index :: rest =>
      match default false (moving !! index), run_start with
      | true, None => motion_loop moving body_len rest (Some index) st
      | false, Some start =>
          motion_loop moving body_len rest None (close_run body_len start (index - 1) st)
      | _, _ => motion_loop moving body_len rest run_start st
      end
  end.

Definition states_of (bs : list (option boundary)) (motion_starts : list nat) : list State.t :=
  omap (fun item : nat * option boundary =>
          (fun b : boundary =>
             State.mk item.1 b.1 b.2 (bool_decide (item.1 ∈ motion_starts))) <$> item.2)
    (enumerate bs).

Definition find_states (lead : option VisualSample.t) (body : list VisualSample.t)
    (policy : VisualChangePolicy) : list State.t :=
  let scanned := scan policy 0 lead None body in
  let '(bs, motion_starts) :=
    motion_loop (snd <$> scanned) (length body) (seq 0 (S (length body))) None
      (fst <$> scanned, []) in
  states_of bs motion_starts.

(** ** Stability, coverage and the budget *)

Definition stability_of (states : list State.t) (position body_len : nat)
    : CandidateStability.t :=
  match states !! position with
  | None => CandidateStability.Settled
  | Some state =>
      if State.motion state then CandidateStability.InMotion
      else
        let next := match states !! S position with
                    | Some next => State.start next
                    | None => body_len
                    end in
        match (next - State.start state)%nat, bool_decide (S position = length states) with
        | 1%nat, true => CandidateStability.OpenAtWindowEnd
        | 1%nat, false => CandidateStability.Transient
        | _, _ => CandidateStability.Settled
        end
  end.

Definition sample_in (body : list VisualSample.t) (cell : TimeRange.t) (index : nat) : bool :=
  match body !! index with
  | Some sample => contains cell (VisualSample.time sample)
  | None => false
  end.

(** The first sample of each cell, by index. *)
Definition first_in_cells (cells : list TimeRange.t) (body : list VisualSample.t)
    : list (option nat) :=
  (fun cell => fst <$> list_find (fun s => contains cell (VisualSample.time s) = true) body)
    <$> cells.

Definition uncovered_cells (kept : list nat) (states : list State.t) (body : list VisualSample.t)
    (cells : list TimeRange.t) (first_in_cell : list (option nat)) : nat :=
  length (filter
    (fun item : TimeRange.t * option nat =>
       is_Some item.2
       /\ existsb (fun position =>
                     match states !! position with
                     | Some state => sample_in body item.1 (State.start state)
                     | None => false
                     end) kept = false)
    (zip cells first_in_cell)).

(** The sort key of a state: the size of the change that opened it. *)
Definition score (states : list State.t) (position : nat) : option VisualDelta.t :=
  state ← states !! position; change ← State.change state; Some (CandidateChange.delta change).

(** Strictly greater in the derived order of [Option<VisualDelta>]. *)
Definition score_gt (a b : option VisualDelta.t) : bool :=
  match a, b with
  | Some x, Some y => VisualDelta.ltb y x
  | Some _, None => true
  | None, _ => false
  end.

(** The comparator of [sort_by]: higher scores first, ties to the earlier
    position. *)
Definition score_le (states : list State.t) (l r : nat) : Prop :=
  score_gt (score states l) (score states r) = true
  \/ (score_gt (score states r) (score states l) = false /\ (l <= r)%nat).

#[export] Instance score_le_dec states : RelDecision (score_le states).
Proof. intros l r. unfold score_le. apply _. Defined.

(** The greedy pass: a position is pushed, and popped again when the kept
    states and the coverage they still need pass the budget. *)
Definition keep_greedily (states : list State.t) (body : list VisualSample.t)
    (cells : list TimeRange.t) (first_in_cell : list (option nat)) (kept : list nat)
    (optional : list nat) : list nat :=
  fold_left
    (fun kept position =>
       let pushed := kept ++ [position] in
       if (MAX_WINDOW_CANDIDATES
           <? length pushed + uncovered_cells pushed states body cells first_in_cell)%nat
       then kept else pushed)
    optional kept.

Definition apply_budget (states : list State.t) (body : list VisualSample.t)
    (cells : list TimeRange.t) (first_in_cell : list (option nat)) : list nat * nat :=
  let all := seq 0 (length states) in
  if (length all + uncovered_cells all states body cells first_in_cell
      <=? MAX_WINDOW_CANDIDATES)%nat
  then (all, 0%nat)
  else
    let optional := stable_sort (score_le states) (seq 1 (length states - 1)) in
    let kept := merge_sort le (keep_greedily states body cells first_in_cell [0%nat] optional) in
    (kept, (length states - length kept)%nat).

(** ** Candidates of a window *)

(** Sample index, reason, change and stability of a candidate. *)
Module Opening.
Record t := mk {
  index : nat;
  reason : CandidateReason.t;
  change : option CandidateChange.t;
  stability : CandidateStability.t
}.

Definition le (a b : t) : Prop := (index a <= index b)%nat.

#[global] Instance le_dec : RelDecision le.
Proof. intros a b. unfold le. apply _. Defined.
End Opening.

(** [states.iter().rposition(|state| state.start <= first)] *)
Definition containing_state (states : list State.t) (first : nat) : option nat :=
  last (filter (fun position => match states !! position with
                                | Some state => (State.start state <=? first)%nat
                                | None => false
                                end = true) (seq 0 (length states))).

Definition kept_openings (states : list State.t) (kept : list nat) (body_len : nat)
    : list Opening.t :=
  omap (fun position =>
          (fun state => Opening.mk (State.start state) (State.reason state) (State.change state)
                          (stability_of states position body_len)) <$> states !! position) kept.

Definition add_coverage (states : list State.t) (body : list VisualSample.t)
    (starts : list Opening.t) (item : TimeRange.t * option nat) : list Opening.t :=
  match item.2 with
  | None => starts
  | Some first =>
      if existsb (fun o => sample_in body item.1 (Opening.index o)) starts then starts
      else
        let stability := match containing_state states first with
                         | Some position => stability_of states position (length body)
                         | None => CandidateStability.Settled
                         end in
        starts ++ [Opening.mk first CandidateReason.PeriodicCoverage None stability]
  end.

(** The candidate one opening starts, up to the next opening. *)
Definition draft_at (body : list VisualSample.t) (window_end : MediaTime)
    (starts : list Opening.t) (position : nat) : option CandidateDraft.t :=
  o ← starts !! position;
  sample ← body !! Opening.index o;
  let '(end_, next_start) :=
    match starts !! S position with
    | None => (window_end, length body)
    | Some next =>
        (match body !! Opening.index next with
         | Some s => VisualSample.time s
         | None => window_end
         end, Opening.index next)
    end in
  span ← result_ok (TimeRange.new (VisualSample.time sample) end_);
  Some (CandidateDraft.mk (Opening.reason o) (VisualSample.time sample) span
          (default U16_MAX (checked_u16 (Z.of_nat (next_start - Opening.index o))))
          (Opening.stability o) (Opening.change o) (VisualSample.hash sample)).

Definition build_candidates (states : list State.t) (kept : list nat)
    (body : list VisualSample.t) (window : VisualWindow.t) (cells : list TimeRange.t)
    (first_in_cell : list (option nat)) : list CandidateDraft.t :=
  let starts := fold_left (add_coverage states body) (zip cells first_in_cell)
                  (kept_openings states kept (length body)) in
  let starts := stable_sort Opening.le starts in
  omap (draft_at body (TimeRange.end_ (VisualWindow.range window)) starts)
    (seq 0 (length starts)).

Definition analyse_window (window : VisualWindow.t) (samples : list VisualSample.t)
    (policy : VisualChangePolicy) : result WindowAnalysis.t VisualAnalysisError :=
  let? _ := validate_samples window samples in
  let split := partition_point
    (fun s => VisualSample.time s <? TimeRange.start (VisualWindow.range window)) samples in
  let lead := match split with O => None | S index => samples !! index end in
  let body := drop split samples in
  let cells := VisualWindow.cells window in
  let? sample_count := ok_or (checked_u16 (Z.of_nat (length body))) TooManySamples in
  match body with
  | [] => Ok (WindowAnalysis.mk window sample_count [] 0 cells)
  | _ :: _ =>
      let states := find_states lead body policy in
      let first_in_cell := first_in_cells cells body in
      let '(kept, dropped) := apply_budget states body cells first_in_cell in
      let candidates := build_candidates states kept body window cells first_in_cell in
      let frameless_cells :=
        fst <$> filter (fun item : TimeRange.t * option nat => item.2 = None)
                  (zip cells first_in_cell) in
      Ok (WindowAnalysis.mk window sample_count candidates
            (default U16_MAX (checked_u16 (Z.of_nat dropped))) frameless_cells)
  end.
