(* ===== verification/VisualStates.v ===== *)
(** * VisualStates: facts on the screen states of a window

    What [find_states] of [VisualAnalysis] guarantees: the first sample opens
    a state, each change was seen between two neighbouring samples and
    satisfies the policy, and of four consecutive samples at least one opens
    no state, because motion is collapsed. *)

From S2P Require Import Prelude.
From S2P Require Import Timeline.
From S2P Require Import VisualSample.
From S2P Require Import VisualWindow.
From S2P Require Import VisualAnalysis.

Section Scan.
Context (policy : VisualChangePolicy).

(** The change a boundary at a sample after [previous] records. *)
Definition change_after (previous : VisualSample.t) (c : option CandidateChange.t) : Prop :=
  exists d, c = Some (CandidateChange.mk (VisualSample.time previous) d)
    /\ is_change policy d = true.

Lemma length_scan index previous anchor body :
  length (scan policy index previous anchor body) = length body.
Proof.
  revert index previous anchor. induction body as [|s body IH]; intros; cbn; [done|]. by rewrite IH.
Qed.

(** After the first sample. *)
Lemma scan_later k p a body i b m :
  scan policy (S k) (Some p) (Some a) body !! i = Some (b, m) ->
  exists previous, (p :: body) !! i = Some previous
    /\ (m = true -> is_Some b)
    /\ (forall r c, b = Some (r, c) -> r = CandidateReason.VisualChange /\ change_after previous c).
Proof.
  revert k p a i. induction body as [|s body IH]; intros k p a i; [done|].
  cbn [scan]. destruct i as [|i].
  - intros [= Hb Hm]. subst b m. exists p. split; [done|]. unfold boundary_at, is_moving. cbn.
    destruct (is_change policy (delta policy p s)) eqn:E1.
    { split; [done|]. intros r c [= <- <-]. split; [done|]. by eexists. }
    destruct (is_change policy (delta policy a s)) eqn:E2.
    { split; [done|]. intros r c [= <- <-]. split; [done|]. by eexists. }
    split; [done|]. intros r c. discriminate.
  - cbn [lookup list_lookup]. destruct (boundary_at _ _ _ _ _); apply IH.
Qed.

(** A boundary right after a boundary is a moving sample. *)
Lemma scan_consecutive k p a body :
  (p = a -> forall b m, scan policy (S k) (Some p) (Some a) body !! 0%nat = Some (Some b, m) ->
            m = true)
  /\ forall i b b' m m',
       scan policy (S k) (Some p) (Some a) body !! i = Some (Some b, m) ->
       scan policy (S k) (Some p) (Some a) body !! S i = Some (Some b', m') -> m' = true.
Proof.
  revert k p a. induction body as [|s body IH]; intros k p a; [done|]. split.
  - intros <- b m. cbn. destruct (is_change policy (delta policy p s)) eqn:E; cbn; [|discriminate].
    by intros [= _ <-].
  - intros i b b' m m'. cbn [scan]. destruct i as [|i].
    + cbn [lookup list_lookup]. destruct (boundary_at _ _ _ _ _); [|discriminate].
      intros _. by apply IH.
    + cbn [lookup list_lookup]. destruct (boundary_at _ _ _ _ _); apply IH.
Qed.

Context (lead : option VisualSample.t) (body : list VisualSample.t).

Definition scanned : list (option boundary * bool) := scan policy 0 lead None body.

(** What the first loop guarantees of the boundary of sample [i]. *)
Record scan_facts (i : nat) (b : option boundary) (m : bool) : Prop := {
  sf_moving : m = true -> exists c, b = Some (CandidateReason.VisualChange, c) /\ is_Some c;
  sf_first : i = 0%nat -> is_Some b;
  sf_reason : forall r c, b = Some (r, c) ->
    r = CandidateReason.VisualChange /\ is_Some c
    \/ i = 0%nat /\ c = None
       /\ (r = CandidateReason.FirstFrame \/ r = CandidateReason.PeriodicCoverage);
  sf_change : forall r c, b = Some (r, Some c) ->
    is_change policy (CandidateChange.delta c) = true
    /\ exists s, match i with O => lead | S j => body !! j end = Some s
         /\ CandidateChange.previous_sample c = VisualSample.time s
}.

Lemma scanned_facts i b m : scanned !! i = Some (b, m) -> scan_facts i b m.
Proof.
  unfold scanned. destruct body as [|s rest] eqn:Ebody; [done|]. cbn [scan].
  destruct i as [|i].
  - intros [= Hb Hm]. subst b m. unfold boundary_at, is_moving. destruct lead as [l|] eqn:El; cbn.
    + destruct (is_change policy (delta policy l s)) eqn:E; split; try done; try (by eexists).
      * intros r c [= <- <-]. left. split; [done|by eexists].
      * intros r c [= <- <-]. split; [done|]. by exists l.
      * intros r c [= <- <-]. right. by auto.
    + split; try done. intros r c [= <- <-]. right. by auto.
  - cbn [lookup list_lookup]. intros H.
    assert (Hb0 : is_Some (boundary_at policy 0 lead None s)).
    { unfold boundary_at. destruct lead as [l|]; cbn; [destruct (is_change policy _)|]; by eexists. }
    destruct Hb0 as [b0 Hb0]. rewrite Hb0 in H.
    destruct (scan_later _ _ _ _ _ _ _ H) as (p & Hp & Hm & Hc).
    split.
    + intros Hmt. destruct (Hm Hmt) as [[r c] Hb]. destruct (Hc r c Hb) as [-> (d & -> & _)].
      exists (Some (CandidateChange.mk (VisualSample.time p) d)). split; [done|by eexists].
    + done.
    + intros r c Hb. destruct (Hc r c Hb) as [-> (d & -> & _)]. left. split; [done|by eexists].
    + intros r c Hb. destruct (Hc r (Some c) Hb) as [_ (d & Hd & Hch)]. injection Hd as ->.
      split; [done|]. exists p. rewrite Ebody. by split.
Qed.

Lemma scanned_consecutive i b b' m m' :
  scanned !! i = Some (Some b, m) -> scanned !! S i = Some (Some b', m') -> m' = true.
Proof.
  unfold scanned. destruct body as [|s rest]; [done|]. cbn [scan].
  assert (Hb0 : is_Some (boundary_at policy 0 lead None s)).
  { unfold boundary_at. destruct lead as [l|]; cbn; [destruct (is_change policy _)|]; by eexists. }
  destruct Hb0 as [b0 Hb0]. rewrite Hb0.
  destruct (scan_consecutive 0 s s rest) as [H0 HS]. destruct i as [|i]; cbn [lookup list_lookup].
  - intros _. by apply H0.
  - apply HS.
Qed.
End Scan.

(** ** The second loop *)

Section Motion.
Context (moving : list bool) (bs0 : list (option boundary)).
Context (Hlen : length moving = length bs0).

Abbreviation n := (length bs0).

(** What the boundaries are after some runs were closed: only cleared, or
    with another reason on a moving sample. *)
Definition refined (bs : list (option boundary)) : Prop :=
  length bs = n
  /\ (forall i r c, bs !! i = Some (Some (r, c)) ->
        exists r0, bs0 !! i = Some (Some (r0, c))
          /\ (r = r0 \/ (moving !! i = Some true /\ CandidateReason.has_change r = true)))
  /\ (is_Some (mjoin (bs0 !! 0%nat)) -> is_Some (mjoin (bs !! 0%nat))).

Definition all_moving (lo hi : nat) : Prop :=
  forall j, (lo <= j < hi)%nat -> moving !! j = Some true.

(** Runs of three moving samples before [k] that were closed have lost their
    middle. *)
Definition collapsed (k : nat) (run_start : option nat) (bs : list (option boundary)) : Prop :=
  forall i, all_moving i (i + 3) -> (i + 3 <= k)%nat ->
    match run_start with None => True | Some s => (i + 3 <= s)%nat end ->
    bs !! S i = Some None.

Definition run_inv (k : nat) (run_start : option nat) : Prop :=
  match run_start with
  | None => k = 0%nat \/ moving !! (k - 1)%nat <> Some true
  | Some s => (s < k)%nat /\ all_moving s k /\ (s = 0%nat \/ moving !! (s - 1)%nat <> Some true)
  end.

Lemma lookup_clear_range lo hi bs i :
  clear_range lo hi bs !! i
  = if ((lo <=? i) && (i <? hi))%nat then (fun _ => None) <$> bs !! i else bs !! i.
Proof.
  unfold clear_range. rewrite list_lookup_imap.
  destruct ((lo <=? i) && (i <? hi))%nat; by destruct (bs !! i).
Qed.

Lemma refined_clear lo hi bs : (0 < lo)%nat -> refined bs -> refined (clear_range lo hi bs).
Proof.
  intros Hlo (H1 & H2 & H3). split; [|split].
  - unfold clear_range. by rewrite length_imap.
  - intros i r c Hi. rewrite lookup_clear_range in Hi. destruct (_ && _); [by destruct (bs !! i)|].
    by apply H2.
  - intros H. specialize (H3 H). rewrite lookup_clear_range.
    by rewrite (proj2 (Nat.leb_gt lo 0)) by lia.
Qed.

Lemma refined_set i reason bs :
  moving !! i = Some true -> CandidateReason.has_change reason = true ->
  refined bs -> refined (set_reason i reason bs).
Proof.
  intros Hm Hr (H1 & H2 & H3). unfold set_reason. split; [|split].
  - by rewrite length_alter.
  - intros j r c Hj. destruct (decide (i = j)) as [<-|Hne].
    + rewrite list_lookup_alter_eq in Hj. apply fmap_Some in Hj as ([[r1 c1]|] & E & [= -> ->]).
      destruct (H2 _ _ _ E) as (r0 & Hr0 & _). exists r0. auto.
    + rewrite list_lookup_alter_ne in Hj by done. by apply H2.
  - intros H. specialize (H3 H). destruct (decide (i = 0%nat)) as [->|Hne].
    + rewrite list_lookup_alter_eq. destruct (bs !! 0%nat) as [[b|]|]; cbn in *; by destruct H3.
    + by rewrite list_lookup_alter_ne.
Qed.

Lemma set_reason_None i reason bs j : bs !! j = Some None -> set_reason i reason bs !! j = Some None.
Proof.
  intros H. unfold set_reason. destruct (decide (i = j)) as [<-|].
  - rewrite list_lookup_alter_eq, H. done.
  - by rewrite list_lookup_alter_ne.
Qed.

(** Closing the run [s..k). *)
Lemma close_run_inv k s bs ms :
  refined bs -> collapsed k (Some s) bs -> run_inv k (Some s) -> moving !! k <> Some true ->
  (k <= n)%nat ->
  let st := close_run n s (k - 1) (bs, ms) in
  refined st.1 /\ collapsed (S k) None st.1.
Proof.
  intros Href Hcol (Hs & Hall & Hbefore) Hk Hkn. unfold close_run.
  assert (Htriple : forall i, all_moving i (i + 3) -> (i + 3 <= S k)%nat ->
    (i + 3 <= s)%nat \/ (s <= i /\ i + 3 <= k)%nat).
  { intros i Hi Hle. assert (Hik : (i + 3 <= k)%nat).
    { destruct (decide (i + 3 <= k)%nat); [done|]. exfalso. apply Hk, Hi. lia. }
    destruct (decide (i + 3 <= s)%nat); [by left|right]. split; [|done].
    destruct (decide (s <= i)%nat); [done|exfalso].
    destruct Hbefore as [->|Hb]; [lia|]. apply Hb, Hi. lia. }
  destruct (3 <=? k - 1 - s + 1)%nat eqn:E3.
  - apply Nat.leb_le in E3. cbn [fst snd].
    set (settles := (k - 1 + 1 <? n)%nat).
    set (last_motion := if settles then (k - 1)%nat else (k - 1 + 1)%nat).
    assert (Hlast : (k - 1 <= last_motion)%nat) by (unfold last_motion; destruct settles; lia).
    assert (Hm1 : moving !! s = Some true) by (apply Hall; lia).
    assert (Hm2 : moving !! (k - 1)%nat = Some true) by (apply Hall; lia).
    set (bs1 := clear_range (s + 1) last_motion bs).
    assert (Hr1 : refined (set_reason s CandidateReason.MotionStart bs1))
      by (apply refined_set; [done|done|apply refined_clear; [lia|done]]).
    assert (Hc1 : forall i, all_moving i (i + 3) -> (i + 3 <= S k)%nat -> bs1 !! S i = Some None).
    { intros i Hi Hle. unfold bs1. rewrite lookup_clear_range.
      destruct (Htriple i Hi Hle) as [Hold|[Hsi Hik]].
      - rewrite (Hcol i Hi) by lia. by destruct (_ && _).
      - rewrite (proj2 (Nat.leb_le (s + 1) (S i))), (proj2 (Nat.ltb_lt (S i) last_motion)) by lia.
        cbn [andb]. destruct Href as [Hl _].
        destruct (lookup_lt_is_Some_2 bs (S i) ltac:(lia)) as [b ->]. done. }
    destruct settles; cbn [fst].
    + split; [by apply refined_set|]. intros i Hi Hle _. by apply set_reason_None, set_reason_None, Hc1.
    + split; [done|]. intros i Hi Hle _. by apply set_reason_None, Hc1.
  - apply Nat.leb_gt in E3. cbn [fst]. split; [done|]. intros i Hi Hle _.
    destruct (Htriple i Hi Hle) as [Hold|[Hsi Hik]]; [|lia]. by apply (Hcol i Hi); [lia|].
Qed.

Lemma motion_loop_inv m k run_start bs ms :
  (k + m = S n)%nat -> refined bs -> collapsed k run_start bs -> run_inv k run_start ->
  let st := motion_loop moving n (seq k m) run_start (bs, ms) in
  refined st.1 /\ collapsed (S n) None st.1.
Proof.
  revert k run_start bs ms. induction m as [|m IH]; intros k run_start bs ms Hk Href Hcol Hrun;
    cbn [seq motion_loop].
  { cbn [fst]. split; [done|]. assert (k = S n) as -> by lia.
    destruct run_start as [s|]; [|done]. destruct Hrun as (Hs & Hall & _). exfalso.
    assert (Hn : moving !! n = Some true) by (apply Hall; lia).
    apply lookup_lt_Some in Hn. lia. }
  destruct (moving !! k) as [mk|] eqn:Emk; cbn [default]; [destruct mk|].
  - destruct run_start as [s|]; apply IH; try done; try lia.
    + intros i Hi Hle Hs'. apply (Hcol i Hi); [|done].
      destruct Hrun as (Hsk & _). lia.
    + destruct Hrun as (Hs & Hall & Hb). split; [lia|]. split; [|done].
      intros j Hj. destruct (decide (j = k)) as [->|]; [done|]. apply Hall. lia.
    + intros i Hi Hle Hs'. by apply (Hcol i Hi).
    + split; [lia|]. split; [|destruct Hrun as [->|?]; [by left|by right]].
      intros j Hj. by replace j with k by lia.
  - destruct run_start as [s|].
    + destruct (close_run_inv k s bs ms Href Hcol Hrun) as [H1 H2]; [congruence| |].
      { apply lookup_lt_Some in Emk. lia. }
      destruct (close_run n s (k - 1) (bs, ms)) as [bs' ms']. cbn [fst] in *.
      apply IH; [lia|done|done|]. right. by replace (S k - 1)%nat with k by lia; rewrite Emk.
    + apply IH; [lia|done| |].
      * intros i Hi Hle _. apply (Hcol i Hi); [|done].
        destruct (decide (i + 3 <= k)%nat); [done|exfalso].
        assert (Hx : moving !! k = Some true) by (apply Hi; lia). congruence.
      * right. by replace (S k - 1)%nat with k by lia; rewrite Emk.
  - destruct run_start as [s|].
    + destruct (close_run_inv k s bs ms Href Hcol Hrun) as [H1 H2]; [congruence|lia|].
      destruct (close_run n s (k - 1) (bs, ms)) as [bs' ms']. cbn [fst] in *.
      apply IH; [lia|done|done|]. right. by replace (S k - 1)%nat with k by lia; rewrite Emk.
    + apply IH; [lia|done| |].
      * intros i Hi Hle _. apply (Hcol i Hi); [|done].
        destruct (decide (i + 3 <= k)%nat); [done|exfalso].
        assert (Hx : moving !! k = Some true) by (apply Hi; lia). congruence.
      * right. by replace (S k - 1)%nat with k by lia; rewrite Emk.
Qed.
End Motion.

(** ** Counting *)

(** Of every four consecutive elements one is left out. *)
Lemma filter_three_of_four {A} (P : A -> Prop) `{!forall a, Decision (P a)} (l : list A) :
  (forall i, ~ (forall j, (i <= j < i + 4)%nat -> exists a, l !! j = Some a /\ P a)) ->
  (length (filter P l) + length l / 4 <= length l)%nat.
Proof.
  remember (length l) as n eqn:Hn. revert l Hn.
  induction n as [n IH] using lt_wf_ind. intros l Hn Hl.
  destruct (decide (n < 4)%nat) as [Hlt|Hge].
  { rewrite Nat.div_small by done. pose proof (length_filter P l). lia. }
  rewrite <- (take_drop 4 l), filter_app, length_app.
  assert (Hrest : (length (filter P (drop 4 l)) + (n - 4) / 4 <= n - 4)%nat).
  { apply (IH (n - 4)%nat); [lia|rewrite length_drop; lia|]. intros i Hi. apply (Hl (4 + i)%nat).
    intros j Hj. destruct (Hi (j - 4)%nat) as (a & Ha & HP); [lia|]. exists a. split; [|done].
    rewrite lookup_drop in Ha. by replace (4 + (j - 4))%nat with j in Ha by lia. }
  assert (Hfour : (length (filter P (take 4 l)) <= 3)%nat).
  { pose proof (length_filter P (take 4 l)) as Hle. rewrite length_take in Hle.
    destruct (decide (length (filter P (take 4 l)) <= 3)%nat) as [|Hbig]; [done|exfalso].
    apply (Hl 0%nat). intros j Hj.
    destruct (lookup_lt_is_Some_2 (take 4 l) j) as [a Ha]; [rewrite length_take; lia|].
    exists a. split; [rewrite lookup_take_lt in Ha by lia; done|].
    destruct (decide (P a)) as [|Hn']; [done|exfalso].
    assert (Hs : (length (filter P (take 4 l)) < length (take 4 l))%nat).
    { apply (length_filter_lt P _ a); [|done].
      by eapply list_elem_of_lookup_2. }
    rewrite length_take in Hs. lia. }
  assert (Hdiv : (n / 4 = (n - 4) / 4 + 1)%nat) by divlia. lia.
Qed.

Section Find.
Context (policy : VisualChangePolicy) (lead : option VisualSample.t) (body : list VisualSample.t).

(** The boundaries [find_states] reads its states from. *)
Definition final : list (option boundary) * list nat :=
  let scanned := scanned policy lead body in
  motion_loop (snd <$> scanned) (length body) (seq 0 (S (length body))) None (fst <$> scanned, []).

Lemma find_states_final : find_states lead body policy = states_of final.1 final.2.
Proof.
  unfold find_states, final, scanned. by destruct (motion_loop _ _ _ _ _) as [bs ms].
Qed.

Lemma final_spec :
  refined (snd <$> scanned policy lead body) (fst <$> scanned policy lead body) final.1
  /\ collapsed (snd <$> scanned policy lead body) (S (length body)) None final.1.
Proof.
  assert (Hn : length (fst <$> scanned policy lead body) = length body)
    by (unfold scanned; by rewrite length_fmap, length_scan).
  unfold final. rewrite <- Hn. apply motion_loop_inv.
  - by rewrite !length_fmap.
  - lia.
  - split; [done|]. split; [|done]. intros i r c Hi. exists r. by auto.
  - intros i _ Hle. lia.
  - by left.
Qed.

Lemma length_final : length final.1 = length body.
Proof.
  destruct final_spec as [(-> & _) _]. unfold scanned. by rewrite length_fmap, length_scan.
Qed.

(** What every state of the window satisfies. *)
Record state_ok (st : State.t) : Prop := {
  so_start : (State.start st < length body)%nat;
  so_first_frame : State.reason st = CandidateReason.FirstFrame -> State.start st = 0%nat;
  so_reason : CandidateReason.has_change (State.reason st) = bool_decide (is_Some (State.change st));
  so_change : forall c, State.change st = Some c ->
    is_change policy (CandidateChange.delta c) = true
    /\ exists s, match State.start st with O => lead | S j => body !! j end = Some s
         /\ CandidateChange.previous_sample c = VisualSample.time s
}.

Lemma final_boundary i r c :
  final.1 !! i = Some (Some (r, c)) ->
  state_ok (State.mk i r c (bool_decide (i ∈ final.2))).
Proof.
  intros Hi. destruct final_spec as [(Hl & Href & _) _]. destruct (Href i r c Hi) as (r0 & H0 & Hr).
  apply list_lookup_fmap_Some in H0 as ([b0 m0] & Hb0 & Hs). cbn in Hb0. subst b0.
  pose proof (scanned_facts _ _ _ _ _ _ Hs) as [Hmov _ Hrea Hchg].
  assert (Hmoving : (snd <$> scanned policy lead body) !! i = Some true -> m0 = true).
  { rewrite list_lookup_fmap, Hs. by intros [=]. }
  split; cbn [State.start State.reason State.change].
  - rewrite <- length_final. by eapply lookup_lt_Some.
  - intros ->. destruct Hr as [<-|[_ Hhc]]; [|discriminate Hhc].
    by destruct (Hrea _ _ eq_refl) as [[? _]|[? _]].
  - destruct Hr as [->|[Hm Hhc]].
    + destruct (Hrea _ _ eq_refl) as [[-> Hc]|(_ & -> & [-> | ->])].
      * by rewrite bool_decide_true.
      * by rewrite bool_decide_false by (by intros [? ?]).
      * by rewrite bool_decide_false by (by intros [? ?]).
    + rewrite Hhc, bool_decide_true; [done|].
      destruct (Hmov (Hmoving Hm)) as (c' & Hc' & Hs'). by injection Hc' as _ <-.
  - intros c0 ->. by apply (Hchg r0 c0).
Qed.

Lemma state_lookup p st :
  find_states lead body policy !! p = Some st ->
  final.1 !! State.start st = Some (Some (State.reason st, State.change st)) /\ state_ok st.
Proof.
  rewrite find_states_final. intros Hp. apply list_elem_of_lookup_2 in Hp.
  unfold states_of in Hp. apply list_elem_of_omap in Hp as ([i b] & Hin & Hst).
  apply elem_of_enumerate in Hin. destruct b as [[r c]|]; [|done]. cbn in Hst.
  injection Hst as <-. cbn. split; [done|]. by apply final_boundary.
Qed.

Lemma states_sorted :
  StronglySorted (fun a b => (State.start a < State.start b)%nat) (find_states lead body policy).
Proof.
  rewrite find_states_final. unfold states_of.
  apply (StronglySorted_omap _ _ _ _ (enumerate_sorted _)).
  intros [i [[r c]|]] [j [[r' c']|]] a b Hij Ha Hb; cbn in *; simplify_eq/=. done.
Qed.

Lemma first_state_at_0 :
  body <> [] -> exists st, find_states lead body policy !! 0%nat = Some st /\ State.start st = 0%nat.
Proof.
  intros Hne. destruct final_spec as [(Hl & _ & H0) _].
  assert (Hb0 : exists b, final.1 !! 0%nat = Some (Some b)).
  { assert (Hs : exists b m, scanned policy lead body !! 0%nat = Some (b, m)).
    { destruct (lookup_lt_is_Some_2 (scanned policy lead body) 0) as [[b m] Hs]; [|by exists b, m].
      unfold scanned. rewrite length_scan. destruct body; [done|cbn; lia]. }
    destruct Hs as (b & m & Hs). destruct (sf_first _ _ _ _ _ _ (scanned_facts _ _ _ _ _ _ Hs)) as [b1 Hb1]; [done|].
    destruct H0 as [b2 Hb2]; [rewrite list_lookup_fmap, Hs; cbn; rewrite Hb1; by eexists|].
    destruct (final.1 !! 0%nat) as [[b3|]|] eqn:E; cbn in Hb2; try discriminate Hb2. by eexists. }
  destruct Hb0 as [b Hb]. rewrite find_states_final. unfold states_of, enumerate.
  destruct final.1 as [|b0 rest]; [done|]. cbn in Hb. injection Hb as ->. cbn. by eexists.
Qed.

(** Four consecutive samples never all open a state. *)
Lemma no_four_boundaries i :
  ~ (forall j, (i <= j < i + 4)%nat -> exists b, final.1 !! j = Some b /\ is_Some b).
Proof.
  intros H. destruct final_spec as [(Hl & Href & _) Hcol].
  assert (Hscan : forall j, (i <= j < i + 4)%nat ->
    exists b m, scanned policy lead body !! j = Some (Some b, m)).
  { intros j Hj. destruct (H j Hj) as (b & Hb & [[r c] ->]).
    destruct (Href j r c Hb) as (r0 & H0 & _).
    apply list_lookup_fmap_Some in H0 as ([b0 m0] & Hb0 & Hs). cbn in Hb0. subst b0. by exists (r0, c), m0. }
  assert (Hm : all_moving (snd <$> scanned policy lead body) (S i) (S i + 3)).
  { intros j Hj. destruct (Hscan (j - 1)%nat) as (b & m & Hb); [lia|].
    destruct (Hscan j) as (b' & m' & Hb'); [lia|].
    replace j with (S (j - 1)) in Hb' by lia.
    pose proof (scanned_consecutive _ _ _ _ _ _ _ _ Hb Hb') as ->.
    replace (S (j - 1)) with j in Hb' by lia. by rewrite list_lookup_fmap, Hb'. }
  assert (Hlt : (i + 3 < length body)%nat).
  { destruct (H (i + 3)%nat) as (b & Hb & _); [lia|]. rewrite <- length_final.
    by eapply lookup_lt_Some. }
  pose proof (Hcol (S i) Hm ltac:(lia) I) as Hnone.
  destruct (H (S (S i))) as (b & Hb & Hs); [lia|]. rewrite Hnone in Hb. injection Hb as <-. by destruct Hs.
Qed.

Lemma length_states_of bs ms :
  length (states_of bs ms) = length (filter is_Some bs).
Proof.
  unfold states_of, enumerate. generalize 0%nat as k. induction bs as [|b bs IH]; intros k; [done|].
  cbn [length seq zip zip_with omap list_omap]. rewrite filter_cons. destruct b as [b|].
  - rewrite decide_True by (by eexists). cbn. by rewrite <- (IH (S k)).
  - rewrite decide_False by (by intros [? ?]). cbn. apply IH.
Qed.

Lemma states_count :
  (length (find_states lead body policy) + length body / 4 <= length body)%nat.
Proof.
  rewrite find_states_final, length_states_of, <- length_final.
  apply filter_three_of_four, no_four_boundaries.
Qed.
End Find.
