(* ===== verification/VisualBudget.v ===== *)
(** * VisualBudget: facts on the candidate budget and coverage

    What [apply_budget] and [build_candidates] of [VisualAnalysis] guarantee
    for any states in sample order whose first opens at the first sample:
    the kept states and the coverage they still need fit the budget, and
    every cell with a frame gets a candidate, each at its own sample. *)

From S2P Require Import Prelude.
From S2P Require Import Timeline.
From S2P Require Import VisualSample.
From S2P Require Import VisualWindow.
From S2P Require Import VisualAnalysis.
From S2P Require Import VisualStates.

(** A list without repetition sorted by [le] on a key is strictly sorted. *)
Lemma sorted_strictly {A} (key : A -> nat) (R : A -> A -> Prop) (l : list A) :
  (forall a b, R a b -> (key a <= key b)%nat) -> StronglySorted R l -> NoDup (key <$> l) ->
  StronglySorted (fun a b => (key a < key b)%nat) l.
Proof.
  intros HR Hs Hn. apply StronglySorted_lookup. intros i j a b Hij Hi Hj.
  rewrite StronglySorted_lookup in Hs. pose proof (HR _ _ (Hs i j a b Hij Hi Hj)) as Hle.
  destruct (decide (key a = key b)) as [Heq|]; [exfalso|lia].
  assert (i = j); [|lia]. rewrite NoDup_alt in Hn. apply (Hn i j (key a)).
  - by rewrite list_lookup_fmap, Hi.
  - by rewrite list_lookup_fmap, Hj, Heq.
Qed.

#[export] Instance opening_le_total : Total Opening.le.
Proof. intros a b. unfold Opening.le. lia. Qed.

#[export] Instance opening_le_transitive : Transitive Opening.le.
Proof. intros a b c. unfold Opening.le. lia. Qed.

Lemma existsb_perm {A} (f : A -> bool) l l' : l ≡ₚ l' -> existsb f l = existsb f l'.
Proof.
  intros H. destruct (existsb f l') eqn:E.
  - apply not_false_iff_true. apply not_false_iff_true in E. by rewrite existsb_false, H, <- existsb_false.
  - by rewrite existsb_false, H, <- existsb_false.
Qed.

Section Budget.
Context (states : list State.t) (body : list VisualSample.t) (cells : list TimeRange.t).

Abbreviation items := (zip cells (first_in_cells cells body)).

(** Whether the samples at [idxs] cover a cell. *)
Definition covered (idxs : list nat) (cell : TimeRange.t) : bool :=
  existsb (sample_in body cell) idxs.

Definition needs (idxs : list nat) (item : TimeRange.t * option nat) : Prop :=
  is_Some item.2 /\ covered idxs item.1 = false.

#[local] Instance needs_dec idxs item : Decision (needs idxs item).
Proof. unfold needs. apply _. Defined.

(** The cells with a frame the samples at [idxs] leave uncovered. *)
Definition missing (idxs : list nat) : nat := length (filter (needs idxs) items).

Definition starts_of (kept : list nat) : list nat :=
  omap (fun position => State.start <$> states !! position) kept.

Lemma covered_positions kept cell :
  existsb (fun position => match states !! position with
                           | Some state => sample_in body cell (State.start state)
                           | None => false
                           end) kept = covered (starts_of kept) cell.
Proof.
  unfold covered, starts_of. induction kept as [|p kept IH]; cbn; [done|].
  rewrite IH. by destruct (states !! p).
Qed.

Lemma uncovered_missing kept :
  uncovered_cells kept states body cells (first_in_cells cells body) = missing (starts_of kept).
Proof.
  unfold uncovered_cells, missing. f_equal. apply list_filter_iff.
  intros item. unfold needs. by rewrite covered_positions.
Qed.

Lemma missing_le idxs : (missing idxs <= length cells)%nat.
Proof.
  unfold missing. etransitivity; [apply length_filter|].
  rewrite length_zip_with. lia.
Qed.

Lemma missing_perm idxs idxs' : idxs ≡ₚ idxs' -> missing idxs = missing idxs'.
Proof.
  intros H. unfold missing. f_equal. apply list_filter_iff. intros item. unfold needs, covered.
  by rewrite (existsb_perm _ _ _ H).
Qed.

(** ** The greedy pass *)

(** What the kept positions satisfy at each step. *)
Record kept_ok (kept : list nat) : Prop := {
  ko_nodup : NoDup kept;
  ko_range : Forall (fun p => (p < length states)%nat) kept;
  ko_first : 0%nat ∈ kept;
  ko_budget : (length kept + missing (starts_of kept) <= MAX_WINDOW_CANDIDATES)%nat
}.

Lemma keep_greedily_ok optional kept :
  kept_ok kept -> NoDup optional -> Forall (fun p => (p < length states)%nat /\ p ∉ kept) optional ->
  kept_ok (keep_greedily states body cells (first_in_cells cells body) kept optional).
Proof.
  revert kept. induction optional as [|p optional IH]; intros kept Hk Hn Hf; [done|].
  apply NoDup_cons in Hn as [Hp Hn]. apply Forall_cons in Hf as [[Hr Hpk] Hf].
  unfold keep_greedily. cbn [fold_left]. apply IH; [|done|].
  - rewrite uncovered_missing. destruct (_ <? _)%nat eqn:E; [done|]. apply Nat.ltb_ge in E.
    destruct Hk as [H1 H2 H3 H4]. split.
    + apply NoDup_app. split; [done|]. split; [|apply NoDup_singleton].
      intros q Hq ->%list_elem_of_singleton. done.
    + apply Forall_app. by split; [|constructor].
    + apply elem_of_app. by left.
    + done.
  - apply Forall_forall. intros q Hq.
    rewrite Forall_forall in Hf. destruct (Hf q Hq) as [Hq1 Hq2]. split; [done|].
    destruct (_ <? _)%nat; [done|]. rewrite not_elem_of_app, list_elem_of_singleton.
    split; [done|]. by intros ->.
Qed.

Lemma kept_ok_perm kept kept' : kept ≡ₚ kept' -> kept_ok kept -> kept_ok kept'.
Proof.
  intros Hp [H1 H2 H3 H4]. assert (Hs : starts_of kept ≡ₚ starts_of kept')
    by (unfold starts_of; by rewrite Hp).
  split; [by rewrite <- Hp|by rewrite <- Hp|by rewrite <- Hp|].
  by rewrite <- (missing_perm _ _ Hs), <- Hp.
Qed.

Context (Hcells : (length cells <= 6)%nat) (Hstates : states <> []).

(** The states kept, in order; when some are dropped there were more states
    and coverage than the budget holds. *)
Lemma apply_budget_spec :
  let '(kept, dropped) := apply_budget states body cells (first_in_cells cells body) in
  kept_ok kept /\ StronglySorted (fun a b => (a < b)%nat) kept
  /\ (dropped + length kept = length states)%nat
  /\ (dropped = 0%nat \/ (MAX_WINDOW_CANDIDATES < length states + length cells)%nat).
Proof.
  unfold apply_budget. rewrite uncovered_missing, length_seq.
  assert (Hlen : (0 < length states)%nat) by (destruct states; [done|cbn; lia]).
  destruct (_ <=? _)%nat eqn:E.
  - apply Nat.leb_le in E. split; [|split; [|split; [rewrite length_seq; lia|by left]]].
    + split; [apply NoDup_seq| | |by rewrite length_seq].
      * apply Forall_forall. intros p Hp%elem_of_seq. lia.
      * apply elem_of_seq. lia.
    + apply StronglySorted_lookup. intros i j a b Hij [-> _]%lookup_seq [-> _]%lookup_seq. lia.
  - apply Nat.leb_gt in E.
    set (optional := stable_sort (score_le states) (seq 1 (length states - 1))).
    assert (Hopt : optional ≡ₚ seq 1 (length states - 1)) by apply stable_sort_Permutation.
    set (greedy := keep_greedily _ _ _ _ _ _).
    assert (Hg : kept_ok greedy).
    { apply keep_greedily_ok.
      - split; [apply NoDup_singleton|by constructor|by left|].
        pose proof (missing_le (starts_of [0%nat])). cbn [length]. unfold MAX_WINDOW_CANDIDATES. lia.
      - rewrite Hopt. apply NoDup_seq.
      - rewrite Hopt. apply Forall_forall. intros p Hp%elem_of_seq. split; [lia|].
        rewrite list_elem_of_singleton. lia. }
    pose proof (merge_sort_Permutation le greedy) as Hp.
    assert (Hk : kept_ok (merge_sort le greedy)) by (eapply kept_ok_perm; [|exact Hg]; done).
    split; [done|]. split; [|split].
    + apply (sorted_strictly (fun p => p) le); [done| |].
      { apply (StronglySorted_merge_sort le); intros ?; lia. }
      rewrite list_fmap_id. apply Hk.
    + assert (Hle : (length (merge_sort le greedy) <= length states)%nat).
      { rewrite <- (length_seq (length states) 0). apply submseteq_length, NoDup_submseteq; [apply Hk|].
        intros p Hp'. apply elem_of_seq. pose proof (ko_range _ Hk) as Hr.
        rewrite Forall_forall in Hr. specialize (Hr p Hp'). lia. }
      lia.
    + right. pose proof (missing_le (starts_of (seq 0 (length states)))). lia.
Qed.
End Budget.

(** ** Coverage candidates *)

Section Coverage.
Context (states : list State.t) (body : list VisualSample.t).

(** The openings the coverage pass adds, one for a cell it finds uncovered. *)
Definition coverage_opening (o : Opening.t) (item : TimeRange.t * option nat) : Prop :=
  item.2 = Some (Opening.index o)
  /\ Opening.reason o = CandidateReason.PeriodicCoverage /\ Opening.change o = None
  /\ Opening.stability o = match containing_state states (Opening.index o) with
                           | Some position => stability_of states position (length body)
                           | None => CandidateStability.Settled
                           end.

(** Cells that hold their own first sample, which no later cell holds. *)
Fixpoint own_firsts (its : list (TimeRange.t * option nat)) : Prop :=
  match its with
  | [] => True
  | item :: rest =>
      (forall f, item.2 = Some f ->
         sample_in body item.1 f = true
         /\ Forall (fun later => sample_in body later.1 f = false) rest)
      /\ own_firsts rest
  end.

Lemma covered_app idxs idxs' cell :
  covered body (idxs ++ idxs') cell = covered body idxs cell || covered body idxs' cell.
Proof. unfold covered. apply existsb_app. Qed.

Lemma covered_index idxs cell i : i ∈ idxs -> sample_in body cell i = true -> covered body idxs cell = true.
Proof.
  intros Hi Hs. unfold covered. apply existsb_exists. exists i. split; [by apply list_elem_of_In|done].
Qed.

Lemma existsb_index (starts : list Opening.t) cell :
  existsb (fun o => sample_in body cell (Opening.index o)) starts
  = covered body (Opening.index <$> starts) cell.
Proof. unfold covered. induction starts as [|o starts IH]; cbn; [done|]. by rewrite IH. Qed.

(** The pass adds exactly one opening for each cell with a frame that the
    kept states leave uncovered, and afterwards every such cell is covered. *)
Lemma coverage_pass its starts :
  own_firsts its ->
  exists cov,
    fold_left (add_coverage states body) its starts = starts ++ cov
    /\ Forall (fun o => exists item, item ∈ its /\ coverage_opening o item
                        /\ covered body (Opening.index <$> starts) item.1 = false
                        /\ sample_in body item.1 (Opening.index o) = true) cov
    /\ length cov = length (filter (fun item => is_Some item.2
                              /\ covered body (Opening.index <$> starts) item.1 = false) its)
    /\ (forall cell f, (cell, Some f) ∈ its ->
          covered body (Opening.index <$> starts ++ cov) cell = true)
    /\ NoDup (Opening.index <$> cov).
Proof.
  revert starts. induction its as [|[cell first] its IH]; intros starts Hown.
  { exists []. cbn. rewrite app_nil_r. split; [done|]. split; [done|]. split; [done|].
    split; [|constructor]. intros c f H. by apply not_elem_of_nil in H. }
  destruct Hown as (Hfst & Hown). cbn [fold_left]. unfold add_coverage at 2. cbn [fst snd].
  rewrite filter_cons. cbn [fst snd].
  destruct first as [f|].
  2: { rewrite decide_False by (intros [[? [=]] _]).
       destruct (IH starts Hown) as (cov & HA & HB & HC & HD & HE). exists cov. split; [done|].
       split; [|split; [done|split; [|done]]].
       - eapply Forall_impl; [exact HB|]. intros o (item & Hin & Hrest). exists item.
         split; [by right|done].
       - intros c f Hin. apply elem_of_cons in Hin as [[=]|Hin]. by eapply HD. }
  rewrite existsb_index. destruct (covered body (Opening.index <$> starts) cell) eqn:Ecov.
  - rewrite decide_False by (intros [_ [=]]).
    destruct (IH starts Hown) as (cov & HA & HB & HC & HD & HE). exists cov. split; [done|].
    split; [|split; [done|split; [|done]]].
    + eapply Forall_impl; [exact HB|]. intros o (item & Hin & Hrest). exists item.
      split; [by right|done].
    + intros c f' Hin. apply elem_of_cons in Hin as [[= -> ->]|Hin]; [|by eapply HD].
      rewrite fmap_app, covered_app, Ecov. done.
  - rewrite decide_True by (split; [by eexists|done]).
    destruct (Hfst f eq_refl) as [Hsf Hnone]. cbn [fst snd] in *.
    set (o := Opening.mk f CandidateReason.PeriodicCoverage None _).
    destruct (IH (starts ++ [o]) Hown) as (cov & HA & HB & HC & HD & HE).
    exists (o :: cov). rewrite HA, <- app_assoc. split; [done|].
    assert (Hsame : forall item, item ∈ its ->
      covered body (Opening.index <$> starts ++ [o]) item.1
      = covered body (Opening.index <$> starts) item.1).
    { intros item Hin. rewrite fmap_app, covered_app. cbn. rewrite Forall_forall in Hnone.
      rewrite (Hnone item Hin). by rewrite !orb_false_r. }
    split; [|split; [|split]].
    + constructor.
      * exists (cell, Some f). split; [by left|]. split; [|by split]. by split.
      * apply Forall_forall. intros o' Ho'. rewrite Forall_forall in HB.
        destruct (HB o' Ho') as (item & Hin & Hc & Hn & Hs). exists item.
        split; [by right|]. split; [done|]. split; [|done]. by rewrite <- (Hsame item Hin).
    + cbn [length]. f_equal. rewrite HC. f_equal.
      clear -Hsame. induction its as [|item its IH]; [done|]. rewrite !filter_cons.
      assert (Hrest : forall item, item ∈ its ->
        covered body (Opening.index <$> starts ++ [o]) item.1
        = covered body (Opening.index <$> starts) item.1) by (intros; apply Hsame; by right).
      rewrite (IH Hrest). pose proof (Hsame item ltac:(by left)) as Heq.
      destruct (decide _) as [H1|H1], (decide _) as [H2|H2]; try done; rewrite Heq in H1; done.
    + intros c f' Hin. apply elem_of_cons in Hin as [[= -> ->]|Hin].
      * apply (covered_index _ _ f); [|done]. rewrite fmap_app. apply elem_of_app. right. by left.
      * specialize (HD c f' Hin). by rewrite <- app_assoc in HD.
    + rewrite fmap_cons. apply NoDup_cons. split; [|done]. intros Hin.
      apply list_elem_of_fmap in Hin as (o' & Hidx & Ho'). rewrite Forall_forall in HB.
      destruct (HB o' Ho') as (item & Hin & (Hc & _) & _ & Hs). cbn in Hidx. rewrite <- Hidx in Hc, Hs.
      rewrite Forall_forall in Hnone. rewrite (Hnone item Hin) in Hs. discriminate.
Qed.
End Coverage.

(** ** The openings of a window *)

Section Openings.
Context (policy : VisualChangePolicy) (lead : option VisualSample.t) (body : list VisualSample.t).
Context (lo hi : Z) (cells : list TimeRange.t).
Context (Hbody : body <> []) (Htiles : tiles lo hi cells) (Hcells : (length cells <= 6)%nat).

Abbreviation states := (find_states lead body policy).
Abbreviation firsts := (first_in_cells cells body).

Lemma first_in_cells_lookup k cell :
  cells !! k = Some cell ->
  exists first, firsts !! k = Some first
    /\ match first with
       | Some f => sample_in body cell f = true /\ (f < length body)%nat
       | None => forall s, s ∈ body -> contains cell (VisualSample.time s) = false
       end.
Proof.
  intros Hk. unfold first_in_cells. rewrite list_lookup_fmap, Hk. cbn. eexists. split; [done|].
  destruct (list_find _ body) as [[f s]|] eqn:E; cbn.
  - apply list_find_Some in E as (Hf & Hc & _). unfold sample_in. rewrite Hf.
    split; [done|]. by apply lookup_lt_Some in Hf.
  - apply list_find_None in E. intros s Hs. rewrite Forall_forall in E.
    apply not_true_iff_false. by apply E.
Qed.

Lemma elem_of_items item :
  item ∈ zip cells firsts ->
  item.1 ∈ cells
  /\ match item.2 with
     | Some f => sample_in body item.1 f = true /\ (f < length body)%nat
     | None => forall s, s ∈ body -> contains item.1 (VisualSample.time s) = false
     end.
Proof.
  intros [k Hk]%list_elem_of_lookup. destruct item as [cell first]. cbn.
  apply lookup_zip_with_Some in Hk as (c & f & [= -> ->] & Hc & Hf).
  destruct (first_in_cells_lookup k c Hc) as (f' & Hf' & Hspec). rewrite Hf in Hf'.
  injection Hf' as <-. split; [by eapply list_elem_of_lookup_2|done].
Qed.

Lemma cells_own_firsts : own_firsts body (zip cells firsts).
Proof.
  assert (Hgen : forall cs lo, tiles lo hi cs -> own_firsts body (zip cs (first_in_cells cs body)));
    [|by eapply Hgen].
  clear lo Htiles. intros cs. induction cs as [|c cs IH]; intros lo Ht; [done|].
  destruct Ht as (Hs & Hlt & Ht). cbn [first_in_cells fmap list_fmap zip zip_with own_firsts].
  split; [|by apply (IH (TimeRange.end_ c))].
  cbn [fst snd]. intros f Hf. destruct (list_find _ body) as [[f' s]|] eqn:E; [|done].
  cbn in Hf. injection Hf as ->. apply list_find_Some in E as (Hb & Hc & _).
  unfold sample_in. rewrite Hb. split; [done|]. apply Forall_forall. intros [c' o'] Hin. cbn.
  apply list_elem_of_lookup in Hin as [k Hin]. apply lookup_zip_with_Some in Hin as (c1 & o1 & [= -> ->] & Hc1 & _).
  apply list_elem_of_lookup_2 in Hc1. destruct (tiles_within _ _ _ _ Ht Hc1) as (Hlo & _ & _).
  apply contains_spec in Hc. apply not_true_iff_false. rewrite contains_spec. lia.
Qed.

(** What every opening satisfies: that of a state at its sample, and one that
    is left open is the last sample. *)
Definition opening_ok (o : Opening.t) : Prop :=
  state_ok policy lead body
    (State.mk (Opening.index o) (Opening.reason o) (Opening.change o) false)
  /\ (Opening.stability o = CandidateStability.OpenAtWindowEnd ->
      S (Opening.index o) = length body).

Lemma stability_open p st :
  states !! p = Some st ->
  stability_of states p (length body) = CandidateStability.OpenAtWindowEnd ->
  S (State.start st) = length body.
Proof.
  intros Hp. unfold stability_of. rewrite Hp. destruct (State.motion st); [done|].
  destruct (bool_decide _) eqn:Eb.
  - apply bool_decide_eq_true in Eb. rewrite (lookup_ge_None_2 states (S p)) by lia.
    destruct (state_lookup _ _ _ _ _ Hp) as [_ [Hlt _ _ _]].
    destruct (length body - State.start st)%nat as [|[|]] eqn:E; [done| |done]. lia.
  - destruct (_ - _)%nat as [|[|]]; done.
Qed.

Lemma kept_openings_index kept :
  Opening.index <$> kept_openings states kept (length body) = starts_of states kept.
Proof.
  unfold kept_openings, starts_of. induction kept as [|p kept IH]; cbn; [done|].
  destruct (states !! p) as [st|]; cbn; [by rewrite IH|done].
Qed.

Lemma kept_openings_ok kept : Forall opening_ok (kept_openings states kept (length body)).
Proof.
  apply Forall_forall. intros o (p & _ & Ho)%list_elem_of_omap.
  destruct (states !! p) as [st|] eqn:Hp; [|done]. cbn in Ho. injection Ho as <-.
  destruct (state_lookup _ _ _ _ _ Hp) as [_ [H1 H2 H3 H4]]. split; cbn.
  - by split.
  - by apply stability_open.
Qed.

Lemma coverage_opening_ok o item :
  item ∈ zip cells firsts -> coverage_opening states body o item -> opening_ok o.
Proof.
  intros Hin (Hf & Hr & Hc & Hs). destruct (elem_of_items item Hin) as [_ Hspec].
  rewrite Hf in Hspec. destruct Hspec as [_ Hlt]. split.
  - rewrite Hr, Hc. split; cbn; done.
  - rewrite Hs. destruct (containing_state states (Opening.index o)) as [p|] eqn:E; [|done].
    unfold containing_state in E. apply last_Some_elem_of, list_elem_of_filter in E as [Hp _].
    destruct (states !! p) as [st|] eqn:Est; [|done]. apply Nat.leb_le in Hp.
    intros Hopen. pose proof (stability_open p st Est Hopen). lia.
Qed.

Lemma starts_sorted kept :
  StronglySorted (fun a b => (a < b)%nat) kept -> StronglySorted (fun a b => (a < b)%nat) (starts_of states kept).
Proof.
  intros Hk. apply (StronglySorted_omap _ _ _ _ Hk). intros p q a b Hpq Ha Hb.
  apply fmap_Some in Ha as (sa & Hsa & ->). apply fmap_Some in Hb as (sb & Hsb & ->).
  pose proof (states_sorted policy lead body) as Hs. rewrite StronglySorted_lookup in Hs.
  by apply (Hs p q).
Qed.

Lemma length_starts_of kept :
  Forall (fun p => (p < length states)%nat) kept -> length (starts_of states kept) = length kept.
Proof.
  induction 1 as [|p kept Hp _ IH]; [done|]. unfold starts_of. cbn [omap list_omap].
  destruct (lookup_lt_is_Some_2 _ _ Hp) as [st ->]. cbn. by f_equal.
Qed.

Lemma sorted_lt_NoDup (l : list nat) : StronglySorted (fun a b => (a < b)%nat) l -> NoDup l.
Proof.
  intros H. apply NoDup_alt. intros i j x Hi Hj. rewrite StronglySorted_lookup in H.
  destruct (Nat.lt_trichotomy i j) as [Hlt|[|Hlt]]; [|done|].
  - specialize (H _ _ _ _ Hlt Hi Hj). lia.
  - specialize (H _ _ _ _ Hlt Hj Hi). lia.
Qed.

Definition window_openings (kept : list nat) : list Opening.t :=
  stable_sort Opening.le
    (fold_left (add_coverage states body) (zip cells firsts)
       (kept_openings states kept (length body))).

(** The openings [build_candidates] cuts the window at. *)
Lemma openings_spec :
  let '(kept, dropped) := apply_budget states body cells firsts in
  let starts := window_openings kept in
  StronglySorted (fun a b => (Opening.index a < Opening.index b)%nat) starts
  /\ Forall opening_ok starts
  /\ (exists o, starts !! 0%nat = Some o /\ Opening.index o = 0%nat)
  /\ (length starts <= MAX_WINDOW_CANDIDATES)%nat
  /\ (dropped + length starts <= length body)%nat
  /\ (forall cell i, cell ∈ cells -> sample_in body cell i = true ->
        exists o, o ∈ starts /\ sample_in body cell (Opening.index o) = true).
Proof.
  destruct (first_state_at_0 policy lead body Hbody) as (st0 & Hst0 & Hz).
  assert (Hne : states <> []) by (intros E; by rewrite E in Hst0).
  pose proof (apply_budget_spec states body cells Hcells Hne) as Hb.
  destruct (apply_budget _ _ _ _) as [kept dropped]. destruct Hb as (Hok & Hsort & Hdrop & Hwhy).
  cbn zeta. unfold window_openings.
  set (starts0 := kept_openings states kept (length body)).
  destruct (coverage_pass states body (zip cells firsts) starts0 cells_own_firsts)
    as (cov & Hfold & Hcov & Hlen & Hall & Hnd). rewrite Hfold.
  assert (Hidx0 : Opening.index <$> starts0 = starts_of states kept) by apply kept_openings_index.
  pose proof (stable_sort_Permutation Opening.le (starts0 ++ cov)) as Hperm.
  set (L := stable_sort Opening.le (starts0 ++ cov)) in *.
  assert (Hoks : Forall opening_ok L).
  { rewrite Hperm. apply Forall_app. split; [apply kept_openings_ok|].
    eapply Forall_impl; [exact Hcov|]. intros o (item & Hin & Hco & _).
    by apply (coverage_opening_ok o item). }
  assert (HndL : NoDup (Opening.index <$> L)).
  { rewrite Hperm, fmap_app. apply NoDup_app. split; [|split; [|done]].
    - rewrite Hidx0. by apply sorted_lt_NoDup, starts_sorted.
    - intros i Hi (o & -> & Ho)%list_elem_of_fmap. rewrite Forall_forall in Hcov.
      destruct (Hcov o Ho) as (item & _ & _ & Hno & Hyes).
      by rewrite (covered_index body _ _ _ Hi Hyes) in Hno. }
  assert (HsL : StronglySorted (fun a b => (Opening.index a < Opening.index b)%nat) L).
  { apply (sorted_strictly _ Opening.le); [done| |done]. apply (StronglySorted_stable_sort Opening.le). }
  assert (HlenL : length L = (length kept + missing body cells (starts_of states kept))%nat).
  { rewrite Hperm, length_app, Hlen. unfold missing. f_equal.
    - rewrite <- (length_fmap Opening.index), Hidx0. by apply length_starts_of, Hok.
    - f_equal. apply list_filter_iff. intros item. unfold needs. by rewrite Hidx0. }
  split; [done|]. split; [done|]. split; [|split; [|split]].
  - assert (H0 : 0%nat ∈ Opening.index <$> L).
    { rewrite Hperm, fmap_app, Hidx0. apply elem_of_app. left. unfold starts_of.
      apply list_elem_of_omap. exists 0%nat. split; [apply Hok|]. rewrite Hst0. cbn. by rewrite Hz. }
    apply list_elem_of_fmap in H0 as (o & Ho & [k Hk]%list_elem_of_lookup).
    destruct k as [|k]; [by exists o|exfalso].
    destruct (lookup_lt_is_Some_2 L 0) as [o' Ho']; [apply lookup_lt_Some in Hk; lia|].
    rewrite StronglySorted_lookup in HsL. specialize (HsL 0%nat (S k) _ _ ltac:(lia) Ho' Hk). lia.
  - rewrite HlenL. apply Hok.
  - assert (Hn : (length L <= length body)%nat).
    { rewrite <- (length_fmap Opening.index), <- (length_seq (length body) 0).
      apply submseteq_length, NoDup_submseteq; [done|]. intros i (o & -> & Ho)%list_elem_of_fmap.
      apply elem_of_seq. rewrite Forall_forall in Hoks. destruct (Hoks o Ho) as [[Hlt _ _ _] _].
      cbn in Hlt. lia. }
    destruct Hwhy as [->|Hmany]; [lia|].
    pose proof (states_count policy lead body) as Hcount.
    pose proof (missing_le body cells (starts_of states kept)) as Hmiss.
    unfold MAX_WINDOW_CANDIDATES in Hmany.
    assert (H6 : (6 <= length body / 4)%nat) by divlia. lia.
  - intros cell i Hc Hi. apply list_elem_of_lookup in Hc as [k Hk].
    destruct (first_in_cells_lookup k cell Hk) as (first & Hf & Hspec).
    destruct first as [f|].
    + assert (Hin : (cell, Some f) ∈ zip cells firsts).
      { eapply list_elem_of_lookup_2, lookup_zip_with_Some. eauto. }
      specialize (Hall cell f Hin). unfold covered in Hall. apply existsb_exists in Hall as (j & Hj & Hsj).
      apply list_elem_of_In, list_elem_of_fmap in Hj as (o & -> & Ho). exists o. split; [|done].
      by rewrite Hperm.
    + unfold sample_in in Hi. destruct (body !! i) as [s|] eqn:Es; [|done].
      rewrite (Hspec s) in Hi; [done|]. by eapply list_elem_of_lookup_2.
Qed.
End Openings.
