(* ===== verification/VisualIndex.v ===== *)
(** * VisualIndex: committed windows and the index over them

    Models the identified candidates, [VisualIndexWindow], [VisualIndex] and
    the coverage gaps of [crates/vsift-domain/src/visual.rs]. The analysis of
    a window always passes the validation of the index, and an index is
    honest: what it does not name as a gap has a candidate. *)

From S2P Require Import Prelude.
From S2P Require Import Text.
From S2P Require Import Timeline.
From S2P Require Import Identity.
From S2P Require Import VisualSample.
From S2P Require Import VisualWindow.
From S2P Require Import VisualAnalysis.
From S2P Require Import VisualStates.
From S2P Require Import VisualBudget.

(** ** Identified candidates *)

Module VisualCandidate.
Record t := mk { id : OpaqueId VisualCandidateId; draft : CandidateDraft.t }.

Definition representative (c : t) : MediaTime := CandidateDraft.representative (draft c).
Definition reason (c : t) : CandidateReason.t := CandidateDraft.reason (draft c).
End VisualCandidate.

Module CandidateOmission.
Inductive t := Nothing | PeriodicCoverage.

Definition ALL : list t := [Nothing; PeriodicCoverage].

Definition identifier (o : t) : string :=
  match o with Nothing => "none" | PeriodicCoverage => "periodic" end.

Definition left_out_reason (o : t) : option CandidateReason.t :=
  match o with
  | Nothing => None
  | PeriodicCoverage => Some CandidateReason.PeriodicCoverage
  end.

Definition leaves_out (o : t) (candidate : VisualCandidate.t) : bool :=
  bool_decide (left_out_reason o = Some (VisualCandidate.reason candidate)).
End CandidateOmission.

(** ** Windows of a committed index *)

Inductive VisualWindowOutcome :=
| Analysed (sample_count : Z) (candidates : list VisualCandidate.t) (dropped_candidates : Z)
    (frameless_cells : list TimeRange.t)
| Undecodable.

(** The check of the candidate at [position]: [previous] is the candidate
    before it, [rest] the ones after it. *)
Definition validate_candidate (window : VisualWindow.t) (policy : VisualChangePolicy)
    (position : nat) (previous : option VisualCandidate.t) (candidate : VisualCandidate.t)
    (rest : list VisualCandidate.t) : result unit VisualIndexError :=
  let range := VisualWindow.range window in
  let draft := VisualCandidate.draft candidate in
  let expected_end := match rest with
                      | next :: _ => VisualCandidate.representative next
                      | [] => TimeRange.end_ range
                      end in
  if negb (contains range (CandidateDraft.representative draft))
     || negb (TimeRange.start (CandidateDraft.span draft) =? CandidateDraft.representative draft)
     || negb (TimeRange.end_ (CandidateDraft.span draft) =? expected_end)
     || (CandidateDraft.sample_count draft =? 0)
  then Err InvalidCandidate
  else if (bool_decide (CandidateDraft.reason draft = CandidateReason.FirstFrame)
           && negb (position =? 0)%nat)
          || (bool_decide (CandidateDraft.stability draft = CandidateStability.OpenAtWindowEnd)
              && match rest with [] => false | _ => true end)
  then Err InvalidCandidate
  else
    match CandidateReason.has_change (CandidateDraft.reason draft), CandidateDraft.change draft with
    | false, None => Ok tt
    | true, Some change =>
        let earliest := match position, previous with
                        | O, _ => VisualWindow.lead_in_start window
                        | S _, Some p => VisualCandidate.representative p
                        | S _, None => TimeRange.start range
                        end in
        if (CandidateChange.previous_sample change <? earliest)
           || (CandidateDraft.representative draft <=? CandidateChange.previous_sample change)
           || negb (is_change policy (CandidateChange.delta change))
        then Err InvalidChange else Ok tt
    | _, _ => Err InvalidChange
    end.

(** The loop over the candidates, adding up their samples. *)
Fixpoint validate_candidates (window : VisualWindow.t) (policy : VisualChangePolicy)
    (position : nat) (previous : option VisualCandidate.t) (total : Z)
    (candidates : list VisualCandidate.t) : result Z VisualIndexError :=
  match candidates with
  | [] => Ok total
  | candidate :: rest =>
      let? _ := validate_candidate window policy position previous candidate rest in
      validate_candidates window policy (S position) (Some candidate)
        (total + CandidateDraft.sample_count (VisualCandidate.draft candidate)) rest
  end.

Definition validate_analysed (window : VisualWindow.t) (sample_count : Z)
    (candidates : list VisualCandidate.t) (dropped : Z) (frameless : list TimeRange.t)
    (policy : VisualChangePolicy) : result unit VisualIndexError :=
  let cells := VisualWindow.cells window in
  if (Z.of_nat MAX_WINDOW_SAMPLES <? sample_count)
     || (MAX_WINDOW_CANDIDATES <? length candidates)%nat
     || (sample_count <? dropped + Z.of_nat (length candidates))
  then Err TooManyCandidates
  else if sample_count =? 0 then
    if negb (length candidates =? 0)%nat || negb (dropped =? 0)
       || negb (bool_decide (frameless = cells))
    then Err InvalidCoverage else Ok tt
  else
    let? first := ok_or (head candidates) InvalidCandidate in
    if negb (VisualCandidate.representative first
             =? TimeRange.start (CandidateDraft.span (VisualCandidate.draft first)))
    then Err InvalidCandidate
    else
      let? total_samples := validate_candidates window policy 0 None 0 candidates in
      if negb (total_samples =? sample_count) then Err InvalidCandidate
      else
        let expected_frameless :=
          filter (fun cell => existsb (fun c => contains cell (VisualCandidate.representative c))
                                candidates = false) cells in
        if negb (bool_decide (frameless = expected_frameless)) then Err InvalidCoverage
        else Ok tt.

Module VisualIndexWindow.
Record t := mk { window : VisualWindow.t; outcome : VisualWindowOutcome }.

Definition new (window : VisualWindow.t) (outcome : VisualWindowOutcome)
    (policy : VisualChangePolicy) : result t VisualIndexError :=
  let? _ := match outcome with
            | Analysed sample_count candidates dropped frameless =>
                validate_analysed window sample_count candidates dropped frameless policy
            | Undecodable => Ok tt
            end in
  Ok (mk window outcome).

Definition candidates (w : t) : list VisualCandidate.t :=
  match outcome w with
  | Analysed _ candidates _ _ => candidates
  | Undecodable => []
  end.
End VisualIndexWindow.

(** ** The index *)

Inductive CoverageGapReason :=
| NotAnalyzed | DeadlineExceeded | GapUndecodable | NoDecodedFrame | CandidateBudgetExhausted.

Definition CoverageGapReason_ALL : list CoverageGapReason :=
  [NotAnalyzed; DeadlineExceeded; GapUndecodable; NoDecodedFrame; CandidateBudgetExhausted].

Definition gap_identifier (r : CoverageGapReason) : string :=
  match r with
  | NotAnalyzed => "not_analyzed"
  | DeadlineExceeded => "deadline_exceeded"
  | GapUndecodable => "undecodable"
  | NoDecodedFrame => "no_decoded_frame"
  | CandidateBudgetExhausted => "candidate_budget_exhausted"
  end.

Definition is_retryable (r : CoverageGapReason) : bool :=
  match r with NotAnalyzed | DeadlineExceeded => true | _ => false end.

Module VisualCoverageGap.
Record t := mk { range : TimeRange.t; reason : CoverageGapReason; dropped_candidates : Z }.
End VisualCoverageGap.

Module VisualIndexParts.
Record t := mk {
  id : OpaqueId VisualIndexId;
  number : Z;
  source_id : DigestId SourceId;
  stream_index : Z;
  displayed_dimensions : FrameDimensions.t;
  duration : MediaTime;
  profile : VisualIndexProfile;
  windows : list VisualIndexWindow.t
}.
End VisualIndexParts.

Definition intersect (l r : TimeRange.t) : option TimeRange.t :=
  result_ok (TimeRange.new (Z.max (TimeRange.start l) (TimeRange.start r))
               (Z.min (TimeRange.end_ l) (TimeRange.end_ r))).

(** [slice::binary_search_by_key] on a list whose keys ascend strictly. *)
Definition binary_search {A} (key : A -> Z) (k : Z) (l : list A) : option nat :=
  let position := partition_point (fun a => key a <? k) l in
  match l !! position with
  | Some a => if key a =? k then Some position else None
  | None => None
  end.

Module VisualIndex.
Record t := mk { parts : VisualIndexParts.t }.

(** The identities of one window's candidates, each inserted into the set. *)
Fixpoint insert_identities (identities : list text) (candidates : list VisualCandidate.t)
    : option (list text) :=
  match candidates with
  | [] => Some identities
  | c :: rest =>
      let name := as_str (VisualCandidate.id c) in
      if bool_decide (name ∈ identities) then None else insert_identities (name :: identities) rest
  end.

Fixpoint check_windows (duration : MediaTime) (previous : option Z) (identities : list text)
    (windows : list VisualIndexWindow.t) : result unit VisualIndexError :=
  match windows with
  | [] => Ok tt
  | window :: rest =>
      let ordinal := VisualWindow.ordinal (VisualIndexWindow.window window) in
      let? grid := VisualWindow.new ordinal duration in
      if negb (bool_decide (grid = VisualIndexWindow.window window)) then Err InvalidWindow
      else if match previous with Some before => ordinal <=? before | None => false end
      then Err UnorderedWindows
      else
        let? identities' := ok_or (insert_identities identities (VisualIndexWindow.candidates window))
                              DuplicateCandidate in
        check_windows duration (Some ordinal) identities' rest
  end.

Definition new (parts : VisualIndexParts.t) : result t VisualIndexError :=
  let duration := VisualIndexParts.duration parts in
  if (duration =? 0) || (MAX_VISUAL_INDEX_DURATION_MICROS <? duration) then Err InvalidDuration
  else
    let? _ := check_windows duration None [] (VisualIndexParts.windows parts) in
    Ok (mk parts).

Definition windows (i : t) : list VisualIndexWindow.t := VisualIndexParts.windows (parts i).
Definition duration (i : t) : MediaTime := VisualIndexParts.duration (parts i).

Definition window (i : t) (ordinal : Z) : option VisualIndexWindow.t :=
  position ← binary_search (fun w => VisualWindow.ordinal (VisualIndexWindow.window w)) ordinal
    (windows i);
  windows i !! position.

(** The half-open range of ordinals [first..last]. *)
Definition window_ordinals (i : t) (range : TimeRange.t) : Z * Z :=
  let count := visual_window_count (duration i) in
  let first := TimeRange.start range / VISUAL_WINDOW_MICROS in
  let last := div_ceil (TimeRange.end_ range) VISUAL_WINDOW_MICROS in
  (Z.min (default U32_MAX (checked_u32 first)) count, Z.min (default U32_MAX (checked_u32 last)) count).

Definition candidates_in (i : t) (range : TimeRange.t) : list VisualCandidate.t :=
  filter (fun c => contains range (VisualCandidate.representative c) = true)
    (w ← windows i; VisualIndexWindow.candidates w).

(** The gaps of the window with one ordinal, each part clipped to [range]. *)
Definition gaps_of (i : t) (range : TimeRange.t) (ordinal : Z) : list VisualCoverageGap.t :=
  match VisualWindow.new ordinal (duration i) with
  | Err _ => []
  | Ok grid =>
      let push part reason dropped :=
        match intersect part range with
        | Some clipped => [VisualCoverageGap.mk clipped reason dropped]
        | None => []
        end in
      match VisualIndexWindow.outcome <$> window i ordinal with
      | None => push (VisualWindow.range grid) NotAnalyzed 0
      | Some Undecodable => push (VisualWindow.range grid) GapUndecodable 0
      | Some (Analysed _ _ dropped frameless) =>
          (if 0 <? dropped
           then push (VisualWindow.range grid) CandidateBudgetExhausted dropped else [])
          ++ (cell ← frameless; push cell NoDecodedFrame 0)
      end
  end.

Definition coverage_gaps (i : t) (range : TimeRange.t) : list VisualCoverageGap.t :=
  let '(first, last) := window_ordinals i range in
  ordinal ← (Z.of_nat <$> seq (Z.to_nat first) (Z.to_nat last - Z.to_nat first));
  gaps_of i range ordinal.
End VisualIndex.
