(* ===== verification/VisualSound.v ===== *)
(** * VisualSound: the analysis of a window passes the index's validation

    The end-to-end theorem of the visual component: whatever samples a
    window's decode returns, the candidates [analyse_window] makes of them
    satisfy every rule [VisualIndexWindow::new] checks again. *)

From S2P Require Import Prelude.
From S2P Require Import Timeline.
From S2P Require Import Identity.
From S2P Require Import VisualSample.
From S2P Require Import VisualWindow.
From S2P Require Import VisualAnalysis.
From S2P Require Import VisualStates.
From S2P Require Import VisualBudget.
From S2P Require Import VisualIndex.

(** ** Validated samples *)

Definition ordered (samples : list VisualSample.t) : Prop :=
  StronglySorted (fun a b => VisualSample.time a < VisualSample.time b) samples.

Lemma validate_from_spec lead_start end_ previous samples :
  validate_from lead_start end_ previous samples = Ok tt ->
  ordered samples
  /\ Forall (fun s => lead_start <= VisualSample.time s < end_
              /\ forall p, previous = Some p -> p < VisualSample.time s) samples.
Proof.
  revert previous. induction samples as [|s samples IH]; intros previous H; [by split; constructor|].
  cbn [validate_from] in H. destruct (_ || _) eqn:E1; [done|]. bool_prop.
  destruct (match previous with Some p => _ | None => _ end) eqn:E2; [done|].
  destruct (IH _ H) as [HA HB]. split.
  - constructor; [done|]. eapply Forall_impl; [exact HB|]. cbn. intros x [_ Hx]. by apply Hx.
  - constructor.
    + split; [lia|]. intros p ->. by bool_prop.
    + eapply Forall_impl; [exact HB|]. cbn. intros x [Hr Hx]. split; [done|].
      intros p ->. bool_prop. specialize (Hx _ eq_refl). lia.
Qed.

Lemma validate_from_complete lead_start end_ previous samples :
  ordered samples ->
  Forall (fun s => lead_start <= VisualSample.time s < end_
            /\ forall p, previous = Some p -> p < VisualSample.time s) samples ->
  validate_from lead_start end_ previous samples = Ok tt.
Proof.
  intros Ho. revert previous. induction Ho as [|s samples _ IH Hs]; intros previous Hf; [done|].
  apply Forall_cons in Hf as [[Hr Hp] Hf]. cbn [validate_from].
  rewrite (proj2 (Z.ltb_ge _ _)), (proj2 (Z.leb_gt _ _)) by lia. cbn [orb].
  assert (Hrest : validate_from lead_start end_ (Some (VisualSample.time s)) samples = Ok tt).
  { apply IH. apply Forall_forall. intros x Hx. rewrite Forall_forall in Hf, Hs.
    destruct (Hf x Hx) as [Hxr _]. split; [done|]. intros p [= <-]. by apply Hs. }
  destruct previous as [p|]; [|done].
  by rewrite (proj2 (Z.leb_gt (VisualSample.time s) p)) by auto.
Qed.

(** Cells without a sample, by the samples and by the openings. *)
Lemma frameless_filter body cells starts :
  (forall o, o ∈ starts -> (Opening.index o < length body)%nat) ->
  (forall cell i, cell ∈ cells -> sample_in body cell i = true ->
     exists o, o ∈ starts /\ sample_in body cell (Opening.index o) = true) ->
  fst <$> filter (fun item : TimeRange.t * option nat => item.2 = None)
            (zip cells (first_in_cells cells body))
  = filter (fun cell => existsb (fun o => sample_in body cell (Opening.index o)) starts = false) cells.
Proof.
  intros Hlt. induction cells as [|cell cells IH]; intros Hcov; [done|].
  cbn [first_in_cells fmap list_fmap zip zip_with]. rewrite !filter_cons. cbn [snd].
  assert (Hrest : forall cell i, cell ∈ cells -> sample_in body cell i = true ->
     exists o, o ∈ starts /\ sample_in body cell (Opening.index o) = true)
    by (intros c i Hc; apply Hcov; by right).
  specialize (IH Hrest). destruct (list_find _ body) as [[f s]|] eqn:E; cbn [fmap option_fmap option_map].
  - rewrite decide_False by done. apply list_find_Some in E as (Hf & Hc & _).
    destruct (Hcov cell f) as (o & Ho & Hs); [by left|unfold sample_in; by rewrite Hf|].
    rewrite decide_False; [done|]. rewrite existsb_false, Forall_forall. intros Hno.
    by rewrite (Hno o Ho) in Hs.
  - rewrite decide_True by done. rewrite decide_True; [cbn; by f_equal|].
    rewrite existsb_false, Forall_forall. intros o Ho. unfold sample_in.
    destruct (body !! Opening.index o) as [s|] eqn:Es; [|done]. apply list_find_None in E.
    rewrite Forall_forall in E. apply not_true_iff_false, E. by eapply list_elem_of_lookup_2.
Qed.

(** Two lists that agree position by position. *)
Lemma existsb_zip {A B} (f : A -> bool) (g : B -> bool) (l : list A) (k : list B) :
  length l = length k ->
  (forall p a b, l !! p = Some a -> k !! p = Some b -> g b = f a) ->
  existsb f l = existsb g k.
Proof.
  revert k. induction l as [|a l IH]; intros [|b k] Hl H; try discriminate Hl; [done|]. cbn.
  rewrite (H 0%nat a b eq_refl eq_refl), (IH k); [done|by injection Hl|].
  intros p x y Hx Hy. by apply (H (S p)).
Qed.

Section Window.
Context (w : VisualWindow.t) (samples : list VisualSample.t) (policy : VisualChangePolicy).
Context (Hord : 0 <= VisualWindow.ordinal w) (Hgrid : VisualWindow.on_grid w).
Context (Hvalid : validate_samples w samples = Ok tt).

Abbreviation wstart := (TimeRange.start (VisualWindow.range w)).
Abbreviation wend := (TimeRange.end_ (VisualWindow.range w)).
Abbreviation split := (partition_point (fun s => VisualSample.time s <? wstart) samples).
Abbreviation body := (drop split samples).

Definition lead : option VisualSample.t :=
  match split with O => None | S index => samples !! index end.

Lemma samples_facts :
  (length samples <= MAX_WINDOW_SAMPLES)%nat /\ ordered samples
  /\ Forall (fun s => VisualWindow.lead_in_start w <= VisualSample.time s < wend) samples.
Proof.
  unfold validate_samples in Hvalid. destruct (_ <? _)%nat eqn:E; [done|].
  apply Nat.ltb_ge in E. apply validate_from_spec in Hvalid as [H1 H2].
  split; [done|]. split; [done|]. eapply Forall_impl; [exact H2|]. cbn. tauto.
Qed.

Lemma body_ordered i j a b :
  (i < j)%nat -> body !! i = Some a -> body !! j = Some b ->
  VisualSample.time a < VisualSample.time b.
Proof.
  intros Hij Ha Hb. rewrite lookup_drop in Ha, Hb. destruct samples_facts as (_ & Ho & _).
  unfold ordered in Ho. rewrite StronglySorted_lookup in Ho.
  by apply (Ho (split + i)%nat (split + j)%nat); [lia| |].
Qed.

Lemma body_in_window i s : body !! i = Some s -> wstart <= VisualSample.time s < wend.
Proof.
  intros Hs. pose proof Hs as Hs'. rewrite lookup_drop in Hs'.
  destruct samples_facts as (_ & _ & Hf). rewrite Forall_lookup in Hf.
  split; [|by apply (Hf _ _ Hs')].
  destruct (lookup_lt_is_Some_2 samples split) as [s0 Hs0]; [apply lookup_lt_Some in Hs'; lia|].
  pose proof (partition_point_eq _ _ _ Hs0) as Hp. cbn in Hp. bool_prop.
  destruct i as [|i]; [rewrite Nat.add_0_r in Hs'; congruence|].
  assert (Hb0 : body !! 0%nat = Some s0) by (by rewrite lookup_drop, Nat.add_0_r).
  pose proof (body_ordered 0 (S i) s0 s ltac:(lia) Hb0 Hs). lia.
Qed.

Lemma lead_before s : lead = Some s -> VisualWindow.lead_in_start w <= VisualSample.time s < wstart.
Proof.
  unfold lead. destruct split as [|index] eqn:E; [done|]. intros Hs.
  destruct samples_facts as (_ & _ & Hf). rewrite Forall_lookup in Hf.
  destruct (Hf _ _ Hs) as [Hlo _]. split; [done|].
  pose proof (partition_point_lt (fun s => VisualSample.time s <? wstart) samples index s Hs ltac:(lia)) as Hp.
  cbn in Hp. by bool_prop.
Qed.

Lemma body_length : (length body <= MAX_WINDOW_SAMPLES)%nat.
Proof. rewrite length_drop. destruct samples_facts as (H & _). lia. Qed.

(** The time of a sample of the window, and of the sample after the last. *)
Definition time_at (i : nat) : Z :=
  match body !! i with Some s => VisualSample.time s | None => wend end.

Lemma time_at_mono i j : (i < j)%nat -> (i < length body)%nat -> time_at i < time_at j.
Proof.
  intros Hij Hi. unfold time_at. destruct (lookup_lt_is_Some_2 body i Hi) as [a Ha]. rewrite Ha.
  destruct (body !! j) as [b|] eqn:Hb.
  - by apply (body_ordered i j).
  - by apply (body_in_window i).
Qed.

Lemma time_at_bounds i : (i < length body)%nat -> wstart <= time_at i < wend.
Proof.
  intros Hi. unfold time_at. destruct (lookup_lt_is_Some_2 body i Hi) as [a Ha]. rewrite Ha.
  by apply (body_in_window i).
Qed.

(** ** From openings to candidates *)

Context (starts : list Opening.t).
Context (Hsorted : StronglySorted (fun a b => (Opening.index a < Opening.index b)%nat) starts).
Context (Hok : Forall (opening_ok policy lead body) starts).

Lemma opening_at p o : starts !! p = Some o -> opening_ok policy lead body o.
Proof. apply (proj1 (Forall_lookup _ _) Hok). Qed.

(** Where the opening at [p] starts, and where the last one ends. *)
Definition index_at (p : nat) : nat :=
  match starts !! p with Some o => Opening.index o | None => length body end.

Lemma index_at_mono p q : (p < q)%nat -> (p < length starts)%nat -> (index_at p < index_at q)%nat.
Proof.
  intros Hpq Hp. unfold index_at. destruct (lookup_lt_is_Some_2 starts p Hp) as [a Ha]. rewrite Ha.
  destruct (starts !! q) as [b|] eqn:Hb.
  - rewrite StronglySorted_lookup in Hsorted. by apply (Hsorted p q).
  - destruct (opening_at _ _ Ha) as [[Hlt _ _ _] _]. done.
Qed.

(** The candidate the opening at [p] becomes. *)
Definition draft_of (p : nat) (o : Opening.t) (hash : VisualHash.t) : CandidateDraft.t :=
  CandidateDraft.mk (Opening.reason o) (time_at (index_at p))
    (TimeRange.mk (time_at (index_at p)) (time_at (index_at (S p))))
    (Z.of_nat (index_at (S p) - index_at p)) (Opening.stability o) (Opening.change o) hash.

Lemma draft_at_spec p o :
  starts !! p = Some o -> exists hash, draft_at body wend starts p = Some (draft_of p o hash).
Proof.
  intros Hp. assert (Hidx : index_at p = Opening.index o) by (unfold index_at; by rewrite Hp).
  assert (Hlt : (index_at p < length body)%nat).
  { destruct (opening_at _ _ Hp) as [[Hlt _ _ _] _]. by rewrite Hidx. }
  destruct (lookup_lt_is_Some_2 body (index_at p) Hlt) as [s Hs].
  assert (Hpl : (p < length starts)%nat) by (by eapply lookup_lt_Some).
  assert (Hnext : (index_at p < index_at (S p))%nat) by (apply index_at_mono; lia).
  pose proof (time_at_mono _ _ Hnext Hlt) as Ht.
  exists (VisualSample.hash s). unfold draft_at. rewrite Hp. cbn [mbind option_bind].
  rewrite <- Hidx, Hs. cbn [mbind option_bind].
  assert (Htime : time_at (index_at p) = VisualSample.time s) by (unfold time_at; by rewrite Hs).
  assert (Hnx : match starts !! S p with
    | None => (wend, length body)
    | Some next => (match body !! Opening.index next with
                    | Some s => VisualSample.time s | None => wend end, Opening.index next)
    end = (time_at (index_at (S p)), index_at (S p))).
  { unfold time_at, index_at. destruct (starts !! S p) as [next|]; [done|].
    rewrite (lookup_ge_None_2 body (length body)) by lia. done. }
  rewrite Hnx. unfold TimeRange.new. rewrite <- Htime, (proj2 (Z.leb_gt _ _)) by lia.
  cbn [result_ok mbind option_bind].
  assert (Hc : checked_u16 (Z.of_nat (index_at (S p) - index_at p))
               = Some (Z.of_nat (index_at (S p) - index_at p))).
  { apply checked_in. assert (Hle : (index_at (S p) <= length body)%nat).
    { unfold index_at. destruct (starts !! S p) as [o'|] eqn:Ho'; [|lia].
      destruct (opening_at _ _ Ho') as [[Hlt' _ _ _] _]. cbn in Hlt'. lia. }
    pose proof body_length. unfold MAX_WINDOW_SAMPLES in *. ulia. }
  rewrite Hc. reflexivity.
Qed.

Context (cands : list VisualCandidate.t).
Context (Hcands : VisualCandidate.draft <$> cands
  = omap (draft_at body wend starts) (seq 0 (length starts))).
Context (Hzero : index_at 0 = 0%nat) (Hsome : starts <> []).

Lemma drafts_all :
  length cands = length starts
  /\ forall p o, starts !! p = Some o ->
       exists c hash, cands !! p = Some c /\ VisualCandidate.draft c = draft_of p o hash.
Proof.
  destruct (omap_seq_all (draft_at body wend starts) 0 (length starts)) as [Hl Hp].
  { intros p Hp. destruct (lookup_lt_is_Some_2 starts p) as [o Ho]; [lia|].
    destruct (draft_at_spec p o Ho) as [h ->]. by eexists. }
  rewrite <- Hcands, length_fmap in Hl. split; [done|]. intros p o Ho.
  assert (Hlt : (p < length starts)%nat) by (by eapply lookup_lt_Some).
  specialize (Hp p Hlt). rewrite <- Hcands in Hp. cbn in Hp.
  destruct (draft_at_spec p o Ho) as [h Hd]. rewrite Hd in Hp.
  apply list_lookup_fmap_Some in Hp as (c & Hc & Hcp). by exists c, h.
Qed.

Lemma representative_at p c : cands !! p = Some c -> VisualCandidate.representative c = time_at (index_at p).
Proof.
  destruct drafts_all as [Hl Hp]. intros Hc. apply lookup_lt_Some in Hc as Hlt. rewrite Hl in Hlt.
  destruct (lookup_lt_is_Some_2 starts p Hlt) as [o Ho]. destruct (Hp p o Ho) as (c' & h & Hc' & Hd).
  rewrite Hc in Hc'. injection Hc' as <-. unfold VisualCandidate.representative. by rewrite Hd.
Qed.

Lemma index_at_lt p : (p < length starts)%nat -> (index_at p < length body)%nat.
Proof.
  intros Hp. unfold index_at. destruct (lookup_lt_is_Some_2 starts p Hp) as [o Ho]. rewrite Ho.
  by destruct (opening_at _ _ Ho) as [[Hlt _ _ _] _].
Qed.

Definition previous_of (p : nat) : option VisualCandidate.t :=
  match p with O => None | S q => cands !! q end.

(** The change a candidate records was seen since the candidate before it. *)
Lemma change_ok p o change :
  starts !! p = Some o -> Opening.change o = Some change ->
  let earliest := match p, previous_of p with
                  | O, _ => VisualWindow.lead_in_start w
                  | S _, Some c => VisualCandidate.representative c
                  | S _, None => wstart
                  end in
  earliest <= CandidateChange.previous_sample change < time_at (index_at p)
  /\ is_change policy (CandidateChange.delta change) = true.
Proof.
  intros Ho Hch earliest. destruct (opening_at _ _ Ho) as [[Hlt _ _ Hso] _].
  cbn in Hlt, Hso. destruct (Hso _ Hch) as (Hic & s & Hs & Hprev). split; [|done]. rewrite Hprev.
  assert (Hidx : index_at p = Opening.index o) by (unfold index_at; by rewrite Ho).
  destruct p as [|q].
  - rewrite Hzero in Hidx. rewrite <- Hidx in Hs. unfold earliest.
    destruct (lead_before s Hs). rewrite Hzero. pose proof (time_at_bounds 0). lia.
  - assert (Hq : (q < length starts)%nat) by (apply lookup_lt_Some in Ho; lia).
    pose proof (index_at_mono q (S q) ltac:(lia) Hq) as Hmono.
    destruct (Opening.index o) as [|j] eqn:Ej; [lia|].
    assert (Htj : VisualSample.time s = time_at j) by (unfold time_at; by rewrite Hs).
    assert (Hjl : (j < length body)%nat) by (by eapply lookup_lt_Some).
    unfold earliest. cbn [previous_of].
    destruct (lookup_lt_is_Some_2 cands q) as [c Hc]; [destruct drafts_all as [-> _]; lia|].
    rewrite Hc, (representative_at q c Hc), Hidx, Htj. split; [|apply time_at_mono; lia].
    destruct (decide (index_at q = j)) as [->|]; [lia|].
    pose proof (time_at_mono (index_at q) j ltac:(lia) ltac:(lia)). lia.
Qed.

Lemma validate_candidate_ok p c :
  cands !! p = Some c ->
  validate_candidate w policy p (previous_of p) c (drop (S p) cands) = Ok tt.
Proof.
  intros Hc. destruct drafts_all as [Hl Hp]. apply lookup_lt_Some in Hc as Hlt. rewrite Hl in Hlt.
  destruct (lookup_lt_is_Some_2 starts p Hlt) as [o Ho]. destruct (Hp p o Ho) as (c' & h & Hc' & Hd).
  rewrite Hc in Hc'. injection Hc' as <-.
  pose proof (index_at_lt p Hlt) as Hil. pose proof (index_at_mono p (S p) ltac:(lia) Hlt) as Him.
  pose proof (time_at_bounds _ Hil) as Htb. pose proof (time_at_mono _ _ Him Hil) as Htm.
  assert (Hend : match drop (S p) cands with
                 | next :: _ => VisualCandidate.representative next
                 | [] => wend
                 end = time_at (index_at (S p))).
  { destruct (drop (S p) cands) as [|next l] eqn:E.
    - apply (f_equal length) in E. rewrite length_drop in E. cbn in E.
      unfold index_at. rewrite (lookup_ge_None_2 starts (S p)) by lia. unfold time_at.
      by rewrite (lookup_ge_None_2 body (length body)).
    - apply (representative_at (S p)). rewrite <- (Nat.add_0_r (S p)), <- lookup_drop, E. done. }
  unfold validate_candidate. cbn zeta. rewrite Hend, Hd. unfold draft_of. cbn [CandidateDraft.representative
    CandidateDraft.span CandidateDraft.sample_count CandidateDraft.reason CandidateDraft.stability
    CandidateDraft.change TimeRange.start TimeRange.end_].
  rewrite (proj2 (contains_spec _ _)) by lia. rewrite !Z.eqb_refl, (proj2 (Z.eqb_neq _ _)) by lia.
  cbn [negb orb]. pose proof (opening_at _ _ Ho) as [[_ Hff Hhc Hso] Hopen].
  cbn in Hff, Hhc, Hso.
  assert (Hrules : bool_decide (Opening.reason o = CandidateReason.FirstFrame) && negb (p =? 0)%nat
    || bool_decide (Opening.stability o = CandidateStability.OpenAtWindowEnd)
       && match drop (S p) cands with [] => false | _ => true end = false).
  { apply orb_false_iff. split.
    - destruct (bool_decide (Opening.reason o = _)) eqn:Hr; [|done].
      apply bool_decide_eq_true in Hr. specialize (Hff Hr). destruct p as [|q]; [done|].
      assert (Hidx : index_at (S q) = Opening.index o) by (unfold index_at; by rewrite Ho).
      pose proof (index_at_mono 0 (S q) ltac:(lia) ltac:(lia)). lia.
    - destruct (bool_decide (Opening.stability o = _)) eqn:Hr; [|done].
      apply bool_decide_eq_true in Hr. specialize (Hopen Hr).
      assert (Hidx : index_at p = Opening.index o) by (unfold index_at; by rewrite Ho).
      destruct (drop (S p) cands) eqn:E; [done|]. apply (f_equal length) in E.
      rewrite length_drop in E. cbn in E. pose proof (index_at_lt (S p) ltac:(lia)). lia. }
  rewrite Hrules, Hhc. destruct (Opening.change o) as [change|] eqn:Ech.
  - rewrite bool_decide_true by (by eexists).
    destruct (change_ok p o change Ho Ech) as [Hr Hic]. rewrite Hic. cbn zeta in Hr.
    destruct p as [|q]; by rewrite (proj2 (Z.ltb_ge _ _)), (proj2 (Z.leb_gt _ _)) by lia.
  - by rewrite bool_decide_false by (by intros [? ?]).
Qed.

Lemma validate_candidates_ok k p total :
  (p + k = length starts)%nat ->
  validate_candidates w policy p (previous_of p) total (drop p cands)
  = Ok (total + Z.of_nat (length body - index_at p)).
Proof.
  destruct drafts_all as [Hl Hp]. revert p total. induction k as [|k IH]; intros p total Hk.
  - rewrite drop_ge by lia. cbn [validate_candidates]. unfold index_at.
    rewrite (lookup_ge_None_2 starts p) by lia. do 2 f_equal. lia.
  - destruct (lookup_lt_is_Some_2 starts p) as [o Ho]; [lia|].
    destruct (Hp p o Ho) as (c & h & Hc & Hd).
    rewrite (drop_S _ _ _ Hc). cbn [validate_candidates].
    rewrite (validate_candidate_ok p c Hc). cbn [result_bind].
    assert (Hprev : Some c = previous_of (S p)) by done. rewrite Hprev, IH by lia.
    f_equal. rewrite Hd. unfold draft_of. cbn [CandidateDraft.sample_count].
    pose proof (index_at_mono p (S p) ltac:(lia) ltac:(lia)).
    assert (index_at (S p) <= length body)%nat; [|lia].
    destruct (decide (S p < length starts)%nat) as [Hlt|].
    + pose proof (index_at_lt _ Hlt). lia.
    + unfold index_at. by rewrite (lookup_ge_None_2 starts (S p)) by lia.
Qed.
(** A cell holds a candidate exactly when it holds the sample it opens at. *)
Lemma representative_sampled p o c cell :
  starts !! p = Some o -> cands !! p = Some c ->
  contains cell (VisualCandidate.representative c) = sample_in body cell (Opening.index o).
Proof.
  intros Ho Hc. rewrite (representative_at p c Hc). unfold time_at, index_at, sample_in. rewrite Ho.
  destruct (body !! Opening.index o) as [s|] eqn:Es; [done|]. apply lookup_ge_None in Es.
  destruct (opening_at p o Ho) as [[Hlt _ _ _] _]. cbn in Hlt. lia.
Qed.

(** The cells without a frame are the cells without a candidate. *)
Lemma frameless_agree cells :
  (forall cell i, cell ∈ cells -> sample_in body cell i = true ->
     exists o, o ∈ starts /\ sample_in body cell (Opening.index o) = true) ->
  fst <$> filter (fun item : TimeRange.t * option nat => item.2 = None)
            (zip cells (first_in_cells cells body))
  = filter (fun cell => existsb (fun c => contains cell (VisualCandidate.representative c)) cands
                        = false) cells.
Proof.
  intros Hcov. destruct drafts_all as [Hl _]. rewrite (frameless_filter _ _ starts); [| |exact Hcov].
  - apply list_filter_iff. intros cell. by rewrite (existsb_zip _ _ _ _ (eq_sym Hl)
      (fun p o c Ho Hc => representative_sampled p o c cell Ho Hc)).
  - intros o [p Ho]%list_elem_of_lookup. destruct (opening_at p o Ho) as [[Hlt _ _ _] _]. done.
Qed.

(** The candidates pass every check of the window. *)
Lemma validate_analysed_ok dropped :
  (length starts <= 32)%nat -> (0 < length body <= 122)%nat ->
  Z.of_nat dropped + Z.of_nat (length starts) <= Z.of_nat (length body) ->
  validate_analysed w (Z.of_nat (length body)) cands (Z.of_nat dropped)
    (filter (fun cell => existsb (fun c => contains cell (VisualCandidate.representative c)) cands
                         = false) (VisualWindow.cells w)) policy = Ok tt.
Proof.
  intros H32 Hlen Hdrop. destruct drafts_all as [Hl Hp].
  pose proof (validate_candidates_ok (length starts) 0 0 eq_refl) as Hloop.
  rewrite Hzero, Nat.sub_0_r, Z.add_0_l, drop_0 in Hloop. cbn [previous_of] in Hloop.
  destruct starts as [|o0 starts'] eqn:Est; [done|]. destruct (Hp 0%nat o0 eq_refl) as (c0 & h & Hc0 & Hd).
  assert (Hhead : head cands = Some c0) by (destruct cands; cbn in *; congruence).
  assert (Hfirst : VisualCandidate.representative c0
                   = TimeRange.start (CandidateDraft.span (VisualCandidate.draft c0)))
    by (unfold VisualCandidate.representative; by rewrite Hd).
  unfold validate_analysed, MAX_WINDOW_SAMPLES, MAX_WINDOW_CANDIDATES.
  rewrite (proj2 (Z.ltb_ge _ _)), (proj2 (Nat.ltb_ge _ _)), (proj2 (Z.ltb_ge _ _)) by lia.
  rewrite (proj2 (Z.eqb_neq _ _)) by lia. cbn [orb]. rewrite Hhead. cbn [ok_or result_bind].
  rewrite Hfirst, Z.eqb_refl. cbn [negb]. rewrite Hloop. cbn [result_bind].
  rewrite Z.eqb_refl. cbn [negb]. by rewrite bool_decide_true.
Qed.
End Window.

(** ** The analysis *)

Lemma validate_samples_spec w samples :
  validate_samples w samples = Ok tt <->
    (length samples <= MAX_WINDOW_SAMPLES)%nat /\ ordered samples
    /\ Forall (fun s => VisualWindow.lead_in_start w <= VisualSample.time s
                        < TimeRange.end_ (VisualWindow.range w)) samples.
Proof.
  split; [by apply samples_facts|]. intros (Hl & Ho & Hf). unfold validate_samples.
  rewrite (proj2 (Nat.ltb_ge _ _)) by done. apply validate_from_complete; [done|].
  eapply Forall_impl; [exact Hf|]. cbn. intros s Hs. by split.
Qed.

(** The whole analysis of a window: it answers exactly when there are at most
    122 samples, in strictly increasing time, between the lead-in and the
    window's end; and whatever they show, the candidates it proposes, under
    any identities, pass every rule the committed index checks again: they
    tile the window from the first sample on, their samples add up, each
    change satisfies the policy and was seen since the candidate before, every
    ten-second cell with a frame has one, and the budget holds with what was
    dropped. Claim C6. *)
Theorem analysis_passes_validation w samples policy :
  0 <= VisualWindow.ordinal w -> VisualWindow.on_grid w ->
  (is_ok (analyse_window w samples policy) = true <->
     (length samples <= MAX_WINDOW_SAMPLES)%nat /\ ordered samples
     /\ Forall (fun s => VisualWindow.lead_in_start w <= VisualSample.time s
                         < TimeRange.end_ (VisualWindow.range w)) samples)
  /\ forall a cands,
       analyse_window w samples policy = Ok a ->
       VisualCandidate.draft <$> cands = WindowAnalysis.candidates a ->
       exists committed,
         VisualIndexWindow.new w
           (Analysed (WindowAnalysis.sample_count a) cands (WindowAnalysis.dropped_candidates a)
              (WindowAnalysis.frameless_cells a)) policy = Ok committed
         /\ VisualIndexWindow.candidates committed = cands.
Proof.
  intros Hord Hgrid. rewrite <- validate_samples_spec. unfold analyse_window.
  destruct (validate_samples w samples) as [[]|e] eqn:Hvalid; cbn [result_bind is_ok].
  2: { split; [done|]. intros a cands [=]. }
  pose proof (body_length w samples Hvalid) as Hlen. unfold MAX_WINDOW_SAMPLES in Hlen.
  set (split := partition_point _ samples) in *. fold (lead w samples).
  assert (Hc16 : checked_u16 (Z.of_nat (length (drop split samples)))
    = Some (Z.of_nat (length (drop split samples)))) by (apply checked_in; ulia).
  rewrite Hc16. cbn [ok_or result_bind].
  destruct (cells_spec w Hord Hgrid) as (Htiles & Hcells & _).
  destruct (drop split samples) as [|s0 rest] eqn:Ebody.
  { split; [done|]. intros a cands [= <-] Hc. cbn in Hc. apply fmap_nil_inv in Hc as ->.
    cbn [WindowAnalysis.sample_count WindowAnalysis.dropped_candidates
      WindowAnalysis.frameless_cells]. eexists. unfold VisualIndexWindow.new, validate_analysed.
    rewrite bool_decide_true by done. done. }
  rewrite <- Ebody in *. assert (Hbody : drop split samples <> []) by (by rewrite Ebody).
  pose proof (openings_spec policy (lead w samples) (drop split samples)
    _ _ _ Hbody Htiles Hcells) as Hopen.
  change (match split with O => None | S index => samples !! index end) with (lead w samples).
  destruct (apply_budget _ _ _ _) as [kept dropped]. cbn zeta in Hopen.
  destruct Hopen as (Hsorted & Hok & (o0 & Ho0 & Hz) & H32 & Hdrop & Hcov).
  unfold build_candidates. fold (window_openings policy (lead w samples) (drop split samples)
    (VisualWindow.cells w) kept).
  set (starts := window_openings _ _ _ _ _) in *.
  split; [done|]. intros a cands [= <-] Hc.
  cbn [WindowAnalysis.sample_count WindowAnalysis.dropped_candidates WindowAnalysis.frameless_cells
    WindowAnalysis.candidates] in *.
  assert (Hzero : index_at w samples starts 0 = 0%nat) by (unfold index_at; by rewrite Ho0).
  assert (Hdrop16 : default U16_MAX (checked_u16 (Z.of_nat dropped)) = Z.of_nat dropped)
    by (unfold checked_u16; rewrite checked_in by ulia; done).
  assert (Hpos : (0 < length (drop split samples))%nat) by (rewrite Ebody; cbn; lia).
  pose proof (frameless_agree w samples policy Hvalid starts Hsorted Hok cands Hc Hzero
                (VisualWindow.cells w) Hcov) as Hframeless. fold split in Hframeless.
  assert (Hsome : starts <> []) by (intros E; by rewrite E in Ho0).
  pose proof (validate_analysed_ok w samples policy Hvalid starts Hsorted Hok cands Hc Hzero Hsome dropped)
    as Hanalysed. fold split in Hanalysed. rewrite Hdrop16, Hframeless.
  exists (VisualIndexWindow.mk w (Analysed (Z.of_nat (length (drop split samples))) cands
    (Z.of_nat dropped) (filter (fun cell => existsb (fun c => contains cell
      (VisualCandidate.representative c)) cands = false) (VisualWindow.cells w)))).
  split; [|done]. unfold VisualIndexWindow.new. unfold MAX_WINDOW_CANDIDATES in H32. by rewrite Hanalysed by lia.
Qed.

Lemma analysis_passes_validation_witness :
  let w := VisualWindow.mk 0 (TimeRange.mk 0 20000000) in
  let sample t g := VisualSample.from_parts t (replicate 144 g) (VisualHash.mk g) in
  let samples := [sample 0 10; sample 500000 10; sample 1000000 90; sample 12000000 90] in
  exists a, analyse_window w samples PolicyR0 = Ok a
    /\ length (WindowAnalysis.candidates a) = 3%nat
    /\ exists committed,
         VisualIndexWindow.new w
           (Analysed (WindowAnalysis.sample_count a)
              (VisualCandidate.mk (mkOpaqueId []) <$> WindowAnalysis.candidates a)
              (WindowAnalysis.dropped_candidates a) (WindowAnalysis.frameless_cells a)) PolicyR0
         = Ok committed.
Proof.
  intros w sample samples.
  assert (Hg : VisualWindow.on_grid w)
    by (exists 20000000; split; [concrete|vm_compute; reflexivity]).
  destruct (analysis_passes_validation w samples PolicyR0 ltac:(concrete) Hg) as [_ H].
  eexists. split; [vm_compute; reflexivity|]. split; [reflexivity|].
  match goal with |- context [WindowAnalysis.candidates ?a] =>
    destruct (H a (VisualCandidate.mk (mkOpaqueId []) <$> WindowAnalysis.candidates a))
      as (committed & Hc & _); [vm_compute; reflexivity|vm_compute; reflexivity|] end.
  exists committed. exact Hc.
Defined.
