(* ===== verification/VisualCoverage.v ===== *)
(** * VisualCoverage: what a committed index says of a range

    The lookups of [VisualIndex] and the honesty of its coverage gaps: every
    instant of a requested range is either in a gap the answer names or in a
    ten-second cell with a candidate, and no candidate lies in such a gap. *)

From S2P Require Import Prelude.
From S2P Require Import Text.
From S2P Require Import Timeline.
From S2P Require Import Identity.
From S2P Require Import VisualSample.
From S2P Require Import VisualWindow.
From S2P Require Import VisualAnalysis.
From S2P Require Import VisualBudget.
From S2P Require Import VisualIndex.

Abbreviation ordinal_of := (fun w => VisualWindow.ordinal (VisualIndexWindow.window w)).

(** ** The binary search *)

Lemma binary_search_spec {A} (key : A -> Z) k (l : list A) p a :
  StronglySorted (fun x y => key x < key y) l ->
  binary_search key k l = Some p /\ l !! p = Some a <-> l !! p = Some a /\ key a = k.
Proof.
  intros Hs. rewrite StronglySorted_lookup in Hs. unfold binary_search.
  set (f := fun a => key a <? k). set (pp := partition_point f l). split.
  - intros [H Hp]. split; [done|]. destruct (l !! pp) as [b|] eqn:Eb; [|done].
    destruct (key b =? k) eqn:Ek; [|done]. injection H as <-. bool_prop. congruence.
  - intros [Hp Hk]. split; [|done].
    destruct (Nat.lt_trichotomy p pp) as [Hlt|[Heq|Hgt]].
    + pose proof (partition_point_lt f l p a Hp Hlt) as Hf. unfold f in Hf. bool_prop. lia.
    + fold pp in Heq. rewrite <- Heq, Hp. by rewrite (proj2 (Z.eqb_eq _ _) Hk).
    + destruct (lookup_lt_is_Some_2 l pp) as [b Hb]; [apply lookup_lt_Some in Hp; lia|].
      pose proof (partition_point_eq f l b Hb) as Hf. unfold f in Hf. bool_prop.
      specialize (Hs _ _ _ _ Hgt Hb Hp). lia.
Qed.

(** ** What the constructors check *)

Lemma insert_identities_spec ids candidates ids' :
  VisualIndex.insert_identities ids candidates = Some ids' -> NoDup ids ->
  NoDup ids' /\ ids' ≡ₚ ((fun c => as_str (VisualCandidate.id c)) <$> candidates) ++ ids.
Proof.
  revert ids. induction candidates as [|c candidates IH]; intros ids H Hn; cbn in H.
  { by injection H as <-. }
  destruct (bool_decide _) eqn:E; [done|]. apply bool_decide_eq_false in E.
  destruct (IH _ H) as [HA HB]; [by constructor|]. split; [done|]. rewrite HB. cbn.
  by rewrite Permutation_middle.
Qed.

Lemma check_windows_spec duration previous ids windows :
  VisualIndex.check_windows duration previous ids windows = Ok tt -> NoDup ids ->
  Forall (fun w => VisualWindow.new (ordinal_of w) duration = Ok (VisualIndexWindow.window w)
            /\ forall before, previous = Some before -> before < ordinal_of w) windows
  /\ StronglySorted (fun a b => ordinal_of a < ordinal_of b) windows
  /\ NoDup (((fun c => as_str (VisualCandidate.id c))
               <$> (windows ≫= VisualIndexWindow.candidates)) ++ ids).
Proof.
  revert previous ids. induction windows as [|w windows IH]; intros previous ids H Hn; cbn in H.
  { repeat split; [constructor|constructor|done]. }
  destruct (VisualWindow.new _ _) as [grid|] eqn:Eg; [|done]. cbn [result_bind] in H.
  destruct (bool_decide _) eqn:Eb; [|done]. apply bool_decide_eq_true in Eb as ->. cbn [negb] in H.
  destruct (match previous with Some p => _ | None => _ end) eqn:Ep; [done|].
  destruct (VisualIndex.insert_identities ids _) as [ids'|] eqn:Ei; [|done].
  cbn [ok_or result_bind] in H. destruct (insert_identities_spec _ _ _ Ei Hn) as [Hn' Hperm].
  destruct (IH _ _ H Hn') as (HA & HB & HC). split; [|split].
  - constructor.
    + split; [done|]. intros before ->. by bool_prop.
    + eapply Forall_impl; [exact HA|]. cbn. intros x [Hx Hb]. split; [done|].
      intros before ->. bool_prop. specialize (Hb _ eq_refl). lia.
  - constructor; [done|]. eapply Forall_impl; [exact HA|]. cbn. intros x [_ Hb]. by apply Hb.
  - cbn [mbind list_bind]. rewrite fmap_app. rewrite Hperm in HC.
    revert HC. by rewrite !app_assoc, (Permutation_app_comm (_ <$> (windows ≫= _))).
Qed.

Lemma validate_candidates_within w policy position previous total cands n :
  validate_candidates w policy position previous total cands = Ok n ->
  Forall (fun c => contains (VisualWindow.range w) (VisualCandidate.representative c) = true) cands.
Proof.
  revert position previous total. induction cands as [|c cands IH]; intros position previous total H;
    [constructor|]. cbn [validate_candidates] in H.
  destruct (validate_candidate _ _ _ _ _ _) as [[]|] eqn:E; [|done]. cbn [result_bind] in H.
  constructor; [|by eapply IH]. unfold validate_candidate in E. cbn zeta in E.
  unfold VisualCandidate.representative. destruct (contains _ _); [done|]. discriminate E.
Qed.

(** What a validated window records. *)
Lemma validated_window w sample_count cands dropped frameless policy v :
  VisualIndexWindow.new w (Analysed sample_count cands dropped frameless) policy = Ok v ->
  frameless = filter (fun cell => existsb (fun c => contains cell (VisualCandidate.representative c))
                                    cands = false) (VisualWindow.cells w)
  /\ Forall (fun c => contains (VisualWindow.range w) (VisualCandidate.representative c) = true) cands.
Proof.
  unfold VisualIndexWindow.new. intros H.
  destruct (validate_analysed _ _ _ _ _ _) as [[]|] eqn:E; [clear H|done].
  unfold validate_analysed in E. destruct (_ || _ || (_ <? _)); [done|].
  destruct (sample_count =? 0).
  - destruct cands as [|c cands]; [|done]. cbn [length] in E. cbn in E.
    destruct (dropped =? 0); [|done]. cbn in E. destruct (bool_decide _) eqn:Eb; [|done].
    apply bool_decide_eq_true in Eb as ->. split; [|constructor]. symmetry. apply filter_all.
    by apply Forall_forall.
  - destruct (head cands) as [first|]; [|done]. cbn [ok_or result_bind] in E.
    destruct (negb _); [done|]. destruct (validate_candidates _ _ _ _ _ _) as [n|] eqn:Ev; [|done].
    cbn [result_bind] in E. destruct (negb (n =? _)); [done|].
    destruct (bool_decide _) eqn:Eb; [|done]. apply bool_decide_eq_true in Eb.
    split; [done|]. by eapply validate_candidates_within.
Qed.

(** A window of the index was made by its constructor. *)
Definition committed (w : VisualIndexWindow.t) : Prop :=
  exists window outcome policy, VisualIndexWindow.new window outcome policy = Ok w.

Section Index.
Context (i : VisualIndex.t).
Context (Hnew : VisualIndex.new (VisualIndex.parts i) = Ok i).
Context (Hcommitted : Forall committed (VisualIndex.windows i)).
Context (Hdur : is_u64 (VisualIndex.duration i)).
Context (Hords : Forall (fun w => 0 <= ordinal_of w) (VisualIndex.windows i)).

Lemma index_facts :
  0 < VisualIndex.duration i <= MAX_VISUAL_INDEX_DURATION_MICROS
  /\ Forall (fun w => VisualWindow.new (ordinal_of w) (VisualIndex.duration i)
                      = Ok (VisualIndexWindow.window w)) (VisualIndex.windows i)
  /\ StronglySorted (fun a b => ordinal_of a < ordinal_of b) (VisualIndex.windows i)
  /\ NoDup ((fun c => as_str (VisualCandidate.id c))
              <$> (VisualIndex.windows i ≫= VisualIndexWindow.candidates)).
Proof.
  unfold VisualIndex.new in Hnew. unfold VisualIndex.windows, VisualIndex.duration in *.
  destruct (_ || _) eqn:E; [done|]. bool_prop.
  destruct (VisualIndex.check_windows _ _ _ _) as [[]|] eqn:Ec; [|done].
  destruct (check_windows_spec _ _ _ _ Ec ltac:(constructor)) as (HA & HB & HC).
  rewrite app_nil_r in HC. split; [ulia|]. split; [|by split].
  eapply Forall_impl; [exact HA|]. cbn. tauto.
Qed.

Lemma ordinal_nonneg w : w ∈ VisualIndex.windows i -> 0 <= ordinal_of w.
Proof. apply (proj1 (Forall_forall _ _) Hords). Qed.

(** A lookup finds exactly the window recorded under the ordinal. *)
Lemma window_lookup o w :
  VisualIndex.window i o = Some w <-> w ∈ VisualIndex.windows i /\ ordinal_of w = o.
Proof.
  destruct index_facts as (_ & _ & Hs & _). unfold VisualIndex.window. split.
  - destruct (binary_search _ _ _) as [p|] eqn:E; [|done]. cbn [mbind option_bind]. intros Hp.
    destruct (proj1 (binary_search_spec _ o _ p w Hs) (conj E Hp)) as [_ Hk].
    split; [by eapply list_elem_of_lookup_2|done].
  - intros [[p Hp]%list_elem_of_lookup Hk].
    destruct (proj2 (binary_search_spec _ o _ p w Hs) (conj Hp Hk)) as [E _].
    by rewrite E.
Qed.

Lemma grid_of w :
  w ∈ VisualIndex.windows i ->
  VisualIndexWindow.window w
  = VisualWindow.mk (ordinal_of w)
      (TimeRange.mk (ordinal_of w * VISUAL_WINDOW_MICROS)
         (Z.min ((ordinal_of w + 1) * VISUAL_WINDOW_MICROS) (VisualIndex.duration i))).
Proof.
  intros Hw. destruct index_facts as (_ & Hg & _ & _). rewrite Forall_forall in Hg, Hords.
  specialize (Hg w Hw). specialize (Hords w Hw). cbn in Hords.
  apply window_new_spec in Hg as (_ & _ & Hg); done.
Qed.

(** What a recorded window holds. *)
Lemma outcome_of w :
  w ∈ VisualIndex.windows i ->
  match VisualIndexWindow.outcome w with
  | Undecodable => True
  | Analysed _ cands _ frameless =>
      frameless = filter (fun cell => existsb (fun c => contains cell (VisualCandidate.representative c))
                                        cands = false) (VisualWindow.cells (VisualIndexWindow.window w))
      /\ Forall (fun c => contains (VisualWindow.range (VisualIndexWindow.window w))
                            (VisualCandidate.representative c) = true) cands
  end.
Proof.
  intros Hw. rewrite Forall_forall in Hcommitted. destruct (Hcommitted w Hw) as (win & out & policy & H).
  assert (E : w = VisualIndexWindow.mk win out).
  { unfold VisualIndexWindow.new in H. destruct out as [sc cands d f|].
    - destruct (validate_analysed _ _ _ _ _ _); [|done]. by injection H as <-.
    - by injection H as <-. }
  rewrite E. cbn. destruct out as [sc cands d f|]; [|done]. by eapply validated_window.
Qed.

Lemma intersect_spec a b r :
  intersect a b = Some r <->
  r = TimeRange.mk (Z.max (TimeRange.start a) (TimeRange.start b))
        (Z.min (TimeRange.end_ a) (TimeRange.end_ b))
  /\ Z.max (TimeRange.start a) (TimeRange.start b) < Z.min (TimeRange.end_ a) (TimeRange.end_ b).
Proof.
  unfold intersect, TimeRange.new. destruct (_ <=? _) eqn:E; bool_prop; cbn.
  - split; [done|]. intros [_ ?]. lia.
  - split; [by intros [= <-]|by intros [-> _]].
Qed.

(** An instant of both ranges lies in their intersection, and conversely. *)
Lemma intersect_contains a b x :
  contains a x = true -> contains b x = true ->
  exists r, intersect a b = Some r /\ contains r x = true.
Proof.
  rewrite !contains_spec. intros Ha Hb. eexists. split; [apply intersect_spec; split; [done|lia]|].
  apply contains_spec. cbn. lia.
Qed.

Lemma contains_intersect a b r x :
  intersect a b = Some r -> contains r x = true -> contains a x = true /\ contains b x = true.
Proof.
  intros [-> _]%intersect_spec. rewrite !contains_spec. cbn. lia.
Qed.

(** The part a gap is clipped from: a window's range or one of its cells. *)
Lemma gaps_of_elem range o g :
  g ∈ VisualIndex.gaps_of i range o ->
  exists grid part, VisualWindow.new o (VisualIndex.duration i) = Ok grid
    /\ intersect part range = Some (VisualCoverageGap.range g)
    /\ match VisualCoverageGap.reason g with
       | NotAnalyzed => part = VisualWindow.range grid /\ VisualIndex.window i o = None
       | GapUndecodable => part = VisualWindow.range grid
           /\ VisualIndexWindow.outcome <$> VisualIndex.window i o = Some Undecodable
       | NoDecodedFrame => exists sc cands d frameless,
           VisualIndexWindow.outcome <$> VisualIndex.window i o = Some (Analysed sc cands d frameless)
           /\ part ∈ frameless
       | CandidateBudgetExhausted => part = VisualWindow.range grid
           /\ 0 < VisualCoverageGap.dropped_candidates g
       | DeadlineExceeded => False
       end.
Proof.
  assert (Hpush : forall part reason dropped g,
    g ∈ match intersect part range with
        | Some clipped => [VisualCoverageGap.mk clipped reason dropped] | None => [] end ->
    intersect part range = Some (VisualCoverageGap.range g) /\ VisualCoverageGap.reason g = reason
    /\ VisualCoverageGap.dropped_candidates g = dropped).
  { intros part reason dropped g'. destruct (intersect part range) as [clipped|].
    - intros ->%list_elem_of_singleton. done.
    - intros H. by apply not_elem_of_nil in H. }
  unfold VisualIndex.gaps_of. destruct (VisualWindow.new o _) as [grid|] eqn:Eg.
  2: { intros H. by apply not_elem_of_nil in H. }
  cbn zeta. destruct (VisualIndex.window i o) as [w|] eqn:Ew; cbn [fmap option_fmap option_map].
  - destruct (VisualIndexWindow.outcome w) as [sc cands d frameless|] eqn:Eo.
    + intros [H|H]%elem_of_app.
      * destruct (0 <? d) eqn:Ed; [|by apply not_elem_of_nil in H]. bool_prop.
        apply Hpush in H as (H1 & -> & ->). by exists grid, (VisualWindow.range grid).
      * apply list_elem_of_bind in H as (cell & H & Hcell). apply Hpush in H as (H1 & -> & _).
        exists grid, cell. split; [done|]. split; [done|]. by exists sc, cands, d, frameless.
    + intros (H1 & -> & _)%Hpush. by exists grid, (VisualWindow.range grid).
  - intros (H1 & -> & _)%Hpush. by exists grid, (VisualWindow.range grid).
Qed.

Definition candidates : list VisualCandidate.t :=
  VisualIndex.windows i ≫= VisualIndexWindow.candidates.

Lemma candidates_elem c :
  c ∈ candidates ->
  exists w sc cands d frameless, w ∈ VisualIndex.windows i
    /\ VisualIndexWindow.outcome w = Analysed sc cands d frameless /\ c ∈ cands.
Proof.
  intros (w & Hc & Hw)%list_elem_of_bind. exists w. unfold VisualIndexWindow.candidates in Hc.
  destruct (VisualIndexWindow.outcome w) as [sc cands d f|]; [by exists sc, cands, d, f|].
  by apply not_elem_of_nil in Hc.
Qed.

(** A candidate lies in the window of its ordinal. *)
Lemma candidate_window w sc cands d frameless c :
  w ∈ VisualIndex.windows i -> VisualIndexWindow.outcome w = Analysed sc cands d frameless ->
  c ∈ cands ->
  ordinal_of w * VISUAL_WINDOW_MICROS <= VisualCandidate.representative c
  < (ordinal_of w + 1) * VISUAL_WINDOW_MICROS
  /\ VisualCandidate.representative c < VisualIndex.duration i.
Proof.
  intros Hw Ho Hc. pose proof (outcome_of w Hw) as Hout. rewrite Ho in Hout.
  destruct Hout as [_ Hrep]. rewrite Forall_forall in Hrep. specialize (Hrep c Hc).
  rewrite (grid_of w Hw) in Hrep. apply contains_spec in Hrep. cbn in Hrep. lia.
Qed.

Lemma gap_excludes range o g c :
  0 <= o -> g ∈ VisualIndex.gaps_of i range o -> c ∈ candidates ->
  match VisualCoverageGap.reason g with
  | NotAnalyzed | GapUndecodable | NoDecodedFrame => True
  | _ => False
  end ->
  contains (VisualCoverageGap.range g) (VisualCandidate.representative c) = false.
Proof.
  intros Ho Hg Hc Hr. apply not_true_iff_false. intros Hin.
  destruct (candidates_elem c Hc) as (w & sc & cands & d & frameless & Hw & Hout & Hcc).
  destruct (gaps_of_elem range o g Hg) as (grid & part & Hgrid & Hint & Hpart).
  destruct (contains_intersect _ _ _ _ Hint Hin) as [Hp _]. apply contains_spec in Hp.
  pose proof (candidate_window w sc cands d frameless c Hw Hout Hcc) as Hcw.
  apply window_new_spec in Hgrid as (_ & _ & Hgrid); [|done|done].
  assert (Hord : forall w', w' ∈ VisualIndex.windows i -> ordinal_of w' = o ->
    ordinal_of w' * VISUAL_WINDOW_MICROS <= VisualCandidate.representative c
      < (ordinal_of w' + 1) * VISUAL_WINDOW_MICROS -> VisualIndex.window i o = Some w).
  { intros w' Hw' Hw'o Hx. apply window_lookup. split; [done|]. unfold VISUAL_WINDOW_MICROS in *. lia. }
  assert (Hsame : TimeRange.start part >= o * VISUAL_WINDOW_MICROS /\
    TimeRange.end_ part <= (o + 1) * VISUAL_WINDOW_MICROS -> VisualIndex.window i o = Some w).
  { intros Hx. apply window_lookup. split; [done|]. unfold VISUAL_WINDOW_MICROS in *. lia. }
  destruct (VisualCoverageGap.reason g); try done.
  - destruct Hpart as [-> Hnone]. rewrite Hsame in Hnone; [done|]. rewrite Hgrid. cbn. lia.
  - destruct Hpart as [-> Hu]. rewrite Hsame in Hu by (rewrite Hgrid; cbn; lia).
    cbn in Hu. congruence.
  - destruct Hpart as (sc' & cands' & d' & frameless' & Ho' & Hpf).
    destruct (VisualIndex.window i o) as [w'|] eqn:Ew; [|done]. cbn in Ho'. injection Ho' as Ho'.
    apply window_lookup in Ew as [Hw' Hwo]. pose proof (outcome_of w' Hw') as Hout'. rewrite Ho' in Hout'.
    destruct Hout' as [Hfl _]. rewrite Hfl in Hpf. apply list_elem_of_filter in Hpf as [Hex Hpc].
    assert (Hg' : VisualWindow.on_grid (VisualIndexWindow.window w')).
    { exists (VisualIndex.duration i). split; [done|].
      destruct index_facts as (_ & Hgr & _). rewrite Forall_forall in Hgr. by apply Hgr. }
    pose proof (ordinal_nonneg w' Hw') as Hpos.
    destruct (cells_spec _ Hpos Hg') as (Ht & _ & _).
    destruct (tiles_within _ _ _ _ Ht Hpc) as (Hlo & _ & Hhi).
    rewrite (grid_of w' Hw') in Hlo, Hhi. cbn in Hlo, Hhi. cbn in Hwo. rewrite Hwo in Hlo, Hhi.
    assert (Hww : Some w' = Some w) by (apply Hsame; lia). injection Hww as ->.
    rewrite Hout in Ho'. injection Ho' as _ <- _ _. rewrite existsb_false, Forall_forall in Hex.
    specialize (Hex c Hcc). apply not_true_iff_false in Hex. apply Hex. apply contains_spec. lia.
Qed.

Lemma time_covered range t :
  TimeRange.wf range -> contains range t = true -> t < VisualIndex.duration i ->
  let o := t / VISUAL_WINDOW_MICROS in
  0 <= o
  /\ ((exists g, g ∈ VisualIndex.gaps_of i range o
        /\ match VisualCoverageGap.reason g with
           | NotAnalyzed | GapUndecodable | NoDecodedFrame => True
           | _ => False
           end
        /\ contains (VisualCoverageGap.range g) t = true)
     \/ (exists c cell, c ∈ candidates /\ contains cell t = true
           /\ contains cell (VisualCandidate.representative c) = true
           /\ TimeRange.end_ cell - TimeRange.start cell <= VISUAL_CELL_MICROS)).
Proof.
  intros (Hrs & Hre & _) Hct Htd o. destruct index_facts as (Hdb & Hgr & _ & _).
  pose proof Hct as Hct'. apply contains_spec in Hct'.
  assert (Ho : 0 <= o /\ o * VISUAL_WINDOW_MICROS <= t < (o + 1) * VISUAL_WINDOW_MICROS)
    by (unfold o, VISUAL_WINDOW_MICROS; unfold_widths; divlia).
  split; [lia|].
  assert (Hgrid : VisualWindow.new o (VisualIndex.duration i) = Ok (VisualWindow.mk o
    (TimeRange.mk (o * VISUAL_WINDOW_MICROS)
       (Z.min ((o + 1) * VISUAL_WINDOW_MICROS) (VisualIndex.duration i))))).
  { apply window_new_spec; [lia|done|]. split; [done|]. split; [lia|done]. }
  set (grid := VisualWindow.mk o _) in *.
  assert (Hcg : contains (VisualWindow.range grid) t = true) by (apply contains_spec; cbn; lia).
  unfold VisualIndex.gaps_of. rewrite Hgrid. cbn zeta.
  destruct (VisualIndex.window i o) as [w|] eqn:Ew; cbn [fmap option_fmap option_map].
  2: { left. destruct (intersect_contains _ _ _ Hcg Hct) as (r & -> & Hr).
       eexists. split; [by apply list_elem_of_singleton|]. done. }
  apply window_lookup in Ew as [Hw Hwo].
  destruct (VisualIndexWindow.outcome w) as [sc cands d frameless|] eqn:Hout.
  2: { left. destruct (intersect_contains _ _ _ Hcg Hct) as (r & -> & Hr).
       eexists. split; [by apply list_elem_of_singleton|]. done. }
  assert (Hwg : VisualIndexWindow.window w = grid).
  { rewrite (grid_of w Hw). cbn in Hwo. by rewrite Hwo. }
  assert (Hog : VisualWindow.on_grid grid) by (by exists (VisualIndex.duration i)).
  destruct (cells_spec grid ltac:(cbn; lia) Hog) as (Ht & _ & Hsize).
  destruct (tiles_unique _ _ _ t Ht) as (k & cell & Hk & Hc & _); [cbn; lia|].
  destruct (Hsize _ _ Hk) as [_ Hend].
  pose proof (outcome_of w Hw) as Hspec. rewrite Hout, Hwg in Hspec. destruct Hspec as [Hfl _].
  destruct (existsb (fun c => contains cell (VisualCandidate.representative c)) cands) eqn:Eex.
  - right. apply existsb_exists in Eex as (c & Hcin & Hcc). apply list_elem_of_In in Hcin.
    exists c, cell. split; [|split; [done|split; [done|lia]]].
    apply list_elem_of_bind. exists w. split; [|done]. unfold VisualIndexWindow.candidates. by rewrite Hout.
  - left. destruct (intersect_contains _ _ _ Hc Hct) as (r & Hi & Hr).
    exists (VisualCoverageGap.mk r NoDecodedFrame 0). split; [|done].
    apply elem_of_app. right. apply list_elem_of_bind. exists cell. split.
    + rewrite Hi. by apply list_elem_of_singleton.
    + rewrite Hfl. apply list_elem_of_filter. split; [done|]. by eapply list_elem_of_lookup_2.
Qed.

(** The ordinals a request visits hold every instant of it. *)
Lemma ordinals_cover range t :
  TimeRange.wf range -> contains range t = true -> t < VisualIndex.duration i ->
  let '(first, last) := VisualIndex.window_ordinals i range in
  0 <= first <= t / VISUAL_WINDOW_MICROS /\ t / VISUAL_WINDOW_MICROS < last.
Proof.
  intros (Hrs & Hre & _) Hct Htd. apply contains_spec in Hct.
  destruct index_facts as (Hdb & _ & _ & _). unfold VisualIndex.window_ordinals.
  set (o := t / VISUAL_WINDOW_MICROS).
  assert (Ho : 0 <= o <= 240 /\ o * VISUAL_WINDOW_MICROS <= t < (o + 1) * VISUAL_WINDOW_MICROS)
    by (unfold o, VISUAL_WINDOW_MICROS, MAX_VISUAL_INDEX_DURATION_MICROS in *; unfold_widths; divlia).
  assert (Hcount : o < visual_window_count (VisualIndex.duration i))
    by (apply window_count_exact; [done|lia|lia|lia]).
  assert (Hfirst : 0 <= TimeRange.start range / VISUAL_WINDOW_MICROS <= o)
    by (unfold VISUAL_WINDOW_MICROS in *; unfold_widths; divlia).
  assert (Hlast : o < div_ceil (TimeRange.end_ range) VISUAL_WINDOW_MICROS).
  { apply Z.nle_gt. rewrite div_ceil_spec by concrete. lia. }
  assert (Hf : checked_u32 (TimeRange.start range / VISUAL_WINDOW_MICROS)
               = Some (TimeRange.start range / VISUAL_WINDOW_MICROS)) by (apply checked_in; ulia).
  rewrite Hf. cbn [default].
  assert (Hq : o < default U32_MAX (checked_u32 (div_ceil (TimeRange.end_ range) VISUAL_WINDOW_MICROS))).
  { destruct (checked_u32 (div_ceil _ _)) as [q|] eqn:Eq; cbn; unfold id.
    - by apply checked_Some in Eq as [-> _].
    - clear -Ho. ulia. }
  revert Hcount Hfirst Hq. generalize (visual_window_count (VisualIndex.duration i)).
  generalize (TimeRange.start range / VISUAL_WINDOW_MICROS).
  generalize (default U32_MAX (checked_u32 (div_ceil (TimeRange.end_ range) VISUAL_WINDOW_MICROS))).
  clear. unfold id. intros; lia.
Qed.

Lemma coverage_gaps_elem range g :
  g ∈ VisualIndex.coverage_gaps i range <->
  exists o, 0 <= o /\ g ∈ VisualIndex.gaps_of i range o
    /\ let '(first, last) := VisualIndex.window_ordinals i range in
       Z.of_nat (Z.to_nat first) <= o < Z.max (Z.of_nat (Z.to_nat first)) last.
Proof.
  unfold VisualIndex.coverage_gaps. destruct (VisualIndex.window_ordinals i range) as [first last].
  rewrite list_elem_of_bind. setoid_rewrite list_elem_of_fmap. split.
  - intros (o & Hg & n & -> & Hn%elem_of_seq). exists (Z.of_nat n). split; [lia|]. split; [done|lia].
  - intros (o & Ho & Hg & Hr). exists o. split; [done|]. exists (Z.to_nat o). split; [lia|].
    apply elem_of_seq. lia.
Qed.
End Index.

(** The gap reasons that say no frame of a stretch was looked at. *)
Definition unseen (r : CoverageGapReason) : Prop :=
  match r with NotAnalyzed | GapUndecodable | NoDecodedFrame => True | _ => False end.

(** An index is honest about what it has seen. For any range, every instant
    of it within the source is in a gap the answer names as unseen, or in a
    cell of at most ten seconds that holds a candidate; no candidate lies in
    such a gap; every gap lies in the range asked for; a lookup finds the
    window recorded under its ordinal; and no two candidates of the index
    share an identity. Claim C12. *)
Theorem coverage_is_honest i range :
  VisualIndex.new (VisualIndex.parts i) = Ok i -> Forall committed (VisualIndex.windows i) ->
  is_u64 (VisualIndex.duration i) -> Forall (fun w => 0 <= ordinal_of w) (VisualIndex.windows i) ->
  TimeRange.wf range ->
  (forall t, contains range t = true -> t < VisualIndex.duration i ->
     (exists g, g ∈ VisualIndex.coverage_gaps i range /\ unseen (VisualCoverageGap.reason g)
                /\ contains (VisualCoverageGap.range g) t = true)
     \/ (exists c cell, c ∈ candidates i /\ contains cell t = true
           /\ contains cell (VisualCandidate.representative c) = true
           /\ TimeRange.end_ cell - TimeRange.start cell <= VISUAL_CELL_MICROS))
  /\ (forall g c, g ∈ VisualIndex.coverage_gaps i range -> unseen (VisualCoverageGap.reason g) ->
        c ∈ candidates i ->
        contains (VisualCoverageGap.range g) (VisualCandidate.representative c) = false)
  /\ (forall g, g ∈ VisualIndex.coverage_gaps i range ->
        TimeRange.start range <= TimeRange.start (VisualCoverageGap.range g)
        /\ TimeRange.start (VisualCoverageGap.range g) < TimeRange.end_ (VisualCoverageGap.range g)
        /\ TimeRange.end_ (VisualCoverageGap.range g) <= TimeRange.end_ range)
  /\ (forall o w, VisualIndex.window i o = Some w <-> w ∈ VisualIndex.windows i /\ ordinal_of w = o)
  /\ NoDup ((fun c => as_str (VisualCandidate.id c)) <$> candidates i).
Proof.
  intros Hnew Hcom Hdur Hords Hwf. split; [|split; [|split; [|split]]].
  - intros t Hct Htd. destruct (time_covered i Hnew Hcom Hdur Hords range t Hwf Hct Htd) as (Ho & [H|H]).
    + left. destruct H as (g & Hg & Hr & Hc). exists g. split; [|done]. apply coverage_gaps_elem.
      eexists. split; [exact Ho|]. split; [exact Hg|].
      pose proof (ordinals_cover i Hnew Hdur range t Hwf Hct Htd) as Hcov.
      destruct (VisualIndex.window_ordinals i range). lia.
    + by right.
  - intros g c (o & Ho & Hg & _)%coverage_gaps_elem Hu Hc.
    by apply (gap_excludes i Hnew Hcom Hdur Hords range o g c Ho Hg Hc).
  - intros g (o & Ho & Hg & _)%coverage_gaps_elem.
    destruct (gaps_of_elem i range o g Hg) as (grid & part & _ & [-> Hlt]%intersect_spec & _).
    cbn. lia.
  - intros o w. by apply window_lookup.
  - by destruct (index_facts i Hnew Hdur) as (_ & _ & _ & H).
Qed.

Lemma coverage_is_honest_witness :
  let draft := CandidateDraft.mk CandidateReason.FirstFrame 0 (TimeRange.mk 0 60000000) 1
                 CandidateStability.OpenAtWindowEnd None (VisualHash.mk 0) in
  let grid := VisualWindow.mk 0 (TimeRange.mk 0 60000000) in
  let w := VisualIndexWindow.mk grid
             (Analysed 1 [VisualCandidate.mk (mkOpaqueId []) draft] 0 (tail (VisualWindow.cells grid))) in
  let i := VisualIndex.mk (VisualIndexParts.mk (mkOpaqueId []) 1 (mkDigestId []) 0
             (FrameDimensions.mk 2 2) 130000000 ProfileR0 [w]) in
  let range := TimeRange.mk 5000000 70000000 in
  length (VisualIndex.coverage_gaps i range) = 6%nat
  /\ ((exists g, g ∈ VisualIndex.coverage_gaps i range /\ unseen (VisualCoverageGap.reason g)
                 /\ contains (VisualCoverageGap.range g) 65000000 = true)
      \/ (exists c cell, c ∈ candidates i /\ contains cell 65000000 = true
            /\ contains cell (VisualCandidate.representative c) = true
            /\ TimeRange.end_ cell - TimeRange.start cell <= VISUAL_CELL_MICROS)).
Proof.
  intros draft grid w i range. split; [vm_compute; reflexivity|].
  destruct (coverage_is_honest i range) as [H _].
  - vm_compute. reflexivity.
  - constructor; [|constructor]. exists grid, (VisualIndexWindow.outcome w), PolicyR0.
    vm_compute. reflexivity.
  - concrete.
  - constructor; [concrete|constructor].
  - concrete.
  - apply H; [vm_compute; reflexivity|concrete].
Defined.
