(* ===== verification/ScreenChange.v ===== *)
(** * ScreenChange: which changes a range holds

    Models the planning half of [crates/vsift-domain/src/screen_change.rs]:
    the candidates of the visual index read as changes of the screen, a run of
    motion as one change ([plan_screen_changes], [window_changes]). *)

From S2P Require Import Prelude.
From S2P Require Import Timeline.
From S2P Require Import Identity.
From S2P Require Import VisualWindow.
From S2P Require Import VisualAnalysis.
From S2P Require Import VisualIndex.

(** The versioned rule that finds regions. *)
Inductive ScreenChangeProfile := RegionsV1.

Definition screen_change_profile_identifier (p : ScreenChangeProfile) : string :=
  match p with RegionsV1 => "screen-change-regions-v1" end.

Module MotionPart.
Inductive t := Run | Start | End_.

Definition identifier (p : t) : string :=
  match p with Run => "run" | Start => "start" | End_ => "end" end.

(** Whether the after frame is a settled screen. *)
Definition settled (p : t) : bool :=
  match p with Run | End_ => true | Start => false end.
End MotionPart.

Module ScreenChangeKind.
Inductive t := Change | Motion (part : MotionPart.t).

Definition identifier (k : t) : string :=
  match k with Change => "change" | Motion _ => "motion" end.
End ScreenChangeKind.

Module PlannedScreenChange.
Record t := mk {
  kind : ScreenChangeKind.t;
  candidates : list (OpaqueId VisualCandidateId);
  window_ordinal : Z;
  before : MediaTime;
  after : MediaTime
}.
End PlannedScreenChange.

(** The next candidate from [start] that records a change, with its position. *)
Definition next_change_candidate (candidates : list VisualCandidate.t) (start : nat)
    : option (nat * VisualCandidate.t) :=
  List.find (fun p : nat * VisualCandidate.t =>
    negb (bool_decide (VisualCandidate.reason p.2 = CandidateReason.PeriodicCoverage)))
    (drop start (enumerate candidates)).

(** The candidate that ends the run of motion started before [position]. *)
Definition settled_at (candidates : list VisualCandidate.t) (may_pair : bool) (position : nat)
    : option (nat * VisualCandidate.t) :=
  if may_pair then
    match next_change_candidate candidates position with
    | Some next =>
        if bool_decide (VisualCandidate.reason next.2 = CandidateReason.SettledAfterMotion)
        then Some next else None
    | None => None
    end
  else None.

(** The loop of [window_changes]. Every iteration moves the position on, so
    that the number of candidates is fuel enough. *)
Fixpoint window_changes_from (fuel : nat) (ordinal : Z) (candidates : list VisualCandidate.t)
    (may_pair : bool) (position : nat) : list PlannedScreenChange.t :=
  match fuel, candidates !! position with
  | S fuel, Some candidate =>
      let position := S position in
      let continue := window_changes_from fuel ordinal candidates may_pair in
      match CandidateDraft.change (VisualCandidate.draft candidate) with
      | None => continue position
      | Some change =>
          let single kind :=
            PlannedScreenChange.mk kind [VisualCandidate.id candidate] ordinal
              (CandidateChange.previous_sample change) (VisualCandidate.representative candidate) in
          match VisualCandidate.reason candidate with
          | CandidateReason.VisualChange => single ScreenChangeKind.Change :: continue position
          | CandidateReason.MotionStart =>
              match settled_at candidates may_pair position with
              | Some (next_position, end_) =>
                  PlannedScreenChange.mk (ScreenChangeKind.Motion MotionPart.Run)
                    [VisualCandidate.id candidate; VisualCandidate.id end_] ordinal
                    (CandidateChange.previous_sample change) (VisualCandidate.representative end_)
                  :: continue (S next_position)
              | None => single (ScreenChangeKind.Motion MotionPart.Start) :: continue position
              end
          | CandidateReason.SettledAfterMotion =>
              single (ScreenChangeKind.Motion MotionPart.End_) :: continue position
          | CandidateReason.FirstFrame | CandidateReason.PeriodicCoverage => continue position
          end
      end
  | _, _ => []
  end.

Definition window_changes (ordinal : Z) (candidates : list VisualCandidate.t) (may_pair : bool)
    : list PlannedScreenChange.t :=
  window_changes_from (length candidates) ordinal candidates may_pair 0.

Definition plan_screen_changes (index : VisualIndex.t) (range : TimeRange.t)
    : list PlannedScreenChange.t :=
  let '(first, last) := VisualIndex.window_ordinals index range in
  ordinal ← (Z.of_nat <$> seq (Z.to_nat first) (Z.to_nat last - Z.to_nat first));
  match VisualIndex.window index ordinal with
  | None => []
  | Some window =>
      match VisualIndexWindow.outcome window with
      | Undecodable => []
      | Analysed _ candidates dropped_candidates _ =>
          filter (fun change => contains range (PlannedScreenChange.after change) = true)
            (window_changes ordinal candidates (dropped_candidates =? 0))
      end
  end.
