(* ===== verification/ScreenPlan.v ===== *)
(** * ScreenPlan: the planned changes are the recorded ones

    Every change the visual index records is in exactly one planned change,
    in time order; a run of motion is one change exactly when its end is known
    to be its own. *)

From S2P Require Import Prelude.
From S2P Require Import Text.
From S2P Require Import Timeline.
From S2P Require Import Identity.
From S2P Require Import VisualSample.
From S2P Require Import VisualWindow.
From S2P Require Import VisualAnalysis.
From S2P Require Import VisualIndex.
From S2P Require Import VisualCoverage.
From S2P Require Import ScreenChange.

(** ** Specification *)

(** Candidates as a committed window holds them. *)
Definition candidate_valid (c : VisualCandidate.t) : Prop :=
  match CandidateDraft.change (VisualCandidate.draft c) with
  | None => CandidateReason.has_change (VisualCandidate.reason c) = false
  | Some change =>
      CandidateReason.has_change (VisualCandidate.reason c) = true
      /\ CandidateChange.previous_sample change < VisualCandidate.representative c
  end.

Definition candidates_valid (cands : list VisualCandidate.t) : Prop :=
  Forall candidate_valid cands
  /\ StronglySorted (fun a b => VisualCandidate.representative a < VisualCandidate.representative b)
       cands.

(** [c] records the change whose last frame before it is at [before]. *)
Definition changes_from (c : VisualCandidate.t) (before : MediaTime) : Prop :=
  exists change, CandidateDraft.change (VisualCandidate.draft c) = Some change
    /\ CandidateChange.previous_sample change = before.

(** A run of motion from one candidate to the candidate that ends it: only
    periodic coverage lies between them. *)
Definition motion_run (cands : list VisualCandidate.t) (start end_ : VisualCandidate.t) : Prop :=
  exists pre between post, cands = pre ++ start :: between ++ end_ :: post
    /\ VisualCandidate.reason start = CandidateReason.MotionStart
    /\ VisualCandidate.reason end_ = CandidateReason.SettledAfterMotion
    /\ Forall (fun c => VisualCandidate.reason c = CandidateReason.PeriodicCoverage) between.

(** The change that stands for a whole run of motion. *)
Definition run_as_one (start end_ : VisualCandidate.t) (change : PlannedScreenChange.t) : Prop :=
  PlannedScreenChange.kind change = ScreenChangeKind.Motion MotionPart.Run
  /\ PlannedScreenChange.candidates change = [VisualCandidate.id start; VisualCandidate.id end_]
  /\ changes_from start (PlannedScreenChange.before change)
  /\ PlannedScreenChange.after change = VisualCandidate.representative end_.

(** What a planned change says of the candidates it stands for. A start or an end
    of motion stands alone only where it belongs to no run, or where candidates
    were dropped, so that nobody knows whether it does. *)
Definition describes (cands : list VisualCandidate.t) (may_pair : bool)
    (change : PlannedScreenChange.t) : Prop :=
  let one c :=
    c ∈ cands /\ PlannedScreenChange.candidates change = [VisualCandidate.id c]
    /\ changes_from c (PlannedScreenChange.before change)
    /\ PlannedScreenChange.after change = VisualCandidate.representative c in
  PlannedScreenChange.before change < PlannedScreenChange.after change
  /\ match PlannedScreenChange.kind change with
     | ScreenChangeKind.Change => exists c, one c /\ VisualCandidate.reason c = CandidateReason.VisualChange
     | ScreenChangeKind.Motion MotionPart.Start =>
         exists c, one c /\ VisualCandidate.reason c = CandidateReason.MotionStart
           /\ (may_pair = true -> forall end_, ~ motion_run cands c end_)
     | ScreenChangeKind.Motion MotionPart.End_ =>
         exists c, one c /\ VisualCandidate.reason c = CandidateReason.SettledAfterMotion
           /\ (may_pair = true -> forall start, ~ motion_run cands start c)
     | ScreenChangeKind.Motion MotionPart.Run =>
         may_pair = true /\ exists start end_, motion_run cands start end_ /\ run_as_one start end_ change
     end.

(** The changes of one window of the index. *)
Definition changes_of (w : VisualIndexWindow.t) : list PlannedScreenChange.t :=
  match VisualIndexWindow.outcome w with
  | Undecodable => []
  | Analysed _ cands dropped _ => window_changes (ordinal_of w) cands (dropped =? 0)
  end.

(** The candidates of a window that record a change. *)
Definition recorded (cands : list VisualCandidate.t) : list (OpaqueId VisualCandidateId) :=
  VisualCandidate.id <$>
    filter (fun c => CandidateReason.has_change (VisualCandidate.reason c) = true) cands.

(** ** One window *)

Lemma enumerate_app_lookup {A} (l : list A) start pre (q : nat) a post :
  drop start (enumerate l) = pre ++ (q, a) :: post ->
  (start <= q)%nat /\ l !! q = Some a /\ drop start l = pre.*2 ++ a :: drop (S q) l.
Proof.
  intros H.
  assert (Hq : enumerate l !! (start + length pre)%nat = Some (q, a)).
  { rewrite <- lookup_drop, H. by apply list_lookup_middle. }
  apply enumerate_lookup in Hq as [-> Hq]. split; [lia|]. split; [done|].
  assert (Hsnd : l = (enumerate l).*2) by (unfold enumerate; rewrite snd_zip; [done|rewrite length_seq; lia]).
  assert (Hd : drop start l = pre.*2 ++ a :: post.*2).
  { rewrite Hsnd at 1. by rewrite <- fmap_drop, H, fmap_app. }
  rewrite Hd. do 2 f_equal. replace (S (start + length pre)) with (start + S (length pre))%nat by lia.
  rewrite <- drop_drop, Hd, cons_middle, app_assoc.
  rewrite drop_app_length'; [done|]. rewrite length_app, length_fmap. cbn. lia.
Qed.

Lemma settled_at_spec cands may_pair position q e :
  settled_at cands may_pair position = Some (q, e) ->
  may_pair = true /\ (position <= q)%nat /\ cands !! q = Some e
  /\ VisualCandidate.reason e = CandidateReason.SettledAfterMotion
  /\ exists between, drop position cands = between ++ e :: drop (S q) cands
     /\ Forall (fun c => VisualCandidate.reason c = CandidateReason.PeriodicCoverage) between.
Proof.
  unfold settled_at. destruct may_pair; [|done]. unfold next_change_candidate.
  pose proof (find_split (fun p : nat * VisualCandidate.t =>
    negb (bool_decide (VisualCandidate.reason p.2 = CandidateReason.PeriodicCoverage)))
    (drop position (enumerate cands))) as H.
  destruct (List.find _ _) as [next|]; [|done]. destruct (bool_decide (_ = CandidateReason.SettledAfterMotion)) eqn:E; [|done].
  intros [= ->]. apply bool_decide_eq_true in E. destruct H as (pre & post & Hd & Hpre & _).
  destruct (enumerate_app_lookup cands position pre q e post Hd) as (Hle & Hq & Hc).
  split; [done|]. split; [done|]. split; [done|]. split; [done|]. exists pre.*2. split; [done|].
  apply Forall_fmap. eapply Forall_impl; [done|]. intros [k c] Hk. cbn in *.
  apply negb_false_iff, bool_decide_eq_true in Hk. done.
Qed.

(** A run of motion by the positions of its two candidates. *)
Definition run_at (cands : list VisualCandidate.t) (p q : nat) (start end_ : VisualCandidate.t) : Prop :=
  cands !! p = Some start /\ VisualCandidate.reason start = CandidateReason.MotionStart
  /\ cands !! q = Some end_ /\ VisualCandidate.reason end_ = CandidateReason.SettledAfterMotion
  /\ (p < q)%nat
  /\ forall k c, (p < k < q)%nat -> cands !! k = Some c -> VisualCandidate.reason c = CandidateReason.PeriodicCoverage.

Lemma motion_run_at cands start end_ : motion_run cands start end_ -> exists p q, run_at cands p q start end_.
Proof.
  intros (pre & between & post & -> & Hs & He & Hb). exists (length pre), (S (length pre + length between)).
  split; [by apply list_lookup_middle|]. split; [done|]. split; [|split; [done|split; [lia|]]].
  - rewrite lookup_app_r by lia. replace (S _ - length pre)%nat with (S (length between)) by lia.
    change ((between ++ end_ :: post) !! length between = Some end_). by apply list_lookup_middle.
  - intros k c Hk. rewrite lookup_app_r by lia.
    replace (k - length pre)%nat with (S (k - length pre - 1)) by lia. cbn [lookup list_lookup].
    change ((between ++ end_ :: post) !! (k - length pre - 1)%nat = Some c -> VisualCandidate.reason c = CandidateReason.PeriodicCoverage).
    rewrite lookup_app_l by lia. intros Hc. rewrite Forall_lookup in Hb. by eapply Hb.
Qed.

(** A run is found from its start. *)
Lemma settled_at_complete cands p q start end_ :
  run_at cands p q start end_ -> settled_at cands true (S p) = Some (q, end_).
Proof.
  intros (_ & _ & Hq & He & Hpq & Hb). unfold settled_at, next_change_candidate.
  pose proof (find_split (fun p : nat * VisualCandidate.t =>
    negb (bool_decide (VisualCandidate.reason p.2 = CandidateReason.PeriodicCoverage)))
    (drop (S p) (enumerate cands))) as H.
  destruct (List.find _ _) as [[k c]|].
  - destruct H as (pre & post & Hd & Hpre & Hc%negb_true_iff%bool_decide_eq_false).
    destruct (enumerate_app_lookup cands (S p) pre k c post Hd) as (Hle & Hk & _). cbn [snd] in *.
    assert (Hkq : ~ (k < q)%nat) by (intros Hkq; apply Hc; by apply (Hb k c); [lia|]).
    assert (Hqk : ~ (q < k)%nat).
    { intros Hqk. assert (Hp : pre !! (q - S p)%nat = Some (q, end_)).
      { assert (Hl : drop (S p) (enumerate cands) !! (q - S p)%nat = Some (q, end_))
          by (rewrite lookup_drop; replace (S p + (q - S p))%nat with q by lia; by apply enumerate_lookup).
        assert (Hlen : (length pre = k - S p)%nat).
        { assert (Hm : drop (S p) (enumerate cands) !! length pre = Some (k, c)) by (rewrite Hd; by apply list_lookup_middle).
          rewrite lookup_drop in Hm. apply enumerate_lookup in Hm as [Hm _]. lia. }
        rewrite Hd, lookup_app_l in Hl by lia. exact Hl. }
      rewrite Forall_lookup in Hpre. specialize (Hpre _ _ Hp). cbn in Hpre.
      apply negb_false_iff, bool_decide_eq_true in Hpre. congruence. }
    assert (k = q) as -> by lia. simplify_eq. by rewrite He.
  - rewrite Forall_lookup in H. specialize (H (q - S p)%nat (q, end_)). rewrite lookup_drop in H.
    replace (S p + (q - S p))%nat with q in H by lia. rewrite enumerate_lookup in H. specialize (H ltac:(done)).
    cbn in H. by rewrite He in H.
Qed.

Lemma recorded_periodic between rest :
  Forall (fun c => VisualCandidate.reason c = CandidateReason.PeriodicCoverage) between ->
  recorded (between ++ rest) = recorded rest.
Proof.
  intros H. unfold recorded. rewrite filter_app, filter_none; [done|].
  eapply Forall_impl; [done|]. cbn. by intros c ->.
Qed.

Lemma recorded_cons c rest :
  recorded (c :: rest)
  = if CandidateReason.has_change (VisualCandidate.reason c)
    then VisualCandidate.id c :: recorded rest else recorded rest.
Proof.
  unfold recorded. rewrite filter_cons. by destruct (CandidateReason.has_change _).
Qed.

Section OneWindow.
Context (ordinal : Z) (cands : list VisualCandidate.t) (may_pair : bool).
Context (Hvalid : candidates_valid cands).

(** The candidate whose frame a change shows after it, from [position] on. *)
Definition after_at (position : nat) (change : PlannedScreenChange.t) : Prop :=
  exists q c, (position <= q)%nat /\ cands !! q = Some c
    /\ PlannedScreenChange.after change = VisualCandidate.representative c.

(** The runs that start before a position end before it. *)
Definition runs_behind (position : nat) : Prop :=
  may_pair = true -> forall p q start end_, run_at cands p q start end_ -> (p < position)%nat -> (q < position)%nat.

Lemma runs_behind_next position c :
  runs_behind position -> cands !! position = Some c ->
  (VisualCandidate.reason c = CandidateReason.MotionStart -> settled_at cands may_pair (S position) = None) ->
  runs_behind (S position).
Proof.
  intros H Hc Hs Hp p q start end_ Hr Hlt. specialize (H Hp p q start end_ Hr).
  assert (Hcase : (p < position)%nat \/ p = position) by lia. destruct Hcase as [Hcase| ->]; [specialize (H Hcase); lia|].
  pose proof (settled_at_complete _ _ _ _ _ Hr) as Hf. destruct Hr as (Hstart & Hm & _). rewrite Hc in Hstart.
  injection Hstart as ->. specialize (Hs Hm). rewrite Hp in Hs. congruence.
Qed.

Lemma runs_behind_run position q c e :
  runs_behind position -> run_at cands position q c e -> runs_behind (S q).
Proof.
  intros H Hr Hp p q' start end_ Hr' Hlt. specialize (H Hp p q' start end_ Hr').
  destruct Hr as (Hc & Hm & Hq & He & Hlt' & Hb), (Hr') as (Hc' & Hm' & _).
  assert (Hcase : (p < position)%nat \/ p = position \/ (position < p < q)%nat \/ p = q) by lia.
  destruct Hcase as [Hcase|[->|[Hcase| ->]]].
  - specialize (H Hcase). lia.
  - pose proof (settled_at_complete _ _ _ _ _ Hr') as H1.
    assert (H2 : settled_at cands true (S position) = Some (q, e)) by by eapply settled_at_complete.
    rewrite H1 in H2. injection H2 as ->. lia.
  - specialize (Hb p start Hcase Hc'). congruence.
  - congruence.
Qed.

(** The runs that start from a position on are each one change. *)
Definition runs_formed (position : nat) (changes : list PlannedScreenChange.t) : Prop :=
  may_pair = true -> forall p q start end_, run_at cands p q start end_ -> (position <= p)%nat ->
    exists change, change ∈ changes /\ run_as_one start end_ change.

(** What the loop gives from a position on. *)
Definition planned (position : nat) (changes : list PlannedScreenChange.t) : Prop :=
  concat (PlannedScreenChange.candidates <$> changes) = recorded (drop position cands)
  /\ Forall (fun change => describes cands may_pair change
               /\ PlannedScreenChange.window_ordinal change = ordinal
               /\ after_at position change) changes
  /\ StronglySorted (fun a b => PlannedScreenChange.after a < PlannedScreenChange.after b) changes
  /\ runs_formed position changes.

(** A position where no run starts. *)
Lemma runs_formed_skip position c changes changes' :
  cands !! position = Some c ->
  (VisualCandidate.reason c = CandidateReason.MotionStart -> settled_at cands may_pair (S position) = None) ->
  changes ⊆ changes' -> runs_formed (S position) changes -> runs_formed position changes'.
Proof.
  intros Hc Hs Hsub H Hp p q start end_ Hr Hle. assert (Hcase : p = position \/ (S position <= p)%nat) by lia.
  destruct Hcase as [->|Hcase].
  - pose proof (settled_at_complete _ _ _ _ _ Hr) as Hf. destruct Hr as (Hstart & Hm & _). rewrite Hc in Hstart.
    injection Hstart as ->. specialize (Hs Hm). rewrite Hp in Hs. congruence.
  - destruct (H Hp p q start end_ Hr Hcase) as (change & Hin & Hone). exists change. split; [by apply Hsub|done].
Qed.

Lemma after_at_weaken position position' change :
  (position <= position')%nat -> after_at position' change -> after_at position change.
Proof. intros Hle (q & c & Hq & H). exists q, c. split; [lia|done]. Qed.

Lemma planned_skip position c changes :
  cands !! position = Some c -> CandidateReason.has_change (VisualCandidate.reason c) = false ->
  planned (S position) changes -> planned position changes.
Proof.
  intros Hc Hr (H1 & H2 & H3 & H4). split; [|split; [|split; [done|]]].
  - by rewrite (drop_S cands c position Hc), recorded_cons, Hr.
  - eapply Forall_impl; [done|]. cbn. intros ch (? & ? & ?). split; [done|]. split; [done|].
    eapply after_at_weaken; [|done]. lia.
  - eapply runs_formed_skip; [done| |done|done]. intros Hm. by rewrite Hm in Hr.
Qed.

(** One more change in front, whose frame after it is at [q]. *)
Lemma planned_cons position position' q c change changes :
  (position <= q < position')%nat -> cands !! q = Some c ->
  PlannedScreenChange.after change = VisualCandidate.representative c ->
  PlannedScreenChange.window_ordinal change = ordinal ->
  describes cands may_pair change ->
  recorded (drop position cands)
  = PlannedScreenChange.candidates change ++ recorded (drop position' cands) ->
  (runs_formed position' changes -> runs_formed position (change :: changes)) ->
  planned position' changes -> planned position (change :: changes).
Proof.
  intros Hq Hc Ha Ho Hd Hr Hf (H1 & H2 & H3 & H4). split; [|split; [|split; [|auto]]].
  - cbn. by rewrite H1, Hr.
  - constructor; [split; [done|split; [done|]]; exists q, c; split; [lia|done]|].
    eapply Forall_impl; [done|]. cbn. intros ch (? & ? & ?). split; [done|]. split; [done|].
    eapply after_at_weaken; [|done]. lia.
  - constructor; [done|]. eapply Forall_impl; [done|]. cbn. intros ch (_ & _ & q' & c' & Hq' & Hc' & ->).
    rewrite Ha. destruct Hvalid as [_ Hs]. rewrite StronglySorted_lookup in Hs.
    apply (Hs q q'); [lia|done|done].
Qed.

(** A candidate is at one position. *)
Lemma candidate_once p q c : cands !! p = Some c -> cands !! q = Some c -> p = q.
Proof.
  intros Hp Hq. destruct Hvalid as [_ Hs]. rewrite StronglySorted_lookup in Hs.
  destruct (Nat.lt_total p q) as [Hlt|[->|Hlt]]; [|done|].
  - specialize (Hs p q c c Hlt Hp Hq). cbn in Hs. lia.
  - specialize (Hs q p c c Hlt Hq Hp). cbn in Hs. lia.
Qed.

Lemma no_run_from position c end_ :
  cands !! position = Some c -> settled_at cands may_pair (S position) = None -> may_pair = true -> ~ motion_run cands c end_.
Proof.
  intros Hc Hs Hp (p & q & Hr)%motion_run_at. pose proof (settled_at_complete _ _ _ _ _ Hr) as Hf.
  destruct Hr as (Hp' & _). rewrite (candidate_once p position c Hp' Hc) in Hf. rewrite Hp in Hs. congruence.
Qed.

Lemma no_run_to position c start :
  cands !! position = Some c -> runs_behind position -> may_pair = true -> ~ motion_run cands start c.
Proof.
  intros Hc Hb Hp (p & q & Hr)%motion_run_at. specialize (Hb Hp p q start c Hr).
  destruct Hr as (_ & _ & Hq & _ & Hlt & _). pose proof (candidate_once q position c Hq Hc). lia.
Qed.

(** A change that one candidate stands for. *)
Lemma planned_single position c change kind changes :
  cands !! position = Some c -> CandidateDraft.change (VisualCandidate.draft c) = Some change ->
  match kind with
  | ScreenChangeKind.Change => VisualCandidate.reason c = CandidateReason.VisualChange
  | ScreenChangeKind.Motion MotionPart.Start =>
      VisualCandidate.reason c = CandidateReason.MotionStart /\ settled_at cands may_pair (S position) = None
  | ScreenChangeKind.Motion MotionPart.End_ => VisualCandidate.reason c = CandidateReason.SettledAfterMotion
  | ScreenChangeKind.Motion MotionPart.Run => False
  end ->
  runs_behind position -> planned (S position) changes ->
  planned position (PlannedScreenChange.mk kind [VisualCandidate.id c] ordinal
    (CandidateChange.previous_sample change) (VisualCandidate.representative c) :: changes).
Proof.
  intros Hc Hch Hkind Hbehind. destruct Hvalid as [Hv _]. rewrite Forall_forall in Hv.
  pose proof (list_elem_of_lookup_2 _ _ _ Hc) as Hin. specialize (Hv c Hin).
  unfold candidate_valid in Hv. rewrite Hch in Hv. destruct Hv as [Hhas Hlt].
  apply planned_cons with (q := position) (c := c); [lia|done|done|done| | |].
  - split; [done|]. cbn. destruct kind as [|[| |]]; try done;
      (exists c; split; [split; [done|split; [done|split; [by exists change|done]]]|]); [done|..].
    + destruct Hkind as [Hm Hs]. split; [done|]. intros Hp end_. by eapply no_run_from.
    + split; [done|]. intros Hp start. by eapply no_run_to.
  - by rewrite (drop_S cands c position Hc), recorded_cons, Hhas.
  - eapply runs_formed_skip; [done| |by intros x Hx; right]. intros Hm. destruct kind as [|[| |]]; try done; try congruence. by destruct Hkind.
Qed.

Lemma settled_at_run position q c e :
  cands !! position = Some c -> VisualCandidate.reason c = CandidateReason.MotionStart ->
  settled_at cands may_pair (S position) = Some (q, e) -> run_at cands position q c e.
Proof.
  intros Hc Hm Hs. apply settled_at_spec in Hs as (Hp & Hq & Hqe & He & between & Hd & Hb).
  split; [done|]. split; [done|]. split; [done|]. split; [done|]. split; [lia|]. intros k c' Hk Hc'.
  assert (Hl : drop (S position) cands !! (k - S position)%nat = Some c')
    by (rewrite lookup_drop; by replace (S position + (k - S position))%nat with k by lia).
  assert (Hlen : (length between = q - S position)%nat).
  { assert (Hm' : drop (S position) cands !! length between = Some e) by (rewrite Hd; by apply list_lookup_middle).
    rewrite lookup_drop in Hm'. pose proof (candidate_once _ _ _ Hm' Hqe). lia. }
  rewrite Hd, lookup_app_l in Hl by lia. rewrite Forall_lookup in Hb. by eapply Hb.
Qed.

Lemma planned_run position c change q e changes :
  cands !! position = Some c -> CandidateDraft.change (VisualCandidate.draft c) = Some change ->
  VisualCandidate.reason c = CandidateReason.MotionStart ->
  settled_at cands may_pair (S position) = Some (q, e) ->
  planned (S q) changes ->
  planned position (PlannedScreenChange.mk (ScreenChangeKind.Motion MotionPart.Run)
    [VisualCandidate.id c; VisualCandidate.id e] ordinal
    (CandidateChange.previous_sample change) (VisualCandidate.representative e) :: changes).
Proof.
  intros Hc Hch Hreason Hs. pose proof (settled_at_run position q c e Hc Hreason Hs) as Hrun.
  apply settled_at_spec in Hs as (Hp & Hq & Hqe & He & between & Hd & Hb).
  destruct Hvalid as [Hv Hsort]. rewrite Forall_forall in Hv.
  pose proof (list_elem_of_lookup_2 _ _ _ Hc) as Hin. specialize (Hv c Hin).
  unfold candidate_valid in Hv. rewrite Hch in Hv. destruct Hv as [Hhas Hlt].
  assert (Hsplit : cands = take position cands ++ c :: between ++ e :: drop (S q) cands)
    by (rewrite <- (take_drop position cands) at 1; by rewrite (drop_S cands c position Hc), Hd).
  apply planned_cons with (q := q) (c := e); [lia|done|done|done| | |].
  - split; [cbn; rewrite StronglySorted_lookup in Hsort; specialize (Hsort position q c e ltac:(lia) Hc Hqe); cbn in Hsort |- *; lia|].
    cbn. split; [done|]. exists c, e. split; [|split; [done|split; [done|split; [by exists change|done]]]].
    by exists (take position cands), between, (drop (S q) cands).
  - rewrite (drop_S cands c position Hc), Hd, recorded_cons, Hhas, recorded_periodic by done.
    by rewrite recorded_cons, He.
  - intros Hf _ p q' start end_ Hr Hle. assert (Hcase : p = position \/ (position < p <= q)%nat \/ (S q <= p)%nat) by lia.
    destruct Hcase as [->|[Hcase|Hcase]].
    + pose proof (settled_at_complete _ _ _ _ _ Hr) as H1. pose proof (settled_at_complete _ _ _ _ _ Hrun) as H2.
      destruct Hr as (Hc' & _). simplify_eq. eexists. split; [by left|]. split; [done|]. split; [done|]. split; [by exists change|done].
    + destruct Hr as (Hc' & Hm & _), Hrun as (_ & _ & _ & _ & _ & Hin').
      assert (Hpq : (p < q)%nat \/ p = q) by lia. destruct Hpq as [Hpq| ->]; [|congruence].
      specialize (Hin' p start ltac:(lia) Hc'). congruence.
    + destruct (Hf Hp p q' start end_ Hr Hcase) as (ch & Hch' & Hone). exists ch. split; [by right|done].
Qed.

Lemma planned_end position : (length cands <= position)%nat -> planned position [].
Proof.
  intros Hl. unfold planned. rewrite drop_ge by lia. split; [done|]. split; [constructor|]. split; [constructor|].
  intros _ p q start end_ (Hp & _) Hle. apply lookup_lt_Some in Hp. lia.
Qed.

Lemma window_changes_from_spec fuel position :
  (length cands <= fuel + position)%nat -> runs_behind position ->
  planned position (window_changes_from fuel ordinal cands may_pair position).
Proof.
  revert position. induction fuel as [|fuel IH]; intros position Hfuel Hbehind; [apply planned_end; lia|].
  cbn [window_changes_from]. destruct (cands !! position) as [c|] eqn:Hc; [|apply planned_end; by apply lookup_ge_None].
  pose proof (IH (S position) ltac:(lia)) as IH1. pose proof (runs_behind_next position c Hbehind Hc) as Hnext.
  destruct (CandidateDraft.change _) as [change|] eqn:Hch.
  - destruct (VisualCandidate.reason c) eqn:Hr; try (specialize (IH1 (Hnext ltac:(done)))).
    + eapply planned_skip; [done|by rewrite Hr|done].
    + by apply planned_single.
    + destruct (settled_at cands may_pair (S position)) as [[q e]|] eqn:Hs.
      * pose proof (settled_at_run position q c e Hc Hr Hs) as Hrun. eapply planned_run; [done..|].
        apply IH; [destruct Hrun as (_ & _ & _ & _ & ? & _); lia|by eapply runs_behind_run].
      * by apply planned_single; [done..|apply IH1, Hnext].
    + by apply planned_single.
    + eapply planned_skip; [done|by rewrite Hr|done].
  - assert (Hh : CandidateReason.has_change (VisualCandidate.reason c) = false).
    { destruct Hvalid as [Hv _]. rewrite Forall_forall in Hv. specialize (Hv c (list_elem_of_lookup_2 _ _ _ Hc)).
      unfold candidate_valid in Hv. by rewrite Hch in Hv. }
    eapply planned_skip; [done..|]. apply IH1, Hnext. intros Hm. by rewrite Hm in Hh.
Qed.
End OneWindow.

(** ** Committed windows *)

(** Every range of a candidate was made by [TimeRange::new]. *)
Definition spans_wf (cands : list VisualCandidate.t) : Prop :=
  Forall (fun c => TimeRange.wf (CandidateDraft.span (VisualCandidate.draft c))) cands.

Lemma validate_candidate_valid w policy position previous c rest :
  validate_candidate w policy position previous c rest = Ok tt ->
  TimeRange.wf (CandidateDraft.span (VisualCandidate.draft c)) ->
  candidate_valid c
  /\ match rest with
     | next :: _ => VisualCandidate.representative c < VisualCandidate.representative next
     | [] => True
     end.
Proof.
  unfold validate_candidate. cbn zeta. intros H (_ & _ & Hspan).
  destruct (_ || _ || _ || _) eqn:E; [done|]. bool_prop.
  destruct (_ || _) eqn:E'; [done|]. clear E'. split.
  - unfold candidate_valid, VisualCandidate.reason.
    destruct (CandidateReason.has_change _), (CandidateDraft.change _) as [change|]; try done.
    split; [done|]. destruct (_ || _ || _) eqn:Ec; [done|]. bool_prop.
    unfold VisualCandidate.representative. lia.
  - destruct rest as [|next rest]; [done|]. unfold VisualCandidate.representative at 1. lia.
Qed.

Lemma validate_candidates_valid w policy position previous total cands n :
  validate_candidates w policy position previous total cands = Ok n -> spans_wf cands ->
  candidates_valid cands.
Proof.
  revert position previous total. induction cands as [|c cands IH]; intros position previous total H Hs;
    [by split; constructor|]. cbn [validate_candidates] in H.
  destruct (validate_candidate _ _ _ _ _ _) as [[]|] eqn:E; [|done]. cbn [result_bind] in H.
  apply Forall_cons in Hs as [Hc Hs]. destruct (IH _ _ _ H Hs) as [Hv Hsort].
  destruct (validate_candidate_valid _ _ _ _ _ _ E Hc) as [Hcv Hnext].
  split; [by constructor|]. constructor; [done|]. destruct cands as [|next cands]; [constructor|].
  inversion Hsort as [|? ? _ Hall]; subst. constructor; [done|].
  eapply Forall_impl; [exact Hall|]. cbn. intros. lia.
Qed.

Lemma committed_valid w sc cands dropped frameless :
  committed w -> VisualIndexWindow.outcome w = Analysed sc cands dropped frameless ->
  spans_wf cands -> candidates_valid cands.
Proof.
  intros (win & out & policy & H) Ho Hs. unfold VisualIndexWindow.new in H.
  destruct out as [sc' cands' dropped' frameless'|]; [|cbn in H; by injection H as <-].
  destruct (validate_analysed _ _ _ _ _ _) as [[]|] eqn:E; [|done]. injection H as <-.
  cbn in Ho. injection Ho as -> -> -> ->. unfold validate_analysed in E.
  destruct (_ || _ || (_ <? _)); [done|]. destruct (sc =? 0).
  - destruct cands as [|c cands]; [by split; constructor|]. cbn in E. done.
  - destruct (head cands) as [first|]; [|done]. cbn [ok_or result_bind] in E.
    destruct (negb _); [done|]. destruct (validate_candidates _ _ _ _ _ _) as [n|] eqn:Ev; [|done].
    by eapply validate_candidates_valid.
Qed.

(** The changes of a window are those its candidates record. *)
Lemma changes_of_spec w sc cands dropped frameless :
  committed w -> VisualIndexWindow.outcome w = Analysed sc cands dropped frameless ->
  spans_wf cands -> planned (ordinal_of w) cands (dropped =? 0) 0 (changes_of w).
Proof.
  intros Hc Ho Hs. unfold changes_of. rewrite Ho.
  apply window_changes_from_spec; [by eapply committed_valid|lia|]. intros _ p q start end_ _ Hp. lia.
Qed.

(** ** The plan *)

Section Plan.
Context (i : VisualIndex.t).
Context (Hnew : VisualIndex.new (VisualIndex.parts i) = Ok i).
Context (Hcommitted : Forall committed (VisualIndex.windows i)).
Context (Hdur : is_u64 (VisualIndex.duration i)).
Context (Hords : Forall (fun w => 0 <= ordinal_of w) (VisualIndex.windows i)).
Context (Hspans : Forall (fun w => spans_wf (VisualIndexWindow.candidates w)) (VisualIndex.windows i)).

Lemma window_planned w :
  w ∈ VisualIndex.windows i ->
  StronglySorted (fun a b => PlannedScreenChange.after a < PlannedScreenChange.after b) (changes_of w)
  /\ Forall (fun ch => PlannedScreenChange.window_ordinal ch = ordinal_of w
       /\ ordinal_of w * VISUAL_WINDOW_MICROS <= PlannedScreenChange.after ch
          < (ordinal_of w + 1) * VISUAL_WINDOW_MICROS
       /\ PlannedScreenChange.after ch < VisualIndex.duration i) (changes_of w).
Proof.
  intros Hw. pose proof (proj1 (Forall_forall _ _) Hspans w Hw) as Hs0. cbn beta in Hs0.
  pose proof (proj1 (Forall_forall _ _) Hcommitted w Hw) as Hc0.
  unfold VisualIndexWindow.candidates in Hs0.
  destruct (VisualIndexWindow.outcome w) as [sc cands dropped frameless|] eqn:Ho.
  2:{ unfold changes_of. rewrite Ho. split; constructor. }
  destruct (changes_of_spec w sc cands dropped frameless Hc0 Ho Hs0) as (_ & Hall & Hs & _).
  split; [done|]. eapply Forall_impl; [exact Hall|]. cbn. intros ch (_ & Hord & q & c & _ & Hq & ->).
  split; [done|]. pose proof (list_elem_of_lookup_2 _ _ _ Hq) as Hin.
  by eapply candidate_window.
Qed.

Lemma window_after w ch :
  w ∈ VisualIndex.windows i -> ch ∈ changes_of w ->
  PlannedScreenChange.window_ordinal ch = ordinal_of w
  /\ ordinal_of w * VISUAL_WINDOW_MICROS <= PlannedScreenChange.after ch
     < (ordinal_of w + 1) * VISUAL_WINDOW_MICROS
  /\ PlannedScreenChange.after ch < VisualIndex.duration i.
Proof.
  intros Hw Hch. destruct (window_planned w Hw) as [_ H]. rewrite Forall_forall in H. by apply H.
Qed.

(** The changes the plan takes from one ordinal. *)
Definition planned_at (range : TimeRange.t) (ordinal : Z) : list PlannedScreenChange.t :=
  match VisualIndex.window i ordinal with
  | None => []
  | Some w => filter (fun ch => contains range (PlannedScreenChange.after ch) = true) (changes_of w)
  end.

Lemma plan_by_ordinal range :
  plan_screen_changes i range
  = (let '(first, last) := VisualIndex.window_ordinals i range in
     (Z.of_nat <$> seq (Z.to_nat first) (Z.to_nat last - Z.to_nat first)) ≫= planned_at range).
Proof.
  unfold plan_screen_changes. destruct (VisualIndex.window_ordinals i range) as [first last].
  apply list_bind_ext; [|done]. intros o. unfold planned_at, changes_of.
  destruct (VisualIndex.window i o) as [w|] eqn:E; [|done]. apply window_lookup in E as [_ <-]; [|done..].
  by destruct (VisualIndexWindow.outcome w).
Qed.

Lemma planned_at_elem range o ch :
  ch ∈ planned_at range o <->
  exists w, w ∈ VisualIndex.windows i /\ ordinal_of w = o /\ ch ∈ changes_of w
    /\ contains range (PlannedScreenChange.after ch) = true.
Proof.
  unfold planned_at. split.
  - destruct (VisualIndex.window i o) as [w|] eqn:E; [|by intros ?%not_elem_of_nil].
    apply window_lookup in E as [Hw Ho]; [|done..]. intros [Hc Hch]%list_elem_of_filter. by exists w.
  - intros (w & Hw & Ho & Hch & Hc).
    rewrite (proj2 (window_lookup i Hnew Hdur o w)) by done.
    by apply list_elem_of_filter.
Qed.

Lemma plan_elem range ch :
  TimeRange.wf range ->
  ch ∈ plan_screen_changes i range <->
  exists w, w ∈ VisualIndex.windows i /\ ch ∈ changes_of w
    /\ contains range (PlannedScreenChange.after ch) = true.
Proof.
  intros Hr. rewrite plan_by_ordinal.
  destruct (VisualIndex.window_ordinals i range) as [first last] eqn:E.
  rewrite list_elem_of_bind. setoid_rewrite planned_at_elem. split; [naive_solver|].
  intros (w & Hw & Hch & Hc). destruct (window_after w ch Hw Hch) as (_ & Hwin & Hd).
  pose proof (ordinals_cover i Hnew Hdur range _ Hr Hc Hd) as Hcov.
  rewrite E in Hcov. exists (ordinal_of w). split; [by exists w|].
  assert (Ho : PlannedScreenChange.after ch / VISUAL_WINDOW_MICROS = ordinal_of w)
    by (unfold VISUAL_WINDOW_MICROS in *; divlia).
  rewrite Ho in Hcov. apply list_elem_of_fmap. exists (Z.to_nat (ordinal_of w)). split; [lia|].
  apply elem_of_seq. lia.
Qed.

Lemma plan_sorted range :
  StronglySorted (fun a b => PlannedScreenChange.after a < PlannedScreenChange.after b)
    (plan_screen_changes i range).
Proof.
  rewrite plan_by_ordinal. destruct (VisualIndex.window_ordinals i range) as [first last].
  apply StronglySorted_bind with (RA := Z.lt).
  - apply StronglySorted_lookup. intros p q a b Hpq.
    rewrite !list_lookup_fmap_Some. intros (p' & -> & Hp) (q' & -> & Hq).
    apply lookup_seq in Hp as [-> _], Hq as [-> _]. lia.
  - intros o _. unfold planned_at. destruct (VisualIndex.window i o) as [w|] eqn:E; [|constructor].
    apply window_lookup in E as [Hw _]; [|done..]. by apply StronglySorted_filter, window_planned.
  - intros a b x y _ _ Hab (w & Hw & Ho & Hx & _)%planned_at_elem (w' & Hw' & Ho' & Hy & _)%planned_at_elem.
    pose proof (window_after w x Hw Hx). pose proof (window_after w' y Hw' Hy).
    unfold VISUAL_WINDOW_MICROS in *. nia.
Qed.
End Plan.

(** The plan of a range holds exactly the changes of the index whose frame
    after them lies in the range, in strict time order. The changes of a
    window stand for every candidate that records a change, each exactly once
    and in time order; each change shows an earlier frame before it and
    describes one candidate, or a whole run of motion with only coverage frames
    inside it. In a window of which the budget dropped nothing every run of motion
    is one change, and a start or an end of motion is a change of its own only
    when it belongs to no run; in a window of which it dropped something no run is
    formed. Claim C15. *)
Theorem screen_changes_planned i range :
  VisualIndex.new (VisualIndex.parts i) = Ok i -> Forall committed (VisualIndex.windows i) ->
  is_u64 (VisualIndex.duration i) -> Forall (fun w => 0 <= ordinal_of w) (VisualIndex.windows i) ->
  Forall (fun w => spans_wf (VisualIndexWindow.candidates w)) (VisualIndex.windows i) ->
  TimeRange.wf range ->
  (forall ch, ch ∈ plan_screen_changes i range <->
     exists w, w ∈ VisualIndex.windows i /\ ch ∈ changes_of w
       /\ contains range (PlannedScreenChange.after ch) = true)
  /\ StronglySorted (fun a b => PlannedScreenChange.after a < PlannedScreenChange.after b)
       (plan_screen_changes i range)
  /\ forall w sc cands dropped frameless, w ∈ VisualIndex.windows i ->
       VisualIndexWindow.outcome w = Analysed sc cands dropped frameless ->
       concat (PlannedScreenChange.candidates <$> changes_of w) = recorded cands
       /\ Forall (describes cands (dropped =? 0)) (changes_of w)
       /\ (dropped = 0 -> forall start end_, motion_run cands start end_ ->
             exists change, change ∈ changes_of w /\ run_as_one start end_ change).
Proof.
  intros Hnew Hcom Hdur Hords Hspans Hr.
  split; [intros ch; by apply plan_elem|]. split; [by apply plan_sorted|].
  intros w sc cands dropped frameless Hw Ho. rewrite Forall_forall in Hcom, Hspans.
  specialize (Hspans w Hw). unfold VisualIndexWindow.candidates in Hspans. rewrite Ho in Hspans.
  destruct (changes_of_spec w sc cands dropped frameless (Hcom w Hw) Ho Hspans) as (H1 & H2 & _ & H4).
  split; [by rewrite H1, drop_0|]. split; [eapply Forall_impl; [exact H2|]; cbn; tauto|].
  intros -> start end_ (p & q & Hrun)%motion_run_at. exact (H4 eq_refl p q start end_ Hrun (Nat.le_0_l p)).
Qed.

(** A scroll: motion from the second to the fourth candidate, with a periodic
    one inside it. The plan of a range that starts after the motion did holds
    the whole run as one change. *)
Lemma screen_changes_planned_witness :
  let change previous := Some (CandidateChange.mk previous (VisualDelta.mk 3 9)) in
  let candidate name reason rep end_ stability change :=
    VisualCandidate.mk (mkOpaqueId name)
      (CandidateDraft.mk reason rep (TimeRange.mk rep end_) 1 stability change (VisualHash.mk 0)) in
  let start :=
    candidate [comma] CandidateReason.MotionStart 1000000 12000000 CandidateStability.InMotion (change 500000) in
  let end_ :=
    candidate [comma; comma] CandidateReason.SettledAfterMotion 15000000 60000000
      CandidateStability.OpenAtWindowEnd (change 14500000) in
  let cands :=
    [candidate [zero_char] CandidateReason.FirstFrame 0 1000000 CandidateStability.Settled None; start;
     candidate [zero_char; comma] CandidateReason.PeriodicCoverage 12000000 15000000
       CandidateStability.InMotion None; end_] in
  let grid := VisualWindow.mk 0 (TimeRange.mk 0 60000000) in
  let w := VisualIndexWindow.mk grid (Analysed 4 cands 0 (drop 2 (VisualWindow.cells grid))) in
  let i := VisualIndex.mk (VisualIndexParts.mk (mkOpaqueId []) 1 (mkDigestId []) 0
             (FrameDimensions.mk 2 2) 130000000 ProfileR0 [w]) in
  let range := TimeRange.mk 5000000 70000000 in
  let run := PlannedScreenChange.mk (ScreenChangeKind.Motion MotionPart.Run)
               [mkOpaqueId [comma]; mkOpaqueId [comma; comma]] 0 500000 15000000 in
  plan_screen_changes i range = [run]
  /\ concat (PlannedScreenChange.candidates <$> changes_of w) = recorded cands
  /\ describes cands true run
  /\ exists one, one ∈ changes_of w /\ run_as_one start end_ one.
Proof.
  intros change candidate start end_ cands grid w i range run. split; [vm_compute; reflexivity|].
  destruct (screen_changes_planned i range) as (_ & _ & H).
  - vm_compute. reflexivity.
  - constructor; [|constructor]. exists grid, (VisualIndexWindow.outcome w), PolicyR0.
    vm_compute. reflexivity.
  - concrete.
  - constructor; [concrete|constructor].
  - constructor; [|constructor]. repeat (constructor; [concrete|]). constructor.
  - concrete.
  - destruct (H w 4 cands 0 (drop 2 (VisualWindow.cells grid))) as (H1 & H2 & H3); [by left|done|].
    split; [exact H1|]. split; [rewrite Forall_forall in H2; apply (H2 run); vm_compute; left|].
    apply (H3 eq_refl start end_). exists (take 1 cands), (take 1 (drop 2 cands)), []. split; [reflexivity|].
    split; [reflexivity|]. split; [reflexivity|]. by repeat constructor.
Defined.
