(* ===== verification/ScreenRegions.v ===== *)
(** * ScreenRegions: where two exact frames differ

    Models the frame comparison of [crates/vsift-domain/src/screen_change.rs]:
    [RgbPixels], [compare_frames], the tile grid with its flood fill, and the
    rectangles reported. The counts per tile are exact, the flood fill finds
    exactly the connected components of the changed tiles, and the report
    says what the components are. A [Vec] used as a stack is a list whose
    head is the top. *)

From S2P Require Import Prelude.
From S2P Require Import Timeline.

Definition SCREEN_CHANGE_TILE : Z := 16.
Definition SCREEN_CHANGE_PIXEL_LEVEL : Z := 32.
Definition SCREEN_CHANGE_TILE_PIXELS : Z := 4.
Definition SCREEN_CHANGE_JOIN_DISTANCE : Z := 2.
Definition MAX_CHANGE_REGIONS : nat := 8.

Inductive ScreenChangeError := PixelBufferSize.

(** ** Pixels of a frame *)

Module RgbPixels.
Record t := mk { dimensions : FrameDimensions.t; bytes : list Z }.

Definition new (dimensions : FrameDimensions.t) (bytes : list Z) : result t ScreenChangeError :=
  let? expected := ok_or (pixels ← checked_u64 (FrameDimensions.width dimensions
                                                * FrameDimensions.height dimensions);
                          checked_u64 (pixels * 3)) PixelBufferSize in
  if negb (Z.of_nat (length bytes) =? expected) then Err PixelBufferSize
  else Ok (mk dimensions bytes).
End RgbPixels.

Definition pixel_changed (before after : list Z) : bool :=
  existsb (fun p : Z * Z => SCREEN_CHANGE_PIXEL_LEVEL <=? Z.abs (p.1 - p.2)) (zip before after).

(** [u64] arithmetic on [u32] values, as a [usize]. *)
Definition tile_count (columns rows : Z) : nat := Z.to_nat (wrap_u64 (columns * rows)).

Definition tile_index (columns column row : Z) : nat :=
  Z.to_nat (wrap_u64 (wrap_u64 (row * columns) + column)).

(** [slice::chunks_exact] (and [as_chunks]): whole chunks of [n] items; one
    chunk is taken per unit of fuel and the length of the list is enough. *)
Fixpoint chunks_from {A} (fuel n : nat) (l : list A) : list (list A) :=
  match fuel with
  | O => []
  | S fuel => if (length l <? n)%nat then [] else take n l :: chunks_from fuel n (drop n l)
  end.

Definition chunks_exact {A} (n : nat) (l : list A) : list (list A) := chunks_from (length l) n l.

(** ** Rectangles of tiles *)

Module ChangeRegion.
Record t := mk { rect : CropRect.t; changed_pixels : Z }.

#[global] Instance eq_dec : EqDecision t.
Proof. solve_decision. Defined.
End ChangeRegion.

Module TileBox.
Record t := mk {
  first_column : Z;
  first_row : Z;
  last_column : Z;
  last_row : Z;
  changed_pixels : Z
}.

Definition single (column row changed_pixels : Z) : t := mk column row column row changed_pixels.

Definition union (self other : t) : t :=
  mk (Z.min (first_column self) (first_column other))
     (Z.min (first_row self) (first_row other))
     (Z.max (last_column self) (last_column other))
     (Z.max (last_row self) (last_row other))
     (saturating_u64 (changed_pixels self + changed_pixels other)).

Definition region (self : t) (dimensions : FrameDimensions.t) : option ChangeRegion.t :=
  x ← checked_u32 (first_column self * SCREEN_CHANGE_TILE);
  y ← checked_u32 (first_row self * SCREEN_CHANGE_TILE);
  next_column ← checked_u32 (last_column self + 1);
  right ← checked_u32 (next_column * SCREEN_CHANGE_TILE);
  let right := Z.min right (FrameDimensions.width dimensions) in
  next_row ← checked_u32 (last_row self + 1);
  bottom ← checked_u32 (next_row * SCREEN_CHANGE_TILE);
  let bottom := Z.min bottom (FrameDimensions.height dimensions) in
  width ← checked_u32 (right - x);
  height ← checked_u32 (bottom - y);
  rect ← result_ok (CropRect.new x y width height dimensions);
  Some (ChangeRegion.mk rect (changed_pixels self)).
End TileBox.

(** ** The grid of tiles *)

Module RegionComparison.
Record t := mk {
  regions : list ChangeRegion.t;
  regions_left_out : Z;
  changed_area : option ChangeRegion.t
}.
End RegionComparison.

Inductive FrameComparison :=
| Compared (comparison : RegionComparison.t)
| DimensionsDiffer.

(** A tile as its column and row. *)
Abbreviation tile := (Z * Z)%type.

(** The order in which regions are reported: most changed pixels first, then
    from the top, then from the left. *)
Definition region_le (left right : ChangeRegion.t) : Prop :=
  let y r := CropRect.y (ChangeRegion.rect r) in
  let x r := CropRect.x (ChangeRegion.rect r) in
  ChangeRegion.changed_pixels right < ChangeRegion.changed_pixels left
  \/ (ChangeRegion.changed_pixels right = ChangeRegion.changed_pixels left
      /\ (y left < y right \/ (y left = y right /\ x left <= x right))).

#[export] Instance region_le_dec : RelDecision region_le.
Proof. intros a b. unfold region_le. apply _. Defined.

Module TileGrid.
Record t := mk { columns : Z; rows : Z; counts : list Z }.

(** One more changed pixel in the tile of an index. *)
Definition bump (counts : list Z) (index : nat) : list Z :=
  alter (fun count => saturating_u16 (count + 1)) index counts.

(** The pixels of one line of both frames. *)
Definition count_line (columns tile_row : Z) (line_before line_after : list Z)
    (counts : list Z) : list Z :=
  fold_left (fun counts '(x, (pixel_before, pixel_after)) =>
    if pixel_changed pixel_before pixel_after
    then bump counts (tile_index columns (Z.of_nat x / SCREEN_CHANGE_TILE) tile_row)
    else counts)
    (enumerate (zip (chunks_exact 3 line_before) (chunks_exact 3 line_after))) counts.

Definition count (before after : RgbPixels.t) : t :=
  let width := FrameDimensions.width (RgbPixels.dimensions before) in
  let height := FrameDimensions.height (RgbPixels.dimensions before) in
  let columns := div_ceil width SCREEN_CHANGE_TILE in
  let rows := div_ceil height SCREEN_CHANGE_TILE in
  let row_bytes := Z.to_nat (saturating_u64 (width * 3)) in
  let lines := zip (chunks_exact row_bytes (RgbPixels.bytes before))
                 (chunks_exact row_bytes (RgbPixels.bytes after)) in
  mk columns rows
    (fold_left (fun counts '(y, (line_before, line_after)) =>
       count_line columns (Z.of_nat y / SCREEN_CHANGE_TILE) line_before line_after counts)
       (enumerate lines) (replicate (tile_count columns rows) 0)).

Definition changed (self : t) (column row : Z) : bool :=
  match counts self !! tile_index (columns self) column row with
  | Some count => SCREEN_CHANGE_TILE_PIXELS <=? count
  | None => false
  end.

Definition changed_pixels (self : t) (column row : Z) : Z :=
  default 0 (counts self !! tile_index (columns self) column row).

(** What the flood fill keeps: the box so far, the stack of tiles to visit,
    and the marks. *)
Record fill := mk_fill { tiles : TileBox.t; pending : list tile; seen : list bool }.

(** The body of the innermost loop, at one near tile. *)
Definition visit (self : t) (st : fill) (near : tile) : fill :=
  let index := tile_index (columns self) near.1 near.2 in
  if negb (changed self near.1 near.2) || default true (seen st !! index) then st
  else mk_fill
         (TileBox.union (tiles st) (TileBox.single near.1 near.2 (changed_pixels self near.1 near.2)))
         (near :: pending st)
         (<[index := true]> (seen st)).

(** [lo..=hi] *)
Definition inclusive (lo hi : Z) : list Z := seqZ lo (hi - lo + 1).

(** The tiles at most the join distance from a tile, row by row. *)
Definition near_tiles (self : t) (x y : Z) : list tile :=
  let reach := SCREEN_CHANGE_JOIN_DISTANCE in
  near_row ← inclusive (saturating_u32 (y - reach))
               (Z.min (saturating_u32 (y + reach)) (saturating_u32 (rows self - 1)));
  near_column ← inclusive (saturating_u32 (x - reach))
                  (Z.min (saturating_u32 (x + reach)) (saturating_u32 (columns self - 1)));
  [(near_column, near_row)].

(** The loop over the stack. Each tile is pushed once, so that the number of
    tiles is fuel enough. *)
Fixpoint fill_loop (fuel : nat) (self : t) (st : fill) : fill :=
  match fuel, pending st with
  | S fuel, (x, y) :: rest =>
      fill_loop fuel self
        (fold_left (visit self) (near_tiles self x y) (mk_fill (tiles st) rest (seen st)))
  | _, _ => st
  end.

(** The box of the changed tiles joined to a tile, and the marks after it. *)
Definition component (self : t) (column row : Z) (seen : list bool) : TileBox.t * list bool :=
  let final :=
    fill_loop (length (counts self)) self
      (mk_fill (TileBox.single column row (changed_pixels self column row)) [(column, row)]
         (<[tile_index (columns self) column row := true]> seen)) in
  (tiles final, TileGrid.seen final).

(** The body of the loops over rows and columns. *)
Definition scan_tile (self : t) (st : list TileBox.t * list bool) (at_ : tile)
    : list TileBox.t * list bool :=
  let '(found, seen) := st in
  let index := tile_index (columns self) at_.1 at_.2 in
  if negb (changed self at_.1 at_.2) || default true (seen !! index) then st
  else let '(box, seen') := component self at_.1 at_.2 seen in (found ++ [box], seen').

(** Every tile, row by row. *)
Definition all_tiles (self : t) : list tile :=
  row ← seqZ 0 (rows self); column ← seqZ 0 (columns self); [(column, row)].

Definition found_boxes (self : t) : list TileBox.t :=
  (fold_left (scan_tile self) (all_tiles self) ([], replicate (length (counts self)) false)).1.

(** [Iterator::reduce] *)
Definition reduce {A} (f : A -> A -> A) (l : list A) : option A :=
  match l with
  | [] => None
  | a :: rest => Some (fold_left f rest a)
  end.

Definition regions (self : t) (dimensions : FrameDimensions.t) : RegionComparison.t :=
  let found := found_boxes self in
  let changed_area := area ← reduce TileBox.union found; TileBox.region area dimensions in
  let regions := stable_sort region_le (omap (fun tiles => TileBox.region tiles dimensions) found) in
  let left_out := (length regions - MAX_CHANGE_REGIONS)%nat in
  RegionComparison.mk (take MAX_CHANGE_REGIONS regions)
    (default U32_MAX (checked_u32 (Z.of_nat left_out))) changed_area.
End TileGrid.

Definition compare_frames (before after : RgbPixels.t) : FrameComparison :=
  if negb (bool_decide (RgbPixels.dimensions before = RgbPixels.dimensions after))
  then DimensionsDiffer
  else Compared (TileGrid.regions (TileGrid.count before after) (RgbPixels.dimensions before)).
