(* ===== verification/ScreenFill.v ===== *)
(** * ScreenFill: the flood fill finds the connected components

    The loops of [TileGrid::regions] and [TileGrid::component] in
    [crates/vsift-domain/src/screen_change.rs], against the mathematical
    components: two changed tiles are joined when a chain of changed tiles,
    each at most the join distance from the next, leads from one to the
    other. *)

From stdpp Require Import relations.
From S2P Require Import Prelude.
From S2P Require Import Timeline.
From S2P Require Import ScreenRegions.

(** ** Specification *)

(** A grid as [TileGrid::count] makes it. *)
Definition grid_wf (g : TileGrid.t) : Prop :=
  is_u32 (TileGrid.columns g) /\ is_u32 (TileGrid.rows g)
  /\ length (TileGrid.counts g) = tile_count (TileGrid.columns g) (TileGrid.rows g).

Definition in_grid (g : TileGrid.t) (t : tile) : Prop :=
  0 <= t.1 < TileGrid.columns g /\ 0 <= t.2 < TileGrid.rows g.

Definition changed_tile (g : TileGrid.t) (t : tile) : Prop :=
  in_grid g t /\ TileGrid.changed g t.1 t.2 = true.

(** At most the join distance apart, in both directions. *)
Definition near (a b : tile) : Prop :=
  Z.abs (a.1 - b.1) <= SCREEN_CHANGE_JOIN_DISTANCE
  /\ Z.abs (a.2 - b.2) <= SCREEN_CHANGE_JOIN_DISTANCE.

Definition joins (g : TileGrid.t) (a b : tile) : Prop :=
  changed_tile g a /\ changed_tile g b /\ near a b.

(** Joined by a chain of changed tiles. *)
Definition joined (g : TileGrid.t) : tile -> tile -> Prop := rtc (joins g).

(** A component: the changed tiles joined to any one of its tiles. *)
Definition is_component (g : TileGrid.t) (group : list tile) : Prop :=
  group <> [] /\ Forall (changed_tile g) group
  /\ forall t, t ∈ group -> forall t', t' ∈ group <-> joined g t t'.

(** The box of a group of tiles, in the order they are met. *)
Definition single_of (g : TileGrid.t) (t : tile) : TileBox.t :=
  TileBox.single t.1 t.2 (TileGrid.changed_pixels g t.1 t.2).

Definition add_tile (g : TileGrid.t) (box : TileBox.t) (t : tile) : TileBox.t :=
  TileBox.union box (single_of g t).

Definition box_of (g : TileGrid.t) (group : list tile) : option TileBox.t :=
  match group with
  | [] => None
  | t :: rest => Some (fold_left (add_tile g) rest (single_of g t))
  end.

(** ** Joining is symmetric *)

#[export] Instance joins_symmetric g : Symmetric (joins g).
Proof. intros a b (Ha & Hb & Hn). unfold near in Hn. split; [done|]. split; [done|]. unfold near. lia. Qed.

#[export] Instance joined_symmetric g : Symmetric (joined g).
Proof.
  intros a b H. induction H as [a|a b c Hab _ IH]; [by constructor|].
  eapply rtc_r; [done|]. by symmetry.
Qed.

(** ** Tiles and marks *)

Section Fill.
Variable g : TileGrid.t.
Hypothesis Hwf : grid_wf g.

Definition idx (t : tile) : nat := tile_index (TileGrid.columns g) t.1 t.2.

Lemma idx_value t :
  in_grid g t -> Z.of_nat (idx t) = t.2 * TileGrid.columns g + t.1.
Proof.
  destruct Hwf as (Hc & Hr & _). intros [Hx Hy]. unfold idx, tile_index.
  rewrite (wrap_u64_id (t.2 * _)) by unia. rewrite wrap_u64_id by unia. unia.
Qed.

Lemma tiles_value : Z.of_nat (length (TileGrid.counts g)) = TileGrid.columns g * TileGrid.rows g.
Proof.
  destruct Hwf as (Hc & Hr & ->). unfold tile_count. rewrite wrap_u64_id by unia. unia.
Qed.

Lemma idx_lt t : in_grid g t -> (idx t < length (TileGrid.counts g))%nat.
Proof.
  intros Ht. pose proof (idx_value t Ht). pose proof tiles_value. destruct Ht. nia.
Qed.

Lemma idx_inj t t' : in_grid g t -> in_grid g t' -> idx t = idx t' -> t = t'.
Proof.
  intros Ht Ht' E. pose proof (idx_value t Ht) as H. rewrite E, (idx_value t' Ht') in H.
  destruct t as [x y], t' as [x' y'], Ht as [Hx Hy], Ht' as [Hx' Hy']. cbn in *.
  assert (y = y') as -> by nia. f_equal. lia.
Qed.

Lemma idx_surj i :
  (i < length (TileGrid.counts g))%nat -> exists t, in_grid g t /\ idx t = i.
Proof.
  intros Hi. pose proof tiles_value as Hn. destruct Hwf as (Hc & Hr & _).
  set (n := TileGrid.columns g) in *. assert (Hpos : 0 < n) by (unfold is_u32 in *; nia).
  pose (t := (Z.of_nat i mod n, Z.of_nat i / n)).
  pose proof (Z.div_mod (Z.of_nat i) n ltac:(lia)) as Hdm.
  pose proof (Z.mod_pos_bound (Z.of_nat i) n Hpos) as Hm.
  assert (Ht : in_grid g t).
  { split; [done|]. unfold t. cbn [snd]. split; [apply Z.div_pos; lia|].
    apply Z.div_lt_upper_bound; [done|]. fold n. lia. }
  exists t. split; [done|]. apply Nat2Z.inj. rewrite idx_value by done. unfold t. cbn [fst snd].
  fold n. lia.
Qed.

(** At most as many distinct tiles as the grid has. *)
Lemma tiles_bound group :
  NoDup group -> Forall (in_grid g) group -> (length group <= length (TileGrid.counts g))%nat.
Proof.
  intros Hn Hg. rewrite Forall_forall in Hg. rewrite <- (length_fmap idx group).
  rewrite <- (length_seq (length (TileGrid.counts g)) 0). apply submseteq_length, NoDup_submseteq.
  - apply NoDup_fmap_2_strong; [|done]. intros a b Ha Hb. by apply idx_inj; apply Hg.
  - intros i (t & -> & Ht)%list_elem_of_fmap. apply elem_of_seq. pose proof (idx_lt t (Hg t Ht)). lia.
Qed.

Definition marked (seen : list bool) (t : tile) : Prop := seen !! idx t = Some true.

Definition mark (seen : list bool) (t : tile) : list bool := <[idx t := true]> seen.

Definition full (seen : list bool) : Prop := length seen = length (TileGrid.counts g).

Lemma mark_full seen t : full seen -> full (mark seen t).
Proof. unfold full, mark. by rewrite length_insert. Qed.

Lemma marked_mark seen t t' :
  full seen -> in_grid g t -> in_grid g t' -> marked (mark seen t) t' <-> t' = t \/ marked seen t'.
Proof.
  intros Hf Ht Ht'. unfold marked, mark. destruct (decide (t' = t)) as [->|Hne].
  - rewrite list_lookup_insert_eq; [naive_solver|]. rewrite Hf. by apply idx_lt.
  - rewrite list_lookup_insert_ne; [naive_solver|]. intros E. apply Hne. symmetry. by apply idx_inj.
Qed.

Lemma mark_all_spec tiles seen :
  full seen -> Forall (in_grid g) tiles ->
  full (fold_left mark tiles seen)
  /\ forall t, in_grid g t -> marked (fold_left mark tiles seen) t <-> t ∈ tiles \/ marked seen t.
Proof.
  revert seen. induction tiles as [|t tiles IH]; intros seen Hf Hg; cbn.
  { split; [done|]. intros t _. rewrite elem_of_nil. naive_solver. }
  apply Forall_cons in Hg as [Ht Hg]. destruct (IH (mark seen t)) as [HA HB]; [by apply mark_full|done|].
  split; [done|]. intros t' Ht'. rewrite HB, marked_mark, elem_of_cons by done. naive_solver.
Qed.

(** The test of the code: is a tile without a mark changed? *)
Lemma skip_test seen t :
  full seen -> in_grid g t ->
  negb (TileGrid.changed g t.1 t.2) || default true (seen !! idx t) = false
  <-> changed_tile g t /\ ~ marked seen t.
Proof.
  intros Hf Ht. unfold changed_tile, marked.
  destruct (lookup_lt_is_Some_2 seen (idx t)) as [b Hb]; [rewrite Hf; by apply idx_lt|].
  rewrite Hb. cbn. destruct (TileGrid.changed g t.1 t.2), b; cbn; naive_solver.
Qed.

Lemma inclusive_elem lo hi x : x ∈ TileGrid.inclusive lo hi <-> lo <= x <= hi.
Proof. unfold TileGrid.inclusive. rewrite elem_of_seqZ. lia. Qed.

(** One direction of the reach of a tile, clipped to the grid. *)
Lemma reach_elem n x x' :
  is_u32 n -> 0 <= x < n ->
  x' ∈ TileGrid.inclusive (saturating_u32 (x - SCREEN_CHANGE_JOIN_DISTANCE))
         (Z.min (saturating_u32 (x + SCREEN_CHANGE_JOIN_DISTANCE)) (saturating_u32 (n - 1)))
  <-> 0 <= x' < n /\ Z.abs (x - x') <= SCREEN_CHANGE_JOIN_DISTANCE.
Proof.
  intros Hn Hx. rewrite inclusive_elem. unfold SCREEN_CHANGE_JOIN_DISTANCE. ulia.
Qed.

Lemma near_tiles_spec x y t :
  in_grid g (x, y) -> t ∈ TileGrid.near_tiles g x y <-> in_grid g t /\ near (x, y) t.
Proof.
  destruct Hwf as (Hc & Hr & _). intros [Hx Hy]. cbn [fst snd] in Hx, Hy. unfold TileGrid.near_tiles.
  rewrite list_elem_of_bind. setoid_rewrite list_elem_of_bind.
  setoid_rewrite (reach_elem _ _ _ Hc Hx). setoid_rewrite (reach_elem _ _ _ Hr Hy).
  unfold near, in_grid. destruct t as [c r]. cbn [fst snd]. split.
  - intros (r' & (c' & [= -> ->]%list_elem_of_singleton & Hc') & Hr'). tauto.
  - intros (Hin & Hn). exists r. split; [|tauto]. exists c. split; [by apply list_elem_of_singleton|tauto].
Qed.

(** ** The inner loops *)

(** Visiting a list of tiles pushes, marks and adds to the box the changed
    tiles among them that had no mark. *)
Lemma visit_all l st :
  full (TileGrid.seen st) -> Forall (in_grid g) l ->
  exists new,
    fold_left (TileGrid.visit g) l st
    = TileGrid.mk_fill (fold_left (add_tile g) new (TileGrid.tiles st))
        (reverse new ++ TileGrid.pending st) (fold_left mark new (TileGrid.seen st))
    /\ NoDup new
    /\ Forall (fun t => t ∈ l /\ changed_tile g t /\ ~ marked (TileGrid.seen st) t) new
    /\ forall t, t ∈ l -> changed_tile g t -> t ∈ new \/ marked (TileGrid.seen st) t.
Proof.
  revert st. induction l as [|t l IH]; intros st Hf Hl.
  { exists []. cbn. destruct st; cbn. repeat split; [constructor|constructor|].
    intros t Ht. by apply not_elem_of_nil in Ht. }
  apply Forall_cons in Hl as [Ht Hl]. cbn [fold_left]. unfold TileGrid.visit at 2. fold (idx t).
  destruct (negb (TileGrid.changed g t.1 t.2) || default true (TileGrid.seen st !! idx t)) eqn:E.
  - destruct (IH st Hf Hl) as (new & -> & Hn & Hnew & Hall). exists new. split; [done|].
    split; [done|]. split.
    + eapply Forall_impl; [done|]. cbn. intros t' (? & ? & ?). split; [by right|done].
    + intros t' [->|Hin]%elem_of_cons Hch; [|by apply Hall]. right.
      destruct (decide (TileGrid.seen st !! idx t = Some true)) as [|Hm]; [done|].
      by rewrite (proj2 (skip_test _ t Hf Ht) (conj Hch Hm)) in E.
  - apply skip_test in E as [Hch Hm]; [|done|done].
    set (st' := TileGrid.mk_fill _ _ _).
    assert (Hf' : full (TileGrid.seen st')) by (by apply mark_full).
    destruct (IH st' Hf' Hl) as (new & -> & Hn & Hnew & Hall). exists (t :: new).
    assert (Hback : forall t', t' ∈ new -> t' ∈ l /\ changed_tile g t' /\ t' <> t
                                          /\ ~ marked (TileGrid.seen st) t').
    { rewrite Forall_forall in Hnew. intros t' Hin. destruct (Hnew t' Hin) as (? & Hc' & Hm').
      split; [done|]. split; [done|]. cbn in Hm'. fold (mark (TileGrid.seen st) t) in Hm'.
      rewrite marked_mark in Hm'; [naive_solver|done|done|apply Hc']. }
    split; [|split; [|split]].
    + cbn [fold_left]. rewrite reverse_cons, <- app_assoc. done.
    + constructor; [|done]. intros Hin. by destruct (Hback t Hin) as (_ & _ & ? & _).
    + constructor; [split; [by left|done]|]. apply Forall_forall. intros t' Hin.
      destruct (Hback t' Hin) as (? & ? & _ & ?). split; [by right|done].
    + intros t' [->|Hin]%elem_of_cons Hc'; [left; by left|].
      destruct (Hall t' Hin Hc') as [|Hm']; [left; by right|]. cbn in Hm'.
      fold (mark (TileGrid.seen st) t) in Hm'.
      apply marked_mark in Hm' as [->|]; [left; by left|by right|done|done|apply Hc'].
Qed.

(** ** One component *)

Lemma box_of_app group new box :
  box_of g group = Some box -> box_of g (group ++ new) = Some (fold_left (add_tile g) new box).
Proof. destruct group as [|t group]; [done|]. cbn. intros [= <-]. by rewrite fold_left_app. Qed.

(** Marks hold whole components. *)
Definition closed (seen : list bool) : Prop :=
  forall t t', marked seen t -> joins g t t' -> marked seen t'.

(** What the loop over the stack keeps, from the tile [s] on: [group] are the
    tiles met so far, each joined to [s], and a tile of them whose near tiles
    are not all marked is on the stack. *)
Record fill_inv (s : tile) (seen0 : list bool) (group : list tile) (st : TileGrid.fill) : Prop := {
  fi_nodup : NoDup group;
  fi_start : s ∈ group;
  fi_joined : Forall (fun t => joined g s t /\ changed_tile g t /\ ~ marked seen0 t) group;
  fi_pending : Forall (fun t => t ∈ group) (TileGrid.pending st);
  fi_full : full (TileGrid.seen st);
  fi_marks : forall t, in_grid g t -> marked (TileGrid.seen st) t <-> t ∈ group \/ marked seen0 t;
  fi_done : forall t t', t ∈ group -> t ∉ TileGrid.pending st -> joins g t t' ->
                         marked (TileGrid.seen st) t';
  fi_box : box_of g group = Some (TileGrid.tiles st)
}.

Lemma group_changed s seen0 group st :
  fill_inv s seen0 group st -> Forall (changed_tile g) group.
Proof. intros H. eapply Forall_impl; [apply (fi_joined _ _ _ _ H)|]. naive_solver. Qed.

(** One iteration: the tile on top of the stack and its near tiles. *)
Lemma fill_step s seen0 group st t rest :
  fill_inv s seen0 group st -> TileGrid.pending st = t :: rest ->
  exists new, fill_inv s seen0 (group ++ new)
    (fold_left (TileGrid.visit g) (TileGrid.near_tiles g t.1 t.2)
       (TileGrid.mk_fill (TileGrid.tiles st) rest (TileGrid.seen st)))
  /\ length (TileGrid.pending (fold_left (TileGrid.visit g) (TileGrid.near_tiles g t.1 t.2)
       (TileGrid.mk_fill (TileGrid.tiles st) rest (TileGrid.seen st))))
     = (length new + length rest)%nat.
Proof.
  intros Hinv Hp. pose proof (group_changed _ _ _ _ Hinv) as Hch. rewrite Forall_forall in Hch.
  destruct Hinv as [Hn Hs Hj Hpend Hf Hm Hd Hb]. rewrite Hp in Hpend.
  apply Forall_cons in Hpend as [Ht Hrest]. pose proof (Hch t Ht) as Htc.
  assert (Hnear : forall t', t' ∈ TileGrid.near_tiles g t.1 t.2 <-> in_grid g t' /\ near t t').
  { intros t'. rewrite near_tiles_spec; destruct t; [done|apply Htc]. }
  destruct (visit_all (TileGrid.near_tiles g t.1 t.2)
              (TileGrid.mk_fill (TileGrid.tiles st) rest (TileGrid.seen st)))
    as (new & -> & Hnn & Hnew & Hall);
    [done|apply Forall_forall; intros t' Ht'; by apply Hnear in Ht' as [? ?]|].
  cbn in Hnew, Hall. rewrite Forall_forall in Hnew. exists new. cbn. split;
    [|by rewrite length_app, length_reverse].
  assert (Hnewg : Forall (in_grid g) new) by (apply Forall_forall; intros t' Ht'; by apply Hnew).
  destruct (mark_all_spec new (TileGrid.seen st) Hf Hnewg) as [Hf' Hm'].
  constructor; cbn.
  - apply NoDup_app. split; [done|]. split; [|done]. intros t' Hg Hin.
    destruct (Hnew t' Hin) as (_ & Hc' & Hno). apply Hno, Hm; [apply Hc'|by left].
  - apply elem_of_app. by left.
  - apply Forall_app. split; [done|]. apply Forall_forall. intros t' Hin.
    destruct (Hnew t' Hin) as (Hnt & Hc' & Hno). split; [|split; [done|]].
    + rewrite Forall_forall in Hj. destruct (Hj t Ht) as [Hst _]. eapply rtc_r; [done|].
      split; [done|]. split; [done|]. by apply Hnear.
    + intros Hm0. apply Hno, Hm; [apply Hc'|by right].
  - apply Forall_app. split; apply Forall_forall; intros t' Hin; apply elem_of_app.
    + right. by apply elem_of_reverse.
    + left. rewrite Forall_forall in Hrest. by apply Hrest.
  - done.
  - intros t' Ht'. rewrite Hm', Hm, elem_of_app by done. tauto.
  - intros a b Ha Hnp Hab. pose proof Hab as (_ & Hbc & Hnab).
    apply Hm'; [apply Hbc|]. rewrite elem_of_app in Hnp.
    apply elem_of_app in Ha as [Ha|Ha]; [|exfalso; apply Hnp; left; by apply elem_of_reverse].
    destruct (decide (a = t)) as [->|Hne].
    + apply Hall; [|done]. apply Hnear. split; [apply Hbc|done].
    + right. apply (Hd a b Ha); [|done]. rewrite Hp, elem_of_cons. tauto.
  - by apply box_of_app.
Qed.

(** The loop ends with an empty stack: the number of tiles is fuel enough. *)
Lemma fill_loop_spec fuel s seen0 group st :
  fill_inv s seen0 group st ->
  (length (TileGrid.counts g) + length (TileGrid.pending st) <= fuel + length group)%nat ->
  exists group', fill_inv s seen0 group' (TileGrid.fill_loop fuel g st)
    /\ TileGrid.pending (TileGrid.fill_loop fuel g st) = [].
Proof.
  revert group st. induction fuel as [|fuel IH]; intros group st Hinv Hfuel.
  - exists group. split; [done|]. pose proof (group_changed _ _ _ _ Hinv) as Hch.
    assert (length group <= length (TileGrid.counts g))%nat.
    { apply tiles_bound; [apply (fi_nodup _ _ _ _ Hinv)|]. eapply Forall_impl; [done|]. by intros ? []. }
    apply nil_length_inv. cbn. lia.
  - cbn [TileGrid.fill_loop]. destruct (TileGrid.pending st) as [|[x y] rest] eqn:E;
      [by exists group|]. destruct (fill_step s seen0 group st (x, y) rest Hinv E) as (new & Hi & Hl).
    eapply IH; [exact Hi|]. cbn [fst snd] in Hl. rewrite Hl, length_app. cbn in Hfuel. lia.
Qed.

(** From a changed tile without a mark, the fill finds its component. *)
Lemma component_spec s seen0 :
  full seen0 -> closed seen0 -> changed_tile g s -> ~ marked seen0 s ->
  exists group box seen',
    TileGrid.component g s.1 s.2 seen0 = (box, seen')
    /\ s ∈ group /\ NoDup group /\ is_component g group /\ box_of g group = Some box
    /\ Forall (fun t => ~ marked seen0 t) group
    /\ full seen'
    /\ forall t, in_grid g t -> marked seen' t <-> t ∈ group \/ marked seen0 t.
Proof.
  intros Hf Hc Hs Hno. unfold TileGrid.component. set (st0 := TileGrid.mk_fill _ _ _).
  assert (H0 : fill_inv s seen0 [s] st0).
  { assert (st0 = TileGrid.mk_fill (single_of g s) [s] (mark seen0 s)) as -> by (by destruct s).
    constructor; cbn.
    - by apply NoDup_singleton.
    - by left.
    - apply Forall_singleton. split; [constructor|done].
    - apply Forall_singleton. by left.
    - by apply mark_full.
    - intros t Ht. rewrite marked_mark by (done || apply Hs).
      by rewrite list_elem_of_singleton.
    - intros t t' Ht Hnp. by destruct (Hnp Ht).
    - done. }
  destruct (fill_loop_spec (length (TileGrid.counts g)) s seen0 [s] st0 H0) as (group & Hi & Hp);
    [cbn; lia|]. set (st := TileGrid.fill_loop _ _ _) in *.
  exists group, (TileGrid.tiles st), (TileGrid.seen st). destruct Hi as [Hn Hst Hj _ Hf' Hm Hd Hb].
  split; [done|]. split; [done|]. split; [done|]. split; [|split; [done|]].
  - pose proof Hj as Hj'. rewrite Forall_forall in Hj'. split; [by intros ->; apply not_elem_of_nil in Hst|].
    split; [eapply Forall_impl; [done|]; naive_solver|].
    assert (Hclosed : forall t t', t ∈ group -> joins g t t' -> t' ∈ group).
    { intros t t' Ht Hjt. pose proof Hjt as (_ & Hc' & _).
      assert (Hmt : marked (TileGrid.seen st) t').
      { apply (Hd t t' Ht); [|done]. rewrite Hp. apply not_elem_of_nil. }
      apply Hm in Hmt as [|Hm0]; [done| |apply Hc']. exfalso.
      destruct (Hj' t Ht) as (_ & _ & Hnt). apply Hnt. eapply Hc; [done|]. by symmetry. }
    intros t Ht t'. split.
    + intros Ht'. transitivity s; [symmetry|]; by apply Hj'.
    + intros Hr. induction Hr as [|a b c Hab _ IH]; [done|]. apply IH. by eapply Hclosed.
  - split; [eapply Forall_impl; [done|]; naive_solver|]. by split.
Qed.

(** ** All components *)

Lemma all_tiles_spec t : t ∈ TileGrid.all_tiles g <-> in_grid g t.
Proof.
  unfold TileGrid.all_tiles, in_grid. rewrite list_elem_of_bind. setoid_rewrite list_elem_of_bind.
  setoid_rewrite elem_of_seqZ. destruct t as [x y]. cbn. split.
  - intros (r & (c & [= -> ->]%list_elem_of_singleton & Hc) & Hr). lia.
  - intros [Hc Hr]. exists y. split; [|lia]. exists x. split; [by apply list_elem_of_singleton|lia].
Qed.

(** What the loops over rows and columns keep. *)
Record scan_inv (groups : list (list tile)) (st : list TileBox.t * list bool) : Prop := {
  si_boxes : Some <$> st.1 = box_of g <$> groups;
  si_components : Forall (is_component g) groups;
  si_nodup : NoDup (concat groups);
  si_full : full st.2;
  si_marks : forall t, in_grid g t -> marked st.2 t <-> t ∈ concat groups
}.

Lemma in_components (groups : list (list tile)) t :
  t ∈ concat groups <-> exists group, group ∈ groups /\ t ∈ group.
Proof.
  rewrite list_elem_of_In, in_concat. by setoid_rewrite <- list_elem_of_In.
Qed.

Lemma scan_closed groups st : scan_inv groups st -> closed st.2.
Proof.
  intros [_ Hcomp _ _ Hm] t t' Ht Hj. pose proof Hj as (Hc & Hc' & _).
  apply Hm in Ht as (group & Hgr & Hin)%in_components; [|apply Hc].
  rewrite Forall_forall in Hcomp. destruct (Hcomp group Hgr) as (_ & _ & Hcl).
  apply Hm, in_components; [apply Hc'|]. exists group. split; [done|].
  apply (Hcl t Hin). by apply rtc_once.
Qed.

Lemma scan_step groups st t :
  scan_inv groups st -> in_grid g t ->
  exists groups', scan_inv groups' (TileGrid.scan_tile g st t)
    /\ (forall t', t' ∈ concat groups -> t' ∈ concat groups')
    /\ (changed_tile g t -> t ∈ concat groups').
Proof.
  intros Hinv Ht. pose proof (scan_closed _ _ Hinv) as Hcl. destruct st as [found seen].
  pose proof Hinv as [Hb Hcomp Hn Hf Hm]. cbn in Hb, Hf, Hm, Hcl. unfold TileGrid.scan_tile.
  cbn zeta. fold (idx t).
  destruct (negb (TileGrid.changed g t.1 t.2) || default true (seen !! idx t)) eqn:E.
  - exists groups. split; [done|]. split; [done|]. intros Hc. apply Hm; [done|].
    destruct (decide (seen !! idx t = Some true)) as [|Hno]; [done|].
    by rewrite (proj2 (skip_test _ t Hf Ht) (conj Hc Hno)) in E.
  - apply skip_test in E as [Hc Hno]; [|done|done].
    destruct (component_spec t seen Hf Hcl Hc Hno)
      as (group & box & seen' & -> & Hin & Hng & Hg & Hbox & Hnew & Hf' & Hm').
    exists (groups ++ [group]). rewrite concat_app. cbn [concat]. rewrite app_nil_r.
    split; [|split; [intros t' ?; apply elem_of_app; by left|]].
    + constructor; cbn [fst snd].
      * rewrite !fmap_app. f_equal; [done|]. cbn. by rewrite Hbox.
      * apply Forall_app. split; [done|]. by apply Forall_singleton.
      * rewrite concat_app. cbn [concat]. rewrite app_nil_r. apply NoDup_app. split; [done|].
        split; [|done]. intros t' Hold Hin'. rewrite Forall_forall in Hnew. apply (Hnew t' Hin').
        apply Hm; [|done]. destruct Hg as (_ & Hall & _). rewrite Forall_forall in Hall. by apply Hall.
      * done.
      * intros t' Ht'. rewrite Hm', Hm, concat_app by done. cbn [concat].
        rewrite app_nil_r, elem_of_app. tauto.
    + intros _. apply elem_of_app. by right.
Qed.

Lemma scan_all l groups st :
  scan_inv groups st -> Forall (in_grid g) l ->
  exists groups', scan_inv groups' (fold_left (TileGrid.scan_tile g) l st)
    /\ (forall t, t ∈ concat groups -> t ∈ concat groups')
    /\ forall t, t ∈ l -> changed_tile g t -> t ∈ concat groups'.
Proof.
  revert groups st. induction l as [|t l IH]; intros groups st Hinv Hl.
  { exists groups. cbn. split; [done|]. split; [done|]. intros t Ht. by apply not_elem_of_nil in Ht. }
  apply Forall_cons in Hl as [Ht Hl]. destruct (scan_step groups st t Hinv Ht) as (groups1 & H1 & Hk1 & Hc1).
  destruct (IH groups1 _ H1 Hl) as (groups2 & H2 & Hk2 & Hc2). exists groups2. cbn [fold_left].
  split; [done|]. split; [by auto|]. intros t' [->|Hin]%elem_of_cons Hch; by auto.
Qed.

(** The boxes found are the boxes of the components, each changed tile in
    exactly one of them. *)
Lemma found_boxes_spec :
  exists groups,
    Some <$> TileGrid.found_boxes g = box_of g <$> groups
    /\ Forall (is_component g) groups /\ NoDup (concat groups)
    /\ forall t, t ∈ concat groups <-> changed_tile g t.
Proof.
  assert (Hno : forall t, ~ marked (replicate (length (TileGrid.counts g)) false) t).
  { intros t H. unfold marked in H. by apply lookup_replicate in H as [? _]. }
  destruct (scan_all (TileGrid.all_tiles g) [] ([], replicate (length (TileGrid.counts g)) false))
    as (groups & [Hb Hc Hn _ _] & _ & Hall).
  - constructor; cbn; [done|constructor|constructor|unfold full; by rewrite length_replicate|].
    intros t _. split; [by intros ?%Hno|]. by intros ?%not_elem_of_nil.
  - apply Forall_forall. intros t. by rewrite all_tiles_spec.
  - exists groups. split; [done|]. split; [done|]. split; [done|]. intros t. split.
    + intros (group & Hg & Ht)%in_components. rewrite Forall_forall in Hc.
      destruct (Hc group Hg) as (_ & Hch & _). rewrite Forall_forall in Hch. by apply Hch.
    + intros Hch. apply Hall; [|done]. apply all_tiles_spec, Hch.
Qed.

End Fill.
