(* ===== verification/ScreenCount.v ===== *)
(** * ScreenCount: the counts of changed pixels are exact

    [TileGrid::count] of [crates/vsift-domain/src/screen_change.rs] walks the
    bytes of two frames chunk by chunk. Its counts are those of the pixels,
    by position, and no count saturates. *)

From S2P Require Import Prelude.
From S2P Require Import Timeline.
From S2P Require Import ScreenRegions.
From S2P Require Import ScreenFill.

(** ** Specification *)

(** Pixels as [RgbPixels::new] accepts them. *)
Definition pixels_wf (p : RgbPixels.t) : Prop :=
  FrameDimensions.wf (RgbPixels.dimensions p)
  /\ RgbPixels.new (RgbPixels.dimensions p) (RgbPixels.bytes p) = Ok p.

Definition frame_width (p : RgbPixels.t) : nat :=
  Z.to_nat (FrameDimensions.width (RgbPixels.dimensions p)).
Definition frame_height (p : RgbPixels.t) : nat :=
  Z.to_nat (FrameDimensions.height (RgbPixels.dimensions p)).

(** The three bytes of the pixel in column [at_.1] and row [at_.2]. *)
Definition pixel (p : RgbPixels.t) (at_ : nat * nat) : list Z :=
  take 3 (drop (3 * (at_.2 * frame_width p + at_.1)) (RgbPixels.bytes p)).

Definition changed_at (before after : RgbPixels.t) (at_ : nat * nat) : bool :=
  pixel_changed (pixel before at_) (pixel after at_).

(** All pixels of a frame, row by row. *)
Definition positions (width height : nat) : list (nat * nat) :=
  y ← seq 0 height; x ← seq 0 width; [(x, y)].

(** The tile of a pixel. *)
Definition tile_of (at_ : nat * nat) : tile :=
  (Z.of_nat at_.1 / SCREEN_CHANGE_TILE, Z.of_nat at_.2 / SCREEN_CHANGE_TILE).

(** The changed pixels that lie in a tile. *)
Definition changed_in (before after : RgbPixels.t) (t : tile) : list (nat * nat) :=
  filter (fun at_ => changed_at before after at_ = true /\ tile_of at_ = t)
    (positions (frame_width before) (frame_height before)).

(** ** Chunks by position *)

Lemma chunks_from_spec {A} fuel n m (l : list A) :
  (0 < n)%nat -> length l = (n * m)%nat -> (m <= fuel)%nat ->
  chunks_from fuel n l = (fun i => take n (drop (n * i) l)) <$> seq 0 m.
Proof.
  intros Hn. revert m l. induction fuel as [|fuel IH]; intros m l Hl Hf.
  { by assert (m = 0%nat) as -> by lia. }
  cbn [chunks_from]. destruct m as [|m].
  { rewrite Hl, Nat.mul_0_r. by rewrite (proj2 (Nat.ltb_lt 0 n) Hn). }
  rewrite (proj2 (Nat.ltb_ge (length l) n)) by nia. rewrite (IH m) by (rewrite ?length_drop; nia).
  cbn [seq fmap list_fmap]. rewrite Nat.mul_0_r, drop_0. f_equal.
  rewrite <- fmap_S_seq, <- list_fmap_compose. apply list_fmap_ext. intros _ i _. cbn.
  rewrite drop_drop. do 2 f_equal. lia.
Qed.

Lemma chunks_exact_spec {A} n m (l : list A) :
  (0 < n)%nat -> length l = (n * m)%nat ->
  chunks_exact n l = (fun i => take n (drop (n * i) l)) <$> seq 0 m.
Proof. intros Hn Hl. apply chunks_from_spec; [done|done|]. rewrite Hl. nia. Qed.

Lemma enumerate_zip_fmap {A B} (f : nat -> A) (h : nat -> B) m :
  enumerate (zip (f <$> seq 0 m) (h <$> seq 0 m)) = (fun i => (i, (f i, h i))) <$> seq 0 m.
Proof.
  apply list_eq. intros i. apply option_eq. intros [k [a b]]. rewrite enumerate_lookup.
  rewrite lookup_zip_with_Some. rewrite list_lookup_fmap_Some. setoid_rewrite list_lookup_fmap_Some.
  setoid_rewrite lookup_seq. split.
  - intros (-> & a' & b' & [= <- <-] & (? & -> & -> & ?) & (? & -> & -> & ?)). by exists i.
  - intros (j & [= -> -> ->] & -> & Hi). cbn. split; [done|]. exists (f i), (h i).
    split; [done|]. split; [by exists i|by exists i].
Qed.

(** ** Counting *)

Lemma pixels_length p :
  pixels_wf p -> Z.of_nat (length (RgbPixels.bytes p))
                 = 3 * (FrameDimensions.width (RgbPixels.dimensions p)
                        * FrameDimensions.height (RgbPixels.dimensions p))
  /\ 3 * (FrameDimensions.width (RgbPixels.dimensions p)
          * FrameDimensions.height (RgbPixels.dimensions p)) <= U64_MAX.
Proof.
  intros [_ H]. unfold RgbPixels.new in H. destruct (checked_u64 _) as [n|] eqn:E1; [|done].
  cbn [mbind option_bind] in H. destruct (checked_u64 (n * 3)) as [m|] eqn:E2; [|done].
  cbn [ok_or result_bind] in H. destruct (negb _) eqn:E3; [done|]. bool_prop.
  apply checked_Some in E1 as [-> _], E2 as [-> ?]. lia.
Qed.

Lemma pixels_length_nat p :
  pixels_wf p -> length (RgbPixels.bytes p) = (3 * frame_width p * frame_height p)%nat.
Proof.
  intros H. destruct (pixels_length p H) as [Hl _]. destruct H as [(_ & _ & Hw & Hh) _].
  unfold frame_width, frame_height. nia.
Qed.

(** One line of both frames, pixel by pixel. *)
Lemma count_line_spec columns tile_row (w : nat) a b counts :
  length a = (3 * w)%nat -> length b = (3 * w)%nat ->
  TileGrid.count_line columns tile_row a b counts
  = fold_left (fun counts x =>
      if pixel_changed (take 3 (drop (3 * x) a)) (take 3 (drop (3 * x) b))
      then TileGrid.bump counts (tile_index columns (Z.of_nat x / SCREEN_CHANGE_TILE) tile_row)
      else counts) (seq 0 w) counts.
Proof.
  intros Ha Hb. unfold TileGrid.count_line.
  rewrite (chunks_exact_spec 3 w a), (chunks_exact_spec 3 w b) by lia.
  by rewrite enumerate_zip_fmap, fold_left_fmap.
Qed.

(** A pixel of a line of the frame. *)
Lemma take_drop_line (w x y : nat) (l : list Z) :
  (x < w)%nat -> take 3 (drop (3 * x) (take (3 * w) (drop (3 * w * y) l)))
                 = take 3 (drop (3 * (y * w + x)) l).
Proof.
  intros Hx. rewrite skipn_firstn_comm, take_take, drop_drop. f_equal; [lia|f_equal; lia].
Qed.

(** The loops count every changed pixel of the frame, in the tile it is in. *)
Lemma count_positions before after :
  pixels_wf before -> pixels_wf after ->
  RgbPixels.dimensions before = RgbPixels.dimensions after ->
  let g := TileGrid.count before after in
  TileGrid.counts g
  = fold_left (fun counts at_ =>
      if changed_at before after at_
      then TileGrid.bump counts (tile_index (TileGrid.columns g) (tile_of at_).1 (tile_of at_).2)
      else counts) (positions (frame_width before) (frame_height before))
      (replicate (tile_count (TileGrid.columns g) (TileGrid.rows g)) 0).
Proof.
  intros Hb Ha Hd g. unfold g, TileGrid.count. cbn [TileGrid.counts TileGrid.columns TileGrid.rows].
  set (w := frame_width before). set (h := frame_height before).
  assert (Hw : Z.to_nat (saturating_u64 (FrameDimensions.width (RgbPixels.dimensions before) * 3))
               = (3 * w)%nat).
  { destruct Hb as [(? & ? & ? & ?) _]. unfold w, frame_width. ulia. }
  assert (Hw0 : (0 < w)%nat) by (destruct Hb as [(? & ? & ? & ?) _]; unfold w, frame_width; lia).
  pose proof (pixels_length_nat before Hb) as Hlb. pose proof (pixels_length_nat after Ha) as Hla.
  assert (Ewa : frame_width after = w) by (unfold w, frame_width; by rewrite Hd).
  assert (Eha : frame_height after = h) by (unfold h, frame_height; by rewrite Hd).
  fold w h in Hlb. rewrite Ewa, Eha in Hla.
  rewrite Hw, (chunks_exact_spec (3 * w) h (RgbPixels.bytes before)) by lia.
  rewrite (chunks_exact_spec (3 * w) h (RgbPixels.bytes after)) by lia.
  rewrite enumerate_zip_fmap, fold_left_fmap. unfold positions. rewrite <- fold_left_bind.
  apply fold_left_ext. intros counts y [_ Hy]%elem_of_seq.
  rewrite (count_line_spec _ _ w) by (rewrite length_take, length_drop; nia).
  rewrite <- fold_left_bind. apply fold_left_ext. intros counts' x [_ Hx]%elem_of_seq. cbn [fold_left].
  rewrite !take_drop_line by lia. unfold changed_at, pixel. cbn [fst snd].
  by rewrite Ewa.
Qed.

(** Counting by an index, with the saturation of [u16]. *)
Lemma bumps_lookup {A} (p : A -> bool) (f : A -> nat) l counts i c :
  counts !! i = Some c -> 0 <= c <= U16_MAX ->
  fold_left (fun counts a => if p a then TileGrid.bump counts (f a) else counts) l counts !! i
  = Some (Z.min U16_MAX (c + Z.of_nat (length (filter (fun a => p a = true /\ f a = i) l)))).
Proof.
  revert counts c. induction l as [|a l IH]; intros counts c Hc Hb.
  { cbn. rewrite Hc. f_equal. lia. }
  cbn [fold_left]. rewrite filter_cons. destruct (p a) eqn:Ep.
  - unfold TileGrid.bump at 2. destruct (decide (f a = i)) as [<-|Hne].
    + rewrite decide_True by done. rewrite (IH _ (saturating_u16 (c + 1))).
      * f_equal. cbn [length]. ulia.
      * by rewrite list_lookup_alter_eq, Hc.
      * ulia.
    + rewrite decide_False by tauto. apply IH; [|done]. by rewrite list_lookup_alter_ne.
  - rewrite decide_False by (intros [? _]; done). by apply IH.
Qed.

Lemma count_wf before after : pixels_wf before -> grid_wf (TileGrid.count before after).
Proof.
  intros [(Hw & Hh & Hw0 & Hh0) _]. unfold grid_wf, TileGrid.count. cbn -[TileGrid.count_line].
  assert (Hdiv : forall n, is_u32 n -> is_u32 (div_ceil n SCREEN_CHANGE_TILE)).
  { intros n Hn. unfold SCREEN_CHANGE_TILE. split.
    - apply Z.lt_pred_le. destruct (Z.le_gt_cases (div_ceil n 16) (-1)) as [H|H]; [|lia].
      apply div_ceil_spec in H; [|lia]. ulia.
    - apply div_ceil_spec; ulia. }
  split; [by apply Hdiv|]. split; [by apply Hdiv|].
  match goal with |- length (fold_left _ _ ?r) = ?n =>
    assert (Hr : length r = n) by apply length_replicate; revert Hr; generalize r end.
  induction (enumerate _) as [|[y [a b]] l IH]; intros counts Hc; [done|]. cbn [fold_left].
  apply IH. unfold TileGrid.count_line. clear IH. revert counts Hc.
  induction (enumerate _) as [|[x [c d]] l' IH]; intros counts Hc; [done|]. cbn [fold_left].
  apply IH. destruct (pixel_changed c d); [|done]. unfold TileGrid.bump. by rewrite length_alter.
Qed.

Lemma positions_spec w h at_ : at_ ∈ positions w h <-> (at_.1 < w)%nat /\ (at_.2 < h)%nat.
Proof.
  unfold positions. rewrite list_elem_of_bind. setoid_rewrite list_elem_of_bind.
  setoid_rewrite elem_of_seq. destruct at_ as [x y]. cbn. split.
  - intros (y' & (x' & [= -> ->]%list_elem_of_singleton & Hx) & Hy). lia.
  - intros [Hx Hy]. exists y. split; [|lia]. exists x. split; [by apply list_elem_of_singleton|lia].
Qed.

Lemma positions_NoDup w h : NoDup (positions w h).
Proof.
  unfold positions. apply NoDup_bind.
  - intros y y' [a b] _ _. rewrite !list_elem_of_bind.
    intros (x & Hx & _) (x' & Hx' & _). rewrite list_elem_of_singleton in Hx, Hx'. congruence.
  - intros y _. apply NoDup_bind; [|intros; apply NoDup_singleton|apply NoDup_seq].
    intros x x' [a b] _ _. rewrite !list_elem_of_singleton. congruence.
  - apply NoDup_seq.
Qed.

(** A tile holds at most 256 pixels. *)
Lemma changed_in_bound before after t : (length (changed_in before after t) <= 256)%nat.
Proof.
  destruct t as [c r].
  pose (square := y ← seq (16 * Z.to_nat r) 16; x ← seq (16 * Z.to_nat c) 16; [(x, y)]).
  assert (Hs : length square = 256%nat) by reflexivity. rewrite <- Hs.
  apply submseteq_length, NoDup_submseteq; [by apply NoDup_filter, positions_NoDup|].
  intros [x y] [[_ [= Hx Hy]] _]%list_elem_of_filter. unfold square. apply list_elem_of_bind.
  unfold SCREEN_CHANGE_TILE in *. exists y. split; [|apply elem_of_seq; divlia].
  apply list_elem_of_bind. exists x. split; [by apply list_elem_of_singleton|apply elem_of_seq; divlia].
Qed.

(** Every pixel of a frame lies in a tile of its grid. *)
Lemma tile_of_in_grid before after at_ :
  pixels_wf before -> at_ ∈ positions (frame_width before) (frame_height before) ->
  in_grid (TileGrid.count before after) (tile_of at_).
Proof.
  intros [(Hw & Hh & Hw0 & Hh0) _] [Hx Hy]%positions_spec.
  unfold frame_width, frame_height in *. unfold in_grid, TileGrid.count, tile_of. cbn -[TileGrid.count_line].
  assert (Hdiv : forall n k, 0 < n -> (k < Z.to_nat n)%nat ->
            0 <= Z.of_nat k / SCREEN_CHANGE_TILE < div_ceil n SCREEN_CHANGE_TILE).
  { intros n k Hn Hk. unfold SCREEN_CHANGE_TILE. split; [divlia|]. apply Z.nle_gt. intros H.
    apply div_ceil_spec in H; divlia. }
  split; by apply Hdiv.
Qed.

(** The count of a tile of the grid. *)
Lemma count_lookup before after t :
  pixels_wf before -> pixels_wf after ->
  RgbPixels.dimensions before = RgbPixels.dimensions after ->
  in_grid (TileGrid.count before after) t ->
  TileGrid.counts (TileGrid.count before after) !! idx (TileGrid.count before after) t
  = Some (Z.of_nat (length (changed_in before after t))).
Proof.
  intros Hb Ha Hd. pose proof (count_wf before after Hb) as Hwf.
  pose proof (count_positions before after Hb Ha Hd) as Hp. cbn zeta in Hp.
  set (g := TileGrid.count before after) in *. intros Ht. rewrite Hp.
  rewrite (bumps_lookup _ (fun at_ => idx g (tile_of at_)) _ _ (idx g t) 0).
  - f_equal. pose proof (changed_in_bound before after t) as Hbound.
    unfold changed_in in *. rewrite (filter_ext_in _ (fun at_ =>
      changed_at before after at_ = true /\ tile_of at_ = t)); [ulia|].
    intros at_ Hat. pose proof (tile_of_in_grid before after at_ Hb Hat) as Hin.
    split; [|by intros [? ->]]. intros [? E]. split; [done|]. by apply (idx_inj g Hwf).
  - apply lookup_replicate. split; [done|]. pose proof Hwf as (_ & _ & Hl). rewrite <- Hl.
    by apply (idx_lt g).
  - ulia.
Qed.

(** The count of each tile of the grid is the number of changed pixels in the
    tile: the [u16] never saturates, no pixel is counted in another tile and
    none is missed, the partial tiles at the right and bottom edges included.
    Claim C40. *)
Theorem tile_counts_exact before after t :
  pixels_wf before -> pixels_wf after ->
  RgbPixels.dimensions before = RgbPixels.dimensions after ->
  let g := TileGrid.count before after in
  grid_wf g
  /\ (in_grid g t ->
      TileGrid.counts g !! tile_index (TileGrid.columns g) t.1 t.2
      = Some (Z.of_nat (length (changed_in before after t)))
      /\ (TileGrid.changed g t.1 t.2 = true
          <-> (4 <= length (changed_in before after t))%nat))
  /\ forall at_, at_ ∈ positions (frame_width before) (frame_height before) ->
       in_grid g (tile_of at_).
Proof.
  intros Hb Ha Hd g. split; [by apply count_wf|]. split; [|intros at_ Hat; by apply tile_of_in_grid].
  intros Ht. pose proof (count_lookup before after t Hb Ha Hd Ht) as Hc. split; [exact Hc|].
  unfold TileGrid.changed. fold g in Hc. fold (idx g t). rewrite Hc.
  unfold SCREEN_CHANGE_TILE_PIXELS. rewrite Z.leb_le. lia.
Qed.

(** Two frames of 20 by 18 pixels that differ in their last line: the partial
    tile at the corner holds four of the changed pixels. *)
Lemma tile_counts_exact_witness :
  let d := FrameDimensions.mk 20 18 in
  let before := RgbPixels.mk d (replicate 1080 0) in
  let after := RgbPixels.mk d (replicate 1020 0 ++ replicate 60 255) in
  length (changed_in before after (1, 1)) = 4%nat
  /\ TileGrid.counts (TileGrid.count before after) = [0; 0; 16; 4]
  /\ TileGrid.counts (TileGrid.count before after)
       !! tile_index (TileGrid.columns (TileGrid.count before after)) 1 1
     = Some (Z.of_nat (length (changed_in before after (1, 1)))).
Proof.
  cbn zeta. split; [vm_compute; reflexivity|]. split; [vm_compute; reflexivity|].
  refine (proj1 (proj1 (proj2 (tile_counts_exact _ _ (1, 1) _ _ _)) _));
    [split; [concrete|vm_compute; reflexivity]|split; [concrete|vm_compute; reflexivity]|reflexivity|concrete].
Defined.
