(* ===== verification/ScreenCompare.v ===== *)
(** * ScreenCompare: what a comparison of two frames reports

    The boxes of the components and the report of [compare_frames] in
    [crates/vsift-domain/src/screen_change.rs]: each region is the tight
    rectangle of one connected component of the changed tiles, clipped to the
    frame, with exactly its changed pixels. *)

From S2P Require Import Prelude.
From S2P Require Import Timeline.
From S2P Require Import ScreenRegions.
From S2P Require Import ScreenFill.
From S2P Require Import ScreenCount.

(** ** Specification *)

(** The changed pixels counted in a group of tiles. *)
Definition pixels_of (g : TileGrid.t) (group : list tile) : Z :=
  foldr (fun t total => TileGrid.changed_pixels g t.1 t.2 + total) 0 group.

(** The least box around the tiles of a group, with their changed pixels. *)
Definition tight (g : TileGrid.t) (group : list tile) (box : TileBox.t) : Prop :=
  Forall (fun t => TileBox.first_column box <= t.1 <= TileBox.last_column box
                   /\ TileBox.first_row box <= t.2 <= TileBox.last_row box) group
  /\ Exists (fun t => t.1 = TileBox.first_column box) group
  /\ Exists (fun t => t.1 = TileBox.last_column box) group
  /\ Exists (fun t => t.2 = TileBox.first_row box) group
  /\ Exists (fun t => t.2 = TileBox.last_row box) group
  /\ TileBox.changed_pixels box = Z.min U64_MAX (pixels_of g group).

(** The region of a group of tiles: the pixels of its least box that lie in
    the frame, with the number of changed pixels of its tiles. *)
Definition region_of (before after : RgbPixels.t) (group : list tile) (r : ChangeRegion.t) : Prop :=
  let d := RgbPixels.dimensions before in
  let rect := ChangeRegion.rect r in
  CropRect.wf d rect
  /\ (exists box, tight (TileGrid.count before after) group box
      /\ CropRect.x rect = 16 * TileBox.first_column box
      /\ CropRect.y rect = 16 * TileBox.first_row box
      /\ CropRect.x rect + CropRect.width rect
         = Z.min (16 * (TileBox.last_column box + 1)) (FrameDimensions.width d)
      /\ CropRect.y rect + CropRect.height rect
         = Z.min (16 * (TileBox.last_row box + 1)) (FrameDimensions.height d))
  /\ ChangeRegion.changed_pixels r
     = foldr (fun t total => Z.of_nat (length (changed_in before after t)) + total) 0 group.

(** ** Boxes *)

Lemma pixels_of_app g a b : pixels_of g (a ++ b) = pixels_of g a + pixels_of g b.
Proof. unfold pixels_of. induction a as [|t a IH]; cbn; [done|]. rewrite IH. lia. Qed.

(** A grid whose counts are counts. *)
Definition counted (g : TileGrid.t) : Prop := forall c r, 0 <= TileGrid.changed_pixels g c r <= 256.

Lemma pixels_of_bounds g group :
  counted g -> 0 <= pixels_of g group <= 256 * Z.of_nat (length group).
Proof.
  intros Hg. unfold pixels_of. induction group as [|t group IH]; cbn; [lia|].
  pose proof (Hg t.1 t.2). lia.
Qed.

Lemma tight_single g t : counted g -> tight g [t] (single_of g t).
Proof.
  intros Hg. pose proof (Hg t.1 t.2). unfold tight, single_of. cbn.
  rewrite Forall_singleton. repeat split; try lia; try (by left). ulia.
Qed.

Lemma min_from {A} (f : A -> Z) (P Q : Z) a b :
  Exists (fun t => f t = P) a -> Exists (fun t => f t = Q) b ->
  Exists (fun t => f t = Z.min P Q) (a ++ b) /\ Exists (fun t => f t = Z.max P Q) (a ++ b).
Proof.
  intros Ha Hb. rewrite !Exists_app.
  destruct (Z.min_spec P Q) as [[_ ->]|[_ ->]], (Z.max_spec P Q) as [[_ ->]|[_ ->]]; tauto.
Qed.

Lemma tight_union g a b box box' :
  counted g -> tight g a box -> tight g b box' -> tight g (a ++ b) (TileBox.union box box').
Proof.
  intros Hg (Ha & Ha1 & Ha2 & Ha3 & Ha4 & Ha5) (Hb & Hb1 & Hb2 & Hb3 & Hb4 & Hb5).
  pose proof (pixels_of_bounds g a Hg). pose proof (pixels_of_bounds g b Hg).
  unfold tight, TileBox.union. cbn. split; [|repeat split].
  - apply Forall_app. split; (eapply Forall_impl; [eassumption|]); cbn; lia.
  - by apply min_from.
  - by apply min_from.
  - by apply min_from.
  - by apply min_from.
  - rewrite pixels_of_app, Ha5, Hb5. ulia.
Qed.

Lemma tight_fold g new group box :
  counted g -> tight g group box ->
  tight g (group ++ new) (fold_left (add_tile g) new box).
Proof.
  intros Hg. revert group box. induction new as [|t new IH]; intros group box H; cbn.
  { by rewrite app_nil_r. }
  rewrite cons_middle, app_assoc. apply IH, tight_union; [done|done|]. by apply tight_single.
Qed.

Lemma box_of_tight g group box : counted g -> box_of g group = Some box -> tight g group box.
Proof.
  intros Hg. destruct group as [|t group]; [done|]. cbn. intros [= <-].
  by apply (tight_fold g group [t]), tight_single.
Qed.

(** The union of the boxes of groups is the box of all of them. *)
Lemma union_tight g groups boxes group box :
  counted g -> tight g group box -> Some <$> boxes = box_of g <$> groups ->
  tight g (group ++ concat groups) (fold_left TileBox.union boxes box).
Proof.
  intros Hg. revert boxes group box. induction groups as [|b groups IH]; intros boxes group box Ht Hb.
  - destruct boxes; [|done]. cbn. by rewrite app_nil_r.
  - destruct boxes as [|box' boxes]; [done|]. cbn in Hb. injection Hb as Hbox Hb. cbn.
    rewrite app_assoc. apply IH; [|done]. apply tight_union; [done|done|]. by apply box_of_tight.
Qed.

Lemma reduce_tight g groups boxes :
  counted g -> Some <$> boxes = box_of g <$> groups ->
  match TileGrid.reduce TileBox.union boxes with
  | None => groups = []
  | Some box => groups <> [] /\ tight g (concat groups) box
  end.
Proof.
  intros Hg Hb. destruct groups as [|group groups], boxes as [|box boxes]; try done.
  cbn in Hb. injection Hb as Hbox Hb. cbn. split; [done|]. apply union_tight; [done| |done].
  by apply box_of_tight.
Qed.

(** ** Regions *)

Section Compared.
Variables before after : RgbPixels.t.
Hypothesis Hbefore : pixels_wf before.
Hypothesis Hafter : pixels_wf after.
Hypothesis Hsame : RgbPixels.dimensions before = RgbPixels.dimensions after.

Let d := RgbPixels.dimensions before.
Let g := TileGrid.count before after.

(** The edges of the tiles stay machine integers. *)
Hypothesis Hwidth : FrameDimensions.width d <= U32_MAX - 15.
Hypothesis Hheight : FrameDimensions.height d <= U32_MAX - 15.

Lemma dimensions_wf : FrameDimensions.wf d.
Proof. apply Hbefore. Qed.

Lemma grid_facts : grid_wf g.
Proof. by apply count_wf. Qed.

Lemma grid_pixels t :
  in_grid g t -> TileGrid.changed_pixels g t.1 t.2 = Z.of_nat (length (changed_in before after t)).
Proof.
  intros Ht. unfold TileGrid.changed_pixels. fold (idx g t). unfold g. by rewrite count_lookup.
Qed.

Lemma grid_counted : counted g.
Proof.
  intros c r. unfold TileGrid.changed_pixels.
  destruct (TileGrid.counts g !! _) as [n|] eqn:E; [|cbn; lia]. cbn.
  destruct (idx_surj g grid_facts _ (lookup_lt_Some _ _ _ E)) as (t & Ht & Hi).
  rewrite <- Hi in E. unfold g in E. rewrite count_lookup in E by done. injection E as <-.
  pose proof (changed_in_bound before after t). lia.
Qed.

Lemma columns_bound : let n := FrameDimensions.width d in n <= 16 * TileGrid.columns g < n + 16.
Proof. apply (div_ceil_bounds (FrameDimensions.width d) 16). lia. Qed.

Lemma rows_bound : let n := FrameDimensions.height d in n <= 16 * TileGrid.rows g < n + 16.
Proof. apply (div_ceil_bounds (FrameDimensions.height d) 16). lia. Qed.

(** Distinct tiles hold fewer changed pixels than [u64] can count. *)
Lemma group_pixels group :
  NoDup group -> Forall (in_grid g) group ->
  Z.min U64_MAX (pixels_of g group)
  = foldr (fun t total => Z.of_nat (length (changed_in before after t)) + total) 0 group.
Proof.
  intros Hn Hg. pose proof (pixels_of_bounds g group grid_counted) as Hb.
  pose proof (tiles_bound g grid_facts group Hn Hg) as Hl.
  pose proof (tiles_value g grid_facts) as Hv. destruct (pixels_length before Hbefore) as [_ Hp].
  fold d in Hp. pose proof columns_bound as Hc. pose proof rows_bound as Hr. cbn zeta in Hc, Hr.
  destruct dimensions_wf as (Hw & Hh & Hw0 & Hh0).
  assert (256 * (TileGrid.columns g * TileGrid.rows g) <= U64_MAX).
  { assert (16 * TileGrid.columns g * (16 * TileGrid.rows g)
            <= (FrameDimensions.width d + 15) * (FrameDimensions.height d + 15))
      by (apply Z.mul_le_mono_nonneg; lia). unfold_widths. lia. }
  rewrite Z.min_r by lia. unfold pixels_of. clear - Hg Hbefore Hafter Hsame. induction Hg as [|t group Ht _ IH]; [done|].
  cbn [foldr]. by rewrite IH, grid_pixels.
Qed.

(** One direction of [TileBox::region]: the first and last tile of a box give
    an offset and an extent inside the frame. *)
Lemma edges first last n columns :
  0 <= first <= last -> last < columns -> n <= 16 * columns < n + 16 -> 0 < n <= U32_MAX - 15 ->
  let right := Z.min ((last + 1) * 16) n in
  checked_u32 (first * SCREEN_CHANGE_TILE) = Some (first * 16)
  /\ checked_u32 (last + 1) = Some (last + 1)
  /\ checked_u32 ((last + 1) * SCREEN_CHANGE_TILE) = Some ((last + 1) * 16)
  /\ checked_u32 (right - first * 16) = Some (right - first * 16)
  /\ 0 <= first * 16 < right.
Proof.
  intros Hf Hl Hc Hn right. unfold right, SCREEN_CHANGE_TILE.
  repeat split; try (apply checked_in; ulia); ulia.
Qed.

Lemma region_spec group box :
  tight g group box -> Forall (in_grid g) group -> NoDup group ->
  exists r, TileBox.region box d = Some r /\ region_of before after group r.
Proof.
  intros Ht Hin Hn. pose proof Ht as (Hall & Hc1 & Hc2 & Hr1 & Hr2 & Hp).
  rewrite Forall_forall in Hin, Hall. rewrite !Exists_exists in Hc1, Hc2, Hr1, Hr2.
  destruct Hc1 as (t1 & Ht1 & Ec1), Hc2 as (t2 & Ht2 & Ec2), Hr1 as (t3 & Ht3 & Er1),
    Hr2 as (t4 & Ht4 & Er2).
  destruct (Hin t1 Ht1) as [Hi1 _], (Hin t2 Ht2) as [Hi2 _], (Hin t3 Ht3) as [_ Hi3],
    (Hin t4 Ht4) as [_ Hi4], (Hall t1 Ht1) as [Ha1 _], (Hall t3 Ht3) as [_ Ha3].
  destruct dimensions_wf as (Hw & Hh & Hw0 & Hh0).
  destruct (edges (TileBox.first_column box) (TileBox.last_column box) (FrameDimensions.width d)
              (TileGrid.columns g)) as (E1 & E2 & E3 & E4 & E5); [lia|lia|apply columns_bound|lia|].
  destruct (edges (TileBox.first_row box) (TileBox.last_row box) (FrameDimensions.height d)
              (TileGrid.rows g)) as (F1 & F2 & F3 & F4 & F5); [lia|lia|apply rows_bound|lia|].
  unfold TileBox.region. rewrite E1, F1. cbn [mbind option_bind].
  rewrite E2. cbn [mbind option_bind]. rewrite E3. cbn [mbind option_bind].
  rewrite F2. cbn [mbind option_bind]. rewrite F3. cbn [mbind option_bind].
  rewrite E4. cbn [mbind option_bind]. rewrite F4. cbn [mbind option_bind].
  set (x := TileBox.first_column box * 16) in *. set (y := TileBox.first_row box * 16) in *.
  set (right := Z.min ((TileBox.last_column box + 1) * 16) (FrameDimensions.width d)) in *.
  set (bottom := Z.min ((TileBox.last_row box + 1) * 16) (FrameDimensions.height d)) in *.
  assert (Hwf : CropRect.wf d (CropRect.mk x y (right - x) (bottom - y)))
    by (unfold CropRect.wf; cbn; unfold right, bottom in *; lia).
  assert (Hty : CropRect.typed (CropRect.mk x y (right - x) (bottom - y)))
    by (by apply (crop_wf_typed d)). destruct Hty as (H1 & H2 & H3 & H4).
  cbn in H1, H2, H3, H4.
  rewrite (proj2 (crop_new_Ok x y (right - x) (bottom - y) d _ dimensions_wf H1 H2 H3 H4) (conj eq_refl Hwf)).
  cbn [result_ok mbind option_bind]. eexists. split; [done|]. split; [done|]. cbn. split.
  - exists box. split; [done|]. fold d. unfold x, y, right, bottom. repeat split; lia.
  - rewrite Hp. apply group_pixels; [done|]. by apply Forall_forall.
Qed.
(** Every box found has a region. *)
Lemma regions_found groups boxes :
  Some <$> boxes = box_of g <$> groups -> Forall (is_component g) groups -> NoDup (concat groups) ->
  Forall2 (region_of before after) groups (omap (fun box => TileBox.region box d) boxes).
Proof.
  revert boxes. induction groups as [|group groups IH]; intros boxes Hb Hc Hn.
  { destruct boxes; [|done]. constructor. }
  destruct boxes as [|box boxes]; [done|]. cbn in Hb. injection Hb as Hbox Hb.
  apply Forall_cons in Hc as [(_ & Hch & _) Hc]. cbn in Hn. apply NoDup_app in Hn as (Hn1 & _ & Hn2).
  destruct (region_spec group box) as (r & Hr & Hreg);
    [apply box_of_tight; [apply grid_counted|done]|by eapply Forall_impl; [exact Hch|intros ? []]|done|].
  cbn [omap list_omap]. rewrite Hr. constructor; [done|]. by apply IH.
Qed.
End Compared.

(** ** Order of the regions *)

#[export] Instance region_le_total : Total region_le.
Proof. intros a b. unfold region_le. lia. Qed.

#[export] Instance region_le_transitive : Transitive region_le.
Proof. intros a b c. unfold region_le. lia. Qed.

(** ** Swapping the frames *)

Lemma pixel_changed_sym a b : pixel_changed a b = pixel_changed b a.
Proof.
  unfold pixel_changed. revert b. induction a as [|x a IH]; intros [|y b]; cbn; [done..|].
  rewrite IH. f_equal. f_equal. lia.
Qed.

Lemma count_sym before after :
  pixels_wf before -> pixels_wf after ->
  RgbPixels.dimensions before = RgbPixels.dimensions after ->
  TileGrid.count after before = TileGrid.count before after.
Proof.
  intros Hb Ha Hd. pose proof (count_positions before after Hb Ha Hd) as H1.
  pose proof (count_positions after before Ha Hb (eq_sym Hd)) as H2. cbn zeta in H1, H2.
  assert (Hc : TileGrid.columns (TileGrid.count after before) = TileGrid.columns (TileGrid.count before after))
    by (cbn; by rewrite Hd).
  assert (Hr : TileGrid.rows (TileGrid.count after before) = TileGrid.rows (TileGrid.count before after))
    by (cbn; by rewrite Hd).
  assert (Hn : TileGrid.counts (TileGrid.count after before) = TileGrid.counts (TileGrid.count before after)).
  { rewrite H1, H2, Hc, Hr. unfold frame_width, frame_height. rewrite Hd.
    apply fold_left_ext. intros counts at_ _. unfold changed_at. by rewrite pixel_changed_sym. }
  clear H1 H2. destruct (TileGrid.count after before), (TileGrid.count before after).
  cbn in Hc, Hr, Hn. by subst.
Qed.

(** ** The report *)

(** Comparing two frames does not depend on which comes first; frames of
    different sizes are not compared. Of two frames of one size, the regions
    are the connected components of the changed tiles, each with its least
    rectangle clipped to the frame and exactly its changed pixels: at most
    eight of them, the largest first, the others counted. The changed area is
    the region of all changed tiles and is missing only when there are none.
    Claim C13. *)
Theorem compare_frames_reports before after :
  pixels_wf before -> pixels_wf after ->
  let d := RgbPixels.dimensions before in
  let g := TileGrid.count before after in
  compare_frames after before = compare_frames before after
  /\ (d <> RgbPixels.dimensions after -> compare_frames before after = DimensionsDiffer)
  /\ (d = RgbPixels.dimensions after ->
      FrameDimensions.width d <= U32_MAX - 15 -> FrameDimensions.height d <= U32_MAX - 15 ->
      exists groups sorted c,
        compare_frames before after = Compared c
        /\ Forall (is_component g) groups /\ NoDup (concat groups)
        /\ (forall t, t ∈ concat groups <-> changed_tile g t)
        /\ StronglySorted region_le sorted
        /\ (exists all, sorted ≡ₚ all /\ Forall2 (region_of before after) groups all)
        /\ RegionComparison.regions c = take 8 sorted
        /\ RegionComparison.regions_left_out c = Z.min U32_MAX (Z.of_nat (length groups - 8))
        /\ match RegionComparison.changed_area c with
           | None => groups = []
           | Some area => groups <> [] /\ region_of before after (concat groups) area
           end).
Proof.
  intros Hb Ha d g. split; [|split].
  - unfold compare_frames. destruct (decide (RgbPixels.dimensions before = RgbPixels.dimensions after)) as [Hd|Hd].
    + rewrite !bool_decide_true by done. by rewrite count_sym, Hd.
    + by rewrite !bool_decide_false by done.
  - intros Hd. unfold compare_frames. by rewrite bool_decide_false.
  - intros Hd Hw Hh. destruct (found_boxes_spec g (count_wf before after Hb)) as (groups & Hbox & Hc & Hn & Hall).
    pose proof (regions_found before after Hb Ha Hd Hw Hh groups _ Hbox Hc Hn) as Hregs. fold d g in Hregs.
    set (all := omap _ _) in Hregs. pose proof (Forall2_length _ _ _ Hregs) as Hlen.
    exists groups, (stable_sort region_le all), (TileGrid.regions g d).
    unfold compare_frames. rewrite bool_decide_true by done. fold g d. split; [done|].
    split; [done|]. split; [done|]. split; [done|].
    split; [apply StronglySorted_stable_sort; apply _|].
    split; [exists all; split; [apply stable_sort_Permutation|done]|]. split; [done|]. split.
    + cbn. fold all. rewrite stable_sort_Permutation, <- Hlen. unfold MAX_CHANGE_REGIONS, checked_u32, checked.
      destruct (in_range 0 U32_MAX _) eqn:E; [apply in_range_true in E; cbn; lia|].
      cbn. destruct (decide (0 <= Z.of_nat (length groups - 8) <= U32_MAX)) as [H|H]; [|lia].
      apply in_range_true in H. congruence.
    + cbn. pose proof (reduce_tight g groups _ (grid_counted before after Hb Ha Hd) Hbox) as Hred.
      destruct (TileGrid.reduce _ _) as [box|]; [|done]. destruct Hred as [Hne Ht]. cbn.
      destruct (region_spec before after Hb Ha Hd Hw Hh _ box Ht) as (r & Hrr & Hr); [|done|].
      { apply Forall_forall. intros t Hin%Hall. apply Hin. }
      fold d in Hrr. by rewrite Hrr.
Qed.

(** Two frames of 20 by 18 pixels that differ in their last line: one region,
    two partial tiles at the bottom edge, with the twenty changed pixels. *)
Lemma compare_frames_reports_witness :
  let d := FrameDimensions.mk 20 18 in
  let before := RgbPixels.mk d (replicate 1080 0) in
  let after := RgbPixels.mk d (replicate 1020 0 ++ replicate 60 255) in
  let region := ChangeRegion.mk (CropRect.mk 0 16 20 2) 20 in
  compare_frames before after = Compared (RegionComparison.mk [region] 0 (Some region))
  /\ compare_frames after before = compare_frames before after
  /\ exists groups c, compare_frames before after = Compared c
       /\ Forall (is_component (TileGrid.count before after)) groups
       /\ length (RegionComparison.regions c) = length groups.
Proof.
  cbn zeta. split; [vm_compute; reflexivity|].
  destruct (compare_frames_reports (RgbPixels.mk (FrameDimensions.mk 20 18) (replicate 1080 0))
              (RgbPixels.mk (FrameDimensions.mk 20 18) (replicate 1020 0 ++ replicate 60 255)))
    as (Hsym & _ & H); [split; [concrete|vm_compute; reflexivity]..|].
  split; [exact Hsym|].
  destruct H as (groups & sorted & c & Hc & Hg & _ & _ & _ & (all & Hp & Hall) & Hr & Hl & _);
    [reflexivity|concrete|concrete|].
  exists groups, c. split; [done|]. split; [done|].
  assert (E : RegionComparison.regions c = take 8 sorted /\ length (RegionComparison.regions c) = 1%nat).
  { split; [done|]. revert Hc. generalize c. intros c' Hc'.
    assert (Hv : Compared c' = Compared (RegionComparison.mk
      [ChangeRegion.mk (CropRect.mk 0 16 20 2) 20] 0
      (Some (ChangeRegion.mk (CropRect.mk 0 16 20 2) 20)))) by (rewrite <- Hc'; vm_compute; reflexivity).
    by injection Hv as ->. }
  destruct E as [_ E]. rewrite E. rewrite Hr, length_take in E.
  pose proof (Permutation_length Hp) as Hpl. pose proof (Forall2_length _ _ _ Hall). lia.
Defined.

(** A tile in the last column of a frame wider than 4294967280 pixels has no
    region: its right edge is beyond [u32] before it is clipped. *)
Lemma region_beyond_u32 :
  TileBox.region (TileBox.single 268435455 0 4) (FrameDimensions.mk 4294967295 1) = None.
Proof. reflexivity. Qed.
