(* ===== verification/Watch.v ===== *)
(** * Watch: names, times and choices of one run

    Models [crates/vsift-domain/src/watch.rs]: the names of the outputs, the
    readable times, which screen changes get a frame and which are listed, and
    the text of a subtitle cue. A [&str] is the list of its UTF-8 bytes; the
    operations of the standard library on it are written out on bytes, which
    is the same for the ASCII patterns the code searches for. *)

From Stdlib Require Import Ascii.
From S2P Require Import Prelude.
From S2P Require Import Text.
From S2P Require Import Chars.
From S2P Require Import Timeline.
From S2P Require Import VisualAnalysis.

Definition MAX_OUTPUT_NAME_BYTES : nat := 200.
Definition MAX_WATCH_FRAMES : Z := 180.
Definition EVIDENCE_ARTIFACTS_PER_FRAME : Z := 2.
Definition TRANSCRIPT_SUFFIX : text := literal ".txt".
Definition SUBTITLES_SUFFIX : text := literal ".srt".
Definition FOLDER_SUFFIX : text := literal "-vsift".

Definition dot : ascii := "."%char.
Definition space : ascii := " "%char.
Definition colon : ascii := ":"%char.
Definition dash : ascii := "-"%char.

(** ** Output names *)

Inductive OutputNameError := NotUnicode | Empty.

(** [str::rfind] of one ASCII character. *)
Fixpoint rfind (c : ascii) (s : text) : option nat :=
  match s with
  | [] => None
  | c' :: rest =>
      match rfind c rest with
      | Some i => Some (S i)
      | None => if (c' =? c)%char then Some O else None
      end
  end.

(** [trim_end_matches(['.', ' '])] *)
Fixpoint trim_end_dots (s : text) : text :=
  match s with
  | [] => []
  | c :: rest =>
      match trim_end_dots rest with
      | [] => if (c =? dot)%char || (c =? space)%char then [] else [c]
      | rest' => c :: rest'
      end
  end.

(** A byte inside the encoding of a character, not at its start. *)
Definition is_continuation (c : ascii) : bool := (128 <=? byte_of c) && (byte_of c <? 192).

(** [str::is_char_boundary] *)
Definition is_char_boundary (s : text) (i : nat) : bool :=
  match s !! i with
  | Some c => (i =? 0)%nat || negb (is_continuation c)
  | None => (i =? 0)%nat || (i =? length s)%nat
  end.

(** [while !stem.is_char_boundary(end) { end -= 1; }]: the start of the text
    is a boundary, so that the loop ends there at the latest. *)
Fixpoint floor_char_boundary (s : text) (end_ : nat) : nat :=
  if is_char_boundary s end_ then end_
  else match end_ with O => O | S end_ => floor_char_boundary s end_ end.

Module WatchOutputNames.
Record t := mk { stem : text; shortened : bool }.

(** The argument is the file name as text, if it is Unicode. *)
Definition from_video_name (file_name : option text) : result t OutputNameError :=
  let? name := ok_or file_name NotUnicode in
  let stem := match rfind dot name with
              | Some d => if (0 <? d)%nat then take d name else name
              | None => name
              end in
  let stem := trim_end_dots stem in
  match stem with
  | [] => Err Empty
  | _ =>
      let room := (MAX_OUTPUT_NAME_BYTES - length FOLDER_SUFFIX)%nat in
      let shortened := (room <? length stem)%nat in
      let stem := if shortened then trim_end_dots (take (floor_char_boundary stem room) stem)
                  else stem in
      match stem with
      | [] => Err Empty
      | _ => Ok (mk stem shortened)
      end
  end.

Definition transcript (n : t) : text := stem n ++ TRANSCRIPT_SUFFIX.
Definition subtitles (n : t) : text := stem n ++ SUBTITLES_SUFFIX.
Definition folder (n : t) : text := stem n ++ FOLDER_SUFFIX.

(** [stem.replace(':', "-")] *)
Definition bundle (n : t) : text := (fun c => if (c =? colon)%char then dash else c) <$> stem n.
End WatchOutputNames.

(** ** Times *)

(** [format!("{:0width$}", n)] *)
Definition padded (width : nat) (n : Z) : text :=
  let digits := decimal n in replicate (width - length digits) zero_char ++ digits.

Definition readable_time (time : MediaTime) : text :=
  let seconds := time / 1000000 in
  padded 2 (seconds / 3600) ++ literal ":" ++ padded 2 ((seconds / 60) mod 60) ++ literal ":"
  ++ padded 2 (seconds mod 60).

Definition subrip_time (time : MediaTime) : text :=
  let millis := time / 1000 in
  readable_time time ++ literal "," ++ padded 3 (millis mod 1000).

Definition frame_file_name (time : MediaTime) : text :=
  let millis := time / 1000 in
  let seconds := millis / 1000 in
  padded 2 (seconds / 3600) ++ literal "-" ++ padded 2 ((seconds / 60) mod 60) ++ literal "-"
  ++ padded 2 (seconds mod 60) ++ literal "." ++ padded 3 (millis mod 1000) ++ literal ".png".

(** ** Which frames *)

Definition frames_that_fit (evidence_slots_left : Z) : Z :=
  let fit := evidence_slots_left / EVIDENCE_ARTIFACTS_PER_FRAME in
  if fit <? MAX_WATCH_FRAMES then fit else MAX_WATCH_FRAMES.

(** The product of [usize] values is unchecked. *)
Definition spread_evenly (count bound : nat) : list Z :=
  if (count <=? bound)%nat then Z.of_nat <$> seq 0 count
  else match bound with
       | O => []
       | S O => [0]
       | _ => (fun step => wrap_u64 (Z.of_nat step * (Z.of_nat count - 1)) / (Z.of_nat bound - 1))
                <$> seq 0 bound
       end.

Definition SETTLED_SCREEN_SPACING_MICROS : Z := 5000000.

(** Whether a change is listed, [last] being the time of the last listed one. *)
Definition settled_keep (last : option MediaTime) (time : MediaTime) (reason : CandidateReason.t) : bool :=
  match reason with
  | CandidateReason.FirstFrame | CandidateReason.SettledAfterMotion => true
  | CandidateReason.VisualChange =>
      match last with
      | None => true
      | Some last => SETTLED_SCREEN_SPACING_MICROS <=? saturating_u64 (time - last)
      end
  | CandidateReason.MotionStart | CandidateReason.PeriodicCoverage => false
  end.

(** The loop, [position] being the position of the first remaining change. *)
Fixpoint settled_from (position : nat) (last : option MediaTime)
    (changes : list (MediaTime * CandidateReason.t)) : list nat :=
  match changes with
  | [] => []
  | (time, reason) :: rest =>
      if settled_keep last time reason then position :: settled_from (S position) (Some time) rest
      else settled_from (S position) last rest
  end.

Definition settled_screens (changes : list (MediaTime * CandidateReason.t)) : list nat :=
  settled_from 0 None changes.

(** ** Subtitle text *)

Definition carriage_return : ascii := ascii_of_N 13.
Definition line_feed : ascii := ascii_of_N 10.

(** [split(['\r', '\n'])] *)
Fixpoint split_lines (s : text) : list text :=
  match s with
  | [] => [[]]
  | c :: rest =>
      if (c =? carriage_return)%char || (c =? line_feed)%char then [] :: split_lines rest
      else match split_lines rest with
           | part :: parts => (c :: part) :: parts
           | [] => [[c]]
           end
  end.

Definition arrow : text := literal "-->".
Definition short_arrow : text := literal "->".

(** [str::replace] of a pattern that is not empty: leftmost occurrences that
    do not overlap. *)
Fixpoint replace_from (fuel : nat) (pattern to : text) (s : text) : text :=
  match fuel, s with
  | S fuel, c :: rest =>
      match strip_prefix pattern s with
      | Some rest => to ++ replace_from fuel pattern to rest
      | None => c :: replace_from fuel pattern to rest
      end
  | _, _ => s
  end.

Definition replace (pattern to s : text) : text := replace_from (length s) pattern to s.

(** [while text.contains("-->") { text = text.replace("-->", "->") }]: every
    replacement makes the text shorter. *)
Fixpoint replace_while (fuel : nat) (s : text) : text :=
  match fuel with
  | S fuel => if contains_text arrow s then replace_while fuel (replace arrow short_arrow s) else s
  | O => s
  end.

Definition subrip_cue_text (display_text : text) : text :=
  let lines := filter (fun line => line <> []) (trim <$> split_lines display_text) in
  let single_line := join_with space lines in
  replace_while (length single_line) single_line.

(** ** Facts on subtitle text *)

Lemma replace_from_Forall (P : ascii -> Prop) fuel pattern to s :
  Forall P to -> Forall P s -> Forall P (replace_from fuel pattern to s).
Proof.
  intros Hto. revert s. induction fuel as [|fuel IH]; intros s Hs; [done|].
  destruct s as [|c s]; [done|]. cbn [replace_from].
  destruct (strip_prefix pattern (c :: s)) as [rest|] eqn:E.
  - apply strip_prefix_Some in E. rewrite E in Hs. apply Forall_app in Hs as [_ Hs].
    apply Forall_app. split; [done|by apply IH].
  - apply Forall_cons in Hs as [Hc Hs]. constructor; [done|by apply IH].
Qed.

Section Replace.
Context (pattern to : text) (Hshorter : (length to < length pattern)%nat).

Lemma replace_from_length fuel s : (length (replace_from fuel pattern to s) <= length s)%nat.
Proof.
  revert s. induction fuel as [|fuel IH]; intros s; [done|].
  destruct s as [|c s]; [done|]. cbn [replace_from].
  destruct (strip_prefix pattern (c :: s)) as [rest|] eqn:E.
  - apply strip_prefix_Some in E. rewrite E, !length_app. specialize (IH rest). lia.
  - cbn. specialize (IH s). lia.
Qed.

Lemma replace_from_shorter fuel s :
  (length s <= fuel)%nat -> contains_text pattern s = true ->
  (length (replace_from fuel pattern to s) < length s)%nat.
Proof.
  revert s. induction fuel as [|fuel IH]; intros s Hf Hc.
  - destruct s; [|cbn in Hf; lia]. apply contains_text_spec in Hc as (a & b & E).
    apply (f_equal length) in E. rewrite !length_app in E. cbn in E. lia.
  - destruct s as [|c s].
    { apply contains_text_spec in Hc as (a & b & E).
      apply (f_equal length) in E. rewrite !length_app in E. cbn in E. lia. }
    cbn [replace_from]. cbn [contains_text] in Hc.
    destruct (strip_prefix pattern (c :: s)) as [rest|] eqn:E.
    + apply strip_prefix_Some in E. rewrite E, !length_app. pose proof (replace_from_length fuel rest). lia.
    + cbn in *. specialize (IH s ltac:(lia) Hc). lia.
Qed.
End Replace.

Lemma replace_while_spec (P : ascii -> Prop) fuel s :
  Forall P short_arrow -> Forall P s -> (length s <= fuel)%nat ->
  Forall P (replace_while fuel s) /\ contains_text arrow (replace_while fuel s) = false
  /\ (contains_text arrow s = false -> replace_while fuel s = s).
Proof.
  intros Hto. revert s. induction fuel as [|fuel IH]; intros s Hs Hf.
  { destruct s; [|cbn in Hf; lia]. by repeat split. }
  cbn [replace_while]. destruct (contains_text arrow s) eqn:E; [|by repeat split].
  assert (Hl : (length (replace arrow short_arrow s) < length s)%nat)
    by (apply replace_from_shorter; [cbn; lia|lia|done]).
  destruct (IH (replace arrow short_arrow s)) as (H1 & H2 & _); [by apply replace_from_Forall|lia|].
  by split; [|split].
Qed.

(** A byte that ends no line. *)
Definition in_line (c : ascii) : Prop := c <> carriage_return /\ c <> line_feed.

Lemma split_lines_nonempty s : split_lines s <> [].
Proof.
  destruct s as [|c s]; cbn; [done|]. destruct (_ || _); [done|]. by destruct (split_lines s).
Qed.

Lemma split_lines_in_line s : Forall (Forall in_line) (split_lines s).
Proof.
  induction s as [|c s IH]; cbn [split_lines]; [by repeat constructor|].
  destruct ((c =? carriage_return)%char || (c =? line_feed)%char) eqn:E; [by constructor|].
  apply orb_false_iff in E as [E1%Ascii.eqb_neq E2%Ascii.eqb_neq].
  destruct (split_lines s) as [|part parts]; [by repeat constructor|].
  apply Forall_cons in IH as [Hp Hps]. constructor; [|done]. by constructor.
Qed.

Lemma split_lines_single s : Forall in_line s -> split_lines s = [s].
Proof.
  induction 1 as [|c s [Hc1 Hc2] _ IH]; cbn [split_lines]; [done|].
  rewrite (proj2 (Ascii.eqb_neq _ _) Hc1), (proj2 (Ascii.eqb_neq _ _) Hc2). cbn. by rewrite IH.
Qed.

Lemma join_with_Forall (P : ascii -> Prop) sep parts :
  P sep -> Forall (Forall P) parts -> Forall P (join_with sep parts).
Proof.
  intros Hs. induction 1 as [|part parts Hp Hps IH]; cbn; [constructor|].
  destruct parts; [done|]. apply Forall_app. split; [done|]. by constructor.
Qed.

(** The text of a cue is one line without a timing arrow, whatever the
    display text holds, so that it can neither end its cue nor forge another;
    a text that is already one trimmed line without an arrow is kept as it
    is. *)
Theorem subrip_cue_text_cannot_forge s :
  Forall (fun c => c <> carriage_return /\ c <> line_feed) (subrip_cue_text s)
  /\ contains_text (literal "-->") (subrip_cue_text s) = false
  /\ (Forall in_line s -> trim s = s -> contains_text (literal "-->") s = false ->
      subrip_cue_text s = s).
Proof.
  unfold subrip_cue_text. set (lines := filter _ _). set (single := join_with space lines).
  assert (Hline : Forall in_line single).
  { apply join_with_Forall; [by split|]. apply Forall_forall. intros line [_ Hin]%list_elem_of_filter.
    apply list_elem_of_fmap in Hin as (part & -> & Hp). apply trim_Forall.
    pose proof (split_lines_in_line s) as H. rewrite Forall_forall in H. by apply H. }
  destruct (replace_while_spec in_line (length single) single) as (H1 & H2 & H3);
    [by repeat constructor|done|lia|].
  split; [done|]. split; [done|]. intros Hs Htrim Hno.
  assert (E : single = s); [|transitivity single; [apply H3; by rewrite E|done]].
  unfold single, lines. rewrite split_lines_single by done. cbn [fmap list_fmap]. rewrite Htrim.
  rewrite filter_cons. case_decide; [done|]. by destruct s.
Qed.

Lemma subrip_cue_text_cannot_forge_witness :
  subrip_cue_text (literal "a --->" ++ [line_feed; line_feed; space] ++ literal "---->b")
  = literal "a -> ->b"
  /\ subrip_cue_text (literal "plain - words") = literal "plain - words".
Proof.
  split; [vm_compute; reflexivity|].
  apply (subrip_cue_text_cannot_forge (literal "plain - words")); [|vm_compute; reflexivity..].
  repeat (constructor; [split; vm_compute; discriminate|]). constructor.
Defined.

(** ** Facts on times *)

(** The order of file names: by bytes, a prefix first. *)
Fixpoint text_ltb (a b : text) : bool :=
  match a, b with
  | _, [] => false
  | [], _ :: _ => true
  | x :: a, y :: b => (byte_of x <? byte_of y) || ((byte_of x =? byte_of y) && text_ltb a b)
  end.

Lemma byte_of_inj x y : byte_of x = byte_of y -> x = y.
Proof.
  unfold byte_of. intros H. rewrite <- (ascii_N_embedding x), <- (ascii_N_embedding y). f_equal. lia.
Qed.

Lemma text_ltb_irreflexive a : text_ltb a a = false.
Proof. induction a as [|x a IH]; [done|]. cbn. by rewrite Z.ltb_irrefl, IH, andb_false_r. Qed.

Lemma text_ltb_app a b x y :
  length a = length b ->
  text_ltb (a ++ x) (b ++ y) = text_ltb a b || (bool_decide (a = b) && text_ltb x y).
Proof.
  revert b. induction a as [|c a IH]; intros [|d b] Hl; cbn in Hl; try lia; [done|].
  cbn [app text_ltb]. rewrite IH by lia. destruct (byte_of c =? byte_of d) eqn:E.
  - apply Z.eqb_eq, byte_of_inj in E as <-. rewrite Z.ltb_irrefl. cbn. f_equal. f_equal.
    apply bool_decide_ext. split; [by intros ->|by intros [= ->]].
  - apply Z.eqb_neq in E. rewrite (bool_decide_false (c :: a = d :: b)) by (intros [= -> _]; done).
    cbn. by rewrite !orb_false_r.
Qed.

Lemma text_ltb_same a x y : text_ltb (a ++ x) (a ++ y) = text_ltb x y.
Proof. rewrite text_ltb_app by done. by rewrite text_ltb_irreflexive, bool_decide_true. Qed.

(** Fixed-width fields, digit by digit. *)
Lemma decimal_digits_S fuel n :
  decimal_digits (S fuel) n
  = if n <? 10 then [digit_char n] else decimal_digits fuel (n / 10) ++ [digit_char (n mod 10)].
Proof. done. Qed.

Lemma decimal_digits_small fuel n : 0 <= n < 10 -> decimal_digits (S fuel) n = [digit_char n].
Proof. intros H. by rewrite decimal_digits_S, (proj2 (Z.ltb_lt n 10)) by lia. Qed.

Lemma decimal_digits_snoc fuel n :
  10 <= n -> decimal_digits (S fuel) n = decimal_digits fuel (n / 10) ++ [digit_char (n mod 10)].
Proof. intros H. by rewrite decimal_digits_S, (proj2 (Z.ltb_ge n 10)) by lia. Qed.

Lemma decimal_digits_stable f g n :
  0 <= n < 100 -> decimal_digits (S (S f)) n = decimal_digits (S (S g)) n.
Proof.
  intros H. destruct (decide (n < 10)).
  - by rewrite !decimal_digits_small by lia.
  - by rewrite 2!(decimal_digits_snoc _ n), !decimal_digits_small by divlia.
Qed.

Lemma decimal_small n : 0 <= n < 10 -> decimal n = [digit_char n].
Proof. apply (decimal_digits_small 19). Qed.

Lemma decimal_snoc n : 10 <= n < 1000 -> decimal n = decimal (n / 10) ++ [digit_char (n mod 10)].
Proof.
  intros H. unfold decimal. rewrite (decimal_digits_snoc 19 n) by lia.
  by rewrite (decimal_digits_stable 17 18 (n / 10)) by divlia.
Qed.

Lemma padded_1 n : 0 <= n < 10 -> padded 1 n = [digit_char n].
Proof. intros H. unfold padded. by rewrite !decimal_small. Qed.

Lemma padded_snoc w n :
  (1 <= w <= 2)%nat -> 0 <= n < 10 ^ Z.of_nat (S w) ->
  padded (S w) n = padded w (n / 10) ++ [digit_char (n mod 10)].
Proof.
  intros Hw H. assert (H3 : 0 <= n < 1000) by (destruct w as [|[|[|w]]]; cbn in H; lia).
  unfold padded. destruct (decide (n < 10)) as [Hs|Hs].
  - rewrite (Z.div_small n 10), (Z.mod_small n 10), !decimal_small by lia.
    destruct w as [|[|[|w]]]; [lia|done..|lia].
  - rewrite (decimal_snoc n) by lia. rewrite length_app. cbn [length].
    rewrite app_assoc. do 3 f_equal. lia.
Qed.

Lemma padded_2 n : 0 <= n < 100 -> padded 2 n = [digit_char (n / 10); digit_char (n mod 10)].
Proof. intros H. rewrite padded_snoc, padded_1; [done|divlia|lia|done]. Qed.

Lemma padded_3 n :
  0 <= n < 1000 -> padded 3 n = [digit_char (n / 100); digit_char (n / 10 mod 10); digit_char (n mod 10)].
Proof.
  intros H. rewrite padded_snoc, padded_2; [|divlia|lia|done]. cbn [app]. by rewrite Z.div_div.
Qed.

(** A field of two digits, then the rest of the name. *)
Lemma field_2 n m x y :
  0 <= n < 100 -> 0 <= m < 100 ->
  text_ltb (padded 2 n ++ x) (padded 2 m ++ y) = (n <? m) || ((n =? m) && text_ltb x y).
Proof.
  intros Hn Hm. rewrite !padded_2 by done. cbn [app text_ltb].
  rewrite !byte_of_digit_char by divlia. apply eq_true_iff_eq.
  rewrite !orb_true_iff, !andb_true_iff, !orb_true_iff, !andb_true_iff, !Z.ltb_lt, !Z.eqb_eq.
  destruct (text_ltb x y); intuition (try done; divlia).
Qed.

Lemma field_3 n m x y :
  0 <= n < 1000 -> 0 <= m < 1000 ->
  text_ltb (padded 3 n ++ x) (padded 3 m ++ y) = (n <? m) || ((n =? m) && text_ltb x y).
Proof.
  intros Hn Hm. rewrite !padded_3 by done. cbn [app text_ltb].
  rewrite !byte_of_digit_char by divlia. apply eq_true_iff_eq.
  rewrite !orb_true_iff, !andb_true_iff, !orb_true_iff, !andb_true_iff, !orb_true_iff,
    !andb_true_iff, !Z.ltb_lt, !Z.eqb_eq.
  destruct (text_ltb x y); intuition (try done; divlia).
Qed.

(** Up to a hundred hours, the names of frames sort in time order, to the
    millisecond, and two frames share a name exactly when they share a
    millisecond. *)
Theorem frame_names_sort_in_time t u :
  0 <= t < 360000000000 -> 0 <= u < 360000000000 ->
  text_ltb (frame_file_name t) (frame_file_name u) = (t / 1000 <? u / 1000)
  /\ (frame_file_name t = frame_file_name u <-> t / 1000 = u / 1000).
Proof.
  assert (Hlt : forall t u, 0 <= t < 360000000000 -> 0 <= u < 360000000000 ->
    text_ltb (frame_file_name t) (frame_file_name u) = (t / 1000 <? u / 1000)).
  { clear. intros t u Ht Hu. unfold frame_file_name. cbn zeta.
    rewrite field_2 by divlia. rewrite text_ltb_same, field_2, text_ltb_same, field_2 by divlia.
    rewrite text_ltb_same, field_3, text_ltb_irreflexive, andb_false_r, orb_false_r by divlia.
    apply eq_true_iff_eq.
    rewrite !orb_true_iff, !andb_true_iff, !orb_true_iff, !andb_true_iff, !orb_true_iff,
      !andb_true_iff, !Z.ltb_lt, !Z.eqb_eq.
    divlia. }
  intros Ht Hu. split; [by apply Hlt|]. split.
  - intros E. pose proof (Hlt t u Ht Hu) as H1. pose proof (Hlt u t Hu Ht) as H2.
    rewrite E, text_ltb_irreflexive in H1. rewrite E, text_ltb_irreflexive in H2.
    symmetry in H1, H2. bool_prop. lia.
  - intros E. unfold frame_file_name. cbn zeta. by rewrite E.
Qed.

Lemma frame_names_sort_in_time_witness :
  frame_file_name 3723004567 = literal "01-02-03.004.png"
  /\ text_ltb (frame_file_name 3723004567) (frame_file_name 35999999999) = true.
Proof.
  split; [vm_compute; reflexivity|].
  rewrite (proj1 (frame_names_sort_in_time 3723004567 35999999999 ltac:(lia) ltac:(lia))).
  reflexivity.
Defined.

(** From a hundred hours on the names no longer sort in time order. *)
Lemma frame_names_beyond_100_hours :
  text_ltb (frame_file_name 360000000000) (frame_file_name 359999999999) = true.
Proof. vm_compute. reflexivity. Qed.

(** ** Facts on the choice of frames *)

(** The position listed last before [p]. *)
Definition listed_before (listed : list nat) (p : nat) : option nat :=
  last (filter (fun q => (q < p)%nat) listed).

Lemma settled_from_ge position last changes :
  Forall (fun q => (position <= q)%nat) (settled_from position last changes).
Proof.
  revert position last. induction changes as [|[time reason] changes IH]; intros position last;
    cbn [settled_from]; [constructor|].
  assert (Hrest : forall last, Forall (fun q => (position <= q)%nat) (settled_from (S position) last changes)).
  { intros last'. eapply Forall_impl; [apply IH|]. cbn. lia. }
  destruct (settled_keep _ _ _); [by constructor|done].
Qed.

Lemma settled_from_sorted position last changes :
  StronglySorted lt (settled_from position last changes).
Proof.
  revert position last. induction changes as [|[time reason] changes IH]; intros position last;
    cbn [settled_from]; [constructor|].
  destruct (settled_keep _ _ _); [|done]. constructor; [done|apply settled_from_ge].
Qed.

(** Each change is listed by its reason and by the time listed before it. *)
Lemma settled_from_elem position latest changes k time reason :
  changes !! k = Some (time, reason) ->
  (position + k)%nat ∈ settled_from position latest changes
  <-> settled_keep (match listed_before (settled_from position latest changes) (position + k) with
                    | Some q => fst <$> changes !! (q - position)%nat
                    | None => latest
                    end) time reason = true.
Proof.
  revert position latest k. induction changes as [|[time0 reason0] changes IH]; intros position latest k Hk; [done|].
  cbn [settled_from]. set (keep := settled_keep latest time0 reason0).
  set (latest' := if keep then Some time0 else latest).
  set (rest := settled_from (S position) latest' changes).
  assert (Hout : (if keep then position :: settled_from (S position) (Some time0) changes
                  else settled_from (S position) latest changes)
                 = if keep then position :: rest else rest) by (unfold rest, latest'; by destruct keep).
  rewrite Hout. assert (Hge : Forall (fun q => (S position <= q)%nat) rest) by apply settled_from_ge.
  destruct k as [|k].
  - injection Hk as -> ->. rewrite Nat.add_0_r.
    assert (Hnone : listed_before (if keep then position :: rest else rest) position = None).
    { unfold listed_before. rewrite filter_none; [done|].
      assert (Forall (fun q => ~ (q < position)%nat) rest) by (eapply Forall_impl; [done|]; cbn; lia).
      destruct keep; [constructor; [lia|done]|done]. }
    rewrite Hnone. fold keep. rewrite Forall_forall in Hge. destruct keep.
    + split; [done|]. intros _. by left.
    + split; [|done]. intros Hin. specialize (Hge _ Hin). lia.
  - specialize (IH (S position) latest' k Hk). fold rest in IH.
    replace (S position + k)%nat with (position + S k)%nat in IH by lia.
    assert (Hin : (position + S k)%nat ∈ (if keep then position :: rest else rest)
                  <-> (position + S k)%nat ∈ rest).
    { destruct keep; [|done]. rewrite elem_of_cons. split; [intros [?|?]; [lia|done]|by right]. }
    rewrite Hin, IH. unfold listed_before at 2. set (before := filter (fun q => (q < position + S k)%nat)).
    assert (Hb : before (if keep then position :: rest else rest)
                 = if keep then position :: before rest else before rest).
    { unfold before. destruct keep; [|done]. rewrite filter_cons. by rewrite decide_True by lia. }
    rewrite Hb. unfold listed_before. fold (before rest).
    assert (Hbefore : Forall (fun q => (S position <= q)%nat) (before rest)).
    { apply Forall_forall. intros q [_ Hq]%list_elem_of_filter. rewrite Forall_forall in Hge. by apply Hge. }
    destruct (last (before rest)) as [q|] eqn:El.
    + assert (Hq : (S position <= q)%nat).
      { rewrite Forall_forall in Hbefore. apply Hbefore. by apply last_Some_elem_of. }
      assert (El' : last (if keep then position :: before rest else before rest) = Some q).
      { destruct keep; [|done]. rewrite last_cons, El. done. }
      rewrite El'. replace (q - position)%nat with (S (q - S position)) by lia. done.
    + apply last_None in El. rewrite El. unfold latest'. destruct keep; cbn; [|done].
      by rewrite Nat.sub_diag.
Qed.

(** Which changes are listed: their positions ascend; a first frame and every
    settled screen are listed, the start of motion and periodic coverage never
    are, and a plain change is listed exactly when it comes at least five
    seconds after the one listed before it, or is the first. *)
Theorem settled_screens_exact (changes : list (MediaTime * CandidateReason.t)) :
  Forall (fun change : MediaTime * CandidateReason.t => is_u64 change.1) changes ->
  let listed := settled_screens changes in
  StronglySorted lt listed
  /\ forall p (time : MediaTime) reason, changes !! p = Some (time, reason) ->
       match reason with
       | CandidateReason.FirstFrame | CandidateReason.SettledAfterMotion => p ∈ listed
       | CandidateReason.MotionStart | CandidateReason.PeriodicCoverage => p ∉ listed
       | CandidateReason.VisualChange =>
           p ∈ listed
           <-> forall q (time' : MediaTime) reason', listed_before listed p = Some q ->
                 changes !! q = Some (time', reason') -> 5000000 <= time - time'
       end.
Proof.
  intros Htyped listed. split; [apply settled_from_sorted|]. intros p time reason Hp.
  pose proof (settled_from_elem 0 None changes p time reason Hp) as H. cbn [Nat.add] in H.
  fold (settled_screens changes) in H. fold listed in H. destruct reason; try (by apply H);
    try (intros Hin; by apply H in Hin).
  rewrite H. cbn [settled_keep]. destruct (listed_before listed p) as [q|] eqn:Eq.
  2:{ split; [|done]. intros _ q time' reason' Hq. discriminate Hq. }
  rewrite Nat.sub_0_r. destruct (changes !! q) as [[time' reason']|] eqn:Eqc; cbn [fmap option_fmap option_map fst].
  - rewrite Z.leb_le. unfold SETTLED_SCREEN_SPACING_MICROS. rewrite Forall_forall in Htyped.
    pose proof (Htyped _ (list_elem_of_lookup_2 _ _ _ Hp)) as Ht. cbn in Ht.
    pose proof (Htyped _ (list_elem_of_lookup_2 _ _ _ Eqc)) as Ht'. cbn in Ht'. split.
    + intros Hle q0 t0 r0 [= <-] Hq0. rewrite Eqc in Hq0. injection Hq0 as <- <-. ulia.
    + intros Hall. specialize (Hall q time' reason' eq_refl Eqc). ulia.
  - split; [|done]. intros _ q0 t0 r0 [= <-] Hq0. congruence.
Qed.

Lemma settled_screens_exact_witness :
  let changes := [(0, CandidateReason.FirstFrame); (4000000, CandidateReason.VisualChange);
                  (6000000, CandidateReason.MotionStart); (9000000, CandidateReason.SettledAfterMotion);
                  (13999999, CandidateReason.VisualChange); (14000000, CandidateReason.VisualChange)] in
  settled_screens changes = [0; 3; 5]%nat /\ 3%nat ∈ settled_screens changes.
Proof.
  intros changes. split; [vm_compute; reflexivity|].
  apply (proj2 (settled_screens_exact changes ltac:(repeat (constructor; [concrete|]); constructor))
           3%nat 9000000 CandidateReason.SettledAfterMotion). reflexivity.
Defined.

(** Positions spread by rounding down ascend by the average step or one
    more. *)
Lemma spread_step c b k :
  0 < b <= c -> 0 <= k ->
  c / b <= (k + 1) * c / b - k * c / b <= c / b + 1.
Proof.
  intros Hb Hk. pose proof (Z.div_mod c b ltac:(lia)). pose proof (Z.mod_pos_bound c b ltac:(lia)).
  pose proof (Z.div_mod (k * c) b ltac:(lia)). pose proof (Z.mod_pos_bound (k * c) b ltac:(lia)).
  pose proof (Z.div_mod ((k + 1) * c) b ltac:(lia)).
  pose proof (Z.mod_pos_bound ((k + 1) * c) b ltac:(lia)).
  set (x := (k + 1) * c / b) in *. set (y := k * c / b) in *. set (q := c / b) in *.
  assert (Hd : b * (x - y - q) = k * c mod b + c mod b - (k + 1) * c mod b) by lia.
  assert (-1 < x - y - q < 2) by (split; apply (Z.mul_lt_mono_pos_l b); lia). lia.
Qed.

(** The frames of a run: as many as asked for and as the session holds, spread
    evenly over the changes. The positions ascend strictly by steps that
    differ by at most one, begin with the first change and, from two frames
    on, end with the last; the frames' artifacts fit the evidence slots left. *)
Theorem frames_spread_evenly count slots :
  Z.of_nat count <= 4294967296 -> 0 <= slots ->
  let bound := Z.to_nat (frames_that_fit slots) in
  let chosen := spread_evenly count bound in
  Z.of_nat (length chosen) * EVIDENCE_ARTIFACTS_PER_FRAME <= slots
  /\ length chosen = (count `min` Z.to_nat (Z.min 180 (slots / 2)))%nat
  /\ (forall k x y, chosen !! k = Some x -> chosen !! S k = Some y ->
        exists step, 1 <= step /\ step <= y - x <= step + 1
          /\ step = if (count <=? bound)%nat then 1 else (Z.of_nat count - 1) / (Z.of_nat bound - 1))
  /\ (forall x, chosen !! 0%nat = Some x -> x = 0)
  /\ (forall x, (2 <= bound)%nat -> last chosen = Some x -> x = Z.of_nat count - 1).
Proof.
  intros Hc Hs bound chosen.
  assert (Hb : bound = Z.to_nat (Z.min 180 (slots / 2)) /\ Z.of_nat bound * 2 <= slots /\ (bound <= 180)%nat).
  { unfold bound, frames_that_fit, MAX_WATCH_FRAMES, EVIDENCE_ARTIFACTS_PER_FRAME.
    destruct (slots / 2 <? 180) eqn:E; bool_prop; divlia. }
  destruct Hb as (Hb & Hbs & Hb180). rewrite <- Hb. unfold EVIDENCE_ARTIFACTS_PER_FRAME.
  unfold chosen, spread_evenly. destruct (count <=? bound)%nat eqn:E.
  - apply Nat.leb_le in E. rewrite !length_fmap, !length_seq. split; [lia|]. split; [lia|].
    split; [|split].
    + intros k x y. rewrite !list_lookup_fmap_Some. intros (a & -> & Ha) (b & -> & Hb').
      apply lookup_seq in Ha, Hb'. exists 1. lia.
    + intros x. rewrite list_lookup_fmap_Some. intros (a & -> & Ha). apply lookup_seq in Ha. lia.
    + intros x _. rewrite last_lookup, length_fmap, length_seq, list_lookup_fmap_Some.
      intros (a & -> & Ha). apply lookup_seq in Ha. lia.
  - apply Nat.leb_gt in E. destruct bound as [|[|b]]; [cbn; repeat split; try lia; done|cbn|].
    { split; [lia|]. split; [lia|]. split; [|split; [by intros x [= <-]|lia]]. intros k x y _ Hy. done. }
    set (n := S (S b)) in *. set (c := Z.of_nat count - 1). set (d := Z.of_nat n - 1).
    assert (Hcd : 0 < d <= c) by lia.
    assert (Hw : forall k, (k < n)%nat -> wrap_u64 (Z.of_nat k * c) / d = Z.of_nat k * c / d).
    { intros k Hk. rewrite wrap_u64_id; [done|]. unfold_widths. nia. }
    rewrite !length_fmap, !length_seq. split; [lia|]. split; [lia|]. split; [|split].
    + intros k x y. rewrite !list_lookup_fmap_Some. intros (a & -> & Ha) (a' & -> & Ha').
      apply lookup_seq in Ha as [-> Ha], Ha' as [-> Ha']. rewrite !Hw by lia.
      replace (Z.of_nat (0 + S k)) with (Z.of_nat (0 + k) + 1) by lia.
      exists (c / d). pose proof (spread_step c d (Z.of_nat (0 + k)) Hcd ltac:(lia)).
      split; [|split; [lia|done]]. apply Z.div_le_lower_bound; lia.
    + intros x. rewrite list_lookup_fmap_Some. intros (a & -> & Ha).
      apply lookup_seq in Ha as [-> Ha]. rewrite Hw by lia. apply Z.div_0_l. lia.
    + intros x _. rewrite last_lookup, length_fmap, length_seq, list_lookup_fmap_Some.
      intros (a & -> & Ha). apply lookup_seq in Ha as [-> Ha]. rewrite Hw by lia.
      replace (Z.of_nat (0 + pred n)) with d by lia. rewrite Z.mul_comm. apply Z.div_mul. lia.
Qed.

Lemma frames_spread_evenly_witness :
  spread_evenly 10 (Z.to_nat (frames_that_fit 9)) = [0; 3; 6; 9]
  /\ length (spread_evenly 10 (Z.to_nat (frames_that_fit 9))) = 4%nat.
Proof.
  split; [vm_compute; reflexivity|].
  exact (proj1 (proj2 (frames_spread_evenly 10 9 ltac:(lia) ltac:(lia)))).
Defined.

(** ** Facts on names *)

(** A character the end of a name may not be. *)
Definition trimmed_char (c : ascii) : Prop := c = dot \/ c = space.

Lemma trim_end_dots_spec s :
  exists removed, s = trim_end_dots s ++ removed /\ Forall trimmed_char removed
    /\ forall c, last (trim_end_dots s) = Some c -> ~ trimmed_char c.
Proof.
  induction s as [|c s (removed & E & Hr & Hl)]; [by exists []|]. cbn [trim_end_dots].
  destruct (trim_end_dots s) as [|c' s'] eqn:Et.
  - cbn in E. subst removed. destruct ((c =? dot)%char || (c =? space)%char) eqn:Ec.
    + exists (c :: s). split; [done|]. split; [|done]. constructor; [|done].
      by apply orb_true_iff in Ec as [H%Ascii.eqb_eq|H%Ascii.eqb_eq]; [left|right].
    + exists s. split; [done|]. split; [done|]. intros c0 [= <-] [->| ->]; [done|].
      by rewrite Ascii.eqb_refl, orb_true_r in Ec.
  - exists removed. split; [cbn; by rewrite E at 1|]. split; [done|]. intros c0. by apply Hl.
Qed.

Lemma floor_char_boundary_spec s end_ :
  (floor_char_boundary s end_ <= end_)%nat /\ is_char_boundary s (floor_char_boundary s end_) = true.
Proof.
  induction end_ as [|end_ [IH1 IH2]]; cbn [floor_char_boundary].
  - destruct (is_char_boundary s 0) eqn:E; [done|]. split; [done|].
    unfold is_char_boundary. by destruct s.
  - destruct (is_char_boundary s (S end_)) eqn:E; [done|]. split; [lia|done].
Qed.

(** The stem ends where a character ends. *)
Definition cut_at_boundary (name stem : text) : Prop :=
  exists rest, name = stem ++ rest /\ match rest with c :: _ => is_continuation c = false | [] => True end.

Lemma trim_cut name stem :
  cut_at_boundary name stem -> cut_at_boundary name (trim_end_dots stem).
Proof.
  intros (rest & -> & Hr). destruct (trim_end_dots_spec stem) as (removed & E & Hrem & _).
  exists (removed ++ rest). split; [by rewrite E at 1; rewrite <- app_assoc|].
  destruct removed as [|c removed]; [done|]. apply Forall_cons in Hrem as [[->| ->] _]; reflexivity.
Qed.

Lemma boundary_cut name stem n :
  cut_at_boundary name stem -> is_char_boundary stem n = true -> (n < length stem)%nat -> (0 < n)%nat ->
  cut_at_boundary name (take n stem).
Proof.
  intros (rest & -> & _) Hb Hn Hn0. exists (drop n stem ++ rest).
  split; [by rewrite app_assoc, take_drop|]. destruct (lookup_lt_is_Some_2 stem n Hn) as [c Hc].
  rewrite (drop_S _ _ _ Hc). unfold is_char_boundary in Hb. rewrite Hc in Hb.
  apply orb_true_iff in Hb as [Hb|Hb]; [apply Nat.eqb_eq in Hb; lia|by apply negb_true_iff].
Qed.

Lemma rfind_spec c s i : rfind c s = Some i -> s !! i = Some c.
Proof.
  revert i. induction s as [|c' s IH]; intros i; cbn; [done|]. destruct (rfind c s) as [j|].
  - intros [= <-]. by apply IH.
  - destruct (c' =? c)%char eqn:E; [|done]. apply Ascii.eqb_eq in E as ->. by intros [= <-].
Qed.

(** The stem before shortening. *)
Definition name_stem (name : text) : text :=
  trim_end_dots (match rfind dot name with
                 | Some d => if (0 <? d)%nat then take d name else name
                 | None => name
                 end).

Lemma name_stem_cut name : cut_at_boundary name (name_stem name).
Proof.
  unfold name_stem. apply trim_cut. assert (Hall : cut_at_boundary name name)
    by (exists []; by rewrite app_nil_r).
  destruct (rfind dot name) as [d|] eqn:E; [|done]. destruct (0 <? d)%nat; [|done].
  apply rfind_spec in E. exists (drop d name). split; [by rewrite take_drop|].
  by rewrite (drop_S _ _ _ E).
Qed.

(** The stem after shortening. *)
Lemma shortened_stem_spec name full :
  cut_at_boundary name full -> (forall c, last full = Some c -> ~ trimmed_char c) ->
  let stem := if (194 <? length full)%nat
              then trim_end_dots (take (floor_char_boundary full 194) full) else full in
  stem <> [] ->
  cut_at_boundary name stem /\ (length stem <= 194)%nat
  /\ forall c, last stem = Some c -> ~ trimmed_char c.
Proof.
  intros Hcut Hlast stem. unfold stem. destruct (194 <? length full)%nat eqn:E.
  2:{ apply Nat.ltb_ge in E. by repeat split. }
  apply Nat.ltb_lt in E. destruct (floor_char_boundary_spec full 194) as [Hle Hb].
  set (n := floor_char_boundary full 194) in *. intros Hne.
  destruct (trim_end_dots_spec (take n full)) as (removed & Et & _ & Hl). split; [|split; [|done]].
  - apply trim_cut, boundary_cut; [done|done|lia|]. destruct n; [done|lia].
  - apply (f_equal length) in Et. rewrite length_take, length_app in Et. lia.
Qed.

(** The names of a run's outputs: refused only without Unicode or without a
    stem; else the stem is the start of the video's name up to the end of a
    character, never empty and never ending in a dot or a space, all three
    names fit the limit, and the stem is cut short exactly when the names
    would not. *)
Theorem output_names_fit file_name :
  match WatchOutputNames.from_video_name file_name with
  | Ok n =>
      exists name, file_name = Some name
      /\ cut_at_boundary name (WatchOutputNames.stem n) /\ WatchOutputNames.stem n <> []
      /\ (forall c, last (WatchOutputNames.stem n) = Some c -> ~ trimmed_char c)
      /\ Forall (fun output => (length output <= MAX_OUTPUT_NAME_BYTES)%nat)
           [WatchOutputNames.transcript n; WatchOutputNames.subtitles n; WatchOutputNames.folder n;
            WatchOutputNames.bundle n]
      /\ NoDup [WatchOutputNames.transcript n; WatchOutputNames.subtitles n; WatchOutputNames.folder n]
      /\ (WatchOutputNames.shortened n = true <-> (194 < length (name_stem name))%nat)
      /\ (WatchOutputNames.shortened n = false -> WatchOutputNames.stem n = name_stem name)
      /\ Forall (fun c => c <> colon) (WatchOutputNames.bundle n)
  | Err NotUnicode => file_name = None
  | Err Empty => exists name, file_name = Some name
      /\ (name_stem name = []
          \/ Forall trimmed_char (take (floor_char_boundary (name_stem name) 194) (name_stem name)))
  end.
Proof.
  unfold WatchOutputNames.from_video_name. destruct file_name as [name|]; [|done].
  cbn [ok_or result_bind]. fold (name_stem name). pose proof (name_stem_cut name) as Hcut.
  destruct (trim_end_dots_spec (match rfind dot name with
    | Some d => if (0 <? d)%nat then take d name else name | None => name end)) as (_ & _ & _ & Hlast).
  fold (name_stem name) in Hlast. change (MAX_OUTPUT_NAME_BYTES - length FOLDER_SUFFIX)%nat with 194%nat.
  destruct (name_stem name) as [|c0 s0] eqn:Es; [exists name; split; [done|by left]|].
  assert (Hfull : name_stem name <> []) by (by rewrite Es).
  rewrite <- Es in *. clear Es. set (full := name_stem name) in *.
  pose proof (shortened_stem_spec name full Hcut Hlast) as Hspec. cbn zeta in Hspec.
  set (stem := if (194 <? length full)%nat then _ else _) in *.
  destruct stem as [|c s] eqn:Es.
  { exists name. split; [done|]. right. fold full. unfold stem in Es.
    destruct (194 <? length full)%nat eqn:El; [|by rewrite Es in Hfull].
    destruct (trim_end_dots_spec (take (floor_char_boundary full 194) full)) as (removed & Et & Hr & _).
    rewrite Es in Et. cbn [app] in Et. by rewrite Et. }
  rewrite <- Es in *. destruct (Hspec ltac:(by rewrite Es)) as (H1 & H2 & H3).
  exists name. cbn [WatchOutputNames.stem WatchOutputNames.shortened]. split; [done|].
  split; [done|]. split; [by rewrite Es|]. split; [done|]. split; [|split; [|split; [|split]]].
  - unfold WatchOutputNames.transcript, WatchOutputNames.subtitles, WatchOutputNames.folder,
      WatchOutputNames.bundle. cbn [WatchOutputNames.stem].
    unfold MAX_OUTPUT_NAME_BYTES. rewrite !Forall_cons, Forall_nil, !length_app, length_fmap.
    change (length TRANSCRIPT_SUFFIX) with 4%nat. change (length SUBTITLES_SUFFIX) with 4%nat.
    change (length FOLDER_SUFFIX) with 6%nat. lia.
  - unfold WatchOutputNames.transcript, WatchOutputNames.subtitles, WatchOutputNames.folder.
    cbn [WatchOutputNames.stem]. repeat (apply NoDup_cons; split); [| |apply not_elem_of_nil|constructor];
      rewrite ?elem_of_cons, ?list_elem_of_singleton, elem_of_nil; intros Hin;
      repeat destruct Hin as [Hin|Hin]; try done; by apply app_inv_head in Hin.
  - apply Nat.ltb_lt.
  - unfold stem. intros Hf. by rewrite Hf.
  - unfold WatchOutputNames.bundle. cbn [WatchOutputNames.stem]. apply Forall_fmap, Forall_forall.
    intros c1 _. cbn. destruct (c1 =? colon)%char eqn:E; [done|]. by apply Ascii.eqb_neq in E.
Qed.

Lemma output_names_fit_witness :
  result_ok (WatchOutputNames.from_video_name (Some (literal "talk 10:30. .mp4")))
  = Some (WatchOutputNames.mk (literal "talk 10:30") false)
  /\ (length (WatchOutputNames.folder (WatchOutputNames.mk (literal "talk 10:30") false)) <= 200)%nat.
Proof.
  split; [vm_compute; reflexivity|].
  destruct (output_names_fit (Some (literal "talk 10:30. .mp4"))) as (name & _ & _ & _ & _ & H & _).
  vm_compute. lia.
Defined.
