(* ===== verification/AsrPlan.v ===== *)
(** * AsrPlan: how a range is cut into chunks for recognition

    Models the planning half of [crates/vsift-domain/src/asr.rs]: chunk plans,
    [plan_chunks], and [align_to_chunk_grid], which widens a window to the
    chunks of a whole run. Chunks cover their range, overlap by exactly the
    plan's overlap, and the chunks of a widened window are chunks of the whole
    run unless the window lies beyond the start of the last of them. *)

From S2P Require Import Prelude.
From S2P Require Import Timeline.
From S2P Require Import Identity.

Definition SPEECH_SAMPLE_RATE : Z := 16000.
Definition MAX_CHUNK_WINDOW_MICROS : Z := 30000000.
Definition MAX_PLANNED_CHUNKS : Z := 1024.
Definition MIN_RECOGNITION_SAMPLES : Z := 1600.
Definition MIN_RECOGNITION_MICROS : Z := 100000.
Definition MICROS_PER_SECOND : Z := 1000000.

Inductive ChunkPlanError := InvalidWindow | InvalidOverlap | TooManyChunks.

Module ChunkPlan.
Record t := mk { window_us : Z; overlap_us : Z }.

Definition R0 : t := mk 30000000 5000000.

Definition new (window_us overlap_us : Z) : result t ChunkPlanError :=
  if (window_us =? 0) || (MAX_CHUNK_WINDOW_MICROS <? window_us) then Err InvalidWindow
  else if window_us <=? saturating_u64 (overlap_us * 2) then Err InvalidOverlap
  else Ok (mk window_us overlap_us).

Definition stride_us (p : t) : Z := wrap_u64 (window_us p - overlap_us p).

(** A plan that [new] accepts. *)
Definition wf (p : t) : Prop :=
  0 < window_us p <= MAX_CHUNK_WINDOW_MICROS /\ 0 <= overlap_us p
  /\ 2 * overlap_us p < window_us p.
End ChunkPlan.

Definition align_to_chunk_grid (window : TimeRange.t) (plan : ChunkPlan.t) (source_end : MediaTime)
    : option TimeRange.t :=
  let stride := ChunkPlan.stride_us plan in
  if (source_end <=? TimeRange.start window) || (stride =? 0) then None
  else
    let first := TimeRange.start window / stride in
    let reach := Z.min (TimeRange.end_ window) source_end in
    let last := Z.max (div_ceil (saturating_u64 (reach - ChunkPlan.window_us plan)) stride) first in
    let start := saturating_u64 (first * stride) in
    let end_ := Z.min (saturating_u64 (saturating_u64 (last * stride) + ChunkPlan.window_us plan))
                  source_end in
    result_ok (TimeRange.new start end_).

Module PlannedChunk.
Record t := mk { source_segment : OpaqueId SourceSegmentId; index : Z; window : TimeRange.t }.

#[global] Instance eq_dec : EqDecision t.
Proof. solve_decision. Defined.

(** The 1-based position: never zero. *)
Definition ordinal (c : t) : Z := saturating_u32 (index c + 1).

Definition is_below_recognition_floor (c : t) : bool :=
  TimeRange.duration_micros (window c) <? MIN_RECOGNITION_MICROS.
End PlannedChunk.

(** The loop of [plan_chunks]: the chunks so far and the start of the next
    one. Each turn but the last adds a chunk, so one turn more than the most
    chunks a plan may have is fuel enough. *)
Fixpoint plan_loop (fuel : nat) (source_segment : OpaqueId SourceSegmentId) (end_ : Z)
    (plan : ChunkPlan.t) (chunks : list PlannedChunk.t) (start : Z)
    : result (list PlannedChunk.t) ChunkPlanError :=
  match fuel with
  | O => Err TooManyChunks
  | S fuel =>
      if Z.of_nat (length chunks) =? MAX_PLANNED_CHUNKS then Err TooManyChunks
      else
        let window_end := Z.min (saturating_u64 (start + ChunkPlan.window_us plan)) end_ in
        let? window := map_err (fun _ => InvalidWindow) (TimeRange.new start window_end) in
        let? index := ok_or (checked_u32 (Z.of_nat (length chunks))) TooManyChunks in
        let chunks := chunks ++ [PlannedChunk.mk source_segment index window] in
        if window_end =? end_ then Ok chunks
        else plan_loop fuel source_segment end_ plan chunks
               (saturating_u64 (start + ChunkPlan.stride_us plan))
  end.

Definition plan_chunks (source_segment : OpaqueId SourceSegmentId) (range : TimeRange.t)
    (plan : ChunkPlan.t) : result (list PlannedChunk.t) ChunkPlanError :=
  plan_loop (Z.to_nat (MAX_PLANNED_CHUNKS + 1)) source_segment (TimeRange.end_ range) plan []
    (TimeRange.start range).

(** The length of a range in samples, rounded, is none. *)
Definition rounds_to_no_pcm_sample (range : TimeRange.t) : bool :=
  saturating_u64 (TimeRange.duration_micros range * (2 * SPEECH_SAMPLE_RATE)) <? MICROS_PER_SECOND.

Definition decoded_audio_range (start : MediaTime) (samples : Z) : option TimeRange.t :=
  scaled ← checked_u64 (samples * MICROS_PER_SECOND);
  end_ ← checked_u64 (start + scaled / SPEECH_SAMPLE_RATE);
  result_ok (TimeRange.new start end_).

(** ** Specification *)

(** How many chunks a range takes. *)
Definition chunk_count (plan : ChunkPlan.t) (range : TimeRange.t) : Z :=
  1 + div_ceil (Z.max 0 (TimeRange.end_ range - TimeRange.start range - ChunkPlan.window_us plan))
        (ChunkPlan.window_us plan - ChunkPlan.overlap_us plan).

(** The window of the chunk with index [k]. *)
Definition window_at (plan : ChunkPlan.t) (range : TimeRange.t) (k : Z) : TimeRange.t :=
  let start := TimeRange.start range + k * (ChunkPlan.window_us plan - ChunkPlan.overlap_us plan) in
  TimeRange.mk start (Z.min (start + ChunkPlan.window_us plan) (TimeRange.end_ range)).

Definition chunk_at (seg : OpaqueId SourceSegmentId) (plan : ChunkPlan.t) (range : TimeRange.t) (k : Z)
    : PlannedChunk.t :=
  PlannedChunk.mk seg k (window_at plan range k).

(** ** The plan of a range *)

Section Plan.
Context (seg : OpaqueId SourceSegmentId) (plan : ChunkPlan.t) (range : TimeRange.t).
Context (Hplan : ChunkPlan.wf plan) (Hrange : TimeRange.wf range).

Let window := ChunkPlan.window_us plan.
Let stride := ChunkPlan.window_us plan - ChunkPlan.overlap_us plan.
Let start := TimeRange.start range.
Let stop := TimeRange.end_ range.
Let count := chunk_count plan range.

Lemma plan_facts : 0 < window <= 30000000 /\ 0 < stride <= window /\ window < 2 * stride
  /\ 0 <= start < stop /\ stop <= U64_MAX.
Proof.
  destruct Hplan as (Hw & Ho & H2), Hrange as (Hs & He & Hse).
  unfold MAX_CHUNK_WINDOW_MICROS in Hw. fold window in Hw, H2. fold start stop in Hs, He, Hse |- *.
  unfold stride. fold window. ulia.
Qed.

Lemma stride_exact : ChunkPlan.stride_us plan = stride.
Proof.
  pose proof plan_facts. unfold ChunkPlan.stride_us. apply wrap_u64_id. fold stride. ulia.
Qed.

Lemma count_pos : 1 <= count.
Proof.
  pose proof plan_facts. unfold count, chunk_count. fold start stop stride window.
  assert (0 <= div_ceil (Z.max 0 (stop - start - window)) stride); [|lia].
  destruct (Z.le_gt_cases 0 (div_ceil (Z.max 0 (stop - start - window)) stride)) as [|Hn]; [done|].
  assert (Hle : div_ceil (Z.max 0 (stop - start - window)) stride <= -1) by lia.
  apply div_ceil_spec in Hle; lia.
Qed.

(** The chunk [k] is the last exactly when its full window reaches the end. *)
Lemma last_chunk k : 0 <= k -> count - 1 <= k <-> stop <= start + k * stride + window.
Proof.
  pose proof plan_facts. intros Hk. unfold count, chunk_count. fold start stop stride window.
  replace (1 + _ - 1) with (div_ceil (Z.max 0 (stop - start - window)) stride) by lia.
  rewrite div_ceil_spec by lia. nia.
Qed.

(** A chunk after the first starts more than the overlap before the end. *)
Lemma chunk_start k :
  1 <= k < count -> start + k * stride < stop - ChunkPlan.overlap_us plan.
Proof.
  intros Hk. pose proof plan_facts. assert (~ count - 1 <= k - 1) as Hlast by lia.
  rewrite last_chunk in Hlast by lia. unfold stride, window in *. lia.
Qed.

Lemma chunk_in_range k : 0 <= k < count -> start <= start + k * stride < stop.
Proof.
  intros Hk. pose proof plan_facts. destruct Hplan as (_ & Ho & _).
  destruct (decide (k = 0)) as [->|]; [lia|]. pose proof (chunk_start k ltac:(lia)). nia.
Qed.

(** One turn of the loop. *)
Lemma plan_turn k :
  0 <= k < count ->
  let s := start + k * stride in
  Z.min (saturating_u64 (s + window)) stop = TimeRange.end_ (window_at plan range k)
  /\ TimeRange.new s (TimeRange.end_ (window_at plan range k)) = Ok (window_at plan range k)
  /\ (TimeRange.end_ (window_at plan range k) =? stop) = (count - 1 <=? k)
  /\ (k < count - 1 -> saturating_u64 (s + stride) = start + (k + 1) * stride).
Proof.
  intros Hk s. pose proof plan_facts. pose proof (chunk_in_range k Hk) as Hin. fold s in Hin.
  unfold window_at. cbn [TimeRange.end_]. fold start stop stride window. fold s.
  split; [ulia|]. split; [|split].
  - unfold TimeRange.new. by rewrite (proj2 (Z.leb_gt _ _)) by lia.
  - apply eq_true_iff_eq. rewrite Z.eqb_eq, Z.leb_le, last_chunk by lia. fold s. lia.
  - intros Hlt. pose proof (chunk_in_range (k + 1) ltac:(lia)). unfold s. ulia.
Qed.

(** The loop, from the chunk [k] on. *)
Lemma plan_loop_spec fuel k :
  Z.of_nat fuel + k = MAX_PLANNED_CHUNKS + 1 -> 0 <= k < count ->
  plan_loop fuel seg stop plan (chunk_at seg plan range <$> seqZ 0 k) (start + k * stride)
  = if count <=? MAX_PLANNED_CHUNKS then Ok (chunk_at seg plan range <$> seqZ 0 count)
    else Err TooManyChunks.
Proof.
  revert k. induction fuel as [|fuel IH]; intros k Hf Hk.
  { rewrite (proj2 (Z.leb_gt _ _)) by lia. done. }
  cbn [plan_loop]. rewrite length_fmap, length_seqZ, Z2Nat.id by lia.
  destruct (k =? MAX_PLANNED_CHUNKS) eqn:E; bool_prop.
  { by rewrite (proj2 (Z.leb_gt _ _)) by lia. }
  destruct (plan_turn k Hk) as (H1 & H2 & H3 & H4). cbn zeta in H1, H2, H3, H4.
  fold window. rewrite H1, H2. cbn [map_err result_bind]. unfold MAX_PLANNED_CHUNKS in *.
  unfold checked_u32. rewrite checked_in by ulia. cbn [ok_or result_bind]. rewrite H3.
  assert (Hsnoc : (chunk_at seg plan range <$> seqZ 0 k)
                  ++ [PlannedChunk.mk seg k (window_at plan range k)]
                  = chunk_at seg plan range <$> seqZ 0 (k + 1)).
  { rewrite seqZ_app, fmap_app by lia. f_equal. }
  rewrite Hsnoc. destruct (count - 1 <=? k) eqn:El; bool_prop.
  - assert (Hc : count = k + 1) by lia. rewrite Hc. rewrite (proj2 (Z.leb_le _ _)) by lia. done.
  - rewrite stride_exact, H4 by lia. apply IH; lia.
Qed.

Lemma plan_chunks_spec :
  plan_chunks seg range plan
  = if count <=? MAX_PLANNED_CHUNKS then Ok (chunk_at seg plan range <$> seqZ 0 count)
    else Err TooManyChunks.
Proof.
  pose proof count_pos. unfold plan_chunks. fold start stop.
  replace start with (start + 0 * stride) at 1 by lia.
  apply (plan_loop_spec (Z.to_nat (MAX_PLANNED_CHUNKS + 1)) 0); [unfold MAX_PLANNED_CHUNKS; lia|lia].
Qed.
End Plan.

(** What it means that chunks cut a range up: they are numbered, cover every
    instant, each but the last is a whole window, and neighbours overlap by
    exactly the overlap of the plan. *)
Definition cuts (seg : OpaqueId SourceSegmentId) (plan : ChunkPlan.t) (range : TimeRange.t)
    (chunks : list PlannedChunk.t) : Prop :=
  (forall k c, chunks !! k = Some c ->
     PlannedChunk.index c = Z.of_nat k /\ PlannedChunk.source_segment c = seg
     /\ TimeRange.wf (PlannedChunk.window c)
     /\ TimeRange.start range <= TimeRange.start (PlannedChunk.window c)
     /\ TimeRange.end_ (PlannedChunk.window c) <= TimeRange.end_ range
     /\ ((0 < k)%nat -> ChunkPlan.overlap_us plan
           < TimeRange.end_ (PlannedChunk.window c) - TimeRange.start (PlannedChunk.window c)))
  /\ (forall k c c', chunks !! k = Some c -> chunks !! S k = Some c' ->
        TimeRange.end_ (PlannedChunk.window c) - TimeRange.start (PlannedChunk.window c)
          = ChunkPlan.window_us plan
        /\ TimeRange.end_ (PlannedChunk.window c) - TimeRange.start (PlannedChunk.window c')
           = ChunkPlan.overlap_us plan)
  /\ (forall c, chunks !! 0%nat = Some c ->
        TimeRange.start (PlannedChunk.window c) = TimeRange.start range)
  /\ (forall c, last chunks = Some c ->
        TimeRange.end_ (PlannedChunk.window c) = TimeRange.end_ range)
  /\ (forall t, TimeRange.start range <= t < TimeRange.end_ range ->
        Exists (fun c => TimeRange.start (PlannedChunk.window c) <= t
                         < TimeRange.end_ (PlannedChunk.window c)) chunks).

Lemma chunks_lookup seg plan range n (k : nat) c :
  (chunk_at seg plan range <$> seqZ 0 n) !! k = Some c <->
  Z.of_nat k < n /\ c = chunk_at seg plan range (Z.of_nat k).
Proof.
  rewrite list_lookup_fmap_Some. setoid_rewrite lookup_seqZ. split.
  - intros (j & -> & -> & Hk). split; [lia|]. done.
  - intros [Hk ->]. exists (Z.of_nat k). split; [done|]. lia.
Qed.

Lemma chunks_cut seg plan range :
  ChunkPlan.wf plan -> TimeRange.wf range ->
  cuts seg plan range (chunk_at seg plan range <$> seqZ 0 (chunk_count plan range)).
Proof.
  intros Hp Hr. pose proof (plan_facts plan range Hp Hr) as Hf. pose proof (count_pos plan range Hp Hr) as Hc.
  set (n := chunk_count plan range) in *. pose proof (last_chunk plan range Hp Hr) as Hlast. fold n in Hlast.
  pose proof (chunk_in_range plan range Hp Hr) as Hin. pose proof (chunk_start plan range Hp Hr) as Hst.
  fold n in Hin, Hst. cbn zeta in *. destruct Hp as (_ & Ho & _). split; [|split; [|split; [|split]]].
  - intros k c [Hk ->]%chunks_lookup. specialize (Hin (Z.of_nat k) ltac:(lia)). cbn.
    split; [done|]. split; [done|]. split; [unfold TimeRange.wf; cbn; ulia|]. split; [lia|].
    split; [lia|]. intros Hk0. specialize (Hst (Z.of_nat k) ltac:(lia)). lia.
  - intros k c c' [Hk ->]%chunks_lookup [Hk' ->]%chunks_lookup. cbn.
    assert (Hno : ~ n - 1 <= Z.of_nat k) by lia. rewrite Hlast in Hno by lia. lia.
  - intros c [_ ->]%chunks_lookup. cbn. lia.
  - intros c. rewrite last_lookup, length_fmap, length_seqZ. intros [Hk ->]%chunks_lookup. cbn.
    assert (Hl : n - 1 <= Z.of_nat (pred (Z.to_nat n))) by lia. apply Hlast in Hl; [|lia]. lia.
  - intros t Ht. set (stride := ChunkPlan.window_us plan - ChunkPlan.overlap_us plan) in *.
    set (j := (t - TimeRange.start range) / stride).
    assert (Hj : 0 <= j /\ j * stride <= t - TimeRange.start range < (j + 1) * stride).
    { pose proof (Z.div_mod (t - TimeRange.start range) stride ltac:(lia)) as Hdm.
      pose proof (Z.mod_pos_bound (t - TimeRange.start range) stride ltac:(lia)).
      split; [apply Z.div_pos; lia|]. fold j in Hdm. lia. }
    set (k := Z.min (n - 1) j). apply Exists_exists. exists (chunk_at seg plan range k). split.
    { apply list_elem_of_fmap. exists k. split; [done|]. apply elem_of_seqZ. lia. }
    cbn. fold stride. destruct (decide (j <= n - 1)) as [Hle|Hgt].
    + assert (k = j) as -> by lia. nia.
    + assert (k = n - 1) as -> by lia. assert (Hl : n - 1 <= n - 1) by lia.
      apply Hlast in Hl; [|lia]. nia.
Qed.

(** Planning always answers: a range that takes more than 1024 chunks is
    refused, and any other is cut into numbered chunks that cover each instant
    of it, all whole windows but the last, neighbours overlapping by exactly
    the plan's overlap and every chunk after the first longer than that; the
    plan of a range is always the same. *)
Theorem plan_chunks_cover seg range plan :
  ChunkPlan.wf plan -> TimeRange.wf range ->
  (chunk_count plan range <= 1024 ->
     exists chunks, plan_chunks seg range plan = Ok chunks
       /\ Z.of_nat (length chunks) = chunk_count plan range /\ cuts seg plan range chunks)
  /\ (1024 < chunk_count plan range -> plan_chunks seg range plan = Err TooManyChunks).
Proof.
  intros Hp Hr. rewrite (plan_chunks_spec seg plan range Hp Hr). unfold MAX_PLANNED_CHUNKS.
  pose proof (count_pos plan range Hp Hr). split; intros Hc.
  - rewrite (proj2 (Z.leb_le _ _)) by done. eexists. split; [done|].
    split; [rewrite length_fmap, length_seqZ; lia|by apply chunks_cut].
  - by rewrite (proj2 (Z.leb_gt _ _)) by done.
Qed.

Lemma plan_chunks_cover_witness :
  chunk_count ChunkPlan.R0 (TimeRange.mk 0 61000000) = 3
  /\ exists chunks, plan_chunks (mkOpaqueId []) (TimeRange.mk 0 61000000) ChunkPlan.R0 = Ok chunks
       /\ PlannedChunk.window <$> chunks
          = [TimeRange.mk 0 30000000; TimeRange.mk 25000000 55000000; TimeRange.mk 50000000 61000000]
       /\ cuts (mkOpaqueId []) ChunkPlan.R0 (TimeRange.mk 0 61000000) chunks.
Proof.
  split; [vm_compute; reflexivity|].
  destruct (plan_chunks_cover (mkOpaqueId []) (TimeRange.mk 0 61000000) ChunkPlan.R0) as [H _];
    [concrete|concrete|].
  destruct H as (chunks & Hc & _ & Hcut); [concrete|]. exists chunks. split; [done|]. split; [|done].
  assert (E : Ok chunks = plan_chunks (mkOpaqueId []) (TimeRange.mk 0 61000000) ChunkPlan.R0)
    by (by rewrite Hc). vm_compute in E. by injection E as ->.
Defined.

(** ** Windows on the chunk grid *)

(** The aligned range, in exact arithmetic. *)
Lemma saturating_u64_id x : 0 <= x <= U64_MAX -> saturating_u64 x = x.
Proof. unfold saturating_u64. lia. Qed.

Lemma saturating_u64_min x b : 0 <= x -> b <= U64_MAX -> Z.min (saturating_u64 x) b = Z.min x b.
Proof. unfold saturating_u64. lia. Qed.

Lemma align_spec window plan source_end :
  ChunkPlan.wf plan -> TimeRange.wf window -> is_u64 source_end ->
  let stride := ChunkPlan.window_us plan - ChunkPlan.overlap_us plan in
  let first := TimeRange.start window / stride in
  match align_to_chunk_grid window plan source_end with
  | None => source_end <= TimeRange.start window
  | Some r =>
      TimeRange.start window < source_end
      /\ exists last, first <= last
         /\ (last = first \/ (last - 1) * stride + ChunkPlan.window_us plan
                             < Z.min (TimeRange.end_ window) source_end)
         /\ Z.min (TimeRange.end_ window) source_end <= last * stride + ChunkPlan.window_us plan
         /\ r = TimeRange.mk (first * stride)
                  (Z.min (last * stride + ChunkPlan.window_us plan) source_end)
         /\ TimeRange.wf r
  end.
Proof.
  intros Hp Hw Hs stride first. destruct (plan_facts plan window Hp Hw) as (Hwin & Hstride & H2 & Hst & Hend).
  unfold align_to_chunk_grid. rewrite (stride_exact plan window Hp Hw). fold stride in Hstride, H2 |- *.
  destruct (_ || _) eqn:E; bool_prop; [lia|]. cbn zeta. fold first.
  set (reach := Z.min (TimeRange.end_ window) source_end).
  set (w := ChunkPlan.window_us plan) in *.
  set (needed := div_ceil (saturating_u64 (reach - w)) stride).
  assert (Hsat : saturating_u64 (reach - w) = Z.max 0 (reach - w)) by (unfold reach; ulia).
  assert (Hfirst : 0 <= first /\ first * stride <= TimeRange.start window < (first + 1) * stride).
  { pose proof (Z.div_mod (TimeRange.start window) stride ltac:(lia)) as Hdm.
    pose proof (Z.mod_pos_bound (TimeRange.start window) stride ltac:(lia)).
    fold first in Hdm. split; [apply Z.div_pos; lia|lia]. }
  assert (Hneeded : forall k, needed <= k <-> Z.max 0 (reach - w) <= k * stride)
    by (intros k; unfold needed; rewrite Hsat; apply div_ceil_spec; lia).
  set (last := Z.max needed first).
  assert (Hlast : last = first \/ (last - 1) * stride + w < reach).
  { destruct (decide (needed <= first)) as [Hle|Hgt]; [left; lia|right].
    assert (Hn : ~ needed <= last - 1) by lia. rewrite Hneeded in Hn. unfold last in *. nia. }
  assert (Hreach : reach <= last * stride + w).
  { assert (Hn : needed <= last) by lia. rewrite Hneeded in Hn. lia. }
  assert (Hls : 0 <= first * stride <= last * stride).
  { split; [nia|]. apply Z.mul_le_mono_nonneg_r; lia. }
  assert (Hru : reach <= U64_MAX) by (unfold reach; ulia).
  assert (Hwu : TimeRange.start window <= U64_MAX) by ulia.
  assert (Hlu : last * stride <= U64_MAX) by (destruct Hlast as [El|Hl]; [rewrite El|]; lia).
  assert (E1 : saturating_u64 (first * stride) = first * stride) by ulia.
  assert (E2 : Z.min (saturating_u64 (saturating_u64 (last * stride) + w)) source_end
               = Z.min (last * stride + w) source_end).
  { rewrite saturating_u64_min by ulia. rewrite saturating_u64_id by lia. done. }
  rewrite E1, E2. unfold TimeRange.new. rewrite (proj2 (Z.leb_gt _ _)) by lia. cbn [result_ok].
  split; [lia|]. exists last. split; [lia|]. split; [done|]. split; [done|]. split; [done|].
  clear Hsat Hneeded Hlast E1 E2 Hru. split; [|split].
  - cbn. split; lia.
  - cbn. destruct Hs. split; [apply Z.min_glb; lia|]. by eapply Z.le_trans; [apply Z.le_min_r|].
  - cbn. apply Z.min_glb_lt; [|lia]. apply Z.lt_le_trans with reach; [unfold reach; destruct Hw as (_ & _ & ?); lia|done].
Qed.

(** A window put on the chunk grid of a whole run covers what it asks for of
    the source. When it starts no later than the last chunk of the whole run
    does, every chunk planned for it has the window of a chunk of the whole
    run; when it starts later, in the last stretch that no chunk of the run
    starts in, none has. Claim C34. *)
Theorem aligned_window_shares_chunks seg window plan source_end :
  ChunkPlan.wf plan -> TimeRange.wf window -> is_u64 source_end -> 0 < source_end ->
  match align_to_chunk_grid window plan source_end with
  | None => source_end <= TimeRange.start window
  | Some r =>
      TimeRange.wf r
      /\ TimeRange.start r <= TimeRange.start window
      /\ Z.min (TimeRange.end_ window) source_end <= TimeRange.end_ r <= source_end
      /\ forall whole own final,
           plan_chunks seg (TimeRange.mk 0 source_end) plan = Ok whole ->
           plan_chunks seg r plan = Ok own -> last whole = Some final ->
           (TimeRange.start r <= TimeRange.start (PlannedChunk.window final) ->
              forall c, c ∈ own -> exists c', c' ∈ whole /\ PlannedChunk.window c' = PlannedChunk.window c)
           /\ (TimeRange.start (PlannedChunk.window final) < TimeRange.start r ->
              forall c c', c ∈ own -> c' ∈ whole -> PlannedChunk.window c' <> PlannedChunk.window c)
  end.
Proof.
  intros Hp Hw Hs Hpos. pose proof (align_spec window plan source_end Hp Hw Hs) as H. cbn zeta in H.
  destruct (align_to_chunk_grid window plan source_end) as [r|]; [|done].
  destruct H as (Hlt & last & Hle & Hlast & Hreach & -> & Hwf).
  destruct (plan_facts plan window Hp Hw) as (Hwin & Hstride & H2 & Hst & Hend).
  set (stride := ChunkPlan.window_us plan - ChunkPlan.overlap_us plan) in *.
  set (w := ChunkPlan.window_us plan) in *. set (first := TimeRange.start window / stride) in *.
  split; [done|]. cbn [TimeRange.start TimeRange.end_]. split; [|split; [lia|]].
  { pose proof (Z.mul_div_le (TimeRange.start window) stride ltac:(lia)). fold first in H. lia. }
  set (r := TimeRange.mk _ _) in *. set (range := TimeRange.mk 0 source_end).
  assert (Hrange : TimeRange.wf range) by (unfold range, TimeRange.wf; cbn; ulia).
  intros whole own final. rewrite (plan_chunks_spec seg plan range Hp Hrange), (plan_chunks_spec seg plan r Hp Hwf).
  destruct (chunk_count plan range <=? _); [intros [= <-]|done].
  destruct (chunk_count plan r <=? _); [intros [= <-]|done].
  pose proof (count_pos plan range Hp Hrange) as Hcw. pose proof (count_pos plan r Hp Hwf) as Hco.
  pose proof (last_chunk plan range Hp Hrange) as Hlw. pose proof (last_chunk plan r Hp Hwf) as Hlo.
  cbn zeta in Hlw, Hlo. fold stride w in Hlw, Hlo.
  rewrite last_lookup, length_fmap, length_seqZ. intros [Hk ->]%chunks_lookup.
  set (nw := chunk_count plan range) in *. set (no := chunk_count plan r) in *.
  replace (Z.of_nat (pred (Z.to_nat nw))) with (nw - 1) by lia. cbn. fold stride.
  assert (Hfirst : 0 <= first) by (apply Z.div_pos; lia).
  split; intros Hfinal.
  - intros c (k & -> & Hkr)%list_elem_of_fmap. apply elem_of_seqZ in Hkr.
    assert (Hf : first <= nw - 1) by nia.
    assert (Hk1 : first + k <= last /\ first + k <= nw - 1).
    { destruct (decide (k = 0)) as [->|]; [lia|].
      assert (Hno : ~ no - 1 <= k - 1) by lia. rewrite Hlo in Hno by lia. cbn in Hno.
      assert (Hend1 : (first + k - 1) * stride < last * stride) by lia.
      assert (Hnw : ~ nw - 1 <= first + k - 1) by (rewrite Hlw by lia; cbn; lia).
      apply Z.mul_lt_mono_pos_r in Hend1; lia. }
    exists (chunk_at seg plan range (first + k)). split.
    { apply list_elem_of_fmap. exists (first + k). split; [done|]. apply elem_of_seqZ. lia. }
    cbn. unfold window_at. fold stride w. cbn.
    assert ((first + k) * stride <= last * stride) by (apply Z.mul_le_mono_nonneg_r; lia).
    f_equal; lia.
  - intros c c' (k & -> & Hkr)%list_elem_of_fmap (j & -> & Hj)%list_elem_of_fmap.
    apply elem_of_seqZ in Hkr, Hj. cbn. fold stride. intros [= E _]. nia.
Qed.

(** A source of 3601 seconds: the window of its last 31 seconds shares the two
    last chunks of the whole run; the window of the last second, which starts
    after the last chunk does, is cut into a chunk the whole run does not
    have. *)
Lemma aligned_window_shares_chunks_witness :
  let source_end := 3601000000 in
  let seg := mkOpaqueId [] in
  align_to_chunk_grid (TimeRange.mk 3570000000 3601000000) ChunkPlan.R0 source_end
  = Some (TimeRange.mk 3550000000 3601000000)
  /\ (exists r, align_to_chunk_grid (TimeRange.mk 3600000000 3601000000) ChunkPlan.R0 source_end = Some r
        /\ forall whole own final,
             plan_chunks seg (TimeRange.mk 0 source_end) ChunkPlan.R0 = Ok whole ->
             plan_chunks seg r ChunkPlan.R0 = Ok own -> last whole = Some final ->
             TimeRange.start (PlannedChunk.window final) < TimeRange.start r ->
             forall c c', c ∈ own -> c' ∈ whole -> PlannedChunk.window c' <> PlannedChunk.window c)
  /\ PlannedChunk.window <$> default [] (result_ok (plan_chunks seg (TimeRange.mk 3600000000 source_end)
                                                     ChunkPlan.R0))
     = [TimeRange.mk 3600000000 3601000000]
  /\ PlannedChunk.window <$> last (default [] (result_ok (plan_chunks seg (TimeRange.mk 0 source_end)
                                                           ChunkPlan.R0)))
     = Some (TimeRange.mk 3575000000 3601000000).
Proof.
  intros source_end seg. split; [vm_compute; reflexivity|].
  split; [|split; vm_compute; reflexivity].
  exists (TimeRange.mk 3600000000 3601000000). split; [vm_compute; reflexivity|].
  pose proof (aligned_window_shares_chunks seg (TimeRange.mk 3600000000 3601000000) ChunkPlan.R0
                source_end ltac:(concrete) ltac:(concrete) ltac:(concrete) ltac:(concrete)) as H.
  assert (E : align_to_chunk_grid (TimeRange.mk 3600000000 3601000000) ChunkPlan.R0 source_end
              = Some (TimeRange.mk 3600000000 3601000000)) by (vm_compute; reflexivity).
  rewrite E in H. destruct H as (_ & _ & _ & H). intros whole own final Hw Ho Hf Hlt.
  exact (proj2 (H whole own final Hw Ho Hf) Hlt).
Defined.
