(* ===== verification/AsrRun.v ===== *)
(** * AsrRun: what a recognition run read, and the earlier text it keeps

    Models, of [crates/vsift-domain/src/asr.rs], the outcomes of chunks, the
    validated run, its unread gaps, the rule that decides which earlier text a
    retranscription keeps, and the verdicts on audio and answers; and of
    [transcript.rs] the source segment and the error type they use. *)

From S2P Require Import Prelude.
From S2P Require Import Text.
From S2P Require Import Timeline.
From S2P Require Import Spans.
From S2P Require Import Identity.
From S2P Require Import AsrPlan.

(** ** Source segments *)

Inductive TranscriptRevisionError :=
| Empty | TooManySegments | OrdinalGap | OutOfOrder | OutsideSourceSegment | AlignmentMismatch
| ManufacturedConfidence | UnsupportedSpeaker | DuplicateSegment | EmptySourceSegment
| InvalidSidecar | InvalidWarning | InvalidIdentity | OriginMismatch | InvalidSupersession
| InvalidAsrRun | InvalidCarriedSegment | InvalidGrowth.

Inductive SourceSegmentState := Closed.

Module SourceSegment.
Record t := mk {
  id : OpaqueId SourceSegmentId;
  index : Z;
  range : TimeRange.t;
  state : SourceSegmentState
}.

Definition whole_file (id : OpaqueId SourceSegmentId) (duration : MediaTime)
    : result t TranscriptRevisionError :=
  let? range := map_err (fun _ => EmptySourceSegment) (TimeRange.new 0 duration) in
  Ok (mk id 0 range Closed).
End SourceSegment.

(** ** What ran *)

Module Sha256Hex.
Record t := mk { as_str : text }.

(** The error type has one value. *)
Definition parse (value : text) : result t unit :=
  if negb (length value =? 64)%nat
     || negb (forallb (fun byte => is_ascii_digit byte || is_hex_letter byte) value)
  then Err tt
  else Ok (mk value).
End Sha256Hex.

Inductive AsrProvider := WhisperCpp.

Module AsrProviderBuild.
Record t := mk { provider : AsrProvider; executable_sha256 : Sha256Hex.t }.
End AsrProviderBuild.

Inductive ReviewedAsrModel := ReviewedBase | ReviewedBaseQ5_1.

Inductive AsrModelProfile := Base | BaseQ5_1 | Unreviewed.

Definition reviewed (p : AsrModelProfile) : option ReviewedAsrModel :=
  match p with
  | Base => Some ReviewedBase
  | BaseQ5_1 => Some ReviewedBaseQ5_1
  | Unreviewed => None
  end.

Definition reviewed_profile (m : ReviewedAsrModel) : AsrModelProfile :=
  match m with ReviewedBase => Base | ReviewedBaseQ5_1 => BaseQ5_1 end.

Definition ReviewedAsrModel_ALL : list ReviewedAsrModel := [ReviewedBase; ReviewedBaseQ5_1].

Definition provider_identifier (p : AsrProvider) : text :=
  match p with WhisperCpp => literal "whisper_cpp" end.

Definition profile_identifier (p : AsrModelProfile) : text :=
  match p with
  | Base => literal "base"
  | BaseQ5_1 => literal "base_q5_1"
  | Unreviewed => literal "unreviewed"
  end.

Definition reviewed_identifier (m : ReviewedAsrModel) : text := profile_identifier (reviewed_profile m).

Module AsrModel.
Record t := mk { profile : AsrModelProfile; sha256 : Sha256Hex.t }.
End AsrModel.

Inductive AsrDecodingProfile := R0V1.

Definition decoding_identifier (p : AsrDecodingProfile) : text := match p with R0V1 => literal "r0-v1" end.

(** ** Chunks of a run *)

Inductive AsrChunkOutcome :=
| Transcribed (audio : TimeRange.t)
| Silent (audio : TimeRange.t)
| NoAudio
| Unusable (audio : TimeRange.t)
| Pending
| NotReached.

Definition left_unread (o : AsrChunkOutcome) : bool :=
  match o with Unusable _ | NotReached => true | _ => false end.

Module AsrChunkRecord.
Record t := mk { chunk : PlannedChunk.t; outcome : AsrChunkOutcome }.
End AsrChunkRecord.

Module AsrRunParts.
Record t := mk {
  provider : AsrProviderBuild.t;
  model : AsrModel.t;
  decoding : AsrDecodingProfile;
  plan : ChunkPlan.t;
  threads : Z;
  audio_stream : Z;
  chunks : list AsrChunkRecord.t
}.
End AsrRunParts.

Module AsrRun.
Record t := mk {
  provider : AsrProviderBuild.t;
  model : AsrModel.t;
  decoding : AsrDecodingProfile;
  plan : ChunkPlan.t;
  threads : Z;
  audio_stream : Z;
  chunks : list AsrChunkRecord.t
}.

Definition window_of (r : AsrChunkRecord.t) : TimeRange.t :=
  PlannedChunk.window (AsrChunkRecord.chunk r).

Definition new (parts : AsrRunParts.t) : result t TranscriptRevisionError :=
  let chunks := AsrRunParts.chunks parts in
  match head chunks, last chunks with
  | Some first, Some final =>
      let? covered := map_err (fun _ => InvalidAsrRun)
                        (TimeRange.new (TimeRange.start (window_of first))
                           (TimeRange.end_ (window_of final))) in
      let? expected := map_err (fun _ => InvalidAsrRun)
                         (plan_chunks (PlannedChunk.source_segment (AsrChunkRecord.chunk first)) covered
                            (AsrRunParts.plan parts)) in
      if negb (length expected =? length chunks)%nat
         || existsb (fun p : PlannedChunk.t * AsrChunkRecord.t =>
              negb (bool_decide (p.1 = AsrChunkRecord.chunk p.2))) (zip expected chunks)
      then Err InvalidAsrRun
      else Ok (mk (AsrRunParts.provider parts) (AsrRunParts.model parts) (AsrRunParts.decoding parts)
                 (AsrRunParts.plan parts) (AsrRunParts.threads parts) (AsrRunParts.audio_stream parts)
                 chunks)
  | _, _ => Err InvalidAsrRun
  end.

Definition covered_range (r : t) : option TimeRange.t :=
  first ← head (chunks r);
  final ← last (chunks r);
  result_ok (TimeRange.new (TimeRange.start (window_of first)) (TimeRange.end_ (window_of final))).

(** Whether the run read the window of a chunk. *)
Definition was_read (o : AsrChunkOutcome) : bool :=
  match o with Transcribed _ | Silent _ | NoAudio => true | _ => false end.

Definition unusable_gaps (r : t) : list TimeRange.t :=
  let covered := (fun c => span (window_of c))
                   <$> filter (fun c => was_read (AsrChunkRecord.outcome c) = true) (chunks r) in
  let unusable := (fun c => span (window_of c))
                    <$> filter (fun c => left_unread (AsrChunkRecord.outcome c) = true) (chunks r) in
  to_ranges (subtract (merged unusable) (merged covered)).

Definition validate_within (r : t) (source : SourceSegment.t) : result unit TranscriptRevisionError :=
  let? covered := ok_or (covered_range r) InvalidAsrRun in
  if existsb (fun c => negb (bool_decide (PlannedChunk.source_segment (AsrChunkRecord.chunk c)
                                          = SourceSegment.id source))) (chunks r)
     || (TimeRange.start covered <? TimeRange.start (SourceSegment.range source))
     || (TimeRange.end_ (SourceSegment.range source) <? TimeRange.end_ covered)
  then Err InvalidAsrRun
  else Ok tt.
End AsrRun.

(** ** Earlier text *)

Module EarlierTextRule.
Record t := mk {
  replaced : Span;
  gaps : list Span;
  written : list Span;
  unread_from : option Z
}.

Definition new (replaced : TimeRange.t) (run : AsrRun.t) (written : list TimeRange.t) : t :=
  mk (span replaced) (span <$> AsrRun.unusable_gaps run) (merged (span <$> written)) None.

Definition stopped_at (self : t) (stopped_at : MediaTime) : t :=
  mk (replaced self) (gaps self) (written self) (Some stopped_at).

Definition carries (self : t) (earlier : TimeRange.t) : bool :=
  let candidate := span earlier in
  if negb (overlaps_any [replaced self] candidate) then true
  else
    let unread := overlaps_any (gaps self) candidate
                  || match unread_from self with
                     | Some stopped_at => stopped_at <=? candidate.1
                     | None => false
                     end in
    ((replaced self).1 <=? candidate.1) && (candidate.2 <=? (replaced self).2) && unread
    && negb (overlaps_any (written self) candidate).
End EarlierTextRule.

(** ** Verdicts *)

Definition REJECTED_SEGMENT_SHARE_DENOMINATOR : Z := 4.
Definition MIN_SEGMENTS_FOR_REJECTION_RATIO : Z := 4.
Definition UNUSABLE_CHUNK_SHARE_DENOMINATOR : Z := 2.

Definition rejections_make_chunk_unusable (considered rejected : Z) : bool :=
  if considered =? 0 then false
  else if rejected =? considered then true
  else if considered <? MIN_SEGMENTS_FOR_REJECTION_RATIO then 1 <? rejected
  else considered <? saturating_u32 (rejected * REJECTED_SEGMENT_SHARE_DENOMINATOR).

Definition unusable_chunks_end_the_run (unusable answered : Z) : bool :=
  answered <? saturating_u32 (unusable * UNUSABLE_CHUNK_SHARE_DENOMINATOR).

Definition is_below_recognition_floor (samples : list Z) : bool :=
  Z.of_nat (length samples) <? MIN_RECOGNITION_SAMPLES.

(** ** Specification *)

(** Every window of the run was made by [TimeRange::new]. *)
Definition windows_wf (chunks : list AsrChunkRecord.t) : Prop :=
  Forall (fun c => TimeRange.wf (AsrRun.window_of c)) chunks.

(** An instant the run was meant to read and did not: in the window of a chunk
    left unread and of none that was read. *)
Definition unread (run : AsrRun.t) (x : Z) : Prop :=
  Exists (fun c => left_unread (AsrChunkRecord.outcome c) = true /\ in_span (span (AsrRun.window_of c)) x)
    (AsrRun.chunks run)
  /\ Forall (fun c => AsrRun.was_read (AsrChunkRecord.outcome c) = true ->
                      ~ in_span (span (AsrRun.window_of c)) x) (AsrRun.chunks run).

(** ** Spans of ranges *)

Lemma spans_of_ranges lo l : -1 <= lo -> canon lo l -> span <$> to_ranges l = l.
Proof.
  revert lo. induction l as [|s l IH]; intros lo Hlo; [done|]. intros (H1 & H2 & H3).
  unfold to_ranges, to_range, TimeRange.new. cbn [omap list_omap].
  rewrite (proj2 (Z.leb_gt _ _)) by lia. cbn [result_ok fmap list_fmap]. f_equal; [by destruct s|].
  apply (IH s.2); [lia|done].
Qed.

Lemma merged_ranges (ranges : list TimeRange.t) :
  Forall TimeRange.wf ranges ->
  canonical (merged (span <$> ranges))
  /\ forall x, covers (merged (span <$> ranges)) x <-> Exists (fun r => in_span (span r) x) ranges.
Proof.
  intros Hr. destruct (merged_spec (span <$> ranges)) as [Hc Hcov].
  { apply Forall_fmap. eapply Forall_impl; [exact Hr|]. intros r (Hs & _ & _). cbn. ulia. }
  split; [done|]. intros x. rewrite (Hcov x). unfold covers. by rewrite Exists_fmap.
Qed.

(** The gaps of a run are exactly what it did not read. *)
Lemma unusable_gaps_spec run :
  windows_wf (AsrRun.chunks run) ->
  canonical (span <$> AsrRun.unusable_gaps run)
  /\ forall x, covers (span <$> AsrRun.unusable_gaps run) x <-> unread run x.
Proof.
  intros Hwf. unfold AsrRun.unusable_gaps.
  assert (Hpart : forall p : AsrChunkRecord.t -> bool,
    let l := (fun c => span (AsrRun.window_of c)) <$> filter (fun c => p c = true) (AsrRun.chunks run) in
    canonical (merged l)
    /\ forall x, covers (merged l) x <->
         Exists (fun c => p c = true /\ in_span (span (AsrRun.window_of c)) x) (AsrRun.chunks run)).
  { intros p. cbn zeta.
    destruct (merged_ranges (AsrRun.window_of <$> filter (fun c => p c = true) (AsrRun.chunks run)))
      as [Hc Hcov].
    { apply Forall_fmap, Forall_forall. intros c [_ Hin]%list_elem_of_filter.
      unfold windows_wf in Hwf. rewrite Forall_forall in Hwf. by apply Hwf. }
    rewrite <- list_fmap_compose in Hc, Hcov. split; [exact Hc|]. intros x.
    rewrite (Hcov x), Exists_fmap, !Exists_exists. unfold compose.
    setoid_rewrite list_elem_of_filter. naive_solver. }
  destruct (Hpart (fun c => left_unread (AsrChunkRecord.outcome c))) as [Hu Hcu].
  destruct (Hpart (fun c => AsrRun.was_read (AsrChunkRecord.outcome c))) as [Hr Hcr].
  destruct (subtract_spec _ _ Hu Hr) as [Hs Hcs].
  rewrite (spans_of_ranges (-1)) by (done || lia). split; [done|]. intros x.
  rewrite Hcs, Hcu, Hcr. unfold unread. rewrite <- Forall_Exists_neg. split; (intros [? Hf]; split; [done|]);
    (eapply Forall_impl; [exact Hf|]); cbn; tauto.
Qed.

(** What the rule keeps, instant by instant. *)
Lemma carries_spec replaced run written stop earlier :
  TimeRange.wf replaced -> windows_wf (AsrRun.chunks run) -> Forall TimeRange.wf written ->
  TimeRange.wf earlier ->
  let rule := match stop with
              | None => EarlierTextRule.new replaced run written
              | Some s => EarlierTextRule.stopped_at (EarlierTextRule.new replaced run written) s
              end in
  EarlierTextRule.carries rule earlier = true <->
    (forall x, in_span (span earlier) x -> ~ in_span (span replaced) x)
    \/ (TimeRange.start replaced <= TimeRange.start earlier
        /\ TimeRange.end_ earlier <= TimeRange.end_ replaced
        /\ ((exists x, in_span (span earlier) x /\ unread run x)
            \/ exists s, stop = Some s /\ s <= TimeRange.start earlier)
        /\ forall w x, w ∈ written -> in_span (span earlier) x -> ~ in_span (span w) x).
Proof.
  intros Hrep Hwin Hwr Hear rule.
  assert (Hlt : (span earlier).1 < (span earlier).2) by apply Hear.
  destruct (unusable_gaps_spec run Hwin) as [Hgc Hgcov]. destruct (merged_ranges written Hwr) as [Hwc Hwcov].
  assert (Hrc : canonical [span replaced]) by (destruct Hrep as (? & ? & ?); cbn; ulia).
  pose proof (overlaps_any_spec _ _ Hrc Hlt) as Ho1. pose proof (overlaps_any_spec _ _ Hgc Hlt) as Ho2.
  pose proof (overlaps_any_spec _ _ Hwc Hlt) as Ho3.
  setoid_rewrite covers_cons in Ho1. setoid_rewrite covers_nil in Ho1.
  setoid_rewrite Hgcov in Ho2. setoid_rewrite Hwcov in Ho3.
  assert (Hrule : EarlierTextRule.carries rule earlier
    = if negb (overlaps_any [span replaced] (span earlier)) then true
      else ((span replaced).1 <=? (span earlier).1) && ((span earlier).2 <=? (span replaced).2)
           && (overlaps_any (span <$> AsrRun.unusable_gaps run) (span earlier)
               || match stop with Some s => s <=? (span earlier).1 | None => false end)
           && negb (overlaps_any (merged (span <$> written)) (span earlier)))
    by (unfold rule; by destruct stop).
  rewrite Hrule. clear Hrule rule.
  destruct (overlaps_any [span replaced] (span earlier)) eqn:E1; cbn [negb].
  - apply proj1 in Ho1. specialize (Ho1 eq_refl). destruct Ho1 as (x0 & [Hx0|[]] & Hx0').
    rewrite !andb_true_iff, !Z.leb_le, orb_true_iff, negb_true_iff, Ho2, <- not_true_iff_false, Ho3.
    setoid_rewrite Exists_exists. cbn [span fst snd].
    assert (Hstop : match stop with Some s => s <=? TimeRange.start earlier | None => false end = true
                    <-> exists s, stop = Some s /\ s <= TimeRange.start earlier).
    { destruct stop as [s|]; [rewrite Z.leb_le|]; naive_solver. }
    rewrite Hstop. split.
    + intros (((H1 & H2) & H3) & H4). right. split; [done|]. split; [done|]. split.
      * destruct H3 as [(x & ? & ?)|?]; [left; by exists x|by right].
      * intros w x Hw Hin Hmem. apply H4. exists x. split; [by exists w|done].
    + intros [H|(H1 & H2 & H3 & H4)]; [by apply H in Hx0'|]. split; [split; [done|]|].
      * destruct H3 as [(x & ? & ?)|?]; [left; by exists x|by right].
      * intros (x & (w & Hw & Hin) & Hx). by apply (H4 w x).
  - split; [|done]. intros _. left. intros x Hx Hr. enough (false = true) by done.
    apply Ho1. exists x. tauto.
Qed.

(** A retranscription keeps a segment of the earlier text exactly when it lies
    outside the replaced range, or lies within it, reaches an instant the run
    was meant to read and did not (or starts where a stopped run had not
    published), and shares no instant with the text the run wrote. A segment
    across the edge of the replaced range is not kept. Claim C30. *)
Theorem earlier_text_kept replaced run written stop earlier :
  TimeRange.wf replaced -> windows_wf (AsrRun.chunks run) -> Forall TimeRange.wf written ->
  TimeRange.wf earlier ->
  let rule := match stop with
              | None => EarlierTextRule.new replaced run written
              | Some s => EarlierTextRule.stopped_at (EarlierTextRule.new replaced run written) s
              end in
  EarlierTextRule.carries rule earlier = true <->
    (forall x, in_span (span earlier) x -> ~ in_span (span replaced) x)
    \/ (TimeRange.start replaced <= TimeRange.start earlier
        /\ TimeRange.end_ earlier <= TimeRange.end_ replaced
        /\ ((exists x, in_span (span earlier) x /\ unread run x)
            \/ exists s, stop = Some s /\ s <= TimeRange.start earlier)
        /\ forall w x, w ∈ written -> in_span (span earlier) x -> ~ in_span (span w) x).
Proof. intros H1 H2 H3 H4. by apply carries_spec. Qed.

(** A run over 60 seconds whose second chunk was unusable: earlier text in the
    stretch only that chunk covers is kept, unless the run wrote over it. *)
Lemma earlier_text_kept_witness :
  let record k o := AsrChunkRecord.mk (chunk_at (mkOpaqueId []) ChunkPlan.R0 (TimeRange.mk 0 61000000) k) o in
  let audio := TimeRange.mk 0 1000000 in
  let run := AsrRun.mk (AsrProviderBuild.mk WhisperCpp (Sha256Hex.mk []))
               (AsrModel.mk Base (Sha256Hex.mk [])) R0V1 ChunkPlan.R0 4 0
               [record 0 (Transcribed audio); record 1 (Unusable audio); record 2 (Silent audio)] in
  let replaced := TimeRange.mk 0 61000000 in
  let carries written earlier := EarlierTextRule.carries (EarlierTextRule.new replaced run written) earlier in
  AsrRun.unusable_gaps run = [TimeRange.mk 30000000 50000000]
  /\ carries [TimeRange.mk 0 32000000] (TimeRange.mk 49000000 52000000) = true
  /\ carries [TimeRange.mk 0 32000000] (TimeRange.mk 31000000 52000000) = false.
Proof.
  intros record audio run replaced carries. split; [vm_compute; reflexivity|].
  split; [|vm_compute; reflexivity].
  apply (earlier_text_kept replaced run [TimeRange.mk 0 32000000] None (TimeRange.mk 49000000 52000000));
    [concrete|repeat (constructor; [concrete|]); constructor|constructor; [concrete|constructor]|concrete|].
  right. split; [concrete|]. split; [concrete|]. split.
  - left. exists 49500000. split; [concrete|]. split.
    + right. left. split; [reflexivity|concrete].
    + constructor; [intros _; unfold in_span; cbn; lia|]. constructor; [done|].
      constructor; [intros _; unfold in_span; cbn; lia|]. constructor.
  - intros w x Hw%list_elem_of_singleton. subst w. unfold in_span. cbn. lia.
Defined.

(** ** Validated runs *)

(** The comparison of the records with the plan, pair by pair. *)
Lemma records_match (expected : list PlannedChunk.t) (chunks : list AsrChunkRecord.t) :
  negb (length expected =? length chunks)%nat
  || existsb (fun p : PlannedChunk.t * AsrChunkRecord.t =>
       negb (bool_decide (p.1 = AsrChunkRecord.chunk p.2))) (zip expected chunks) = false
  <-> expected = AsrChunkRecord.chunk <$> chunks.
Proof.
  rewrite orb_false_iff, negb_false_iff, Nat.eqb_eq. revert chunks.
  induction expected as [|e expected IH]; intros [|c chunks]; cbn; try (split; [intros [? ?]|]; done).
  rewrite orb_false_iff, negb_false_iff, bool_decide_eq_true. specialize (IH chunks). split.
  - intros (Hl & Hc & Hrest). f_equal; [done|]. apply IH. split; [lia|done].
  - intros [= -> ->]. rewrite length_fmap. split; [done|]. split; [done|]. apply IH. done.
Qed.

Lemma plan_chunks_nonempty seg plan range planned :
  ChunkPlan.wf plan -> TimeRange.wf range -> plan_chunks seg range plan = Ok planned ->
  exists first final, head planned = Some first /\ last planned = Some final
    /\ PlannedChunk.source_segment first = seg
    /\ TimeRange.start (PlannedChunk.window first) = TimeRange.start range
    /\ TimeRange.end_ (PlannedChunk.window final) = TimeRange.end_ range.
Proof.
  intros Hp Hr H. rewrite (plan_chunks_spec seg plan range Hp Hr) in H.
  destruct (_ <=? _); [|done]. injection H as <-. pose proof (count_pos plan range Hp Hr) as Hc.
  destruct (chunks_cut seg plan range Hp Hr) as (H1 & _ & H3 & H4 & _).
  set (planned := chunk_at seg plan range <$> seqZ 0 (chunk_count plan range)) in *.
  assert (Hlen : (0 < length planned)%nat) by (unfold planned; rewrite length_fmap, length_seqZ; lia).
  destruct (lookup_lt_is_Some_2 planned 0 Hlen) as [first Hf].
  destruct (lookup_lt_is_Some_2 planned (pred (length planned)) ltac:(lia)) as [final Hl].
  rewrite <- last_lookup in Hl. exists first, final. rewrite head_lookup.
  split; [done|]. split; [done|]. split; [by apply (H1 0%nat)|]. split; [by apply H3|by apply H4].
Qed.

(** What an accepted run is. *)
Lemma accepted_run parts run :
  windows_wf (AsrRunParts.chunks parts) -> AsrRun.new parts = Ok run ->
  AsrRun.chunks run = AsrRunParts.chunks parts
  /\ exists seg range, TimeRange.wf range
       /\ plan_chunks seg range (AsrRunParts.plan parts)
          = Ok (AsrChunkRecord.chunk <$> AsrRunParts.chunks parts)
       /\ AsrRun.covered_range run = Some range.
Proof.
  intros Hw. set (chunks := AsrRunParts.chunks parts) in *. set (plan := AsrRunParts.plan parts) in *.
  unfold AsrRun.new. fold chunks plan.
  destruct (head chunks) as [first|] eqn:Eh; [|done]. destruct (last chunks) as [final|] eqn:El; [|done].
  destruct (TimeRange.new _ _) as [covered|] eqn:Ec; [|done]. cbn [map_err result_bind].
  destruct (plan_chunks _ covered plan) as [expected|] eqn:Ep; [|done]. cbn [map_err result_bind].
  destruct (negb _ || _) eqn:Em; [done|]. apply records_match in Em as ->. intros [= <-].
  split; [done|]. exists (PlannedChunk.source_segment (AsrChunkRecord.chunk first)), covered.
  split; [|split; [done|]].
  - unfold windows_wf in Hw. rewrite Forall_forall in Hw. rewrite head_lookup in Eh.
    pose proof (Hw first (list_elem_of_lookup_2 _ _ _ Eh)) as (Hs & _ & _).
    pose proof (Hw final (last_Some_elem_of _ _ El)) as (_ & He & _).
    unfold TimeRange.new in Ec. destruct (_ <=? _) eqn:E; [done|]. injection Ec as <-. bool_prop.
    by unfold TimeRange.wf.
  - unfold AsrRun.covered_range. cbn [AsrRun.chunks]. rewrite Eh, El. cbn [mbind option_bind].
    by rewrite Ec.
Qed.

(** A run is accepted exactly when its chunk records are the plan of some
    range, in order and complete; it then covers that range, and every instant
    of it lies in the window of a chunk. *)
Theorem run_is_its_plan parts :
  ChunkPlan.wf (AsrRunParts.plan parts) -> windows_wf (AsrRunParts.chunks parts) ->
  (is_ok (AsrRun.new parts) = true <->
     exists seg range, TimeRange.wf range
       /\ plan_chunks seg range (AsrRunParts.plan parts)
          = Ok (AsrChunkRecord.chunk <$> AsrRunParts.chunks parts))
  /\ forall run, AsrRun.new parts = Ok run ->
       AsrRun.chunks run = AsrRunParts.chunks parts
       /\ exists range, AsrRun.covered_range run = Some range
            /\ forall x, in_span (span range) x ->
                 Exists (fun c => in_span (span (AsrRun.window_of c)) x) (AsrRun.chunks run).
Proof.
  intros Hp Hw. set (chunks := AsrRunParts.chunks parts) in *. set (plan := AsrRunParts.plan parts) in *.
  split; [split|].
  - destruct (AsrRun.new parts) as [run|] eqn:E; [|done]. intros _.
    destruct (accepted_run parts run Hw E) as (_ & seg & range & Hr & Hplan & _). by exists seg, range.
  - intros (seg & range & Hr & Hplan).
    destruct (plan_chunks_nonempty seg plan range _ Hp Hr Hplan) as (f & l & Hf & Hl & Hseg & Hs & He).
    unfold AsrRun.new. fold chunks plan. rewrite head_lookup, list_lookup_fmap in Hf.
    rewrite head_lookup. destruct (chunks !! 0%nat) as [first|]; [|done]. injection Hf as <-.
    rewrite fmap_last in Hl. destruct (last chunks) as [final|]; [|done]. injection Hl as <-.
    unfold AsrRun.window_of. rewrite Hs, He, Hseg. destruct range as [s e]. cbn [TimeRange.start TimeRange.end_].
    destruct Hr as (_ & _ & Hlt). cbn in Hlt. unfold TimeRange.new.
    rewrite (proj2 (Z.leb_gt _ _)) by done. cbn [map_err result_bind]. rewrite Hplan. cbn [map_err result_bind].
    by rewrite (proj2 (records_match _ _) eq_refl).
  - intros run Hrun. destruct (accepted_run parts run Hw Hrun) as (Hc & seg & range & Hr & Hplan & Hcov).
    split; [done|]. exists range. split; [done|]. intros x Hx. rewrite Hc.
    fold plan in Hplan. rewrite (plan_chunks_spec seg plan range Hp Hr) in Hplan. destruct (_ <=? _); [|done].
    injection Hplan as Hplan. destruct (chunks_cut seg plan range Hp Hr) as (_ & _ & _ & _ & Hall).
    rewrite Hplan in Hall. specialize (Hall x Hx). by rewrite Exists_fmap in Hall.
Qed.

Lemma run_is_its_plan_witness :
  let record k := AsrChunkRecord.mk
    (chunk_at (mkOpaqueId []) ChunkPlan.R0 (TimeRange.mk 0 61000000) k) NoAudio in
  let parts chunks := AsrRunParts.mk (AsrProviderBuild.mk WhisperCpp (Sha256Hex.mk []))
    (AsrModel.mk Base (Sha256Hex.mk [])) R0V1 ChunkPlan.R0 4 0 chunks in
  is_ok (AsrRun.new (parts [record 0; record 1; record 2])) = true
  /\ is_ok (AsrRun.new (parts [record 0; record 2])) = false.
Proof.
  intros record parts. split; [|vm_compute; reflexivity].
  apply (run_is_its_plan (parts [record 0; record 1; record 2]));
    [concrete|repeat (constructor; [concrete|]); constructor|].
  exists (mkOpaqueId []), (TimeRange.mk 0 61000000). split; [concrete|]. vm_compute. reflexivity.
Defined.

(** ** Verdicts are monotonic *)

(** Another accepted segment never makes a usable chunk unusable, and another
    rejected one never makes an unusable chunk usable, for every count. *)
Lemma rejections_monotone considered rejected :
  0 <= rejected <= considered -> considered + 1 < U32_MAX ->
  (rejections_make_chunk_unusable (considered + 1) rejected = true ->
     rejections_make_chunk_unusable considered rejected = true)
  /\ (rejections_make_chunk_unusable considered rejected = true ->
     rejections_make_chunk_unusable (considered + 1) (rejected + 1) = true).
Proof.
  intros Hr Hc. unfold rejections_make_chunk_unusable, MIN_SEGMENTS_FOR_REJECTION_RATIO,
    REJECTED_SEGMENT_SHARE_DENOMINATOR.
  split; intros H; by_cases H; split_if; rewrite ?Z.ltb_lt in *; try done; unfold_widths; lia.
Qed.

Lemma run_verdict_monotone unusable answered :
  0 <= unusable <= answered -> answered + 1 < U32_MAX ->
  (unusable_chunks_end_the_run unusable (answered + 1) = true ->
     unusable_chunks_end_the_run unusable answered = true)
  /\ (unusable_chunks_end_the_run unusable answered = true ->
     unusable_chunks_end_the_run (unusable + 1) (answered + 1) = true).
Proof.
  intros Hu Ha. unfold unusable_chunks_end_the_run, UNUSABLE_CHUNK_SHARE_DENOMINATOR.
  rewrite !Z.ltb_lt. ulia.
Qed.
