(* ===== verification/Cues.v ===== *)
(** * Cues: supplied transcripts and their place on the timeline

    Models the first half of [crates/vsift-domain/src/transcript.rs]: the
    cues of a supplied subtitle file, the offset that shifts them, their
    alignment with a source, and the warnings that count what was left out;
    and of [evidence.rs] the confidence and the speaker label a segment
    carries. *)

From Stdlib Require Import Ascii.
From S2P Require Import Prelude.
From S2P Require Import Text.
From S2P Require Import Chars.
From S2P Require Import Timeline.
From S2P Require Import Identity.
From S2P Require Import AsrRun.

Definition MAX_TRANSCRIPT_CUES : Z := 20000.
Definition MAX_CUE_TEXT_BYTES : Z := 4096.
Definition MAX_TRANSCRIPT_OFFSET_MICROS : Z := 86400000000.
Definition MAX_LANGUAGE_TAG_BYTES : Z := 35.
Definition MAX_SPEAKER_LABEL_BYTES : Z := 128.

(** ** Confidence and speakers *)

Inductive ConfidenceOrigin := Unavailable | ProviderUncalibrated | ProviderCalibrated.

#[global] Instance ConfidenceOrigin_eq_dec : EqDecision ConfidenceOrigin.
Proof. solve_decision. Defined.

Inductive ConfidenceError := OutsideRange | MissingOrigin.

Module Confidence.
Record t := mk { basis_points : option Z; origin : ConfidenceOrigin }.

#[global] Instance eq_dec : EqDecision t.
Proof. solve_decision. Defined.

Definition unknown : t := mk None Unavailable.

Definition provider_score (basis_points : Z) (origin : ConfidenceOrigin) : result t ConfidenceError :=
  if 10000 <? basis_points then Err OutsideRange
  else if bool_decide (origin = Unavailable) then Err MissingOrigin
  else Ok (mk (Some basis_points) origin).

(** A score has an origin, and only a score has one. *)
Definition wf (c : t) : Prop :=
  match basis_points c with
  | Some b => 0 <= b <= 10000 /\ origin c <> Unavailable
  | None => origin c = Unavailable
  end.
End Confidence.

Inductive SpeakerLabelError := InvalidLength | SpeakerControlCharacter.

Module SpeakerLabel.
Record t := mk { as_str : text }.

Definition parse (value : text) : result t SpeakerLabelError :=
  if bool_decide (trim value = []) || (MAX_SPEAKER_LABEL_BYTES <? Z.of_nat (length value))
  then Err InvalidLength
  else if existsb is_control (chars value) then Err SpeakerControlCharacter
  else Ok (mk value).
End SpeakerLabel.

(** ** Formats and rejections *)

Inductive AlignmentOrigin := ImportedSrt | ImportedWebVtt | LocalAsrOrigin.

Definition carries_speaker_labels (o : AlignmentOrigin) : bool :=
  match o with ImportedWebVtt => true | _ => false end.

Inductive TranscriptFormat := Srt | WebVtt.

Definition alignment_origin (f : TranscriptFormat) : AlignmentOrigin :=
  match f with Srt => ImportedSrt | WebVtt => ImportedWebVtt end.

Inductive TranscriptRejection :=
| TooLarge | UnsupportedEncoding | InvalidUtf8 | ControlCharacter | LineTooLong | TooManyCues
| CueTextTooLong | InvalidHeader | InvalidCueNumber | InvalidTimingLine | InvalidTimestamp
| NonPositiveDuration | CuesOutOfOrder | UntimedText | NoCues | OffsetOutOfRange
| NoCuesWithinSource.

Definition is_resource_limit (r : TranscriptRejection) : bool :=
  match r with TooLarge | LineTooLong | TooManyCues | CueTextTooLong => true | _ => false end.

Definition is_alignment (r : TranscriptRejection) : bool :=
  match r with OffsetOutOfRange | NoCuesWithinSource => true | _ => false end.

Module TranscriptImportError.
Record t := mk { rejection : TranscriptRejection; line : option Z }.

Definition new (rejection : TranscriptRejection) : t := mk rejection None.

Definition at_line (rejection : TranscriptRejection) (line : Z) : t := mk rejection (Some line).
End TranscriptImportError.

(** ** Offsets and timings *)

Module TranscriptOffset.
Record t := mk { as_micros : Z }.

Definition ZERO : t := mk 0.

Definition from_micros (value : Z) : result t TranscriptRejection :=
  if MAX_TRANSCRIPT_OFFSET_MICROS <? Z.abs value then Err OffsetOutOfRange else Ok (mk value).

(** The sum of a [u64] and an [i64], in [i128]. *)
Definition shift (o : t) (file_micros : Z) : Z := wrap_i128 (file_micros + as_micros o).

Definition wf (o : t) : Prop := Z.abs (as_micros o) <= MAX_TRANSCRIPT_OFFSET_MICROS.
End TranscriptOffset.

Module CueTiming.
Record t := mk { start_micros : Z; end_micros : Z }.

Definition new (start_micros end_micros : Z) : result t TranscriptRejection :=
  if end_micros <=? start_micros then Err NonPositiveDuration else Ok (mk start_micros end_micros).

Definition wf (c : t) : Prop :=
  is_u64 (start_micros c) /\ is_u64 (end_micros c) /\ start_micros c < end_micros c.
End CueTiming.

(** ** Cue text and language *)

Definition newline_char : text := bytes [10].
Definition tab_char : text := bytes [9].

Module CueText.
Record t := mk { as_text : text; original : option text }.

#[global] Instance eq_dec : EqDecision t.
Proof. solve_decision. Defined.

Definition new (value original : text) : result t TranscriptRejection :=
  if bool_decide (trim value = []) then Err UntimedText
  else if (MAX_CUE_TEXT_BYTES <? Z.of_nat (length value))
          || (MAX_CUE_TEXT_BYTES <? Z.of_nat (length original)) then Err CueTextTooLong
  else if existsb (fun c => is_control c && negb (bool_decide (c = newline_char))) (chars value)
          || existsb (fun c => is_control c && negb (bool_decide (c = newline_char)
                                                     || bool_decide (c = tab_char))) (chars original)
  then Err ControlCharacter
  else Ok (mk value (if bool_decide (original = value) then None else Some original)).

(** Whether markup was removed. *)
Definition markup_removed (c : t) : bool := match original c with Some _ => true | None => false end.
End CueText.

Module CueSource.
(** Both are [NonZeroU32]. *)
Record t := mk { ordinal : Z; line : Z }.
End CueSource.

Module ImportedCue.
Record t := mk {
  source : CueSource.t;
  timing : CueTiming.t;
  cue_text : CueText.t;
  speaker : option SpeakerLabel.t
}.
End ImportedCue.


Module LanguageTag.
Record t := mk { as_str : text }.

#[global] Instance eq_dec : EqDecision t.
Proof. solve_decision. Defined.

Definition shaped (value : text) : bool :=
  match value with
  | [] => false
  | first :: _ =>
      (Z.of_nat (length value) <=? MAX_LANGUAGE_TAG_BYTES) && is_ascii_alphabetic first
      && forallb (fun byte => is_ascii_alphanumeric byte || (byte =? hyphen)%char) value
      && negb (bool_decide (last value = Some hyphen))
      && negb (contains_text [hyphen; hyphen] value)
  end.

(** The error type has one value. *)
Definition parse (value : text) : result t unit :=
  if negb (shaped value) then Err tt else Ok (mk value).
End LanguageTag.

(** ** Warnings *)

Module TranscriptWarningKind.
Inductive t :=
| EmptyCuesSkipped | MarkupRemoved | SpeakerLabelDiscarded | OverlappingCues | CuesOutsideSource
| CuesCrossingSourceBoundary | ProviderSegmentsRejected | ProviderEndTrimmed
| NonSpeechMarkersRemoved | SeamDuplicatesRemoved | SilentChunksSkipped | NoSpeechRecognised
| ProviderChunksRejected.

#[global] Instance eq_dec : EqDecision t.
Proof. solve_decision. Defined.

Definition excludes_cues (k : t) : bool :=
  match k with
  | EmptyCuesSkipped | CuesOutsideSource | CuesCrossingSourceBoundary | ProviderSegmentsRejected
  | NonSpeechMarkersRemoved | SeamDuplicatesRemoved | SilentChunksSkipped
  | ProviderChunksRejected => true
  | _ => false
  end.

Definition is_local_asr (k : t) : bool :=
  match k with
  | ProviderSegmentsRejected | ProviderEndTrimmed | NonSpeechMarkersRemoved
  | SeamDuplicatesRemoved | SilentChunksSkipped | NoSpeechRecognised
  | ProviderChunksRejected => true
  | _ => false
  end.
End TranscriptWarningKind.

Module TranscriptWarning.
Record t := mk { kind : TranscriptWarningKind.t; count : Z; first_cue : Z }.

Definition new (kind : TranscriptWarningKind.t) (count first_cue : Z)
    : result t TranscriptRevisionError :=
  if (count =? 0) || (first_cue =? 0) then Err InvalidWarning else Ok (mk kind count first_cue).

Definition wf (w : t) : Prop := 0 < count w <= U32_MAX /\ 0 < first_cue w <= U32_MAX.
End TranscriptWarning.

Module TranscriptWarnings.
(** In the order their kinds were first recorded. *)
Definition t : Type := list TranscriptWarning.t.

Definition default : t := [].

(** The first warning of the kind is counted up, or a new one pushed. *)
Fixpoint add_nonzero (self : t) (kind : TranscriptWarningKind.t) (count first : Z) : t :=
  match self with
  | [] => [TranscriptWarning.mk kind count first]
  | w :: rest =>
      if bool_decide (TranscriptWarning.kind w = kind)
      then TranscriptWarning.mk kind (saturating_u32 (TranscriptWarning.count w + count))
             (TranscriptWarning.first_cue w) :: rest
      else w :: add_nonzero rest kind count first
  end.

Definition add (self : t) (kind : TranscriptWarningKind.t) (count first : Z) : t :=
  if count =? 0 then self else add_nonzero self kind count first.

Definition record (self : t) (kind : TranscriptWarningKind.t) (ordinal : CueSource.t) : t :=
  add self kind 1 (CueSource.ordinal ordinal).

Definition extend (self other : t) : t :=
  fold_left (fun warnings w =>
    if TranscriptWarning.first_cue w =? 0 then warnings
    else add warnings (TranscriptWarning.kind w) (TranscriptWarning.count w)
           (TranscriptWarning.first_cue w)) other self.

(** The loop of [from_stored]. *)
Fixpoint collect (collected : t) (warnings : list TranscriptWarning.t)
    : result t TranscriptRevisionError :=
  match warnings with
  | [] => Ok collected
  | w :: rest =>
      if existsb (fun e => bool_decide (TranscriptWarning.kind e = TranscriptWarning.kind w)) collected
      then Err InvalidWarning
      else collect (collected ++ [w]) rest
  end.

Definition from_stored (warnings : list TranscriptWarning.t) : result t TranscriptRevisionError :=
  collect [] warnings.

(** One entry for each kind, each with a positive count and cue. *)
Definition wf (self : t) : Prop :=
  NoDup (TranscriptWarning.kind <$> self) /\ Forall TranscriptWarning.wf self.

(** How often a kind was recorded. *)
Fixpoint count_of (self : t) (kind : TranscriptWarningKind.t) : Z :=
  match self with
  | [] => 0
  | w :: rest => if decide (TranscriptWarning.kind w = kind) then TranscriptWarning.count w
                 else count_of rest kind
  end.
End TranscriptWarnings.

(** ** Parsed files *)

Module ParsedTranscript.
Record t := mk {
  format : TranscriptFormat;
  language : option LanguageTag.t;
  cues : list ImportedCue.t;
  warnings : TranscriptWarnings.t
}.

Definition start_of (c : ImportedCue.t) : Z := CueTiming.start_micros (ImportedCue.timing c).
Definition end_of (c : ImportedCue.t) : Z := CueTiming.end_micros (ImportedCue.timing c).

(** The loop of [new]: the start of the cue before, and the latest end. *)
Fixpoint scan (previous_start latest_end : Z) (warnings : TranscriptWarnings.t)
    (cues : list ImportedCue.t) : result TranscriptWarnings.t TranscriptImportError.t :=
  match cues with
  | [] => Ok warnings
  | cue :: rest =>
      if start_of cue <? previous_start
      then Err (TranscriptImportError.at_line CuesOutOfOrder (CueSource.line (ImportedCue.source cue)))
      else
        let warnings :=
          if start_of cue <? latest_end
          then TranscriptWarnings.record warnings TranscriptWarningKind.OverlappingCues
                 (ImportedCue.source cue)
          else warnings in
        scan (start_of cue) (Z.max latest_end (end_of cue)) warnings rest
  end.

Definition new (format : TranscriptFormat) (language : option LanguageTag.t)
    (cues : list ImportedCue.t) (parse_warnings : TranscriptWarnings.t)
    : result t TranscriptImportError.t :=
  if bool_decide (cues = []) then Err (TranscriptImportError.new NoCues)
  else if MAX_TRANSCRIPT_CUES <? Z.of_nat (length cues)
  then Err (TranscriptImportError.new TooManyCues)
  else
    let? warnings := scan 0 0 parse_warnings cues in
    Ok (mk format language cues warnings).
End ParsedTranscript.

(** ** Alignment *)

Module AlignedCue.
Record t := mk { cue : ImportedCue.t; range : TimeRange.t }.
End AlignedCue.

Definition source_range (start end_ : Z) : option TimeRange.t :=
  start ← checked_u64 start;
  end_ ← checked_u64 end_;
  result_ok (TimeRange.new start end_).

(** One turn of the loop of [align_imported_cues]: the cues placed so far,
    and the warnings. *)
Definition align_cue (offset : TranscriptOffset.t) (source : SourceSegment.t)
    (state : list AlignedCue.t * TranscriptWarnings.t) (cue : ImportedCue.t)
    : result (list AlignedCue.t * TranscriptWarnings.t) TranscriptImportError.t :=
  let segment_start := TimeRange.start (SourceSegment.range source) in
  let segment_end := TimeRange.end_ (SourceSegment.range source) in
  let start := TranscriptOffset.shift offset (ParsedTranscript.start_of cue) in
  let end_ := TranscriptOffset.shift offset (ParsedTranscript.end_of cue) in
  if (end_ <=? segment_start) || (segment_end <=? start)
  then Ok (state.1, TranscriptWarnings.record state.2 TranscriptWarningKind.CuesOutsideSource
                      (ImportedCue.source cue))
  else if (start <? segment_start) || (segment_end <? end_)
  then Ok (state.1, TranscriptWarnings.record state.2
                      TranscriptWarningKind.CuesCrossingSourceBoundary (ImportedCue.source cue))
  else
    let? range := ok_or (source_range start end_)
                    (TranscriptImportError.at_line InvalidTimestamp
                       (CueSource.line (ImportedCue.source cue))) in
    Ok (state.1 ++ [AlignedCue.mk cue range], state.2).

Fixpoint align_loop (offset : TranscriptOffset.t) (source : SourceSegment.t)
    (state : list AlignedCue.t * TranscriptWarnings.t) (cues : list ImportedCue.t)
    : result (list AlignedCue.t * TranscriptWarnings.t) TranscriptImportError.t :=
  match cues with
  | [] => Ok state
  | cue :: rest =>
      let? state := align_cue offset source state cue in
      align_loop offset source state rest
  end.

Definition align_imported_cues (parsed : ParsedTranscript.t) (offset : TranscriptOffset.t)
    (source : SourceSegment.t)
    : result (list AlignedCue.t * TranscriptWarnings.t) TranscriptImportError.t :=
  let? aligned := align_loop offset source ([], ParsedTranscript.warnings parsed)
                    (ParsedTranscript.cues parsed) in
  if bool_decide (aligned.1 = []) then Err (TranscriptImportError.new NoCuesWithinSource)
  else Ok aligned.

(** ** Facts on warnings *)

Module WarningFacts.
Import TranscriptWarnings.

Lemma add_nonzero_kinds self kind count first :
  TranscriptWarning.kind <$> add_nonzero self kind count first
  = (TranscriptWarning.kind <$> self)
    ++ (if decide (kind ∈ TranscriptWarning.kind <$> self) then [] else [kind]).
Proof.
  induction self as [|w self IH]; [done|]. cbn [add_nonzero]. case_bool_decide as E.
  - subst kind. cbn. rewrite decide_True by left. by rewrite app_nil_r.
  - cbn [fmap list_fmap] in *. rewrite IH. cbn. f_equal. f_equal.
    apply decide_ext. rewrite elem_of_cons. naive_solver.
Qed.

Lemma count_of_absent self kind : kind ∉ TranscriptWarning.kind <$> self -> count_of self kind = 0.
Proof.
  induction self as [|w self IH]; [done|]. cbn. rewrite not_elem_of_cons. intros [Hk Hn].
  rewrite decide_False by congruence. by apply IH.
Qed.

Lemma count_of_range self kind : Forall TranscriptWarning.wf self -> 0 <= count_of self kind <= U32_MAX.
Proof.
  induction 1 as [|w self Hw _ IH]; cbn; [ulia|]. case_decide; [|done]. destruct Hw. lia.
Qed.

Lemma add_nonzero_count self kind count first k :
  0 < count <= U32_MAX ->
  count_of (add_nonzero self kind count first) k
  = if decide (k = kind) then (if decide (kind ∈ TranscriptWarning.kind <$> self)
                               then saturating_u32 (count_of self k + count) else count)
    else count_of self k.
Proof.
  intros Hc. induction self as [|w self IH]; cbn [add_nonzero].
  { cbn. rewrite (decide_False (P := kind ∈ [])) by apply not_elem_of_nil.
    by repeat case_decide. }
  case_bool_decide as E.
  - subst kind. cbn. rewrite (decide_True (P := _ ∈ _)) by left.
    by repeat case_decide.
  - cbn [count_of fmap list_fmap]. rewrite IH. destruct (decide (k = kind)) as [->|Hk]; [|done].
    assert (Hiff : kind ∈ TranscriptWarning.kind w :: (TranscriptWarning.kind <$> self)
                   <-> kind ∈ TranscriptWarning.kind <$> self)
      by (rewrite elem_of_cons; naive_solver).
    rewrite (decide_False (P := TranscriptWarning.kind w = kind)) by done.
    repeat case_decide; tauto.
Qed.

(** Adding keeps the invariant and counts up one kind. *)
Lemma add_spec self kind count first :
  wf self -> is_u32 count -> 0 < first <= U32_MAX ->
  wf (add self kind count first)
  /\ forall k, count_of (add self kind count first) k
       = if decide (k = kind) then saturating_u32 (count_of self k + count) else count_of self k.
Proof.
  intros [Hnd Hwf] Hc Hf. unfold add. destruct (count =? 0) eqn:E; bool_prop.
  { split; [by split|]. intros k. case_decide; [|done].
    pose proof (count_of_range self k Hwf). ulia. }
  split; [split|].
  - rewrite add_nonzero_kinds. case_decide; [by rewrite app_nil_r|].
    apply NoDup_app. split; [done|]. split; [|apply NoDup_singleton].
    intros x Hx ->%list_elem_of_singleton. done.
  - clear Hnd. induction Hwf as [|w self Hw Hwf IH]; cbn [add_nonzero].
    { constructor; [split; cbn; ulia|constructor]. }
    case_bool_decide; constructor; try done. destruct Hw as [Hw1 Hw2]. split; cbn; [ulia|done].
  - intros k. rewrite add_nonzero_count by ulia. case_decide as Ek; [|done]. case_decide as Em; [done|].
    rewrite Ek, count_of_absent by done. ulia.
Qed.

Lemma record_spec self kind source :
  wf self -> 0 < CueSource.ordinal source <= U32_MAX ->
  wf (record self kind source)
  /\ forall k, count_of (record self kind source) k
       = if decide (k = kind) then saturating_u32 (count_of self k + 1) else count_of self k.
Proof. intros Hw Ho. apply add_spec; [done|ulia|done]. Qed.

Lemma extend_spec self other :
  wf self -> wf other ->
  wf (extend self other)
  /\ forall k, count_of (extend self other) k = saturating_u32 (count_of self k + count_of other k).
Proof.
  unfold extend. intros Hs [Hnd Hwf]. revert self Hs Hnd.
  induction Hwf as [|w other [Hw1 Hw2] Hwf IH]; intros self Hs Hnd; cbn [fold_left].
  { split; [done|]. intros k. cbn. pose proof (count_of_range self k ltac:(apply Hs)). ulia. }
  cbn in Hnd. apply NoDup_cons in Hnd as [Hn Hnd]. rewrite (proj2 (Z.eqb_neq _ _)) by lia.
  destruct (add_spec self (TranscriptWarning.kind w) (TranscriptWarning.count w)
              (TranscriptWarning.first_cue w) Hs) as [Hwf' Hc]; [ulia|done|].
  destruct (IH _ Hwf' Hnd) as [H1 H2]. split; [done|]. intros k. rewrite H2, Hc. cbn.
  pose proof (count_of_range self k ltac:(apply Hs)). pose proof (count_of_range other k Hwf).
  destruct (decide (k = TranscriptWarning.kind w)) as [->|Hk].
  - rewrite (decide_True (P := TranscriptWarning.kind w = _)) by done.
    rewrite (count_of_absent other) by done. ulia.
  - by rewrite decide_False by congruence.
Qed.

Lemma collect_spec collected rest :
  NoDup (TranscriptWarning.kind <$> collected) ->
  match collect collected rest with
  | Ok all => all = collected ++ rest /\ NoDup (TranscriptWarning.kind <$> collected ++ rest)
  | Err e => e = InvalidWarning /\ ~ NoDup (TranscriptWarning.kind <$> collected ++ rest)
  end.
Proof.
  revert collected. induction rest as [|w rest IH]; intros collected Hnd; cbn [collect].
  { by rewrite app_nil_r. }
  destruct (existsb _ collected) eqn:E.
  - split; [done|]. apply existsb_exists in E as (e & He & Ek). apply bool_decide_eq_true in Ek.
    rewrite fmap_app, NoDup_app. intros (_ & Hd & _). apply (Hd (TranscriptWarning.kind e)).
    + apply list_elem_of_fmap. exists e. split; [done|]. by apply list_elem_of_In.
    + cbn. rewrite Ek. by left.
  - specialize (IH (collected ++ [w])). rewrite <- app_assoc in IH. apply IH.
    rewrite fmap_app. apply NoDup_app. split; [done|]. split; [|apply NoDup_singleton].
    intros k Hk Hw. cbn in Hw. apply list_elem_of_singleton in Hw as ->.
    apply list_elem_of_fmap in Hk as (e & Ek & He). apply not_true_iff_false in E. apply E.
    apply existsb_exists. exists e. split; [by apply list_elem_of_In|].
    by apply bool_decide_eq_true.
Qed.
End WarningFacts.

(** The warnings of a transcript keep one positive entry for each kind, however
    they are recorded, added or extended; their counts are the sums of what was
    recorded, saturating; and a stored list is read back exactly when no kind
    repeats in it. *)
Theorem warnings_one_entry_per_kind self other kind count first :
  TranscriptWarnings.wf self -> TranscriptWarnings.wf other ->
  is_u32 count -> 0 < first <= U32_MAX ->
  TranscriptWarnings.wf (TranscriptWarnings.add self kind count first)
  /\ TranscriptWarnings.wf (TranscriptWarnings.extend self other)
  /\ (forall k, TranscriptWarnings.count_of (TranscriptWarnings.add self kind count first) k
        = if decide (k = kind) then saturating_u32 (TranscriptWarnings.count_of self k + count)
          else TranscriptWarnings.count_of self k)
  /\ (forall k, TranscriptWarnings.count_of (TranscriptWarnings.extend self other) k
        = saturating_u32 (TranscriptWarnings.count_of self k + TranscriptWarnings.count_of other k))
  /\ TranscriptWarnings.from_stored self = Ok self
  /\ (forall stored, is_ok (TranscriptWarnings.from_stored stored) = true
        <-> NoDup (TranscriptWarning.kind <$> stored)).
Proof.
  intros Hs Ho Hc Hf. destruct (WarningFacts.add_spec self kind count first Hs Hc Hf) as [H1 H2].
  destruct (WarningFacts.extend_spec self other Hs Ho) as [H3 H4].
  assert (Hst : forall stored, match TranscriptWarnings.from_stored stored with
            | Ok all => all = stored /\ NoDup (TranscriptWarning.kind <$> stored)
            | Err e => e = InvalidWarning /\ ~ NoDup (TranscriptWarning.kind <$> stored)
            end).
  { intros stored. apply (WarningFacts.collect_spec [] stored). constructor. }
  split; [done|]. split; [done|]. split; [done|]. split; [done|]. split.
  - specialize (Hst self). destruct (TranscriptWarnings.from_stored self); [by destruct Hst as [-> _]|].
    destruct Hst as [_ []]. apply Hs.
  - intros stored. specialize (Hst stored). destruct (TranscriptWarnings.from_stored stored); cbn; naive_solver.
Qed.

Lemma warnings_one_entry_per_kind_witness :
  let self := [TranscriptWarning.mk TranscriptWarningKind.MarkupRemoved 4294967290 3] in
  let other := [TranscriptWarning.mk TranscriptWarningKind.MarkupRemoved 9 1;
                TranscriptWarning.mk TranscriptWarningKind.NoSpeechRecognised 1 7] in
  TranscriptWarnings.wf (TranscriptWarnings.add self TranscriptWarningKind.OverlappingCues 2 5)
  /\ TranscriptWarnings.extend self other
     = [TranscriptWarning.mk TranscriptWarningKind.MarkupRemoved 4294967295 3;
        TranscriptWarning.mk TranscriptWarningKind.NoSpeechRecognised 1 7].
Proof.
  cbn zeta. split; [|vm_compute; reflexivity].
  eapply (warnings_one_entry_per_kind _
            [TranscriptWarning.mk TranscriptWarningKind.MarkupRemoved 9 1]).
  - split; [apply NoDup_singleton|]. constructor; [concrete|constructor].
  - split; [apply NoDup_singleton|]. constructor; [concrete|constructor].
  - concrete.
  - concrete.
Defined.

(** ** Facts on parsed and aligned cues *)

Definition cue_wf (cue : ImportedCue.t) : Prop :=
  CueTiming.wf (ImportedCue.timing cue) /\ 0 < CueSource.ordinal (ImportedCue.source cue) <= U32_MAX.

(** Where an offset puts a cue on the timeline of the source. *)
Definition placed_start (offset : TranscriptOffset.t) (cue : ImportedCue.t) : Z :=
  ParsedTranscript.start_of cue + TranscriptOffset.as_micros offset.
Definition placed_end (offset : TranscriptOffset.t) (cue : ImportedCue.t) : Z :=
  ParsedTranscript.end_of cue + TranscriptOffset.as_micros offset.

(** A cue's place shares no instant with the source, or lies within it. *)
Definition outside (offset : TranscriptOffset.t) (source : TimeRange.t) (cue : ImportedCue.t) : Prop :=
  placed_end offset cue <= TimeRange.start source \/ TimeRange.end_ source <= placed_start offset cue.
Definition inside (offset : TranscriptOffset.t) (source : TimeRange.t) (cue : ImportedCue.t) : Prop :=
  TimeRange.start source <= placed_start offset cue /\ placed_end offset cue <= TimeRange.end_ source.

#[global] Instance outside_dec offset source cue : Decision (outside offset source cue).
Proof. unfold outside. apply _. Defined.
#[global] Instance inside_dec offset source cue : Decision (inside offset source cue).
Proof. unfold inside. apply _. Defined.

Definition place (offset : TranscriptOffset.t) (cue : ImportedCue.t) : AlignedCue.t :=
  AlignedCue.mk cue (TimeRange.mk (placed_start offset cue) (placed_end offset cue)).

Section Align.
Context (offset : TranscriptOffset.t) (source : SourceSegment.t).
Context (Hoffset : TranscriptOffset.wf offset) (Hsource : TimeRange.wf (SourceSegment.range source)).

Let range := SourceSegment.range source.

Lemma shift_exact x : is_u64 x -> TranscriptOffset.shift offset x = x + TranscriptOffset.as_micros offset.
Proof.
  intros Hx. unfold TranscriptOffset.shift, TranscriptOffset.wf, MAX_TRANSCRIPT_OFFSET_MICROS in *.
  apply wrap_i128_id. ulia.
Qed.

Lemma align_cue_spec aligned warnings cue :
  cue_wf cue ->
  align_cue offset source (aligned, warnings) cue
  = Ok (if decide (inside offset range cue) then (aligned ++ [place offset cue], warnings)
        else (aligned, TranscriptWarnings.record warnings
                (if decide (outside offset range cue) then TranscriptWarningKind.CuesOutsideSource
                 else TranscriptWarningKind.CuesCrossingSourceBoundary) (ImportedCue.source cue))).
Proof.
  intros [(Hs & He & Hlt) _]. unfold align_cue.
  rewrite !shift_exact by done. fold (placed_start offset cue) (placed_end offset cue) range.
  assert (Hp : placed_start offset cue < placed_end offset cue)
    by (unfold placed_start, placed_end, ParsedTranscript.start_of, ParsedTranscript.end_of; lia).
  destruct Hsource as (Hr1 & Hr2 & Hr3). fold range in Hr1, Hr2, Hr3. cbn [fst snd].
  destruct (_ || _) eqn:E1.
  - apply orb_true_iff in E1. rewrite !Z.leb_le in E1.
    rewrite decide_False by (unfold inside; lia). by rewrite decide_True by done.
  - apply orb_false_iff in E1. rewrite !Z.leb_gt in E1. destruct (_ || _) eqn:E2.
    + apply orb_true_iff in E2. rewrite !Z.ltb_lt in E2.
      rewrite decide_False by (unfold inside; lia). by rewrite decide_False by (unfold outside; lia).
    + apply orb_false_iff in E2. rewrite !Z.ltb_ge in E2. rewrite decide_True by (unfold inside; lia).
      unfold source_range, checked_u64. rewrite !checked_in by ulia. cbn [mbind option_bind]. unfold TimeRange.new.
      by rewrite (proj2 (Z.leb_gt _ _)) by lia.
Qed.

(** How many cues a kind of exclusion counts. *)
Definition excluded (P : ImportedCue.t -> Prop) `{!forall c, Decision (P c)} (cues : list ImportedCue.t) : Z :=
  Z.of_nat (length (filter P cues)).

Definition crossing (cue : ImportedCue.t) : Prop := ~ inside offset range cue /\ ~ outside offset range cue.
#[global] Instance crossing_dec cue : Decision (crossing cue).
Proof. unfold crossing. apply _. Defined.

Lemma align_loop_spec cues aligned warnings :
  Forall cue_wf cues -> TranscriptWarnings.wf warnings ->
  exists warnings',
    align_loop offset source (aligned, warnings) cues
    = Ok (aligned ++ (place offset <$> filter (inside offset range) cues), warnings')
    /\ TranscriptWarnings.wf warnings'
    /\ forall k, TranscriptWarnings.count_of warnings' k
         = saturating_u32 (TranscriptWarnings.count_of warnings k
             + (if decide (k = TranscriptWarningKind.CuesOutsideSource)
                then excluded (outside offset range) cues else 0)
             + (if decide (k = TranscriptWarningKind.CuesCrossingSourceBoundary)
                then excluded crossing cues else 0)).
Proof.
  intros Hcues. revert aligned warnings. induction Hcues as [|cue cues Hc Hcues IH]; intros aligned w Hw.
  { exists w. cbn [align_loop]. rewrite filter_nil, app_nil_r. split; [done|]. split; [done|]. intros k.
    pose proof (WarningFacts.count_of_range w k ltac:(apply Hw)).
    unfold excluded. cbn. repeat case_decide; ulia. }
  cbn [align_loop]. rewrite align_cue_spec by done. cbn [result_bind].
  unfold excluded. rewrite !filter_cons.
  assert (Hin : inside offset range cue -> ~ outside offset range cue).
  { destruct Hc as [(? & ? & ?) _]. destruct Hsource as (_ & _ & ?). unfold range.
    unfold inside, outside, placed_start, placed_end, ParsedTranscript.start_of, ParsedTranscript.end_of.
    lia. }
  destruct (decide (inside offset range cue)) as [Hi|Hi].
  - rewrite (decide_False (P := outside _ _ _)) by auto.
    rewrite (decide_False (P := crossing cue)) by (unfold crossing; tauto).
    destruct (IH (aligned ++ [place offset cue]) w Hw) as (w' & -> & H1 & H2).
    exists w'. cbn [fmap list_fmap]. rewrite <- app_assoc. split; [done|]. by split.
  - set (kind := if decide (outside offset range cue) then _ else _).
    destruct (WarningFacts.record_spec w kind (ImportedCue.source cue) Hw ltac:(apply Hc)) as [Hw1 Hc1].
    destruct (IH aligned _ Hw1) as (w' & -> & H1 & H2).
    exists w'. split; [done|]. split; [done|]. intros k. rewrite H2, Hc1.
    pose proof (WarningFacts.count_of_range w k ltac:(apply Hw)). unfold excluded in *. subst kind.
    destruct (decide (outside offset range cue)) as [Ho|Ho].
    + rewrite (decide_False (P := crossing cue)) by (unfold crossing; tauto).
      repeat case_decide; subst; cbn [length]; try congruence; ulia.
    + rewrite (decide_True (P := crossing cue)) by (by split).
      repeat case_decide; subst; cbn [length]; try congruence; ulia.
Qed.
End Align.

(** Aligning a parsed file keeps, in order, exactly the cues that lie wholly
    inside the source after the offset, each at its written timing plus the
    offset; it counts each cue left out once, as outside or as crossing the
    boundary, and fails exactly when no cue is left, never on a timestamp.
    Claim C33. *)
Theorem imported_cues_aligned parsed offset source :
  TranscriptOffset.wf offset -> TimeRange.wf (SourceSegment.range source) ->
  Forall cue_wf (ParsedTranscript.cues parsed) ->
  TranscriptWarnings.wf (ParsedTranscript.warnings parsed) ->
  let within := filter (inside offset (SourceSegment.range source)) (ParsedTranscript.cues parsed) in
  match align_imported_cues parsed offset source with
  | Ok (aligned, warnings) =>
      within <> [] /\ aligned = place offset <$> within
      /\ Forall (fun a => TimeRange.wf (AlignedCue.range a)) aligned
      /\ TranscriptWarnings.wf warnings
      /\ (TranscriptWarnings.count_of (ParsedTranscript.warnings parsed)
              TranscriptWarningKind.CuesOutsideSource = 0 ->
            TranscriptWarnings.count_of (ParsedTranscript.warnings parsed)
              TranscriptWarningKind.CuesCrossingSourceBoundary = 0 ->
            Z.of_nat (length (ParsedTranscript.cues parsed)) <= MAX_TRANSCRIPT_CUES ->
            TranscriptWarnings.count_of warnings TranscriptWarningKind.CuesOutsideSource
              = excluded (outside offset (SourceSegment.range source)) (ParsedTranscript.cues parsed)
            /\ Z.of_nat (length aligned)
               + TranscriptWarnings.count_of warnings TranscriptWarningKind.CuesOutsideSource
               + TranscriptWarnings.count_of warnings TranscriptWarningKind.CuesCrossingSourceBoundary
               = Z.of_nat (length (ParsedTranscript.cues parsed)))
  | Err e => within = [] /\ e = TranscriptImportError.new NoCuesWithinSource
  end.
Proof.
  intros Ho Hs Hc Hw within. unfold align_imported_cues.
  destruct (align_loop_spec offset source Ho Hs _ [] _ Hc Hw) as (w' & -> & Hw' & Hcount).
  cbn [result_bind app fst]. fold within. case_bool_decide as E.
  { by apply fmap_nil_inv in E. }
  split; [by intros Hn; rewrite Hn in E|]. split; [done|]. split.
  { apply Forall_fmap, Forall_forall. intros c [Hin Hmem]%list_elem_of_filter. cbn.
    rewrite Forall_forall in Hc. destruct (Hc c Hmem) as [(? & ? & ?) _].
    destruct Hs as (? & ? & ?). unfold inside, placed_start, placed_end,
      ParsedTranscript.start_of, ParsedTranscript.end_of in *.
    split; [cbn; ulia|]. split; cbn; ulia. }
  split; [done|]. intros H1 H2 Hlen. rewrite !Hcount, H1, H2, length_fmap.
  decide_constants.
  assert (Hsplit : Z.of_nat (length within)
    + excluded (outside offset (SourceSegment.range source)) (ParsedTranscript.cues parsed)
    + excluded (crossing offset source) (ParsedTranscript.cues parsed)
    = Z.of_nat (length (ParsedTranscript.cues parsed))).
  { subst within. unfold excluded. clear -Hc Hs. induction Hc as [|c cues Hc1 Hc2 IH]; [done|].
    rewrite !filter_cons. destruct Hc1 as [(? & ? & ?) _]. destruct Hs as (? & ? & ?).
    unfold crossing, inside, outside, placed_start, placed_end, ParsedTranscript.start_of,
      ParsedTranscript.end_of in *.
    repeat case_decide; cbn [length]; lia. }
  assert (0 <= excluded (outside offset (SourceSegment.range source)) (ParsedTranscript.cues parsed))
    by (unfold excluded; lia).
  assert (0 <= excluded (crossing offset source) (ParsedTranscript.cues parsed))
    by (unfold excluded; lia).
  unfold MAX_TRANSCRIPT_CUES in *. ulia.
Qed.

(** A file of four cues shifted by half a second against a source of ten: one
    before it, two inside, one across its end. *)
Lemma imported_cues_aligned_witness :
  let cue n s e := ImportedCue.mk (CueSource.mk n (4 * n)) (CueTiming.mk s e)
                     (CueText.mk (literal "words") None) None in
  let cues := [cue 1 0 400000; cue 2 500000 2000000; cue 3 3000000 10500000; cue 4 10000000 11000000] in
  let source := SourceSegment.mk (mkOpaqueId []) 0 (TimeRange.mk 0 10000000) Closed in
  let offset := TranscriptOffset.mk (-500000) in
  align_imported_cues (ParsedTranscript.mk Srt None cues []) offset source
  = Ok ([AlignedCue.mk (cue 2 500000 2000000) (TimeRange.mk 0 1500000);
         AlignedCue.mk (cue 3 3000000 10500000) (TimeRange.mk 2500000 10000000)],
        [TranscriptWarning.mk TranscriptWarningKind.CuesOutsideSource 1 1;
         TranscriptWarning.mk TranscriptWarningKind.CuesCrossingSourceBoundary 1 4])
  /\ filter (inside offset (SourceSegment.range source)) cues <> [].
Proof.
  cbn zeta. split; [vm_compute; reflexivity|].
  pose proof (imported_cues_aligned
    (ParsedTranscript.mk Srt None
       [ImportedCue.mk (CueSource.mk 2 8) (CueTiming.mk 500000 2000000)
          (CueText.mk (literal "words") None) None] [])
    (TranscriptOffset.mk (-500000)) (SourceSegment.mk (mkOpaqueId []) 0 (TimeRange.mk 0 10000000) Closed))
    as H.
  destruct H as [Hn _].
  - concrete.
  - concrete.
  - repeat constructor; concrete.
  - split; constructor.
  - intros E. by vm_compute in E.
Defined.
