(* ===== verification/AsrOutput.v ===== *)
(** * AsrOutput: what a recognizer may say of one chunk

    Models, of [crates/vsift-domain/src/asr.rs], the output of a provider for
    one chunk and its validation: which segments are placed on the timeline,
    which are removed or rejected, where rejected words may lie, and the
    confidence of a segment. An [f64] is a [spec_float] of the Standard Library
    with 53 bits of precision. What an accepted and a refused output are is said
    without the functions of the code, in the part on what an output means. *)

From Stdlib Require Import Ascii.
From Stdlib Require Import SpecFloat.
From S2P Require Import Prelude.
From S2P Require Import Text.
From S2P Require Import Chars.
From S2P Require Import Timeline.
From S2P Require Import Spans.
From S2P Require Import Identity.
From S2P Require Import AsrPlan.
From S2P Require Import AsrRun.
From S2P Require Import Cues.

Definition PROVIDER_END_TOLERANCE_MICROS : Z := 1000000.
Definition MAX_PROVIDER_SEGMENTS : Z := 256.
Definition MAX_PROVIDER_TOKENS : Z := 512.
Definition SILENCE_FRAME_SAMPLES : nat := 320.
Definition FULL_SCALE_SQUARED : Z := 32768 * 32768.
Definition SILENCE_POWER_RATIO : Z := 100000.

(** ** Floating point: IEEE 754 binary64 *)

Definition f64 : Type := spec_float.

Definition f64_of_Z (n : Z) : f64 := binary_normalize 53 1024 n 0 false.
Definition f64_add : f64 -> f64 -> f64 := SFadd 53 1024.
Definition f64_div : f64 -> f64 -> f64 := SFdiv 53 1024.
Definition f64_mul : f64 -> f64 -> f64 := SFmul 53 1024.

Definition f64_is_finite (x : f64) : bool :=
  match x with S754_zero _ | S754_finite _ _ _ => true | _ => false end.

(** [f64::round]: to the nearest integer, halves away from zero. *)
Definition f64_round (x : f64) : f64 :=
  match x with
  | S754_finite negative mantissa exponent =>
      if 0 <=? exponent then x
      else
        let one := 2 ^ (- exponent) in
        let q := (2 * Z.pos mantissa + one) / (2 * one) in
        binary_normalize 53 1024 (if negative then - q else q) 0 negative
  | _ => x
  end.

(** ** What a provider reports *)

Module ProviderTokenKind.
Inductive t := TextToken | Special.

#[global] Instance eq_dec : EqDecision t.
Proof. solve_decision. Defined.

Definition starts_with_text (prefix s : text) : bool :=
  match strip_prefix prefix s with Some _ => true | None => false end.

Definition classify (s : text) : t :=
  if starts_with_text (literal "[_") s || starts_with_text (literal "<|") s then Special else TextToken.
End ProviderTokenKind.

Module ProviderToken.
Record t := mk { kind : ProviderTokenKind.t; probability : f64 }.
End ProviderToken.

(** [ChunkTime]: microseconds from the first decoded sample of the chunk. *)
Definition ChunkTime : Type := Z.

Definition chunk_time_from_millis (value : Z) : option ChunkTime := checked_u64 (value * 1000).

Module ProviderSegment.
Record t := mk {
  start : ChunkTime;
  end_ : ChunkTime;
  cue_text : option CueText.t;
  tokens : list ProviderToken.t
}.
End ProviderSegment.

Module ProviderChunkOutput.
Record t := mk { language : option LanguageTag.t; segments : list ProviderSegment.t }.
End ProviderChunkOutput.

Module ProviderOutputError.
Inductive t :=
| TooManySegments | TooManyTokens | OutOfOrderSegments | InvalidTokenProbability
| TooManyRejectedSegments.

#[global] Instance eq_dec : EqDecision t.
Proof. solve_decision. Defined.

Definition ALL : list t :=
  [TooManySegments; TooManyTokens; OutOfOrderSegments; InvalidTokenProbability;
   TooManyRejectedSegments].

Definition identifier (e : t) : text :=
  literal match e with
          | TooManySegments => "too_many_segments"
          | TooManyTokens => "too_many_tokens"
          | OutOfOrderSegments => "out_of_order_segments"
          | InvalidTokenProbability => "invalid_token_probability"
          | TooManyRejectedSegments => "too_many_rejected_segments"
          end.

Definition parse (value : text) : option t :=
  find (fun e => bool_decide (identifier e = value)) ALL.
End ProviderOutputError.

Inductive ProviderEndTrim := Unchanged | TrimmedToAudioEnd.

#[global] Instance ProviderEndTrim_eq_dec : EqDecision ProviderEndTrim.
Proof. solve_decision. Defined.

Module AsrSegmentDraft.
Record t := mk {
  range : TimeRange.t;
  cue_text : CueText.t;
  confidence : Confidence.t;
  provider_start : ChunkTime;
  provider_end : ChunkTime;
  trimmed : ProviderEndTrim
}.

#[global] Instance eq_dec : EqDecision t.
Proof. solve_decision. Defined.

(** [u64::midpoint] *)
Definition midpoint (s : t) : Z := (TimeRange.start (range s) + TimeRange.end_ (range s)) / 2.
End AsrSegmentDraft.

Module ValidatedChunk.
Record t := mk {
  chunk : PlannedChunk.t;
  audio : TimeRange.t;
  language : option LanguageTag.t;
  segments : list AsrSegmentDraft.t;
  unplaced : list TimeRange.t;
  warnings : TranscriptWarnings.t
}.
End ValidatedChunk.

(** ** Placing a segment *)

Definition provider_end_limit (decoded : Z) : Z :=
  let tolerated := saturating_u64 (decoded + PROVIDER_END_TOLERANCE_MICROS) in
  if MAX_CHUNK_WINDOW_MICROS <? tolerated then tolerated else MAX_CHUNK_WINDOW_MICROS.

Definition asr_source_range (audio : TimeRange.t) (provider_start provider_end : ChunkTime)
    (trimmed : ProviderEndTrim) : option TimeRange.t :=
  let decoded := TimeRange.duration_micros audio in
  if (provider_end <=? provider_start) || (decoded <=? provider_start) then None
  else
    source_start ← checked_u64 (TimeRange.start audio + provider_start);
    source_end ← match trimmed with
                 | Unchanged =>
                     if provider_end <=? decoded
                     then checked_u64 (TimeRange.start audio + provider_end) else None
                 | TrimmedToAudioEnd =>
                     if (decoded <? provider_end) && (provider_end <=? provider_end_limit decoded)
                     then Some (TimeRange.end_ audio) else None
                 end;
    result_ok (TimeRange.new source_start source_end).

Definition unplaced_limits (within source : TimeRange.t) : option TimeRange.t :=
  result_ok (TimeRange.new (Z.max (TimeRange.start within) (TimeRange.start source))
               (Z.min (TimeRange.end_ within) (TimeRange.end_ source))).

Definition unplaced_stretch `{UnicodeTables} (audio limits : TimeRange.t) (value : CueText.t)
    (starts : list ChunkTime) (position : nat) : option TimeRange.t :=
  if negb (existsb is_alphanumeric (chars (CueText.as_text value))) then None
  else
    let decoded := TimeRange.duration_micros audio in
    let inside (time : ChunkTime) := time <? decoded in
    own ← starts !! position;
    let from := if inside own then own
                else default 0 (find inside (reverse (take position starts))) in
    let until := match starts !! S position with
                 | Some next => if inside next then next else decoded
                 | None => decoded
                 end in
    if until <=? from then None
    else
      first ← checked_u64 (TimeRange.start audio + from);
      last ← checked_u64 (TimeRange.start audio + until);
      result_ok (TimeRange.new (Z.max first (TimeRange.start limits))
                   (Z.min last (TimeRange.end_ limits))).

(** ** Markers and confidence *)

Definition open_bracket : ascii := "["%char.
Definition close_bracket : ascii := "]"%char.
Definition open_paren : ascii := "("%char.
Definition close_paren : ascii := ")"%char.

(** What follows the first occurrence of a byte. *)
Fixpoint after_first (close : ascii) (s : text) : option text :=
  match s with
  | [] => None
  | c :: rest => if (c =? close)%char then Some rest else after_first close rest
  end.

(** Each turn removes a marker, so the length is fuel enough. *)
Fixpoint only_markers (fuel : nat) (rest : text) : bool :=
  match fuel, rest with
  | _, [] => true
  | O, _ => false
  | S fuel, c :: _ =>
      let close := if (c =? open_bracket)%char then Some close_bracket
                   else if (c =? open_paren)%char then Some close_paren
                   else None in
      match close with
      | None => false
      | Some close =>
          match after_first close rest with
          | None => false
          | Some after => only_markers fuel (trim_start after)
          end
      end
  end.

Definition is_non_speech_marker (s : text) : bool :=
  let rest := trim s in only_markers (length rest) rest.

(** The binary search of [mean_text_confidence], for [below middle] as
    [f64::from(middle) < scaled]: fourteen halvings close a range of ten
    thousand. *)
Fixpoint search (fuel : nat) (below : Z -> bool) (low high : Z) : Z :=
  match fuel with
  | O => low
  | S fuel =>
      if low <? high then
        let middle := low + (high - low) / 2 in
        if below middle then search fuel below (middle + 1) high else search fuel below low middle
      else low
  end.

Definition is_text_token (token : ProviderToken.t) : bool :=
  bool_decide (ProviderToken.kind token = ProviderTokenKind.TextToken).

(** The mean probability in basis points, as the float it is rounded to. *)
Definition scaled_mean (tokens : list ProviderToken.t) : f64 :=
  let counted := filter (fun t => is_text_token t = true) tokens in
  let sum := fold_left (fun sum t => f64_add sum (ProviderToken.probability t)) counted (S754_zero false) in
  let count := saturating_u32 (Z.of_nat (length counted)) in
  f64_round (f64_mul (f64_div sum (f64_of_Z count)) (f64_of_Z 10000)).

Definition mean_text_confidence (tokens : list ProviderToken.t) : Confidence.t :=
  if negb (existsb is_text_token tokens) then Confidence.unknown
  else
    let scaled := scaled_mean tokens in
    let low := search 14 (fun middle => SFltb (f64_of_Z middle) scaled) 0 10000 in
    match Confidence.provider_score low ProviderUncalibrated with
    | Ok confidence => confidence
    | Err _ => Confidence.unknown
    end.

(** ** Validation *)

(** The structural faults, in the order the code looks for them. *)
Definition probability_valid (token : ProviderToken.t) : bool :=
  f64_is_finite (ProviderToken.probability token)
  && (SFleb (f64_of_Z 0) (ProviderToken.probability token)
      && SFleb (ProviderToken.probability token) (f64_of_Z 1)).

Fixpoint check_structure (previous_start : option ChunkTime) (segments : list ProviderSegment.t)
    : result unit ProviderOutputError.t :=
  match segments with
  | [] => Ok tt
  | segment :: rest =>
      if MAX_PROVIDER_TOKENS <? Z.of_nat (length (ProviderSegment.tokens segment))
      then Err ProviderOutputError.TooManyTokens
      else if match previous_start with
              | Some previous => ProviderSegment.start segment <? previous
              | None => false
              end
      then Err ProviderOutputError.OutOfOrderSegments
      else if existsb (fun token => negb (probability_valid token)) (ProviderSegment.tokens segment)
      then Err ProviderOutputError.InvalidTokenProbability
      else check_structure (Some (ProviderSegment.start segment)) rest
  end.

(** The counters and lists of the loop of [validate_chunk_output]. *)
Record Placing := mkPlacing {
  considered : Z;
  rejected : Z;
  trimmed : Z;
  markers : Z;
  placed : list AsrSegmentDraft.t;
  unplaced : list TimeRange.t
}.

Section Validate.
Context `{UnicodeTables} (audio source : TimeRange.t) (limits : option TimeRange.t)
  (starts : list ChunkTime).

Definition trim_of (segment : ProviderSegment.t) : ProviderEndTrim :=
  if TimeRange.duration_micros audio <? ProviderSegment.end_ segment then TrimmedToAudioEnd
  else Unchanged.

(** The text of a segment that is not a marker. *)
Definition spoken_text (segment : ProviderSegment.t) : option CueText.t :=
  value ← ProviderSegment.cue_text segment;
  if is_non_speech_marker (CueText.as_text value) then None else Some value.

(** The place of a segment, inside the source. *)
Definition placed_range (segment : ProviderSegment.t) : option TimeRange.t :=
  range ← asr_source_range audio (ProviderSegment.start segment) (ProviderSegment.end_ segment)
            (trim_of segment);
  if (TimeRange.start source <=? TimeRange.start range) && (TimeRange.end_ range <=? TimeRange.end_ source)
  then Some range else None.

(** One turn of the loop. *)
Definition place_segment (state : Placing) (entry : nat * ProviderSegment.t) : Placing :=
  let '(position, segment) := entry in
  match spoken_text segment with
  | None =>
      mkPlacing (considered state) (rejected state) (trimmed state) (saturating_u32 (markers state + 1))
        (placed state) (unplaced state)
  | Some value =>
      let considered := saturating_u32 (considered state + 1) in
      let trim := trim_of segment in
      match placed_range segment with
      | None =>
          mkPlacing considered (saturating_u32 (rejected state + 1)) (trimmed state) (markers state)
            (placed state)
            (unplaced state
             ++ option_list (limits ← limits; unplaced_stretch audio limits value starts position))
      | Some range =>
          mkPlacing considered (rejected state)
            (if bool_decide (trim = TrimmedToAudioEnd) then saturating_u32 (trimmed state + 1)
             else trimmed state)
            (markers state)
            (placed state
             ++ [AsrSegmentDraft.mk range value (mean_text_confidence (ProviderSegment.tokens segment))
                   (ProviderSegment.start segment) (ProviderSegment.end_ segment) trim])
            (unplaced state)
      end
  end.
End Validate.

Definition validate_chunk_output `{UnicodeTables} (chunk : PlannedChunk.t) (audio source : TimeRange.t)
    (output : ProviderChunkOutput.t) : result ValidatedChunk.t ProviderOutputError.t :=
  let segments := ProviderChunkOutput.segments output in
  if MAX_PROVIDER_SEGMENTS <? Z.of_nat (length segments) then Err ProviderOutputError.TooManySegments
  else
    let? _ := check_structure None segments in
    let starts := ProviderSegment.start <$> segments in
    let limits := unplaced_limits (PlannedChunk.window chunk) source in
    let state := fold_left (place_segment audio source limits starts) (enumerate segments)
                   (mkPlacing 0 0 0 0 [] []) in
    if rejections_make_chunk_unusable (considered state) (rejected state)
    then Err ProviderOutputError.TooManyRejectedSegments
    else
      let ordinal := PlannedChunk.ordinal chunk in
      let warnings :=
        TranscriptWarnings.add
          (TranscriptWarnings.add
             (TranscriptWarnings.add TranscriptWarnings.default
                TranscriptWarningKind.ProviderSegmentsRejected (rejected state) ordinal)
             TranscriptWarningKind.ProviderEndTrimmed (trimmed state) ordinal)
          TranscriptWarningKind.NonSpeechMarkersRemoved (markers state) ordinal in
      Ok (ValidatedChunk.mk chunk audio (ProviderChunkOutput.language output) (placed state)
            (unplaced state) warnings).

(** ** Silence *)

(** [slice::chunks] of a positive size. *)
Fixpoint slices {A : Type} (fuel : nat) (size : nat) (l : list A) : list (list A) :=
  match fuel, l with
  | S fuel, _ :: _ => take size l :: slices fuel size (drop size l)
  | _, _ => []
  end.

(** The energy of a frame, in [u128]: at most 320 squares of 16 bits. *)
Definition energy (frame : list Z) : Z := fold_left (fun sum x => sum + Z.abs x * Z.abs x) frame 0.

Definition is_silent_pcm (samples : list Z) : bool :=
  forallb (fun frame => energy frame * SILENCE_POWER_RATIO
                        <? FULL_SCALE_SQUARED * Z.of_nat (length frame))
    (slices (length samples) SILENCE_FRAME_SAMPLES samples).

(** ** Facts on placing *)

Lemma asr_source_range_spec audio start end_ trim r :
  TimeRange.wf audio -> is_u64 start -> is_u64 end_ ->
  asr_source_range audio start end_ trim = Some r ->
  TimeRange.wf r
  /\ TimeRange.start r = TimeRange.start audio + start
  /\ TimeRange.end_ r = Z.min (TimeRange.start audio + end_) (TimeRange.end_ audio)
  /\ (trim = TrimmedToAudioEnd <-> TimeRange.end_ audio < TimeRange.start audio + end_).
Proof.
  intros Ha Hs He. unfold asr_source_range. rewrite (duration_exact _ Ha).
  destruct Ha as (Ha1 & Ha2 & Ha3).
  destruct (_ || _) eqn:E; [done|]. apply orb_false_iff in E. rewrite !Z.leb_gt in E.
  unfold checked_u64. rewrite (checked_in _ _ (TimeRange.start audio + start)) by ulia. cbn [mbind option_bind].
  assert (Hnew : forall e, TimeRange.start audio + start < e ->
    TimeRange.new (TimeRange.start audio + start) e
    = Ok (TimeRange.mk (TimeRange.start audio + start) e)).
  { intros e Hlt. unfold TimeRange.new. by rewrite (proj2 (Z.leb_gt _ _)) by lia. }
  destruct trim.
  - destruct (end_ <=? _) eqn:El; [|done]. bool_prop. rewrite checked_in by ulia.
    cbn [mbind option_bind]. rewrite Hnew by lia. intros [= <-]. cbn.
    split; [split; cbn; [ulia|split; ulia]|]. split; [done|]. split; [lia|]. split; [done|lia].
  - destruct (_ && _) eqn:El; [|done]. bool_prop. cbn [mbind option_bind].
    rewrite Hnew by lia. intros [= <-]. cbn.
    split; [split; cbn; [ulia|split; ulia]|]. split; [done|]. split; [lia|]. split; [lia|done].
Qed.

Lemma unplaced_limits_spec within source r :
  TimeRange.wf within -> TimeRange.wf source -> unplaced_limits within source = Some r ->
  TimeRange.wf r
  /\ TimeRange.start r = Z.max (TimeRange.start within) (TimeRange.start source)
  /\ TimeRange.end_ r = Z.min (TimeRange.end_ within) (TimeRange.end_ source).
Proof.
  intros (? & ? & ?) (? & ? & ?). unfold unplaced_limits. intros Hr.
  apply TimeRange_new_Ok in Hr as (? & ? & ?); [by split|ulia..].
Qed.

Section Stretch.
Context `{UnicodeTables} (audio limits : TimeRange.t) (Ha : TimeRange.wf audio) (Hl : TimeRange.wf limits).

Lemma unplaced_stretch_spec value (starts : list ChunkTime) position r :
  Forall is_u64 starts ->
  unplaced_stretch audio limits value starts position = Some r ->
  TimeRange.wf r
  /\ TimeRange.start limits <= TimeRange.start r /\ TimeRange.end_ r <= TimeRange.end_ limits
  /\ TimeRange.start audio <= TimeRange.start r /\ TimeRange.end_ r <= TimeRange.end_ audio.
Proof.
  intros Hstarts. unfold unplaced_stretch. destruct (negb _); [done|].
  set (decoded := TimeRange.duration_micros audio). unfold mbind at 1, option_bind at 1.
  destruct (starts !! position) as [own|] eqn:Ho; [|done].
  match goal with |- context [if ?u <=? ?f then _ else _] => set (until := u); set (from := f) end.
  assert (Hd : decoded = TimeRange.end_ audio - TimeRange.start audio) by exact (duration_exact audio Ha).
  destruct Ha as (Ha1 & Ha2 & Ha3). destruct Hl as (Hl1 & Hl2 & Hl3).
  rewrite Forall_forall in Hstarts.
  assert (Hfrom : 0 <= from).
  { unfold from. destruct (own <? decoded).
    - apply list_elem_of_lookup_2 in Ho. apply Hstarts in Ho. ulia.
    - destruct (find _ _) as [x|] eqn:E; [|done]. apply find_some in E as [E _].
      cbn. apply list_elem_of_In in E. rewrite elem_of_reverse in E. apply list_elem_of_lookup in E as [i E].
      apply lookup_take_Some in E as [E _]. apply list_elem_of_lookup_2 in E. apply Hstarts in E. ulia. }
  assert (Huntil : until <= decoded).
  { unfold until. match goal with |- match ?o with _ => _ end <= _ => destruct o as [next|] end; [|lia].
    destruct (next <? decoded) eqn:E; bool_prop; lia. }
  clearbody from until. destruct (until <=? from) eqn:E; [done|]. bool_prop.
  unfold checked_u64. rewrite !checked_in by ulia. cbn [mbind option_bind]. intros Hr.
  apply TimeRange_new_Ok in Hr as (H1 & H2 & H3); [|ulia..].
  split; [done|]. lia.
Qed.
End Stretch.

(** ** Facts on the confidence *)

(** The search ends at the edge of [below]: it holds just before the result
    and fails at it, within the bounds. *)
Lemma search_spec fuel below low high :
  low <= high < low + 2 ^ Z.of_nat fuel ->
  let r := search fuel below low high in
  low <= r <= high /\ (r < high -> below r = false) /\ (low < r -> below (r - 1) = true).
Proof.
  revert low high. induction fuel as [|fuel IH]; intros low high Hr; cbn [search].
  { cbn in Hr. lia. }
  rewrite Nat2Z.inj_succ, Z.pow_succ_r in Hr by lia.
  destruct (low <? high) eqn:E; bool_prop; [|lia].
  set (middle := low + (high - low) / 2).
  assert (Hm : low <= middle < high) by (unfold middle; divlia).
  assert (Hm2 : middle < low + 2 ^ Z.of_nat fuel /\ high <= middle + 2 ^ Z.of_nat fuel)
    by (unfold middle; divlia).
  clearbody middle. destruct (below middle) eqn:Eb.
  - destruct (IH (middle + 1) high ltac:(lia)) as (H1 & H2 & H3). split; [lia|]. split; [done|].
    intros Hlt. destruct (decide (middle + 1 < search fuel below (middle + 1) high)); [by apply H3|].
    by replace (search fuel below (middle + 1) high - 1) with middle by lia.
  - destruct (IH low middle ltac:(lia)) as (H1 & H2 & H3). split; [lia|]. split; [|done].
    intros Hlt. destruct (decide (search fuel below low middle < middle)); [by apply H2|].
    by replace (search fuel below low middle) with middle by lia.
Qed.

(** The confidence is unknown exactly when no token is text; otherwise it is
    the least number of basis points not below the rounded mean. *)
Lemma mean_text_confidence_spec tokens :
  Confidence.wf (mean_text_confidence tokens)
  /\ match Confidence.basis_points (mean_text_confidence tokens) with
     | None => Forall (fun t => ProviderToken.kind t = ProviderTokenKind.Special) tokens
     | Some b =>
         Confidence.origin (mean_text_confidence tokens) = ProviderUncalibrated
         /\ Exists (fun t => ProviderToken.kind t = ProviderTokenKind.TextToken) tokens
         /\ (b < 10000 -> SFltb (f64_of_Z b) (scaled_mean tokens) = false)
         /\ (0 < b -> SFltb (f64_of_Z (b - 1)) (scaled_mean tokens) = true)
     end.
Proof.
  unfold mean_text_confidence. destruct (existsb is_text_token tokens) eqn:E; cbn [negb].
  - set (below := fun middle => SFltb (f64_of_Z middle) (scaled_mean tokens)).
    destruct (search_spec 14 below 0 10000 ltac:(cbn; lia)) as (H1 & H2 & H3).
    set (r := search 14 below 0 10000) in *. clearbody r.
    unfold Confidence.provider_score. rewrite (proj2 (Z.ltb_ge _ _)) by lia.
    rewrite bool_decide_false by done. split; [split; [lia|done]|]. cbn.
    split; [done|]. split; [|done]. apply existsb_exists in E as (t & Ht & Hk).
    apply Exists_exists. exists t. split; [by apply list_elem_of_In|].
    by apply bool_decide_eq_true in Hk.
  - split; [done|]. cbn. apply Forall_forall. intros t Ht. apply not_true_iff_false in E.
    destruct (ProviderToken.kind t) eqn:Ek; [|done]. destruct E. apply existsb_exists. exists t.
    split; [by apply list_elem_of_In|]. by apply bool_decide_eq_true.
Qed.

(** ** What the loop computes *)

Section Loop.
Context `{UnicodeTables} (audio source : TimeRange.t) (limits : option TimeRange.t)
  (starts : list ChunkTime).

Definition is_marker (segment : ProviderSegment.t) : Prop := spoken_text segment = None.

(** Words that could not be placed. *)
Definition is_rejected (segment : ProviderSegment.t) : Prop :=
  spoken_text segment <> None /\ placed_range audio source segment = None.

#[global] Instance is_marker_dec segment : Decision (is_marker segment).
Proof. unfold is_marker. apply _. Defined.
#[global] Instance is_rejected_dec segment : Decision (is_rejected segment).
Proof. unfold is_rejected. apply _. Defined.

(** The segment as it is kept. *)
Definition draft_of (segment : ProviderSegment.t) : option AsrSegmentDraft.t :=
  value ← spoken_text segment;
  range ← placed_range audio source segment;
  Some (AsrSegmentDraft.mk range value (mean_text_confidence (ProviderSegment.tokens segment))
          (ProviderSegment.start segment) (ProviderSegment.end_ segment) (trim_of audio segment)).

Definition is_trimmed (d : AsrSegmentDraft.t) : Prop := AsrSegmentDraft.trimmed d = TrimmedToAudioEnd.

#[global] Instance is_trimmed_dec d : Decision (is_trimmed d).
Proof. unfold is_trimmed. apply _. Defined.

(** Where the words of a rejected segment may lie. *)
Definition stretch_of (entry : nat * ProviderSegment.t) : list TimeRange.t :=
  if decide (is_rejected entry.2) then
    option_list (limits ← limits; value ← spoken_text entry.2;
                 unplaced_stretch audio limits value starts entry.1)
  else [].

Definition count (P : ProviderSegment.t -> Prop) `{!forall s, Decision (P s)}
    (entries : list (nat * ProviderSegment.t)) : Z := Z.of_nat (length (filter P entries.*2)).

Lemma place_all entries state :
  let room n := 0 <= n /\ n + Z.of_nat (length entries) <= U32_MAX in
  room (considered state) -> room (rejected state) -> room (trimmed state) -> room (markers state) ->
  fold_left (place_segment audio source limits starts) entries state
  = mkPlacing (considered state + (Z.of_nat (length entries) - count is_marker entries))
      (rejected state + count is_rejected entries)
      (trimmed state + Z.of_nat (length (filter is_trimmed (omap draft_of entries.*2))))
      (markers state + count is_marker entries)
      (placed state ++ omap draft_of entries.*2)
      (unplaced state ++ (entries ≫= stretch_of)).
Proof.
  cbn zeta. revert state.
  induction entries as [|[position segment] entries IH]; intros state H1 H2 H3 H4.
  { destruct state. unfold count. cbn. rewrite !app_nil_r. f_equal; cbn; lia. }
  cbn [fold_left length] in *. rewrite Nat2Z.inj_succ in H1, H2, H3, H4. unfold count in *.
  cbn [fmap list_fmap snd mbind list_bind]. rewrite !filter_cons, !omap_cons_app.
  unfold place_segment at 2, stretch_of at 1, draft_of at 1 3. cbn [snd fst].
  destruct (spoken_text segment) as [value|] eqn:Es; cbn [mbind option_bind].
  - rewrite (decide_False (P := is_marker segment)) by (unfold is_marker; congruence).
    destruct (placed_range audio source segment) as [range|] eqn:Ep; cbn [mbind option_bind].
    + rewrite !(decide_False (P := is_rejected segment)) by (unfold is_rejected; naive_solver).
      rewrite IH; cbn [considered rejected trimmed markers placed unplaced];
        [|try case_bool_decide; ulia..].
      unfold option_list. cbn [option_rect app]. rewrite filter_cons. unfold is_trimmed at 2. cbn [AsrSegmentDraft.trimmed].
      rewrite <- app_assoc. case_bool_decide as Et.
      * rewrite decide_True by done. cbn [length]. f_equal; ulia.
      * rewrite decide_False by done. f_equal; ulia.
    + rewrite !(decide_True (P := is_rejected segment)) by (unfold is_rejected; naive_solver).
      cbn [length]. rewrite IH; cbn [considered rejected trimmed markers placed unplaced]; [|ulia..].
      rewrite <- app_assoc. f_equal; ulia.
  - rewrite (decide_True (P := is_marker segment)) by done.
    rewrite !(decide_False (P := is_rejected segment)) by (unfold is_rejected; naive_solver).
    cbn [length]. rewrite IH; cbn [considered rejected trimmed markers placed unplaced]; [|ulia..].
    cbn [app]. f_equal; ulia.
Qed.
End Loop.

(** ** The structural check *)

Definition starts_in_order (segments : list ProviderSegment.t) : Prop :=
  Sorted (fun a b => ProviderSegment.start a <= ProviderSegment.start b) segments.

Definition tokens_fit (segment : ProviderSegment.t) : Prop :=
  Z.of_nat (length (ProviderSegment.tokens segment)) <= MAX_PROVIDER_TOKENS.

Definition probabilities_valid (segment : ProviderSegment.t) : Prop :=
  Forall (fun t => probability_valid t = true) (ProviderSegment.tokens segment).

Lemma check_structure_spec previous segments :
  match check_structure previous segments with
  | Ok _ =>
      Forall tokens_fit segments /\ Forall probabilities_valid segments /\ starts_in_order segments
      /\ match previous, segments with
         | Some p, s :: _ => p <= ProviderSegment.start s
         | _, _ => True
         end
  | Err ProviderOutputError.TooManyTokens => ~ Forall tokens_fit segments
  | Err ProviderOutputError.InvalidTokenProbability => ~ Forall probabilities_valid segments
  | Err ProviderOutputError.OutOfOrderSegments =>
      match previous with
      | Some p => ~ (starts_in_order segments
                     /\ match segments with s :: _ => p <= ProviderSegment.start s | [] => True end)
      | None => ~ starts_in_order segments
      end
  | Err _ => False
  end.
Proof.
  revert previous. induction segments as [|s rest IH]; intros previous; cbn [check_structure].
  { repeat split; try constructor. by destruct previous. }
  destruct (MAX_PROVIDER_TOKENS <? _) eqn:E1; bool_prop.
  { intros [Hf _]%Forall_cons. unfold tokens_fit in Hf. lia. }
  destruct (match previous with Some p => _ | None => _ end) eqn:E2.
  { destruct previous as [p|]; [|done]. bool_prop. intros [_ H]. lia. }
  destruct (existsb _ _) eqn:E3.
  { apply existsb_exists in E3 as (t & Ht & Hp). intros [Hf _]%Forall_cons.
    unfold probabilities_valid in Hf. rewrite Forall_forall in Hf.
    rewrite Hf in Hp; [done|by apply list_elem_of_In]. }
  specialize (IH (Some (ProviderSegment.start s))).
  assert (Hcons : starts_in_order (s :: rest) <-> starts_in_order rest
    /\ match rest with s' :: _ => ProviderSegment.start s <= ProviderSegment.start s' | [] => True end).
  { split.
    - intros Hsort. apply Sorted_inv in Hsort as [H1 H2]. split; [done|]. by destruct H2.
    - intros [H1 H2]. constructor; [done|]. destruct rest; by constructor. }
  destruct (check_structure (Some _) rest) as [[]|[]]; rewrite ?Forall_cons, ?Hcons; try tauto.
  - destruct IH as (H1 & H2 & H3 & H4). split; [split; [unfold tokens_fit; lia|done]|].
    split; [split; [|done]|].
    + apply Forall_forall. intros t Ht. apply not_true_iff_false in E3.
      destruct (probability_valid t) eqn:Et; [done|]. destruct E3. apply existsb_exists.
      exists t. split; [by apply list_elem_of_In|]. by rewrite Et.
    + split; [split; [done|by destruct rest]|]. destruct previous; [|done]. bool_prop. lia.
  - destruct previous; tauto.
Qed.

(** ** The verdict on rejections *)

Definition usable (considered rejected : Z) : Prop :=
  rejected = 0 \/ (rejected = 1 /\ 2 <= considered < 4)
  \/ (4 <= considered /\ 4 * rejected <= considered).

Lemma rejections_spec considered rejected :
  0 <= rejected <= considered -> considered < U32_MAX ->
  rejections_make_chunk_unusable considered rejected = false <-> usable considered rejected.
Proof.
  intros Hr Hc. unfold rejections_make_chunk_unusable, usable, MIN_SEGMENTS_FOR_REJECTION_RATIO,
    REJECTED_SEGMENT_SHARE_DENOMINATOR, saturating_u32.
  destruct (considered =? 0) eqn:E1; bool_prop; [lia|].
  destruct (rejected =? considered) eqn:E2; bool_prop; [lia|].
  destruct (considered <? 4) eqn:E3; bool_prop; [rewrite Z.ltb_ge; lia|].
  rewrite Z.ltb_ge. unfold U32_MAX in *. lia.
Qed.

(** ** A whole chunk *)

Definition segment_typed (s : ProviderSegment.t) : Prop :=
  is_u64 (ProviderSegment.start s) /\ is_u64 (ProviderSegment.end_ s).

(** A range within another. *)
Definition range_within (r outer : TimeRange.t) : Prop :=
  TimeRange.start outer <= TimeRange.start r /\ TimeRange.end_ r <= TimeRange.end_ outer.

Lemma draft_of_spec `{UnicodeTables} audio source segment d :
  TimeRange.wf audio -> segment_typed segment -> draft_of audio source segment = Some d ->
  TimeRange.wf (AsrSegmentDraft.range d) /\ range_within (AsrSegmentDraft.range d) audio
  /\ range_within (AsrSegmentDraft.range d) source /\ Confidence.wf (AsrSegmentDraft.confidence d)
  /\ TimeRange.start (AsrSegmentDraft.range d) = TimeRange.start audio + ProviderSegment.start segment
  /\ asr_source_range audio (AsrSegmentDraft.provider_start d) (AsrSegmentDraft.provider_end d)
       (AsrSegmentDraft.trimmed d) = Some (AsrSegmentDraft.range d).
Proof.
  intros Ha [Hs He]. unfold draft_of. destruct (spoken_text segment) as [value|]; [|done].
  cbn [mbind option_bind]. unfold placed_range.
  destruct (asr_source_range _ _ _ _) as [range|] eqn:E; [|done]. cbn [mbind option_bind].
  destruct (_ && _) eqn:Eb; [|done]. cbn [mbind option_bind]. intros [= <-]. cbn. bool_prop.
  destruct (asr_source_range_spec _ _ _ _ _ Ha Hs He E) as (R1 & R2 & R3 & _).
  split; [done|]. unfold range_within. rewrite R2, R3. split; [ulia|]. split; [lia|].
  split; [by apply mean_text_confidence_spec|]. done.
Qed.

Lemma enumerate_snd {A} (l : list A) : (enumerate l).*2 = l.
Proof.
  unfold enumerate. apply snd_zip. by rewrite length_seq.
Qed.

Section Chunk.
Context `{UnicodeTables} (chunk : PlannedChunk.t) (audio source : TimeRange.t)
  (output : ProviderChunkOutput.t).
Context (Ha : TimeRange.wf audio) (Hs : TimeRange.wf source)
  (Hw : TimeRange.wf (PlannedChunk.window chunk)) (Hi : is_u32 (PlannedChunk.index chunk))
  (Hty : Forall segment_typed (ProviderChunkOutput.segments output)).

Let segments := ProviderChunkOutput.segments output.

Definition rejected_count : Z := Z.of_nat (length (filter (is_rejected audio source) segments)).
Definition marker_count : Z := Z.of_nat (length (filter is_marker segments)).

(** The drafts, the rejected segments and the markers are all there is. *)
Lemma partition_segments :
  Z.of_nat (length segments)
  = Z.of_nat (length (omap (draft_of audio source) segments)) + rejected_count + marker_count.
Proof.
  clear. unfold rejected_count, marker_count. induction segments as [|s rest IH]; [done|].
  rewrite !filter_cons, omap_cons_app, length_app.
  unfold draft_of at 1. destruct (spoken_text s) as [value|] eqn:E; cbn [mbind option_bind].
  - rewrite (decide_False (P := is_marker s)) by (unfold is_marker; congruence).
    destruct (placed_range audio source s) as [r|] eqn:Er; cbn [mbind option_bind].
    + rewrite (decide_False (P := is_rejected _ _ s)) by (unfold is_rejected; naive_solver).
      cbn. cbn in IH. lia.
    + rewrite (decide_True (P := is_rejected _ _ s)) by (unfold is_rejected; naive_solver).
      cbn. cbn in IH. lia.
  - rewrite (decide_True (P := is_marker s)) by done.
    rewrite (decide_False (P := is_rejected _ _ s)) by (unfold is_rejected; naive_solver).
    cbn. cbn in IH. lia.
Qed.

(** The loop, run on the whole output. *)
Lemma placing_spec limits :
  Z.of_nat (length segments) <= MAX_PROVIDER_SEGMENTS ->
  let drafts := omap (draft_of audio source) segments in
  let starts := ProviderSegment.start <$> segments in
  fold_left (place_segment audio source limits starts) (enumerate segments) (mkPlacing 0 0 0 0 [] [])
  = mkPlacing (Z.of_nat (length segments) - marker_count) rejected_count
      (Z.of_nat (length (filter is_trimmed drafts))) marker_count drafts
      (enumerate segments ≫= stretch_of audio source limits starts).
Proof.
  intros Hlen. cbn zeta. unfold MAX_PROVIDER_SEGMENTS in Hlen.
  assert (He : length (enumerate segments) = length segments)
    by (rewrite <- (length_fmap snd), enumerate_snd; done).
  rewrite place_all; cbn [considered rejected trimmed markers placed unplaced]; rewrite ?He; [|ulia..].
  unfold count. rewrite !enumerate_snd. fold rejected_count marker_count. f_equal; lia.
Qed.

(** The numbers a chunk's warnings record. *)
Lemma chunk_warnings_spec r t m :
  is_u32 r -> is_u32 t -> is_u32 m ->
  let ordinal := PlannedChunk.ordinal chunk in
  let w := TranscriptWarnings.add
             (TranscriptWarnings.add
                (TranscriptWarnings.add TranscriptWarnings.default
                   TranscriptWarningKind.ProviderSegmentsRejected r ordinal)
                TranscriptWarningKind.ProviderEndTrimmed t ordinal)
             TranscriptWarningKind.NonSpeechMarkersRemoved m ordinal in
  TranscriptWarnings.wf w
  /\ TranscriptWarnings.count_of w TranscriptWarningKind.ProviderSegmentsRejected = r
  /\ TranscriptWarnings.count_of w TranscriptWarningKind.ProviderEndTrimmed = t
  /\ TranscriptWarnings.count_of w TranscriptWarningKind.NonSpeechMarkersRemoved = m.
Proof.
  intros Hr Ht Hm. cbn zeta.
  assert (Ho : 0 < PlannedChunk.ordinal chunk <= U32_MAX) by (unfold PlannedChunk.ordinal; ulia).
  assert (H0 : TranscriptWarnings.wf TranscriptWarnings.default) by (split; constructor).
  destruct (WarningFacts.add_spec _ TranscriptWarningKind.ProviderSegmentsRejected r _ H0 Hr Ho) as [H1 C1].
  destruct (WarningFacts.add_spec _ TranscriptWarningKind.ProviderEndTrimmed t _ H1 Ht Ho) as [H2 C2].
  destruct (WarningFacts.add_spec _ TranscriptWarningKind.NonSpeechMarkersRemoved m _ H2 Hm Ho) as [H3 C3].
  split; [done|]. rewrite !C3, !C2, !C1. decide_constants. cbn [TranscriptWarnings.count_of TranscriptWarnings.default]. repeat split; ulia.
Qed.

(** Drafts in the order of their segments are in start order. *)
Lemma drafts_sorted :
  starts_in_order segments ->
  StronglySorted (fun a b => TimeRange.start (AsrSegmentDraft.range a)
                             <= TimeRange.start (AsrSegmentDraft.range b))
    (omap (draft_of audio source) segments).
Proof.
  intros Hso. fold segments in Hty. apply Sorted_StronglySorted in Hso; [|intros x y z; lia].
  induction Hso as [|s rest Hso IH Hf]; [constructor|]. apply Forall_cons in Hty as [Ht Hty'].
  rewrite omap_cons_app. destruct (draft_of audio source s) as [d|] eqn:E; cbn; [|by apply IH].
  constructor; [by apply IH|]. apply Forall_forall. intros d' Hd'.
  apply list_elem_of_omap in Hd' as (s' & Hs' & Ed). rewrite Forall_forall in Hf, Hty'.
  destruct (draft_of_spec _ _ _ _ Ha Ht E) as (_ & _ & _ & _ & -> & _).
  destruct (draft_of_spec _ _ _ _ Ha (Hty' _ Hs') Ed) as (_ & _ & _ & _ & -> & _).
  specialize (Hf _ Hs'). lia.
Qed.
(** The stretches of a chunk lie in its window, its audio and the source. *)
Lemma stretches_within :
  Forall (fun r => TimeRange.wf r /\ range_within r (PlannedChunk.window chunk)
                   /\ range_within r source /\ range_within r audio)
    (enumerate segments ≫= stretch_of audio source
       (unplaced_limits (PlannedChunk.window chunk) source) (ProviderSegment.start <$> segments)).
Proof.
  apply Forall_forall. intros r Hr. apply list_elem_of_bind in Hr as ([position s] & Hr & Hin).
  unfold stretch_of in Hr. cbn [fst snd] in Hr. case_decide; [|by apply not_elem_of_nil in Hr].
  destruct (unplaced_limits _ source) as [limits|] eqn:El; [|by apply not_elem_of_nil in Hr].
  destruct (spoken_text s) as [value|]; [|by apply not_elem_of_nil in Hr].
  cbn [mbind option_bind] in Hr.
  destruct (unplaced_stretch _ _ _ _ _) as [r'|] eqn:Eu; [|by apply not_elem_of_nil in Hr].
  apply list_elem_of_singleton in Hr as ->.
  destruct (unplaced_limits_spec _ _ _ Hw Hs El) as (Hl & L1 & L2).
  assert (Hstarts : Forall is_u64 (ProviderSegment.start <$> segments)).
  { apply Forall_fmap. eapply Forall_impl; [exact Hty|]. by intros ? [? _]. }
  destruct (unplaced_stretch_spec audio limits Ha Hl _ _ _ _ Hstarts Eu) as (R0 & R1 & R2 & R3 & R4).
  split; [done|]. unfold range_within. lia.
Qed.
End Chunk.

Lemma chunk_output_spec `{UnicodeTables} chunk audio source output v :
  TimeRange.wf audio -> TimeRange.wf source -> TimeRange.wf (PlannedChunk.window chunk) ->
  is_u32 (PlannedChunk.index chunk) -> Forall segment_typed (ProviderChunkOutput.segments output) ->
  validate_chunk_output chunk audio source output = Ok v ->
  let warned := TranscriptWarnings.count_of (ValidatedChunk.warnings v) in
  let rejected := warned TranscriptWarningKind.ProviderSegmentsRejected in
  let markers := warned TranscriptWarningKind.NonSpeechMarkersRemoved in
  let total := Z.of_nat (length (ProviderChunkOutput.segments output)) in
  ValidatedChunk.segments v = omap (draft_of audio source) (ProviderChunkOutput.segments output)
  /\ Forall (fun d => TimeRange.wf (AsrSegmentDraft.range d)
               /\ range_within (AsrSegmentDraft.range d) audio
               /\ range_within (AsrSegmentDraft.range d) source
               /\ Confidence.wf (AsrSegmentDraft.confidence d)) (ValidatedChunk.segments v)
  /\ StronglySorted (fun a b => TimeRange.start (AsrSegmentDraft.range a)
                                <= TimeRange.start (AsrSegmentDraft.range b)) (ValidatedChunk.segments v)
  /\ Forall (fun r => TimeRange.wf r /\ range_within r (PlannedChunk.window chunk)
                      /\ range_within r source /\ range_within r audio) (ValidatedChunk.unplaced v)
  /\ TranscriptWarnings.wf (ValidatedChunk.warnings v)
  /\ total = Z.of_nat (length (ValidatedChunk.segments v)) + rejected + markers
  /\ warned TranscriptWarningKind.ProviderEndTrimmed
     = Z.of_nat (length (filter is_trimmed (ValidatedChunk.segments v)))
  /\ usable (total - markers) rejected.
Proof.
  intros Ha Hs Hw Hi Hty. unfold validate_chunk_output.
  destruct (MAX_PROVIDER_SEGMENTS <? _) eqn:Elen; [done|]. bool_prop.
  pose proof (check_structure_spec None (ProviderChunkOutput.segments output)) as Hstr.
  destruct (check_structure _ _) as [[]|e]; [|done]. destruct Hstr as (_ & _ & Hso & _).
  cbn [result_bind]. cbn zeta. rewrite placing_spec by done. cbn [considered rejected trimmed markers placed unplaced].
  set (segs := ProviderChunkOutput.segments output) in *.
  set (drafts := omap (draft_of audio source) segs). fold drafts.
  pose proof (partition_segments audio source output) as Hpart. fold segs drafts in Hpart.
  unfold MAX_PROVIDER_SEGMENTS in Elen.
  assert (Htr : Z.of_nat (length (filter is_trimmed drafts)) <= Z.of_nat (length drafts))
    by (apply Nat2Z.inj_le, length_filter).
  assert (Hr0 : 0 <= rejected_count audio source output) by (unfold rejected_count; lia).
  assert (Hm0 : 0 <= marker_count output) by (unfold marker_count; lia).
  destruct (rejections_make_chunk_unusable _ _) eqn:Er; [done|].
  apply rejections_spec in Er; [|ulia..]. intros [= <-]. cbn zeta.
  cbn [ValidatedChunk.segments ValidatedChunk.unplaced ValidatedChunk.warnings].
  destruct (chunk_warnings_spec chunk Hi (rejected_count audio source output)
              (Z.of_nat (length (filter is_trimmed drafts))) (marker_count output))
    as (Hw1 & -> & -> & ->); [ulia..|].
  split; [done|]. split.
  { apply Forall_forall. intros d Hd. apply list_elem_of_omap in Hd as (s & Hin & Ed).
    rewrite Forall_forall in Hty. by destruct (draft_of_spec _ _ _ _ Ha (Hty _ Hin) Ed) as (? & ? & ? & ? & _). }
  split; [by apply drafts_sorted|]. split; [by apply stretches_within|].
  split; [done|]. split; [lia|]. by split.
Qed.

(** The numbers it records, and the list of where rejected words may lie. *)
Lemma chunk_output_counts `{UnicodeTables} chunk audio source output v :
  is_u32 (PlannedChunk.index chunk) -> validate_chunk_output chunk audio source output = Ok v ->
  let segments := ProviderChunkOutput.segments output in
  TranscriptWarnings.count_of (ValidatedChunk.warnings v) TranscriptWarningKind.ProviderSegmentsRejected
    = rejected_count audio source output
  /\ TranscriptWarnings.count_of (ValidatedChunk.warnings v) TranscriptWarningKind.NonSpeechMarkersRemoved = marker_count output
  /\ Forall tokens_fit segments
  /\ ValidatedChunk.unplaced v
     = (enumerate segments ≫= stretch_of audio source (unplaced_limits (PlannedChunk.window chunk) source)
                               (ProviderSegment.start <$> segments))
  /\ ValidatedChunk.chunk v = chunk /\ ValidatedChunk.audio v = audio
  /\ ValidatedChunk.language v = ProviderChunkOutput.language output.
Proof.
  intros Hi. cbn zeta. unfold validate_chunk_output. destruct (MAX_PROVIDER_SEGMENTS <? _) eqn:Elen; [done|]. bool_prop.
  pose proof (check_structure_spec None (ProviderChunkOutput.segments output)) as Hstr.
  destruct (check_structure _ _) as [[]|e]; [|done]. destruct Hstr as (Hfit & _).
  cbn [result_bind]. cbn zeta. rewrite placing_spec by done. cbn [considered rejected trimmed markers placed unplaced].
  destruct (rejections_make_chunk_unusable _ _); [done|]. intros [= <-].
  pose proof (partition_segments audio source output) as Hpart. unfold MAX_PROVIDER_SEGMENTS in Elen.
  set (drafts := omap (draft_of audio source) (ProviderChunkOutput.segments output)) in *.
  assert (Htr : Z.of_nat (length (filter is_trimmed drafts)) <= Z.of_nat (length drafts)) by (apply Nat2Z.inj_le, length_filter).
  assert (Hr0 : 0 <= rejected_count audio source output) by (unfold rejected_count; lia).
  assert (Hm0 : 0 <= marker_count output) by (unfold marker_count; lia).
  destruct (chunk_warnings_spec chunk Hi (rejected_count audio source output)
              (Z.of_nat (length (filter is_trimmed drafts))) (marker_count output)) as (_ & C1 & _ & C2); [ulia..|].
  by repeat (split; [assumption || reflexivity|]).
Qed.

(** ** What an output means

    The same, said without the functions of the loop. *)

(** A text that is markers only: each in brackets or parentheses, and after each
    one but spaces. *)
Inductive markers_only : text -> Prop :=
| no_marker : markers_only []
| one_marker opening closing inner rest :
    (opening = open_bracket /\ closing = close_bracket) \/ (opening = open_paren /\ closing = close_paren) ->
    closing ∉ inner -> markers_only (trim_start rest) -> markers_only (opening :: inner ++ closing :: rest).

Lemma after_first_spec close s rest :
  after_first close s = Some rest <-> exists inner, s = inner ++ close :: rest /\ close ∉ inner.
Proof.
  revert rest. induction s as [|c s IH]; intros rest; cbn [after_first].
  { split; [done|]. by intros ([] & ? & _). }
  destruct (Ascii.eqb_spec c close) as [->|Hc].
  - split.
    + intros [= ->]. exists []. split; [done|]. apply not_elem_of_nil.
    + intros ([|c inner] & E & Hin); [by injection E as ->|]. injection E as <- _. destruct Hin. by left.
  - rewrite IH. split; intros (inner & Hs & Hin).
    + exists (c :: inner). subst s. split; [done|]. apply not_elem_of_cons. by split.
    + destruct inner as [|c' inner]; [by injection Hs as -> _|]. injection Hs as -> ->. exists inner.
      split; [done|]. by apply not_elem_of_cons in Hin as [_ Hin].
Qed.

(** A segment that speaks words, and not only markers. *)
Definition has_words (s : ProviderSegment.t) : Prop :=
  match ProviderSegment.cue_text s with
  | Some value => ~ markers_only (trim (CueText.as_text value))
  | None => False
  end.

Lemma only_markers_spec fuel rest : (length rest <= fuel)%nat -> only_markers fuel rest = true <-> markers_only rest.
Proof.
  revert rest. induction fuel as [|fuel IH]; intros [|c rest] Hlen; cbn [length] in Hlen; try lia;
    try (split; [constructor|done]).
  cbn [only_markers]. assert (Hclose : forall close inner after, c <> close -> c :: rest = inner ++ close :: after ->
    exists inner', inner = c :: inner' /\ rest = inner' ++ close :: after).
  { intros close [|c' inner'] after Hc E; injection E as -> ->; [done|by exists inner']. }
  assert (Hstep : forall close, (c = open_bracket /\ close = close_bracket) \/ (c = open_paren /\ close = close_paren) ->
    match after_first close (c :: rest) with Some after => only_markers fuel (trim_start after) | None => false end = true
    <-> markers_only (c :: rest)).
  { intros close Hb. assert (Hne : c <> close) by (destruct Hb as [[-> ->]|[-> ->]]; done). split.
    - destruct (after_first close (c :: rest)) as [after|] eqn:Ea; [|done].
      apply after_first_spec in Ea as (inner & E & Hin). destruct (Hclose close inner after Hne E) as (inner' & -> & ->).
      intros Ho. apply one_marker; [done|by apply not_elem_of_cons in Hin as [_ Hin]|]. apply IH; [|done].
      destruct (strip_all_suffix (length after) WHITESPACE after) as [removed Hr]. fold (trim_start after) in Hr.
      apply (f_equal length) in Hr. rewrite !length_app in Hr. rewrite length_app in Hlen. cbn in Hlen. lia.
    - intros Hm. inversion Hm as [|opening closing inner after Hb' Hin Hafter]; subst.
      assert (closing = close) as -> by (destruct Hb as [[-> ->]|[-> ->]], Hb' as [[? ->]|[? ->]]; done).
      rewrite (proj2 (after_first_spec close _ after)); [|exists (c :: inner); split; [done|]; by apply not_elem_of_cons].
      apply IH; [|done]. destruct (strip_all_suffix (length after) WHITESPACE after) as [removed Hr].
      fold (trim_start after) in Hr. apply (f_equal length) in Hr. rewrite !length_app in Hr. rewrite length_app in Hlen. cbn in Hlen. lia. }
  destruct (Ascii.eqb_spec c open_bracket) as [->|H1]; [apply Hstep; by left|].
  destruct (Ascii.eqb_spec c open_paren) as [->|H2]; [apply Hstep; by right|].
  split; [done|]. intros Hm. by inversion Hm as [|? ? ? ? [[-> _]|[-> _]]].
Qed.

Lemma spoken_words s : spoken_text s = None <-> ~ has_words s.
Proof.
  unfold spoken_text, has_words. destruct (ProviderSegment.cue_text s) as [value|]; cbn [mbind option_bind]; [|by split; [intros _ []|]].
  unfold is_non_speech_marker. rewrite <- (only_markers_spec _ _ (le_n _)).
  destruct (only_markers _ _); split; try done; [intros _ H; by apply H|]. intros H. destruct H. done.
Qed.

Lemma spoken_is_text s value : spoken_text s = Some value -> ProviderSegment.cue_text s = Some value.
Proof.
  unfold spoken_text. destruct (ProviderSegment.cue_text s) as [v|]; [|done]. cbn [mbind option_bind].
  by destruct (is_non_speech_marker _).
Qed.

#[global] Instance has_words_dec s : Decision (has_words s).
Proof.
  destruct (decide (spoken_text s = None)) as [E|E]; [right; by apply spoken_words|left].
  unfold spoken_text, has_words in *. destruct (ProviderSegment.cue_text s) as [value|]; cbn [mbind option_bind] in E; [|done].
  rewrite <- (only_markers_spec _ _ (le_n _)). fold (is_non_speech_marker (CueText.as_text value)).
  by destruct (is_non_speech_marker _).
Defined.

(** A segment with a time in the audio: it begins inside the audio, before its
    end, which lies inside the audio or past it by no more than a second, or by no
    more than the longest window allows. *)
Definition timed (audio : TimeRange.t) (s : ProviderSegment.t) : Prop :=
  ProviderSegment.start s < ProviderSegment.end_ s
  /\ TimeRange.start audio + ProviderSegment.start s < TimeRange.end_ audio
  /\ (TimeRange.start audio + ProviderSegment.end_ s <= TimeRange.end_ audio + PROVIDER_END_TOLERANCE_MICROS
      \/ ProviderSegment.end_ s <= MAX_CHUNK_WINDOW_MICROS).

(** A segment with a place in the audio and in the source. *)
Definition placeable (audio source : TimeRange.t) (s : ProviderSegment.t) : Prop :=
  timed audio s
  /\ TimeRange.start source <= TimeRange.start audio + ProviderSegment.start s
  /\ Z.min (TimeRange.start audio + ProviderSegment.end_ s) (TimeRange.end_ audio) <= TimeRange.end_ source.

#[global] Instance timed_dec audio s : Decision (timed audio s).
Proof. unfold timed. apply _. Defined.
#[global] Instance placeable_dec audio source s : Decision (placeable audio source s).
Proof. unfold placeable. apply _. Defined.

(** Its place: the recognizer's times on the timeline, the end cut at the audio's. *)
Definition place_in (audio : TimeRange.t) (s : ProviderSegment.t) : TimeRange.t :=
  TimeRange.mk (TimeRange.start audio + ProviderSegment.start s)
    (Z.min (TimeRange.start audio + ProviderSegment.end_ s) (TimeRange.end_ audio)).

Lemma timed_range audio s :
  TimeRange.wf audio -> segment_typed s ->
  asr_source_range audio (ProviderSegment.start s) (ProviderSegment.end_ s) (trim_of audio s)
  = if decide (timed audio s) then Some (place_in audio s) else None.
Proof.
  intros Ha [Hs He]. unfold asr_source_range, trim_of, provider_end_limit. rewrite (duration_exact _ Ha).
  destruct Ha as (Ha1 & Ha2 & Ha3). destruct (_ || _) eqn:E; bool_prop.
  { rewrite decide_False; [done|]. unfold timed. lia. }
  unfold checked_u64. rewrite (checked_in _ _ (TimeRange.start audio + ProviderSegment.start s)) by ulia.
  cbn [mbind option_bind]. unfold place_in, TimeRange.new.
  destruct (_ <? ProviderSegment.end_ s) eqn:El; bool_prop.
  - set (limit := if _ <? saturating_u64 _ then _ else _).
    assert (Hlimit : limit = Z.max MAX_CHUNK_WINDOW_MICROS
      (saturating_u64 (TimeRange.end_ audio - TimeRange.start audio + PROVIDER_END_TOLERANCE_MICROS)))
      by (unfold limit; destruct (_ <? saturating_u64 _) eqn:Em; bool_prop; lia).
    rewrite Hlimit. clear limit Hlimit. unfold PROVIDER_END_TOLERANCE_MICROS, MAX_CHUNK_WINDOW_MICROS in *.
    destruct (ProviderSegment.end_ s <=? _) eqn:Ew; bool_prop; cbn [andb mbind option_bind].
    + rewrite (proj2 (Z.leb_gt _ _)) by lia. rewrite decide_True by (unfold timed, PROVIDER_END_TOLERANCE_MICROS, MAX_CHUNK_WINDOW_MICROS; ulia). cbn. do 2 f_equal. lia.
    + rewrite decide_False by (unfold timed, PROVIDER_END_TOLERANCE_MICROS, MAX_CHUNK_WINDOW_MICROS; ulia). done.
  - rewrite (proj2 (Z.leb_le _ _)) by lia. rewrite checked_in by ulia. cbn [mbind option_bind].
    rewrite (proj2 (Z.leb_gt _ _)) by lia. cbn [result_ok].
    rewrite decide_True by (unfold timed, PROVIDER_END_TOLERANCE_MICROS; lia). do 2 f_equal. lia.
Qed.

Lemma placed_range_spec audio source s :
  TimeRange.wf audio -> segment_typed s ->
  placed_range audio source s = if decide (placeable audio source s) then Some (place_in audio s) else None.
Proof.
  intros Ha Hs. unfold placed_range, placeable. rewrite (timed_range _ _ Ha Hs).
  destruct (decide (timed audio s)) as [Ht|Ht]; cbn [mbind option_bind].
  - cbn [place_in TimeRange.start TimeRange.end_]. destruct (_ && _) eqn:Eb; bool_prop.
    + by rewrite decide_True.
    + rewrite decide_False; [done|]. lia.
  - by rewrite decide_False by tauto.
Qed.

(** The words of a rejected segment come no earlier than its own start; if that
    lies outside the decoded audio, than the latest start before it that lies
    inside; and without one, than the audio. *)
Definition words_from (starts : list ChunkTime) (decoded : Z) (i : nat) (from : Z) : Prop :=
  exists own, starts !! i = Some own
    /\ ((own < decoded /\ from = own)
        \/ (decoded <= own /\ exists j, (j < i)%nat /\ starts !! j = Some from /\ from < decoded
              /\ forall k t, (j < k < i)%nat -> starts !! k = Some t -> decoded <= t)
        \/ (decoded <= own /\ from = 0 /\ forall k t, (k < i)%nat -> starts !! k = Some t -> decoded <= t)).

(** They come no later than the next start, if that lies inside the audio, and
    than the end of the audio otherwise. *)
Definition words_until (starts : list ChunkTime) (decoded : Z) (i : nat) (until : Z) : Prop :=
  (starts !! S i = Some until /\ until < decoded)
  \/ (until = decoded /\ forall t, starts !! S i = Some t -> decoded <= t).

Lemma find_last {A} (p : A -> bool) (l : list A) :
  match find p (reverse l) with
  | Some a => exists j, l !! j = Some a /\ p a = true /\ forall k b, (j < k)%nat -> l !! k = Some b -> p b = false
  | None => forall k b, l !! k = Some b -> p b = false
  end.
Proof.
  pose proof (find_split p (reverse l)) as Hf. destruct (find p (reverse l)) as [a|].
  - destruct Hf as (pre & post & Hl & Hpre & Ha). apply (f_equal reverse) in Hl.
    rewrite reverse_involutive, reverse_app, reverse_cons, <- app_assoc in Hl. cbn [app] in Hl. subst l.
    exists (length (reverse post)). split; [by apply list_lookup_middle|]. split; [done|].
    intros k b Hk. rewrite lookup_app_r by lia. destruct (k - length (reverse post))%nat eqn:Ek; [lia|]. cbn.
    intros Hb%list_elem_of_lookup_2. change (b ∈ reverse pre) in Hb. rewrite elem_of_reverse in Hb.
    rewrite Forall_forall in Hpre. by apply Hpre.
  - intros k b Hb%list_elem_of_lookup_2. rewrite Forall_forall in Hf. apply Hf. by apply elem_of_reverse.
Qed.

Lemma words_from_model starts decoded i own from :
  starts !! i = Some own ->
  words_from starts decoded i from
  <-> from = if own <? decoded then own
             else default 0 (find (fun time => time <? decoded) (reverse (take i starts))).
Proof.
  intros Ho. unfold words_from. destruct (Z.ltb_spec own decoded) as [Hlt|Hge].
  { split; [|intros ->; exists own; split; [done|by left]].
    intros (own' & Ho' & [[_ ->]|[[? _]|[? _]]]); simplify_eq; [done|lia..]. }
  pose proof (find_last (fun time => time <? decoded) (take i starts)) as Hf.
  assert (Htake : forall k t, starts !! k = Some t -> (k < i)%nat -> take i starts !! k = Some t)
    by (intros k t Hk Hlt; by rewrite lookup_take_lt).
  destruct (find _ _) as [a|]; cbn [default option_rect].
  - change (id a) with a. destruct Hf as (j & Hj & Hin & Hafter). bool_prop.
    apply lookup_take_Some in Hj as [Hj Hji]. split.
    + intros (own' & Ho' & [[? _]|[(_ & j' & Hj' & Hf' & Hin' & Hafter')|(_ & _ & Hnone)]]); simplify_eq; [lia| |].
      * destruct (Nat.lt_total j j') as [Hlt|[->|Hlt]]; [|exact (Some_inj _ _ (eq_trans (eq_sym Hf') Hj))|].
        -- pose proof (Hafter j' _ Hlt (Htake _ _ Hf' Hj')). bool_prop. lia.
        -- pose proof (Hafter' j _ (conj Hlt Hji) Hj). lia.
      * pose proof (Hnone j _ Hji Hj). lia.
    + intros ->. exists own. split; [done|]. right. left. split; [done|]. exists j. split; [done|]. split; [done|]. split; [done|].
      intros k t Hk Ht. pose proof (Hafter k t (proj1 Hk) (Htake _ _ Ht (proj2 Hk))). bool_prop. done.
  - split.
    + intros (own' & Ho' & [[? _]|[(_ & j' & Hj' & Hf' & Hin' & _)|(_ & -> & _)]]); simplify_eq; [lia| |done].
      pose proof (Hf j' _ (Htake _ _ Hf' Hj')). bool_prop. lia.
    + intros ->. exists own. split; [done|]. right. right. split; [done|]. split; [done|].
      intros k t Hk Ht. pose proof (Hf k t (Htake _ _ Ht Hk)). by bool_prop.
Qed.

Lemma words_until_model (starts : list ChunkTime) decoded i until :
  words_until starts decoded i until
  <-> until = match starts !! S i with
              | Some next => if next <? decoded then next else decoded
              | None => decoded
              end.
Proof.
  unfold words_until. destruct (starts !! S i) as [next|].
  - destruct (Z.ltb_spec next decoded) as [Hlt|Hge]; split.
    + intros [[[= ->] _]|[_ Hn]]; [done|]. specialize (Hn next eq_refl). lia.
    + intros ->. by left.
    + intros [[[= ->] ?]|[-> _]]; [lia|done].
    + intros ->. right. split; [done|]. by intros t [= <-].
  - split; [by intros [[]|[-> _]]|]. intros ->. by right.
Qed.

(** Where they may lie: there, within the window and the source, if that leaves
    any time and the text has a letter or a digit. *)
Definition stretch_within `{UnicodeTables} (audio limits : TimeRange.t) (value : CueText.t)
    (starts : list ChunkTime) (i : nat) (r : TimeRange.t) : Prop :=
  Exists (fun c => is_alphanumeric c = true) (chars (CueText.as_text value))
  /\ exists from until,
       words_from starts (TimeRange.end_ audio - TimeRange.start audio) i from
       /\ words_until starts (TimeRange.end_ audio - TimeRange.start audio) i until
       /\ TimeRange.start r = Z.max (TimeRange.start audio + from) (TimeRange.start limits)
       /\ TimeRange.end_ r = Z.min (TimeRange.start audio + until) (TimeRange.end_ limits)
       /\ TimeRange.start r < TimeRange.end_ r.

Lemma words_from_range starts decoded i from :
  Forall is_u64 starts -> words_from starts decoded i from -> 0 <= from <= U64_MAX.
Proof.
  rewrite Forall_lookup. intros Hs (own & Ho & [[_ ->]|[(_ & j & _ & Hj & _)|(_ & -> & _)]]); [|specialize (Hs j from Hj)|done].
  - by specialize (Hs i own Ho).
  - done.
Qed.

Lemma words_until_range starts decoded i until :
  Forall is_u64 starts -> 0 <= decoded -> words_until starts decoded i until -> 0 <= until <= decoded.
Proof.
  rewrite Forall_lookup. intros Hs Hd [[Hu Hlt]|[-> _]]; [|lia]. specialize (Hs _ _ Hu). unfold is_u64 in Hs. lia.
Qed.

Lemma unplaced_stretch_iff `{UnicodeTables} audio limits value (starts : list ChunkTime) i r :
  TimeRange.wf audio -> TimeRange.wf limits -> Forall is_u64 starts -> is_Some (starts !! i) ->
  unplaced_stretch audio limits value starts i = Some r <-> stretch_within audio limits value starts i r.
Proof.
  intros Ha Hl Hstarts [own Ho]. unfold unplaced_stretch, stretch_within. rewrite (duration_exact _ Ha), Ho.
  destruct (existsb _ _) eqn:Ex; cbn [negb].
  2:{ split; [done|]. intros [Hex _]. apply Exists_exists in Hex as (c & Hc & Hal). apply not_true_iff_false in Ex.
      destruct Ex. apply existsb_exists. exists c. split; [by apply list_elem_of_In|done]. }
  assert (Halpha : Exists (fun c => is_alphanumeric c = true) (chars (CueText.as_text value))).
  { apply existsb_exists in Ex as (c & Hc & Hal). apply Exists_exists. exists c. split; [by apply list_elem_of_In|done]. }
  cbn [mbind option_bind]. set (decoded := TimeRange.end_ audio - TimeRange.start audio).
  setoid_rewrite (words_from_model starts decoded i own _ Ho). setoid_rewrite words_until_model.
  pose proof (proj2 (words_from_model starts decoded i own _ Ho) eq_refl) as Hfrom.
  pose proof (proj2 (words_until_model starts decoded i _) eq_refl) as Huntil.
  apply (words_from_range _ _ _ _ Hstarts) in Hfrom.
  apply (words_until_range _ _ _ _ Hstarts) in Huntil; [|destruct Ha; unfold decoded; lia].
  unfold ChunkTime in *. set (from := if own <? decoded then own else _) in *. set (until := match starts !! S i with Some _ => _ | None => _ end) in *.
  clearbody from until. unfold decoded in Huntil. destruct Ha as (Ha1 & Ha2 & Ha3), Hl as (Hl1 & Hl2 & Hl3). split.
  - destruct (until <=? from) eqn:E; [done|]. bool_prop. unfold checked_u64. 
    rewrite (checked_in _ _ (TimeRange.start audio + from)), (checked_in _ _ (TimeRange.start audio + until)) by ulia.
    cbn [mbind option_bind].
    intros Hr. apply TimeRange_new_Ok in Hr as ((_ & _ & Hlt) & H1 & H2); [|ulia..]. split; [done|].
    exists from, until. repeat (split; [done|]). done.
  - intros (_ & from' & until' & -> & -> & H1 & H2 & H3). rewrite (proj2 (Z.leb_gt _ _)) by lia.
    unfold checked_u64. 
    rewrite (checked_in _ _ (TimeRange.start audio + from)), (checked_in _ _ (TimeRange.start audio + until)) by ulia.
    cbn [mbind option_bind]. unfold TimeRange.new.
    rewrite (proj2 (Z.leb_gt _ _)) by lia. destruct r. cbn in *. by subst.
Qed.

(** The probabilities of the tokens that are text. *)
Definition text_probabilities (tokens : list ProviderToken.t) : list f64 :=
  ProviderToken.probability <$> filter (fun t => ProviderToken.kind t = ProviderTokenKind.TextToken) tokens.

(** Their mean in basis points: the sum, over how many they are, times ten
    thousand, rounded, each step as the machine computes it. *)
Definition mean_points (probabilities : list f64) : f64 :=
  let sum := fold_left f64_add probabilities (S754_zero false) in
  f64_round (f64_mul (f64_div sum (f64_of_Z (Z.of_nat (length probabilities)))) (f64_of_Z 10000)).

(** The confidence of a segment: none without a text token; otherwise the least
    number of basis points, up to ten thousand, that is not below the mean, as a
    score that nobody calibrated. *)
Definition confidence_of (tokens : list ProviderToken.t) (c : Confidence.t) : Prop :=
  match text_probabilities tokens with
  | [] => c = Confidence.unknown
  | probabilities =>
      exists b, c = Confidence.mk (Some b) ProviderUncalibrated /\ 0 <= b <= 10000
        /\ (b < 10000 -> SFltb (f64_of_Z b) (mean_points probabilities) = false)
        /\ (0 < b -> SFltb (f64_of_Z (b - 1)) (mean_points probabilities) = true)
  end.

Lemma text_tokens (tokens : list ProviderToken.t) :
  filter (fun t => is_text_token t = true) tokens
  = filter (fun t => ProviderToken.kind t = ProviderTokenKind.TextToken) tokens.
Proof. apply filter_ext_in. intros t _. unfold is_text_token. by rewrite bool_decide_eq_true. Qed.

Lemma scaled_is_mean tokens :
  Z.of_nat (length tokens) <= U32_MAX -> scaled_mean tokens = mean_points (text_probabilities tokens).
Proof.
  intros Hlen. unfold scaled_mean, mean_points, text_probabilities. rewrite text_tokens, length_fmap.
  set (counted := filter _ tokens). assert (Hc : Z.of_nat (length counted) <= U32_MAX)
    by (pose proof (length_filter (fun t => ProviderToken.kind t = ProviderTokenKind.TextToken) tokens); unfold counted; lia).
  replace (saturating_u32 (Z.of_nat (length counted))) with (Z.of_nat (length counted)) by ulia.
  assert (Hsum : forall sum, fold_left (fun sum t => f64_add sum (ProviderToken.probability t)) counted sum
                             = fold_left f64_add (ProviderToken.probability <$> counted) sum).
  { clear. induction counted as [|t l IH]; intros sum; [done|]. cbn. apply IH. }
  by rewrite Hsum.
Qed.

Lemma confidence_computed tokens :
  Z.of_nat (length tokens) <= U32_MAX -> confidence_of tokens (mean_text_confidence tokens).
Proof.
  intros Hlen. destruct (mean_text_confidence_spec tokens) as [Hwf Hspec]. unfold confidence_of.
  destruct (mean_text_confidence tokens) as [[b|] origin]; cbn [Confidence.basis_points Confidence.origin] in Hspec.
  - destruct Hspec as (-> & Hex & H1 & H2). cbn in Hwf. destruct Hwf as [Hb _].
    rewrite (scaled_is_mean _ Hlen) in H1, H2. destruct (text_probabilities tokens) as [|p ps] eqn:Et; [|by exists b].
    apply Exists_exists in Hex as (t & Hin & Ht). unfold text_probabilities in Et. apply fmap_nil_inv in Et.
    assert (Hf : t ∈ filter (fun t => ProviderToken.kind t = ProviderTokenKind.TextToken) tokens)
      by (apply list_elem_of_filter; by split). rewrite Et in Hf. by apply elem_of_nil in Hf.
  - cbn in Hwf. subst origin. unfold text_probabilities. rewrite filter_none; [done|].
    eapply Forall_impl; [exact Hspec|]. cbn. by intros t ->.
Qed.

(** A segment as it is kept. *)
Definition kept_as (audio : TimeRange.t) (s : ProviderSegment.t) (d : AsrSegmentDraft.t) : Prop :=
  AsrSegmentDraft.range d = place_in audio s
  /\ ProviderSegment.cue_text s = Some (AsrSegmentDraft.cue_text d)
  /\ confidence_of (ProviderSegment.tokens s) (AsrSegmentDraft.confidence d)
  /\ AsrSegmentDraft.provider_start d = ProviderSegment.start s
  /\ AsrSegmentDraft.provider_end d = ProviderSegment.end_ s
  /\ (AsrSegmentDraft.trimmed d = TrimmedToAudioEnd
      <-> TimeRange.end_ audio < TimeRange.start audio + ProviderSegment.end_ s).

Section Meaning.
Context `{UnicodeTables} (chunk : PlannedChunk.t) (audio source : TimeRange.t) (Ha : TimeRange.wf audio).

Lemma draft_meaning s :
  segment_typed s -> tokens_fit s ->
  match draft_of audio source s with
  | Some d => (has_words s /\ placeable audio source s) /\ kept_as audio s d
  | None => ~ (has_words s /\ placeable audio source s)
  end.
Proof.
  intros Hty Hfit. unfold draft_of. destruct (spoken_text s) as [value|] eqn:Es; cbn [mbind option_bind].
  2:{ apply spoken_words in Es. tauto. }
  rewrite (placed_range_spec _ _ _ Ha Hty). destruct (decide (placeable audio source s)) as [Hp|Hp]; cbn [mbind option_bind].
  2:{ tauto. }
  split; [split; [|done]|].
  - destruct (decide (has_words s)) as [Hw|Hw]; [done|]. apply spoken_words in Hw. congruence.
  - split; [done|]. split; [by apply spoken_is_text|].
    split; [apply confidence_computed; unfold tokens_fit, MAX_PROVIDER_TOKENS in Hfit; ulia|]. split; [done|]. split; [done|].
    cbn [AsrSegmentDraft.trimmed]. unfold trim_of. rewrite (duration_exact _ Ha).
    destruct (_ <? _) eqn:E; bool_prop; split; try done; lia.
Qed.

Lemma drafts_meaning segs :
  Forall segment_typed segs -> Forall tokens_fit segs ->
  Forall2 (kept_as audio) (filter (fun s => has_words s /\ placeable audio source s) segs) (omap (draft_of audio source) segs).
Proof.
  intros Hty Hfit. induction segs as [|s segs IH]; [constructor|].
  apply Forall_cons in Hty as [Ht Hty], Hfit as [Hf Hfit]. pose proof (draft_meaning s Ht Hf) as Hd.
  rewrite filter_cons, omap_cons_app. destruct (draft_of audio source s) as [d|]; cbn [option_list option_rect app].
  - rewrite decide_True by apply Hd. constructor; [apply Hd|by apply IH].
  - rewrite decide_False by done. by apply IH.
Qed.

Lemma rejected_meaning s :
  segment_typed s -> is_rejected audio source s <-> has_words s /\ ~ placeable audio source s.
Proof.
  intros Hty. unfold is_rejected. rewrite (placed_range_spec _ _ _ Ha Hty), spoken_words.
  destruct (decide (placeable audio source s)), (decide (has_words s)); naive_solver.
Qed.

Lemma rejected_counted segs :
  Forall segment_typed segs ->
  filter (is_rejected audio source) segs = filter (fun s => has_words s /\ ~ placeable audio source s) segs.
Proof. rewrite Forall_forall. intros Hty. apply filter_ext_in. intros s Hs. by apply rejected_meaning, Hty. Qed.

Lemma markers_counted (segs : list ProviderSegment.t) : filter is_marker segs = filter (fun s => ~ has_words s) segs.
Proof. apply filter_ext_in. intros s _. unfold is_marker. by rewrite spoken_words. Qed.

Lemma trimmed_counted segs drafts :
  Forall2 (kept_as audio) segs drafts ->
  length (filter is_trimmed drafts)
  = length (filter (fun s => TimeRange.end_ audio < TimeRange.start audio + ProviderSegment.end_ s) segs).
Proof.
  induction 1 as [|s d segs drafts (_ & _ & _ & _ & _ & Ht) _ IH]; [done|]. rewrite !filter_cons.
  unfold is_trimmed at 1. case_decide as H1; case_decide as H2; cbn; rewrite ?IH; tauto.
Qed.

(** Where the words of the segment at a position may lie, if it is one of words
    without a place. *)
Definition may_lie (segments : list ProviderSegment.t) (i : nat) (s : ProviderSegment.t) (r : TimeRange.t) : Prop :=
  has_words s /\ ~ placeable audio source s
  /\ exists value limits, ProviderSegment.cue_text s = Some value
       /\ TimeRange.start limits = Z.max (TimeRange.start (PlannedChunk.window chunk)) (TimeRange.start source)
       /\ TimeRange.end_ limits = Z.min (TimeRange.end_ (PlannedChunk.window chunk)) (TimeRange.end_ source)
       /\ stretch_within audio limits value (ProviderSegment.start <$> segments) i r.

Context (Hs : TimeRange.wf source) (Hw : TimeRange.wf (PlannedChunk.window chunk)).

(** The stretch of an entry of the loop, as an option. *)
Definition stretch_found (segments : list ProviderSegment.t) (entry : nat * ProviderSegment.t) : option TimeRange.t :=
  head (stretch_of audio source (unplaced_limits (PlannedChunk.window chunk) source)
          (ProviderSegment.start <$> segments) entry).

Lemma stretches_found segments entries :
  entries ≫= stretch_of audio source (unplaced_limits (PlannedChunk.window chunk) source) (ProviderSegment.start <$> segments)
  = omap (stretch_found segments) entries.
Proof.
  induction entries as [|e entries IH]; [done|]. rewrite bind_cons, omap_cons_app, IH. f_equal.
  unfold stretch_found, stretch_of. destruct (decide _); [|done]. by destruct (unplaced_limits _ _ ≫= _).
Qed.

Lemma stretch_meaning segments i s r :
  Forall segment_typed segments -> segments !! i = Some s ->
  stretch_found segments (i, s) = Some r <-> may_lie segments i s r.
Proof.
  intros Hty Hi. assert (Hts : segment_typed s) by (rewrite Forall_lookup in Hty; by eapply Hty).
  unfold stretch_found, stretch_of, may_lie. cbn [fst snd]. destruct (decide _) as [Hr|Hr]; rewrite rejected_meaning in Hr by done.
  2:{ split; [done|]. tauto. }
  destruct (spoken_text s) as [value|] eqn:Ev; [|apply spoken_words in Ev; tauto].
  assert (Hstarts : Forall is_u64 (ProviderSegment.start <$> segments)).
  { apply Forall_fmap. eapply Forall_impl; [exact Hty|]. by intros ? [? _]. }
  assert (Hsome : is_Some ((ProviderSegment.start <$> segments) !! i)) by (rewrite list_lookup_fmap, Hi; by eexists).
  pose proof (spoken_is_text _ _ Ev) as Etext. destruct (unplaced_limits _ source) as [limits|] eqn:El; cbn [mbind option_bind].
  - destruct (unplaced_limits_spec _ _ _ Hw Hs El) as (Hl & L1 & L2).
    transitivity (unplaced_stretch audio limits value (ProviderSegment.start <$> segments) i = Some r);
      [by destruct (unplaced_stretch _ _ _ _ _)|]. rewrite (unplaced_stretch_iff _ _ _ _ _ _ Ha Hl Hstarts Hsome). split.
    + intros Hst. split; [tauto|]. split; [tauto|]. by exists value, limits.
    + intros (_ & _ & value' & limits' & Et & L1' & L2' & Hst). destruct limits, limits'. cbn in *. simplify_eq. exact Hst.
  - split; [done|]. intros (_ & _ & value' & limits' & _ & L1 & L2 & _ & from & until & _ & _ & R1 & R2 & R3).
    unfold unplaced_limits, TimeRange.new in El. destruct (_ <=? _) eqn:E; [|done]. bool_prop. lia.
Qed.
End Meaning.

(** A chunk that passes keeps, in order and with their words, exactly the
    segments of words that lie in its audio and in the source, at exactly the
    recognizer's times on the timeline (the end cut at the audio's), each with the
    mean of the probabilities of its text tokens as its confidence. Every other
    segment is counted once: as rejected when it has words, and as a marker when
    it has none. The words of a rejected segment are listed, in order, as lying
    between its start, or the latest start before it inside the audio, and the
    next start, or the end of the audio, as far as that is in the window and the
    source; nothing else is listed. At most one segment of two or three, or a
    quarter of four or more, was rejected. Claim C31. *)
Theorem chunk_output_placed `{UnicodeTables} chunk audio source output v :
  TimeRange.wf audio -> TimeRange.wf source -> TimeRange.wf (PlannedChunk.window chunk) ->
  is_u32 (PlannedChunk.index chunk) -> Forall segment_typed (ProviderChunkOutput.segments output) ->
  validate_chunk_output chunk audio source output = Ok v ->
  let segs := ProviderChunkOutput.segments output in
  let places := filter (fun s => has_words s /\ placeable audio source s) segs in
  let rejected := Z.of_nat (length (filter (fun s => has_words s /\ ~ placeable audio source s) segs)) in
  let markers := Z.of_nat (length (filter (fun s => ~ has_words s) segs)) in
  let warned := TranscriptWarnings.count_of (ValidatedChunk.warnings v) in
  Forall2 (kept_as audio) places (ValidatedChunk.segments v)
  /\ (exists found, ValidatedChunk.unplaced v = omap found (enumerate segs)
        /\ forall i s r, segs !! i = Some s -> found (i, s) = Some r <-> may_lie chunk audio source segs i s r)
  /\ Forall (fun d => TimeRange.wf (AsrSegmentDraft.range d)
               /\ range_within (AsrSegmentDraft.range d) audio
               /\ range_within (AsrSegmentDraft.range d) source
               /\ Confidence.wf (AsrSegmentDraft.confidence d)) (ValidatedChunk.segments v)
  /\ StronglySorted (fun a b => TimeRange.start (AsrSegmentDraft.range a)
                                <= TimeRange.start (AsrSegmentDraft.range b)) (ValidatedChunk.segments v)
  /\ Forall (fun r => TimeRange.wf r /\ range_within r (PlannedChunk.window chunk)
                      /\ range_within r source /\ range_within r audio) (ValidatedChunk.unplaced v)
  /\ TranscriptWarnings.wf (ValidatedChunk.warnings v)
  /\ warned TranscriptWarningKind.ProviderSegmentsRejected = rejected
  /\ warned TranscriptWarningKind.NonSpeechMarkersRemoved = markers
  /\ warned TranscriptWarningKind.ProviderEndTrimmed
     = Z.of_nat (length (filter (fun s => TimeRange.end_ audio < TimeRange.start audio + ProviderSegment.end_ s) places))
  /\ Z.of_nat (length segs) = Z.of_nat (length (ValidatedChunk.segments v)) + rejected + markers
  /\ usable (Z.of_nat (length segs) - markers) rejected
  /\ ValidatedChunk.chunk v = chunk /\ ValidatedChunk.audio v = audio
  /\ ValidatedChunk.language v = ProviderChunkOutput.language output.
Proof.
  intros Ha Hs Hw Hi Hty Hv. cbn zeta.
  destruct (chunk_output_spec chunk audio source output v Ha Hs Hw Hi Hty Hv) as (H1 & H2 & H3 & H4 & H5 & H6 & H7 & H8).
  destruct (chunk_output_counts chunk audio source output v Hi Hv) as (C1 & C2 & Hfit & C3 & C4 & C5 & C6).
  unfold rejected_count, marker_count in C1, C2.
  set (segs := ProviderChunkOutput.segments output) in *. pose proof (drafts_meaning audio source Ha segs Hty Hfit) as Hkept.
  rewrite <- H1 in Hkept.
  rewrite (rejected_counted audio source Ha _ Hty) in C1. rewrite markers_counted in C2.
  rewrite C1, C2 in H6, H8. rewrite (trimmed_counted audio _ _ Hkept) in H7.
  split; [exact Hkept|]. split; [|by repeat (split; [assumption|])].
  exists (stretch_found chunk audio source segs). split; [rewrite C3; apply stretches_found|].
  intros i s r. by apply stretch_meaning.
Qed.

(** Ten seconds of audio: a sentence, a marker, words that start past the
    audio, and a sentence whose end runs past it. *)
Definition sample_chunk : PlannedChunk.t :=
  PlannedChunk.mk (mkOpaqueId []) 2 (TimeRange.mk 50000000 60000000).

Definition sample_output : ProviderChunkOutput.t :=
  let say s e words := ProviderSegment.mk s e (Some (CueText.mk (literal words) None))
                         [ProviderToken.mk ProviderTokenKind.TextToken (f64_of_Z 1)] in
  ProviderChunkOutput.mk None
    [say 0 4000000 "we start here"; say 4000000 5000000 "[Music] (applause)";
     say 5000000 5000000 "lost words"; say 6000000 12000000 "and go on"]%string.

Lemma chunk_output_placed_witness :
  let audio := TimeRange.mk 50000000 60000000 in
  let source := TimeRange.mk 0 90000000 in
  exists v,
    validate_chunk_output (H := ascii_tables) sample_chunk audio source sample_output = Ok v
    /\ AsrSegmentDraft.range <$> ValidatedChunk.segments v
       = [TimeRange.mk 50000000 54000000; TimeRange.mk 56000000 60000000]
    /\ ValidatedChunk.unplaced v = [TimeRange.mk 55000000 56000000]
    /\ TranscriptWarnings.count_of (ValidatedChunk.warnings v) TranscriptWarningKind.ProviderSegmentsRejected = 1
    /\ TranscriptWarnings.count_of (ValidatedChunk.warnings v) TranscriptWarningKind.NonSpeechMarkersRemoved = 1
    /\ Forall2 (kept_as audio)
         (filter (fun s => has_words s /\ placeable audio source s) (ProviderChunkOutput.segments sample_output))
         (ValidatedChunk.segments v).
Proof.
  cbn zeta. eexists. split; [vm_compute; reflexivity|].
  split; [reflexivity|]. split; [reflexivity|]. split; [reflexivity|]. split; [reflexivity|].
  eapply (chunk_output_placed (H := ascii_tables) sample_chunk (TimeRange.mk 50000000 60000000)
            (TimeRange.mk 0 90000000) sample_output); [concrete..| |vm_compute; reflexivity].
  repeat (constructor; [concrete|]). constructor.
Defined.

(** A probability: a finite number from zero to one. *)
Definition is_probability (x : f64) : Prop :=
  match x with
  | S754_zero _ => True
  | S754_finite false _ _ => SFleb x (f64_of_Z 1) = true
  | _ => False
  end.

Lemma probability_meaning token : probability_valid token = true <-> is_probability (ProviderToken.probability token).
Proof.
  unfold probability_valid, is_probability. destruct (ProviderToken.probability token) as [sign|sign| |[] m e];
    cbn [f64_is_finite andb]; done.
Qed.

Lemma probabilities_meaning segment :
  probabilities_valid segment <-> Forall (fun t => is_probability (ProviderToken.probability t)) (ProviderSegment.tokens segment).
Proof. unfold probabilities_valid. apply Forall_iff. intros t. apply probability_meaning. Qed.

(** The segment at a position does not start before the one in front of it. *)
Definition follows (segments : list ProviderSegment.t) (i : nat) (s : ProviderSegment.t) : Prop :=
  forall j previous, i = S j -> segments !! j = Some previous -> ProviderSegment.start previous <= ProviderSegment.start s.

(** The fault of the segment at a position: it has too many tokens; or else it
    starts before the one in front of it; or else a token of it has no
    probability. *)
Definition fault_at (segments : list ProviderSegment.t) (i : nat) (e : ProviderOutputError.t) : Prop :=
  exists s, segments !! i = Some s
    /\ match e with
       | ProviderOutputError.TooManyTokens => ~ tokens_fit s
       | ProviderOutputError.OutOfOrderSegments => tokens_fit s /\ ~ follows segments i s
       | ProviderOutputError.InvalidTokenProbability =>
           tokens_fit s /\ follows segments i s
           /\ ~ Forall (fun t => is_probability (ProviderToken.probability t)) (ProviderSegment.tokens s)
       | _ => False
       end.

Lemma fault_unique segments i e e' : fault_at segments i e -> fault_at segments i e' -> e = e'.
Proof. intros (s & Hs & He) (s' & Hs' & He'). simplify_eq. destruct e, e'; tauto. Qed.

(** What is found of the segments from a position on. *)
Lemma check_structure_first done_ segments :
  let all := done_ ++ segments in
  (forall j e, (j < length done_)%nat -> ~ fault_at all j e) ->
  match check_structure (ProviderSegment.start <$> last done_) segments with
  | Ok _ => forall j e, ~ fault_at all j e
  | Err e => exists i, fault_at all i e /\ forall j e', (j < i)%nat -> ~ fault_at all j e'
  end.
Proof.
  cbn zeta. revert done_. induction segments as [|s rest IH]; intros done_ Hdone; cbn [check_structure].
  { rewrite app_nil_r in *. intros j e Hf. pose proof Hf as (s & Hj & _). by apply (Hdone j e (lookup_lt_Some _ _ _ Hj)). }
  assert (Hat : (done_ ++ s :: rest) !! length done_ = Some s) by by apply list_lookup_middle.
  assert (Hfollows : follows (done_ ++ s :: rest) (length done_) s
    <-> match ProviderSegment.start <$> last done_ with
        | Some previous => ProviderSegment.start s <? previous
        | None => false
        end = false).
  { unfold follows. rewrite last_lookup. destruct (length done_) as [|n] eqn:En.
    - destruct done_; [|done]. split; [done|]. by intros _ j previous [=].
    - cbn [pred]. destruct (lookup_lt_is_Some_2 done_ n ltac:(lia)) as [previous Hp]. rewrite Hp. cbn [fmap option_fmap option_map].
      rewrite Z.ltb_ge. split.
      + intros Hf. apply (Hf n); [done|]. by rewrite lookup_app_l by lia.
      + intros Hle j q [= <-] Hq. rewrite lookup_app_l in Hq by lia. congruence. }
  destruct (MAX_PROVIDER_TOKENS <? _) eqn:E1; bool_prop.
  { exists (length done_). split; [|done]. exists s. split; [done|]. unfold tokens_fit. lia. }
  destruct (match ProviderSegment.start <$> last done_ with Some previous => _ | None => _ end) eqn:E2.
  { exists (length done_). split; [|done]. exists s. split; [done|]. split; [unfold tokens_fit; lia|].
    rewrite Hfollows. done. }
  destruct (existsb _ _) eqn:E3.
  { exists (length done_). split; [|done]. exists s. split; [done|]. split; [unfold tokens_fit; lia|]. split; [by apply Hfollows|].
    rewrite <- probabilities_meaning. apply existsb_exists in E3 as (t & Ht & Hp). intros Hf. unfold probabilities_valid in Hf.
    rewrite Forall_forall in Hf. rewrite Hf in Hp; [done|by apply list_elem_of_In]. }
  assert (Hfine : probabilities_valid s).
  { apply Forall_forall. intros t Ht. apply not_true_iff_false in E3. destruct (probability_valid t) eqn:Et; [done|].
    destruct E3. apply existsb_exists. exists t. split; [by apply list_elem_of_In|]. by rewrite Et. }
  specialize (IH (done_ ++ [s])). rewrite last_snoc, <- app_assoc in IH.
  change (done_ ++ [s] ++ rest) with (done_ ++ s :: rest) in IH. apply IH.
  intros j e Hj Hf. rewrite length_app in Hj. cbn in Hj.
  assert (Hcase : (j < length done_)%nat \/ j = length done_) by lia. destruct Hcase as [Hcase| ->]; [by apply (Hdone j e)|].
  destruct Hf as (s' & Hs' & He). simplify_eq. destruct e; [done|destruct He; unfold tokens_fit; lia| | |done].
  - destruct He as [_ He]. apply He. by apply Hfollows.
  - destruct He as (_ & _ & He). by rewrite <- probabilities_meaning in He.
Qed.

(** The reason for which the output of a chunk is refused: it has too many
    segments; or else the first segment with a fault has it; or else too many of
    the segments with words have no place. *)
Definition refused_for (audio source : TimeRange.t) (segs : list ProviderSegment.t)
    (e : ProviderOutputError.t) : Prop :=
  let total := Z.of_nat (length segs) in
  match e with
  | ProviderOutputError.TooManySegments => MAX_PROVIDER_SEGMENTS < total
  | ProviderOutputError.TooManyRejectedSegments =>
      total <= MAX_PROVIDER_SEGMENTS /\ (forall i e', ~ fault_at segs i e')
      /\ ~ usable (Z.of_nat (length (filter (fun s => has_words s) segs)))
              (Z.of_nat (length (filter (fun s => has_words s /\ ~ placeable audio source s) segs)))
  | _ => total <= MAX_PROVIDER_SEGMENTS /\ exists i, fault_at segs i e /\ forall j e', (j < i)%nat -> ~ fault_at segs j e'
  end.

Lemma refused_once audio source segs e e' :
  refused_for audio source segs e -> refused_for audio source segs e' -> e = e'.
Proof.
  assert (Hfirst : forall i j e e', fault_at segs i e -> (forall k e', (k < i)%nat -> ~ fault_at segs k e') ->
    fault_at segs j e' -> (forall k e', (k < j)%nat -> ~ fault_at segs k e') -> e = e').
  { intros i j f f' Hi Hbi Hj Hbj. destruct (Nat.lt_total i j) as [Hlt|[->|Hlt]]; [by destruct (Hbj i f Hlt)| |by destruct (Hbi j f' Hlt)].
    by eapply fault_unique. }
  unfold refused_for. intros He He'.
  destruct e, e'; try done; try lia; try (destruct He as (_ & i & Hi & Hbi)); try (destruct He' as (_ & j & Hj & Hbj));
    try (by eapply Hfirst); exfalso; naive_solver.
Qed.

Lemma words_counted (segs : list ProviderSegment.t) :
  Z.of_nat (length segs) - Z.of_nat (length (filter is_marker segs)) = Z.of_nat (length (filter (fun s => has_words s) segs)).
Proof.
  rewrite markers_counted. induction segs as [|s segs IH]; [done|]. rewrite !filter_cons.
  destruct (decide (has_words s)) as [Hd|Hd].
  - rewrite decide_False by tauto. cbn [length]. lia.
  - rewrite decide_True by done. cbn [length]. lia.
Qed.

(** The output of a chunk is refused exactly for its first fault in the order the
    code tests: too many segments in all; then, segment by segment, too many
    tokens, a start before that of the segment in front, a token without a
    probability; and only when no segment has a fault, too many segments of words
    without a place. An output without any of these passes. Claim C37. *)
Theorem chunk_output_refused `{UnicodeTables} chunk audio source output :
  TimeRange.wf audio -> Forall segment_typed (ProviderChunkOutput.segments output) ->
  let refused := refused_for audio source (ProviderChunkOutput.segments output) in
  (forall e, validate_chunk_output chunk audio source output = Err e <-> refused e)
  /\ (is_ok (validate_chunk_output chunk audio source output) = true <-> forall e, ~ refused e).
Proof.
  intros Ha Hty refused.
  enough (Hone : match validate_chunk_output chunk audio source output with
                 | Ok _ => forall e, ~ refused e
                 | Err e => refused e
                 end).
  { destruct (validate_chunk_output chunk audio source output) as [v|e]; cbn [is_ok].
    - split; [|done]. intros e. split; [done|]. intros He. by destruct (Hone e).
    - split; [|split; [done|]; intros Hno; by destruct (Hno e)].
      intros e'. split; [by intros [= <-]|]. intros He'. f_equal. by eapply refused_once. }
  subst refused. unfold validate_chunk_output, refused_for.
  destruct (MAX_PROVIDER_SEGMENTS <? _) eqn:Elen; bool_prop; [exact Elen|].
  pose proof (check_structure_spec None (ProviderChunkOutput.segments output)) as Hstr.
  pose proof (check_structure_first [] (ProviderChunkOutput.segments output)) as Hfirst. cbn [app last fmap option_fmap option_map] in Hfirst.
  specialize (Hfirst ltac:(cbn; lia)).
  destruct (check_structure _ _) as [[]|e]; cbn [result_bind].
  2:{ destruct e; try done; by split. }
  cbn zeta. rewrite placing_spec by done. cbn [considered rejected].
  pose proof (partition_segments audio source output) as Hpart.
  assert (Hsat : rejections_make_chunk_unusable
            (Z.of_nat (length (ProviderChunkOutput.segments output)) - marker_count output)
            (rejected_count audio source output) = false
          <-> usable (Z.of_nat (length (filter (fun s => has_words s) (ProviderChunkOutput.segments output))))
                (Z.of_nat (length (filter (fun s => has_words s /\ ~ placeable audio source s) (ProviderChunkOutput.segments output))))).
  { rewrite rejections_spec; [|unfold MAX_PROVIDER_SEGMENTS, rejected_count, marker_count in *; ulia..].
    unfold rejected_count, marker_count. by rewrite words_counted, (rejected_counted audio source Ha _ Hty). }
  destruct (rejections_make_chunk_unusable _ _).
  - split; [done|]. split; [done|]. rewrite <- Hsat. done.
  - intros []; try lia; try (intros (_ & i & Hi & _); by apply (Hfirst i _ Hi)). intros (_ & _ & Hno). by apply Hno, Hsat.
Qed.

(** Two chunks the check refuses: segments out of order, and two of three
    segments outside the audio. *)
Lemma chunk_output_refused_witness :
  let audio := TimeRange.mk 50000000 53000000 in
  let source := TimeRange.mk 0 90000000 in
  let again := ProviderChunkOutput.mk None
                 (reverse (ProviderChunkOutput.segments sample_output)) in
  validate_chunk_output (H := ascii_tables) sample_chunk audio source again
    = Err ProviderOutputError.OutOfOrderSegments
  /\ validate_chunk_output (H := ascii_tables) sample_chunk audio source sample_output
     = Err ProviderOutputError.TooManyRejectedSegments
  /\ refused_for audio source (ProviderChunkOutput.segments sample_output)
       ProviderOutputError.TooManyRejectedSegments
  /\ ~ refused_for audio source (ProviderChunkOutput.segments sample_output)
         ProviderOutputError.InvalidTokenProbability.
Proof.
  cbn zeta. split; [vm_compute; reflexivity|]. split; [vm_compute; reflexivity|].
  assert (Ha : TimeRange.wf (TimeRange.mk 50000000 53000000)) by concrete.
  assert (Hty : Forall segment_typed (ProviderChunkOutput.segments sample_output)).
  { repeat (constructor; [concrete|]). constructor. }
  destruct (chunk_output_refused (H := ascii_tables) sample_chunk _ (TimeRange.mk 0 90000000) _ Ha Hty) as [Hr _].
  split; [apply Hr; vm_compute; reflexivity|]. intros Hi%Hr. vm_compute in Hi. discriminate Hi.
Defined.
