(* ===== verification/SeamWords.v ===== *)
(** * SeamWords: comparing the words of two chunks

    Models, of [crates/vsift-domain/src/asr.rs], the comparison of the words
    that two recognitions of the same speech wrote: normalised words, runs of
    words that are the same speech, the words shared at a seam, and a text
    that loops on its own words. *)

From Stdlib Require Import Ascii.
From S2P Require Import Prelude.
From S2P Require Import Text.
From S2P Require Import Chars.
From S2P Require Import Cues.

Definition MAX_LOOP_UNIT_WORDS : nat := 4.
Definition MIN_LOOP_REPEATS : nat := 8.
Definition MIN_SEAM_DUPLICATE_WORDS : nat := 2.
Definition MIN_FUZZY_SEAM_WORDS : nat := 4.

Definition space_char : ascii := " "%char.

Section Words.
Context `{UnicodeTables}.

Definition normalized_words (s : text) : list text :=
  filter (fun w => w <> [])
    ((fun word => concat (to_lowercase <$> filter (fun c => is_alphanumeric c = true) word))
       <$> split_whitespace s).

(** Whether two equally long runs of words are the same speech. *)
Definition same_seam_words (one other : list text) : bool :=
  if negb (length one =? length other)%nat then false
  else
    let different := length (filter (fun p => p.1 <> p.2) (zip one other)) in
    if (different =? 0)%nat then true
    else (different =? 1)%nat && (MIN_FUZZY_SEAM_WORDS <=? length one)%nat
         && bool_decide (head one = head other) && bool_decide (last one = last other).

(** [slice::windows] of a size that is not zero. *)
Fixpoint windows {A : Type} (size : nat) (l : list A) : list (list A) :=
  match l with
  | [] => []
  | _ :: rest => if (size <=? length l)%nat then take size l :: windows size rest else []
  end.

(** The lengths the code tries, the longest first. *)
Definition seam_lengths (earlier later : list text) : list nat :=
  let most := Nat.min (length earlier) (length later) in
  reverse (seq MIN_SEAM_DUPLICATE_WORDS (S most - MIN_SEAM_DUPLICATE_WORDS)).

Definition shared_seam_words (earlier later : list text) : nat :=
  if (MIN_SEAM_DUPLICATE_WORDS <=? length later)%nat
     && existsb (fun window => same_seam_words window later) (windows (length later) earlier)
  then length later
  else default 0%nat
         (find (fun length' => same_seam_words (drop (length earlier - length') earlier)
                                 (take length' later)) (seam_lengths earlier later)).

(** A word with a letter or digit counts. *)
Definition word_counts (word : list text) : bool := existsb is_alphanumeric word.

Fixpoint drop_counted (count : nat) (words : list (list text)) : list (list text) :=
  match words with
  | [] => []
  | word :: rest =>
      match count with
      | O => words
      | S count' => drop_counted (if word_counts word then count' else count) rest
      end
  end.

Definition without_leading_words (s : text) (count : nat) : option CueText.t :=
  let rest := drop_counted count (split_whitespace s) in
  if negb (existsb word_counts rest) then None
  else
    let joined := join_with space_char ((fun word => concat word) <$> rest) in
    result_ok (CueText.new joined joined).

(** The scan of [loops_on_its_own_words] for one unit: [streak] equal pairs in
    a row make [streak + unit] words. *)
Fixpoint loop_found (unit total streak : nat) (pairs : list (text * text)) : bool :=
  match pairs with
  | [] => false
  | (word, later) :: rest =>
      let streak := if bool_decide (word = later) then S streak else O in
      let looped := (streak + unit)%nat in
      ((MIN_LOOP_REPEATS <=? looped / unit) && (total <=? looped * 2))%nat
      || loop_found unit total streak rest
  end.

Definition loops_on_words (words : list text) : bool :=
  existsb (fun unit => loop_found unit (length words) 0 (zip words (drop unit words)))
    (seq 1 MAX_LOOP_UNIT_WORDS).
End Words.

(** ** Facts *)

Lemma same_seam_words_length one other : same_seam_words one other = true -> length one = length other.
Proof.
  unfold same_seam_words. destruct (length one =? length other)%nat eqn:E; [|done].
  by apply Nat.eqb_eq in E.
Qed.

Lemma windows_spec {A} size (l w : list A) :
  (0 < size)%nat -> w ∈ windows size l -> exists before after, l = before ++ w ++ after /\ length w = size.
Proof.
  intros Hs. induction l as [|a l IH]; [by intros ?%not_elem_of_nil|]. cbn [windows].
  destruct (size <=? length (a :: l))%nat eqn:E; [|by intros ?%not_elem_of_nil].
  apply Nat.leb_le in E. rewrite elem_of_cons. intros [->|Hw].
  - exists [], (drop size (a :: l)). cbn [app]. split; [by rewrite take_drop|].
    rewrite length_take. lia.
  - destruct (IH Hw) as (before & after & -> & Hl). by exists (a :: before), after.
Qed.

(** Shared words are at least two, no more than the later text has, and are
    said by a run of words of the earlier one: at its end, unless they are all
    of the later text. *)
Lemma shared_seam_words_spec earlier later n :
  shared_seam_words earlier later = n -> n <> 0%nat ->
  (MIN_SEAM_DUPLICATE_WORDS <= n <= length later)%nat
  /\ exists before said after, earlier = before ++ said ++ after
     /\ same_seam_words said (take n later) = true /\ (after = [] \/ n = length later).
Proof.
  unfold shared_seam_words. destruct (_ && _) eqn:E.
  - intros <- _. bool_prop. apply Nat.leb_le in H. apply existsb_exists in H0 as (w & Hw & Hs).
    apply list_elem_of_In in Hw. unfold MIN_SEAM_DUPLICATE_WORDS in *.
    apply windows_spec in Hw as (before & after & -> & Hl); [|lia].
    split; [lia|]. exists before, w, after. split; [done|]. rewrite take_ge by lia. by split; [|right].
  - destruct (find _ _) as [k|] eqn:Ef; [|by intros <-]. intros <- _. cbn [default].
    apply find_some in Ef as [Hk Hs]. apply list_elem_of_In in Hk. unfold seam_lengths in Hk.
    rewrite elem_of_reverse, elem_of_seq in Hk. cbn. split; [lia|].
    exists (take (length earlier - k) earlier), (drop (length earlier - k) earlier), [].
    rewrite app_nil_r, take_drop. split; [done|]. by split; [|left].
Qed.
