(* ===== verification/SeamRules.v ===== *)
(** * SeamRules: which copies of overlapping chunks are kept

    Models rules 1 and 2 of [merge_chunks] in
    [crates/vsift-domain/src/asr.rs]: each chunk owns the core between the
    midpoints of its overlaps; the owner of a segment's midpoint decides, and a
    segment cut at the edge of a window gives way to the copies the neighbour
    has of it. The set of kept segments is a [BTreeSet] of pairs of chunk and
    position: the list of its elements in order. *)

From stdpp Require Import sets.
From S2P Require Import Prelude.
From S2P Require Import Text.
From S2P Require Import Chars.
From S2P Require Import Timeline.
From S2P Require Import Spans.
From S2P Require Import AsrPlan.
From S2P Require Import Cues.
From S2P Require Import AsrOutput.
From S2P Require Import SeamWords.

Definition SEAM_EDGE_MICROS : Z := 500000.
Definition SEAM_COVERAGE_TOLERANCE_MICROS : Z := SEAM_EDGE_MICROS.

(** ** The ordered set of positions *)

Definition Key : Type := nat * nat.

Definition key_lt (a b : Key) : Prop := (a.1 < b.1 \/ (a.1 = b.1 /\ a.2 < b.2))%nat.

#[global] Instance key_lt_dec : RelDecision key_lt.
Proof. intros a b. unfold key_lt. apply _. Defined.

(** [BTreeSet::insert] *)
Fixpoint key_insert (k : Key) (set : list Key) : list Key :=
  match set with
  | [] => [k]
  | k' :: rest =>
      if decide (key_lt k k') then k :: set
      else if decide (k = k') then set
      else k' :: key_insert k rest
  end.

(** [BTreeSet::extend] and [contains] *)
Definition key_extend (set : list Key) (ks : list Key) : list Key :=
  fold_left (fun set k => key_insert k set) ks set.

Definition key_contains (set : list Key) (k : Key) : bool := bool_decide (k ∈ set).

(** ** Chunks *)

Module ChunkSegments.
Record t := mk {
  chunk : PlannedChunk.t;
  segments : list AsrSegmentDraft.t;
  unplaced : list TimeRange.t
}.

Definition window (c : t) : TimeRange.t := PlannedChunk.window (chunk c).
End ChunkSegments.

Definition into_parts (v : ValidatedChunk.t)
    : ChunkSegments.t * option LanguageTag.t * TranscriptWarnings.t :=
  (ChunkSegments.mk (ValidatedChunk.chunk v) (ValidatedChunk.segments v) (ValidatedChunk.unplaced v),
   ValidatedChunk.language v, ValidatedChunk.warnings v).

Inductive Side := Left | Right.

(** [Iterator::position] *)
Fixpoint find_position {A : Type} (p : A -> bool) (l : list A) : option nat :=
  match l with
  | [] => None
  | a :: rest => if p a then Some O else S <$> find_position p rest
  end.

Section Rules.
Context `{UnicodeTables}.

Definition words_of (s : AsrSegmentDraft.t) : list text :=
  normalized_words (CueText.as_text (AsrSegmentDraft.cue_text s)).

Definition loops_on_its_own_words (s : AsrSegmentDraft.t) : bool := loops_on_words (words_of s).

Definition repeats_the_segment_before (chunk : ChunkSegments.t) (position : nat) : bool :=
  match position with
  | O => false
  | S before =>
      match ChunkSegments.segments chunk !! before, ChunkSegments.segments chunk !! position with
      | Some before, Some segment =>
          let words := words_of segment in
          (MIN_SEAM_DUPLICATE_WORDS <=? length words)%nat && same_seam_words (words_of before) words
      | _, _ => false
      end
  end.

Definition claims_no_time (chunk : ChunkSegments.t) (position : nat) : bool :=
  repeats_the_segment_before chunk position
  || match ChunkSegments.segments chunk !! position with
     | Some segment => loops_on_its_own_words segment
     | None => false
     end.

Definition claims_time_over (chunk : ChunkSegments.t) (segment : AsrSegmentDraft.t) : bool :=
  let range := AsrSegmentDraft.range segment in
  existsb (fun '(position, candidate) =>
      let other := AsrSegmentDraft.range candidate in
      (TimeRange.start other <? TimeRange.end_ range) && (TimeRange.start range <? TimeRange.end_ other)
      && negb (claims_no_time chunk position))
    (enumerate (ChunkSegments.segments chunk)).

(** [u64::midpoint] *)
Definition midpoint (a b : Z) : Z := (a + b) / 2.

Definition chunk_cores (chunks : list ChunkSegments.t) : list (Z * Z) :=
  let boundaries :=
    (fun pair : ChunkSegments.t * ChunkSegments.t =>
       midpoint (TimeRange.start (ChunkSegments.window pair.2)) (TimeRange.end_ (ChunkSegments.window pair.1)))
      <$> windows2 chunks in
  (fun index : nat =>
     (match index with O => 0 | S before => default 0 (boundaries !! before) end,
      default U64_MAX (boundaries !! index)))
    <$> seq 0 (length chunks).

(** The chunk at an index the callers keep in range. *)
Definition cut_at (chunks : list ChunkSegments.t) (index : nat) (segment : AsrSegmentDraft.t)
    (side : Side) : bool :=
  match chunks !! index with
  | None => false
  | Some chunk =>
      let window := ChunkSegments.window chunk in
      let range := AsrSegmentDraft.range segment in
      match side with
      | Left => (0 <? index)%nat
                && (TimeRange.start range <? saturating_u64 (TimeRange.start window + SEAM_EDGE_MICROS))
      | Right => (S index <? length chunks)%nat
                 && (TimeRange.end_ window <? saturating_u64 (TimeRange.end_ range + SEAM_EDGE_MICROS))
      end
  end.

Definition covering (chunks : list ChunkSegments.t) (neighbour : nat) (segment : AsrSegmentDraft.t)
    (facing : Side) : list Key :=
  match chunks !! neighbour with
  | None => []
  | Some chunk =>
      let middle := AsrSegmentDraft.midpoint segment in
      (fun entry : nat * AsrSegmentDraft.t => (neighbour, entry.1))
        <$> filter (fun entry : nat * AsrSegmentDraft.t =>
              let range := AsrSegmentDraft.range entry.2 in
              (TimeRange.start range <=? middle) && (middle <? TimeRange.end_ range)
              && negb (cut_at chunks neighbour entry.2 facing)
              && negb (claims_no_time chunk entry.1) = true)
              (enumerate (ChunkSegments.segments chunk))
  end.

(** The inner edges a segment of chunk [index] is cut at: the neighbour
    across, and its side that faces the edge. *)
Definition cut_sides (chunks : list ChunkSegments.t) (index : nat) (segment : AsrSegmentDraft.t)
    : list (nat * Side) :=
  (if cut_at chunks index segment Left then [((index - 1)%nat, Right)] else [])
  ++ (if cut_at chunks index segment Right then [(S index, Left)] else []).

(** The chunk whose core contains the segment's midpoint. *)
Definition owner_of (chunks : list ChunkSegments.t) (index : nat) (segment : AsrSegmentDraft.t) : nat :=
  let middle := AsrSegmentDraft.midpoint segment in
  default index (find_position (fun core => (core.1 <=? middle) && (middle <? core.2)) (chunk_cores chunks)).

(** One turn of the loop: the segment at a position of a chunk. *)
Definition judge (chunks : list ChunkSegments.t) (index : nat) (kept : list Key)
    (entry : nat * AsrSegmentDraft.t) : list Key :=
  let '(position, segment) := entry in
  let owner := owner_of chunks index segment in
  if negb (owner =? index)%nat then
    match chunks !! owner with
    | Some chunk => if claims_time_over chunk segment then kept else key_insert (index, position) kept
    | None => kept
    end
  else
    let sides := cut_sides chunks index segment in
    let found := (fun side : nat * Side => covering chunks side.1 segment side.2) <$> sides in
    if negb (bool_decide (sides = [])) && forallb (fun f => negb (bool_decide (f = []))) found
    then key_extend kept (concat found)
    else key_insert (index, position) kept.

Definition keep_by_rules_one_and_two (chunks : list ChunkSegments.t) : list Key :=
  fold_left (fun kept '(index, chunk) =>
      fold_left (judge chunks index) (enumerate (ChunkSegments.segments chunk)) kept)
    (enumerate chunks) [].
End Rules.

(** The segment a key names. *)
Definition segment_at (chunks : list ChunkSegments.t) (k : Key) : option AsrSegmentDraft.t :=
  chunk ← chunks !! k.1; ChunkSegments.segments chunk !! k.2.

(** ** Facts on the ordered set *)

Lemma key_insert_elem k set x : x ∈ key_insert k set <-> x = k \/ x ∈ set.
Proof.
  induction set as [|k' rest IH]; cbn [key_insert].
  { rewrite list_elem_of_singleton. set_solver. }
  case_decide; [set_solver|]. case_decide as E; [subst; set_solver|]. set_solver.
Qed.

Lemma key_extend_elem ks set x : x ∈ key_extend set ks <-> x ∈ ks \/ x ∈ set.
Proof.
  unfold key_extend. revert set. induction ks as [|k ks IH]; intros set; cbn [fold_left]; [set_solver|].
  rewrite IH, key_insert_elem. set_solver.
Qed.

#[global] Instance key_lt_trans : Transitive key_lt.
Proof. intros x y z. unfold key_lt. lia. Qed.

Lemma key_insert_sorted k set : StronglySorted key_lt set -> StronglySorted key_lt (key_insert k set).
Proof.
  induction 1 as [|k' rest Hs IH Hf]; cbn [key_insert]; [by repeat constructor|].
  case_decide as H1; [|case_decide as H2].
  - constructor; [by constructor|]. constructor; [done|].
    eapply Forall_impl; [exact Hf|]. intros x. by apply transitivity.
  - by constructor.
  - constructor; [done|]. apply Forall_forall. intros x Hx.
    apply key_insert_elem in Hx as [->|Hx]; [|by rewrite Forall_forall in Hf; apply Hf].
    unfold key_lt in *. destruct k, k'. cbn in *.
    destruct (decide (n = n1)); [|lia]. destruct (decide (n0 = n2)); [subst; done|lia].
Qed.
