(* ===== verification/SeamGuard.v ===== *)
(** * SeamGuard: no stretch of speech is lost

    Models [restore_lost_speech_within] and [close_hole] of
    [crates/vsift-domain/src/asr.rs], the guard on rules 1 and 2 of
    [merge_chunks]: segments the rules dropped are put back until no stretch of
    the union of all segments longer than the tolerance is covered by no kept
    segment. Both loops run on a set of keys and the spans it covers; the
    invariant of the two is what the proof carries. *)

From stdpp Require Import sets.
From S2P Require Import Prelude.
From S2P Require Import Timeline.
From S2P Require Import Spans.
From S2P Require Import SpanSet.
From S2P Require Import AsrOutput.
From S2P Require Import SeamRules.

(** ** The loops *)

(** A dropped segment: its span, its chunk and position. *)
Definition Dropped : Type := Span * Key.

(** The order of the tuples [(Span, usize, usize)]. *)
Definition dropped_le (a b : Dropped) : Prop :=
  a.1.1 < b.1.1
  \/ (a.1.1 = b.1.1 /\ (a.1.2 < b.1.2
      \/ (a.1.2 = b.1.2 /\ ((a.2.1 < b.2.1)%nat \/ (a.2.1 = b.2.1 /\ (a.2.2 <= b.2.2)%nat))))).

#[global] Instance dropped_le_dec : RelDecision dropped_le.
Proof. intros a b. unfold dropped_le. apply _. Defined.

(** A candidate, with how much of the hole it overlaps: the most first, then
    in the order of the tuples. *)
Definition Candidate : Type := Z * Dropped.

Definition candidate_le (a b : Candidate) : Prop :=
  b.1 < a.1 \/ (a.1 = b.1 /\ dropped_le a.2 b.2).

#[global] Instance candidate_le_dec : RelDecision candidate_le.
Proof. intros a b. unfold candidate_le. apply _. Defined.

(** The kept keys and what they cover. *)
Definition State : Type := list Key * SpanSet.

Definition wide (tolerance : Z) (gaps : list Span) : list Span :=
  filter (fun g => tolerance < g.2 - g.1) gaps.

Fixpoint close_loop (tolerance : Z) (hole : Span) (candidates : list Candidate) (state : State) : State :=
  match candidates with
  | [] => state
  | (_, (placed, key)) :: rest =>
      let open := wide tolerance (gaps_within state.2 hole) in
      if bool_decide (open = []) then state
      else if existsb (fun g : Span => (placed.1 <? g.2) && (g.1 <? placed.2)) open
      then close_loop tolerance hole rest (key_insert key state.1, insert state.2 placed)
      else close_loop tolerance hole rest state
  end.

Definition close_hole (dropped : list Dropped) (longest : Z) (tolerance : Z) (state : State) (hole : Span)
    : State :=
  let '(from, until) := hole in
  let first := partition_point (fun d : Dropped => saturating_u64 (d.1.1 + longest) <=? from) dropped in
  let after := partition_point (fun d : Dropped => d.1.1 <? until) dropped in
  let candidates :=
    (fun d : Dropped => (Z.min d.1.2 until - Z.max d.1.1 from, d))
      <$> filter (fun d : Dropped => from < d.1.2 /\ d.2 ∉ state.1)
            (take (after - first) (drop first dropped)) in
  close_loop tolerance hole (merge_sort candidate_le candidates) state.

(** Every validated segment of every chunk, in order. *)
Definition entries (chunks : list ChunkSegments.t) : list (Key * Span) :=
  enumerate chunks ≫= fun chunk : nat * ChunkSegments.t =>
    (fun segment : nat * AsrSegmentDraft.t =>
       ((chunk.1, segment.1), span (AsrSegmentDraft.range segment.2)))
      <$> enumerate (ChunkSegments.segments chunk.2).

Definition restore_entries (every : list (Key * Span)) (kept : list Key) (tolerance : Z) : list Key :=
  let covered := insert_many SpanSet_default
                   (snd <$> filter (fun e : Key * Span => e.1 ∈ kept) every) in
  let dropped := merge_sort dropped_le
                   ((fun e : Key * Span => (e.2, e.1)) <$> filter (fun e => e.1 ∉ kept) every) in
  let longest := fold_left (fun m d => Z.max m (d.1.2 - d.1.1)) dropped 0 in
  (fold_left (fun state stretch =>
       fold_left (fun state (hole : Span) =>
           if tolerance <? hole.2 - hole.1 then close_hole dropped longest tolerance state hole else state)
         (gaps_within state.2 stretch) state)
     (merged every.*2) (kept, covered)).1.

Definition restore_lost_speech_within (chunks : list ChunkSegments.t) (kept : list Key) (tolerance : Z)
    : list Key :=
  restore_entries (entries chunks) kept tolerance.

Definition restore_lost_speech (chunks : list ChunkSegments.t) (kept : list Key) : list Key :=
  restore_lost_speech_within chunks kept SEAM_COVERAGE_TOLERANCE_MICROS.

(** ** Specification *)

(** A stretch of the union that nothing kept covers. *)
Definition lost (union kept : list Span) (a b : Z) : Prop :=
  a < b /\ (forall x, a <= x < b -> covers union x) /\ (forall x, a <= x < b -> ~ covers kept x).

(** No lost stretch is longer than the tolerance. *)
Definition nothing_lost (tolerance : Z) (union kept : list Span) : Prop :=
  forall a b, lost union kept a b -> b - a <= tolerance.

(** The spans of the kept entries. *)
Definition kept_spans (every : list (Key * Span)) (kept : list Key) : list Span :=
  snd <$> filter (fun e : Key * Span => e.1 ∈ kept) every.

(** ** Sorting *)

#[global] Instance dropped_le_total : Total dropped_le.
Proof. intros a b. unfold dropped_le. lia. Qed.
#[global] Instance dropped_le_trans : Transitive dropped_le.
Proof. intros a b c. unfold dropped_le. lia. Qed.

Lemma sorted_starts l i j a b :
  StronglySorted dropped_le l -> l !! i = Some a -> l !! j = Some b -> (i <= j)%nat -> a.1.1 <= b.1.1.
Proof.
  intros Hs Hi Hj Hij. destruct (decide (i = j)) as [->|Hne]; [naive_solver lia|].
  pose proof (proj1 (StronglySorted_lookup _ _) Hs i j a b ltac:(lia) Hi Hj) as H. unfold dropped_le in H. lia.
Qed.

(** ** The invariant *)

Section Guard.
Context (every : list (Key * Span)) (tolerance : Z).
Context (Hkey : forall k s s', (k, s) ∈ every -> (k, s') ∈ every -> s = s').
Context (Hwf : Forall (fun e : Key * Span => 0 <= e.2.1 /\ e.2.1 < e.2.2 <= U64_MAX) every).
Context (Htol : 0 <= tolerance).

Definition inv (state : State) : Prop :=
  SpanSet_wf state.2 /\ same_cover (spans state.2) (kept_spans every state.1).

Lemma kept_spans_cover kept x :
  covers (kept_spans every kept) x <-> exists k s, (k, s) ∈ every /\ k ∈ kept /\ in_span s x.
Proof.
  unfold kept_spans, covers. rewrite Exists_fmap, Exists_exists. split.
  - intros ([k s] & [Hk Hin]%list_elem_of_filter & Hx). by exists k, s.
  - intros (k & s & Hin & Hk & Hx). exists (k, s). split; [by apply list_elem_of_filter|done].
Qed.

Lemma inv_insert state k s :
  inv state -> (k, s) ∈ every -> inv (key_insert k state.1, insert state.2 s).
Proof.
  intros [Hs Hc] Hin. rewrite Forall_forall in Hwf. destruct (Hwf _ Hin) as [H0 _]. cbn in H0.
  destruct (insert_spec state.2 s Hs H0) as [H1 H2]. split; [done|]. cbn [fst snd]. intros x.
  rewrite (H2 x), covers_cons, (Hc x), !kept_spans_cover. split.
  - intros [Hx|(k' & s' & ? & ? & ?)].
    + exists k, s. split; [done|]. split; [|done]. apply key_insert_elem. by left.
    + exists k', s'. split; [done|]. split; [|done]. apply key_insert_elem. by right.
  - intros (k' & s' & Hin' & [->|Hk]%key_insert_elem & Hx).
    + left. by rewrite (Hkey _ _ _ Hin Hin').
    + right. by exists k', s'.
Qed.

(** What a step adds: keys of entries only, and more cover. *)
Definition grows (state state' : State) : Prop :=
  inv state'
  /\ (forall k, k ∈ state.1 -> k ∈ state'.1)
  /\ (forall k, k ∈ state'.1 -> k ∈ state.1 \/ exists s, (k, s) ∈ every).

Lemma grows_refl state : inv state -> grows state state.
Proof. intros H. split; [done|]. split; [done|]. by left. Qed.

Lemma grows_trans a b c : grows a b -> grows b c -> grows a c.
Proof.
  intros (_ & H1 & H2) (H3 & H4 & H5). split; [done|]. split; [auto|]. intros k Hk.
  destruct (H5 k Hk) as [Hb|?]; [by apply H2|by right].
Qed.

Lemma grows_cover state state' x :
  inv state -> grows state state' -> covers (spans state.2) x -> covers (spans state'.2) x.
Proof.
  intros [_ Hc] ([_ Hc'] & Hk & _). rewrite (Hc x), (Hc' x), !kept_spans_cover.
  intros (k & s & ? & ? & ?). exists k, s. auto.
Qed.

(** ** The loop over the candidates *)

Lemma wide_elem gaps g : g ∈ wide tolerance gaps <-> g ∈ gaps /\ tolerance < g.2 - g.1.
Proof. unfold wide. rewrite list_elem_of_filter. tauto. Qed.

(** An uncovered stretch of the hole lies in one of its gaps. *)
Lemma in_one_gap state hole a b :
  inv state -> 0 <= hole.1 -> a < b -> hole.1 <= a -> b <= hole.2 ->
  (forall x, a <= x < b -> ~ covers (spans state.2) x) ->
  exists g, g ∈ gaps_within state.2 hole /\ g.1 <= a /\ b <= g.2.
Proof.
  intros [Hs _] H0 Hab Ha Hb Hun. destruct (gaps_within_spec state.2 hole Hs H0) as [Hc Hg].
  apply (canon_interval (-1)); [done|done|]. intros x Hx. apply Hg. split; [unfold in_span; lia|auto].
Qed.

Lemma gap_uncovered state hole g x :
  inv state -> 0 <= hole.1 -> g ∈ gaps_within state.2 hole -> g.1 <= x < g.2 ->
  in_span hole x /\ ~ covers (spans state.2) x.
Proof.
  intros [Hs _] H0 Hg Hx. destruct (gaps_within_spec state.2 hole Hs H0) as [_ Hc]. apply Hc.
  apply Exists_exists. by exists g.
Qed.

Lemma close_loop_spec hole candidates state :
  inv state -> 0 <= hole.1 ->
  (forall c, c ∈ candidates -> (c.2.2, c.2.1) ∈ every) ->
  let state' := close_loop tolerance hole candidates state in
  grows state state'
  /\ forall g c, g ∈ gaps_within state'.2 hole -> tolerance < g.2 - g.1 -> c ∈ candidates ->
       ~ (c.2.1.1 < g.2 /\ g.1 < c.2.1.2).
Proof.
  intros Hi H0. revert state Hi. induction candidates as [|[o [placed key]] rest IH]; intros state Hi Hc.
  { split; [by apply grows_refl|]. intros g c _ _ Hn. by apply not_elem_of_nil in Hn. }
  cbn [close_loop]. pose proof (Hc _ ltac:(by left)) as Hin. cbn in Hin.
  assert (Hrest : forall c, c ∈ rest -> (c.2.2, c.2.1) ∈ every) by (intros c ?; apply Hc; by right).
  case_bool_decide as Eo.
  { split; [by apply grows_refl|]. intros g c Hg Hw _.
    assert (Hn : g ∈ wide tolerance (gaps_within state.2 hole)) by (by apply wide_elem).
    rewrite Eo in Hn. by apply not_elem_of_nil in Hn. }
  destruct (existsb _ _) eqn:Ee.
  - pose proof (inv_insert _ _ _ Hi Hin) as Hi1. set (state1 := (key_insert key state.1, _)) in *.
    assert (Hg1 : grows state state1).
    { split; [done|]. cbn. split; [intros k ?; apply key_insert_elem; by right|].
      intros k [->|?]%key_insert_elem; [right; by exists placed|by left]. }
    destruct (IH state1 Hi1 Hrest) as [Hg2 Hno].
    split; [by eapply grows_trans|]. intros g c Hg Hw [->|Hcr]%elem_of_cons; [|by apply Hno].
    cbn. intros [Hx1 Hx2]. set (state' := close_loop tolerance hole rest state1) in *.
    assert (Hp : placed.1 < placed.2) by (rewrite Forall_forall in Hwf; destruct (Hwf _ Hin) as [_ [? _]]; done).
    destruct (gap_uncovered state' hole g (Z.max placed.1 g.1)) as [_ Hun];
      [by apply Hg2|done|done|lia|].
    apply Hun, (grows_cover state1 state'); [done|done|].
    destruct Hi1 as [_ Hcov]. apply Hcov, kept_spans_cover. exists key, placed.
    split; [done|]. split; [apply key_insert_elem; by left|]. unfold in_span. lia.
  - destruct (IH state Hi Hrest) as [Hg Hno]. split; [done|].
    intros g c Hgap Hw [->|Hcr]%elem_of_cons; [|by apply Hno]. cbn. intros [Hx1 Hx2].
    set (state' := close_loop tolerance hole rest state) in *.
    assert (Hd : forall x, g.1 <= x < g.2 -> in_span hole x /\ ~ covers (spans state.2) x).
    { intros x Hx. destruct (gap_uncovered state' hole g x) as [H1 H2]; [by apply Hg|done..|].
      split; [done|]. intros H. by apply H2, (grows_cover state). }
    destruct (in_one_gap state hole g.1 g.2) as (g0 & Hg0 & H1 & H2); [done|done|lia| | |by apply Hd|].
    { destruct (Hd g.1 ltac:(lia)) as [[? ?] _]. done. }
    { destruct (Hd (g.2 - 1) ltac:(lia)) as [[? ?] _]. lia. }
    apply not_true_iff_false in Ee. apply Ee, existsb_exists. exists g0. split.
    + apply list_elem_of_In, wide_elem. split; [done|lia].
    + apply andb_true_iff. rewrite !Z.ltb_lt. lia.
Qed.

(** ** Closing one hole *)

Section Hole.
Context (dropped : list Dropped) (longest : Z).
Context (Hsorted : StronglySorted dropped_le dropped).
Context (Hfrom : forall d, d ∈ dropped -> (d.2, d.1) ∈ every).
Context (Hlongest : forall d, d ∈ dropped -> d.1.2 - d.1.1 <= longest).

(** The dropped segments that reach into a hole are among its candidates. *)
Lemma slice_elem d from until :
  d ∈ dropped -> from < d.1.2 -> d.1.1 < until ->
  d ∈ take (partition_point (fun d : Dropped => d.1.1 <? until) dropped
            - partition_point (fun d : Dropped => saturating_u64 (d.1.1 + longest) <=? from) dropped)
        (drop (partition_point (fun d : Dropped => saturating_u64 (d.1.1 + longest) <=? from) dropped)
           dropped).
Proof.
  intros Hd H1 H2. set (p := fun d : Dropped => saturating_u64 (d.1.1 + longest) <=? from).
  set (q := fun d : Dropped => d.1.1 <? until).
  pose proof (Hlongest d Hd) as Hl. pose proof (Hfrom d Hd) as Hin.
  rewrite Forall_forall in Hwf. destruct (Hwf _ Hin) as [H0 Hu]. cbn in H0, Hu.
  apply list_elem_of_lookup in Hd as [i Hi].
  assert (Hfirst : (partition_point p dropped <= i)%nat).
  { apply Nat.nlt_ge. intros Hlt. pose proof (partition_point_lt _ _ _ _ Hi Hlt) as Hp.
    unfold p in Hp. bool_prop. ulia. }
  assert (Hafter : (i < partition_point q dropped)%nat).
  { apply partition_point_gt; [by eapply lookup_lt_Some|]. intros j a Hj Ha. unfold q.
    pose proof (sorted_starts _ _ _ _ _ Hsorted Ha Hi Hj). apply Z.ltb_lt. lia. }
  apply list_elem_of_lookup. exists (i - partition_point p dropped)%nat.
  rewrite lookup_take_Some, lookup_drop. split; [|lia]. by replace (_ + _)%nat with i by lia.
Qed.

Lemma close_hole_spec state hole :
  inv state -> 0 <= hole.1 ->
  (forall k s, (k, s) ∈ every -> k ∉ state.1 -> (s, k) ∈ dropped) ->
  (forall x, in_span hole x -> covers every.*2 x) ->
  let state' := close_hole dropped longest tolerance state hole in
  grows state state'
  /\ forall g, g ∈ gaps_within state'.2 hole -> g.1 < g.2 -> g.2 - g.1 <= tolerance.
Proof.
  intros Hi H0 Hall Hun. unfold close_hole. destruct hole as [from until]. cbn [fst snd] in *.
  set (slice := take _ (drop _ dropped)).
  set (candidates := _ <$> filter _ slice).
  assert (Hslice : forall d, d ∈ slice -> d ∈ dropped).
  { intros d Hd. apply list_elem_of_lookup in Hd as [i Hd]. apply lookup_take_Some in Hd as [Hd _].
    rewrite lookup_drop in Hd. by apply list_elem_of_lookup_2 in Hd. }
  assert (Hc : forall c, c ∈ merge_sort candidate_le candidates -> (c.2.2, c.2.1) ∈ every).
  { intros c. rewrite merge_sort_Permutation. unfold candidates. rewrite list_elem_of_fmap.
    intros (d & -> & [_ Hd]%list_elem_of_filter). by apply Hfrom, Hslice. }
  destruct (close_loop_spec (from, until) _ state Hi H0 Hc) as [Hg Hno]. split; [done|].
  intros g Hgap Hlt. destruct (Z.le_gt_cases (g.2 - g.1) tolerance) as [?|Hw]; [done|]. exfalso.
  set (state' := close_loop _ _ _ state) in *.
  destruct (gap_uncovered state' (from, until) g g.1) as [[Hx1 Hx2] Hx]; [by apply Hg|done|done|lia|].
  cbn [fst snd] in Hx1, Hx2.
  assert (Hcov : covers every.*2 g.1) by (apply Hun; split; cbn; lia).
  apply Exists_exists in Hcov as (s & Hs & Hin). apply list_elem_of_fmap in Hs as ([k s'] & -> & Hks).
  cbn [snd] in *.
  assert (Hk : k ∉ state.1).
  { intros Hk. apply Hx, (grows_cover state state'); [done|done|]. destruct Hi as [_ Hcover].
    apply Hcover, kept_spans_cover. by exists k, s'. }
  pose proof (Hall k s' Hks Hk) as Hd. destruct Hin as [Hin1 Hin2].
  apply (Hno g (Z.min s'.2 until - Z.max s'.1 from, (s', k)) Hgap ltac:(lia)); [|cbn; lia].
  rewrite merge_sort_Permutation. unfold candidates. apply list_elem_of_fmap. exists (s', k).
  split; [done|]. apply list_elem_of_filter. cbn. split; [split; [lia|done]|].
  apply slice_elem; cbn; [done|lia|lia].
Qed.

(** ** All the holes *)

Context (kept0 : list Key).
Context (Hdropped : forall k s, (k, s) ∈ every -> k ∉ kept0 -> (s, k) ∈ dropped).

Definition close_if_wide (state : State) (hole : Span) : State :=
  if tolerance <? hole.2 - hole.1 then close_hole dropped longest tolerance state hole else state.

(** The stretches of [within] that the state leaves open are short. *)
Definition closed_within (state : State) (within : Span) : Prop :=
  forall a b, within.1 <= a -> a < b -> b <= within.2 ->
    (forall x, a <= x < b -> ~ covers (spans state.2) x) -> b - a <= tolerance.

Lemma closed_grows state state' within :
  inv state -> grows state state' -> closed_within state within -> closed_within state' within.
Proof.
  intros Hi Hg Hc a b Ha Hab Hb Hun. apply Hc; [done..|]. intros x Hx H.
  by apply (Hun x Hx), (grows_cover state state').
Qed.

Lemma close_if_wide_spec state hole :
  inv state -> (forall k, k ∈ kept0 -> k ∈ state.1) -> 0 <= hole.1 ->
  (forall x, in_span hole x -> covers every.*2 x) ->
  grows state (close_if_wide state hole) /\ closed_within (close_if_wide state hole) hole.
Proof.
  intros Hi Hk H0 Hun. unfold close_if_wide. destruct (tolerance <? _) eqn:E; bool_prop.
  - destruct (close_hole_spec state hole Hi H0) as [Hg Hgaps]; [|done|].
    { intros k s Hin Hn. apply Hdropped; [done|]. intros ?. by apply Hn, Hk. }
    split; [done|]. intros a b Ha Hab Hb Hopen.
    destruct (in_one_gap (close_hole dropped longest tolerance state hole) hole a b) as (g & Hg1 & ? & ?);
      [by apply Hg|done..|]. specialize (Hgaps g Hg1). lia.
  - split; [by apply grows_refl|]. intros a b Ha Hab Hb _. lia.
Qed.

(** The loop over some holes, and over all the gaps of some stretches. *)
Lemma fold_closes {A : Type} (step : State -> A -> State) (within : A -> Span) (l : list A) state :
  inv state -> (forall k, k ∈ kept0 -> k ∈ state.1) ->
  (forall st a, a ∈ l -> inv st -> (forall k, k ∈ kept0 -> k ∈ st.1) ->
     grows st (step st a) /\ closed_within (step st a) (within a)) ->
  let state' := fold_left step l state in
  grows state state' /\ forall a, a ∈ l -> closed_within state' (within a).
Proof.
  intros Hi Hk. revert state Hi Hk. induction l as [|a l IH]; intros state Hi Hk Hstep; cbn [fold_left].
  { split; [by apply grows_refl|]. by intros a ?%not_elem_of_nil. }
  destruct (Hstep state a ltac:(by left) Hi Hk) as [Hg Hc].
  destruct (IH (step state a)) as [Hg' Hc'].
  - apply Hg.
  - intros k ?. by apply Hg, Hk.
  - intros st b Hb. apply Hstep. by right.
  - split; [by eapply grows_trans|]. intros b [->|Hb]%elem_of_cons; [|by apply Hc'].
    eapply closed_grows; [|exact Hg'|exact Hc]. apply Hg.
Qed.

Lemma stretch_closes state stretch :
  inv state -> (forall k, k ∈ kept0 -> k ∈ state.1) -> 0 <= stretch.1 ->
  (forall x, in_span stretch x -> covers every.*2 x) ->
  let state' := fold_left close_if_wide (gaps_within state.2 stretch) state in
  grows state state' /\ closed_within state' stretch.
Proof.
  intros Hi Hk H0 Hun. cbn zeta.
  assert (Hgap : forall g, g ∈ gaps_within state.2 stretch ->
            g.1 < g.2 /\ forall x, in_span g x -> in_span stretch x).
  { intros g Hg. destruct (gaps_within_spec state.2 stretch (proj1 Hi) H0) as [Hc _].
    apply canon_keys_gt in Hc. rewrite Forall_forall in Hc. split; [by apply Hc|].
    intros x Hx. by apply (gap_uncovered state stretch g x). }
  destruct (fold_closes close_if_wide (fun g => g) (gaps_within state.2 stretch) state Hi Hk) as [Hg Hc].
  { intros st g Hin Hist Hkst. destruct (Hgap g Hin) as [Hlt Hsub]. apply close_if_wide_spec; [done..| |].
    - destruct (Hsub g.1) as [? _]; [unfold in_span; lia|]. lia.
    - intros x Hx. by apply Hun, Hsub. }
  split; [done|]. intros a b Ha Hab Hb Hopen.
  destruct (in_one_gap state stretch a b) as (g & Hin & ? & ?); [done..| |].
  { intros x Hx Hcov. by apply (Hopen x Hx), (grows_cover state). }
  by apply (Hc g Hin).
Qed.
End Hole.

(** ** The guarantee *)

Lemma restore_entries_spec kept :
  let kept' := restore_entries every kept tolerance in
  nothing_lost tolerance every.*2 (kept_spans every kept')
  /\ (forall k, k ∈ kept -> k ∈ kept')
  /\ (forall k, k ∈ kept' -> k ∈ kept \/ exists s, (k, s) ∈ every).
Proof.
  cbn zeta. unfold restore_entries.
  set (covered := insert_many _ _). set (dropped := merge_sort dropped_le _).
  set (longest := fold_left (fun m (d : Dropped) => Z.max m (d.1.2 - d.1.1)) dropped 0).
  assert (Hd : forall d, d ∈ dropped <-> (d.2, d.1) ∈ every /\ d.2 ∉ kept).
  { intros [s k]. unfold dropped. rewrite merge_sort_Permutation, list_elem_of_fmap. cbn. split.
    - intros ([k' s'] & [= -> ->] & [? ?]%list_elem_of_filter). done.
    - intros [Hin Hn]. exists (k, s). split; [done|]. by apply list_elem_of_filter. }
  assert (Hsorted : StronglySorted dropped_le dropped) by (apply StronglySorted_merge_sort; apply _).
  assert (Hlong : forall d, d ∈ dropped -> d.1.2 - d.1.1 <= longest)
    by (intros d; apply (fold_max_spec (fun d : Dropped => d.1.2 - d.1.1) dropped 0)).
  assert (Hnn : Forall (fun s => 0 <= s.1) every.*2).
  { apply Forall_fmap. eapply Forall_impl; [exact Hwf|]. intros e [? _]. done. }
  destruct (merged_spec _ Hnn) as [Hmc Hmcov].
  assert (Hinv : inv (kept, covered)).
  { destruct (insert_many_spec SpanSet_default (kept_spans every kept)) as [H1 H2]; [done| |].
    - unfold kept_spans. rewrite Forall_fmap in Hnn. apply Forall_fmap.
      apply Forall_forall. intros e [_ He]%list_elem_of_filter. rewrite Forall_forall in Hnn. by apply Hnn.
    - split; [done|]. cbn [fst snd] in *. intros x. etransitivity; [apply (H2 x)|]. rewrite covers_app, covers_nil. tauto. }
  assert (Hstep : forall st stretch, stretch ∈ merged every.*2 -> inv st ->
            (forall k, k ∈ kept -> k ∈ st.1) ->
            grows st (fold_left (close_if_wide dropped longest) (gaps_within st.2 stretch) st)
            /\ closed_within (fold_left (close_if_wide dropped longest) (gaps_within st.2 stretch) st) stretch).
  { intros st stretch Hin Hst Hk. apply (stretch_closes dropped longest Hsorted) with (kept0 := kept); try done.
    - intros d Hin'. by apply Hd.
    - intros k s Hks Hn. by apply Hd.
    - apply canon_nonneg in Hmc; [|lia]. rewrite Forall_forall in Hmc. by apply Hmc.
    - intros x Hx. apply Hmcov, Exists_exists. by exists stretch. }
  destruct (fold_closes kept (fun state stretch => fold_left (close_if_wide dropped longest)
              (gaps_within state.2 stretch) state) (fun s => s) (merged every.*2) (kept, covered)
              Hinv (fun k H => H) Hstep) as [Hg Hc].
  set (final := fold_left _ (merged _) _) in *. destruct Hg as (Hfinal & Hsub & Hnew).
  split; [|by split]. intros a b (Hab & Hun & Hopen).
  destruct (canon_interval (-1) _ a b Hmc Hab) as (stretch & Hin & ? & ?).
  { intros x Hx. by apply Hmcov, Hun. }
  apply (Hc stretch Hin); [done..|]. intros x Hx Hcov. apply (Hopen x Hx). by apply Hfinal.
Qed.

(** Where the rules lose nothing the guard adds nothing. *)
Lemma restore_entries_noop kept :
  nothing_lost tolerance every.*2 (kept_spans every kept) -> restore_entries every kept tolerance = kept.
Proof.
  intros Hnl. unfold restore_entries. fold (kept_spans every kept).
  set (covered := insert_many _ _). set (dropped := merge_sort dropped_le _).
  assert (Hnn : Forall (fun s => 0 <= s.1) every.*2).
  { apply Forall_fmap. eapply Forall_impl; [exact Hwf|]. intros e [? _]. done. }
  destruct (merged_spec _ Hnn) as [Hmc Hmcov]. apply canon_nonneg in Hmc as Hm0; [|lia].
  rewrite Forall_forall in Hm0.
  destruct (insert_many_spec SpanSet_default (kept_spans every kept)) as [H1 H2]; [done| |].
  { unfold kept_spans. rewrite Forall_fmap in Hnn |- *.
    apply Forall_forall. intros e [_ He]%list_elem_of_filter. rewrite Forall_forall in Hnn. by apply Hnn. }
  fold covered in H1, H2. rewrite fold_left_const; [done|]. intros stretch Hin.
  apply fold_left_const. intros hole Hhole. cbn [fst snd] in *.
  destruct (gaps_within_spec covered stretch H1 (Hm0 _ Hin)) as [Hgc Hg].
  destruct (tolerance <? hole.2 - hole.1) eqn:E; [|done]. bool_prop. exfalso.
  assert (Hx : forall x, hole.1 <= x < hole.2 -> in_span stretch x /\ ~ covers (spans covered) x).
  { intros x Hx. apply Hg, Exists_exists. by exists hole. }
  enough (hole.2 - hole.1 <= tolerance) by lia. apply Hnl. split; [lia|]. split.
  - intros x Hxx. apply Hmcov, Exists_exists. exists stretch. split; [done|]. by apply Hx.
  - intros x Hxx Hc. apply (Hx x Hxx). apply H2, covers_app. by left.
Qed.
End Guard.

(** The set stays in order. *)
Lemma close_hole_sorted dropped longest tolerance state hole :
  StronglySorted key_lt state.1 -> StronglySorted key_lt (close_hole dropped longest tolerance state hole).1.
Proof.
  unfold close_hole. destruct hole as [from until]. generalize (merge_sort candidate_le
    ((fun d : Dropped => (Z.min d.1.2 until - Z.max d.1.1 from, d))
       <$> filter (fun d : Dropped => from < d.1.2 /\ d.2 ∉ state.1)
         (take (partition_point (fun d : Dropped => d.1.1 <? until) dropped
                - partition_point (fun d : Dropped => saturating_u64 (d.1.1 + longest) <=? from) dropped)
            (drop (partition_point (fun d : Dropped => saturating_u64 (d.1.1 + longest) <=? from) dropped)
               dropped)))).
  intros candidates. revert state.
  induction candidates as [|[o [placed key]] rest IH]; intros st Hst; cbn [close_loop]; [done|].
  case_bool_decide; [done|]. destruct (existsb _ _); apply IH; [|done]. by apply key_insert_sorted.
Qed.

Lemma restore_sorted every kept tolerance :
  StronglySorted key_lt kept -> StronglySorted key_lt (restore_entries every kept tolerance).
Proof.
  intros Hk. unfold restore_entries.
  apply (fold_left_inv (fun st : State => StronglySorted key_lt st.1)); [done|].
  intros st stretch Hst _. apply (fold_left_inv (fun st : State => StronglySorted key_lt st.1)); [done|].
  intros st' hole Hst' _. destruct (tolerance <? _); [|done]. by apply close_hole_sorted.
Qed.

(** ** The entries of the chunks *)

Lemma entries_elem chunks k s :
  (k, s) ∈ entries chunks
  <-> exists segment, segment_at chunks k = Some segment /\ s = span (AsrSegmentDraft.range segment).
Proof.
  unfold entries, segment_at. rewrite list_elem_of_bind. split.
  - intros ([i c] & Hk & Hc). apply list_elem_of_fmap in Hk as ([p d] & [= -> ->] & Hp).
    apply list_elem_of_lookup in Hc as [? Hc], Hp as [? Hp].
    apply enumerate_lookup in Hc as [<- Hc], Hp as [<- Hp]. cbn in *.
    exists d. by rewrite Hc.
  - intros (segment & Hs & ->). destruct k as [i p]. cbn in *.
    destruct (chunks !! i) as [c|] eqn:Hc; [|done]. cbn in Hs. exists (i, c). split.
    + apply list_elem_of_fmap. exists (p, segment). split; [done|].
      apply list_elem_of_lookup. exists p. by apply enumerate_lookup.
    + apply list_elem_of_lookup. exists i. by apply enumerate_lookup.
Qed.

Lemma entries_functional chunks k s s' :
  (k, s) ∈ entries chunks -> (k, s') ∈ entries chunks -> s = s'.
Proof.
  rewrite !entries_elem. intros (d & Hd & ->) (d' & Hd' & ->). congruence.
Qed.

(** Every segment of every chunk has the range of a [TimeRange]. *)
Definition chunks_wf (chunks : list ChunkSegments.t) : Prop :=
  Forall (fun c => Forall (fun d => TimeRange.wf (AsrSegmentDraft.range d)) (ChunkSegments.segments c)
                   /\ Forall TimeRange.wf (ChunkSegments.unplaced c)) chunks.

Lemma segment_at_wf chunks k d :
  chunks_wf chunks -> segment_at chunks k = Some d -> TimeRange.wf (AsrSegmentDraft.range d).
Proof.
  intros Hwf. unfold segment_at. destruct (chunks !! k.1) as [c|] eqn:Hc; [|done]. cbn. intros Hd.
  apply list_elem_of_lookup_2 in Hc, Hd. unfold chunks_wf in Hwf. rewrite Forall_forall in Hwf.
  destruct (Hwf _ Hc) as [Hs _]. rewrite Forall_forall in Hs. by apply Hs.
Qed.

Lemma entries_wf chunks :
  chunks_wf chunks ->
  Forall (fun e : Key * Span => 0 <= e.2.1 /\ e.2.1 < e.2.2 <= U64_MAX) (entries chunks).
Proof.
  intros Hwf. apply Forall_forall. intros [k s] Hin. apply entries_elem in Hin as (d & Hd & ->).
  destruct (segment_at_wf _ _ _ Hwf Hd) as (? & ? & ?). cbn. ulia.
Qed.
