(* ===== verification/SeamMerge.v ===== *)
(** * SeamMerge: one transcript from overlapping chunks

    Models rule 3 and the whole of [merge_chunks] in
    [crates/vsift-domain/src/asr.rs]: the kept segments in time order, words
    written twice at a seam trimmed or dropped, and the stretches of rejected
    words that nothing kept covers. The heap of [join_nearest] is the list
    instance; any lawful one gives the same result ([join_nearest_equivalence]). *)

From stdpp Require Import sets relations.
From S2P Require Import Prelude.
From S2P Require Import Text.
From S2P Require Import Chars.
From S2P Require Import Timeline.
From S2P Require Import Spans.
From S2P Require Import MinQueue.
From S2P Require Import JoinNearest.
From S2P Require Import SpanSet.
From S2P Require Import Identity.
From S2P Require Import AsrPlan.
From S2P Require Import AsrRun.
From S2P Require Import Cues.
From S2P Require Import AsrOutput.
From S2P Require Import SeamWords.
From S2P Require Import SeamRules.
From S2P Require Import SeamGuard.

Definition MAX_UNPLACED_STRETCHES : nat := 1024.

Module MergedSegment.
Record t := mk { chunk : Z; segment : AsrSegmentDraft.t }.
End MergedSegment.

Module MergedTranscript.
Record t := mk {
  segments : list MergedSegment.t;
  warnings : TranscriptWarnings.t;
  unplaced : list TimeRange.t
}.
End MergedTranscript.

(** A kept segment with the index of its chunk. *)
Definition Placed : Type := nat * AsrSegmentDraft.t.

Definition placed_span (o : Placed) : Span := span (AsrSegmentDraft.range o.2).

(** The key [(start, end, index)]. *)
Definition placed_le (a b : Placed) : Prop :=
  (placed_span a).1 < (placed_span b).1
  \/ ((placed_span a).1 = (placed_span b).1
      /\ ((placed_span a).2 < (placed_span b).2
          \/ ((placed_span a).2 = (placed_span b).2 /\ (a.1 <= b.1)%nat))).

#[global] Instance placed_le_dec : RelDecision placed_le.
Proof. intros a b. unfold placed_le. apply _. Defined.

Definition with_text (d : AsrSegmentDraft.t) (value : CueText.t) : AsrSegmentDraft.t :=
  AsrSegmentDraft.mk (AsrSegmentDraft.range d) value (AsrSegmentDraft.confidence d)
    (AsrSegmentDraft.provider_start d) (AsrSegmentDraft.provider_end d) (AsrSegmentDraft.trimmed d).

Definition text_of (d : AsrSegmentDraft.t) : text := CueText.as_text (AsrSegmentDraft.cue_text d).

Definition dropping_leaves_a_hole (ordered : list Placed) (index : nat) (union : list Span) : bool :=
  match ordered !! index with
  | None => false
  | Some candidate =>
      let '(start, end_) := placed_span candidate in
      let covered := insert_many SpanSet_default (placed_span <$> delete index ordered) in
      existsb (fun gap : Span =>
          (SEAM_COVERAGE_TOLERANCE_MICROS <? gap.2 - gap.1) && (gap.1 <? end_) && (start <? gap.2))
        (filter (fun stretch : Span => stretch.1 < end_ /\ start < stretch.2) union
           ≫= gaps_within covered)
  end.

Section Merge.
Context `{UnicodeTables}.

(** The state of rule 3: the kept segments and the warnings. *)
Definition Seams : Type := list Placed * TranscriptWarnings.t.

Definition count_seam (ordinal : Z) (warnings : TranscriptWarnings.t) : TranscriptWarnings.t :=
  TranscriptWarnings.add warnings TranscriptWarningKind.SeamDuplicatesRemoved 1 ordinal.

(** What one comparison decides: whether the later copy was dropped. *)
Definition compare_at (union : list Span) (previous later : nat) (ordinal : Z) (state : Seams)
    (earlier : nat) : bool * Seams :=
  let '(ordered, warnings) := state in
  match ordered !! earlier, ordered !! later with
  | Some first, Some second =>
      if (earlier =? later)%nat || negb (first.1 =? previous)%nat then (false, state)
      else if ((placed_span second).2 <=? (placed_span first).1)
              || ((placed_span first).2 <=? (placed_span second).1) then (false, state)
      else
        let later_words := normalized_words (text_of second.2) in
        let shared := shared_seam_words (normalized_words (text_of first.2)) later_words in
        if (shared =? 0)%nat then (false, state)
        else
          match (if (shared <? length later_words)%nat
                 then without_leading_words (text_of second.2) shared else None) with
          | Some value =>
              (false, (<[later := (second.1, with_text second.2 value)]> ordered,
                       count_seam ordinal warnings))
          | None =>
              if dropping_leaves_a_hole ordered later union then (false, state)
              else (true, (delete later ordered, count_seam ordinal warnings))
          end
  | _, _ => (false, state)
  end.

(** The loop over the earlier segments; a drop ends it. *)
Fixpoint compare_all (union : list Span) (previous later : nat) (ordinal : Z) (earliers : list nat)
    (state : Seams) : bool * Seams :=
  match earliers with
  | [] => (false, state)
  | earlier :: rest =>
      match compare_at union previous later ordinal state earlier with
      | (true, state) => (true, state)
      | (false, state) => compare_all union previous later ordinal rest state
      end
  end.

Definition remove_one_seam_duplicate (chunks : list ChunkSegments.t) (union : list Span) (later : nat)
    (state : Seams) : bool * Seams :=
  match state.1 !! later with
  | None => (false, state)
  | Some (O, _) => (false, state)
  | Some (S previous as chunk, _) =>
      let ordinal := match chunks !! chunk with
                     | Some c => PlannedChunk.ordinal (ChunkSegments.chunk c)
                     | None => U32_MAX
                     end in
      compare_all union previous later ordinal (seq 0 (length state.1)) state
  end.

(** Each turn moves on or drops a segment, so the number of segments is fuel
    enough. *)
Fixpoint seam_loop (fuel : nat) (chunks : list ChunkSegments.t) (union : list Span) (later : nat)
    (state : Seams) : Seams :=
  match fuel with
  | O => state
  | S fuel =>
      if (later <? length state.1)%nat then
        match remove_one_seam_duplicate chunks union later state with
        | (true, state) => seam_loop fuel chunks union later state
        | (false, state) => seam_loop fuel chunks union (S later) state
        end
      else state
  end.

Definition remove_seam_duplicates (ordered : list Placed) (chunks : list ChunkSegments.t)
    (union : list Span) : Seams :=
  seam_loop (length ordered) chunks union 0 (ordered, TranscriptWarnings.default).

Definition uncovered_unplaced_stretches (chunks : list ChunkSegments.t) (kept : list Placed)
    : list TimeRange.t :=
  let covered := insert_many SpanSet_default (placed_span <$> kept) in
  let candidates := merged (chunks ≫= fun c => span <$> ChunkSegments.unplaced c) in
  let stretches := filter (fun s : Span => SEAM_COVERAGE_TOLERANCE_MICROS < s.2 - s.1)
                     (candidates ≫= gaps_within covered) in
  to_ranges (default stretches (join_nearest (Q := list entry) stretches MAX_UNPLACED_STRETCHES None)).

Definition assemble (chunks : list ChunkSegments.t) (kept : list Key) : MergedTranscript.t :=
  let ordered := stable_sort placed_le
                   (omap (fun k : Key => (fun d => (k.1, d)) <$> segment_at chunks k) kept) in
  let union := merged (chunks ≫= fun c =>
                 (fun d => span (AsrSegmentDraft.range d)) <$> ChunkSegments.segments c) in
  let '(ordered, warnings) := remove_seam_duplicates ordered chunks union in
  MergedTranscript.mk
    ((fun o : Placed => MergedSegment.mk (saturating_u32 (Z.of_nat o.1)) o.2) <$> ordered)
    warnings (uncovered_unplaced_stretches chunks ordered).

Definition merge_chunks (chunks : list ChunkSegments.t) : MergedTranscript.t :=
  assemble chunks (restore_lost_speech chunks (keep_by_rules_one_and_two chunks)).
End Merge.

(** ** Facts: dropping a copy *)

#[global] Instance placed_le_total : Total placed_le.
Proof. intros a b. unfold placed_le. lia. Qed.
#[global] Instance placed_le_trans : Transitive placed_le.
Proof. intros a b c. unfold placed_le. lia. Qed.

(** Every segment of every chunk. *)
Definition all_spans (chunks : list ChunkSegments.t) : list Span :=
  chunks ≫= fun c => (fun d => span (AsrSegmentDraft.range d)) <$> ChunkSegments.segments c.

Lemma all_spans_elem chunks s :
  s ∈ all_spans chunks <-> exists k d, segment_at chunks k = Some d /\ s = span (AsrSegmentDraft.range d).
Proof.
  unfold all_spans, segment_at. rewrite list_elem_of_bind. split.
  - intros (c & Hs & Hc). apply list_elem_of_fmap in Hs as (d & -> & Hd).
    apply list_elem_of_lookup in Hc as [i Hc], Hd as [p Hd].
    exists (i, p), d. cbn. by rewrite Hc.
  - intros ([i p] & d & Hd & ->). cbn in Hd. destruct (chunks !! i) as [c|] eqn:Hc; [|done].
    cbn in Hd. exists c. apply list_elem_of_lookup_2 in Hc, Hd. split; [|done].
    apply list_elem_of_fmap. by exists d.
Qed.

Lemma entries_cover chunks : same_cover (entries chunks).*2 (all_spans chunks).
Proof.
  intros x. unfold covers. rewrite !Exists_exists. split; intros (s & Hs & Hx); exists s; split; try done.
  - apply list_elem_of_fmap in Hs as ([k s'] & -> & Hs). apply entries_elem in Hs as (d & ? & ->).
    apply all_spans_elem. by exists k, d.
  - apply all_spans_elem in Hs as (k & d & Hd & ->). apply list_elem_of_fmap.
    exists (k, span (AsrSegmentDraft.range d)). split; [done|]. apply entries_elem. by exists d.
Qed.

Lemma all_spans_wf chunks :
  chunks_wf chunks -> Forall (fun s : Span => 0 <= s.1 /\ s.1 < s.2 <= U64_MAX) (all_spans chunks).
Proof.
  intros Hwf. apply Forall_forall. intros s Hs. apply all_spans_elem in Hs as (k & d & Hd & ->).
  destruct (segment_at_wf _ _ _ Hwf Hd) as (? & ? & ?). cbn. ulia.
Qed.

Section Drop.
Context (chunks : list ChunkSegments.t) (Hwf : chunks_wf chunks).

Definition union_of : list Span := merged (all_spans chunks).

Lemma union_spec : canonical union_of /\ same_cover union_of (all_spans chunks).
Proof.
  apply merged_spec. eapply Forall_impl; [by apply all_spans_wf|]. intros s [? _]. done.
Qed.

(** Every kept segment has the time of a segment of the chunks. *)
Definition spans_ok (ordered : list Placed) : Prop :=
  Forall (fun o => 0 <= (placed_span o).1 /\ (placed_span o).1 < (placed_span o).2) ordered.

Definition keeps_all (ordered : list Placed) : Prop :=
  nothing_lost SEAM_COVERAGE_TOLERANCE_MICROS (all_spans chunks) (placed_span <$> ordered).

Lemma covers_delete (ordered : list Placed) i o x :
  ordered !! i = Some o ->
  covers (placed_span <$> ordered) x
  <-> in_span (placed_span o) x \/ covers (placed_span <$> delete i ordered) x.
Proof.
  intros Ho. rewrite <- covers_cons. apply covers_perm.
  change (placed_span o :: (placed_span <$> delete i ordered))
    with (placed_span <$> (o :: delete i ordered)).
  by rewrite <- (delete_Permutation _ _ _ Ho).
Qed.

Lemma drop_safe ordered i o :
  ordered !! i = Some o -> spans_ok ordered -> keeps_all ordered -> dropping_leaves_a_hole ordered i union_of = false ->
  keeps_all (delete i ordered).
Proof.
  intros Ho Hok Hall Hno a b (Hab & Hun & Hopen). unfold dropping_leaves_a_hole in Hno.
  rewrite Ho in Hno.
  destruct (Z.le_gt_cases (b - a) SEAM_COVERAGE_TOLERANCE_MICROS) as [?|Hlong]; [done|]. exfalso.
  destruct (placed_span o) as [start end_] eqn:Es.
  pose proof (covers_delete ordered i o) as Hdel.
  assert (Hmeet : exists x, a <= x < b /\ start <= x < end_).
  { destruct (decide (Exists (fun x => start <= x < end_) (seqZ a (b - a)))) as [He|He].
    - apply Exists_exists in He as (x & Hx & ?). apply elem_of_seqZ in Hx. exists x. split; [lia|done].
    - exfalso. enough (b - a <= SEAM_COVERAGE_TOLERANCE_MICROS) by lia. apply Hall.
      split; [done|]. split; [done|]. intros x Hx. rewrite (Hdel x Ho), Es.
      intros [Hin|Hc]; [|by apply (Hopen x Hx)]. apply He, Exists_exists. exists x.
      split; [apply elem_of_seqZ; lia|exact Hin]. }
  destruct Hmeet as (x & Hx & Hxo). destruct union_spec as [Hcan Hcov].
  destruct (canon_interval (-1) _ a b Hcan Hab) as (stretch & Hin & H1 & H2).
  { intros y Hy. by apply Hcov, Hun. }
  assert (Hnn : 0 <= stretch.1).
  { apply canon_nonneg in Hcan; [|lia]. rewrite Forall_forall in Hcan. by apply Hcan. }
  set (covered := insert_many SpanSet_default (placed_span <$> delete i ordered)) in *.
  destruct (insert_many_spec SpanSet_default (placed_span <$> delete i ordered)) as [Hset Hsetc];
    [done| |fold covered in Hset, Hsetc].
  { apply Forall_fmap. unfold spans_ok in Hok. rewrite Forall_forall in Hok. apply Forall_forall.
    intros o' Ho'. apply Hok. rewrite (delete_Permutation _ _ _ Ho). by right. }
  destruct (gaps_within_spec covered stretch Hset Hnn) as [Hgc Hg].
  destruct (canon_interval (-1) (gaps_within covered stretch) a b Hgc Hab) as (g & Hgin & Hg1 & Hg2).
  { intros y Hy. apply Hg. split; [unfold in_span; lia|]. intros Hc. apply (Hopen y Hy).
    apply Hsetc, covers_app in Hc as [?|Hc]; [done|by apply covers_nil in Hc]. }
  apply not_true_iff_false in Hno. apply Hno, existsb_exists. exists g. split.
  - apply list_elem_of_In, list_elem_of_bind. exists stretch. split; [done|].
    apply list_elem_of_filter. split; [lia|done].
  - rewrite !andb_true_iff, !Z.ltb_lt. lia.
Qed.
End Drop.

(** ** Facts: the loop of rule 3 *)

Section Loop.
Context `{UnicodeTables}.

(** A comparison drops one segment or changes the text of one; what holds of
    the chunk and the time of every segment goes on holding. *)
Lemma compare_at_spec (S : nat * Span -> Prop) union previous later ordinal state earlier :
  let r := compare_at union previous later ordinal state earlier in
  (Forall (fun o => S (o.1, placed_span o)) state.1 -> Forall (fun o => S (o.1, placed_span o)) r.2.1)
  /\ length state.1 = if r.1 then Datatypes.S (length r.2.1) else length r.2.1.
Proof.
  destruct state as [ordered warnings]. unfold compare_at.
  destruct (ordered !! earlier) as [first|] eqn:Ef; [|done].
  destruct (ordered !! later) as [second|] eqn:Es; [|done].
  destruct (_ || _); [done|]. destruct (_ || _); [done|]. cbn zeta.
  destruct (_ =? 0)%nat; [done|].
  destruct (if (_ <? _)%nat then _ else None) as [value|] eqn:Ev.
  - cbn [fst snd]. split; [|by rewrite length_insert]. intros Hf. apply Forall_insert; [done|].
    rewrite Forall_lookup in Hf. apply (Hf _ _ Es).
  - destruct (dropping_leaves_a_hole _ _ _) eqn:Ed; [done|]. cbn [fst snd]. split.
    + intros Hf. rewrite (delete_Permutation _ _ _ Es) in Hf. by apply Forall_cons in Hf as [_ ?].
    + rewrite length_delete by (by exists second). apply lookup_lt_Some in Es. lia.
Qed.

Lemma remove_one_spec (S : nat * Span -> Prop) chunks union later state :
  let r := remove_one_seam_duplicate chunks union later state in
  (Forall (fun o => S (o.1, placed_span o)) state.1 -> Forall (fun o => S (o.1, placed_span o)) r.2.1)
  /\ length state.1 = if r.1 then Datatypes.S (length r.2.1) else length r.2.1.
Proof.
  unfold remove_one_seam_duplicate.
  destruct (state.1 !! later) as [[[|previous] d]|]; [done| |done]. cbn zeta.
  generalize (match chunks !! Datatypes.S previous with
              | Some c => PlannedChunk.ordinal (ChunkSegments.chunk c) | None => U32_MAX end) as ordinal.
  generalize (seq 0 (length state.1)) as earliers. intros earliers ordinal. revert state.
  induction earliers as [|e rest IH]; intros st; cbn [compare_all]; [done|].
  destruct (compare_at_spec S union previous later ordinal st e) as [H1 H2].
  destruct (compare_at _ _ _ _ st e) as [[] st1]; cbn [fst snd] in *; [done|].
  destruct (IH st1) as [H3 H4]. split; [auto|]. by rewrite H2.
Qed.

(** More fuel than segments left changes nothing. *)
Lemma seam_loop_ends chunks union fuel more later state :
  (length state.1 - later <= fuel)%nat ->
  seam_loop (fuel + more) chunks union later state = seam_loop fuel chunks union later state.
Proof.
  revert later state. induction fuel as [|fuel IH]; intros later state Hf.
  { destruct more; cbn [Nat.add seam_loop]; [done|].
    by rewrite (proj2 (Nat.ltb_ge _ _)) by lia. }
  cbn [Nat.add seam_loop]. destruct (later <? length state.1)%nat eqn:E; [|done].
  apply Nat.ltb_lt in E. destruct (remove_one_spec (fun _ => True) chunks union later state) as [_ H2].
  destruct (remove_one_seam_duplicate _ _ _ _) as [[] st]; cbn [fst snd] in *; apply IH; lia.
Qed.
End Loop.

(** ** Facts: rule 3 *)

Section Rule3.
Context `{UnicodeTables} (chunks : list ChunkSegments.t) (Hwf : chunks_wf chunks).
Context (Hindex : Forall (fun c => is_u32 (PlannedChunk.index (ChunkSegments.chunk c))) chunks).

(** Leading words taken off a text. *)
Definition trims (a b : CueText.t) : Prop :=
  exists n, without_leading_words (CueText.as_text a) n = Some b.

(** The segment a key names, but for leading words. *)
Definition copy_of (k : Key) (o : Placed) : Prop :=
  k.1 = o.1
  /\ exists d, segment_at chunks k = Some d
     /\ o.2 = with_text d (AsrSegmentDraft.cue_text o.2)
     /\ rtc trims (AsrSegmentDraft.cue_text d) (AsrSegmentDraft.cue_text o.2).

Definition seam_inv (state : Seams) : Prop :=
  (exists keys, NoDup keys /\ Forall2 copy_of keys state.1)
  /\ StronglySorted placed_le state.1 /\ keeps_all chunks state.1
  /\ TranscriptWarnings.wf state.2.

Lemma copies_ok keys ordered : Forall2 copy_of keys ordered -> spans_ok ordered.
Proof.
  induction 1 as [|k o keys ordered (_ & d & Hd & Ho & _) _ IH]; [constructor|]. constructor; [|done].
  destruct (segment_at_wf _ _ _ Hwf Hd) as (? & ? & ?). unfold placed_span. rewrite Ho. cbn. ulia.
Qed.

Lemma chunk_ordinal i :
  0 < match chunks !! i with
      | Some c => PlannedChunk.ordinal (ChunkSegments.chunk c)
      | None => U32_MAX
      end <= U32_MAX.
Proof.
  destruct (chunks !! i) as [c|] eqn:E; [|ulia]. apply list_elem_of_lookup_2 in E.
  rewrite Forall_forall in Hindex. specialize (Hindex _ E). unfold PlannedChunk.ordinal. ulia.
Qed.

Lemma count_seam_wf ordinal warnings :
  0 < ordinal <= U32_MAX -> TranscriptWarnings.wf warnings ->
  TranscriptWarnings.wf (count_seam ordinal warnings).
Proof. intros Ho Hw. apply WarningFacts.add_spec; [done|ulia|done]. Qed.

(** A trim changes no time. *)
Lemma trim_inv state later second value n ordinal :
  0 < ordinal <= U32_MAX -> seam_inv state -> state.1 !! later = Some second ->
  without_leading_words (text_of second.2) n = Some value ->
  seam_inv (<[later := (second.1, with_text second.2 value)]> state.1, count_seam ordinal state.2).
Proof.
  intros Ho ((keys & Hnd & Hf) & Hs & Hk & Hw) Hl Ht.
  set (second' := (second.1, with_text second.2 value)).
  assert (Hmap : forall (A : Type) (f : Placed -> A), f second' = f second ->
            f <$> <[later := second']> state.1 = f <$> state.1).
  { intros A f E. rewrite list_fmap_insert, E. apply list_insert_id. rewrite list_lookup_fmap. exact (f_equal (fmap f) Hl). }
  split; [|split; [|split]].
  - exists keys. split; [done|]. cbn [fst].
    destruct (Forall2_lookup_r _ _ _ _ _ Hf Hl) as (k & Hkey & H1 & d & Hd & E & Hr).
    rewrite <- (list_insert_id keys later k) by done. apply Forall2_insert; [done|].
    split; [done|]. exists d. split; [done|]. cbn [snd with_text second'].
    split; [by rewrite E|]. eapply rtc_r; [exact Hr|]. by exists n.
  - apply StronglySorted_lookup. cbn [fst]. intros i j a b Hij Ha Hb.
    assert (Hkeys : forall i a, <[later := second']> state.1 !! i = Some a ->
              exists a', state.1 !! i = Some a' /\ a'.1 = a.1 /\ placed_span a' = placed_span a).
    { intros i' a' [(-> & <- & _)|(_ & Hi)]%list_lookup_insert_Some; [by exists second|by exists a']. }
    destruct (Hkeys i a Ha) as (a' & Ha' & Ea1 & Ea2), (Hkeys j b Hb) as (b' & Hb' & Eb1 & Eb2).
    pose proof (proj1 (StronglySorted_lookup _ _) Hs i j a' b' Hij Ha' Hb') as Hle.
    unfold placed_le in *. by rewrite <- Ea1, <- Ea2, <- Eb1, <- Eb2.
  - unfold keeps_all. cbn [fst]. by rewrite Hmap.
  - by apply count_seam_wf.
Qed.

Lemma drop_inv state later second ordinal :
  0 < ordinal <= U32_MAX -> seam_inv state -> state.1 !! later = Some second ->
  dropping_leaves_a_hole state.1 later (union_of chunks) = false ->
  seam_inv (delete later state.1, count_seam ordinal state.2).
Proof.
  intros Ho ((keys & Hnd & Hf) & Hs & Hk & Hw) Hl Hno. split; [|split; [|split]].
  - exists (delete later keys). split; [|by apply Forall2_delete].
    eapply sublist_NoDup; [exact Hnd|]. apply sublist_delete.
  - cbn [fst]. eapply StronglySorted_sublist; [|exact Hs]. apply sublist_delete.
  - eapply drop_safe; [done|done|by eapply copies_ok|done|done].
  - by apply count_seam_wf.
Qed.

(** One comparison keeps the invariant. *)
Lemma compare_at_inv previous later ordinal state earlier :
  0 < ordinal <= U32_MAX -> seam_inv state ->
  seam_inv (compare_at (union_of chunks) previous later ordinal state earlier).2.
Proof.
  intros Ho Hi. destruct state as [ordered warnings]. unfold compare_at.
  destruct (ordered !! earlier) as [first|] eqn:Ef; [|done].
  destruct (ordered !! later) as [second|] eqn:Es; [|done].
  destruct (_ || _); [done|]. destruct (_ || _); [done|]. cbn zeta.
  destruct (_ =? 0)%nat; [done|].
  destruct (if (_ <? _)%nat then _ else None) as [value|] eqn:Ev.
  - destruct (_ <? _)%nat; [|done]. by eapply (trim_inv (ordered, warnings)).
  - destruct (dropping_leaves_a_hole _ _ _) eqn:Ed; [done|]. by eapply (drop_inv (ordered, warnings)).
Qed.

Lemma remove_one_inv later state :
  seam_inv state -> seam_inv (remove_one_seam_duplicate chunks (union_of chunks) later state).2.
Proof.
  intros Hi. unfold remove_one_seam_duplicate.
  destruct (state.1 !! later) as [[[|previous] d]|]; [done| |done]. cbn zeta.
  pose proof (chunk_ordinal (S previous)) as Ho. revert Ho.
  generalize (match chunks !! S previous with
              | Some c => PlannedChunk.ordinal (ChunkSegments.chunk c) | None => U32_MAX end) as ordinal.
  generalize (seq 0 (length state.1)) as earliers. intros earliers ordinal Ho. revert state Hi.
  induction earliers as [|e rest IH]; intros st Hst; cbn [compare_all]; [done|].
  pose proof (compare_at_inv previous later ordinal st e Ho Hst) as H1.
  destruct (compare_at _ _ _ _ st e) as [[] st1]; cbn [fst snd] in *; [done|]. by apply IH.
Qed.

Lemma seam_loop_inv fuel later state :
  seam_inv state -> seam_inv (seam_loop fuel chunks (union_of chunks) later state).
Proof.
  revert later state. induction fuel as [|fuel IH]; intros later state Hi; cbn [seam_loop]; [done|].
  destruct (_ <? _)%nat; [|done]. pose proof (remove_one_inv later state Hi) as H1.
  destruct (remove_one_seam_duplicate _ _ _ _) as [[] st]; by apply IH.
Qed.

End Rule3.

(** ** Facts: what the rules keep *)

Section Assemble.
Context `{UnicodeTables} (chunks : list ChunkSegments.t) (Hwf : chunks_wf chunks).
Context (Hindex : Forall (fun c => is_u32 (PlannedChunk.index (ChunkSegments.chunk c))) chunks).

Lemma StronglySorted_NoDup_lt kept : StronglySorted key_lt kept -> NoDup kept.
Proof.
  induction 1 as [|k kept _ IH Hf]; constructor; [|done]. intros Hin. rewrite Forall_forall in Hf.
  apply Hf in Hin. unfold key_lt in Hin. lia.
Qed.

(** A set of keys, in order, each naming a segment. *)
Definition keys_ok (kept : list Key) : Prop :=
  StronglySorted key_lt kept /\ forall k, k ∈ kept -> is_Some (segment_at chunks k).

Lemma keys_insert_ok k kept : keys_ok kept -> is_Some (segment_at chunks k) -> keys_ok (key_insert k kept).
Proof.
  intros [Hs Hk] Hsome. split; [by apply key_insert_sorted|]. intros k' [->|?]%key_insert_elem; auto.
Qed.

Lemma covering_ok neighbour segment facing k :
  k ∈ covering chunks neighbour segment facing -> is_Some (segment_at chunks k).
Proof.
  unfold covering, segment_at. destruct (chunks !! neighbour) as [c|] eqn:Hc; [|by intros ?%not_elem_of_nil].
  intros Hk. apply list_elem_of_fmap in Hk as ([p d] & -> & [_ Hp]%list_elem_of_filter). cbn [fst snd].
  apply list_elem_of_lookup in Hp as [? Hp]. apply enumerate_lookup in Hp as [<- Hp].
  rewrite Hc. cbn. by rewrite Hp.
Qed.

Lemma judge_ok index chunk kept entry :
  chunks !! index = Some chunk -> entry ∈ enumerate (ChunkSegments.segments chunk) ->
  keys_ok kept -> keys_ok (judge chunks index kept entry).
Proof.
  intros Hc He Hk. destruct entry as [position segment].
  apply list_elem_of_lookup in He as [? Hp]. apply enumerate_lookup in Hp as [<- Hp].
  assert (Hself : is_Some (segment_at chunks (index, position)))
    by (unfold segment_at; cbn; rewrite Hc; cbn; by rewrite Hp).
  unfold judge. destruct (negb _).
  - destruct (chunks !! owner_of _ _ _); [|done]. destruct (claims_time_over _ _); [done|].
    by apply keys_insert_ok.
  - destruct (_ && _); [|by apply keys_insert_ok]. unfold key_extend.
    apply (fold_left_inv keys_ok); [done|]. intros kept' k Hk' Hin. apply keys_insert_ok; [done|].
    apply list_elem_of_In, in_concat in Hin as (found & Hf & Hin).
    apply list_elem_of_In in Hf, Hin. apply list_elem_of_fmap in Hf as (side & -> & _).
    by eapply covering_ok.
Qed.

Lemma rules_ok : keys_ok (keep_by_rules_one_and_two chunks).
Proof.
  unfold keep_by_rules_one_and_two. apply (fold_left_inv keys_ok).
  { split; [constructor|]. by intros k ?%not_elem_of_nil. }
  intros kept [index chunk] Hk Hin. apply list_elem_of_lookup in Hin as [? Hin].
  apply enumerate_lookup in Hin as [<- Hc]. apply (fold_left_inv keys_ok); [done|].
  intros kept' entry Hk' He. by eapply judge_ok.
Qed.

(** The guard, on the set the rules leave. *)
Lemma guard_spec :
  let kept := restore_lost_speech chunks (keep_by_rules_one_and_two chunks) in
  keys_ok kept
  /\ nothing_lost SEAM_COVERAGE_TOLERANCE_MICROS (all_spans chunks)
       (kept_spans (entries chunks) kept)
  /\ (forall k, k ∈ keep_by_rules_one_and_two chunks -> k ∈ kept).
Proof.
  destruct rules_ok as [Hs Hk].
  destruct (restore_entries_spec (entries chunks) SEAM_COVERAGE_TOLERANCE_MICROS
              (entries_functional chunks) (entries_wf chunks Hwf) ltac:(by vm_compute)
              (keep_by_rules_one_and_two chunks)) as (Hlost & Hsub & Hnew).
  split; [|split; [|done]].
  - split; [by apply restore_sorted|]. intros k Hin. destruct (Hnew k Hin) as [Hr|[s He]]; [by apply Hk|].
    apply entries_elem in He as (d & Hd & _). by exists d.
  - intros a b (Hab & Hun & Hopen). apply Hlost. split; [done|]. split; [|done].
    intros x Hx. by apply entries_cover, Hun.
Qed.

(** The segments of a set, each with its chunk. *)
Definition pick (kept : list Key) : list Placed :=
  omap (fun k : Key => (fun d => (k.1, d)) <$> segment_at chunks k) kept.

Lemma pick_copies kept : keys_ok kept -> Forall2 (copy_of chunks) kept (pick kept).
Proof.
  intros [_ Hk]. induction kept as [|k kept IH]; [constructor|]. unfold pick. rewrite omap_cons_app.
  destruct (Hk k ltac:(by left)) as [d Hd]. rewrite Hd. cbn. constructor.
  - split; [done|]. exists d. split; [done|]. cbn. split; [by destruct d|]. apply rtc_refl.
  - apply IH. intros k' ?. apply Hk. by right.
Qed.

Lemma pick_cover kept :
  same_cover (placed_span <$> pick kept) (kept_spans (entries chunks) kept).
Proof.
  intros x. rewrite kept_spans_cover. unfold covers, pick. rewrite Exists_fmap, Exists_exists. split.
  - intros (o & Ho & Hx). apply list_elem_of_omap in Ho as (k & Hk & E).
    destruct (segment_at chunks k) as [d|] eqn:Hd; [|done]. injection E as <-.
    exists k, (span (AsrSegmentDraft.range d)). split; [apply entries_elem; by exists d|done].
  - intros (k & s & He & Hk & Hx). apply entries_elem in He as (d & Hd & ->).
    exists (k.1, d). split; [|done]. apply list_elem_of_omap. exists k. by rewrite Hd.
Qed.

(** Where rule 3 starts. *)
Lemma start_inv kept :
  keys_ok kept ->
  nothing_lost SEAM_COVERAGE_TOLERANCE_MICROS (all_spans chunks) (kept_spans (entries chunks) kept) ->
  seam_inv chunks (stable_sort placed_le (pick kept), TranscriptWarnings.default).
Proof.
  intros Hk Hlost. pose proof (stable_sort_Permutation placed_le (pick kept)) as Hperm.
  split; [|split; [|split]].
  - destruct (Forall2_permuted _ _ _ _ (symmetry Hperm) (pick_copies kept Hk)) as (keys & Hp & Hf).
    exists keys. split; [|done]. rewrite <- Hp. apply StronglySorted_NoDup_lt, Hk.
  - apply StronglySorted_stable_sort; apply _.
  - unfold keeps_all. cbn [fst]. intros a b (Hab & Hun & Hopen). apply Hlost.
    split; [done|]. split; [done|]. intros x Hx Hc. apply (Hopen x Hx).
    apply (covers_perm (placed_span <$> pick kept)); [by rewrite Hperm|]. by apply pick_cover.
  - by split; constructor.
Qed.
End Assemble.

(** The spans of a merged transcript. *)
Definition merged_spans (m : MergedTranscript.t) : list Span :=
  (fun s => span (AsrSegmentDraft.range (MergedSegment.segment s))) <$> MergedTranscript.segments m.

Definition indices_wf (chunks : list ChunkSegments.t) : Prop :=
  Forall (fun c => is_u32 (PlannedChunk.index (ChunkSegments.chunk c))) chunks.

(** What rule 3 ends with, when the merge starts from the guard's set. *)
Lemma merge_chunks_inv `{UnicodeTables} chunks :
  chunks_wf chunks -> indices_wf chunks ->
  exists state,
    seam_inv chunks state
    /\ merge_chunks chunks
       = MergedTranscript.mk
           ((fun o : Placed => MergedSegment.mk (saturating_u32 (Z.of_nat o.1)) o.2) <$> state.1)
           state.2 (uncovered_unplaced_stretches chunks state.1).
Proof.
  intros Hwf Hi. destruct (guard_spec chunks Hwf) as (Hk & Hlost & _).
  unfold merge_chunks, assemble, remove_seam_duplicates.
  set (kept := restore_lost_speech _ _) in *. fold (pick chunks kept). fold (union_of chunks).
  set (ordered := stable_sort placed_le (pick chunks kept)).
  exists (seam_loop (length ordered) chunks (union_of chunks) 0 (ordered, TranscriptWarnings.default)).
  split; [apply (seam_loop_inv chunks Hwf Hi); by apply start_inv|].
  by destruct (seam_loop _ _ _ _ _).
Qed.

(** However chunks overlap and repeat each other, the merged transcript leaves
    no stretch of the recognised speech longer than half a second without a
    segment: every time that any chunk wrote words for is covered, but for such
    short stretches, after all three rules. Where rules 1 and 2 lose nothing,
    the guard restores nothing. Claim C11. *)
Theorem merge_loses_no_speech `{UnicodeTables} chunks :
  chunks_wf chunks -> indices_wf chunks ->
  nothing_lost SEAM_COVERAGE_TOLERANCE_MICROS (all_spans chunks) (merged_spans (merge_chunks chunks))
  /\ (nothing_lost SEAM_COVERAGE_TOLERANCE_MICROS (all_spans chunks)
        (kept_spans (entries chunks) (keep_by_rules_one_and_two chunks)) ->
      restore_lost_speech chunks (keep_by_rules_one_and_two chunks) = keep_by_rules_one_and_two chunks).
Proof.
  intros Hwf Hi. split.
  - destruct (merge_chunks_inv chunks Hwf Hi) as (state & (_ & _ & Hk & _) & ->).
    unfold merged_spans. cbn. by rewrite <- list_fmap_compose.
  - intros Hnl. apply restore_entries_noop; [by apply entries_wf|by vm_compute|].
    intros a b (Hab & Hun & Hopen). apply Hnl. split; [done|]. split; [|done].
    intros x Hx. by apply entries_cover, Hun.
Qed.

(** Every merged segment is a segment of the chunk it names, with its time,
    confidence and provider times untouched and at most leading words taken
    off; no segment is used twice; and the merged segments are in time order.
    More turns of the loop of rule 3 change nothing. Claim C32. *)
Theorem merged_segments_sound `{UnicodeTables} chunks :
  chunks_wf chunks -> indices_wf chunks ->
  let m := merge_chunks chunks in
  (exists keys, NoDup keys
     /\ Forall2 (fun k s =>
          MergedSegment.chunk s = saturating_u32 (Z.of_nat k.1)
          /\ exists d, segment_at chunks k = Some d
             /\ MergedSegment.segment s
                = with_text d (AsrSegmentDraft.cue_text (MergedSegment.segment s))
             /\ rtc trims (AsrSegmentDraft.cue_text d)
                  (AsrSegmentDraft.cue_text (MergedSegment.segment s)))
          keys (MergedTranscript.segments m))
  /\ StronglySorted span_le (merged_spans m)
  /\ TranscriptWarnings.wf (MergedTranscript.warnings m)
  /\ (forall ordered more, seam_inv chunks (ordered, TranscriptWarnings.default) ->
        seam_loop (length ordered + more) chunks (union_of chunks) 0 (ordered, TranscriptWarnings.default)
        = remove_seam_duplicates ordered chunks (union_of chunks)).
Proof.
  intros Hwf Hi. cbn zeta. destruct (merge_chunks_inv chunks Hwf Hi) as (state & Hinv & ->).
  destruct Hinv as ((keys & Hnd & Hf) & Hs & _ & Hw). split; [|split; [|split]].
  - exists keys. split; [done|]. cbn. apply Forall2_fmap_r.
    eapply Forall2_impl; [exact Hf|]. intros k o (Hk & d & ? & ? & ?). cbn. split; [by rewrite Hk|].
    by exists d.
  - unfold merged_spans. cbn. rewrite <- list_fmap_compose. apply StronglySorted_fmap with placed_le; [|done].
    intros a b. unfold placed_le, span_le, placed_span. cbn. lia.
  - done.
  - intros ordered more Ho. unfold remove_seam_duplicates. apply seam_loop_ends. cbn. lia.
Qed.

(** ** Facts: words that could not be placed *)

Definition unplaced_spans (chunks : list ChunkSegments.t) : list Span :=
  chunks ≫= fun c => span <$> ChunkSegments.unplaced c.

Lemma unplaced_spans_wf chunks :
  chunks_wf chunks -> Forall (fun s : Span => 0 <= s.1 /\ s.1 < s.2 <= U64_MAX) (unplaced_spans chunks).
Proof.
  intros Hwf. apply Forall_forall. intros s Hs. unfold unplaced_spans in Hs.
  apply list_elem_of_bind in Hs as (c & Hs & Hc). apply list_elem_of_fmap in Hs as (r & -> & Hr).
  unfold chunks_wf in Hwf. rewrite Forall_forall in Hwf. destruct (Hwf c Hc) as [_ Hu].
  rewrite Forall_forall in Hu. destruct (Hu r Hr) as (? & ? & ?). cbn. ulia.
Qed.

(** The long parts of the unplaced words that nothing kept covers, before the
    list is bounded. *)
Lemma stretches_spec chunks kept :
  chunks_wf chunks -> spans_ok kept ->
  exists stretches,
    let long := filter (fun s : Span => SEAM_COVERAGE_TOLERANCE_MICROS < s.2 - s.1) stretches in
    uncovered_unplaced_stretches chunks kept
      = to_ranges (default long (join_nearest (Q := list entry) long MAX_UNPLACED_STRETCHES None))
    /\ canonical stretches /\ spans_typed long
    /\ (forall x, covers stretches x
          <-> covers (unplaced_spans chunks) x /\ ~ covers (placed_span <$> kept) x).
Proof.
  intros Hwf Hok. pose proof (unplaced_spans_wf chunks Hwf) as Hty.
  assert (Hu : Forall (fun s : Span => 0 <= s.1) (unplaced_spans chunks)).
  { eapply Forall_impl; [exact Hty|]. intros s [? _]. done. }
  destruct (merged_spec _ Hu) as [Hm Hmc].
  destruct (insert_many_spec SpanSet_default (placed_span <$> kept)) as [Hset Hsetc]; [done| |].
  { apply Forall_fmap. eapply Forall_impl; [exact Hok|]. intros o [? _]. done. }
  destruct (subtract_spec _ _ Hm Hset) as [Hs Hsc].
  set (covered := insert_many _ _) in *. set (stretches := subtract _ (spans covered)) in *.
  assert (Hcov : forall x, covers stretches x
            <-> covers (unplaced_spans chunks) x /\ ~ covers (placed_span <$> kept) x).
  { intros x. rewrite Hsc, (Hmc x), (Hsetc x), covers_app, covers_nil. tauto. }
  exists stretches. cbn zeta. split; [|split; [done|split; [|done]]].
  - unfold uncovered_unplaced_stretches. fold covered (unplaced_spans chunks).
    by rewrite gaps_of_spans by done.
  - apply canon_keys_gt in Hs as Hpos. rewrite Forall_forall in Hpos.
    apply Forall_forall. intros s [_ Hin]%list_elem_of_filter. specialize (Hpos s Hin).
    assert (Hx : covers (unplaced_spans chunks) (s.2 - 1)).
    { apply Hcov, Exists_exists. exists s. split; [done|]. unfold in_span. lia. }
    apply Exists_exists in Hx as (w & Hw & Hx). rewrite Forall_forall in Hty.
    specialize (Hty w Hw). unfold in_span in Hx. ulia.
Qed.

(** The words a recognizer wrote and nobody could place are not lost without a
    sign: every stretch of them longer than half a second that no merged
    segment covers is listed, in a canonical list of at most 1024 ranges, which
    lists nothing else unless it had to be bounded. *)
Theorem unplaced_words_listed `{UnicodeTables} chunks :
  chunks_wf chunks -> indices_wf chunks ->
  let m := merge_chunks chunks in
  let listed := span <$> MergedTranscript.unplaced m in
  let missing x := covers (unplaced_spans chunks) x /\ ~ covers (merged_spans m) x in
  canonical listed /\ (length listed <= MAX_UNPLACED_STRETCHES)%nat
  /\ (forall a b, SEAM_COVERAGE_TOLERANCE_MICROS < b - a -> (forall x, a <= x < b -> missing x) ->
        forall x, a <= x < b -> covers listed x)
  /\ ((length listed < MAX_UNPLACED_STRETCHES)%nat -> forall x, covers listed x -> missing x).
Proof.
  intros Hwf Hi. cbn zeta. destruct (merge_chunks_inv chunks Hwf Hi) as (state & Hinv & ->).
  destruct Hinv as ((keys & _ & Hf) & _ & _ & _). cbn [MergedTranscript.unplaced].
  assert (Hspans : merged_spans (MergedTranscript.mk
      ((fun o : Placed => MergedSegment.mk (saturating_u32 (Z.of_nat o.1)) o.2) <$> state.1) state.2
      (uncovered_unplaced_stretches chunks state.1)) = placed_span <$> state.1).
  { unfold merged_spans. cbn. by rewrite <- list_fmap_compose. }
  rewrite Hspans. clear Hspans.
  destruct (stretches_spec chunks state.1 Hwf (copies_ok chunks Hwf keys state.1 Hf))
    as (stretches & -> & Hc & Hty & Hcov).
  set (long := filter _ stretches) in *.
  assert (Hlong : canonical long) by (by apply canon_filter).
  destruct (join_nearest_spec (Q := list entry) long MAX_UNPLACED_STRETCHES None Hlong Hty) as
    (l & Hl & Hlc & Hsub & _ & Hlen & _); [done|].
  rewrite Hl. change (default long (Some l)) with l. rewrite (spans_of_ranges (-1)) by (done || lia).
  split; [done|]. split; [unfold MAX_UNPLACED_STRETCHES in *; lia|]. split.
  - intros a b Hlt Hmiss x Hx. apply Hsub.
    destruct (canon_interval (-1) stretches a b Hc) as (s & Hin & ? & ?).
    { unfold SEAM_COVERAGE_TOLERANCE_MICROS, SEAM_EDGE_MICROS in Hlt. lia. }
    { intros y Hy. by apply Hcov, Hmiss. }
    apply Exists_exists. exists s. split; [apply list_elem_of_filter; split; [lia|done]|].
    unfold in_span. lia.
  - intros Hshort x Hx. rewrite (join_nearest_short _ _ _ _ Hlong Hty Hl) in Hx.
    + apply Hcov. apply Exists_exists in Hx as (s & [_ Hin]%list_elem_of_filter & Hx).
      apply Exists_exists. by exists s.
    + done.
Qed.

(** ** A seam

    Two chunks of thirty seconds that overlap by five. The second has only two
    words at the time of the first one's last sentence: rule 1 drops the
    sentence, the guard restores it, and rule 3 drops the two words it holds. *)

Section Example.
Let seconds (a b : Z) : TimeRange.t := TimeRange.mk (a * 1000000) (b * 1000000).

Let said (a b : Z) (words : string) : AsrSegmentDraft.t :=
  AsrSegmentDraft.mk (seconds a b) (CueText.mk (literal words) None) Confidence.unknown 0 1 Unchanged.

Definition seam_example : list ChunkSegments.t :=
  [ChunkSegments.mk (PlannedChunk.mk (mkOpaqueId []) 0 (seconds 0 30))
     [said 18 26 "We begin here."; said 26 30 "Then the plan is done."] [seconds 10 12];
   ChunkSegments.mk (PlannedChunk.mk (mkOpaqueId []) 1 (seconds 25 55))
     [said 27 28 "the plan"; said 31 34 "Next."] []]%string.

Definition seam_result : list (Z * TimeRange.t) :=
  [(0, seconds 18 26); (0, seconds 26 30); (1, seconds 31 34)].
End Example.

Lemma seam_example_wf : chunks_wf seam_example /\ indices_wf seam_example.
Proof.
  split.
  - repeat constructor; concrete.
  - repeat (constructor; [concrete|]). constructor.
Qed.

Lemma merge_loses_no_speech_witness :
  (fun s => (MergedSegment.chunk s, AsrSegmentDraft.range (MergedSegment.segment s)))
    <$> MergedTranscript.segments (merge_chunks (H := ascii_tables) seam_example) = seam_result
  /\ keep_by_rules_one_and_two (H := ascii_tables) seam_example = [(0, 0); (1, 0); (1, 1)]%nat
  /\ nothing_lost SEAM_COVERAGE_TOLERANCE_MICROS (all_spans seam_example)
       (merged_spans (merge_chunks (H := ascii_tables) seam_example)).
Proof.
  split; [vm_compute; reflexivity|]. split; [vm_compute; reflexivity|].
  destruct seam_example_wf as [Hwf Hi].
  destruct (merge_loses_no_speech (H := ascii_tables) seam_example Hwf Hi) as [Hlost _]. exact Hlost.
Defined.

Lemma merged_segments_sound_witness :
  StronglySorted span_le (merged_spans (merge_chunks (H := ascii_tables) seam_example))
  /\ TranscriptWarnings.count_of
       (MergedTranscript.warnings (merge_chunks (H := ascii_tables) seam_example))
       TranscriptWarningKind.SeamDuplicatesRemoved = 1.
Proof.
  split; [|vm_compute; reflexivity].
  destruct seam_example_wf as [Hwf Hi].
  destruct (merged_segments_sound (H := ascii_tables) seam_example Hwf Hi) as (_ & Hs & _). exact Hs.
Defined.

Lemma unplaced_words_listed_witness :
  let m := merge_chunks (H := ascii_tables) seam_example in
  MergedTranscript.unplaced m = [TimeRange.mk 10000000 12000000]
  /\ canonical (span <$> MergedTranscript.unplaced m).
Proof.
  cbn zeta. split; [vm_compute; reflexivity|].
  destruct seam_example_wf as [Hwf Hi].
  destruct (unplaced_words_listed (H := ascii_tables) seam_example Hwf Hi) as (Hc & _). exact Hc.
Defined.
