(* ===== verification/SeamGuardLocal.v ===== *)
(** * SeamGuardLocal: the guard closes early holes from early segments

    The guard of [merge_chunks] in [crates/vsift-domain/src/asr.rs] closes a
    hole with the dropped segments that overlap it. Two sets of segments that
    agree before a time, none of whose segments crosses it, are therefore given
    the same segments back before that time, whatever lies after it. *)

From stdpp Require Import sets.
From S2P Require Import Prelude.
From S2P Require Import Spans.
From S2P Require Import SpanSet.
From S2P Require Import SeamRules.
From S2P Require Import SeamGuard.

(** What ends before a time and what starts at it or after. *)
Definition early (cut : Z) (s : Span) : Prop := s.2 < cut.
Definition late (cut : Z) (s : Span) : Prop := cut <= s.1.

#[global] Instance early_dec cut s : Decision (early cut s).
Proof. unfold early. apply _. Defined.

#[global] Typeclasses Opaque early late.

#[global] Instance candidate_le_total : Total candidate_le.
Proof.
  intros a b. unfold candidate_le.
  destruct (Z.lt_trichotomy a.1 b.1) as [?|[?|?]], (total dropped_le a.2 b.2); auto.
Qed.
#[global] Instance candidate_le_trans : Transitive candidate_le.
Proof.
  intros a b c. unfold candidate_le. intros [?|[? ?]] [?|[? ?]]; try lia. right. split; [lia|].
  by transitivity b.2.
Qed.
#[global] Instance candidate_le_antisymm : AntiSymm (=) candidate_le.
Proof.
  intros [o [[a b] [i p]]] [o' [[a' b'] [i' p']]]. unfold candidate_le, dropped_le. cbn. intros ? ?.
  assert (o = o' /\ a = a' /\ b = b' /\ i = i' /\ p = p') as (-> & -> & -> & -> & ->) by lia. done.
Qed.

(** ** Canonical lists that do not cross a time *)

Lemma canon_late cut lo l :
  canon lo l -> ~ covers l (cut - 1) -> Forall (fun s => early cut s \/ late cut s) l.
Proof.
  intros Hc Hn. apply Forall_forall. intros s Hs. pose proof (canon_keys_gt _ _ Hc) as Hpos.
  rewrite Forall_forall in Hpos. destruct (Hpos s Hs) as [_ Hlt]. unfold early, late.
  destruct (Z.lt_ge_cases s.2 cut) as [?|?]; [by left|]. right.
  destruct (Z.le_gt_cases cut s.1) as [?|?]; [done|]. exfalso. apply Hn, Exists_exists. exists s.
  split; [done|]. unfold in_span. lia.
Qed.

Lemma canon_split cut lo l :
  canon lo l -> ~ covers l (cut - 1) -> l = filter (early cut) l ++ filter (fun s => ~ early cut s) l.
Proof.
  intros Hc Hn. pose proof (canon_late _ _ _ Hc Hn) as Hs. clear Hn. revert lo Hc.
  induction l as [|s l IH]; intros lo Hc; [done|]. cbn in Hc. destruct Hc as (H1 & H2 & H3).
  apply Forall_cons in Hs as [Hss Hs]. rewrite !filter_cons. destruct (decide (early cut s)) as [He|He].
  - rewrite decide_False by (intros Hx; by apply Hx). cbn. f_equal. by eapply IH.
  - rewrite (decide_True (P := ~ early cut s)) by done.
    assert (Hlate : Forall (fun s => ~ early cut s) l).
    { apply canon_keys_gt in H3. eapply Forall_impl; [exact H3|]. intros s' [? ?]. unfold early, late in *. cbn in *. lia. }
    rewrite (filter_none (early cut) l) by done. by rewrite filter_all.
Qed.

Lemma canon_early_unique cut lo l l' :
  canon lo l -> canon lo l' -> (forall x, x < cut -> covers l x <-> covers l' x) ->
  filter (early cut) l = filter (early cut) l'.
Proof. apply canon_before_unique. Qed.

(** ** Entries around a time *)

Record entries_ok (cut : Z) (every : list (Key * Span)) : Prop := {
  eo_key : forall k s s', (k, s) ∈ every -> (k, s') ∈ every -> s = s';
  eo_wf : Forall (fun e : Key * Span => 0 <= e.2.1 /\ e.2.1 < e.2.2 <= U64_MAX) every;
  eo_nodup : NoDup every;
  eo_sides : forall k s, (k, s) ∈ every -> early cut s \/ late cut s
}.

(** The keys of early entries that two states keep are the same. *)
Definition same_early (cut : Z) (every : list (Key * Span)) (kept kept' : list Key) : Prop :=
  forall k s, (k, s) ∈ every -> early cut s -> k ∈ kept <-> k ∈ kept'.

(** A step on a late hole. *)
Section Late.
Context (cut tolerance : Z) (every : list (Key * Span)) (Hok : entries_ok cut every).
Context (Htol : 0 <= tolerance).

Lemma close_loop_late hole candidates state :
  inv every state -> 0 <= hole.1 -> cut <= hole.1 ->
  (forall c, c ∈ candidates -> (c.2.2, c.2.1) ∈ every) ->
  let state' := close_loop tolerance hole candidates state in
  inv every state' /\ same_early cut every state.1 state'.1.
Proof.
  intros Hi H0 Hcut. revert state Hi. induction candidates as [|[o [placed key]] rest IH]; intros state Hi Hc.
  { by split. }
  pose proof (Hc _ ltac:(by left)) as Hin. cbn [fst snd] in Hin.
  assert (Hrest : forall c, c ∈ rest -> (c.2.2, c.2.1) ∈ every) by (intros c ?; apply Hc; by right).
  cbn [close_loop]. case_bool_decide; [by split|]. destruct (existsb _ _) eqn:Ee; [|by apply IH].
  pose proof (inv_insert _ (eo_key _ _ Hok) (eo_wf _ _ Hok) _ _ _ Hi Hin) as Hi1.
  destruct (IH _ Hi1 Hrest) as [Hi2 Hs]. split; [done|]. intros k s Hks He.
  rewrite <- (Hs k s Hks He). cbn [fst]. rewrite key_insert_elem. split; [by right|].
  intros [->|?]; [|done]. exfalso. replace placed with s in * by (by eapply (eo_key _ _ Hok)).
  apply existsb_exists in Ee as (g & Hg & Hov). apply list_elem_of_In, wide_elem in Hg as [Hg Hw].
  bool_prop. destruct (gap_uncovered _ _ _ _ g.1 Hi H0 Hg ltac:(lia)) as [[Hx _] _].
  unfold early in He. lia.
Qed.
End Late.

(** A step on an early hole, in two sets of entries that agree early. *)
Section Early.
Context (cut tolerance : Z) (one two : list (Key * Span)).
Context (Hone : entries_ok cut one) (Htwo : entries_ok cut two).
Context (Hsame : forall k s, early cut s -> (k, s) ∈ one <-> (k, s) ∈ two).
Context (Htol : 0 <= tolerance).

Definition agree (st st' : State) : Prop :=
  inv one st /\ inv two st' /\ same_early cut one st.1 st'.1.

Lemma agree_cover st st' x :
  agree st st' -> x < cut -> covers (spans st.2) x <-> covers (spans st'.2) x.
Proof.
  intros ([_ Hc] & [_ Hc'] & Hs) Hx. rewrite (Hc x), (Hc' x), !kept_spans_cover. split.
  - intros (k & s & Hin & Hk & Hxs). assert (He : early cut s).
    { destruct (eo_sides _ _ Hone k s Hin); [done|]. unfold late, in_span in *. lia. }
    exists k, s. split; [by apply Hsame|]. split; [by apply (Hs k s)|done].
  - intros (k & s & Hin & Hk & Hxs). assert (He : early cut s).
    { destruct (eo_sides _ _ Htwo k s Hin); [done|]. unfold late, in_span in *. lia. }
    apply Hsame in Hin; [|done]. exists k, s. split; [done|]. split; [by apply (Hs k s)|done].
Qed.

Lemma agree_gaps st st' hole :
  agree st st' -> 0 <= hole.1 -> hole.2 <= cut ->
  gaps_within st.2 hole = gaps_within st'.2 hole.
Proof.
  intros Ha H0 Hc. pose proof Ha as ([Hw _] & [Hw' _] & _).
  destruct (gaps_within_spec st.2 hole Hw H0) as [H1 H2].
  destruct (gaps_within_spec st'.2 hole Hw' H0) as [H3 H4].
  apply (canon_unique (-1)); [done|done|]. intros x. rewrite H2, H4.
  split; intros [Hx Hn]; (split; [done|]); intros Hcov; apply Hn;
    apply (agree_cover st st' x Ha); unfold in_span in Hx; lia || done.
Qed.

Lemma close_loop_early hole candidates st st' :
  agree st st' -> 0 <= hole.1 -> hole.2 <= cut ->
  (forall c, c ∈ candidates -> (c.2.2, c.2.1) ∈ one /\ early cut c.2.1) ->
  agree (close_loop tolerance hole candidates st) (close_loop tolerance hole candidates st').
Proof.
  intros Ha H0 Hcut. revert st st' Ha. induction candidates as [|[o [placed key]] rest IH];
    intros st st' Ha Hc; [done|].
  destruct (Hc _ ltac:(by left)) as [Hin He]. cbn [fst snd] in Hin, He.
  cbn [close_loop]. rewrite <- (agree_gaps st st') by done.
  case_bool_decide; [done|]. destruct (existsb _ _); (apply IH; [|intros c ?; apply Hc; by right]); [|done].
  destruct Ha as (Hi & Hi' & Hs). split; [|split].
  - by apply (inv_insert _ (eo_key _ _ Hone) (eo_wf _ _ Hone)).
  - apply (inv_insert _ (eo_key _ _ Htwo) (eo_wf _ _ Htwo)); [done|]. by apply Hsame.
  - intros k s Hks Hes. cbn [fst]. rewrite !key_insert_elem. by rewrite (Hs k s Hks Hes).
Qed.
End Early.

(** ** The candidates of a hole *)

Definition candidates_of (dropped : list Dropped) (longest : Z) (kept : list Key) (hole : Span)
    : list Candidate :=
  let first := partition_point (fun d : Dropped => saturating_u64 (d.1.1 + longest) <=? hole.1) dropped in
  let after := partition_point (fun d : Dropped => d.1.1 <? hole.2) dropped in
  (fun d : Dropped => (Z.min d.1.2 hole.2 - Z.max d.1.1 hole.1, d))
    <$> filter (fun d : Dropped => hole.1 < d.1.2 /\ d.2 ∉ kept) (take (after - first) (drop first dropped)).

Lemma close_hole_candidates dropped longest tolerance state hole :
  close_hole dropped longest tolerance state hole
  = close_loop tolerance hole (merge_sort candidate_le (candidates_of dropped longest state.1 hole)) state.
Proof. by destruct hole. Qed.

(** A list of dropped entries, as the guard makes it. *)
Record dropped_of (every : list (Key * Span)) (kept : list Key) (dropped : list Dropped) (longest : Z)
    : Prop := {
  do_sorted : StronglySorted dropped_le dropped;
  do_elem : forall d, d ∈ dropped <-> (d.2, d.1) ∈ every /\ d.2 ∉ kept;
  do_nodup : NoDup dropped;
  do_longest : forall d, d ∈ dropped -> d.1.2 - d.1.1 <= longest
}.

Section Candidates.
Context (cut : Z) (every : list (Key * Span)) (Hok : entries_ok cut every).
Context (kept0 : list Key) (dropped : list Dropped) (longest : Z).
Context (Hd : dropped_of every kept0 dropped longest).

Lemma hole_candidates_elem kept hole c :
  c ∈ candidates_of dropped longest kept hole
  <-> c.1 = Z.min c.2.1.2 hole.2 - Z.max c.2.1.1 hole.1
      /\ (c.2.2, c.2.1) ∈ every /\ (c.2.2 ∉ kept0) /\ (c.2.2 ∉ kept) /\ hole.1 < c.2.1.2 /\ c.2.1.1 < hole.2.
Proof.
  unfold candidates_of. rewrite list_elem_of_fmap. split.
  - intros (d & -> & [[H1 H2] Hin]%list_elem_of_filter). cbn [fst snd].
    apply list_elem_of_lookup in Hin as [i Hin]. apply lookup_take_Some in Hin as [Hi Hlt].
    rewrite lookup_drop in Hi. pose proof (list_elem_of_lookup_2 _ _ _ Hi) as Hel.
    apply (do_elem _ _ _ _ Hd) in Hel as [He Hn].
    pose proof (partition_point_lt (fun d : Dropped => d.1.1 <? hole.2) dropped _ _ Hi ltac:(lia)) as Hp.
    cbn in Hp. bool_prop. done.
  - destruct c as [o d]. cbn [fst snd]. intros (-> & He & Hn0 & Hn & H1 & H2). exists d. split; [done|].
    apply list_elem_of_filter. split; [done|].
    apply (slice_elem every (eo_wf _ _ Hok)); try done.
    + apply Hd.
    + intros d' Hin. by apply (do_elem _ _ _ _ Hd).
    + apply Hd.
    + by apply (do_elem _ _ _ _ Hd).
Qed.

Lemma hole_candidates_nodup kept hole : NoDup (candidates_of dropped longest kept hole).
Proof.
  unfold candidates_of. apply NoDup_fmap_2_strong; [by intros x y _ _ [= _ ->]|].
  apply NoDup_filter. eapply sublist_NoDup; [apply (do_nodup _ _ _ _ Hd)|].
  etransitivity; [apply sublist_take|apply sublist_drop].
Qed.
End Candidates.

(** ** All the holes *)

Section Holes.
Context (cut tolerance : Z) (one two : list (Key * Span)).
Context (Hone : entries_ok cut one) (Htwo : entries_ok cut two).
Context (Hsame : forall k s, early cut s -> (k, s) ∈ one <-> (k, s) ∈ two).
Context (Htol : 0 <= tolerance).
Context (kept kept' : list Key) (dropped dropped' : list Dropped) (longest longest' : Z).
Context (Hd : dropped_of one kept dropped longest) (Hd' : dropped_of two kept' dropped' longest').
Context (Hkept : same_early cut one kept kept').

Lemma candidates_early st st' hole :
  agree cut one two st st' -> hole.2 <= cut ->
  merge_sort candidate_le (candidates_of dropped longest st.1 hole)
  = merge_sort candidate_le (candidates_of dropped' longest' st'.1 hole).
Proof.
  intros (_ & _ & Hs) Hcut. apply (StronglySorted_unique candidate_le);
    [apply StronglySorted_merge_sort; apply _..|].
  rewrite !merge_sort_Permutation. apply NoDup_Permutation; [by eapply hole_candidates_nodup..|].
  intros [o [s k]]. rewrite (hole_candidates_elem cut one Hone kept dropped longest Hd),
    (hole_candidates_elem cut two Htwo kept' dropped' longest' Hd'). cbn [fst snd].
  assert (Hearly : (k, s) ∈ one \/ (k, s) ∈ two -> s.1 < hole.2 -> early cut s).
  { intros Hin Hlt. assert (Hside : early cut s \/ late cut s) by
      (destruct Hin; [by apply (eo_sides _ _ Hone k)|by apply (eo_sides _ _ Htwo k)]).
    destruct Hside; [done|]. unfold late in *. lia. }
  split; intros (-> & Hin & Hn0 & Hn & H1 & H2).
  - assert (He : early cut s) by auto. repeat split; try done.
    + by apply Hsame.
    + by rewrite <- (Hkept k s).
    + by rewrite <- (Hs k s).
  - assert (He : early cut s) by auto. apply Hsame in Hin; [|done]. repeat split; try done.
    + by rewrite (Hkept k s).
    + by rewrite (Hs k s).
Qed.

Lemma close_hole_early st st' hole :
  agree cut one two st st' -> 0 <= hole.1 -> hole.2 <= cut ->
  agree cut one two (close_hole dropped longest tolerance st hole)
    (close_hole dropped' longest' tolerance st' hole).
Proof.
  intros Ha H0 Hcut. rewrite !close_hole_candidates. rewrite <- (candidates_early st st') by done.
  apply close_loop_early; [done..|]. intros [o [s k]]. rewrite merge_sort_Permutation.
  rewrite (hole_candidates_elem cut one Hone kept dropped longest Hd). cbn [fst snd].
  intros (_ & Hin & _ & _ & _ & H2). split; [done|].
  destruct (eo_sides _ _ Hone k s Hin) as [?|Hl]; [done|]. unfold late in Hl. lia.
Qed.
End Holes.

Lemma close_hole_late cut tolerance every kept0 dropped longest state hole :
  entries_ok cut every -> dropped_of every kept0 dropped longest ->
  inv every state -> 0 <= hole.1 -> cut <= hole.1 -> 0 <= tolerance ->
  let state' := close_hole dropped longest tolerance state hole in
  inv every state' /\ same_early cut every state.1 state'.1.
Proof.
  intros Hok Hd Hi H0 Hcut Htol. rewrite close_hole_candidates. apply close_loop_late; [done..|].
  intros c. rewrite merge_sort_Permutation, (hole_candidates_elem cut every Hok kept0 dropped longest Hd).
  by intros (_ & ? & _).
Qed.

(** ** The whole guard *)

Lemma gaps_inside every state stretch g :
  inv every state -> 0 <= stretch.1 -> g ∈ gaps_within state.2 stretch ->
  g.1 < g.2 /\ stretch.1 <= g.1 /\ g.2 <= stretch.2.
Proof.
  intros [Hw _] H0 Hg. destruct (gaps_within_spec state.2 stretch Hw H0) as [Hc Hx].
  pose proof (canon_keys_gt _ _ Hc) as Hpos. rewrite Forall_forall in Hpos. destruct (Hpos g Hg) as [_ Hlt].
  split; [done|].
  destruct (proj1 (Hx g.1)) as [[? ?] _]; [apply Exists_exists; exists g; split; [done|unfold in_span; lia]|].
  destruct (proj1 (Hx (g.2 - 1))) as [[? ?] _]; [apply Exists_exists; exists g; split; [done|unfold in_span; lia]|].
  lia.
Qed.

Lemma entries_not_at_cut cut every : entries_ok cut every -> ~ covers every.*2 (cut - 1).
Proof.
  intros Hok (s & Hs & Hx)%Exists_exists. apply list_elem_of_fmap in Hs as ([k s'] & -> & Hin).
  destruct (eo_sides _ _ Hok k s' Hin); unfold early, late, in_span in *; cbn in *; lia.
Qed.

Lemma entries_below cut one two x :
  entries_ok cut one -> (forall k s, early cut s -> (k, s) ∈ one <-> (k, s) ∈ two) -> x < cut ->
  covers one.*2 x -> covers two.*2 x.
Proof.
  intros Hok Hsame Hx (s & Hs & Hxs)%Exists_exists. apply list_elem_of_fmap in Hs as ([k s'] & -> & Hin).
  destruct (eo_sides _ _ Hok k s' Hin) as [He|Hl]; [|unfold late, in_span in *; cbn in *; lia].
  apply Exists_exists. exists s'. split; [|done]. apply list_elem_of_fmap. exists (k, s').
  split; [done|]. by apply Hsame.
Qed.

(** The start of the guard: the dropped entries and what is covered. *)
Lemma guard_start cut every kept :
  entries_ok cut every ->
  let dropped := merge_sort dropped_le
                   ((fun e : Key * Span => (e.2, e.1)) <$> filter (fun e => e.1 ∉ kept) every) in
  dropped_of every kept dropped (fold_left (fun m (d : Dropped) => Z.max m (d.1.2 - d.1.1)) dropped 0)
  /\ inv every (kept, insert_many SpanSet_default (snd <$> filter (fun e : Key * Span => e.1 ∈ kept) every))
  /\ canonical (merged every.*2) /\ same_cover (merged every.*2) every.*2.
Proof.
  intros Hok dropped.
  assert (Hnn : Forall (fun s => 0 <= s.1) every.*2).
  { apply Forall_fmap. eapply Forall_impl; [apply (eo_wf _ _ Hok)|]. intros e [? _]. done. }
  split; [|split; [|by apply merged_spec]].
  - split.
    + apply StronglySorted_merge_sort; apply _.
    + intros [s k]. unfold dropped. rewrite merge_sort_Permutation, list_elem_of_fmap. cbn. split.
      * intros ([k' s'] & [= -> ->] & [? ?]%list_elem_of_filter). done.
      * intros [Hin Hn]. exists (k, s). split; [done|]. by apply list_elem_of_filter.
    + unfold dropped. rewrite merge_sort_Permutation. apply NoDup_fmap_2_strong.
      * by intros [k s] [k' s'] _ _ [= -> ->].
      * apply NoDup_filter, Hok.
    + intros d. apply (fold_max_spec (fun d : Dropped => d.1.2 - d.1.1) dropped 0).
  - destruct (insert_many_spec SpanSet_default (kept_spans every kept)) as [H1 H2]; [done| |].
    + unfold kept_spans. rewrite Forall_fmap in Hnn. apply Forall_fmap.
      apply Forall_forall. intros e [_ He]%list_elem_of_filter. rewrite Forall_forall in Hnn. by apply Hnn.
    + split; [exact H1|]. cbn [fst snd]. intros x. etransitivity; [apply (H2 x)|].
      rewrite covers_app, covers_nil. tauto.
Qed.

(** One turn of the outer loop. *)
Definition close_stretch (tolerance : Z) (dropped : list Dropped) (longest : Z) (state : State)
    (stretch : Span) : State :=
  fold_left (close_if_wide tolerance dropped longest) (gaps_within state.2 stretch) state.

Lemma canon_late_part cut l :
  canonical l -> ~ covers l (cut - 1) ->
  Forall (fun s => 0 <= s.1 /\ cut <= s.1) (filter (fun s => ~ early cut s) l).
Proof.
  intros Hc Hn. pose proof (canon_nonneg (-1) l ltac:(lia) Hc) as H0.
  pose proof (canon_late cut (-1) l Hc Hn) as Hs. rewrite Forall_forall in H0, Hs |- *.
  intros s [He Hin]%list_elem_of_filter. split; [by apply H0|]. by destruct (Hs s Hin).
Qed.

Section Guard.
Context (cut tolerance : Z) (one two : list (Key * Span)).
Context (Hone : entries_ok cut one) (Htwo : entries_ok cut two).
Context (Hsame : forall k s, early cut s -> (k, s) ∈ one <-> (k, s) ∈ two).
Context (Htol : 0 <= tolerance).

(** Late stretches leave the early keys alone. *)
Lemma late_stretches every kept0 dropped longest stretches state :
  entries_ok cut every -> dropped_of every kept0 dropped longest -> inv every state ->
  Forall (fun s => 0 <= s.1 /\ cut <= s.1) stretches ->
  same_early cut every state.1 (fold_left (close_stretch tolerance dropped longest) stretches state).1.
Proof.
  intros Hok Hd Hi Hl.
  apply (fold_left_inv (fun st : State => inv every st /\ same_early cut every state.1 st.1)); [done|].
  intros st stretch [Hst Hs] Hin. rewrite Forall_forall in Hl. destruct (Hl _ Hin) as [H0 Hcut].
  apply (fold_left_inv (fun st : State => inv every st /\ same_early cut every state.1 st.1)); [done|].
  intros st' hole [Hst' Hs'] Hhole. destruct (gaps_inside every st stretch hole Hst H0 Hhole) as (? & ? & ?).
  unfold close_if_wide. destruct (tolerance <? _); [|done].
  destruct (close_hole_late cut tolerance every kept0 dropped longest st' hole) as [Hx Hy]; try done; [lia..|].
  split; [done|]. intros k s Hk He. rewrite (Hs' k s Hk He). by apply (Hy k s).
Qed.

(** Early stretches are closed alike. *)
Lemma early_stretches kept kept' dropped dropped' longest longest' stretches st st' :
  dropped_of one kept dropped longest -> dropped_of two kept' dropped' longest' ->
  same_early cut one kept kept' -> agree cut one two st st' ->
  Forall (fun s => 0 <= s.1 /\ early cut s) stretches ->
  agree cut one two (fold_left (close_stretch tolerance dropped longest) stretches st)
    (fold_left (close_stretch tolerance dropped' longest') stretches st').
Proof.
  intros Hd Hd' Hkept Hst Hs. apply (fold_left_inv2 (agree cut one two)); [done|].
  intros s1 s2 stretch Ha Hin. rewrite Forall_forall in Hs. destruct (Hs _ Hin) as [H0 He].
  unfold early in He. unfold close_stretch.
  rewrite <- (agree_gaps cut one two Hone Htwo Hsame s1 s2 stretch) by (done || lia).
  pose proof (proj1 Ha) as Hi1.
  apply (fold_left_inv2 (agree cut one two)); [done|]. intros t1 t2 hole Ht Hhole.
  destruct (gaps_inside one s1 stretch hole Hi1 H0 Hhole) as (? & ? & ?).
  unfold close_if_wide. destruct (tolerance <? _); [|done].
  apply (close_hole_early cut tolerance one two Hone Htwo Hsame kept kept'); done || lia.
Qed.

Lemma restore_entries_local kept kept' :
  same_early cut one kept kept' ->
  same_early cut one (restore_entries one kept tolerance) (restore_entries two kept' tolerance).
Proof.
  intros Hkept.
  destruct (guard_start cut one kept Hone) as (Hd & Hi & Hc & Hcov).
  destruct (guard_start cut two kept' Htwo) as (Hd' & Hi' & Hc' & Hcov').
  assert (Hn : ~ covers (merged one.*2) (cut - 1)) by (rewrite (Hcov _); by apply entries_not_at_cut).
  assert (Hn' : ~ covers (merged two.*2) (cut - 1)) by (rewrite (Hcov' _); by apply entries_not_at_cut).
  assert (Hearly : filter (early cut) (merged one.*2) = filter (early cut) (merged two.*2)).
  { apply (canon_early_unique cut (-1)); try done. intros x Hx. rewrite (Hcov x), (Hcov' x).
    split; apply (entries_below cut); try done. intros k s He. by rewrite Hsame. }
  assert (Hpart : Forall (fun s => 0 <= s.1 /\ early cut s) (filter (early cut) (merged one.*2))).
  { pose proof (canon_nonneg (-1) _ ltac:(lia) Hc) as H0. rewrite Forall_forall in H0 |- *.
    intros s [He Hin]%list_elem_of_filter. auto. }
  pose proof (early_stretches _ _ _ _ _ _ _ _ _ Hd Hd' Hkept (conj Hi (conj Hi' Hkept)) Hpart) as Ha.
  destruct Ha as (Ha1 & Ha2 & Hs).
  pose proof (late_stretches one _ _ _ _ _ Hone Hd Ha1 (canon_late_part cut _ Hc Hn)) as Hs1.
  rewrite Hearly in Ha2, Hs.
  pose proof (late_stretches two _ _ _ _ _ Htwo Hd' Ha2 (canon_late_part cut _ Hc' Hn')) as Hs2.
  rewrite <- fold_left_app in Hs1, Hs2.
  rewrite <- (canon_split cut (-1)) in Hs1, Hs2 by done.
  intros k s Hk He. etransitivity; [symmetry; exact (Hs1 k s Hk He)|].
  rewrite Hearly, (Hs k s Hk He). apply (Hs2 k s); [by apply Hsame|done].
Qed.
End Guard.
