(* ===== verification/SeamTail.v ===== *)
(** * SeamTail: rule 3 before a time

    Rule 3 of [merge_chunks] in [crates/vsift-domain/src/asr.rs] compares kept
    segments that share an instant, and drops a copy when no hole opens in the
    stretches it lies in. On segments that all end before a time it does the
    same whatever segments follow after that time, and it leaves them where
    they are: after all that it keeps before. *)

From stdpp Require Import sets relations.
From S2P Require Import Prelude.
From S2P Require Import Text.
From S2P Require Import Chars.
From S2P Require Import Timeline.
From S2P Require Import Spans.
From S2P Require Import SpanSet.
From S2P Require Import AsrPlan.
From S2P Require Import Cues.
From S2P Require Import AsrOutput.
From S2P Require Import SeamWords.
From S2P Require Import SeamRules.
From S2P Require Import SeamGuard.
From S2P Require Import SeamMerge.
From S2P Require Import SeamGuardLocal.

Section Tail.
Context `{UnicodeTables} (cut : Z) (union : list Span).
Context (Hunion : canonical union) (Hcross : ~ covers union (cut - 1)).

Definition before_cut (n : nat) (p : nat * Span) : Prop :=
  (p.1 < n)%nat /\ 0 <= p.2.1 /\ p.2.1 < p.2.2 /\ early cut p.2.

Definition after_cut (p : nat * Span) : Prop := 0 <= p.2.1 /\ p.2.1 < p.2.2 /\ late cut p.2.

Definition all_of (S : nat * Span -> Prop) (l : list Placed) : Prop := Forall (fun o => S (o.1, placed_span o)) l.

Lemma head_nonneg n P : all_of (before_cut n) P -> Forall (fun s : Span => 0 <= s.1) (placed_span <$> P).
Proof. intros Hp. apply Forall_fmap. eapply Forall_impl; [exact Hp|]. intros o (_ & ? & _). done. Qed.

Lemma tail_nonneg Q : all_of after_cut Q -> Forall (fun s : Span => 0 <= s.1) (placed_span <$> Q).
Proof. intros Hp. apply Forall_fmap. eapply Forall_impl; [exact Hp|]. intros o (? & _). done. Qed.

Lemma tail_uncovered Q x : all_of after_cut Q -> x < cut -> ~ covers (placed_span <$> Q) x.
Proof.
  intros Hq Hx Hc. unfold covers in Hc. rewrite Exists_fmap in Hc. apply Exists_exists in Hc as (o & Ho & Hin).
  unfold all_of in Hq. rewrite Forall_forall in Hq. destruct (Hq o Ho) as (_ & _ & Hl).
  unfold late, in_span in *. cbn in *. lia.
Qed.

(** The early gaps that some spans leave do not depend on late ones. *)
Lemma gaps_before P Q stretch :
  Forall (fun s : Span => 0 <= s.1) (placed_span <$> P) -> all_of after_cut Q -> 0 <= stretch.1 -> early cut stretch ->
  gaps_within (insert_many SpanSet_default (placed_span <$> (P ++ Q))) stretch
  = gaps_within (insert_many SpanSet_default (placed_span <$> P)) stretch.
Proof.
  intros Hp Hq H0 He. pose proof (tail_nonneg Q Hq) as Hq0.
  destruct (insert_many_spec SpanSet_default (placed_span <$> P)) as [H1 H2]; [done|done|].
  destruct (insert_many_spec SpanSet_default (placed_span <$> (P ++ Q))) as [H3 H4]; [done| |].
  { rewrite fmap_app. by apply Forall_app. }
  destruct (gaps_within_spec _ stretch H1 H0) as [Hc Hx], (gaps_within_spec _ stretch H3 H0) as [Hc' Hx'].
  apply (canon_unique (-1)); [done|done|]. intros x. rewrite Hx, Hx', (H2 x), (H4 x), fmap_app, !covers_app.
  assert (Hn : in_span stretch x -> ~ covers (placed_span <$> Q) x).
  { intros Hin. apply tail_uncovered; [done|]. unfold early, in_span in *. lia. }
  tauto.
Qed.

Lemma dropping_before n P Q later :
  all_of (before_cut n) P -> all_of after_cut Q -> (later < length P)%nat ->
  dropping_leaves_a_hole (P ++ Q) later union = dropping_leaves_a_hole P later (filter (early cut) union).
Proof.
  intros Hp Hq Hl. unfold dropping_leaves_a_hole. rewrite lookup_app_l by done.
  destruct (P !! later) as [candidate|] eqn:Ec; [|done].
  destruct (placed_span candidate) as [start end_] eqn:Es.
  assert (Hend : end_ < cut).
  { unfold all_of in Hp. rewrite Forall_lookup in Hp. destruct (Hp _ _ Ec) as (_ & _ & _ & He). rewrite Es in He. done. }
  f_equal. rewrite list_filter_filter.
  rewrite (filter_ext_in (fun s : Span => s.1 < end_ /\ start < s.2)
             (fun s : Span => (s.1 < end_ /\ start < s.2) /\ early cut s)).
  - pose proof (canon_nonneg (-1) union ltac:(lia) Hunion) as H0. rewrite Forall_forall in H0.
    apply Forall_bind_ext, Forall_forall. intros stretch [[_ He] Hin]%list_elem_of_filter.
    rewrite (delete_app_l P) by done. apply gaps_before; [|done|by apply H0|done].
    pose proof (head_nonneg n P Hp) as Hnn. rewrite (delete_Permutation _ _ _ Ec) in Hnn.
    by apply Forall_cons in Hnn as [_ ?].
  - intros s Hin. split; [|by intros [? _]]. intros [H1 H2]. split; [done|].
    pose proof (canon_late cut (-1) union Hunion Hcross) as Hs. rewrite Forall_forall in Hs.
    destruct (Hs s Hin) as [?|Hlate]; [done|]. unfold late in Hlate. lia.
Qed.

(** ** A comparison *)

(** What is done to the first segments, with the others behind them. *)
Definition followed (Q : list Placed) (r : bool * Seams) : bool * Seams := (r.1, (r.2.1 ++ Q, r.2.2)).

Lemma compare_at_head n P Q previous later ordinal warnings earlier :
  all_of (before_cut n) P -> all_of after_cut Q -> (later < length P)%nat -> (earlier < length P)%nat ->
  compare_at union previous later ordinal (P ++ Q, warnings) earlier
  = followed Q (compare_at (filter (early cut) union) previous later ordinal (P, warnings) earlier).
Proof.
  intros Hp Hq Hl He. unfold compare_at. rewrite !(lookup_app_l (A := Placed)) by done.
  destruct (P !! earlier) as [first|]; [|done]. destruct (P !! later) as [second|]; [|done].
  destruct (_ || _); [done|]. destruct (_ || _); [done|]. cbn zeta. destruct (_ =? 0)%nat; [done|].
  destruct (if (_ <? _)%nat then _ else None) as [value|].
  - unfold followed. cbn [fst snd]. by rewrite insert_app_l.
  - rewrite (dropping_before n) by done. destruct (dropping_leaves_a_hole _ _ _); [done|].
    unfold followed. cbn [fst snd]. by rewrite delete_app_l.
Qed.

(** Early and late segments share no instant. *)
Lemma compare_at_apart n P Q previous later ordinal warnings earlier :
  all_of (before_cut n) P -> all_of after_cut Q -> (later < length P)%nat -> (length P <= earlier)%nat ->
  compare_at union previous later ordinal (P ++ Q, warnings) earlier = (false, (P ++ Q, warnings)).
Proof.
  intros Hp Hq Hl He. unfold compare_at.
  destruct ((P ++ Q) !! earlier) as [first|] eqn:Ef; [|done].
  destruct ((P ++ Q) !! later) as [second|] eqn:Es; [|done].
  rewrite lookup_app_r in Ef by done. rewrite lookup_app_l in Es by done.
  unfold all_of in *. rewrite Forall_lookup in Hp, Hq.
  destruct (Hq _ _ Ef) as (_ & _ & Hlate), (Hp _ _ Es) as (_ & _ & _ & Hearly).
  destruct (_ || _); [done|]. rewrite (proj2 (Z.leb_le _ _)); [done|]. unfold early, late in *. cbn in *. lia.
Qed.

Lemma compare_all_apart n P Q previous later ordinal warnings earliers :
  all_of (before_cut n) P -> all_of after_cut Q -> (later < length P)%nat -> Forall (fun e => length P <= e)%nat earliers ->
  compare_all union previous later ordinal earliers (P ++ Q, warnings) = (false, (P ++ Q, warnings)).
Proof.
  intros Hp Hq Hl He. induction He as [|e rest He _ IH]; [done|]. cbn [compare_all].
  by rewrite (compare_at_apart n) by done.
Qed.

Lemma compare_all_head n P Q previous later ordinal warnings earliers more :
  all_of (before_cut n) P -> all_of after_cut Q -> (later < length P)%nat ->
  Forall (fun e => e < length P)%nat earliers -> Forall (fun e => length P <= e)%nat more ->
  compare_all union previous later ordinal (earliers ++ more) (P ++ Q, warnings)
  = followed Q (compare_all (filter (early cut) union) previous later ordinal earliers (P, warnings)).
Proof.
  intros Hp Hq Hl He Hm. revert P warnings Hp Hl He Hm. induction earliers as [|e rest IH]; intros P warnings Hp Hl He Hm.
  { cbn [app compare_all]. by rewrite (compare_all_apart n). }
  apply Forall_cons in He as [He Hrest]. cbn [app compare_all]. rewrite (compare_at_head n) by done.
  destruct (compare_at_spec (before_cut n) (filter (early cut) union) previous later ordinal (P, warnings) e) as [Hkeep Hlen].
  specialize (Hkeep Hp). destruct (compare_at _ _ _ _ (P, warnings) e) as [[] [P' w']]; [done|].
  unfold followed. cbn [fst snd] in *. rewrite Hlen in *. by apply IH.
Qed.

Lemma remove_one_head chunks chunks' n P Q later warnings :
  (forall i, (i < n)%nat -> chunks !! i = chunks' !! i) ->
  all_of (before_cut n) P -> all_of after_cut Q -> (later < length P)%nat ->
  remove_one_seam_duplicate chunks union later (P ++ Q, warnings)
  = followed Q (remove_one_seam_duplicate chunks' (filter (early cut) union) later (P, warnings)).
Proof.
  intros Hc Hp Hq Hl. unfold remove_one_seam_duplicate, Seams, Placed in *. cbn [fst]. rewrite lookup_app_l by done.
  destruct (P !! later) as [[[|previous] d]|] eqn:E; [done| |done].
  assert (Hn : (S previous < n)%nat).
  { unfold all_of in Hp. rewrite Forall_lookup in Hp. by destruct (Hp _ _ E) as (? & _). }
  rewrite <- (Hc _ Hn), length_app, seq_app. apply (compare_all_head n); try done.
  - apply Forall_forall. intros e He%elem_of_seq. unfold Placed. lia.
  - apply Forall_forall. intros e He%elem_of_seq. unfold Placed. lia.
Qed.

(** ** A later segment *)

Lemma compare_at_tail P Q previous later ordinal warnings earlier :
  (length P <= later)%nat -> all_of after_cut Q ->
  exists Q' w', (compare_at union previous later ordinal (P ++ Q, warnings) earlier).2 = (P ++ Q', w')
    /\ all_of after_cut Q'.
Proof.
  intros Hl Hq. unfold compare_at.
  destruct ((P ++ Q) !! earlier) as [first|]; [|by eexists _, _].
  destruct ((P ++ Q) !! later) as [second|] eqn:Es; [|by eexists _, _].
  destruct (_ || _); [by eexists _, _|]. destruct (_ || _); [by eexists _, _|]. cbn zeta.
  destruct (_ =? 0)%nat; [by eexists _, _|]. rewrite lookup_app_r in Es by done.
  destruct (if (_ <? _)%nat then _ else None) as [value|].
  - rewrite insert_app_r_alt by done. eexists _, _. split; [done|]. apply Forall_insert; [done|].
    unfold all_of in Hq. rewrite Forall_lookup in Hq. exact (Hq _ _ Es).
  - destruct (dropping_leaves_a_hole _ _ _); [by eexists _, _|]. rewrite delete_app_r by done.
    eexists _, _. split; [done|]. unfold all_of in *. rewrite (delete_Permutation _ _ _ Es) in Hq.
    by apply Forall_cons in Hq as [_ ?].
Qed.

Lemma remove_one_tail chunks P Q later warnings :
  (length P <= later)%nat -> all_of after_cut Q ->
  exists Q' w', (remove_one_seam_duplicate chunks union later (P ++ Q, warnings)).2 = (P ++ Q', w')
    /\ all_of after_cut Q'.
Proof.
  intros Hl Hq. unfold remove_one_seam_duplicate.
  destruct (_ !! later) as [[[|previous] d]|]; [by eexists _, _| |by eexists _, _]. cbn zeta.
  generalize (match chunks !! Datatypes.S previous with
              | Some c => PlannedChunk.ordinal (ChunkSegments.chunk c) | None => U32_MAX end) as ordinal.
  generalize (seq 0 (length (P ++ Q, warnings).1)) as earliers. intros earliers ordinal.
  revert Q warnings Hq. induction earliers as [|e rest IH]; intros Q warnings Hq; [by eexists _, _|].
  cbn [compare_all].
  destruct (compare_at_tail P Q previous later ordinal warnings e Hl Hq) as (Q' & w' & E & Hq').
  destruct (compare_at _ _ _ _ _ _) as [[] st]; cbn [snd] in E; subst st; [by eexists _, _|by apply IH].
Qed.

Lemma seam_loop_tail chunks fuel P Q later warnings :
  (length P <= later)%nat -> all_of after_cut Q ->
  exists Q', (seam_loop fuel chunks union later (P ++ Q, warnings)).1 = P ++ Q' /\ all_of after_cut Q'.
Proof.
  revert Q later warnings. induction fuel as [|fuel IH]; intros Q later warnings Hl Hq; [by eexists|].
  cbn [seam_loop]. destruct (_ <? _)%nat; [|by eexists].
  destruct (remove_one_tail chunks P Q later warnings Hl Hq) as (Q' & w' & E & Hq').
  destruct (remove_one_seam_duplicate _ _ _ _) as [[] st]; cbn [snd] in E; subst st; apply IH; done || lia.
Qed.

(** ** The whole of rule 3 *)

Lemma seam_loop_head chunks chunks' n fuel P Q later warnings :
  (forall i, (i < n)%nat -> chunks !! i = chunks' !! i) -> all_of (before_cut n) P -> all_of after_cut Q ->
  exists Q', (seam_loop fuel chunks union later (P ++ Q, warnings)).1
             = (seam_loop fuel chunks' (filter (early cut) union) later (P, warnings)).1 ++ Q'
    /\ all_of after_cut Q'
    /\ all_of (before_cut n) (seam_loop fuel chunks' (filter (early cut) union) later (P, warnings)).1.
Proof.
  intros Hc. revert P Q later warnings. induction fuel as [|fuel IH]; intros P Q later warnings Hp Hq.
  { by exists Q. }
  destruct (decide (later < length P)%nat) as [Hl|Hl].
  - cbn [seam_loop]. cbn [fst]. rewrite length_app, !(proj2 (Nat.ltb_lt _ _)) by lia.
    rewrite (remove_one_head chunks chunks' n) by done.
    destruct (remove_one_spec (before_cut n) chunks' (filter (early cut) union) later (P, warnings)) as [Hkeep _].
    specialize (Hkeep Hp).
    destruct (remove_one_seam_duplicate chunks' _ later (P, warnings)) as [[] [P' w']];
      unfold followed; cbn [fst snd] in *; by apply IH.
  - destruct (seam_loop_tail chunks (S fuel) P Q later warnings) as (Q' & E & Hq'); [lia|done|].
    assert (Hend : seam_loop (S fuel) chunks' (filter (early cut) union) later (P, warnings) = (P, warnings)).
    { cbn [seam_loop fst]. by rewrite (proj2 (Nat.ltb_ge _ _)) by lia. }
    rewrite Hend. by exists Q'.
Qed.
End Tail.
