(* ===== verification/SeamLocal.v ===== *)
(** * SeamLocal: what a merge decides where nothing is still to come

    The rules of [merge_chunks] in [crates/vsift-domain/src/asr.rs] look only at
    segments that share an instant, and at the guard's holes inside one stretch
    of what was said. Hence a run that has only begun decides all that ends
    before the first time a later chunk can write at: the rules, the guard and
    rule 3 give the same there for the chunks finished so far and for the whole
    run. *)

From stdpp Require Import sets relations.
From S2P Require Import Prelude.
From S2P Require Import Text.
From S2P Require Import Chars.
From S2P Require Import Timeline.
From S2P Require Import Spans.
From S2P Require Import SpanSet.
From S2P Require Import AsrPlan.
From S2P Require Import Cues.
From S2P Require Import AsrOutput.
From S2P Require Import SeamWords.
From S2P Require Import SeamRules.
From S2P Require Import SeamGuard.
From S2P Require Import SeamMerge.
From S2P Require Import SeamGuardLocal.

Definition span_of (d : AsrSegmentDraft.t) : Span := span (AsrSegmentDraft.range d).

(** ** The rules as what each segment adds *)

Section Adds.
Context `{UnicodeTables}.

Definition adds (chunks : list ChunkSegments.t) (index : nat) (entry : nat * AsrSegmentDraft.t) : list Key :=
  let '(position, segment) := entry in
  let owner := owner_of chunks index segment in
  if negb (owner =? index)%nat then
    match chunks !! owner with
    | Some chunk => if claims_time_over chunk segment then [] else [(index, position)]
    | None => []
    end
  else
    let sides := cut_sides chunks index segment in
    let found := (fun side : nat * Side => covering chunks side.1 segment side.2) <$> sides in
    if negb (bool_decide (sides = [])) && forallb (fun f => negb (bool_decide (f = []))) found
    then concat found
    else [(index, position)].

Lemma judge_adds chunks index kept entry :
  judge chunks index kept entry = key_extend kept (adds chunks index entry).
Proof.
  destruct entry as [position segment]. unfold judge, adds.
  destruct (negb _).
  - destruct (chunks !! _); [|done]. by destruct (claims_time_over _ _).
  - by destruct (_ && _).
Qed.

Lemma fold_elem {A} (step : list Key -> A -> list Key) (Q : A -> Key -> Prop) (l : list A) kept k :
  (forall kept a, a ∈ l -> k ∈ step kept a <-> k ∈ kept \/ Q a k) ->
  k ∈ fold_left step l kept <-> k ∈ kept \/ exists a, a ∈ l /\ Q a k.
Proof.
  revert kept. induction l as [|a l IH]; intros kept Hs; cbn [fold_left].
  { split; [by left|]. intros [?|(a & Ha & _)]; [done|]. by apply not_elem_of_nil in Ha. }
  rewrite IH by (intros kept' b Hb; apply Hs; by right). rewrite (Hs kept a) by by left.
  split.
  - intros [[?|?]|(b & ? & ?)]; [by left|right; exists a; split; [by left|done]|].
    right. exists b. split; [by right|done].
  - intros [?|(b & [->|?]%elem_of_cons & ?)]; [by left; left|by left; right|right; by exists b].
Qed.

Lemma keep_elem chunks k :
  k ∈ keep_by_rules_one_and_two chunks
  <-> exists k' d, segment_at chunks k' = Some d /\ k ∈ adds chunks k'.1 (k'.2, d).
Proof.
  unfold keep_by_rules_one_and_two.
  rewrite (fold_elem _ (fun ic k => exists e, e ∈ enumerate (ChunkSegments.segments ic.2)
                                             /\ k ∈ adds chunks ic.1 e)).
  - unfold segment_at. split.
    + intros [Hn|([i c] & Hc & [p d] & Hp & Hk)]; [by apply not_elem_of_nil in Hn|].
      apply elem_of_enumerate in Hc, Hp. exists (i, p), d. cbn in *. by rewrite Hc.
    + intros ([i p] & d & Hd & Hk). right. cbn in *. destruct (chunks !! i) as [c|] eqn:Hc; [|done].
      exists (i, c). split; [by apply elem_of_enumerate|]. exists (p, d).
      split; [by apply elem_of_enumerate|done].
  - intros kept [i c] _. apply (fold_elem _ (fun e k => k ∈ adds chunks i e)).
    intros kept' e _. rewrite judge_adds, key_extend_elem. tauto.
Qed.

(** A segment adds itself or segments that share its midpoint. *)
Lemma covering_elem chunks neighbour segment facing k :
  k ∈ covering chunks neighbour segment facing ->
  exists d, segment_at chunks k = Some d /\ k.1 = neighbour
    /\ (span_of d).1 <= AsrSegmentDraft.midpoint segment < (span_of d).2.
Proof.
  unfold covering, segment_at. destruct (chunks !! neighbour) as [c|] eqn:Hc; [|by intros ?%not_elem_of_nil].
  intros Hk. apply list_elem_of_fmap in Hk as ([p d] & -> & [Hf Hp]%list_elem_of_filter).
  cbn [fst snd] in *. apply elem_of_enumerate in Hp. exists d. rewrite Hc. cbn. bool_prop.
  split; [done|]. split; [done|]. by cbn.
Qed.

Lemma adds_elem chunks k' d k :
  segment_at chunks k' = Some d -> k ∈ adds chunks k'.1 (k'.2, d) ->
  k = k' \/ exists d', segment_at chunks k = Some d'
              /\ (span_of d').1 <= AsrSegmentDraft.midpoint d < (span_of d').2.
Proof.
  intros Hd. unfold adds. destruct (negb _).
  - destruct (chunks !! _); [|by intros ?%not_elem_of_nil].
    destruct (claims_time_over _ _); [by intros ?%not_elem_of_nil|].
    intros ->%list_elem_of_singleton. left. by destruct k'.
  - destruct (_ && _).
    + intros Hin. apply list_elem_of_In, in_concat in Hin as (found & Hf & Hin).
      apply list_elem_of_In in Hf, Hin. apply list_elem_of_fmap in Hf as (side & -> & _).
      apply covering_elem in Hin as (d' & ? & _ & ?). right. by exists d'.
    + intros ->%list_elem_of_singleton. left. by destruct k'.
Qed.
End Adds.

Lemma midpoint_in d :
  TimeRange.wf (AsrSegmentDraft.range d) ->
  (span_of d).1 <= AsrSegmentDraft.midpoint d < (span_of d).2.
Proof.
  intros (? & ? & ?). unfold AsrSegmentDraft.midpoint, span_of. cbn. divlia.
Qed.

(** ** The cores of a prefix of the chunks *)

(** The boundary between a chunk and the next. *)
Definition boundary (chunks : list ChunkSegments.t) (i : nat) : option Z :=
  a ← chunks !! i; b ← chunks !! S i;
  Some (midpoint (TimeRange.start (ChunkSegments.window b)) (TimeRange.end_ (ChunkSegments.window a))).

Lemma boundaries_lookup chunks i :
  ((fun pair : ChunkSegments.t * ChunkSegments.t =>
      midpoint (TimeRange.start (ChunkSegments.window pair.2)) (TimeRange.end_ (ChunkSegments.window pair.1)))
     <$> windows2 chunks) !! i = boundary chunks i.
Proof.
  rewrite list_lookup_fmap. unfold boundary. destruct (windows2 chunks !! i) as [[a b]|] eqn:E.
  - apply windows2_lookup in E as [-> ->]. done.
  - destruct (chunks !! i) as [a|] eqn:Ha; [|done]. cbn.
    destruct (chunks !! S i) as [b|] eqn:Hb; [|done].
    assert (windows2 chunks !! i = Some (a, b)) by (by apply windows2_lookup). congruence.
Qed.

Lemma chunk_cores_lookup chunks i :
  chunk_cores chunks !! i
  = if decide (i < length chunks)%nat
    then Some (match i with O => 0 | S before => default 0 (boundary chunks before) end,
               default U64_MAX (boundary chunks i))
    else None.
Proof.
  unfold chunk_cores. rewrite list_lookup_fmap. case_decide as Hi.
  - rewrite lookup_seq_lt by done. cbn [fmap option_fmap option_map Nat.add].
    destruct i; by rewrite !boundaries_lookup.
  - by rewrite lookup_seq_ge by lia.
Qed.

Lemma find_position_ext {A} (p p' : A -> bool) (l l' : list A) :
  (forall i, match l !! i with Some a => p a | None => false end
             = match l' !! i with Some a => p' a | None => false end) ->
  find_position p l = find_position p' l'.
Proof.
  revert l'. induction l as [|a l IH]; intros l' Hl.
  - induction l' as [|b l' IH']; [done|].
    assert (H0 : false = p' b) by exact (Hl 0%nat). cbn [find_position]. rewrite <- H0.
    rewrite <- IH'; [done|]. intros i. pose proof (Hl (S i)) as Hi. rewrite lookup_nil in *. exact Hi.
  - destruct l' as [|b l'].
    + assert (H0 : p a = false) by exact (Hl 0%nat). cbn [find_position]. rewrite H0.
      rewrite (IH []); [done|]. intros i. pose proof (Hl (S i)) as Hi. rewrite lookup_nil in *. exact Hi.
    + assert (H0 : p a = p' b) by exact (Hl 0%nat). cbn [find_position]. rewrite <- H0.
      destruct (p a); [done|]. f_equal. apply IH. intros i. exact (Hl (S i)).
Qed.

Lemma find_position_lt {A} (p : A -> bool) (l : list A) i :
  find_position p l = Some i -> (i < length l)%nat.
Proof.
  revert i. induction l as [|a l IH]; intros i; cbn; [done|]. destruct (p a).
  - intros [= <-]. lia.
  - destruct (find_position p l) as [j|]; [|done]. cbn. intros [= <-]. specialize (IH j eq_refl). lia.
Qed.

Lemma entries_nodup chunks : NoDup (entries chunks).
Proof.
  apply (NoDup_fmap_1 fst), StronglySorted_NoDup_lt, StronglySorted_fmap with (fun a b => key_lt a.1 b.1); [done|].
  unfold entries. apply (StronglySorted_bind (fun a b : nat * ChunkSegments.t => (a.1 < b.1)%nat)).
  - apply enumerate_sorted.
  - intros [i c] _. cbn. apply StronglySorted_fmap with (fun a b : nat * AsrSegmentDraft.t => (a.1 < b.1)%nat).
    + intros a b ?. unfold key_lt. cbn. lia.
    + apply enumerate_sorted.
  - intros [i c] [j c'] x y _ _ Hij Hx Hy. apply list_elem_of_fmap in Hx as (? & -> & _), Hy as (? & -> & _).
    unfold key_lt. cbn in *. lia.
Qed.

(** ** The first chunks of a run

    [F] are the chunks finished so far and [R] the others; the cut separates
    what was said, and nothing of [R] lies before it. *)

Section Local.
Context `{UnicodeTables} (F R : list ChunkSegments.t) (cut : Z).
#[local] Abbreviation W := (F ++ R).

Record separates : Prop := {
  se_wf : chunks_wf W;
  se_sides : forall k d, segment_at W k = Some d -> early cut (span_of d) \/ late cut (span_of d);
  se_finished : forall k d, segment_at W k = Some d -> early cut (span_of d) -> (k.1 < length F)%nat;
  se_boundary : forall j b, (length F <= S j)%nat -> boundary W j = Some b -> cut <= b;
  se_cut : 0 <= cut <= U64_MAX;
  se_edge : forall c, last F = Some c -> R <> [] ->
    cut + SEAM_EDGE_MICROS <= TimeRange.end_ (ChunkSegments.window c)
}.

Context (Hsep : separates).

Lemma chunk_F i : (i < length F)%nat -> F !! i = W !! i.
Proof. intros Hi. by rewrite lookup_app_l. Qed.

Lemma segment_F k : (k.1 < length F)%nat -> segment_at F k = segment_at W k.
Proof. intros Hk. unfold segment_at. by rewrite chunk_F. Qed.

Lemma segment_F_some k d : segment_at F k = Some d -> segment_at W k = Some d /\ (k.1 < length F)%nat.
Proof.
  intros Hd. assert (Hk : (k.1 < length F)%nat).
  { unfold segment_at in Hd. destruct (F !! k.1) as [c|] eqn:Hc; [|done]. by apply lookup_lt_Some in Hc. }
  by rewrite <- segment_F.
Qed.

Lemma segment_wf k d : segment_at W k = Some d -> TimeRange.wf (AsrSegmentDraft.range d).
Proof. apply segment_at_wf, Hsep. Qed.

Lemma boundary_F i : (S i < length F)%nat -> boundary F i = boundary W i.
Proof. intros Hi. unfold boundary. by rewrite !chunk_F by lia. Qed.

(** An early segment of a finished chunk has the same owner. *)
Lemma owner_local k d :
  segment_at W k = Some d -> early cut (span_of d) -> owner_of F k.1 d = owner_of W k.1 d.
Proof.
  intros Hd He. pose proof (midpoint_in d (segment_wf k d Hd)) as Hm. unfold early in He.
  destruct Hsep as [_ _ _ Hb Hcut _]. unfold owner_of. f_equal. apply find_position_ext. intros i.
  rewrite !chunk_cores_lookup, length_app.
  assert (Hprev : forall i, (i < length F)%nat ->
            match i with O => 0 | S before => default 0 (boundary F before) end
            = match i with O => 0 | S before => default 0 (boundary W before) end).
  { intros [|j] Hj; [done|]. by rewrite boundary_F by lia. }
  destruct (decide (i < length F)%nat) as [Hi|Hi].
  - rewrite (decide_True (P := (i < length F + length R)%nat)) by lia. cbn [fst snd].
    rewrite Hprev by done. f_equal. destruct (decide (S i < length F)%nat) as [Hs|Hs].
    { by rewrite boundary_F by lia. }
    assert (HF : boundary F i = None).
    { unfold boundary. rewrite (lookup_ge_None_2 F (S i)) by lia. by destruct (F !! i). }
    rewrite HF. destruct (boundary W i) as [b|] eqn:E; [|done]. cbn [default].
    specialize (Hb i b ltac:(lia) E). unfold id. change (default U64_MAX None) with U64_MAX.
    by rewrite (proj2 (Z.ltb_lt _ U64_MAX)), (proj2 (Z.ltb_lt _ b)) by ulia.
  - destruct (decide (i < length F + length R)%nat) as [Hw|Hw]; [|done]. cbn [fst snd].
    assert (Hk : (k.1 < length F)%nat) by (by eapply se_finished).
    destruct i as [|j]; [lia|].
    assert (Hsome : exists b, boundary W j = Some b).
    { unfold boundary. destruct (lookup_lt_is_Some_2 W j) as [a ->]; [rewrite length_app; lia|].
      destruct (lookup_lt_is_Some_2 W (S j)) as [b ->]; [rewrite length_app; lia|]. by eexists. }
    destruct Hsome as [b E]. specialize (Hb j b ltac:(lia) E). rewrite E. cbn [default].
    rewrite (proj2 (Z.leb_gt _ _)); [done|]. cbn. lia.
Qed.

Lemma cut_at_Left i d : (i < length F)%nat -> cut_at F i d Left = cut_at W i d Left.
Proof. intros Hi. unfold cut_at. by rewrite chunk_F. Qed.

(** The right edge of the last finished chunk lies past the cut. *)
Lemma cut_at_Right i d :
  (i < length F)%nat -> early cut (span_of d) -> cut_at F i d Right = cut_at W i d Right.
Proof.
  intros Hi He. unfold cut_at. rewrite chunk_F by done.
  destruct (W !! i) as [c|] eqn:Hc; [|done]. rewrite length_app.
  destruct (decide (S i < length F)%nat) as [Hs|Hs].
  { by rewrite !(proj2 (Nat.ltb_lt _ _)) by lia. }
  rewrite (proj2 (Nat.ltb_ge (S i) (length F))) by lia. cbn [andb].
  destruct R as [|r R'] eqn:ER; [by rewrite (proj2 (Nat.ltb_ge _ _)) by (cbn; lia)|].
  destruct Hsep as [_ _ _ _ Hcut Hedge].
  specialize (Hedge c). rewrite (proj2 (Z.ltb_ge _ _)); [by destruct (_ <? _)%nat|].
  unfold early, span_of, span in He. cbn in He.
  assert (Hlast : last F = Some c).
  { rewrite last_lookup. rewrite lookup_app_l in Hc by done. by replace (pred (length F)) with i by lia. }
  specialize (Hedge Hlast ltac:(by rewrite ER)). unfold SEAM_EDGE_MICROS in *. ulia.
Qed.

(** What an early segment adds is early, and a late one adds late ones. *)
Definition early_key (k : Key) : Prop :=
  exists d, segment_at W k = Some d /\ early cut (span_of d).

Lemma adds_side chunks k' d k d' :
  (forall k d, segment_at chunks k = Some d -> segment_at W k = Some d) ->
  segment_at chunks k' = Some d -> k ∈ adds chunks k'.1 (k'.2, d) -> segment_at W k = Some d' ->
  early cut (span_of d') -> early cut (span_of d).
Proof.
  intros Hsub Hd Hk Hd' He. destruct (adds_elem _ _ _ _ Hd Hk) as [->|(d'' & Hd'' & Hm)].
  - pose proof (Hsub _ _ Hd). by replace d with d' by congruence.
  - replace d'' with d' in * by (specialize (Hsub _ _ Hd''); congruence).
    pose proof (midpoint_in d (segment_wf k' d (Hsub _ _ Hd))) as Hmid.
    destruct (se_sides Hsep k' d (Hsub _ _ Hd)); [done|]. unfold early, late in *. lia.
Qed.

Lemma covering_local i d k facing :
  (i < length F)%nat -> segment_at W k = Some d -> early cut (span_of d) ->
  covering F i d facing = covering W i d facing.
Proof.
  intros Hi Hd He. unfold covering. rewrite chunk_F by done. destruct (W !! i) as [c|] eqn:Hc; [|done].
  f_equal. apply filter_ext_in. intros [p e] Hp. cbn [fst snd].
  apply elem_of_enumerate in Hp.
  destruct ((TimeRange.start (AsrSegmentDraft.range e) <=? AsrSegmentDraft.midpoint d)
            && (AsrSegmentDraft.midpoint d <? TimeRange.end_ (AsrSegmentDraft.range e))) eqn:Espan; [|done].
  bool_prop. destruct facing; [by rewrite cut_at_Left|]. rewrite cut_at_Right; [done|done|].
  assert (Hes : segment_at W (i, p) = Some e) by (unfold segment_at; cbn; rewrite Hc; done).
  pose proof (midpoint_in d (segment_wf k d Hd)).
  destruct (se_sides Hsep _ _ Hes) as [?|Hl]; [done|]. unfold early, late, span_of, span in *. cbn in *. lia.
Qed.

Lemma adds_local k d :
  segment_at W k = Some d -> early cut (span_of d) -> adds F k.1 (k.2, d) = adds W k.1 (k.2, d).
Proof.
  intros Hd He. assert (Hk : (k.1 < length F)%nat) by (by eapply se_finished).
  unfold adds. rewrite (owner_local k d Hd He).
  destruct (negb (owner_of W k.1 d =? k.1)%nat) eqn:Eo.
  - assert (Howner : (owner_of W k.1 d < length F)%nat).
    { rewrite <- (owner_local k d Hd He). unfold owner_of.
      destruct (find_position _ _) as [i|] eqn:E; [|done]. apply find_position_lt in E.
      change (i < length F)%nat. unfold chunk_cores in E. by rewrite length_fmap, length_seq in E. }
    by rewrite chunk_F.
  - assert (Hsides : cut_sides F k.1 d = cut_sides W k.1 d)
      by (unfold cut_sides; by rewrite cut_at_Left, cut_at_Right).
    rewrite Hsides.
    assert (Hfound : (fun side : nat * Side => covering F side.1 d side.2) <$> cut_sides W k.1 d
                     = (fun side : nat * Side => covering W side.1 d side.2) <$> cut_sides W k.1 d).
    { rewrite <- Hsides. apply list_fmap_ext. intros i [n facing] Hin.
      apply list_elem_of_lookup_2 in Hin. cbn [fst snd]. apply (covering_local n d k); [|done|done].
      unfold cut_sides in Hin. apply elem_of_app in Hin as [Hin|Hin].
      - destruct (cut_at F k.1 d Left); [|by apply not_elem_of_nil in Hin].
        apply list_elem_of_singleton in Hin as [= -> _]. lia.
      - destruct (cut_at F k.1 d Right) eqn:E; [|by apply not_elem_of_nil in Hin].
        apply list_elem_of_singleton in Hin as [= -> _]. unfold cut_at in E.
        destruct (F !! k.1); [|done]. apply andb_true_iff in E as [E _]. by apply Nat.ltb_lt in E. }
    by rewrite Hfound.
Qed.

Lemma rules_local k :
  early_key k -> k ∈ keep_by_rules_one_and_two F <-> k ∈ keep_by_rules_one_and_two W.
Proof.
  intros (d & Hd & He). rewrite !keep_elem. split.
  - intros (k' & d' & Hd' & Hk). pose proof (segment_F_some _ _ Hd') as [HW _].
    exists k', d'. split; [done|]. rewrite <- adds_local; [done|done|].
    eapply (adds_side F); [by intros ? ? [? _]%segment_F_some|done|exact Hk|exact Hd|done].
  - intros (k' & d' & Hd' & Hk).
    assert (He' : early cut (span_of d')) by (by eapply (adds_side W)).
    assert (Hk' : (k'.1 < length F)%nat) by (by eapply se_finished).
    exists k', d'. split; [by rewrite segment_F|]. by rewrite adds_local.
Qed.

(** ** The guard *)

Lemma entries_ok_of chunks :
  (forall k d, segment_at chunks k = Some d -> segment_at W k = Some d) -> chunks_wf chunks ->
  entries_ok cut (entries chunks).
Proof.
  intros Hsub Hwf. split.
  - apply entries_functional.
  - by apply entries_wf.
  - apply entries_nodup.
  - intros k s (d & Hd & ->)%entries_elem. by apply (se_sides Hsep k), Hsub.
Qed.

Lemma wf_F : chunks_wf F.
Proof. pose proof (se_wf Hsep) as Hw. by apply Forall_app in Hw as [? _]. Qed.

Lemma guard_local k :
  early_key k ->
  k ∈ restore_lost_speech F (keep_by_rules_one_and_two F)
  <-> k ∈ restore_lost_speech W (keep_by_rules_one_and_two W).
Proof.
  intros (d & Hd & He).
  assert (Hfirst : forall k s, early cut s -> (k, s) ∈ entries F <-> (k, s) ∈ entries W).
  { intros k' s Hs. rewrite !entries_elem. split; intros (d' & Hd' & ->); exists d'; (split; [|done]).
    - by apply segment_F_some in Hd' as [? _].
    - rewrite segment_F; [done|]. by eapply se_finished. }
  assert (HF : entries_ok cut (entries F)) by (apply entries_ok_of; [by intros ? ? [? _]%segment_F_some|apply wf_F]).
  assert (HW : entries_ok cut (entries W)) by (apply entries_ok_of; [done|apply (se_wf Hsep)]).
  apply (restore_entries_local cut SEAM_COVERAGE_TOLERANCE_MICROS (entries F) (entries W) HF HW Hfirst)
    with (s := span_of d); [by vm_compute| | |done].
  - intros k' s Hk Hs. apply entries_elem in Hk as (d' & Hd' & ->). apply rules_local.
    exists d'. split; [by apply segment_F_some in Hd' as [? _]|done].
  - apply entries_elem. exists d. split; [|done]. rewrite segment_F; [done|]. by eapply se_finished.
Qed.

(** ** The kept segments in order *)

Definition early_at (k : Key) : bool :=
  match segment_at W k with
  | Some d => bool_decide (early cut (span_of d))
  | None => false
  end.

Lemma early_at_true k : early_at k = true <-> early_key k.
Proof.
  unfold early_at, early_key. destruct (segment_at W k) as [d|].
  - rewrite bool_decide_eq_true. split; [by exists d|by intros (? & [= ->] & ?)].
  - split; [done|by intros (? & ? & _)].
Qed.

Lemma kept_early_same :
  filter (fun k => early_at k = true) (restore_lost_speech F (keep_by_rules_one_and_two F))
  = filter (fun k => early_at k = true) (restore_lost_speech W (keep_by_rules_one_and_two W)).
Proof.
  destruct (guard_spec F wf_F) as [[Hs _] _], (guard_spec W (se_wf Hsep)) as [[Hs' _] _].
  apply (StronglySorted_unique_strong key_lt).
  - intros k k' _ _. unfold key_lt. lia.
  - by apply StronglySorted_filter.
  - by apply StronglySorted_filter.
  - apply NoDup_Permutation.
    + apply NoDup_filter. by apply StronglySorted_NoDup_lt.
    + apply NoDup_filter. by apply StronglySorted_NoDup_lt.
    + intros k. rewrite !list_elem_of_filter, early_at_true. split; intros [? ?]; (split; [done|]).
      * by apply guard_local.
      * by apply guard_local.
Qed.

Lemma pick_early chunks kept :
  (forall k d, segment_at chunks k = Some d -> segment_at W k = Some d) ->
  filter (fun o => early cut (placed_span o)) (pick chunks kept)
  = pick chunks (filter (fun k => early_at k = true) kept).
Proof.
  intros Hsub. induction kept as [|k kept IH]; [done|]. unfold pick in *.
  rewrite omap_cons_app, filter_app, IH, filter_cons. unfold early_at.
  destruct (segment_at chunks k) as [d|] eqn:Hd.
  - rewrite (Hsub k d Hd). cbn [fmap option_fmap option_map option_list option_rect]. rewrite filter_cons, filter_nil.
    change (placed_span (k.1, d)) with (span_of d). case_bool_decide as He.
    + rewrite !decide_True by done. rewrite omap_cons_app, Hd. done.
    + by rewrite !decide_False by done.
  - destruct (decide _); [|done]. by rewrite omap_cons_app, Hd.
Qed.

Definition ordered_of (chunks : list ChunkSegments.t) : list Placed :=
  stable_sort placed_le (pick chunks (restore_lost_speech chunks (keep_by_rules_one_and_two chunks))).

Lemma ordered_early_same :
  filter (fun o => early cut (placed_span o)) (ordered_of F)
  = filter (fun o => early cut (placed_span o)) (ordered_of W).
Proof.
  unfold ordered_of. rewrite !stable_sort_filter by apply _. f_equal.
  rewrite (pick_early F) by (by intros ? ? [? _]%segment_F_some). rewrite (pick_early W) by done.
  rewrite kept_early_same. unfold pick. apply list_omap_ext, Forall2_same_length_lookup.
  split; [done|]. intros i k k' Hk Hk'. replace k' with k by congruence.
  apply list_elem_of_lookup_2, list_elem_of_filter in Hk as [Hk _].
  apply early_at_true in Hk as (d & Hd & He). rewrite segment_F; [done|]. by eapply se_finished.
Qed.
End Local.
