(* ===== verification/Settled.v ===== *)
(** * Settled: what an unfinished run may publish

    Models [crates/vsift-domain/src/asr/settled.rs]: the part of a run's merge
    that no unfinished chunk can change, which is published while the run goes
    on. The module's documentation argues that this part is a prefix of the
    merge of the whole run and leaves the claim to a test; here it is proved,
    from the locality of the rules ([SeamLocal], [SeamGuardLocal],
    [SeamTail]). *)

From stdpp Require Import sets relations.
From S2P Require Import Prelude.
From S2P Require Import Text.
From S2P Require Import Chars.
From S2P Require Import Timeline.
From S2P Require Import Spans.
From S2P Require Import MinQueue.
From S2P Require Import JoinNearest.
From S2P Require Import SpanSet.
From S2P Require Import Identity.
From S2P Require Import AsrPlan.
From S2P Require Import AsrRun.
From S2P Require Import Cues.
From S2P Require Import AsrOutput.
From S2P Require Import SeamWords.
From S2P Require Import SeamRules.
From S2P Require Import SeamGuard.
From S2P Require Import SeamMerge.
From S2P Require Import SeamGuardLocal.
From S2P Require Import SeamTail.
From S2P Require Import SeamLocal.

Definition MERGE_RULES_VERSION : Z := 2.
Definition MAX_EARLY_AUDIO_MICROS : Z := 5000000.

Module SettledTranscript.
Record t := mk {
  settled_until : Z;
  segments : list MergedSegment.t;
  unplaced : list TimeRange.t;
  warnings : TranscriptWarnings.t
}.
End SettledTranscript.

Definition ends_by (time : Z) (segment : MergedSegment.t) : bool :=
  TimeRange.end_ (AsrSegmentDraft.range (MergedSegment.segment segment)) <=? time.

(** The first time anything of a chunk still to come can start at. *)
Definition reach_of (next : PlannedChunk.t) (max_early_audio_us : Z) : Z :=
  Z.max 0 (TimeRange.start (PlannedChunk.window next) - max_early_audio_us).

(** The start of the first stretch that ends at the reach or later, or the
    reach. *)
Definition cut_of (union : list Span) (reach : Z) : Z :=
  match List.find (fun s : Span => reach <=? s.2) union with
  | Some s => Z.min s.1 reach
  | None => reach
  end.

Definition settled_merge `{UnicodeTables} (finished : list ChunkSegments.t)
    (next : option PlannedChunk.t) (max_early_audio_us : Z) : SettledTranscript.t :=
  let merged_run := merge_chunks finished in
  match next with
  | None =>
      SettledTranscript.mk
        (match last finished with
         | Some chunk => TimeRange.end_ (ChunkSegments.window chunk)
         | None => 0
         end)
        (MergedTranscript.segments merged_run) (MergedTranscript.unplaced merged_run)
        (MergedTranscript.warnings merged_run)
  | Some next =>
      let reach := reach_of next max_early_audio_us in
      let union := merged (finished ≫= fun c =>
                     (fun d => span (AsrSegmentDraft.range d)) <$> ChunkSegments.segments c) in
      let settled_until := cut_of union reach in
      SettledTranscript.mk settled_until
        (take_while (ends_by settled_until) (MergedTranscript.segments merged_run))
        (filter (fun stretch => TimeRange.end_ stretch < settled_until) (MergedTranscript.unplaced merged_run))
        (MergedTranscript.warnings merged_run)
  end.

(** ** What the code relies on

    The chunks of a run come in the order of its plan, the chunks still to come
    write nothing before the reach of the next one, and the window of the last
    finished chunk goes at least the margin of a seam past that reach: the
    plan's overlap together with the bound on early audio is no shorter. *)
Record run_goes_on (finished rest : list ChunkSegments.t) (next : PlannedChunk.t) (reach : Z) : Prop := {
  go_wf : chunks_wf (finished ++ rest);
  go_indices : indices_wf (finished ++ rest);
  go_next : ChunkSegments.chunk <$> head rest = Some next;
  go_windows : Forall (fun c => TimeRange.wf (ChunkSegments.window c)
                                /\ reach <= TimeRange.start (ChunkSegments.window c)) rest;
  go_segments : forall d c, c ∈ rest -> d ∈ ChunkSegments.segments c -> reach <= (span_of d).1;
  go_unplaced : forall r c, c ∈ rest -> r ∈ ChunkSegments.unplaced c -> reach <= TimeRange.start r;
  go_edge : forall c, last finished = Some c ->
    reach + SEAM_EDGE_MICROS <= TimeRange.end_ (ChunkSegments.window c)
}.

(** ** The cut *)

Lemma cut_of_spec union reach :
  canonical union -> 0 <= reach ->
  0 <= cut_of union reach <= reach
  /\ Forall (fun s => early (cut_of union reach) s \/ late (cut_of union reach) s) union.
Proof.
  intros Hc Hr. pose proof (canon_nonneg (-1) union ltac:(lia) Hc) as Hnn. unfold cut_of.
  pose proof (find_split (fun s : Span => reach <=? s.2) union) as Hf.
  destruct (List.find _ union) as [s|].
  - destruct Hf as (pre & post & -> & Hpre & Hs). bool_prop.
    assert (Hin : s ∈ pre ++ s :: post) by set_solver.
    rewrite Forall_forall in Hnn. specialize (Hnn s Hin). split; [lia|].
    apply Forall_app. split; [|constructor].
    + apply Forall_lookup. intros i a Ha. left. rewrite Forall_lookup in Hpre. specialize (Hpre i a Ha).
      cbn in Hpre. bool_prop. unfold early. apply lookup_lt_Some in Ha as Hi.
      pose proof (canon_lookup_order (-1) (pre ++ s :: post) i (length pre) a s Hc) as Ho.
      specialize (Ho ltac:(by rewrite lookup_app_l) ltac:(by apply list_lookup_middle) Hi). lia.
    + right. unfold late. lia.
    + apply Forall_lookup. intros i b Hb. right. unfold late.
      pose proof (canon_lookup_order (-1) (pre ++ s :: post) (length pre) (S (length pre + i)) s b Hc) as Ho.
      specialize (Ho ltac:(by apply list_lookup_middle)
        ltac:(rewrite lookup_app_r by lia; by replace (S (length pre + i) - length pre)%nat with (S i) by lia)
        ltac:(lia)).
      pose proof (canon_lookup_pos (-1) (pre ++ s :: post) (length pre) s Hc ltac:(by apply list_lookup_middle)).
      lia.
  - split; [lia|]. eapply Forall_impl; [exact Hf|]. intros s Hs. cbn in Hs. bool_prop. left. exact Hs.
Qed.

Section Settle.
Context `{UnicodeTables} (finished rest : list ChunkSegments.t) (next : PlannedChunk.t) (early_us : Z).
Let reach : Z := reach_of next early_us.
Context (Hgo : run_goes_on finished rest next reach).
Let cut : Z := cut_of (union_of finished) reach.

Lemma finished_wf : chunks_wf finished.
Proof. pose proof (go_wf _ _ _ _ Hgo) as Hw. by apply Forall_app in Hw as [? _]. Qed.

Lemma cut_spec :
  0 <= cut <= reach /\ Forall (fun s => early cut s \/ late cut s) (union_of finished).
Proof.
  apply cut_of_spec; [apply (union_spec _ finished_wf)|]. unfold reach, reach_of. lia.
Qed.

(** A segment lies in a stretch of the union, or in a chunk still to come. *)
Lemma segment_sides k d :
  segment_at (finished ++ rest) k = Some d ->
  (k.1 < length finished)%nat /\ (early cut (span_of d) \/ late cut (span_of d))
  \/ late cut (span_of d).
Proof.
  intros Hd. destruct cut_spec as [Hcut Hsides].
  pose proof (segment_at_wf _ _ _ (go_wf _ _ _ _ Hgo) Hd) as (? & ? & ?).
  unfold segment_at in Hd. destruct (decide (k.1 < length finished)%nat) as [Hk|Hk].
  - left. split; [done|]. rewrite lookup_app_l in Hd by done.
    destruct (union_spec _ finished_wf) as [Hc Hcov].
    destruct (canon_interval (-1) _ (span_of d).1 (span_of d).2 Hc) as (s & Hs & Ha & Hb); [done| |].
    { intros x Hx. apply Hcov, Exists_exists. exists (span_of d). split; [|done].
      apply all_spans_elem. by exists k, d. }
    rewrite Forall_forall in Hsides. destruct (Hsides s Hs); [left|right]; unfold early, late in *; lia.
  - right. rewrite lookup_app_r in Hd by lia. destruct (rest !! _) as [c|] eqn:Hc; [|done]. cbn in Hd.
    apply list_elem_of_lookup_2 in Hc, Hd. pose proof (go_segments _ _ _ _ Hgo d c Hc Hd).
    unfold late. lia.
Qed.

Lemma go_separates : separates finished rest cut.
Proof.
  destruct cut_spec as [Hcut _]. split.
  - apply Hgo.
  - intros k d Hd. destruct (segment_sides k d Hd) as [[_ ?]|?]; [done|by right].
  - intros k d Hd He. destruct (segment_sides k d Hd) as [[? _]|Hl]; [done|].
    pose proof (segment_at_wf _ _ _ (go_wf _ _ _ _ Hgo) Hd) as (? & ? & ?).
    unfold early, late, span_of, span in *. cbn in *. lia.
  - intros j b Hj Hb. unfold boundary in Hb.
    destruct ((finished ++ rest) !! j) as [a|] eqn:Ha; [|done].
    destruct ((finished ++ rest) !! S j) as [c|] eqn:Hc; [|done]. injection Hb as <-.
    rewrite lookup_app_r in Hc by done. apply list_elem_of_lookup_2 in Hc.
    pose proof (go_windows _ _ _ _ Hgo) as Hw. rewrite Forall_forall in Hw. destruct (Hw c Hc) as [_ Hstart].
    assert (Hend : reach <= TimeRange.end_ (ChunkSegments.window a)).
    { destruct (decide (j < length finished)%nat) as [Hlt|Hge].
      - rewrite lookup_app_l in Ha by done.
        pose proof (go_edge _ _ _ _ Hgo a) as He. rewrite last_lookup in He.
        replace (pred (length finished)) with j in He by lia. specialize (He Ha).
        unfold SEAM_EDGE_MICROS in He. lia.
      - rewrite lookup_app_r in Ha by lia. apply list_elem_of_lookup_2 in Ha.
        destruct (Hw a Ha) as [(? & ? & ?) ?]. lia. }
    unfold midpoint. divlia.
  - pose proof (go_next _ _ _ _ Hgo) as Hn. destruct rest as [|c rest']; [done|].
    pose proof (go_windows _ _ _ _ Hgo) as Hw. apply Forall_cons in Hw as [[(? & ? & ?) ?] _]. ulia.
  - intros c Hc _. pose proof (go_edge _ _ _ _ Hgo c Hc). lia.
Qed.

(** ** The kept segments of both runs *)

Definition first_kept : list Placed := filter (fun o => early cut (placed_span o)) (ordered_of finished).

(** The kept segments of a run are those before the cut, which the finished
    chunks decide, and then others. *)
Lemma ordered_split chunks :
  chunks_wf chunks ->
  (forall k d, segment_at chunks k = Some d -> segment_at (finished ++ rest) k = Some d) ->
  filter (fun o => early cut (placed_span o)) (ordered_of chunks) = first_kept ->
  exists others, ordered_of chunks = first_kept ++ others
    /\ all_of (before_cut cut (length finished)) first_kept /\ all_of (after_cut cut) others.
Proof.
  intros Hwf Hsub Hfirst. set (kept := restore_lost_speech chunks (keep_by_rules_one_and_two chunks)).
  assert (Hel : forall o, o ∈ ordered_of chunks ->
            exists k, k.1 = o.1 /\ segment_at (finished ++ rest) k = Some o.2 /\ placed_span o = span_of o.2).
  { intros o. unfold ordered_of. rewrite stable_sort_Permutation. unfold pick.
    intros (k & _ & E)%list_elem_of_omap. destruct (segment_at chunks k) as [d|] eqn:Hd; [|done].
    injection E as <-. exists k. by rewrite (Hsub _ _ Hd). }
  pose proof go_separates as Hsep.
  exists (filter (fun o => ~ early cut (placed_span o)) (ordered_of chunks)). split; [|split].
  - rewrite <- Hfirst. apply (StronglySorted_partition placed_le).
    + apply StronglySorted_stable_sort; apply _.
    + intros a b Ha Hb Hle He. destruct (Hel a Ha) as (ka & _ & Hda & Ea), (Hel b Hb) as (kb & _ & Hdb & Eb).
      rewrite Ea in *. rewrite Eb in *. destruct (se_sides _ _ _ Hsep _ _ Hda) as [?|Hl]; [done|].
      pose proof (segment_at_wf _ _ _ (go_wf _ _ _ _ Hgo) Hdb) as (? & ? & ?).
      unfold placed_le in Hle. rewrite Ea, Eb in Hle. unfold early, late, span_of, span in *. cbn in *. lia.
  - rewrite <- Hfirst. apply Forall_forall. intros o [He Ho]%list_elem_of_filter.
    destruct (Hel o Ho) as (k & Hk & Hd & Eo). rewrite Eo in *.
    pose proof (segment_at_wf _ _ _ (go_wf _ _ _ _ Hgo) Hd) as (? & ? & ?).
    unfold before_cut, is_u64 in *. cbn [fst snd]. split; [|split; [cbn; lia|by split]].
    rewrite <- Hk. by eapply (se_finished _ _ _ Hsep).
  - apply Forall_forall. intros o [He Ho]%list_elem_of_filter.
    destruct (Hel o Ho) as (k & Hk & Hd & Eo). rewrite Eo in *.
    pose proof (segment_at_wf _ _ _ (go_wf _ _ _ _ Hgo) Hd) as (? & ? & ?).
    unfold after_cut, is_u64 in *. cbn [fst snd]. split; [cbn; lia|]. split; [done|].
    by destruct (se_sides _ _ _ Hsep _ _ Hd).
Qed.

(** What rule 3 leaves of them, with the stretches before the cut. *)
Definition first_merged : list Placed :=
  (seam_loop (length first_kept) finished (filter (early cut) (union_of finished)) 0
     (first_kept, TranscriptWarnings.default)).1.

Lemma rule3_split chunks :
  chunks_wf chunks ->
  (forall k d, segment_at chunks k = Some d -> segment_at (finished ++ rest) k = Some d) ->
  filter (fun o => early cut (placed_span o)) (ordered_of chunks) = first_kept ->
  (forall i, (i < length finished)%nat -> chunks !! i = finished !! i) ->
  filter (early cut) (union_of chunks) = filter (early cut) (union_of finished) ->
  exists others,
    (remove_seam_duplicates (ordered_of chunks) chunks (union_of chunks)).1 = first_merged ++ others
    /\ all_of (before_cut cut (length finished)) first_merged /\ all_of (after_cut cut) others.
Proof.
  intros Hwf Hsub Hfirst Hchunks Hunion.
  destruct (ordered_split chunks Hwf Hsub Hfirst) as (others & Ho & Hp & Hq).
  destruct (union_spec chunks Hwf) as [Hc Hcov].
  assert (Hcross : ~ covers (union_of chunks) (cut - 1)).
  { rewrite (Hcov _). intros (s & Hs & Hx)%Exists_exists.
    apply all_spans_elem in Hs as (k & d & Hd & ->). pose proof go_separates as Hsep.
    destruct (se_sides _ _ _ Hsep _ _ (Hsub _ _ Hd)); unfold early, late, span_of, in_span in *; lia. }
  unfold remove_seam_duplicates. rewrite Ho, length_app.
  destruct (seam_loop_head cut (union_of chunks) Hc Hcross chunks finished (length finished)
              (length first_kept + length others) first_kept others 0 TranscriptWarnings.default
              Hchunks Hp Hq) as (others' & E & Hq' & Hp').
  rewrite Hunion in E, Hp'.
  rewrite (seam_loop_ends finished (filter (early cut) (union_of finished)) (length first_kept)) in E, Hp'
    by (cbn [fst]; lia).
  exists others'. done.
Qed.

Lemma union_early :
  filter (early cut) (union_of (finished ++ rest)) = filter (early cut) (union_of finished).
Proof.
  destruct (union_spec _ (go_wf _ _ _ _ Hgo)) as [Hc Hcov], (union_spec _ finished_wf) as [Hc' Hcov'].
  pose proof go_separates as Hsep.
  apply (canon_early_unique cut (-1)); [done|done|]. intros x Hx. rewrite (Hcov x), (Hcov' x).
  unfold covers. rewrite !Exists_exists. split; intros (s & Hs & Hin); exists s; (split; [|done]);
    apply all_spans_elem in Hs as (k & d & Hd & ->); apply all_spans_elem; exists k, d; (split; [|done]).
  - destruct (se_sides _ _ _ Hsep _ _ Hd) as [He|Hl]; [|unfold late, span_of, in_span in *; lia].
    rewrite (segment_F finished rest); [done|]. by eapply (se_finished _ _ _ Hsep).
  - by apply (segment_F_some finished rest) in Hd as [? _].
Qed.

(** Both runs begin with the same merged segments. *)
Lemma merges_split :
  exists others others',
    (remove_seam_duplicates (ordered_of finished) finished (union_of finished)).1 = first_merged ++ others
    /\ (remove_seam_duplicates (ordered_of (finished ++ rest)) (finished ++ rest)
          (union_of (finished ++ rest))).1 = first_merged ++ others'
    /\ all_of (before_cut cut (length finished)) first_merged
    /\ all_of (after_cut cut) others /\ all_of (after_cut cut) others'.
Proof.
  pose proof go_separates as Hsep.
  destruct (rule3_split finished finished_wf) as (others & E & Hp & Hq); try done.
  { by intros k d [? _]%(segment_F_some finished rest). }
  destruct (rule3_split (finished ++ rest) (go_wf _ _ _ _ Hgo)) as (others' & E' & _ & Hq'); try done.
  { symmetry. apply (ordered_early_same finished rest cut Hsep). }
  { intros i Hi. by apply lookup_app_l. }
  { apply union_early. }
  by exists others, others'.
Qed.
End Settle.

(** ** The settled part *)

Definition to_merged (o : Placed) : MergedSegment.t := MergedSegment.mk (saturating_u32 (Z.of_nat o.1)) o.2.

Lemma merge_chunks_ordered `{UnicodeTables} chunks :
  let kept := (remove_seam_duplicates (ordered_of chunks) chunks (union_of chunks)).1 in
  MergedTranscript.segments (merge_chunks chunks) = to_merged <$> kept
  /\ MergedTranscript.unplaced (merge_chunks chunks) = uncovered_unplaced_stretches chunks kept.
Proof.
  cbn zeta. unfold merge_chunks, assemble. fold (pick chunks (restore_lost_speech chunks (keep_by_rules_one_and_two chunks))).
  fold (ordered_of chunks). fold (all_spans chunks). fold (union_of chunks).
  by destruct (remove_seam_duplicates _ _ _).
Qed.

Definition segment_span (s : MergedSegment.t) : Span := span_of (MergedSegment.segment s).

Lemma filter_to_ranges cut l :
  filter (fun r => TimeRange.end_ r < cut) (to_ranges l) = to_ranges (filter (fun s : Span => s.2 < cut) l).
Proof.
  induction l as [|s l IH]; [done|]. unfold to_ranges in *. rewrite omap_cons_app, filter_app, IH, filter_cons.
  destruct (to_range s) as [r|] eqn:E.
  - assert (Hr : TimeRange.end_ r = s.2).
    { unfold to_range, TimeRange.new in E. destruct (s.2 <=? s.1); [done|]. by injection E as <-. }
    cbn [option_list option_rect]. rewrite filter_cons, filter_nil, Hr. case_decide; [|done].
    by rewrite omap_cons_app, E.
  - case_decide; [|done]. by rewrite omap_cons_app, E.
Qed.

Section Parts.
Context `{UnicodeTables} (finished rest : list ChunkSegments.t) (next : PlannedChunk.t) (early_us : Z).
Context (Hgo : run_goes_on finished rest next (reach_of next early_us)).
Let settled : SettledTranscript.t := settled_merge finished (Some next) early_us.

Lemma settled_spec :
  exists others,
    MergedTranscript.segments (merge_chunks (finished ++ rest)) = SettledTranscript.segments settled ++ others
    /\ Forall (fun s => SettledTranscript.settled_until settled <= (segment_span s).1) others
    /\ Forall (fun s => (segment_span s).1 < (segment_span s).2
                        /\ (segment_span s).2 < SettledTranscript.settled_until settled)
         (SettledTranscript.segments settled).
Proof.
  destruct (merges_split finished rest next early_us Hgo) as (others & others' & E & E' & Hp & Hq & Hq').
  destruct (merge_chunks_ordered finished) as [HF _], (merge_chunks_ordered (finished ++ rest)) as [HW _].
  rewrite E in HF. rewrite E' in HW. rewrite fmap_app in HF, HW.
  unfold settled, settled_merge. cbn zeta. cbn [SettledTranscript.segments SettledTranscript.settled_until].
  fold (all_spans finished). fold (union_of finished).
  set (cut := cut_of (union_of finished) (reach_of next early_us)) in *. rewrite HF, take_while_app.
  - exists (to_merged <$> others'). split; [done|]. split; apply Forall_fmap.
    + eapply Forall_impl; [exact Hq'|]. intros o (_ & _ & Hl). exact Hl.
    + eapply Forall_impl; [exact Hp|]. intros o (_ & _ & Hlt & He). by split.
  - apply Forall_fmap. eapply Forall_impl; [exact Hp|]. intros o (_ & _ & _ & He).
    unfold early, placed_span, span in He. cbn in He. apply Z.leb_le. cbn. lia.
  - apply Forall_fmap. eapply Forall_impl; [exact Hq|]. intros o (_ & Hlt & Hl).
    unfold late, placed_span, span in *. cbn in *. apply Z.leb_gt. cbn. lia.
Qed.

(** The stretches of unplaced words that a list of chunks and kept segments
    leave below the cut. *)
Lemma settled_unplaced :
  (length (MergedTranscript.unplaced (merge_chunks (finished ++ rest))) < MAX_UNPLACED_STRETCHES)%nat ->
  (length (MergedTranscript.unplaced (merge_chunks finished)) < MAX_UNPLACED_STRETCHES)%nat ->
  filter (fun r => TimeRange.end_ r < SettledTranscript.settled_until settled)
    (MergedTranscript.unplaced (merge_chunks (finished ++ rest)))
  = SettledTranscript.unplaced settled.
Proof.
  destruct (merges_split finished rest next early_us Hgo) as (others & others' & E & E' & Hp & Hq & Hq').
  destruct (cut_spec finished rest next early_us Hgo) as [Hcut _].
  destruct (merge_chunks_ordered finished) as [_ HF], (merge_chunks_ordered (finished ++ rest)) as [_ HW].
  unfold settled, settled_merge. cbn zeta. cbn [SettledTranscript.unplaced SettledTranscript.settled_until].
  fold (all_spans finished). fold (union_of finished).
  set (cut := cut_of (union_of finished) (reach_of next early_us)) in *.
  rewrite HF, HW, E, E'. clear HF HW E E'.
  set (P := first_merged finished next early_us) in *.
  assert (Hok : forall Q, all_of (after_cut cut) Q -> spans_ok (P ++ Q)).
  { intros Q HQ. apply Forall_app. split; [eapply Forall_impl; [exact Hp|]|eapply Forall_impl; [exact HQ|]].
    - by intros o (_ & ? & ? & _).
    - by intros o (? & ? & _). }
  destruct (stretches_spec finished (P ++ others) (finished_wf _ _ _ _ Hgo) (Hok _ Hq))
    as (sF & EF & HcF & HtF & HF).
  destruct (stretches_spec (finished ++ rest) (P ++ others') (go_wf _ _ _ _ Hgo) (Hok _ Hq'))
    as (sW & EW & HcW & HtW & HW).
  assert (Hsame : filter (fun s : Span => s.2 < cut) sW = filter (fun s : Span => s.2 < cut) sF).
  { apply (canon_before_unique cut (-1)); [done|done|]. intros x Hx. rewrite HF, HW, !fmap_app, !covers_app.
    pose proof (tail_uncovered cut others x Hq Hx). pose proof (tail_uncovered cut others' x Hq' Hx).
    unfold unplaced_spans. rewrite bind_app, covers_app.
    assert (Hr : ~ covers (rest ≫= fun c => span <$> ChunkSegments.unplaced c) x).
    { intros (s & Hs & Hin)%Exists_exists. apply list_elem_of_bind in Hs as (c & Hs & Hc).
      apply list_elem_of_fmap in Hs as (r & -> & Hr). pose proof (go_unplaced _ _ _ _ Hgo r c Hc Hr).
      unfold in_span, span in Hin. cbn in Hin. lia. }
    tauto. }
  cbn zeta in EF, EW. rewrite EF, EW. clear EF EW. intros HlW HlF.
  assert (Hshort : forall long, canonical long -> spans_typed long ->
    (length (to_ranges (default long (join_nearest (Q := list entry) long MAX_UNPLACED_STRETCHES None)))
       < MAX_UNPLACED_STRETCHES)%nat ->
    default long (join_nearest (Q := list entry) long MAX_UNPLACED_STRETCHES None) = long).
  { intros long Hc Ht Hl.
    destruct (join_nearest_spec (Q := list entry) long MAX_UNPLACED_STRETCHES None Hc Ht)
      as (l & El & Hlc & _ & _ & Hlen & _); [done|].
    rewrite El in *. change (default long (Some l)) with l in *. apply (join_nearest_short _ _ _ _ Hc Ht El).
    rewrite <- (length_fmap span), (spans_of_ranges (-1)) in Hl by (done || lia). done. }
  rewrite !Hshort; [|by apply canon_filter|done|done|by apply canon_filter|done|done].
  rewrite !filter_to_ranges, !list_filter_filter. f_equal.
  rewrite (list_filter_iff _ (fun s : Span => SEAM_COVERAGE_TOLERANCE_MICROS < s.2 - s.1 /\ s.2 < cut) sW)
    by tauto.
  rewrite (list_filter_iff _ (fun s : Span => SEAM_COVERAGE_TOLERANCE_MICROS < s.2 - s.1 /\ s.2 < cut) sF)
    by tauto.
  by rewrite <- !list_filter_filter, Hsame.
Qed.
End Parts.

(** A merged segment lies in a stretch of what was said. *)
Lemma merged_in_union `{UnicodeTables} chunks s :
  chunks_wf chunks -> indices_wf chunks -> s ∈ MergedTranscript.segments (merge_chunks chunks) ->
  exists stretch, stretch ∈ union_of chunks /\ stretch.1 <= (segment_span s).1 /\ (segment_span s).2 <= stretch.2.
Proof.
  intros Hwf Hi Hs. destruct (merge_chunks_inv chunks Hwf Hi) as (state & ((keys & _ & Hf) & _) & E).
  rewrite E in Hs. cbn [MergedTranscript.segments] in Hs. apply list_elem_of_fmap in Hs as (o & -> & Ho).
  apply list_elem_of_lookup in Ho as [i Ho].
  destruct (Forall2_lookup_r _ _ _ _ _ Hf Ho) as (k & _ & _ & d & Hd & Eo & _).
  destruct (segment_at_wf _ _ _ Hwf Hd) as (? & ? & ?). destruct (union_spec chunks Hwf) as [Hc Hcov].
  assert (Espan : segment_span (MergedSegment.mk (saturating_u32 (Z.of_nat o.1)) o.2) = span_of d).
  { unfold segment_span, span_of. cbn. by rewrite Eo. }
  rewrite Espan. apply (canon_interval (-1)); [done|done|]. intros x Hx. apply Hcov, Exists_exists.
  exists (span_of d). split; [apply all_spans_elem; by exists k, d|exact Hx].
Qed.

Lemma cut_order `{UnicodeTables} finished more rest next next' early_us :
  run_goes_on finished (more ++ rest) next (reach_of next early_us) ->
  run_goes_on (finished ++ more) rest next' (reach_of next' early_us) ->
  TimeRange.start (PlannedChunk.window next) <= TimeRange.start (PlannedChunk.window next') ->
  cut_of (union_of finished) (reach_of next early_us)
  <= cut_of (union_of (finished ++ more)) (reach_of next' early_us).
Proof.
  intros Hgo Hgo' Hnext.
  destruct (cut_spec finished (more ++ rest) next early_us Hgo) as [Hcut _].
  pose proof (go_separates finished (more ++ rest) next early_us Hgo) as Hsep.
  pose proof (finished_wf _ _ _ _ Hgo') as Hwf. destruct (union_spec _ Hwf) as [Hc Hcov].
  set (cut := cut_of (union_of finished) _) in *.
  assert (Hr : reach_of next early_us <= reach_of next' early_us) by (unfold reach_of; lia).
  assert (Hn : ~ covers (union_of (finished ++ more)) (cut - 1)).
  { rewrite (Hcov _). intros (s & Hs & Hx)%Exists_exists. apply all_spans_elem in Hs as (k & d & Hd & ->).
    apply (segment_F_some (finished ++ more) rest) in Hd as [Hd _]. rewrite <- app_assoc in Hd.
    destruct (se_sides _ _ _ Hsep _ _ Hd); unfold early, late, span_of, in_span in *; lia. }
  pose proof (canon_late cut (-1) _ Hc Hn) as Hs. unfold cut_of.
  pose proof (find_split (fun s : Span => reach_of next' early_us <=? s.2) (union_of (finished ++ more))) as Hf.
  destruct (List.find _ _) as [s|]; [|lia]. destruct Hf as (pre & post & E & _ & Hend). bool_prop.
  rewrite Forall_forall in Hs. destruct (Hs s) as [He|Hl]; [rewrite E; set_solver| |];
    unfold early, late in *; lia.
Qed.

(** What an unfinished run publishes is final. The settled segments are the
    first segments of the merge of the whole run, whatever the chunks still to
    come hold: every other segment of that merge starts at the settled time or
    later, and each settled one ends before it. The settled stretches of
    unplaced words are those of the whole run that end before that time, unless
    a list was long enough to be joined. Claim C7. *)
Theorem settled_part_is_final `{UnicodeTables} finished rest next early_us :
  run_goes_on finished rest next (reach_of next early_us) ->
  let settled := settled_merge finished (Some next) early_us in
  let until := SettledTranscript.settled_until settled in
  let whole := merge_chunks (finished ++ rest) in
  (exists others,
     MergedTranscript.segments whole = SettledTranscript.segments settled ++ others
     /\ Forall (fun s => until <= (segment_span s).1) others)
  /\ Forall (fun s => (segment_span s).2 < until) (SettledTranscript.segments settled)
  /\ ((length (MergedTranscript.unplaced whole) < MAX_UNPLACED_STRETCHES)%nat ->
      (length (MergedTranscript.unplaced (merge_chunks finished)) < MAX_UNPLACED_STRETCHES)%nat ->
      filter (fun r => TimeRange.end_ r < until) (MergedTranscript.unplaced whole)
      = SettledTranscript.unplaced settled).
Proof.
  intros Hgo. cbn zeta. destruct (settled_spec finished rest next early_us Hgo) as (others & E & Ho & Hs).
  split; [by exists others|]. split.
  - eapply Forall_impl; [exact Hs|]. intros s [_ ?]. done.
  - by apply settled_unplaced.
Qed.

Lemma grows_spec `{UnicodeTables} finished more rest next next' early_us :
  run_goes_on finished (more ++ rest) next (reach_of next early_us) ->
  run_goes_on (finished ++ more) rest next' (reach_of next' early_us) ->
  TimeRange.start (PlannedChunk.window next) <= TimeRange.start (PlannedChunk.window next') ->
  let settled := settled_merge finished (Some next) early_us in
  let settled' := settled_merge (finished ++ more) (Some next') early_us in
  let final := settled_merge (finished ++ more ++ rest) None early_us in
  SettledTranscript.settled_until settled <= SettledTranscript.settled_until settled'
  /\ SettledTranscript.segments settled `prefix_of` SettledTranscript.segments settled'
  /\ SettledTranscript.segments settled' `prefix_of` SettledTranscript.segments final
  /\ SettledTranscript.segments final = MergedTranscript.segments (merge_chunks (finished ++ more ++ rest))
  /\ (Forall (fun s => s.2 < reach_of next early_us) (union_of finished) ->
      SettledTranscript.settled_until settled = reach_of next early_us
      /\ SettledTranscript.segments settled = MergedTranscript.segments (merge_chunks finished)).
Proof.
  intros Hgo Hgo' Hnext. cbn zeta. pose proof (cut_order finished more rest next next' early_us Hgo Hgo' Hnext) as Hcut.
  destruct (settled_spec finished (more ++ rest) next early_us Hgo) as (others & E & Ho & Hs).
  destruct (settled_spec (finished ++ more) rest next' early_us Hgo') as (others' & E' & Ho' & Hs').
  rewrite <- app_assoc in E'.
  split; [exact Hcut|]. split; [|split; [by exists others'|split; [done|]]].
  - destruct (prefix_weak_total (SettledTranscript.segments (settled_merge finished (Some next) early_us))
                (SettledTranscript.segments (settled_merge (finished ++ more) (Some next') early_us))
                (MergedTranscript.segments (merge_chunks (finished ++ more ++ rest)))) as [?|[extra Hx]];
      [by exists others|by exists others'|done|].
    destruct extra as [|s extra]; [exists []; by rewrite Hx, app_nil_r, app_nil_r|]. exfalso.
    rewrite Hx in Hs. apply Forall_app in Hs as [_ [[Hlt He] _]%Forall_cons].
    rewrite E', Hx, <- app_assoc in E. apply app_inv_head in E. rewrite E in Ho'.
    apply Forall_app in Ho' as [[Hl _]%Forall_cons _].
    change (SettledTranscript.settled_until (settled_merge finished (Some next) early_us))
      with (cut_of (union_of finished) (reach_of next early_us)) in He.
    change (SettledTranscript.settled_until (settled_merge (finished ++ more) (Some next') early_us))
      with (cut_of (union_of (finished ++ more)) (reach_of next' early_us)) in Hl. lia.
  - intros Hall.
    assert (Hr : cut_of (union_of finished) (reach_of next early_us) = reach_of next early_us).
    { unfold cut_of. pose proof (find_split (fun s : Span => reach_of next early_us <=? s.2) (union_of finished)) as Hf.
      destruct (List.find _ _) as [s|]; [|done]. destruct Hf as (pre & post & Eu & _ & Hend). bool_prop.
      rewrite Eu in Hall. apply Forall_app in Hall as [_ [Hlt _]%Forall_cons]. lia. }
    split; [exact Hr|].
    change (take_while (ends_by (cut_of (union_of finished) (reach_of next early_us)))
              (MergedTranscript.segments (merge_chunks finished)) = MergedTranscript.segments (merge_chunks finished)).
    rewrite Hr. rewrite <- (app_nil_r (MergedTranscript.segments (merge_chunks finished))) at 1.
    apply take_while_app; [|constructor]. apply Forall_forall. intros s Hin. unfold ends_by. apply Z.leb_le.
    enough (exists stretch, stretch ∈ union_of finished /\ (segment_span s).2 <= stretch.2) as (stretch & Hst & Hle).
    { rewrite Forall_forall in Hall. specialize (Hall _ Hst). unfold segment_span, span_of, span in Hle. cbn in Hle. lia. }
    destruct (merged_in_union finished s (finished_wf _ _ _ _ Hgo)) as (stretch & ? & _ & ?); [|done|by exists stretch].
    pose proof (go_indices _ _ _ _ Hgo) as Hi. by apply Forall_app in Hi as [? _].
Qed.

(** A run that goes on settles more and more, and in the end everything. When
    more chunks are finished the settled time is no earlier and the settled
    segments begin with those settled before; when all are, the settled part is
    the whole merge; and the settled time lags behind the first time still to
    be written only by a stretch of speech that reaches it: where the finished
    chunks say nothing at that time or just before it, all they said before is
    settled. Claim C27. *)
Theorem settled_part_grows `{UnicodeTables} finished more rest next next' early_us :
  run_goes_on finished (more ++ rest) next (reach_of next early_us) ->
  run_goes_on (finished ++ more) rest next' (reach_of next' early_us) ->
  TimeRange.start (PlannedChunk.window next) <= TimeRange.start (PlannedChunk.window next') ->
  let settled := settled_merge finished (Some next) early_us in
  let settled' := settled_merge (finished ++ more) (Some next') early_us in
  let final := settled_merge (finished ++ more ++ rest) None early_us in
  SettledTranscript.settled_until settled <= SettledTranscript.settled_until settled'
  /\ SettledTranscript.segments settled `prefix_of` SettledTranscript.segments settled'
  /\ SettledTranscript.segments settled' `prefix_of` SettledTranscript.segments final
  /\ SettledTranscript.segments final = MergedTranscript.segments (merge_chunks (finished ++ more ++ rest))
  /\ (Forall (fun s => s.2 < reach_of next early_us) (union_of finished) ->
      SettledTranscript.settled_until settled = reach_of next early_us
      /\ SettledTranscript.segments settled = MergedTranscript.segments (merge_chunks finished)).
Proof. apply grows_spec. Qed.

(** ** A run in three chunks

    After the first chunk only its first sentence is settled: the second one
    is still open where the next chunk may begin. After the second chunk the
    sentence that both heard is settled as well. *)

Section Example.
Let seconds (a b : Z) : TimeRange.t := TimeRange.mk (a * 1000000) (b * 1000000).

Let said (a b : Z) (words : string) : AsrSegmentDraft.t :=
  AsrSegmentDraft.mk (seconds a b) (CueText.mk (literal words) None) Confidence.unknown 0 1 Unchanged.

Let chunk (index a b : Z) (segments : list AsrSegmentDraft.t) : ChunkSegments.t :=
  ChunkSegments.mk (PlannedChunk.mk (mkOpaqueId []) index (seconds a b)) segments [].

Definition first_chunk : ChunkSegments.t :=
  chunk 0 0 30 [said 2 10 "We begin here."; said 18 30 "Then the plan is done."]%string.
Definition second_chunk : ChunkSegments.t :=
  chunk 1 25 55 [said 27 30 "plan is done"; said 31 34 "Next."; said 44 50 "And so on."]%string.
Definition third_chunk : ChunkSegments.t := chunk 2 50 80 [said 51 58 "The end."]%string.
End Example.

Definition times (segments : list MergedSegment.t) : list (Z * Span) :=
  (fun s => (MergedSegment.chunk s, segment_span s)) <$> segments.

Lemma first_goes_on :
  run_goes_on [first_chunk] [second_chunk; third_chunk] (ChunkSegments.chunk second_chunk)
    (reach_of (ChunkSegments.chunk second_chunk) MAX_EARLY_AUDIO_MICROS).
Proof.
  split.
  - repeat constructor; concrete.
  - repeat (constructor; [concrete|]). constructor.
  - done.
  - repeat (constructor; [concrete|]). constructor.
  - intros d c Hc Hd. set_unfold in Hc. destruct Hc as [->|[->|[]]]; set_unfold in Hd; destruct_or?; subst; done || concrete.
  - intros r c Hc Hr. set_unfold in Hc. destruct Hc as [->|[->|[]]]; set_unfold in Hr; done.
  - intros c [= <-]. concrete.
Qed.

Lemma second_goes_on :
  run_goes_on ([first_chunk] ++ [second_chunk]) [third_chunk] (ChunkSegments.chunk third_chunk)
    (reach_of (ChunkSegments.chunk third_chunk) MAX_EARLY_AUDIO_MICROS).
Proof.
  split.
  - repeat constructor; concrete.
  - repeat (constructor; [concrete|]). constructor.
  - done.
  - repeat (constructor; [concrete|]). constructor.
  - intros d c Hc Hd. set_unfold in Hc. destruct Hc as [->|[]]; set_unfold in Hd; destruct_or?; subst; done || concrete.
  - intros r c Hc Hr. set_unfold in Hc. destruct Hc as [->|[]]; set_unfold in Hr; done.
  - intros c [= <-]. concrete.
Qed.

Lemma settled_part_is_final_witness :
  let settled := settled_merge (H := ascii_tables) [first_chunk] (Some (ChunkSegments.chunk second_chunk))
                   MAX_EARLY_AUDIO_MICROS in
  SettledTranscript.settled_until settled = 18000000
  /\ times (SettledTranscript.segments settled) = [(0, (2000000, 10000000))]
  /\ Forall (fun s => (segment_span s).2 < SettledTranscript.settled_until settled)
       (SettledTranscript.segments settled).
Proof.
  cbn zeta. split; [vm_compute; reflexivity|]. split; [vm_compute; reflexivity|].
  destruct (settled_part_is_final (H := ascii_tables) [first_chunk] [second_chunk; third_chunk]
              (ChunkSegments.chunk second_chunk) MAX_EARLY_AUDIO_MICROS first_goes_on) as (_ & Hs & _).
  exact Hs.
Defined.

Lemma settled_part_grows_witness :
  let settled := settled_merge (H := ascii_tables) [first_chunk] (Some (ChunkSegments.chunk second_chunk))
                   MAX_EARLY_AUDIO_MICROS in
  let settled' := settled_merge (H := ascii_tables) ([first_chunk] ++ [second_chunk])
                    (Some (ChunkSegments.chunk third_chunk)) MAX_EARLY_AUDIO_MICROS in
  times (SettledTranscript.segments settled')
    = [(0, (2000000, 10000000)); (0, (18000000, 30000000)); (1, (31000000, 34000000))]
  /\ SettledTranscript.settled_until settled <= SettledTranscript.settled_until settled'
  /\ SettledTranscript.segments settled `prefix_of` SettledTranscript.segments settled'.
Proof.
  cbn zeta. split; [vm_compute; reflexivity|].
  destruct (settled_part_grows (H := ascii_tables) [first_chunk] [second_chunk] [third_chunk]
              (ChunkSegments.chunk second_chunk) (ChunkSegments.chunk third_chunk) MAX_EARLY_AUDIO_MICROS
              first_goes_on second_goes_on) as (Hu & Hp & _); [concrete|].
  split; [exact Hu|exact Hp].
Defined.
