(* ===== verification/Revision.v ===== *)
(** * Revision: transcript revisions and the rules that make text citable

    Models the second half of [crates/vsift-domain/src/transcript.rs]: the
    identity of a supplied file, the provenance of a segment and of a revision,
    the validation of a whole revision (sealed, open or stopped), the widening
    of a range to whole segments and the pages of a revision. *)

From S2P Require Import Prelude.
From S2P Require Import Text.
From S2P Require Import Timeline.
From S2P Require Import Spans.
From S2P Require Import Identity.
From S2P Require Import Pagination.
From S2P Require Import AsrPlan.
From S2P Require Import AsrRun.
From S2P Require Import Cues.
From S2P Require Import AsrOutput.
From S2P Require Import SeamMerge.

Definition MAX_SUPPLIED_TRANSCRIPT_BYTES : Z := 8 * 1024 * 1024.
Definition MAX_CARRIED_UNTRANSCRIBED : Z := 1024.

(** ** Provenance *)

Module SidecarIdentity.
Record t := mk { sha256 : text; size : Z }.

Definition new (sha256 : text) (size : Z) : result t TranscriptRevisionError :=
  if negb (length sha256 =? SHA256_HEX_LENGTH)%nat
     || negb (forallb (fun byte => is_ascii_digit byte || is_hex_letter byte) sha256)
     || (size =? 0) || (MAX_SUPPLIED_TRANSCRIPT_BYTES <? size)
  then Err InvalidSidecar
  else Ok (mk sha256 size).
End SidecarIdentity.

Inductive SegmentOrigin :=
| CueOrigin (cue : CueSource.t) (timing : CueTiming.t)
| AsrOrigin (chunk : Z) (provider_start provider_end : ChunkTime) (trimmed : ProviderEndTrim).

Inductive TranscriptProvenance :=
| Imported (format : TranscriptFormat) (sidecar : SidecarIdentity.t) (offset : TranscriptOffset.t)
| LocalAsr (run : AsrRun.t).

Definition is_pending (record : AsrChunkRecord.t) : bool :=
  match AsrChunkRecord.outcome record with Pending => true | _ => false end.

Definition is_not_reached (record : AsrChunkRecord.t) : bool :=
  match AsrChunkRecord.outcome record with NotReached => true | _ => false end.

Definition is_local (p : TranscriptProvenance) : bool :=
  match p with LocalAsr _ => true | Imported _ _ _ => false end.

Definition growth (p : TranscriptProvenance) : bool * bool :=
  match p with
  | LocalAsr run => (existsb is_pending (AsrRun.chunks run), existsb is_not_reached (AsrRun.chunks run))
  | Imported _ _ _ => (false, false)
  end.

Definition provenance_alignment (p : TranscriptProvenance) : AlignmentOrigin :=
  match p with
  | Imported format _ _ => alignment_origin format
  | LocalAsr _ => LocalAsrOrigin
  end.

Module CarriedFrom.
Record t := mk { revision : OpaqueId TranscriptRevisionId; segment : OpaqueId TranscriptSegmentId }.
End CarriedFrom.

Module InheritedRevision.
Record t := mk {
  id : OpaqueId TranscriptRevisionId;
  provenance : TranscriptProvenance;
  language : option LanguageTag.t
}.
End InheritedRevision.

(** ** Segments *)

Module TranscriptSegmentParts.
Record t := mk {
  id : OpaqueId TranscriptSegmentId;
  ordinal : Z;
  range : TimeRange.t;
  cue_text : CueText.t;
  speaker : option SpeakerLabel.t;
  confidence : Confidence.t;
  origin : SegmentOrigin
}.
End TranscriptSegmentParts.

Module TranscriptSegment.
Record t := mk {
  id : OpaqueId TranscriptSegmentId;
  ordinal : Z;
  range : TimeRange.t;
  cue_text : CueText.t;
  speaker : option SpeakerLabel.t;
  confidence : Confidence.t;
  origin : SegmentOrigin;
  carried_from : option CarriedFrom.t
}.

Definition new (parts : TranscriptSegmentParts.t) : t :=
  mk (TranscriptSegmentParts.id parts) (TranscriptSegmentParts.ordinal parts)
    (TranscriptSegmentParts.range parts) (TranscriptSegmentParts.cue_text parts)
    (TranscriptSegmentParts.speaker parts) (TranscriptSegmentParts.confidence parts)
    (TranscriptSegmentParts.origin parts) None.

Definition with_carried_from (s : t) (carried : CarriedFrom.t) : t :=
  mk (id s) (ordinal s) (range s) (cue_text s) (speaker s) (confidence s) (origin s) (Some carried).

Definition intersects (s : t) (window : TimeRange.t) : bool :=
  (TimeRange.start (range s) <? TimeRange.end_ window)
  && (TimeRange.start window <? TimeRange.end_ (range s)).

Definition start (s : t) : MediaTime := TimeRange.start (range s).
Definition end_ (s : t) : MediaTime := TimeRange.end_ (range s).

Definition is_own (s : t) : bool := match carried_from s with None => true | Some _ => false end.
End TranscriptSegment.

(** ** Revisions *)

Module TranscriptRevisionParts.
Record t := mk {
  id : OpaqueId TranscriptRevisionId;
  number : Z;
  source_id : DigestId SourceId;
  source_segment : SourceSegment.t;
  provenance : TranscriptProvenance;
  supersedes : option (OpaqueId TranscriptRevisionId);
  replaced_range : option TimeRange.t;
  inherited : list InheritedRevision.t;
  carried_untranscribed : list TimeRange.t;
  unplaced : list TimeRange.t;
  language : option LanguageTag.t;
  segments : list TranscriptSegment.t;
  warnings : TranscriptWarnings.t
}.
End TranscriptRevisionParts.

(** The fields of a revision are its parts and the time it is published until. *)
Module TranscriptRevision.
Record t := mk {
  id : OpaqueId TranscriptRevisionId;
  number : Z;
  source_id : DigestId SourceId;
  source_segment : SourceSegment.t;
  provenance : TranscriptProvenance;
  supersedes : option (OpaqueId TranscriptRevisionId);
  replaced_range : option TimeRange.t;
  inherited : list InheritedRevision.t;
  carried_untranscribed : list TimeRange.t;
  unplaced : list TimeRange.t;
  language : option LanguageTag.t;
  segments : list TranscriptSegment.t;
  warnings : TranscriptWarnings.t;
  published_until : option MediaTime
}.

Definition of_parts (p : TranscriptRevisionParts.t) (published_until : option MediaTime) : t :=
  mk (TranscriptRevisionParts.id p) (TranscriptRevisionParts.number p)
    (TranscriptRevisionParts.source_id p) (TranscriptRevisionParts.source_segment p)
    (TranscriptRevisionParts.provenance p) (TranscriptRevisionParts.supersedes p)
    (TranscriptRevisionParts.replaced_range p) (TranscriptRevisionParts.inherited p)
    (TranscriptRevisionParts.carried_untranscribed p) (TranscriptRevisionParts.unplaced p)
    (TranscriptRevisionParts.language p) (TranscriptRevisionParts.segments p)
    (TranscriptRevisionParts.warnings p) published_until.
End TranscriptRevision.

(** The parts a revision was made of. *)
Definition parts_of (r : TranscriptRevision.t) : TranscriptRevisionParts.t :=
  TranscriptRevisionParts.mk (TranscriptRevision.id r) (TranscriptRevision.number r)
    (TranscriptRevision.source_id r) (TranscriptRevision.source_segment r)
    (TranscriptRevision.provenance r) (TranscriptRevision.supersedes r)
    (TranscriptRevision.replaced_range r) (TranscriptRevision.inherited r)
    (TranscriptRevision.carried_untranscribed r) (TranscriptRevision.unplaced r)
    (TranscriptRevision.language r) (TranscriptRevision.segments r)
    (TranscriptRevision.warnings r).

Lemma parts_of_of_parts p until : parts_of (TranscriptRevision.of_parts p until) = p.
Proof. by destruct p. Qed.

Inductive RevisionState := Open | Sealed | Stopped.

Definition state_identifier (s : RevisionState) : text :=
  match s with
  | Open => literal "open"
  | Sealed => literal "sealed"
  | Stopped => literal "stopped"
  end.

Definition state_of (p : TranscriptProvenance) : RevisionState :=
  match growth p with
  | (true, _) => Open
  | (false, true) => Stopped
  | (false, false) => Sealed
  end.

(** ** The rules of a revision, each in the order the code applies it *)

Import TranscriptRevisionParts.

Definition within (bounds r : TimeRange.t) : bool :=
  negb ((TimeRange.start r <? TimeRange.start bounds) || (TimeRange.end_ bounds <? TimeRange.end_ r)).

Definition inherited_by_id (inherited : list InheritedRevision.t) (id : OpaqueId TranscriptRevisionId)
    : result InheritedRevision.t TranscriptRevisionError :=
  ok_or (find (fun entry => bool_decide (InheritedRevision.id entry = id)) inherited)
    InvalidCarriedSegment.

(** The loop over the inherited entries, with the identities seen. *)
Fixpoint check_inherited (parts : t) (seen : list (OpaqueId TranscriptRevisionId))
    (entries : list InheritedRevision.t) : result unit TranscriptRevisionError :=
  match entries with
  | [] => Ok tt
  | entry :: rest =>
      let id' := InheritedRevision.id entry in
      if bool_decide (id' = id parts) || bool_decide (id' ∈ seen) then Err InvalidCarriedSegment
      else
        let? _ := match InheritedRevision.provenance entry with
                  | LocalAsr run => map_err (fun _ => InvalidCarriedSegment)
                                      (AsrRun.validate_within run (source_segment parts))
                  | Imported _ _ _ => Ok tt
                  end in
        check_inherited parts (id' :: seen) rest
  end.

Definition validate_inherited (parts : t) : result unit TranscriptRevisionError :=
  match inherited parts with
  | [] => Ok tt
  | entries =>
      if negb (bool_decide (is_Some (supersedes parts))) || negb (is_local (provenance parts))
      then Err InvalidCarriedSegment
      else check_inherited parts [] entries
  end.

Definition validate_growth (parts : t) (until : MediaTime) (stopped : bool)
    : result unit TranscriptRevisionError :=
  if (TimeRange.end_ (SourceSegment.range (source_segment parts)) <? until)
     || existsb (fun s => (negb stopped || TranscriptSegment.is_own s)
                          && (until <? TranscriptSegment.start s)) (segments parts)
     || existsb (fun stretch => until <? TimeRange.end_ stretch) (unplaced parts)
  then Err InvalidGrowth
  else Ok tt.

Definition validate_carried_untranscribed (parts : t) (bounds : TimeRange.t)
    : result unit TranscriptRevisionError :=
  match carried_untranscribed parts with
  | [] => Ok tt
  | ranges =>
      let? replaced := ok_or (replaced_range parts) InvalidSupersession in
      if MAX_CARRIED_UNTRANSCRIBED <? Z.of_nat (length ranges) then Err InvalidSupersession
      else
        let listed := span <$> ranges in
        if negb (bool_decide (merged listed = listed))
           || existsb (fun range => negb (within bounds range)) ranges
           || existsb (fun entry => overlaps_any [span replaced] entry) listed
        then Err InvalidSupersession
        else Ok tt
  end.

Definition validate_unplaced (parts : t) (bounds : TimeRange.t) : result unit TranscriptRevisionError :=
  match unplaced parts with
  | [] => Ok tt
  | ranges =>
      match provenance parts with
      | Imported _ _ _ => Err InvalidAsrRun
      | LocalAsr run =>
          let? covered := ok_or (AsrRun.covered_range run) InvalidAsrRun in
          if (MAX_UNPLACED_STRETCHES <? length ranges)%nat then Err InvalidAsrRun
          else
            let? limits := ok_or (unplaced_limits covered bounds) InvalidAsrRun in
            let listed := span <$> ranges in
            if negb (bool_decide (merged listed = listed))
               || existsb (fun stretch => negb (within limits stretch)) ranges
            then Err InvalidAsrRun
            else Ok tt
      end
  end.

Definition validate_supersession (parts : t) (bounds : TimeRange.t)
    : result unit TranscriptRevisionError :=
  let invalid :=
    match supersedes parts, replaced_range parts, provenance parts with
    | Some _, _, Imported _ _ _ => true
    | None, Some _, _ => true
    | Some previous, replaced, LocalAsr _ =>
        bool_decide (previous = id parts)
        || match replaced with Some range => negb (within bounds range) | None => false end
    | None, None, _ => false
    end in
  if invalid then Err InvalidSupersession else Ok tt.

Definition validate_segment_origin (segment : TranscriptSegment.t) (provenance : TranscriptProvenance)
    : result unit TranscriptRevisionError :=
  match TranscriptSegment.origin segment, provenance with
  | CueOrigin _ timing, Imported _ _ offset =>
      if negb (TranscriptOffset.shift offset (CueTiming.start_micros timing)
               =? TranscriptSegment.start segment)
         || negb (TranscriptOffset.shift offset (CueTiming.end_micros timing)
                  =? TranscriptSegment.end_ segment)
      then Err AlignmentMismatch
      else if negb (bool_decide (TranscriptSegment.confidence segment = Confidence.unknown))
      then Err ManufacturedConfidence
      else Ok tt
  | AsrOrigin chunk provider_start provider_end trimmed, LocalAsr run =>
      let? record := ok_or (AsrRun.chunks run !! Z.to_nat chunk) OriginMismatch in
      match AsrChunkRecord.outcome record with
      | Transcribed audio =>
          let? expected := ok_or (asr_source_range audio provider_start provider_end trimmed)
                             AlignmentMismatch in
          if negb (bool_decide (expected = TranscriptSegment.range segment)) then Err AlignmentMismatch
          else if bool_decide (Confidence.origin (TranscriptSegment.confidence segment)
                               = ProviderCalibrated)
          then Err ManufacturedConfidence
          else Ok tt
      | _ => Err OriginMismatch
      end
  | CueOrigin _ _, LocalAsr _ | AsrOrigin _ _ _ _, Imported _ _ _ => Err OriginMismatch
  end.

(** The variables of the loop over the segments. *)
Record Checking := mkChecking {
  previous_start : MediaTime;
  identities : list (OpaqueId TranscriptSegmentId);
  carried_identities : list (OpaqueId TranscriptSegmentId)
}.

(** The provenance that made a segment, and the identities carried so far. *)
Definition provenance_for (parts : t) (rule : option EarlierTextRule.t)
    (carried_identities : list (OpaqueId TranscriptSegmentId)) (segment : TranscriptSegment.t)
    : result (TranscriptProvenance * list (OpaqueId TranscriptSegmentId)) TranscriptRevisionError :=
  match TranscriptSegment.carried_from segment with
  | None => Ok (provenance parts, carried_identities)
  | Some carried =>
      let original := CarriedFrom.segment carried in
      if bool_decide (original ∈ carried_identities)
         || negb match rule with
                 | Some rule => EarlierTextRule.carries rule (TranscriptSegment.range segment)
                 | None => false
                 end
      then Err InvalidCarriedSegment
      else
        let? entry := inherited_by_id (inherited parts) (CarriedFrom.revision carried) in
        Ok (InheritedRevision.provenance entry, original :: carried_identities)
  end.

(** One turn of the loop. *)
Definition check_segment (parts : t) (bounds : TimeRange.t) (rule : option EarlierTextRule.t)
    (state : Checking) (index : nat) (segment : TranscriptSegment.t)
    : result Checking TranscriptRevisionError :=
  let? expected := ok_or (checked_u32 (Z.of_nat index + 1)) TooManySegments in
  if negb (TranscriptSegment.ordinal segment =? expected) then Err OrdinalGap
  else if TranscriptSegment.start segment <? previous_start state then Err OutOfOrder
  else if negb (within bounds (TranscriptSegment.range segment)) then Err OutsideSourceSegment
  else
    let? found := provenance_for parts rule (carried_identities state) segment in
    let? _ := validate_segment_origin segment found.1 in
    if bool_decide (is_Some (TranscriptSegment.speaker segment))
       && negb (carries_speaker_labels (provenance_alignment found.1))
    then Err UnsupportedSpeaker
    else if bool_decide (TranscriptSegment.id segment ∈ identities state) then Err DuplicateSegment
    else Ok (mkChecking (TranscriptSegment.start segment)
               (TranscriptSegment.id segment :: identities state) found.2).

Fixpoint check_segments (parts : t) (bounds : TimeRange.t) (rule : option EarlierTextRule.t)
    (state : Checking) (index : nat) (l : list TranscriptSegment.t)
    : result Checking TranscriptRevisionError :=
  match l with
  | [] => Ok state
  | segment :: rest =>
      let? state := check_segment parts bounds rule state index segment in
      check_segments parts bounds rule state (S index) rest
  end.

Definition own_ranges (l : list TranscriptSegment.t) : list TimeRange.t :=
  TranscriptSegment.range <$> filter (fun s => TranscriptSegment.is_own s = true) l.

(** Which earlier text the revision may carry. *)
Definition rule_of (parts : t) (published_until : option MediaTime) : option EarlierTextRule.t :=
  match provenance parts, replaced_range parts with
  | LocalAsr run, Some replaced =>
      let rule := EarlierTextRule.new replaced run (own_ranges (segments parts)) in
      Some match published_until with
           | Some stopped_at =>
               if (growth (provenance parts)).2 then EarlierTextRule.stopped_at rule stopped_at else rule
           | None => rule
           end
  | _, _ => None
  end.

(** Whether a segment is carried from the entry. *)
Definition carried_from_entry (entry : InheritedRevision.t) (s : TranscriptSegment.t) : bool :=
  match TranscriptSegment.carried_from s with
  | Some carried => bool_decide (CarriedFrom.revision carried = InheritedRevision.id entry)
  | None => false
  end.

Definition validated (parts : t) (published_until : option MediaTime)
    : result TranscriptRevision.t TranscriptRevisionError :=
  if bool_decide (segments parts = []) && negb (is_local (provenance parts)) then Err Empty
  else if MAX_TRANSCRIPT_CUES <? Z.of_nat (length (segments parts)) then Err TooManySegments
  else
    let bounds := SourceSegment.range (source_segment parts) in
    let? _ := validate_supersession parts bounds in
    let? _ := match provenance parts with
              | LocalAsr run => AsrRun.validate_within run (source_segment parts)
              | Imported _ _ _ => Ok tt
              end in
    let? _ := validate_inherited parts in
    let? _ := validate_carried_untranscribed parts bounds in
    let? _ := validate_unplaced parts bounds in
    let? _ := check_segments parts bounds (rule_of parts published_until)
                (mkChecking (TimeRange.start bounds) [] []) 0 (segments parts) in
    if existsb (fun entry => negb (existsb (carried_from_entry entry) (segments parts))) (inherited parts)
    then Err InvalidCarriedSegment
    else Ok (TranscriptRevision.of_parts parts published_until).

Definition new (parts : t) : result TranscriptRevision.t TranscriptRevisionError :=
  if negb (bool_decide (growth (provenance parts) = (false, false))) then Err InvalidGrowth
  else validated parts None.

Definition new_open (parts : t) (published_until : MediaTime)
    : result TranscriptRevision.t TranscriptRevisionError :=
  if negb (bool_decide (growth (provenance parts) = (true, false))) then Err InvalidGrowth
  else
    let? _ := validate_growth parts published_until false in
    validated parts (Some published_until).

Definition new_stopped (parts : t) (stopped_at : MediaTime)
    : result TranscriptRevision.t TranscriptRevisionError :=
  if negb (bool_decide (growth (provenance parts) = (false, true))) then Err InvalidGrowth
  else
    let? _ := validate_growth parts stopped_at true in
    validated parts (Some stopped_at).

(** ** What is asked of a revision *)

Definition state (r : TranscriptRevision.t) : RevisionState := state_of (TranscriptRevision.provenance r).

Definition segment_source (r : TranscriptRevision.t) (s : TranscriptSegment.t)
    : option InheritedRevision.t :=
  carried ← TranscriptSegment.carried_from s;
  find (fun entry => bool_decide (InheritedRevision.id entry = CarriedFrom.revision carried))
    (TranscriptRevision.inherited r).

Definition segment_provenance (r : TranscriptRevision.t) (s : TranscriptSegment.t)
    : TranscriptProvenance :=
  match segment_source r s with
  | Some entry => InheritedRevision.provenance entry
  | None => TranscriptRevision.provenance r
  end.

Definition segment_language (r : TranscriptRevision.t) (s : TranscriptSegment.t)
    : option LanguageTag.t :=
  match segment_source r s with
  | Some entry => InheritedRevision.language entry
  | None => TranscriptRevision.language r
  end.

(** [absorb]: the range joined with a finished chain it meets. *)
Definition absorb (requested : TimeRange.t) (range chain : Span) : Span :=
  if (chain.1 <? TimeRange.end_ requested) && (TimeRange.start requested <? chain.2)
  then (Z.min range.1 chain.1, Z.max range.2 chain.2)
  else range.

(** One turn of the loop: the range so far and the chain being built. *)
Definition snap_step (requested : TimeRange.t) (state : Span * option Span) (s : TranscriptSegment.t)
    : Span * option Span :=
  let here := span (TranscriptSegment.range s) in
  match state.2 with
  | Some chain =>
      if here.1 <? chain.2 then (state.1, Some (chain.1, Z.max chain.2 here.2))
      else (absorb requested state.1 chain, Some here)
  | None => (state.1, Some here)
  end.

Definition snap_to_segments (r : TranscriptRevision.t) (requested : TimeRange.t) : TimeRange.t :=
  let state := fold_left (snap_step requested) (TranscriptRevision.segments r) (span requested, None) in
  let range := match state.2 with Some chain => absorb requested state.1 chain | None => state.1 end in
  match TimeRange.new range.1 range.2 with Ok snapped => snapped | Err _ => requested end.

Module TranscriptSlice.
Record t := mk { segments : list TranscriptSegment.t; has_more : bool }.
End TranscriptSlice.

(** The loop of [page], with the segments gathered so far. *)
Fixpoint page_loop (window : TimeRange.t) (limit : PageLimit.t) (gathered l : list TranscriptSegment.t)
    : TranscriptSlice.t :=
  match l with
  | [] => TranscriptSlice.mk gathered false
  | s :: rest =>
      if TimeRange.end_ window <=? TranscriptSegment.start s then TranscriptSlice.mk gathered false
      else if negb (TranscriptSegment.intersects s window) then page_loop window limit gathered rest
      else if Z.of_nat (length gathered) =? PageLimit.value limit then TranscriptSlice.mk gathered true
      else page_loop window limit (gathered ++ [s]) rest
  end.

Definition page (r : TranscriptRevision.t) (window : TimeRange.t) (after : option Z)
    (limit : PageLimit.t) : TranscriptSlice.t :=
  let skip := match after with Some ordinal => Z.to_nat ordinal | None => 0%nat end in
  page_loop window limit [] (drop skip (TranscriptRevision.segments r)).

(** ** Specification *)

(** What the private fields of the values of a segment and of a provenance
    always satisfy. *)
Definition origin_typed (o : SegmentOrigin) : Prop :=
  match o with
  | CueOrigin _ timing => CueTiming.wf timing
  | AsrOrigin chunk provider_start provider_end _ =>
      is_u32 chunk /\ is_u64 provider_start /\ is_u64 provider_end
  end.

Definition segment_typed (s : TranscriptSegment.t) : Prop :=
  TimeRange.wf (TranscriptSegment.range s) /\ origin_typed (TranscriptSegment.origin s).

Definition run_typed (run : AsrRun.t) : Prop :=
  windows_wf (AsrRun.chunks run)
  /\ Forall (fun c => match AsrChunkRecord.outcome c with
                      | Transcribed audio => TimeRange.wf audio
                      | _ => True
                      end) (AsrRun.chunks run).

Definition provenance_typed (p : TranscriptProvenance) : Prop :=
  match p with
  | Imported _ _ offset => TranscriptOffset.wf offset
  | LocalAsr run => run_typed run
  end.

Record parts_typed (parts : t) : Prop := {
  typed_source : TimeRange.wf (SourceSegment.range (source_segment parts));
  typed_provenance : provenance_typed (provenance parts);
  typed_replaced : forall r, replaced_range parts = Some r -> TimeRange.wf r;
  typed_inherited : Forall (fun e => provenance_typed (InheritedRevision.provenance e)) (inherited parts);
  typed_untranscribed : Forall TimeRange.wf (carried_untranscribed parts);
  typed_unplaced : Forall TimeRange.wf (unplaced parts);
  typed_segments : Forall segment_typed (segments parts)
}.

(** A segment's time and score follow from what its origin says and from the
    provenance that made it. *)
Definition derived (p : TranscriptProvenance) (s : TranscriptSegment.t) : Prop :=
  match TranscriptSegment.origin s, p with
  | CueOrigin _ timing, Imported _ _ offset =>
      TranscriptSegment.start s = CueTiming.start_micros timing + TranscriptOffset.as_micros offset
      /\ TranscriptSegment.end_ s = CueTiming.end_micros timing + TranscriptOffset.as_micros offset
      /\ TranscriptSegment.confidence s = Confidence.unknown
  | AsrOrigin chunk provider_start provider_end trimmed, LocalAsr run =>
      exists record audio,
        AsrRun.chunks run !! Z.to_nat chunk = Some record
        /\ AsrChunkRecord.outcome record = Transcribed audio
        /\ TranscriptSegment.start s = TimeRange.start audio + provider_start
        /\ provider_start < provider_end
        /\ TranscriptSegment.start s < TimeRange.end_ audio
        /\ match trimmed with
           | Unchanged =>
               TranscriptSegment.end_ s = TimeRange.start audio + provider_end
               /\ TranscriptSegment.end_ s <= TimeRange.end_ audio
           | TrimmedToAudioEnd =>
               TranscriptSegment.end_ s = TimeRange.end_ audio
               /\ TimeRange.end_ audio < TimeRange.start audio + provider_end
               /\ provider_end <= provider_end_limit (TimeRange.end_ audio - TimeRange.start audio)
           end
        /\ Confidence.origin (TranscriptSegment.confidence s) <> ProviderCalibrated
  | _, _ => False
  end.

(** The provenance a segment was made by: the revision's own, or that of the
    earlier revision it names. *)
Definition made_by (parts : t) (s : TranscriptSegment.t) (p : TranscriptProvenance) : Prop :=
  match TranscriptSegment.carried_from s with
  | None => p = provenance parts
  | Some carried => exists entry, entry ∈ inherited parts
      /\ InheritedRevision.id entry = CarriedFrom.revision carried
      /\ p = InheritedRevision.provenance entry
  end.

(** A segment re-derived, whose speaker only a WebVTT file may have named. *)
Definition citable (parts : t) (s : TranscriptSegment.t) : Prop :=
  exists p, made_by parts s p /\ derived p s
    /\ (is_Some (TranscriptSegment.speaker s) -> provenance_alignment p = ImportedWebVtt).

Definition run_in (source : SourceSegment.t) (run : AsrRun.t) : Prop :=
  exists covered, AsrRun.covered_range run = Some covered
    /\ range_within covered (SourceSegment.range source)
    /\ Forall (fun c => PlannedChunk.source_segment (AsrChunkRecord.chunk c) = SourceSegment.id source)
         (AsrRun.chunks run).

Definition provenance_in (source : SourceSegment.t) (p : TranscriptProvenance) : Prop :=
  match p with LocalAsr run => run_in source run | Imported _ _ _ => True end.

Definition carried_ids (l : list TranscriptSegment.t) : list (OpaqueId TranscriptSegmentId) :=
  omap (fun s => CarriedFrom.segment <$> TranscriptSegment.carried_from s) l.

(** A carried segment lies where the rule for earlier text keeps it. *)
Definition rightly_carried (rule : option EarlierTextRule.t) (s : TranscriptSegment.t) : Prop :=
  TranscriptSegment.is_own s = false ->
  exists rule', rule = Some rule' /\ EarlierTextRule.carries rule' (TranscriptSegment.range s) = true.

(** The segments, one by one and together. *)
Record segments_consistent (parts : t) (rule : option EarlierTextRule.t) : Prop := {
  ordinals_count : TranscriptSegment.ordinal <$> segments parts
                   = seqZ 1 (Z.of_nat (length (segments parts)));
  starts_sorted : StronglySorted Z.le (TranscriptSegment.start <$> segments parts);
  inside_source : Forall (fun s => range_within (TranscriptSegment.range s)
                                     (SourceSegment.range (source_segment parts))) (segments parts);
  distinct_ids : NoDup (TranscriptSegment.id <$> segments parts);
  carried_once : NoDup (carried_ids (segments parts));
  all_citable : Forall (citable parts) (segments parts);
  all_rightly_carried : Forall (rightly_carried rule) (segments parts)
}.

Record consistent (parts : t) (published_until : option MediaTime) : Prop := {
  has_text : segments parts <> [] \/ is_local (provenance parts) = true;
  few_segments : Z.of_nat (length (segments parts)) <= MAX_TRANSCRIPT_CUES;
  replaces_something : is_Some (replaced_range parts) -> is_Some (supersedes parts);
  only_runs_supersede : is_Some (supersedes parts) -> is_local (provenance parts) = true;
  not_itself : supersedes parts <> Some (id parts);
  replaced_inside : forall r, replaced_range parts = Some r ->
                      range_within r (SourceSegment.range (source_segment parts));
  run_inside : provenance_in (source_segment parts) (provenance parts);
  inherits_by_superseding : inherited parts <> [] -> is_Some (supersedes parts);
  inherited_distinct : NoDup (id parts :: (InheritedRevision.id <$> inherited parts));
  inherited_inside : Forall (fun e => provenance_in (source_segment parts)
                                        (InheritedRevision.provenance e)) (inherited parts);
  inherited_used : Forall (fun e => Exists (fun s => carried_from_entry e s = true) (segments parts))
                     (inherited parts);
  untranscribed_outside : carried_untranscribed parts <> [] ->
    exists replaced, replaced_range parts = Some replaced
      /\ Z.of_nat (length (carried_untranscribed parts)) <= MAX_CARRIED_UNTRANSCRIBED
      /\ canonical (span <$> carried_untranscribed parts)
      /\ Forall (fun r => range_within r (SourceSegment.range (source_segment parts)))
           (carried_untranscribed parts)
      /\ forall x, covers (span <$> carried_untranscribed parts) x -> ~ in_span (span replaced) x;
  unplaced_inside : unplaced parts <> [] ->
    exists run covered, provenance parts = LocalAsr run /\ AsrRun.covered_range run = Some covered
      /\ (length (unplaced parts) <= MAX_UNPLACED_STRETCHES)%nat
      /\ canonical (span <$> unplaced parts)
      /\ Forall (fun r => range_within r covered
                          /\ range_within r (SourceSegment.range (source_segment parts))) (unplaced parts);
  segments_good : segments_consistent parts (rule_of parts published_until)
}.

(** The rules a growing or stopped revision adds. *)
Definition grown (parts : t) (until : MediaTime) (stopped : bool) : Prop :=
  until <= TimeRange.end_ (SourceSegment.range (source_segment parts))
  /\ Forall (fun s => stopped = false \/ TranscriptSegment.is_own s = true ->
                      TranscriptSegment.start s <= until) (segments parts)
  /\ Forall (fun r => TimeRange.end_ r <= until) (unplaced parts).

(** ** The validators, one by one *)

Lemma within_spec bounds r : within bounds r = true <-> range_within r bounds.
Proof. unfold within, range_within. rewrite negb_true_iff, orb_false_iff, !Z.ltb_ge. done. Qed.

Lemma outside_none bounds l :
  existsb (fun r => negb (within bounds r)) l = false <-> Forall (fun r => range_within r bounds) l.
Proof.
  rewrite existsb_false. apply Forall_iff. intros r. by rewrite negb_false_iff, within_spec.
Qed.

(** A list that merging leaves as it is is canonical. *)
Lemma merged_fixed (ranges : list TimeRange.t) :
  Forall TimeRange.wf ranges ->
  merged (span <$> ranges) = span <$> ranges <-> canonical (span <$> ranges).
Proof.
  intros Hr. destruct (merged_ranges ranges Hr) as [Hc Hcov]. split; [by intros <-|].
  intros Hcan. apply (canon_unique (-1)); [done|done|]. intros x. rewrite (Hcov x).
  unfold covers. by rewrite Exists_fmap.
Qed.

Lemma validate_within_spec run source :
  AsrRun.validate_within run source = Ok tt <-> run_in source run.
Proof.
  unfold AsrRun.validate_within, run_in, range_within. rewrite bind_Ok.
  setoid_rewrite ok_or_Ok. split; intros (covered & Hc & H); exists covered; split; try done.
  - apply guard_Ok in H as [H _]. rewrite !orb_false_iff, !Z.ltb_ge, existsb_false in H.
    destruct H as [[H ?] ?]. split; [done|]. eapply Forall_impl; [exact H|].
    intros c Hc'. by rewrite negb_false_iff, bool_decide_eq_true in Hc'.
  - apply guard_Ok. split; [|done]. rewrite !orb_false_iff, !Z.ltb_ge, existsb_false.
    destruct H as ([? ?] & H). split; [split; [|done]|done]. eapply Forall_impl; [exact H|].
    intros c Hc'. by rewrite negb_false_iff, bool_decide_eq_true.
Qed.

Lemma provenance_in_spec {E} (e : E) source p :
  match p with
  | LocalAsr run => map_err (fun _ => e) (AsrRun.validate_within run source)
  | Imported _ _ _ => Ok tt
  end = Ok tt <-> provenance_in source p.
Proof. destruct p; cbn; [done|]. by rewrite map_err_Ok, validate_within_spec. Qed.

Lemma check_inherited_spec parts seen entries :
  check_inherited parts seen entries = Ok tt
  <-> NoDup (InheritedRevision.id <$> entries)
      /\ Forall (fun e => InheritedRevision.id e <> id parts /\ (InheritedRevision.id e ∉ seen)
                          /\ provenance_in (source_segment parts) (InheritedRevision.provenance e)) entries.
Proof.
  revert seen. induction entries as [|e entries IH]; intros seen; cbn [check_inherited fmap list_fmap].
  { split; [by repeat constructor|done]. }
  rewrite guard_Ok, orb_false_iff, !bool_decide_eq_false, bind_Ok, NoDup_cons, Forall_cons.
  setoid_rewrite IH. setoid_rewrite not_elem_of_cons. split.
  - intros ((H1 & H2) & [] & H3 & H4 & H5). rewrite provenance_in_spec in H3.
    split; [split; [|done]|split; [done|]].
    + intros (e' & He & Hin)%list_elem_of_fmap. rewrite Forall_forall in H5.
      destruct (H5 e' Hin) as (_ & [Hne _] & _). by rewrite He in Hne.
    + eapply Forall_impl; [exact H5|]. naive_solver.
  - intros ((H1 & H2) & (H3 & H4 & H5) & H6). split; [done|]. exists tt. rewrite provenance_in_spec.
    split; [done|]. split; [done|]. rewrite Forall_forall in H6 |- *. intros e' Hin.
    destruct (H6 e' Hin) as (? & ? & ?). split; [done|]. split; [split; [|done]|done].
    intros He. apply H1. rewrite <- He. by apply list_elem_of_fmap_2.
Qed.

Lemma validate_inherited_spec parts :
  validate_inherited parts = Ok tt
  <-> (inherited parts <> [] -> is_Some (supersedes parts) /\ is_local (provenance parts) = true)
      /\ NoDup (id parts :: (InheritedRevision.id <$> inherited parts))
      /\ Forall (fun e => provenance_in (source_segment parts) (InheritedRevision.provenance e))
           (inherited parts).
Proof.
  unfold validate_inherited. destruct (inherited parts) as [|e l] eqn:El.
  { split; [|done]. intros _. split; [done|]. split; [|constructor]. apply NoDup_singleton. }
  rewrite <- El. rewrite guard_Ok, orb_false_iff, !negb_false_iff, bool_decide_eq_true,
    check_inherited_spec, NoDup_cons. split.
  - intros ((H1 & H2) & H3 & H4). split; [done|]. split; [split; [|done]|].
    + intros (e' & He & Hin)%list_elem_of_fmap. rewrite Forall_forall in H4. by destruct (H4 e' Hin).
    + eapply Forall_impl; [exact H4|]. naive_solver.
  - intros (H1 & (H2 & H3) & H4). split; [apply H1; by rewrite El|]. split; [done|].
    rewrite Forall_forall in H4 |- *. intros e' Hin. split; [|split; [apply not_elem_of_nil|by apply H4]].
    intros He. apply H2. rewrite <- He. by apply list_elem_of_fmap_2.
Qed.

Lemma validate_growth_spec parts until stopped :
  validate_growth parts until stopped = Ok tt <-> grown parts until stopped.
Proof.
  unfold validate_growth, grown. rewrite guard_Ok, !orb_false_iff, Z.ltb_ge, !existsb_false.
  setoid_rewrite Z.ltb_ge. setoid_rewrite andb_false_iff. setoid_rewrite orb_false_iff.
  setoid_rewrite negb_false_iff. setoid_rewrite Z.ltb_ge.
  enough (Hiff : forall l, Forall (fun s => stopped = true /\ TranscriptSegment.is_own s = false
                                  \/ TranscriptSegment.start s <= until) l
            <-> Forall (fun s => stopped = false \/ TranscriptSegment.is_own s = true ->
                                 TranscriptSegment.start s <= until) l) by (rewrite Hiff; tauto).
  intros l. apply Forall_iff. intros s. destruct stopped, (TranscriptSegment.is_own s); naive_solver.
Qed.

Lemma validate_supersession_spec parts bounds :
  validate_supersession parts bounds = Ok tt
  <-> (is_Some (replaced_range parts) -> is_Some (supersedes parts))
      /\ (is_Some (supersedes parts) -> is_local (provenance parts) = true)
      /\ supersedes parts <> Some (id parts)
      /\ forall r, replaced_range parts = Some r -> range_within r bounds.
Proof.
  unfold validate_supersession. cbn zeta. rewrite guard_Ok.
  destruct (supersedes parts) as [previous|], (replaced_range parts) as [r|], (provenance parts) eqn:Ep;
    cbn [is_local]; rewrite ?orb_false_r, ?orb_false_iff, ?bool_decide_eq_false, ?negb_false_iff,
      ?within_spec; unfold is_Some; naive_solver.
Qed.

(** No span of a list shares an instant with a range. *)
Lemma none_overlaps (replaced : TimeRange.t) (ranges : list TimeRange.t) :
  TimeRange.wf replaced -> Forall TimeRange.wf ranges ->
  existsb (fun entry => overlaps_any [span replaced] entry) (span <$> ranges) = false
  <-> forall x, covers (span <$> ranges) x -> ~ in_span (span replaced) x.
Proof.
  intros Hr Hw. rewrite existsb_false, Forall_fmap, Forall_forall.
  assert (Hc : canonical [span replaced]) by (destruct Hr as (? & ? & ?); cbn; ulia).
  assert (Hone : forall r, r ∈ ranges ->
    overlaps_any [span replaced] (span r) = false
    <-> forall x, in_span (span r) x -> ~ in_span (span replaced) x).
  { intros r Hin. rewrite Forall_forall in Hw. destruct (Hw r Hin) as (_ & _ & Hlt).
    rewrite <- not_true_iff_false, (overlaps_any_spec _ (span r) Hc Hlt).
    setoid_rewrite covers_cons. setoid_rewrite covers_nil. naive_solver. }
  unfold covers. setoid_rewrite Exists_fmap. setoid_rewrite Exists_exists. split.
  - intros H x (r & Hin & Hx). by apply Hone in Hx; [|done|apply H].
  - intros H r Hin. apply Hone; [done|]. intros x Hx. apply H. by exists r.
Qed.

Lemma validate_carried_untranscribed_spec parts :
  parts_typed parts ->
  validate_carried_untranscribed parts (SourceSegment.range (source_segment parts)) = Ok tt
  <-> (carried_untranscribed parts <> [] ->
       exists replaced, replaced_range parts = Some replaced
         /\ Z.of_nat (length (carried_untranscribed parts)) <= MAX_CARRIED_UNTRANSCRIBED
         /\ canonical (span <$> carried_untranscribed parts)
         /\ Forall (fun r => range_within r (SourceSegment.range (source_segment parts)))
              (carried_untranscribed parts)
         /\ forall x, covers (span <$> carried_untranscribed parts) x -> ~ in_span (span replaced) x).
Proof.
  intros Ht. pose proof (typed_untranscribed parts Ht) as Hw. unfold validate_carried_untranscribed.
  destruct (carried_untranscribed parts) as [|r l] eqn:El; [done|]. rewrite <- El in Hw |- *.
  rewrite bind_Ok. setoid_rewrite ok_or_Ok. setoid_rewrite guard_Ok. cbn zeta. setoid_rewrite guard_Ok.
  assert (Hiff : forall replaced, replaced_range parts = Some replaced ->
    (MAX_CARRIED_UNTRANSCRIBED <? Z.of_nat (length (carried_untranscribed parts))) = false
    /\ (negb (bool_decide (merged (span <$> carried_untranscribed parts) = span <$> carried_untranscribed parts))
        || existsb (fun r => negb (within (SourceSegment.range (source_segment parts)) r))
             (carried_untranscribed parts)
        || existsb (fun entry => overlaps_any [span replaced] entry) (span <$> carried_untranscribed parts))
       = false
    <-> Z.of_nat (length (carried_untranscribed parts)) <= MAX_CARRIED_UNTRANSCRIBED
        /\ canonical (span <$> carried_untranscribed parts)
        /\ Forall (fun r => range_within r (SourceSegment.range (source_segment parts)))
             (carried_untranscribed parts)
        /\ forall x, covers (span <$> carried_untranscribed parts) x -> ~ in_span (span replaced) x).
  { intros replaced Hr. rewrite Z.ltb_ge, !orb_false_iff, negb_false_iff, bool_decide_eq_true, outside_none,
      (merged_fixed _ Hw), (none_overlaps replaced _ (typed_replaced parts Ht _ Hr) Hw). tauto. }
  split.
  - intros (replaced & Hr & H1 & H2 & _) _. exists replaced. split; [done|]. by apply Hiff.
  - intros H. destruct H as (replaced & Hr & H); [by rewrite El|]. exists replaced. split; [done|].
    apply (Hiff _ Hr) in H as [H1 H2]. by split.
Qed.

Lemma covered_range_wf run covered :
  run_typed run -> AsrRun.covered_range run = Some covered -> TimeRange.wf covered.
Proof.
  intros [Hw _] Hc. unfold AsrRun.covered_range in Hc. unfold windows_wf in Hw. rewrite Forall_forall in Hw.
  destruct (head _) as [first|] eqn:Eh; [|done]. destruct (last _) as [final|] eqn:El; [|done].
  cbn [mbind option_bind] in Hc. rewrite head_lookup in Eh. apply list_elem_of_lookup_2 in Eh.
  apply last_Some_elem_of in El. destruct (Hw _ Eh) as (? & _ & _), (Hw _ El) as (_ & ? & _).
  by apply TimeRange_new_Ok in Hc as (? & _ & _).
Qed.

Lemma validate_unplaced_spec parts :
  parts_typed parts -> provenance_in (source_segment parts) (provenance parts) ->
  validate_unplaced parts (SourceSegment.range (source_segment parts)) = Ok tt
  <-> (unplaced parts <> [] ->
       exists run covered, provenance parts = LocalAsr run /\ AsrRun.covered_range run = Some covered
         /\ (length (unplaced parts) <= MAX_UNPLACED_STRETCHES)%nat
         /\ canonical (span <$> unplaced parts)
         /\ Forall (fun r => range_within r covered
                             /\ range_within r (SourceSegment.range (source_segment parts)))
              (unplaced parts)).
Proof.
  intros Ht Hin. pose proof (typed_unplaced parts Ht) as Hw. unfold validate_unplaced.
  pose proof (typed_provenance parts Ht) as Hp.
  destruct (unplaced parts) as [|r l] eqn:El; [done|]. rewrite <- El in Hw |- *.
  destruct (provenance parts) as [|run].
  { split; [done|]. intros H. destruct H as (? & ? & ? & _); [by rewrite El|done]. }
  destruct Hin as (covered & Hc & Hwithin & _). rewrite Hc. cbn [ok_or result_bind].
  pose proof (covered_range_wf run covered Hp Hc) as Hcw.
  assert (Hl : unplaced_limits covered (SourceSegment.range (source_segment parts)) = Some covered).
  { unfold unplaced_limits. destruct Hwithin as [H1 H2]. rewrite Z.max_l, Z.min_l by lia.
    unfold TimeRange.new. destruct Hcw as (_ & _ & Hlt). rewrite (proj2 (Z.leb_gt _ _)) by done.
    by destruct covered. }
  rewrite guard_Ok, Nat.ltb_ge, Hl. cbn [ok_or result_bind]. cbn zeta.
  rewrite guard_Ok, orb_false_iff, negb_false_iff, bool_decide_eq_true, outside_none, (merged_fixed _ Hw).
  split.
  - intros (H1 & (H2 & H3) & _) _. exists run, covered. do 4 (split; [done|]).
    eapply Forall_impl; [exact H3|]. unfold range_within in *. lia.
  - intros H. destruct H as (run' & covered' & [= <-] & Hc' & H1 & H2 & H3); [by rewrite El|].
    rewrite Hc in Hc'. injection Hc' as <-. split; [done|]. split; [|done]. split; [done|].
    eapply Forall_impl; [exact H3|]. by intros ? [? _].
Qed.

(** The place of a recognized segment, both ways. *)
Lemma asr_source_range_exact audio provider_start provider_end trimmed r :
  TimeRange.wf audio -> is_u64 provider_start -> is_u64 provider_end ->
  asr_source_range audio provider_start provider_end trimmed = Some r
  <-> TimeRange.start r = TimeRange.start audio + provider_start
      /\ provider_start < provider_end
      /\ TimeRange.start r < TimeRange.end_ audio
      /\ match trimmed with
         | Unchanged =>
             TimeRange.end_ r = TimeRange.start audio + provider_end
             /\ TimeRange.end_ r <= TimeRange.end_ audio
         | TrimmedToAudioEnd =>
             TimeRange.end_ r = TimeRange.end_ audio
             /\ TimeRange.end_ audio < TimeRange.start audio + provider_end
             /\ provider_end <= provider_end_limit (TimeRange.end_ audio - TimeRange.start audio)
         end.
Proof.
  intros Ha Hs He. unfold asr_source_range. rewrite (duration_exact _ Ha). cbn zeta.
  destruct Ha as (Ha1 & Ha2 & Ha3). destruct r as [rs re]. cbn [TimeRange.start TimeRange.end_].
  assert (Hnew : forall s e, s < e -> TimeRange.new s e = Ok (TimeRange.mk s e)).
  { intros s e Hlt. unfold TimeRange.new. by rewrite (proj2 (Z.leb_gt _ _)) by lia. }
  destruct (_ || _) eqn:E.
  { split; [done|]. apply orb_true_iff in E. rewrite !Z.leb_le in E. lia. }
  apply orb_false_iff in E. rewrite !Z.leb_gt in E. unfold checked_u64.
  rewrite (checked_in _ _ (TimeRange.start audio + provider_start)) by ulia. cbn [mbind option_bind]. destruct trimmed.
  - destruct (_ <=? _) eqn:El; bool_prop; [|split; [done|lia]].
    rewrite checked_in by ulia. cbn [mbind option_bind]. rewrite Hnew by lia. cbn [result_ok].
    split; [intros [= <- <-]; lia|]. intros (-> & _ & _ & -> & _). done.
  - destruct (_ && _) eqn:El; bool_prop.
    + cbn [mbind option_bind]. rewrite Hnew by lia. cbn [result_ok].
      split; [intros [= <- <-]; lia|]. intros (-> & _ & _ & -> & _). done.
    + split; [done|]. rewrite Z.ltb_ge, Z.leb_gt in El. lia.
Qed.

Lemma validate_segment_origin_spec s p :
  segment_typed s -> provenance_typed p -> validate_segment_origin s p = Ok tt <-> derived p s.
Proof.
  intros [Hr Ho] Hp. unfold validate_segment_origin, derived.
  destruct (TranscriptSegment.origin s) as [cue timing|chunk ps pe trimmed], p as [f sc offset|run];
    cbn [origin_typed provenance_typed] in *; try done.
  - destruct Ho as (Ht1 & Ht2 & _). rewrite !(shift_exact _ Hp) by done.
    rewrite !guard_Ok, orb_false_iff, !negb_false_iff, !Z.eqb_eq, bool_decide_eq_true. naive_solver lia.
  - destruct Hp as [_ Ha]. destruct Ho as (_ & H2 & H3). rewrite bind_Ok. setoid_rewrite ok_or_Ok.
    assert (Hone : forall record audio, AsrRun.chunks run !! Z.to_nat chunk = Some record ->
      AsrChunkRecord.outcome record = Transcribed audio ->
      (asr_source_range audio ps pe trimmed = Some (TranscriptSegment.range s))
      <-> TranscriptSegment.start s = TimeRange.start audio + ps /\ ps < pe
          /\ TranscriptSegment.start s < TimeRange.end_ audio
          /\ match trimmed with
             | Unchanged => TranscriptSegment.end_ s = TimeRange.start audio + pe
                            /\ TranscriptSegment.end_ s <= TimeRange.end_ audio
             | TrimmedToAudioEnd =>
                 TranscriptSegment.end_ s = TimeRange.end_ audio
                 /\ TimeRange.end_ audio < TimeRange.start audio + pe
                 /\ pe <= provider_end_limit (TimeRange.end_ audio - TimeRange.start audio)
             end).
    { intros record audio Hl Hout. apply list_elem_of_lookup_2 in Hl. rewrite Forall_forall in Ha.
      specialize (Ha _ Hl). rewrite Hout in Ha. by apply asr_source_range_exact. }
    split.
    + intros (record & Hl & H). destruct (AsrChunkRecord.outcome record) as [audio| | | | |] eqn:Eo; try done.
      apply bind_Ok in H as (r & Hrange & H). apply ok_or_Ok in Hrange. rewrite !guard_Ok, negb_false_iff,
        bool_decide_eq_true, bool_decide_eq_false in H. destruct H as (-> & Hcal & _).
      apply (Hone record audio Hl Eo) in Hrange. exists record, audio. tauto.
    + intros (record & audio & Hl & Hout & H). exists record. split; [done|]. rewrite Hout.
      apply bind_Ok. exists (TranscriptSegment.range s). rewrite ok_or_Ok, (Hone record audio Hl Hout).
      rewrite !guard_Ok, negb_false_iff, bool_decide_eq_true, bool_decide_eq_false. tauto.
Qed.

(** ** The loop over the segments *)

Section Loop.
Context (parts : t) (rule : option EarlierTextRule.t) (Ht : parts_typed parts).
Context (Hdistinct : NoDup (InheritedRevision.id <$> inherited parts)).

Let bounds := SourceSegment.range (source_segment parts).

Lemma inherited_by_id_spec i entry :
  inherited_by_id (inherited parts) i = Ok entry
  <-> entry ∈ inherited parts /\ InheritedRevision.id entry = i.
Proof.
  unfold inherited_by_id. rewrite ok_or_Ok. revert Hdistinct. generalize (inherited parts) as l.
  induction l as [|e l IH]; cbn [find fmap list_fmap]; intros Hd.
  { split; [done|]. by intros [?%not_elem_of_nil _]. }
  apply NoDup_cons in Hd as [Hn Hd]. rewrite elem_of_cons. case_bool_decide as E.
  - split; [intros [= <-]; tauto|]. intros [[->|Hin] He]; [done|]. exfalso. apply Hn. rewrite E, <- He.
    by apply list_elem_of_fmap_2.
  - rewrite (IH Hd). naive_solver.
Qed.

Lemma provenance_for_spec cs s p cs' :
  provenance_for parts rule cs s = Ok (p, cs')
  <-> made_by parts s p /\ rightly_carried rule s
      /\ (forall x, x ∈ carried_ids [s] -> x ∉ cs) /\ cs' = carried_ids [s] ++ cs.
Proof.
  unfold provenance_for, made_by, rightly_carried, carried_ids, TranscriptSegment.is_own.
  cbn [omap list_omap]. destruct (TranscriptSegment.carried_from s) as [carried|]; cbn [fmap option_fmap option_map app].
  2:{ setoid_rewrite elem_of_nil. naive_solver. }
  rewrite guard_Ok, orb_false_iff, bool_decide_eq_false, negb_false_iff, bind_Ok.
  setoid_rewrite inherited_by_id_spec. setoid_rewrite list_elem_of_singleton. split.
  - intros ((H1 & H2) & e & (H3 & H4) & [= <- <-]). split; [by exists e|]. split; [|naive_solver].
    intros _. by destruct rule as [rule'|]; [exists rule'|].
  - intros ((e & H1 & H2 & ->) & H3 & H4 & ->). destruct (H3 eq_refl) as (rule' & -> & H5).
    split; [split; [by apply H4|done]|]. by exists e.
Qed.

Lemma made_by_typed s p : made_by parts s p -> provenance_typed p.
Proof.
  unfold made_by. destruct (TranscriptSegment.carried_from s); [|intros ->; apply Ht].
  intros (e & Hin & _ & ->). pose proof (typed_inherited parts Ht) as Hi. rewrite Forall_forall in Hi.
  by apply Hi.
Qed.

Lemma speaker_allowed (s : TranscriptSegment.t) p :
  bool_decide (is_Some (TranscriptSegment.speaker s))
  && negb (carries_speaker_labels (provenance_alignment p)) = false
  <-> (is_Some (TranscriptSegment.speaker s) -> provenance_alignment p = ImportedWebVtt).
Proof.
  rewrite andb_false_iff, bool_decide_eq_false, negb_false_iff.
  unfold is_Some. destruct (TranscriptSegment.speaker s), (provenance_alignment p); cbn; naive_solver.
Qed.

Lemma check_segment_spec st i s st' :
  segment_typed s -> is_u32 (Z.of_nat i + 1) ->
  check_segment parts bounds rule st i s = Ok st'
  <-> TranscriptSegment.ordinal s = Z.of_nat i + 1
      /\ previous_start st <= TranscriptSegment.start s
      /\ range_within (TranscriptSegment.range s) bounds
      /\ citable parts s /\ rightly_carried rule s
      /\ (TranscriptSegment.id s ∉ identities st)
      /\ (forall x, x ∈ carried_ids [s] -> x ∉ carried_identities st)
      /\ st' = mkChecking (TranscriptSegment.start s) (TranscriptSegment.id s :: identities st)
                 (carried_ids [s] ++ carried_identities st).
Proof.
  intros Hs Hi. unfold check_segment, checked_u32. rewrite checked_in by exact Hi. cbn [ok_or result_bind].
  rewrite !guard_Ok, negb_false_iff, Z.eqb_eq, Z.ltb_ge, negb_false_iff, within_spec, bind_Ok.
  setoid_rewrite bind_Ok. setoid_rewrite guard_Ok. setoid_rewrite guard_Ok.
  setoid_rewrite bool_decide_eq_false. setoid_rewrite speaker_allowed. split.
  - intros (H1 & H2 & H3 & [p cs'] & Hp & [] & Ho & H4 & H5 & [= <-]). cbn [fst snd] in *.
    apply provenance_for_spec in Hp as (Hm & Hc & Hcs & ->).
    apply validate_segment_origin_spec in Ho; [|done|by eapply made_by_typed].
    do 3 (split; [done|]). split; [by exists p|]. by do 3 (split; [done|]).
  - intros (H1 & H2 & H3 & (p & Hm & Hd & Hsp) & Hc & Hid & Hcs & ->). do 3 (split; [done|]).
    exists (p, carried_ids [s] ++ carried_identities st). rewrite provenance_for_spec.
    split; [done|]. exists tt. cbn [fst snd]. rewrite validate_segment_origin_spec by (done || by eapply made_by_typed).
    done.
Qed.

Lemma carried_ids_cons s l : carried_ids (s :: l) = carried_ids [s] ++ carried_ids l.
Proof. unfold carried_ids. cbn. by destruct (TranscriptSegment.carried_from s). Qed.

Lemma carried_ids_one_nodup s : NoDup (carried_ids [s]).
Proof.
  unfold carried_ids. cbn. destruct (TranscriptSegment.carried_from s); [apply NoDup_singleton|constructor].
Qed.

Lemma check_segments_spec l st i :
  Forall segment_typed l -> is_u32 (Z.of_nat i + Z.of_nat (length l)) ->
  is_ok (check_segments parts bounds rule st i l) = true
  <-> TranscriptSegment.ordinal <$> l = seqZ (Z.of_nat i + 1) (Z.of_nat (length l))
      /\ StronglySorted Z.le (previous_start st :: (TranscriptSegment.start <$> l))
      /\ Forall (fun s => range_within (TranscriptSegment.range s) bounds) l
      /\ (NoDup (TranscriptSegment.id <$> l)
          /\ forall x, x ∈ TranscriptSegment.id <$> l -> x ∉ identities st)
      /\ (NoDup (carried_ids l) /\ forall x, x ∈ carried_ids l -> x ∉ carried_identities st)
      /\ Forall (citable parts) l /\ Forall (rightly_carried rule) l.
Proof.
  revert st i. induction l as [|s l IH]; intros st i Hty Hlen; cbn [check_segments fmap list_fmap].
  { split; [|done]. intros _. split; [done|]. split; [by repeat constructor|]. split; [done|].
    split; [split; [constructor|by intros x ?%not_elem_of_nil]|].
    split; [split; [constructor|by intros x ?%not_elem_of_nil]|done]. }
  apply Forall_cons in Hty as [Hs Hty]. cbn [length] in *.
  rewrite (seqZ_cons _ (Z.of_nat (S (length l)))) by lia.
  replace (Z.succ (Z.of_nat i + 1)) with (Z.of_nat (S i) + 1) by lia.
  replace (Z.pred (Z.of_nat (S (length l)))) with (Z.of_nat (length l)) by lia.
  rewrite carried_ids_cons, NoDup_cons, NoDup_app, !Forall_cons.
  setoid_rewrite elem_of_app. setoid_rewrite elem_of_cons.
  destruct (check_segment parts bounds rule st i s) as [st'|e] eqn:E; cbn [result_bind].
  - apply check_segment_spec in E as (H1 & H2 & H3 & H4 & H5 & H6 & H7 & ->); [|done|ulia].
    rewrite IH by (done || ulia). cbn [previous_start identities carried_identities].
    setoid_rewrite not_elem_of_cons. setoid_rewrite not_elem_of_app.
    pose proof (carried_ids_one_nodup s) as Hnd. split.
    + intros (-> & I2 & I3 & [I4 I5] & [I6 I7] & I8 & I9). split; [by rewrite H1|].
      split. { constructor; [done|]. apply StronglySorted_inv in I2 as [I2 I2']. constructor; [done|].
        eapply Forall_impl; [exact I2'|]. cbn. lia. }
      split; [done|]. split; [split; [split; [|done]|]|].
      { intros Hin. by destruct (I5 _ Hin) as [? _]. }
      { intros x [->|Hin]; [done|]. by destruct (I5 _ Hin). }
      split; [|done]. split; [split; [done|split; [|done]]|].
      { intros x Hx Hin. by destruct (I7 _ Hin). }
      { intros x [Hx|Hin]; [by apply H7|]. by destruct (I7 _ Hin). }
    + intros (I1 & I2 & [_ I3] & [[I4 I4'] I5] & [(_ & I6 & I6') I7] & [_ I8] & [_ I9]).
      injection I1 as _ I1. split; [done|]. split; [by apply StronglySorted_inv in I2 as [? _]|].
      split; [done|]. split; [split; [done|]|].
      { intros x Hin. split; [intros ->; done|]. apply I5. by right. }
      split; [|done]. split; [done|]. intros x Hin. split; [|apply I7; by right].
      intros Hx. by apply (I6 x).
  - split; [done|].
    intros (I1 & I2 & [I3 _] & [[I4 I4'] I5] & [(_ & I6 & I6') I7] & [I8 _] & [I9 _]). exfalso.
    injection I1 as I1 _. apply StronglySorted_inv in I2 as [_ I2]. apply Forall_cons in I2 as [I2 _].
    assert (Hok : exists st', check_segment parts bounds rule st i s = Ok st').
    { eexists. apply check_segment_spec; [done|ulia|]. do 5 (split; [done|]).
      split; [apply I5; by left|]. split; [|done]. intros x Hx. apply I7. by left. }
    destruct Hok as [st' Hok]. congruence.
Qed.
End Loop.

(** ** The constructors *)

Lemma loop_spec parts rule :
  parts_typed parts -> NoDup (InheritedRevision.id <$> inherited parts) ->
  Z.of_nat (length (segments parts)) <= MAX_TRANSCRIPT_CUES ->
  (exists st, check_segments parts (SourceSegment.range (source_segment parts)) rule
                (mkChecking (TimeRange.start (SourceSegment.range (source_segment parts))) [] []) 0
                (segments parts) = Ok st)
  <-> segments_consistent parts rule.
Proof.
  intros Ht Hd Hlen. unfold MAX_TRANSCRIPT_CUES in Hlen.
  pose proof (check_segments_spec parts rule Ht Hd (segments parts)
    (mkChecking (TimeRange.start (SourceSegment.range (source_segment parts))) [] []) 0
    (typed_segments parts Ht) ltac:(ulia)) as Hspec.
  match goal with |- (exists st, ?r = _) <-> _ => set (res := r) in * end.
  assert (Hok : (exists st, res = Ok st) <-> is_ok res = true).
  { destruct res; cbn; split; [done|by eexists|by intros [? ?]|done]. }
  rewrite Hok, Hspec. cbn [previous_start identities carried_identities].
  rewrite StronglySorted_cons. split.
  - intros (H1 & [_ H2] & H3 & [H4 _] & [H5 _] & H6 & H7). by constructor.
  - intros [H1 H2 H3 H4 H5 H6 H7]. split; [exact H1|].
    assert (Hnone : forall A (x : A), x ∉ []) by (intros; apply not_elem_of_nil).
    split; [|by repeat split]. split; [|done]. apply Forall_fmap.
    eapply Forall_impl; [exact H3|]. by intros s [? _].
Qed.

Lemma validated_spec parts until r :
  parts_typed parts ->
  validated parts until = Ok r <-> consistent parts until /\ r = TranscriptRevision.of_parts parts until.
Proof.
  intros Ht. unfold validated. cbn zeta. rewrite !guard_Ok, Z.ltb_ge, andb_false_iff, bool_decide_eq_false,
    negb_false_iff.
  rewrite bind_Ok. setoid_rewrite bind_Ok. setoid_rewrite bind_Ok. setoid_rewrite bind_Ok.
  setoid_rewrite bind_Ok. setoid_rewrite bind_Ok.
  assert (Hused : existsb (fun entry => negb (existsb (carried_from_entry entry) (segments parts)))
                    (inherited parts) = false
    <-> Forall (fun e => Exists (fun s => carried_from_entry e s = true) (segments parts)) (inherited parts)).
  { rewrite existsb_false. apply Forall_iff. intros e.
    rewrite negb_false_iff, existsb_exists, Exists_exists. by setoid_rewrite list_elem_of_In. }
  split.
  - intros (H1 & H2 & [] & Hsup & [] & Hrun & [] & Hinh & [] & Hunt & [] & Hunp & st & Hloop & Hu).
    apply guard_Ok in Hu as [Hu [= <-]].
    split; [|done]. apply validate_supersession_spec in Hsup as (S1 & S2 & S3 & S4).
    apply validate_inherited_spec in Hinh as (I1 & I2 & I3).
    assert (Hin : provenance_in (source_segment parts) (provenance parts)).
    { destruct (provenance parts); [done|]. by apply validate_within_spec. }
    rewrite validate_carried_untranscribed_spec in Hunt by done.
    rewrite validate_unplaced_spec in Hunp by done. apply Hused in Hu.
    pose proof (proj1 (loop_spec parts (rule_of parts until) Ht (NoDup_cons_1_2 _ _ I2) H2)
                  (ex_intro _ st Hloop)).
    constructor; try done. intros Hne. by destruct (I1 Hne).
  - intros [[H1 H2 S1 S2 S3 S4 Hin I1 I2 I3 I4 U1 U2 Hg] ->]. split; [done|]. split; [done|].
    exists tt. rewrite validate_supersession_spec. split; [done|]. exists tt.
    split. { destruct (provenance parts); [done|]. by apply validate_within_spec. }
    exists tt. rewrite validate_inherited_spec. split. { split; [|done]. intros Hne. split; auto. }
    exists tt. rewrite validate_carried_untranscribed_spec by done. split; [done|].
    exists tt. rewrite validate_unplaced_spec by done. split; [done|].
    apply (loop_spec parts _ Ht (NoDup_cons_1_2 _ _ I2) H2) in Hg as [st Hst]. exists st.
    split; [done|]. apply guard_Ok. by rewrite Hused.
Qed.

Lemma constructors_spec parts until r :
  parts_typed parts ->
  (new parts = Ok r <->
     state_of (provenance parts) = Sealed /\ consistent parts None
     /\ r = TranscriptRevision.of_parts parts None)
  /\ (new_open parts until = Ok r <->
     growth (provenance parts) = (true, false) /\ grown parts until false
     /\ consistent parts (Some until) /\ r = TranscriptRevision.of_parts parts (Some until))
  /\ (new_stopped parts until = Ok r <->
     state_of (provenance parts) = Stopped /\ grown parts until true
     /\ consistent parts (Some until) /\ r = TranscriptRevision.of_parts parts (Some until)).
Proof.
  intros Ht. unfold new, new_open, new_stopped, state_of.
  rewrite !guard_Ok, !negb_false_iff, !bool_decide_eq_true, !bind_Ok.
  repeat setoid_rewrite (validated_spec _ _ _ Ht).
  assert (Hgrown : forall stopped (P : Prop),
    (exists a, validate_growth parts until stopped = Ok a /\ P) <-> grown parts until stopped /\ P).
  { intros stopped P. rewrite <- validate_growth_spec. split; [intros ([] & ? & ?); done|by exists tt]. }
  rewrite !Hgrown. destruct (growth (provenance parts)) as [[] []]; naive_solver.
Qed.

(** The three constructors accept a revision exactly when every one of its
    rules holds: whole, in order, inside its source, with distinct identities,
    each segment's time and score re-derived from the provenance that made it,
    each carried segment where the rule for earlier text keeps it, and what it
    records of the parts not transcribed in canonical form; the constructor
    used fixes the state of the revision. Claim C8. *)
Theorem revision_accepted_exactly parts until r :
  parts_typed parts ->
  (new parts = Ok r <->
     state_of (provenance parts) = Sealed /\ consistent parts None
     /\ r = TranscriptRevision.of_parts parts None)
  /\ (new_open parts until = Ok r <->
     growth (provenance parts) = (true, false) /\ grown parts until false
     /\ consistent parts (Some until) /\ r = TranscriptRevision.of_parts parts (Some until))
  /\ (new_stopped parts until = Ok r <->
     state_of (provenance parts) = Stopped /\ grown parts until true
     /\ consistent parts (Some until) /\ r = TranscriptRevision.of_parts parts (Some until)).
Proof. apply constructors_spec. Qed.

(** A seven-second import with one cue, and the same revision with a speaker
    the format cannot carry. *)
Definition sample_segment : TranscriptSegment.t :=
  TranscriptSegment.mk (mkOpaqueId (literal "tsg_a")) 1 (TimeRange.mk 1500000 2500000)
    (CueText.mk (literal "hello") None) None Confidence.unknown
    (CueOrigin (CueSource.mk 1 2) (CueTiming.mk 1000000 2000000)) None.

Definition sample_parts (speaker : option SpeakerLabel.t) : t :=
  mk (mkOpaqueId (literal "trv_a")) 1 (mkDigestId [])
    (SourceSegment.mk (mkOpaqueId []) 0 (TimeRange.mk 0 7000000) Closed)
    (Imported Srt (SidecarIdentity.mk [] 10) (TranscriptOffset.mk 500000))
    None None [] [] [] None
    [TranscriptSegment.mk (TranscriptSegment.id sample_segment) 1 (TranscriptSegment.range sample_segment)
       (TranscriptSegment.cue_text sample_segment) speaker Confidence.unknown
       (TranscriptSegment.origin sample_segment) None] [].

Lemma sample_parts_typed speaker : parts_typed (sample_parts speaker).
Proof.
  constructor; cbn; [concrete|concrete|done|constructor|constructor|constructor|].
  constructor; [split; concrete|constructor].
Qed.

Lemma revision_accepted_exactly_witness :
  exists r, new (sample_parts None) = Ok r /\ consistent (sample_parts None) None
            /\ state r = Sealed
            /\ new (sample_parts (Some (SpeakerLabel.mk []))) = Err UnsupportedSpeaker.
Proof.
  assert (E : new (sample_parts None) = Ok (TranscriptRevision.of_parts (sample_parts None) None))
    by (vm_compute; reflexivity).
  eexists. split; [exact E|].
  destruct (revision_accepted_exactly (sample_parts None) 0
              (TranscriptRevision.of_parts (sample_parts None) None)
              (sample_parts_typed None)) as [[H _] _].
  destruct (H E) as (_ & Hc & _). split; [exact Hc|]. split; vm_compute; reflexivity.
Defined.

(** ** Widening to whole segments *)

(** Every segment that meets the range lies inside it. *)
Definition closed_under (l : list TranscriptSegment.t) (r : TimeRange.t) : Prop :=
  Forall (fun s => TranscriptSegment.intersects s r = true ->
                   range_within (TranscriptSegment.range s) r) l.

(** The same, of spans. *)
Definition meets (a b : Span) : Prop := a.1 < b.2 /\ b.1 < a.2.
Definition inside (a b : Span) : Prop := b.1 <= a.1 /\ a.2 <= b.2.
Definition here (s : TranscriptSegment.t) : Span := span (TranscriptSegment.range s).
Definition closed_span (l : list TranscriptSegment.t) (r : Span) : Prop :=
  Forall (fun s => meets (here s) r -> inside (here s) r) l.

Lemma closed_under_spec l r : closed_under l r <-> closed_span l (span r).
Proof.
  apply Forall_iff. intros s. unfold TranscriptSegment.intersects, meets, inside, range_within, here.
  rewrite andb_true_iff, !Z.ltb_lt. done.
Qed.

Section Snap.
Context (requested : TimeRange.t) (Hreq : TimeRange.wf requested).

Let req := span requested.

(** What the loop keeps: the range holds the request, the chain reaches past
    everything done, every segment done either lies in the chain or ends before
    it and is inside the range if it meets it, and both are forced. *)
Record snapping (l : list TranscriptSegment.t) (range chain : Span) : Prop := {
  snap_holds : inside req range;
  snap_end : range.2 <= Z.max req.2 chain.1;
  snap_start : range.1 < req.1 -> req.1 < chain.1;
  snap_chain : chain.1 < chain.2;
  snap_done : Forall (fun s => inside (here s) chain
                       \/ (here s).2 <= chain.1 /\ (meets (here s) range -> inside (here s) range)) l;
  snap_forced : forall wider, inside req wider -> closed_span l wider ->
                  inside range wider /\ (meets chain wider -> inside chain wider)
}.

(** The range once the chain is finished. *)
Lemma absorb_chain l range chain :
  snapping l range chain ->
  let range' := absorb requested range chain in
  inside req range' /\ range'.2 <= Z.max req.2 chain.2
  /\ (range'.1 < req.1 -> req.1 < chain.2)
  /\ Forall (fun s => (here s).2 <= chain.2 /\ (meets (here s) range' -> inside (here s) range')) l
  /\ forall wider, inside req wider -> closed_span l wider -> inside range' wider.
Proof.
  intros [H1 H2 H3 H4 H5 H6]. destruct Hreq as (_ & _ & Hlt).
  assert (Hreq' : req.1 < req.2) by exact Hlt.
  unfold absorb. change (TimeRange.end_ requested) with req.2.
  change (TimeRange.start requested) with req.1.
  unfold inside, meets in *. destruct (_ && _) eqn:E; bool_prop; cbn [fst snd].
  - split; [lia|]. split; [lia|]. split; [lia|]. split.
    + eapply Forall_impl; [exact H5|]. intros s. cbn [fst snd]. lia.
    + intros wider Hw Hcl. specialize (H6 wider Hw Hcl). cbn [fst snd] in H6. lia.
  - split; [lia|]. split; [lia|]. split; [lia|]. split.
    + eapply Forall_impl; [exact H5|]. intros s. cbn [fst snd]. destruct E as [E|E]; bool_prop; lia.
    + intros wider Hw Hcl. by apply H6.
Qed.

Lemma snap_step_spec l range chain s :
  snapping l range chain -> TimeRange.wf (TranscriptSegment.range s) -> chain.1 <= (here s).1 ->
  exists range' chain', snap_step requested (range, Some chain) s = (range', Some chain')
    /\ snapping (l ++ [s]) range' chain' /\ chain'.1 <= (here s).1.
Proof.
  intros Hsn (_ & _ & Hs) Hle. unfold snap_step. cbn [fst snd]. fold (here s).
  assert (Hs' : (here s).1 < (here s).2) by exact Hs. clear Hs.
  assert (Hq : req.1 < req.2) by apply Hreq.
  destruct ((here s).1 <? chain.2) eqn:E; bool_prop.
  - eexists _, _. split; [reflexivity|]. destruct Hsn as [H1 H2 H3 H4 H5 H6]. split; [|exact Hle].
    unfold inside, meets in *. constructor; cbn [fst snd]; try (done || lia).
    + apply Forall_app. split; [|constructor; [|done]].
      * eapply Forall_impl; [exact H5|]. unfold inside, meets. cbn [fst snd]. intros x. lia.
      * left. unfold inside. cbn [fst snd]. lia.
    + intros wider Hw Hcl. apply Forall_app in Hcl as [Hcl Hcs]. apply Forall_cons in Hcs as [Hcs _].
      destruct (H6 wider Hw Hcl) as [H7 H8]. unfold inside, meets in *. cbn [fst snd] in *. lia.
  - destruct (absorb_chain l range chain Hsn) as (H1 & H2 & H3 & H4 & H5). eexists _, _.
    split; [reflexivity|]. split; [|lia]. unfold inside, meets in *. constructor; cbn [fst snd]; try (done || lia).
    + apply Forall_app. split; [|constructor; [left; unfold inside; lia|done]].
      eapply Forall_impl; [exact H4|]. unfold inside, meets. cbn [fst snd]. lia.
    + intros wider Hw Hcl. apply Forall_app in Hcl as [Hcl Hcs]. apply Forall_cons in Hcs as [Hcs _].
      unfold inside, meets in *. specialize (H5 wider Hw Hcl). cbn [fst snd] in *. lia.
Qed.

Lemma snap_loop_spec todo l range chain :
  snapping l range chain -> Forall (fun s => TimeRange.wf (TranscriptSegment.range s)) todo ->
  StronglySorted Z.le (chain.1 :: (TranscriptSegment.start <$> todo)) ->
  exists range' chain', fold_left (snap_step requested) todo (range, Some chain) = (range', Some chain')
    /\ snapping (l ++ todo) range' chain'.
Proof.
  revert l range chain. induction todo as [|s todo IH]; intros l range chain Hsn Hw Hso.
  { exists range, chain. by rewrite app_nil_r. }
  apply Forall_cons in Hw as [Hs Hw]. apply StronglySorted_cons in Hso as [Hall Hso].
  apply Forall_cons in Hall as [Hle _]. cbn [fold_left].
  destruct (snap_step_spec l range chain s Hsn Hs Hle) as (r1 & c1 & -> & Hsn1 & Hle1).
  rewrite cons_middle, app_assoc. apply IH; [done|done|].
  apply StronglySorted_cons in Hso as [Hall Hso]. constructor; [done|].
  eapply Forall_impl; [exact Hall|]. intros a Ha. etransitivity; [exact Hle1|exact Ha].
Qed.
End Snap.

Lemma snap_spec r requested :
  TimeRange.wf requested -> Forall segment_typed (TranscriptRevision.segments r) ->
  StronglySorted Z.le (TranscriptSegment.start <$> TranscriptRevision.segments r) ->
  exists range, snap_to_segments r requested = TimeRange.mk range.1 range.2
    /\ inside (span requested) range /\ closed_span (TranscriptRevision.segments r) range
    /\ forall wider, inside (span requested) wider -> closed_span (TranscriptRevision.segments r) wider ->
         inside range wider.
Proof.
  intros Hreq Hty Hso.
  assert (Hnew : forall range : Span, inside (span requested) range ->
    match TimeRange.new range.1 range.2 with Ok snapped => snapped | Err _ => requested end
    = TimeRange.mk range.1 range.2).
  { intros range [H1 H2]. unfold TimeRange.new. destruct Hreq as (_ & _ & Hlt). cbn [span fst snd] in *.
    by rewrite (proj2 (Z.leb_gt _ _)) by lia. }
  assert (Hw : Forall (fun s => TimeRange.wf (TranscriptSegment.range s)) (TranscriptRevision.segments r))
    by (eapply Forall_impl; [exact Hty|]; by intros s [? _]).
  unfold snap_to_segments. cbn zeta. destruct (TranscriptRevision.segments r) as [|s l].
  { exists (span requested). cbn [fold_left fst snd]. rewrite Hnew by (by split). split; [done|].
    split; [by split|]. split; [constructor|done]. }
  apply Forall_cons in Hw as [Hs Hw]. cbn [fold_left].
  change (snap_step requested (span requested, None) s) with (span requested, Some (here s)).
  assert (Hfirst : snapping requested [s] (span requested) (here s)).
  { assert (Hs' : (here s).1 < (here s).2) by apply Hs. constructor; unfold inside; try lia.
    - constructor; [left; lia|constructor].
    - intros wider Hin Hcl. apply Forall_cons in Hcl as [Hcl _]. split; [exact Hin|exact Hcl]. }
  destruct (snap_loop_spec requested Hreq l [s] _ _ Hfirst Hw Hso) as (range & chain & -> & Hsn).
  cbn [fst snd app] in *. destruct (absorb_chain requested Hreq _ _ _ Hsn) as (H1 & _ & _ & H4 & H5).
  exists (absorb requested range chain). rewrite Hnew by done. split; [done|]. split; [done|].
  split; [|exact H5]. eapply Forall_impl; [exact H4|]. intros a [_ Ha]. exact Ha.
Qed.

(** Widening a range to whole segments gives the least range that holds the
    request and cuts no segment in two: every segment that meets it lies inside
    it, and any other such range that holds the request holds this one. A range
    that no segment meets is left as it is. Claim C29. *)
Theorem snap_is_least r requested :
  TimeRange.wf requested -> Forall segment_typed (TranscriptRevision.segments r) ->
  StronglySorted Z.le (TranscriptSegment.start <$> TranscriptRevision.segments r) ->
  let snapped := snap_to_segments r requested in
  TimeRange.wf snapped
  /\ range_within requested snapped
  /\ closed_under (TranscriptRevision.segments r) snapped
  /\ (forall wider, range_within requested wider -> closed_under (TranscriptRevision.segments r) wider ->
        range_within snapped wider)
  /\ (Forall (fun s => TranscriptSegment.intersects s requested = false) (TranscriptRevision.segments r) ->
      snapped = requested).
Proof.
  intros Hreq Hty Hso. cbn zeta.
  destruct (snap_spec r requested Hreq Hty Hso) as (range & -> & Hin & Hcl & Hleast).
  assert (Hall : inside range (0, U64_MAX)).
  { apply Hleast; [destruct Hreq as (? & ? & _); split; cbn; ulia|]. eapply Forall_impl; [exact Hty|].
    intros s [(? & ? & _) _] _. split; cbn; ulia. }
  destruct Hin as [I1 I2], Hall as [A1 A2]. destruct requested as [rs re], Hreq as (R1 & R2 & R3).
  destruct range as [a b]. cbn [span fst snd TimeRange.start TimeRange.end_] in *.
  split; [split; [cbn; ulia|split; [cbn; ulia|cbn; lia]]|]. split; [by split|].
  split; [by apply closed_under_spec|]. split.
  - intros wider H1 H2. apply closed_under_spec in H2. by apply (Hleast (span wider)).
  - intros Hnone. destruct (Hleast (rs, re)) as [H1 H2]; [by split| |cbn in *; f_equal; lia].
    apply (closed_under_spec _ (TimeRange.mk rs re)). eapply Forall_impl; [exact Hnone|].
    intros s Hs Hmeets. congruence.
Qed.

(** A minute and a half of segments: the request meets the second of two that
    overlap and the one after, so it grows over all three. *)
Definition sample_revision (ranges : list TimeRange.t) : TranscriptRevision.t :=
  let cue (entry : nat * TimeRange.t) :=
    TranscriptSegment.mk (mkOpaqueId []) (Z.of_nat entry.1 + 1) entry.2 (CueText.mk (literal "words") None)
      None Confidence.unknown
      (CueOrigin (CueSource.mk (Z.of_nat entry.1 + 1) 1)
         (CueTiming.mk (TimeRange.start entry.2) (TimeRange.end_ entry.2))) None in
  TranscriptRevision.mk (mkOpaqueId (literal "trv_a")) 1 (mkDigestId [])
    (SourceSegment.mk (mkOpaqueId []) 0 (TimeRange.mk 0 90000000) Closed)
    (Imported Srt (SidecarIdentity.mk [] 10) (TranscriptOffset.mk 0))
    None None [] [] [] None (cue <$> enumerate ranges) [] None.

Definition sample_ranges : list TimeRange.t :=
  [TimeRange.mk 0 2000000; TimeRange.mk 1000000 3000000; TimeRange.mk 3000000 4000000;
   TimeRange.mk 5000000 6000000].

Lemma sample_ranges_typed : Forall segment_typed (TranscriptRevision.segments (sample_revision sample_ranges)).
Proof. repeat (constructor; [split; concrete|]). constructor. Qed.

Lemma sample_ranges_sorted :
  StronglySorted Z.le (TranscriptSegment.start <$> TranscriptRevision.segments (sample_revision sample_ranges)).
Proof. vm_compute. repeat constructor; intros; discriminate. Qed.

Lemma snap_is_least_witness :
  let r := sample_revision sample_ranges in
  let snapped := snap_to_segments r (TimeRange.mk 2500000 3500000) in
  snapped = TimeRange.mk 0 4000000 /\ closed_under (TranscriptRevision.segments r) snapped
  /\ snap_to_segments r (TimeRange.mk 4000000 5000000) = TimeRange.mk 4000000 5000000.
Proof.
  cbn zeta.
  destruct (snap_is_least (sample_revision sample_ranges) (TimeRange.mk 2500000 3500000))
    as (_ & _ & Hc & _); [concrete|apply sample_ranges_typed|apply sample_ranges_sorted|].
  split; [vm_compute; reflexivity|]. split; [exact Hc|]. vm_compute. reflexivity.
Defined.

(** A revision as its constructors leave it. *)
Record readable (r : TranscriptRevision.t) : Prop := {
  readable_number : 0 < TranscriptRevision.number r <= U32_MAX;
  readable_few : Z.of_nat (length (TranscriptRevision.segments r)) <= MAX_TRANSCRIPT_CUES;
  readable_ordinals : TranscriptSegment.ordinal <$> TranscriptRevision.segments r
                      = seqZ 1 (Z.of_nat (length (TranscriptRevision.segments r)));
  readable_order : StronglySorted Z.le (TranscriptSegment.start <$> TranscriptRevision.segments r)
}.

Lemma ordinal_lookup r i s :
  readable r -> TranscriptRevision.segments r !! i = Some s -> TranscriptSegment.ordinal s = Z.of_nat i + 1.
Proof.
  intros Hr Hi. pose proof (f_equal (fun l => l !! i) (readable_ordinals r Hr)) as Ho.
  cbn beta in Ho. rewrite list_lookup_fmap, Hi in Ho. cbn in Ho.
  pose proof (lookup_lt_Some _ _ _ Hi). rewrite lookup_seqZ_lt in Ho by lia. injection Ho as ->. lia.
Qed.

(** ** Pages *)

(** The segments that meet the window, after an ordinal. *)
Definition selected (r : TranscriptRevision.t) (window : TimeRange.t) (after : nat)
    : list TranscriptSegment.t :=
  filter (fun s => TranscriptSegment.intersects s window = true)
    (drop after (TranscriptRevision.segments r)).

Lemma page_loop_spec window limit gathered l :
  StronglySorted Z.le (TranscriptSegment.start <$> l) -> 0 <= PageLimit.value limit ->
  Z.of_nat (length gathered) <= PageLimit.value limit ->
  let found := gathered ++ filter (fun s => TranscriptSegment.intersects s window = true) l in
  page_loop window limit gathered l
  = TranscriptSlice.mk (take (Z.to_nat (PageLimit.value limit)) found)
      (PageLimit.value limit <? Z.of_nat (length found)).
Proof.
  intros Hso Hl. revert gathered. induction l as [|s l IH]; intros gathered Hg; cbn zeta; cbn [page_loop].
  { rewrite filter_nil, app_nil_r, take_ge by lia. f_equal. symmetry. apply Z.ltb_ge. lia. }
  apply StronglySorted_cons in Hso as [Hall Hso]. rewrite filter_cons. destruct (_ <=? _) eqn:E; bool_prop.
  - assert (Hnone : forall s', s' ∈ s :: l -> TranscriptSegment.intersects s' window = false).
    { intros s' Hin. unfold TranscriptSegment.intersects. apply andb_false_iff. left. apply Z.ltb_ge.
      apply elem_of_cons in Hin as [->|Hin]; [exact E|]. etransitivity; [exact E|].
      rewrite Forall_forall in Hall. apply Hall.
      by apply (list_elem_of_fmap_2 TranscriptSegment.start). }
    rewrite decide_False by (by rewrite (Hnone s) by left). rewrite (filter_none _ l).
    2:{ apply Forall_forall. intros s' Hin. rewrite (Hnone s') by (by right). done. }
    rewrite app_nil_r, take_ge by lia. f_equal. symmetry. apply Z.ltb_ge. lia.
  - destruct (TranscriptSegment.intersects s window) eqn:Es; cbn [negb].
    + rewrite decide_True by done. destruct (_ =? _) eqn:Ef; bool_prop.
      * rewrite take_app_length' by lia. f_equal. symmetry. apply Z.ltb_lt. rewrite length_app. cbn [length]. lia.
      * rewrite (IH Hso) by (rewrite length_app; cbn [length]; lia). cbn zeta. by rewrite <- app_assoc.
    + rewrite decide_False by done. by apply IH.
Qed.

(** A page is the first of the selected segments, and says whether there are
    more. *)
Lemma page_spec r window after limit :
  StronglySorted Z.le (TranscriptSegment.start <$> TranscriptRevision.segments r) ->
  0 <= PageLimit.value limit ->
  let skip := match after with Some ordinal => Z.to_nat ordinal | None => 0%nat end in
  page r window after limit
  = TranscriptSlice.mk (take (Z.to_nat (PageLimit.value limit)) (selected r window skip))
      (PageLimit.value limit <? Z.of_nat (length (selected r window skip))).
Proof.
  intros Hso Hl. cbn zeta. unfold page. cbn zeta.
  generalize (match after with Some ordinal => Z.to_nat ordinal | None => 0%nat end) as skip. intros skip.
  rewrite page_loop_spec; [done| |done|cbn; lia].
  rewrite fmap_drop. eapply StronglySorted_sublist; [|exact Hso]. apply sublist_drop.
Qed.
