(* ===== verification/Coverage.v ===== *)
(** * Coverage: what a transcript covers and what it does not

    Models [crates/vsift-domain/src/search/coverage.rs]: which parts of a
    source a revision covers, which it leaves untranscribed, where nothing was
    said, and the parts a later revision must record as untranscribed so that
    its coverage stays true along a chain of retranscriptions. *)

From S2P Require Import Prelude.
From S2P Require Import Text.
From S2P Require Import Timeline.
From S2P Require Import Spans.
From S2P Require Import MinQueue.
From S2P Require Import JoinNearest.
From S2P Require Import Identity.
From S2P Require Import AsrPlan.
From S2P Require Import AsrRun.
From S2P Require Import Cues.
From S2P Require Import AsrOutput.
From S2P Require Import Revision.

Inductive CoverageBasis := SuppliedTranscript | LocalAsrBasis | Mixed.

Definition basis_identifier (b : CoverageBasis) : text :=
  match b with
  | SuppliedTranscript => literal "supplied_transcript"
  | LocalAsrBasis => literal "local_asr"
  | Mixed => literal "mixed"
  end.

Module SearchCoverage.
Record t := mk {
  basis : CoverageBasis;
  searched : option TimeRange.t;
  transcribed : list TimeRange.t;
  untranscribed : list TimeRange.t;
  no_speech : list TimeRange.t;
  pending : list TimeRange.t
}.

Definition is_complete (c : t) : bool := bool_decide (untranscribed c = []).
End SearchCoverage.

Definition intersection (a b : Span) : option Span :=
  let start := Z.max a.1 b.1 in
  let end_ := Z.min a.2 b.2 in
  if start <? end_ then Some (start, end_) else None.

Definition clip (spans : list Span) (bounds : Span) : list Span :=
  omap (fun candidate => intersection candidate bounds) spans.

(** ** The windows of a run *)

Record RunWindows := mkRunWindows {
  transcribed : list Span;
  quiet : list Span;
  unusable : list Span
}.

Definition examined (w : RunWindows) : list Span := merged (transcribed w ++ quiet w ++ unusable w).
Definition covered (w : RunWindows) : list Span := merged (transcribed w ++ quiet w).

Definition add_window (w : RunWindows) (record : AsrChunkRecord.t) : RunWindows :=
  let window := span (AsrRun.window_of record) in
  match AsrChunkRecord.outcome record with
  | Transcribed _ => mkRunWindows (transcribed w ++ [window]) (quiet w) (unusable w)
  | Silent _ | NoAudio => mkRunWindows (transcribed w) (quiet w ++ [window]) (unusable w)
  | Unusable _ | NotReached | Pending => mkRunWindows (transcribed w) (quiet w) (unusable w ++ [window])
  end.

Definition run_windows (run : AsrRun.t) : RunWindows :=
  let windows := fold_left add_window (AsrRun.chunks run) (mkRunWindows [] [] []) in
  mkRunWindows (merged (transcribed windows)) (merged (quiet windows)) (merged (unusable windows)).

(** ** The coverage of a whole revision *)

Definition claims (p : TranscriptProvenance) (source : Span) : list Span :=
  match p with
  | Imported _ _ _ => [source]
  | LocalAsr run => covered (run_windows run)
  end.

(** The lists the loop over the inherited revisions extends. *)
Record Counting := mkCounting {
  counted : list Span;
  heard : list Span;
  silent : list Span;
  supplied : bool
}.

Definition count_inherited (source : Span) (not_counted : list Span) (c : Counting)
    (entry : InheritedRevision.t) : Counting :=
  let counted' := counted c ++ subtract (claims (InheritedRevision.provenance entry) source) not_counted in
  match InheritedRevision.provenance entry with
  | Imported _ _ _ => mkCounting counted' (heard c) (silent c) true
  | LocalAsr run =>
      let earlier := run_windows run in
      mkCounting counted' (heard c ++ subtract (transcribed earlier) not_counted)
        (silent c ++ subtract (quiet earlier) not_counted) (supplied c)
  end.

Definition segment_spans (r : TranscriptRevision.t) : list Span :=
  (fun s => span (TranscriptSegment.range s)) <$> TranscriptRevision.segments r.

Definition revision_coverage (r : TranscriptRevision.t) (source : Span)
    : CoverageBasis * list Span * list Span :=
  match TranscriptRevision.provenance r with
  | Imported _ _ _ => (SuppliedTranscript, [source], [])
  | LocalAsr run =>
      let own := run_windows run in
      let segments := segment_spans r in
      let unplaced := subtract (merged (span <$> TranscriptRevision.unplaced r))
                        (merged (quiet own ++ segments)) in
      let not_counted := merged (examined own ++ (span <$> TranscriptRevision.carried_untranscribed r)) in
      let state := fold_left (count_inherited source not_counted) (TranscriptRevision.inherited r)
                     (mkCounting (covered own ++ segments) (transcribed own) (quiet own) false) in
      let speech := merged (heard state ++ segments) in
      let no_speech := subtract (merged (silent state)) speech in
      let basis := if supplied state then Mixed else LocalAsrBasis in
      (basis, subtract (merged (counted state)) unplaced, no_speech)
  end.

(** Where the cut of an open or stopped revision ends. *)
Definition cut_end (r : TranscriptRevision.t) (source : Span) : Z :=
  match state r, TranscriptRevision.replaced_range r with
  | Stopped, Some replaced => TimeRange.end_ replaced
  | _, _ => source.2
  end.

Definition cut_within (r : TranscriptRevision.t) (source searched : Span) : list Span :=
  option_list (until ← TranscriptRevision.published_until r;
               intersection (until, cut_end r source) searched).

Definition coverage_of (r : TranscriptRevision.t) (window : option TimeRange.t) : SearchCoverage.t :=
  let source := span (SourceSegment.range (TranscriptRevision.source_segment r)) in
  let searched := match window with
                  | None => Some source
                  | Some window => intersection (span window) source
                  end in
  let '(basis, transcribed, no_speech) := revision_coverage r source in
  match searched with
  | None => SearchCoverage.mk basis None [] [] [] []
  | Some searched =>
      let cut := cut_within r source searched in
      let segments_in_cut := subtract cut (subtract cut (merged (segment_spans r))) in
      let transcribed := merged (subtract (clip transcribed searched) cut ++ segments_in_cut) in
      let untranscribed := subtract [searched] transcribed in
      let no_speech := subtract (clip no_speech searched) cut in
      let pending := match state r with Open => subtract cut transcribed | _ => [] end in
      SearchCoverage.mk basis (to_range searched) (to_ranges transcribed) (to_ranges untranscribed)
        (to_ranges no_speech) (to_ranges pending)
  end.

(** ** What a superseding revision records *)

(** The heap of [join_nearest] is the list instance; any lawful one gives the
    same result ([join_nearest_equivalence]). *)
Definition carried_untranscribed_within (base : TranscriptRevision.t) (replaced : TimeRange.t)
    (inherited : list InheritedRevision.t) (limit : nat) : list TimeRange.t :=
  let source := span (SourceSegment.range (TranscriptRevision.source_segment base)) in
  let untranscribed := span <$> SearchCoverage.untranscribed (coverage_of base None) in
  let claimed := merged (entry ← inherited; claims (InheritedRevision.provenance entry) source) in
  let outside := subtract untranscribed [span replaced] in
  let masked := subtract outside (subtract outside claimed) in
  to_ranges (default masked (join_nearest (Q := list entry) masked limit (Some (span replaced)))).

(** [TranscriptRevision::carried_untranscribed_for] *)
Definition carried_untranscribed_for (base : TranscriptRevision.t) (replaced : TimeRange.t)
    (inherited : list InheritedRevision.t) : list TimeRange.t :=
  carried_untranscribed_within base replaced inherited (Z.to_nat MAX_CARRIED_UNTRANSCRIBED).

(** ** Specification *)

Definition is_heard (o : AsrChunkOutcome) : bool := match o with Transcribed _ => true | _ => false end.
Definition is_quiet (o : AsrChunkOutcome) : bool :=
  match o with Silent _ | NoAudio => true | _ => false end.

(** An instant in a window whose outcome is of some kind. *)
Definition in_window (p : AsrChunkOutcome -> bool) (run : AsrRun.t) (x : Z) : Prop :=
  Exists (fun c => p (AsrChunkRecord.outcome c) = true /\ in_span (span (AsrRun.window_of c)) x)
    (AsrRun.chunks run).

Definition read_by (run : AsrRun.t) (x : Z) : Prop := in_window AsrRun.was_read run x.
Definition heard_by (run : AsrRun.t) (x : Z) : Prop := in_window is_heard run x.
Definition quiet_by (run : AsrRun.t) (x : Z) : Prop := in_window is_quiet run x.
Definition examined_by (run : AsrRun.t) (x : Z) : Prop := in_window (fun _ => true) run x.

(** An instant some segment holds. *)
Definition holds (r : TranscriptRevision.t) (x : Z) : Prop :=
  Exists (fun s => in_span (span (TranscriptSegment.range s)) x) (TranscriptRevision.segments r).

Definition in_ranges (ranges : list TimeRange.t) (x : Z) : Prop := Exists (fun r => in_span (span r) x) ranges.

(** An instant an earlier provenance claims: a file the whole source, a run
    what it read. *)
Definition claimed_by (source : Span) (p : TranscriptProvenance) (x : Z) : Prop :=
  match p with Imported _ _ _ => in_span source x | LocalAsr run => read_by run x end.

(** Where an earlier revision still counts: outside what the revision's own run
    examined and outside what it records as untranscribed. *)
Definition still_counted (r : TranscriptRevision.t) (run : AsrRun.t) (x : Z) : Prop :=
  ~ examined_by run x /\ ~ in_ranges (TranscriptRevision.carried_untranscribed r) x.

(** An instant the revision covers: one it holds a segment at, or one its own
    run found silent, or one its own run or, where it still counts, an earlier
    provenance read and where no words were left out. *)
Definition backed (r : TranscriptRevision.t) (source : Span) (x : Z) : Prop :=
  match TranscriptRevision.provenance r with
  | Imported _ _ _ => in_span source x
  | LocalAsr run =>
      holds r x \/ quiet_by run x
      \/ ~ in_ranges (TranscriptRevision.unplaced r) x
         /\ (read_by run x
             \/ still_counted r run x
                /\ Exists (fun e => claimed_by source (InheritedRevision.provenance e) x)
                     (TranscriptRevision.inherited r))
  end.

(** An instant where nothing was said. *)
Definition silent_at (r : TranscriptRevision.t) (x : Z) : Prop :=
  match TranscriptRevision.provenance r with
  | Imported _ _ _ => False
  | LocalAsr run =>
      let inherited p := Exists (fun e => match InheritedRevision.provenance e with
                                          | LocalAsr earlier => p earlier
                                          | Imported _ _ _ => False
                                          end) (TranscriptRevision.inherited r) in
      ~ holds r x
      /\ (quiet_by run x \/ still_counted r run x /\ inherited (fun earlier => quiet_by earlier x))
      /\ ~ (heard_by run x \/ still_counted r run x /\ inherited (fun earlier => heard_by earlier x))
  end.

Definition source_span (r : TranscriptRevision.t) : Span :=
  span (SourceSegment.range (TranscriptRevision.source_segment r)).

(** The part of an open or stopped revision that its run had not published. *)
Definition in_cut (r : TranscriptRevision.t) (x : Z) : Prop :=
  exists until, TranscriptRevision.published_until r = Some until
    /\ until <= x < cut_end r (source_span r).

Definition covered_at (r : TranscriptRevision.t) (x : Z) : Prop :=
  in_cut r x /\ holds r x \/ ~ in_cut r x /\ backed r (source_span r) x.

Definition searched_at (r : TranscriptRevision.t) (window : option TimeRange.t) (x : Z) : Prop :=
  in_span (source_span r) x /\ match window with Some w => in_span (span w) x | None => True end.

Definition revision_typed (r : TranscriptRevision.t) : Prop := parts_typed (parts_of r).

(** ** Sets of instants *)

#[global] Instance in_span_dec s x : Decision (in_span s x).
Proof. unfold in_span. apply _. Defined.
#[global] Instance covers_dec l x : Decision (covers l x).
Proof. unfold covers. apply _. Defined.

#[global] Instance in_ranges_dec l x : Decision (in_ranges l x).
Proof. unfold in_ranges. apply _. Defined.

Definition nonneg (l : list Span) : Prop := Forall (fun s : Span => 0 <= s.1) l.

Lemma canonical_nonneg l : canonical l -> nonneg l.
Proof. apply (canon_nonneg (-1)). lia. Qed.

Lemma nonneg_app l l' : nonneg (l ++ l') <-> nonneg l /\ nonneg l'.
Proof. apply Forall_app. Qed.

Lemma ranges_nonneg (l : list TimeRange.t) : Forall TimeRange.wf l -> nonneg (span <$> l).
Proof. intros H. apply Forall_fmap. eapply Forall_impl; [exact H|]. intros r (Hs & _ & _). cbn. ulia. Qed.

Lemma covers_ranges (l : list TimeRange.t) x : covers (span <$> l) x <-> in_ranges l x.
Proof. unfold covers, in_ranges. by rewrite Exists_fmap. Qed.

Lemma range_canonical r : TimeRange.wf r -> canonical [span r].
Proof. intros (? & ? & ?). cbn. ulia. Qed.

Lemma covers_one s x : covers [s] x <-> in_span s x.
Proof. rewrite covers_cons, covers_nil. tauto. Qed.

Create HintDb spans.
#[export] Hint Resolve canonical_nonneg ranges_nonneg range_canonical : spans.

Lemma merged_canonical l : nonneg l -> canonical (merged l).
Proof. intros H. by apply merged_spec. Qed.

Lemma merged_covers l x : nonneg l -> covers (merged l) x <-> covers l x.
Proof. intros H. by apply merged_spec. Qed.

Lemma subtract_canonical l removed : canonical l -> canonical removed -> canonical (subtract l removed).
Proof. intros H1 H2. by apply subtract_spec. Qed.

Lemma subtract_covers l removed x :
  canonical l -> canonical removed -> covers (subtract l removed) x <-> covers l x /\ ~ covers removed x.
Proof. intros H1 H2. by apply subtract_spec. Qed.

#[export] Hint Resolve merged_canonical subtract_canonical : spans.

(** Taking away what is taken away leaves what both hold. *)
Lemma common_covers l both x :
  canonical l -> canonical both -> covers (subtract l (subtract l both)) x <-> covers l x /\ covers both x.
Proof.
  intros H1 H2. rewrite !subtract_covers by auto 12 with spans.
  destruct (decide (covers both x)); tauto.
Qed.

Lemma intersection_spec a b :
  match intersection a b with
  | Some s => s.1 < s.2 /\ forall x, in_span s x <-> in_span a x /\ in_span b x
  | None => forall x, ~ (in_span a x /\ in_span b x)
  end.
Proof.
  unfold intersection, in_span. destruct (_ <? _) eqn:E; bool_prop; cbn [fst snd].
  - split; [done|]. intros x. lia.
  - intros x. lia.
Qed.

Lemma clip_canon lo l bounds : canon lo l -> canon lo (clip l bounds).
Proof.
  revert lo. induction l as [|s l IH]; intros lo; [done|]. intros (H1 & H2 & H3).
  unfold clip in *. cbn [omap list_omap]. unfold intersection at 1. destruct (_ <? _) eqn:E; bool_prop.
  - cbn [canon fst snd]. split; [lia|]. split; [lia|]. eapply canon_weaken; [|by apply (IH s.2)]. lia.
  - eapply canon_weaken; [|by apply (IH s.2)]. lia.
Qed.

Lemma clip_covers l bounds x : covers (clip l bounds) x <-> covers l x /\ in_span bounds x.
Proof.
  induction l as [|s l IH]; unfold clip in *; cbn [omap list_omap].
  { rewrite covers_nil. tauto. }
  pose proof (intersection_spec s bounds) as Hs. rewrite covers_cons.
  destruct (intersection s bounds) as [c|].
  - destruct Hs as [_ Hs]. rewrite covers_cons, IH, Hs. tauto.
  - rewrite IH. specialize (Hs x). tauto.
Qed.

Lemma clip_canonical l bounds : canonical l -> canonical (clip l bounds).
Proof. apply clip_canon. Qed.
#[export] Hint Resolve clip_canonical : spans.

(** A canonical list is published whole. *)
Lemma published l : canonical l -> span <$> to_ranges l = l.
Proof. intros H. apply (spans_of_ranges (-1)); [lia|exact H]. Qed.

(** ** Windows *)

(** The windows whose outcome is of some kind, in order. *)
Definition windows_where (p : AsrChunkOutcome -> bool) (l : list AsrChunkRecord.t) : list Span :=
  (fun c => span (AsrRun.window_of c)) <$> filter (fun c => p (AsrChunkRecord.outcome c) = true) l.

Definition is_unusable (o : AsrChunkOutcome) : bool :=
  match o with Unusable _ | NotReached | Pending => true | _ => false end.

Lemma add_windows l w :
  fold_left add_window l w
  = mkRunWindows (transcribed w ++ windows_where is_heard l) (quiet w ++ windows_where is_quiet l)
      (unusable w ++ windows_where is_unusable l).
Proof.
  revert w. induction l as [|c l IH]; intros w; cbn [fold_left].
  { unfold windows_where. rewrite !filter_nil. cbn. rewrite !app_nil_r. by destruct w. }
  rewrite IH. unfold add_window, windows_where. rewrite !filter_cons.
  destruct (AsrChunkRecord.outcome c); cbn [is_heard is_quiet is_unusable transcribed quiet unusable];
    decide_constants; cbn [fmap list_fmap]; by rewrite <- ?app_assoc.
Qed.

Lemma windows_where_covers p run x :
  covers (windows_where p (AsrRun.chunks run)) x <-> in_window p run x.
Proof.
  unfold windows_where, covers, in_window. rewrite Exists_fmap, !Exists_exists.
  setoid_rewrite list_elem_of_filter. naive_solver.
Qed.

Lemma windows_where_nonneg p run : windows_wf (AsrRun.chunks run) -> nonneg (windows_where p (AsrRun.chunks run)).
Proof.
  intros Hw. apply Forall_fmap, Forall_forall. intros c [_ Hin]%list_elem_of_filter.
  unfold windows_wf in Hw. rewrite Forall_forall in Hw. destruct (Hw c Hin) as (Hs & _ & _). cbn. ulia.
Qed.
#[export] Hint Resolve windows_where_nonneg : spans.

Section Windows.
Context (run : AsrRun.t) (Hw : windows_wf (AsrRun.chunks run)).

Lemma run_windows_parts :
  run_windows run
  = mkRunWindows (merged (windows_where is_heard (AsrRun.chunks run)))
      (merged (windows_where is_quiet (AsrRun.chunks run)))
      (merged (windows_where is_unusable (AsrRun.chunks run))).
Proof. unfold run_windows. rewrite add_windows. reflexivity. Qed.

Lemma windows_canonical :
  canonical (transcribed (run_windows run)) /\ canonical (quiet (run_windows run))
  /\ canonical (unusable (run_windows run)).
Proof. rewrite run_windows_parts. cbn [transcribed quiet unusable]. auto 12 with spans. Qed.

Lemma transcribed_covers x : covers (transcribed (run_windows run)) x <-> heard_by run x.
Proof. rewrite run_windows_parts. cbn [transcribed quiet unusable]. rewrite merged_covers by auto 12 with spans. apply windows_where_covers. Qed.

Lemma quiet_covers x : covers (quiet (run_windows run)) x <-> quiet_by run x.
Proof. rewrite run_windows_parts. cbn [transcribed quiet unusable]. rewrite merged_covers by auto 12 with spans. apply windows_where_covers. Qed.

Lemma unusable_covers x : covers (unusable (run_windows run)) x <-> in_window is_unusable run x.
Proof. rewrite run_windows_parts. cbn [transcribed quiet unusable]. rewrite merged_covers by auto 12 with spans. apply windows_where_covers. Qed.

Lemma in_window_or p q x :
  in_window p run x \/ in_window q run x <-> in_window (fun o => p o || q o) run x.
Proof.
  unfold in_window. rewrite !Exists_exists. setoid_rewrite orb_true_iff. naive_solver.
Qed.

Lemma in_window_ext p q x : (forall o, p o = q o) -> in_window p run x <-> in_window q run x.
Proof. intros H. unfold in_window. setoid_rewrite H. done. Qed.

Lemma covered_spec :
  canonical (covered (run_windows run)) /\ forall x, covers (covered (run_windows run)) x <-> read_by run x.
Proof.
  destruct windows_canonical as (H1 & H2 & H3).
  assert (Hn : nonneg (transcribed (run_windows run) ++ quiet (run_windows run)))
    by (apply nonneg_app; auto 12 with spans).
  unfold covered. split; [auto 12 with spans|]. intros x.
  rewrite merged_covers, covers_app, transcribed_covers, quiet_covers by done.
  unfold heard_by, quiet_by, read_by. rewrite in_window_or. apply in_window_ext. by intros [].
Qed.

Lemma examined_spec :
  canonical (examined (run_windows run))
  /\ forall x, covers (examined (run_windows run)) x <-> examined_by run x.
Proof.
  destruct windows_canonical as (H1 & H2 & H3).
  assert (Hn : nonneg (transcribed (run_windows run) ++ quiet (run_windows run) ++ unusable (run_windows run)))
    by (rewrite !nonneg_app; auto 12 with spans).
  unfold examined. split; [auto 12 with spans|]. intros x.
  rewrite merged_covers, !covers_app, transcribed_covers, quiet_covers, unusable_covers by done.
  unfold heard_by, quiet_by, examined_by. rewrite !in_window_or. apply in_window_ext. by intros [].
Qed.
End Windows.

Lemma claims_spec p source :
  provenance_typed p -> source.1 < source.2 -> 0 <= source.1 ->
  canonical (claims p source) /\ forall x, covers (claims p source) x <-> claimed_by source p x.
Proof.
  intros Hp H1 H2. destruct p as [f sc o|run]; cbn [claims claimed_by].
  - split; [cbn; lia|]. intros x. apply covers_one.
  - apply covered_spec. by destruct Hp.
Qed.

(** ** The coverage of a revision *)

(** What an inherited run says of an instant. *)
Definition of_run (P : AsrRun.t -> Prop) (e : InheritedRevision.t) : Prop :=
  match InheritedRevision.provenance e with
  | LocalAsr earlier => P earlier
  | Imported _ _ _ => False
  end.

Definition counting_nonneg (c : Counting) : Prop :=
  nonneg (counted c) /\ nonneg (heard c) /\ nonneg (silent c).

Section Inherited.
Context (source : Span) (Hs1 : source.1 < source.2) (Hs0 : 0 <= source.1).
Context (not_counted : list Span) (Hnc : canonical not_counted).

Lemma count_one c e :
  provenance_typed (InheritedRevision.provenance e) -> counting_nonneg c ->
  let c' := count_inherited source not_counted c e in
  counting_nonneg c' /\ forall x,
    (covers (counted c') x <-> covers (counted c) x
       \/ ~ covers not_counted x /\ claimed_by source (InheritedRevision.provenance e) x)
    /\ (covers (heard c') x <-> covers (heard c) x
          \/ ~ covers not_counted x /\ of_run (fun run => heard_by run x) e)
    /\ (covers (silent c') x <-> covers (silent c) x
          \/ ~ covers not_counted x /\ of_run (fun run => quiet_by run x) e).
Proof.
  intros Hp (N1 & N2 & N3). cbn zeta. destruct (claims_spec _ source Hp Hs1 Hs0) as [Hc Hcl].
  unfold count_inherited, of_run, counting_nonneg. cbn zeta. revert Hc Hcl Hp.
  destruct (InheritedRevision.provenance e) as [f sc o|run]; intros Hc Hcl Hp; cbn [counted heard silent].
  - split; [rewrite nonneg_app; auto 12 with spans|]. intros x.
    rewrite covers_app, subtract_covers, Hcl by auto 12 with spans. tauto.
  - destruct Hp as [Hw _]. destruct (windows_canonical run Hw) as (W1 & W2 & _).
    split; [rewrite !nonneg_app; auto 12 with spans|]. intros x.
    rewrite !covers_app, !subtract_covers, Hcl, transcribed_covers, quiet_covers by auto 12 with spans. tauto.
Qed.

Lemma count_all inherited c :
  Forall (fun e => provenance_typed (InheritedRevision.provenance e)) inherited -> counting_nonneg c ->
  let c' := fold_left (count_inherited source not_counted) inherited c in
  counting_nonneg c' /\ forall x,
    (covers (counted c') x <-> covers (counted c) x
       \/ ~ covers not_counted x
          /\ Exists (fun e => claimed_by source (InheritedRevision.provenance e) x) inherited)
    /\ (covers (heard c') x <-> covers (heard c) x
          \/ ~ covers not_counted x /\ Exists (of_run (fun run => heard_by run x)) inherited)
    /\ (covers (silent c') x <-> covers (silent c) x
          \/ ~ covers not_counted x /\ Exists (of_run (fun run => quiet_by run x)) inherited).
Proof.
  intros Ht. cbn zeta. revert c. induction Ht as [|e inherited He Ht IH]; intros c Hc; cbn [fold_left].
  { split; [done|]. intros x. rewrite !Exists_nil. tauto. }
  destruct (count_one c e He Hc) as [Hn H1]. destruct (IH _ Hn) as [Hn' H2]. split; [done|]. intros x.
  destruct (H1 x) as (A1 & A2 & A3), (H2 x) as (B1 & B2 & B3). rewrite B1, B2, B3, A1, A2, A3, !Exists_cons.
  clear. split; [|split]; tauto.
Qed.

Lemma count_supplied inherited c :
  supplied (fold_left (count_inherited source not_counted) inherited c) = true
  <-> supplied c = true \/ Exists (fun e => is_local (InheritedRevision.provenance e) = false) inherited.
Proof.
  revert c. induction inherited as [|e inherited IH]; intros c; cbn [fold_left].
  { rewrite Exists_nil. tauto. }
  rewrite IH, Exists_cons. unfold count_inherited.
  destruct (InheritedRevision.provenance e); cbn [supplied is_local]; naive_solver.
Qed.
End Inherited.

Lemma source_span_pos r : revision_typed r -> 0 <= (source_span r).1 /\ (source_span r).1 < (source_span r).2.
Proof. intros Ht. destruct (typed_source _ Ht) as (? & ? & ?). cbn in *. ulia. Qed.

Lemma segment_spans_spec r :
  revision_typed r -> nonneg (segment_spans r) /\ forall x, covers (segment_spans r) x <-> holds r x.
Proof.
  intros Ht. pose proof (typed_segments _ Ht) as Hs. cbn in Hs. unfold segment_spans, holds. split.
  - apply Forall_fmap. eapply Forall_impl; [exact Hs|]. intros s [(? & _ & _) _]. cbn. ulia.
  - intros x. unfold covers. by rewrite Exists_fmap.
Qed.

Lemma revision_coverage_spec r :
  revision_typed r ->
  let '(basis, covered, no_speech) := revision_coverage r (source_span r) in
  (basis = SuppliedTranscript <-> is_local (TranscriptRevision.provenance r) = false)
  /\ (basis = Mixed <-> is_local (TranscriptRevision.provenance r) = true
        /\ Exists (fun e => is_local (InheritedRevision.provenance e) = false)
             (TranscriptRevision.inherited r))
  /\ canonical covered /\ (forall x, covers covered x <-> backed r (source_span r) x)
  /\ canonical no_speech /\ (forall x, covers no_speech x <-> silent_at r x).
Proof.
  intros Ht. destruct (source_span_pos r Ht) as [Hs0 Hs1]. destruct (segment_spans_spec r Ht) as [Hsn Hsc].
  pose proof (typed_provenance _ Ht) as Hp. pose proof (typed_inherited _ Ht) as Hi.
  pose proof (typed_unplaced _ Ht) as Hu. pose proof (typed_untranscribed _ Ht) as Hc. cbn in Hp, Hi, Hu, Hc.
  unfold revision_coverage, backed, silent_at.
  destruct (TranscriptRevision.provenance r) as [f sc o|run]; cbn [is_local].
  { split; [done|]. split; [naive_solver|]. split; [split; [lia|by split]|]. split; [intros x; apply covers_one|].
    split; [done|]. intros x. by rewrite covers_nil. }
  destruct Hp as [Hw _]. destruct (windows_canonical run Hw) as (W1 & W2 & _).
  destruct (covered_spec run Hw) as [C1 C2]. destruct (examined_spec run Hw) as [X1 X2].
  cbn zeta. set (quiet_or_held := merged (quiet (run_windows run) ++ segment_spans r)).
  assert (Hqn : nonneg (quiet (run_windows run) ++ segment_spans r)) by (apply nonneg_app; auto 12 with spans).
  assert (Hnn : nonneg (examined (run_windows run) ++ (span <$> TranscriptRevision.carried_untranscribed r)))
    by (apply nonneg_app; auto 12 with spans).
  set (nc := merged (examined (run_windows run) ++ (span <$> TranscriptRevision.carried_untranscribed r))).
  assert (Hnc : canonical nc) by (subst nc; auto 12 with spans).
  assert (Hncx : forall x, ~ covers nc x <-> still_counted r run x).
  { intros x. subst nc. rewrite merged_covers, covers_app, X2, covers_ranges by done.
    unfold still_counted. tauto. }
  set (c0 := mkCounting _ _ _ _).
  assert (H0 : counting_nonneg c0)
    by (unfold counting_nonneg; cbn [counted heard silent c0]; rewrite nonneg_app; auto 12 with spans).
  destruct (count_all (source_span r) Hs1 Hs0 nc Hnc _ c0 Hi H0) as [(N1 & N2 & N3) Hall].
  pose proof (count_supplied (source_span r) nc (TranscriptRevision.inherited r) c0) as Hsup.
  set (state := fold_left _ _ c0) in *. cbn [supplied c0] in Hsup.
  assert (Hun : canonical (subtract (merged (span <$> TranscriptRevision.unplaced r)) quiet_or_held))
    by (subst quiet_or_held; auto 12 with spans).
  assert (Hspn : nonneg (heard state ++ segment_spans r)) by (by apply nonneg_app).
  split; [by destruct (supplied state)|]. split.
  { destruct (supplied state); naive_solver. }
  split; [auto 12 with spans|]. split; [|split; [auto 12 with spans|]]; intros x; destruct (Hall x) as (A1 & A2 & A3).
  - rewrite subtract_covers, merged_covers, A1, Hncx by auto 12 with spans.
    subst quiet_or_held. rewrite subtract_covers, !merged_covers, covers_app, quiet_covers, Hsc,
      covers_ranges by auto 12 with spans.
    cbn [counted c0]. rewrite covers_app, C2, Hsc. unfold holds in *.
    assert (quiet_by run x -> read_by run x).
    { intros Hq. apply (in_window_ext _ (fun o => is_heard o || is_quiet o)); [by intros []|].
      apply in_window_or. by right. }
    destruct (decide (covers (segment_spans r) x)) as [Hd|Hd]; rewrite Hsc in Hd;
      (destruct (decide (covers (quiet (run_windows run)) x)) as [Hq|Hq]; rewrite quiet_covers in Hq by done); tauto.
  - rewrite subtract_covers, !merged_covers, covers_app, A2, A3, Hsc, !Hncx by auto 12 with spans.
    cbn [heard silent c0]. rewrite transcribed_covers, quiet_covers by done. unfold of_run. tauto.
Qed.

(** ** The coverage of a range *)

Lemma cut_within_spec r searched :
  0 <= searched.1 ->
  canonical (cut_within r (source_span r) searched)
  /\ forall x, covers (cut_within r (source_span r) searched) x <-> in_cut r x /\ in_span searched x.
Proof.
  intros Hs. unfold cut_within, in_cut. destruct (TranscriptRevision.published_until r) as [until|];
    cbn [mbind option_bind].
  2:{ split; [done|]. intros x. rewrite covers_nil. naive_solver. }
  pose proof (intersection_spec (until, cut_end r (source_span r)) searched) as Hi.
  destruct (intersection _ _) as [s|] eqn:Es; [change (option_list (Some s)) with [s]
                                               |change (option_list None) with (@nil Span)].
  - destruct Hi as [H1 H2]. split.
    + split; [|by split]. unfold intersection in Es. destruct (_ <? _); [|done]. injection Es as <-. cbn. lia.
    + intros x. rewrite covers_one, H2. unfold in_span at 1. cbn. naive_solver.
  - split; [done|]. intros x. rewrite covers_nil. specialize (Hi x). unfold in_span at 1 in Hi. cbn in Hi.
    naive_solver.
Qed.

(** What the ranges of a coverage are. *)
Record coverage_exactly (r : TranscriptRevision.t) (window : option TimeRange.t) (c : SearchCoverage.t)
    : Prop := {
  searched_exactly : forall x, (exists s, SearchCoverage.searched c = Some s /\ in_span (span s) x)
                               <-> searched_at r window x;
  transcribed_canonical : canonical (span <$> SearchCoverage.transcribed c);
  untranscribed_canonical : canonical (span <$> SearchCoverage.untranscribed c);
  no_speech_canonical : canonical (span <$> SearchCoverage.no_speech c);
  pending_canonical : canonical (span <$> SearchCoverage.pending c);
  transcribed_exactly : forall x, in_ranges (SearchCoverage.transcribed c) x
                                  <-> searched_at r window x /\ covered_at r x;
  untranscribed_exactly : forall x, in_ranges (SearchCoverage.untranscribed c) x
                                    <-> searched_at r window x /\ ~ covered_at r x;
  no_speech_exactly : forall x, in_ranges (SearchCoverage.no_speech c) x
                                <-> searched_at r window x /\ ~ in_cut r x /\ silent_at r x;
  pending_exactly : forall x, in_ranges (SearchCoverage.pending c) x
                              <-> state r = Open /\ searched_at r window x /\ in_cut r x /\ ~ holds r x
}.

Section Of.
Context (r : TranscriptRevision.t) (window : option TimeRange.t) (Ht : revision_typed r).
Context (basis : CoverageBasis) (whole silent : list Span) (searched : Span).
Context (Hwhole : canonical whole) (Hwx : forall x, covers whole x <-> backed r (source_span r) x).
Context (Hsilent : canonical silent) (Hsx : forall x, covers silent x <-> silent_at r x).
Context (Hpos : 0 <= searched.1 /\ searched.1 < searched.2).
Context (Hsearched : forall x, in_span searched x <-> searched_at r window x).

Let cut := cut_within r (source_span r) searched.
Let covered := merged (subtract (clip whole searched) cut ++ subtract cut (subtract cut (merged (segment_spans r)))).

Lemma searched_canonical : canonical [searched].
Proof. cbn. lia. Qed.

Lemma covered_exactly :
  canonical covered /\ forall x, covers covered x <-> in_span searched x /\ covered_at r x.
Proof.
  destruct (cut_within_spec r searched ltac:(lia)) as [Hc Hcx]. fold cut in Hc, Hcx.
  destruct (segment_spans_spec r Ht) as [Hsn Hsc].
  assert (Hn : nonneg (subtract (clip whole searched) cut ++ subtract cut (subtract cut (merged (segment_spans r)))))
    by (apply nonneg_app; auto 12 with spans).
  subst covered. split; [auto 12 with spans|]. intros x.
  rewrite merged_covers, covers_app, common_covers, merged_covers, Hsc, subtract_covers, clip_covers, Hwx, Hcx
    by auto 12 with spans.
  unfold covered_at. assert (Hdec : in_cut r x \/ ~ in_cut r x).
  { unfold in_cut. destruct (TranscriptRevision.published_until r) as [u|]; [|right; naive_solver].
    destruct (decide (u <= x < cut_end r (source_span r))) as [H|H]; [left; by exists u|].
    right. intros (u' & [= <-] & Hu). done. }
  tauto.
Qed.

Lemma of_searched :
  coverage_exactly r window
    (let untranscribed := subtract [searched] covered in
     let no_speech := subtract (clip silent searched) cut in
     let pending := match state r with Open => subtract cut covered | _ => [] end in
     SearchCoverage.mk basis (to_range searched) (to_ranges covered) (to_ranges untranscribed)
       (to_ranges no_speech) (to_ranges pending)).
Proof.
  cbn zeta. destruct (cut_within_spec r searched ltac:(lia)) as [Hc Hcx]. fold cut in Hc, Hcx.
  destruct covered_exactly as [Hcov Hcovx]. pose proof searched_canonical as Hsc.
  assert (Hpend : canonical match state r with Open => subtract cut covered | _ => [] end)
    by (destruct (state r); [auto 12 with spans|done..]).
  constructor; cbn [SearchCoverage.searched SearchCoverage.transcribed SearchCoverage.untranscribed
                    SearchCoverage.no_speech SearchCoverage.pending];
    try (rewrite published by auto 12 with spans; solve [auto 12 with spans]);
    intros x; rewrite <- ?covers_ranges, ?published by auto 12 with spans.
  - rewrite <- Hsearched. unfold to_range, TimeRange.new. rewrite (proj2 (Z.leb_gt _ _)) by lia.
    cbn [result_ok]. split; [by intros (s & [= <-] & Hx)|]. intros Hx. by eexists.
  - by rewrite Hcovx, Hsearched.
  - rewrite subtract_covers, covers_one, Hcovx, Hsearched by done. tauto.
  - rewrite subtract_covers, clip_covers, Hsx, Hcx, Hsearched by auto 12 with spans. tauto.
  - destruct (state r).
    + rewrite subtract_covers, Hcovx, Hcx, Hsearched by done. unfold covered_at. tauto.
    + rewrite covers_nil. naive_solver.
    + rewrite covers_nil. naive_solver.
Qed.
End Of.

Lemma coverage_of_spec r window : revision_typed r -> coverage_exactly r window (coverage_of r window).
Proof.
  intros Ht. destruct (source_span_pos r Ht) as [Hs0 Hs1]. unfold coverage_of. cbn zeta.
  change (span (SourceSegment.range (TranscriptRevision.source_segment r))) with (source_span r).
  pose proof (revision_coverage_spec r Ht) as Hrev.
  destruct (revision_coverage r (source_span r)) as [[basis whole] silent].
  destruct Hrev as (_ & _ & H1 & H2 & H3 & H4).
  assert (Hwin : match match window with
                       | None => Some (source_span r)
                       | Some w => intersection (span w) (source_span r)
                       end with
                 | Some s => (0 <= s.1 /\ s.1 < s.2) /\ forall x, in_span s x <-> searched_at r window x
                 | None => forall x, ~ searched_at r window x
                 end).
  { unfold searched_at. destruct window as [w|]; [|split; [done|]; intros x; tauto].
    pose proof (intersection_spec (span w) (source_span r)) as Hi.
    destruct (intersection _ _) as [s|] eqn:Es.
    - destruct Hi as [Hlt Hx]. split; [|intros x; rewrite Hx; tauto]. split; [|done].
      unfold intersection in Es. destruct (_ <? _); [|done]. injection Es as <-.
      etransitivity; [exact Hs0|apply Z.le_max_r].
    - intros x. specialize (Hi x). tauto. }
  destruct (match window with None => _ | Some w => _ end) as [searched|].
  - destruct Hwin as [Hp Hx]. apply (of_searched r window Ht basis whole silent searched H1 H2 H3 H4 Hp Hx).
  - constructor; cbn; try done; intros x; specialize (Hwin x);
      rewrite <- ?covers_ranges, ?covers_nil; naive_solver.
Qed.

(** ** Whole runs *)

(** The windows of a run cover exactly its range: what [AsrRun::new] checks. *)
Definition run_whole (run : AsrRun.t) : Prop :=
  forall range, AsrRun.covered_range run = Some range ->
  forall x, in_span (span range) x <-> examined_by run x.

Lemma new_run_whole parts run :
  ChunkPlan.wf (AsrRunParts.plan parts) -> windows_wf (AsrRunParts.chunks parts) ->
  AsrRun.new parts = Ok run -> run_whole run.
Proof.
  intros Hp Hw Hrun covered Hcov x.
  destruct (accepted_run parts run Hw Hrun) as (Hc & seg & range & Hr & Hplan & Hcov').
  rewrite Hcov in Hcov'. injection Hcov' as <-. set (plan := AsrRunParts.plan parts) in *.
  rewrite (plan_chunks_spec seg plan covered Hp Hr) in Hplan. destruct (_ <=? _); [|done].
  injection Hplan as Hplan. destruct (chunks_cut seg plan covered Hp Hr) as (Hin & _ & _ & _ & Hall).
  rewrite Hplan in Hall, Hin. unfold examined_by, in_window. rewrite Hc. split.
  - intros Hx. specialize (Hall x Hx). rewrite Exists_fmap in Hall.
    eapply Exists_impl; [exact Hall|]. intros c Hcx. by split.
  - rewrite Exists_exists. intros (c & Hmem & _ & Hx). apply list_elem_of_lookup in Hmem as [k Hk].
    destruct (Hin k (AsrChunkRecord.chunk c)) as (_ & _ & _ & H1 & H2 & _); [by rewrite list_lookup_fmap, Hk|].
    unfold in_span, AsrRun.window_of in *. cbn in *. lia.
Qed.

(** A revision whose rules hold, all of whose runs are whole. *)
Record sound_revision (r : TranscriptRevision.t) : Prop := {
  sound_typed : revision_typed r;
  sound_rules : consistent (parts_of r) (TranscriptRevision.published_until r);
  sound_run : forall run, TranscriptRevision.provenance r = LocalAsr run -> run_whole run
}.

Lemma covered_range_some r run :
  sound_revision r -> TranscriptRevision.provenance r = LocalAsr run ->
  exists range, AsrRun.covered_range run = Some range
    /\ range_within range (SourceSegment.range (TranscriptRevision.source_segment r))
    /\ forall x, in_span (span range) x <-> examined_by run x.
Proof.
  intros Hs Hp. pose proof (run_inside _ _ (sound_rules r Hs)) as Hin. cbn in Hin. rewrite Hp in Hin.
  destruct Hin as (range & Hr & Hw & _). exists range. split; [done|]. split; [done|].
  by apply (sound_run r Hs run Hp).
Qed.

Lemma in_window_examined p run x : in_window p run x -> examined_by run x.
Proof. intros H. eapply Exists_impl; [exact H|]. by intros c [_ Hx]. Qed.

Lemma quiet_read run x : quiet_by run x -> read_by run x.
Proof.
  intros H. eapply Exists_impl; [exact H|]. intros c [Hq Hx]. split; [|done].
  by destruct (AsrChunkRecord.outcome c).
Qed.

(** What the run left without words lies in the windows it examined. *)
Lemma unplaced_examined r run x :
  sound_revision r -> TranscriptRevision.provenance r = LocalAsr run ->
  in_ranges (TranscriptRevision.unplaced r) x -> examined_by run x.
Proof.
  intros Hs Hp Hx. pose proof (unplaced_inside _ _ (sound_rules r Hs)) as Hu. cbn in Hu.
  destruct Hu as (run' & covered & Hp' & Hc & _ & _ & Hall).
  { intros Hn. rewrite Hn in Hx. by apply Exists_nil in Hx. }
  rewrite Hp in Hp'. injection Hp' as <-. apply (sound_run r Hs run Hp covered Hc).
  unfold in_ranges in Hx. apply Exists_exists in Hx as (u & Hu & Hux). rewrite Forall_forall in Hall.
  destruct (Hall u Hu) as [[? ?] _]. unfold in_span in *. cbn in *. lia.
Qed.

Lemma holds_in_source r x : sound_revision r -> holds r x -> in_span (source_span r) x.
Proof.
  intros Hs. pose proof (inside_source _ _ (segments_good _ _ (sound_rules r Hs))) as Hin. cbn in Hin.
  unfold holds. rewrite Exists_exists, Forall_forall in *. intros (s & Hmem & Hx).
  destruct (Hin s Hmem) as [? ?]. unfold in_span, source_span in *. cbn in *. lia.
Qed.

(** The coverage of a range is exact: of the part searched, the transcribed
    ranges are the instants the revision covers (where it holds a segment, its
    own run found silence, or its own run, or an earlier one where that still
    counts, read the audio and left out no words; past the time an unfinished
    revision is published until, only where it holds a segment), the
    untranscribed ranges are the others, the pending ones those an open
    revision may still cover, and every list is canonical. Where it says
    nothing was said, the audio was transcribed and no segment is. Claim C9. *)
Theorem coverage_is_exact r window :
  sound_revision r ->
  let c := coverage_of r window in
  coverage_exactly r window c
  /\ (SearchCoverage.is_complete c = true <-> forall x, searched_at r window x -> covered_at r x)
  /\ (forall x, in_ranges (SearchCoverage.no_speech c) x ->
        in_ranges (SearchCoverage.transcribed c) x /\ ~ holds r x).
Proof.
  intros Hs. cbn zeta. pose proof (coverage_of_spec r window (sound_typed r Hs)) as Hc.
  split; [exact Hc|]. split.
  - unfold SearchCoverage.is_complete. rewrite bool_decide_eq_true. split.
    + intros Hn x Hx. pose proof (untranscribed_exactly _ _ _ Hc x) as Hu. rewrite Hn in Hu.
      unfold in_ranges in Hu. rewrite Exists_nil in Hu.
      pose proof (transcribed_exactly _ _ _ Hc x) as Ht. destruct (decide (in_ranges (SearchCoverage.transcribed
        (coverage_of r window)) x)) as [Hd|Hd]; tauto.
    + intros Hall. pose proof (untranscribed_canonical _ _ _ Hc) as Hcan.
      destruct (SearchCoverage.untranscribed (coverage_of r window)) as [|u l] eqn:E; [done|].
      destruct Hcan as (_ & Hlt & _). cbn in Hlt.
      destruct (untranscribed_exactly _ _ _ Hc (TimeRange.start u)) as [Hu _].
      destruct Hu as [H1 H2]; [rewrite E; left; unfold in_span; cbn; lia|]. by apply Hall in H1.
  - intros x Hx. apply (no_speech_exactly _ _ _ Hc) in Hx as (H1 & H2 & H3).
    rewrite (transcribed_exactly _ _ _ Hc). unfold silent_at in H3. unfold covered_at, backed.
    destruct (TranscriptRevision.provenance r) as [f sc o|run] eqn:Ep; [done|].
    destruct H3 as (Hnh & Hq & _). split; [|done]. split; [done|]. right. split; [done|].
    destruct Hq as [Hq|[Hsc Hq]]; [by right; left|]. right. right. split.
    { intros Hu. apply (proj1 Hsc). by eapply unplaced_examined. }
    right. split; [done|]. eapply Exists_impl; [exact Hq|]. intros e. cbn.
    destruct (InheritedRevision.provenance e); [done|]. apply quiet_read.
Qed.

(** A run of three chunks over a minute and a second of a source of ninety: the
    first read, with words it could not place, the second unusable, the third
    silent. *)
Definition sample_run_parts : AsrRunParts.t :=
  let record k o := AsrChunkRecord.mk (chunk_at (mkOpaqueId []) ChunkPlan.R0 (TimeRange.mk 0 61000000) k) o in
  AsrRunParts.mk (AsrProviderBuild.mk WhisperCpp (Sha256Hex.mk [])) (AsrModel.mk Base (Sha256Hex.mk []))
    R0V1 ChunkPlan.R0 4 0
    [record 0 (Transcribed (TimeRange.mk 0 30000000)); record 1 (Unusable (TimeRange.mk 25000000 55000000));
     record 2 (Silent (TimeRange.mk 50000000 61000000))].

Definition sample_run : AsrRun.t :=
  let p := sample_run_parts in
  AsrRun.mk (AsrRunParts.provider p) (AsrRunParts.model p) (AsrRunParts.decoding p) (AsrRunParts.plan p)
    (AsrRunParts.threads p) (AsrRunParts.audio_stream p) (AsrRunParts.chunks p).

Definition sample_asr_parts : TranscriptRevisionParts.t :=
  TranscriptRevisionParts.mk (mkOpaqueId (literal "trv_a")) 1 (mkDigestId [])
    (SourceSegment.mk (mkOpaqueId []) 0 (TimeRange.mk 0 90000000) Closed) (LocalAsr sample_run)
    None None [] [] [TimeRange.mk 10000000 12000000] None
    [TranscriptSegment.mk (mkOpaqueId (literal "tsg_a")) 1 (TimeRange.mk 3000000 11000000)
       (CueText.mk (literal "we start here") None) None Confidence.unknown
       (AsrOrigin 0 3000000 11000000 Unchanged) None] [].

Lemma sample_windows_wf : windows_wf (AsrRunParts.chunks sample_run_parts).
Proof. repeat (constructor; [concrete|]). constructor. Qed.

Lemma sample_asr_typed : parts_typed sample_asr_parts.
Proof.
  constructor; cbn; [concrete| |done|constructor|constructor| |].
  - split; [exact sample_windows_wf|]. repeat (constructor; [concrete|]). constructor.
  - constructor; [concrete|constructor].
  - constructor; [split; concrete|constructor].
Qed.

Lemma sample_asr_sound : sound_revision (TranscriptRevision.of_parts sample_asr_parts None).
Proof.
  constructor.
  - exact sample_asr_typed.
  - rewrite parts_of_of_parts. apply (validated_spec sample_asr_parts None (TranscriptRevision.of_parts sample_asr_parts None) sample_asr_typed). vm_compute. reflexivity.
  - cbn. intros run [= <-]. apply (new_run_whole sample_run_parts); [concrete|exact sample_windows_wf|].
    vm_compute. reflexivity.
Qed.

Lemma coverage_is_exact_witness :
  let r := TranscriptRevision.of_parts sample_asr_parts None in
  let c := coverage_of r (Some (TimeRange.mk 0 70000000)) in
  SearchCoverage.transcribed c
    = [TimeRange.mk 0 11000000; TimeRange.mk 12000000 30000000; TimeRange.mk 50000000 61000000]
  /\ SearchCoverage.untranscribed c
     = [TimeRange.mk 11000000 12000000; TimeRange.mk 30000000 50000000; TimeRange.mk 61000000 70000000]
  /\ SearchCoverage.no_speech c = [TimeRange.mk 50000000 61000000]
  /\ coverage_exactly r (Some (TimeRange.mk 0 70000000)) c.
Proof.
  cbn zeta. do 3 (split; [vm_compute; reflexivity|]).
  apply (coverage_is_exact (TranscriptRevision.of_parts sample_asr_parts None)
           (Some (TimeRange.mk 0 70000000)) sample_asr_sound).
Defined.

(** ** Along a chain of revisions *)

(** What must be recorded: untranscribed in the base, outside the replaced
    range, and claimed by what is inherited. *)
Definition to_record (base : TranscriptRevision.t) (replaced : TimeRange.t)
    (inherited : list InheritedRevision.t) (x : Z) : Prop :=
  in_span (source_span base) x /\ ~ covered_at base x /\ ~ in_span (span replaced) x
  /\ Exists (fun e => claimed_by (source_span base) (InheritedRevision.provenance e) x) inherited.

Lemma inherited_claims source inherited :
  source.1 < source.2 -> 0 <= source.1 ->
  Forall (fun e => provenance_typed (InheritedRevision.provenance e)) inherited ->
  let l := entry ← inherited; claims (InheritedRevision.provenance entry) source in
  nonneg l /\ forall x, covers l x
    <-> Exists (fun e => claimed_by source (InheritedRevision.provenance e) x) inherited.
Proof.
  intros H1 H0 Ht. cbn zeta. induction Ht as [|e inherited He Ht [IH1 IH2]].
  { split; [constructor|]. intros x. by rewrite Exists_nil, covers_nil. }
  destruct (claims_spec _ source He H1 H0) as [Hc Hcx]. cbn [mbind list_bind]. split.
  - apply nonneg_app. split; [auto 12 with spans|exact IH1].
  - intros x. rewrite covers_app, Exists_cons, Hcx. by rewrite <- IH2.
Qed.

(** The list recorded: in order, merged, bounded, inside the source, outside the
    replaced range, and holding everything it must. *)
Record recorded_well (base : TranscriptRevision.t) (replaced : TimeRange.t)
    (inherited : list InheritedRevision.t) (limit : nat) (ranges : list TimeRange.t) : Prop := {
  recorded_wf : Forall TimeRange.wf ranges;
  recorded_canonical : canonical (span <$> ranges);
  recorded_few : (length ranges <= Nat.max limit 2)%nat;
  recorded_inside : Forall (fun r => range_within r (SourceSegment.range
                                       (TranscriptRevision.source_segment base))) ranges;
  recorded_outside : forall x, in_ranges ranges x -> ~ in_span (span replaced) x;
  recorded_all : forall x, to_record base replaced inherited x -> in_ranges ranges x
}.

Lemma carried_untranscribed_spec base replaced inherited limit :
  revision_typed base -> TimeRange.wf replaced ->
  Forall (fun e => provenance_typed (InheritedRevision.provenance e)) inherited ->
  recorded_well base replaced inherited limit
    (carried_untranscribed_within base replaced inherited limit).
Proof.
  intros Ht Hr Hi. destruct (source_span_pos base Ht) as [Hs0 Hs1].
  pose proof (coverage_of_spec base None Ht) as Hc. unfold carried_untranscribed_within. cbn zeta.
  change (span (SourceSegment.range (TranscriptRevision.source_segment base))) with (source_span base).
  destruct (inherited_claims (source_span base) inherited Hs1 Hs0 Hi) as [Hn Hclaims].
  pose proof (untranscribed_canonical _ _ _ Hc) as Hu. pose proof (untranscribed_exactly _ _ _ Hc) as Hux.
  set (outside := subtract (span <$> SearchCoverage.untranscribed (coverage_of base None)) [span replaced]).
  assert (Ho : canonical outside) by (subst outside; auto 12 with spans).
  set (claimed := merged (entry ← inherited; claims (InheritedRevision.provenance entry) (source_span base))).
  set (masked := subtract outside (subtract outside claimed)).
  assert (Hm : canonical masked) by (subst masked claimed; auto 12 with spans).
  assert (Hmx : forall x, covers masked x <-> to_record base replaced inherited x).
  { intros x. subst masked claimed. rewrite common_covers, merged_covers, Hclaims by auto 12 with spans.
    subst outside. rewrite subtract_covers, covers_one, covers_ranges, Hux by auto 12 with spans.
    unfold to_record, searched_at. tauto. }
  assert (Hin : forall s, s ∈ masked -> (source_span base).1 <= s.1 /\ s.2 <= (source_span base).2).
  { intros s Hs. apply list_elem_of_lookup in Hs as [k Hk]. pose proof (canon_lookup_pos _ _ _ _ Hm Hk) as [H1 H2].
    apply list_elem_of_lookup_2 in Hk.
    assert (Hends : forall x, in_span s x -> in_span (source_span base) x).
    { intros x Hx. apply (Hmx x). apply Exists_exists. by exists s. }
    pose proof (Hends s.1 ltac:(unfold in_span; lia)) as E1. pose proof (Hends (s.2 - 1) ltac:(unfold in_span; lia)) as E2.
    unfold in_span in E1, E2. lia. }
  destruct (typed_source _ Ht) as (Hu1 & Hu2 & _).
  assert (Hty : spans_typed masked).
  { apply Forall_forall. intros s Hs. pose proof (Hin s Hs). apply list_elem_of_lookup in Hs as [k Hk].
    pose proof (canon_lookup_pos _ _ _ _ Hm Hk). unfold source_span in *. cbn in *. ulia. }
  destruct (join_nearest_spec (Q := list entry) masked limit (Some (span replaced)) Hm Hty)
    as (l & -> & Hl & Hmore & Hends & Hlen & Hapart).
  { intros apart [= <-]. split; [apply Hr|]. intros x Hx. rewrite Hmx. unfold to_record. tauto. }
  change (default masked (Some l)) with l. rewrite Forall_forall in Hends.
  assert (Hlin : Forall (fun s : Span => (source_span base).1 <= s.1 /\ s.2 <= (source_span base).2) l).
  { apply Forall_forall. intros s Hs. destruct (Hends s Hs) as [E1 E2].
    apply list_elem_of_fmap in E1 as (a & -> & Ha). apply list_elem_of_fmap in E2 as (b & -> & Hb).
    split; [by apply Hin|by apply Hin]. }
  pose proof (published l Hl) as Hpub.
  assert (Hwithin : Forall (fun r => range_within r (SourceSegment.range
                       (TranscriptRevision.source_segment base))) (to_ranges l)).
  { rewrite <- Hpub, Forall_fmap in Hlin. exact Hlin. }
  constructor.
  - apply Forall_forall. intros r Hrin. rewrite Forall_forall in Hwithin.
    destruct (Hwithin r Hrin) as [E1 E2].
    assert (Hsr : span r ∈ l) by (rewrite <- Hpub; by apply list_elem_of_fmap_2).
    apply list_elem_of_lookup in Hsr as [k Hk]. destruct (canon_lookup_pos _ _ _ _ Hl Hk) as [_ Hlt].
    cbn in *. split; [ulia|split; [ulia|exact Hlt]].
  - by rewrite Hpub.
  - rewrite <- (length_fmap span (to_ranges l)), Hpub. exact Hlen.
  - exact Hwithin.
  - intros x. rewrite <- covers_ranges, Hpub. intros Hx Hrx. by apply (Hapart (span replaced) x).
  - intros x Hx. rewrite <- covers_ranges, Hpub. by apply Hmore, Hmx.
Qed.

(** A revision spliced into a base: its run read the replaced range, every
    segment it holds is its own or one of the base's, and it records what the
    base left untranscribed. *)
Record spliced (base new : TranscriptRevision.t) (replaced : TimeRange.t) : Prop := {
  spliced_source : TranscriptRevision.source_segment new = TranscriptRevision.source_segment base;
  spliced_run : exists run, TranscriptRevision.provenance new = LocalAsr run
                            /\ AsrRun.covered_range run = Some replaced;
  spliced_record : TranscriptRevision.carried_untranscribed new
                   = carried_untranscribed_for base replaced (TranscriptRevision.inherited new);
  spliced_segments : Forall (fun s => TranscriptSegment.is_own s = true
                        \/ exists s', s' ∈ TranscriptRevision.segments base
                             /\ TranscriptSegment.range s' = TranscriptSegment.range s)
                       (TranscriptRevision.segments new)
}.

(** An instant in a segment the revision's own run wrote. *)
Definition wrote (r : TranscriptRevision.t) (x : Z) : Prop :=
  Exists (fun s => TranscriptSegment.is_own s = true /\ in_span (span (TranscriptSegment.range s)) x)
    (TranscriptRevision.segments r).

Lemma in_cut_dec r x : in_cut r x \/ ~ in_cut r x.
Proof.
  unfold in_cut. destruct (TranscriptRevision.published_until r) as [u|]; [|right; naive_solver].
  destruct (decide (u <= x < cut_end r (source_span r))) as [H|H]; [left; by exists u|].
  right. by intros (u' & [= <-] & Hu).
Qed.

Lemma holds_covered r x : in_span (source_span r) x -> holds r x -> covered_at r x.
Proof.
  intros Hx Hh. unfold covered_at, backed. destruct (in_cut_dec r x); [tauto|]. right. split; [done|].
  destruct (TranscriptRevision.provenance r); tauto.
Qed.

Lemma spliced_holds base new replaced x :
  spliced base new replaced -> holds new x -> holds base x \/ wrote new x.
Proof.
  intros Hs. pose proof (spliced_segments _ _ _ Hs) as Hseg. rewrite Forall_forall in Hseg.
  unfold holds, wrote. rewrite !Exists_exists. intros (s & Hin & Hx).
  destruct (Hseg s Hin) as [Ho|(s' & Hin' & Er)]; [right; by exists s|]. left. exists s'. by rewrite Er.
Qed.

(** Outside what its run read again, a revision covers no more than its base. *)
Lemma spliced_covered base new replaced x :
  sound_revision base -> sound_revision new -> spliced base new replaced -> TimeRange.wf replaced ->
  in_span (source_span base) x -> ~ in_span (span replaced) x ->
  covered_at new x -> covered_at base x \/ wrote new x.
Proof.
  intros Hb Hn Hs Hr Hx Hout Hcov. destruct (spliced_run _ _ _ Hs) as (run & Hp & Hc).
  assert (Hheld : holds new x -> covered_at base x \/ wrote new x).
  { intros Hh. destruct (spliced_holds _ _ _ _ Hs Hh) as [Hh'|Hh']; [left; by apply holds_covered|by right]. }
  assert (Hex : ~ examined_by run x) by (intros He; apply Hout; by apply (sound_run new Hn run Hp replaced Hc)).
  unfold covered_at in Hcov. destruct Hcov as [[_ Hh]|[_ Hback]]; [by apply Hheld|].
  unfold backed in Hback. rewrite Hp in Hback.
  destruct Hback as [Hh|[Hq|(_ & [Hread|((_ & Hrec) & Hcl)])]]; [by apply Hheld| | |].
  - destruct Hex. by eapply in_window_examined.
  - destruct Hex. by eapply in_window_examined.
  - left. rewrite (spliced_record _ _ _ Hs) in Hrec. unfold carried_untranscribed_for in Hrec.
    assert (Esrc : source_span new = source_span base) by (unfold source_span; by rewrite (spliced_source _ _ _ Hs)).
    pose proof (carried_untranscribed_spec base replaced (TranscriptRevision.inherited new)
                  (Z.to_nat MAX_CARRIED_UNTRANSCRIBED) (sound_typed base Hb) Hr
                  (typed_inherited _ (sound_typed new Hn))) as Hwell.
    pose proof (coverage_of_spec base None (sound_typed base Hb)) as Hcb.
    destruct (decide (in_ranges (SearchCoverage.transcribed (coverage_of base None)) x)) as [Hd|Hd].
    { by apply (transcribed_exactly _ _ _ Hcb) in Hd as [_ ?]. }
    destruct Hrec. apply (recorded_all _ _ _ _ _ Hwell). split; [done|]. split.
    { intros Hcx. apply Hd, (transcribed_exactly _ _ _ Hcb). split; [by split|done]. }
    split; [done|]. by rewrite <- Esrc.
Qed.
