(* ===== verification/DerivedIdentity.v ===== *)
(** * DerivedIdentity: identities derived from content

    Models, of [crates/vsift-application/src/transcript.rs], the identities
    the application derives with SHA-256, which is the [sha2] crate's: a
    parameter here, of which only the length of a digest is relied on. *)

From Stdlib Require Import Ascii.
From S2P Require Import Prelude.
From S2P Require Import Text.
From S2P Require Import Timeline.
From S2P Require Import Identity.
From S2P Require Import Pagination.
From S2P Require Import AsrRun.
From S2P Require Import Cues.

(** [Sha256::digest], on bytes. *)
Class Sha256 := sha256 : text -> text.

Class Sha256Laws `{Sha256} : Prop := sha256_length : forall bytes, length (sha256 bytes) = 32%nat.

Definition IDENTITY_HEX_LENGTH : nat := 32.
Definition HEX : text := literal "0123456789abcdef".

(** [char::from(HEX[index])] of four bits. *)
Definition hex_digit (nibble : Z) : ascii := nth (Z.to_nat nibble) HEX zero_char.

Definition sha256_hex `{Sha256} (bytes : text) : text :=
  byte ← sha256 bytes;
  [hex_digit (Z.shiftr (byte_of byte) 4); hex_digit (Z.land (byte_of byte) 15)].

Definition derived_identity `{Sha256} (prefix domain : text) (parts : list text) : text :=
  let material := fold_left (fun material part => material ++ newline_char ++ part) parts domain in
  let digest := sha256_hex material in
  prefix ++ (if (IDENTITY_HEX_LENGTH <=? length digest)%nat then take IDENTITY_HEX_LENGTH digest else []).

Definition whole_file_source_segment `{Sha256} (source_id : DigestId SourceId) (duration : MediaTime)
    : result SourceSegment.t TranscriptRevisionError :=
  let? id := map_err (fun _ => InvalidIdentity)
               (id_parse SourceSegmentId
                  (derived_identity (literal "sgm_") (literal "vsift.source-segment.v1")
                     [digest_str source_id; literal "0"])) in
  SourceSegment.whole_file id duration.

Definition transcript_segment_id `{Sha256} (revision : OpaqueId TranscriptRevisionId) (ordinal : Z)
    : result (OpaqueId TranscriptSegmentId) TranscriptRevisionError :=
  map_err (fun _ => InvalidIdentity)
    (id_parse TranscriptSegmentId
       (derived_identity (literal "tsg_") (literal "vsift.transcript-segment.v1")
          [as_str revision; decimal ordinal])).

Definition transcript_query_digest `{Sha256} (revision : OpaqueId TranscriptRevisionId)
    (range : TimeRange.t) : result QueryDigest.t CursorError :=
  QueryDigest.parse (sha256_hex
    (literal "vsift.transcript.get.v1" ++ newline_char ++ as_str revision
     ++ newline_char ++ decimal (TimeRange.start range)
     ++ newline_char ++ decimal (TimeRange.end_ range))).

(** ** Lines

    What is hashed is lines joined by line breaks; none of them holds one. *)

Definition newline : ascii := ascii_of_N 10.

Lemma identifier_no_newline (k : IdKind) s : is_identifier k s -> Forall (fun c => c <> newline) s.
Proof.
  intros (suffix & -> & _ & Hs). apply Forall_app. split.
  - destruct k; repeat (constructor; [by intros [=]|]); constructor.
  - eapply Forall_impl; [exact Hs|]. intros c Hc ->. vm_compute in Hc. intuition congruence.
Qed.

Lemma decimal_no_newline v : is_u64 v -> Forall (fun c => c <> newline) (decimal v).
Proof. intros Hv. apply digits_not_sep; [done|]. by apply decimal_u64. Qed.

Lemma decimal_inj v w : is_u64 v -> is_u64 w -> decimal v = decimal w -> v = w.
Proof.
  intros Hv Hw E. destruct (decimal_u64 v Hv) as (_ & <- & _). destruct (decimal_u64 w Hw) as (_ & <- & _).
  by rewrite E.
Qed.

(** Appending lines one by one joins them. *)
Lemma material_join parts lines :
  parts <> [] ->
  fold_left (fun m line => m ++ newline_char ++ line) lines (join_with newline parts) = join_with newline (parts ++ lines).
Proof.
  revert parts. induction lines as [|line lines IH]; intros parts Hne; cbn [fold_left]; [by rewrite app_nil_r|].
  change (join_with newline parts ++ newline_char ++ line) with (join_with newline parts ++ newline :: line).
  rewrite <- join_snoc, IH by (by destruct parts). by rewrite <- app_assoc.
Qed.

Lemma join_inj lines lines' :
  lines <> [] -> lines' <> [] ->
  Forall (Forall (fun c => c <> newline)) lines -> Forall (Forall (fun c => c <> newline)) lines' ->
  join_with newline lines = join_with newline lines' -> lines = lines'.
Proof. intros H1 H2 H3 H4 E. apply (f_equal (split_on newline)) in E. by rewrite !split_join in E. Qed.

(** ** Facts *)

Section Facts.
Context `{Sha256Laws}.

Lemma hex_digit_spec n :
  0 <= n < 16 -> 48 <= byte_of (hex_digit n) <= 57 \/ 97 <= byte_of (hex_digit n) <= 102.
Proof.
  intros Hn. assert (Hall : forallb (fun k => let b := byte_of (hex_digit (Z.of_nat k)) in
      ((48 <=? b) && (b <=? 57)) || ((97 <=? b) && (b <=? 102))) (seq 0 16) = true) by (vm_compute; reflexivity).
  rewrite forallb_forall in Hall. specialize (Hall (Z.to_nat n)). rewrite Z2Nat.id in Hall by lia.
  cbn zeta in Hall. rewrite orb_true_iff, !andb_true_iff, !Z.leb_le in Hall. apply Hall.
  apply in_seq. lia.
Qed.

Lemma byte_range c : 0 <= byte_of c < 256.
Proof. unfold byte_of. pose proof (N_ascii_bounded c). lia. Qed.

Lemma sha256_hex_digest bytes : is_digest (sha256_hex bytes).
Proof.
  unfold sha256_hex. split.
  - transitivity (2 * length (sha256 bytes))%nat; [|by rewrite sha256_length].
    generalize (sha256 bytes). intros l. induction l as [|c l IH]; [done|].
    rewrite bind_cons, length_app, IH. cbn [length]. lia.
  - generalize (sha256 bytes). intros l. induction l as [|c l IH]; [constructor|].
    rewrite bind_cons. pose proof (byte_range c). constructor; [|constructor; [|exact IH]]; apply hex_digit_spec.
    + rewrite Z.shiftr_div_pow2 by lia. change (2 ^ 4) with 16. divlia.
    + change 15 with (Z.ones 4). rewrite Z.land_ones by lia. change (2 ^ 4) with 16. divlia.
Qed.

(** The material of a derived identity, and what is kept of its digest. *)
Definition material (domain : text) (parts : list text) : text :=
  fold_left (fun m part => m ++ newline_char ++ part) parts domain.

Definition identity_suffix (m : text) : text := take IDENTITY_HEX_LENGTH (sha256_hex m).

Lemma derived_identity_suffix prefix domain parts :
  derived_identity prefix domain parts = prefix ++ identity_suffix (material domain parts).
Proof.
  unfold derived_identity, identity_suffix, material. cbn zeta.
  pose proof (sha256_hex_digest (fold_left (fun m part => m ++ newline_char ++ part) parts domain)) as [Hl _].
  by rewrite Hl.
Qed.

(** Every derived identity is canonical. *)
Lemma derived_identity_parses k domain parts :
  id_parse k (derived_identity (id_prefix k) domain parts)
  = Ok (mkOpaqueId (id_prefix k ++ identity_suffix (material domain parts))).
Proof.
  rewrite derived_identity_suffix. apply id_parse_spec. split; [|done].
  destruct (sha256_hex_digest (material domain parts)) as [Hl Hd]. eexists. split; [reflexivity|].
  unfold identity_suffix, IDENTITY_HEX_LENGTH. rewrite length_take, Hl. split; [lia|].
  eapply Forall_impl; [by apply Forall_take|]. cbn. lia.
Qed.

Definition segment_id_of (revision : OpaqueId TranscriptRevisionId) (ordinal : Z)
    : OpaqueId TranscriptSegmentId :=
  mkOpaqueId (literal "tsg_" ++ identity_suffix
    (material (literal "vsift.transcript-segment.v1") [as_str revision; decimal ordinal])).

Lemma transcript_segment_id_spec revision ordinal :
  transcript_segment_id revision ordinal = Ok (segment_id_of revision ordinal).
Proof.
  unfold transcript_segment_id. change (literal "tsg_") with (id_prefix TranscriptSegmentId).
  by rewrite derived_identity_parses.
Qed.

Lemma transcript_query_digest_ok revision range :
  exists digest, transcript_query_digest revision range = Ok digest
    /\ is_digest (QueryDigest.as_str digest).
Proof.
  unfold transcript_query_digest. set (bytes := _ ++ _). pose proof (sha256_hex_digest bytes) as Hd.
  exists (QueryDigest.mk (sha256_hex bytes)). split; [by apply digest_parse_iff|exact Hd].
Qed.
End Facts.

(** ** Examples *)

(** A digest for examples: the last bytes of the message. *)
Definition tail_digest : Sha256 := fun bytes => take 32 (reverse bytes ++ replicate 32 zero_char).

Lemma tail_digest_laws : Sha256Laws (H := tail_digest).
Proof.
  intros bytes. change (length (take 32 (reverse bytes ++ replicate 32 zero_char)) = 32%nat).
  rewrite length_take, length_app, length_replicate. lia.
Qed.
