(* ===== verification/TranscriptRead.v ===== *)
(** * TranscriptRead: reading a transcript page by page

    Models, of [crates/vsift-application/src/transcript.rs], the request for a
    page of a revision: the cursor bound to a session, a revision and a query,
    the page, the cursor to the next one, and the coverage of the range. *)

From Stdlib Require Import Ascii.
From S2P Require Import Prelude.
From S2P Require Import Text.
From S2P Require Import Timeline.
From S2P Require Import Spans.
From S2P Require Import Identity.
From S2P Require Import Pagination.
From S2P Require Import AsrRun.
From S2P Require Import Cues.
From S2P Require Import AsrOutput.
From S2P Require Import Revision.
From S2P Require Import Coverage.
From S2P Require Import DerivedIdentity.

Module TranscriptPageRequest.
Record t := mk { range : TimeRange.t; limit : PageLimit.t; cursor : option text }.
End TranscriptPageRequest.

Module TranscriptPage.
Record t := mk {
  segments : list TranscriptSegment.t;
  next_cursor : option CursorToken.t;
  coverage : SearchCoverage.t
}.
End TranscriptPage.

(** [str::parse::<u32>] *)
Definition parse_u32 (s : text) : option Z :=
  match s with
  | [] => None
  | c :: rest =>
      if (c =? plus_sign)%char then match rest with [] => None | _ => parse_u32_from 0 rest end
      else parse_u32_from 0 s
  end.

(** [TranscriptQueryError] has one constructor, so the error is the cursor's. *)
Definition parse_ordinal (key : text) (r : TranscriptRevision.t) : result Z CursorError :=
  let canonical := negb (starts_with zero_char key) && forallb is_ascii_digit key in
  let? ordinal := ok_or (ordinal ← parse_u32 key;
                         if canonical && (1 <=? ordinal) then Some ordinal else None)
                    InvalidLastItemKey in
  if Z.of_nat (length (TranscriptRevision.segments r)) <? ordinal then Err InvalidLastItemKey
  else Ok ordinal.

Definition page_transcript `{Sha256} (session_id : OpaqueId SessionId) (r : TranscriptRevision.t)
    (request : TranscriptPageRequest.t) (cursor_expires_at_micros now_micros : Z)
    : result TranscriptPage.t CursorError :=
  let range := TranscriptPageRequest.range request in
  let? digest := transcript_query_digest (TranscriptRevision.id r) range in
  let snapshot := TranscriptRevision.number r in
  let? after := match TranscriptPageRequest.cursor request with
                | None => Ok None
                | Some encoded =>
                    let? token := CursorToken.parse encoded in
                    let? _ := CursorToken.validate_scope token session_id snapshot digest now_micros in
                    let? ordinal := parse_ordinal (CursorToken.last_item_key token) r in
                    Ok (Some ordinal)
                end in
  let slice := page r range after (TranscriptPageRequest.limit request) in
  let? next_cursor := match TranscriptSlice.has_more slice, last (TranscriptSlice.segments slice) with
                      | true, Some final =>
                          let? token := CursorToken.new session_id snapshot digest
                                          (decimal (TranscriptSegment.ordinal final))
                                          cursor_expires_at_micros in
                          Ok (Some token)
                      | _, _ => Ok None
                      end in
  Ok (TranscriptPage.mk (TranscriptSlice.segments slice) next_cursor (coverage_of r (Some range))).

(** ** Specification *)

(** A reader that follows the cursors, with the limit it chooses for each page;
    the requests are made before any cursor expires. *)
Definition answer `{Sha256} (session_id : OpaqueId SessionId) (r : TranscriptRevision.t)
    (range : TimeRange.t) (limits : nat -> PageLimit.t) (expires now : Z) (k : nat) (cursor : option text)
    : option (list TranscriptSegment.t * option text) :=
  match page_transcript session_id r (TranscriptPageRequest.mk range (limits k) cursor) expires now with
  | Ok p => Some (TranscriptPage.segments p, CursorToken.encode <$> TranscriptPage.next_cursor p)
  | Err _ => None
  end.

Definition follow `{Sha256} (fuel : nat) (session_id : OpaqueId SessionId) (r : TranscriptRevision.t)
    (range : TimeRange.t) (limits : nat -> PageLimit.t) (expires now : Z)
    : option (list (list TranscriptSegment.t)) :=
  read_pages (answer session_id r range limits expires now) fuel 0 None.

(** ** Ordinals as keys *)

Lemma decimal_key v : is_u64 v -> validate_last_item_key (decimal v) = Ok tt.
Proof.
  intros Hv. destruct (decimal_u64 v Hv) as (Hd & _ & Hne). pose proof (decimal_length v) as Hl.
  unfold validate_last_item_key, MAX_LAST_KEY_LENGTH. apply guard_Ok. split; [|done].
  rewrite !orb_false_iff, Nat.eqb_neq, Nat.ltb_ge, negb_false_iff. split; [split; [|lia]|].
  { by destruct (decimal v). }
  rewrite forallb_forall in Hd |- *. intros c Hc. rewrite (Hd c Hc). by rewrite orb_true_r.
Qed.

Lemma parse_u32_decimal v : is_u32 v -> parse_u32 (decimal v) = Some v.
Proof.
  intros Hv. destruct (decimal_u64 v ltac:(ulia)) as (Hd & Hval & Hne). unfold parse_u32.
  destruct (decimal v) as [|c s] eqn:E; [done|].
  assert (Hc : (c =? plus_sign)%char = false).
  { apply Ascii.eqb_neq. intros ->. by cbn in Hd. }
  rewrite Hc, parse_u32_from_value, Hval by (done || ulia). by apply checked_in.
Qed.

Lemma decimal_no_leading_zero v : 0 < v <= U64_MAX -> starts_with zero_char (decimal v) = false.
Proof.
  intros Hv. destruct (decimal_u64 v ltac:(ulia)) as (_ & Hval & _).
  destruct (decimal_digits_canonical 19 v) as [_ [Hz|Hz]]; [cbn; ulia| |exact Hz].
  change (decimal_digits 20 v) with (decimal v) in Hz. rewrite Hz in Hval.
  change (digits_value 0 [zero_char]) with 0 in Hval. lia.
Qed.

Lemma parse_ordinal_decimal r ordinal :
  1 <= ordinal <= Z.of_nat (length (TranscriptRevision.segments r)) -> ordinal <= U32_MAX ->
  parse_ordinal (decimal ordinal) r = Ok ordinal.
Proof.
  intros Ho Hu. unfold parse_ordinal. cbn zeta. rewrite parse_u32_decimal by ulia. cbn [mbind option_bind].
  destruct (decimal_u64 ordinal ltac:(ulia)) as (Hd & _ & _).
  rewrite decimal_no_leading_zero, Hd, (proj2 (Z.leb_le _ _)) by ulia. cbn [negb andb ok_or result_bind].
  by rewrite (proj2 (Z.ltb_ge _ _)) by lia.
Qed.

(** ** What is left after a page *)

Lemma filter_after {A} (P : A -> Prop) `{!forall a, Decision (P a)} (l : list A) k s :
  filter P l !! k = Some s ->
  exists j, l !! j = Some s /\ filter P (drop (S j) l) = drop (S k) (filter P l).
Proof.
  revert k. induction l as [|a l IH]; intros k; [done|]. rewrite filter_cons. destruct (decide (P a)).
  - destruct k as [|k]; cbn [lookup list_lookup].
    + intros [= ->]. by exists 0%nat.
    + intros Hk. destruct (IH k Hk) as (j & Hj & Hd). by exists (S j).
  - intros Hk. destruct (IH k Hk) as (j & Hj & Hd). by exists (S j).
Qed.

Lemma selected_after r range after k s :
  readable r -> selected r range after !! k = Some s ->
  1 <= TranscriptSegment.ordinal s <= Z.of_nat (length (TranscriptRevision.segments r))
  /\ selected r range (Z.to_nat (TranscriptSegment.ordinal s)) = drop (S k) (selected r range after).
Proof.
  intros Hr Hk. unfold selected in *. apply filter_after in Hk as (j & Hj & Hd).
  rewrite lookup_drop in Hj. pose proof (ordinal_lookup r _ s Hr Hj) as Ho.
  pose proof (lookup_lt_Some _ _ _ Hj). split; [lia|].
  rewrite Ho, <- Hd, drop_drop. do 2 f_equal. lia.
Qed.

Section Read.
Context `{Sha256Laws} (session_id : OpaqueId SessionId) (r : TranscriptRevision.t) (range : TimeRange.t).
Context (expires now : Z).
Context (Hsession : is_identifier SessionId (as_str session_id)) (Hr : readable r).
Context (Hexpires : 0 < expires <= U64_MAX) (Hnow : now < expires).

(** The cursors that lead to what follows an ordinal. *)
Definition leads_to (cursor : option text) (after : nat) : Prop :=
  match cursor with
  | None => after = 0%nat
  | Some encoded => exists digest ordinal,
      transcript_query_digest (TranscriptRevision.id r) range = Ok digest
      /\ 1 <= ordinal <= Z.of_nat (length (TranscriptRevision.segments r)) /\ after = Z.to_nat ordinal
      /\ encoded = CursorToken.encode (CursorToken.mk session_id (TranscriptRevision.number r) digest
                                         (decimal ordinal) expires)
  end.

Lemma page_transcript_spec cursor after limit :
  leads_to cursor after -> 0 < PageLimit.value limit ->
  let found := selected r range after in
  let shown := take (Z.to_nat (PageLimit.value limit)) found in
  exists next,
    page_transcript session_id r (TranscriptPageRequest.mk range limit cursor) expires now
    = Ok (TranscriptPage.mk shown next (coverage_of r (Some range)))
    /\ match next with
       | None => drop (Z.to_nat (PageLimit.value limit)) found = []
       | Some token =>
           Z.of_nat (length shown) = PageLimit.value limit
           /\ exists after', leads_to (Some (CursorToken.encode token)) after'
                /\ selected r range after' = drop (Z.to_nat (PageLimit.value limit)) found
       end.
Proof.
  intros Hc Hl. cbn zeta. set (found := selected r range after).
  destruct (transcript_query_digest_ok (TranscriptRevision.id r) range) as (digest & Hdig & Hd).
  pose proof (readable_few r Hr) as Hfew. unfold MAX_TRANSCRIPT_CUES in Hfew.
  pose proof (readable_number r Hr) as Hnum.
  assert (Hafter : exists a : option Z,
    match cursor with
    | None => Ok None
    | Some encoded =>
        let? token := CursorToken.parse encoded in
        let? _ := CursorToken.validate_scope token session_id (TranscriptRevision.number r) digest now in
        let? ordinal := parse_ordinal (CursorToken.last_item_key token) r in
        Ok (Some ordinal)
    end = Ok a /\ after = match a with Some ordinal => Z.to_nat ordinal | None => 0%nat end).
  { destruct cursor as [encoded|]; [|by exists None].
    destruct Hc as (digest' & ordinal & Hdig' & Ho & -> & ->).
    rewrite Hdig in Hdig'. injection Hdig' as <-. exists (Some ordinal). split; [|done].
    set (c := CursorToken.mk _ _ _ _ _).
    destruct (parse_encode c) as [_ ->].
    { repeat split; cbn; try (done || ulia); [apply Hd..|]. apply decimal_key. ulia. }
    cbn [result_bind]. rewrite (proj2 (validate_scope_spec c session_id _ digest now)) by done.
    cbn [result_bind CursorToken.last_item_key c]. by rewrite parse_ordinal_decimal by ulia. }
  destruct Hafter as (a & Ha & Haft). unfold page_transcript. cbn zeta.
  cbn [TranscriptPageRequest.range TranscriptPageRequest.cursor TranscriptPageRequest.limit].
  rewrite Hdig. cbn [result_bind]. rewrite Ha. cbn [result_bind].
  rewrite page_spec by (apply Hr || lia). cbn [TranscriptSlice.has_more TranscriptSlice.segments].
  rewrite <- Haft. fold found. set (n := Z.to_nat (PageLimit.value limit)).
  destruct (PageLimit.value limit <? Z.of_nat (length found)) eqn:Em; bool_prop.
  - assert (Hlen : length (take n found) = n) by (rewrite length_take; lia).
    destruct (last (take n found)) as [s|] eqn:Es.
    2:{ apply last_None in Es. rewrite Es in Hlen. cbn in Hlen. lia. }
    rewrite last_lookup, Hlen, lookup_take_lt in Es by lia.
    destruct (selected_after r range after _ s Hr Es) as [Ho Hsel]. fold found in Hsel.
    exists (Some (CursorToken.mk session_id (TranscriptRevision.number r) digest
                    (decimal (TranscriptSegment.ordinal s)) expires)).
    rewrite (proj2 (new_spec _ _ _ _ _ _)) by (split; [apply decimal_key; ulia|]; split; [lia|]; split; [lia|done]).
    cbn [result_bind]. split; [done|]. split; [lia|].
    exists (Z.to_nat (TranscriptSegment.ordinal s)). split; [|rewrite Hsel; f_equal; lia].
    by exists digest, (TranscriptSegment.ordinal s).
  - exists None. cbn [result_bind]. split; [done|]. apply drop_ge. lia.
Qed.

Lemma follow_spec limits fuel :
  (forall i, 0 < PageLimit.value (limits i)) -> (length (selected r range 0) < fuel)%nat ->
  exists pages, follow fuel session_id r range limits expires now = Some pages
    /\ concat pages = selected r range 0
    /\ forall i p, pages !! i = Some p ->
         Z.of_nat (length p) <= PageLimit.value (limits i)
         /\ ((S i < length pages)%nat -> Z.of_nat (length p) = PageLimit.value (limits i)).
Proof.
  intros Hlim Hf. set (limit := fun k => Z.to_nat (PageLimit.value (limits k))).
  set (reaches := fun cursor rest => exists after, leads_to cursor after /\ rest = selected r range after).
  destruct (read_pages_spec (answer session_id r range limits expires now) limit reaches fuel 0 None
              (selected r range 0)) as (pages & Hread & Hcat & Hpages); [| | |exact Hf|].
  - intros k cursor rest (after & Hc & ->).
    destruct (page_transcript_spec cursor after (limits k) Hc (Hlim k)) as (next & Hp & Hnext).
    exists (CursorToken.encode <$> next). unfold answer. rewrite Hp. split; [reflexivity|].
    destruct next as [token|]; [|done]. destruct Hnext as (Hfull & after' & Hl' & Hsel).
    split; [unfold limit; lia|]. by exists after'.
  - intros i. specialize (Hlim i). unfold limit. lia.
  - by exists 0%nat.
  - exists pages. split; [exact Hread|]. split; [done|]. intros i p Hi. specialize (Hlim i).
    destruct (Hpages i p Hi) as [H1 H2]. unfold limit in H1, H2. cbn [Nat.add] in H1, H2.
    split; [lia|]. intros Hlt. specialize (H2 Hlt). lia.
Qed.
End Read.

(** A reader that follows the cursors sees every segment that meets the range
    exactly once and in order, whatever limit it chooses for each page; every
    page but the last is full and the reading ends. A cursor is answered only
    for the session, the revision number and the query it was made for, and
    before it expires. Claim C28. *)
Theorem pages_complete `{Sha256Laws} session_id r range limits expires now :
  is_identifier SessionId (as_str session_id) -> readable r -> 0 < expires <= U64_MAX -> now < expires ->
  (forall i, 0 < PageLimit.value (limits i)) ->
  (exists pages,
     follow (S (length (TranscriptRevision.segments r))) session_id r range limits expires now = Some pages
     /\ concat pages = filter (fun s => TranscriptSegment.intersects s range = true)
                         (TranscriptRevision.segments r)
     /\ forall i p, pages !! i = Some p ->
          Z.of_nat (length p) <= PageLimit.value (limits i)
          /\ ((S i < length pages)%nat -> Z.of_nat (length p) = PageLimit.value (limits i)))
  /\ (forall limit encoded later p,
        page_transcript session_id r (TranscriptPageRequest.mk range limit (Some encoded)) expires later = Ok p ->
        exists token, CursorToken.parse encoded = Ok token
          /\ CursorToken.session_id token = session_id
          /\ CursorToken.generation token = TranscriptRevision.number r
          /\ Ok (CursorToken.query_digest token) = transcript_query_digest (TranscriptRevision.id r) range
          /\ later < CursorToken.expires_at_micros token).
Proof.
  intros Hsession Hr Hexp Hnow Hlim. split.
  - destruct (follow_spec session_id r range expires now Hsession Hr Hexp Hnow limits
                (S (length (TranscriptRevision.segments r))) Hlim)
      as (pages & Hf & Hcat & Hpages).
    { unfold selected. rewrite drop_0. pose proof (length_filter
        (fun s => TranscriptSegment.intersects s range = true) (TranscriptRevision.segments r)). lia. }
    exists pages. split; [done|]. split; [exact Hcat|]. exact Hpages.
  - intros limit encoded later p Hp. unfold page_transcript in Hp. cbn zeta in Hp.
    cbn [TranscriptPageRequest.range TranscriptPageRequest.cursor TranscriptPageRequest.limit] in Hp.
    apply bind_Ok in Hp as (digest & Hd & Hp). apply bind_Ok in Hp as (after & Ha & _).
    apply bind_Ok in Ha as (token & Ht & Ha). apply bind_Ok in Ha as ([] & Hs & _).
    apply validate_scope_spec in Hs as (H1 & H2 & H3 & H4). exists token. rewrite H4, Hd. done.
Qed.

(** A digest for examples: thirty-two bytes that depend on the length only. *)
Definition length_digest : Sha256 := fun bytes => replicate 32 (ascii_of_nat (length bytes)).

Lemma length_digest_laws : Sha256Laws (H := length_digest).
Proof. intros bytes. apply length_replicate. Qed.

Lemma pages_complete_witness :
  let session : OpaqueId SessionId := mkOpaqueId (literal "ses_0123456789abcdef") in
  let r := sample_revision sample_ranges in
  exists pages,
    follow (H := length_digest) 5 session r (TimeRange.mk 0 3500000) (fun _ => PageLimit.mk 2)
      2000000 1000000 = Some pages
    /\ (fun p : list TranscriptSegment.t => TranscriptSegment.ordinal <$> p) <$> pages = [[1; 2]; [3]]
    /\ concat pages = filter (fun s => TranscriptSegment.intersects s (TimeRange.mk 0 3500000) = true)
                        (TranscriptRevision.segments r).
Proof.
  cbn zeta.
  destruct (pages_complete (H := length_digest) (H0 := length_digest_laws)
    (mkOpaqueId (literal "ses_0123456789abcdef")) (sample_revision sample_ranges)
    (TimeRange.mk 0 3500000) (fun _ => PageLimit.mk 2) 2000000 1000000) as [(pages & Hf & Hcat & _) _].
  - exists (literal "0123456789abcdef"). split; [reflexivity|]. split; [cbn; lia|].
    repeat (constructor; [first [right; concrete | left; concrete]|]). constructor.
  - constructor; [concrete|concrete|vm_compute; reflexivity|apply sample_ranges_sorted].
  - concrete.
  - lia.
  - intros _. cbn. lia.
  - exists pages. split; [exact Hf|]. split; [|exact Hcat].
    assert (E : Some pages = follow (H := length_digest) 5 (mkOpaqueId (literal "ses_0123456789abcdef"))
      (sample_revision sample_ranges) (TimeRange.mk 0 3500000) (fun _ => PageLimit.mk 2)
      2000000 1000000) by (symmetry; exact Hf).
    vm_compute in E. injection E as ->. vm_compute. reflexivity.
Defined.
