(* ===== verification/RevisionBuild.v ===== *)
(** * RevisionBuild: from a parsed file or a finished run to a revision

    Models, of [crates/vsift-application/src/transcript.rs], the assembly of
    an imported revision; and of [crates/vsift-application/src/asr.rs] the
    assembly of a revision from a recognition run: the earlier segments a
    retranscription carries, the order and identity of its segments, and the
    sealed, open and stopped revisions made of them. *)

From stdpp Require Import relations.
From S2P Require Import Prelude.
From S2P Require Import Text.
From S2P Require Import Timeline.
From S2P Require Import Spans.
From S2P Require Import Identity.
From S2P Require Import AsrPlan.
From S2P Require Import AsrRun.
From S2P Require Import Cues.
From S2P Require Import AsrOutput.
From S2P Require Import SeamMerge.
From S2P Require Import Revision.
From S2P Require Import Coverage.
From S2P Require Import DerivedIdentity.

#[global] Instance SourceSegmentState_eq_dec : EqDecision SourceSegmentState.
Proof. solve_decision. Defined.
#[global] Instance SourceSegment_eq_dec : EqDecision SourceSegment.t.
Proof. solve_decision. Defined.

Inductive TranscriptBuildError :=
| Rejected (e : TranscriptImportError.t)
| Invalid (e : TranscriptRevisionError).

Definition format_identifier (f : TranscriptFormat) : text :=
  match f with Srt => literal "srt" | WebVtt => literal "webvtt" end.

(** [i64::to_string] *)
Definition signed_decimal (n : Z) : text :=
  if n <? 0 then literal "-" ++ decimal (- n) else decimal n.

(** ** Imported revisions *)

Module SuppliedTranscript.
Record t := mk { transcript : ParsedTranscript.t; sidecar : SidecarIdentity.t }.
End SuppliedTranscript.

Module ImportedRevisionRequest.
Record t := mk {
  session_id : OpaqueId SessionId;
  source_id : DigestId SourceId;
  source_duration : MediaTime;
  supplied : SuppliedTranscript.t;
  offset : TranscriptOffset.t;
  number : Z
}.
End ImportedRevisionRequest.

(** [u32::try_from(position)], [NonZeroU32::new]. *)
Definition ordinal_of (position : Z) : result Z TranscriptBuildError :=
  ok_or (ordinal ← checked_u32 position; if ordinal =? 0 then None else Some ordinal)
    (Invalid TooManySegments).

(** The loop that makes a segment of every aligned cue. *)
Fixpoint cue_segments `{Sha256} (revision : OpaqueId TranscriptRevisionId) (index : nat)
    (aligned : list AlignedCue.t) : result (list TranscriptSegment.t) TranscriptBuildError :=
  match aligned with
  | [] => Ok []
  | a :: rest =>
      let? ordinal := ordinal_of (Z.of_nat index + 1) in
      let? id := map_err Invalid (transcript_segment_id revision ordinal) in
      let cue := AlignedCue.cue a in
      let segment := TranscriptSegment.new
        (TranscriptSegmentParts.mk id ordinal (AlignedCue.range a) (ImportedCue.cue_text cue)
           (ImportedCue.speaker cue) Confidence.unknown
           (CueOrigin (ImportedCue.source cue) (ImportedCue.timing cue))) in
      let? segments := cue_segments revision (S index) rest in
      Ok (segment :: segments)
  end.

Definition build_imported_revision `{Sha256} (request : ImportedRevisionRequest.t)
    : result TranscriptRevision.t TranscriptBuildError :=
  let supplied := ImportedRevisionRequest.supplied request in
  let transcript := SuppliedTranscript.transcript supplied in
  let offset := ImportedRevisionRequest.offset request in
  let? source_segment := map_err Invalid
    (whole_file_source_segment (ImportedRevisionRequest.source_id request)
       (ImportedRevisionRequest.source_duration request)) in
  let? aligned := map_err Rejected (align_imported_cues transcript offset source_segment) in
  let? revision_id := map_err (fun _ => Invalid InvalidIdentity)
    (id_parse TranscriptRevisionId
       (derived_identity (literal "trv_") (literal "vsift.transcript-revision.v1")
          [as_str (ImportedRevisionRequest.session_id request);
           decimal (ImportedRevisionRequest.number request);
           SidecarIdentity.sha256 (SuppliedTranscript.sidecar supplied);
           format_identifier (ParsedTranscript.format transcript);
           signed_decimal (TranscriptOffset.as_micros offset)])) in
  let? segments := cue_segments revision_id 0 aligned.1 in
  map_err Invalid
    (Revision.new
       (TranscriptRevisionParts.mk revision_id (ImportedRevisionRequest.number request)
          (ImportedRevisionRequest.source_id request) source_segment
          (Imported (ParsedTranscript.format transcript) (SuppliedTranscript.sidecar supplied) offset)
          None None [] [] [] (ParsedTranscript.language transcript) segments aligned.2)).

(** ** Recognized revisions *)

Module AsrTranscription.
Record t := mk {
  run : AsrRun.t;
  language : option LanguageTag.t;
  segments : list MergedSegment.t;
  unplaced : list TimeRange.t;
  warnings : TranscriptWarnings.t
}.
End AsrTranscription.

Module RevisionSplice.
Record t := mk { base : TranscriptRevision.t; replaced_range : TimeRange.t }.
End RevisionSplice.

Module AsrRevisionRequest.
Record t := mk {
  session_id : OpaqueId SessionId;
  source_id : DigestId SourceId;
  source_segment : SourceSegment.t;
  number : Z;
  transcription : AsrTranscription.t;
  splice : option RevisionSplice.t
}.
End AsrRevisionRequest.

Definition retranscription_range (newest : option TranscriptRevision.t) (requested : option TimeRange.t)
    (source : TimeRange.t) : TimeRange.t :=
  match newest, requested with
  | _, None => source
  | Some newest, Some range => snap_to_segments newest range
  | None, Some range => range
  end.

Inductive Assembled :=
| Own (merged : MergedSegment.t)
| Carried (segment : TranscriptSegment.t) (carried_from : CarriedFrom.t).

Definition assembled_range (a : Assembled) : TimeRange.t :=
  match a with
  | Own merged => AsrSegmentDraft.range (MergedSegment.segment merged)
  | Carried segment _ => TranscriptSegment.range segment
  end.

Definition order_key (a : Assembled) : Z * Z * Z :=
  (TimeRange.start (assembled_range a), TimeRange.end_ (assembled_range a),
   match a with Carried _ _ => 0 | Own _ => 1 end).

(** The order of the keys, which are tuples. *)
Definition key_le (a b : Assembled) : Prop :=
  let '(s, e, k) := order_key a in
  let '(s', e', k') := order_key b in
  s < s' \/ s = s' /\ (e < e' \/ e = e' /\ k <= k').

#[export] Instance key_le_dec : RelDecision key_le.
Proof. intros a b. unfold key_le, order_key. apply _. Defined.

(** One turn of the loop of [carried_segments], for a segment that is kept. *)
Definition origin_of (base : TranscriptRevision.t) (segment : TranscriptSegment.t)
    : result (CarriedFrom.t * InheritedRevision.t) TranscriptBuildError :=
  match TranscriptSegment.carried_from segment with
  | Some carried_from =>
      let? source := ok_or (find (fun entry => bool_decide (InheritedRevision.id entry
                                                            = CarriedFrom.revision carried_from))
                              (TranscriptRevision.inherited base)) (Invalid InvalidCarriedSegment) in
      Ok (carried_from, source)
  | None =>
      Ok (CarriedFrom.mk (TranscriptRevision.id base) (TranscriptSegment.id segment),
          InheritedRevision.mk (TranscriptRevision.id base) (TranscriptRevision.provenance base)
            (TranscriptRevision.language base))
  end.

(** An entry is recorded at its first use. *)
Definition inherit (inherited : list InheritedRevision.t) (source : InheritedRevision.t)
    : list InheritedRevision.t :=
  if existsb (fun entry => bool_decide (InheritedRevision.id entry = InheritedRevision.id source)) inherited
  then inherited else inherited ++ [source].

Fixpoint carry_loop (base : TranscriptRevision.t) (rule : EarlierTextRule.t)
    (wanted : TranscriptSegment.t -> bool) (carried : list Assembled)
    (inherited : list InheritedRevision.t) (l : list TranscriptSegment.t)
    : result (list Assembled * list InheritedRevision.t) TranscriptBuildError :=
  match l with
  | [] => Ok (carried, inherited)
  | segment :: rest =>
      if negb (EarlierTextRule.carries rule (TranscriptSegment.range segment)) || negb (wanted segment)
      then carry_loop base rule wanted carried inherited rest
      else
        let? found := origin_of base segment in
        carry_loop base rule wanted (carried ++ [Carried segment found.1]) (inherit inherited found.2) rest
  end.

Definition carried_segments (splice : RevisionSplice.t) (rule : EarlierTextRule.t)
    (wanted : TranscriptSegment.t -> bool)
    : result (list Assembled * list InheritedRevision.t) TranscriptBuildError :=
  carry_loop (RevisionSplice.base splice) rule wanted [] []
    (TranscriptRevision.segments (RevisionSplice.base splice)).

Definition identified (id : OpaqueId TranscriptSegmentId) (ordinal : Z) (entry : Assembled)
    : TranscriptSegment.t :=
  match entry with
  | Own merged =>
      let segment := MergedSegment.segment merged in
      TranscriptSegment.new
        (TranscriptSegmentParts.mk id ordinal (AsrSegmentDraft.range segment)
           (AsrSegmentDraft.cue_text segment) None (AsrSegmentDraft.confidence segment)
           (AsrOrigin (MergedSegment.chunk merged) (AsrSegmentDraft.provider_start segment)
              (AsrSegmentDraft.provider_end segment) (AsrSegmentDraft.trimmed segment)))
  | Carried segment carried_from =>
      TranscriptSegment.with_carried_from
        (TranscriptSegment.new
           (TranscriptSegmentParts.mk id ordinal (TranscriptSegment.range segment)
              (TranscriptSegment.cue_text segment) (TranscriptSegment.speaker segment)
              (TranscriptSegment.confidence segment) (TranscriptSegment.origin segment)))
        carried_from
  end.

Fixpoint identified_segments_from `{Sha256} (revision : OpaqueId TranscriptRevisionId) (before : nat)
    (assembled : list Assembled) : result (list TranscriptSegment.t) TranscriptBuildError :=
  match assembled with
  | [] => Ok []
  | entry :: rest =>
      let? ordinal := ordinal_of (Z.of_nat before + 1) in
      let? id := map_err Invalid (transcript_segment_id revision ordinal) in
      let? segments := identified_segments_from revision (S before) rest in
      Ok (identified id ordinal entry :: segments)
  end.

Definition splice_mismatched (request : AsrRevisionRequest.t) (covered : TimeRange.t) : bool :=
  match AsrRevisionRequest.splice request with
  | None => false
  | Some splice =>
      let base := RevisionSplice.base splice in
      negb (bool_decide (RevisionSplice.replaced_range splice = covered))
      || negb (bool_decide (TranscriptRevision.source_id base = AsrRevisionRequest.source_id request))
      || negb (bool_decide (TranscriptRevision.source_segment base
                            = AsrRevisionRequest.source_segment request))
      || (AsrRevisionRequest.number request <=? TranscriptRevision.number base)
  end.

(** Whether the run has not heard all of its range. *)
Definition any_unusable (run : AsrRun.t) : bool :=
  existsb (fun record => left_unread (AsrChunkRecord.outcome record) || is_pending record)
    (AsrRun.chunks run).

Definition revision_material (request : AsrRevisionRequest.t) (covered : TimeRange.t) : list text :=
  let run := AsrTranscription.run (AsrRevisionRequest.transcription request) in
  [as_str (AsrRevisionRequest.session_id request);
   decimal (AsrRevisionRequest.number request);
   as_str (SourceSegment.id (AsrRevisionRequest.source_segment request));
   provider_identifier (AsrProviderBuild.provider (AsrRun.provider run));
   Sha256Hex.as_str (AsrProviderBuild.executable_sha256 (AsrRun.provider run));
   profile_identifier (AsrModel.profile (AsrRun.model run));
   Sha256Hex.as_str (AsrModel.sha256 (AsrRun.model run));
   decoding_identifier (AsrRun.decoding run);
   decimal (ChunkPlan.window_us (AsrRun.plan run));
   decimal (ChunkPlan.overlap_us (AsrRun.plan run));
   decimal (AsrRun.threads run);
   decimal (AsrRun.audio_stream run);
   decimal (TimeRange.start covered);
   decimal (TimeRange.end_ covered);
   match AsrRevisionRequest.splice request with
   | Some splice => as_str (TranscriptRevision.id (RevisionSplice.base splice))
   | None => []
   end].

Definition assemble_asr_revision `{Sha256} (request : AsrRevisionRequest.t)
    : result TranscriptRevisionParts.t TranscriptBuildError :=
  let transcription := AsrRevisionRequest.transcription request in
  let run := AsrTranscription.run transcription in
  let own := AsrTranscription.segments transcription in
  let? covered := ok_or (AsrRun.covered_range run) (Invalid InvalidAsrRun) in
  if splice_mismatched request covered then Err (Invalid InvalidSupersession)
  else
    let? revision_id := map_err (fun _ => Invalid InvalidIdentity)
      (id_parse TranscriptRevisionId
         (derived_identity (literal "trv_") (literal "vsift.transcript-revision.local-asr.v1")
            (revision_material request covered))) in
    let warnings :=
      if bool_decide (own = []) && negb (any_unusable run)
      then TranscriptWarnings.add (AsrTranscription.warnings transcription)
             TranscriptWarningKind.NoSpeechRecognised 1 1
      else AsrTranscription.warnings transcription in
    let? kept :=
      match AsrRevisionRequest.splice request with
      | Some splice =>
          let replaced := RevisionSplice.replaced_range splice in
          let rule := EarlierTextRule.new replaced run
                        ((fun m => AsrSegmentDraft.range (MergedSegment.segment m)) <$> own) in
          let? found := carried_segments splice rule (fun _ => true) in
          Ok (found.1, found.2, carried_untranscribed_for (RevisionSplice.base splice) replaced found.2)
      | None => Ok ([], [], [])
      end in
    let assembled := stable_sort key_le (kept.1.1 ++ (Own <$> own)) in
    let? segments := identified_segments_from revision_id 0 assembled in
    Ok (TranscriptRevisionParts.mk revision_id (AsrRevisionRequest.number request)
          (AsrRevisionRequest.source_id request) (AsrRevisionRequest.source_segment request)
          (LocalAsr run)
          ((fun splice => TranscriptRevision.id (RevisionSplice.base splice))
             <$> AsrRevisionRequest.splice request)
          (RevisionSplice.replaced_range <$> AsrRevisionRequest.splice request)
          kept.1.2 kept.2 (AsrTranscription.unplaced transcription)
          (AsrTranscription.language transcription) segments warnings).

Definition build_asr_revision `{Sha256} (request : AsrRevisionRequest.t)
    : result TranscriptRevision.t TranscriptBuildError :=
  let? parts := assemble_asr_revision request in
  map_err Invalid (Revision.new parts).

(** ** Specification *)

(** Where a segment of a base was first made. *)
Definition first_made (base : TranscriptRevision.t) (s : TranscriptSegment.t) : CarriedFrom.t :=
  match TranscriptSegment.carried_from s with
  | Some carried => carried
  | None => CarriedFrom.mk (TranscriptRevision.id base) (TranscriptSegment.id s)
  end.

(** The entry that keeps what made it. *)
Definition maker (base : TranscriptRevision.t) (s : TranscriptSegment.t) : InheritedRevision.t :=
  default (InheritedRevision.mk (TranscriptRevision.id base) (TranscriptRevision.provenance base)
             (TranscriptRevision.language base)) (segment_source base s).

(** All that is said of a segment, and the provenance it can be checked
    against. *)
Definition evidence (r : TranscriptRevision.t) (s : TranscriptSegment.t) :=
  (TranscriptSegment.range s, TranscriptSegment.cue_text s, TranscriptSegment.speaker s,
   TranscriptSegment.confidence s, TranscriptSegment.origin s, segment_provenance r s,
   segment_language r s).

Definition own_evidence (run : AsrRun.t) (language : option LanguageTag.t) (m : MergedSegment.t) :=
  let segment := MergedSegment.segment m in
  (AsrSegmentDraft.range segment, AsrSegmentDraft.cue_text segment, @None SpeakerLabel.t,
   AsrSegmentDraft.confidence segment,
   AsrOrigin (MergedSegment.chunk m) (AsrSegmentDraft.provider_start segment)
     (AsrSegmentDraft.provider_end segment) (AsrSegmentDraft.trimmed segment), LocalAsr run, language).

(** A segment of the run, as the validation of its chunk left it. *)
Definition own_valid (source : SourceSegment.t) (run : AsrRun.t) (m : MergedSegment.t) : Prop :=
  let s := identified (mkOpaqueId []) 1 (Own m) in
  segment_typed s /\ derived (LocalAsr run) s
  /\ range_within (TranscriptSegment.range s) (SourceSegment.range source).

(** ** The segments carried *)

Section Carry.
Context (base : TranscriptRevision.t) (until : option MediaTime).
Context (Hc : consistent (parts_of base) until).

Lemma inherited_found s carried :
  s ∈ TranscriptRevision.segments base -> TranscriptSegment.carried_from s = Some carried ->
  exists entry, segment_source base s = Some entry /\ entry ∈ TranscriptRevision.inherited base
    /\ InheritedRevision.id entry = CarriedFrom.revision carried.
Proof.
  intros Hin Hcf. pose proof (all_citable _ _ (segments_good _ _ Hc)) as Hall. cbn in Hall.
  rewrite Forall_forall in Hall. destruct (Hall s Hin) as (p & Hm & _). unfold made_by in Hm.
  rewrite Hcf in Hm. destruct Hm as (e & He & Hid & _). cbn in He.
  unfold segment_source. rewrite Hcf. cbn [mbind option_bind].
  pose proof (NoDup_cons_1_2 _ _ (inherited_distinct _ _ Hc)) as Hd. cbn in Hd.
  exists e. split; [|done]. apply ok_or_Ok with (e := InvalidCarriedSegment).
  apply (inherited_by_id_spec (parts_of base)); [exact Hd|]. done.
Qed.

Lemma origin_of_spec s :
  s ∈ TranscriptRevision.segments base -> origin_of base s = Ok (first_made base s, maker base s).
Proof.
  intros Hin. unfold origin_of, first_made, maker.
  destruct (TranscriptSegment.carried_from s) as [carried|] eqn:Ecf.
  - destruct (inherited_found s carried Hin Ecf) as (entry & Hs & _ & _). rewrite Hs.
    unfold segment_source in Hs. rewrite Ecf in Hs. cbn [mbind option_bind] in Hs. by rewrite Hs.
  - unfold segment_source. by rewrite Ecf.
Qed.

Lemma carry_loop_spec rule wanted l carried inherited :
  Forall (fun s => s ∈ TranscriptRevision.segments base) l ->
  let kept := filter (fun s => EarlierTextRule.carries rule (TranscriptSegment.range s) && wanted s = true) l in
  carry_loop base rule wanted carried inherited l
  = Ok (carried ++ ((fun s => Carried s (first_made base s)) <$> kept),
        fold_left inherit (maker base <$> kept) inherited).
Proof.
  intros Hl. cbn zeta. revert carried inherited. induction Hl as [|s l Hs Hl IH]; intros carried inherited.
  { cbn. by rewrite app_nil_r. }
  cbn [carry_loop]. rewrite filter_cons. rewrite <- negb_andb.
  destruct (_ && _) eqn:E; cbn [negb].
  - rewrite decide_True by done. rewrite (origin_of_spec s Hs). cbn [result_bind fst snd].
    rewrite IH. cbn [fmap list_fmap fold_left]. by rewrite <- app_assoc.
  - rewrite decide_False by done. apply IH.
Qed.

(** The makers of the base's segments have an identity each. *)
Lemma maker_cases s :
  s ∈ TranscriptRevision.segments base ->
  InheritedRevision.id (maker base s) = CarriedFrom.revision (first_made base s)
  /\ ((TranscriptSegment.carried_from s <> None /\ maker base s ∈ TranscriptRevision.inherited base)
      \/ (TranscriptSegment.carried_from s = None
          /\ maker base s = InheritedRevision.mk (TranscriptRevision.id base)
                              (TranscriptRevision.provenance base) (TranscriptRevision.language base))).
Proof.
  intros Hin. unfold maker, first_made. destruct (TranscriptSegment.carried_from s) as [carried|] eqn:Ecf.
  - destruct (inherited_found s carried Hin Ecf) as (entry & -> & He & Hid). cbn. split; [done|].
    left. by split.
  - unfold segment_source. rewrite Ecf. cbn. split; [done|]. right. by split.
Qed.

Lemma maker_inj s s' :
  s ∈ TranscriptRevision.segments base -> s' ∈ TranscriptRevision.segments base ->
  InheritedRevision.id (maker base s) = InheritedRevision.id (maker base s') -> maker base s = maker base s'.
Proof.
  intros Hin Hin' Hid. pose proof (inherited_distinct _ _ Hc) as Hd. cbn in Hd.
  apply NoDup_cons in Hd as [Hnot Hd].
  assert (Hinj : forall e e', e ∈ TranscriptRevision.inherited base -> e' ∈ TranscriptRevision.inherited base ->
    InheritedRevision.id e = InheritedRevision.id e' -> e = e').
  { intros e e' He He' Heq.
    pose proof (proj2 (inherited_by_id_spec (parts_of base) Hd (InheritedRevision.id e') e) (conj He Heq)) as F1.
    pose proof (proj2 (inherited_by_id_spec (parts_of base) Hd (InheritedRevision.id e') e') (conj He' eq_refl)) as F2.
    congruence. }
  assert (Hne : forall e, e ∈ TranscriptRevision.inherited base -> InheritedRevision.id e <> TranscriptRevision.id base).
  { intros e He Heq. apply Hnot. rewrite <- Heq. by apply list_elem_of_fmap_2. }
  destruct (maker_cases s Hin) as [_ [[_ H1]|[_ H1]]], (maker_cases s' Hin') as [_ [[_ H2]|[_ H2]]].
  - by apply Hinj.
  - rewrite H2 in Hid. by apply Hne in H1.
  - rewrite H1 in Hid. symmetry in Hid. by apply Hne in H2.
  - by rewrite H1, H2.
Qed.
End Carry.

(** What recording the makers at their first use leaves. *)
Lemma inherit_all (l inherited : list InheritedRevision.t) :
  (forall e e', e ∈ inherited ++ l -> e' ∈ inherited ++ l -> InheritedRevision.id e = InheritedRevision.id e' -> e = e') ->
  NoDup (InheritedRevision.id <$> inherited) ->
  let all := fold_left inherit l inherited in
  NoDup (InheritedRevision.id <$> all) /\ forall e, e ∈ all <-> e ∈ inherited \/ e ∈ l.
Proof.
  cbn zeta. revert inherited. induction l as [|a l IH]; intros inherited Hinj Hd; cbn [fold_left].
  { split; [done|]. intros e. rewrite elem_of_nil. tauto. }
  unfold inherit at 2 4. destruct (existsb _ inherited) eqn:E.
  - destruct (IH inherited) as [H1 H2]; [|done|].
    { intros e e' He He'. apply Hinj; rewrite elem_of_app, elem_of_cons in *; tauto. }
    split; [done|]. intros e. rewrite H2, elem_of_cons.
    apply existsb_exists in E as (b & Hb & Heq). rewrite bool_decide_eq_true in Heq.
    rewrite <- list_elem_of_In in Hb.
    assert (b = a) as <- by (apply Hinj; rewrite ?elem_of_app, ?elem_of_cons; tauto). naive_solver.
  - apply existsb_false in E. rewrite Forall_forall in E. destruct (IH (inherited ++ [a])) as [H1 H2].
    + intros e e' He He'. rewrite <- app_assoc in He, He'. by apply Hinj.
    + rewrite fmap_app. apply NoDup_app. split; [done|]. split; [|apply NoDup_singleton].
      intros x Hx Hx'. apply list_elem_of_singleton in Hx' as ->. apply list_elem_of_fmap in Hx as (b & Hid & Hb).
      specialize (E b Hb). by rewrite bool_decide_eq_false in E.
    + split; [done|]. intros e. rewrite H2, elem_of_app, list_elem_of_singleton, elem_of_cons. tauto.
Qed.

(** ** The segments identified *)

Section Identified.
Context `{Sha256Laws} (revision : OpaqueId TranscriptRevisionId).

Definition identify (before i : nat) (entry : Assembled) : TranscriptSegment.t :=
  identified (segment_id_of revision (Z.of_nat (before + i) + 1)) (Z.of_nat (before + i) + 1) entry.

Lemma identified_segments_spec before assembled :
  Z.of_nat before + Z.of_nat (length assembled) <= U32_MAX ->
  identified_segments_from revision before assembled = Ok (imap (identify before) assembled).
Proof.
  revert before. induction assembled as [|entry rest IH]; intros before Hlen; [done|].
  cbn [length] in Hlen. cbn [identified_segments_from]. unfold ordinal_of, checked_u32.
  rewrite checked_in by ulia. cbn [mbind option_bind]. rewrite (proj2 (Z.eqb_neq _ _)) by lia.
  cbn [ok_or result_bind]. rewrite transcript_segment_id_spec. cbn [map_err result_bind].
  rewrite IH by ulia. cbn [result_bind]. rewrite imap_cons. f_equal. f_equal.
  - unfold identify. by rewrite Nat.add_0_r.
  - apply imap_ext. intros i x _. unfold identify, compose. by replace (S before + i)%nat with (before + S i)%nat by lia.
Qed.

Lemma identified_range id ordinal entry :
  TranscriptSegment.range (identified id ordinal entry) = assembled_range entry.
Proof. by destruct entry. Qed.

Lemma identify_ordinals before assembled :
  TranscriptSegment.ordinal <$> imap (identify before) assembled
  = seqZ (Z.of_nat before + 1) (Z.of_nat (length assembled)).
Proof.
  apply list_eq. intros i. rewrite list_lookup_fmap, list_lookup_imap.
  destruct (assembled !! i) as [e|] eqn:E; cbn.
  - apply lookup_lt_Some in E. rewrite lookup_seqZ_lt by lia. f_equal. destruct e; cbn; lia.
  - apply lookup_ge_None in E. symmetry. apply lookup_seqZ_ge. lia.
Qed.

Lemma identify_ids before assembled :
  (forall i j, (before < i <= before + length assembled)%nat -> (before < j <= before + length assembled)%nat ->
     segment_id_of revision (Z.of_nat i) = segment_id_of revision (Z.of_nat j) -> i = j) ->
  NoDup (TranscriptSegment.id <$> imap (identify before) assembled).
Proof.
  intros Hinj. apply NoDup_alt. intros i j x.
  assert (Hat : forall i, (TranscriptSegment.id <$> imap (identify before) assembled) !! i = Some x ->
    (i < length assembled)%nat /\ x = segment_id_of revision (Z.of_nat (before + i + 1))).
  { intros k. rewrite list_lookup_fmap, list_lookup_imap. destruct (assembled !! k) as [e|] eqn:E; [|done].
    apply lookup_lt_Some in E. cbn. intros [= <-]. split; [done|].
    replace (Z.of_nat (before + k + 1)) with (Z.of_nat (before + k) + 1) by lia. by destruct e. }
  intros [Hi ->]%Hat [Hj Heq]%Hat. apply Hinj in Heq; lia.
Qed.

Lemma imap_fmap_in {A B C} (f : nat -> A -> B) (g : B -> C) (h : A -> C) (l : list A) :
  (forall i a, a ∈ l -> g (f i a) = h a) -> g <$> imap f l = h <$> l.
Proof.
  intros Hgh. apply list_eq. intros i. rewrite !list_lookup_fmap, list_lookup_imap.
  destruct (l !! i) as [a|] eqn:E; cbn; [|done]. rewrite Hgh; [done|]. by eapply list_elem_of_lookup_2.
Qed.

Lemma Forall_imap {A B} (f : nat -> A -> B) (P : B -> Prop) (Q : A -> Prop) (l : list A) :
  (forall i a, Q a -> P (f i a)) -> Forall Q l -> Forall P (imap f l).
Proof.
  intros HPQ. rewrite !Forall_lookup. intros HQ i b. rewrite list_lookup_imap.
  destruct (l !! i) as [a|] eqn:E; [|done]. cbn. intros [= <-]. by apply HPQ, (HQ i).
Qed.
End Identified.

(** ** The order of the segments *)

#[export] Instance key_le_total : Total key_le.
Proof. intros a b. unfold key_le, order_key. lia. Qed.

#[export] Instance key_le_trans : Transitive key_le.
Proof. intros a b c. unfold key_le, order_key. lia. Qed.

Lemma assembled_sorted l :
  StronglySorted Z.le ((fun a => TimeRange.start (assembled_range a)) <$> stable_sort key_le l).
Proof.
  pose proof (StronglySorted_stable_sort key_le l) as Hs. induction Hs as [|a l' Hs IH Hf]; [constructor|].
  constructor; [exact IH|]. apply Forall_fmap. eapply Forall_impl; [exact Hf|]. intros b.
  unfold key_le, order_key. cbn. lia.
Qed.

(** The rule does not depend on the order of what was written. *)
Lemma merged_permuted l l' : nonneg l -> l ≡ₚ l' -> merged l = merged l'.
Proof.
  intros Hn Hp. assert (Hn' : nonneg l') by (unfold nonneg; by rewrite <- Hp).
  apply (canon_unique (-1)); [by apply merged_canonical..|]. intros x.
  rewrite !merged_covers by done. by apply covers_perm.
Qed.

Lemma rule_permuted replaced run l l' :
  Forall TimeRange.wf l -> l ≡ₚ l' -> EarlierTextRule.new replaced run l = EarlierTextRule.new replaced run l'.
Proof.
  intros Hw Hp. unfold EarlierTextRule.new. f_equal. apply merged_permuted; [by apply ranges_nonneg|].
  by rewrite Hp.
Qed.

(** ** The parts assembled *)

Definition own_written (request : AsrRevisionRequest.t) : list TimeRange.t :=
  (fun m => AsrSegmentDraft.range (MergedSegment.segment m))
    <$> AsrTranscription.segments (AsrRevisionRequest.transcription request).

(** The segments of the base that the rule keeps. *)
Definition kept_of (request : AsrRevisionRequest.t) (splice : RevisionSplice.t) : list TranscriptSegment.t :=
  let rule := EarlierTextRule.new (RevisionSplice.replaced_range splice)
                (AsrTranscription.run (AsrRevisionRequest.transcription request)) (own_written request) in
  filter (fun s => EarlierTextRule.carries rule (TranscriptSegment.range s) = true)
    (TranscriptRevision.segments (RevisionSplice.base splice)).

Definition carried_of (request : AsrRevisionRequest.t) : list Assembled :=
  match AsrRevisionRequest.splice request with
  | Some splice => (fun s => Carried s (first_made (RevisionSplice.base splice) s)) <$> kept_of request splice
  | None => []
  end.

Definition inherited_of (request : AsrRevisionRequest.t) : list InheritedRevision.t :=
  match AsrRevisionRequest.splice request with
  | Some splice => fold_left inherit (maker (RevisionSplice.base splice) <$> kept_of request splice) []
  | None => []
  end.

Definition untranscribed_of (request : AsrRevisionRequest.t) : list TimeRange.t :=
  match AsrRevisionRequest.splice request with
  | Some splice => carried_untranscribed_for (RevisionSplice.base splice)
                     (RevisionSplice.replaced_range splice) (inherited_of request)
  | None => []
  end.

Definition assembled_of (request : AsrRevisionRequest.t) : list Assembled :=
  stable_sort key_le
    (carried_of request ++ (Own <$> AsrTranscription.segments (AsrRevisionRequest.transcription request))).

Definition revision_id_of `{Sha256} (request : AsrRevisionRequest.t) (covered : TimeRange.t)
    : OpaqueId TranscriptRevisionId :=
  mkOpaqueId (literal "trv_" ++ identity_suffix
    (material (literal "vsift.transcript-revision.local-asr.v1") (revision_material request covered))).

(** What is asked of a request: a run that read its range of the source to the
    end, its own segments and unplaced stretches as the merge leaves them, and,
    of a splice, that its base is a sound revision of the same source, numbered
    before, whose replaced range is what the run covered. *)
Record splice_valid (request : AsrRevisionRequest.t) (covered : TimeRange.t) (splice : RevisionSplice.t)
    : Prop := {
  splice_base_sound : sound_revision (RevisionSplice.base splice);
  splice_range : RevisionSplice.replaced_range splice = covered;
  splice_source : TranscriptRevision.source_id (RevisionSplice.base splice)
                  = AsrRevisionRequest.source_id request;
  splice_segment : TranscriptRevision.source_segment (RevisionSplice.base splice)
                   = AsrRevisionRequest.source_segment request;
  splice_number : TranscriptRevision.number (RevisionSplice.base splice) < AsrRevisionRequest.number request
}.

Record request_valid (request : AsrRevisionRequest.t) (covered : TimeRange.t) : Prop := {
  valid_source : TimeRange.wf (SourceSegment.range (AsrRevisionRequest.source_segment request));
  valid_run : let run := AsrTranscription.run (AsrRevisionRequest.transcription request) in
    run_typed run /\ run_whole run /\ run_in (AsrRevisionRequest.source_segment request) run
    /\ AsrRun.covered_range run = Some covered;
  valid_own : Forall (own_valid (AsrRevisionRequest.source_segment request)
                        (AsrTranscription.run (AsrRevisionRequest.transcription request)))
                (AsrTranscription.segments (AsrRevisionRequest.transcription request));
  valid_unplaced : let unplaced := AsrTranscription.unplaced (AsrRevisionRequest.transcription request) in
    Forall TimeRange.wf unplaced /\ canonical (span <$> unplaced)
    /\ (length unplaced <= MAX_UNPLACED_STRETCHES)%nat
    /\ Forall (fun r => range_within r covered) unplaced;
  valid_splice : forall splice, AsrRevisionRequest.splice request = Some splice ->
                   splice_valid request covered splice;
  valid_count : Z.of_nat (length (assembled_of request)) <= MAX_TRANSCRIPT_CUES
}.

(** The identities derived for a revision are its own: SHA-256 gives no two of
    the values it is asked for here the same first sixteen bytes. *)
Record no_clash `{Sha256} (request : AsrRevisionRequest.t) (covered : TimeRange.t) : Prop := {
  clash_segments : forall i j, 1 <= i <= Z.of_nat (length (assembled_of request)) ->
    1 <= j <= Z.of_nat (length (assembled_of request)) ->
    segment_id_of (revision_id_of request covered) i = segment_id_of (revision_id_of request covered) j -> i = j;
  clash_revision : forall splice, AsrRevisionRequest.splice request = Some splice ->
    revision_id_of request covered
      ∉ TranscriptRevision.id (RevisionSplice.base splice)
        :: (InheritedRevision.id <$> TranscriptRevision.inherited (RevisionSplice.base splice));
  clash_carried : forall splice, AsrRevisionRequest.splice request = Some splice ->
    NoDup ((fun s => CarriedFrom.segment (first_made (RevisionSplice.base splice) s))
             <$> TranscriptRevision.segments (RevisionSplice.base splice))
}.

Definition built_warnings (request : AsrRevisionRequest.t) : TranscriptWarnings.t :=
  let transcription := AsrRevisionRequest.transcription request in
  if bool_decide (AsrTranscription.segments transcription = [])
     && negb (any_unusable (AsrTranscription.run transcription))
  then TranscriptWarnings.add (AsrTranscription.warnings transcription)
         TranscriptWarningKind.NoSpeechRecognised 1 1
  else AsrTranscription.warnings transcription.

Definition parts_built `{Sha256} (request : AsrRevisionRequest.t) (covered : TimeRange.t)
    : TranscriptRevisionParts.t :=
  let transcription := AsrRevisionRequest.transcription request in
  TranscriptRevisionParts.mk (revision_id_of request covered) (AsrRevisionRequest.number request)
    (AsrRevisionRequest.source_id request) (AsrRevisionRequest.source_segment request)
    (LocalAsr (AsrTranscription.run transcription))
    ((fun splice => TranscriptRevision.id (RevisionSplice.base splice)) <$> AsrRevisionRequest.splice request)
    (RevisionSplice.replaced_range <$> AsrRevisionRequest.splice request)
    (inherited_of request) (untranscribed_of request) (AsrTranscription.unplaced transcription)
    (AsrTranscription.language transcription)
    (imap (identify (revision_id_of request covered) 0) (assembled_of request)) (built_warnings request).

Section Assemble.
Context `{Sha256Laws} (request : AsrRevisionRequest.t) (covered : TimeRange.t).
Context (Hv : request_valid request covered).

Lemma assemble_spec : assemble_asr_revision request = Ok (parts_built request covered).
Proof.
  unfold assemble_asr_revision. cbn zeta. destruct (valid_run _ _ Hv) as (_ & _ & _ & Hcov).
  rewrite Hcov. cbn [ok_or result_bind].
  change (literal "trv_") with (id_prefix TranscriptRevisionId). rewrite derived_identity_parses.
  cbn [map_err result_bind]. pose proof (valid_count _ _ Hv) as Hcount. unfold MAX_TRANSCRIPT_CUES in Hcount.
  unfold splice_mismatched, parts_built, built_warnings, assembled_of, carried_of, untranscribed_of, inherited_of in *.
  destruct (AsrRevisionRequest.splice request) as [splice|] eqn:Esp.
  - destruct (valid_splice _ _ Hv splice Esp) as [Hsound Hr Hsrc Hseg Hnum].
    rewrite Hr, Hsrc, Hseg, !bool_decide_true, (proj2 (Z.leb_gt _ _)) by done. cbn [negb orb].
    unfold carried_segments.
    rewrite (carry_loop_spec _ _ (sound_rules _ Hsound)) by (by apply Forall_forall).
    cbn [result_bind fst snd app fmap option_fmap option_map].
    assert (Hkept : filter (fun s => EarlierTextRule.carries (EarlierTextRule.new covered
        (AsrTranscription.run (AsrRevisionRequest.transcription request)) (own_written request))
        (TranscriptSegment.range s) && true = true) (TranscriptRevision.segments (RevisionSplice.base splice))
      = kept_of request splice).
    { unfold kept_of. cbn zeta. rewrite Hr. apply list_filter_iff. intros s. by rewrite andb_true_r. }
    unfold own_written in Hkept. rewrite Hkept.
    rewrite identified_segments_spec by ulia. cbn [result_bind]. rewrite Hr. reflexivity.
  - cbn [result_bind fst snd app fmap option_fmap option_map]. cbn [app] in Hcount.
    rewrite identified_segments_spec by ulia. reflexivity.
Qed.

(** *** What the base gives *)

Lemma kept_elem splice s : s ∈ kept_of request splice -> s ∈ TranscriptRevision.segments (RevisionSplice.base splice).
Proof. by intros [_ Hin]%list_elem_of_filter. Qed.

Lemma assembled_elem a :
  a ∈ assembled_of request
  <-> (exists splice s, AsrRevisionRequest.splice request = Some splice /\ s ∈ kept_of request splice
         /\ a = Carried s (first_made (RevisionSplice.base splice) s))
      \/ exists m, m ∈ AsrTranscription.segments (AsrRevisionRequest.transcription request) /\ a = Own m.
Proof.
  unfold assembled_of. rewrite stable_sort_Permutation, elem_of_app, (list_elem_of_fmap Own). unfold carried_of.
  destruct (AsrRevisionRequest.splice request) as [splice|].
  - rewrite list_elem_of_fmap. naive_solver.
  - rewrite elem_of_nil. naive_solver.
Qed.

(** The maker of a segment is what made it. *)
Lemma maker_makes base until s p :
  consistent (parts_of base) until -> s ∈ TranscriptRevision.segments base ->
  made_by (parts_of base) s p -> p = InheritedRevision.provenance (maker base s).
Proof.
  intros Hc Hin Hm. unfold made_by in Hm.
  destruct (TranscriptSegment.carried_from s) as [carried|] eqn:Ecf.
  - destruct Hm as (e & He & Hid & ->). cbn in He. unfold maker, segment_source. rewrite Ecf.
    cbn [mbind option_bind].
    pose proof (NoDup_cons_1_2 _ _ (inherited_distinct _ _ Hc)) as Hd.
    pose proof (proj2 (inherited_by_id_spec (parts_of base) Hd (CarriedFrom.revision carried) e) (conj He Hid)) as F.
    unfold inherited_by_id in F. apply ok_or_Ok in F. cbn in F. by rewrite F.
  - cbn in Hm. subst p. unfold maker, segment_source. by rewrite Ecf.
Qed.

Lemma inherited_spec splice :
  AsrRevisionRequest.splice request = Some splice ->
  NoDup (InheritedRevision.id <$> inherited_of request)
  /\ forall e, e ∈ inherited_of request
       <-> exists s, s ∈ kept_of request splice /\ e = maker (RevisionSplice.base splice) s.
Proof.
  intros Esp. destruct (valid_splice _ _ Hv splice Esp) as [Hsound _ _ _ _].
  unfold inherited_of. rewrite Esp.
  destruct (inherit_all (maker (RevisionSplice.base splice) <$> kept_of request splice) []) as [H1 H2].
  - intros e e'. cbn [app]. intros (s & -> & Hs)%list_elem_of_fmap (s' & -> & Hs')%list_elem_of_fmap.
    apply (maker_inj _ _ (sound_rules _ Hsound)); by apply kept_elem.
  - constructor.
  - split; [exact H1|]. intros e. rewrite H2, elem_of_nil, list_elem_of_fmap. naive_solver.
Qed.

Lemma inherited_none : AsrRevisionRequest.splice request = None -> inherited_of request = [].
Proof. intros E. unfold inherited_of. by rewrite E. Qed.

(** An inherited entry is the base itself or one of its own. *)
Lemma inherited_origin splice e :
  AsrRevisionRequest.splice request = Some splice -> e ∈ inherited_of request ->
  let base := RevisionSplice.base splice in
  e ∈ TranscriptRevision.inherited base
  \/ e = InheritedRevision.mk (TranscriptRevision.id base) (TranscriptRevision.provenance base)
           (TranscriptRevision.language base).
Proof.
  intros Esp He. apply (inherited_spec splice Esp) in He as (s & Hs & ->).
  destruct (valid_splice _ _ Hv splice Esp) as [Hsound _ _ _ _].
  destruct (maker_cases _ _ (sound_rules _ Hsound) s (kept_elem _ _ Hs)) as [_ [[_ ?]|[_ ?]]]; [by left|by right].
Qed.

Lemma inherited_typed : Forall (fun e => provenance_typed (InheritedRevision.provenance e)) (inherited_of request).
Proof.
  apply Forall_forall. intros e He. destruct (AsrRevisionRequest.splice request) as [splice|] eqn:Esp.
  - destruct (valid_splice _ _ Hv splice Esp) as [[Ht _ _] _ _ _ _].
    destruct (inherited_origin splice e Esp He) as [Hin| ->].
    + pose proof (typed_inherited _ Ht) as Hi. rewrite Forall_forall in Hi. by apply Hi.
    + apply (typed_provenance _ Ht).
  - rewrite inherited_none in He by done. by apply elem_of_nil in He.
Qed.

(** *** The segments of the result *)

Let revision := revision_id_of request covered.
Let result := imap (identify revision 0) (assembled_of request).

Lemma result_typed : Forall segment_typed result.
Proof.
  subst result. eapply (Forall_imap _ _ (fun a => segment_typed (identified (mkOpaqueId []) 1 a))).
  { intros i a. by destruct a. }
  apply Forall_forall. intros a [(splice & s & Esp & Hs & ->)|(m & Hm & ->)]%assembled_elem.
  - destruct (valid_splice _ _ Hv splice Esp) as [[Ht _ _] _ _ _ _].
    pose proof (typed_segments _ Ht) as Hall. rewrite Forall_forall in Hall. by apply (Hall s), kept_elem.
  - pose proof (valid_own _ _ Hv) as Hown. rewrite Forall_forall in Hown. by apply Hown.
Qed.

Lemma result_inside :
  Forall (fun s => range_within (TranscriptSegment.range s)
                     (SourceSegment.range (AsrRevisionRequest.source_segment request))) result.
Proof.
  subst result. eapply (Forall_imap _ _ (fun a => range_within (assembled_range a)
    (SourceSegment.range (AsrRevisionRequest.source_segment request)))).
  { intros i a Ha. unfold identify. by rewrite identified_range. }
  apply Forall_forall. intros a [(splice & s & Esp & Hs & ->)|(m & Hm & ->)]%assembled_elem.
  - destruct (valid_splice _ _ Hv splice Esp) as [Hsound _ _ Hseg _].
    pose proof (inside_source _ _ (segments_good _ _ (sound_rules _ Hsound))) as Hall. cbn in Hall.
    rewrite Hseg, Forall_forall in Hall. by apply (Hall s), kept_elem.
  - pose proof (valid_own _ _ Hv) as Hown. rewrite Forall_forall in Hown. by apply Hown.
Qed.

Lemma parts_built_typed : parts_typed (parts_built request covered).
Proof.
  destruct (valid_run _ _ Hv) as (Hrt & _ & _ & Hcov). pose proof (covered_range_wf _ _ Hrt Hcov) as Hcw.
  constructor; cbn.
  - apply Hv.
  - exact Hrt.
  - intros r Hr. destruct (AsrRevisionRequest.splice request) as [splice|] eqn:Esp; [|done].
    cbn in Hr. injection Hr as <-. by rewrite (splice_range _ _ _ (valid_splice _ _ Hv splice Esp)).
  - apply inherited_typed.
  - unfold untranscribed_of. destruct (AsrRevisionRequest.splice request) as [splice|] eqn:Esp; [|constructor].
    destruct (valid_splice _ _ Hv splice Esp) as [[Ht _ _] -> _ _ _].
    apply (recorded_wf _ _ _ _ _ (carried_untranscribed_spec _ _ _ _ Ht Hcw inherited_typed)).
  - apply (valid_unplaced _ _ Hv).
  - apply result_typed.
Qed.

Lemma omap_imap {A B C} (f : nat -> A -> B) (h : B -> option C) (k : A -> option C) (l : list A) :
  (forall i a, h (f i a) = k a) -> omap h (imap f l) = omap k l.
Proof.
  revert f. induction l as [|a l IH]; intros f Hf; [done|]. rewrite imap_cons. cbn [omap list_omap].
  rewrite Hf, (IH (f ∘ S)) by (intros i b; apply Hf). done.
Qed.

Lemma omap_fmap_all {A B C} (f : A -> B) (h : B -> option C) (g : A -> C) (l : list A) :
  (forall a, h (f a) = Some (g a)) -> omap h (f <$> l) = g <$> l.
Proof. intros Hf. induction l as [|a l IH]; [done|]. cbn. by rewrite Hf, IH. Qed.

Lemma omap_fmap_none {A B C} (f : A -> B) (h : B -> option C) (l : list A) :
  (forall a, h (f a) = None) -> omap h (f <$> l) = [].
Proof. intros Hf. induction l as [|a l IH]; [done|]. cbn. by rewrite Hf, IH. Qed.

Lemma own_ranges_omap (l : list TranscriptSegment.t) :
  own_ranges l = omap (fun s => if TranscriptSegment.is_own s then Some (TranscriptSegment.range s) else None) l.
Proof.
  unfold own_ranges. induction l as [|s l IH]; [done|]. rewrite filter_cons. cbn [omap list_omap].
  destruct (TranscriptSegment.is_own s); cbn [decide]; case_decide; try done. cbn. by rewrite IH.
Qed.

Lemma result_own_ranges : own_ranges result ≡ₚ own_written request.
Proof.
  rewrite own_ranges_omap. subst result.
  rewrite (omap_imap _ _ (fun a => match a with Own _ => Some (assembled_range a) | Carried _ _ => None end))
    by (by intros i []).
  unfold assembled_of. rewrite stable_sort_Permutation, omap_app. unfold carried_of, own_written.
  rewrite (omap_fmap_all Own _ (fun m => AsrSegmentDraft.range (MergedSegment.segment m))) by done.
  destruct (AsrRevisionRequest.splice request); [|done]. by rewrite omap_fmap_none.
Qed.

Lemma result_carried_from :
  omap TranscriptSegment.carried_from result
  ≡ₚ match AsrRevisionRequest.splice request with
     | Some splice => first_made (RevisionSplice.base splice) <$> kept_of request splice
     | None => []
     end.
Proof.
  subst result.
  rewrite (omap_imap _ _ (fun a => match a with Own _ => None | Carried _ c => Some c end))
    by (by intros i []).
  unfold assembled_of. rewrite stable_sort_Permutation, omap_app. unfold carried_of.
  rewrite (omap_fmap_none Own) by done. rewrite app_nil_r.
  destruct (AsrRevisionRequest.splice request); [|done]. erewrite omap_fmap_all; [done|]. done.
Qed.

Lemma carried_ids_fmap (l : list TranscriptSegment.t) :
  carried_ids l = CarriedFrom.segment <$> omap TranscriptSegment.carried_from l.
Proof.
  unfold carried_ids. induction l as [|s l IH]; [done|]. cbn [omap list_omap].
  destruct (TranscriptSegment.carried_from s); cbn; by rewrite IH.
Qed.

Lemma result_citable : Forall (citable (parts_built request covered)) result.
Proof.
  apply Forall_forall. intros s' Hs'. apply list_elem_of_lookup in Hs' as [i Hi]. subst result.
  rewrite list_lookup_imap in Hi. destruct (assembled_of request !! i) as [a|] eqn:Ea; [|done].
  cbn in Hi. injection Hi as <-. apply list_elem_of_lookup_2, assembled_elem in Ea.
  destruct Ea as [(splice & s & Esp & Hs & ->)|(m & Hm & ->)].
  - destruct (valid_splice _ _ Hv splice Esp) as [Hsound _ _ _ _]. pose proof (sound_rules _ Hsound) as Hc.
    pose proof (all_citable _ _ (segments_good _ _ Hc)) as Hall. cbn in Hall. rewrite Forall_forall in Hall.
    destruct (Hall s (kept_elem _ _ Hs)) as (p & Hmade & Hder & Hsp).
    rewrite (maker_makes _ _ _ _ Hc (kept_elem _ _ Hs) Hmade) in Hder, Hsp.
    exists (InheritedRevision.provenance (maker (RevisionSplice.base splice) s)).
    split; [|split; [exact Hder|exact Hsp]]. cbn. exists (maker (RevisionSplice.base splice) s).
    destruct (maker_cases _ _ Hc s (kept_elem _ _ Hs)) as [Hid _]. split; [|done].
    apply (inherited_spec splice Esp). by exists s.
  - pose proof (valid_own _ _ Hv) as Hown. rewrite Forall_forall in Hown.
    destruct (Hown m Hm) as (_ & Hder & _). eexists. split; [reflexivity|]. split; [exact Hder|].
    cbn. by intros [? ?].
Qed.

Lemma fmap_sublist {A B} (f : A -> B) l k : l `sublist_of` k -> (f <$> l) `sublist_of` (f <$> k).
Proof. induction 1; cbn; by constructor. Qed.

Context (Hn : no_clash request covered).

Lemma result_length : length result = length (assembled_of request).
Proof. subst result. apply length_imap. Qed.

Lemma result_consistent :
  segments_consistent (parts_built request covered) (rule_of (parts_built request covered) None).
Proof.
  pose proof (valid_count _ _ Hv) as Hcount. unfold MAX_TRANSCRIPT_CUES in Hcount.
  constructor; cbn [TranscriptRevisionParts.segments parts_built TranscriptRevisionParts.source_segment]; fold revision; fold result.
  - rewrite result_length. apply (identify_ordinals revision 0).
  - subst result. erewrite imap_fmap_in; [apply assembled_sorted|]. intros i a _. unfold TranscriptSegment.start.
    unfold identify. by rewrite identified_range.
  - exact result_inside.
  - apply identify_ids. intros i j Hi Hj Heq. apply Nat2Z.inj.
    apply (clash_segments _ _ Hn); [lia..|exact Heq].
  - rewrite carried_ids_fmap, result_carried_from.
    destruct (AsrRevisionRequest.splice request) as [splice|] eqn:Esp; [|constructor].
    rewrite <- list_fmap_compose. eapply sublist_NoDup; [by apply (clash_carried _ _ Hn)|].
    apply fmap_sublist, sublist_filter.
  - exact result_citable.
  - apply Forall_forall. intros s' Hs' Hown. apply list_elem_of_lookup in Hs' as [i Hi].
    unfold result in Hi. rewrite list_lookup_imap in Hi. destruct (assembled_of request !! i) as [a|] eqn:Ea; [|done].
    cbn in Hi. injection Hi as <-. apply list_elem_of_lookup_2, assembled_elem in Ea.
    destruct Ea as [(splice & s & Esp & Hs & ->)|(m & Hm & ->)]; [|done].
    unfold rule_of. cbn [TranscriptRevisionParts.provenance TranscriptRevisionParts.replaced_range parts_built]. rewrite Esp. cbn [fmap option_fmap option_map].
    eexists. split; [reflexivity|]. cbn [TranscriptRevisionParts.segments parts_built]. fold revision.
    rewrite (rule_permuted _ _ _ (own_written request)).
    + apply list_elem_of_filter in Hs as [Hs _]. exact Hs.
    + pose proof result_typed as Hty. apply Forall_fmap, Forall_forall. intros s'' [_ Hin]%list_elem_of_filter.
      rewrite Forall_forall in Hty. by apply Hty.
    + exact result_own_ranges.
Qed.

Lemma result_used e :
  e ∈ inherited_of request -> Exists (fun s => carried_from_entry e s = true) result.
Proof.
  intros He. destruct (AsrRevisionRequest.splice request) as [splice|] eqn:Esp.
  2:{ rewrite inherited_none in He by done. by apply elem_of_nil in He. }
  destruct (inherited_spec splice Esp) as [_ Helem]. destruct (proj1 (Helem e) He) as (s & Hs & ->).
  destruct (valid_splice _ _ Hv splice Esp) as [Hsound _ _ _ _].
  destruct (maker_cases _ _ (sound_rules _ Hsound) s (kept_elem _ _ Hs)) as [Hid _].
  assert (Ha : Carried s (first_made (RevisionSplice.base splice) s) ∈ assembled_of request)
    by (apply assembled_elem; left; by exists splice, s).
  apply list_elem_of_lookup in Ha as [i Hi]. apply Exists_exists.
  exists (identify revision 0 i (Carried s (first_made (RevisionSplice.base splice) s))). split.
  - apply (list_elem_of_lookup_2 _ i). unfold result. by rewrite list_lookup_imap, Hi.
  - cbn. apply bool_decide_eq_true. by rewrite Hid.
Qed.

Lemma inherited_ids_fresh : NoDup (revision :: (InheritedRevision.id <$> inherited_of request)).
Proof.
  destruct (AsrRevisionRequest.splice request) as [splice|] eqn:Esp.
  2:{ rewrite inherited_none by done. apply NoDup_singleton. }
  destruct (inherited_spec splice Esp) as [Hd _]. constructor; [|exact Hd].
  intros (e & Heq & He)%list_elem_of_fmap. pose proof (clash_revision _ _ Hn splice Esp) as Hfresh.
  fold revision in Hfresh. apply not_elem_of_cons in Hfresh as [F1 F2].
  destruct (inherited_origin splice e Esp He) as [Hin| ->]; [|done].
  apply F2. rewrite Heq. by apply list_elem_of_fmap_2.
Qed.

Lemma inherited_in_source :
  Forall (fun e => provenance_in (AsrRevisionRequest.source_segment request)
                     (InheritedRevision.provenance e)) (inherited_of request).
Proof.
  apply Forall_forall. intros e He. destruct (AsrRevisionRequest.splice request) as [splice|] eqn:Esp.
  2:{ rewrite inherited_none in He by done. by apply elem_of_nil in He. }
  destruct (valid_splice _ _ Hv splice Esp) as [Hsound _ _ Hseg _]. pose proof (sound_rules _ Hsound) as Hc.
  destruct (inherited_origin splice e Esp He) as [Hin| ->].
  - pose proof (inherited_inside _ _ Hc) as Hall. cbn in Hall. rewrite Hseg, Forall_forall in Hall. by apply Hall.
  - pose proof (run_inside _ _ Hc) as Hr. cbn in Hr. by rewrite Hseg in Hr.
Qed.

Lemma parts_built_consistent : consistent (parts_built request covered) None.
Proof.
  destruct (valid_run _ _ Hv) as (Hrt & _ & Hrin & Hcov). pose proof (covered_range_wf _ _ Hrt Hcov) as Hcw.
  assert (Hcin : range_within covered (SourceSegment.range (AsrRevisionRequest.source_segment request))).
  { destruct Hrin as (c & Hc & Hin & _). rewrite Hcov in Hc. by injection Hc as <-. }
  constructor; cbn.
  - by right.
  - rewrite length_imap. apply (valid_count _ _ Hv).
  - destruct (AsrRevisionRequest.splice request); by intros [? ?].
  - done.
  - destruct (AsrRevisionRequest.splice request) as [splice|] eqn:Esp; [|done]. cbn. intros [= Heq].
    pose proof (clash_revision _ _ Hn splice Esp) as Hfresh. apply not_elem_of_cons in Hfresh as [F _]. by rewrite Heq in F.
  - intros r Hr. destruct (AsrRevisionRequest.splice request) as [splice|] eqn:Esp; [|done].
    cbn in Hr. injection Hr as <-. by rewrite (splice_range _ _ _ (valid_splice _ _ Hv splice Esp)).
  - exact Hrin.
  - intros Hne. destruct (AsrRevisionRequest.splice request) eqn:Esp; [by eexists|].
    by rewrite inherited_none in Hne.
  - exact inherited_ids_fresh.
  - exact inherited_in_source.
  - apply Forall_forall. exact result_used.
  - intros Hne. unfold untranscribed_of in *. destruct (AsrRevisionRequest.splice request) as [splice|] eqn:Esp; [|done].
    destruct (valid_splice _ _ Hv splice Esp) as [[Ht _ _] Hr _ Hseg _]. exists covered. cbn. rewrite Hr in *.
    destruct (carried_untranscribed_spec (RevisionSplice.base splice) covered (inherited_of request)
                (Z.to_nat MAX_CARRIED_UNTRANSCRIBED) Ht Hcw inherited_typed) as [_ W2 W3 W4 W5 _].
    split; [done|]. unfold carried_untranscribed_for.
    split; [change (Nat.max (Z.to_nat MAX_CARRIED_UNTRANSCRIBED) 2) with 1024%nat in W3;
            unfold MAX_CARRIED_UNTRANSCRIBED at 2; lia|].
    split; [done|]. rewrite <- Hseg. split; [done|]. intros x. rewrite covers_ranges. apply W5.
  - intros _. destruct (valid_unplaced _ _ Hv) as (_ & U2 & U3 & U4). do 2 eexists. split; [reflexivity|].
    split; [exact Hcov|]. split; [done|]. split; [done|]. eapply Forall_impl; [exact U4|].
    unfold range_within in *. cbn. lia.
  - exact result_consistent.
Qed.

Lemma build_spec :
  state_of (LocalAsr (AsrTranscription.run (AsrRevisionRequest.transcription request))) = Sealed ->
  build_asr_revision request = Ok (TranscriptRevision.of_parts (parts_built request covered) None)
  /\ sound_revision (TranscriptRevision.of_parts (parts_built request covered) None).
Proof.
  intros Hsealed. unfold build_asr_revision. rewrite assemble_spec. cbn [result_bind].
  assert (Hnew : Revision.new (parts_built request covered)
                 = Ok (TranscriptRevision.of_parts (parts_built request covered) None)).
  { unfold Revision.new. apply guard_Ok. split.
    - apply negb_false_iff, bool_decide_eq_true. cbn [TranscriptRevisionParts.provenance parts_built].
      unfold state_of in Hsealed. destruct (growth _) as [[] []]; done.
    - apply validated_spec; [apply parts_built_typed|]. split; [exact parts_built_consistent|done]. }
  rewrite Hnew. split; [done|]. constructor.
  - unfold revision_typed. rewrite parts_of_of_parts. apply parts_built_typed.
  - rewrite parts_of_of_parts. exact parts_built_consistent.
  - cbn. intros run [= <-]. apply (valid_run _ _ Hv).
Qed.

(** *** What the result says *)

Definition assembled_evidence (a : Assembled) :=
  match a with
  | Own m => own_evidence (AsrTranscription.run (AsrRevisionRequest.transcription request))
               (AsrTranscription.language (AsrRevisionRequest.transcription request)) m
  | Carried s _ => match AsrRevisionRequest.splice request with
                   | Some splice => evidence (RevisionSplice.base splice) s
                   | None => evidence (TranscriptRevision.of_parts (parts_built request covered) None) s
                   end
  end.

Lemma maker_says base s :
  segment_provenance base s = InheritedRevision.provenance (maker base s)
  /\ segment_language base s = InheritedRevision.language (maker base s).
Proof. unfold segment_provenance, segment_language, maker. by destruct (segment_source base s). Qed.

Lemma evidence_kept i a :
  a ∈ assembled_of request ->
  evidence (TranscriptRevision.of_parts (parts_built request covered) None) (identify revision 0 i a)
  = assembled_evidence a.
Proof.
  intros [(splice & s & Esp & Hs & ->)|(m & Hm & ->)]%assembled_elem; [|done].
  unfold assembled_evidence. rewrite Esp. destruct (valid_splice _ _ Hv splice Esp) as [Hsound _ _ _ _].
  destruct (maker_cases _ _ (sound_rules _ Hsound) s (kept_elem _ _ Hs)) as [Hid _].
  destruct (inherited_spec splice Esp) as [Hd Helem].
  assert (Hsrc : segment_source (TranscriptRevision.of_parts (parts_built request covered) None)
      (identify revision 0 i (Carried s (first_made (RevisionSplice.base splice) s)))
    = Some (maker (RevisionSplice.base splice) s)).
  { unfold segment_source. cbn. apply ok_or_Ok with (e := InvalidCarriedSegment).
    apply (inherited_by_id_spec (parts_built request covered)); [exact Hd|]. cbn. split; [|exact Hid].
    apply Helem. by exists s. }
  destruct (maker_says (RevisionSplice.base splice) s) as [Hp Hl].
  unfold evidence, segment_provenance at 1, segment_language at 1. rewrite Hsrc, Hp, Hl. done.
Qed.

Lemma result_evidence :
  evidence (TranscriptRevision.of_parts (parts_built request covered) None) <$> result
  ≡ₚ match AsrRevisionRequest.splice request with
     | Some splice => evidence (RevisionSplice.base splice) <$> kept_of request splice
     | None => []
     end
     ++ (own_evidence (AsrTranscription.run (AsrRevisionRequest.transcription request))
           (AsrTranscription.language (AsrRevisionRequest.transcription request))
         <$> AsrTranscription.segments (AsrRevisionRequest.transcription request)).
Proof.
  unfold result. rewrite (imap_fmap_in _ _ assembled_evidence) by (intros i a; apply evidence_kept).
  unfold assembled_of. rewrite stable_sort_Permutation, fmap_app. unfold carried_of.
  rewrite <- (list_fmap_compose Own). apply Permutation_app; [|done].
  unfold assembled_evidence. destruct (AsrRevisionRequest.splice request) as [splice|]; [|done].
  by rewrite <- list_fmap_compose.
Qed.
End Assemble.

(** A run that read its range to the end always becomes a revision, and so does
    a retranscription of part of a sound revision: it is sealed and sound
    itself, and holds, in order, exactly the segments the run made and the
    segments of the earlier revision that the rule for earlier text keeps, each
    of those with the words, times, score, speaker and provenance it had and
    the name of the revision that first made it. (Provided that the identities
    derived with SHA-256 do not clash.) Claim C1. *)
Theorem asr_revision_built `{Sha256Laws} request covered :
  request_valid request covered -> no_clash request covered ->
  state_of (LocalAsr (AsrTranscription.run (AsrRevisionRequest.transcription request))) = Sealed ->
  let transcription := AsrRevisionRequest.transcription request in
  exists r, build_asr_revision request = Ok r
    /\ sound_revision r /\ state r = Sealed
    /\ TranscriptRevision.provenance r = LocalAsr (AsrTranscription.run transcription)
    /\ match AsrRevisionRequest.splice request with
       | Some splice =>
           let base := RevisionSplice.base splice in
           TranscriptRevision.supersedes r = Some (TranscriptRevision.id base)
           /\ TranscriptRevision.replaced_range r = Some covered
           /\ omap TranscriptSegment.carried_from (TranscriptRevision.segments r)
              ≡ₚ first_made base <$> kept_of request splice
           /\ evidence r <$> TranscriptRevision.segments r
              ≡ₚ (evidence base <$> kept_of request splice)
                 ++ (own_evidence (AsrTranscription.run transcription) (AsrTranscription.language transcription)
                     <$> AsrTranscription.segments transcription)
       | None =>
           TranscriptRevision.supersedes r = None
           /\ evidence r <$> TranscriptRevision.segments r
              ≡ₚ own_evidence (AsrTranscription.run transcription) (AsrTranscription.language transcription)
                 <$> AsrTranscription.segments transcription
       end.
Proof.
  intros Hv Hn Hsealed. cbn zeta. destruct (build_spec request covered Hv Hn Hsealed) as [Hb Hsound].
  eexists. split; [exact Hb|]. split; [exact Hsound|]. split; [exact Hsealed|]. split; [reflexivity|].
  pose proof (result_evidence request covered Hv) as Hev. pose proof (result_carried_from request covered) as Hcf.
  destruct (AsrRevisionRequest.splice request) as [splice|] eqn:Esp; cbn; rewrite Esp.
  - split; [done|]. split; [cbn; by rewrite (splice_range _ _ _ (valid_splice _ _ Hv splice Esp))|].
    split; [exact Hcf|exact Hev].
  - split; [done|exact Hev].
Qed.

(** ** Chains of retranscriptions *)

Lemma built_spliced `{Sha256Laws} request covered base :
  request_valid request covered -> AsrRevisionRequest.splice request = Some (RevisionSplice.mk base covered) ->
  spliced base (TranscriptRevision.of_parts (parts_built request covered) None) covered.
Proof.
  intros Hv Esp. destruct (valid_splice _ _ Hv _ Esp) as [_ _ _ Hseg _]. cbn in Hseg.
  constructor; cbn.
  - by rewrite Hseg.
  - eexists. split; [reflexivity|]. apply (valid_run _ _ Hv).
  - unfold untranscribed_of. by rewrite Esp.
  - apply Forall_forall. intros s' Hs'. apply list_elem_of_lookup in Hs' as [i Hi].
    rewrite list_lookup_imap in Hi. destruct (assembled_of request !! i) as [a|] eqn:Ea; [|done].
    cbn in Hi. injection Hi as <-. apply list_elem_of_lookup_2, assembled_elem in Ea.
    destruct Ea as [(splice & s & Esp' & Hs & ->)|(m & Hm & ->)]; [|by left].
    right. exists s. rewrite Esp in Esp'. injection Esp' as <-. split; [|done]. exact (kept_elem _ _ _ Hs).
Qed.

(** One retranscription of a revision, that reads another range than the
    instant's and writes nothing over it. *)
Definition retranscribed_elsewhere `{Sha256} (x : Z) (base new : TranscriptRevision.t) : Prop :=
  exists request covered,
    request_valid request covered /\ no_clash request covered
    /\ state_of (LocalAsr (AsrTranscription.run (AsrRevisionRequest.transcription request))) = Sealed
    /\ AsrRevisionRequest.splice request = Some (RevisionSplice.mk base covered)
    /\ build_asr_revision request = Ok new
    /\ ~ in_span (span covered) x /\ ~ wrote new x.

Lemma retranscribed_step `{Sha256Laws} x base new :
  retranscribed_elsewhere x base new ->
  in_ranges (SearchCoverage.untranscribed (coverage_of base None)) x ->
  in_ranges (SearchCoverage.untranscribed (coverage_of new None)) x.
Proof.
  intros (request & covered & Hv & Hn & Hsealed & Esp & Hbuild & Hout & Hwrote) Hx.
  destruct (build_spec request covered Hv Hn Hsealed) as [Hb Hsound]. rewrite Hb in Hbuild.
  injection Hbuild as <-. pose proof (built_spliced request covered base Hv Esp) as Hsp.
  destruct (valid_splice _ _ Hv _ Esp) as [Hbase _ _ _ _]. cbn in Hbase.
  destruct (valid_run _ _ Hv) as (Hrt & _ & _ & Hcov). pose proof (covered_range_wf _ _ Hrt Hcov) as Hcw.
  pose proof (coverage_of_spec base None (sound_typed _ Hbase)) as Hcb.
  pose proof (coverage_of_spec _ None (sound_typed _ Hsound)) as Hcn.
  apply (untranscribed_exactly _ _ _ Hcb) in Hx as [[Hsrc _] Hnot].
  apply (untranscribed_exactly _ _ _ Hcn). split.
  - split; [|done]. unfold source_span in *. by rewrite (spliced_source _ _ _ Hsp).
  - intros Hc. destruct (spliced_covered _ _ _ _ Hbase Hsound Hsp Hcw Hsrc Hout Hc) as [?|?]; done.
Qed.

(** A search never says that a part was transcribed when no run read it: an
    instant a revision lists as untranscribed stays so through any number of
    retranscriptions, however far along the chain, until one of them reads a
    range that holds it or writes a segment over it. Claim C10. *)
Theorem untranscribed_until_read `{Sha256Laws} x first final :
  rtc (retranscribed_elsewhere x) first final ->
  in_ranges (SearchCoverage.untranscribed (coverage_of first None)) x ->
  in_ranges (SearchCoverage.untranscribed (coverage_of final None)) x.
Proof. induction 1 as [|r1 r2 r3 Hstep _ IH]; [done|]. intros Hx. by apply IH, (retranscribed_step x r1). Qed.

(** ** Examples *)

(** A minute and a second of a source of two hundred, read in three chunks. *)
Definition sample_source : SourceSegment.t :=
  SourceSegment.mk (mkOpaqueId (literal "sgm_0123456789abcdef")) 0 (TimeRange.mk 0 200000000) Closed.

Definition sample_run_parts (start : Z) (outcomes : list AsrChunkOutcome) : AsrRunParts.t :=
  let range := TimeRange.mk start (start + 61000000) in
  AsrRunParts.mk (AsrProviderBuild.mk WhisperCpp (Sha256Hex.mk []))
    (AsrModel.mk Base (Sha256Hex.mk [])) R0V1 ChunkPlan.R0 4 0
    (imap (fun k o => AsrChunkRecord.mk
             (chunk_at (SourceSegment.id sample_source) ChunkPlan.R0 range (Z.of_nat k)) o) outcomes).

Definition sample_run (start : Z) (outcomes : list AsrChunkOutcome) : AsrRun.t :=
  let p := sample_run_parts start outcomes in
  AsrRun.mk (AsrRunParts.provider p) (AsrRunParts.model p) (AsrRunParts.decoding p) (AsrRunParts.plan p)
    (AsrRunParts.threads p) (AsrRunParts.audio_stream p) (AsrRunParts.chunks p).

(** One sentence, three seconds into the first chunk. *)
Definition sample_own (start : Z) : MergedSegment.t :=
  MergedSegment.mk 0 (AsrSegmentDraft.mk (TimeRange.mk (start + 3000000) (start + 5000000))
    (CueText.mk (literal "we start here") None) Confidence.unknown 3000000 5000000 Unchanged).

Definition sample_request (number start : Z) (outcomes : list AsrChunkOutcome)
    (base : option TranscriptRevision.t) : AsrRevisionRequest.t :=
  AsrRevisionRequest.mk (mkOpaqueId (literal "ses_0123456789abcdef")) (mkDigestId []) sample_source number
    (AsrTranscription.mk (sample_run start outcomes) None [sample_own start] [] [])
    ((fun b => RevisionSplice.mk b (TimeRange.mk start (start + 61000000))) <$> base).

(** The first run could not read its second chunk. *)
Definition first_outcomes : list AsrChunkOutcome :=
  [Transcribed (TimeRange.mk 0 30000000); Unusable (TimeRange.mk 25000000 55000000);
   Silent (TimeRange.mk 50000000 61000000)].
Definition second_outcomes : list AsrChunkOutcome :=
  [Transcribed (TimeRange.mk 100000000 130000000); NoAudio; NoAudio].

Definition first_request : AsrRevisionRequest.t := sample_request 1 0 first_outcomes None.
Definition first_revision : TranscriptRevision.t :=
  TranscriptRevision.of_parts (parts_built (H := tail_digest) first_request (TimeRange.mk 0 61000000)) None.
Definition second_request : AsrRevisionRequest.t :=
  sample_request 2 100000000 second_outcomes (Some first_revision).
Definition second_covered : TimeRange.t := TimeRange.mk 100000000 161000000.

Lemma sample_windows start outcomes :
  0 <= start <= 1000000000 ->
  (length outcomes <= 3)%nat -> windows_wf (AsrRunParts.chunks (sample_run_parts start outcomes)).
Proof.
  intros Hs Hlen. unfold windows_wf, sample_run_parts. cbn [AsrRunParts.chunks].
  apply Forall_lookup. intros i c. rewrite list_lookup_imap. destruct (outcomes !! i) as [o|] eqn:E; [|done].
  apply lookup_lt_Some in E. cbn. intros [= <-]. unfold AsrRun.window_of. cbn.
  split; [|split]; cbn; change (ChunkPlan.window_us ChunkPlan.R0) with 30000000 in *;
    change (ChunkPlan.overlap_us ChunkPlan.R0) with 5000000 in *; ulia.
Qed.

Lemma sample_valid number start outcomes base :
  0 <= start <= 1000000000 -> (length outcomes <= 3)%nat ->
  let run := sample_run start outcomes in
  AsrRun.new (sample_run_parts start outcomes) = Ok run ->
  AsrRun.validate_within run sample_source = Ok tt ->
  AsrRun.covered_range run = Some (TimeRange.mk start (start + 61000000)) ->
  run_typed run ->
  validate_segment_origin (identified (mkOpaqueId []) 1 (Own (sample_own start))) (LocalAsr run) = Ok tt ->
  start <= 100000000 ->
  Z.of_nat (length (assembled_of (sample_request number start outcomes base))) <= MAX_TRANSCRIPT_CUES ->
  (forall b, base = Some b ->
     splice_valid (sample_request number start outcomes base) (TimeRange.mk start (start + 61000000))
       (RevisionSplice.mk b (TimeRange.mk start (start + 61000000)))) ->
  request_valid (sample_request number start outcomes base) (TimeRange.mk start (start + 61000000)).
Proof.
  intros Hs Hlen run Hnew Hin Hcov Hty Horigin Hs2 Hcount Hbase.
  assert (Hseg : segment_typed (identified (mkOpaqueId []) 1 (Own (sample_own start)))).
  { split; [split; [|split]; cbn; ulia|]. cbn. ulia. }
  constructor; cbn.
  - concrete.
  - split; [exact Hty|]. split; [|split; [by apply validate_within_spec|exact Hcov]].
    apply (new_run_whole (sample_run_parts start outcomes)); [concrete|by apply sample_windows|exact Hnew].
  - constructor; [|constructor]. split; [exact Hseg|].
    split; [by apply (validate_segment_origin_spec _ (LocalAsr run) Hseg Hty)|]. split; cbn; lia.
  - split; [constructor|]. split; [done|]. split; [apply Nat.le_0_l|constructor].
  - intros splice Esp. destruct base as [b|]; [|done]. cbn in Esp. injection Esp as <-. by apply Hbase.
  - exact Hcount.
Qed.

Lemma first_typed : run_typed (sample_run 0 first_outcomes).
Proof.
  split; [apply (sample_windows 0 first_outcomes); cbn; lia|]. repeat (constructor; [concrete|]). constructor.
Qed.

Lemma first_valid : request_valid first_request (TimeRange.mk 0 61000000).
Proof.
  apply (sample_valid 1 0 first_outcomes None); [lia|cbn; lia|vm_compute; reflexivity|vm_compute; reflexivity
    |vm_compute; reflexivity|exact first_typed|vm_compute; reflexivity|lia|concrete|done].
Qed.

Lemma first_no_clash : no_clash (H := tail_digest) first_request (TimeRange.mk 0 61000000).
Proof.
  constructor; [|done|done]. change (Z.of_nat (length (assembled_of first_request))) with 1. lia.
Qed.

Lemma first_built :
  build_asr_revision (H := tail_digest) first_request = Ok first_revision /\ sound_revision first_revision.
Proof.
  apply (build_spec (H0 := tail_digest_laws) first_request (TimeRange.mk 0 61000000) first_valid first_no_clash).
  reflexivity.
Qed.

Lemma second_typed : run_typed (sample_run 100000000 second_outcomes).
Proof.
  split; [apply (sample_windows 100000000 second_outcomes); cbn; lia|].
  repeat (constructor; [concrete|]). constructor.
Qed.

Lemma second_splice :
  splice_valid second_request second_covered (RevisionSplice.mk first_revision second_covered).
Proof. constructor; [apply first_built|reflexivity|reflexivity|reflexivity|concrete]. Qed.

Lemma second_valid : request_valid second_request second_covered.
Proof.
  apply (sample_valid 2 100000000 second_outcomes (Some first_revision));
    [lia|cbn; lia|vm_compute; reflexivity|vm_compute; reflexivity
    |vm_compute; reflexivity|exact second_typed|vm_compute; reflexivity|lia|concrete|].
  intros b [= <-]. exact second_splice.
Qed.

Lemma second_no_clash : no_clash (H := tail_digest) second_request second_covered.
Proof.
  constructor.
  - assert (Hlen : Z.of_nat (length (assembled_of second_request)) = 2) by (vm_compute; reflexivity).
    rewrite Hlen. intros i j Hi Hj. assert (i = 1 \/ i = 2) as [-> | ->] by lia;
      (assert (j = 1 \/ j = 2) as [-> | ->] by lia); try done; intros Heq; vm_compute in Heq; discriminate.
  - intros splice [= <-]. intros Hin. vm_compute in Hin.
    apply list_elem_of_singleton in Hin. discriminate.
  - intros splice [= <-]. vm_compute. apply NoDup_singleton.
Qed.

(** The sentence of the first run is carried into the second, with its run. *)
Lemma asr_revision_built_witness :
  exists r, build_asr_revision (H := tail_digest) second_request = Ok r /\ sound_revision r
    /\ TranscriptSegment.range <$> TranscriptRevision.segments r
       = [TimeRange.mk 3000000 5000000; TimeRange.mk 103000000 105000000]
    /\ omap TranscriptSegment.carried_from (TranscriptRevision.segments r)
       ≡ₚ first_made first_revision <$> TranscriptRevision.segments first_revision.
Proof.
  destruct (asr_revision_built (H0 := tail_digest_laws) second_request second_covered second_valid
              second_no_clash eq_refl) as (r & Hb & Hs & _ & _ & _ & _ & Hcf & _).
  exists r. split; [exact Hb|]. split; [exact Hs|]. split; [|exact Hcf].
  assert (E : Ok r = build_asr_revision (H := tail_digest) second_request) by (symmetry; exact Hb).
  apply (f_equal (fun res => match res with
                             | Ok r => TranscriptSegment.range <$> TranscriptRevision.segments r
                             | Err _ => [] end)) in E.
  cbn beta iota in E. rewrite E. vm_compute. reflexivity.
Defined.

Definition second_revision : TranscriptRevision.t :=
  TranscriptRevision.of_parts (parts_built (H := tail_digest) second_request second_covered) None.

Lemma sample_elsewhere : ~ in_span (span second_covered) 40000000.
Proof. apply (bool_decide_unpack _). vm_compute. exact I. Qed.

#[export] Instance wrote_dec r x : Decision (wrote r x).
Proof. unfold wrote. apply _. Defined.

Lemma sample_unwritten : ~ wrote second_revision 40000000.
Proof. apply (bool_decide_unpack _). vm_compute. exact I. Qed.

(** What the first run could not read is untranscribed in the second. *)
Lemma untranscribed_until_read_witness :
  exists second, build_asr_revision (H := tail_digest) second_request = Ok second
    /\ in_ranges (SearchCoverage.untranscribed (coverage_of second None)) 40000000.
Proof.
  destruct (build_spec (H0 := tail_digest_laws) second_request second_covered second_valid second_no_clash
              eq_refl) as [Hb _].
  exists second_revision. split; [exact Hb|].
  apply (untranscribed_until_read (H0 := tail_digest_laws) 40000000 first_revision).
  - eapply rtc_l; [|apply rtc_refl]. exists second_request, second_covered.
    split; [exact second_valid|]. split; [exact second_no_clash|]. split; [reflexivity|]. split; [reflexivity|].
    split; [exact Hb|]. split; [exact sample_elsewhere|exact sample_unwritten].
  - assert (E : SearchCoverage.untranscribed (coverage_of first_revision None)
                = [TimeRange.mk 30000000 50000000; TimeRange.mk 61000000 200000000]) by (vm_compute; reflexivity).
    rewrite E. left. unfold in_span. cbn. lia.
Defined.
