(* ===== verification/Search.v ===== *)
(** * Search: literal search of a transcript

    Models [crates/vsift-domain/src/search.rs]: the normalised words of a text,
    queries, the two tiers of a match, and the ranked pages of a revision's
    hits. The buffers that the code reuses between texts are left out: a text
    is given its list of words. *)

From Stdlib Require Import Ascii.
From S2P Require Import Prelude.
From S2P Require Import Text.
From S2P Require Import Chars.
From S2P Require Import Timeline.
From S2P Require Import Identity.
From S2P Require Import Pagination.
From S2P Require Import AsrRun.
From S2P Require Import Cues.
From S2P Require Import Revision.

Definition MAX_SEARCH_QUERY_BYTES : nat := 256.
Definition MAX_SEARCH_TERMS : nat := 16.

Definition NUMBER_WORDS : list (text * text) :=
  [(literal "zero", literal "0"); (literal "one", literal "1"); (literal "two", literal "2");
   (literal "three", literal "3"); (literal "four", literal "4"); (literal "five", literal "5");
   (literal "six", literal "6"); (literal "seven", literal "7"); (literal "eight", literal "8");
   (literal "nine", literal "9"); (literal "ten", literal "10"); (literal "eleven", literal "11");
   (literal "twelve", literal "12"); (literal "thirteen", literal "13");
   (literal "fourteen", literal "14"); (literal "fifteen", literal "15");
   (literal "sixteen", literal "16"); (literal "seventeen", literal "17");
   (literal "eighteen", literal "18"); (literal "nineteen", literal "19");
   (literal "twenty", literal "20"); (literal "thirty", literal "30"); (literal "forty", literal "40");
   (literal "fifty", literal "50"); (literal "sixty", literal "60"); (literal "seventy", literal "70");
   (literal "eighty", literal "80"); (literal "ninety", literal "90")].

Definition point : ascii := "."%char.
Definition space : ascii := " "%char.

(** ** Words *)

(** [str::trim_end_matches] of a character *)
Fixpoint trim_end_matches (c : ascii) (s : text) : text :=
  match s with
  | [] => []
  | a :: rest =>
      match trim_end_matches c rest with
      | [] => if (a =? c)%char then [] else [a]
      | kept => a :: kept
      end
  end.

(** [str::split_once] of a character *)
Fixpoint split_once (sep : ascii) (s : text) : option (text * text) :=
  match s with
  | [] => None
  | a :: rest =>
      if (a =? sep)%char then Some ([], rest)
      else '(before, after) ← split_once sep rest; Some (a :: before, after)
  end.

(** [char::is_ascii_digit] *)
Definition is_digit (c : text) : bool := match c with [b] => is_ascii_digit b | _ => false end.

(** The closures [digit] and [alphanumeric]: a neighbour that is there and of
    the class. *)
Definition neighbour_is (p : text -> bool) (c : option text) : bool :=
  match c with Some c => p c | None => false end.

(** [after] is what follows the comma. *)
Definition thousands_group_follows (after : list text) : bool :=
  (3 <=? length after)%nat && forallb is_digit (take 3 after)
  && negb (neighbour_is is_digit (after !! 3%nat)).

Definition is_decimal (word : text) : bool :=
  match split_once point word with
  | Some (whole, fraction) =>
      negb (bool_decide (whole = [])) && forallb is_ascii_digit whole
      && negb (bool_decide (fraction = [])) && forallb is_ascii_digit fraction
  | None => false
  end.

Definition canonical_word (word : text) : text :=
  match find (fun entry => bool_decide (entry.1 = word)) NUMBER_WORDS with
  | Some entry => entry.2
  | None => if is_decimal word then trim_end_matches point (trim_end_matches zero_char word) else word
  end.

Section Words.
Context `{UnicodeTables}.

(** What one character of the lowercased text leaves in the spaced one. *)
Definition spaced_char (before : option text) (character : text) (after : list text) : list text :=
  if bool_decide (character = [comma]) && neighbour_is is_digit before && thousands_group_follows after
  then []
  else if bool_decide (character = [hyphen]) && neighbour_is is_alphanumeric before
          && neighbour_is is_alphanumeric (head after)
  then []
  else if bool_decide (character = [point]) && neighbour_is is_digit before
          && neighbour_is is_digit (head after)
  then [[point]]
  else if is_alphanumeric character then [character] else [[space]].

Fixpoint spaced (before : option text) (lowered : list text) : list text :=
  match lowered with
  | [] => []
  | character :: after => spaced_char before character after ++ spaced (Some character) after
  end.

Definition lowered (source : text) : list text := chars (concat (to_lowercase <$> chars source)).

(** [Words::fill] *)
Definition fill (source : text) : list text :=
  (fun word => canonical_word (concat word)) <$> split_whitespace (concat (spaced None (lowered source))).

Definition normalise_search_text (s : text) : list text := fill s.
End Words.

(** ** Queries *)

Inductive SearchQueryRejection := Empty | TooLong | TooManyTerms | ControlCharacter.

Definition rejection_identifier (r : SearchQueryRejection) : text :=
  match r with
  | Empty => literal "empty"
  | TooLong => literal "too_long"
  | TooManyTerms => literal "too_many_terms"
  | ControlCharacter => literal "control_character"
  end.

Inductive SearchMatch := Phrase | AllTerms.

#[global] Instance SearchMatch_eq_dec : EqDecision SearchMatch.
Proof. solve_decision. Defined.

Definition SearchMatch_ALL : list SearchMatch := [Phrase; AllTerms].

Definition match_identifier (m : SearchMatch) : text :=
  match m with Phrase => literal "phrase" | AllTerms => literal "all_terms" end.

Definition tier_number (m : SearchMatch) : Z := match m with Phrase => 1 | AllTerms => 2 end.

Definition from_tier (tier : Z) : option SearchMatch :=
  if tier =? 1 then Some Phrase else if tier =? 2 then Some AllTerms else None.

Module SearchQuery.
Record t := mk { terms : list text; phrase : text }.

Definition parse `{UnicodeTables} (s : text) : result t SearchQueryRejection :=
  if (MAX_SEARCH_QUERY_BYTES <? length s)%nat then Err TooLong
  else if existsb is_control (chars s) then Err ControlCharacter
  else
    let terms := normalise_search_text s in
    if bool_decide (terms = []) then Err Empty
    else if (MAX_SEARCH_TERMS <? length terms)%nat then Err TooManyTerms
    else Ok (mk terms (concat terms)).
End SearchQuery.

(** ** Matching *)

(** One start of [contains_phrase]. *)
Fixpoint phrase_from (rest : text) (words : list text) : bool :=
  match words with
  | [] => false
  | word :: words =>
      match strip_prefix word rest with
      | Some [] => true
      | Some remaining => phrase_from remaining words
      | None => false
      end
  end.

Definition contains_phrase (query : SearchQuery.t) (words : list text) : bool :=
  existsb (fun start => phrase_from (SearchQuery.phrase query) (drop start words)) (seq 0 (length words)).

Definition classify `{UnicodeTables} (query : SearchQuery.t) (s : text) : option SearchMatch :=
  let words := fill s in
  if contains_phrase query words then Some Phrase
  else if forallb (fun term => existsb (fun word => bool_decide (word = term)) words) (SearchQuery.terms query)
  then Some AllTerms
  else None.

(** ** Hits *)

Module SearchPosition.
Record t := mk { tier : SearchMatch; ordinal : Z }.

#[global] Instance eq_dec : EqDecision t.
Proof. solve_decision. Defined.

(** The derived order. *)
Definition ltb (a b : t) : bool :=
  (tier_number (tier a) <? tier_number (tier b))
  || ((tier_number (tier a) =? tier_number (tier b)) && (ordinal a <? ordinal b)).
End SearchPosition.

Module SearchHit.
Record t := mk { segment : TranscriptSegment.t; tier : SearchMatch }.

Definition position (h : t) : SearchPosition.t :=
  SearchPosition.mk (tier h) (TranscriptSegment.ordinal (segment h)).
End SearchHit.

Module SearchSlice.
Record t := mk { hits : list SearchHit.t; has_more : bool }.
End SearchSlice.

Definition in_window (window : option TimeRange.t) (l : list TranscriptSegment.t)
    : list TranscriptSegment.t :=
  match window with
  | None => l
  | Some window =>
      filter (fun s => TranscriptSegment.intersects s window = true)
        (take_while (fun s => TranscriptSegment.start s <? TimeRange.end_ window) l)
  end.

Section Search.
Context `{UnicodeTables} (query : SearchQuery.t).

Definition text_of (s : TranscriptSegment.t) : text := CueText.as_text (TranscriptSegment.cue_text s).

(** The loop over what follows a hit of the second tier. *)
Fixpoint all_terms_loop (wanted : nat) (found : list SearchHit.t) (l : list TranscriptSegment.t)
    : list SearchHit.t :=
  match l with
  | [] => found
  | segment :: rest =>
      match classify query (text_of segment) with
      | Some AllTerms =>
          let found := found ++ [SearchHit.mk segment AllTerms] in
          if (length found =? wanted)%nat then found else all_terms_loop wanted found rest
      | _ => all_terms_loop wanted found rest
      end
  end.

(** The loop that gathers both tiers. *)
Fixpoint ranked_loop (wanted : nat) (phrase_after : Z) (phrases all_terms : list SearchHit.t)
    (l : list TranscriptSegment.t) : list SearchHit.t * list SearchHit.t :=
  match l with
  | [] => (phrases, all_terms)
  | segment :: rest =>
      match classify query (text_of segment) with
      | Some Phrase =>
          if phrase_after <? TranscriptSegment.ordinal segment then
            let phrases := phrases ++ [SearchHit.mk segment Phrase] in
            if (length phrases =? wanted)%nat then (phrases, all_terms)
            else ranked_loop wanted phrase_after phrases all_terms rest
          else ranked_loop wanted phrase_after phrases all_terms rest
      | Some AllTerms =>
          if (length all_terms <? wanted)%nat then
            ranked_loop wanted phrase_after phrases (all_terms ++ [SearchHit.mk segment AllTerms]) rest
          else ranked_loop wanted phrase_after phrases all_terms rest
      | None => ranked_loop wanted phrase_after phrases all_terms rest
      end
  end.

Definition search_revision (r : TranscriptRevision.t) (window : option TimeRange.t)
    (after : option SearchPosition.t) (limit : PageLimit.t) : SearchSlice.t :=
  let limit := Z.to_nat (PageLimit.value limit) in
  let wanted := S limit in
  let segments := TranscriptRevision.segments r in
  let hits :=
    match after with
    | Some (SearchPosition.mk AllTerms ordinal) =>
        all_terms_loop wanted [] (in_window window (drop (Z.to_nat ordinal) segments))
    | _ =>
        let phrase_after := match after with Some position => SearchPosition.ordinal position | None => 0 end in
        let found := ranked_loop wanted phrase_after [] [] (in_window window segments) in
        found.1 ++ found.2
    end in
  SearchSlice.mk (take limit hits) (limit <? length hits)%nat.

Definition tier_le (a b : SearchHit.t) : Prop :=
  tier_number (SearchHit.tier a) <= tier_number (SearchHit.tier b).

#[global] Instance tier_le_dec : RelDecision tier_le.
Proof. intros a b. unfold tier_le. apply _. Defined.

Definition hit_of (s : TranscriptSegment.t) : option SearchHit.t :=
  SearchHit.mk s <$> classify query (text_of s).

Definition search_hits (r : TranscriptRevision.t) : list SearchHit.t :=
  stable_sort tier_le (omap hit_of (TranscriptRevision.segments r)).
End Search.

(** ** Matching, exactly *)

Lemma trim_end_matches_app c s k :
  trim_end_matches c (s ++ k)
  = match trim_end_matches c k with [] => trim_end_matches c s | kept => s ++ kept end.
Proof.
  induction s as [|a s IH]; cbn [app trim_end_matches]; [by destruct (trim_end_matches c k)|].
  rewrite IH. destruct (trim_end_matches c k) as [|b kept]; [done|].
  by destruct (s ++ b :: kept) eqn:E; [destruct s|].
Qed.

Lemma trim_end_matches_none c s : Forall (fun a => a <> c) s -> trim_end_matches c s = s.
Proof.
  induction 1 as [|a s Ha _ IH]; cbn [trim_end_matches]; [done|]. rewrite IH.
  destruct s; [|done]. by rewrite (proj2 (Ascii.eqb_neq a c)).
Qed.

Lemma trim_end_matches_idem c s : trim_end_matches c (trim_end_matches c s) = trim_end_matches c s.
Proof.
  induction s as [|a s IH]; cbn [trim_end_matches]; [done|].
  destruct (trim_end_matches c s) as [|b kept] eqn:E.
  - destruct (a =? c)%char eqn:Ea; [done|]. cbn. by rewrite Ea.
  - change (match trim_end_matches c (b :: kept) with
            | [] => if (a =? c)%char then [] else [a]
            | kept' => a :: kept'
            end = a :: b :: kept). by rewrite IH.
Qed.

Lemma trim_end_matches_Forall (P : ascii -> Prop) c s : Forall P s -> Forall P (trim_end_matches c s).
Proof.
  induction 1 as [|a s Ha _ IH]; cbn [trim_end_matches]; [done|].
  destruct (trim_end_matches c s); [|by constructor]. destruct (a =? c)%char; by repeat constructor.
Qed.

Lemma split_once_Some sep s before after :
  split_once sep s = Some (before, after) <-> s = before ++ sep :: after /\ sep ∉ before.
Proof.
  revert before. induction s as [|a s IH]; intros before; cbn [split_once].
  { split; [done|]. intros [E _]. by destruct before. }
  destruct (a =? sep)%char eqn:Ea.
  - apply Ascii.eqb_eq in Ea as ->. split; [by intros [= <- <-]; split; [|apply not_elem_of_nil]|].
    intros [E Hn]. destruct before as [|b before]; [by injection E as ->|]. injection E as -> _.
    exfalso. apply Hn. by left.
  - apply Ascii.eqb_neq in Ea. destruct (split_once sep s) as [[b k]|]; cbn [mbind option_bind].
    + split.
      * intros [= <- <-]. destruct (proj1 (IH b) eq_refl) as [-> Hn]. split; [done|].
        by intros [->|Hin]%elem_of_cons.
      * intros [E Hn]. destruct before as [|c before]; [by injection E as -> _|]. injection E as -> E.
        assert (Hb : Some (b, k) = Some (before, after)).
        { apply IH. split; [done|]. intros Hin. apply Hn. by right. }
        by injection Hb as -> ->.
    + split; [done|]. intros [E Hn]. destruct before as [|c before]; [by injection E as -> _|].
      injection E as -> E. exfalso. apply not_elem_of_cons in Hn as [_ Hn].
      discriminate (proj2 (IH before) (conj E Hn)).
Qed.

Lemma digit_not_point a : is_ascii_digit a = true -> a <> point.
Proof. by intros Ha ->. Qed.

Lemma is_decimal_spec word :
  is_decimal word = true ->
  exists whole fraction, word = whole ++ point :: fraction /\ whole <> [] /\ fraction <> []
    /\ Forall (fun a => is_ascii_digit a = true) whole /\ Forall (fun a => is_ascii_digit a = true) fraction.
Proof.
  unfold is_decimal. destruct (split_once point word) as [[whole fraction]|] eqn:E; [|done]. intros H.
  bool_prop. apply bool_decide_eq_false in H, H1. apply split_once_Some in E as [-> _].
  rewrite forallb_forall in H0, H2. exists whole, fraction.
  repeat split; try done; apply Forall_forall; intros a Ha; [apply H2|apply H0]; by apply list_elem_of_In.
Qed.

(** The digits after the point lose their trailing zeros, and the point goes
    with the last of them. *)
Lemma canonical_decimal whole fraction :
  whole <> [] -> Forall (fun a => is_ascii_digit a = true) whole ->
  Forall (fun a => is_ascii_digit a = true) fraction ->
  trim_end_matches point (trim_end_matches zero_char (whole ++ point :: fraction))
  = match trim_end_matches zero_char fraction with [] => whole | kept => whole ++ point :: kept end.
Proof.
  intros Hne Hw Hf. change (whole ++ point :: fraction) with (whole ++ [point] ++ fraction).
  rewrite (app_assoc whole [point]), trim_end_matches_app.
  pose proof (trim_end_matches_Forall _ zero_char _ Hf) as Hk.
  destruct (trim_end_matches zero_char fraction) as [|b kept].
  - rewrite trim_end_matches_app. cbn [trim_end_matches app].
    change ((point =? zero_char)%char) with false. cbn iota. rewrite trim_end_matches_app.
    change (trim_end_matches point [point]) with (@nil ascii). cbn iota.
    apply trim_end_matches_none. eapply Forall_impl; [exact Hw|]. exact digit_not_point.
  - rewrite trim_end_matches_app, trim_end_matches_none.
    + by rewrite <- app_assoc.
    + eapply Forall_impl; [exact Hk|]. exact digit_not_point.
Qed.

Lemma canonical_word_nonempty word : word <> [] -> canonical_word word <> [].
Proof.
  intros Hw. unfold canonical_word. destruct (find _ NUMBER_WORDS) as [entry|] eqn:E.
  { apply find_some in E as [Hin%list_elem_of_In _]. revert entry Hin.
    apply (proj1 (Forall_forall (fun entry : text * text => entry.2 <> []) NUMBER_WORDS)).
    repeat (constructor; [by intros [=]|]). constructor. }
  destruct (is_decimal word) eqn:Ed; [|done].
  apply is_decimal_spec in Ed as (whole & fraction & -> & Hne & _ & Hd & Hf).
  rewrite canonical_decimal by done. destruct (trim_end_matches zero_char fraction); [done|by destruct whole].
Qed.

Section Matching.
Context `{UnicodeTables}.

Lemma fill_nonempty source : Forall (fun word => word <> []) (fill source).
Proof.
  apply Forall_forall. unfold fill. intros ? (word & -> & Hin)%list_elem_of_fmap.
  apply canonical_word_nonempty. by eapply split_whitespace_nonempty.
Qed.

Lemma phrase_from_spec words rest :
  Forall (fun word => word <> []) words -> rest <> [] ->
  phrase_from rest words = true <-> exists run after, words = run ++ after /\ concat run = rest.
Proof.
  intros Hws. revert rest. induction Hws as [|word words Hw _ IH]; intros rest Hr; cbn [phrase_from].
  { split; [done|]. intros (run & after & E & <-). by destruct run. }
  destruct (strip_prefix word rest) as [remaining|] eqn:E.
  - apply strip_prefix_Some in E as ->. destruct remaining as [|b remaining].
    + split; [|done]. intros _. exists [word], words. done.
    + rewrite IH by done. split.
      * intros (run & after & -> & Hc). exists (word :: run), after. cbn [concat]. by rewrite Hc.
      * intros ([|w run] & after & E & Hc).
        { cbn [concat] in Hc. symmetry in Hc. apply app_eq_nil in Hc as [_ Hc]. done. }
        injection E as -> E. cbn [concat] in Hc.
        apply app_inv_head in Hc. by exists run, after.
  - split; [done|]. intros ([|w run] & after & E' & <-); [done|]. injection E' as -> _.
    rewrite strip_prefix_None in E. exfalso. apply (E (concat run)). done.
Qed.

Lemma contains_phrase_spec query words :
  Forall (fun word => word <> []) words -> SearchQuery.phrase query <> [] ->
  contains_phrase query words = true
  <-> exists before run after, words = before ++ run ++ after /\ concat run = SearchQuery.phrase query.
Proof.
  intros Hws Hp. unfold contains_phrase. rewrite existsb_exists. split.
  - intros (start & _ & Hs). apply phrase_from_spec in Hs as (run & after & E & Hc); [|by apply Forall_drop|done].
    exists (take start words), run, after. by rewrite <- E, take_drop.
  - intros (before & run & after & -> & Hc). exists (length before).
    apply Forall_app in Hws as [_ Hws]. split.
    + apply in_seq. rewrite length_app. destruct run as [|w run]; [by rewrite <- Hc in Hp|].
      cbn [length app]. lia.
    + rewrite drop_app_length. apply phrase_from_spec; [done|done|]. by exists run, after.
Qed.

(** Consecutive words of the text that read as the query, without regard to
    how either is cut into words. *)
Definition says (words terms : list text) : Prop :=
  exists before run after, words = before ++ run ++ after /\ concat run = concat terms.

Lemma parse_spec typed q :
  SearchQuery.parse typed = Ok q <->
  (length typed <= 256)%nat /\ Forall (fun c => is_control c = false) (chars typed)
  /\ (1 <= length (fill typed) <= 16)%nat /\ q = SearchQuery.mk (fill typed) (concat (fill typed)).
Proof.
  unfold SearchQuery.parse, normalise_search_text, MAX_SEARCH_QUERY_BYTES, MAX_SEARCH_TERMS. cbn zeta.
  rewrite !guard_Ok, existsb_false, Nat.ltb_ge, bool_decide_eq_false, Nat.ltb_ge. split.
  - intros (Hl & Hc & Hn & Hm & [= <-]).
    split; [done|]. split; [done|]. split; [|done]. split; [|done]. destruct (fill typed); [done|cbn; lia].
  - intros (Hl & Hc & [Hn Hm] & ->).
    split; [done|]. split; [done|]. split; [by destruct (fill typed); [cbn in Hn; lia|]|done].
Qed.

Lemma terms_found (words terms : list text) :
  forallb (fun term => existsb (fun word => bool_decide (word = term)) words) terms = true
  <-> Forall (fun term => term ∈ words) terms.
Proof.
  rewrite forallb_forall, Forall_forall. split; intros Hall term Hin.
  - apply list_elem_of_In in Hin. apply Hall, existsb_exists in Hin as (w & Hw & ->%bool_decide_eq_true).
    by apply list_elem_of_In.
  - apply existsb_exists. exists term. split; [|by apply bool_decide_eq_true].
    apply list_elem_of_In, Hall. by apply list_elem_of_In.
Qed.

(** A query is accepted when it has at most 256 bytes, no control character
    and one to sixteen words. It then finds a text in the first tier exactly
    when consecutive words of the text read as the words of the query, and in
    the second exactly when they do not and every word of the query is a word
    of the text; so a word is never matched in part, a single word is a phrase
    or nothing, and a query finds the text it was made of. Claim C17. *)
Theorem query_matches_exactly typed q :
  SearchQuery.parse typed = Ok q ->
  SearchQuery.terms q = fill typed /\ (1 <= length (fill typed) <= 16)%nat
  /\ classify q typed = Some Phrase
  /\ forall s,
       (classify q s = Some Phrase <-> says (fill s) (fill typed))
       /\ (classify q s = Some AllTerms
           <-> ~ says (fill s) (fill typed) /\ Forall (fun term => term ∈ fill s) (fill typed))
       /\ (length (fill typed) = 1%nat -> classify q s <> Some AllTerms).
Proof.
  intros (_ & _ & Hn & ->)%parse_spec. cbn [SearchQuery.terms].
  assert (Hp : concat (fill typed) <> []).
  { pose proof (fill_nonempty typed) as Hf. destruct Hf as [|w ws Hw _]; [cbn in Hn; lia|].
    cbn. by destruct w. }
  assert (Hph : forall s, contains_phrase (SearchQuery.mk (fill typed) (concat (fill typed))) (fill s) = true
                          <-> says (fill s) (fill typed)).
  { intros s. apply (contains_phrase_spec (SearchQuery.mk _ _) _ (fill_nonempty s) Hp). }
  assert (Hself : says (fill typed) (fill typed)) by (exists [], (fill typed), []; by rewrite app_nil_r).
  split; [done|]. split; [done|]. unfold classify. cbn zeta. split; [by rewrite (proj2 (Hph typed))|].
  intros s. specialize (Hph s). destruct (contains_phrase _ (fill s)).
  - split; [split; [intros _; by apply Hph|done]|]. split; [|done]. split; [done|].
    intros [Hno _]. exfalso. by apply Hno, Hph.
  - assert (Hno : ~ says (fill s) (fill typed)) by (intros Hs; by apply Hph in Hs).
    cbn [SearchQuery.terms]. pose proof (terms_found (fill s) (fill typed)) as Hall.
    split; [split; [by destruct (forallb _ _)|done]|]. split.
    + rewrite <- Hall. destruct (forallb _ _); split; try done. by intros [_ ?].
    + intros Hone. destruct (forallb _ _); [|done]. intros _. apply Hno.
      destruct (fill typed) as [|w [|]] eqn:E; try done.
      assert (Hw : w ∈ fill s) by (destruct Hall as [Hall _]; by destruct (Forall_cons_1 _ _ _ (Hall eq_refl))).
      apply list_elem_of_split in Hw as (before & after & ->). exists before, [w], after. done.
Qed.
End Matching.

(** ** Ranking and pages *)

Section Ranking.
Context `{UnicodeTables} (query : SearchQuery.t).

Definition hit_in (tier : SearchMatch) (s : TranscriptSegment.t) : option SearchHit.t :=
  if decide (classify query (text_of s) = Some tier) then Some (SearchHit.mk s tier) else None.

(** The hits of one tier, in the order of their segments. *)
Definition hits_in (tier : SearchMatch) (l : list TranscriptSegment.t) : list SearchHit.t :=
  omap (hit_in tier) l.

Definition meets_window (window : option TimeRange.t) (s : TranscriptSegment.t) : Prop :=
  match window with Some window => TranscriptSegment.intersects s window = true | None => True end.

#[global] Instance meets_window_dec window s : Decision (meets_window window s).
Proof. destruct window; cbn; apply _. Defined.

Definition ranks_after (after : option SearchPosition.t) (h : SearchHit.t) : Prop :=
  match after with
  | Some position => SearchPosition.ltb position (SearchHit.position h) = true
  | None => True
  end.

#[global] Instance ranks_after_dec after h : Decision (ranks_after after h).
Proof. destruct after; cbn; apply _. Defined.

(** All that a search finds from a position on. *)
Definition ranked_after (r : TranscriptRevision.t) (window : option TimeRange.t)
    (after : option SearchPosition.t) : list SearchHit.t :=
  filter (ranks_after after) (filter (fun h => meets_window window (SearchHit.segment h)) (search_hits query r)).

Lemma hits_in_elem tier l h :
  h ∈ hits_in tier l <->
  SearchHit.tier h = tier /\ SearchHit.segment h ∈ l /\ classify query (text_of (SearchHit.segment h)) = Some tier.
Proof.
  unfold hits_in. rewrite list_elem_of_omap. split.
  - intros (s & Hin & Hs). unfold hit_in in Hs. case_decide; [|done]. by injection Hs as <-.
  - intros (Ht & Hin & Hc). exists (SearchHit.segment h). split; [done|]. unfold hit_in.
    rewrite decide_True by done. destruct h. cbn in *. by subst.
Qed.

Lemma hits_in_cons tier s l :
  hits_in tier (s :: l)
  = match classify query (text_of s) with
    | Some m => if decide (m = tier) then SearchHit.mk s tier :: hits_in tier l else hits_in tier l
    | None => hits_in tier l
    end.
Proof.
  unfold hits_in. rewrite omap_cons_app. unfold hit_in at 1.
  destruct (classify query (text_of s)) as [m|]; [|by rewrite decide_False].
  destruct (decide (m = tier)) as [->|Hne]; [by rewrite decide_True|by rewrite decide_False by congruence].
Qed.

Lemma hits_in_filter tier (P : TranscriptSegment.t -> Prop) `{!forall s, Decision (P s)} l :
  filter (fun h => P (SearchHit.segment h)) (hits_in tier l) = hits_in tier (filter P l).
Proof.
  induction l as [|s l IH]; [done|]. rewrite filter_cons, hits_in_cons.
  destruct (classify query (text_of s)) as [m|] eqn:Ec; [destruct (decide (m = tier)) as [->|Hm]|];
    rewrite ?filter_cons, IH; cbn [SearchHit.segment]; destruct (decide (P s)); rewrite ?hits_in_cons, ?Ec;
    decide_constants; try done; by rewrite ?(decide_True (P := tier = tier)), ?(decide_False (P := m = tier)).
Qed.

Lemma tier_split (l : list SearchHit.t) :
  filter (fun h => SearchHit.tier h = AllTerms) l = filter (fun h => ~ SearchHit.tier h = Phrase) l.
Proof. apply list_filter_iff. intros h. destruct (SearchHit.tier h); split; congruence || done. Qed.

Lemma hits_by_tier tier l : filter (fun h => SearchHit.tier h = tier) (omap (hit_of query) l) = hits_in tier l.
Proof.
  induction l as [|s l IH]; [done|]. unfold hits_in in *. rewrite !omap_cons_app, filter_app, IH. f_equal.
  unfold hit_of, hit_in. destruct (classify query (text_of s)) as [m|]; cbn [fmap option_fmap option_map].
  - change (option_list (Some (SearchHit.mk s m))) with [SearchHit.mk s m]. rewrite filter_cons. cbn [SearchHit.tier]. destruct (decide (m = tier)) as [->|Hne].
    + by rewrite decide_True.
    + by rewrite decide_False by congruence.
  - by rewrite decide_False.
Qed.

(** The rank: the first tier, then the second, each in the order of the
    segments. *)
Lemma search_hits_tiers r :
  search_hits query r
  = hits_in Phrase (TranscriptRevision.segments r) ++ hits_in AllTerms (TranscriptRevision.segments r).
Proof.
  unfold search_hits. set (l := omap (hit_of query) (TranscriptRevision.segments r)).
  assert (Htot : Total tier_le) by (intros a b; unfold tier_le; lia).
  assert (Htr : Transitive tier_le) by (intros a b c; unfold tier_le; lia).
  assert (Hone : forall tier, stable_sort tier_le (filter (fun h => SearchHit.tier h = tier) l)
                              = filter (fun h => SearchHit.tier h = tier) l).
  { intros tier. apply stable_sort_sorted.
    assert (Hall : Forall (fun h => SearchHit.tier h = tier) (filter (fun h => SearchHit.tier h = tier) l)).
    { apply Forall_forall. by intros h [Ht _]%list_elem_of_filter. }
    revert Hall. generalize (filter (fun h => SearchHit.tier h = tier) l). intros k.
    induction 1 as [|h k Hh Hk IH]; constructor; [done|]. eapply Forall_impl; [exact Hk|].
    intros h' Hh'. unfold tier_le. rewrite Hh, Hh'. lia. }
  rewrite (StronglySorted_partition tier_le (fun h => SearchHit.tier h = Phrase) (stable_sort tier_le l)).
  - rewrite <- tier_split, !stable_sort_filter by done. rewrite !Hone. by unfold l; rewrite !hits_by_tier.
  - by apply StronglySorted_stable_sort.
  - intros a b _ _. unfold tier_le. intros Hle Hb. rewrite Hb in Hle. by destruct (SearchHit.tier a).
Qed.

Lemma in_window_filter window l :
  StronglySorted Z.le (TranscriptSegment.start <$> l) -> in_window window l = filter (meets_window window) l.
Proof.
  intros Hso. destruct window as [window|]; cbn [in_window meets_window].
  2:{ symmetry. apply filter_all. by apply Forall_true. }
  induction l as [|s l IH]; [done|]. apply StronglySorted_cons in Hso as [Hall Hso].
  cbn [take_while]. destruct (TranscriptSegment.start s <? TimeRange.end_ window) eqn:E; bool_prop.
  - rewrite !filter_cons, IH by done. done.
  - rewrite filter_nil. symmetry. apply filter_none.
    assert (Hlate : forall s', s' ∈ s :: l -> TimeRange.end_ window <= TranscriptSegment.start s').
    { intros s' [->|Hin]%elem_of_cons; [done|]. etransitivity; [exact E|]. rewrite Forall_forall in Hall.
      apply Hall. by apply (list_elem_of_fmap_2 TranscriptSegment.start). }
    apply Forall_forall. intros s' Hin. apply not_true_iff_false, andb_false_iff. left.
    apply Z.ltb_ge. by apply Hlate.
Qed.

Lemma all_terms_loop_spec wanted found l :
  (length found < wanted)%nat ->
  all_terms_loop query wanted found l = take wanted (found ++ hits_in AllTerms l).
Proof.
  revert found. induction l as [|s l IH]; intros found Hf; cbn [all_terms_loop].
  { change (hits_in AllTerms []) with (@nil SearchHit.t). rewrite app_nil_r, take_ge; [done|lia]. }
  rewrite hits_in_cons. destruct (classify query (text_of s)) as [[|]|]; decide_constants; [by apply IH| |by apply IH].
  destruct (length (found ++ [SearchHit.mk s AllTerms]) =? wanted)%nat eqn:E.
  - apply Nat.eqb_eq in E. rewrite (cons_middle _ found (hits_in _ _)), app_assoc. by rewrite take_app_length'.
  - apply Nat.eqb_neq in E. rewrite length_app in E. cbn [length] in E.
    rewrite IH by (rewrite length_app; cbn [length]; lia). by rewrite <- app_assoc.
Qed.

(** What the loop over both tiers leaves is right as far as it is wanted. *)
Lemma ranked_loop_spec wanted phrase_after phrases all_terms l :
  (length phrases < wanted)%nat ->
  let found := ranked_loop query wanted phrase_after phrases all_terms l in
  take wanted (found.1 ++ found.2)
  = take wanted ((phrases ++ filter (fun h => (phrase_after <? TranscriptSegment.ordinal (SearchHit.segment h)) = true)
                                (hits_in Phrase l)) ++ all_terms ++ hits_in AllTerms l).
Proof.
  cbn zeta. revert phrases all_terms. induction l as [|s l IH]; intros phrases all_terms Hp; cbn [ranked_loop].
  { change (hits_in AllTerms []) with (@nil SearchHit.t). change (hits_in Phrase []) with (@nil SearchHit.t).
    by rewrite filter_nil, !app_nil_r. }
  rewrite !hits_in_cons. destruct (classify query (text_of s)) as [[|]|]; decide_constants; [| |by apply IH].
  - rewrite filter_cons. cbn [SearchHit.segment].
    destruct (phrase_after <? TranscriptSegment.ordinal s) eqn:Eo; decide_constants; [|by apply IH].
    destruct (length (phrases ++ [SearchHit.mk s Phrase]) =? wanted)%nat eqn:E.
    + apply Nat.eqb_eq in E. cbn [fst snd].
      rewrite take_app_length' by done. rewrite (cons_middle _ phrases (filter _ _)), (app_assoc phrases [_]).
      rewrite <- !(app_assoc (phrases ++ [_])). by rewrite take_app_length'.
    + apply Nat.eqb_neq in E. rewrite length_app in E. cbn [length] in E.
      rewrite IH by (rewrite length_app; cbn [length]; lia). by rewrite <- (app_assoc phrases).
  - destruct (length all_terms <? wanted)%nat eqn:E.
    + rewrite IH by done. by rewrite <- (app_assoc all_terms).
    + apply Nat.ltb_ge in E. rewrite IH by done. rewrite !(app_assoc (_ ++ _)).
      etransitivity; [|symmetry]; apply take_app_le; rewrite length_app; lia.
Qed.

Lemma ordinals_after r k :
  readable r -> 0 <= k ->
  filter (fun s => (k <? TranscriptSegment.ordinal s) = true) (TranscriptRevision.segments r)
  = drop (Z.to_nat k) (TranscriptRevision.segments r).
Proof.
  intros Hr Hk. pose proof (ordinal_lookup r) as Ho.
  rewrite <- (take_drop (Z.to_nat k) (TranscriptRevision.segments r)) at 1. rewrite filter_app.
  rewrite filter_none, filter_all; [done| |].
  - apply Forall_forall. intros s (i & Hi)%list_elem_of_lookup. rewrite lookup_drop in Hi.
    rewrite (Ho _ _ Hr Hi). apply Z.ltb_lt. lia.
  - apply Forall_forall. intros s (i & Hi)%list_elem_of_lookup. apply lookup_take_Some in Hi as [Hi Hlt].
    rewrite (Ho _ _ Hr Hi). apply not_true_iff_false, Z.ltb_ge. lia.
Qed.

Lemma ranked_after_tiers r window after :
  ranked_after r window after
  = filter (ranks_after after) (hits_in Phrase (filter (meets_window window) (TranscriptRevision.segments r)))
    ++ filter (ranks_after after) (hits_in AllTerms (filter (meets_window window) (TranscriptRevision.segments r))).
Proof. unfold ranked_after. by rewrite search_hits_tiers, !filter_app, !hits_in_filter. Qed.

(** Filters over hits of one tier may be read off the segments. *)
Lemma hits_in_ranked tier after (P : TranscriptSegment.t -> Prop) `{!forall s, Decision (P s)} l :
  (forall s, s ∈ l -> ranks_after after (SearchHit.mk s tier) <-> P s) ->
  filter (ranks_after after) (hits_in tier l) = hits_in tier (filter P l).
Proof.
  intros HP. rewrite <- hits_in_filter. apply filter_ext_in. intros h (<- & Hin & _)%hits_in_elem.
  destruct h as [s tier]. by apply HP.
Qed.

(** A page that stops scanning early is a slice of the whole ranked list. *)
Lemma search_revision_spec r window after limit :
  readable r -> match after with Some p => 0 <= SearchPosition.ordinal p | None => True end ->
  let n := Z.to_nat (PageLimit.value limit) in
  let found := ranked_after r window after in
  search_revision query r window after limit = SearchSlice.mk (take n found) (n <? length found)%nat.
Proof.
  intros Hr Ha. cbn zeta. rewrite ranked_after_tiers. unfold search_revision. cbn zeta.
  set (n := Z.to_nat (PageLimit.value limit)). pose proof (readable_order r Hr) as Hso.
  set (segments := TranscriptRevision.segments r) in *.
  assert (Heq : forall l k : list SearchHit.t, take (S n) l = take (S n) k ->
    SearchSlice.mk (take n l) (n <? length l)%nat = SearchSlice.mk (take n k) (n <? length k)%nat).
  { intros l k E. by destruct (take_enough n l k E) as [-> ->]. }
  assert (Hpos : forall s, s ∈ filter (meets_window window) segments -> 0 < TranscriptSegment.ordinal s).
  { intros s [_ (i & Hi)%list_elem_of_lookup]%list_elem_of_filter. rewrite (ordinal_lookup r i s Hr Hi). lia. }
  assert (Hboth : forall phrase_after,
    (forall s, s ∈ filter (meets_window window) segments ->
               ranks_after after (SearchHit.mk s Phrase) <-> (phrase_after <? TranscriptSegment.ordinal s) = true) ->
    (forall s, ranks_after after (SearchHit.mk s AllTerms)) ->
    let found := ranked_loop query (S n) phrase_after [] [] (in_window window segments) in
    take (S n) (found.1 ++ found.2)
    = take (S n) (filter (ranks_after after) (hits_in Phrase (filter (meets_window window) segments))
        ++ filter (ranks_after after) (hits_in AllTerms (filter (meets_window window) segments)))).
  { intros pa HP HA. cbn zeta. rewrite ranked_loop_spec by (cbn; lia). rewrite in_window_filter by done.
    cbn [app]. rewrite (hits_in_ranked Phrase after _ _ HP).
    rewrite <- (hits_in_filter Phrase (fun s => (pa <? TranscriptSegment.ordinal s) = true)). f_equal. f_equal.
    symmetry. apply filter_all, Forall_forall. intros [s t] (Ht & _)%hits_in_elem.
    cbn in Ht. subst t. apply HA. }
  apply Heq. destruct after as [[[|] ordinal]|].
  - apply Hboth; [|done]. intros s _. unfold ranks_after, SearchPosition.ltb. cbn. done.
  - rewrite all_terms_loop_spec by (cbn; lia). rewrite take_take, Nat.min_id. cbn [app SearchPosition.ordinal] in *.
    rewrite in_window_filter by (rewrite fmap_drop; eapply StronglySorted_sublist; [apply sublist_drop|done]).
    rewrite (filter_none _ (hits_in Phrase _)).
    2:{ apply Forall_forall. intros [s t] (Ht & _)%hits_in_elem. cbn in Ht. by subst t. }
    cbn [app]. rewrite (hits_in_ranked AllTerms _ (fun s => (ordinal <? TranscriptSegment.ordinal s) = true)) by done.
    unfold segments. rewrite <- ordinals_after by done. f_equal. f_equal. rewrite !list_filter_filter.
    apply list_filter_iff. intros s. tauto.
  - apply Hboth; [|done]. intros s Hin. cbn. specialize (Hpos s Hin). split; [|done]. intros _. by apply Z.ltb_lt.
Qed.

Definition position_lt (a b : SearchHit.t) : Prop :=
  SearchPosition.ltb (SearchHit.position a) (SearchHit.position b) = true.

Lemma position_lt_spec a b :
  position_lt a b <->
  tier_number (SearchHit.tier a) < tier_number (SearchHit.tier b)
  \/ SearchHit.tier a = SearchHit.tier b
     /\ TranscriptSegment.ordinal (SearchHit.segment a) < TranscriptSegment.ordinal (SearchHit.segment b).
Proof.
  unfold position_lt, SearchPosition.ltb. rewrite orb_true_iff, andb_true_iff, !Z.ltb_lt, Z.eqb_eq.
  destruct a as [s [|]], b as [s' [|]]; cbn; intuition (lia || congruence).
Qed.

Lemma ordinals_sorted r :
  readable r -> StronglySorted (fun a b => TranscriptSegment.ordinal a < TranscriptSegment.ordinal b)
                  (TranscriptRevision.segments r).
Proof.
  intros Hr. apply StronglySorted_lookup. intros i j a b Hij Hi Hj.
  rewrite (ordinal_lookup r i a Hr Hi), (ordinal_lookup r j b Hr Hj). lia.
Qed.

Lemma hits_in_sorted tier l :
  StronglySorted (fun a b => TranscriptSegment.ordinal a < TranscriptSegment.ordinal b) l ->
  StronglySorted position_lt (hits_in tier l).
Proof.
  intros Hl. eapply StronglySorted_omap; [exact Hl|]. intros a b h k Hab Ha Hb. unfold hit_in in Ha, Hb. do 2 (case_decide; [|done]).
  injection Ha as <-. injection Hb as <-. apply position_lt_spec. by right.
Qed.

(** The hits come in the strict order of their positions. *)
Lemma search_hits_sorted r : readable r -> StronglySorted position_lt (search_hits query r).
Proof.
  intros Hr. rewrite search_hits_tiers. pose proof (ordinals_sorted r Hr) as Ho.
  apply StronglySorted_app_2; [|by apply hits_in_sorted..].
  intros a b (Ha & _)%hits_in_elem (Hb & _)%hits_in_elem. apply position_lt_spec. left. rewrite Ha, Hb. cbn. lia.
Qed.

Lemma search_hits_elem r h :
  h ∈ search_hits query r <->
  SearchHit.segment h ∈ TranscriptRevision.segments r
  /\ classify query (text_of (SearchHit.segment h)) = Some (SearchHit.tier h).
Proof.
  rewrite search_hits_tiers, elem_of_app, !hits_in_elem.
  destruct (SearchHit.tier h); intuition congruence.
Qed.
End Ranking.

(** ** What is left after a hit *)

Section After.
Context `{UnicodeTables} (query : SearchQuery.t).

Lemma position_lt_trans a b c : position_lt a b -> position_lt b c -> position_lt a c.
Proof. rewrite !position_lt_spec. intuition (lia || congruence || (left; congruence)). Qed.

Lemma position_lt_irrefl a : ~ position_lt a a.
Proof. rewrite position_lt_spec. lia. Qed.

(** After the hit at a place of a sorted list come those behind it. *)
Lemma filter_behind (l : list SearchHit.t) k h :
  StronglySorted position_lt l -> l !! k = Some h ->
  filter (ranks_after (Some (SearchHit.position h))) l = drop (S k) l.
Proof.
  intros Hl Hk. rewrite StronglySorted_lookup in Hl.
  rewrite <- (take_drop (S k) l) at 1. rewrite filter_app, filter_none, filter_all; [done| |].
  - apply Forall_forall. intros h' (i & Hi)%list_elem_of_lookup. rewrite lookup_drop in Hi.
    apply (Hl k (S k + i)%nat); [lia|done|done].
  - apply Forall_forall. intros h' (i & Hi)%list_elem_of_lookup. apply lookup_take_Some in Hi as [Hi Hlt].
    intros Hlt'. change (position_lt h h') in Hlt'. destruct (decide (i = k)) as [->|Hne].
    + rewrite Hk in Hi. injection Hi as <-. by apply position_lt_irrefl in Hlt'.
    + apply (position_lt_irrefl h). eapply position_lt_trans; [exact Hlt'|].
      apply (Hl i k); [lia|done|done].
Qed.

Lemma ranked_after_sorted r window after : readable r -> StronglySorted position_lt (ranked_after query r window after).
Proof. intros Hr. unfold ranked_after. do 2 apply StronglySorted_filter. by apply search_hits_sorted. Qed.

Lemma ranked_after_hit r window after k h :
  readable r -> ranked_after query r window after !! k = Some h ->
  ranked_after query r window (Some (SearchHit.position h)) = drop (S k) (ranked_after query r window after).
Proof.
  intros Hr Hk. rewrite <- (filter_behind _ k h (ranked_after_sorted r window after Hr) Hk).
  unfold ranked_after. symmetry. rewrite list_filter_filter. apply list_filter_iff. intros h'. split; [tauto|].
  intros Hh'. split; [done|]. destruct after as [position|]; [|done]. cbn.
  assert (Hh : ranks_after (Some position) h).
  { apply list_elem_of_lookup_2, list_elem_of_filter in Hk. apply Hk. }
  cbn in Hh, Hh'. revert Hh Hh'. unfold SearchPosition.ltb.
  rewrite !orb_true_iff, !andb_true_iff, !Z.ltb_lt, !Z.eqb_eq. lia.
Qed.

Lemma ranked_after_ordinal r window after h :
  readable r -> h ∈ ranked_after query r window after ->
  1 <= SearchPosition.ordinal (SearchHit.position h) <= Z.of_nat (length (TranscriptRevision.segments r)).
Proof.
  intros Hr [_ [_ Hh]%list_elem_of_filter]%list_elem_of_filter. apply search_hits_elem in Hh as [Hs _].
  apply list_elem_of_lookup in Hs as (i & Hi). cbn. rewrite (ordinal_lookup r i _ Hr Hi).
  apply lookup_lt_Some in Hi. lia.
Qed.

Lemma ranked_after_length r window after :
  (length (ranked_after query r window after) <= length (TranscriptRevision.segments r))%nat.
Proof.
  unfold ranked_after. etransitivity; [apply length_filter|]. etransitivity; [apply length_filter|].
  unfold search_hits. rewrite stable_sort_Permutation. generalize (TranscriptRevision.segments r) as l.
  intros l. induction l as [|s l IH]; [done|]. rewrite omap_cons_app, length_app.
  destruct (hit_of query s); cbn [length] in *; [change (length (option_list (Some t))) with 1%nat|
    change (length (option_list (@None SearchHit.t))) with 0%nat]; lia.
Qed.
End After.

(** ** Examples *)

(** A revision of one segment per second with the given texts. *)
Definition spoken_revision (texts : list string) : TranscriptRevision.t :=
  let cue (entry : nat * string) :=
    let start := 1000000 * Z.of_nat entry.1 in
    TranscriptSegment.mk (mkOpaqueId []) (Z.of_nat entry.1 + 1) (TimeRange.mk start (start + 500000))
      (CueText.mk (literal entry.2) None) None Confidence.unknown
      (CueOrigin (CueSource.mk (Z.of_nat entry.1 + 1) 1) (CueTiming.mk start (start + 500000))) None in
  TranscriptRevision.mk (mkOpaqueId (literal "trv_0123456789abcdef")) 1 (mkDigestId [])
    (SourceSegment.mk (mkOpaqueId []) 0 (TimeRange.mk 0 90000000) Closed)
    (Imported Srt (SidecarIdentity.mk [] 10) (TranscriptOffset.mk 0))
    None None [] [] [] None (cue <$> enumerate texts) [] None.

Definition spoken : list string :=
  ["error code AB then 731"; "the AB-731 error"; "nothing here"; "731 AB again"; "AB 731 repeated"]%string.

Lemma spoken_readable : readable (spoken_revision spoken).
Proof.
  constructor; [concrete|concrete|vm_compute; reflexivity|].
  vm_compute. repeat constructor; intros; discriminate.
Qed.

Lemma query_matches_exactly_witness :
  let q := SearchQuery.mk [literal "ab"; literal "731"] (literal "ab731") in
  SearchQuery.parse (H := ascii_tables) (literal "AB 731") = Ok q
  /\ says (fill (H := ascii_tables) (literal "Order AB-731.")) (fill (H := ascii_tables) (literal "AB 731"))
  /\ classify (H := ascii_tables) q (literal "731 and AB") = Some AllTerms
  /\ classify (H := ascii_tables) q (literal "AB-7310") = None.
Proof.
  cbn zeta. assert (Hq : SearchQuery.parse (H := ascii_tables) (literal "AB 731")
    = Ok (SearchQuery.mk [literal "ab"; literal "731"] (literal "ab731"))) by (vm_compute; reflexivity).
  split; [exact Hq|].
  destruct (query_matches_exactly (H := ascii_tables) (literal "AB 731") _ Hq) as (_ & _ & _ & Hall).
  split; [|split; vm_compute; reflexivity].
  destruct (Hall (literal "Order AB-731.")) as [Hphrase _]. apply Hphrase. vm_compute. reflexivity.
Defined.
