(* ===== verification/SearchNormal.v ===== *)
(** * SearchNormal: normalised words stay as they are

    The words that [Search] makes of a text have the shape the documentation of
    [crates/vsift-domain/src/search.rs] gives them, and normalising them again
    changes nothing. The proof works on lists of characters. *)

From Stdlib Require Import Ascii.
From S2P Require Import Prelude.
From S2P Require Import Text.
From S2P Require Import Chars.
From S2P Require Import Pagination.
From S2P Require Import Search.

Section Normal.
Context `{UnicodeLaws}.

(** A letter or digit in its lower case. *)
Definition letter (c : text) : Prop := is_char c /\ is_alphanumeric c = true /\ to_lowercase c = c.

(** Letters, spaces, and points between digits. *)
Fixpoint shape (digit_before : bool) (cs : list text) : Prop :=
  match cs with
  | [] => True
  | c :: rest =>
      (letter c \/ c = [space]
       \/ c = [point] /\ digit_before = true /\ neighbour_is is_digit (head rest) = true)
      /\ shape (is_digit c) rest
  end.

(** The same without spaces. *)
Definition word_shape (cs : list text) : Prop :=
  shape false cs /\ Forall (fun c => is_whitespace c = false) cs.

Definition settled_word (word : text) : Prop :=
  (exists cs, cs <> [] /\ word = concat cs /\ word_shape cs) /\ canonical_word word = word.

Lemma digit_letter c : is_digit c = true -> letter c.
Proof.
  destruct c as [|b [|]]; [done| |done]. cbn [is_digit]. intros Hb. unfold letter.
  destruct b as [[][][][][][][][]]; vm_compute in Hb; try discriminate Hb; by vm_compute.
Qed.

Lemma letter_plain c : letter c -> c <> [comma] /\ c <> [hyphen] /\ c <> [point] /\ c <> [space].
Proof. intros (_ & Ha & _). repeat split; intros ->; by vm_compute in Ha. Qed.

Lemma shape_weaken (b b' : bool) cs : (b = true -> b' = true) -> shape b cs -> shape b' cs.
Proof.
  destruct cs as [|c cs]; [done|]. intros Hb [Hc Hs]. split; [|done].
  destruct Hc as [Hc|[Hc|(Hc & Hd & Hn)]]; [by left|right; by left|right; right].
  split; [done|]. by split; [apply Hb|].
Qed.

(** ** From a text to its words *)

Lemma lowered_settled source :
  well_formed source -> Forall (fun c => is_char c /\ to_lowercase c = c) (lowered source).
Proof.
  intros Hw. unfold lowered.
  assert (Hc : exists cs, concat (to_lowercase <$> chars source) = concat cs
                          /\ Forall (fun c => is_char c /\ to_lowercase c = c) cs).
  { unfold well_formed in Hw. induction Hw as [|c l Hc _ (cs & E & Hcs)]; [by exists []|].
    destruct (lower_stable c Hc) as (ds & Ed & Hds). exists (ds ++ cs). split; [|by apply Forall_app].
    rewrite fmap_cons. cbn [concat]. by rewrite Ed, E, concat_app. }
  destruct Hc as (cs & -> & Hcs). rewrite chars_concat; [done|].
  eapply Forall_impl; [exact Hcs|]. by intros c [Hc _].
Qed.

Lemma spaced_char_letter before c after : letter c -> spaced_char before c after = [c].
Proof.
  intros Hc. destruct (letter_plain c Hc) as (H1 & H2 & H3 & _). unfold spaced_char.
  rewrite !bool_decide_false by done. cbn [andb]. by destruct Hc as (_ & -> & _).
Qed.

Lemma spaced_shape before cs b :
  Forall (fun c => is_char c /\ to_lowercase c = c) cs ->
  (neighbour_is is_digit before = true -> b = true) -> shape b (spaced before cs).
Proof.
  intros Hcs. revert before b. induction Hcs as [|c cs [Hc Hlow] Hcs IH]; intros before b Hb; cbn [spaced]; [done|].
  unfold spaced_char. destruct (bool_decide (c = [comma]) && _ && _) eqn:E1;
    [|destruct (bool_decide (c = [hyphen]) && _ && _) eqn:E2;
      [|destruct (bool_decide (c = [point]) && _ && _) eqn:E3; [|destruct (is_alphanumeric c) eqn:E4]]].
  - rewrite !andb_true_iff, bool_decide_eq_true in E1. destruct E1 as [[-> _] _]. by apply IH.
  - rewrite !andb_true_iff, bool_decide_eq_true in E2. destruct E2 as [[-> _] _]. by apply IH.
  - rewrite !andb_true_iff, bool_decide_eq_true in E3. destruct E3 as [[-> Hd] Hn].
    cbn [app shape]. split; [|by apply IH]. right. right. split; [done|]. split; [by apply Hb|].
    destruct cs as [|d cs]; [done|]. cbn [head neighbour_is] in *.
    cbn [spaced]. by rewrite spaced_char_letter by by apply digit_letter.
  - cbn [app shape]. split; [|by apply IH]. by left.
  - cbn [app shape]. split; [right; by left|]. apply IH. cbn [neighbour_is]. intros Hd.
    destruct (digit_letter c Hd) as (_ & Ha & _). by rewrite Ha in E4.
Qed.

Lemma shape_not_space b c rest :
  shape b (c :: rest) -> is_whitespace c = false -> letter c \/ c = [point] /\ b = true
    /\ neighbour_is is_digit (head rest) = true.
Proof. intros [[Hc|[->|Hc]] _] Hw; [by left|done|by right]. Qed.

(** The words of a shaped list are shaped. *)
Lemma shape_split b cs :
  shape b cs ->
  exists word words, split_at_whitespace cs = word :: words /\ shape b word /\ Forall (shape false) words
    /\ (neighbour_is is_digit (head cs) = true -> head word = head cs).
Proof.
  revert b. induction cs as [|c cs IH]; intros b Hs; cbn [split_at_whitespace]; [by exists [], []|].
  destruct Hs as [Hc Hs]. destruct (IH _ Hs) as (word & words & E & Hword & Hwords & Hhead).
  destruct (is_whitespace c) eqn:Ew.
  - exists [], (split_at_whitespace cs). split; [done|]. split; [done|]. rewrite E. split.
    + constructor; [|done]. apply (shape_weaken (is_digit c)); [|done]. intros Hd.
      destruct (digit_letter c Hd) as (_ & Ha & _). by rewrite (letter_not_space c Ha) in Ew.
    + cbn [head neighbour_is]. intros Hd. destruct (digit_letter c Hd) as (_ & Ha & _).
      by rewrite (letter_not_space c Ha) in Ew.
  - rewrite E. exists (c :: word), words. split; [done|]. split; [|done]. split; [|done].
    destruct (shape_not_space b c cs (conj Hc Hs) Ew) as [Hl|(-> & Hb & Hn)]; [by left|].
    right. right. split; [done|]. split; [done|]. by rewrite Hhead.
Qed.

Lemma split_no_space cs : Forall (Forall (fun c => is_whitespace c = false)) (split_at_whitespace cs).
Proof.
  induction cs as [|c cs IH]; cbn [split_at_whitespace]; [by repeat constructor|].
  destruct (is_whitespace c) eqn:E; [by constructor|].
  destruct IH as [|word words Hw Hws]; by repeat constructor.
Qed.

Lemma shape_chars b cs : shape b cs -> Forall is_char cs.
Proof.
  revert b. induction cs as [|c cs IH]; intros b; constructor.
  - by destruct H1 as [[(Hc & _)|[->|(-> & _)]] _].
  - destruct H1 as [_ Hs]. by apply (IH _ Hs).
Qed.

(** ** The canonical form of a word *)

Definition singles (s : text) : list text := (fun b => [b]) <$> s.

Lemma concat_singles s : concat (singles s) = s.
Proof. induction s as [|b s IH]; [done|]. unfold singles in *. rewrite fmap_cons. cbn. by rewrite IH. Qed.

Abbreviation digits s := (Forall (fun a => is_ascii_digit a = true) s).

Lemma shape_digits b s rest : digits s -> s <> [] -> shape true rest -> shape b (singles s ++ rest).
Proof.
  intros Hs. revert b. induction Hs as [|a s Ha Hs IH]; intros b Hne Hrest; [done|].
  change (singles (a :: s) ++ rest) with ([a] :: singles s ++ rest). split; [left; by apply digit_letter|].
  cbn [is_digit]. rewrite Ha. destruct s as [|a' s]; [done|]. by apply IH.
Qed.

Lemma digit_not_space c : is_digit c = true -> is_whitespace c = false.
Proof. intros Hd. destruct (digit_letter c Hd) as (_ & Ha & _). by apply letter_not_space. Qed.

Lemma singles_not_space s : digits s -> Forall (fun c => is_whitespace c = false) (singles s).
Proof. induction 1 as [|a s Ha _ IH]; constructor; [by apply digit_not_space|done]. Qed.

Lemma digits_not_named word entry :
  find (fun entry => bool_decide (entry.1 = word)) NUMBER_WORDS = Some entry ->
  ~ exists d rest, word = d :: rest /\ is_ascii_digit d = true.
Proof.
  intros [Hin%list_elem_of_In Hw%bool_decide_eq_true]%find_some (d & rest & -> & Hd).
  revert entry Hin Hw. apply (proj1 (Forall_forall (fun e : text * text => e.1 = d :: rest -> False) NUMBER_WORDS)).
  repeat (constructor; [intros [= <- _]; by vm_compute in Hd|]). constructor.
Qed.

Lemma canonical_digits whole :
  whole <> [] -> digits whole -> canonical_word whole = whole.
Proof.
  intros Hne Hw. unfold canonical_word. destruct (find _ NUMBER_WORDS) as [entry|] eqn:E.
  { exfalso. apply digits_not_named in E. destruct Hw as [|d rest Hd _]; [done|]. apply E. by exists d, rest. }
  destruct (is_decimal whole) eqn:Ed; [|done]. apply is_decimal_spec in Ed as (w & k & -> & _).
  apply Forall_app in Hw as [_ [Hp _]%Forall_cons]. by vm_compute in Hp.
Qed.

Lemma canonical_fixed_decimal whole kept :
  whole <> [] -> digits whole -> kept <> [] -> digits kept -> trim_end_matches zero_char kept = kept ->
  canonical_word (whole ++ point :: kept) = whole ++ point :: kept.
Proof.
  intros Hne Hw Hk Hkd Ht. unfold canonical_word. destruct (find _ NUMBER_WORDS) as [entry|] eqn:E.
  { exfalso. apply digits_not_named in E. destruct Hw as [|d rest Hd _]; [done|]. apply E.
    by exists d, (rest ++ point :: kept). }
  destruct (is_decimal _); [|done]. rewrite canonical_decimal, Ht by done. by destruct kept.
Qed.

Lemma digits_word s : s <> [] -> digits s -> settled_word s.
Proof.
  intros Hne Hs. split; [|by apply canonical_digits]. exists (singles s).
  split; [by destruct s|]. split; [by rewrite concat_singles|]. split; [|by apply singles_not_space].
  rewrite <- (app_nil_r (singles s)). by apply shape_digits.
Qed.

Lemma number_words_settled entry : entry ∈ NUMBER_WORDS -> settled_word entry.2.
Proof.
  intros Hin. assert (Hd : entry.2 <> [] /\ digits entry.2); [|by destruct Hd; apply digits_word].
  revert entry Hin. apply (proj1 (Forall_forall (fun e : text * text => e.2 <> [] /\ digits e.2) NUMBER_WORDS)).
  repeat (constructor; [split; [by intros [=]|repeat (constructor; [by vm_compute|]); constructor]|]). constructor.
Qed.

(** The canonical form of a word of the right shape has it too, and is its own
    canonical form. *)
Lemma canonical_settled cs : cs <> [] -> word_shape cs -> settled_word (canonical_word (concat cs)).
Proof.
  intros Hne Hcs. unfold canonical_word at 1. destruct (find _ NUMBER_WORDS) as [entry|] eqn:E.
  { apply find_some in E as [Hin%list_elem_of_In _]. by apply number_words_settled. }
  destruct (is_decimal (concat cs)) eqn:Ed.
  - apply is_decimal_spec in Ed as (whole & fraction & -> & Hw & _ & Hwd & Hfd).
    rewrite canonical_decimal by done. pose proof (trim_end_matches_Forall _ zero_char _ Hfd) as Hkd.
    pose proof (trim_end_matches_idem zero_char fraction) as Hi.
    destruct (trim_end_matches zero_char fraction) as [|d kept]; [by apply digits_word|].
    split; [|by apply canonical_fixed_decimal]. exists (singles whole ++ [point] :: singles (d :: kept)).
    split; [by destruct whole|]. split; [by rewrite concat_app; cbn [concat]; rewrite !concat_singles|]. split.
    + apply shape_digits; [done..|]. split.
      * right. right. apply Forall_cons in Hkd as [Hd _]. done.
      * rewrite <- (app_nil_r (singles _)). by apply shape_digits.
    + apply Forall_app. split; [by apply singles_not_space|]. constructor; [by vm_compute|by apply singles_not_space].
  - split; [by exists cs|]. unfold canonical_word. by rewrite E, Ed.
Qed.

(** Every word of a normalised text is settled. *)
Lemma fill_settled source : well_formed source -> Forall settled_word (fill source).
Proof.
  intros Hw. unfold fill. apply Forall_fmap, Forall_forall. intros word [Hne Hin]%list_elem_of_filter.
  apply canonical_settled; [done|].
  pose proof (spaced_shape None (lowered source) false (lowered_settled source Hw) (fun h => h)) as Hs.
  rewrite (chars_concat _ (shape_chars _ _ Hs)) in Hin. split.
  - destruct (shape_split _ _ Hs) as (w & ws & E & Hws & Hall & _). rewrite E in Hin.
    apply elem_of_cons in Hin as [->|Hin]; [done|]. rewrite Forall_forall in Hall. by apply Hall.
  - pose proof (split_no_space (spaced None (lowered source))) as Hall.
    rewrite Forall_forall in Hall. by apply Hall.
Qed.

(** ** From words to a text and back *)

(** Words set apart by one space. *)
Fixpoint spread (ws : list (list text)) : list text :=
  match ws with
  | [] => []
  | [w] => w
  | w :: rest => w ++ [space] :: spread rest
  end.

Lemma concat_spread ws : concat (spread ws) = join_with space (@concat ascii <$> ws).
Proof.
  induction ws as [|w [|w' ws] IH]; [done|done|].
  change (concat (w ++ [space] :: spread (w' :: ws)) = concat w ++ space :: join_with space (@concat ascii <$> w' :: ws)).
  rewrite concat_app. cbn [concat]. by rewrite IH.
Qed.

Lemma shape_then_space b w rest : shape b w -> shape false rest -> shape b (w ++ [space] :: rest).
Proof.
  revert b. induction w as [|c w IH]; intros b Hw Hr; cbn [app]; [split; [right; by left|done]|].
  destruct Hw as [Hc Hw]. split; [|by apply IH]. destruct Hc as [Hc|[Hc|(Hc & Hb & Hn)]]; [by left|right; by left|].
  right. right. split; [done|]. split; [done|]. by destruct w.
Qed.

Lemma spread_shape ws : Forall word_shape ws -> shape false (spread ws).
Proof.
  induction 1 as [|w ws [Hw _] Hws IH]; [done|]. destruct ws as [|w' ws]; [done|]. by apply shape_then_space.
Qed.

Lemma split_word w rest :
  Forall (fun c => is_whitespace c = false) w ->
  split_at_whitespace (w ++ [space] :: rest) = w :: split_at_whitespace rest.
Proof.
  induction 1 as [|c w Hc _ IH]; cbn [app split_at_whitespace]; [done|]. by rewrite Hc, IH.
Qed.

Lemma split_spread ws : Forall word_shape ws -> ws <> [] -> split_at_whitespace (spread ws) = ws.
Proof.
  induction 1 as [|w ws [_ Hw] Hws IH]; [done|]. intros _. destruct ws as [|w' ws].
  - cbn [spread]. clear IH Hws. induction Hw as [|c w Hc _ IH]; cbn [split_at_whitespace]; [done|]. by rewrite Hc, IH.
  - change (spread (w :: w' :: ws)) with (w ++ [space] :: spread (w' :: ws)).
    rewrite split_word by done. by rewrite IH.
Qed.

Lemma spaced_fixed before b cs :
  (b = true -> neighbour_is is_digit before = true) -> shape b cs -> spaced before cs = cs.
Proof.
  revert before b. induction cs as [|c cs IH]; intros before b Hb; [done|]. intros [Hc Hs]. cbn [spaced].
  rewrite (IH (Some c) _ (fun h => h) Hs). destruct Hc as [Hc|[->|(-> & Hd & Hn)]].
  - by rewrite spaced_char_letter.
  - done.
  - unfold spaced_char. by rewrite (Hb Hd), Hn.
Qed.

Lemma shape_lowered b cs : shape b cs -> lowered (concat cs) = cs.
Proof.
  intros Hs. unfold lowered. rewrite (chars_concat cs) by by eapply shape_chars.
  assert (E : to_lowercase <$> cs = cs); [|by rewrite E, chars_concat by by eapply shape_chars].
  revert b Hs. induction cs as [|c cs IH]; [done|]. intros b [Hc Hs]. rewrite fmap_cons, (IH _ Hs). f_equal.
  by destruct Hc as [(_ & _ & ?)|[->|(-> & _)]].
Qed.

Lemma fill_spread ws :
  Forall word_shape ws -> Forall (fun w => w <> []) ws ->
  fill (concat (spread ws)) = (fun w => canonical_word (concat w)) <$> ws.
Proof.
  intros Hws Hne. unfold fill. pose proof (spread_shape ws Hws) as Hs.
  rewrite (shape_lowered _ _ Hs), (spaced_fixed None false) by done. unfold split_whitespace.
  rewrite chars_concat by by eapply shape_chars. f_equal.
  destruct ws as [|w ws]; [done|]. rewrite split_spread by done. by apply filter_all.
Qed.

(** The words of a well-formed text are not empty, hold letters and digits in
    their lower case and points between two digits, and are a fixed point:
    writing them with a space between and normalising again gives the same
    words. Claim C16. *)
Theorem normalised_words_settle source :
  well_formed source ->
  Forall (fun word => exists cs, cs <> [] /\ word = concat cs /\ word_shape cs) (normalise_search_text source)
  /\ normalise_search_text (join_with space (normalise_search_text source)) = normalise_search_text source.
Proof.
  intros Hw. pose proof (fill_settled source Hw) as Hall. unfold normalise_search_text.
  split; [eapply Forall_impl; [exact Hall|]; by intros word [? _]|].
  assert (Hcs : exists ws, fill source = @concat ascii <$> ws /\ Forall word_shape ws /\ Forall (fun w => w <> []) ws
                           /\ (fun w => canonical_word (concat w)) <$> ws = @concat ascii <$> ws).
  { induction Hall as [|word words [(cs & Hne & -> & Hcs) Hfix] _ (ws & -> & H1 & H2 & H3)]; [by exists []|].
    exists (cs :: ws). split; [done|]. split; [by constructor|]. split; [by constructor|].
    rewrite !fmap_cons. by rewrite H3, Hfix. }
  destruct Hcs as (ws & -> & H1 & H2 & H3). rewrite <- concat_spread. by rewrite fill_spread.
Qed.
End Normal.

Lemma ascii_well_formed : well_formed (literal "Twelve rows, 2,048 in E-409: 125.00 and 127.50.").
Proof. unfold well_formed. vm_compute. repeat constructor. Qed.

Lemma normalised_words_settle_witness :
  let source := literal "Twelve rows, 2,048 in E-409: 125.00 and 127.50." in
  let words := normalise_search_text (H := ascii_tables) source in
  words = literal <$> ["12"; "rows"; "2048"; "in"; "e409"; "125"; "and"; "127.5"]%string
  /\ normalise_search_text (H := ascii_tables) (join_with space words) = words.
Proof.
  cbn zeta. split; [vm_compute; reflexivity|].
  apply (normalised_words_settle (H := ascii_tables) (H0 := ascii_tables_laws) _ ascii_well_formed).
Defined.

(** Zeros before a decimal number are part of the word: its value alone does
    not decide. *)
Lemma leading_zeros_kept :
  normalise_search_text (H := ascii_tables) (literal "7.50") = [literal "7.5"]
  /\ normalise_search_text (H := ascii_tables) (literal "07.50") = [literal "07.5"]
  /\ normalise_search_text (H := ascii_tables) (literal "0.0") = [literal "0"]
  /\ normalise_search_text (H := ascii_tables) (literal "00.0") = [literal "00"].
Proof. repeat split; vm_compute; reflexivity. Qed.
