(* ===== verification/SearchRead.v ===== *)
(** * SearchRead: the pages of a search

    Models [crates/vsift-application/src/search.rs]: a page of hits with the
    cursor of the next, the key that a cursor keeps, and the digest that binds
    a cursor to its search. *)

From Stdlib Require Import Ascii.
From S2P Require Import Prelude.
From S2P Require Import Text.
From S2P Require Import Chars.
From S2P Require Import Timeline.
From S2P Require Import Identity.
From S2P Require Import Pagination.
From S2P Require Import Cues.
From S2P Require Import Revision.
From S2P Require Import Coverage.
From S2P Require Import DerivedIdentity.
From S2P Require Import TranscriptRead.
From S2P Require Import Search.
From S2P Require Import SearchNormal.

Definition KEY_SEPARATOR : ascii := hyphen.

Module SearchPageRequest.
Record t := mk {
  query : SearchQuery.t;
  range : option TimeRange.t;
  limit : PageLimit.t;
  cursor : option text
}.
End SearchPageRequest.

Module SearchPage.
Record t := mk {
  hits : list SearchHit.t;
  next_cursor : option CursorToken.t;
  coverage : SearchCoverage.t
}.
End SearchPage.

Definition position_key (position : SearchPosition.t) : text :=
  decimal (tier_number (SearchPosition.tier position))
  ++ KEY_SEPARATOR :: decimal (SearchPosition.ordinal position).

Definition parse_position (key : text) (r : TranscriptRevision.t) : result SearchPosition.t CursorError :=
  let? parts := ok_or (split_once KEY_SEPARATOR key) InvalidLastItemKey in
  let? tier := if bool_decide (parts.1 = literal "1") then Ok Phrase
               else if bool_decide (parts.1 = literal "2") then Ok AllTerms
               else Err InvalidLastItemKey in
  let canonical := negb (starts_with zero_char parts.2) && forallb is_ascii_digit parts.2 in
  let? ordinal := ok_or (ordinal ← parse_u32 parts.2;
                         if canonical && (1 <=? ordinal) then Some ordinal else None)
                    InvalidLastItemKey in
  if Z.of_nat (length (TranscriptRevision.segments r)) <? ordinal then Err InvalidLastItemKey
  else Ok (SearchPosition.mk tier ordinal).

Definition search_material (revision : OpaqueId TranscriptRevisionId) (range : option TimeRange.t)
    (terms : list text) : text :=
  let '(from, to) := match range with
                     | None => ([hyphen], [hyphen])
                     | Some range => (decimal (TimeRange.start range), decimal (TimeRange.end_ range))
                     end in
  fold_left (fun material term => material ++ newline_char ++ term) terms
    (literal "vsift.search.v1" ++ newline_char ++ as_str revision ++ newline_char ++ from ++ newline_char ++ to).

Definition search_query_digest `{Sha256} (revision : OpaqueId TranscriptRevisionId)
    (range : option TimeRange.t) (query : SearchQuery.t) : result QueryDigest.t CursorError :=
  QueryDigest.parse (sha256_hex (search_material revision range (SearchQuery.terms query))).

Definition page_search `{UnicodeTables} `{Sha256} (session_id : OpaqueId SessionId)
    (r : TranscriptRevision.t) (request : SearchPageRequest.t) (cursor_expires_at_micros now_micros : Z)
    : result SearchPage.t CursorError :=
  let query := SearchPageRequest.query request in
  let range := SearchPageRequest.range request in
  let? digest := search_query_digest (TranscriptRevision.id r) range query in
  let snapshot := TranscriptRevision.number r in
  let? after := match SearchPageRequest.cursor request with
                | None => Ok None
                | Some encoded =>
                    let? token := CursorToken.parse encoded in
                    let? _ := CursorToken.validate_scope token session_id snapshot digest now_micros in
                    let? position := parse_position (CursorToken.last_item_key token) r in
                    Ok (Some position)
                end in
  let slice := search_revision query r range after (SearchPageRequest.limit request) in
  let? next_cursor := match SearchSlice.has_more slice, last (SearchSlice.hits slice) with
                      | true, Some final =>
                          let? token := CursorToken.new session_id snapshot digest
                                          (position_key (SearchHit.position final))
                                          cursor_expires_at_micros in
                          Ok (Some token)
                      | _, _ => Ok None
                      end in
  Ok (SearchPage.mk (SearchSlice.hits slice) next_cursor (coverage_of r range)).

(** ** Specification *)

(** A reader that follows the cursors of a search, with the limit it chooses
    for each page. *)
Definition search_answer `{UnicodeTables} `{Sha256} (session_id : OpaqueId SessionId)
    (r : TranscriptRevision.t) (query : SearchQuery.t) (range : option TimeRange.t)
    (limits : nat -> PageLimit.t) (expires now : Z) (k : nat) (cursor : option text)
    : option (list SearchHit.t * option text) :=
  match page_search session_id r (SearchPageRequest.mk query range (limits k) cursor) expires now with
  | Ok p => Some (SearchPage.hits p, CursorToken.encode <$> SearchPage.next_cursor p)
  | Err _ => None
  end.

(** ** Keys *)

Lemma parse_key_ordinal key r ordinal :
  key = decimal ordinal -> 1 <= ordinal <= Z.of_nat (length (TranscriptRevision.segments r)) ->
  ordinal <= U32_MAX ->
  ok_or (ordinal ← parse_u32 key;
         if negb (starts_with zero_char key) && forallb is_ascii_digit key && (1 <=? ordinal)
         then Some ordinal else None) InvalidLastItemKey = Ok ordinal.
Proof.
  intros -> Ho Hu. rewrite parse_u32_decimal by ulia. cbn [mbind option_bind].
  destruct (decimal_u64 ordinal ltac:(ulia)) as (Hd & _ & _).
  by rewrite decimal_no_leading_zero, Hd, (proj2 (Z.leb_le _ _)) by ulia.
Qed.

Definition tier_digit (tier : SearchMatch) : ascii :=
  match tier with Phrase => "1"%char | AllTerms => "2"%char end.

Lemma tier_decimal tier : decimal (tier_number tier) = [tier_digit tier].
Proof. by destruct tier. Qed.

Lemma parse_position_key position r :
  1 <= SearchPosition.ordinal position <= Z.of_nat (length (TranscriptRevision.segments r)) ->
  SearchPosition.ordinal position <= U32_MAX ->
  parse_position (position_key position) r = Ok position.
Proof.
  intros Ho Hu. unfold parse_position, position_key. rewrite tier_decimal.
  assert (E : split_once KEY_SEPARATOR ([tier_digit (SearchPosition.tier position)]
                ++ KEY_SEPARATOR :: decimal (SearchPosition.ordinal position))
              = Some ([tier_digit (SearchPosition.tier position)], decimal (SearchPosition.ordinal position))).
  { apply split_once_Some. split; [done|]. rewrite list_elem_of_singleton.
    by destruct (SearchPosition.tier position). }
  rewrite E. cbn [ok_or result_bind fst snd].
  assert (Ht : (if bool_decide ([tier_digit (SearchPosition.tier position)] = literal "1") then Ok Phrase
                else if bool_decide ([tier_digit (SearchPosition.tier position)] = literal "2") then Ok AllTerms
                else Err InvalidLastItemKey) = Ok (SearchPosition.tier position) :> result SearchMatch CursorError)
    by (by destruct (SearchPosition.tier position)).
  rewrite Ht. cbn [result_bind]. rewrite (parse_key_ordinal _ r _ eq_refl Ho Hu). cbn [result_bind].
  rewrite (proj2 (Z.ltb_ge _ _)) by lia. by destruct position.
Qed.

Lemma position_key_valid position :
  is_u64 (SearchPosition.ordinal position) -> validate_last_item_key (position_key position) = Ok tt.
Proof.
  intros Hv. destruct (decimal_u64 _ Hv) as (Hd & _ & _). pose proof (decimal_length (SearchPosition.ordinal position)).
  unfold validate_last_item_key, MAX_LAST_KEY_LENGTH, position_key. rewrite tier_decimal. apply guard_Ok.
  split; [|done]. rewrite !orb_false_iff, Nat.eqb_neq, Nat.ltb_ge, negb_false_iff, length_app. cbn [length app].
  split; [split; lia|]. rewrite forallb_forall in Hd |- *. intros c [<-|[<-|Hc]].
  - by destruct (SearchPosition.tier position).
  - done.
  - rewrite (Hd c Hc). by rewrite orb_true_r.
Qed.

(** ** The digest tells searches apart *)

Definition bound_texts (range : option TimeRange.t) : text * text :=
  match range with
  | None => ([hyphen], [hyphen])
  | Some range => (decimal (TimeRange.start range), decimal (TimeRange.end_ range))
  end.

Definition material_lines (revision : OpaqueId TranscriptRevisionId) (range : option TimeRange.t)
    (terms : list text) : list text :=
  [literal "vsift.search.v1"; as_str revision; (bound_texts range).1; (bound_texts range).2] ++ terms.

Lemma search_material_lines revision range terms :
  search_material revision range terms = join_with newline (material_lines revision range terms).
Proof.
  unfold search_material, material_lines, bound_texts. destruct (match range with None => _ | Some _ => _ end) as [from to].
  exact (material_join [literal "vsift.search.v1"; as_str revision; from; to] terms ltac:(done)).
Qed.

Definition range_u64 (range : option TimeRange.t) : Prop :=
  match range with Some range => is_u64 (TimeRange.start range) /\ is_u64 (TimeRange.end_ range) | None => True end.

Lemma bound_texts_no_newline range :
  range_u64 range ->
  Forall (fun c => c <> newline) (bound_texts range).1 /\ Forall (fun c => c <> newline) (bound_texts range).2.
Proof.
  destruct range as [range|]; cbn; [intros [H1 H2]; by split; apply decimal_no_newline|].
  intros _. by split; repeat constructor.
Qed.

Lemma bound_texts_inj range range' :
  range_u64 range -> range_u64 range' -> bound_texts range = bound_texts range' -> range = range'.
Proof.
  assert (Hd : forall v, is_u64 v -> decimal v <> [hyphen]).
  { intros v Hv E. destruct (decimal_u64 v Hv) as (Hdigits & _). rewrite E in Hdigits. by vm_compute in Hdigits. }
  destruct range as [[a b]|], range' as [[a' b']|]; cbn; [| | |done].
  - intros [Ha Hb] [Ha' Hb'] [= E1 E2]. apply decimal_inj in E1 as ->, E2 as ->; done.
  - intros [Ha _] _ [= E _]. by apply Hd in E.
  - intros _ [Ha _] [= E _]. symmetry in E. by apply Hd in E.
Qed.

Section Unambiguous.
Context `{UnicodeLaws}.

Lemma letter_no_newline c : letter c -> Forall (fun b => b <> newline) c.
Proof.
  intros (Hc & Ha & _). destruct c as [|b [|b' c]]; [done| |].
  - constructor; [|constructor]. intros ->. by vm_compute in Ha.
  - destruct Hc as [_ Hc]. eapply Forall_impl; [exact Hc|]. intros d Hd ->. by vm_compute in Hd.
Qed.

Lemma settled_no_newline word : settled_word word -> Forall (fun b => b <> newline) word.
Proof.
  intros [(cs & _ & -> & [Hs _]) _]. revert Hs. generalize false as b. intros b.
  revert b. induction cs as [|c cs IH]; intros b; [constructor|]. intros [Hc Hs]. cbn [concat].
  apply Forall_app. split; [|by apply (IH _ Hs)].
  destruct Hc as [Hc|[->|(-> & _)]]; [by apply letter_no_newline| |]; by repeat constructor.
Qed.

(** What a cursor's digest is taken of tells searches apart: two searches have
    the same material exactly when they ask for the same words in the same
    range of the same revision, because no line of it holds a line break. *)
Theorem search_material_unambiguous revision revision' range range' typed typed' :
  is_identifier TranscriptRevisionId (as_str revision) -> is_identifier TranscriptRevisionId (as_str revision') ->
  range_u64 range -> range_u64 range' -> well_formed typed -> well_formed typed' ->
  search_material revision range (normalise_search_text typed)
  = search_material revision' range' (normalise_search_text typed')
  <-> revision = revision' /\ range = range' /\ normalise_search_text typed = normalise_search_text typed'.
Proof.
  intros Hr Hr' Hb Hb' Ht Ht'. split; [|by intros (-> & -> & ->)]. rewrite !search_material_lines.
  assert (Hlines : forall rev rng typed, is_identifier TranscriptRevisionId (as_str rev) -> range_u64 rng ->
    well_formed typed ->
    split_on newline (join_with newline (material_lines rev rng (normalise_search_text typed)))
    = material_lines rev rng (normalise_search_text typed)).
  { intros rev rng s Hrev Hrng Hs. apply split_join; [done|]. destruct (bound_texts_no_newline rng Hrng) as [H1 H2].
    apply Forall_app. split.
    - constructor; [by repeat (constructor; [by intros [=]|])|].
      constructor; [by eapply identifier_no_newline|]. by repeat constructor.
    - eapply Forall_impl; [exact (fill_settled s Hs)|]. exact settled_no_newline. }
  intros E. apply (f_equal (split_on newline)) in E. rewrite !Hlines in E by done.
  unfold material_lines in E. injection E as E1 E2 E3 E4.
  split; [destruct revision, revision'; cbn in E1; by subst|]. split; [|done].
  apply bound_texts_inj; [done..|]. by apply injective_projections.
Qed.
End Unambiguous.

(** ** Reading the pages *)

Section Read.
Context `{UnicodeTables} `{Sha256Laws} (session_id : OpaqueId SessionId) (r : TranscriptRevision.t).
Context (query : SearchQuery.t) (range : option TimeRange.t) (expires now : Z).
Context (Hsession : is_identifier SessionId (as_str session_id)) (Hr : readable r).
Context (Hexpires : 0 < expires <= U64_MAX) (Hnow : now < expires).

Lemma search_query_digest_ok :
  exists digest, search_query_digest (TranscriptRevision.id r) range query = Ok digest
    /\ is_digest (QueryDigest.as_str digest).
Proof.
  unfold search_query_digest. set (bytes := search_material _ _ _). pose proof (sha256_hex_digest bytes) as Hd.
  exists (QueryDigest.mk (sha256_hex bytes)). split; [by apply digest_parse_iff|exact Hd].
Qed.

(** The cursors that lead to what follows a position. *)
Definition continues (cursor : option text) (after : option SearchPosition.t) : Prop :=
  match cursor with
  | None => after = None
  | Some encoded => exists digest position,
      search_query_digest (TranscriptRevision.id r) range query = Ok digest /\ after = Some position
      /\ 1 <= SearchPosition.ordinal position <= Z.of_nat (length (TranscriptRevision.segments r))
      /\ encoded = CursorToken.encode (CursorToken.mk session_id (TranscriptRevision.number r) digest
                                         (position_key position) expires)
  end.

Lemma page_search_spec cursor after limit :
  continues cursor after -> 0 < PageLimit.value limit ->
  let found := ranked_after query r range after in
  let n := Z.to_nat (PageLimit.value limit) in
  exists next,
    page_search session_id r (SearchPageRequest.mk query range limit cursor) expires now
    = Ok (SearchPage.mk (take n found) next (coverage_of r range))
    /\ match next with
       | None => drop n found = []
       | Some token => length (take n found) = n /\ exists after', continues (Some (CursorToken.encode token)) after'
                         /\ ranked_after query r range after' = drop n found
       end.
Proof.
  intros Hc Hl. cbn zeta. set (found := ranked_after query r range after). set (n := Z.to_nat (PageLimit.value limit)).
  destruct search_query_digest_ok as (digest & Hdig & Hd).
  pose proof (readable_few r Hr) as Hfew. unfold MAX_TRANSCRIPT_CUES in Hfew. pose proof (readable_number r Hr) as Hnum.
  assert (Hscope : forall position,
    1 <= SearchPosition.ordinal position <= Z.of_nat (length (TranscriptRevision.segments r)) ->
    let token := CursorToken.mk session_id (TranscriptRevision.number r) digest (position_key position) expires in
    CursorToken.new session_id (TranscriptRevision.number r) digest (position_key position) expires = Ok token
    /\ CursorToken.parse (CursorToken.encode token) = Ok token
    /\ CursorToken.validate_scope token session_id (TranscriptRevision.number r) digest now = Ok tt).
  { intros position Ho. apply scoped_cursor; try done; [ulia|]. apply position_key_valid. ulia. }
  unfold page_search. cbn zeta. cbn [SearchPageRequest.query SearchPageRequest.range SearchPageRequest.limit
    SearchPageRequest.cursor]. rewrite Hdig. cbn [result_bind].
  assert (Hafter : match cursor with
    | None => Ok None
    | Some encoded =>
        let? token := CursorToken.parse encoded in
        let? _ := CursorToken.validate_scope token session_id (TranscriptRevision.number r) digest now in
        let? position := parse_position (CursorToken.last_item_key token) r in
        Ok (Some position)
    end = Ok after /\ match after with Some p => 0 <= SearchPosition.ordinal p | None => True end).
  { destruct cursor as [encoded|]; [|by rewrite Hc].
    destruct Hc as (digest' & position & Hdig' & -> & Ho & ->). rewrite Hdig in Hdig'. injection Hdig' as <-.
    destruct (Hscope position Ho) as (_ & -> & Hs). cbn [result_bind]. rewrite Hs.
    cbn [result_bind CursorToken.last_item_key]. rewrite parse_position_key by ulia. split; [done|lia]. }
  destruct Hafter as [-> Hpos]. cbn [result_bind]. rewrite search_revision_spec by done. fold found. fold n.
  cbn [SearchSlice.hits SearchSlice.has_more].
  destruct (n <? length found)%nat eqn:Em; [apply Nat.ltb_lt in Em|apply Nat.ltb_ge in Em].
  - assert (Hlen : length (take n found) = n) by (rewrite length_take; lia).
    destruct (last (take n found)) as [h|] eqn:Es.
    2:{ apply last_None in Es. rewrite Es in Hlen. cbn in Hlen. lia. }
    rewrite last_lookup, Hlen, lookup_take_lt in Es by lia.
    pose proof (ranked_after_hit query r range after _ h Hr Es) as Hrest.
    assert (Ho := ranked_after_ordinal query r range after h Hr (list_elem_of_lookup_2 _ _ _ Es)).
    destruct (Hscope _ Ho) as (-> & _). cbn [result_bind]. eexists. split; [reflexivity|]. split; [done|].
    exists (Some (SearchHit.position h)). split; [by exists digest, (SearchHit.position h)|].
    fold found in Hrest. rewrite Hrest. f_equal. lia.
  - exists None. cbn [result_bind]. split; [done|]. by apply drop_ge.
Qed.
End Read.

(** A reader that follows the cursors of a search gets every hit of the range
    exactly once, first those that hold the query as a phrase and then those
    that only hold its words, each in the order of the transcript, whatever
    limit it chooses for each page; the reading ends, and every page but the
    last is full. A cursor is answered only for the session, the revision and
    the search it was made for, and before it expires. Claim C18. *)
Theorem search_reads_all_hits `{UnicodeTables} `{Sha256Laws} session_id r query range limits expires now :
  is_identifier SessionId (as_str session_id) -> readable r -> 0 < expires <= U64_MAX -> now < expires ->
  (forall i, 0 < PageLimit.value (limits i)) ->
  (exists pages,
     read_pages (search_answer session_id r query range limits expires now)
       (S (length (TranscriptRevision.segments r))) 0 None = Some pages
     /\ StronglySorted position_lt (concat pages)
     /\ (forall h, h ∈ concat pages <->
           SearchHit.segment h ∈ TranscriptRevision.segments r /\ meets_window range (SearchHit.segment h)
           /\ classify query (text_of (SearchHit.segment h)) = Some (SearchHit.tier h))
     /\ forall i p, pages !! i = Some p ->
          Z.of_nat (length p) <= PageLimit.value (limits i)
          /\ ((S i < length pages)%nat -> Z.of_nat (length p) = PageLimit.value (limits i)))
  /\ (forall limit encoded later p,
        page_search session_id r (SearchPageRequest.mk query range limit (Some encoded)) expires later = Ok p ->
        exists token, CursorToken.parse encoded = Ok token
          /\ CursorToken.session_id token = session_id
          /\ CursorToken.generation token = TranscriptRevision.number r
          /\ Ok (CursorToken.query_digest token) = search_query_digest (TranscriptRevision.id r) range query
          /\ later < CursorToken.expires_at_micros token).
Proof.
  intros Hsession Hr Hexp Hnow Hlim. split.
  - set (limit := fun k => Z.to_nat (PageLimit.value (limits k))).
    set (reaches := fun cursor rest => exists after,
      continues session_id r query range expires cursor after /\ rest = ranked_after query r range after).
    destruct (read_pages_spec (search_answer session_id r query range limits expires now) limit reaches
                (S (length (TranscriptRevision.segments r))) 0 None (ranked_after query r range None))
      as (pages & Hread & Hcat & Hpages).
    + intros k cursor rest (after & Hc & ->).
      destruct (page_search_spec session_id r query range expires now Hsession Hr Hexp Hnow cursor after (limits k)
                  Hc (Hlim k)) as (next & Hp & Hnext).
      exists (CursorToken.encode <$> next). unfold search_answer. rewrite Hp. split; [reflexivity|].
      destruct next as [token|]; [|done]. destruct Hnext as (Hfull & after' & Hl' & Hsel).
      split; [done|]. by exists after'.
    + intros i. specialize (Hlim i). unfold limit. lia.
    + by exists None.
    + pose proof (ranked_after_length query r range None). lia.
    + exists pages. split; [exact Hread|]. rewrite Hcat. split; [by apply ranked_after_sorted|]. split.
      * intros h. unfold ranked_after. rewrite !list_elem_of_filter, search_hits_elem. cbn. tauto.
      * intros i p Hi. specialize (Hlim i). destruct (Hpages i p Hi) as [H2 H3]. unfold limit in H2, H3.
        cbn [Nat.add] in H2, H3. split; [lia|]. intros Hlt. specialize (H3 Hlt). lia.
  - intros limit encoded later p Hp. unfold page_search in Hp. cbn zeta in Hp.
    cbn [SearchPageRequest.range SearchPageRequest.cursor SearchPageRequest.query] in Hp.
    apply bind_Ok in Hp as (digest & Hd & Hp). apply bind_Ok in Hp as (after & Ha & _).
    apply bind_Ok in Ha as (token & Ht & Ha). apply bind_Ok in Ha as ([] & Hs & _).
    apply validate_scope_spec in Hs as (E1 & E2 & E3 & E4). exists token. rewrite E4, Hd. done.
Qed.

Lemma search_material_unambiguous_witness :
  let revision := mkOpaqueId (literal "trv_0123456789abcdef") : OpaqueId TranscriptRevisionId in
  search_material revision None (normalise_search_text (H := ascii_tables) (literal "Twelve rows"))
  = search_material revision None (normalise_search_text (H := ascii_tables) (literal "12 ROWS")).
Proof.
  cbn zeta.
  assert (Hid : is_identifier TranscriptRevisionId (literal "trv_0123456789abcdef")).
  { exists (literal "0123456789abcdef"). split; [reflexivity|]. split; [cbn; lia|].
    repeat (constructor; [first [right; concrete | left; concrete]|]). constructor. }
  apply (search_material_unambiguous (H := ascii_tables) (H0 := ascii_tables_laws)); try exact Hid; try exact I.
  - unfold well_formed. vm_compute. repeat constructor.
  - unfold well_formed. vm_compute. repeat constructor.
  - split; [reflexivity|]. split; [reflexivity|]. vm_compute. reflexivity.
Defined.

Lemma search_reads_all_hits_witness :
  let session : OpaqueId SessionId := mkOpaqueId (literal "ses_0123456789abcdef") in
  let r := spoken_revision spoken in
  let q := SearchQuery.mk [literal "ab"; literal "731"] (literal "ab731") in
  exists pages,
    read_pages (search_answer (H := ascii_tables) (H0 := length_digest) session r q None
                  (fun _ => PageLimit.mk 3) 2000000 1000000) 6 0 None = Some pages
    /\ (fun p : list SearchHit.t =>
          (fun h => (SearchHit.tier h, TranscriptSegment.ordinal (SearchHit.segment h))) <$> p) <$> pages
       = [[(Phrase, 2); (Phrase, 5); (AllTerms, 1)]; [(AllTerms, 4)]]
    /\ StronglySorted position_lt (concat pages).
Proof.
  cbn zeta.
  destruct (search_reads_all_hits (H := ascii_tables) (H0 := length_digest) (H1 := length_digest_laws)
    (mkOpaqueId (literal "ses_0123456789abcdef")) (spoken_revision spoken)
    (SearchQuery.mk [literal "ab"; literal "731"] (literal "ab731")) None (fun _ => PageLimit.mk 3)
    2000000 1000000) as [(pages & Hf & Hsorted & _) _].
  - exists (literal "0123456789abcdef"). split; [reflexivity|]. split; [cbn; lia|].
    repeat (constructor; [first [right; concrete | left; concrete]|]). constructor.
  - exact spoken_readable.
  - concrete.
  - lia.
  - intros _. cbn. lia.
  - exists pages. split; [exact Hf|]. split; [|exact Hsorted].
    assert (E : Some pages = read_pages (search_answer (H := ascii_tables) (H0 := length_digest)
      (mkOpaqueId (literal "ses_0123456789abcdef")) (spoken_revision spoken)
      (SearchQuery.mk [literal "ab"; literal "731"] (literal "ab731")) None (fun _ => PageLimit.mk 3)
      2000000 1000000) 6 0 None) by (symmetry; exact Hf).
    vm_compute in E. injection E as ->. vm_compute. reflexivity.
Defined.
