(* ===== verification/RevisionGrowth.v ===== *)
(** * RevisionGrowth: the open and the stopped revision of a run

    Models, of [crates/vsift-application/src/asr.rs], the revision a run
    publishes while it works ([build_open_asr_revision]) and the one it seals
    when it is stopped ([build_stopped_asr_revision]). *)

From S2P Require Import Prelude.
From S2P Require Import Text.
From S2P Require Import Chars.
From S2P Require Import Timeline.
From S2P Require Import Spans.
From S2P Require Import Identity.
From S2P Require Import AsrPlan.
From S2P Require Import AsrRun.
From S2P Require Import Cues.
From S2P Require Import AsrOutput.
From S2P Require Import SeamMerge.
From S2P Require Import Settled.
From S2P Require Import Revision.
From S2P Require Import Coverage.
From S2P Require Import DerivedIdentity.
From S2P Require Import RevisionBuild.

(** ** The open revision *)

(** A segment of the base in the replaced range that crosses the settled time. *)
Definition crosses (replaced : TimeRange.t) (settled_until : MediaTime) (s : TranscriptSegment.t) : bool :=
  (TimeRange.start replaced <=? TranscriptSegment.start s) && (TranscriptSegment.start s <? settled_until)
  && (settled_until <? TranscriptSegment.end_ s).

Definition reach_back (splice : option RevisionSplice.t) (settled_until : MediaTime) : MediaTime :=
  match splice with
  | None => settled_until
  | Some splice =>
      fold_left Z.min
        (TranscriptSegment.start
           <$> filter (fun s => crosses (RevisionSplice.replaced_range splice) settled_until s = true)
                 (TranscriptRevision.segments (RevisionSplice.base splice))) settled_until
  end.

(** The segments before the first that ends past the reach. *)
Definition kept_before (reach : MediaTime) (l : list TranscriptSegment.t) : list TranscriptSegment.t :=
  take_while (fun s => TranscriptSegment.end_ s <=? reach) l.

Definition published_until_of (reach : MediaTime) (l : list TranscriptSegment.t) : MediaTime :=
  match l !! length (kept_before reach l) with
  | Some first_cut => Z.min (TranscriptSegment.start first_cut) reach
  | None => reach
  end.

(** What the assembled parts lose: the segments cut away, the provenance that
    only they use, and the unplaced stretches past the end. *)
Definition cut_parts (parts : TranscriptRevisionParts.t) (reach : MediaTime) : TranscriptRevisionParts.t :=
  let segments := kept_before reach (TranscriptRevisionParts.segments parts) in
  let until := published_until_of reach (TranscriptRevisionParts.segments parts) in
  TranscriptRevisionParts.mk (TranscriptRevisionParts.id parts) (TranscriptRevisionParts.number parts)
    (TranscriptRevisionParts.source_id parts) (TranscriptRevisionParts.source_segment parts)
    (TranscriptRevisionParts.provenance parts) (TranscriptRevisionParts.supersedes parts)
    (TranscriptRevisionParts.replaced_range parts)
    (filter (fun entry => existsb (carried_from_entry entry) segments = true)
       (TranscriptRevisionParts.inherited parts))
    (TranscriptRevisionParts.carried_untranscribed parts)
    (filter (fun stretch => TimeRange.end_ stretch <= until) (TranscriptRevisionParts.unplaced parts))
    (TranscriptRevisionParts.language parts) segments (TranscriptRevisionParts.warnings parts).

Definition build_open_asr_revision `{Sha256} (request : AsrRevisionRequest.t) (settled_until : MediaTime)
    : result TranscriptRevision.t TranscriptBuildError :=
  let reach := reach_back (AsrRevisionRequest.splice request) settled_until in
  let? parts := assemble_asr_revision request in
  map_err Invalid
    (Revision.new_open (cut_parts parts reach)
       (published_until_of reach (TranscriptRevisionParts.segments parts))).

(** ** The stopped revision *)

Definition stop_record (record : AsrChunkRecord.t) : AsrChunkRecord.t :=
  match AsrChunkRecord.outcome record with
  | Pending => AsrChunkRecord.mk (AsrChunkRecord.chunk record) NotReached
  | _ => record
  end.

Definition stopped_run_parts (run : AsrRun.t) : AsrRunParts.t :=
  AsrRunParts.mk (AsrRun.provider run) (AsrRun.model run) (AsrRun.decoding run) (AsrRun.plan run)
    (AsrRun.threads run) (AsrRun.audio_stream run) (stop_record <$> AsrRun.chunks run).

(** What the stop adds to an open revision: the segments, what is inherited and
    what is left untranscribed. *)
Definition stop_parts `{Sha256} (open : TranscriptRevision.t) (base : option TranscriptRevision.t)
    (run : AsrRun.t) (stopped_at : MediaTime)
    : result (list TranscriptSegment.t * list InheritedRevision.t * list TimeRange.t) TranscriptBuildError :=
  let segments := TranscriptRevision.segments open in
  let inherited := TranscriptRevision.inherited open in
  match base, TranscriptRevision.replaced_range open with
  | Some base, Some replaced =>
      let rule := EarlierTextRule.stopped_at
                    (EarlierTextRule.new replaced run (own_ranges segments)) stopped_at in
      let? found := carried_segments (RevisionSplice.mk base replaced) rule
                      (fun s => stopped_at <=? TranscriptSegment.start s) in
      let inherited := fold_left inherit found.2 inherited in
      let? added := identified_segments_from (TranscriptRevision.id open) (length segments) found.1 in
      Ok (segments ++ added, inherited, carried_untranscribed_for base replaced inherited)
  | _, _ => Ok (segments, inherited, TranscriptRevision.carried_untranscribed open)
  end.

Definition build_stopped_asr_revision `{Sha256} (open : TranscriptRevision.t)
    (base : option TranscriptRevision.t) : result TranscriptRevision.t TranscriptBuildError :=
  match TranscriptRevision.provenance open, TranscriptRevision.published_until open with
  | LocalAsr open_run, Some stopped_at =>
      if negb (bool_decide ((TranscriptRevision.id <$> base) = TranscriptRevision.supersedes open))
      then Err (Invalid InvalidGrowth)
      else
        let? run := map_err Invalid (AsrRun.new (stopped_run_parts open_run)) in
        let? found := stop_parts open base run stopped_at in
        if TranscriptRevision.number open =? 0 then Err (Invalid InvalidGrowth)
        else
          map_err Invalid
            (Revision.new_stopped
               (TranscriptRevisionParts.mk (TranscriptRevision.id open) (TranscriptRevision.number open)
                  (TranscriptRevision.source_id open) (TranscriptRevision.source_segment open) (LocalAsr run)
                  (TranscriptRevision.supersedes open) (TranscriptRevision.replaced_range open)
                  found.1.2 found.2 (TranscriptRevision.unplaced open) (TranscriptRevision.language open)
                  found.1.1 (TranscriptRevision.warnings open))
               stopped_at)
  | _, _ => Err (Invalid InvalidGrowth)
  end.

(** ** What the cut leaves *)

Lemma kept_split reach l :
  exists rest, l = kept_before reach l ++ rest
    /\ Forall (fun s => TranscriptSegment.end_ s <= reach) (kept_before reach l)
    /\ match rest with
       | [] => published_until_of reach l = reach
       | first_cut :: _ => reach < TranscriptSegment.end_ first_cut
           /\ published_until_of reach l = Z.min (TranscriptSegment.start first_cut) reach
       end.
Proof.
  unfold published_until_of, kept_before. induction l as [|s l (rest & El & Hk & Hr)].
  { exists []. split; [done|]. split; [constructor|done]. }
  cbn [take_while]. destruct (Z.leb_spec (TranscriptSegment.end_ s) reach).
  - exists rest. cbn [app length]. rewrite <- El. split; [done|]. split; [by constructor|exact Hr].
  - exists (s :: l). cbn. split; [done|]. split; [constructor|]. split; [lia|done].
Qed.

(** A segment kept by the rule is kept when less was written. *)
Lemma carries_fewer replaced run written fewer earlier :
  TimeRange.wf replaced -> windows_wf (AsrRun.chunks run) -> Forall TimeRange.wf written ->
  fewer ⊆ written -> TimeRange.wf earlier ->
  EarlierTextRule.carries (EarlierTextRule.new replaced run written) earlier = true ->
  EarlierTextRule.carries (EarlierTextRule.new replaced run fewer) earlier = true.
Proof.
  intros Hr Hw Hwr Hsub He Hcar. assert (Hf : Forall TimeRange.wf fewer).
  { rewrite Forall_forall in *. auto. }
  apply (carries_spec replaced run fewer None); [done..|].
  apply (carries_spec replaced run written None) in Hcar as [?|(? & ? & ? & Hno)]; [by left| |done..].
  right. split; [done|]. split; [done|]. split; [done|]. intros w x Hin. apply Hno. by apply Hsub.
Qed.

Lemma filter_span_end until (l : list TimeRange.t) :
  span <$> filter (fun r => TimeRange.end_ r <= until) l = filter (fun s : Span => s.2 <= until) (span <$> l).
Proof.
  induction l as [|r l IH]; [done|]. rewrite filter_cons, !fmap_cons, filter_cons. cbn [span snd].
  case_decide; rewrite <- ?IH; done.
Qed.

Section Cut.
Context (parts : TranscriptRevisionParts.t) (reach : MediaTime).
Context (Ht : parts_typed parts) (Hc : consistent parts None).
Context (Hgrowth : growth (TranscriptRevisionParts.provenance parts) = (true, false)).
Context (Hreach : reach <= TimeRange.end_ (SourceSegment.range (TranscriptRevisionParts.source_segment parts))).

Let segments := TranscriptRevisionParts.segments parts.
Let kept := kept_before reach segments.
Let until := published_until_of reach segments.
Let cut := cut_parts parts reach.

Lemma kept_sublist : kept `sublist_of` segments.
Proof. destruct (kept_split reach segments) as (rest & E & _). fold kept in E. rewrite E. by apply sublist_inserts_r. Qed.

Lemma kept_in s : s ∈ kept -> s ∈ segments.
Proof. apply (sublist_subseteq _ _ kept_sublist). Qed.

Lemma kept_Forall (P : TranscriptSegment.t -> Prop) : Forall P segments -> Forall P kept.
Proof. rewrite !Forall_forall. intros H s Hs. by apply H, kept_in. Qed.

Lemma until_before : until <= reach.
Proof.
  destruct (kept_split reach segments) as ([|? ?] & _ & _ & Hr); fold until in Hr; [lia|]. destruct Hr. lia.
Qed.

(** What is published starts by the published time, and what is cut starts at
    it or later. *)
Lemma kept_starts : Forall (fun s => TranscriptSegment.start s <= until) kept.
Proof.
  destruct (kept_split reach segments) as (rest & E & Hk & Hr). fold kept until in E, Hk, Hr.
  pose proof (starts_sorted _ _ (segments_good _ _ Hc)) as Hs. fold segments in Hs.
  rewrite E, fmap_app in Hs. apply Forall_forall. intros s Hin. rewrite Forall_forall in Hk. specialize (Hk s Hin).
  pose proof (typed_segments _ Ht) as Hty. rewrite Forall_forall in Hty.
  destruct (Hty s (kept_in s Hin)) as [(? & ? & ?) _].
  unfold TranscriptSegment.end_, TranscriptSegment.start in *. destruct rest as [|f rest]; [ulia|].
  destruct Hr as [_ ->].
  assert (TranscriptSegment.start s <= TranscriptSegment.start f).
  { eapply (StronglySorted_app_1_elem_of Z.le); [exact Hs| |]; [by apply list_elem_of_fmap_2|cbn; left]. }
  unfold TranscriptSegment.start in *. ulia.
Qed.

Lemma cut_entries e :
  e ∈ TranscriptRevisionParts.inherited cut
  <-> e ∈ TranscriptRevisionParts.inherited parts /\ Exists (fun s => carried_from_entry e s = true) kept.
Proof.
  cbn. rewrite list_elem_of_filter. fold segments kept. rewrite existsb_exists, Exists_exists.
  setoid_rewrite list_elem_of_In. naive_solver.
Qed.

Lemma cut_typed : parts_typed cut.
Proof.
  destruct Ht. constructor; cbn; try done.
  - rewrite Forall_forall in *. intros e [_ He]%list_elem_of_filter. auto.
  - rewrite Forall_forall in *. intros e [_ He]%list_elem_of_filter. auto.
  - by apply kept_Forall.
Qed.

(** The published segments follow the rule for what the run wrote so far. *)
Lemma cut_rightly s :
  s ∈ kept -> rightly_carried (rule_of parts None) s -> rightly_carried (rule_of cut (Some until)) s.
Proof.
  intros Hs Hright Hown. destruct (Hright Hown) as (rule & Hrule & Hcar). unfold rule_of in *.
  change (TranscriptRevisionParts.provenance cut) with (TranscriptRevisionParts.provenance parts).
  change (TranscriptRevisionParts.replaced_range cut) with (TranscriptRevisionParts.replaced_range parts).
  rewrite Hgrowth. destruct (TranscriptRevisionParts.provenance parts) as [? ? ?|run] eqn:Ep; [done|].
  destruct (TranscriptRevisionParts.replaced_range parts) as [replaced|] eqn:Er; [|done].
  injection Hrule as <-. eexists. split; [reflexivity|]. cbn [snd].
  pose proof (typed_provenance _ Ht) as Hp. rewrite Ep in Hp.
  pose proof (typed_segments _ Ht) as Hty. fold segments in Hty. rewrite Forall_forall in Hty.
  revert Hcar. apply carries_fewer.
  - by apply (typed_replaced _ Ht).
  - apply Hp.
  - apply Forall_fmap, Forall_forall. intros s' [_ Hin]%list_elem_of_filter. by apply Hty.
  - intros r (s' & -> & [Ho Hin]%list_elem_of_filter)%list_elem_of_fmap.
    apply list_elem_of_fmap_2, list_elem_of_filter. split; [done|]. by apply kept_in.
  - by apply Hty, kept_in.
Qed.

Lemma cut_citable s : s ∈ kept -> citable parts s -> citable cut s.
Proof.
  intros Hs (p & Hm & Hder & Hsp). exists p. split; [|by split]. unfold made_by in *.
  destruct (TranscriptSegment.carried_from s) as [carried|] eqn:Ecf; [|exact Hm].
  destruct Hm as (e & He & Hid & ->). exists e. split; [|done]. apply cut_entries. split; [done|].
  apply Exists_exists. exists s. split; [done|]. unfold carried_from_entry. rewrite Ecf.
  by apply bool_decide_eq_true.
Qed.

Lemma cut_segments : segments_consistent cut (rule_of cut (Some until)).
Proof.
  destruct (segments_good _ _ Hc) as [Hord Hstart Hin Hids Honce Hcit Hright].
  destruct (kept_split reach segments) as (rest & E & _ & _). fold kept in E.
  constructor; cbn; fold segments kept.
  - fold segments in Hord. rewrite E, fmap_app, length_app, Nat2Z.inj_add, seqZ_app in Hord by lia.
    apply app_inj_1 in Hord as [Hord _]; [exact Hord|]. rewrite length_fmap, length_seqZ. lia.
  - fold segments in Hstart. rewrite E, fmap_app in Hstart. by apply StronglySorted_app_1_l in Hstart.
  - by apply kept_Forall.
  - eapply sublist_NoDup; [exact Hids|]. apply fmap_sublist, kept_sublist.
  - unfold carried_ids in *. fold segments in Honce. rewrite E, omap_app in Honce.
    by apply NoDup_app in Honce as [? _].
  - apply Forall_forall. intros s Hs. rewrite Forall_forall in Hcit. by apply cut_citable, Hcit, kept_in.
  - apply Forall_forall. intros s Hs. rewrite Forall_forall in Hright. by apply cut_rightly, Hright, kept_in.
Qed.

(** What the cut leaves is a growing revision, whatever the reach. *)
Lemma cut_consistent : consistent cut (Some until) /\ grown cut until false.
Proof.
  pose proof until_before as Hu. destruct Hc as
    [H1 H2 H3 H4 H5 H6 H7 H8 H9 H10 H11 H12 H13 _].
  assert (Hlocal : is_local (TranscriptRevisionParts.provenance parts) = true).
  { revert Hgrowth. by destruct (TranscriptRevisionParts.provenance parts). }
  split; [constructor|split; [|split]]; cbn; fold segments kept until.
  - by right.
  - pose proof (sublist_length _ _ kept_sublist). unfold segments in *. lia.
  - done.
  - done.
  - done.
  - done.
  - done.
  - intros Hne. apply H8. intros E. apply Hne. by rewrite E.
  - eapply sublist_NoDup; [exact H9|]. apply sublist_skip, fmap_sublist, sublist_filter.
  - rewrite Forall_forall in *. intros e [_ He]%list_elem_of_filter. auto.
  - apply Forall_forall. intros e He. by apply cut_entries.
  - done.
  - intros Hne. destruct H13 as (run & covered & Hp & Hcov & Hlen & Hcan & Hall).
    { intros E. apply Hne. by rewrite E. }
    exists run, covered. split; [done|]. split; [done|].
    split; [|split; [|rewrite Forall_forall in *; intros r [_ Hr]%list_elem_of_filter; auto]].
    + etrans; [apply sublist_length, sublist_filter|done].
    + rewrite (filter_span_end until). by apply canon_filter.
  - apply cut_segments.
  - lia.
  - eapply Forall_impl; [exact kept_starts|]. cbn. auto.
  - apply Forall_forall. by intros r [? _]%list_elem_of_filter.
Qed.
End Cut.

(** ** What a run publishes as it grows *)

Lemma fold_min_spec l m : fold_left Z.min l m <= m /\ Forall (fun x => fold_left Z.min l m <= x) l
  /\ (fold_left Z.min l m = m \/ fold_left Z.min l m ∈ l).
Proof.
  revert m. induction l as [|x l IH]; intros m; cbn [fold_left].
  { split; [lia|]. split; [constructor|by left]. }
  destruct (IH (Z.min m x)) as (H1 & H2 & H3). split; [lia|]. split; [constructor; [lia|done]|].
  destruct H3 as [->|?]; [|right; by right]. destruct (Z.min_spec m x) as [[_ ->]|[_ ->]]; [by left|right; left].
Qed.

(** The reach stops at every segment of the base that crosses the settled time. *)
Lemma reach_back_spec splice until :
  reach_back splice until <= until
  /\ (forall s, splice = Some s -> forall segment, segment ∈ TranscriptRevision.segments (RevisionSplice.base s) ->
        crosses (RevisionSplice.replaced_range s) until segment = true ->
        reach_back splice until <= TranscriptSegment.start segment)
  /\ (reach_back splice until = until
      \/ exists s segment, splice = Some s /\ segment ∈ TranscriptRevision.segments (RevisionSplice.base s)
         /\ crosses (RevisionSplice.replaced_range s) until segment = true
         /\ reach_back splice until = TranscriptSegment.start segment).
Proof.
  destruct splice as [splice|]; cbn; [|split; [lia|split; [done|by left]]].
  match goal with |- context [fold_left Z.min ?l _] => destruct (fold_min_spec l until) as (H1 & H2 & H3) end.
  split; [done|]. split.
  - intros s [= <-] segment Hin Hcr. rewrite Forall_fmap, Forall_forall in H2. apply H2.
    by apply list_elem_of_filter.
  - destruct H3 as [H3|H3]; [by left|right].
    apply list_elem_of_fmap in H3 as (segment & E & [Hcr Hin]%list_elem_of_filter). by exists splice, segment.
Qed.

Lemma reach_back_grows splice until until' :
  until <= until' -> reach_back splice until <= reach_back splice until'.
Proof.
  intros Hu. destruct (reach_back_spec splice until) as (H1 & H2 & _).
  destruct (reach_back_spec splice until') as (_ & _ & [->|(s & segment & Es & Hin & Hcr & ->)]); [lia|].
  destruct (Z.le_gt_cases until (TranscriptSegment.start segment)); [lia|].
  apply (H2 s Es segment Hin). unfold crosses in *. bool_prop. lia.
Qed.

Section Open.
Context `{Sha256Laws} (request : AsrRevisionRequest.t) (covered : TimeRange.t) (until : MediaTime).
Context (Hv : request_valid request covered) (Hn : no_clash request covered).
Context (Hgrowth : growth (LocalAsr (AsrTranscription.run (AsrRevisionRequest.transcription request)))
                   = (true, false)).
Context (Huntil : until <= TimeRange.end_ (SourceSegment.range (AsrRevisionRequest.source_segment request))).

Definition opened : TranscriptRevision.t :=
  let parts := parts_built request covered in
  let reach := reach_back (AsrRevisionRequest.splice request) until in
  TranscriptRevision.of_parts (cut_parts parts reach)
    (Some (published_until_of reach (TranscriptRevisionParts.segments parts))).

Lemma build_open_spec : build_open_asr_revision request until = Ok opened /\ sound_revision opened.
Proof.
  destruct (reach_back_spec (AsrRevisionRequest.splice request) until) as [Hr _].
  pose proof (parts_built_typed request covered Hv) as Ht.
  pose proof (parts_built_consistent request covered Hv Hn) as Hc.
  destruct (cut_consistent _ (reach_back (AsrRevisionRequest.splice request) until) Ht Hc Hgrowth) as [Hcons Hgrown].
  { cbn. lia. }
  pose proof (cut_typed _ (reach_back (AsrRevisionRequest.splice request) until) Ht) as Hct.
  unfold build_open_asr_revision. cbn zeta. rewrite (assemble_spec request covered Hv). cbn [result_bind].
  rewrite (proj2 (proj1 (proj2 (constructors_spec _ _ opened Hct)))) by done.
  split; [done|]. constructor.
  - unfold revision_typed, opened. cbn zeta. by rewrite parts_of_of_parts.
  - unfold opened. cbn zeta. by rewrite parts_of_of_parts.
  - cbn. intros run [= <-]. apply (valid_run _ _ Hv).
Qed.
End Open.

(** ** A run that goes on *)

Lemma Forall2_Exists {A B} (R : A -> B -> Prop) (P : A -> Prop) (Q : B -> Prop) l k :
  Forall2 R l k -> (forall a b, R a b -> P a <-> Q b) -> Exists P l <-> Exists Q k.
Proof.
  intros Hl Hpq. induction Hl as [|a b l k Hab _ IH]; [by rewrite !Exists_nil|].
  rewrite !Exists_cons, IH, (Hpq a b Hab). done.
Qed.

Lemma Forall2_Forall {A B} (R : A -> B -> Prop) (P : A -> Prop) (Q : B -> Prop) l k :
  Forall2 R l k -> (forall a b, R a b -> P a <-> Q b) -> Forall P l <-> Forall Q k.
Proof.
  intros Hl Hpq. induction Hl as [|a b l k Hab _ IH]; [by rewrite !Forall_nil|].
  rewrite !Forall_cons, IH, (Hpq a b Hab). done.
Qed.

(** A chunk at two moments of a run: one that waited reads audio from the
    settled time on, one that was finished stays as it was. *)
Definition chunk_goes_on (until : MediaTime) (record record' : AsrChunkRecord.t) : Prop :=
  AsrChunkRecord.chunk record' = AsrChunkRecord.chunk record
  /\ match AsrChunkRecord.outcome record with
     | Pending => until <= TimeRange.start (AsrRun.window_of record)
     | outcome => AsrChunkRecord.outcome record' = outcome
     end.

Definition run_settings (run : AsrRun.t) :=
  (AsrRun.provider run, AsrRun.model run, AsrRun.decoding run, AsrRun.plan run, AsrRun.threads run,
   AsrRun.audio_stream run).

(** Two requests of one run, the later with more of it heard. What the earlier
    holds is settled: it ends by [until], and all the later adds starts there or
    after. (Settling a merge gives this: [settled_part_is_final] of Settled.v.) *)
Record request_goes_on (until : MediaTime) (request later : AsrRevisionRequest.t) : Prop := {
  same_session : AsrRevisionRequest.session_id later = AsrRevisionRequest.session_id request;
  same_source_segment : AsrRevisionRequest.source_segment later = AsrRevisionRequest.source_segment request;
  same_number : AsrRevisionRequest.number later = AsrRevisionRequest.number request;
  same_splice : AsrRevisionRequest.splice later = AsrRevisionRequest.splice request;
  same_settings : run_settings (AsrTranscription.run (AsrRevisionRequest.transcription later))
                  = run_settings (AsrTranscription.run (AsrRevisionRequest.transcription request));
  chunks_go_on : Forall2 (chunk_goes_on until)
                   (AsrRun.chunks (AsrTranscription.run (AsrRevisionRequest.transcription request)))
                   (AsrRun.chunks (AsrTranscription.run (AsrRevisionRequest.transcription later)));
  segments_go_on : exists others,
    AsrTranscription.segments (AsrRevisionRequest.transcription later)
    = AsrTranscription.segments (AsrRevisionRequest.transcription request) ++ others
    /\ Forall (fun m => until <= TimeRange.start (AsrSegmentDraft.range (MergedSegment.segment m))) others;
  segments_settled :
    Forall (fun m => TimeRange.end_ (AsrSegmentDraft.range (MergedSegment.segment m)) <= until)
      (AsrTranscription.segments (AsrRevisionRequest.transcription request))
}.

Lemma unread_goes_on until run run' x :
  Forall2 (chunk_goes_on until) (AsrRun.chunks run) (AsrRun.chunks run') -> x < until ->
  unread run x <-> unread run' x.
Proof.
  intros Hl Hx. unfold unread. f_equiv; [eapply Forall2_Exists|eapply Forall2_Forall]; try exact Hl;
    intros record record' [Hchunk Ho]; unfold AsrRun.window_of in *; rewrite Hchunk;
    destruct (AsrChunkRecord.outcome record) eqn:E; rewrite ?Ho; try done;
    cbn; unfold in_span, span; cbn; intuition lia.
Qed.

(** The rule keeps the same segments that end by the settled time. *)
Lemma rule_goes_on until replaced run run' written others earlier :
  TimeRange.wf replaced -> windows_wf (AsrRun.chunks run) -> windows_wf (AsrRun.chunks run') ->
  Forall TimeRange.wf written -> Forall TimeRange.wf others -> TimeRange.wf earlier ->
  Forall2 (chunk_goes_on until) (AsrRun.chunks run) (AsrRun.chunks run') ->
  Forall (fun w => until <= TimeRange.start w) others -> TimeRange.end_ earlier <= until ->
  EarlierTextRule.carries (EarlierTextRule.new replaced run written) earlier = true
  <-> EarlierTextRule.carries (EarlierTextRule.new replaced run' (written ++ others)) earlier = true.
Proof.
  intros Hr Hw Hw' Hwr Ho He Hl Hothers Hend.
  rewrite (carries_spec replaced run written None earlier) by done.
  rewrite (carries_spec replaced run' (written ++ others) None earlier) by (done || by apply Forall_app).
  assert (Hin : forall x, in_span (span earlier) x -> x < until) by (unfold in_span, span; cbn; lia).
  assert (Hun : (exists x, in_span (span earlier) x /\ unread run x)
                <-> (exists x, in_span (span earlier) x /\ unread run' x)).
  { split; intros (x & Hx & Hux); exists x; (split; [done|]); by apply (unread_goes_on until run run' x Hl (Hin x Hx)). }
  assert (Hwo : (forall w x, w ∈ written -> in_span (span earlier) x -> ~ in_span (span w) x)
                <-> (forall w x, w ∈ written ++ others -> in_span (span earlier) x -> ~ in_span (span w) x)).
  { split; intros Hno w x Hwin Hx.
    - apply elem_of_app in Hwin as [Hwin|Hwin]; [by apply Hno|]. rewrite Forall_forall in Hothers.
      specialize (Hothers w Hwin). specialize (Hin x Hx). unfold in_span, span. cbn. lia.
    - apply Hno; [|done]. apply elem_of_app. by left. }
  rewrite Hun, Hwo. done.
Qed.

Lemma sorted_split {A} (f : A -> Z) (bound : Z) (l : list A) :
  StronglySorted Z.le (f <$> l) ->
  l = filter (fun a => f a < bound) l ++ filter (fun a => bound <= f a) l.
Proof.
  induction l as [|a l IH]; [done|]. rewrite fmap_cons. intros [Hf Hs]%StronglySorted_cons.
  rewrite !filter_cons. rewrite Forall_fmap in Hf. case_decide as Ha; case_decide; try lia.
  - cbn. f_equal. by apply IH.
  - rewrite (filter_none (fun a => f a < bound)), (filter_all (fun a => bound <= f a)); [done|..];
      (eapply Forall_impl; [exact Hf|]); cbn; lia.
Qed.

(** What two sorted lists with the same segments before the reach publish. *)
Section Publish.
Context (common rest rest' : list TranscriptSegment.t) (reach : MediaTime).
Context (Hs : StronglySorted Z.le (TranscriptSegment.start <$> (common ++ rest))).
Context (Hs' : StronglySorted Z.le (TranscriptSegment.start <$> (common ++ rest'))).
Context (Hrest : Forall (fun s => reach <= TranscriptSegment.start s) rest).
Context (Hrest' : Forall (fun s => reach <= TranscriptSegment.start s) rest').
Context (Hwf : Forall (fun s => TranscriptSegment.start s < TranscriptSegment.end_ s) rest).

Let kept := kept_before reach (common ++ rest).
Let until := published_until_of reach (common ++ rest).

Lemma kept_common : exists more, common = kept ++ more.
Proof.
  assert (E : kept = kept_before reach common); [|destruct (kept_split reach common) as (more & Em & _); exists more; by rewrite E].
  unfold kept, kept_before. induction common as [|s c IH]; cbn.
  - destruct Hrest as [|s l Hr _]; [done|]. cbn. inversion_clear Hwf.
    by rewrite (proj2 (Z.leb_gt _ _)) by lia.
  - cbn in Hs, Hs'. apply StronglySorted_cons in Hs as [_ ?], Hs' as [_ ?]. destruct (_ <=? _); [|done]. f_equal. by apply IH.
Qed.

(** The later list starts with what was published, and goes on after it. *)
Lemma published_first :
  exists more, common ++ rest' = kept ++ more /\ Forall (fun s => until <= TranscriptSegment.start s) more.
Proof.
  destruct kept_common as (more & Em). exists (more ++ rest'). rewrite Em at 1. rewrite <- app_assoc. split; [done|].
  destruct (kept_split reach (common ++ rest)) as (after & E & _ & Hafter). fold kept until in E, Hafter.
  rewrite Em, <- app_assoc in E. apply app_inv_head in E. subst after.
  rewrite Em, <- app_assoc, fmap_app in Hs'. apply StronglySorted_app_1_r in Hs'.
  destruct more as [|first_cut more]; cbn [app] in *.
  - eapply Forall_impl; [exact Hrest'|]. cbn. intros s ?.
    destruct rest as [|s' l]; [lia|]. destruct Hafter. lia.
  - destruct Hafter as [_ ->]. rewrite fmap_cons in Hs'. apply StronglySorted_cons in Hs' as [Hf _].
    rewrite Forall_fmap in Hf. constructor; [lia|]. eapply Forall_impl; [exact Hf|]. cbn. lia.
Qed.

Lemma kept_longer reach' (k more : list TranscriptSegment.t) :
  Forall (fun s => TranscriptSegment.end_ s <= reach') k ->
  kept_before reach' (k ++ more) = k ++ kept_before reach' more.
Proof.
  intros Hk. unfold kept_before. induction Hk as [|s k Hsk _ IH]; [done|]. cbn.
  rewrite (proj2 (Z.leb_le _ _)) by done. by rewrite IH.
Qed.

(** So does what is published of it later. *)
Lemma published_again reach' :
  reach <= reach' ->
  until <= published_until_of reach' (common ++ rest')
  /\ exists more, kept_before reach' (common ++ rest') = kept ++ more
       /\ Forall (fun s => until <= TranscriptSegment.start s) more.
Proof.
  intros Hr. destruct published_first as (more & E & Hmore).
  destruct (kept_split reach (common ++ rest)) as (after & Ea & Hk & Hafter). fold kept until in Ea, Hk, Hafter.
  assert (Hu : until <= reach) by (destruct after; [lia|destruct Hafter; lia]).
  assert (Hk' : Forall (fun s => TranscriptSegment.end_ s <= reach') kept)
    by (eapply Forall_impl; [exact Hk|]; cbn; lia).
  rewrite E. pose proof (kept_longer reach' kept more Hk') as Ek.
  destruct (kept_split reach' (kept ++ more)) as (after' & E' & _ & Hafter').
  rewrite Ek in E'. rewrite <- app_assoc in E'. apply app_inv_head in E'.
  rewrite E', Forall_app in Hmore. destruct Hmore as [Hmore1 Hmore2]. split.
  - destruct after' as [|s l]; [lia|]. destruct Hafter' as [_ ->]. inversion_clear Hmore2. lia.
  - exists (kept_before reach' more). by rewrite Ek.
Qed.
End Publish.

Section GoesOn.
Context `{Sha256Laws} (request later : AsrRevisionRequest.t) (covered : TimeRange.t) (until : MediaTime).
Context (Hv : request_valid request covered) (Hv' : request_valid later covered).
Context (Hgo : request_goes_on until request later).

Let reach := reach_back (AsrRevisionRequest.splice request) until.
Let starts_before (a : Assembled) : Prop := TimeRange.start (assembled_range a) < reach.

Lemma reach_until : reach <= until.
Proof. apply (reach_back_spec (AsrRevisionRequest.splice request) until). Qed.

Lemma own_valid_range req m :
  request_valid req covered -> m ∈ AsrTranscription.segments (AsrRevisionRequest.transcription req) ->
  TimeRange.wf (AsrSegmentDraft.range (MergedSegment.segment m)).
Proof.
  intros Hreq Hm. pose proof (valid_own _ _ Hreq) as Hown. rewrite Forall_forall in Hown.
  apply (Hown m Hm).
Qed.

Lemma own_written_wf req : request_valid req covered -> Forall TimeRange.wf (own_written req).
Proof. intros Hreq. apply Forall_fmap, Forall_forall. intros m Hm. by apply (own_valid_range req). Qed.

(** The same earlier segments are kept before the reach. *)
Lemma kept_goes_on splice :
  AsrRevisionRequest.splice request = Some splice ->
  filter (fun s => TranscriptSegment.start s < reach) (kept_of request splice)
  = filter (fun s => TranscriptSegment.start s < reach) (kept_of later splice).
Proof.
  intros Esp. unfold kept_of. cbn zeta. rewrite !list_filter_filter. apply filter_ext_in. intros s Hs.
  assert (Esp' : AsrRevisionRequest.splice later = Some splice) by (by rewrite (same_splice _ _ _ Hgo)).
  destruct (valid_splice _ _ Hv splice Esp) as [[Hbase _ _] Hrange _ _ _].
  destruct (valid_run _ _ Hv) as ((Hwin & ?) & _ & _ & Hcov), (valid_run _ _ Hv') as ((Hwin' & _) & _ & _ & _).
  assert (Hcw : TimeRange.wf covered) by (by apply (covered_range_wf _ _ (conj Hwin H1))).
  pose proof (typed_segments _ Hbase) as Hty. rewrite Forall_forall in Hty. destruct (Hty s Hs) as [Hsw _].
  destruct (segments_go_on _ _ _ Hgo) as (others & Eo & Ho).
  assert (Ew : own_written later = own_written request
    ++ ((fun m => AsrSegmentDraft.range (MergedSegment.segment m)) <$> others))
    by (unfold own_written; by rewrite Eo, fmap_app).
  pose proof (own_written_wf later Hv') as Hwl. rewrite Ew in Hwl. apply Forall_app in Hwl as [Hw1 Hw2].
  rewrite Hrange, Ew.
  enough (Hsame : TranscriptSegment.start s < reach ->
    EarlierTextRule.carries (EarlierTextRule.new covered
      (AsrTranscription.run (AsrRevisionRequest.transcription request)) (own_written request))
      (TranscriptSegment.range s) = true
    <-> EarlierTextRule.carries (EarlierTextRule.new covered
      (AsrTranscription.run (AsrRevisionRequest.transcription later))
      (own_written request ++ ((fun m => AsrSegmentDraft.range (MergedSegment.segment m)) <$> others)))
      (TranscriptSegment.range s) = true) by tauto.
  intros Hlt. destruct (Z.le_gt_cases (TranscriptSegment.end_ s) until) as [Hle|Hgt].
  - apply (rule_goes_on until); try done; [apply (chunks_go_on _ _ _ Hgo)|by apply Forall_fmap].
  - assert (Hin : TimeRange.start covered <= TranscriptSegment.start s -> False).
    { intros Hin. pose proof reach_until.
      assert (reach <= TranscriptSegment.start s); [|lia].
      apply (proj1 (proj2 (reach_back_spec (AsrRevisionRequest.splice request) until)) splice Esp s Hs).
      unfold crosses. rewrite Hrange. bool_prop. lia. }
    unfold TranscriptSegment.start, TranscriptSegment.end_ in *.
    rewrite (carries_spec covered _ (own_written request) None) by done.
    rewrite (carries_spec covered _ (own_written request ++ _) None) by (done || by apply Forall_app). tauto.
Qed.

Lemma filter_fmap {A B} (f : A -> B) (P : B -> Prop) `{!forall b, Decision (P b)} (l : list A) :
  filter P (f <$> l) = f <$> filter (fun a => P (f a)) l.
Proof.
  induction l as [|a l IH]; [done|]. rewrite fmap_cons, !filter_cons, IH. by destruct (decide (P (f a))).
Qed.

Lemma assembled_goes_on :
  filter starts_before (assembled_of request) = filter starts_before (assembled_of later).
Proof.
  unfold assembled_of. rewrite !(stable_sort_filter key_le starts_before), !filter_app. f_equal. f_equal.
  - pose proof kept_goes_on as Hkept. unfold carried_of. rewrite (same_splice _ _ _ Hgo).
    destruct (AsrRevisionRequest.splice request) as [splice|] eqn:Esp; [|done].
    rewrite !(filter_fmap _ starts_before). f_equal. by apply Hkept.
  - destruct (segments_go_on _ _ _ Hgo) as (others & -> & Ho). rewrite fmap_app, filter_app.
    rewrite (filter_none starts_before (Own <$> others)); [by rewrite app_nil_r|].
    apply Forall_fmap. eapply Forall_impl; [exact Ho|]. intros m Hm. unfold starts_before. cbn in *.
    pose proof reach_until. lia.
Qed.

Lemma revision_id_goes_on : revision_id_of later covered = revision_id_of request covered.
Proof.
  unfold revision_id_of, revision_material. destruct Hgo as [-> -> -> -> Hset _ _ _].
  unfold run_settings in Hset. injection Hset as -> -> -> -> ->.
  by destruct (AsrRun.decoding _), (AsrRun.decoding _).
Qed.

(** The segments both requests assemble, in the order and with the names both
    give them, and those each adds. *)
Lemma segments_agree :
  exists common rest rest',
    TranscriptRevisionParts.segments (parts_built request covered) = common ++ rest
    /\ TranscriptRevisionParts.segments (parts_built later covered) = common ++ rest'
    /\ Forall (fun s => reach <= TranscriptSegment.start s) rest
    /\ Forall (fun s => reach <= TranscriptSegment.start s) rest'.
Proof.
  assert (Hsplit : forall req, assembled_of req = filter starts_before (assembled_of req)
    ++ filter (fun a => reach <= TimeRange.start (assembled_range a)) (assembled_of req)).
  { intros req. apply (sorted_split (fun a => TimeRange.start (assembled_range a)) reach), assembled_sorted. }
  cbn. rewrite revision_id_goes_on, (Hsplit request), (Hsplit later), <- assembled_goes_on, !imap_app.
  do 3 eexists. split; [reflexivity|]. split; [reflexivity|].
  split; (eapply (Forall_imap _ _ (fun a => reach <= TimeRange.start (assembled_range a)));
    [intros i a Ha; unfold TranscriptSegment.start, compose, identify; by rewrite identified_range|]);
    apply Forall_forall; by intros a [Ha _]%list_elem_of_filter.
Qed.
End GoesOn.

(** A later revision of the same number: it starts with what was published. *)
Definition continues (r : TranscriptRevision.t) (published : MediaTime) (r' : TranscriptRevision.t) : Prop :=
  TranscriptRevision.id r' = TranscriptRevision.id r
  /\ exists more, TranscriptRevision.segments r' = TranscriptRevision.segments r ++ more
       /\ Forall (fun s => published <= TranscriptSegment.start s) more.

Lemma built_sorted `{Sha256} request covered :
  StronglySorted Z.le (TranscriptSegment.start <$> TranscriptRevisionParts.segments (parts_built request covered)).
Proof.
  cbn. erewrite imap_fmap_in; [apply assembled_sorted|]. intros i a _. unfold TranscriptSegment.start, identify.
  by rewrite identified_range.
Qed.

(** Whatever is built of a valid request is what the parts say. *)
Lemma built_is `{Sha256Laws} request covered r :
  request_valid request covered -> build_asr_revision request = Ok r ->
  r = TranscriptRevision.of_parts (parts_built request covered) None.
Proof.
  intros Hv. unfold build_asr_revision. rewrite (assemble_spec request covered Hv). cbn [result_bind].
  intros Hnew%map_err_Ok. by apply (constructors_spec _ 0 r (parts_built_typed request covered Hv)) in Hnew as (_ & _ & ->).
Qed.

Lemma opened_is `{Sha256Laws} request covered until r :
  request_valid request covered -> build_open_asr_revision request until = Ok r -> r = opened request covered until.
Proof.
  intros Hv. unfold build_open_asr_revision. rewrite (assemble_spec request covered Hv). cbn [result_bind].
  intros Hnew%map_err_Ok.
  by apply (constructors_spec _ _ r (cut_typed _ _ (parts_built_typed request covered Hv))) in Hnew as (_ & _ & _ & ->).
Qed.

(** What a run publishes while it works is final. The open revision made of the
    settled segments is always built, and it is sound; it keeps what ends by
    the settled time, before any earlier segment that crosses it. Whatever the
    run hears later, the revision it ends with and every open revision it
    publishes on the way keep those segments, with their names and numbers, as
    their first ones, and add only segments that start at the published time or
    later; the published time never goes back. *)
Theorem open_revision_is_prefix `{Sha256Laws} request later covered until :
  request_valid request covered -> no_clash request covered ->
  growth (LocalAsr (AsrTranscription.run (AsrRevisionRequest.transcription request))) = (true, false) ->
  until <= TimeRange.end_ (SourceSegment.range (AsrRevisionRequest.source_segment request)) ->
  request_valid later covered -> request_goes_on until request later ->
  exists r published, build_open_asr_revision request until = Ok r /\ sound_revision r
    /\ TranscriptRevision.published_until r = Some published /\ published <= until
    /\ Forall (fun s => TranscriptSegment.end_ s <= until) (TranscriptRevision.segments r)
    /\ (forall r', build_asr_revision later = Ok r' -> continues r published r')
    /\ (forall until' r', until <= until' -> build_open_asr_revision later until' = Ok r' ->
          continues r published r'
          /\ exists published', TranscriptRevision.published_until r' = Some published' /\ published <= published').
Proof.
  intros Hv Hn Hgrowth Huntil Hv' Hgo.
  destruct (build_open_spec request covered until Hv Hn Hgrowth Huntil) as [Hb Hsound].
  set (reach := reach_back (AsrRevisionRequest.splice request) until).
  set (parts := parts_built request covered) in *. set (parts' := parts_built later covered).
  pose proof (proj1 (reach_back_spec (AsrRevisionRequest.splice request) until)) as Hr. fold reach in Hr.
  destruct (segments_agree request later covered until Hv Hv' Hgo) as (common & rest & rest' & E & E' & Hrest & Hrest').
  fold parts parts' reach in E, E', Hrest, Hrest'.
  pose proof (built_sorted request covered) as Hs. fold parts in Hs. rewrite E in Hs.
  pose proof (built_sorted later covered) as Hs'. fold parts' in Hs'. rewrite E' in Hs'.
  assert (Hwf : Forall (fun s => TranscriptSegment.start s < TranscriptSegment.end_ s) rest).
  { pose proof (typed_segments _ (parts_built_typed request covered Hv)) as Hty. fold parts in Hty.
    rewrite E, Forall_app in Hty. eapply Forall_impl; [apply Hty|]. intros s [(_ & _ & Hlt) _]. exact Hlt. }
  assert (Hid : TranscriptRevisionParts.id parts' = TranscriptRevisionParts.id parts)
    by apply (revision_id_goes_on request later covered until Hgo).
  exists (opened request covered until), (published_until_of reach (TranscriptRevisionParts.segments parts)).
  split; [exact Hb|]. split; [exact Hsound|]. split; [done|].
  split; [pose proof (until_before parts reach); lia|]. split.
  { destruct (kept_split reach (TranscriptRevisionParts.segments parts)) as (_ & _ & Hk & _).
    apply (Forall_impl _ _ _ Hk). intros s He. exact (Z.le_trans _ _ _ He Hr). }
  split.
  - intros r' ->%(built_is later covered); [|done].
    split; [exact Hid|]. destruct (published_first common rest rest' reach Hs Hs' Hrest Hrest' Hwf) as (more & Em & Hm).
    exists more. split; [|by rewrite E].
    change (TranscriptRevisionParts.segments parts'
            = kept_before reach (TranscriptRevisionParts.segments parts) ++ more). by rewrite E, E'.
  - intros until' r' Hu ->%(opened_is later covered); [|done].
    set (reach' := reach_back (AsrRevisionRequest.splice later) until').
    assert (Hreach : reach <= reach').
    { unfold reach, reach'. rewrite (same_splice _ _ _ Hgo). by apply reach_back_grows. }
    destruct (published_again common rest rest' reach Hs Hs' Hrest Hrest' Hwf reach' Hreach) as (Hpub & more & Em & Hm).
    rewrite E. split; [split; [exact Hid|]|eexists; split; [reflexivity|]].
    2:{ change (published_until_of reach (common ++ rest)
                <= published_until_of reach' (TranscriptRevisionParts.segments parts')). by rewrite E'. }
    exists more. split; [|exact Hm].
    change (kept_before reach' (TranscriptRevisionParts.segments parts')
            = kept_before reach (TranscriptRevisionParts.segments parts) ++ more). by rewrite E, E'.
Qed.

(** ** Examples *)

(** An imported revision with three cues, two of which start together. *)
Definition sample_cue (n from to : Z) : TranscriptSegment.t :=
  TranscriptSegment.mk (mkOpaqueId (literal "tsg_" ++ decimal n)) n (TimeRange.mk (from * 1000000) (to * 1000000))
    (CueText.mk (literal "hm") None) None Confidence.unknown
    (CueOrigin (CueSource.mk n 1) (CueTiming.mk (from * 1000000) (to * 1000000))) None.

Definition imported_parts : TranscriptRevisionParts.t :=
  TranscriptRevisionParts.mk (mkOpaqueId (literal "trv_base")) 1 (mkDigestId []) sample_source
    (Imported Srt (SidecarIdentity.mk [] 10) (TranscriptOffset.mk 0)) None None [] [] [] None
    [sample_cue 1 32 33; sample_cue 2 32 36; sample_cue 3 35 50] [].
Definition imported_base : TranscriptRevision.t := TranscriptRevision.of_parts imported_parts None.

(** A retranscription of its first minute: the second chunk was unusable, the
    third is still to be heard; and the same run once it is. *)
Definition growing_outcomes (last : AsrChunkOutcome) : list AsrChunkOutcome :=
  [Transcribed (TimeRange.mk 0 30000000); Unusable (TimeRange.mk 25000000 55000000); last].
Definition growing_request (last : AsrChunkOutcome) : AsrRevisionRequest.t :=
  sample_request 2 0 (growing_outcomes last) (Some imported_base).
Definition growing_covered : TimeRange.t := TimeRange.mk 0 61000000.
Definition growing_settled : MediaTime := 45000000.

(** A stop right after such a revision was published is refused: the segment
    published at [32 s, 33 s] starts at the published time, 32 s, where its
    neighbour that crosses the settled time starts too, and the stop carries
    every earlier segment that starts there or later, so it carries that one
    twice. *)
Lemma stop_fails_at_the_cut :
  Revision.new imported_parts = Ok imported_base
  /\ AsrRun.new (sample_run_parts 0 (growing_outcomes Pending)) = Ok (sample_run 0 (growing_outcomes Pending))
  /\ match build_open_asr_revision (H := tail_digest) (growing_request Pending) growing_settled with
     | Ok open =>
         TranscriptRevision.published_until open = Some 32000000
         /\ TranscriptSegment.range <$> TranscriptRevision.segments open
            = [TimeRange.mk 3000000 5000000; TimeRange.mk 32000000 33000000]
         /\ build_stopped_asr_revision (H := tail_digest) open (Some imported_base)
            = Err (Invalid InvalidCarriedSegment)
     | Err _ => False
     end.
Proof. vm_compute. repeat split. Qed.

Lemma imported_parts_typed : parts_typed imported_parts.
Proof.
  constructor; cbn; [concrete|concrete|done|constructor|constructor|constructor|].
  repeat (constructor; [split; concrete|]). constructor.
Qed.

Lemma imported_base_sound : sound_revision imported_base.
Proof.
  assert (Hnew : Revision.new imported_parts = Ok imported_base) by (vm_compute; reflexivity).
  apply (constructors_spec _ 0 _ imported_parts_typed) in Hnew as (_ & Hc & _). constructor.
  - exact imported_parts_typed.
  - exact Hc.
  - done.
Qed.

Lemma growing_typed last :
  match last with Transcribed _ => False | _ => True end -> run_typed (sample_run 0 (growing_outcomes last)).
Proof.
  split; [apply (sample_windows 0 (growing_outcomes last)); cbn; lia|].
  constructor; [concrete|]. constructor; [concrete|]. constructor; [|constructor]. by destruct last.
Qed.

Lemma growing_valid last :
  last = Pending \/ last = Silent (TimeRange.mk 50000000 61000000) ->
  request_valid (growing_request last) growing_covered.
Proof.
  intros Hlast. apply (sample_valid 2 0 (growing_outcomes last) (Some imported_base)).
  - lia.
  - cbn. lia.
  - destruct Hlast as [-> | ->]; vm_compute; reflexivity.
  - destruct Hlast as [-> | ->]; vm_compute; reflexivity.
  - destruct Hlast as [-> | ->]; vm_compute; reflexivity.
  - apply growing_typed. by destruct Hlast as [-> | ->].
  - destruct Hlast as [-> | ->]; vm_compute; reflexivity.
  - lia.
  - destruct Hlast as [-> | ->]; concrete.
  - intros b [= <-]. constructor; [exact imported_base_sound|reflexivity|reflexivity|reflexivity|concrete].
Qed.

(** Distinct identities give distinct ordinals. *)
Lemma ids_injective `{Sha256} revision n i j :
  NoDup (segment_id_of revision <$> seqZ 1 n) -> 1 <= i <= n -> 1 <= j <= n ->
  segment_id_of revision i = segment_id_of revision j -> i = j.
Proof.
  intros Hd Hi Hj Heq. assert (Hat : forall k, 1 <= k <= n ->
    (segment_id_of revision <$> seqZ 1 n) !! Z.to_nat (k - 1) = Some (segment_id_of revision k)).
  { intros k Hk. rewrite list_lookup_fmap, lookup_seqZ_lt by lia. cbn. do 2 f_equal. lia. }
  rewrite NoDup_alt in Hd. pose proof (Hat i Hi) as Hat'. rewrite Heq in Hat'.
  pose proof (Hd _ _ _ Hat' (Hat j Hj)). lia.
Qed.

Lemma growing_no_clash : no_clash (H := tail_digest) (growing_request Pending) growing_covered.
Proof.
  constructor.
  - intros i j. assert (Hlen : length (assembled_of (growing_request Pending)) = 4%nat) by (vm_compute; reflexivity).
    rewrite Hlen. apply (ids_injective (H := tail_digest) _ 4). apply (bool_decide_unpack _). vm_compute. exact I.
  - intros splice [= <-]. apply (bool_decide_unpack _). vm_compute. exact I.
  - intros splice [= <-]. apply (bool_decide_unpack _). vm_compute. exact I.
Qed.

Lemma growing_goes_on :
  request_goes_on growing_settled (growing_request Pending)
    (growing_request (Silent (TimeRange.mk 50000000 61000000))).
Proof.
  constructor; [done|done|done|done|done| | |].
  - constructor; [by split|]. constructor; [by split|]. constructor; [split; [done|concrete]|constructor].
  - exists []. by split; [rewrite app_nil_r|].
  - constructor; [concrete|constructor].
Qed.

Lemma result_ok_is {A E} (r : result A E) : result_ok r <> None -> exists a, r = Ok a.
Proof. destruct r as [a|e]; [by exists a|done]. Qed.

(** What was published of the retranscription is the start of what the run
    ended with, which keeps the cue that crossed the settled time too. *)
Lemma open_revision_is_prefix_witness :
  exists r final,
    build_open_asr_revision (H := tail_digest) (growing_request Pending) growing_settled = Ok r
    /\ build_asr_revision (H := tail_digest) (growing_request (Silent (TimeRange.mk 50000000 61000000))) = Ok final
    /\ continues r 32000000 final.
Proof.
  destruct (open_revision_is_prefix (H0 := tail_digest_laws) (growing_request Pending)
    (growing_request (Silent (TimeRange.mk 50000000 61000000))) growing_covered growing_settled
    (growing_valid _ (or_introl eq_refl)) growing_no_clash eq_refl ltac:(concrete)
    (growing_valid _ (or_intror eq_refl)) growing_goes_on)
    as (r & published & Hb & _ & Hp & _ & _ & Hsealed & _).
  assert (Hend : result_ok (build_asr_revision (H := tail_digest)
    (growing_request (Silent (TimeRange.mk 50000000 61000000)))) <> None) by (vm_compute; discriminate).
  destruct (result_ok_is _ Hend) as [final Ef]. exists r, final. split; [exact Hb|]. split; [exact Ef|].
  assert (Hat : (r' ← result_ok (build_open_asr_revision (H := tail_digest) (growing_request Pending) growing_settled);
                 TranscriptRevision.published_until r') = Some 32000000) by (vm_compute; reflexivity).
  rewrite Hb in Hat. cbn [result_ok mbind option_bind] in Hat. rewrite Hp in Hat. injection Hat as ->. exact (Hsealed final Ef).
Defined.
