(* ===== verification/Progress.v ===== *)
(** * Progress: how far a long operation has come

    Models [crates/vsift-domain/src/progress.rs]: the stages and their units,
    the observations, and the figures of a recognition in media time. *)

From S2P Require Import Prelude.
From S2P Require Import Text.
From S2P Require Import Timeline.

Inductive ProgressUnit := Bytes | Chunks | Windows | Steps | Components.

Definition ProgressUnit_ALL : list ProgressUnit := [Bytes; Chunks; Windows; Steps; Components].

Definition unit_identifier (u : ProgressUnit) : text :=
  match u with
  | Bytes => literal "bytes"
  | Chunks => literal "chunks"
  | Windows => literal "windows"
  | Steps => literal "steps"
  | Components => literal "components"
  end.

Inductive ProgressStage :=
| CopyingSource | RecognisingSpeech | AnalysingVideo | RunningRequest | FetchingArtifact | InstallingComponents.

Definition ProgressStage_ALL : list ProgressStage :=
  [CopyingSource; RecognisingSpeech; AnalysingVideo; RunningRequest; FetchingArtifact; InstallingComponents].

Definition stage_identifier (s : ProgressStage) : text :=
  match s with
  | CopyingSource => literal "copying_source"
  | RecognisingSpeech => literal "recognising_speech"
  | AnalysingVideo => literal "analysing_video"
  | RunningRequest => literal "running_request"
  | FetchingArtifact => literal "fetching_artifact"
  | InstallingComponents => literal "installing_components"
  end.

Definition stage_unit (s : ProgressStage) : ProgressUnit :=
  match s with
  | CopyingSource | FetchingArtifact => Bytes
  | RecognisingSpeech => Chunks
  | AnalysingVideo => Windows
  | RunningRequest => Steps
  | InstallingComponents => Components
  end.

Definition stage_ordinal (s : ProgressStage) : nat :=
  match s with
  | CopyingSource => 0
  | RecognisingSpeech => 1
  | AnalysingVideo => 2
  | RunningRequest => 3
  | FetchingArtifact => 4
  | InstallingComponents => 5
  end.

Definition ESTIMATE_MIN_FRESH_CHUNKS : Z := 2.
Definition ESTIMATE_MIN_FRESH_MICROS : Z := 20000000.

Module MediaProgress.
Record t := mk {
  from_us : Z;
  done_until_us : Z;
  to_us : option Z;
  elapsed_us : Z;
  fresh_media_us : Z;
  fresh_elapsed_us : Z;
  fresh_chunks : Z
}.

Definition done_us (p : t) : Z := saturating_u64 (done_until_us p - from_us p).

Definition total_us (p : t) : option Z :=
  match to_us p with
  | Some to => Some (saturating_u64 (to - from_us p))
  | None => None
  end.

(** [u8::try_from] of the percentage. *)
Definition percent (p : t) : option Z :=
  total ← total_us p;
  if 0 <? total then
    let percent := Z.min (done_us p) total * 100 / total in
    if percent <=? 255 then Some percent else None
  else None.

Definition speed_millis (p : t) : option Z :=
  if (fresh_chunks p =? 0) || (fresh_elapsed_us p =? 0) then None
  else Some (Z.min (fresh_media_us p * 1000 / fresh_elapsed_us p) U64_MAX).

Definition estimate_remaining_us (p : t) : option Z :=
  to ← to_us p;
  if (fresh_chunks p <? ESTIMATE_MIN_FRESH_CHUNKS) || (fresh_elapsed_us p <? ESTIMATE_MIN_FRESH_MICROS)
     || (fresh_media_us p =? 0)
  then None
  else
    let left := saturating_u64 (to - Z.max (done_until_us p) (from_us p)) in
    Some (Z.min (left * fresh_elapsed_us p / fresh_media_us p) U64_MAX).

(** The fields are [u64] and [u32]. *)
Definition typed (p : t) : Prop :=
  is_u64 (from_us p) /\ is_u64 (done_until_us p) /\ (forall to, to_us p = Some to -> is_u64 to)
  /\ is_u64 (elapsed_us p) /\ is_u64 (fresh_media_us p) /\ is_u64 (fresh_elapsed_us p) /\ is_u32 (fresh_chunks p).
End MediaProgress.

Module ProgressUpdate.
Record t := mk {
  stage : ProgressStage;
  completed : Z;
  total : option Z;
  media : option MediaProgress.t
}.
End ProgressUpdate.

Lemma stages_in_order : stage_ordinal <$> ProgressStage_ALL = seq 0 6.
Proof. reflexivity. Qed.

(** A percentage is at most 100, and 100 only when everything is done. *)
Lemma percent_spec p n :
  MediaProgress.typed p -> MediaProgress.percent p = Some n ->
  0 <= n <= 100
  /\ forall to, MediaProgress.to_us p = Some to -> n = 100 <-> to <= MediaProgress.done_until_us p.
Proof.
  intros (Hf & Hd & Hto & _). unfold MediaProgress.percent, MediaProgress.total_us, MediaProgress.done_us.
  destruct (MediaProgress.to_us p) as [to|]; [|done]. specialize (Hto to eq_refl). cbn [mbind option_bind].
  set (total := saturating_u64 (to - MediaProgress.from_us p)).
  set (heard := Z.min (saturating_u64 (MediaProgress.done_until_us p - MediaProgress.from_us p)) total).
  destruct (Z.ltb_spec 0 total) as [Hpos|]; [|done].
  assert (Hr : 0 <= heard <= total) by (unfold heard; ulia).
  assert (Hb : 0 <= heard * 100 / total <= 100).
  { split; [apply Z.div_pos; lia|]. apply Z.div_le_upper_bound; lia. }
  rewrite (proj2 (Z.leb_le _ _)) by lia. intros [= <-]. split; [exact Hb|].
  intros to' [= <-]. assert (Hall : total <= heard <-> to <= MediaProgress.done_until_us p)
    by (unfold heard, total in *; ulia).
  rewrite <- Hall. split.
  - intros He. pose proof (Z.mul_div_le (heard * 100) total Hpos). lia.
  - intros Hle. assert (heard = total) as -> by lia. rewrite Z.mul_comm. apply Z.div_mul. lia.
Qed.
