(* ===== verification/Checkpoint.v ===== *)
(** * Checkpoint: the stored result of one chunk

    Models [crates/vsift-domain/src/checkpoint.rs]: what a chunk produced, as a
    recognition job keeps it, and whether a stored one may be used. *)

From S2P Require Import Prelude.
From S2P Require Import Text.
From S2P Require Import Timeline.
From S2P Require Import AsrPlan.
From S2P Require Import AsrRun.
From S2P Require Import AsrOutput.

#[global] Instance Sha256Hex_eq_dec : EqDecision Sha256Hex.t.
Proof. solve_decision. Defined.
#[global] Instance AsrProviderBuild_eq_dec : EqDecision AsrProviderBuild.t.
Proof.
  assert (EqDecision AsrProvider) by (intros [] []; by left). unfold EqDecision. solve_decision.
Defined.
#[global] Instance AsrModelProfile_eq_dec : EqDecision AsrModelProfile.
Proof. solve_decision. Defined.
#[global] Instance AsrModel_eq_dec : EqDecision AsrModel.t.
Proof. solve_decision. Defined.
#[global] Instance AsrDecodingProfile_eq_dec : EqDecision AsrDecodingProfile.
Proof. intros [] []; by left. Defined.

Definition MAX_AUDIO_SLACK_MICROS : Z := 5000000.

Module RecognitionKey.
Record t := mk { digest : Sha256Hex.t }.

#[global] Instance eq_dec : EqDecision t.
Proof. solve_decision. Defined.
End RecognitionKey.

Module CheckpointOutcome.
Inductive t :=
| NoAudio
| Silent (audio : TimeRange.t)
| Recognised (audio : TimeRange.t) (output : ProviderChunkOutput.t)
| Unusable (audio : TimeRange.t) (error : ProviderOutputError.t).

Definition identifier (o : t) : text :=
  match o with
  | NoAudio => literal "no_audio"
  | Silent _ => literal "silent"
  | Recognised _ _ => literal "recognised"
  | Unusable _ _ => literal "unusable"
  end.
End CheckpointOutcome.

Module ChunkCheckpoint.
Record t := mk {
  key : RecognitionKey.t;
  index : Z;
  window : TimeRange.t;
  outcome : CheckpointOutcome.t
}.

Definition new (key : RecognitionKey.t) (chunk : PlannedChunk.t) (outcome : CheckpointOutcome.t) : t :=
  mk key (PlannedChunk.index chunk) (PlannedChunk.window chunk) outcome.

(** Decoded audio that can be the chunk's. *)
Definition plausible (window : TimeRange.t) (o : CheckpointOutcome.t) : bool :=
  match o with
  | CheckpointOutcome.NoAudio => true
  | CheckpointOutcome.Silent audio | CheckpointOutcome.Recognised audio _ | CheckpointOutcome.Unusable audio _ =>
      (TimeRange.start audio <? TimeRange.end_ window) && (TimeRange.start window <? TimeRange.end_ audio)
      && (TimeRange.duration_micros audio
          <=? saturating_u64 (TimeRange.duration_micros window + MAX_AUDIO_SLACK_MICROS))
  end.

Definition belongs_to (self : t) (key' : RecognitionKey.t) (chunk : PlannedChunk.t) : bool :=
  bool_decide (key self = key') && (index self =? PlannedChunk.index chunk)
  && bool_decide (window self = PlannedChunk.window chunk)
  && plausible (PlannedChunk.window chunk) (outcome self).
End ChunkCheckpoint.

(** A checkpoint belongs to the chunk it was written for, when its audio can be
    the chunk's, and to no other key, index or window. *)
Lemma belongs_to_spec checkpoint key chunk :
  ChunkCheckpoint.belongs_to checkpoint key chunk = true
  <-> checkpoint = ChunkCheckpoint.new key chunk (ChunkCheckpoint.outcome checkpoint)
      /\ ChunkCheckpoint.plausible (PlannedChunk.window chunk) (ChunkCheckpoint.outcome checkpoint) = true.
Proof.
  unfold ChunkCheckpoint.belongs_to, ChunkCheckpoint.new.
  rewrite !andb_true_iff, !bool_decide_eq_true, Z.eqb_eq. destruct checkpoint as [k i w o]. cbn. split.
  - intros [[[-> ->] ->] Hp]. done.
  - intros [[= -> -> ->] Hp]. done.
Qed.
