(* ===== verification/Transcribe.v ===== *)
(** * Transcribe: a recognition run, chunk by chunk

    Models the run of [crates/vsift-application/src/asr.rs]: its ports, its
    failures, what it gathers, the checkpoints it reuses and keeps, what it has
    so far after every chunk, and the loop over its chunks ([run_chunks]). The
    ports of the host (audio, recognizer, cancellation, checkpoints, seed,
    gate, observer, progress and clock) are parameters over a type of worlds. *)

From S2P Require Import Prelude.
From S2P Require Import Text.
From S2P Require Import Chars.
From S2P Require Import Timeline.
From S2P Require Import Identity.
From S2P Require Import AsrPlan.
From S2P Require Import AsrRun.
From S2P Require Import Cues.
From S2P Require Import AsrOutput.
From S2P Require Import SeamRules.
From S2P Require Import SeamMerge.
From S2P Require Import Settled.
From S2P Require Import RevisionBuild.
From S2P Require Import Progress.
From S2P Require Import Checkpoint.

(** ** Effects

    An operation of the host gives its result and the world it leaves. *)

Definition Eff (W E A : Type) : Type := W -> result A E * W.

Definition eff_ret {W E A} (a : A) : Eff W E A := fun w => (Ok a, w).
Definition eff_fail {W E A} (e : E) : Eff W E A := fun w => (Err e, w).
Definition eff_bind {W E A B} (m : Eff W E A) (k : A -> Eff W E B) : Eff W E B :=
  fun w => match m w with
           | (Ok a, w') => k a w'
           | (Err e, w') => (Err e, w')
           end.
Definition eff_map_err {W E F A} (f : E -> F) (m : Eff W E A) : Eff W F A :=
  fun w => let '(r, w') := m w in (map_err f r, w').
(** An operation that cannot fail. *)
Definition eff_of {W E A} (m : W -> A * W) : Eff W E A := fun w => let '(a, w') := m w in (Ok a, w').
Definition eff_do {W E} (m : W -> W) : Eff W E unit := fun w => (Ok tt, m w).
Definition eff_result {W E A} (r : result A E) : Eff W E A := fun w => (r, w).

Declare Scope eff_scope.
Delimit Scope eff_scope with eff.
Notation "'do!' x := m 'in' k" := (eff_bind m (fun x => k))
  (at level 10, x name, m at level 100, k at level 200, only parsing) : eff_scope.
Notation "'do!' ' x := m 'in' k" := (eff_bind m (fun x => k))
  (at level 10, x strict pattern, m at level 100, k at level 200, only parsing) : eff_scope.
Open Scope eff_scope.

(** ** The values of the ports *)

Module SpeechPcm.
Record t := mk { actual_start : MediaTime; samples : list Z }.
End SpeechPcm.

Module SpeechAudioError.
Inductive t := NoAudio | Unavailable | Busy | Deadline | Cancelled | ResourceLimit | Io.
End SpeechAudioError.

Module SpeechRecognitionError.
Inductive t :=
| ModelUnavailable | Busy | Deadline | Cancelled | ResourceLimit | ProviderFailed | UnparseableOutput
| AbnormalTermination | Workspace | Io.
End SpeechRecognitionError.

Module RecognizerIdentity.
Record t := mk {
  provider : AsrProviderBuild.t;
  model : AsrModel.t;
  decoding : AsrDecodingProfile;
  threads : Z
}.

#[global] Instance eq_dec : EqDecision t.
Proof. solve_decision. Defined.
End RecognizerIdentity.

Inductive CheckpointRead :=
| Absent
| Found (checkpoint : ChunkCheckpoint.t)
| UnusableFile.

(** ** Failures *)

Module AsrStage.
Inductive t := Planning | RecognizerIdentity | AudioExtraction | Recognition | OutputValidation | Assembly.

Definition identifier (s : t) : text :=
  match s with
  | Planning => literal "planning"
  | RecognizerIdentity => literal "recognizer_identity"
  | AudioExtraction => literal "audio_extraction"
  | Recognition => literal "recognition"
  | OutputValidation => literal "output_validation"
  | Assembly => literal "assembly"
  end.
End AsrStage.

Module UnusableChunk.
Record t := mk { index : Z; window : TimeRange.t; error : ProviderOutputError.t }.
End UnusableChunk.

Module UnusableChunks.
Record t := mk { unusable : Z; answered : Z; planned : Z; first : UnusableChunk.t }.
End UnusableChunks.

Module AsrFailureReason.
Inductive t :=
| InvalidRange | TooManyChunks | ModelChanged | ModelUnavailable | UnpinnedModel | Cancelled | Deadline
| Busy | ResourceLimit | AudioUnavailable | ProviderFailed | UnparseableOutput
| MalformedOutput (chunks : UnusableChunks.t)
| AbnormalTermination | Workspace | Io
| InvalidRun (error : TranscriptRevisionError).

Definition identifier (r : t) : text :=
  match r with
  | InvalidRange => literal "invalid_range"
  | TooManyChunks => literal "too_many_chunks"
  | ModelChanged => literal "model_changed"
  | ModelUnavailable => literal "model_unavailable"
  | UnpinnedModel => literal "unpinned_model"
  | Cancelled => literal "cancelled"
  | Deadline => literal "deadline"
  | Busy => literal "busy"
  | ResourceLimit => literal "resource_limit"
  | AudioUnavailable => literal "audio_unavailable"
  | ProviderFailed => literal "provider_failed"
  | UnparseableOutput => literal "unparseable_output"
  | MalformedOutput _ => literal "malformed_output"
  | AbnormalTermination => literal "abnormal_termination"
  | Workspace => literal "workspace"
  | Io => literal "io"
  | InvalidRun _ => literal "invalid_run"
  end.

Definition cannot_succeed_on_resume (r : t) : bool :=
  match r with MalformedOutput _ => true | _ => false end.

Definition from_audio (e : SpeechAudioError.t) : t :=
  match e with
  | SpeechAudioError.NoAudio | SpeechAudioError.Unavailable => AudioUnavailable
  | SpeechAudioError.Busy => Busy
  | SpeechAudioError.Deadline => Deadline
  | SpeechAudioError.Cancelled => Cancelled
  | SpeechAudioError.ResourceLimit => ResourceLimit
  | SpeechAudioError.Io => Io
  end.

Definition from_recognition (e : SpeechRecognitionError.t) : t :=
  match e with
  | SpeechRecognitionError.ModelUnavailable => ModelUnavailable
  | SpeechRecognitionError.Busy => Busy
  | SpeechRecognitionError.Deadline => Deadline
  | SpeechRecognitionError.Cancelled => Cancelled
  | SpeechRecognitionError.ResourceLimit => ResourceLimit
  | SpeechRecognitionError.ProviderFailed => ProviderFailed
  | SpeechRecognitionError.UnparseableOutput => UnparseableOutput
  | SpeechRecognitionError.AbnormalTermination => AbnormalTermination
  | SpeechRecognitionError.Workspace => Workspace
  | SpeechRecognitionError.Io => Io
  end.
End AsrFailureReason.

Module AsrFailure.
Record t := at_ { stage : AsrStage.t; reason : AsrFailureReason.t }.
End AsrFailure.

Module AsrRunFailure.
Record t := mk { failure : AsrFailure.t; chunk : option Z }.

(** A failure of the run outside its chunks. *)
Definition from (failure : AsrFailure.t) : t := mk failure None.
End AsrRunFailure.

Definition failure_at (index : Z) (failure : AsrFailure.t) : AsrRunFailure.t :=
  AsrRunFailure.mk failure (Some index).

Module TranscribeRangeRequest.
Record t := mk {
  source_segment : SourceSegment.t;
  range : TimeRange.t;
  plan : ChunkPlan.t;
  audio_stream : Z;
  expected : RecognizerIdentity.t
}.
End TranscribeRangeRequest.

Module CheckpointUse.
Record t := mk { reused : Z; discarded : Z }.
Definition default : t := mk 0 0.
End CheckpointUse.

(** ** What a run gathers *)

(** What one chunk became. *)
Inductive ChunkResult :=
| Gap (outcome : AsrChunkOutcome)
| TranscribedChunk (audio : TimeRange.t) (validated : ValidatedChunk.t)
| UnusableAnswer (audio : TimeRange.t) (error : ProviderOutputError.t).

Definition empty_chunk (chunk : PlannedChunk.t) : ChunkSegments.t := ChunkSegments.mk chunk [] [].

(** The loop of [agreed_language]. *)
Fixpoint agree (agreed : option LanguageTag.t) (languages : list (option LanguageTag.t)) : option LanguageTag.t :=
  match languages with
  | [] => agreed
  | None :: _ => None
  | Some language :: rest =>
      match agreed with
      | Some existing => if bool_decide (existing = language) then agree agreed rest else None
      | None => agree (Some language) rest
      end
  end.

Definition agreed_language (languages : list (option LanguageTag.t)) : option LanguageTag.t := agree None languages.

(** [Option::get_or_insert] *)
Definition get_or_insert {A} (o : option A) (a : A) : option A := match o with Some _ => o | None => Some a end.

Module Gathered.
Record t := mk {
  records : list AsrChunkRecord.t;
  merge_input : list ChunkSegments.t;
  warnings : TranscriptWarnings.t;
  languages : list (option LanguageTag.t);
  gaps : Z;
  first_gap : option Z;
  answered : Z;
  unusable : Z;
  first : option UnusableChunk.t;
  first_unusable_ordinal : option Z
}.

(** [with_capacity] *)
Definition empty : t := mk [] [] TranscriptWarnings.default [] 0 None 0 0 None None.

Definition take (self : t) (chunk : PlannedChunk.t) (r : ChunkResult) : t :=
  match r with
  | Gap outcome =>
      mk (records self ++ [AsrChunkRecord.mk chunk outcome]) (merge_input self ++ [empty_chunk chunk])
        (warnings self) (languages self) (saturating_u32 (gaps self + 1))
        (get_or_insert (first_gap self) (PlannedChunk.ordinal chunk)) (answered self) (unusable self)
        (first self) (first_unusable_ordinal self)
  | TranscribedChunk audio validated =>
      let '(segments, language, chunk_warnings) := into_parts validated in
      mk (records self ++ [AsrChunkRecord.mk chunk (Transcribed audio)]) (merge_input self ++ [segments])
        (TranscriptWarnings.extend (warnings self) chunk_warnings) (languages self ++ [language])
        (gaps self) (first_gap self) (saturating_u32 (answered self + 1)) (unusable self) (first self)
        (first_unusable_ordinal self)
  | UnusableAnswer audio error =>
      mk (records self ++ [AsrChunkRecord.mk chunk (Unusable audio)]) (merge_input self ++ [empty_chunk chunk])
        (warnings self) (languages self) (gaps self) (first_gap self) (saturating_u32 (answered self + 1))
        (saturating_u32 (unusable self + 1))
        (get_or_insert (first self) (UnusableChunk.mk (PlannedChunk.index chunk) (PlannedChunk.window chunk) error))
        (get_or_insert (first_unusable_ordinal self) (PlannedChunk.ordinal chunk))
  end.

Definition gap_warnings (self : t) : TranscriptWarnings.t :=
  let warnings :=
    match first_gap self with
    | Some first => TranscriptWarnings.add TranscriptWarnings.default
                      TranscriptWarningKind.SilentChunksSkipped (gaps self) first
    | None => TranscriptWarnings.default
    end in
  match first_unusable_ordinal self with
  | Some first => TranscriptWarnings.add warnings TranscriptWarningKind.ProviderChunksRejected (unusable self) first
  | None => warnings
  end.

(** [count_gaps], the warnings it leaves. *)
Definition count_gaps (self : t) : TranscriptWarnings.t :=
  TranscriptWarnings.extend (warnings self) (gap_warnings self).

Definition failure (self : t) (planned completed : Z) : option AsrRunFailure.t :=
  first ← first self;
  let remaining := saturating_u32 (planned - completed) in
  if unusable_chunks_end_the_run (unusable self) (saturating_u32 (answered self + remaining))
  then Some (AsrRunFailure.mk
               (AsrFailure.at_ AsrStage.OutputValidation
                  (AsrFailureReason.MalformedOutput
                     (UnusableChunks.mk (unusable self) (answered self) planned first)))
               (Some (UnusableChunk.index first)))
  else None.
End Gathered.

Definition run_of (request : TranscribeRangeRequest.t) (chunks : list AsrChunkRecord.t) : result AsrRun.t AsrFailure.t :=
  let expected := TranscribeRangeRequest.expected request in
  map_err (fun error => AsrFailure.at_ AsrStage.Assembly (AsrFailureReason.InvalidRun error))
    (AsrRun.new (AsrRunParts.mk (RecognizerIdentity.provider expected) (RecognizerIdentity.model expected)
                   (RecognizerIdentity.decoding expected) (TranscribeRangeRequest.plan request)
                   (RecognizerIdentity.threads expected) (TranscribeRangeRequest.audio_stream request) chunks)).

(** ** What a run has so far *)

Module RunSoFar.
Record t := mk {
  request : TranscribeRangeRequest.t;
  planned_chunks : list PlannedChunk.t;
  gathered : Gathered.t;
  all_checkpointed : bool
}.

Definition finished (self : t) : nat := length (Gathered.records (gathered self)).
Definition planned (self : t) : nat := length (planned_chunks self).
Definition next (self : t) : option PlannedChunk.t := planned_chunks self !! finished self.

Definition audio_of (o : AsrChunkOutcome) : option TimeRange.t :=
  match o with
  | Transcribed audio | Silent audio | Unusable audio => Some audio
  | NoAudio | Pending | NotReached => None
  end.

Definition audio_began_in_time (self : t) (max_early_audio_us : Z) : bool :=
  forallb (fun record =>
    match audio_of (AsrChunkRecord.outcome record) with
    | Some audio => TimeRange.start (AsrRun.window_of record)
                    <=? saturating_u64 (TimeRange.start audio + max_early_audio_us)
    | None => true
    end) (Gathered.records (gathered self)).

Definition finished_until (self : t) : MediaTime :=
  match last (Gathered.records (gathered self)) with
  | Some record => TimeRange.end_ (AsrRun.window_of record)
  | None => TimeRange.start (TranscribeRangeRequest.range (request self))
  end.

Definition run_with_the_rest (self : t) (rest : AsrChunkOutcome) : result AsrRun.t AsrFailure.t :=
  run_of (request self)
    (Gathered.records (gathered self)
     ++ ((fun chunk => AsrChunkRecord.mk chunk rest) <$> drop (finished self) (planned_chunks self))).

Definition open `{UnicodeTables} (self : t) (max_early_audio_us : Z)
    : result (AsrTranscription.t * MediaTime) AsrFailure.t :=
  let settled := settled_merge (Gathered.merge_input (gathered self)) (next self) max_early_audio_us in
  let warnings :=
    TranscriptWarnings.extend
      (TranscriptWarnings.extend (Gathered.warnings (gathered self)) (Gathered.gap_warnings (gathered self)))
      (SettledTranscript.warnings settled) in
  let? run := run_with_the_rest self Pending in
  Ok (AsrTranscription.mk run (agreed_language (Gathered.languages (gathered self)))
        (SettledTranscript.segments settled) (SettledTranscript.unplaced settled) warnings,
      SettledTranscript.settled_until settled).
End RunSoFar.

(** ** The clock of a run

    Times of the clock are nanoseconds. *)

(** [micros] *)
Definition micros (duration : Z) : Z := Z.min (duration / 1000) U64_MAX.

Module Meter.
Record t := mk {
  from_us : Z;
  to_us : Z;
  started_at : Z;
  last : Z;
  done_until_us : Z;
  fresh_media_us : Z;
  fresh_elapsed_us : Z;
  fresh_chunks : Z
}.

Definition started (range : TimeRange.t) (now : Z) : t :=
  mk (TimeRange.start range) (TimeRange.end_ range) now now (TimeRange.start range) 0 0 0.

Definition finished (self : t) (now : Z) (reached : MediaTime) (fresh : bool) : t :=
  let reached := Z.max (Z.min reached (to_us self)) (done_until_us self) in
  if fresh then
    mk (from_us self) (to_us self) (started_at self) now reached
      (saturating_u64 (fresh_media_us self + wrap_u64 (reached - done_until_us self)))
      (saturating_u64 (fresh_elapsed_us self + micros (Z.max 0 (now - last self))))
      (saturating_u32 (fresh_chunks self + 1))
  else
    mk (from_us self) (to_us self) (started_at self) now reached
      (fresh_media_us self) (fresh_elapsed_us self) (fresh_chunks self).

Definition figures (self : t) (now : Z) : MediaProgress.t :=
  MediaProgress.mk (from_us self) (done_until_us self) (Some (to_us self))
    (micros (Z.max 0 (now - started_at self))) (fresh_media_us self) (fresh_elapsed_us self) (fresh_chunks self).
End Meter.

(** ** The ports *)

(** [SpeechAudioSource], [SpeechRecognizer] and [AsrCancellation]. *)
Module Ports.
Record t {W : Type} := mk {
  speech_pcm : PlannedChunk.t -> W -> result SpeechPcm.t SpeechAudioError.t * W;
  identity : W -> result RecognizerIdentity.t SpeechRecognitionError.t * W;
  recognize : PlannedChunk.t -> SpeechPcm.t -> W -> result ProviderChunkOutput.t SpeechRecognitionError.t * W;
  is_cancelled : W -> bool * W
}.
Arguments t : clear implicits.
End Ports.

(** [ChunkSeed] and the key of its run. *)
Module SeedPort.
Record t {W : Type} := mk {
  keep : RecognitionKey.t -> TimeRange.t -> CheckpointOutcome.t -> W -> W;
  find : RecognitionKey.t -> TimeRange.t -> W -> option CheckpointOutcome.t * W;
  key : RecognitionKey.t
}.
Arguments t : clear implicits.
End SeedPort.

(** [ChunkCheckpoints], [ProgressSink], [RunObserver], [Stopwatch] and
    [ChunkGate]; a store says whether it succeeded. *)
Module CheckpointScope.
Record t {W : Type} := mk {
  load : Z -> W -> CheckpointRead * W;
  store : ChunkCheckpoint.t -> W -> bool * W;
  discard : Z -> W -> W;
  key : RecognitionKey.t;
  report : ProgressUpdate.t -> W -> W;
  chunk_finished : RunSoFar.t -> W -> W;
  elapsed : W -> Z * W;
  seed : option (SeedPort.t W);
  gate : option (W -> result unit AsrFailure.t * W)
}.
Arguments t : clear implicits.
End CheckpointScope.

Section Run.
Context {W : Type} `{UnicodeTables} (ports : Ports.t W) (scope : option (CheckpointScope.t W)).
Context (observer : RunSoFar.t -> W -> W) (request : TranscribeRangeRequest.t).

Let bounds : TimeRange.t := SourceSegment.range (TranscribeRangeRequest.source_segment request).

(** ** One chunk *)

Definition stop_if_cancelled (stage : AsrStage.t) : Eff W AsrFailure.t unit :=
  do! cancelled := eff_of (Ports.is_cancelled ports) in
  if cancelled then eff_fail (AsrFailure.at_ stage AsrFailureReason.Cancelled) else eff_ret tt.

Definition ensure_identity : Eff W AsrFailure.t unit :=
  do! actual := eff_map_err (fun e => AsrFailure.at_ AsrStage.RecognizerIdentity (AsrFailureReason.from_recognition e))
                  (Ports.identity ports) in
  if bool_decide (actual = TranscribeRangeRequest.expected request) then eff_ret tt
  else eff_fail (AsrFailure.at_ AsrStage.RecognizerIdentity AsrFailureReason.ModelChanged).

Definition plan_run : result (list PlannedChunk.t) AsrFailure.t :=
  let range := TranscribeRangeRequest.range request in
  if (TimeRange.start range <? TimeRange.start bounds) || (TimeRange.end_ bounds <? TimeRange.end_ range)
  then Err (AsrFailure.at_ AsrStage.Planning AsrFailureReason.InvalidRange)
  else
    match AsrModel.profile (RecognizerIdentity.model (TranscribeRangeRequest.expected request)) with
    | Unreviewed => Err (AsrFailure.at_ AsrStage.RecognizerIdentity AsrFailureReason.UnpinnedModel)
    | _ =>
        map_err (fun error =>
            AsrFailure.at_ AsrStage.Planning
              match error with
              | TooManyChunks => AsrFailureReason.TooManyChunks
              | InvalidWindow | InvalidOverlap => AsrFailureReason.InvalidRange
              end)
          (plan_chunks (SourceSegment.id (TranscribeRangeRequest.source_segment request)) range
             (TranscribeRangeRequest.plan request))
    end.

(** What recognised output becomes, and the outcome that records it. *)
Definition judged (chunk : PlannedChunk.t) (audio : TimeRange.t) (output : ProviderChunkOutput.t)
    : ChunkResult * CheckpointOutcome.t :=
  match validate_chunk_output chunk audio bounds output with
  | Ok validated => (TranscribedChunk audio validated, CheckpointOutcome.Recognised audio output)
  | Err error => (UnusableAnswer audio error, CheckpointOutcome.Unusable audio error)
  end.

Definition no_audio : ChunkResult * CheckpointOutcome.t := (Gap NoAudio, CheckpointOutcome.NoAudio).

(** The decoded audio of a chunk and its range, if there is any. *)
Definition decode (chunk : PlannedChunk.t) : Eff W AsrFailure.t (option (SpeechPcm.t * TimeRange.t)) := fun w =>
  match Ports.speech_pcm ports chunk w with
  | (Ok pcm, w') =>
      (Ok (pair pcm <$> decoded_audio_range (SpeechPcm.actual_start pcm)
                          (Z.of_nat (length (SpeechPcm.samples pcm)))), w')
  | (Err SpeechAudioError.NoAudio, w') => (Ok None, w')
  | (Err error, w') =>
      (Err (AsrFailure.at_ AsrStage.AudioExtraction (AsrFailureReason.from_audio error)), w')
  end.

Definition fresh_chunk (chunk : PlannedChunk.t) : Eff W AsrFailure.t (ChunkResult * CheckpointOutcome.t) :=
  if PlannedChunk.is_below_recognition_floor chunk then eff_ret no_audio
  else
    do! found := decode chunk in
    match found with
    | None => eff_ret no_audio
    | Some (pcm, audio) =>
        if is_below_recognition_floor (SpeechPcm.samples pcm) || is_silent_pcm (SpeechPcm.samples pcm)
        then eff_ret (Gap (Silent audio), CheckpointOutcome.Silent audio)
        else
          do! _ := stop_if_cancelled AsrStage.Recognition in
          do! output := eff_map_err
                          (fun e => AsrFailure.at_ AsrStage.Recognition (AsrFailureReason.from_recognition e))
                          (Ports.recognize ports chunk pcm) in
          eff_ret (judged chunk audio output)
    end.

Definition stored_result (chunk : PlannedChunk.t) (o : CheckpointOutcome.t) : option ChunkResult :=
  match o with
  | CheckpointOutcome.NoAudio => Some (Gap NoAudio)
  | CheckpointOutcome.Silent audio =>
      if PlannedChunk.is_below_recognition_floor chunk then None else Some (Gap (Silent audio))
  | CheckpointOutcome.Recognised audio output =>
      if PlannedChunk.is_below_recognition_floor chunk then None
      else TranscribedChunk audio <$> result_ok (validate_chunk_output chunk audio bounds output)
  | CheckpointOutcome.Unusable audio error =>
      if PlannedChunk.is_below_recognition_floor chunk then None else Some (UnusableAnswer audio error)
  end.

Definition answered_by_the_recognizer (o : CheckpointOutcome.t) : bool :=
  match o with CheckpointOutcome.Recognised _ _ | CheckpointOutcome.Unusable _ _ => true | _ => false end.

(** ** Checkpoints *)

Definition one_reused (usage : CheckpointUse.t) : CheckpointUse.t :=
  CheckpointUse.mk (saturating_u32 (CheckpointUse.reused usage + 1)) (CheckpointUse.discarded usage).
Definition one_discarded (usage : CheckpointUse.t) : CheckpointUse.t :=
  CheckpointUse.mk (CheckpointUse.reused usage) (saturating_u32 (CheckpointUse.discarded usage + 1)).

(** The answer taken, if any, the use it leaves, and the world. *)
Definition seeded_answer (scope : CheckpointScope.t W) (chunk : PlannedChunk.t) (usage : CheckpointUse.t) (w : W)
    : option (ChunkResult * CheckpointOutcome.t) * CheckpointUse.t * W :=
  match CheckpointScope.seed scope with
  | None => (None, usage, w)
  | Some port =>
      match SeedPort.find port (SeedPort.key port) (PlannedChunk.window chunk) w with
      | (None, w') => (None, usage, w')
      | (Some outcome, w') =>
          match stored_result chunk outcome with
          | None => (None, usage, w')
          | Some r =>
              let '(_, w'') := CheckpointScope.store scope
                                 (ChunkCheckpoint.new (CheckpointScope.key scope) chunk outcome) w' in
              (Some (r, outcome), one_reused usage, w'')
          end
      end
  end.

Definition reuse_checkpoint (scope : CheckpointScope.t W) (chunk : PlannedChunk.t) (usage : CheckpointUse.t) (w : W)
    : option (ChunkResult * CheckpointOutcome.t) * CheckpointUse.t * W :=
  match CheckpointScope.load scope (PlannedChunk.index chunk) w with
  | (Absent, w') => seeded_answer scope chunk usage w'
  | (UnusableFile, w') => (None, one_discarded usage, w')
  | (Found checkpoint, w') =>
      let found :=
        if ChunkCheckpoint.belongs_to checkpoint (CheckpointScope.key scope) chunk
        then (fun r => (r, ChunkCheckpoint.outcome checkpoint))
               <$> stored_result chunk (ChunkCheckpoint.outcome checkpoint)
        else None in
      match found with
      | Some _ => (found, one_reused usage, w')
      | None => (None, one_discarded usage, CheckpointScope.discard scope (PlannedChunk.index chunk) w')
      end
  end.

Definition keep_answer (chunk : PlannedChunk.t) (outcome : CheckpointOutcome.t) (w : W) : W :=
  match scope with
  | Some s =>
      match CheckpointScope.seed s with
      | Some port => SeedPort.keep port (SeedPort.key port) (PlannedChunk.window chunk) outcome w
      | None => w
      end
  | None => w
  end.

Definition ready_for_chunk (completed : Z) : Eff W AsrFailure.t unit :=
  do! _ := stop_if_cancelled AsrStage.AudioExtraction in
  match scope with
  | Some s =>
      match CheckpointScope.gate s with
      | Some before_chunk => if 0 <? completed then before_chunk else eff_ret tt
      | None => eff_ret tt
      end
  | None => eff_ret tt
  end.

(** ** The loop *)

(** What the loop changes. *)
Record Running := mkRunning {
  gathered : Gathered.t;
  usage : CheckpointUse.t;
  completed : Z;
  meter : option Meter.t;
  all_checkpointed : bool
}.

(** A result taken from a checkpoint or a seed: the use it leaves, and whether
    every chunk is still kept. *)
Definition reused_result (st : Running) (chunk : PlannedChunk.t) (w : W)
    : option ChunkResult * CheckpointUse.t * W :=
  match scope with
  | None => (None, usage st, w)
  | Some s =>
      match reuse_checkpoint s chunk (usage st) w with
      | (Some (r, outcome), usage', w') => (Some r, usage', keep_answer chunk outcome w')
      | (None, usage', w') => (None, usage', w')
      end
  end.

(** Storing a fresh outcome: whether it is kept. *)
Definition store_checkpoint (chunk : PlannedChunk.t) (outcome : CheckpointOutcome.t) (w : W) : bool * W :=
  match scope with
  | Some s => CheckpointScope.store s (ChunkCheckpoint.new (CheckpointScope.key s) chunk outcome) w
  | None => (true, w)
  end.

(** A chunk done afresh: its result, and whether it is kept. *)
Definition fresh_result (chunk : PlannedChunk.t) : Eff W AsrRunFailure.t (ChunkResult * bool) :=
  do! done_ := eff_map_err (failure_at (PlannedChunk.index chunk)) (fresh_chunk chunk) in
  do! _ := if answered_by_the_recognizer done_.2 then eff_map_err AsrRunFailure.from ensure_identity
           else eff_ret tt in
  do! _ := eff_do (keep_answer chunk done_.2) in
  do! stored := eff_of (store_checkpoint chunk done_.2) in
  eff_ret (done_.1, stored).

Definition report (total : option Z) (completed : Z) (m : option Meter.t) (w : W) : W :=
  match scope with
  | None => w
  | Some s =>
      let '(media, w') :=
        match m with
        | None => (None, w)
        | Some m => let '(now, w') := CheckpointScope.elapsed s w in (Some (Meter.figures m now), w')
        end in
      CheckpointScope.report s (ProgressUpdate.mk RecognisingSpeech completed total media) w'
  end.

Definition meter_finished (m : option Meter.t) (reached : MediaTime) (fresh : bool) (w : W) : option Meter.t * W :=
  match scope, m with
  | Some s, Some m =>
      let '(now, w') := CheckpointScope.elapsed s w in (Some (Meter.finished m now reached fresh), w')
  | _, _ => (m, w)
  end.

(** [u32::try_from] of a count, or the largest. *)
Definition count_u32 (n : Z) : Z := if n <=? U32_MAX then n else U32_MAX.

Definition chunk_step (planned : list PlannedChunk.t) (st : Running) (chunk : PlannedChunk.t)
    : Eff W AsrRunFailure.t Running :=
  do! _ := eff_map_err (failure_at (PlannedChunk.index chunk)) (ready_for_chunk (completed st)) in
  do! found := eff_of (reused_result st chunk) in
  do! became := match found.1 with
                | Some r => eff_ret (r, true)
                | None => fresh_result chunk
                end in
  let fresh := match found.1 with Some _ => false | None => true end in
  let all_checkpointed := all_checkpointed st && became.2 in
  let gathered := Gathered.take (gathered st) chunk became.1 in
  let completed := saturating_u64 (completed st + 1) in
  do! meter := eff_of (meter_finished (meter st) (TimeRange.end_ (PlannedChunk.window chunk)) fresh) in
  do! _ := eff_do (report (Some (Z.of_nat (length planned))) completed meter) in
  do! _ := eff_do (observer (RunSoFar.mk request planned gathered all_checkpointed)) in
  match Gathered.failure gathered (count_u32 (Z.of_nat (length planned))) (count_u32 completed) with
  | Some failure => eff_fail failure
  | None => eff_ret (mkRunning gathered found.2 completed meter all_checkpointed)
  end.

Fixpoint run_loop (planned : list PlannedChunk.t) (st : Running) (chunks : list PlannedChunk.t)
    : Eff W AsrRunFailure.t Running :=
  match chunks with
  | [] => eff_ret st
  | chunk :: rest => do! st' := chunk_step planned st chunk in run_loop planned st' rest
  end.

(** What a run is once all its chunks are gathered. *)
Definition finish (g : Gathered.t) : result AsrTranscription.t AsrFailure.t :=
  let merged := merge_chunks (Gathered.merge_input g) in
  let warnings := TranscriptWarnings.extend (Gathered.count_gaps g) (MergedTranscript.warnings merged) in
  let? run := run_of request (Gathered.records g) in
  Ok (AsrTranscription.mk run (agreed_language (Gathered.languages g)) (MergedTranscript.segments merged)
        (MergedTranscript.unplaced merged) warnings).

Definition start_meter (w : W) : option Meter.t * W :=
  match scope with
  | None => (None, w)
  | Some s =>
      let '(now, w') := CheckpointScope.elapsed s w in
      (Some (Meter.started (TranscribeRangeRequest.range request) now), w')
  end.

Definition run_chunks : Eff W AsrRunFailure.t (AsrTranscription.t * CheckpointUse.t) :=
  do! chunks := eff_result (map_err AsrRunFailure.from plan_run) in
  do! _ := eff_map_err AsrRunFailure.from ensure_identity in
  do! meter := eff_of start_meter in
  do! _ := eff_do (report (Some (Z.of_nat (length chunks))) 0 meter) in
  do! st := run_loop chunks
              (mkRunning Gathered.empty CheckpointUse.default 0 meter (bool_decide (is_Some scope))) chunks in
  do! transcription := eff_result (map_err AsrRunFailure.from (finish (gathered st))) in
  eff_ret (transcription, usage st).
End Run.

Definition transcribe_range {W} `{UnicodeTables} (ports : Ports.t W) (request : TranscribeRangeRequest.t)
    : Eff W AsrFailure.t AsrTranscription.t :=
  eff_map_err AsrRunFailure.failure
    (do! done_ := run_chunks ports None (fun _ w => w) request in eff_ret done_.1).

Definition transcribe_range_checkpointed {W} `{UnicodeTables} (ports : Ports.t W) (scope : CheckpointScope.t W)
    (request : TranscribeRangeRequest.t) : Eff W AsrRunFailure.t (AsrTranscription.t * CheckpointUse.t) :=
  run_chunks ports (Some scope) (CheckpointScope.chunk_finished scope) request.
