(* ===== verification/TranscribeResume.v ===== *)
(** * TranscribeResume: an interrupted and resumed run

    What a run of Transcribe.v hears is a function of the audio and of the
    recognizer: however often the run is interrupted and resumed from its
    checkpoints, whatever of them is lost, and whether it takes answers from a
    seed, it ends with the transcription that one uninterrupted run gives, or
    with the same verdict on the recognizer. *)

From stdpp Require Import relations.
From S2P Require Import Prelude.
From S2P Require Import Text.
From S2P Require Import Chars.
From S2P Require Import Timeline.
From S2P Require Import Identity.
From S2P Require Import AsrPlan.
From S2P Require Import AsrRun.
From S2P Require Import Cues.
From S2P Require Import AsrOutput.
From S2P Require Import SeamRules.
From S2P Require Import SeamMerge.
From S2P Require Import Settled.
From S2P Require Import RevisionBuild.
From S2P Require Import Progress.
From S2P Require Import Checkpoint.
From S2P Require Import Transcribe.

(** ** What is heard *)

Section Heard.
Context `{UnicodeTables} (request : TranscribeRangeRequest.t).
(** The audio of a chunk, if any was decoded, and the recognizer's answer. *)
Context (pcm_of : PlannedChunk.t -> option SpeechPcm.t).
Context (answer : PlannedChunk.t -> SpeechPcm.t -> ProviderChunkOutput.t).

Definition audio_found (pcm : SpeechPcm.t) : option (SpeechPcm.t * TimeRange.t) :=
  pair pcm <$> decoded_audio_range (SpeechPcm.actual_start pcm) (Z.of_nat (length (SpeechPcm.samples pcm))).

(** What a chunk becomes, and the outcome that records it. *)
Definition heard (chunk : PlannedChunk.t) : ChunkResult * CheckpointOutcome.t :=
  if PlannedChunk.is_below_recognition_floor chunk then no_audio
  else
    match pcm_of chunk ≫= audio_found with
    | None => no_audio
    | Some (pcm, audio) =>
        if is_below_recognition_floor (SpeechPcm.samples pcm) || is_silent_pcm (SpeechPcm.samples pcm)
        then (Gap (Silent audio), CheckpointOutcome.Silent audio)
        else judged request chunk audio (answer chunk pcm)
    end.

(** What is gathered of all chunks, and the run that goes over them until its
    verdict is certain. *)
Definition gather (g : Gathered.t) (chunks : list PlannedChunk.t) : Gathered.t :=
  fold_left (fun g chunk => Gathered.take g chunk (heard chunk).1) chunks g.

Fixpoint heard_loop (planned : Z) (g : Gathered.t) (completed : Z) (chunks : list PlannedChunk.t)
    : result Gathered.t AsrRunFailure.t :=
  match chunks with
  | [] => Ok g
  | chunk :: rest =>
      let g := Gathered.take g chunk (heard chunk).1 in
      let completed := saturating_u64 (completed + 1) in
      match Gathered.failure g planned (count_u32 completed) with
      | Some failure => Err failure
      | None => heard_loop planned g completed rest
      end
  end.

Definition heard_run : result AsrTranscription.t AsrRunFailure.t :=
  let? chunks := map_err AsrRunFailure.from (plan_run request) in
  let? g := heard_loop (count_u32 (Z.of_nat (length chunks))) Gathered.empty 0 chunks in
  map_err AsrRunFailure.from (finish request g).

(** What a run has after its first [k] chunks. *)
Definition so_far (chunks : list PlannedChunk.t) (k : nat) (all_checkpointed : bool) : RunSoFar.t :=
  RunSoFar.mk request chunks (gather Gathered.empty (take k chunks)) all_checkpointed.

Lemma gather_next chunks k chunk :
  chunks !! k = Some chunk ->
  Gathered.take (gather Gathered.empty (take k chunks)) chunk (heard chunk).1
  = gather Gathered.empty (take (S k) chunks).
Proof. intros Hk. unfold gather. by rewrite (take_S_r _ _ _ Hk), fold_left_app. Qed.

(** A run that goes over all its chunks gathers all of them. *)
Lemma heard_loop_gathers planned g completed chunks g' :
  heard_loop planned g completed chunks = Ok g' -> g' = gather g chunks.
Proof.
  revert g completed. induction chunks as [|chunk chunks IH]; intros g completed; cbn [heard_loop]; [by intros [= <-]|].
  cbn zeta. destruct (Gathered.failure _ _ _); [done|]. intros E. by apply IH in E.
Qed.

Lemma heard_run_whole chunks transcription :
  plan_run request = Ok chunks -> heard_run = Ok transcription ->
  finish request (gather Gathered.empty chunks) = Ok transcription.
Proof.
  intros Hp. unfold heard_run. rewrite Hp. cbn [map_err result_bind].
  destruct (heard_loop _ _ _ _) as [g|] eqn:E; [|done]. apply heard_loop_gathers in E as ->. cbn [result_bind].
  by intros ?%map_err_Ok.
Qed.

(** What is stored of a chunk is read back as what the chunk became. *)
Lemma stored_heard chunk : stored_result request chunk (heard chunk).2 = Some (heard chunk).1.
Proof.
  unfold heard. destruct (PlannedChunk.is_below_recognition_floor chunk) eqn:Ef; [done|].
  destruct (pcm_of chunk ≫= audio_found) as [[pcm audio]|]; [|done].
  destruct (_ || _); cbn; [by rewrite Ef|]. unfold judged.
  destruct (validate_chunk_output _ _ _ _) as [v|e] eqn:Ev; cbn; rewrite Ef; [|done]. by rewrite Ev.
Qed.

(** A failure that is not the verdict on the recognizer: the job may be resumed. *)
Definition interrupted (e : AsrRunFailure.t) : Prop :=
  AsrFailureReason.cannot_succeed_on_resume (AsrFailure.reason (AsrRunFailure.failure e)) = false.

(** ** What the host promises *)

Section Host.
Context {W : Type} (key : RecognitionKey.t).
(** What a load may find, and what a seed may give for a window, in a world. *)
Context (held : W -> ChunkCheckpoint.t -> Prop) (seeded : W -> TimeRange.t -> CheckpointOutcome.t -> Prop).
(** What else holds of the world whatever the host does. *)
Context (kept : W -> Prop).

(** Nothing new is held or seeded in a later world. *)
Definition keeps (w w' : W) : Prop :=
  (forall c, held w' c -> held w c) /\ (forall window o, seeded w' window o -> seeded w window o)
  /\ (kept w -> kept w').

#[export] Instance keeps_refl : Reflexive keeps.
Proof. by split. Qed.

#[export] Instance keeps_trans : Transitive keeps.
Proof. intros w1 w2 w3 (H1 & H2 & H3) (H4 & H5 & H6). split; [|split]; auto. Qed.

(** Audio and answers are the same whenever they are given; a checkpoint that
    is found is one that was stored, and a seed gives what was kept in it; any
    failure of the host is one of those that [may_fail] allows. *)
Record ports_laws (may_fail : Prop) (ports : Ports.t W) : Prop := {
  law_pcm : forall chunk w, match Ports.speech_pcm ports chunk w with
    | (Ok pcm, w') => pcm_of chunk = Some pcm /\ keeps w w'
    | (Err SpeechAudioError.NoAudio, w') => pcm_of chunk = None /\ keeps w w'
    | (Err _, w') => may_fail /\ keeps w w'
    end;
  law_identity : forall w, match Ports.identity ports w with
    | (Ok actual, w') => (actual <> TranscribeRangeRequest.expected request -> may_fail) /\ keeps w w'
    | (Err _, w') => may_fail /\ keeps w w'
    end;
  law_recognize : forall chunk pcm w, match Ports.recognize ports chunk pcm w with
    | (Ok output, w') => answer chunk pcm = output /\ keeps w w'
    | (Err _, w') => may_fail /\ keeps w w'
    end;
  law_cancelled : forall w, match Ports.is_cancelled ports w with
    | (cancelled, w') => (cancelled = true -> may_fail) /\ keeps w w'
    end
}.

Record seed_laws (port : SeedPort.t W) : Prop := {
  law_find : forall window w, match SeedPort.find port (SeedPort.key port) window w with
    | (o, w') => (forall found, o = Some found -> seeded w window found) /\ keeps w w'
    end;
  law_keep : forall window o w, let w' := SeedPort.keep port (SeedPort.key port) window o w in
    (forall c, held w' c -> held w c)
    /\ (forall window' o', seeded w' window' o' -> (window' = window /\ o' = o) \/ seeded w window' o')
    /\ (kept w -> kept w')
}.

Record scope_laws (may_fail : Prop) (scope : CheckpointScope.t W) : Prop := {
  law_key : CheckpointScope.key scope = key;
  law_load : forall index w, match CheckpointScope.load scope index w with
    | (read, w') => (forall c, read = Found c -> held w c) /\ keeps w w'
    end;
  law_store : forall c w, match CheckpointScope.store scope c w with
    | (_, w') => (forall c', held w' c' -> c' = c \/ held w c')
                 /\ (forall window o, seeded w' window o -> seeded w window o)
                 /\ (kept w -> kept w')
    end;
  law_discard : forall index w, keeps w (CheckpointScope.discard scope index w);
  law_report : forall update w, keeps w (CheckpointScope.report scope update w);
  law_elapsed : forall w, keeps w (CheckpointScope.elapsed scope w).2;
  law_seed : forall port, CheckpointScope.seed scope = Some port -> seed_laws port;
  law_gate : forall before_chunk w, CheckpointScope.gate scope = Some before_chunk ->
    match before_chunk w with
    | (Ok _, w') => keeps w w'
    | (Err e, w') => may_fail
        /\ AsrFailureReason.cannot_succeed_on_resume (AsrFailure.reason e) = false /\ keeps w w'
    end
}.

(** What is kept holds, and every checkpoint and seeded answer that a planned
    chunk could take is what is heard of the chunk. *)
Definition sound_world (w : W) : Prop :=
  kept w /\
  forall chunks chunk, plan_run request = Ok chunks -> chunk ∈ chunks ->
    (forall c, held w c -> ChunkCheckpoint.belongs_to c key chunk = true ->
       ChunkCheckpoint.outcome c = (heard chunk).2)
    /\ forall o, seeded w (PlannedChunk.window chunk) o -> o = (heard chunk).2.

Lemma sound_keeps w w' : keeps w w' -> sound_world w -> sound_world w'.
Proof.
  intros (Hh & Hs & Hk) [Hkept Hw]. split; [by apply Hk|]. intros chunks chunk Hp Hin.
  destruct (Hw chunks chunk Hp Hin) as [H1 H2]. split; [intros c Hc; by apply H1, Hh|intros o Ho; by apply H2, Hs].
Qed.

(** An observer told what such a run has after a chunk. *)
Definition observer_law (observer : RunSoFar.t -> W -> W) : Prop :=
  forall chunks k all_checkpointed w, plan_run request = Ok chunks -> (0 < k <= length chunks)%nat ->
    sound_world w -> keeps w (observer (so_far chunks k all_checkpointed) w).

(** ** Runs that keep the world sound *)

Context (Hplan : ChunkPlan.wf (TranscribeRangeRequest.plan request)).
Context (Hrange : TimeRange.wf (TranscribeRangeRequest.range request)).

Lemma planned_are chunks :
  plan_run request = Ok chunks ->
  chunks = chunk_at (SourceSegment.id (TranscribeRangeRequest.source_segment request))
             (TranscribeRangeRequest.plan request) (TranscribeRangeRequest.range request)
           <$> seqZ 0 (chunk_count (TranscribeRangeRequest.plan request) (TranscribeRangeRequest.range request))
  /\ chunk_count (TranscribeRangeRequest.plan request) (TranscribeRangeRequest.range request) <= MAX_PLANNED_CHUNKS.
Proof.
  unfold plan_run. destruct (_ || _); [done|].
  rewrite (plan_chunks_spec _ _ _ Hplan Hrange).
  destruct (Z.leb_spec (chunk_count (TranscribeRangeRequest.plan request) (TranscribeRangeRequest.range request))
              MAX_PLANNED_CHUNKS); destruct (AsrModel.profile _); (by intros [= <-]) || done.
Qed.

Lemma planned_unique chunks c c' :
  plan_run request = Ok chunks -> c ∈ chunks -> c' ∈ chunks ->
  PlannedChunk.index c = PlannedChunk.index c' \/ PlannedChunk.window c = PlannedChunk.window c' -> c = c'.
Proof.
  intros [-> _]%planned_are (k & -> & Hk)%list_elem_of_fmap (k' & -> & Hk')%list_elem_of_fmap Heq.
  f_equal. destruct Heq as [Heq|Heq]; [exact Heq|]. cbn in Heq. injection Heq as Hs _.
  destruct Hplan as (Hp1 & Hp2 & Hp3).
  assert (H0 : (k - k') * (ChunkPlan.window_us (TranscribeRangeRequest.plan request)
                           - ChunkPlan.overlap_us (TranscribeRangeRequest.plan request)) = 0)
    by (rewrite Z.mul_sub_distr_r; apply Z.sub_move_0_r, (Z.add_reg_l (TimeRange.start (TranscribeRangeRequest.range request))), Hs).
  apply Z.mul_eq_0 in H0. lia.
Qed.

(** An operation that leaves a sound world sound, with what it says of its
    result. *)
Definition safe {E A} (m : Eff W E A) (Q : A -> Prop) (R : E -> Prop) : Prop :=
  forall w, sound_world w ->
    match m w with
    | (Ok a, w') => sound_world w' /\ Q a
    | (Err e, w') => sound_world w' /\ R e
    end.

Lemma safe_bind {E A B} (m : Eff W E A) (k : A -> Eff W E B) P Q (R : E -> Prop) :
  safe m P R -> (forall a, P a -> safe (k a) Q R) -> safe (eff_bind m k) Q R.
Proof.
  intros Hm Hk w Hw. unfold eff_bind. specialize (Hm w Hw). destruct (m w) as [[a|e] w'].
  - destruct Hm as [Hw' Ha]. by apply (Hk a Ha w').
  - exact Hm.
Qed.

Lemma safe_ret {E A} (a : A) (Q : A -> Prop) (R : E -> Prop) : Q a -> safe (eff_ret a) Q R.
Proof. intros Ha w Hw. by split. Qed.

Lemma safe_fail {E A} (e : E) (Q : A -> Prop) (R : E -> Prop) : R e -> safe (eff_fail e) Q R.
Proof. intros He w Hw. by split. Qed.

Lemma safe_result {E A} (r : result A E) (Q : A -> Prop) (R : E -> Prop) :
  match r with Ok a => Q a | Err e => R e end -> safe (eff_result r) Q R.
Proof. intros Hr w Hw. unfold eff_result. destruct r; by split. Qed.

Lemma safe_map_err {E F A} (f : E -> F) (m : Eff W E A) Q (R : E -> Prop) (S : F -> Prop) :
  safe m Q R -> (forall e, R e -> S (f e)) -> safe (eff_map_err f m) Q S.
Proof.
  intros Hm Hf w Hw. unfold eff_map_err. specialize (Hm w Hw). destruct (m w) as [[a|e] w']; cbn; [done|].
  destruct Hm. split; auto.
Qed.

Lemma safe_of {E A} (m : W -> A * W) (Q : A -> Prop) (R : E -> Prop) :
  (forall w, sound_world w -> let '(a, w') := m w in sound_world w' /\ Q a) -> safe (eff_of m) Q R.
Proof. intros Hm w Hw. unfold eff_of. specialize (Hm w Hw). by destruct (m w). Qed.

Lemma safe_do {E} (m : W -> W) (R : E -> Prop) :
  (forall w, sound_world w -> sound_world (m w)) -> safe (eff_do m) (fun _ => True) R.
Proof. intros Hm w Hw. unfold eff_do. split; auto. Qed.

Context (may_fail : Prop) (ports : Ports.t W) (Hports : ports_laws may_fail ports).

(** What is said of a failure of the host. *)
Definition host_failure (e : AsrFailure.t) : Prop :=
  may_fail /\ AsrFailureReason.cannot_succeed_on_resume (AsrFailure.reason e) = false.

Lemma stop_safe stage : safe (stop_if_cancelled ports stage) (fun _ => True) host_failure.
Proof.
  unfold stop_if_cancelled. eapply (safe_bind _ _ (fun cancelled => cancelled = true -> may_fail)).
  - apply safe_of. intros w Hw. pose proof (law_cancelled _ _ Hports w) as Hl.
    destruct (Ports.is_cancelled ports w) as [c w']. destruct Hl as [Hc Hk]. split; [by eapply sound_keeps|done].
  - intros [] Hc; [apply safe_fail; split; [by apply Hc|done]|by apply safe_ret].
Qed.

Lemma identity_safe : safe (ensure_identity ports request) (fun _ => True) host_failure.
Proof.
  unfold ensure_identity.
  eapply (safe_bind _ _ (fun actual => actual <> TranscribeRangeRequest.expected request -> may_fail)).
  - intros w Hw. pose proof (law_identity _ _ Hports w) as Hl. unfold eff_map_err.
    destruct (Ports.identity ports w) as [[actual|e] w']; cbn; destruct Hl as [Hc Hk];
      (split; [by eapply sound_keeps|]); [done|]. split; [done|]. by destruct e.
  - intros actual Hc. case_bool_decide; [by apply safe_ret|]. apply safe_fail. split; [by apply Hc|done].
Qed.

(** A chunk done afresh becomes what is heard of it. *)
Lemma fresh_safe chunk : safe (fresh_chunk ports request chunk) (fun done_ => done_ = heard chunk) host_failure.
Proof.
  unfold fresh_chunk, heard. destruct (PlannedChunk.is_below_recognition_floor chunk); [by apply safe_ret|].
  eapply (safe_bind _ _ (fun found => found = pcm_of chunk ≫= audio_found)).
  - intros w Hw. unfold decode. pose proof (law_pcm _ _ Hports chunk w) as Hl.
    destruct (Ports.speech_pcm ports chunk w) as [[pcm|e] w'].
    + destruct Hl as [-> Hk]. split; [by eapply sound_keeps|done].
    + destruct e; destruct Hl as [Hl Hk]; (split; [by eapply sound_keeps|]); try done. by rewrite Hl.
  - intros found ->. destruct (pcm_of chunk ≫= audio_found) as [[pcm audio]|]; [|by apply safe_ret].
    destruct (_ || _); [by apply safe_ret|]. eapply (safe_bind _ _ (fun _ => True)); [apply stop_safe|].
    intros _ _. eapply (safe_bind _ _ (fun output => answer chunk pcm = output)); [|intros output <-; by apply safe_ret].
    intros w Hw. pose proof (law_recognize _ _ Hports chunk pcm w) as Hl. unfold eff_map_err.
    destruct (Ports.recognize ports chunk pcm w) as [[output|e] w']; cbn; destruct Hl as [Hl Hk];
      (split; [by eapply sound_keeps|]); [done|]. split; [done|]. by destruct e.
Qed.

Context (scope : option (CheckpointScope.t W)).
Context (Hscope : forall s, scope = Some s -> scope_laws may_fail s).
Context (observer : RunSoFar.t -> W -> W) (Hobserver : observer_law observer).

Definition host_run_failure (e : AsrRunFailure.t) : Prop := may_fail /\ interrupted e.

Section Planned.
Context (chunks : list PlannedChunk.t) (Hchunks : plan_run request = Ok chunks).

(** Storing or keeping what is heard of a chunk leaves the world sound. *)
Lemma store_sound chunk w :
  chunk ∈ chunks -> sound_world w -> sound_world (store_checkpoint scope chunk (heard chunk).2 w).2.
Proof.
  intros Hin Hw. unfold store_checkpoint. destruct scope as [s|] eqn:Es in |- *; [|exact Hw].
  pose proof (Hscope s Es) as Hl. rewrite (law_key _ _ Hl).
  pose proof (law_store _ _ Hl (ChunkCheckpoint.new key chunk (heard chunk).2) w) as Hstore.
  destruct (CheckpointScope.store _ _ _) as [ok w']. destruct Hstore as (Hh & Hs & Hk). destruct Hw as [Hkept Hw].
  split; [by apply Hk|]. intros chunks' chunk' Hp Hin'. destruct (Hw chunks' chunk' Hp Hin') as [H1 H2].
  rewrite Hchunks in Hp. injection Hp as <-. split; [|intros o Ho; by apply H2, Hs].
  intros c Hc Hb. apply Hh in Hc as [->|Hc]; [|by apply H1].
  apply belongs_to_spec in Hb as [Hb _]. injection Hb as Hi _. cbn.
  by rewrite (planned_unique chunks chunk chunk' Hchunks Hin Hin' (or_introl Hi)).
Qed.

Lemma keep_sound chunk w :
  chunk ∈ chunks -> sound_world w -> sound_world (keep_answer scope chunk (heard chunk).2 w).
Proof.
  intros Hin Hw. unfold keep_answer. destruct scope as [s|] eqn:Es in |- *; [|exact Hw].
  destruct (CheckpointScope.seed s) as [port|] eqn:Ep; [|exact Hw].
  pose proof (law_seed _ _ (Hscope s Es) port Ep) as Hl.
  destruct (law_keep _ Hl (PlannedChunk.window chunk) (heard chunk).2 w) as (Hh & Hs & Hk).
  destruct Hw as [Hkept Hw]. split; [by apply Hk|]. intros chunks' chunk' Hp Hin'. destruct (Hw chunks' chunk' Hp Hin') as [H1 H2].
  rewrite Hchunks in Hp. injection Hp as <-. split; [intros c Hc; by apply H1, Hh|].
  intros o [[Hwin ->]|Ho]%Hs; [|by apply H2].
  by rewrite (planned_unique chunks chunk chunk' Hchunks Hin Hin' (or_intror (eq_sym Hwin))).
Qed.

Lemma seeded_spec s chunk usage w :
  scope = Some s -> chunk ∈ chunks -> sound_world w ->
  let '(found, _, w') := seeded_answer request s chunk usage w in
  sound_world w' /\ forall r, found = Some r -> r = heard chunk.
Proof.
  intros Es Hin Hw. unfold seeded_answer. destruct (CheckpointScope.seed s) as [port|] eqn:Ep; [|done].
  pose proof (law_find _ (law_seed _ _ (Hscope s Es) port Ep) (PlannedChunk.window chunk) w) as Hfind.
  destruct (SeedPort.find _ _ _ _) as [[o|] w'].
  - destruct Hfind as [Ho Hk]. destruct (proj2 Hw chunks chunk Hchunks Hin) as [_ H2].
    rewrite (H2 o (Ho o eq_refl)), stored_heard.
    pose proof (store_sound chunk w' Hin (sound_keeps _ _ Hk Hw)) as Hst. unfold store_checkpoint in Hst. rewrite Es in Hst.
    destruct (CheckpointScope.store _ _ _) as [ok w'']. split; [exact Hst|]. intros r [= <-]. by destruct (heard chunk).
  - destruct Hfind as [_ Hk]. split; [by eapply sound_keeps|done].
Qed.

(** What is taken from a checkpoint or a seed is what is heard of the chunk. *)
Lemma reused_spec st chunk w :
  chunk ∈ chunks -> sound_world w ->
  let '(found, _, w') := reused_result scope request st chunk w in
  sound_world w' /\ forall r, found = Some r -> r = (heard chunk).1.
Proof.
  intros Hin Hw. unfold reused_result. destruct scope as [s|] eqn:Es in |- *; [|done].
  assert (Hreuse : let '(found, _, w') := reuse_checkpoint request s chunk (usage st) w in
    sound_world w' /\ forall r, found = Some r -> r = heard chunk).
  { unfold reuse_checkpoint. pose proof (law_load _ _ (Hscope s Es) (PlannedChunk.index chunk) w) as Hload.
    destruct (CheckpointScope.load _ _ _) as [[|c|] w']; destruct Hload as [Hc Hk];
      pose proof (sound_keeps _ _ Hk Hw) as Hw'.
    - by apply seeded_spec.
    - destruct (proj2 Hw chunks chunk Hchunks Hin) as [H1 _]. specialize (H1 c (Hc c eq_refl)).
      rewrite (law_key _ _ (Hscope s Es)).
      pose proof (law_discard _ _ (Hscope s Es) (PlannedChunk.index chunk) w') as Hd.
      destruct (ChunkCheckpoint.belongs_to c key chunk); [|split; [by eapply sound_keeps|done]].
      rewrite (H1 eq_refl), stored_heard. split; [done|]. intros r [= <-]. by destruct (heard chunk).
    - done. }
  destruct (reuse_checkpoint _ _ _ _ _) as [[[[r o]|] u] w']; [|by split; [apply Hreuse|]].
  destruct Hreuse as [Hw' Hr]. specialize (Hr _ eq_refl). pose proof (keep_sound chunk w' Hin Hw') as Hkeep.
  rewrite <- Hr in Hkeep. rewrite Es in Hkeep. split; [exact Hkeep|]. intros r' [= <-]. by rewrite <- Hr.
Qed.


Lemma fresh_result_safe chunk :
  chunk ∈ chunks ->
  safe (fresh_result ports scope request chunk) (fun became => became.1 = (heard chunk).1) host_run_failure.
Proof.
  intros Hin. unfold fresh_result. eapply safe_bind.
  { eapply safe_map_err; [apply fresh_safe|]. by intros e He. }
  intros done_ ->. eapply (safe_bind _ _ (fun _ => True)).
  { destruct (answered_by_the_recognizer _); [|by apply safe_ret].
    eapply safe_map_err; [apply identity_safe|]. by intros e He. }
  intros _ _. eapply safe_bind; [apply safe_do; intros w; by apply keep_sound|].
  intros _ _. eapply (safe_bind _ _ (fun _ => True)); [|intros stored _; by apply safe_ret].
  apply safe_of. intros w Hw. pose proof (store_sound chunk w Hin Hw). by destruct (store_checkpoint _ _ _ _).
Qed.

Lemma ready_safe completed : safe (ready_for_chunk ports scope completed) (fun _ => True) host_failure.
Proof.
  unfold ready_for_chunk. eapply safe_bind; [apply stop_safe|]. intros _ _.
  destruct scope as [s|] eqn:Es in |- *; [|by apply safe_ret].
  destruct (CheckpointScope.gate s) as [before_chunk|] eqn:Eg; [|by apply safe_ret].
  destruct (0 <? completed); [|by apply safe_ret]. intros w Hw.
  pose proof (law_gate _ _ (Hscope s Es) before_chunk w Eg) as Hl.
  destruct (before_chunk w) as [[[]|e] w'].
  - split; [by eapply sound_keeps|done].
  - destruct Hl as (H1 & H2 & Hk). split; [by eapply sound_keeps|by split].
Qed.

Lemma report_sound total completed m w : sound_world w -> sound_world (report scope total completed m w).
Proof.
  intros Hw. unfold report. destruct scope as [s|] eqn:Es in |- *; [|exact Hw].
  destruct m as [m|].
  - pose proof (law_elapsed _ _ (Hscope s Es) w) as He. destruct (CheckpointScope.elapsed s w) as [now w'].
    eapply sound_keeps; [|exact Hw]. etrans; [exact He|]. apply (law_report _ _ (Hscope s Es)).
  - eapply sound_keeps; [apply (law_report _ _ (Hscope s Es))|exact Hw].
Qed.

Lemma meter_sound m reached fresh w : sound_world w -> sound_world (meter_finished scope m reached fresh w).2.
Proof.
  intros Hw. unfold meter_finished. destruct scope as [s|] eqn:Es in |- *; [|exact Hw].
  destruct m as [m|]; [|exact Hw]. pose proof (law_elapsed _ _ (Hscope s Es) w) as He.
  destruct (CheckpointScope.elapsed s w) as [now w']. by eapply sound_keeps.
Qed.

Let planned : Z := count_u32 (Z.of_nat (length chunks)).

(** One turn of the loop: the chunk is gathered as it is heard, and the verdict
    is the one what is heard gives. *)
Lemma step_safe st k chunk :
  chunks !! k = Some chunk -> gathered st = gather Gathered.empty (take k chunks) ->
  let g := Gathered.take (gathered st) chunk (heard chunk).1 in
  let completed' := saturating_u64 (completed st + 1) in
  safe (chunk_step ports scope observer request chunks st chunk)
    (fun st' => gathered st' = g /\ completed st' = completed'
                /\ Gathered.failure g planned (count_u32 completed') = None)
    (fun e => Gathered.failure g planned (count_u32 completed') = Some e \/ host_run_failure e).
Proof.
  intros Hat Hst g completed'. pose proof (list_elem_of_lookup_2 _ _ _ Hat) as Hin. unfold chunk_step. eapply safe_bind.
  { eapply safe_map_err; [apply ready_safe|]. intros e He. right. exact He. }
  intros _ _. eapply (safe_bind _ _ (fun found => forall r, found.1 = Some r -> r = (heard chunk).1)).
  { apply safe_of. intros w Hw. pose proof (reused_spec st chunk w Hin Hw) as Hr.
    destruct (reused_result _ _ _ _ _) as [[found u] w']. exact Hr. }
  intros [found u] Hfound. cbn in Hfound. eapply (safe_bind _ _ (fun became => became.1 = (heard chunk).1)).
  { cbn. destruct found as [r|]; [apply safe_ret; by apply Hfound|].
    intros w Hw. pose proof (fresh_result_safe chunk Hin w Hw) as Hf.
    destruct (fresh_result _ _ _ _ w) as [[a|e] w']; [exact Hf|]. destruct Hf. split; [done|by right]. }
  intros became Hb. eapply (safe_bind _ _ (fun _ => True)).
  { apply safe_of. intros w Hw.
    pose proof (meter_sound (meter st) (TimeRange.end_ (PlannedChunk.window chunk))
                  (match (found, u).1 with Some _ => false | None => true end) w Hw) as Hm.
    by destruct (meter_finished _ _ _ _ w). }
  intros m _. eapply safe_bind; [apply safe_do; intros w; apply report_sound|].
  intros _ _. rewrite Hb. fold g completed' planned. eapply safe_bind.
  { apply safe_do. intros w Hw. eapply sound_keeps; [|exact Hw]. unfold g. rewrite Hst, (gather_next _ _ _ Hat).
    apply Hobserver; [exact Hchunks| |exact Hw]. apply lookup_lt_Some in Hat. lia. }
  intros _ _.
  destruct (Gathered.failure g planned _) eqn:Ef; [apply safe_fail; by left|by apply safe_ret].
Qed.

Lemma loop_safe st k rest more :
  rest ++ more = drop k chunks -> gathered st = gather Gathered.empty (take k chunks) ->
  safe (run_loop ports scope observer request chunks st rest)
    (fun st' => heard_loop planned (gathered st) (completed st) rest = Ok (gathered st'))
    (fun e => heard_loop planned (gathered st) (completed st) rest = Err e \/ host_run_failure e).
Proof.
  revert st k. induction rest as [|chunk rest IH]; intros st k Hrest Hst; cbn [run_loop heard_loop].
  { by apply safe_ret. }
  cbn [app] in Hrest.
  assert (Hat : chunks !! k = Some chunk) by (by rewrite <- (Nat.add_0_r k), <- lookup_drop, <- Hrest).
  intros w Hw. pose proof (step_safe st k chunk Hat Hst w Hw) as Hs. unfold eff_bind. cbn zeta in *.
  destruct (chunk_step _ _ _ _ _ _ _ w) as [[st'|e] w'].
  - destruct Hs as (Hw' & Eg & Ec & ->). specialize (IH st' (S k)). rewrite Eg, Ec in IH.
    apply IH; [|by rewrite Hst, (gather_next _ _ _ Hat)|exact Hw']. rewrite (drop_S _ _ _ Hat) in Hrest.
    by injection Hrest as ->.
  - destruct Hs as (Hw' & [Hf|Hf]); (split; [exact Hw'|]); [left; by rewrite Hf|by right].
Qed.
End Planned.

(** The whole run. *)
Lemma run_safe :
  safe (run_chunks ports scope observer request) (fun done_ => heard_run = Ok done_.1)
    (fun e => heard_run = Err e \/ host_run_failure e).
Proof.
  unfold run_chunks, heard_run. destruct (plan_run request) as [chunks|e] eqn:Ep.
  2:{ intros w Hw. split; [done|]. by left. }
  cbn [map_err result_bind].
  eapply (safe_bind _ _ (fun cs => cs = chunks)); [by apply safe_result|]. intros _ ->.
  eapply safe_bind.
  { eapply safe_map_err; [apply identity_safe|]. intros e He. right. exact He. }
  intros _ _. eapply (safe_bind _ _ (fun _ => True)).
  { apply safe_of. intros w Hw. unfold start_meter. destruct scope as [s|] eqn:Es in |- *; [|done].
    pose proof (law_elapsed _ _ (Hscope s Es) w) as He. destruct (CheckpointScope.elapsed s w) as [now w'].
    split; [by eapply sound_keeps|done]. }
  intros m _. eapply safe_bind; [apply safe_do; intros w; apply report_sound|]. intros _ _.
  set (st := mkRunning Gathered.empty _ _ _ _).
  pose proof (loop_safe chunks Ep st 0 chunks [] (app_nil_r _) eq_refl) as Hloop. cbn [gathered completed] in Hloop.
  intros w Hw. specialize (Hloop w Hw). unfold eff_bind at 1.
  change (gathered st) with Gathered.empty in Hloop. change (completed st) with 0 in Hloop.
  destruct (run_loop _ _ _ _ _ _ _ w) as [[st'|e] w'].
  - destruct Hloop as [Hw' ->]. cbn [result_bind]. unfold eff_bind, eff_result, eff_ret.
    destruct (map_err AsrRunFailure.from (finish request (gathered st'))) as [t|e]; split; [done|done|done|by left].
  - destruct Hloop as [Hw' [->|Hf]]; (split; [done|]); [by left|by right].
Qed.
End Host.

(** ** The verdict on the recognizer *)

Definition is_unusable (chunk : PlannedChunk.t) : bool :=
  match (heard chunk).1 with UnusableAnswer _ _ => true | _ => false end.
Definition is_answered (chunk : PlannedChunk.t) : bool :=
  match (heard chunk).1 with Gap _ => false | _ => true end.
Definition count_of (p : PlannedChunk.t -> bool) (chunks : list PlannedChunk.t) : Z :=
  Z.of_nat (length (filter (fun c => p c = true) chunks)).

Lemma count_cons p c l : count_of p (c :: l) = (if p c then 1 else 0) + count_of p l.
Proof. unfold count_of. rewrite filter_cons. destruct (p c); cbn [decide]; case_decide; cbn; done || lia. Qed.

Lemma count_bound p l : 0 <= count_of p l <= Z.of_nat (length l).
Proof. unfold count_of. pose proof (length_filter (fun c => p c = true) l). lia. Qed.

Lemma count_order l : count_of is_unusable l <= count_of is_answered l.
Proof.
  induction l as [|c l IH]; [done|]. rewrite !count_cons. unfold is_unusable at 1, is_answered at 1.
  destruct (heard c).1; lia.
Qed.

(** The numbers kept are those of the chunks gathered, and the first unusable
    chunk is the one named. *)
Definition counts (g : Gathered.t) (chunks : list PlannedChunk.t) : Prop :=
  Gathered.answered g = count_of is_answered chunks /\ Gathered.unusable g = count_of is_unusable chunks
  /\ (UnusableChunk.index <$> Gathered.first g)
     = (PlannedChunk.index <$> head (filter (fun c => is_unusable c = true) chunks)).

Lemma count_app p l k : count_of p (l ++ k) = count_of p l + count_of p k.
Proof. unfold count_of. rewrite filter_app, length_app. lia. Qed.

Lemma count_snoc p l c : count_of p (l ++ [c]) = count_of p l + if p c then 1 else 0.
Proof. rewrite count_app, count_cons. change (count_of p []) with 0. lia. Qed.

Lemma head_app {A} (l k : list A) : head (l ++ k) = match head l with Some a => Some a | None => head k end.
Proof. by destruct l. Qed.

Lemma counts_take g l c :
  counts g l -> Z.of_nat (length l) < U32_MAX -> counts (Gathered.take g c (heard c).1) (l ++ [c]).
Proof.
  intros (Ha & Hu & Hf) Hl. pose proof (count_bound is_answered l). pose proof (count_bound is_unusable l).
  unfold counts. rewrite !count_snoc, filter_app, head_app.
  assert (Hc : filter (fun c => is_unusable c = true) [c] = if is_unusable c then [c] else []).
  { rewrite filter_cons, filter_nil. by destruct (is_unusable c). }
  rewrite Hc. destruct (heard c).1 as [o|audio v|audio e] eqn:E;
    (assert (Hun : is_unusable c = match (heard c).1 with UnusableAnswer _ _ => true | _ => false end) by done);
    (assert (Han : is_answered c = match (heard c).1 with Gap _ => false | _ => true end) by done);
    rewrite E in Hun, Han; rewrite Hun, Han; cbn; rewrite ?Ha, ?Hu.
  - split; [lia|]. split; [lia|]. rewrite Hf. by destruct (head _).
  - split; [ulia|]. split; [lia|]. rewrite Hf. by destruct (head _).
  - split; [ulia|]. split; [ulia|]. destruct (Gathered.first g), (head (filter _ l)); done.
Qed.

(** The chunks gathered are too few for a count to saturate. *)
Lemma failure_spec g l n k :
  counts g l -> Z.of_nat (length l) = k -> k <= n <= MAX_PLANNED_CHUNKS ->
  match Gathered.failure g n (count_u32 k) with
  | Some e =>
      count_of is_answered l + (n - k) < 2 * count_of is_unusable l
      /\ exists first, head (filter (fun c => is_unusable c = true) l) = Some first
           /\ AsrRunFailure.chunk e = Some (PlannedChunk.index first)
           /\ exists chunk, UnusableChunk.index chunk = PlannedChunk.index first
                /\ AsrRunFailure.failure e
                   = AsrFailure.at_ AsrStage.OutputValidation
                       (AsrFailureReason.MalformedOutput
                          (UnusableChunks.mk (count_of is_unusable l) (count_of is_answered l) n chunk))
  | None => 2 * count_of is_unusable l <= count_of is_answered l + (n - k)
  end.
Proof.
  intros (Ha & Hu & Hf) Hl Hn. unfold MAX_PLANNED_CHUNKS in Hn. pose proof (count_bound is_answered l).
  pose proof (count_bound is_unusable l). pose proof (count_order l). unfold Gathered.failure, count_u32.
  rewrite (proj2 (Z.leb_le k U32_MAX)) by ulia.
  destruct (Gathered.first g) as [first|], (head (filter _ l)) as [c|] eqn:Ec; try done; cbn [mbind option_bind].
  - cbn in Hf. injection Hf as Hf. rewrite Ha, Hu. unfold unusable_chunks_end_the_run, UNUSABLE_CHUNK_SHARE_DENOMINATOR.
    destruct (Z.ltb_spec (saturating_u32 (count_of is_answered l + saturating_u32 (n - k)))
                (saturating_u32 (count_of is_unusable l * 2))); [|ulia].
    split; [ulia|]. exists c. split; [done|]. cbn. split; [by rewrite Hf|]. by exists first.
  - destruct (filter (fun c => is_unusable c = true) l) eqn:Efil; [|done]. unfold count_of. rewrite Efil. cbn.
    pose proof (count_bound is_answered l). unfold count_of in *. lia.
Qed.

(** After the chunks gone over, of [n] in all, more than half of the answers of
    the whole run will be unusable, whatever the others turn out to be. *)
Definition certain (n : Z) (gone : list PlannedChunk.t) : Prop :=
  count_of is_answered gone + (n - Z.of_nat (length gone)) < 2 * count_of is_unusable gone.

(** The first chunk, counted from one, that makes it certain. *)
Definition decided_at (chunks : list PlannedChunk.t) (k : nat) : Prop :=
  (k <= length chunks)%nat /\ certain (Z.of_nat (length chunks)) (take k chunks)
  /\ forall j, (j < k)%nat -> ~ certain (Z.of_nat (length chunks)) (take j chunks).

(** What is certain stays so. *)
Lemma certain_app n gone rest : certain n gone -> certain n (gone ++ rest).
Proof.
  unfold certain. rewrite !count_app, length_app. pose proof (count_bound is_answered rest).
  pose proof (count_bound is_unusable rest). lia.
Qed.

(** The verdict of a run that ends after the chunks gone over. *)
Definition verdict_on (n : Z) (gone : list PlannedChunk.t) (e : AsrRunFailure.t) : Prop :=
  exists first chunk,
    head (filter (fun c => is_unusable c = true) gone) = Some first
    /\ UnusableChunk.index chunk = PlannedChunk.index first
    /\ e = AsrRunFailure.mk
             (AsrFailure.at_ AsrStage.OutputValidation
                (AsrFailureReason.MalformedOutput
                   (UnusableChunks.mk (count_of is_unusable gone) (count_of is_answered gone) n chunk)))
             (Some (PlannedChunk.index first)).

(** The run ends at the chunk that makes the verdict certain, and not before. *)
Lemma heard_loop_spec n g l rest :
  counts g l -> Z.of_nat (length (l ++ rest)) <= n -> n <= MAX_PLANNED_CHUNKS -> ~ certain n l ->
  match heard_loop n g (Z.of_nat (length l)) rest with
  | Ok g' => g' = gather g rest /\ ~ certain n (l ++ rest)
  | Err e => exists m, (m <= length rest)%nat /\ certain n (l ++ take m rest)
      /\ (forall j, (j < m)%nat -> ~ certain n (l ++ take j rest)) /\ verdict_on n (l ++ take m rest) e
  end.
Proof.
  intros Hc Hlen Hn. revert g l Hc Hlen. induction rest as [|c rest IH]; intros g l Hc Hlen Hno; cbn [heard_loop].
  { by rewrite app_nil_r. }
  rewrite length_app in Hlen. cbn [length] in Hlen. unfold MAX_PLANNED_CHUNKS in *.
  pose proof (counts_take g l c Hc ltac:(ulia)) as Hc'.
  assert (Hk : saturating_u64 (Z.of_nat (length l) + 1) = Z.of_nat (length (l ++ [c])))
    by (rewrite length_app; cbn; ulia).
  rewrite Hk. pose proof (failure_spec _ _ n _ Hc' eq_refl) as Hf. unfold MAX_PLANNED_CHUNKS in Hf.
  specialize (Hf ltac:(rewrite length_app; cbn; lia)). destruct (Gathered.failure _ _ _) as [e|].
  - destruct Hf as (Hmaj & first & Hhead & Hchunk & chunk & Hidx & Hfail). exists 1%nat. cbn [take].
    split; [cbn; lia|]. split; [exact Hmaj|].
    split; [intros j Hj; replace j with 0%nat by lia; cbn [take]; by rewrite app_nil_r|].
    exists first, chunk. split; [done|]. split; [done|]. destruct e. cbn in *. by subst.
  - assert (Hno' : ~ certain n (l ++ [c])) by (unfold certain; lia).
    specialize (IH _ _ Hc' ltac:(rewrite !length_app; cbn; lia) Hno').
    destruct (heard_loop _ _ _ _) as [g'|e].
    + rewrite (cons_middle c l rest). by rewrite <- app_assoc in IH.
    + destruct IH as (m & Hm & Hcert & Hbefore & Hv). exists (S m). cbn [take]. rewrite <- app_assoc in *.
      split; [cbn; lia|]. split; [done|]. split; [|done].
      intros [|j] Hj; cbn [take]; [by rewrite app_nil_r|]. specialize (Hbefore j ltac:(lia)). by rewrite <- app_assoc in Hbefore.
Qed.

Lemma certain_from_start n : 0 <= n -> ~ certain n [].
Proof. unfold certain, count_of. rewrite !filter_nil. cbn. lia. Qed.
End Heard.

(** One attempt at the run, which ends however it ends, and what may happen to
    the checkpoints and seeds between two attempts: some are lost. *)
Definition attempt `{UnicodeTables} {W} request pcm_of answer (key : RecognitionKey.t)
    (held : W -> ChunkCheckpoint.t -> Prop) (seeded : W -> TimeRange.t -> CheckpointOutcome.t -> Prop)
    (kept : W -> Prop) (w w' : W) : Prop :=
  keeps held seeded kept w w'
  \/ exists ports scope, ports_laws request pcm_of answer held seeded kept True ports
       /\ scope_laws key held seeded kept True scope
       /\ observer_law request pcm_of answer key held seeded kept (CheckpointScope.chunk_finished scope)
       /\ (transcribe_range_checkpointed ports scope request w).2 = w'.

Lemma attempts_sound `{UnicodeTables} {W} request pcm_of answer key held seeded kept (w w' : W) :
  ChunkPlan.wf (TranscribeRangeRequest.plan request) -> TimeRange.wf (TranscribeRangeRequest.range request) ->
  rtc (attempt request pcm_of answer key held seeded kept) w w' ->
  sound_world request pcm_of answer key held seeded kept w -> sound_world request pcm_of answer key held seeded kept w'.
Proof.
  intros Hplan Hrange. induction 1 as [|w1 w2 w3 Hstep _ IH]; [done|]. intros Hw. apply IH.
  destruct Hstep as [Hk|(ports & scope & Hports & Hscope & Hobs & <-)]; [by eapply sound_keeps|].
  pose proof (run_safe request pcm_of answer key held seeded kept Hplan Hrange True ports Hports (Some scope)
                ltac:(by intros s [= <-]) _ Hobs w1 Hw) as Hsafe.
  unfold transcribe_range_checkpointed. destruct (run_chunks _ _ _ _ w1) as [[a|e] w2]; apply Hsafe.
Qed.

(** An interrupted run, resumed, gives what an uninterrupted one gives. However
    many attempts at a run came before, wherever each of them failed, and
    whatever checkpoints and seeded answers were lost in between: an attempt
    that ends gives exactly the transcription that the audio and the recognizer
    determine, and so does the run that keeps no checkpoint. An attempt that
    fails either gives the verdict on the recognizer that they determine, or the
    host failed and the run may be resumed; with a host that does not fail it is
    never the latter. Claim C5. *)
Theorem resumed_run_is_the_same `{UnicodeTables} {W} request pcm_of answer key held seeded kept may_fail
    (ports : Ports.t W) scope (first_world w : W) :
  ChunkPlan.wf (TranscribeRangeRequest.plan request) -> TimeRange.wf (TranscribeRangeRequest.range request) ->
  sound_world request pcm_of answer key held seeded kept first_world ->
  rtc (attempt request pcm_of answer key held seeded kept) first_world w ->
  ports_laws request pcm_of answer held seeded kept may_fail ports ->
  scope_laws key held seeded kept may_fail scope ->
  observer_law request pcm_of answer key held seeded kept (CheckpointScope.chunk_finished scope) ->
  let determined := heard_run request pcm_of answer in
  match (transcribe_range_checkpointed ports scope request w).1 with
  | Ok (transcription, _) => determined = Ok transcription
  | Err e => determined = Err e \/ (may_fail /\ interrupted e)
  end
  /\ match (transcribe_range ports request w).1 with
     | Ok transcription => determined = Ok transcription
     | Err e => map_err AsrRunFailure.failure determined = Err e
                \/ (may_fail /\ AsrFailureReason.cannot_succeed_on_resume (AsrFailure.reason e) = false)
     end.
Proof.
  intros Hplan Hrange Hfirst Hruns Hports Hscope Hobs. cbn zeta.
  pose proof (attempts_sound _ _ _ _ _ _ _ _ _ Hplan Hrange Hruns Hfirst) as Hw. split.
  - pose proof (run_safe request pcm_of answer key held seeded kept Hplan Hrange may_fail ports Hports (Some scope)
                  ltac:(by intros s [= <-]) _ Hobs w Hw) as Hsafe.
    unfold transcribe_range_checkpointed. destruct (run_chunks _ _ _ _ w) as [[[t u]|e] w']; apply Hsafe.
  - pose proof (run_safe request pcm_of answer key held seeded kept Hplan Hrange may_fail ports Hports None
                  ltac:(done) (fun _ w => w) ltac:(done) w Hw) as Hsafe.
    unfold transcribe_range, eff_map_err, eff_bind, eff_ret.
    destruct (run_chunks _ _ _ _ w) as [[[t u]|e] w']; cbn; [apply Hsafe|].
    destruct Hsafe as [_ [->|Hf]]; [by left|right; exact Hf].
Qed.

(** A loop over chunks and further ones. *)
Lemma run_loop_app `{UnicodeTables} {W} (ports : Ports.t W) scope observer request planned st chunks more w :
  run_loop ports scope observer request planned st (chunks ++ more) w
  = eff_bind (run_loop ports scope observer request planned st chunks)
      (fun st' => run_loop ports scope observer request planned st' more) w.
Proof.
  revert st w. induction chunks as [|chunk chunks IH]; intros st w; [done|]. cbn [run_loop app].
  unfold eff_bind in *.
  destruct (chunk_step _ _ _ _ _ _ _ w) as [[st'|e] w']; [|done]. by rewrite IH.
Qed.

Lemma planned_few request chunks :
  ChunkPlan.wf (TranscribeRangeRequest.plan request) -> TimeRange.wf (TranscribeRangeRequest.range request) ->
  plan_run request = Ok chunks -> Z.of_nat (length chunks) <= MAX_PLANNED_CHUNKS.
Proof.
  intros Hplan Hrange Hp. destruct (planned_are request Hplan Hrange chunks Hp) as [E Hcount].
  rewrite E, length_fmap, length_seqZ. pose proof (count_pos _ _ Hplan Hrange). lia.
Qed.

(** What the loop over what is heard says of the chunks of a run. *)
Lemma heard_from_start `{UnicodeTables} request pcm_of answer chunks k :
  ChunkPlan.wf (TranscribeRangeRequest.plan request) -> TimeRange.wf (TranscribeRangeRequest.range request) ->
  plan_run request = Ok chunks -> (k <= length chunks)%nat ->
  let n := Z.of_nat (length chunks) in
  match heard_loop request pcm_of answer (count_u32 n) Gathered.empty 0 (take k chunks) with
  | Ok g => g = gather request pcm_of answer Gathered.empty (take k chunks) /\ ~ certain request pcm_of answer n (take k chunks)
  | Err e => exists m, decided_at request pcm_of answer chunks m /\ (m <= k)%nat
                       /\ verdict_on request pcm_of answer n (take m chunks) e
  end.
Proof.
  intros Hplan Hrange Hp Hk n. pose proof (planned_few request chunks Hplan Hrange Hp) as Hlen.
  assert (Hn : count_u32 n = n) by (unfold count_u32, MAX_PLANNED_CHUNKS in *; rewrite (proj2 (Z.leb_le _ _)); [done|ulia]).
  rewrite Hn. pose proof (heard_loop_spec request pcm_of answer n Gathered.empty [] (take k chunks)) as Hloop.
  cbn [app] in Hloop. specialize (Hloop ltac:(done) ltac:(rewrite length_take; lia) Hlen (certain_from_start _ _ _ n ltac:(lia))).
  change (Z.of_nat (length [])) with 0 in Hloop.
  destruct (heard_loop _ _ _ _ _ _ _) as [g|e]; [exact Hloop|].
  destruct Hloop as (m & Hm & Hcert & Hbefore & Hv). rewrite length_take in Hm. exists m.
  rewrite take_take in Hcert, Hv. replace (m `min` k)%nat with m in Hcert, Hv by lia.
  split; [|by split; [lia|]]. split; [lia|]. split; [exact Hcert|]. intros j Hj. specialize (Hbefore j Hj).
  rewrite take_take in Hbefore. by replace (j `min` k)%nat with j in Hbefore by lia.
Qed.

(** A run, with or without checkpoints, is judged by the majority of its
    answers. It gives a transcription only when at most half of the answers in
    the whole run are unusable, and that transcription is made of all of them.
    It fails as malformed output exactly when more than half are, at the first
    chunk that makes that certain whatever the chunks after it answer: the
    verdict counts the answers up to that chunk and names the first unusable
    one, and the loop over the chunks is the loop over those up to there, so that
    no later chunk is decoded, recognised or reported. Every other failure is one
    of the host, after which the job may be resumed, or one that the end of such a
    run gives. Claim C19. *)
Theorem run_judged_by_majority `{UnicodeTables} {W} request pcm_of answer key held seeded kept may_fail
    (ports : Ports.t W) scope observer chunks :
  ChunkPlan.wf (TranscribeRangeRequest.plan request) -> TimeRange.wf (TranscribeRangeRequest.range request) ->
  plan_run request = Ok chunks ->
  ports_laws request pcm_of answer held seeded kept may_fail ports ->
  (forall s, scope = Some s -> scope_laws key held seeded kept may_fail s) ->
  observer_law request pcm_of answer key held seeded kept observer ->
  let n := Z.of_nat (length chunks) in
  let majority := count_of (is_answered request pcm_of answer) chunks < 2 * count_of (is_unusable request pcm_of answer) chunks in
  (forall w, sound_world request pcm_of answer key held seeded kept w ->
     match (run_chunks ports scope observer request w).1 with
     | Ok (transcription, _) =>
         ~ majority /\ finish request (gather request pcm_of answer Gathered.empty chunks) = Ok transcription
     | Err e =>
         (majority /\ exists k, decided_at request pcm_of answer chunks k
                               /\ verdict_on request pcm_of answer n (take k chunks) e)
         \/ (may_fail /\ interrupted e)
         \/ (~ majority
             /\ map_err AsrRunFailure.from (finish request (gather request pcm_of answer Gathered.empty chunks)) = Err e)
     end)
  /\ forall k w st, decided_at request pcm_of answer chunks k ->
       sound_world request pcm_of answer key held seeded kept w ->
       gathered st = Gathered.empty -> completed st = 0 ->
       run_loop ports scope observer request chunks st chunks w
       = run_loop ports scope observer request chunks st (take k chunks) w.
Proof.
  intros Hplan Hrange Hp Hports Hscope Hobs n majority.
  assert (Hmaj : certain request pcm_of answer n (take (length chunks) chunks) <-> majority)
    by (rewrite firstn_all; unfold certain, majority; subst n; lia).
  split.
  - intros w Hw. pose proof (heard_from_start request pcm_of answer chunks (length chunks) Hplan Hrange Hp (le_n _)) as Hheard.
    pose proof (run_safe request pcm_of answer key held seeded kept Hplan Hrange may_fail ports Hports scope Hscope observer Hobs w Hw) as Hsafe.
    unfold heard_run in Hsafe. rewrite Hp in Hsafe. cbn [map_err result_bind] in Hsafe. rewrite firstn_all in Hheard, Hmaj.
    fold n in Hsafe. cbn zeta in Hheard. fold n in Hheard.
    destruct (heard_loop _ _ _ _ _ _ _) as [g|e']; cbn [result_bind] in Hsafe.
    + destruct Hheard as [-> Hno]. destruct (run_chunks _ _ _ _ w) as [[[t u]|e] w']; cbn [fst] in *.
      * split; [tauto|]. destruct Hsafe as [_ Hsafe%map_err_Ok]. exact Hsafe.
      * destruct Hsafe as [_ [Hsafe|Hsafe]]; [|auto]. right. right. split; [tauto|done].
    + destruct Hheard as (k & Hk & _ & Hv). destruct (run_chunks _ _ _ _ w) as [[[t u]|e] w']; cbn [fst] in *.
      * by destruct Hsafe.
      * destruct Hsafe as [_ [[= ->]|Hsafe]]; [|auto]. left. split; [|by exists k]. apply Hmaj.
        destruct Hk as (_ & Hk & _). rewrite <- (take_drop k chunks). by apply certain_app.
  - intros k w st Hk Hw Eg Ec. pose proof (proj1 Hk) as Hlen. rewrite <- (take_drop k chunks) at 2. rewrite run_loop_app. unfold eff_bind.
    pose proof (loop_safe request pcm_of answer key held seeded kept Hplan Hrange may_fail ports Hports scope Hscope observer Hobs
      chunks Hp st 0 (take k chunks) (drop k chunks)) as Hsafe.
    rewrite take_drop, drop_0, Eg, Ec in Hsafe. specialize (Hsafe eq_refl eq_refl w Hw).
    pose proof (heard_from_start request pcm_of answer chunks k Hplan Hrange Hp Hlen) as Hheard. cbn zeta in Hheard.
    destruct (run_loop _ _ _ _ _ _ (take k chunks) w) as [[st'|e] w']; [|done]. destruct Hsafe as [_ Hok].
    rewrite Hok in Hheard. destruct Hheard as [_ Hno]. destruct Hk as (_ & Hk & _). contradiction.
Qed.

(** ** Examples

    A world that is its checkpoints, the newest first; a tenth of a second of
    sound in every chunk, and a recognizer that may fail at one chunk. *)

Definition sample_pcm (chunk : PlannedChunk.t) : SpeechPcm.t :=
  SpeechPcm.mk (TimeRange.start (PlannedChunk.window chunk)) (replicate 1600 1000).

Definition sample_answer (chunk : PlannedChunk.t) (pcm : SpeechPcm.t) : ProviderChunkOutput.t :=
  ProviderChunkOutput.mk None
    [ProviderSegment.mk 10000 90000 (Some (CueText.mk (literal "hello") None)) []].

Definition sample_identity : RecognizerIdentity.t :=
  RecognizerIdentity.mk (AsrProviderBuild.mk WhisperCpp (Sha256Hex.mk [])) (AsrModel.mk Base (Sha256Hex.mk [])) R0V1 4.

Definition run_request : TranscribeRangeRequest.t :=
  TranscribeRangeRequest.mk sample_source (TimeRange.mk 0 61000000) ChunkPlan.R0 0 sample_identity.

Definition sample_world : Type := list ChunkCheckpoint.t.

Definition sample_ports (fails_at : option Z) : Ports.t sample_world :=
  Ports.mk _ (fun chunk w => (Ok (sample_pcm chunk), w)) (fun w => (Ok sample_identity, w))
    (fun chunk pcm w =>
       if bool_decide (fails_at = Some (PlannedChunk.index chunk)) then (Err SpeechRecognitionError.Deadline, w)
       else (Ok (sample_answer chunk pcm), w))
    (fun w => (false, w)).

Definition sample_scope : CheckpointScope.t sample_world :=
  CheckpointScope.mk _
    (fun index w => (match List.find (fun c => ChunkCheckpoint.index c =? index) w with
                     | Some c => Found c
                     | None => Absent
                     end, w))
    (fun c w => (true, c :: w))
    (fun index w => filter (fun c => ChunkCheckpoint.index c <> index) w)
    (RecognitionKey.mk (Sha256Hex.mk [])) (fun _ w => w) (fun _ w => w) (fun w => (0, w)) None None.

Definition sample_held (w : sample_world) (c : ChunkCheckpoint.t) : Prop := c ∈ w.
Definition nothing_else (w : sample_world) : Prop := True.
Definition never_seeded (w : sample_world) (window : TimeRange.t) (o : CheckpointOutcome.t) : Prop := False.

Lemma sample_ports_laws may_fail fails_at :
  (is_Some fails_at -> may_fail) ->
  ports_laws run_request (fun chunk => Some (sample_pcm chunk)) sample_answer sample_held never_seeded nothing_else may_fail
    (sample_ports fails_at).
Proof.
  intros Hf. constructor; cbn; [done|done| |done]. intros chunk pcm w. case_bool_decide as Hat; [|done].
  split; [|done]. apply Hf. by rewrite Hat.
Qed.

Lemma sample_scope_laws may_fail :
  scope_laws (CheckpointScope.key sample_scope) sample_held never_seeded nothing_else may_fail sample_scope.
Proof.
  constructor; cbn; try done.
  - intros index w. split; [|done]. intros c.
    destruct (List.find _ w) as [c'|] eqn:E; [|done]. intros [= <-]. apply List.find_some in E as [Hin _].
    unfold sample_held. by apply list_elem_of_In.
  - intros c w. split; [|done]. intros c'. unfold sample_held. rewrite elem_of_cons. tauto.
  - intros index w. split; [|done]. intros c. unfold sample_held. by intros [_ Hin]%list_elem_of_filter.
Qed.

Definition sample_attempt (fails_at : option Z) (w : sample_world) :=
  transcribe_range_checkpointed (H := ascii_tables) (sample_ports fails_at) sample_scope run_request w.

(** An attempt that fails at its second chunk, and the next, which takes the
    first chunk from its checkpoint and ends as a run from nothing would. *)
Lemma resumed_run_is_the_same_witness :
  let first := sample_attempt (Some 1) [] in
  let second := sample_attempt None first.2 in
  first.1 = Err (failure_at 1 (AsrFailure.at_ AsrStage.Recognition AsrFailureReason.Deadline))
  /\ exists transcription, second.1 = Ok (transcription, CheckpointUse.mk 1 0)
       /\ heard_run (H := ascii_tables) run_request (fun chunk => Some (sample_pcm chunk)) sample_answer = Ok transcription.
Proof.
  cbn zeta.
  destruct (resumed_run_is_the_same (H := ascii_tables) run_request (fun chunk => Some (sample_pcm chunk))
    sample_answer (CheckpointScope.key sample_scope) sample_held never_seeded nothing_else False (sample_ports None) sample_scope
    [] (sample_attempt (Some 1) []).2) as [Hend _].
  - concrete.
  - concrete.
  - split; [done|]. intros chunks chunk _ _. split; [intros c Hc; by apply elem_of_nil in Hc|done].
  - eapply rtc_once. right. exists (sample_ports (Some 1)), sample_scope.
    split; [by apply sample_ports_laws|]. split; [apply sample_scope_laws|]. split; [done|reflexivity].
  - apply sample_ports_laws. by intros [? ?].
  - apply sample_scope_laws.
  - done.
  - assert (Hboth : (sample_attempt (Some 1) []).1
              = Err (failure_at 1 (AsrFailure.at_ AsrStage.Recognition AsrFailureReason.Deadline))
            /\ snd <$> result_ok (sample_attempt None (sample_attempt (Some 1) []).2).1 = Some (CheckpointUse.mk 1 0))
      by (vm_compute; by split).
    destruct Hboth as [Hfirst Hsecond]. split; [exact Hfirst|].
    unfold sample_attempt in *. destruct (transcribe_range_checkpointed (sample_ports None) _ _ _) as [[[t u]|e] w'].
    + cbn in Hsecond. injection Hsecond as ->. exists t. by split.
    + done.
Defined.

(** A recognizer whose segments are out of order: the run ends after two of its
    three chunks. *)
Definition garbled_answer (chunk : PlannedChunk.t) (pcm : SpeechPcm.t) : ProviderChunkOutput.t :=
  ProviderChunkOutput.mk None
    [ProviderSegment.mk 50000 90000 None []; ProviderSegment.mk 10000 20000 None []].

Definition garbled_ports : Ports.t sample_world :=
  Ports.mk _ (fun chunk w => (Ok (sample_pcm chunk), w)) (fun w => (Ok sample_identity, w))
    (fun chunk pcm w => (Ok (garbled_answer chunk pcm), w)) (fun w => (false, w)).

Definition garbled_chunks : list PlannedChunk.t := default [] (result_ok (plan_run run_request)).

Definition garbled_start : Running := mkRunning Gathered.empty CheckpointUse.default 0 None true.

#[local] Abbreviation garbled_loop chunks :=
  (run_loop (H := ascii_tables) garbled_ports (Some sample_scope) (CheckpointScope.chunk_finished sample_scope)
     run_request garbled_chunks garbled_start chunks []) (only parsing).
#[local] Abbreviation garbled_run :=
  (run_chunks (H := ascii_tables) garbled_ports (Some sample_scope) (CheckpointScope.chunk_finished sample_scope)
     run_request []) (only parsing).

(** Its verdict counts two answers of three chunks, and the world holds the
    checkpoints of the two. *)
Definition ends_after_two (r : result (AsrTranscription.t * CheckpointUse.t) AsrRunFailure.t * sample_world) : Prop :=
  match r.1 with
  | Err (AsrRunFailure.mk (AsrFailure.at_ AsrStage.OutputValidation (AsrFailureReason.MalformedOutput v)) (Some 0)) =>
      UnusableChunks.unusable v = 2 /\ UnusableChunks.answered v = 2 /\ UnusableChunks.planned v = 3
  | _ => False
  end /\ length r.2 = 2%nat.

Lemma run_judged_by_majority_witness :
  length garbled_chunks = 3%nat /\ ends_after_two garbled_run
  /\ match garbled_run.1 with
     | Ok _ => False
     | Err e =>
         (exists k, decided_at (H := ascii_tables) run_request (fun chunk => Some (sample_pcm chunk)) garbled_answer garbled_chunks k
            /\ verdict_on (H := ascii_tables) run_request (fun chunk => Some (sample_pcm chunk)) garbled_answer 3
                 (take k garbled_chunks) e)
         \/ (False /\ interrupted e)
     end
  /\ garbled_loop garbled_chunks = garbled_loop (take 2 garbled_chunks).
Proof.
  destruct (run_judged_by_majority (H := ascii_tables) run_request (fun chunk => Some (sample_pcm chunk)) garbled_answer
    (CheckpointScope.key sample_scope) sample_held never_seeded nothing_else False garbled_ports (Some sample_scope)
    (CheckpointScope.chunk_finished sample_scope) garbled_chunks) as [Hverdict Hloop].
  - concrete.
  - concrete.
  - vm_compute. reflexivity.
  - by constructor.
  - intros s [= <-]. apply sample_scope_laws.
  - by intros chunks k all_checkpointed w _ _ _.
  - assert (Hsound : sound_world (H := ascii_tables) run_request (fun chunk => Some (sample_pcm chunk)) garbled_answer
      (CheckpointScope.key sample_scope) sample_held never_seeded nothing_else [])
      by (split; [done|]; intros chunks chunk _ _; split; [intros c Hc; by apply elem_of_nil in Hc|done]).
    assert (Hmajority : count_of (is_answered (H := ascii_tables) run_request (fun chunk => Some (sample_pcm chunk)) garbled_answer)
        garbled_chunks < 2 * count_of (is_unusable (H := ascii_tables) run_request (fun chunk => Some (sample_pcm chunk))
          garbled_answer) garbled_chunks) by (vm_compute; reflexivity).
    split; [vm_compute; reflexivity|]. split; [vm_compute; by repeat split|]. split.
    + specialize (Hverdict [] Hsound). destruct (garbled_run.1) as [[t u]|e]; [exact (proj1 Hverdict Hmajority)|].
      destruct Hverdict as [[_ Hv]|[Hv|[Hv _]]]; [left; exact Hv|right; exact Hv|destruct (Hv Hmajority)].
    + apply (Hloop 2%nat [] garbled_start); [|exact Hsound|reflexivity|reflexivity].
      split; [vm_compute; lia|]. split; [vm_compute; reflexivity|].
      intros [|[|j]] Hj; [vm_compute; discriminate..|lia].
Defined.

(** A run whose checkpoints cannot be stored, with a seed that gives every
    answer: after each chunk it is told to hold a stored checkpoint of every
    finished chunk, and it holds none. *)
Definition seeded_scope : CheckpointScope.t (list bool) :=
  CheckpointScope.mk _ (fun _ w => (Absent, w)) (fun _ w => (false, w)) (fun _ w => w)
    (RecognitionKey.mk (Sha256Hex.mk [])) (fun _ w => w)
    (fun so_far w => w ++ [RunSoFar.all_checkpointed so_far]) (fun w => (0, w))
    (Some (SeedPort.mk _ (fun _ _ _ w => w) (fun _ _ w => (Some CheckpointOutcome.NoAudio, w))
             (RecognitionKey.mk (Sha256Hex.mk [])))) None.

Definition silent_ports : Ports.t (list bool) :=
  Ports.mk _ (fun _ w => (Err SpeechAudioError.NoAudio, w)) (fun w => (Ok sample_identity, w))
    (fun _ _ w => (Err SpeechRecognitionError.Io, w)) (fun w => (false, w)).

Lemma seeded_chunks_count_as_kept :
  (transcribe_range_checkpointed (H := ascii_tables) silent_ports seeded_scope run_request []).2 = [true; true; true].
Proof. vm_compute. reflexivity. Qed.
