(* ===== verification/TranscribePublish.v ===== *)
(** * TranscribePublish: what a run may publish while it works

    Connects the run of Transcribe.v with the revisions of RevisionBuild.v and
    RevisionGrowth.v: what a run has so far after a chunk
    ([RunSoFar::open]) and what it ends with are requests that those revisions
    are built of, and the first is a part of the second for good. *)

From S2P Require Import Prelude.
From S2P Require Import Text.
From S2P Require Import Chars.
From S2P Require Import Timeline.
From S2P Require Import Spans.
From S2P Require Import MinQueue.
From S2P Require Import JoinNearest.
From S2P Require Import SpanSet.
From S2P Require Import Identity.
From S2P Require Import AsrPlan.
From S2P Require Import AsrRun.
From S2P Require Import Cues.
From S2P Require Import AsrOutput.
From S2P Require Import SeamWords.
From S2P Require Import SeamRules.
From S2P Require Import SeamGuard.
From S2P Require Import SeamMerge.
From S2P Require Import SeamLocal.
From S2P Require Import Settled.
From S2P Require Import Revision.
From S2P Require Import Coverage.
From S2P Require Import DerivedIdentity.
From S2P Require Import RevisionBuild.
From S2P Require Import RevisionGrowth.
From S2P Require Import Checkpoint.
From S2P Require Import Transcribe.
From S2P Require Import TranscribeResume.

Lemma decoded_audio_range_spec start samples r :
  is_u64 start -> 0 <= samples -> decoded_audio_range start samples = Some r ->
  TimeRange.wf r /\ TimeRange.start r = start.
Proof.
  intros Hs Hn. unfold decoded_audio_range.
  destruct (checked_u64 (samples * MICROS_PER_SECOND)) as [scaled|] eqn:E1; [|done]. cbn [mbind option_bind].
  destruct (checked_u64 (start + scaled / SPEECH_SAMPLE_RATE)) as [end_|] eqn:E2; [|done]. cbn [mbind option_bind].
  unfold TimeRange.new. destruct (Z.leb_spec end_ start); [done|]. cbn. intros [= <-].
  apply checked_Some in E2 as [-> ?].
  split; [|done]. unfold TimeRange.wf. cbn. ulia.
Qed.

Lemma take_while_elem {A} (p : A -> bool) (l : list A) a : a ∈ take_while p l -> a ∈ l.
Proof.
  induction l as [|b l IH]; cbn; [done|]. destruct (p b); [|by intros ?%elem_of_nil].
  rewrite !elem_of_cons. naive_solver.
Qed.

Section Publish.
Context `{UnicodeTables} (request : TranscribeRangeRequest.t).
Context (pcm_of : PlannedChunk.t -> option SpeechPcm.t).
Context (answer : PlannedChunk.t -> SpeechPcm.t -> ProviderChunkOutput.t).

Let source : SourceSegment.t := TranscribeRangeRequest.source_segment request.
Let range : TimeRange.t := TranscribeRangeRequest.range request.
Let plan : ChunkPlan.t := TranscribeRangeRequest.plan request.

(** What is asked of the request and of the ports: the numbers are [u64]s. *)
Context (Hplan : ChunkPlan.wf plan) (Hrange : TimeRange.wf range) (Hsource : TimeRange.wf (SourceSegment.range source)).
Context (chunks : list PlannedChunk.t).
Context (Hpcm : forall chunk pcm, chunk ∈ chunks -> pcm_of chunk = Some pcm -> is_u64 (SpeechPcm.actual_start pcm)).
Context (Hanswer : forall chunk pcm, Forall AsrOutput.segment_typed (ProviderChunkOutput.segments (answer chunk pcm))).
Context (Hchunks : plan_run request = Ok chunks).

Let became (chunk : PlannedChunk.t) : ChunkResult := (heard request pcm_of answer chunk).1.

(** ** What is gathered *)

Definition outcome_of (r : ChunkResult) : AsrChunkOutcome :=
  match r with
  | Gap outcome => outcome
  | TranscribedChunk audio _ => Transcribed audio
  | UnusableAnswer audio _ => Unusable audio
  end.

Definition segments_of (chunk : PlannedChunk.t) (r : ChunkResult) : ChunkSegments.t :=
  match r with
  | TranscribedChunk _ validated => (into_parts validated).1.1
  | _ => empty_chunk chunk
  end.

Definition record_of (chunk : PlannedChunk.t) : AsrChunkRecord.t :=
  AsrChunkRecord.mk chunk (outcome_of (became chunk)).
Definition input_of (chunk : PlannedChunk.t) : ChunkSegments.t := segments_of chunk (became chunk).

Lemma gather_spec g l :
  let g' := gather request pcm_of answer g l in
  Gathered.records g' = Gathered.records g ++ (record_of <$> l)
  /\ Gathered.merge_input g' = Gathered.merge_input g ++ (input_of <$> l).
Proof.
  cbn zeta. revert g. induction l as [|c l IH]; intros g; [by rewrite !app_nil_r|].
  destruct (IH (Gathered.take g c (became c))) as [IH1 IH2].
  assert (Htake : Gathered.records (Gathered.take g c (became c)) = Gathered.records g ++ [record_of c]
                  /\ Gathered.merge_input (Gathered.take g c (became c)) = Gathered.merge_input g ++ [input_of c]).
  { unfold record_of, input_of. by destruct (became c). }
  destruct Htake as [T1 T2]. rewrite T1 in IH1. rewrite T2 in IH2. rewrite !fmap_cons.
  rewrite <- app_assoc in IH1, IH2. by split.
Qed.

(** ** What a chunk becomes *)

(** A segment of a chunk, as its validation leaves it. *)
Record draft_good (audio : TimeRange.t) (d : AsrSegmentDraft.t) : Prop := {
  draft_range : TimeRange.wf (AsrSegmentDraft.range d);
  draft_in_audio : range_within (AsrSegmentDraft.range d) audio;
  draft_in_source : range_within (AsrSegmentDraft.range d) (SourceSegment.range source);
  draft_times : is_u64 (AsrSegmentDraft.provider_start d) /\ is_u64 (AsrSegmentDraft.provider_end d);
  draft_placed : asr_source_range audio (AsrSegmentDraft.provider_start d) (AsrSegmentDraft.provider_end d)
                   (AsrSegmentDraft.trimmed d) = Some (AsrSegmentDraft.range d);
  draft_score : Confidence.origin (AsrSegmentDraft.confidence d) <> ProviderCalibrated
}.

Record became_good (chunk : PlannedChunk.t) : Prop := {
  good_audio : forall audio, RunSoFar.audio_of (outcome_of (became chunk)) = Some audio -> TimeRange.wf audio;
  good_heard : outcome_of (became chunk) <> Pending /\ outcome_of (became chunk) <> NotReached;
  good_chunk : ChunkSegments.chunk (input_of chunk) = chunk;
  good_segments : forall d, d ∈ ChunkSegments.segments (input_of chunk) ->
    exists audio, outcome_of (became chunk) = Transcribed audio /\ draft_good audio d;
  good_unplaced : forall r, r ∈ ChunkSegments.unplaced (input_of chunk) ->
    exists audio, outcome_of (became chunk) = Transcribed audio /\ TimeRange.wf r
      /\ range_within r (PlannedChunk.window chunk) /\ range_within r (SourceSegment.range source)
      /\ range_within r audio
}.

Lemma gap_good chunk outcome :
  became chunk = Gap outcome ->
  (forall audio, RunSoFar.audio_of outcome = Some audio -> TimeRange.wf audio) ->
  outcome <> Pending /\ outcome <> NotReached ->
  became_good chunk.
Proof.
  intros E Ha Hp. unfold input_of. constructor; unfold input_of; rewrite E; cbn; try done.
  - by intros d ?%elem_of_nil.
  - by intros r ?%elem_of_nil.
Qed.

Lemma planned_good chunk :
  chunk ∈ chunks ->
  exists k, chunks !! k = Some chunk /\ PlannedChunk.index chunk = Z.of_nat k /\ Z.of_nat k < 1024
    /\ PlannedChunk.source_segment chunk = SourceSegment.id source
    /\ TimeRange.wf (PlannedChunk.window chunk) /\ range_within (PlannedChunk.window chunk) range.
Proof.
  intros Hin. destruct (planned_are request Hplan Hrange chunks Hchunks) as [E Hcount].
  pose proof (chunks_cut (SourceSegment.id source) plan range Hplan Hrange) as (Hall & _).
  unfold plan, range, source in Hall. rewrite <- E in Hall.
  apply list_elem_of_lookup in Hin as [k Hk]. exists k. destruct (Hall k chunk Hk) as (H1 & H2 & H3 & H4 & H5 & _).
  split; [done|]. split; [done|]. split; [|split; [exact H2|split; [exact H3|split; [exact H4|exact H5]]]].
  apply lookup_lt_Some in Hk. rewrite E, length_fmap, length_seqZ in Hk. unfold MAX_PLANNED_CHUNKS in Hcount. lia.
Qed.

Lemma no_calibration tokens : Confidence.origin (mean_text_confidence tokens) <> ProviderCalibrated.
Proof.
  unfold mean_text_confidence. destruct (negb _); [done|]. unfold Confidence.provider_score.
  destruct (_ <? _); [done|]. by case_bool_decide.
Qed.

(** What a chunk can become. *)
Lemma became_cases chunk :
  chunk ∈ chunks ->
  became chunk = Gap NoAudio
  \/ exists pcm audio, TimeRange.wf audio
       /\ (became chunk = Gap (Silent audio) \/ became chunk = (judged request chunk audio (answer chunk pcm)).1).
Proof.
  intros Hin. unfold became, heard. destruct (PlannedChunk.is_below_recognition_floor chunk); [by left|].
  destruct (pcm_of chunk) as [pcm|] eqn:Ep; [|by left]. cbn [mbind option_bind].
  destruct (audio_found pcm) as [[pcm' audio]|] eqn:Ea; [|by left]. unfold audio_found in Ea.
  destruct (decoded_audio_range _ _) as [a|] eqn:Ed; [|done]. injection Ea as <- <-.
  apply decoded_audio_range_spec in Ed as [Hw _]; [|exact (Hpcm chunk pcm Hin Ep)|lia].
  right. exists pcm, a. split; [exact Hw|]. destruct (_ || _); [by left|by right].
Qed.

Lemma heard_good chunk : chunk ∈ chunks -> became_good chunk.
Proof.
  intros Hin. destruct (planned_good chunk Hin) as (k & _ & Hidx & Hk & _ & Hw & _).
  destruct (became_cases chunk Hin) as [E|(pcm & audio & Ha & [E|E])].
  { by apply (gap_good chunk NoAudio). }
  { apply (gap_good chunk (Silent audio)); [done| |done]. by intros ? [= <-]. }
  unfold judged in E. destruct (validate_chunk_output _ _ _ _) as [v|e] eqn:Ev; cbn in E.
  2:{ constructor; unfold input_of; rewrite E; cbn; try done.
      - by intros ? [= <-].
      - by intros d ?%elem_of_nil.
      - by intros r ?%elem_of_nil. }
  destruct (chunk_output_spec chunk audio (SourceSegment.range source) (answer chunk pcm) v Ha Hsource Hw
              ltac:(rewrite Hidx; ulia) (Hanswer chunk pcm) Ev) as (Hsegs & _ & _ & Hun & _).
  assert (Hv : ValidatedChunk.chunk v = chunk).
  { unfold validate_chunk_output in Ev. destruct (_ <? _); [done|]. destruct (check_structure _ _); [|done].
    cbn [result_bind] in Ev. destruct (rejections_make_chunk_unusable _ _); [done|]. by injection Ev as <-. }
  constructor; unfold input_of; rewrite E; cbn; try done.
  - by intros ? [= <-].
  - intros d Hd. exists audio. split; [done|]. rewrite Hsegs in Hd.
    apply list_elem_of_omap in Hd as (s & Hs & Ed). pose proof (Hanswer chunk pcm) as Hty.
    rewrite Forall_forall in Hty. specialize (Hty s Hs).
    destruct (draft_of_spec _ _ _ _ Ha Hty Ed) as (D1 & D2 & D3 & D4 & D5 & D6).
    unfold draft_of in Ed. destruct (spoken_text s); [|done]. cbn [mbind option_bind] in Ed.
    destruct (placed_range _ _ s); [|done]. cbn [mbind option_bind] in Ed. injection Ed as <-.
    constructor; try done. apply no_calibration.
  - intros r Hr. exists audio. rewrite Forall_forall in Hun. by destruct (Hun r Hr) as (? & ? & ? & ?).
Qed.

(** ** What is settled of a run *)

Let early : Z := MAX_EARLY_AUDIO_MICROS.
Context (Hwide : SEAM_EDGE_MICROS <= ChunkPlan.window_us plan).

(** The audio of every chunk begins in time. *)
Definition began_in_time : Prop :=
  forall chunk audio, chunk ∈ chunks -> RunSoFar.audio_of (outcome_of (became chunk)) = Some audio ->
    TimeRange.start (PlannedChunk.window chunk) <= saturating_u64 (TimeRange.start audio + early).

Lemma began_spec b :
  RunSoFar.audio_began_in_time (so_far request pcm_of answer chunks (length chunks) b) early = true <-> began_in_time.
Proof.
  unfold RunSoFar.audio_began_in_time, so_far, began_in_time. cbn [RunSoFar.gathered].
  rewrite take_ge by lia. destruct (gather_spec Gathered.empty chunks) as [-> _]. cbn [app Gathered.records Gathered.empty].
  rewrite forallb_forall. split.
  - intros Hall chunk audio Hin Ha. specialize (Hall (record_of chunk)).
    rewrite <- list_elem_of_In in Hall. specialize (Hall (list_elem_of_fmap_2 record_of chunks chunk Hin)).
    cbn in Hall. rewrite Ha in Hall. by apply Z.leb_le.
  - intros Hall r Hr. apply list_elem_of_In, list_elem_of_fmap in Hr as (chunk & -> & Hin). cbn.
    destruct (RunSoFar.audio_of _) as [audio|] eqn:Ea; [|done]. apply Z.leb_le. by apply Hall.
Qed.

Context (Hbegan : began_in_time).

Lemma window_start (k : nat) chunk :
  chunks !! k = Some chunk ->
  TimeRange.start (PlannedChunk.window chunk)
  = TimeRange.start range + Z.of_nat k * (ChunkPlan.window_us plan - ChunkPlan.overlap_us plan).
Proof.
  destruct (planned_are request Hplan Hrange chunks Hchunks) as [E _]. intros Hk. rewrite E in Hk.
  by apply chunks_lookup in Hk as [_ ->].
Qed.

Lemma windows_ordered (j k : nat) chunk chunk' :
  (j <= k)%nat -> chunks !! j = Some chunk -> chunks !! k = Some chunk' ->
  TimeRange.start (PlannedChunk.window chunk) <= TimeRange.start (PlannedChunk.window chunk').
Proof.
  intros Hjk Hj Hk. rewrite (window_start j chunk Hj), (window_start k chunk' Hk).
  destruct Hplan as (_ & ? & ?). nia.
Qed.

Lemma input_elem (l : list PlannedChunk.t) c : c ∈ input_of <$> l -> exists chunk, chunk ∈ l /\ c = input_of chunk.
Proof. intros (chunk & -> & Hin)%list_elem_of_fmap. by exists chunk. Qed.

Section At.
Context (k : nat) (next : PlannedChunk.t) (Hnext : chunks !! k = Some next).
Let finished := input_of <$> take k chunks.
Let rest := input_of <$> drop k chunks.

Lemma dropped_after chunk :
  chunk ∈ drop k chunks ->
  chunk ∈ chunks /\ TimeRange.start (PlannedChunk.window next) <= TimeRange.start (PlannedChunk.window chunk).
Proof.
  intros Hin. apply list_elem_of_lookup in Hin as [j Hj]. rewrite lookup_drop in Hj.
  split; [by apply list_elem_of_lookup_2 in Hj|]. by apply (windows_ordered k (k + j)); [lia| |].
Qed.

Lemma reach_before chunk audio :
  chunk ∈ drop k chunks -> outcome_of (became chunk) = Transcribed audio -> reach_of next early <= TimeRange.start audio.
Proof.
  intros [Hin Hw]%dropped_after Ho. destruct (good_audio _ (heard_good chunk Hin) audio) as (Ha & _); [by rewrite Ho|].
  pose proof (Hbegan chunk audio Hin) as Hb. rewrite Ho in Hb. specialize (Hb eq_refl).
  unfold reach_of, early, MAX_EARLY_AUDIO_MICROS in *. ulia.
Qed.

Lemma published_goes_on : run_goes_on finished rest next (reach_of next early).
Proof.
  assert (Hall : finished ++ rest = input_of <$> chunks) by (unfold finished, rest; by rewrite <- fmap_app, take_drop).
  assert (Hhead : exists tl, drop k chunks = next :: tl) by (exists (drop (S k) chunks); by apply drop_S).
  constructor.
  - rewrite Hall. apply Forall_fmap, Forall_forall. intros chunk Hin. pose proof (heard_good chunk Hin) as Hg.
    split; apply Forall_forall; [intros d Hd|intros r Hr].
    + destruct (good_segments _ Hg d Hd) as (audio & _ & Hd'). apply Hd'.
    + destruct (good_unplaced _ Hg r Hr) as (audio & _ & Hr' & _). exact Hr'.
  - rewrite Hall. apply Forall_fmap, Forall_forall. intros chunk Hin. cbn.
    rewrite (good_chunk _ (heard_good chunk Hin)). destruct (planned_good chunk Hin) as (j & _ & -> & ? & _). ulia.
  - destruct Hhead as (tl & E). unfold rest. rewrite E. cbn.
    rewrite (good_chunk _ (heard_good next (list_elem_of_lookup_2 _ _ _ Hnext))). done.
  - apply Forall_fmap, Forall_forall. intros chunk Hc. destruct (dropped_after chunk Hc) as [Hin Hw]. cbn.
    unfold ChunkSegments.window. rewrite (good_chunk _ (heard_good chunk Hin)).
    destruct (planned_good chunk Hin) as (j & _ & _ & _ & _ & Hwf & _). split; [exact Hwf|].
    destruct Hwf as (? & _). unfold reach_of, early, MAX_EARLY_AUDIO_MICROS. ulia.
  - intros d c Hc Hd. apply input_elem in Hc as (chunk & Hc & ->). destruct (dropped_after chunk Hc) as [Hin _].
    destruct (good_segments _ (heard_good chunk Hin) d Hd) as (audio & Ho & Hg).
    pose proof (reach_before chunk audio Hc Ho). destruct (draft_in_audio _ _ Hg). unfold span_of, span. cbn. lia.
  - intros r c Hc Hr. apply input_elem in Hc as (chunk & Hc & ->). destruct (dropped_after chunk Hc) as [Hin _].
    destruct (good_unplaced _ (heard_good chunk Hin) r Hr) as (audio & Ho & _ & _ & _ & Hg).
    pose proof (reach_before chunk audio Hc Ho). destruct Hg. lia.
  - intros c Hlast. unfold finished in Hlast. rewrite fmap_last in Hlast.
    destruct (last (take k chunks)) as [chunk|] eqn:El; [|done]. injection Hlast as <-.
    assert (Hk : exists j, k = S j /\ chunks !! j = Some chunk).
    { apply last_Some in El as (l & El). assert (Hlen : length (take k chunks) = k).
      { rewrite length_take. apply lookup_lt_Some in Hnext. lia. }
      rewrite El, length_app in Hlen. cbn in Hlen. exists (length l). split; [lia|].
      rewrite <- (take_drop k chunks), El, <- app_assoc. apply list_lookup_middle. done. }
    destruct Hk as (j & Ek & Hj). unfold ChunkSegments.window.
    rewrite (good_chunk _ (heard_good chunk (list_elem_of_lookup_2 _ _ _ Hj))).
    destruct (planned_are request Hplan Hrange chunks Hchunks) as [E _].
    destruct (chunks_cut (SourceSegment.id source) plan range Hplan Hrange) as (_ & Hnb & _).
    unfold plan, range, source in Hnb. rewrite <- E in Hnb.
    destruct (Hnb j chunk next Hj ltac:(by rewrite <- Ek)) as [Hwin Hover].
    destruct (planned_good chunk (list_elem_of_lookup_2 _ _ _ Hj)) as (_ & _ & _ & _ & _ & (? & ? & ?) & _).
    unfold plan in Hwide. destruct Hplan as (_ & Ho & _). unfold plan in Ho. unfold reach_of, early, MAX_EARLY_AUDIO_MICROS, SEAM_EDGE_MICROS in *. ulia.
Qed.
End At.

(** ** The merge of a run *)

(** The stretches a merge lists lie where the unplaced words of its chunks do. *)
Lemma unplaced_listed (inputs : list ChunkSegments.t) (bounds : TimeRange.t) :
  TimeRange.wf bounds -> chunks_wf inputs -> indices_wf inputs ->
  (forall c r, c ∈ inputs -> r ∈ ChunkSegments.unplaced c -> range_within r bounds) ->
  let listed := MergedTranscript.unplaced (merge_chunks inputs) in
  Forall TimeRange.wf listed /\ canonical (span <$> listed) /\ (length listed <= MAX_UNPLACED_STRETCHES)%nat
  /\ Forall (fun r => range_within r bounds) listed.
Proof.
  intros Hbw Hwf Hi Hin. cbn zeta. destruct (merge_chunks_inv inputs Hwf Hi) as (state & ((keys & _ & Hf) & _) & ->).
  cbn [MergedTranscript.unplaced].
  destruct (stretches_spec inputs state.1 Hwf (copies_ok inputs Hwf keys state.1 Hf))
    as (stretches & -> & Hc & Hty & Hcov).
  set (long := filter _ stretches) in *.
  assert (Hlong : canonical long) by (by apply canon_filter).
  destruct (join_nearest_spec (Q := list entry) long MAX_UNPLACED_STRETCHES None Hlong Hty) as
    (l & Hl & Hlc & _ & Hends & Hlen & _); [done|].
  rewrite Hl. change (default long (Some l)) with l.
  assert (Hspans : span <$> to_ranges l = l) by (apply (spans_of_ranges (-1)); [lia|exact Hlc]).
  assert (Hbounds : Forall (fun s : Span => TimeRange.start bounds <= s.1 /\ s.2 <= TimeRange.end_ bounds) long).
  { apply Forall_forall. intros s [_ Hs]%list_elem_of_filter. pose proof (canon_keys_gt _ _ Hc) as Hpos.
    rewrite Forall_forall in Hpos. destruct (canon_outside (-1) stretches s Hc Hs) as [Hlt _].
    assert (Hat : forall x, in_span s x -> TimeRange.start bounds <= x < TimeRange.end_ bounds).
    { intros x Hx. assert (Hx' : covers stretches x) by (apply Exists_exists; by exists s).
      apply Hcov in Hx' as [Hx' _]. apply Exists_exists in Hx' as (w & Hw & Hxw).
      apply list_elem_of_bind in Hw as (c & Hw & Hci). apply list_elem_of_fmap in Hw as (r & -> & Hr).
      destruct (Hin c r Hci Hr). unfold in_span, span in Hxw. cbn in Hxw. lia. }
    pose proof (Hat s.1 ltac:(unfold in_span; lia)). pose proof (Hat (s.2 - 1) ltac:(unfold in_span; lia)). lia. }
  assert (Hall : Forall (fun s : Span => TimeRange.start bounds <= s.1 /\ s.2 <= TimeRange.end_ bounds) l).
  { apply Forall_forall. intros s Hs. rewrite Forall_forall in Hends, Hbounds.
    destruct (Hends s Hs) as [H1 H2]. apply list_elem_of_fmap in H1 as (a & -> & Ha).
    apply list_elem_of_fmap in H2 as (b & -> & Hb). destruct (Hbounds a Ha), (Hbounds b Hb). lia. }
  assert (Hsound : Forall (fun r => TimeRange.wf r /\ range_within r bounds) (to_ranges l)).
  { apply Forall_forall. intros r Hr. rewrite <- Hspans in Hlc, Hall. rewrite Forall_fmap, Forall_forall in Hall.
    destruct (Hall r Hr) as [H1 H2]. cbn in H1, H2.
    destruct (canon_outside (-1) _ (span r) Hlc) as [Hlt _]; [by apply list_elem_of_fmap_2|]. cbn in Hlt.
    destruct Hbw as (? & ? & ?). split; [|by split]. unfold TimeRange.wf. ulia. }
  apply Forall_and in Hsound as [Hs1 Hs2]. split; [exact Hs1|]. split; [by rewrite Hspans|].
  split; [|exact Hs2]. (rewrite <- (length_fmap span), Hspans; unfold MAX_UNPLACED_STRETCHES in *; lia).
Qed.

(** ** The run as a revision holds it *)

Lemma run_of_is records run :
  run_of request records = Ok run ->
  AsrRun.chunks run = records
  /\ run_settings run
     = (RecognizerIdentity.provider (TranscribeRangeRequest.expected request),
        RecognizerIdentity.model (TranscribeRangeRequest.expected request),
        RecognizerIdentity.decoding (TranscribeRangeRequest.expected request), plan,
        RecognizerIdentity.threads (TranscribeRangeRequest.expected request),
        TranscribeRangeRequest.audio_stream request)
  /\ exists parts, AsrRunParts.plan parts = plan /\ AsrRunParts.chunks parts = records /\ AsrRun.new parts = Ok run.
Proof.
  unfold run_of. intros Hnew%map_err_Ok. pose proof Hnew as Hrun. unfold AsrRun.new in Hrun.
  cbn [AsrRunParts.chunks] in Hrun. destruct (head records); [|done]. destruct (last records); [|done].
  destruct (TimeRange.new _ _); [|done]. cbn [map_err result_bind] in Hrun.
  destruct (plan_chunks _ _ _); [|done]. cbn [map_err result_bind] in Hrun. destruct (_ || _); [done|].
  injection Hrun as <-. split; [done|]. split; [done|]. by eexists (AsrRunParts.mk _ _ _ _ _ _ _).
Qed.

Lemma first_and_last :
  exists first final, chunks !! 0%nat = Some first /\ last chunks = Some final
    /\ TimeRange.start (PlannedChunk.window first) = TimeRange.start range
    /\ TimeRange.end_ (PlannedChunk.window final) = TimeRange.end_ range.
Proof.
  destruct (planned_are request Hplan Hrange chunks Hchunks) as [E _].
  destruct (chunks_cut (SourceSegment.id source) plan range Hplan Hrange) as (_ & _ & Hfirst & Hlast & _).
  unfold plan, range, source in Hfirst, Hlast. rewrite <- E in Hfirst, Hlast.
  assert (Hlen : (0 < length chunks)%nat).
  { rewrite E, length_fmap, length_seqZ. pose proof (count_pos _ _ Hplan Hrange). unfold plan, range in *. lia. }
  destruct (lookup_lt_is_Some_2 chunks 0 Hlen) as [first Hf].
  destruct (last_is_Some chunks) as [_ Hl]. destruct Hl as [final Hl]; [by destruct chunks|].
  exists first, final. auto.
Qed.

(** Records of all planned chunks, each transcribed one with its audio. *)
Definition records_good (records : list AsrChunkRecord.t) : Prop :=
  AsrChunkRecord.chunk <$> records = chunks
  /\ Forall (fun c => match AsrChunkRecord.outcome c with Transcribed audio => TimeRange.wf audio | _ => True end) records.

Lemma run_valid records run :
  records_good records -> run_of request records = Ok run ->
  run_typed run /\ run_whole run /\ run_in source run /\ AsrRun.covered_range run = Some range.
Proof.
  intros [Hrec Haudio] Hrun. destruct (run_of_is records run Hrun) as (Hc & _ & parts & Hp & Hpc & Hnew).
  assert (Hwin : windows_wf records).
  { apply Forall_forall. intros c Hin. destruct (planned_good (AsrChunkRecord.chunk c)) as (_ & _ & _ & _ & _ & Hw & _).
    - rewrite <- Hrec. by apply list_elem_of_fmap_2.
    - exact Hw. }
  assert (Hcov : AsrRun.covered_range run = Some range).
  { destruct first_and_last as (first & final & Hf & Hl & Hs & He). unfold AsrRun.covered_range. rewrite Hc.
    rewrite <- Hrec, list_lookup_fmap in Hf. rewrite <- Hrec, fmap_last in Hl. rewrite head_lookup.
    destruct (records !! 0%nat) as [r|]; [|done]. destruct (last records) as [r'|]; [|done].
    injection Hf as Hf. injection Hl as Hl. cbn [mbind option_bind]. unfold AsrRun.window_of. rewrite Hf, Hl, Hs, He.
    destruct Hrange as (_ & _ & Hlt). unfold TimeRange.new. rewrite (proj2 (Z.leb_gt _ _)) by exact Hlt. by destruct range. }
  split; [split; rewrite Hc; done|]. split; [apply (new_run_whole parts); [by rewrite Hp|by rewrite Hpc|exact Hnew]|].
  split; [|exact Hcov]. exists range. split; [exact Hcov|]. split.
  - unfold plan_run in Hchunks. destruct (_ || _) eqn:Eb; [done|]. apply orb_false_iff in Eb.
    rewrite !Z.ltb_ge in Eb. exact Eb.
  - rewrite Hc. apply Forall_forall. intros c Hin.
    destruct (planned_good (AsrChunkRecord.chunk c)) as (_ & _ & _ & _ & Hs & _); [|exact Hs].
    rewrite <- Hrec. by apply list_elem_of_fmap_2.
Qed.

(** The records of a run so far, and of one that is over. *)
Definition records_at (k : nat) : list AsrChunkRecord.t :=
  (record_of <$> take k chunks) ++ ((fun chunk => AsrChunkRecord.mk chunk Pending) <$> drop k chunks).

Lemma records_at_good k : records_good (records_at k).
Proof.
  unfold records_at. split.
  - rewrite fmap_app, <- !list_fmap_compose. rewrite <- (take_drop k chunks) at 3.
    f_equal; apply list_fmap_id.
  - apply Forall_app. split; apply Forall_fmap, Forall_forall; [|done]. intros chunk Hin. cbn.
    assert (Hc : chunk ∈ chunks) by (rewrite <- (take_drop k chunks); apply elem_of_app; by left).
    destruct (outcome_of (became chunk)) as [audio| | | | |] eqn:Eo; try done.
    apply (good_audio _ (heard_good chunk Hc)). by rewrite Eo.
Qed.

Lemma inputs_good k :
  chunks_wf (input_of <$> take k chunks) /\ indices_wf (input_of <$> take k chunks).
Proof.
  assert (Hin : forall chunk, chunk ∈ take k chunks -> chunk ∈ chunks).
  { intros chunk H0. rewrite <- (take_drop k chunks). apply elem_of_app. by left. }
  split; apply Forall_fmap, Forall_forall; intros chunk Hc%Hin; pose proof (heard_good chunk Hc) as Hg.
  - split; apply Forall_forall; [intros d Hd|intros r Hr].
    + destruct (good_segments _ Hg d Hd) as (audio & _ & Hd'). apply Hd'.
    + destruct (good_unplaced _ Hg r Hr) as (audio & _ & Hr' & _). exact Hr'.
  - cbn. rewrite (good_chunk _ Hg). destruct (planned_good chunk Hc) as (j & _ & -> & ? & _). ulia.
Qed.

(** A merged segment is the segment of a chunk the run transcribed. *)
Lemma merged_own k run m :
  run_of request (records_at k) = Ok run ->
  m ∈ MergedTranscript.segments (merge_chunks (input_of <$> take k chunks)) -> own_valid source run m.
Proof.
  intros Hrun Hm. destruct (run_of_is _ _ Hrun) as (Hc & _).
  destruct (inputs_good k) as [Hwf Hi].
  destruct (merge_chunks_inv _ Hwf Hi) as (state & ((keys & _ & Hf) & _) & E). rewrite E in Hm.
  cbn [MergedTranscript.segments] in Hm. apply list_elem_of_fmap in Hm as (o & -> & Ho).
  apply list_elem_of_lookup in Ho as [i Ho].
  destruct (Forall2_lookup_r _ _ _ _ _ Hf Ho) as (key & _ & Hk & d & Hd & Eo & _).
  unfold segment_at in Hd. rewrite list_lookup_fmap in Hd.
  destruct (take k chunks !! key.1) as [chunk|] eqn:Echunk; [|done]. cbn [mbind option_bind fmap option_fmap option_map] in Hd.
  apply lookup_take_Some in Echunk as [Echunk Hlt].
  pose proof (list_elem_of_lookup_2 _ _ _ Echunk) as Hin.
  destruct (good_segments _ (heard_good chunk Hin) d (list_elem_of_lookup_2 _ _ _ Hd)) as (audio & Hout & Hg).
  destruct (planned_good chunk Hin) as (j & Hj & _ & Hj1024 & _).
  assert (Hkey : (key.1 < 1024)%nat).
  { destruct (planned_are request Hplan Hrange chunks Hchunks) as [E' Hcount]. apply lookup_lt_Some in Echunk.
    rewrite E', length_fmap, length_seqZ in Echunk. unfold MAX_PLANNED_CHUNKS in Hcount. lia. }
  assert (Hsat : saturating_u32 (Z.of_nat o.1) = Z.of_nat key.1) by (rewrite <- Hk; ulia).
  unfold own_valid. cbn zeta. unfold identified. cbn [MergedSegment.segment MergedSegment.chunk]. rewrite Hsat, Eo.
  cbn. destruct Hg as [G1 G2 G3 [G4 G5] G6 G7]. split; [split; [exact G1|cbn; split; [ulia|by split]]|].
  split; [|exact G3]. unfold derived. cbn. exists (record_of chunk), audio. rewrite Nat2Z.id. split.
  { rewrite Hc. unfold records_at. rewrite lookup_app_l.
    - rewrite list_lookup_fmap, lookup_take_lt by done. by rewrite Echunk.
    - rewrite length_fmap, length_take. apply lookup_lt_Some in Echunk. lia. }
  split; [exact Hout|].
  assert (Hwa : TimeRange.wf audio) by (apply (good_audio _ (heard_good chunk Hin)); by rewrite Hout).
  apply (asr_source_range_exact audio _ _ _ _ Hwa G4 G5) in G6 as (A1 & A2 & A3 & A4).
  unfold TranscriptSegment.start, TranscriptSegment.end_. cbn. auto.
Qed.

Lemma taken_length k : (k <= length chunks)%nat -> length (take k chunks) = k.
Proof. intros Hk. rewrite length_take. lia. Qed.

Lemma open_is k next b partial until :
  chunks !! k = Some next -> RunSoFar.open (so_far request pcm_of answer chunks k b) early = Ok (partial, until) ->
  let settled := settled_merge (input_of <$> take k chunks) (Some next) early in
  run_of request (records_at k) = Ok (AsrTranscription.run partial)
  /\ AsrTranscription.segments partial = SettledTranscript.segments settled
  /\ AsrTranscription.unplaced partial = SettledTranscript.unplaced settled
  /\ until = SettledTranscript.settled_until settled.
Proof.
  intros Hnext. assert (Hk : (k <= length chunks)%nat) by (apply lookup_lt_Some in Hnext; lia).
  unfold RunSoFar.open, RunSoFar.run_with_the_rest, RunSoFar.next, RunSoFar.finished, so_far.
  cbn [RunSoFar.gathered RunSoFar.planned_chunks RunSoFar.request]. cbn zeta.
  destruct (gather_spec Gathered.empty (take k chunks)) as [-> ->]. cbn [Gathered.empty Gathered.records Gathered.merge_input app].
  rewrite length_fmap, (taken_length k Hk), Hnext. intros (run & Hrun & [= <- <-])%bind_Ok. done.
Qed.

Lemma finish_is whole :
  finish request (gather request pcm_of answer Gathered.empty chunks) = Ok whole ->
  run_of request (records_at (length chunks)) = Ok (AsrTranscription.run whole)
  /\ AsrTranscription.segments whole = MergedTranscript.segments (merge_chunks (input_of <$> chunks))
  /\ AsrTranscription.unplaced whole = MergedTranscript.unplaced (merge_chunks (input_of <$> chunks)).
Proof.
  unfold finish. cbn zeta. destruct (gather_spec Gathered.empty chunks) as [-> ->].
  cbn [Gathered.empty Gathered.records Gathered.merge_input app]. intros (run & Hrun & [= <-])%bind_Ok.
  split; [|done]. unfold records_at. rewrite take_ge, drop_ge, app_nil_r by lia. exact Hrun.
Qed.

(** ** Requests of the run *)

Section Requests.
Context (session_id : OpaqueId SessionId) (source_id : DigestId SourceId) (number : Z).
Context (splice : option RevisionSplice.t).

Definition asr_request (t : AsrTranscription.t) : AsrRevisionRequest.t :=
  AsrRevisionRequest.mk session_id source_id source number t splice.

(** What a splice must be, whatever the run heard. *)
Definition splice_fits : Prop := forall s, splice = Some s ->
  sound_revision (RevisionSplice.base s) /\ RevisionSplice.replaced_range s = range
  /\ TranscriptRevision.source_id (RevisionSplice.base s) = source_id
  /\ TranscriptRevision.source_segment (RevisionSplice.base s) = source
  /\ TranscriptRevision.number (RevisionSplice.base s) < number.

Lemma heard_request_valid k t :
  splice_fits -> Z.of_nat (length (assembled_of (asr_request t))) <= MAX_TRANSCRIPT_CUES ->
  run_of request (records_at k) = Ok (AsrTranscription.run t) ->
  AsrTranscription.segments t ⊆ MergedTranscript.segments (merge_chunks (input_of <$> take k chunks)) ->
  (AsrTranscription.unplaced t = MergedTranscript.unplaced (merge_chunks (input_of <$> take k chunks))
   \/ exists until, AsrTranscription.unplaced t
        = filter (fun stretch => TimeRange.end_ stretch < until)
            (MergedTranscript.unplaced (merge_chunks (input_of <$> take k chunks)))) ->
  request_valid (asr_request t) range.
Proof.
  intros Hsplice Hcount Hrun Hsegs Hun. destruct (inputs_good k) as [Hwf Hi].
  destruct (unplaced_listed (input_of <$> take k chunks) range Hrange Hwf Hi) as (U1 & U2 & U3 & U4).
  { intros c r Hc Hr. apply list_elem_of_fmap in Hc as (chunk & -> & Hin).
    assert (Hin' : chunk ∈ chunks) by (rewrite <- (take_drop k chunks); apply elem_of_app; by left).
    destruct (good_unplaced _ (heard_good chunk Hin') r Hr) as (_ & _ & _ & Hr' & _).
    destruct (planned_good chunk Hin') as (_ & _ & _ & _ & _ & _ & Hw). unfold range_within in *. lia. }
  constructor.
  - exact Hsource.
  - cbn. exact (run_valid _ _ (records_at_good k) Hrun).
  - cbn. apply Forall_forall. intros m Hm. by apply (merged_own k), Hsegs.
  - cbn. revert U1 U2 U3 U4 Hun. generalize (MergedTranscript.unplaced (merge_chunks (input_of <$> take k chunks))) as listed.
    generalize (AsrTranscription.unplaced t) as unplaced. intros unplaced listed U1 U2 U3 U4 [->|(until & ->)]; [by repeat split|].
    split; [rewrite Forall_forall in *; intros r [_ Hr]%list_elem_of_filter; auto|]. split.
    + assert (Es : forall l : list TimeRange.t, span <$> filter (fun stretch => TimeRange.end_ stretch < until) l
                   = filter (fun s : Span => s.2 < until) (span <$> l)).
      { intros l. by rewrite (RevisionGrowth.filter_fmap span (fun s : Span => s.2 < until)). }
      rewrite Es. by apply canon_filter.
    + split; [etrans; [apply length_filter|exact U3]|].
      rewrite Forall_forall in *. intros r [_ Hr]%list_elem_of_filter. auto.
  - intros s Hs. destruct (Hsplice s Hs) as (H1 & H2 & H3 & H4 & H5). by constructor.
  - exact Hcount.
Qed.

(** ** The run goes on *)

Lemma records_go_on k k' next until :
  (k <= k')%nat -> chunks !! k = Some next -> until <= reach_of next early ->
  Forall2 (chunk_goes_on until) (records_at k) (records_at k').
Proof.
  intros Hk Hnext Huntil. apply Forall2_same_length_lookup. unfold records_at. split.
  { rewrite !length_app, !length_fmap, !length_take, !length_drop. lia. }
  assert (Hat : forall j i, ((record_of <$> take j chunks) ++ ((fun chunk => AsrChunkRecord.mk chunk Pending) <$> drop j chunks)) !! i
    = (fun chunk => if (i <? j)%nat then record_of chunk else AsrChunkRecord.mk chunk Pending) <$> chunks !! i).
  { intros j i. destruct (Nat.ltb_spec i j) as [Hij|Hij].
    - destruct (chunks !! i) as [chunk|] eqn:Ei.
      + rewrite lookup_app_l by (rewrite length_fmap, length_take; apply lookup_lt_Some in Ei; lia).
        rewrite list_lookup_fmap, lookup_take_lt by done. by rewrite Ei.
      + apply lookup_ge_None in Ei. apply lookup_ge_None. rewrite length_app, !length_fmap, length_take, length_drop. lia.
    - destruct (Nat.le_gt_cases j (length chunks)) as [Hj|Hj].
      + rewrite lookup_app_r by (rewrite length_fmap, length_take; lia).
        rewrite length_fmap, length_take, list_lookup_fmap, lookup_drop.
        by replace (j + (i - j `min` length chunks))%nat with i by lia.
      + rewrite (proj2 (lookup_ge_None chunks i)) by lia. apply lookup_ge_None.
        rewrite length_app, !length_fmap, length_take, length_drop. lia. }
  intros i a b. rewrite !Hat. destruct (chunks !! i) as [chunk|] eqn:Ei; [|done].
  cbn [fmap option_fmap option_map]. intros [= <-] [= <-].
  destruct (good_heard _ (heard_good chunk (list_elem_of_lookup_2 _ _ _ Ei))) as [Hnp _].
  destruct (Nat.ltb_spec i k) as [Hik|Hik].
  - rewrite (proj2 (Nat.ltb_lt i k')) by lia. split; [done|]. cbn. by destruct (outcome_of _).
  - split; [by destruct (i <? k')%nat|]. cbn. pose proof (windows_ordered k i next chunk Hik Hnext Ei).
    destruct (planned_good chunk (list_elem_of_lookup_2 _ _ _ Ei)) as (_ & _ & _ & _ & _ & (Hu & _ & _) & _).
    unfold reach_of, early, MAX_EARLY_AUDIO_MICROS in Huntil. unfold AsrRun.window_of. cbn. ulia.
Qed.

(** What is settled after some chunks is settled of all that comes later. *)
Lemma until_reach k next :
  chunks !! k = Some next ->
  SettledTranscript.settled_until (settled_merge (input_of <$> take k chunks) (Some next) early) <= reach_of next early.
Proof.
  intros Hnext. pose proof (published_goes_on k next Hnext) as Hgo.
  destruct (cut_spec _ _ _ _ Hgo) as [Hcut _]. unfold settled_merge. cbn zeta.
  cbn [SettledTranscript.settled_until]. fold (all_spans (input_of <$> take k chunks)).
  fold (union_of (input_of <$> take k chunks)). lia.
Qed.

Lemma settled_goes_on k next t t' (k' : nat) :
  chunks !! k = Some next -> (k <= k')%nat ->
  let settled := settled_merge (input_of <$> take k chunks) (Some next) early in
  let until := SettledTranscript.settled_until settled in
  run_of request (records_at k) = Ok (AsrTranscription.run t) ->
  run_of request (records_at k') = Ok (AsrTranscription.run t') ->
  AsrTranscription.segments t = SettledTranscript.segments settled ->
  (exists others, AsrTranscription.segments t' = SettledTranscript.segments settled ++ others
     /\ Forall (fun s => until <= (segment_span s).1) others) ->
  request_goes_on until (asr_request t) (asr_request t').
Proof.
  intros Hnext Hk settled until Hrun Hrun' Es (others & Es' & Ho).
  destruct (run_of_is _ _ Hrun) as (Hc & Hset & _). destruct (run_of_is _ _ Hrun') as (Hc' & Hset' & _).
  destruct (settled_spec _ _ _ _ (published_goes_on k next Hnext)) as (_ & _ & _ & Hs).
  constructor; cbn; [done|done|done|done| | | |].
  - by rewrite Hset, Hset'.
  - rewrite Hc, Hc'. apply (records_go_on k k' next); [done|done|]. by apply until_reach.
  - exists others. rewrite Es, Es'. split; [done|exact Ho].
  - rewrite Es. eapply Forall_impl; [exact Hs|]. intros m [_ Hm].
    unfold segment_span, span_of, span in Hm. cbn in Hm. apply Z.lt_le_incl. exact Hm.
Qed.

(** A run with chunks to come is open, and one that is over is not. *)
Lemma growth_at k run :
  run_of request (records_at k) = Ok run ->
  growth (LocalAsr run) = (bool_decide (k < length chunks)%nat, false).
Proof.
  intros Hrun. destruct (run_of_is _ _ Hrun) as (Hc & _). unfold growth. rewrite Hc. f_equal.
  - case_bool_decide as Hk.
    + destruct (lookup_lt_is_Some_2 chunks k Hk) as [next Hn]. apply existsb_exists.
      exists (AsrChunkRecord.mk next Pending). split; [|done]. apply list_elem_of_In. unfold records_at.
      apply elem_of_app. right. apply list_elem_of_fmap. exists next. split; [done|].
      apply (list_elem_of_lookup_2 _ 0). by rewrite lookup_drop, Nat.add_0_r.
    + unfold records_at. rewrite drop_ge, app_nil_r by lia. apply existsb_false. apply Forall_fmap, Forall_forall.
      intros chunk Hin. assert (Hin' : chunk ∈ chunks) by (rewrite <- (take_drop k chunks); apply elem_of_app; by left).
      destruct (good_heard _ (heard_good chunk Hin')) as [Hnp _]. unfold is_pending. cbn. by destruct (outcome_of _).
  - unfold records_at. apply existsb_false. apply Forall_app. split; apply Forall_fmap, Forall_forall; [|done].
    intros chunk Hin. assert (Hin' : chunk ∈ chunks) by (rewrite <- (take_drop k chunks); apply elem_of_app; by left).
    destruct (good_heard _ (heard_good chunk Hin')) as [_ Hnr]. unfold is_not_reached. cbn. by destruct (outcome_of _).
Qed.

Context `{Sha256Laws}.

Definition few_segments (t : AsrTranscription.t) : Prop :=
  Z.of_nat (length (assembled_of (asr_request t))) <= MAX_TRANSCRIPT_CUES.

(** The requests of the run so far, and of the whole run. *)
Lemma open_valid k next b partial until :
  splice_fits -> chunks !! k = Some next -> RunSoFar.open (so_far request pcm_of answer chunks k b) early = Ok (partial, until) ->
  few_segments partial ->
  request_valid (asr_request partial) range
  /\ growth (LocalAsr (AsrTranscription.run partial)) = (true, false)
  /\ until <= TimeRange.end_ (SourceSegment.range source).
Proof.
  intros Hsplice Hnext Hopen Hfew. destruct (open_is k next b partial until Hnext Hopen) as (Hrun & Es & Eu & ->).
  split; [|split].
  - apply (heard_request_valid k); [done|done|done| |].
    + rewrite Es. cbn. intros m Hm.
      unfold settled_merge in Hm. cbn in Hm. by apply take_while_elem in Hm.
    + right. rewrite Eu. eexists. reflexivity.
  - rewrite (growth_at k _ Hrun), bool_decide_true; [done|]. by apply lookup_lt_Some in Hnext.
  - pose proof (until_reach k next Hnext) as Hu.
    destruct (planned_good next (list_elem_of_lookup_2 _ _ _ Hnext)) as (_ & _ & _ & _ & _ & (Hw & _ & ?) & Hin).
    destruct (run_valid _ _ (records_at_good k) Hrun) as (_ & _ & (c & Hc & Hsrc & _) & Hcov).
    rewrite Hcov in Hc. injection Hc as <-. unfold range_within, reach_of, early, MAX_EARLY_AUDIO_MICROS in *. ulia.
Qed.

Lemma whole_valid whole :
  splice_fits -> finish request (gather request pcm_of answer Gathered.empty chunks) = Ok whole ->
  few_segments whole ->
  request_valid (asr_request whole) range
  /\ state_of (LocalAsr (AsrTranscription.run whole)) = Sealed.
Proof.
  intros Hsplice Hfin Hfew. destruct (finish_is whole Hfin) as (Hrun & Es & Eu). split.
  - apply (heard_request_valid (length chunks)); [done|done|done|by rewrite Es, take_ge|].
    left. by rewrite Eu, take_ge.
  - unfold state_of. rewrite (growth_at _ _ Hrun), bool_decide_false by lia. done.
Qed.

(** After any chunk but the last, what the run has so far goes on to what it
    ends with, and to what it has after any later chunk. *)
Lemma open_goes_on k next b partial until :
  chunks !! k = Some next -> RunSoFar.open (so_far request pcm_of answer chunks k b) early = Ok (partial, until) ->
  (forall whole, finish request (gather request pcm_of answer Gathered.empty chunks) = Ok whole ->
     request_goes_on until (asr_request partial) (asr_request whole))
  /\ (forall k' next' b' partial' until', (k <= k')%nat -> chunks !! k' = Some next' ->
        RunSoFar.open (so_far request pcm_of answer chunks k' b') early = Ok (partial', until') ->
        until <= until' /\ request_goes_on until (asr_request partial) (asr_request partial')).
Proof.
  intros Hnext Hopen. destruct (open_is k next b partial until Hnext Hopen) as (Hrun & Es & _ & ->).
  pose proof (published_goes_on k next Hnext) as Hgo.
  destruct (settled_spec _ _ _ _ Hgo) as (others & E & Ho & _).
  rewrite <- fmap_app, take_drop in E. split.
  - intros whole Hfin. destruct (finish_is whole Hfin) as (Hrun' & Es' & _).
    apply (settled_goes_on k next partial whole (length chunks)); try done.
    + apply lookup_lt_Some in Hnext. lia.
    + exists others. by rewrite Es', E.
  - intros k' next' b' partial' until' Hk Hnext' Hopen'.
    destruct (open_is k' next' b' partial' until' Hnext' Hopen') as (Hrun' & Es' & _ & ->).
    assert (Emore : take k' chunks = take k chunks ++ drop k (take k' chunks)).
    { rewrite <- (take_drop k (take k' chunks)) at 1. by rewrite take_take, Nat.min_l by lia. }
    assert (Erest : drop k chunks = drop k (take k' chunks) ++ drop k' chunks).
    { rewrite <- (take_drop k' chunks) at 1. rewrite drop_app_le; [done|].
      rewrite length_take. apply lookup_lt_Some in Hnext'. lia. }
    pose proof (published_goes_on k' next' Hnext') as Hgo'.
    rewrite Emore, fmap_app in Hgo'. rewrite Erest, fmap_app in Hgo.
    destruct (grows_spec _ _ _ _ _ _ Hgo Hgo' (windows_ordered k k' next next' Hk Hnext Hnext'))
      as (Huntil & Hpre & Hfin & Hwhole & _).
    rewrite <- fmap_app, <- Emore in Huntil, Hpre, Hfin. split; [exact Huntil|].
    apply (settled_goes_on k next partial partial' k'); try done. rewrite Es'.
    destruct Hpre as [extra Hextra]. exists extra. split; [exact Hextra|].
    destruct Hfin as [tail_ Htail]. rewrite Hwhole in Htail.
    replace ((input_of <$> take k chunks) ++ (input_of <$> drop k (take k' chunks)) ++ (input_of <$> drop k' chunks))
      with (input_of <$> chunks) in Htail
      by (rewrite <- fmap_app, <- Erest, <- fmap_app, take_drop; done).
    rewrite Hextra, E, <- app_assoc in Htail. apply app_inv_head in Htail. rewrite Htail in Ho.
    by apply Forall_app in Ho as [? _].
Qed.

(** The run of records of all planned chunks is always accepted. *)
Lemma run_of_ok records : records_good records -> exists run, run_of request records = Ok run.
Proof.
  intros [Hrec _]. unfold run_of, AsrRun.new. cbn [AsrRunParts.chunks AsrRunParts.plan].
  destruct first_and_last as (first & final & Hf & Hl & Hs & He).
  assert (Hfirst : PlannedChunk.source_segment first = SourceSegment.id source).
  { by destruct (planned_good first (list_elem_of_lookup_2 _ _ _ Hf)) as (_ & _ & _ & _ & ? & _). }
  assert (Hpl : plan_chunks (SourceSegment.id source) range plan = Ok chunks).
  { unfold plan_run in Hchunks. destruct (_ || _); [done|]. destruct (AsrModel.profile _); [..|done];
      by apply map_err_Ok in Hchunks. }
  rewrite head_lookup. pose proof Hrec as Hmatch. rewrite <- Hrec, list_lookup_fmap in Hf.
  rewrite <- Hrec, fmap_last in Hl.
  destruct (records !! 0%nat) as [r|]; [|done]. destruct (last records) as [r'|]; [|done].
  injection Hf as Hf. injection Hl as Hl. unfold AsrRun.window_of. rewrite Hf, Hl, Hs, He, Hfirst.
  destruct Hrange as (_ & _ & Hlt). unfold TimeRange.new. rewrite (proj2 (Z.leb_gt _ _)) by exact Hlt.
  cbn [map_err result_bind].
  replace (TimeRange.mk (TimeRange.start range) (TimeRange.end_ range)) with range by (by destruct range).
  fold plan. rewrite Hpl. cbn [map_err result_bind].
  rewrite (proj2 (records_match chunks records) (eq_sym Hmatch)). by eexists.
Qed.
End Requests.

Lemma open_answers k next b :
  chunks !! k = Some next -> exists partial until, RunSoFar.open (so_far request pcm_of answer chunks k b) early = Ok (partial, until).
Proof.
  intros Hnext. destruct (run_of_ok _ (records_at_good k)) as [run Hrun].
  assert (Hk : (k <= length chunks)%nat) by (apply lookup_lt_Some in Hnext; lia).
  unfold RunSoFar.open, RunSoFar.run_with_the_rest, RunSoFar.next, RunSoFar.finished, so_far.
  cbn [RunSoFar.gathered RunSoFar.planned_chunks RunSoFar.request]. cbn zeta.
  destruct (gather_spec Gathered.empty (take k chunks)) as [-> ->]. cbn [Gathered.empty Gathered.records Gathered.merge_input app].
  rewrite length_fmap, (taken_length k Hk). unfold records_at in Hrun. rewrite Hrun. cbn [result_bind]. by do 2 eexists.
Qed.
End Publish.

(** What is asked of a run and of its ports: a plan and a range that were
    validated, [u64] times from the ports, a window no shorter than the edge of
    a seam (half a second), and audio that begins at most five seconds before
    its window. *)
Record run_hears `{UnicodeTables} (request : TranscribeRangeRequest.t)
    (pcm_of : PlannedChunk.t -> option SpeechPcm.t)
    (answer : PlannedChunk.t -> SpeechPcm.t -> ProviderChunkOutput.t) (chunks : list PlannedChunk.t) : Prop := {
  hears_plan : ChunkPlan.wf (TranscribeRangeRequest.plan request);
  hears_range : TimeRange.wf (TranscribeRangeRequest.range request);
  hears_source : TimeRange.wf (SourceSegment.range (TranscribeRangeRequest.source_segment request));
  hears_pcm : forall chunk pcm, chunk ∈ chunks -> pcm_of chunk = Some pcm -> is_u64 (SpeechPcm.actual_start pcm);
  hears_answer : forall chunk pcm,
    Forall AsrOutput.segment_typed (ProviderChunkOutput.segments (answer chunk pcm));
  hears_chunks : plan_run request = Ok chunks;
  hears_wide : SEAM_EDGE_MICROS <= ChunkPlan.window_us (TranscribeRangeRequest.plan request);
  hears_began : began_in_time request pcm_of answer chunks
}.

(** What a run publishes while it works is a part, for good, of what it ends
    with. After each chunk but the last the run so far always gives an open
    transcription; the open revision made of it is always built, and it is
    sound. Whatever the chunks still to come hold, the revision the run ends
    with, which is always built too, and every open revision of a later chunk
    start with exactly its segments, names and numbers included, and add only
    segments that start at its published time or later, which never goes back.
    Claim C3. *)
Theorem published_while_running `{UnicodeTables} `{Sha256Laws} request pcm_of answer chunks
    session_id source_id number splice k next b :
  run_hears request pcm_of answer chunks -> splice_fits request source_id number splice ->
  chunks !! k = Some next ->
  let have j := so_far request pcm_of answer chunks j b in
  let revision_of := asr_request request session_id source_id number splice in
  let few := few_segments request session_id source_id number splice in
  let range := TranscribeRangeRequest.range request in
  exists partial until, RunSoFar.open (have k) MAX_EARLY_AUDIO_MICROS = Ok (partial, until)
    /\ (few partial -> no_clash (revision_of partial) range ->
        exists r published, build_open_asr_revision (revision_of partial) until = Ok r /\ sound_revision r
          /\ TranscriptRevision.published_until r = Some published /\ published <= until
          /\ (forall whole, finish request (gather request pcm_of answer Gathered.empty chunks) = Ok whole ->
                few whole -> no_clash (revision_of whole) range ->
                exists final, build_asr_revision (revision_of whole) = Ok final /\ sound_revision final
                  /\ continues r published final)
          /\ (forall k' next' partial' until' r', (k <= k')%nat -> chunks !! k' = Some next' ->
                RunSoFar.open (have k') MAX_EARLY_AUDIO_MICROS = Ok (partial', until') -> few partial' ->
                build_open_asr_revision (revision_of partial') until' = Ok r' ->
                continues r published r'
                /\ exists published', TranscriptRevision.published_until r' = Some published'
                     /\ published <= published')).
Proof.
  intros [P1 P2 P3 P4 P5 P6 P7 P8] Hsplice Hnext. cbn zeta.
  destruct (open_answers request pcm_of answer P1 P2 P3 chunks P4 P5 P6 k next b Hnext) as (partial & until & Hopen).
  exists partial, until. split; [exact Hopen|]. intros Hfew Hclash.
  destruct (open_valid request pcm_of answer P1 P2 P3 chunks P4 P5 P6 P7 P8 session_id source_id number splice k next b partial until
              Hsplice Hnext Hopen Hfew) as (Hv & Hg & Hu).
  destruct (open_goes_on request pcm_of answer P1 P2 P3 chunks P4 P5 P6 P7 P8 session_id source_id number splice k next b partial until
              Hnext Hopen) as (Hwhole & Hlater).
  destruct (build_open_spec _ _ until Hv Hclash Hg Hu) as [Hb Hsound].
  set (r := opened _ _ until) in *.
  assert (Hcont : forall later, request_valid later (TranscribeRangeRequest.range request) ->
    request_goes_on until (asr_request request session_id source_id number splice partial) later ->
    exists published, TranscriptRevision.published_until r = Some published /\ published <= until
      /\ (forall r', build_asr_revision later = Ok r' -> continues r published r')
      /\ (forall until' r', until <= until' -> build_open_asr_revision later until' = Ok r' ->
            continues r published r'
            /\ exists published', TranscriptRevision.published_until r' = Some published' /\ published <= published')).
  { intros later Hv' Hgo. destruct (open_revision_is_prefix _ later _ until Hv Hclash Hg Hu Hv' Hgo)
      as (r0 & published & Hb0 & _ & Hp & Hle & _ & Q1 & Q2). rewrite Hb in Hb0. injection Hb0 as <-.
    by exists published. }
  destruct (Hcont _ Hv) as (published & Hp & Hle & _).
  { exact (proj2 (Hlater k next b partial until (le_n k) Hnext Hopen)). }
  exists r, published. split; [exact Hb|]. split; [exact Hsound|]. split; [exact Hp|]. split; [exact Hle|]. split.
  - intros whole Hfin Hfew' Hclash'.
    destruct (whole_valid request pcm_of answer P1 P2 P3 chunks P4 P5 P6 session_id source_id number splice whole Hsplice Hfin Hfew') as [Hv' Hsealed].
    destruct (build_spec _ _ Hv' Hclash' Hsealed) as [Hb' Hs']. eexists. split; [exact Hb'|]. split; [exact Hs'|].
    destruct (Hcont _ Hv' (Hwhole whole Hfin)) as (p & Hp' & _ & Q1 & _). rewrite Hp in Hp'. injection Hp' as <-. by apply Q1.
  - intros k' next' partial' until' r' Hk Hnext' Hopen' Hfew' Hb'.
    destruct (Hlater k' next' b partial' until' Hk Hnext' Hopen') as [Hu' Hgo].
    destruct (open_valid request pcm_of answer P1 P2 P3 chunks P4 P5 P6 P7 P8 session_id source_id number splice k' next' b partial' until'
                Hsplice Hnext' Hopen' Hfew') as (Hv' & _ & _).
    destruct (Hcont _ Hv' Hgo) as (p & Hp' & _ & _ & Q2). rewrite Hp in Hp'. injection Hp' as <-. by apply (Q2 until').
Qed.

(** The run of TranscribeResume.v, after its first chunk: one of its three
    words is settled, until the twentieth second. *)
Definition sample_plan : list PlannedChunk.t := default [] (result_ok (plan_run run_request)).

Lemma sample_planned chunk : chunk ∈ sample_plan -> is_u64 (TimeRange.start (PlannedChunk.window chunk)).
Proof.
  assert (E : (fun c => TimeRange.start (PlannedChunk.window c)) <$> sample_plan = [0; 25000000; 50000000])
    by (vm_compute; reflexivity).
  intros Hin. apply (list_elem_of_fmap_2 (fun c => TimeRange.start (PlannedChunk.window c))) in Hin.
  rewrite E in Hin. rewrite !elem_of_cons, elem_of_nil in Hin. destruct Hin as [->|[->|[->|[]]]]; concrete.
Qed.

Lemma sample_hears :
  run_hears (H := ascii_tables) run_request (fun chunk => Some (sample_pcm chunk)) sample_answer sample_plan.
Proof.
  constructor.
  - concrete.
  - concrete.
  - concrete.
  - intros chunk pcm Hin [= <-]. by apply sample_planned.
  - intros chunk pcm. constructor; [concrete|constructor].
  - vm_compute. reflexivity.
  - concrete.
  - apply (began_spec (H := ascii_tables) _ _ _ _ true). vm_compute. reflexivity.
Qed.

Definition sample_revision_of (t : AsrTranscription.t) : AsrRevisionRequest.t :=
  asr_request run_request (mkOpaqueId (literal "ses_0123456789abcdef")) (mkDigestId []) 1 None t.

Definition sample_open : result (AsrTranscription.t * MediaTime) AsrFailure.t :=
  RunSoFar.open (H := ascii_tables)
    (so_far (H := ascii_tables) run_request (fun chunk => Some (sample_pcm chunk)) sample_answer sample_plan 1 true)
    MAX_EARLY_AUDIO_MICROS.

(** Identities that are distinct, for a request without a splice. *)
Lemma alone_no_clash `{Sha256} request covered n :
  AsrRevisionRequest.splice request = None -> Z.of_nat (length (assembled_of request)) = n ->
  NoDup (segment_id_of (revision_id_of request covered) <$> seqZ 1 n) -> no_clash request covered.
Proof.
  intros Hs <- Hd. constructor; [|by intros splice E; rewrite Hs in E..].
  intros i j. by apply ids_injective.
Qed.

Lemma published_while_running_witness :
  exists partial until r published, sample_open = Ok (partial, until)
    /\ build_open_asr_revision (H := tail_digest) (sample_revision_of partial) until = Ok r
    /\ TranscriptRevision.published_until r = Some published
    /\ TranscriptSegment.range <$> TranscriptRevision.segments r = [TimeRange.mk 10000 90000]
    /\ published = 20000000
    /\ forall whole,
         finish (H := ascii_tables) run_request
           (gather (H := ascii_tables) run_request (fun chunk => Some (sample_pcm chunk)) sample_answer Gathered.empty
              sample_plan) = Ok whole ->
         few_segments run_request (mkOpaqueId (literal "ses_0123456789abcdef")) (mkDigestId []) 1 None whole ->
         no_clash (H := tail_digest) (sample_revision_of whole) (TranscribeRangeRequest.range run_request) ->
         exists final, build_asr_revision (H := tail_digest) (sample_revision_of whole) = Ok final
           /\ continues r published final.
Proof.
  assert (Hnext : exists next, sample_plan !! 1%nat = Some next) by (vm_compute; by eexists).
  destruct Hnext as [next Hnext].
  destruct (published_while_running (H := ascii_tables) (H1 := tail_digest_laws) run_request
    (fun chunk => Some (sample_pcm chunk)) sample_answer sample_plan (mkOpaqueId (literal "ses_0123456789abcdef"))
    (mkDigestId []) 1 None 1 next true sample_hears ltac:(by intros s) Hnext) as (partial & until & Hopen & Hrest).
  assert (Hpart : match sample_open with
    | Ok (p, u) =>
        length (assembled_of (sample_revision_of p)) = 1%nat
        /\ match build_open_asr_revision (H := tail_digest) (sample_revision_of p) u with
           | Ok r => TranscriptSegment.range <$> TranscriptRevision.segments r = [TimeRange.mk 10000 90000]
                     /\ TranscriptRevision.published_until r = Some 20000000
           | Err _ => False
           end
    | Err _ => False
    end) by (vm_compute; repeat split).
  change (sample_open = Ok (partial, until)) in Hopen. rewrite Hopen in Hpart. destruct Hpart as [Hone Hr].
  destruct Hrest as (r & published & Hb & _ & Hp & _ & Hwhole & _).
  - change (Z.of_nat (length (assembled_of (sample_revision_of partial))) <= MAX_TRANSCRIPT_CUES). rewrite Hone. concrete.
  - apply (alone_no_clash _ _ 1); [done| |apply NoDup_singleton].
    change (Z.of_nat (length (assembled_of (sample_revision_of partial))) = 1). by rewrite Hone.
  - exists partial, until, r, published. split; [exact Hopen|]. split; [exact Hb|]. split; [exact Hp|].
    change (build_open_asr_revision (H := tail_digest) (sample_revision_of partial) until = Ok r) in Hb.
    rewrite Hb in Hr. destruct Hr as [Hr1 Hr2]. split; [exact Hr1|].
    rewrite Hp in Hr2. injection Hr2 as ->. split; [reflexivity|].
    intros whole Hfin Hfew Hn. destruct (Hwhole whole Hfin Hfew Hn) as (final & Hf & _ & Hc).
    exists final. split; [exact Hf|exact Hc].
Defined.
