(* ===== verification/JobKeys.v ===== *)
(** * JobKeys: what a job computes, as keys

    Models the keys of [crates/vsift-application/src/job.rs] and the operation
    identities of [crates/vsift-application/src/job/publish.rs]: digests of
    what is asked, of what is recognised and how, and of what is recognised
    over which revision, each with a first line of its own. *)

From Stdlib Require Import Ascii.
From S2P Require Import Prelude.
From S2P Require Import Text.
From S2P Require Import Timeline.
From S2P Require Import Identity.
From S2P Require Import Pagination.
From S2P Require Import AsrPlan.
From S2P Require Import AsrRun.
From S2P Require Import Cues.
From S2P Require Import DerivedIdentity.
From S2P Require Import Checkpoint.
From S2P Require Import Transcribe.

Definition JOB_IDENTITY_HEX : nat := 32.
Definition RETRANSCRIBE_COMMAND : text := literal "transcript.retranscribe".

Inductive JobKeyError := NotCanonical.

Module RequestDigest.
Record t := mk { digest : Sha256Hex.t }.

#[global] Instance eq_dec : EqDecision t.
Proof. solve_decision. Defined.
End RequestDigest.

(** The digest of a reviewed media tool; its 32 bytes. *)
Module MediaToolFingerprint.
Record t := mk { digest : text }.
End MediaToolFingerprint.

(** [none] for an absent text. *)
Definition none_text : text := literal "none".

Definition digest_lines `{Sha256} (domain : text) (lines : list text) : result Sha256Hex.t JobKeyError :=
  map_err (fun _ => NotCanonical) (Sha256Hex.parse (sha256_hex (material domain lines))).

Definition range_text (range : option TimeRange.t) : text :=
  match range with
  | None => literal "range=none"
  | Some range => literal "range=" ++ decimal (TimeRange.start range) ++ hyphen :: decimal (TimeRange.end_ range)
  end.

Definition retranscribe_request_digest `{Sha256} (session_id : OpaqueId SessionId) (range : option TimeRange.t)
    : result RequestDigest.t JobKeyError :=
  let? digest := digest_lines (literal "vsift.retranscribe-request.v1")
                   [as_str session_id; RETRANSCRIBE_COMMAND; range_text range] in
  Ok (RequestDigest.mk digest).

Module RecognitionScope.
Record t := mk {
  session_id : OpaqueId SessionId;
  source_id : DigestId SourceId;
  audio_stream : Z;
  replaced_range : TimeRange.t;
  plan : ChunkPlan.t;
  recognizer : RecognizerIdentity.t;
  verification : option MediaToolFingerprint.t
}.
End RecognitionScope.

(** [sha256_hex_of_digest] *)
Definition sha256_hex_of_digest (digest : text) : text :=
  byte ← digest; [hex_digit (Z.shiftr (byte_of byte) 4); hex_digit (Z.land (byte_of byte) 15)].

(** [fingerprint] *)
Definition fingerprint_text (scope : RecognitionScope.t) : text :=
  match RecognitionScope.verification scope with
  | None => none_text
  | Some fingerprint => sha256_hex_of_digest (MediaToolFingerprint.digest fingerprint)
  end.

(** The lines on the recognizer, its setup and the verification. *)
Definition recognizer_lines (scope : RecognitionScope.t) : list text :=
  let recognizer := RecognitionScope.recognizer scope in
  let provider := RecognizerIdentity.provider recognizer in
  let model := RecognizerIdentity.model recognizer in
  [decimal (ChunkPlan.window_us (RecognitionScope.plan scope));
   decimal (ChunkPlan.overlap_us (RecognitionScope.plan scope));
   decoding_identifier (RecognizerIdentity.decoding recognizer);
   provider_identifier (AsrProviderBuild.provider provider);
   Sha256Hex.as_str (AsrProviderBuild.executable_sha256 provider);
   profile_identifier (AsrModel.profile model);
   Sha256Hex.as_str (AsrModel.sha256 model);
   decimal (RecognizerIdentity.threads recognizer);
   fingerprint_text scope].

Definition recognition_lines (scope : RecognitionScope.t) : list text :=
  [as_str (RecognitionScope.session_id scope); digest_str (RecognitionScope.source_id scope);
   decimal (RecognitionScope.audio_stream scope);
   decimal (TimeRange.start (RecognitionScope.replaced_range scope));
   decimal (TimeRange.end_ (RecognitionScope.replaced_range scope))] ++ recognizer_lines scope.

Definition recognition_key `{Sha256} (scope : RecognitionScope.t) : result RecognitionKey.t JobKeyError :=
  let? digest := digest_lines (literal "vsift.recognition.v1") (recognition_lines scope) in
  Ok (RecognitionKey.mk digest).

Definition seed_lines (scope : RecognitionScope.t) : list text :=
  [as_str (RecognitionScope.session_id scope); digest_str (RecognitionScope.source_id scope);
   decimal (RecognitionScope.audio_stream scope)] ++ recognizer_lines scope.

Definition seed_key `{Sha256} (scope : RecognitionScope.t) : result RecognitionKey.t JobKeyError :=
  let? digest := digest_lines (literal "vsift.recognition-seed.v1") (seed_lines scope) in
  Ok (RecognitionKey.mk digest).

Definition base_text (base : option (OpaqueId TranscriptRevisionId)) : text :=
  match base with None => none_text | Some id => as_str id end.

Definition retranscribe_operation_key `{Sha256} (key : RecognitionKey.t)
    (base : option (OpaqueId TranscriptRevisionId)) : result (DigestId OperationKey) JobKeyError :=
  let? digest := digest_lines (literal "vsift.retranscribe-op.v1")
                   [Sha256Hex.as_str (RecognitionKey.digest key); base_text base] in
  map_err (fun _ => NotCanonical) (from_sha256 OperationKey (Sha256Hex.as_str digest)).

Definition job_id `{Sha256} (session_id : OpaqueId SessionId) (operation_key : DigestId OperationKey)
    : result (OpaqueId JobId) JobKeyError :=
  let? digest := digest_lines (literal "vsift.job.v1") [as_str session_id; digest_str operation_key] in
  let hex := Sha256Hex.as_str digest in
  map_err (fun _ => NotCanonical)
    (id_parse JobId (literal "job_" ++ if (JOB_IDENTITY_HEX <=? length hex)%nat then take JOB_IDENTITY_HEX hex else [])).

Definition derived_operation_id `{Sha256} (domain : text) (parts : list text)
    : result (OpaqueId OperationId) JobKeyError :=
  map_err (fun _ => NotCanonical) (id_parse OperationId (derived_identity (literal "op_") domain parts)).

Definition commit_operation_id `{Sha256} (job : OpaqueId JobId) (epoch attempt : Z)
    : result (OpaqueId OperationId) JobKeyError :=
  derived_operation_id (literal "vsift.job-commit.v1") [as_str job; decimal epoch; decimal attempt].

Definition worker_step_operation_id `{Sha256} (request : OpaqueId OperationId) (index : Z)
    : result (OpaqueId OperationId) JobKeyError :=
  derived_operation_id (literal "vsift.job-step.v1") [as_str request; decimal index].

Definition part_operation_id `{Sha256} (job : OpaqueId JobId) (epoch attempt part : Z)
    : result (OpaqueId OperationId) JobKeyError :=
  derived_operation_id (literal "vsift.job-part.v1") [as_str job; decimal epoch; decimal attempt; decimal part].

Definition stop_operation_id `{Sha256} (job : OpaqueId JobId) (epoch attempt : Z)
    : result (OpaqueId OperationId) JobKeyError :=
  derived_operation_id (literal "vsift.job-stop.v1") [as_str job; decimal epoch; decimal attempt].

(** ** Facts *)

(** The values that these texts are made of. *)
Record scope_typed (scope : RecognitionScope.t) : Prop := {
  typed_session : is_identifier SessionId (as_str (RecognitionScope.session_id scope));
  typed_source : exists digest, digest_str (RecognitionScope.source_id scope) = digest_prefix SourceId ++ digest
                                /\ is_digest digest;
  typed_stream : is_u32 (RecognitionScope.audio_stream scope);
  typed_range : is_u64 (TimeRange.start (RecognitionScope.replaced_range scope))
                /\ is_u64 (TimeRange.end_ (RecognitionScope.replaced_range scope));
  typed_plan : is_u64 (ChunkPlan.window_us (RecognitionScope.plan scope))
               /\ is_u64 (ChunkPlan.overlap_us (RecognitionScope.plan scope));
  typed_executable : is_digest (Sha256Hex.as_str (AsrProviderBuild.executable_sha256
                       (RecognizerIdentity.provider (RecognitionScope.recognizer scope))));
  typed_model : is_digest (Sha256Hex.as_str (AsrModel.sha256
                  (RecognizerIdentity.model (RecognitionScope.recognizer scope))));
  typed_threads : is_u16 (RecognizerIdentity.threads (RecognitionScope.recognizer scope));
  typed_fingerprint : forall f, RecognitionScope.verification scope = Some f -> length (MediaToolFingerprint.digest f) = 32%nat
}.

(** Different texts have different digests. *)
Definition collision_free `{Sha256} (m m' : text) : Prop := sha256 m = sha256 m' -> m = m'.

Lemma hex_digit_inj n m : 0 <= n < 16 -> 0 <= m < 16 -> hex_digit n = hex_digit m -> n = m.
Proof.
  intros Hn Hm E. assert (Hall : forallb (fun a => forallb (fun b =>
      implb (hex_digit (Z.of_nat a) =? hex_digit (Z.of_nat b))%char (a =? b)%nat) (seq 0 16)) (seq 0 16) = true)
    by (vm_compute; reflexivity).
  rewrite forallb_forall in Hall. specialize (Hall (Z.to_nat n) ltac:(apply in_seq; lia)).
  rewrite forallb_forall in Hall. specialize (Hall (Z.to_nat m) ltac:(apply in_seq; lia)).
  rewrite !Z2Nat.id, E, Ascii.eqb_refl in Hall by lia. cbn [implb] in Hall. apply Nat.eqb_eq in Hall. lia.
Qed.

Lemma hex_pair_inj c c' : byte_of c = byte_of c' -> c = c'.
Proof. unfold byte_of. intros E%N2Z.inj. by rewrite <- (ascii_N_embedding c), <- (ascii_N_embedding c'), E. Qed.

Lemma hex_inj digest digest' : sha256_hex_of_digest digest = sha256_hex_of_digest digest' -> digest = digest'.
Proof.
  revert digest'. induction digest as [|c digest IH]; intros [|c' digest']; [done..|]. intros E.
  unfold sha256_hex_of_digest in E. rewrite !bind_cons in E. cbn [app] in E. injection E as E1 E2 E3.
  pose proof (byte_range c). pose proof (byte_range c').
  assert (Hs : forall b, 0 <= b < 256 -> 0 <= Z.shiftr b 4 < 16)
    by (intros b Hb; rewrite Z.shiftr_div_pow2 by lia; change (2 ^ 4) with 16; divlia).
  assert (Hl : forall b, Z.land b 15 = b mod 16)
    by (intros b; change 15 with (Z.ones 4); rewrite Z.land_ones by lia; reflexivity).
  apply hex_digit_inj in E1; [|by apply Hs..].
  rewrite !Hl in E2. apply hex_digit_inj in E2; [|apply Z.mod_pos_bound; lia..].
  rewrite !Z.shiftr_div_pow2 in E1 by lia. change (2 ^ 4) with 16 in E1.
  rewrite (IH digest' E3). f_equal. apply hex_pair_inj. divlia.
Qed.

Lemma hex_length digest : length (sha256_hex_of_digest digest) = (2 * length digest)%nat.
Proof.
  unfold sha256_hex_of_digest. induction digest as [|c digest IH]; [done|].
  rewrite bind_cons, length_app, IH. cbn [length]. lia.
Qed.

Lemma hex_no_newline digest : Forall (fun c => c <> newline) (sha256_hex_of_digest digest).
Proof.
  unfold sha256_hex_of_digest. induction digest as [|c digest IH]; [constructor|]. rewrite bind_cons.
  pose proof (byte_range c).
  assert (Hd : forall n, 0 <= n < 16 -> hex_digit n <> newline).
  { intros n Hn E. pose proof (hex_digit_spec n Hn) as Hs. rewrite E in Hs. by vm_compute in Hs; intuition. }
  constructor; [|constructor; [|exact IH]]; apply Hd.
  - rewrite Z.shiftr_div_pow2 by lia. change (2 ^ 4) with 16. divlia.
  - change 15 with (Z.ones 4). rewrite Z.land_ones by lia. apply Z.mod_pos_bound. lia.
Qed.

Lemma digest_no_newline s : is_digest s -> Forall (fun c => c <> newline) s.
Proof. intros [_ Hs]. eapply Forall_impl; [exact Hs|]. intros c Hc ->. vm_compute in Hc. intuition congruence. Qed.

(** A digest of lines is always one. *)
Lemma digest_lines_ok `{Sha256Laws} domain lines :
  digest_lines domain lines = Ok (Sha256Hex.mk (sha256_hex (material domain lines))).
Proof.
  unfold digest_lines, Sha256Hex.parse. destruct (sha256_hex_digest (material domain lines)) as [Hl Hc].
  rewrite Hl. cbn [Nat.eqb negb orb]. by rewrite (proj2 (digest_chars _) Hc).
Qed.

Lemma material_lines_inj domain lines lines' :
  Forall (fun c => c <> newline) domain ->
  Forall (Forall (fun c => c <> newline)) lines -> Forall (Forall (fun c => c <> newline)) lines' ->
  material domain lines = material domain lines' -> lines = lines'.
Proof.
  intros Hd Hl Hl'. unfold material. change domain with (join_with newline [domain]).
  rewrite !material_join by done. cbn [app]. intros E. apply join_inj in E; [by injection E|done|done|by constructor..].
Qed.

(** A key made of such a digest, and when two of them are the same. *)
Definition key_of `{Sha256} (domain : text) (lines : list text) : result RecognitionKey.t JobKeyError :=
  let? digest := digest_lines domain lines in Ok (RecognitionKey.mk digest).

Lemma key_text_inj x y :
  (let? digest := Ok (E := JobKeyError) (Sha256Hex.mk x) in Ok (RecognitionKey.mk digest))
  = (let? digest := Ok (Sha256Hex.mk y) in Ok (RecognitionKey.mk digest)) -> x = y.
Proof. cbn. by intros [= ->]. Qed.

Lemma key_of_iff `{Sha256Laws} domain lines lines' :
  Forall (fun c => c <> newline) domain ->
  Forall (Forall (fun c => c <> newline)) lines -> Forall (Forall (fun c => c <> newline)) lines' ->
  collision_free (material domain lines) (material domain lines') ->
  key_of domain lines = key_of domain lines' <-> lines = lines'.
Proof.
  intros Hd Hl Hl' Hfree. split; [|by intros ->]. unfold key_of. rewrite !digest_lines_ok. intros E.
  apply (material_lines_inj domain); [done..|]. apply Hfree, hex_inj. exact (key_text_inj _ _ E).
Qed.

Lemma key_of_ok `{Sha256Laws} domain lines :
  exists key, key_of domain lines = Ok key /\ is_digest (Sha256Hex.as_str (RecognitionKey.digest key)).
Proof. unfold key_of. rewrite digest_lines_ok. eexists. split; [reflexivity|]. apply sha256_hex_digest. Qed.

Lemma profile_identifier_inj p p' : profile_identifier p = profile_identifier p' -> p = p'.
Proof. by destruct p, p'. Qed.

Lemma fingerprint_inj scope scope' :
  scope_typed scope -> scope_typed scope' -> fingerprint_text scope = fingerprint_text scope' ->
  RecognitionScope.verification scope = RecognitionScope.verification scope'.
Proof.
  intros Ht Ht'. unfold fingerprint_text.
  assert (Hd : forall f, length (MediaToolFingerprint.digest f) = 32%nat ->
                 sha256_hex_of_digest (MediaToolFingerprint.digest f) <> none_text).
  { intros f Hf E. apply (f_equal length) in E. rewrite hex_length, Hf in E. done. }
  destruct (RecognitionScope.verification scope) as [f|] eqn:Ef, (RecognitionScope.verification scope') as [f'|] eqn:Ef'.
  - intros E%hex_inj. by destruct f, f'; cbn in E; subst.
  - intros E. by destruct (Hd f (typed_fingerprint _ Ht f Ef)).
  - intros E. by destruct (Hd f' (typed_fingerprint _ Ht' f' Ef')).
  - done.
Qed.

Lemma recognizer_lines_inj scope scope' :
  scope_typed scope -> scope_typed scope' -> recognizer_lines scope = recognizer_lines scope' ->
  RecognitionScope.plan scope = RecognitionScope.plan scope'
  /\ RecognitionScope.recognizer scope = RecognitionScope.recognizer scope'
  /\ RecognitionScope.verification scope = RecognitionScope.verification scope'.
Proof.
  intros Ht Ht' E. unfold recognizer_lines in E. cbn zeta in E. injection E as E1 E2 _ _ E3 E4 E5 E6 E7.
  pose proof (typed_plan _ Ht) as [Hp1 Hp2]. pose proof (typed_plan _ Ht') as [Hp1' Hp2'].
  pose proof (typed_threads _ Ht). pose proof (typed_threads _ Ht').
  apply decimal_inj in E1; [|done..]. apply decimal_inj in E2; [|done..]. apply decimal_inj in E6; [|ulia..].
  apply profile_identifier_inj in E4. apply (fingerprint_inj scope scope') in E7; [|done..].
  split; [|split; [|exact E7]].
  - destruct (RecognitionScope.plan scope), (RecognitionScope.plan scope'). cbn in *. by subst.
  - destruct (RecognitionScope.recognizer scope) as [[[] [x]] [m [y]] [] n],
      (RecognitionScope.recognizer scope') as [[[] [x']] [m' [y']] [] n']. cbn in *. by subst.
Qed.

Lemma recognizer_lines_no_newline scope :
  scope_typed scope -> Forall (Forall (fun c => c <> newline)) (recognizer_lines scope).
Proof.
  intros Ht. destruct (typed_plan _ Ht) as [Hp1 Hp2]. pose proof (typed_threads _ Ht) as Hn.
  unfold recognizer_lines. cbn zeta.
  constructor; [by apply decimal_no_newline|]. constructor; [by apply decimal_no_newline|].
  constructor; [destruct (RecognizerIdentity.decoding _); by repeat constructor|].
  constructor; [destruct (AsrProviderBuild.provider _); by repeat constructor|].
  constructor; [apply digest_no_newline, typed_executable, Ht|].
  constructor; [destruct (AsrModel.profile _); by repeat constructor|].
  constructor; [apply digest_no_newline, typed_model, Ht|].
  constructor; [apply decimal_no_newline; ulia|]. constructor; [|constructor].
  unfold fingerprint_text. destruct (RecognitionScope.verification scope); [apply hex_no_newline|by repeat constructor].
Qed.

Lemma source_no_newline scope :
  scope_typed scope -> Forall (fun c => c <> newline) (digest_str (RecognitionScope.source_id scope)).
Proof.
  intros Ht. destruct (typed_source _ Ht) as (digest & -> & Hd). apply Forall_app.
  split; [by repeat constructor|by apply digest_no_newline].
Qed.

(** The same scope but for the replaced range. *)
Definition same_but_range (scope scope' : RecognitionScope.t) : Prop :=
  RecognitionScope.mk (RecognitionScope.session_id scope) (RecognitionScope.source_id scope)
    (RecognitionScope.audio_stream scope) (RecognitionScope.replaced_range scope') (RecognitionScope.plan scope)
    (RecognitionScope.recognizer scope) (RecognitionScope.verification scope) = scope'.

(** The lines that both keys begin with. *)
Lemma head_lines_inj scope scope' :
  scope_typed scope -> scope_typed scope' ->
  as_str (RecognitionScope.session_id scope) = as_str (RecognitionScope.session_id scope') ->
  digest_str (RecognitionScope.source_id scope) = digest_str (RecognitionScope.source_id scope') ->
  decimal (RecognitionScope.audio_stream scope) = decimal (RecognitionScope.audio_stream scope') ->
  RecognitionScope.session_id scope = RecognitionScope.session_id scope'
  /\ RecognitionScope.source_id scope = RecognitionScope.source_id scope'
  /\ RecognitionScope.audio_stream scope = RecognitionScope.audio_stream scope'.
Proof.
  intros Ht Ht' E1 E2 E3. pose proof (typed_stream _ Ht). pose proof (typed_stream _ Ht').
  apply decimal_inj in E3; [|ulia..]. split; [|split; [|exact E3]].
  - destruct (RecognitionScope.session_id scope), (RecognitionScope.session_id scope'). cbn in E1. by subst.
  - destruct (RecognitionScope.source_id scope), (RecognitionScope.source_id scope'). cbn in E2. by subst.
Qed.

Lemma seed_lines_no_newline scope : scope_typed scope -> Forall (Forall (fun c => c <> newline)) (seed_lines scope).
Proof.
  intros Ht. pose proof (typed_stream _ Ht). unfold seed_lines. cbn [app].
  constructor; [by eapply identifier_no_newline, typed_session|]. constructor; [by apply source_no_newline|].
  constructor; [apply decimal_no_newline; ulia|]. by apply recognizer_lines_no_newline.
Qed.

Lemma recognition_lines_no_newline scope :
  scope_typed scope -> Forall (Forall (fun c => c <> newline)) (recognition_lines scope).
Proof.
  intros Ht. pose proof (seed_lines_no_newline _ Ht) as Hs. destruct (typed_range _ Ht) as [Ha Hb].
  apply Forall_cons in Hs as [Hl1 Hs].
  apply Forall_cons in Hs as [Hl2 Hs]. apply Forall_cons in Hs as [Hl3 Hs].
  constructor; [exact Hl1|]. constructor; [exact Hl2|]. constructor; [exact Hl3|].
  constructor; [by apply decimal_no_newline|]. constructor; [by apply decimal_no_newline|exact Hs].
Qed.

Lemma seed_lines_iff scope scope' :
  scope_typed scope -> scope_typed scope' -> seed_lines scope = seed_lines scope' <-> same_but_range scope scope'.
Proof.
  intros Ht Ht'. split; [|by intros <-]. unfold seed_lines. generalize (recognizer_lines_inj _ _ Ht Ht').
  generalize (recognizer_lines scope) (recognizer_lines scope'). cbn [app]. intros r r' Hr E. injection E as E1 E2 E3 E4.
  destruct (head_lines_inj _ _ Ht Ht' E1 E2 E3) as (? & ? & ?).
  destruct (Hr E4) as (? & ? & ?).
  unfold same_but_range. destruct scope, scope'. cbn in *. by subst.
Qed.

Lemma recognition_lines_iff scope scope' :
  scope_typed scope -> scope_typed scope' -> recognition_lines scope = recognition_lines scope' <-> scope = scope'.
Proof.
  intros Ht Ht'. split; [|by intros <-]. unfold recognition_lines. generalize (recognizer_lines_inj _ _ Ht Ht').
  generalize (recognizer_lines scope) (recognizer_lines scope'). cbn [app]. intros r r' Hr E.
  injection E as E1 E2 E3 E4 E5 E6. destruct (head_lines_inj _ _ Ht Ht' E1 E2 E3) as (? & ? & ?).
  destruct (Hr E6) as (? & ? & ?).
  destruct (typed_range _ Ht) as [? ?], (typed_range _ Ht') as [? ?].
  apply decimal_inj in E4; [|done..]. apply decimal_inj in E5; [|done..].
  destruct scope as [? ? ? [? ?] ? ? ?], scope' as [? ? ? [? ?] ? ? ?]. cbn in *. by subst.
Qed.

Definition recognition_material (scope : RecognitionScope.t) : text :=
  material (literal "vsift.recognition.v1") (recognition_lines scope).
Definition seed_material (scope : RecognitionScope.t) : text :=
  material (literal "vsift.recognition-seed.v1") (seed_lines scope).

(** The keys that checkpoints and seeded answers are stored under tell
    recognitions apart. As long as SHA-256 does not collide on them, two runs
    have one recognition key exactly when they recognise the same range of the
    same audio stream of the same source and session, with the same chunk plan,
    recognizer, model, threads and media tools; and one seed key exactly when
    only their ranges may differ. Both keys are always canonical digests.
    Claim C20. *)
Theorem recognition_keys_tell_apart `{Sha256Laws} scope scope' :
  scope_typed scope -> scope_typed scope' ->
  collision_free (recognition_material scope) (recognition_material scope') ->
  collision_free (seed_material scope) (seed_material scope') ->
  (recognition_key scope = recognition_key scope' <-> scope = scope')
  /\ (seed_key scope = seed_key scope' <-> same_but_range scope scope')
  /\ (exists key, recognition_key scope = Ok key /\ is_digest (Sha256Hex.as_str (RecognitionKey.digest key)))
  /\ (exists key, seed_key scope = Ok key /\ is_digest (Sha256Hex.as_str (RecognitionKey.digest key))).
Proof.
  intros Ht Ht' Hfree Hfree'. split; [|split; [|split]].
  - rewrite <- (recognition_lines_iff _ _ Ht Ht'). apply key_of_iff; [by repeat constructor| | |exact Hfree];
      by apply recognition_lines_no_newline.
  - rewrite <- (seed_lines_iff _ _ Ht Ht'). apply key_of_iff; [by repeat constructor| | |exact Hfree'];
      by apply seed_lines_no_newline.
  - apply key_of_ok.
  - apply key_of_ok.
Qed.

(** Two recognitions that differ in the media tools they verified. *)
Definition zeros : text := replicate 64 zero_char.

Definition sample_recognition (fingerprint : option MediaToolFingerprint.t) : RecognitionScope.t :=
  RecognitionScope.mk (mkOpaqueId (literal "ses_0123456789abcdef")) (mkDigestId (literal "src_sha256_" ++ zeros)) 0
    (TimeRange.mk 0 61000000) ChunkPlan.R0
    (RecognizerIdentity.mk (AsrProviderBuild.mk WhisperCpp (Sha256Hex.mk zeros)) (AsrModel.mk Base (Sha256Hex.mk zeros))
       R0V1 4) fingerprint.

Definition sample_fingerprint : MediaToolFingerprint.t := MediaToolFingerprint.mk (replicate 32 zero_char).

Lemma zeros_digest : is_digest zeros.
Proof. by apply validate_digest_spec. Qed.

Lemma sample_recognition_typed fingerprint :
  (forall f, fingerprint = Some f -> f = sample_fingerprint) -> scope_typed (sample_recognition fingerprint).
Proof.
  intros Hf. constructor; cbn [RecognitionScope.session_id RecognitionScope.source_id RecognitionScope.audio_stream
    RecognitionScope.replaced_range RecognitionScope.plan RecognitionScope.recognizer RecognitionScope.verification
    sample_recognition RecognizerIdentity.provider RecognizerIdentity.model RecognizerIdentity.threads
    AsrProviderBuild.executable_sha256 AsrModel.sha256 Sha256Hex.as_str].
  - apply (id_parse_spec SessionId (literal "ses_0123456789abcdef") (mkOpaqueId (literal "ses_0123456789abcdef"))).
    vm_compute. reflexivity.
  - exists zeros. split; [done|apply zeros_digest].
  - concrete.
  - concrete.
  - concrete.
  - apply zeros_digest.
  - apply zeros_digest.
  - concrete.
  - by intros f ->%Hf.
Qed.

Lemma recognition_keys_tell_apart_witness :
  recognition_key (H := tail_digest) (sample_recognition None)
  <> recognition_key (H := tail_digest) (sample_recognition (Some sample_fingerprint))
  /\ recognition_key (H := tail_digest) (sample_recognition None) = recognition_key (H := tail_digest) (sample_recognition None).
Proof.
  assert (Hfree : forall m m' : text, bool_decide (tail_digest m = tail_digest m') = false ->
    collision_free (H := tail_digest) m m') by (intros m m' E%bool_decide_eq_false Hc; by destruct E).
  pose proof (sample_recognition_typed None ltac:(done)) as Ht.
  pose proof (sample_recognition_typed (Some sample_fingerprint) ltac:(by intros f [= <-])) as Ht'.
  destruct (recognition_keys_tell_apart (H0 := tail_digest_laws) _ _ Ht Ht') as [Hkeys _];
    [apply Hfree; vm_compute; reflexivity..|].
  split; [|done]. intros Heq%Hkeys. discriminate.
Defined.
