(* ===== verification/JobRecord.v ===== *)
(** * JobRecord: the stored record of a job

    Models, of [crates/vsift-application/src/job.rs], the request and the record
    of a job, the changes its owner makes to it, what another process may say of
    it, and whether it can be resumed; and the errors of session storage of
    [crates/vsift-application/src/storage.rs]. *)

From stdpp Require Import relations.
From S2P Require Import Prelude.
From S2P Require Import Text.
From S2P Require Import Timeline.
From S2P Require Import Storage.
From S2P Require Import Failure.
From S2P Require Import Retry.
From S2P Require Import Admission.
From S2P Require Import Identity.
From S2P Require Import Job.
From S2P Require Import Checkpoint.
From S2P Require Import JobKeys.

Definition MAX_JOB_OPERATION_IDS : nat := 8.
Definition MAX_SESSION_JOBS : nat := 64.
Definition MAX_RECORDED_FAILURES : nat := Z.to_nat MAX_JOB_ATTEMPTS.

Module SessionStorageError.
Inductive t :=
| UnsupportedGuarantee (requested : DurabilityRequirement) (available : PublicationGuarantee)
| Busy | StateConflict | IntegrityFailure | UnsupportedVersion | AccessDenied | CapacityExhausted | Io.
End SessionStorageError.

Module JobRequest.
Inductive t :=
| Retranscribe (range : option TimeRange.t) (share : RecognitionShare.t)
| Prepare (mode : JobMode.t) (first : option TimeRange.t).

Definition kind (r : t) : JobKind :=
  match r with Retranscribe _ _ => Job.Retranscribe | Prepare _ _ => Job.Prepare end.

Definition range (r : t) : option TimeRange.t :=
  match r with Retranscribe range _ => range | Prepare _ _ => None end.

#[global] Instance mode_eq_dec : EqDecision JobMode.t.
Proof. solve_decision. Defined.

Definition same_work (r other : t) : bool :=
  match r, other with
  | Retranscribe range _, Retranscribe other _ => bool_decide (range = other)
  | Prepare mode first, Prepare mode' first' => bool_decide (mode = mode') && bool_decide (first = first')
  | _, _ => false
  end.

Definition share (r : t) : option RecognitionShare.t :=
  match r with Retranscribe _ share => Some share | Prepare _ _ => None end.

Definition mode (r : t) : option JobMode.t :=
  match r with Prepare mode _ => Some mode | Retranscribe _ _ => None end.

Definition first (r : t) : option TimeRange.t :=
  match r with Prepare _ first => first | Retranscribe _ _ => None end.
End JobRequest.

Module JobSpec.
Record t := mk {
  session_id : OpaqueId SessionId;
  job_id : OpaqueId JobId;
  request_digest : RequestDigest.t;
  operation_key : DigestId OperationKey;
  recognition_key : RecognitionKey.t;
  request : JobRequest.t;
  planned_chunks : option Z
}.
End JobSpec.

Module JobCommit.
Record t := mk {
  operation_id : OpaqueId OperationId;
  observed_generation : StorageGeneration.t;
  revision_id : OpaqueId TranscriptRevisionId
}.
End JobCommit.

Module JobStoreError.
Inductive t :=
| NotFound
| Transition (error : JobTransitionError)
| StaleOwner
| Storage (error : SessionStorageError.t).
End JobStoreError.

Module JobChange.
Inductive t :=
| Start
| Commit (commit : JobCommit.t)
| Succeed
| Interrupt (failure : option AttemptFailure)
| Fail (failure : option AttemptFailure)
| RequestCancel
| Cancel
| Restart.

Definition discards_checkpoints (c : t) : bool :=
  match c with Succeed | Fail _ | Cancel | Restart => true | _ => false end.
End JobChange.

Definition push_failure (failures : list AttemptFailure) (failure : AttemptFailure) : list AttemptFailure :=
  (if (MAX_RECORDED_FAILURES <=? length failures)%nat then drop 1 failures else failures) ++ [failure].

Definition push_some (failures : list AttemptFailure) (failure : option AttemptFailure) : list AttemptFailure :=
  match failure with Some failure => push_failure failures failure | None => failures end.

Module JobRecord.
Record t := mk {
  job_id : OpaqueId JobId;
  session_id : OpaqueId SessionId;
  request_digest : RequestDigest.t;
  operation_key : DigestId OperationKey;
  recognition_key : RecognitionKey.t;
  request : JobRequest.t;
  planned_chunks : option Z;
  operation_ids : list (OpaqueId OperationId);
  state : JobState;
  epoch : Z;
  attempt : Z;
  failures : list AttemptFailure;
  commit : option JobCommit.t;
  created_at_unix_seconds : Z;
  updated_at_unix_seconds : Z
}.

Definition queued (spec : JobSpec.t) (now : Z) : t :=
  mk (JobSpec.job_id spec) (JobSpec.session_id spec) (JobSpec.request_digest spec) (JobSpec.operation_key spec)
    (JobSpec.recognition_key spec) (JobSpec.request spec) (JobSpec.planned_chunks spec) [] Queued 0 0 [] None now now.

(** The record with what a change may set. *)
Definition set (r : t) (state : JobState) (epoch attempt : Z) (failures : list AttemptFailure)
    (commit : option JobCommit.t) (now : Z) : t :=
  mk (job_id r) (session_id r) (request_digest r) (operation_key r) (recognition_key r) (request r)
    (planned_chunks r) (operation_ids r) state epoch attempt failures commit (created_at_unix_seconds r)
    (Z.max now (updated_at_unix_seconds r)).

(** [self.state.transition_to(next)?] *)
Definition moved_to (r : t) (next : JobState) : result JobState JobStoreError.t :=
  map_err JobStoreError.Transition (transition_to (state r) next).

Definition changed (r : t) (change : JobChange.t) (now : Z) : result t JobStoreError.t :=
  match change with
  | JobChange.Start =>
      let? next := moved_to r Running in
      if MAX_JOB_ATTEMPTS <=? attempt r then Err (JobStoreError.Storage SessionStorageError.CapacityExhausted)
      else Ok (set r next (epoch r) (saturating_u32 (attempt r + 1)) (failures r) None now)
  | JobChange.Commit commit =>
      let? next := if bool_decide (state r = Committing) then Ok (state r) else moved_to r Committing in
      Ok (set r next (epoch r) (attempt r) (failures r) (Some commit) now)
  | JobChange.Succeed =>
      let? next := moved_to r Succeeded in
      Ok (set r next (epoch r) (attempt r) (failures r) (commit r) now)
  | JobChange.Interrupt failure =>
      let? next := moved_to r Interrupted in
      Ok (set r next (epoch r) (attempt r) (push_some (failures r) failure) None now)
  | JobChange.Fail failure =>
      let? next := moved_to r Failed in
      Ok (set r next (epoch r) (attempt r) (push_some (failures r) failure) None now)
  | JobChange.RequestCancel =>
      let? next := moved_to r Cancelling in
      Ok (set r next (epoch r) (attempt r) (failures r) (commit r) now)
  | JobChange.Cancel =>
      let? next := moved_to r Cancelled in
      Ok (set r next (epoch r) (attempt r) (failures r) None now)
  | JobChange.Restart =>
      if match state r with Failed | Cancelled => false | _ => true end
      then Err (JobStoreError.Transition (mkJobTransitionError (state r) Queued))
      else
        let? epoch := ok_or (checked_u32 (epoch r + 1)) (JobStoreError.Storage SessionStorageError.CapacityExhausted) in
        Ok (set r Queued epoch 0 [] None now)
  end.
End JobRecord.

Inductive JobLiveness := Owned | Unowned.

Module JobView.
Record t := mk { record : JobRecord.t; liveness : JobLiveness; checkpoints : Z }.

Definition effective_state (v : t) : JobState :=
  if claims_an_owner (JobRecord.state (record v)) && match liveness v with Unowned => true | Owned => false end
  then Interrupted else JobRecord.state (record v).
End JobView.

Module Resumability.
Inductive t := Interrupted | NotStarted | LiveOwner | Succeeded | Failed | Cancelled | SessionNotOpen.

Definition ALL : list t := [Interrupted; NotStarted; LiveOwner; Succeeded; Failed; Cancelled; SessionNotOpen].

Definition of_state (state : JobState) (liveness : JobLiveness) (session_open : bool) : t :=
  match liveness with
  | Owned => LiveOwner
  | Unowned =>
      match state with
      | Job.Succeeded => Succeeded
      | Job.Failed => Failed
      | Job.Cancelled => Cancelled
      | _ =>
          if negb session_open then SessionNotOpen
          else match state with Job.Queued => NotStarted | _ => Interrupted end
      end
  end.

Definition resumable (r : t) : bool := match r with Interrupted | NotStarted => true | _ => false end.

Definition identifier (r : t) : text :=
  literal match r with
          | Interrupted => "interrupted"
          | NotStarted => "not_started"
          | LiveOwner => "live_owner"
          | Succeeded => "succeeded"
          | Failed => "failed"
          | Cancelled => "cancelled"
          | SessionNotOpen => "session_not_open"
          end.
End Resumability.

(** Whether an unowned job that was running has no attempt left: [exhausted]
    of [end_interrupted] and [observed_state]. *)
Definition exhausted (r : JobRecord.t) : bool :=
  (MAX_JOB_ATTEMPTS <=? JobRecord.attempt r) || bool_decide (is_Some (poisoned_chunk (JobRecord.failures r))).

(** ** The record stays consistent *)

(** A commit is recorded exactly while it is made and once it is made; the
    counters are within their bounds. *)
Record record_inv (r : JobRecord.t) : Prop := {
  inv_commit : is_Some (JobRecord.commit r) <-> JobRecord.state r = Committing \/ JobRecord.state r = Succeeded;
  inv_attempt : 0 <= JobRecord.attempt r <= MAX_JOB_ATTEMPTS;
  inv_epoch : is_u32 (JobRecord.epoch r);
  inv_failures : (length (JobRecord.failures r) <= MAX_RECORDED_FAILURES)%nat;
  inv_started : JobRecord.attempt r = 0 -> JobRecord.state r = Queued \/ JobRecord.state r = Cancelling
                                           \/ JobRecord.state r = Cancelled \/ JobRecord.state r = Failed
}.

(** What no change touches. *)
Definition same_job (r r' : JobRecord.t) : Prop :=
  JobRecord.job_id r' = JobRecord.job_id r /\ JobRecord.session_id r' = JobRecord.session_id r
  /\ JobRecord.request_digest r' = JobRecord.request_digest r
  /\ JobRecord.operation_key r' = JobRecord.operation_key r
  /\ JobRecord.recognition_key r' = JobRecord.recognition_key r /\ JobRecord.request r' = JobRecord.request r
  /\ JobRecord.planned_chunks r' = JobRecord.planned_chunks r
  /\ JobRecord.operation_ids r' = JobRecord.operation_ids r
  /\ JobRecord.created_at_unix_seconds r' = JobRecord.created_at_unix_seconds r
  /\ JobRecord.updated_at_unix_seconds r <= JobRecord.updated_at_unix_seconds r'.

Lemma push_failure_length failures failure :
  (length failures <= MAX_RECORDED_FAILURES)%nat ->
  (length (push_failure failures failure) <= MAX_RECORDED_FAILURES)%nat
  /\ last (push_failure failures failure) = Some failure.
Proof.
  intros Hl. unfold push_failure. rewrite last_snoc, length_app. split; [|done]. cbn [length].
  assert (0 < MAX_RECORDED_FAILURES)%nat by (vm_compute; lia).
  destruct (Nat.leb_spec MAX_RECORDED_FAILURES (length failures)); [rewrite length_drop|]; lia.
Qed.

Lemma set_same r state epoch attempt failures commit now :
  same_job r (JobRecord.set r state epoch attempt failures commit now).
Proof. repeat split. cbn. lia. Qed.

Lemma moved_to_Ok r next s : JobRecord.moved_to r next = Ok s <-> s = next /\ step (JobRecord.state r) next.
Proof.
  unfold JobRecord.moved_to, step, transition_to. destruct (match JobRecord.state r with Queued => _ | _ => _ end); cbn.
  - split; [by intros [= <-]|by intros [-> _]].
  - split; [done|by intros [_ ?]].
Qed.

(** What an accepted change makes of a record. *)
Lemma changed_set r change now r' :
  JobRecord.changed r change now = Ok r' ->
  exists state epoch attempt failures commit, r' = JobRecord.set r state epoch attempt failures commit now
    /\ match change with
       | JobChange.Start => step (JobRecord.state r) Running /\ JobRecord.attempt r < MAX_JOB_ATTEMPTS
           /\ (state, epoch, attempt, failures, commit)
              = (Running, JobRecord.epoch r, saturating_u32 (JobRecord.attempt r + 1), JobRecord.failures r, None)
       | JobChange.Commit c => (JobRecord.state r = Committing \/ step (JobRecord.state r) Committing)
           /\ (state, epoch, attempt, failures, commit)
              = (Committing, JobRecord.epoch r, JobRecord.attempt r, JobRecord.failures r, Some c)
       | JobChange.Succeed => step (JobRecord.state r) Succeeded
           /\ (state, epoch, attempt, failures, commit)
              = (Succeeded, JobRecord.epoch r, JobRecord.attempt r, JobRecord.failures r, JobRecord.commit r)
       | JobChange.Interrupt failure => step (JobRecord.state r) Interrupted
           /\ (state, epoch, attempt, failures, commit)
              = (Interrupted, JobRecord.epoch r, JobRecord.attempt r, push_some (JobRecord.failures r) failure, None)
       | JobChange.Fail failure => step (JobRecord.state r) Failed
           /\ (state, epoch, attempt, failures, commit)
              = (Failed, JobRecord.epoch r, JobRecord.attempt r, push_some (JobRecord.failures r) failure, None)
       | JobChange.RequestCancel => step (JobRecord.state r) Cancelling
           /\ (state, epoch, attempt, failures, commit)
              = (Cancelling, JobRecord.epoch r, JobRecord.attempt r, JobRecord.failures r, JobRecord.commit r)
       | JobChange.Cancel => step (JobRecord.state r) Cancelled
           /\ (state, epoch, attempt, failures, commit)
              = (Cancelled, JobRecord.epoch r, JobRecord.attempt r, JobRecord.failures r, None)
       | JobChange.Restart => (JobRecord.state r = Failed \/ JobRecord.state r = Cancelled)
           /\ JobRecord.epoch r + 1 <= U32_MAX
           /\ (state, epoch, attempt, failures, commit) = (Queued, JobRecord.epoch r + 1, 0, [], None)
       end.
Proof.
  destruct change as [|c| |failure|failure| | |]; cbn [JobRecord.changed].
  8:{ destruct (match JobRecord.state r with Failed | Cancelled => _ | _ => _ end) eqn:Es; [done|].
      destruct (checked_u32 (JobRecord.epoch r + 1)) as [e|] eqn:Ee; [|done]. cbn. intros [= <-].
      apply checked_Some in Ee as [-> ?]. eexists _, _, _, _, _. split; [reflexivity|].
      split; [by destruct (JobRecord.state r); auto|]. split; [lia|done]. }
  2:{ case_bool_decide as Es; cbn [result_bind].
      - intros [= <-]. eexists _, _, _, _, _. split; [reflexivity|]. rewrite Es. split; [by left|done].
      - destruct (JobRecord.moved_to r Committing) as [next|] eqn:Em; [|done]. cbn. intros [= <-].
        apply moved_to_Ok in Em as [-> Em]. eexists _, _, _, _, _. split; [reflexivity|]. split; [by right|done]. }
  all: match goal with |- context [JobRecord.moved_to ?q ?n] => destruct (JobRecord.moved_to q n) as [next|] eqn:Em end;
    [|done]; apply moved_to_Ok in Em as [-> Em]; cbn [result_bind].
  1: match goal with |- context [MAX_JOB_ATTEMPTS <=? ?a] => destruct (Z.leb_spec MAX_JOB_ATTEMPTS a) end; [done|].
  all: intros [= <-]; eexists _, _, _, _, _; (split; [reflexivity|]); done.
Qed.

Lemma changed_inv r change now r' :
  record_inv r -> JobRecord.changed r change now = Ok r' -> record_inv r' /\ same_job r r'.
Proof.
  intros [Hc Ha He Hf Hs] (state & epoch & attempt & failures & commit & -> & Hch)%changed_set.
  split; [|apply set_same].
  assert (Hpush : forall failure, (length (push_some (JobRecord.failures r) failure) <= MAX_RECORDED_FAILURES)%nat)
    by (intros [f|]; [by apply push_failure_length|done]).
  assert (Hnone : is_Some (None (A := JobCommit.t)) <-> False) by (split; [by intros [? ?]|done]).
  destruct change; destruct_and? Hch;
    match goal with E : (_, _, _, _, _) = _ |- _ => injection E as -> -> -> -> -> end;
    constructor; cbn; unfold MAX_JOB_ATTEMPTS in *; try done; try ulia; try (by rewrite Hnone; naive_solver).
  all: unfold step, transition_to in *; destruct (JobRecord.state r); cbn in *; try discriminate; naive_solver.
Qed.
