(* ===== verification/JobStore.v ===== *)
(** * JobStore: the ports of a job

    Models, of [crates/vsift-application/src/job/run.rs] and [job.rs], one
    retranscription request and the operations of the ports a job reads and
    changes the session through: the revisions of the session, the chain of its
    commits, and the record of the job. The ports are parameters over a type of
    worlds, as in Transcribe.v. *)

From S2P Require Import Prelude.
From S2P Require Import Text.
From S2P Require Import Timeline.
From S2P Require Import Storage.
From S2P Require Import Identity.
From S2P Require Import Retry.
From S2P Require Import Admission.
From S2P Require Import Job.
From S2P Require Import AsrRun.
From S2P Require Import Cues.
From S2P Require Import AsrOutput.
From S2P Require Import Revision.
From S2P Require Import Checkpoint.
From S2P Require Import Transcribe.
From S2P Require Import JobRecord.

#[global] Instance SpeakerLabel_eq_dec : EqDecision SpeakerLabel.t.
Proof. solve_decision. Defined.
#[global] Instance CueSource_eq_dec : EqDecision CueSource.t.
Proof. solve_decision. Defined.
#[global] Instance CueTiming_eq_dec : EqDecision CueTiming.t.
Proof. solve_decision. Defined.
#[global] Instance SegmentOrigin_eq_dec : EqDecision SegmentOrigin.
Proof. solve_decision. Defined.
#[global] Instance CarriedFrom_eq_dec : EqDecision CarriedFrom.t.
Proof. solve_decision. Defined.
#[global] Instance TranscriptSegment_eq_dec : EqDecision TranscriptSegment.t.
Proof. solve_decision. Defined.

Module SessionHead.
Record t := mk { generation : StorageGeneration.t; newest : option TranscriptRevision.t }.

(** The identity of the newest revision. *)
Definition newest_id (h : t) : option (OpaqueId TranscriptRevisionId) := TranscriptRevision.id <$> newest h.
End SessionHead.

Module PublishedOpenRevision.
(** [parts] is a [NonZeroU32]. *)
Record t := mk {
  revision : TranscriptRevision.t;
  parts : Z;
  merge_rules : Z;
  job_id : OpaqueId JobId
}.
End PublishedOpenRevision.

Module RetranscriptionRun.
Record t := mk {
  spec : JobSpec.t;
  operation_id : option (OpaqueId OperationId);
  transcribe : TranscribeRangeRequest.t;
  source_id : DigestId SourceId;
  requested : option TimeRange.t;
  base : option TranscriptRevision.t;
  observed : StorageGeneration.t;
  now : Z;
  admission : AdmissionWait.t
}.

Definition session_id (run : t) : OpaqueId SessionId := JobSpec.session_id (spec run).
Definition job_id (run : t) : OpaqueId JobId := JobSpec.job_id (spec run).
End RetranscriptionRun.

(** The revisions of the session, of [RevisionStore]; its admission capacity
    is not modelled. *)
Module RevisionStore.
Record t {W : Type} := mk {
  head : OpaqueId SessionId -> Z -> Eff W SessionStorageError.t SessionHead.t;
  revision : OpaqueId SessionId -> OpaqueId TranscriptRevisionId -> Z ->
             Eff W SessionStorageError.t (option TranscriptRevision.t);
  open_revision : OpaqueId SessionId -> Z -> Eff W SessionStorageError.t (option PublishedOpenRevision.t);
  publish_part : OpaqueId SessionId -> OpaqueId OperationId -> StorageGeneration.t -> TranscriptRevision.t ->
                 OpaqueId JobId -> Z -> nat -> Z -> Eff W SessionStorageError.t StorageGeneration.t;
  publish_revision : OpaqueId SessionId -> OpaqueId OperationId -> StorageGeneration.t -> TranscriptRevision.t ->
                     Z -> Eff W SessionStorageError.t StorageGeneration.t
}.
Arguments t : clear implicits.
End RevisionStore.

(** [CommitLedger] *)
Module CommitLedger.
Record t {W : Type} := mk {
  committed_generation : OpaqueId SessionId -> OpaqueId OperationId -> StorageGeneration.t ->
                         Eff W SessionStorageError.t (option StorageGeneration.t)
}.
Arguments t : clear implicits.
End CommitLedger.

(** [JobOwner]: the record as its owner holds it, and how it changes it; only
    one job is owned at a time. *)
Module JobOwner.
Record t {W : Type} := mk {
  record : W -> JobRecord.t;
  apply : JobChange.t -> Z -> Eff W JobStoreError.t unit;
  bind_operation : OpaqueId OperationId -> Z -> Eff W JobStoreError.t unit;
  cancel_requested : W -> bool * W
}.
Arguments t : clear implicits.
End JobOwner.

Module CancelRequest.
Inductive t := Requested | AlreadyRequested | TooLate | Terminal (state : JobState) | NotLive.
End CancelRequest.

(** [JobStore]: taking ownership leaves the owner in the world, and
    [drop_owner] gives it up. *)
Module JobStore.
Record t {W : Type} := mk {
  owner : JobOwner.t W;
  drop_owner : W -> W;
  job : OpaqueId SessionId -> OpaqueId JobId -> Eff W JobStoreError.t (option JobView.t);
  job_for_operation : OpaqueId SessionId -> OpaqueId OperationId -> Eff W JobStoreError.t (option (OpaqueId JobId));
  open_or_create : JobSpec.t -> Z -> Eff W JobStoreError.t bool;
  acquire : OpaqueId SessionId -> OpaqueId JobId -> Eff W JobStoreError.t unit;
  request_cancel : OpaqueId SessionId -> OpaqueId JobId -> Z -> Eff W JobStoreError.t CancelRequest.t
}.
Arguments t : clear implicits.
End JobStore.

(** [RetryTimer] *)
Module RetryTimer.
Record t {W : Type} := mk {
  jitter : W -> Jitter.t * W;
  sleep : Duration -> W -> W
}.
Arguments t : clear implicits.
End RetryTimer.
