(* ===== verification/Publish.v ===== *)
(** * Publish: committing a revision in parts while its run goes on

    Models [crates/vsift-application/src/job/publish.rs]: the publisher of an
    attempt, what it publishes after a chunk and when it gives up, and how a run
    that cannot be resumed is sealed as stopped. A panic inside the publisher,
    which would poison its lock, is not modelled. *)

From S2P Require Import Prelude.
From S2P Require Import Text.
From S2P Require Import Timeline.
From S2P Require Import Storage.
From S2P Require Import Identity.
From S2P Require Import Session.
From S2P Require Import Retry.
From S2P Require Import Chars.
From S2P Require Import AsrRun.
From S2P Require Import Settled.
From S2P Require Import Revision.
From S2P Require Import DerivedIdentity.
From S2P Require Import RevisionBuild.
From S2P Require Import RevisionGrowth.
From S2P Require Import Transcribe.
From S2P Require Import JobKeys.
From S2P Require Import JobRecord.
From S2P Require Import JobStore.

Inductive Publication := AtTheSeal | AsItGoes (interval : Duration).

Inductive PublishingStopped := CheckpointMissing | Diverged | NotOurs | TooManyParts | AudioTooEarly | Failed.

Module State.
Record t := mk {
  published : option (TranscriptRevision.t * Z);
  last_at : option Duration;
  chunks_at_last : nat;
  stopped : option PublishingStopped
}.
End State.

(** The first comparison is of [Option]s, where [None] comes before all times. *)
Definition until_ltb (a b : option MediaTime) : bool :=
  match a, b with
  | None, Some _ => true
  | Some a, Some b => a <? b
  | _, None => false
  end.

Section Publisher.
Context {W : Type} `{UnicodeTables} `{Sha256}.
(** The run, the store, the clock and the attempt of a [Publisher]. *)
Context (run : RetranscriptionRun.t) (store : RevisionStore.t W) (publication : Publication).
Context (elapsed : W -> Z * W) (epoch attempt : Z).

Definition fresh_state (published : option (TranscriptRevision.t * Z)) (stopped : option PublishingStopped) : State.t :=
  State.mk published None 0 stopped.

Definition new (w : W) : State.t * W :=
  match publication with
  | AtTheSeal => (fresh_state None None, w)
  | AsItGoes _ =>
      match RevisionStore.open_revision store (RetranscriptionRun.session_id run) (RetranscriptionRun.now run) w with
      | (Ok (Some open), w') =>
          if negb (bool_decide (PublishedOpenRevision.job_id open = RetranscriptionRun.job_id run))
          then (fresh_state None (Some NotOurs), w')
          else
            (fresh_state (Some (PublishedOpenRevision.revision open, PublishedOpenRevision.parts open))
               (if PublishedOpenRevision.merge_rules open =? MERGE_RULES_VERSION then None else Some Diverged), w')
      | (Ok None, w') => (fresh_state None None, w')
      | (Err _, w') => (fresh_state None (Some Failed), w')
      end
  end.

Definition outcome (st : State.t) : option TranscriptRevision.t * option PublishingStopped :=
  (fst <$> State.published st, State.stopped st).

(** The number of the revision over [base]. *)
Definition number_over (base : option TranscriptRevision.t) : option Z :=
  match base with
  | None => Some 1
  | Some base => number ← checked_u32 (TranscriptRevision.number base + 1); if number =? 0 then None else Some number
  end.

(** A request for the revision of [transcription] over [base]. *)
Definition request_over (base : option TranscriptRevision.t) (number : Z) (transcription : AsrTranscription.t)
    : AsrRevisionRequest.t :=
  AsrRevisionRequest.mk (RetranscriptionRun.session_id run) (RetranscriptionRun.source_id run)
    (TranscribeRangeRequest.source_segment (RetranscriptionRun.transcribe run)) number transcription
    ((fun base => RevisionSplice.mk base (TranscribeRangeRequest.range (RetranscriptionRun.transcribe run))) <$> base).

Definition request (transcription : AsrTranscription.t) : option AsrRevisionRequest.t :=
  number ← number_over (RetranscriptionRun.base run);
  Some (request_over (RetranscriptionRun.base run) number transcription).

(** [assemble], of [run.rs]. *)
Definition assemble (base : option TranscriptRevision.t) (transcription : AsrTranscription.t)
    : result TranscriptRevision.t TranscriptBuildError :=
  let? number := ok_or (number_over base) (Invalid InvalidAsrRun) in
  build_asr_revision (request_over base number transcription).

(** Whether it is too early for another part. *)
Definition too_soon (interval : Duration) (so_far : RunSoFar.t) (st : State.t) (now : Duration) : bool :=
  let per_part := Nat.max 1 ((RunSoFar.planned so_far + MAX_TRANSCRIPT_PARTS - 1) / MAX_TRANSCRIPT_PARTS) in
  match State.last_at st with
  | None => false
  | Some last =>
      (Z.max 0 (now - last) <? interval)
      || (RunSoFar.finished so_far - State.chunks_at_last st <? per_part)%nat
  end.

(** The open revision of what the run has so far. *)
Definition open_so_far (so_far : RunSoFar.t) : result TranscriptRevision.t PublishingStopped :=
  let? settled := map_err (fun _ => Failed) (RunSoFar.open so_far MAX_EARLY_AUDIO_MICROS) in
  let? request := ok_or (request settled.1) Failed in
  map_err (fun _ => Failed) (build_open_asr_revision request settled.2).

(** Whether [open] says anything that what is published does not: [Ok false]
    when it says nothing new, or the run is catching up. *)
Definition adds_to_published (open : TranscriptRevision.t) (published : option (TranscriptRevision.t * Z))
    : result bool PublishingStopped :=
  let segments := TranscriptRevision.segments open in
  let until := TranscriptRevision.published_until open in
  let '(count, published_until) :=
    match published with
    | Some (published, _) =>
        (length (TranscriptRevision.segments published), TranscriptRevision.published_until published)
    | None => (0%nat, None)
    end in
  if (length segments <? count)%nat || until_ltb until published_until then Ok false
  else if match published with
          | Some (published, _) =>
              negb (bool_decide (TranscriptRevision.id open = TranscriptRevision.id published))
              || negb (bool_decide (take count segments = TranscriptRevision.segments published))
          | None => false
          end
  then Err Diverged
  else if (length segments =? count)%nat && bool_decide (until = published_until) then Ok false
  else Ok true.

(** The number of the next part. *)
Definition next_part (published : option (TranscriptRevision.t * Z)) : result Z PublishingStopped :=
  let parts := match published with Some (_, parts) => parts | None => 0 end in
  let? part := ok_or (checked_u32 (parts + 1)) TooManyParts in
  if Z.of_nat MAX_TRANSCRIPT_PARTS <? part then Err TooManyParts else Ok part.

(** Commits [open] as part [part]. *)
Definition commit_part (so_far : RunSoFar.t) (st : State.t) (now : Duration) (open : TranscriptRevision.t) (part : Z)
    (head : SessionHead.t) (w : W) : result State.t PublishingStopped * W :=
  let count := match State.published st with
               | Some (published, _) => length (TranscriptRevision.segments published)
               | None => 0%nat
               end in
  if negb (bool_decide (SessionHead.newest_id head = TranscriptRevision.id <$> RetranscriptionRun.base run))
     && negb (bool_decide (SessionHead.newest_id head = Some (TranscriptRevision.id open)))
  then (Err NotOurs, w)
  else
    match part_operation_id (RetranscriptionRun.job_id run) epoch attempt part with
    | Err _ => (Err Failed, w)
    | Ok operation =>
        match RevisionStore.publish_part store (RetranscriptionRun.session_id run) operation
                (SessionHead.generation head) open (RetranscriptionRun.job_id run) part count
                (RetranscriptionRun.now run) w with
        | (Ok _, w') =>
            (Ok (State.mk (Some (open, part)) (Some now) (RunSoFar.finished so_far) (State.stopped st)), w')
        | (Err (SessionStorageError.Busy | SessionStorageError.StateConflict), w') => (Ok st, w')
        | (Err SessionStorageError.CapacityExhausted, w') => (Err TooManyParts, w')
        | (Err _, w') => (Err Failed, w')
        end
    end.

Definition publish (so_far : RunSoFar.t) (st : State.t) (w : W) : result State.t PublishingStopped * W :=
  match publication with
  | AtTheSeal => (Ok st, w)
  | AsItGoes interval =>
      if negb (RunSoFar.all_checkpointed so_far) then (Err CheckpointMissing, w)
      else if negb (RunSoFar.audio_began_in_time so_far MAX_EARLY_AUDIO_MICROS) then (Err AudioTooEarly, w)
      else
        let '(now, w) := elapsed w in
        if too_soon interval so_far st now then (Ok st, w)
        else
          match (let? open := open_so_far so_far in
                 let? adds := adds_to_published open (State.published st) in
                 if adds then let? part := next_part (State.published st) in Ok (Some (open, part)) else Ok None) with
          | Err stopped => (Err stopped, w)
          | Ok None => (Ok st, w)
          | Ok (Some (open, part)) =>
              match RevisionStore.head store (RetranscriptionRun.session_id run) (RetranscriptionRun.now run) w with
              | (Err _, w) => (Err Failed, w)
              | (Ok head, w) => commit_part so_far st now open part head w
              end
          end
  end.

Definition chunk_finished (so_far : RunSoFar.t) (st : State.t) (w : W) : State.t * W :=
  match RunSoFar.next so_far with
  | None => (st, w)
  | Some _ =>
      match State.stopped st with
      | Some _ => (st, w)
      | None =>
          match publish so_far st w with
          | (Ok st', w') => (st', w')
          | (Err stopped, w') =>
              (State.mk (State.published st) (State.last_at st) (State.chunks_at_last st) (Some stopped), w')
          end
      end
  end.

(** The check of [attempt_once] before a commit: the run seals something that
    does not begin with what it published. *)
Definition published_differs (st : State.t) (revision : TranscriptRevision.t) : bool :=
  match outcome st with
  | (Some shown, publishing) =>
      match publishing with Some Diverged => true | _ => false end
      || negb (bool_decide (TranscriptRevision.id revision = TranscriptRevision.id shown))
      || negb (bool_decide (take (length (TranscriptRevision.segments shown)) (TranscriptRevision.segments revision)
                            = TranscriptRevision.segments shown))
  | (None, _) => false
  end.
End Publisher.

(** ** Sealing what was published *)

Section Seal.
Context {W : Type} `{UnicodeTables} `{Sha256} (store : RevisionStore.t W).
Context (session : OpaqueId SessionId) (job : OpaqueId JobId) (epoch attempt now : Z).

Definition stopped_of : Eff W SessionStorageError.t (option (TranscriptRevision.t * OpaqueId OperationId)) :=
  do! open := RevisionStore.open_revision store session now in
  match open with
  | None => eff_ret None
  | Some open =>
      if negb (bool_decide (PublishedOpenRevision.job_id open = job)) then eff_ret None
      else
        do! base := match TranscriptRevision.supersedes (PublishedOpenRevision.revision open) with
                    | Some id =>
                        do! base := RevisionStore.revision store session id now in
                        do! base := eff_result (ok_or base SessionStorageError.IntegrityFailure) in
                        eff_ret (Some base)
                    | None => eff_ret None
                    end in
        do! stopped := eff_result (map_err (fun _ => SessionStorageError.IntegrityFailure)
                         (build_stopped_asr_revision (PublishedOpenRevision.revision open) base)) in
        do! operation := eff_result (map_err (fun _ => SessionStorageError.IntegrityFailure)
                           (stop_operation_id job epoch attempt)) in
        eff_ret (Some (stopped, operation))
  end.

(** Whether the head already holds the seal. *)
Definition sealed_in (head : SessionHead.t) (stopped : TranscriptRevision.t) : bool :=
  match SessionHead.newest head with
  | Some newest =>
      bool_decide (TranscriptRevision.id newest = TranscriptRevision.id stopped)
      && match state newest with Stopped => true | _ => false end
  | None => false
  end.

Definition try_seal (operation : OpaqueId OperationId) (stopped : TranscriptRevision.t)
    : Eff W SessionStorageError.t bool :=
  do! head := RevisionStore.head store session now in
  if sealed_in head stopped then eff_ret true
  else fun w =>
    match RevisionStore.publish_revision store session operation (SessionHead.generation head) stopped now w with
    | (Ok _, w') => (Ok true, w')
    | (Err (SessionStorageError.Busy | SessionStorageError.StateConflict), w') => (Ok false, w')
    | (Err error, w') => (Err error, w')
    end.

(** The loop over the waits of [seal_stopped]. *)
Fixpoint seal_after (sleep : Duration -> W -> W) (operation : OpaqueId OperationId) (stopped : TranscriptRevision.t)
    (waits : list Z) : Eff W SessionStorageError.t (option TranscriptRevision.t) :=
  match waits with
  | [] => eff_fail SessionStorageError.Busy
  | wait :: waits =>
      do! _ := if 0 <? wait then eff_do (sleep (from_millis wait)) else eff_ret tt in
      do! sealed := try_seal operation stopped in
      if sealed then eff_ret (Some stopped) else seal_after sleep operation stopped waits
  end.

Definition seal_stopped (sleep : Duration -> W -> W) : Eff W SessionStorageError.t (option TranscriptRevision.t) :=
  do! found := stopped_of in
  match found with
  | None => eff_ret None
  | Some (stopped, operation) => seal_after sleep operation stopped [0; 50; 200; 800]
  end.

(** The loop of [seal_stopped_now]. *)
Fixpoint seal_tries (tries : nat) (operation : OpaqueId OperationId) (stopped : TranscriptRevision.t)
    : Eff W SessionStorageError.t (option TranscriptRevision.t) :=
  match tries with
  | O => eff_fail SessionStorageError.Busy
  | S tries =>
      do! sealed := try_seal operation stopped in
      if sealed then eff_ret (Some stopped) else seal_tries tries operation stopped
  end.

Definition seal_stopped_now : Eff W SessionStorageError.t (option TranscriptRevision.t) :=
  do! found := stopped_of in
  match found with
  | None => eff_ret None
  | Some (stopped, operation) => seal_tries 4 operation stopped
  end.
End Seal.
