(* ===== verification/PublishSafe.v ===== *)
(** * PublishSafe: what a run publishes never has to be taken back

    Connects the publisher of Publish.v with the run of Transcribe.v: whatever
    attempts came before and wherever the store refused, what a session shows of
    a run while it works is the beginning of what the run seals. *)

From S2P Require Import Prelude.
From S2P Require Import Text.
From S2P Require Import Chars.
From S2P Require Import Timeline.
From S2P Require Import Storage.
From S2P Require Import Identity.
From S2P Require Import Session.
From S2P Require Import Retry.
From S2P Require Import Admission.
From S2P Require Import AsrPlan.
From S2P Require Import AsrRun.
From S2P Require Import Cues.
From S2P Require Import AsrOutput.
From S2P Require Import SeamRules.
From S2P Require Import SeamMerge.
From S2P Require Import Settled.
From S2P Require Import Revision.
From S2P Require Import DerivedIdentity.
From S2P Require Import RevisionBuild.
From S2P Require Import RevisionGrowth.
From S2P Require Import Checkpoint.
From S2P Require Import Transcribe.
From S2P Require Import TranscribeResume.
From S2P Require Import TranscribePublish.
From S2P Require Import JobKeys.
From S2P Require Import JobRecord.
From S2P Require Import JobStore.
From S2P Require Import Publish.

Section Honest.
Context `{UnicodeTables} `{Sha256Laws} (run : RetranscriptionRun.t).
Context (pcm_of : PlannedChunk.t -> option SpeechPcm.t).
Context (answer : PlannedChunk.t -> SpeechPcm.t -> ProviderChunkOutput.t).
Context (chunks : list PlannedChunk.t) (number : Z).

Let treq : TranscribeRangeRequest.t := RetranscriptionRun.transcribe run.
Let range : TimeRange.t := TranscribeRangeRequest.range treq.
Let base : option TranscriptRevision.t := RetranscriptionRun.base run.
Let splice : option RevisionSplice.t := (fun base => RevisionSplice.mk base range) <$> base.
Let revision_of : AsrTranscription.t -> AsrRevisionRequest.t := request_over run base number.

(** What is asked of the run: its ports, its base, and the number and names of
    what it makes. *)
Record honest_run : Prop := {
  honest_hears : run_hears treq pcm_of answer chunks;
  honest_number : number_over base = Some number;
  honest_splice : splice_fits treq (RetranscriptionRun.source_id run) number splice;
  honest_parts : forall k next b partial until, chunks !! k = Some next ->
    RunSoFar.open (so_far treq pcm_of answer chunks k b) MAX_EARLY_AUDIO_MICROS = Ok (partial, until) ->
    few_segments treq (RetranscriptionRun.session_id run) (RetranscriptionRun.source_id run) number splice partial
    /\ no_clash (revision_of partial) range;
  honest_whole : forall whole, finish treq (gather treq pcm_of answer Gathered.empty chunks) = Ok whole ->
    few_segments treq (RetranscriptionRun.session_id run) (RetranscriptionRun.source_id run) number splice whole
    /\ no_clash (revision_of whole) range
}.

(** The open revision of what the run has after its first [k] chunks. *)
Definition open_at (k : nat) (r : TranscriptRevision.t) : Prop :=
  exists next b, chunks !! k = Some next /\ open_so_far run (so_far treq pcm_of answer chunks k b) = Ok r.

Context (Hrun : honest_run).

Lemma open_at_is k next b :
  chunks !! k = Some next ->
  exists partial until, RunSoFar.open (so_far treq pcm_of answer chunks k b) MAX_EARLY_AUDIO_MICROS = Ok (partial, until)
    /\ open_so_far run (so_far treq pcm_of answer chunks k b)
       = map_err (fun _ => Failed) (build_open_asr_revision (revision_of partial) until)
    /\ request_valid (revision_of partial) range /\ no_clash (revision_of partial) range
    /\ growth (LocalAsr (AsrTranscription.run partial)) = (true, false)
    /\ until <= TimeRange.end_ (SourceSegment.range (TranscribeRangeRequest.source_segment treq)).
Proof.
  intros Hnext. pose proof (honest_hears Hrun) as [P1 P2 P3 P4 P5 P6 P7 P8].
  destruct (open_answers treq pcm_of answer P1 P2 P3 chunks P4 P5 P6 k next b Hnext) as (partial & until & Hopen).
  destruct (honest_parts Hrun k next b partial until Hnext Hopen) as [Hfew Hclash].
  destruct (open_valid treq pcm_of answer P1 P2 P3 chunks P4 P5 P6 P7 P8 _ _ number splice k next b partial until
              (honest_splice Hrun) Hnext Hopen Hfew) as (Hv & Hg & Hu).
  exists partial, until. split; [exact Hopen|]. split; [|split; [exact Hv|split; [exact Hclash|split; [exact Hg|exact Hu]]]].
  unfold open_so_far. rewrite Hopen. cbn [map_err result_bind fst snd]. unfold request. fold base.
  by rewrite (honest_number Hrun).
Qed.

(** The open revision is always built. *)
Lemma open_at_built k next b :
  chunks !! k = Some next -> exists r, open_so_far run (so_far treq pcm_of answer chunks k b) = Ok r /\ open_at k r.
Proof.
  intros Hnext. destruct (open_at_is k next b Hnext) as (partial & until & _ & E & Hv & Hc & Hg & Hu).
  destruct (build_open_spec _ _ until Hv Hc Hg Hu) as [Hb _]. rewrite Hb in E. eexists. split; [exact E|].
  by exists next, b.
Qed.

(** Two of them: the earlier one is the beginning of the later one. *)
Lemma open_at_continues k k' r r' :
  (k <= k')%nat -> open_at k r -> open_at k' r' ->
  exists published published', TranscriptRevision.published_until r = Some published
    /\ TranscriptRevision.published_until r' = Some published' /\ published <= published' /\ continues r published r'.
Proof.
  intros Hk (next & b & Hnext & Er) (next' & b' & Hnext' & Er').
  destruct (open_at_is k next b Hnext) as (partial & until & Hopen & E & Hv & Hc & Hg & Hu).
  destruct (open_at_is k' next' b' Hnext') as (partial' & until' & Hopen' & E' & Hv' & _).
  pose proof (honest_hears Hrun) as [P1 P2 P3 P4 P5 P6 P7 P8].
  destruct (open_goes_on treq pcm_of answer P1 P2 P3 chunks P4 P5 P6 P7 P8 (RetranscriptionRun.session_id run)
              (RetranscriptionRun.source_id run) number splice k next b partial until Hnext Hopen) as [_ Hlater].
  destruct (Hlater k' next' b' partial' until' Hk Hnext' Hopen') as [Hu' Hgo].
  destruct (open_revision_is_prefix _ _ range until Hv Hc Hg Hu Hv' Hgo)
    as (r0 & published & Hb & _ & Hp & _ & _ & _ & Q).
  rewrite E in Er. apply map_err_Ok in Er. rewrite Hb in Er. injection Er as <-.
  rewrite E' in Er'. apply map_err_Ok in Er'. destruct (Q until' r' Hu' Er') as [Hcont (published' & Hp' & Hle)].
  by exists published, published'.
Qed.

(** The sealed revision is built, and every open one is its beginning. *)
Lemma open_at_sealed whole :
  finish treq (gather treq pcm_of answer Gathered.empty chunks) = Ok whole ->
  exists final, build_asr_revision (revision_of whole) = Ok final
    /\ forall k r, open_at k r -> exists published, continues r published final.
Proof.
  intros Hfin. destruct (honest_whole Hrun whole Hfin) as [Hfew Hclash].
  pose proof (honest_hears Hrun) as [P1 P2 P3 P4 P5 P6 P7 P8].
  destruct (whole_valid treq pcm_of answer P1 P2 P3 chunks P4 P5 P6 (RetranscriptionRun.session_id run)
              (RetranscriptionRun.source_id run) number splice whole (honest_splice Hrun) Hfin Hfew) as [Hv Hsealed].
  destruct (build_spec _ _ Hv Hclash Hsealed) as [Hb _]. eexists. split; [exact Hb|].
  intros k r (next & b & Hnext & Er). destruct (open_at_is k next b Hnext) as (partial & until & Hopen & E & Hv' & Hc & Hg & Hu).
  destruct (open_goes_on treq pcm_of answer P1 P2 P3 chunks P4 P5 P6 P7 P8 (RetranscriptionRun.session_id run)
              (RetranscriptionRun.source_id run) number splice k next b partial until Hnext Hopen) as [Hgo _].
  destruct (open_revision_is_prefix _ _ range until Hv' Hc Hg Hu Hv (Hgo whole Hfin))
    as (r0 & published & Hb0 & _ & _ & _ & _ & Q & _).
  rewrite E in Er. apply map_err_Ok in Er. rewrite Hb0 in Er. injection Er as <-. exists published. by apply Q.
Qed.

(** ** The decision to publish *)

Lemma continues_prefix r p r' :
  continues r p r' ->
  TranscriptRevision.id r' = TranscriptRevision.id r
  /\ take (length (TranscriptRevision.segments r)) (TranscriptRevision.segments r') = TranscriptRevision.segments r
  /\ (length (TranscriptRevision.segments r) <= length (TranscriptRevision.segments r'))%nat.
Proof. intros [Hid (more & -> & _)]. rewrite take_app_length, length_app. repeat split; [exact Hid|lia]. Qed.

(** Neither a later nor an earlier open revision of the run ever differs from
    what was published. *)
Lemma adds_honest k k' r r' parts :
  open_at k r -> open_at k' r' -> exists adds, adds_to_published r (Some (r', parts)) = Ok adds.
Proof.
  intros Hk Hk'. unfold adds_to_published.
  destruct ((_ <? _)%nat || until_ltb _ _) eqn:Eguard; [by eexists|].
  apply orb_false_iff in Eguard as [Hlen%Nat.ltb_ge Huntil].
  assert (Hsame : TranscriptRevision.id r = TranscriptRevision.id r'
                  /\ take (length (TranscriptRevision.segments r')) (TranscriptRevision.segments r)
                     = TranscriptRevision.segments r').
  { destruct (Nat.le_gt_cases k' k) as [Hle|Hlt].
    - destruct (open_at_continues k' k r' r Hle Hk' Hk) as (p & _ & _ & _ & _ & Hc).
      by destruct (continues_prefix _ _ _ Hc) as (? & ? & _).
    - destruct (open_at_continues k k' r r' ltac:(lia) Hk Hk') as (p & _ & _ & _ & _ & Hc).
      destruct Hc as [Hid (more & Em & _)]. rewrite Em, length_app in Hlen.
      assert (more = []) as -> by (destruct more; [done|cbn in Hlen; lia]). rewrite app_nil_r in Em.
      rewrite Em, Hid. split; [done|]. by apply take_ge. }
  destruct Hsame as [-> ->]. rewrite !bool_decide_true by done. cbn [negb orb].
  destruct (_ && _); by eexists.
Qed.
End Honest.

(** ** The publisher keeps to the run *)

Section Attempt.
Context `{UnicodeTables} `{Sha256Laws} (run : RetranscriptionRun.t).
Context (pcm_of : PlannedChunk.t -> option SpeechPcm.t).
Context (answer : PlannedChunk.t -> SpeechPcm.t -> ProviderChunkOutput.t).
Context (chunks : list PlannedChunk.t) (number : Z).
Context (Hrun : honest_run run pcm_of answer chunks number).
Context {V : Type} (store : RevisionStore.t V) (publication : Publication).
Context (elapsed : V -> Z * V) (epoch attempt : Z).

Let treq : TranscribeRangeRequest.t := RetranscriptionRun.transcribe run.
Let ours : OpaqueId JobId := RetranscriptionRun.job_id run.
Let opened (k : nat) : TranscriptRevision.t -> Prop := open_at run pcm_of answer chunks k.

(** What the session may show as its open revision, and what a checkpoint or a
    seed may give, in a world; and whether the store has room for more parts. *)
Context (shown : V -> PublishedOpenRevision.t -> Prop).
Context (held : V -> ChunkCheckpoint.t -> Prop) (seeded : V -> TimeRange.t -> CheckpointOutcome.t -> Prop).
Context (roomy : Prop).

(** No checkpoint or seeded answer comes to be. *)
Definition quiet (v v' : V) : Prop :=
  (forall c, held v' c -> held v c) /\ (forall window o, seeded v' window o -> seeded v window o).

(** Nor does an open revision of this job. *)
Definition still (v v' : V) : Prop :=
  quiet v v' /\ forall o, PublishedOpenRevision.job_id o = ours -> shown v' o -> shown v o.

(** The store shows what was published in it, with the version of the merge
    rules that published it. *)
Record store_laws : Prop := {
  law_open : forall session now v, match RevisionStore.open_revision store session now v with
    | (r, v') => (forall o, r = Ok (Some o) -> shown v o) /\ still v v'
    end;
  law_head : forall session now v, still v (RevisionStore.head store session now v).2;
  law_part : forall session operation expected open part first now v,
    match RevisionStore.publish_part store session operation expected open ours part first now v with
    | (r, v') => quiet v v'
        /\ (forall o, PublishedOpenRevision.job_id o = ours -> shown v' o ->
              o = PublishedOpenRevision.mk open part MERGE_RULES_VERSION ours \/ shown v o)
        /\ (r = Err SessionStorageError.CapacityExhausted -> ~ roomy)
    end;
  law_clock : forall v, still v (elapsed v).2
}.
Context (Hstore : store_laws).

(** Every open revision of this job is one of this run. *)
Definition good_store (v : V) : Prop :=
  forall o, PublishedOpenRevision.job_id o = ours -> shown v o ->
    (exists k, opened k (PublishedOpenRevision.revision o))
    /\ PublishedOpenRevision.merge_rules o = MERGE_RULES_VERSION
    /\ 1 <= PublishedOpenRevision.parts o <= Z.of_nat MAX_TRANSCRIPT_PARTS.

Definition per_part : nat :=
  Nat.max 1 ((length chunks + MAX_TRANSCRIPT_PARTS - 1) / MAX_TRANSCRIPT_PARTS).

(** [fresh]: nothing was published when the attempt began. *)
Context (fresh : Prop).

Record good_state (st : State.t) : Prop := {
  good_published : forall r parts, State.published st = Some (r, parts) ->
    (exists k, opened k r) /\ 1 <= parts <= Z.of_nat MAX_TRANSCRIPT_PARTS;
  good_pace : fresh -> forall r parts, State.published st = Some (r, parts) ->
    is_Some (State.last_at st)
    /\ (parts - 1) * Z.of_nat per_part + 1 <= Z.of_nat (State.chunks_at_last st) < Z.of_nat (length chunks);
  good_stopped : State.stopped st <> Some Diverged;
  good_room : fresh -> roomy -> State.stopped st <> Some TooManyParts
}.

Lemma good_still v v' : still v v' -> good_store v -> good_store v'.
Proof. intros [_ Hs] Hv o Ho Hshown. apply Hv; [done|by apply Hs]. Qed.

Lemma still_trans v1 v2 v3 : still v1 v2 -> still v2 v3 -> still v1 v3.
Proof. intros [[A1 A2] A3] [[B1 B2] B3]. split; [split|]; auto. Qed.

Lemma so_far_finished k b : (k <= length chunks)%nat -> RunSoFar.finished (so_far treq pcm_of answer chunks k b) = k.
Proof.
  intros Hk. unfold RunSoFar.finished, so_far. cbn [RunSoFar.gathered].
  destruct (gather_spec treq pcm_of answer Gathered.empty (take k chunks)) as [-> _]. cbn [Gathered.records Gathered.empty app].
  rewrite length_fmap, length_take. lia.
Qed.

(** The next part is one of the sixty-four that a revision may have, when the
    attempt published all of them. *)
Lemma next_part_paced interval k next b st now :
  chunks !! k = Some next -> fresh -> good_state st ->
  too_soon interval (so_far treq pcm_of answer chunks k b) st now = false ->
  exists part, next_part (State.published st) = Ok part /\ 1 <= part <= Z.of_nat MAX_TRANSCRIPT_PARTS
    /\ (part - 1) * Z.of_nat per_part + 1 <= Z.max 1 (Z.of_nat k).
Proof.
  intros Hk Hf Hst. apply lookup_lt_Some in Hk. unfold too_soon. rewrite so_far_finished by lia.
  change (RunSoFar.planned _) with (length chunks). fold per_part. unfold next_part.
  destruct (State.published st) as [[r parts]|] eqn:Ep.
  - destruct (good_pace _ Hst Hf r parts Ep) as [[last ->] [Hp1 Hp2]]. intros [_ Hp%Nat.ltb_ge]%orb_false_iff.
    destruct (good_published _ Hst r parts Ep) as [_ Hparts].
    assert (Hpp : (length chunks <= MAX_TRANSCRIPT_PARTS * per_part)%nat).
    { unfold per_part, MAX_TRANSCRIPT_PARTS. pose proof (Nat.div_mod (length chunks + 64 - 1) 64 ltac:(lia)).
      pose proof (Nat.mod_upper_bound (length chunks + 64 - 1) 64 ltac:(lia)). lia. }
    unfold MAX_TRANSCRIPT_PARTS in *. assert (Hlast : parts < 64) by nia.
    unfold checked_u32. rewrite checked_in by ulia. cbn [ok_or result_bind].
    rewrite (proj2 (Z.ltb_ge _ _)) by lia. exists (parts + 1). split; [done|]. split; [lia|]. lia.
  - intros _. exists 1. unfold MAX_TRANSCRIPT_PARTS. split; [done|]. lia.
Qed.

Lemma next_part_bounds st :
  good_state st ->
  match next_part (State.published st) with
  | Ok part => 1 <= part <= Z.of_nat MAX_TRANSCRIPT_PARTS
  | Err e => e = TooManyParts
  end.
Proof.
  intros Hst. unfold next_part. destruct (State.published st) as [[r parts]|] eqn:Ep; [|concrete].
  destruct (good_published _ Hst r parts Ep) as [_ Hparts]. unfold MAX_TRANSCRIPT_PARTS in *.
  unfold checked_u32. rewrite checked_in by ulia. cbn [ok_or result_bind].
  destruct (Z.ltb_spec (Z.of_nat 64) (parts + 1)); [done|lia].
Qed.

Lemma adds_good k r st :
  opened k r -> good_state st -> exists adds, adds_to_published r (State.published st) = Ok adds.
Proof.
  intros Hr Hst. destruct (State.published st) as [[r0 parts]|] eqn:Ep.
  - destruct (good_published _ Hst r0 parts Ep) as [[k0 Hr0] _]. by apply (adds_honest run pcm_of answer chunks number Hrun k k0).
  - unfold adds_to_published. destruct (_ || _); [by eexists|]. destruct (_ && _); by eexists.
Qed.

(** What is said of a publisher that gives up. *)
Definition gives_up_well (e : PublishingStopped) : Prop := e <> Diverged /\ (fresh -> roomy -> e <> TooManyParts).

Definition goes_on_well (r : result State.t PublishingStopped) : Prop :=
  match r with Ok st' => good_state st' | Err e => gives_up_well e end.

Lemma commit_part_good k next b st now r part head v :
  chunks !! k = Some next -> opened k r -> good_state st -> State.stopped st = None -> good_store v ->
  1 <= part <= Z.of_nat MAX_TRANSCRIPT_PARTS ->
  (fresh -> (part - 1) * Z.of_nat per_part + 1 <= Z.of_nat k) ->
  let '(result, v') := commit_part run store epoch attempt (so_far treq pcm_of answer chunks k b) st now r part head v in
  good_store v' /\ quiet v v' /\ goes_on_well result.
Proof.
  intros Hk Hr Hst Hgoing Hv Hpart Hpace. unfold commit_part. fold ours.
  destruct (_ && _); [split; [exact Hv|by split]|].
  destruct (part_operation_id ours epoch attempt part) as [operation|]; [|split; [exact Hv|by split]].
  set (count := match State.published st with Some _ => _ | None => _ end).
  pose proof (law_part Hstore (RetranscriptionRun.session_id run) operation (SessionHead.generation head) r part count
                (RetranscriptionRun.now run) v) as Hlaw.
  destruct (RevisionStore.publish_part _ _ _ _ _ _ _ _ _ _) as [result v']. destruct Hlaw as (Hquiet & Hshown & Hroom).
  assert (Hgood : good_store v').
  { intros o Ho [->|Hs]%Hshown; [|by apply Hv|done]. cbn. split; [by exists k|]. split; [done|exact Hpart]. }
  destruct result as [generation|[]];
    try (split; [exact Hgood|]; split; [exact Hquiet|]; split; [done|]; intros _ Hroomy; done || by destruct (Hroom eq_refl)).
  2,3: split; [exact Hgood|]; split; [exact Hquiet|exact Hst].
  split; [exact Hgood|]. split; [exact Hquiet|]. cbn. rewrite Hgoing. apply lookup_lt_Some in Hk as Hlt.
  constructor; cbn; [| |done|done].
  - intros r' parts [= <- <-]. split; [by exists k|exact Hpart].
  - intros Hf r' parts [= <- <-]. split; [by eexists|]. unfold treq. rewrite so_far_finished by lia.
    specialize (Hpace Hf). lia.
Qed.

Lemma publish_good k next b st v :
  (0 < k)%nat -> chunks !! k = Some next -> good_state st -> State.stopped st = None -> good_store v ->
  let '(result, v') := publish run store publication elapsed epoch attempt (so_far treq pcm_of answer chunks k b) st v in
  good_store v' /\ quiet v v' /\ goes_on_well result.
Proof.
  intros Hpos Hk Hst Hgoing Hv. unfold publish. destruct publication as [|interval]; [split; [exact Hv|by split]|].
  destruct (negb _); [split; [exact Hv|by split]|]. destruct (negb _); [split; [exact Hv|by split]|].
  pose proof (law_clock Hstore v) as Hclock. destruct (elapsed v) as [now v1]. cbn [snd] in Hclock.
  pose proof (good_still _ _ Hclock Hv) as Hv1.
  destruct (too_soon interval _ st now) eqn:Esoon; [split; [exact Hv1|split; [apply Hclock|exact Hst]]|].
  destruct (open_at_built run pcm_of answer chunks number Hrun k next b Hk) as (r & Eopen & Hr).
  unfold treq. rewrite Eopen. cbn [result_bind]. destruct (adds_good k r st Hr Hst) as [adds Eadds]. rewrite Eadds.
  cbn [result_bind]. destruct adds; [|split; [exact Hv1|split; [apply Hclock|exact Hst]]].
  pose proof (next_part_bounds st Hst) as Hbounds.
  assert (Hpaced : fresh -> exists part, next_part (State.published st) = Ok part
                     /\ (part - 1) * Z.of_nat per_part + 1 <= Z.of_nat k).
  { intros Hf. destruct (next_part_paced interval k next b st now Hk Hf Hst Esoon) as (part & E & _ & Hp).
    exists part. split; [exact E|lia]. }
  destruct (next_part (State.published st)) as [part|e]; cbn [result_bind].
  2:{ subst e. split; [exact Hv1|]. split; [apply Hclock|]. split; [done|]. intros Hf. by destruct (Hpaced Hf) as (? & ? & _). }
  pose proof (law_head Hstore (RetranscriptionRun.session_id run) (RetranscriptionRun.now run) v1) as Hhead.
  destruct (RevisionStore.head _ _ _ v1) as [[head|e] v2]; cbn [snd] in Hhead; pose proof (still_trans _ _ _ Hclock Hhead) as Hq.
  2:{ split; [by eapply good_still|]. split; [apply Hq|done]. }
  pose proof (commit_part_good k next b st now r part head v2 Hk Hr Hst Hgoing (good_still _ _ Hhead Hv1) Hbounds
                ltac:(intros Hf; destruct (Hpaced Hf) as (? & [= <-] & Hp); exact Hp)) as Hcommit.
  unfold treq in Hcommit. destruct (commit_part _ _ _ _ _ _ _ _ _ _ v2) as [result v3]. destruct Hcommit as (C1 & C2 & C3).
  split; [exact C1|]. split; [|exact C3]. destruct Hq as [[A1 A2] _], C2 as [B1 B2]. split; auto.
Qed.

Lemma chunk_finished_good k b st v :
  (0 < k <= length chunks)%nat -> good_state st -> good_store v ->
  let '(st', v') := chunk_finished run store publication elapsed epoch attempt (so_far treq pcm_of answer chunks k b) st v in
  good_store v' /\ quiet v v' /\ good_state st'.
Proof.
  intros Hk Hst Hv. unfold chunk_finished, RunSoFar.next. rewrite so_far_finished by lia.
  change (RunSoFar.planned_chunks _) with chunks.
  destruct (chunks !! k) as [next|] eqn:Enext; [|split; [exact Hv|by split]].
  destruct (State.stopped st) as [stopped|] eqn:Es; [split; [exact Hv|by split]|].
  pose proof (publish_good k next b st v ltac:(lia) Enext Hst Es Hv) as Hp.
  destruct (publish _ _ _ _ _ _ _ _ _) as [[st'|e] v']; [exact Hp|]. destruct Hp as (C1 & C2 & C3 & C4).
  split; [exact C1|]. split; [exact C2|]. constructor; cbn.
  - apply Hst.
  - apply Hst.
  - intros [= E]. by apply C3.
  - intros Hf Hr. specialize (C4 Hf Hr). congruence.
Qed.

(** The publisher of an attempt, in a world of its own beside the host's. *)
Definition observes (so_far : RunSoFar.t) (w : State.t * V) : State.t * V :=
  chunk_finished run store publication elapsed epoch attempt so_far w.1 w.2.

Definition publishing (w : State.t * V) : Prop := good_state w.1 /\ good_store w.2.

Lemma observes_law key :
  observer_law treq pcm_of answer key (fun w => held w.2) (fun w => seeded w.2) publishing observes.
Proof.
  intros chunks' k b [st v] Hp Hk [[Hst Hv] _]. cbn [fst snd] in *.
  pose proof (honest_hears _ _ _ _ _ Hrun) as [_ _ _ _ _ Hp' _ _]. unfold treq in Hp. rewrite Hp' in Hp. injection Hp as <-.
  pose proof (chunk_finished_good k b st v Hk Hst Hv) as Hgood. unfold observes. cbn [fst snd]. unfold treq in *.
  destruct (chunk_finished _ _ _ _ _ _ _ st v) as [st' v']. destruct Hgood as (C1 & [C2 C3] & C4).
  split; [exact C2|]. split; [exact C3|]. intros _. by split.
Qed.

(** What a sealed revision is checked against. *)
Lemma sealed_begins st final :
  good_state st -> (forall k r, opened k r -> exists published, continues r published final) ->
  published_differs st final = false.
Proof.
  intros Hst Hseal. unfold published_differs, outcome.
  destruct (State.published st) as [[r parts]|] eqn:Ep; cbn [fmap option_fmap option_map fst]; [|done].
  destruct (good_published _ Hst r parts Ep) as [[k Hr] _]. destruct (Hseal k r Hr) as [p Hc].
  destruct (continues_prefix _ _ _ Hc) as (-> & -> & _). rewrite !bool_decide_true by done. cbn [negb]. rewrite !orb_false_r.
  pose proof (good_stopped _ Hst) as Hs. by destruct (State.stopped st) as [[]|].
Qed.
End Attempt.

(** The publisher that an attempt begins with. *)
Lemma new_good `{UnicodeTables} `{Sha256Laws} {V} run pcm_of answer chunks (store : RevisionStore.t V) publication elapsed
    shown held seeded roomy v :
  store_laws run store elapsed shown held seeded roomy -> good_store run pcm_of answer chunks shown v ->
  let '(st, v') := new run store publication v in
  good_store run pcm_of answer chunks shown v' /\ quiet held seeded v v'
  /\ good_state run pcm_of answer chunks roomy (State.published st = None) st.
Proof.
  intros Hstore Hv. unfold new. destruct publication as [|interval].
  { split; [exact Hv|]. split; [by split|]. by constructor. }
  pose proof (law_open _ _ _ _ _ _ _ Hstore (RetranscriptionRun.session_id run) (RetranscriptionRun.now run) v) as Hopen.
  destruct (RevisionStore.open_revision _ _ _ v) as [[[o|]|e] v']; destruct Hopen as [Hshown Hstill];
    pose proof (good_still _ _ _ _ _ _ _ _ _ Hstill Hv) as Hv'.
  2,3: split; [exact Hv'|]; split; [apply Hstill|]; by constructor.
  case_bool_decide as Ho; cbn [negb]; (split; [exact Hv'|]; split; [apply Hstill|]); [|by constructor].
  destruct (Hv o Ho (Hshown o eq_refl)) as (Hr & Hm & Hp). rewrite (proj2 (Z.eqb_eq _ _) Hm).
  constructor; cbn; try done. by intros r parts [= <- <-].
Qed.

(** What a session shows of a run while the run works never has to be taken
    back. Whatever open revision of the run earlier attempts left, and whichever
    parts the store refuses or loses, the publisher of the next attempt never
    finds that the run differs from what was published, and an attempt that
    ends seals a revision that begins with it, so that the check before the
    commit passes. Everything shown at the end of the attempt, however it ends,
    is an open revision of this run, so the same holds of the attempts that
    follow. An attempt that published every part itself never runs out of the
    sixty-four parts a revision may have. Claim C4. *)
Theorem publishing_never_diverges `{UnicodeTables} `{Sha256Laws} {V} run pcm_of answer chunks number
    (store : RevisionStore.t V) publication elapsed epoch attempt shown held seeded roomy key may_fail
    (ports : Ports.t (State.t * V)) scope v :
  honest_run run pcm_of answer chunks number ->
  store_laws run store elapsed shown held seeded roomy ->
  good_store run pcm_of answer chunks shown v ->
  sound_world (RetranscriptionRun.transcribe run) pcm_of answer key held seeded (fun _ => True) v ->
  let begun := new run store publication v in
  let fresh := State.published begun.1 = None in
  let held' (w : State.t * V) := held w.2 in
  let seeded' (w : State.t * V) := seeded w.2 in
  let kept := publishing run pcm_of answer chunks shown roomy fresh in
  ports_laws (RetranscriptionRun.transcribe run) pcm_of answer held' seeded' kept may_fail ports ->
  scope_laws key held' seeded' kept may_fail scope ->
  CheckpointScope.chunk_finished scope = observes run store publication elapsed epoch attempt ->
  forall ended st v',
  transcribe_range_checkpointed ports scope (RetranscriptionRun.transcribe run) begun = (ended, (st, v')) ->
  State.stopped st <> Some Diverged
  /\ (fresh -> roomy -> State.stopped st <> Some TooManyParts)
  /\ good_store run pcm_of answer chunks shown v'
  /\ match ended with
     | Ok (transcription, _) =>
         exists final, assemble run (RetranscriptionRun.base run) transcription = Ok final
           /\ published_differs st final = false
     | Err _ => True
     end.
Proof.
  intros Hrun Hstore Hv Hck. cbn zeta.
  pose proof (new_good run pcm_of answer chunks store publication elapsed shown held seeded roomy v Hstore Hv) as Hnew.
  destruct (new run store publication v) as [st0 v0]. destruct Hnew as (Hv0 & Hq & Hst0). cbn [fst].
  set (fresh := State.published st0 = None) in *.
  intros Hports Hscope Hobs ended st v'. pose proof (honest_hears _ _ _ _ _ Hrun) as [P1 P2 _ _ _ P6 _ _].
  assert (Hw : sound_world (RetranscriptionRun.transcribe run) pcm_of answer key (fun w : State.t * V => held w.2)
                 (fun w => seeded w.2) (publishing run pcm_of answer chunks shown roomy fresh) (st0, v0)).
  { split; [by split|]. intros chunks' chunk Hp Hin. destruct (proj2 Hck chunks' chunk Hp Hin) as [C1 C2]. destruct Hq as [Q1 Q2].
    split; [intros c Hc; apply C1, Q1, Hc|intros o Ho; apply C2, Q2, Ho]. }
  pose proof (run_safe _ pcm_of answer key _ _ _ P1 P2 may_fail ports Hports (Some scope) ltac:(by intros s [= <-]) _
                (observes_law run pcm_of answer chunks number Hrun store publication elapsed epoch attempt shown held seeded
                   roomy Hstore fresh key) _ Hw) as Hsafe.
  unfold transcribe_range_checkpointed. rewrite Hobs.
  intros Hend0. rewrite Hend0 in Hsafe. destruct ended as [[t u]|e]; destruct Hsafe as [[[Hst Hv'] _] Hend]; cbn [fst snd] in *.
  all: split; [apply Hst|]; split; [apply Hst|]; split; [exact Hv'|]; try done.
  apply (heard_run_whole _ _ _ _ _ P6) in Hend.
  destruct (open_at_sealed run pcm_of answer chunks number Hrun t Hend) as (final & Hb & Hseal).
  exists final. split; [|by eapply sealed_begins].
  unfold assemble. rewrite (honest_number _ _ _ _ _ Hrun). exact Hb.
Qed.


(** ** Examples

    A session that holds checkpoints and the open revision, for the run of
    TranscribeResume.v, which publishes after every chunk but the last. *)

Definition sample_session : Type := list ChunkCheckpoint.t * option PublishedOpenRevision.t.

Definition sample_job : OpaqueId JobId := mkOpaqueId (literal "job_0123456789abcdef").

Definition publishing_run : RetranscriptionRun.t :=
  RetranscriptionRun.mk
    (JobSpec.mk (mkOpaqueId (literal "ses_0123456789abcdef")) sample_job (RequestDigest.mk (Sha256Hex.mk []))
       (mkDigestId []) (RecognitionKey.mk (Sha256Hex.mk [])) (JobRequest.Retranscribe None RecognitionShare.Whole) None)
    None run_request (mkDigestId []) None None 0 0 AdmissionWait.Immediate.

Definition sample_store : RevisionStore.t sample_session :=
  RevisionStore.mk _
    (fun _ _ v => (Ok (SessionHead.mk 0 (PublishedOpenRevision.revision <$> v.2)), v))
    (fun _ _ _ v => (Ok None, v))
    (fun _ _ v => (Ok v.2, v))
    (fun _ _ _ open job part _ _ v => (Ok 0, (v.1, Some (PublishedOpenRevision.mk open part MERGE_RULES_VERSION job))))
    (fun _ _ _ _ _ v => (Ok 0, v)).

Definition sample_clock (v : sample_session) : Z * sample_session := (0, v).

Definition session_ports : Ports.t (State.t * sample_session) :=
  Ports.mk _ (fun chunk w => (Ok (sample_pcm chunk), w)) (fun w => (Ok sample_identity, w))
    (fun chunk pcm w => (Ok (sample_answer chunk pcm), w)) (fun w => (false, w)).

Definition session_scope : CheckpointScope.t (State.t * sample_session) :=
  CheckpointScope.mk _
    (fun index w => (match List.find (fun c => ChunkCheckpoint.index c =? index) w.2.1 with
                     | Some c => Found c
                     | None => Absent
                     end, w))
    (fun c w => (true, (w.1, (c :: w.2.1, w.2.2))))
    (fun index w => w)
    (RecognitionKey.mk (Sha256Hex.mk [])) (fun _ w => w)
    (observes (H := ascii_tables) (H0 := tail_digest) publishing_run sample_store (AsItGoes 0) sample_clock 0 1)
    (fun w => (0, w)) None None.

Definition publishing_attempt : result (AsrTranscription.t * CheckpointUse.t) AsrRunFailure.t * (State.t * sample_session) :=
  transcribe_range_checkpointed (H := ascii_tables) session_ports session_scope
    (RetranscriptionRun.transcribe publishing_run) (new publishing_run sample_store (AsItGoes 0) ([], None)).

Definition sample_shown (v : sample_session) (o : PublishedOpenRevision.t) : Prop := v.2 = Some o.
Definition session_held (v : sample_session) (c : ChunkCheckpoint.t) : Prop := c ∈ v.1.
Definition session_seeded (v : sample_session) (window : TimeRange.t) (o : CheckpointOutcome.t) : Prop := False.

(** The requests of this run, and that what is made of them is small and has
    distinct names. *)
Definition sample_request_fits (t : AsrTranscription.t) : Prop :=
  let request := request_over publishing_run None 1 t in
  let names := segment_id_of (H := tail_digest) (revision_id_of (H := tail_digest) request (TimeRange.mk 0 61000000)) in
  Z.of_nat (length (assembled_of request)) <= 3
  /\ bool_decide (NoDup (names <$> seqZ 1 (Z.of_nat (length (assembled_of request))))) = true.

Lemma sample_request_good t :
  sample_request_fits t ->
  few_segments run_request (mkOpaqueId (literal "ses_0123456789abcdef")) (mkDigestId []) 1 None t
  /\ no_clash (H := tail_digest) (request_over publishing_run None 1 t) (TimeRange.mk 0 61000000).
Proof.
  intros [Hlen Hnames%bool_decide_eq_true]. split.
  { change (Z.of_nat (length (assembled_of (request_over publishing_run None 1 t))) <= 20000). lia. }
  apply (alone_no_clash _ _ (Z.of_nat (length (assembled_of (request_over publishing_run None 1 t))))); done.
Qed.

Lemma sample_honest :
  honest_run (H := ascii_tables) (H0 := tail_digest) publishing_run (fun chunk => Some (sample_pcm chunk)) sample_answer
    sample_plan 1.
Proof.
  constructor; [exact sample_hears|reflexivity|by intros s| |].
  - intros k next b partial until Hk Hopen.
    change (few_segments run_request (mkOpaqueId (literal "ses_0123456789abcdef")) (mkDigestId []) 1 None partial
            /\ no_clash (H := tail_digest) (request_over publishing_run None 1 partial) (TimeRange.mk 0 61000000)).
    apply sample_request_good.
    assert (Hall : forall k b, (k < 3)%nat ->
      match RunSoFar.open (H := ascii_tables)
              (so_far (H := ascii_tables) run_request (fun chunk => Some (sample_pcm chunk)) sample_answer sample_plan k b)
              MAX_EARLY_AUDIO_MICROS with
      | Ok (partial, _) => sample_request_fits partial
      | Err _ => False
      end).
    { intros k' b' Hk'. destruct k' as [|[|[|k']]]; [| | |lia]; destruct b'; vm_compute; (split; [done|reflexivity]). }
    specialize (Hall k b). change (RetranscriptionRun.transcribe publishing_run) with run_request in Hopen.
    rewrite Hopen in Hall. apply Hall. apply lookup_lt_Some in Hk.
    assert (Hl : length sample_plan = 3%nat) by (vm_compute; reflexivity). by rewrite Hl in Hk.
  - intros whole Hfin.
    change (few_segments run_request (mkOpaqueId (literal "ses_0123456789abcdef")) (mkDigestId []) 1 None whole
            /\ no_clash (H := tail_digest) (request_over publishing_run None 1 whole) (TimeRange.mk 0 61000000)).
    apply sample_request_good.
    assert (Hall : match finish (H := ascii_tables) run_request
              (gather (H := ascii_tables) run_request (fun chunk => Some (sample_pcm chunk)) sample_answer Gathered.empty
                 sample_plan) with
      | Ok whole => sample_request_fits whole
      | Err _ => False
      end) by (vm_compute; split; [done|reflexivity]).
    change (RetranscriptionRun.transcribe publishing_run) with run_request in Hfin. rewrite Hfin in Hall. exact Hall.
Qed.

Lemma sample_store_laws :
  store_laws publishing_run sample_store sample_clock sample_shown session_held session_seeded True.
Proof.
  constructor; [intros session now v|intros session now v|intros session operation expected open part first now v|intros v].
  - split; [by intros o [= E]|by split].
  - by split.
  - split; [by split|]. split; [|done]. intros o _ [= <-]. by left.
  - by split.
Qed.

Definition sample_kept : State.t * sample_session -> Prop :=
  publishing (H := ascii_tables) (H0 := tail_digest) publishing_run (fun chunk => Some (sample_pcm chunk)) sample_answer
    sample_plan sample_shown True (State.published (new publishing_run sample_store (AsItGoes 0) ([], None)).1 = None).

Lemma session_ports_laws :
  ports_laws run_request (fun chunk => Some (sample_pcm chunk)) sample_answer
    (fun w => session_held w.2) (fun w => session_seeded w.2) sample_kept False session_ports.
Proof. constructor; intros; (split; [done|reflexivity]). Qed.

Lemma session_scope_laws :
  scope_laws (RecognitionKey.mk (Sha256Hex.mk [])) (fun w => session_held w.2) (fun w => session_seeded w.2) sample_kept
    False session_scope.
Proof.
  constructor.
  - done.
  - intros index w. cbn. split; [|reflexivity]. intros c.
    destruct (List.find _ _) as [c'|] eqn:E; [|done]. intros [= <-]. apply List.find_some in E as [Hin _].
    unfold session_held. by apply list_elem_of_In.
  - intros c w. split; [|split; [done|]].
    + intros c'. unfold session_held. cbn. rewrite elem_of_cons. tauto.
    + intros [Hst Hv]. by split.
  - reflexivity.
  - reflexivity.
  - reflexivity.
  - done.
  - done.
Qed.

(** An attempt that ended well and published two segments, in two parts. *)
Definition two_parts (a : result (AsrTranscription.t * CheckpointUse.t) AsrRunFailure.t * (State.t * sample_session)) : Prop :=
  match a with
  | (Ok _, (st, v')) => State.stopped st = None
      /\ (fun o => (PublishedOpenRevision.parts o,
                    TranscriptSegment.range <$> TranscriptRevision.segments (PublishedOpenRevision.revision o))) <$> v'.2
         = Some (2, [TimeRange.mk 10000 90000; TimeRange.mk 25010000 25090000])
  | _ => False
  end.

Lemma two_parts_end a (P : AsrTranscription.t -> State.t -> Prop) (Q R : State.t -> Prop) (S : sample_session -> Prop) :
  two_parts a ->
  (forall ended st v', a = (ended, (st, v')) ->
     Q st /\ R st /\ S v' /\ match ended with Ok (t, _) => P t st | Err _ => True end) ->
  exists t u st v', a = (Ok (t, u), (st, v')) /\ two_parts a /\ P t st.
Proof.
  destruct a as [[[t u]|e] [st v']]; [|by intros []]. intros Ha Hend.
  destruct (Hend _ _ _ eq_refl) as (_ & _ & _ & HP). by exists t, u, st, v'.
Qed.

(** What the run of three chunks publishes in two parts, and seals. *)
Lemma publishing_never_diverges_witness :
  exists t u st v', publishing_attempt = (Ok (t, u), (st, v')) /\ two_parts publishing_attempt
    /\ exists final, assemble (H0 := tail_digest) publishing_run None t = Ok final /\ published_differs st final = false.
Proof.
  assert (Hgood : good_store (H := ascii_tables) (H0 := tail_digest) publishing_run (fun chunk => Some (sample_pcm chunk))
                    sample_answer sample_plan sample_shown ([], None)) by (intros o _ [= E]).
  assert (Hck : sound_world (H := ascii_tables) run_request (fun chunk => Some (sample_pcm chunk)) sample_answer
                  (RecognitionKey.mk (Sha256Hex.mk [])) session_held session_seeded (fun _ => True) ([], None)).
  { split; [exact I|]. intros chunks chunk _ _. split; [intros c Hc; destruct (proj1 (elem_of_nil c) Hc)|intros o []]. }
  pose proof (publishing_never_diverges (H := ascii_tables) (H0 := tail_digest) (H1 := tail_digest_laws) publishing_run
    (fun chunk => Some (sample_pcm chunk)) sample_answer sample_plan 1 sample_store (AsItGoes 0) sample_clock 0 1
    sample_shown session_held session_seeded True (RecognitionKey.mk (Sha256Hex.mk [])) False session_ports session_scope
    ([], None) sample_honest sample_store_laws Hgood Hck session_ports_laws session_scope_laws eq_refl) as Hend.
  assert (Hfacts : two_parts publishing_attempt) by (vm_compute; by split).
  exact (two_parts_end publishing_attempt _ _ _ _ Hfacts Hend).
Defined.
