(* ===== verification/JobSteps.v ===== *)
(** * JobSteps: what a run may do to its world

    Whatever every port of a run keeps of the world, in the sense of a relation
    between the world before and after a call that is a preorder, the recognition
    of a run, its publisher and the seal of what it published keep as well. *)

From S2P Require Import Prelude.
From S2P Require Import Text.
From S2P Require Import Timeline.
From S2P Require Import Chars.
From S2P Require Import Storage.
From S2P Require Import Identity.
From S2P Require Import AsrPlan.
From S2P Require Import AsrRun.
From S2P Require Import Retry.
From S2P Require Import Cues.
From S2P Require Import AsrOutput.
From S2P Require Import Revision.
From S2P Require Import DerivedIdentity.
From S2P Require Import RevisionBuild.
From S2P Require Import RevisionGrowth.
From S2P Require Import Progress.
From S2P Require Import Checkpoint.
From S2P Require Import Transcribe.
From S2P Require Import JobKeys.
From S2P Require Import JobRecord.
From S2P Require Import JobStore.
From S2P Require Import Publish.

(** An operation whose worlds are related. *)
Definition keeps {W A} (R : relation W) (m : W -> A * W) : Prop := forall w, R w (m w).2.
Definition keeps_do {W} (R : relation W) (m : W -> W) : Prop := forall w, R w (m w).

Create HintDb keeps.

(** [related H as p]: the call that [H] is about is the next one; what is left
    begins in the world it leaves. *)
Tactic Notation "related" constr(H) "as" simple_intropattern(p) :=
  let Hc := fresh "Hc" in
  pose proof H as Hc;
  match type of Hc with ?R ?w (?call).2 =>
    destruct call as p; cbn [fst snd] in Hc;
    (etransitivity; [exact Hc|clear Hc])
  end.

Section Keeps.
Context {W : Type} (R : relation W) `{!PreOrder R}.

Lemma keeps_ret {E A} (a : A) : keeps R (eff_ret (E := E) a).
Proof. by intros w. Qed.
Lemma keeps_fail {E A} (e : E) : keeps R (eff_fail (A := A) e).
Proof. by intros w. Qed.
Lemma keeps_result {E A} (r : result A E) : keeps R (eff_result r).
Proof. by intros w. Qed.
Lemma keeps_of {E A} (m : W -> A * W) : keeps R m -> keeps R (eff_of (E := E) m).
Proof. intros Hm w. unfold eff_of. specialize (Hm w). by destruct (m w). Qed.
Lemma keeps_doing {E} (m : W -> W) : keeps_do R m -> keeps R (eff_do (E := E) m).
Proof. intros Hm w. apply Hm. Qed.
Lemma keeps_map_err {E F A} (f : E -> F) (m : Eff W E A) : keeps R m -> keeps R (eff_map_err f m).
Proof. intros Hm w. unfold eff_map_err. specialize (Hm w). by destruct (m w). Qed.
Lemma keeps_bind {E A B} (m : Eff W E A) (k : A -> Eff W E B) :
  keeps R m -> (forall a, keeps R (k a)) -> keeps R (eff_bind m k).
Proof.
  intros Hm Hk w. unfold eff_bind. specialize (Hm w). destruct (m w) as [[a|e] w']; [|exact Hm].
  etransitivity; [exact Hm|apply Hk].
Qed.
End Keeps.

#[export] Hint Resolve keeps_ret keeps_fail keeps_result keeps_of keeps_doing keeps_map_err : keeps.

(** [keep_eff]: a goal [keeps R m] for an [m] put together of such operations. *)
Ltac keep_eff :=
  match goal with
  | |- keeps _ (eff_bind _ _) => apply keeps_bind; [try exact _| |intros ?]; keep_eff
  | |- keeps _ (match ?x with _ => _ end) => destruct x; keep_eff
  | _ => auto with keeps typeclass_instances
  end.

Section Recognition.
Context {W : Type} `{UnicodeTables} (R : relation W) `{!PreOrder R}.

Record ports_keep (ports : Ports.t W) : Prop := {
  keep_pcm : forall chunk, keeps R (Ports.speech_pcm ports chunk);
  keep_identity : keeps R (Ports.identity ports);
  keep_recognize : forall chunk pcm, keeps R (Ports.recognize ports chunk pcm);
  keep_cancelled : keeps R (Ports.is_cancelled ports)
}.

Record seed_keeps (seed : SeedPort.t W) : Prop := {
  keep_keep : forall key window o, keeps_do R (SeedPort.keep seed key window o);
  keep_find : forall key window, keeps R (SeedPort.find seed key window)
}.

Record scope_keeps (scope : CheckpointScope.t W) : Prop := {
  keep_load : forall index, keeps R (CheckpointScope.load scope index);
  keep_store : forall c, keeps R (CheckpointScope.store scope c);
  keep_discard : forall index, keeps_do R (CheckpointScope.discard scope index);
  keep_report : forall update, keeps_do R (CheckpointScope.report scope update);
  keep_finished : forall so_far, keeps_do R (CheckpointScope.chunk_finished scope so_far);
  keep_elapsed : keeps R (CheckpointScope.elapsed scope);
  keep_seed : forall seed, CheckpointScope.seed scope = Some seed -> seed_keeps seed;
  keep_gate : forall gate, CheckpointScope.gate scope = Some gate -> keeps R gate
}.

Context (ports : Ports.t W) (scope : CheckpointScope.t W) (request : TranscribeRangeRequest.t).
Context (Hports : ports_keep ports) (Hscope : scope_keeps scope).

Hint Resolve keep_pcm keep_identity keep_recognize keep_cancelled keep_load keep_store keep_discard keep_report
  keep_finished keep_elapsed keep_keep keep_find : keeps.

Lemma decode_keeps chunk : keeps R (decode ports chunk).
Proof. intros w. unfold decode. related (keep_pcm _ Hports chunk w) as [[|[]] w']; reflexivity. Qed.
Hint Resolve decode_keeps : keeps.

Lemma stop_keeps stage : keeps R (stop_if_cancelled ports stage).
Proof. unfold stop_if_cancelled. keep_eff. Qed.
Hint Resolve stop_keeps : keeps.

Lemma fresh_chunk_keeps chunk : keeps R (fresh_chunk ports request chunk).
Proof. unfold fresh_chunk. keep_eff. Qed.

Lemma identity_keeps : keeps R (ensure_identity ports request).
Proof. unfold ensure_identity. keep_eff. Qed.
Hint Resolve fresh_chunk_keeps identity_keeps : keeps.

Lemma seeded_keeps chunk usage : keeps R (seeded_answer request scope chunk usage).
Proof.
  intros w. unfold seeded_answer. destruct (CheckpointScope.seed scope) as [port|] eqn:E; [|reflexivity].
  pose proof (keep_seed _ Hscope _ E) as Hseed.
  related (keep_find _ Hseed (SeedPort.key port) (PlannedChunk.window chunk) w) as [[o|] w1]; [|reflexivity].
  destruct (stored_result _ _ _); [|reflexivity].
  related (keep_store _ Hscope (ChunkCheckpoint.new (CheckpointScope.key scope) chunk o) w1) as [x w2]. reflexivity.
Qed.

Lemma reuse_keeps chunk usage : keeps R (reuse_checkpoint request scope chunk usage).
Proof.
  intros w. unfold reuse_checkpoint. related (keep_load _ Hscope (PlannedChunk.index chunk) w) as [[|c|] w1].
  - apply seeded_keeps.
  - cbv zeta. case_match; [reflexivity|]. apply (keep_discard _ Hscope).
  - reflexivity.
Qed.

Lemma keep_answer_keeps chunk o : keeps_do R (keep_answer (Some scope) chunk o).
Proof.
  intros w. unfold keep_answer. destruct (CheckpointScope.seed scope) as [port|] eqn:E; [|reflexivity].
  apply (keep_keep _ (keep_seed _ Hscope _ E)).
Qed.

Lemma ready_keeps completed : keeps R (ready_for_chunk ports (Some scope) completed).
Proof.
  unfold ready_for_chunk. apply keeps_bind; [exact _|apply stop_keeps|]. intros _.
  destruct (CheckpointScope.gate scope) as [gate|] eqn:E; [|auto with keeps].
  pose proof (keep_gate _ Hscope _ E). destruct (0 <? completed); auto with keeps.
Qed.

Lemma reused_keeps st chunk : keeps R (reused_result (Some scope) request st chunk).
Proof.
  intros w. unfold reused_result. related (reuse_keeps chunk (usage st) w) as [[[[r o]|] u] w1]; [|reflexivity].
  apply keep_answer_keeps.
Qed.

Lemma store_checkpoint_keeps chunk o : keeps R (store_checkpoint (Some scope) chunk o).
Proof. apply (keep_store _ Hscope). Qed.
Hint Resolve keep_answer_keeps ready_keeps reused_keeps store_checkpoint_keeps : keeps.

Lemma fresh_result_keeps chunk : keeps R (fresh_result ports (Some scope) request chunk).
Proof. unfold fresh_result. keep_eff. Qed.

Lemma report_keeps total completed m : keeps_do R (report (Some scope) total completed m).
Proof.
  intros w. unfold report. destruct m as [m|]; [|apply (keep_report _ Hscope)].
  pose proof (keep_elapsed _ Hscope w) as Hw. destruct (CheckpointScope.elapsed scope w) as [t w1].
  etransitivity; [exact Hw|]. apply (keep_report _ Hscope).
Qed.

Lemma meter_keeps m reached fresh : keeps R (meter_finished (Some scope) m reached fresh).
Proof.
  intros w. unfold meter_finished. destruct m as [m|]; [|reflexivity].
  related (keep_elapsed _ Hscope w) as [t w1]. reflexivity.
Qed.

Lemma start_meter_keeps : keeps R (start_meter (Some scope) request).
Proof. intros w. unfold start_meter. related (keep_elapsed _ Hscope w) as [t w1]. reflexivity. Qed.
Hint Resolve fresh_result_keeps report_keeps meter_keeps start_meter_keeps : keeps.

Lemma chunk_step_keeps planned st chunk :
  keeps R (chunk_step ports (Some scope) (CheckpointScope.chunk_finished scope) request planned st chunk).
Proof. pose proof (keep_finished _ Hscope). unfold chunk_step. keep_eff. Qed.
Hint Resolve chunk_step_keeps : keeps.

Lemma run_loop_keeps planned chunks st :
  keeps R (run_loop ports (Some scope) (CheckpointScope.chunk_finished scope) request planned st chunks).
Proof. revert st. induction chunks as [|chunk rest IH]; intros st; cbn [run_loop]; keep_eff. Qed.
Hint Resolve run_loop_keeps : keeps.

Lemma recognition_keeps : keeps R (transcribe_range_checkpointed ports scope request).
Proof. unfold transcribe_range_checkpointed, run_chunks. keep_eff. Qed.
End Recognition.

(** ** The publisher *)

Section Publishing.
Context {W : Type} `{UnicodeTables} `{Sha256} (R : relation W) `{!PreOrder R}.
Context (run : RetranscriptionRun.t) (store : RevisionStore.t W) (publication : Publication).
Context (elapsed : W -> Z * W) (epoch attempt : Z).

(** The readings of the store. *)
Record reads_keep : Prop := {
  keep_head : forall session now, keeps R (RevisionStore.head store session now);
  keep_revision : forall session id now, keeps R (RevisionStore.revision store session id now);
  keep_open : forall session now, keeps R (RevisionStore.open_revision store session now)
}.

Context (Hreads : reads_keep).

Lemma publisher_new_keeps : keeps R (new run store publication).
Proof.
  intros w. unfold new. destruct publication; [reflexivity|].
  related (keep_open Hreads (RetranscriptionRun.session_id run) (RetranscriptionRun.now run) w) as [[[open|]|e] w1];
    [case_match|..]; reflexivity.
Qed.

Context (Helapsed : keeps R elapsed).
Context (Hpart : forall operation part expected open first,
  part_operation_id (RetranscriptionRun.job_id run) epoch attempt part = Ok operation ->
  keeps R (RevisionStore.publish_part store (RetranscriptionRun.session_id run) operation expected open
             (RetranscriptionRun.job_id run) part first (RetranscriptionRun.now run))).

Lemma commit_part_keeps so_far st now open part head : keeps R (commit_part run store epoch attempt so_far st now open part head).
Proof.
  intros w. unfold commit_part. cbv zeta. case_match; [reflexivity|].
  destruct (part_operation_id _ _ _ _) as [operation|] eqn:E; [|reflexivity].
  match goal with |- context [RevisionStore.publish_part _ _ _ ?g _ _ _ ?n _ _] =>
    related (Hpart operation part g open n E w) as [[|[]] w1] end; reflexivity.
Qed.

Lemma publish_keeps so_far st : keeps R (publish run store publication elapsed epoch attempt so_far st).
Proof.
  intros w. unfold publish. destruct publication as [|interval]; [reflexivity|]. do 2 (case_match; [reflexivity|]).
  related (Helapsed w) as [now w1]. case_match; [reflexivity|].
  match goal with |- context [match ?x with Ok _ => _ | Err _ => _ end] => destruct x as [[[open part]|]|] end; try reflexivity.
  related (keep_head Hreads (RetranscriptionRun.session_id run) (RetranscriptionRun.now run) w1) as [[head|e] w2];
    [apply commit_part_keeps|reflexivity].
Qed.

Lemma chunk_finished_keeps so_far st : keeps R (chunk_finished run store publication elapsed epoch attempt so_far st).
Proof.
  intros w. unfold chunk_finished. destruct (RunSoFar.next so_far); [|reflexivity].
  destruct (State.stopped st); [reflexivity|]. related (publish_keeps so_far st w) as [[st'|e] w1]; reflexivity.
Qed.
End Publishing.

(** ** The seal of what was published *)

Section Sealing.
Context {W : Type} `{Sha256} (R : relation W) `{!PreOrder R} (store : RevisionStore.t W).
Context (session : OpaqueId SessionId) (job : OpaqueId JobId) (epoch attempt now : Z) (sleep : Duration -> W -> W).
Context (Hreads : reads_keep R store) (Hsleep : forall d, keeps_do R (sleep d)).
Context (Hstop : forall operation expected revision,
  stop_operation_id job epoch attempt = Ok operation ->
  keeps R (RevisionStore.publish_revision store session operation expected revision now)).

Lemma try_seal_keeps operation stopped :
  stop_operation_id job epoch attempt = Ok operation -> keeps R (try_seal store session now operation stopped).
Proof.
  intros E. unfold try_seal. apply keeps_bind; [exact _|apply (keep_head _ _ Hreads)|]. intros head.
  destruct (sealed_in head stopped); [auto with keeps typeclass_instances|]. intros w.
  related (Hstop operation (SessionHead.generation head) stopped E w) as [[|[]] w1]; reflexivity.
Qed.

Lemma seal_after_keeps operation stopped waits :
  stop_operation_id job epoch attempt = Ok operation -> keeps R (seal_after store session now sleep operation stopped waits).
Proof.
  intros E. pose proof (try_seal_keeps operation stopped E). induction waits as [|wait waits IH]; cbn [seal_after]; keep_eff.
Qed.

(** What [stopped_of] finds is to be sealed under the identity of the stop. *)
Lemma seal_stopped_keeps : keeps R (seal_stopped store session job epoch attempt now sleep).
Proof.
  intros w. unfold seal_stopped, eff_bind.
  assert (Hfound : R w (stopped_of store session job epoch attempt now w).2
    /\ forall stopped operation, (stopped_of store session job epoch attempt now w).1 = Ok (Some (stopped, operation)) ->
         stop_operation_id job epoch attempt = Ok operation).
  { split.
    - pose proof (keep_open _ _ Hreads session now). pose proof (fun id => keep_revision _ _ Hreads session id now).
      revert w. change (keeps R (stopped_of store session job epoch attempt now)). unfold stopped_of. keep_eff.
    - unfold stopped_of, eff_bind, eff_result, eff_ret. intros stopped operation.
      repeat (case_match; cbn in *; simplify_eq; try done).
      all: intros [= <- <-]; 
        match goal with E : map_err _ (stop_operation_id _ _ _) = Ok _ |- _ => by apply map_err_Ok in E end. }
  destruct (stopped_of store session job epoch attempt now w) as [[[[stopped operation]|]|e] w1]; destruct Hfound as [Hw Hop];
    cbn in *; try exact Hw.
  etransitivity; [exact Hw|]. exact (seal_after_keeps operation stopped [0; 50; 200; 800] (Hop _ _ eq_refl) w1).
Qed.
End Sealing.
