(* ===== verification/JobCommit.v ===== *)
(** * JobCommit: reconciling a job with the chain of commits, and committing

    Models, of [crates/vsift-application/src/job.rs], how a job whose owner is
    gone is reconciled with the chain of the session's commits, and what a
    reader reports of it; and, of [job/run.rs], why a run or an attempt stops
    and how an attempt commits its revision, following the session while it
    moves. [&mut retries] is passed and given back. *)

From S2P Require Import Prelude.
From S2P Require Import Text.
From S2P Require Import Timeline.
From S2P Require Import Storage.
From S2P Require Import Identity.
From S2P Require Import Failure.
From S2P Require Import Retry.
From S2P Require Import Job.
From S2P Require Import AsrOutput.
From S2P Require Import Revision.
From S2P Require Import Cues.
From S2P Require Import DerivedIdentity.
From S2P Require Import RevisionBuild.
From S2P Require Import Transcribe.
From S2P Require Import AsrRun.
From S2P Require Import JobKeys.
From S2P Require Import JobRecord.
From S2P Require Import JobStore.
From S2P Require Import Publish.

(** ** Reconciling *)

Inductive Reconciled := Unchanged | Committed | WasInterrupted | WasCancelled.

Section Reconcile.
Context {W : Type} (owner : JobOwner.t W) (ledger : CommitLedger.t W) (now : Z).

Definition end_interrupted : Eff W JobStoreError.t unit := fun w =>
  let change := if exhausted (JobOwner.record owner w) then JobChange.Fail None else JobChange.Interrupt None in
  JobOwner.apply owner change now w.

(** Whether the commit of a record is in the chain. *)
Definition landed (record : JobRecord.t) : Eff W SessionStorageError.t bool :=
  match JobRecord.commit record with
  | Some commit =>
      do! generation := CommitLedger.committed_generation ledger (JobRecord.session_id record)
                          (JobCommit.operation_id commit) (JobCommit.observed_generation commit) in
      eff_ret (bool_decide (is_Some generation))
  | None => eff_ret false
  end.

Definition reconcile : Eff W JobStoreError.t Reconciled := fun w =>
  let record := JobOwner.record owner w in
  match JobRecord.state record with
  | Committing =>
      (do! landed := eff_map_err JobStoreError.Storage (landed record) in
       if landed then
         do! _ := JobOwner.apply owner JobChange.Succeed now in eff_ret Committed
       else
         do! _ := end_interrupted in eff_ret WasInterrupted) w
  | Job.Running => (do! _ := end_interrupted in eff_ret WasInterrupted) w
  | Cancelling => (do! _ := JobOwner.apply owner JobChange.Cancel now in eff_ret WasCancelled) w
  | Queued | Interrupted | Succeeded | Job.Failed | Cancelled => (Ok Unchanged, w)
  end.

Definition observed_state (view : JobView.t) : Eff W SessionStorageError.t JobState :=
  let record := JobView.record view in
  if match JobView.liveness view with Owned => true | Unowned => false end
     || negb (claims_an_owner (JobRecord.state record))
  then eff_ret (JobRecord.state record)
  else if bool_decide (JobRecord.state record = Cancelling) then eff_ret Cancelled
  else
    do! landed := if bool_decide (JobRecord.state record = Committing) then landed record else eff_ret false in
    eff_ret (if landed then Succeeded else if exhausted record then Job.Failed else Interrupted).
End Reconcile.

(** ** Why a run stops *)

Module JobRunError.
Inductive t :=
| Busy (job : OpaqueId JobId)
| IdempotencyConflict (job : OpaqueId JobId)
| NotResumable (job : OpaqueId JobId) (state : JobState)
| Cancelled (job : OpaqueId JobId)
| Superseded (job : OpaqueId JobId)
| Asr (job : OpaqueId JobId) (failure : AsrRunFailure.t)
| Assembly (error : TranscriptBuildError)
| Storage (error : SessionStorageError.t)
| Job (error : JobStoreError.t)
| Key (error : JobKeyError)
| PublishedDiffers (job : OpaqueId JobId)
| AdmissionBusy (job : OpaqueId JobId) (retry_after : Duration).

Definition cannot_succeed_on_resume (e : t) : bool :=
  match e with
  | Asr _ failure => AsrFailureReason.cannot_succeed_on_resume (AsrFailure.reason (AsrRunFailure.failure failure))
  | PublishedDiffers _ => true
  | _ => false
  end.

(** [JobRunError::job] *)
Definition job (e : t) : option (OpaqueId JobId) :=
  match e with
  | Busy job | IdempotencyConflict job | NotResumable job _ | Cancelled job | Superseded job | Asr job _
  | PublishedDiffers job | AdmissionBusy job _ => Some job
  | Assembly _ | Storage _ | Job _ | Key _ => None
  end.
End JobRunError.

Definition owned_or_busy (error : JobStoreError.t) (job : OpaqueId JobId) : JobRunError.t :=
  match error with
  | JobStoreError.Storage SessionStorageError.Busy => JobRunError.Busy job
  | other => JobRunError.Job other
  end.

Module AttemptStop.
Inductive t :=
| CancelledByRequest
| AttemptFailed (error : JobRunError.t) (chunk : option Z).

Definition failed (error : JobRunError.t) : t := AttemptFailed error None.
End AttemptStop.

(** ** Committing *)

Section Commit.
Context {W : Type} `{Sha256}.
Context (run : RetranscriptionRun.t) (owner : JobOwner.t W) (revisions : RevisionStore.t W) (ledger : CommitLedger.t W)
  (timer : RetryTimer.t W).
Context (transcription : AsrTranscription.t) (operation : OpaqueId OperationId).

Let session := RetranscriptionRun.session_id run.
Let job := RetranscriptionRun.job_id run.
Let now := RetranscriptionRun.now run.

(** The refusals after which the session may have moved. *)
Definition may_have_moved (error : SessionStorageError.t) : bool :=
  match error with SessionStorageError.StateConflict | SessionStorageError.Busy => true | _ => false end.

(** The revision and the base to go on with, once the session has [head]. *)
Definition follow (head : SessionHead.t) (revision : TranscriptRevision.t)
    (base_id : option (OpaqueId TranscriptRevisionId))
    : result (TranscriptRevision.t * option (OpaqueId TranscriptRevisionId)) JobRunError.t :=
  let newest_id := SessionHead.newest_id head in
  let ours := bool_decide (newest_id = Some (TranscriptRevision.id revision)) in
  if negb (bool_decide (newest_id = base_id)) && negb ours then
    let request := RetranscriptionRun.transcribe run in
    let source := SourceSegment.range (TranscribeRangeRequest.source_segment request) in
    let range := retranscription_range (SessionHead.newest head) (RetranscriptionRun.requested run) source in
    if bool_decide (range = TranscribeRangeRequest.range request) then
      let? revision := map_err JobRunError.Assembly (assemble run (SessionHead.newest head) transcription) in
      Ok (revision, newest_id)
    else Err (JobRunError.Superseded job)
  else Ok (revision, base_id).

(** The automatic retries that are left. *)
Definition retries_left (retries : Z) : nat := Z.to_nat (MAX_AUTOMATIC_RETRIES - retries).

(** What one round of the loop ends with: a result, or another round, with the
    retries used, the generation and the revision it goes on with and its base. *)
Inductive Round :=
| Done (r : result TranscriptRevision.t AttemptStop.t) (retries : Z)
| Again (retries : Z) (expected : StorageGeneration.t) (revision : TranscriptRevision.t)
    (base_id : option (OpaqueId TranscriptRevisionId)).

(** The session moved, or its writer was busy: another round if the policy
    grants a retry. *)
Definition commit_again (retries : Z) (revision : TranscriptRevision.t)
    (base_id : option (OpaqueId TranscriptRevisionId)) (w : W) : Round * W :=
  let '(jitter, w) := RetryTimer.jitter timer w in
  match RetryPolicy.decide RetryPolicy.R0 FailureCode.Busy retries None jitter with
  | RetryAfter delay =>
      let retries := saturating_u32 (retries + 1) in
      match RevisionStore.head revisions session now (RetryTimer.sleep timer delay w) with
      | (Err error, w) => (Done (Err (AttemptStop.failed (JobRunError.Storage error))) retries, w)
      | (Ok head, w) =>
          (match follow head revision base_id with
           | Err error => Done (Err (AttemptStop.failed error)) retries
           | Ok (revision, base_id) => Again retries (SessionHead.generation head) revision base_id
           end, w)
      end
  | LeaveToCaller | Never =>
      (Done (Err (AttemptStop.failed (JobRunError.Storage SessionStorageError.Busy))) retries, w)
  end.

Definition commit_round (retries : Z) (expected : StorageGeneration.t) (revision : TranscriptRevision.t)
    (base_id : option (OpaqueId TranscriptRevisionId)) (w : W) : Round * W :=
  let stopped (error : JobRunError.t) (w : W) := (Done (Err (AttemptStop.failed error)) retries, w) in
  let succeed (w : W) := (Done (Ok revision) retries, (JobOwner.apply owner JobChange.Succeed now w).2) in
  match JobOwner.apply owner
          (JobChange.Commit (JobCommit.mk operation expected (TranscriptRevision.id revision))) now w with
  | (Err error, w) =>
      let '(cancelled, w) := JobOwner.cancel_requested owner w in
      if cancelled then
        match JobOwner.apply owner JobChange.Cancel now w with
        | (Err error, w) => stopped (JobRunError.Job error) w
        | (Ok _, w) => (Done (Err AttemptStop.CancelledByRequest) retries, w)
        end
      else stopped (JobRunError.Job error) w
  | (Ok _, w) =>
      match RevisionStore.publish_revision revisions session operation expected revision now w with
      | (Ok _, w) => succeed w
      | (Err error, w) =>
          match CommitLedger.committed_generation ledger session operation expected w with
          | (Ok (Some _), w) => succeed w
          | (_, w) =>
              if negb (may_have_moved error) then stopped (JobRunError.Storage error) w
              else commit_again retries revision base_id w
          end
      end
  end.

(** The loop of [commit]; [budget] is [retries_left]. A round that would be the
    last ends by itself ([commit_loop_again]), so that the loop is never left
    for want of budget. *)
Fixpoint commit_loop (budget : nat) (retries : Z) (expected : StorageGeneration.t) (revision : TranscriptRevision.t)
    (base_id : option (OpaqueId TranscriptRevisionId)) (w : W) : result TranscriptRevision.t AttemptStop.t * Z * W :=
  match commit_round retries expected revision base_id w with
  | (Done r retries, w) => (r, retries, w)
  | (Again retries expected revision base_id, w) =>
      match budget with
      | S budget => commit_loop budget retries expected revision base_id w
      | O => (Err (AttemptStop.failed (JobRunError.Storage SessionStorageError.Busy)), retries, w)
      end
  end.

Definition commit (revision : TranscriptRevision.t) (retries : Z) (w : W)
    : result TranscriptRevision.t AttemptStop.t * Z * W :=
  commit_loop (retries_left retries) retries (RetranscriptionRun.observed run) revision
    (TranscriptRevision.id <$> RetranscriptionRun.base run) w.
End Commit.

(** The retry policy grants a retry exactly while one is left. *)
Lemma busy_decides retries jitter :
  match RetryPolicy.decide RetryPolicy.R0 FailureCode.Busy retries None jitter with
  | RetryAfter _ => (0 < retries_left retries)%nat
  | LeaveToCaller => retries_left retries = 0%nat
  | Never => False
  end.
Proof.
  unfold RetryPolicy.decide, retries_left. cbn [retry_class_of RetryPolicy.max_automatic RetryPolicy.R0].
  destruct (Z.leb_spec MAX_AUTOMATIC_RETRIES retries); lia.
Qed.

(** Another round takes one retry. *)
Lemma commit_round_again {W} `{Sha256} run owner revisions ledger timer transcription operation retries expected revision base_id
    (w : W) retries' expected' revision' base_id' w' :
  0 <= retries ->
  commit_round run owner revisions ledger timer transcription operation retries expected revision base_id w
  = (Again retries' expected' revision' base_id', w') ->
  0 <= retries' /\ retries_left retries = S (retries_left retries').
Proof.
  intros Hpos. unfold commit_round. cbv zeta.
  destruct (JobOwner.apply _ _ _ _) as [[u|e] w1].
  2:{ destruct (JobOwner.cancel_requested _ _) as [[] w2]; [|done]. by destruct (JobOwner.apply _ _ _ _) as [[]]. }
  destruct (RevisionStore.publish_revision _ _ _ _ _ _ _) as [[g|e] w2]; [done|].
  assert (Hagain : forall w3,
    (if negb (may_have_moved e)
     then (Done (Err (AttemptStop.failed (JobRunError.Storage e))) retries, w3)
     else commit_again run revisions timer transcription retries revision base_id w3)
    = (Again retries' expected' revision' base_id', w') -> 0 <= retries' /\ retries_left retries = S (retries_left retries')).
  { intros w3. destruct (negb (may_have_moved e)); [done|]. unfold commit_again.
    destruct (RetryTimer.jitter timer w3) as [jitter w4]. pose proof (busy_decides retries jitter) as Hd.
    destruct (RetryPolicy.decide _ _ _ _ _); [|done..]. destruct (RevisionStore.head _ _ _ _) as [[head|e'] w5]; [|done].
    destruct (follow _ _ _ _ _) as [[]|]; [|done]. intros [= <- <- <- <- <-].
    unfold retries_left, saturating_u32, MAX_AUTOMATIC_RETRIES in *. ulia. }
  destruct (CommitLedger.committed_generation _ _ _ _ _) as [[[g|]|e'] w3]; [done|apply Hagain..].
Qed.

(** The loop as the code has it: while a round asks for another, there is one. *)
Lemma commit_loop_again {W} `{Sha256} run owner revisions ledger timer transcription operation retries expected revision base_id
    (w : W) :
  0 <= retries ->
  commit_loop run owner revisions ledger timer transcription operation (retries_left retries) retries expected revision base_id w
  = match commit_round run owner revisions ledger timer transcription operation retries expected revision base_id w with
    | (Done r retries', w') => (r, retries', w')
    | (Again retries' expected' revision' base_id', w') =>
        commit_loop run owner revisions ledger timer transcription operation (retries_left retries') retries' expected'
          revision' base_id' w'
    end.
Proof.
  intros Hpos.
  destruct (commit_round run owner revisions ledger timer transcription operation retries expected revision base_id w)
    as [[r n|n g r b] w'] eqn:E.
  - by destruct (retries_left retries); cbn [commit_loop]; rewrite E.
  - destruct (commit_round_again _ _ _ _ _ _ _ _ _ _ _ _ _ _ _ _ _ Hpos E) as [_ El]. rewrite El. cbn [commit_loop]. by rewrite E.
Qed.

(** A commit gives no retry back. *)
Lemma commit_round_retries {W} `{Sha256} run owner revisions ledger timer transcription operation retries expected revision base_id
    (w : W) :
  0 <= retries ->
  match (commit_round run owner revisions ledger timer transcription operation retries expected revision base_id w).1 with
  | Done _ retries' | Again retries' _ _ _ => 0 <= retries' /\ (retries_left retries' <= retries_left retries)%nat
  end.
Proof.
  intros Hpos.
  assert (Hmore : 0 <= saturating_u32 (retries + 1) /\ (retries_left (saturating_u32 (retries + 1)) <= retries_left retries)%nat)
    by (unfold retries_left, saturating_u32, MAX_AUTOMATIC_RETRIES; ulia).
  unfold commit_round. cbv zeta.
  destruct (JobOwner.apply _ _ _ _) as [[u|e] w1].
  2:{ destruct (JobOwner.cancel_requested _ _) as [[] w2]; [|done]. by destruct (JobOwner.apply _ _ _ _) as [[]]. }
  destruct (RevisionStore.publish_revision _ _ _ _ _ _ _) as [[g|e] w2]; [done|].
  assert (Hagain : forall w3,
    match (commit_again run revisions timer transcription retries revision base_id w3).1 with
    | Done _ retries' | Again retries' _ _ _ => 0 <= retries' /\ (retries_left retries' <= retries_left retries)%nat
    end).
  { intros w3. unfold commit_again. destruct (RetryTimer.jitter timer w3) as [jitter w4].
    destruct (RetryPolicy.decide _ _ _ _ _); [|done..].
    destruct (RevisionStore.head _ _ _ _) as [[head|e'] w5]; [|done]. by destruct (follow _ _ _ _ _) as [[]|]. }
  destruct (CommitLedger.committed_generation _ _ _ _ _) as [[[g|]|e'] w3]; [done|..];
    (destruct (negb (may_have_moved e)); [done|apply Hagain]).
Qed.

Lemma commit_retries {W} `{Sha256} run owner revisions ledger timer transcription operation revision retries (w : W) :
  0 <= retries ->
  let '(_, retries', _) := commit run owner revisions ledger timer transcription operation revision retries w in
  0 <= retries' /\ (retries_left retries' <= retries_left retries)%nat.
Proof.
  unfold commit. generalize (retries_left retries) at 1 as budget. intros budget.
  generalize (RetranscriptionRun.observed run) (TranscriptRevision.id <$> RetranscriptionRun.base run).
  revert retries revision w. induction budget as [|budget IH]; intros retries revision w expected base_id Hpos; cbn [commit_loop];
    pose proof (commit_round_retries run owner revisions ledger timer transcription operation retries expected revision base_id w Hpos) as Hr;
    destruct (commit_round run owner revisions ledger timer transcription operation retries expected revision base_id w)
      as [[r n|n g v b] w1]; cbn [fst] in Hr; try exact Hr.
  destruct Hr as [Hn Hle]. specialize (IH n v w1 g b Hn).
  destruct (commit_loop run owner revisions ledger timer transcription operation budget n g v b w1) as [[r n'] w2].
  destruct IH. split; [done|lia].
Qed.
