(* ===== verification/JobCalls.v ===== *)
(** * JobCalls: looking up, cancelling and reading a job

    Models, of [crates/vsift-application/src/job.rs], the use cases that find a
    job again, cancel it, report it or decide whether it can be resumed; and,
    of [job/run.rs], the answer of a job that has already succeeded. An owner
    taken is given up where the code drops it. *)

From S2P Require Import Prelude.
From S2P Require Import Text.
From S2P Require Import Timeline.
From S2P Require Import Storage.
From S2P Require Import Identity.
From S2P Require Import Retry.
From S2P Require Import Revision.
From S2P Require Import Transcribe.
From S2P Require Import JobKeys.
From S2P Require Import JobStore.
From S2P Require Import Publish.
From S2P Require Import JobCommit.
From S2P Require Import JobRecord.
From S2P Require Import Job.

Module OperationLookup.
Inductive t :=
| Unbound
| Replay (record : JobRecord.t)
| Busy (job : OpaqueId JobId)
| Continue (job : OpaqueId JobId).
End OperationLookup.

Module CancelOutcome.
Inductive t := Cancelled | Requested | TooLate (state : JobState) | AlreadyEnded (state : JobState).
End CancelOutcome.

(** Work done as the owner of a job, and the owner dropped after it. *)
Definition owned {W E A} (jobs : JobStore.t W) (m : Eff W E A) : Eff W E A := fun w =>
  let '(r, w) := m w in (r, JobStore.drop_owner jobs w).

Section Calls.
Context {W : Type} (jobs : JobStore.t W) (ledger : CommitLedger.t W) (session : OpaqueId SessionId) (now : Z).

Let owner := JobStore.owner jobs.

(** The record once reconciled decides between [Replay] and [Continue]. *)
Definition lookup_landed (job_id : OpaqueId JobId) : Eff W JobRunError.t OperationLookup.t := fun w =>
  match JobStore.acquire jobs session job_id w with
  | (Ok _, w) =>
      owned jobs
        (do! _ := eff_map_err JobRunError.Job (reconcile owner ledger now) in
         fun w =>
           let record := JobOwner.record owner w in
           (Ok (if bool_decide (JobRecord.state record = Succeeded) then OperationLookup.Replay record
                else OperationLookup.Continue job_id), w)) w
  | (Err (JobStoreError.Storage SessionStorageError.Busy), w) => (Ok (OperationLookup.Busy job_id), w)
  | (Err error, w) => (Err (JobRunError.Job error), w)
  end.

Definition lookup_operation (operation_id : OpaqueId OperationId) (request_digest : RequestDigest.t)
    : Eff W JobRunError.t OperationLookup.t :=
  do! job_id := eff_map_err JobRunError.Job (JobStore.job_for_operation jobs session operation_id) in
  match job_id with
  | None => eff_ret OperationLookup.Unbound
  | Some job_id =>
      do! view := eff_map_err JobRunError.Job (JobStore.job jobs session job_id) in
      match view with
      | None => eff_ret OperationLookup.Unbound
      | Some view =>
          let record := JobView.record view in
          if negb (bool_decide (JobRecord.request_digest record = request_digest))
          then eff_fail (JobRunError.IdempotencyConflict job_id)
          else
            match JobView.effective_state view, JobView.liveness view with
            | Succeeded, _ => eff_ret (OperationLookup.Replay record)
            | _, Owned => eff_ret (OperationLookup.Busy job_id)
            | Interrupted, Unowned =>
                if bool_decide (JobRecord.state record = Committing) then lookup_landed job_id
                else eff_ret (OperationLookup.Continue job_id)
            | _, Unowned => eff_ret (OperationLookup.Continue job_id)
            end
      end
  end.

(** Cancelling a job that no process owns, as its owner. *)
Definition cancel_unowned : Eff W JobStoreError.t CancelOutcome.t :=
  do! reconciled := reconcile owner ledger now in
  match reconciled with
  | Committed => eff_ret (CancelOutcome.TooLate Succeeded)
  | WasCancelled => eff_ret CancelOutcome.Cancelled
  | Unchanged | WasInterrupted => fun w =>
      let state := JobRecord.state (JobOwner.record owner w) in
      match state with
      | Queued | Interrupted =>
          (do! _ := JobOwner.apply owner JobChange.Cancel now in eff_ret CancelOutcome.Cancelled) w
      | Succeeded => (Ok (CancelOutcome.TooLate Succeeded), w)
      | Failed | Cancelled => (Ok (CancelOutcome.AlreadyEnded state), w)
      | Running | Committing | Cancelling =>
          (Err (JobStoreError.Transition (mkJobTransitionError state Cancelled)), w)
      end
  end.

Definition cancel_job (job_id : OpaqueId JobId) : Eff W JobStoreError.t CancelOutcome.t :=
  do! request := JobStore.request_cancel jobs session job_id now in
  match request with
  | CancelRequest.Requested | CancelRequest.AlreadyRequested => eff_ret CancelOutcome.Requested
  | CancelRequest.TooLate => eff_ret (CancelOutcome.TooLate Committing)
  | CancelRequest.Terminal Succeeded => eff_ret (CancelOutcome.TooLate Succeeded)
  | CancelRequest.Terminal state => eff_ret (CancelOutcome.AlreadyEnded state)
  | CancelRequest.NotLive =>
      do! _ := JobStore.acquire jobs session job_id in owned jobs cancel_unowned
  end.

(** The record of a job that must exist. *)
Definition found_job (job_id : OpaqueId JobId) : Eff W JobStoreError.t JobView.t :=
  do! view := JobStore.job jobs session job_id in eff_result (ok_or view JobStoreError.NotFound).

Definition job_status (job_id : OpaqueId JobId) : Eff W JobStoreError.t JobView.t :=
  do! view := found_job job_id in
  if negb (claims_an_owner (JobRecord.state (JobView.record view)))
     || match JobView.liveness view with Owned => true | Unowned => false end
  then eff_ret view
  else fun w =>
    match JobStore.acquire jobs session job_id w with
    | (Ok _, w) => (do! _ := owned jobs (reconcile owner ledger now) in found_job job_id) w
    | (Err (JobStoreError.Storage SessionStorageError.Busy), w) => found_job job_id w
    | (Err error, w) => (Err error, w)
    end.

Definition resumable_request (job_id : OpaqueId JobId) : Eff W JobRunError.t JobRecord.t :=
  do! view := eff_map_err JobRunError.Job (job_status job_id) in
  match JobView.liveness view with
  | Owned => eff_fail (JobRunError.Busy job_id)
  | Unowned =>
      let record := JobView.record view in
      match JobRecord.state record with
      | Queued | Interrupted => eff_ret record
      | state => eff_fail (JobRunError.NotResumable job_id state)
      end
  end.
End Calls.

(** ** Answering with what was committed *)

Module JobReport.
Record t := mk {
  job_id : OpaqueId JobId;
  operation_id : OpaqueId OperationId;
  resumed : bool;
  chunks_reused : Z;
  checkpoints_discarded : Z;
  replayed : bool;
  admission_wait : Duration
}.
End JobReport.

Module RetranscriptionOutcome.
Record t := mk { revision : TranscriptRevision.t; report : JobReport.t }.
End RetranscriptionOutcome.

Definition committed_operation (record : JobRecord.t) : result (OpaqueId OperationId) JobRunError.t :=
  ok_or (JobCommit.operation_id <$> JobRecord.commit record)
    (JobRunError.Storage SessionStorageError.IntegrityFailure).

Definition replay {W} (revisions : RevisionStore.t W) (record : JobRecord.t) (operation_id : OpaqueId OperationId) (now : Z)
    : Eff W JobRunError.t RetranscriptionOutcome.t :=
  let damaged := JobRunError.Storage SessionStorageError.IntegrityFailure in
  do! commit := eff_result (ok_or (JobRecord.commit record) damaged) in
  do! revision := eff_map_err JobRunError.Storage
                    (RevisionStore.revision revisions (JobRecord.session_id record) (JobCommit.revision_id commit) now) in
  do! revision := eff_result (ok_or revision damaged) in
  eff_ret (RetranscriptionOutcome.mk revision
             (JobReport.mk (JobRecord.job_id record) operation_id false 0 0 true 0)).
