(* ===== verification/JobRun.v ===== *)
(** * JobRun: running a retranscription job

    Models [crates/vsift-application/src/job/run.rs] but for its commit
    (JobCommit.v) and its replay (JobCalls.v): one attempt of a job, how a failed
    attempt settles it, and the whole call, which finds the job, reconciles it and
    attempts it again while the retry policy allows. The wait for admission and
    the gate of queued work (Capacity.v) are arguments, since queued work may
    wait without end: [admission] gives the waits it leaves, and
    the permit it takes is held in the world until [give_back]. *)

From S2P Require Import Prelude.
From S2P Require Import Text.
From S2P Require Import Timeline.
From S2P Require Import Storage.
From S2P Require Import Identity.
From S2P Require Import Failure.
From S2P Require Import Retry.
From S2P Require Import Admission.
From S2P Require Import Chars.
From S2P Require Import Cues.
From S2P Require Import AsrOutput.
From S2P Require Import Revision.
From S2P Require Import DerivedIdentity.
From S2P Require Import RevisionBuild.
From S2P Require Import Progress.
From S2P Require Import Checkpoint.
From S2P Require Import Transcribe.
From S2P Require Import JobKeys.
From S2P Require Import JobStore.
From S2P Require Import Publish.
From S2P Require Import JobCommit.
From S2P Require Import JobCalls.
From S2P Require Import JobRecord.
From S2P Require Import Job.

(** The waits of a run over its attempts. *)
Module AdmissionWaits.
Record t := mk { waited : Duration; queued_spent : Duration; announced : bool }.
Definition default : t := mk 0 0 false.
End AdmissionWaits.

(** [RetranscriptionPorts]: the owner of a job also keeps its checkpoints, and
    [verify] is the guard of the commit. *)
Module RetranscriptionPorts.
Record t {W : Type} := mk {
  jobs : JobStore.t W;
  ledger : CommitLedger.t W;
  revisions : RevisionStore.t W;
  speech : Ports.t W;
  load : Z -> W -> CheckpointRead * W;
  store : ChunkCheckpoint.t -> W -> bool * W;
  discard : Z -> W -> W;
  timer : RetryTimer.t W;
  classify : JobRunError.t -> FailureCode.t;
  report : ProgressUpdate.t -> W -> W;
  publication : Publication;
  elapsed : W -> Z * W;
  seed : option (SeedPort.t W);
  verify : Eff W SessionStorageError.t unit;
  admission : AdmissionWaits.t -> W -> result unit JobRunError.t * AdmissionWaits.t * W;
  gate : option (W -> result unit AsrFailure.t * W);
  give_back : W -> W
}.
Arguments t : clear implicits.
End RetranscriptionPorts.

(** An operation of the host in the world of a publisher beside the host's. *)
Definition beside {S W A} (m : W -> A * W) (w : S * W) : A * (S * W) := let '(a, w') := m w.2 in (a, (w.1, w')).
Definition beside_do {S W} (m : W -> W) (w : S * W) : S * W := (w.1, m w.2).

Definition beside_seed {S W} (seed : SeedPort.t W) : SeedPort.t (S * W) :=
  SeedPort.mk _ (fun key window outcome => beside_do (SeedPort.keep seed key window outcome))
    (fun key window => beside (SeedPort.find seed key window)) (SeedPort.key seed).

Section Run.
Context {W : Type} `{UnicodeTables} `{Sha256}.
Context (run : RetranscriptionRun.t) (ports : RetranscriptionPorts.t W).

Let session := RetranscriptionRun.session_id run.
Let job := RetranscriptionRun.job_id run.
Let now := RetranscriptionRun.now run.
Let jobs := RetranscriptionPorts.jobs ports.
Let owner := JobStore.owner jobs.
Let ledger := RetranscriptionPorts.ledger ports.
Let revisions := RetranscriptionPorts.revisions ports.
Let timer := RetranscriptionPorts.timer ports.

(** ** One attempt *)

(** [JobAwareCancellation] *)
Definition job_aware_cancelled (w : W) : bool * W :=
  let '(cancelled, w) := Ports.is_cancelled (RetranscriptionPorts.speech ports) w in
  if cancelled then (true, w) else JobOwner.cancel_requested owner w.

Definition cancelled_if_requested (failure : AsrRunFailure.t) (w : W) : AsrRunFailure.t * W :=
  let '(cancelled, w) := Ports.is_cancelled (RetranscriptionPorts.speech ports) w in
  let inner := AsrRunFailure.failure failure in
  (if cancelled && match AsrFailure.reason inner with AsrFailureReason.Cancelled => false | _ => true end
   then AsrRunFailure.mk (AsrFailure.at_ (AsrFailure.stage inner) AsrFailureReason.Cancelled) (AsrRunFailure.chunk failure)
   else failure, w).

(** What the attempt hands to its recognition. *)
Definition attempt_ports : Ports.t (State.t * W) :=
  let speech := RetranscriptionPorts.speech ports in
  Ports.mk _ (fun chunk => beside (Ports.speech_pcm speech chunk)) (beside (Ports.identity speech))
    (fun chunk pcm => beside (Ports.recognize speech chunk pcm)) (beside job_aware_cancelled).

Definition attempt_scope (epoch attempt : Z) : CheckpointScope.t (State.t * W) :=
  CheckpointScope.mk _
    (fun index => beside (RetranscriptionPorts.load ports index))
    (fun checkpoint => beside (RetranscriptionPorts.store ports checkpoint))
    (fun index => beside_do (RetranscriptionPorts.discard ports index))
    (JobSpec.recognition_key (RetranscriptionRun.spec run))
    (fun update => beside_do (RetranscriptionPorts.report ports update))
    (fun so_far w => chunk_finished run revisions (RetranscriptionPorts.publication ports)
                       (RetranscriptionPorts.elapsed ports) epoch attempt so_far w.1 w.2)
    (beside (RetranscriptionPorts.elapsed ports))
    (beside_seed (S := State.t) <$> RetranscriptionPorts.seed ports)
    (match RetranscriptionRun.admission run with
     | AdmissionWait.Queued => beside (S := State.t) <$> RetranscriptionPorts.gate ports
     | AdmissionWait.Immediate | AdmissionWait.Bounded _ => None
     end).

(** The revision of an attempt, how it used its checkpoints and what it was
    committed under; or why it stopped. *)
Definition AttemptResult : Type :=
  result (TranscriptRevision.t * CheckpointUse.t * OpaqueId OperationId) (AttemptStop.t * option CheckpointUse.t).

(** From the recognition on, until the commit: the revision and what it is to
    be committed under. *)
Definition revision_to_commit (publisher : State.t) (transcription : AsrTranscription.t)
    : Eff W JobRunError.t (TranscriptRevision.t * OpaqueId OperationId) :=
  do! cancelled := eff_of (Ports.is_cancelled (RetranscriptionPorts.speech ports)) in
  if cancelled
  then eff_fail (JobRunError.Asr job (AsrRunFailure.from (AsrFailure.at_ AsrStage.Assembly AsrFailureReason.Cancelled)))
  else
    do! revision := eff_result (map_err JobRunError.Assembly (assemble run (RetranscriptionRun.base run) transcription)) in
    if published_differs publisher revision then eff_fail (JobRunError.PublishedDiffers job)
    else
      do! _ := eff_map_err JobRunError.Storage (RetranscriptionPorts.verify ports) in
      fun w =>
        let record := JobOwner.record owner w in
        (let? operation := map_err JobRunError.Key
                             (commit_operation_id job (JobRecord.epoch record) (JobRecord.attempt record)) in
         Ok (revision, operation), w).

Definition recognise (w : W) : result (AsrTranscription.t * CheckpointUse.t) AsrRunFailure.t * (State.t * W) :=
  let record := JobOwner.record owner w in
  transcribe_range_checkpointed attempt_ports (attempt_scope (JobRecord.epoch record) (JobRecord.attempt record))
    (RetranscriptionRun.transcribe run) (new run revisions (RetranscriptionPorts.publication ports) w).

Definition attempt_once (retries : Z) (waits : AdmissionWaits.t) (w : W) : AttemptResult * Z * AdmissionWaits.t * W :=
  match RetranscriptionPorts.admission ports waits w with
  | (Err error, waits, w) => (Err (AttemptStop.failed error, None), retries, waits, w)
  | (Ok _, waits, w) =>
      let '(recognised, (publisher, w)) := recognise w in
      let w := RetranscriptionPorts.give_back ports w in
      match recognised with
      | Err failure =>
          let '(failure, w) := cancelled_if_requested failure w in
          (Err (AttemptStop.AttemptFailed (JobRunError.Asr job failure) (AsrRunFailure.chunk failure), None), retries, waits, w)
      | Ok (transcription, usage) =>
          match revision_to_commit publisher transcription w with
          | (Err error, w) => (Err (AttemptStop.failed error, Some usage), retries, waits, w)
          | (Ok (revision, operation), w) =>
              let '(committed, retries, w) :=
                commit run owner revisions ledger timer transcription operation revision retries w in
              (match committed with
               | Ok revision => Ok (revision, usage, operation)
               | Err stop => Err (stop, Some usage)
               end, retries, waits, w)
          end
      end
  end.

(** ** Settling a failed attempt *)

(** [seal_what_was_published]; its result is not looked at. *)
Definition seal_what_was_published (w : W) : W :=
  let record := JobOwner.record owner w in
  (seal_stopped revisions session job (JobRecord.epoch record) (JobRecord.attempt record) now
     (RetryTimer.sleep timer) w).2.

(** Whether a failure ends the job. *)
Definition ends_job (record : JobRecord.t) (error : JobRunError.t) (failure : AttemptFailure) : bool :=
  match error with JobRunError.Superseded _ => true | _ => false end
  || JobRunError.cannot_succeed_on_resume error
  || (MAX_JOB_ATTEMPTS <=? JobRecord.attempt record)
  || bool_decide (is_Some (poisoned_chunk (JobRecord.failures record ++ [failure]))).

Definition settle_failed (error : JobRunError.t) (chunk : option Z) (retries : Z) (w : W)
    : result Duration JobRunError.t * W :=
  let code := RetranscriptionPorts.classify ports error in
  let failure := mkAttemptFailure chunk code in
  let '(jitter, w) := RetryTimer.jitter timer w in
  let decision := RetryPolicy.decide RetryPolicy.R0 code retries None jitter in
  let ends := ends_job (JobOwner.record owner w) error failure in
  let change := if ends then JobChange.Fail (Some failure) else JobChange.Interrupt (Some failure) in
  match JobOwner.apply owner change now w with
  | (Err e, w) => (Err (JobRunError.Job e), w)
  | (Ok _, w) =>
      let w := if ends then seal_what_was_published w else w in
      let waited_out := match error with JobRunError.AdmissionBusy _ _ => true | _ => false end in
      (match decision with
       | RetryAfter delay => if negb ends && negb waited_out then Ok delay else Err error
       | LeaveToCaller | Never => Err error
       end, w)
  end.

Definition settle_failure (stop : AttemptStop.t) (retries : Z) (w : W) : result Duration JobRunError.t * W :=
  match stop with
  | AttemptStop.CancelledByRequest => (Err (JobRunError.Cancelled job), seal_what_was_published w)
  | AttemptStop.AttemptFailed error chunk =>
      let '(cancelled, w) := JobOwner.cancel_requested owner w in
      if cancelled then
        match JobOwner.apply owner JobChange.Cancel now w with
        | (Err e, w) => (Err (JobRunError.Job e), w)
        | (Ok _, w) => (Err (JobRunError.Cancelled job), seal_what_was_published w)
        end
      else settle_failed error chunk retries w
  end.

(** ** The call *)

(** [saturating_add] of the checkpoints an attempt discarded. *)
Definition add_discarded (discarded : Z) (usage : CheckpointUse.t) : Z :=
  saturating_u32 (discarded + CheckpointUse.discarded usage).

Definition outcome_of (revision : TranscriptRevision.t) (commit_operation : OpaqueId OperationId) (resumed : bool)
    (first : CheckpointUse.t) (discarded : Z) (waits : AdmissionWaits.t) : RetranscriptionOutcome.t :=
  RetranscriptionOutcome.mk revision
    (JobReport.mk job (default commit_operation (RetranscriptionRun.operation_id run))
       (resumed || (0 <? CheckpointUse.reused first)) (CheckpointUse.reused first) discarded false
       (AdmissionWaits.waited waits)).

(** The loop of [run_retranscription]. A failed attempt is only made again when
    [settle_failure] grants a delay, which it does while [budget], the automatic
    retries left, is positive. *)
Fixpoint run_attempts (budget : nat) (resumed : bool) (retries : Z) (first_use : option CheckpointUse.t) (discarded : Z)
    (waits : AdmissionWaits.t) (w : W) : result RetranscriptionOutcome.t JobRunError.t * W :=
  match JobOwner.apply owner JobChange.Start now w with
  | (Err error, w) => (Err (JobRunError.Job error), w)
  | (Ok _, w) =>
      let '(attempt, retries, waits, w) := attempt_once retries waits w in
      match attempt with
      | Ok (revision, usage, commit_operation) =>
          let w := match RetranscriptionRun.operation_id run with
                   | None => (JobOwner.bind_operation owner commit_operation now w).2
                   | Some _ => w
                   end in
          (Ok (outcome_of revision commit_operation resumed (default usage first_use) (add_discarded discarded usage) waits), w)
      | Err (stop, usage) =>
          let first_use := match usage with Some usage => get_or_insert first_use usage | None => first_use end in
          let discarded := match usage with Some usage => add_discarded discarded usage | None => discarded end in
          match settle_failure stop retries w with
          | (Err error, w) => (Err error, w)
          | (Ok delay, w) =>
              match budget with
              | S budget =>
                  run_attempts budget resumed (saturating_u32 (retries + 1)) first_use discarded waits
                    (RetryTimer.sleep timer delay w)
              | O => (Err (JobRunError.Storage SessionStorageError.Busy), w)
              end
          end
      end
  end.

Definition start_attempts (created : bool) : Eff W JobRunError.t RetranscriptionOutcome.t := fun w =>
  let resumed := negb created && (0 <? JobRecord.attempt (JobOwner.record owner w)) in
  (do! _ := match RetranscriptionRun.operation_id run with
            | Some operation => eff_map_err JobRunError.Job (JobOwner.bind_operation owner operation now)
            | None => eff_ret tt
            end in
   run_attempts (retries_left 0) resumed 0 None 0 AdmissionWaits.default) w.

(** A job that turns out to have succeeded. *)
Definition answer_succeeded : Eff W JobRunError.t RetranscriptionOutcome.t := fun w =>
  let record := JobOwner.record owner w in
  (do! operation := match RetranscriptionRun.operation_id run with
                    | Some operation =>
                        do! _ := eff_map_err JobRunError.Job (JobOwner.bind_operation owner operation now) in
                        eff_ret operation
                    | None => eff_result (committed_operation record)
                    end in
   replay revisions record operation now) w.

Definition run_owned (created : bool) : Eff W JobRunError.t RetranscriptionOutcome.t :=
  do! _ := eff_map_err JobRunError.Job (reconcile owner ledger now) in
  fun w =>
    match JobRecord.state (JobOwner.record owner w) with
    | Succeeded => answer_succeeded w
    | Failed | Cancelled =>
        (do! _ := eff_map_err JobRunError.Job (JobOwner.apply owner JobChange.Restart now) in start_attempts created) w
    | Queued | Running | Committing | Interrupted | Cancelling => start_attempts created w
    end.

Definition run_job : Eff W JobRunError.t RetranscriptionOutcome.t :=
  do! created := eff_map_err (fun error => owned_or_busy error job)
                   (JobStore.open_or_create jobs (RetranscriptionRun.spec run) now) in
  owned jobs (run_owned created).

Definition run_retranscription : Eff W JobRunError.t RetranscriptionOutcome.t :=
  match RetranscriptionRun.operation_id run with
  | None => run_job
  | Some operation =>
      do! found := lookup_operation jobs ledger session now operation
                     (JobSpec.request_digest (RetranscriptionRun.spec run)) in
      match found with
      | OperationLookup.Replay record => replay revisions record operation now
      | OperationLookup.Busy job => eff_fail (JobRunError.Busy job)
      | OperationLookup.Unbound | OperationLookup.Continue _ => run_job
      end
  end.
End Run.

(** ** The attempts end *)

(** A retry is granted only while one is left. *)
Lemma retry_granted code retries jitter delay :
  RetryPolicy.decide RetryPolicy.R0 code retries None jitter = RetryAfter delay -> (0 < retries_left retries)%nat.
Proof.
  unfold RetryPolicy.decide, retries_left. cbn [RetryPolicy.max_automatic RetryPolicy.R0].
  destruct (retry_class_of code); try done. destruct (Z.leb_spec MAX_AUTOMATIC_RETRIES retries); [done|lia].
Qed.

Section RunEnds.
Context {W : Type} `{UnicodeTables} `{Sha256} (run : RetranscriptionRun.t) (ports : RetranscriptionPorts.t W).

Lemma settle_failure_granted stop retries w delay w' :
  settle_failure run ports stop retries w = (Ok delay, w') -> (0 < retries_left retries)%nat.
Proof.
  unfold settle_failure. destruct stop as [|error chunk]; [done|].
  destruct (JobOwner.cancel_requested _ _) as [[] w1]; [by destruct (JobOwner.apply _ _ _ _) as [[]]|].
  unfold settle_failed. cbv zeta. destruct (RetryTimer.jitter _ _) as [jitter w2].
  destruct (JobOwner.apply _ _ _ _) as [[u|e] w3]; [|done].
  destruct (RetryPolicy.decide _ _ _ _ _) eqn:E; [|done..]. intros _. by eapply retry_granted.
Qed.

Lemma attempt_once_retries retries waits w :
  0 <= retries ->
  let '(_, retries', _, _) := attempt_once run ports retries waits w in
  0 <= retries' /\ (retries_left retries' <= retries_left retries)%nat.
Proof.
  intros Hpos. unfold attempt_once. destruct (RetranscriptionPorts.admission ports waits w) as [[[u|e] waits1] w1]; [|done].
  destruct (recognise run ports w1) as [r [publisher w2]].
  destruct r as [[transcription usage]|failure]; [|by destruct (cancelled_if_requested _ _ _)].
  destruct (revision_to_commit _ _ _ _ _) as [[[revision operation]|e] w3]; [|done].
  pose proof (commit_retries run (JobStore.owner (RetranscriptionPorts.jobs ports)) (RetranscriptionPorts.revisions ports)
    (RetranscriptionPorts.ledger ports) (RetranscriptionPorts.timer ports) transcription operation revision retries w3 Hpos) as Hc.
  by destruct (commit _ _ _ _ _ _ _ _ _ _) as [[committed retries'] w4].
Qed.

(** The budget of the loop over the attempts is enough: with any other that is
    at least the retries left it does the same. *)
Lemma run_attempts_enough budget budget' resumed retries first_use discarded waits w :
  0 <= retries -> (retries_left retries <= budget)%nat -> (retries_left retries <= budget')%nat ->
  run_attempts run ports budget resumed retries first_use discarded waits w
  = run_attempts run ports budget' resumed retries first_use discarded waits w.
Proof.
  revert budget' retries first_use discarded waits w. induction budget as [|budget IH];
    intros [|budget'] retries first_use discarded waits w Hpos Hle Hle'; cbn [run_attempts]; [done|..].
  all: destruct (JobOwner.apply _ _ _ w) as [[u|e] w1]; [|done].
  all: pose proof (attempt_once_retries retries waits w1 Hpos) as Ha.
  all: destruct (attempt_once run ports retries waits w1) as [[[[[[revision usage] operation]|[stop usage]] retries1] waits1] w2];
    [done|]; destruct Ha as [Hpos1 Hle1].
  all: destruct (settle_failure run ports stop retries1 w2) as [[delay|error] w3] eqn:Es; [|done].
  all: apply settle_failure_granted in Es.
  1, 2: lia.
  apply IH; unfold retries_left, saturating_u32, MAX_AUTOMATIC_RETRIES in *; ulia.
Qed.
End RunEnds.
