(* ===== verification/JobRule.v ===== *)
(** * JobRule: the rule by which a job commits at most once

    The rule of ADR 0020 that JobCommit.v, JobCalls.v and JobRun.v implement: the
    record of a job says [committing] before anything is published, and the chain
    of commits, not the record, says whether a commit landed. The process may end
    at any call of a port, and other processes read, cancel, commit to the session
    and, while this one does not own the job, run it. The rule is kept for as long
    as the store has left no process unsure of a commit, by failing to publish it
    and then to read the chain ([unsure_when_unread]). *)

From stdpp Require Import relations.
From S2P Require Import Prelude.
From S2P Require Import Text.
From S2P Require Import Timeline.
From S2P Require Import Storage.
From S2P Require Import Identity.
From S2P Require Import Retry.
From S2P Require Import Revision.
From S2P Require Import DerivedIdentity.
From S2P Require Import Transcribe.
From S2P Require Import JobKeys.
From S2P Require Import JobStore.
From S2P Require Import Publish.
From S2P Require Import JobSteps.
From S2P Require Import JobCommit.
From S2P Require Import JobCalls.
From S2P Require Import JobRun.
From S2P Require Import JobRecord.
From S2P Require Import Job.

(** ** What is stored *)

(** A commit in the chain of a session. *)
Module Entry.
Record t := mk { generation : Z; operation : OpaqueId OperationId; revision : OpaqueId TranscriptRevisionId }.
End Entry.

(** The chain of the session, and the record of the job once it has one. *)
Definition Stored : Type := list Entry.t * option JobRecord.t.

Section Stored.
(** The session and the job, and which operations commit the result of the job. *)
Context (session : OpaqueId SessionId) (job : OpaqueId JobId) (ours : OpaqueId OperationId -> bool).

Definition committed (chain : list Entry.t) : list Entry.t := filter (fun e => ours (Entry.operation e) = true) chain.

(** The record of a commit tells of an entry. *)
Definition tells_of (r : JobRecord.t) (e : Entry.t) : Prop :=
  exists commit, JobRecord.commit r = Some commit
    /\ Entry.operation e = JobCommit.operation_id commit /\ Entry.revision e = JobCommit.revision_id commit
    /\ JobCommit.observed_generation commit < Entry.generation e.

(** At most one commit, and one exactly of which the record tells: a job that
    has not committed is not recorded as succeeded, and one that has is recorded
    as committing it or as succeeded. *)
Definition commits_once (s : Stored) : Prop :=
  match s.2 with
  | None => committed s.1 = []
  | Some r =>
      JobRecord.session_id r = session /\ JobRecord.job_id r = job
      /\ ((committed s.1 = [] /\ JobRecord.state r <> Succeeded
           /\ forall commit, JobRecord.commit r = Some commit -> ours (JobCommit.operation_id commit) = true)
          \/ exists e, committed s.1 = [e] /\ tells_of r e
               /\ (JobRecord.state r = Committing \/ JobRecord.state r = Succeeded))
  end.

(** The records of one job that hold the same commit, epoch and attempt. *)
Definition same_attempt (r r' : JobRecord.t) : Prop :=
  JobRecord.session_id r' = JobRecord.session_id r /\ JobRecord.job_id r' = JobRecord.job_id r
  /\ JobRecord.epoch r' = JobRecord.epoch r /\ JobRecord.attempt r' = JobRecord.attempt r
  /\ JobRecord.commit r' = JobRecord.commit r.

(** The owner's record and what others may make of it: they bind operations to
    it, and ask the owner to stop. *)
Definition same_or_asked (r r' : JobRecord.t) : Prop :=
  same_attempt r r'
  /\ (JobRecord.state r' = JobRecord.state r
      \/ step (JobRecord.state r) Cancelling /\ JobRecord.state r' = Cancelling).

(** What other processes do while this one owns the job, and while it does not. *)
Definition held (s s' : Stored) : Prop :=
  (exists others, s'.1 = s.1 ++ others /\ committed others = [])
  /\ match s.2, s'.2 with
     | Some r, Some r' => same_or_asked r r'
     | None, None => True
     | _, _ => False
     end.

Definition free (s s' : Stored) : Prop :=
  (exists others, s'.1 = s.1 ++ others) /\ (commits_once s -> commits_once s').

Lemma committed_app c c' : committed (c ++ c') = committed c ++ committed c'.
Proof. apply filter_app. Qed.

#[global] Instance same_or_asked_pre : PreOrder same_or_asked.
Proof.
  split; [by intros r; repeat split; left|].
  intros a b c [(A1 & A2 & A3 & A4 & A5) A6] [(B1 & B2 & B3 & B4 & B5) B6].
  split; [by repeat split; etransitivity|]. destruct A6 as [A6|[A6 A7]], B6 as [B6|[B6 B7]].
  - left. congruence.
  - right. by rewrite <- A6.
  - right. by rewrite B6.
  - by rewrite A7 in B6.
Qed.

(** Asking is the change that [JobChange.RequestCancel] makes. *)
Lemma asked_is_asking r now r' : JobRecord.changed r JobChange.RequestCancel now = Ok r' -> same_or_asked r r'.
Proof.
  intros (state & epoch & attempt & failures & commit & -> & Hs & [= -> -> -> -> ->])%changed_set.
  split; [by repeat split|]. by right.
Qed.

#[global] Instance held_pre : PreOrder held.
Proof.
  split.
  - intros [c [r|]]; (split; [exists []; split; [by rewrite app_nil_r|done]|]); cbn; [reflexivity|done].
  - intros [c o] [c' o'] [c'' o''] [(x & Ex & Hx) Ho] [(y & Ey & Hy) Ho']. cbn in *. subst c' c''. split.
    + exists (x ++ y). split; [by rewrite app_assoc|by rewrite committed_app, Hx, Hy].
    + destruct o, o', o''; cbn in *; try done. by etransitivity.
Qed.

#[global] Instance free_pre : PreOrder free.
Proof.
  split.
  - intros s. split; [exists []; by rewrite app_nil_r|done].
  - intros [c o] [c' o'] [c'' o''] [(x & Ex) Ho] [(y & Ey) Ho']. cbn in *. subst c' c''.
    split; [exists (x ++ y); cbn; by rewrite app_assoc|tauto].
Qed.

Lemma held_committed s s' : held s s' -> committed s'.1 = committed s.1.
Proof. intros [(x & -> & Hx) _]. by rewrite committed_app, Hx, app_nil_r. Qed.

Lemma held_once s s' : held s s' -> commits_once s -> commits_once s'.
Proof.
  intros Hheld. pose proof (held_committed _ _ Hheld) as Hc. destruct Hheld as [_ Ho]. unfold commits_once.
  destruct s as [c [r|]], s' as [c' [r'|]]; cbn [fst snd] in *; try done; [|by rewrite Hc].
  destruct Ho as [(A1 & A2 & _ & _ & A5) A6]. unfold tells_of. rewrite Hc, A1, A2, A5.
  intros (-> & -> & [(B1 & B2 & B3)|(e & B1 & B2 & B3)]); (split; [done|]); (split; [done|]).
  - left. split; [done|]. split; [|done]. destruct A6 as [A6|[_ A6]]; by rewrite A6.
  - right. exists e. split; [done|]. split; [done|].
    destruct A6 as [A6|[A6 _]]; [by rewrite A6|]. by destruct B3 as [B3|B3]; rewrite B3 in A6.
Qed.

Lemma held_free s s' : held s s' -> free s s'.
Proof. intros Hheld. split; [|by apply held_once]. destruct Hheld as [(x & Hx & _) _]. by exists x. Qed.

(** A chain that only grows keeps the one commit it has. *)
Lemma free_committed s s' e : free s s' -> commits_once s -> committed s.1 = [e] -> committed s'.1 = [e].
Proof.
  intros [(x & Hx) Honce] Hs He. specialize (Honce Hs). unfold commits_once in Honce. rewrite Hx, committed_app, He in *.
  cbn [app] in *. destruct (s'.2) as [r|]; [|done]. destruct Honce as (_ & _ & [[E _]|(e' & E & _)]); [done|].
  congruence.
Qed.

(** ** What the owner may change *)

(** When a change is due: to commit, when nothing is committed; to have
    succeeded, when something is. *)
Definition due (change : JobChange.t) (chain : list Entry.t) : Prop :=
  match change with
  | JobChange.Start => True
  | JobChange.Commit commit => ours (JobCommit.operation_id commit) = true /\ committed chain = []
  | JobChange.Succeed => committed chain <> []
  | _ => committed chain = []
  end.

Lemma changed_once c r change now r' :
  due change c -> JobRecord.changed r change now = Ok r' -> commits_once (c, Some r) -> commits_once (c, Some r').
Proof.
  intros Hdue (state & epoch & attempt & failures & commit & -> & Hch)%changed_set (S1 & S2 & Hr).
  split; [exact S1|]. split; [exact S2|]. unfold tells_of. cbn [JobRecord.state JobRecord.commit JobRecord.set fst snd] in *.
  destruct change; cbn [due] in Hdue; destruct_and? Hch; destruct_and? Hdue; simplify_eq;
    destruct Hr as [(B1 & B2 & B3)|(e & B1 & (cm & B2 & B4) & B5)]; simplify_eq; try congruence.
  all: try (left; split; [done|]; split; [done|]; naive_solver).
  - destruct B5 as [B5|B5]; by rewrite B5 in *.
  - right. exists e. split; [done|]. split; [by exists cm|]. by right.
Qed.
End Stored.

(** ** The ports of a run *)

Section Laws.
Context {W : Type} `{Sha256} (session : OpaqueId SessionId) (job : OpaqueId JobId) (ours : OpaqueId OperationId -> bool).
(** Whether this process is still alive, whether a process of the session was
    left unsure of a commit, the job this one owns, and what is stored. *)
Context (live unsure : W -> bool) (owns : W -> option (OpaqueId JobId)) (stored : W -> Stored).
Context (ports : RetranscriptionPorts.t W).

Let jobs := RetranscriptionPorts.jobs ports.
Let owner := JobStore.owner jobs.
Let ledger := RetranscriptionPorts.ledger ports.
Let revisions := RetranscriptionPorts.revisions ports.

Definition mine (w : W) : bool := bool_decide (owns w = Some job).

(** What others do while this process owns the job or not. *)
Definition others (owned : bool) : relation Stored := if owned then held ours else free session job ours.

(** A process that has ended changes nothing more. *)
Definition frozen (w w' : W) : Prop := stored w' = stored w /\ live w' = false.

(** What is known of a call as long as nobody was left unsure: who is stays so. *)
Definition known (w w' : W) (P : Prop) : Prop := unsure w' = false -> unsure w = false /\ P.

(** A call that leaves what is stored, and who owns the job, to the others. *)
Definition quiet (w w' : W) : Prop :=
  known w w' (if live w then others (mine w) (stored w) (stored w') /\ (live w' = true -> owns w' = owns w)
              else frozen w w').

(** A call that may put one thing more in what is stored; when it answers
    [Ok] to a process that lives on, it has. *)
Definition may_store {A E} (put : Stored -> Stored -> Prop) (w : W) (r : result A E) (w' : W) : Prop :=
  known w w'
    (if live w then
       exists s s', others (mine w) (stored w) s /\ (s' = s \/ put s s') /\ others (mine w) s' (stored w')
         /\ (live w' = true -> owns w' = owns w /\ (is_ok r = true -> put s s'))
     else frozen w w').

(** A change of the record, and a commit to the chain. *)
Definition changes (change : JobChange.t) (now : Z) (s s' : Stored) : Prop :=
  exists r r', s.2 = Some r /\ JobRecord.changed r change now = Ok r' /\ s' = (s.1, Some r').

Definition appends (operation : OpaqueId OperationId) (expected : Z) (revision : OpaqueId TranscriptRevisionId)
    (s s' : Stored) : Prop :=
  exists generation, expected < generation /\ s' = (s.1 ++ [Entry.mk generation operation revision], s.2).

Definition creates (spec : JobSpec.t) (now : Z) (s s' : Stored) : Prop :=
  s.2 = None /\ s' = (s.1, Some (JobRecord.queued spec now)).

(** A commit of the operation above a generation. *)
Definition in_chain (s : Stored) (operation : OpaqueId OperationId) (above : Z) : Prop :=
  exists e, e ∈ s.1 /\ Entry.operation e = operation /\ above < Entry.generation e.

(** A call that takes the ownership of a job, made by a process that owns none. *)
Definition takes {A E} (put : Stored -> Stored -> Prop) (j : OpaqueId JobId) (w : W) (r : result A E) (w' : W) : Prop :=
  known w w'
    (if live w then
       owns w = None ->
       exists s s', free session job ours (stored w) s /\ (s' = s \/ put s s') /\ free session job ours s' (stored w')
         /\ (live w' = true -> owns w' = match r with Ok _ => Some j | Err _ => None end)
     else frozen w w').

(** What the documentation of the ports says of the record, of the chain and of
    who owns the job. *)
Record record_laws : Prop := {
  law_record : forall w j, unsure w = false -> live w = true -> owns w = Some j ->
    JobRecord.job_id (JobOwner.record owner w) = j
    /\ (j = job -> exists r, (stored w).2 = Some r /\ same_or_asked (JobOwner.record owner w) r);
  law_apply : forall change now w, let '(r, w') := JobOwner.apply owner change now w in
    if live w && negb (mine w) then quiet w w' else may_store (changes change now) w r w';
  law_bind : forall operation now, keeps quiet (JobOwner.bind_operation owner operation now);
  law_cancel_requested : keeps quiet (JobOwner.cancel_requested owner);
  law_drop : forall w, let w' := JobStore.drop_owner jobs w in
    known w w'
      (if live w then free session job ours (stored w) (stored w') /\ (live w' = true -> owns w' = None) else frozen w w');
  law_job : forall j w, let '(r, w') := JobStore.job jobs session j w in
    quiet w w' /\ (unsure w' = false -> live w' = true -> forall view, r = Ok (Some view) ->
      JobRecord.job_id (JobView.record view) = j
      /\ (j = job -> exists s, others (mine w) (stored w) s /\ s.2 = Some (JobView.record view)
                               /\ others (mine w) s (stored w')));
  law_for_operation : forall operation, keeps quiet (JobStore.job_for_operation jobs session operation);
  law_open : forall spec now w, JobSpec.job_id spec = job -> JobSpec.session_id spec = session ->
    let '(r, w') := JobStore.open_or_create jobs spec now w in takes (creates spec now) job w r w';
  law_acquire : forall j w, let '(r, w') := JobStore.acquire jobs session j w in takes (fun _ _ => False) j w r w';
  law_request_cancel : forall j now w, let '(r, w') := JobStore.request_cancel jobs session j now w in
    known w w'
      (if live w then
         owns w = None ->
         exists s s', free session job ours (stored w) s /\ (s' = s \/ held ours s s') /\ free session job ours s' (stored w')
           /\ (live w' = true -> owns w' = None)
       else frozen w w');
  law_ledger : forall s operation above, keeps quiet (CommitLedger.committed_generation ledger s operation above);
  law_committed : forall operation above w,
    let '(r, w') := CommitLedger.committed_generation ledger session operation above w in
    unsure w' = false -> live w' = true ->
    match r with
    | Ok (Some _) => in_chain (stored w') operation above
    | Ok None => ~ in_chain (stored w) operation above
    | Err _ => True
    end;
  law_publish : forall operation expected revision now w,
    let '(r, w') := RevisionStore.publish_revision revisions session operation expected revision now w in
    may_store (appends operation expected (TranscriptRevision.id revision)) w r w';
  law_part : forall operation expected open part first now, ours operation = false ->
    keeps quiet (RevisionStore.publish_part revisions session operation expected open job part first now);
  law_reads : reads_keep quiet revisions;
  law_revision : forall s id now w, let '(r, w') := RevisionStore.revision revisions s id now w in
    live w' = true -> forall revision, r = Ok (Some revision) -> TranscriptRevision.id revision = id
}.

(** The other ports leave the record, the chain and the job alone. *)
Record other_laws : Prop := {
  law_speech : ports_keep quiet (RetranscriptionPorts.speech ports);
  law_load : forall index, keeps quiet (RetranscriptionPorts.load ports index);
  law_store : forall c, keeps quiet (RetranscriptionPorts.store ports c);
  law_discard : forall index, keeps_do quiet (RetranscriptionPorts.discard ports index);
  law_jitter : keeps quiet (RetryTimer.jitter (RetranscriptionPorts.timer ports));
  law_sleep : forall d, keeps_do quiet (RetryTimer.sleep (RetranscriptionPorts.timer ports) d);
  law_report : forall update, keeps_do quiet (RetranscriptionPorts.report ports update);
  law_elapsed : keeps quiet (RetranscriptionPorts.elapsed ports);
  law_seed : forall seed, RetranscriptionPorts.seed ports = Some seed -> seed_keeps quiet seed;
  law_verify : keeps quiet (RetranscriptionPorts.verify ports);
  law_admit : forall waits, keeps quiet (RetranscriptionPorts.admission ports waits);
  law_gate : forall gate, RetranscriptionPorts.gate ports = Some gate -> keeps quiet gate;
  law_give_back : keeps_do quiet (RetranscriptionPorts.give_back ports)
}.

(** A process is left unsure of a commit when the store fails to publish it and
    then to read the chain. That is a record of what happened, which any host
    can keep: neither call has to succeed. *)
Definition unsure_when_unread : Prop :=
  forall operation expected revision now w, ours operation = true ->
    let '(published, w1) := RevisionStore.publish_revision revisions session operation expected revision now w in
    let '(found, w2) := CommitLedger.committed_generation ledger session operation expected w1 in
    is_ok published = false -> is_ok found = false -> live w2 = true -> unsure w2 = true.

(** Which operations commit the result of the job, and not a part of it, or the
    seal of what was shown of it. *)
Record operations_told_apart : Prop := {
  names_commit : forall epoch attempt operation, commit_operation_id job epoch attempt = Ok operation -> ours operation = true;
  names_part : forall epoch attempt part operation,
    part_operation_id job epoch attempt part = Ok operation -> ours operation = false;
  names_stop : forall epoch attempt operation, stop_operation_id job epoch attempt = Ok operation -> ours operation = false
}.
End Laws.
