(* ===== verification/JobOnce.v ===== *)
(** * JobOnce: a job commits at most once

    Reconciling, committing, an attempt, a whole run, cancelling a job and reading
    it keep the rule of JobRule.v, and a process that answers a run answers with
    the one commit. The example is a process that ends right after its revision
    entered the chain, and the run of the process started after it. *)

From Stdlib Require Import Ascii.
From stdpp Require Import relations.
From S2P Require Import Prelude.
From S2P Require Import Text.
From S2P Require Import Timeline.
From S2P Require Import Storage.
From S2P Require Import Identity.
From S2P Require Import Chars.
From S2P Require Import Failure.
From S2P Require Import Retry.
From S2P Require Import Cues.
From S2P Require Import AsrOutput.
From S2P Require Import Revision.
From S2P Require Import DerivedIdentity.
From S2P Require Import RevisionBuild.
From S2P Require Import Checkpoint.
From S2P Require Import Transcribe.
From S2P Require Import TranscribeResume.
From S2P Require Import TranscribePublish.
From S2P Require Import JobKeys.
From S2P Require Import JobStore.
From S2P Require Import Publish.
From S2P Require Import PublishSafe.
From S2P Require Import JobSteps.
From S2P Require Import JobCommit.
From S2P Require Import JobCalls.
From S2P Require Import JobRun.
From S2P Require Import JobRecord.
From S2P Require Import Job.
From S2P Require Import JobRule.

(** ** The calls keep the rule *)

Section Calls.
Context {W : Type} `{UnicodeTables} `{Sha256} (session : OpaqueId SessionId) (job : OpaqueId JobId).
Context (ours : OpaqueId OperationId -> bool) (live unsure : W -> bool) (owns : W -> option (OpaqueId JobId)) (stored : W -> Stored).
Context (ports : RetranscriptionPorts.t W).
Context (Hrecord : record_laws session job ours live unsure owns stored ports).
Context (Hother : other_laws session job ours live unsure owns stored ports).

Let jobs := RetranscriptionPorts.jobs ports.
Let owner := JobStore.owner jobs.
Let ledger := RetranscriptionPorts.ledger ports.
Let revisions := RetranscriptionPorts.revisions ports.

#[local] Abbreviation mine := (mine job owns).
#[local] Abbreviation others := (others session job ours).
#[local] Abbreviation quiet := (quiet session job ours live unsure owns stored).
#[local] Abbreviation may_store := (may_store session job ours live unsure owns stored).
#[local] Abbreviation committed := (committed ours).
#[local] Abbreviation once := (commits_once session job ours).

#[local] Instance others_pre b : PreOrder (others b).
Proof. destruct b; apply _. Qed.

#[local] Instance quiet_pre : PreOrder quiet.
Proof.
  unfold JobRule.quiet, known, frozen, JobRule.mine. split.
  - intros w Eu. split; [exact Eu|]. destruct (live w) eqn:E; [by split|done].
  - intros a b c Hab Hbc Eu. destruct (Hbc Eu) as [Eb Hbc']. destruct (Hab Eb) as [Ea Hab']. clear Hab Hbc. split; [exact Ea|].
    destruct (live a); [|by destruct (live b); destruct_and?; split; congruence].
    destruct Hab' as [Hab Eab]. destruct (live b) eqn:El.
    + rewrite (Eab eq_refl) in Hbc'. destruct Hbc' as [Hbc Ebc]. split; [by etransitivity|]. exact Ebc.
    + destruct Hbc' as [-> Ec]. split; [exact Hab|]. congruence.
Qed.

(** What this process knows while it owns the job, as long as nobody is unsure:
    the rule, and something of what is committed. *)
Definition holds (P : list Entry.t -> Prop) (w : W) : Prop :=
  unsure w = false -> once (stored w) /\ (live w = true -> owns w = Some job /\ P (committed (stored w).1)).

Lemma holds_weaken (P Q : list Entry.t -> Prop) w : (forall c, P c -> Q c) -> holds P w -> holds Q w.
Proof. intros HPQ H1 Eu. destruct (H1 Eu) as [Hw Hl]. split; [exact Hw|]. intros E. destruct (Hl E). auto. Qed.

Lemma holds_dead (P : list Entry.t -> Prop) w : (unsure w = false -> once (stored w)) -> live w = false -> holds P w.
Proof. intros Hw E Eu. split; [by apply Hw|]. congruence. Qed.

Lemma others_once b s s' : others b s s' -> once s -> once s'.
Proof. destruct b; [apply held_once|by intros [_ ?]]. Qed.

Lemma mine_owned w : owns w = Some job -> mine w = true.
Proof. intros E. by apply bool_decide_eq_true. Qed.

Lemma quiet_sure w w' : quiet w w' -> unsure w' = false -> unsure w = false.
Proof. intros Hq Eu. by destruct (Hq Eu). Qed.

Lemma quiet_once w w' : quiet w w' -> unsure w' = false -> once (stored w) -> once (stored w').
Proof.
  intros Hq Eu. destruct (Hq Eu) as [_ Hq']. destruct (live w).
  - destruct Hq' as [Ho _]. by eapply others_once.
  - by destruct Hq' as [-> _].
Qed.

Lemma quiet_live w w' : quiet w w' -> unsure w' = false -> live w' = true -> live w = true /\ owns w' = owns w.
Proof.
  intros Hq Eu E'. destruct (Hq Eu) as [_ Hq']. unfold frozen in Hq'.
  destruct (live w); [destruct Hq'; auto|]. destruct Hq'. congruence.
Qed.

Lemma quiet_held w w' : quiet w w' -> unsure w' = false -> live w' = true -> owns w' = Some job -> held ours (stored w) (stored w').
Proof.
  intros Hq Eu E' Hown. destruct (quiet_live _ _ Hq Eu E') as [E Eo]. rewrite Eo in Hown. destruct (Hq Eu) as [_ Hq'].
  rewrite E, mine_owned in Hq' by done. apply Hq'.
Qed.

Lemma quiet_holds P w w' : quiet w w' -> holds P w -> holds P w'.
Proof.
  intros Hq Hh Eu. destruct (Hh (quiet_sure _ _ Hq Eu)) as [Hw Hl]. split; [by eapply quiet_once|]. intros E'.
  destruct (quiet_live _ _ Hq Eu E') as [E Eo].
  destruct (Hl E) as [Hown HP]. rewrite <- Eo in Hown. split; [exact Hown|].
  by rewrite (held_committed _ _ _ (quiet_held _ _ Hq Eu E' Hown)).
Qed.

(** A call that may store one thing more, as long as that keeps the rule. *)
Lemma may_store_holds {A E} put P Q w (r : result A E) w' :
  may_store put w r w' -> holds P w ->
  (forall s s', unsure w = false -> live w = true -> held ours (stored w) s -> once s -> P (committed s.1) -> put s s' ->
     once s' /\ Q (committed s'.1)) ->
  holds (fun c => P c \/ Q c) w'
  /\ (is_ok r = true -> holds Q w')
  /\ (unsure w' = false -> live w' = true -> is_ok r = true ->
      exists s s', once s /\ P (committed s.1) /\ put s s' /\ held ours s' (stored w')).
Proof.
  intros Hm0 Hh Hput.
  enough (Hall : unsure w' = false ->
    (once (stored w') /\ (live w' = true -> owns w' = Some job /\ (P (committed (stored w').1) \/ Q (committed (stored w').1))))
    /\ (is_ok r = true -> live w' = true -> Q (committed (stored w').1))
    /\ (live w' = true -> is_ok r = true -> exists s s', once s /\ P (committed s.1) /\ put s s' /\ held ours s' (stored w'))).
  { split; [intros Eu; apply (Hall Eu)|]. split; [|intros Eu; apply (Hall Eu)].
    intros Hok Eu. destruct (Hall Eu) as ([H1 H2] & H3 & _). split; [exact H1|]. intros E'. split; [by apply H2|by apply H3]. }
  intros Eu'. destruct (Hm0 Eu') as [Eu Hm]. destruct (Hh Eu) as [Hw Hl]. clear Hm0 Hh. destruct (live w) eqn:El.
  2:{ destruct Hm as [Es Ed]. rewrite <- Es in Hw. split; [split; [done|congruence]|]. split; congruence. }
  destruct (Hl eq_refl) as [Hown HP]. rewrite mine_owned in Hm by done.
  destruct Hm as (s & s' & Hs & Hcase & Hs' & Hend). cbn [JobRule.others] in Hs, Hs'.
  pose proof (held_once _ _ _ _ _ Hs Hw) as Hws. rewrite <- (held_committed _ _ _ Hs) in HP.
  pose proof (held_committed _ _ _ Hs') as Hc'.
  assert (Hone : once (stored w')).
  { eapply held_once; [exact Hs'|]. destruct Hcase as [->|Hcase]; [exact Hws|by apply (Hput s s')]. }
  split; [|split].
  - split; [exact Hone|]. intros E'. destruct (Hend E') as [-> _]. split; [exact Hown|]. rewrite Hc'.
    destruct Hcase as [->|Hcase]; [by left|]. right. by apply (Hput s s').
  - intros Hok E'. destruct (Hend E') as [_ Hdone]. rewrite Hc'. apply (Hput s s' Eu eq_refl Hs Hws HP), Hdone, Hok.
  - intros E' Hok. destruct (Hend E') as [_ Hdone]. exists s, s'. auto.
Qed.

(** A change of the record that is due. *)
Lemma apply_holds P change now w :
  (forall c, P (committed c) -> due ours change c) -> holds P w ->
  let '(r, w') := JobOwner.apply owner change now w in
  holds P w'
  /\ (unsure w' = false -> live w' = true -> is_ok r = true ->
      exists s s', once s /\ changes change now s s' /\ held ours s' (stored w')).
Proof.
  intros Hdue Hw. pose proof (law_apply _ _ _ _ _ _ _ _ Hrecord change now w) as Hlaw. fold jobs owner in Hlaw.
  destruct (JobOwner.apply owner change now w) as [r w'].
  assert (Hm : may_store (changes change now) w r w').
  { destruct (live w) eqn:El; [|exact Hlaw]. destruct (mine w) eqn:Em; [exact Hlaw|]. cbn [negb andb] in Hlaw. intros Eu'.
    destruct (Hlaw Eu') as [Eu _]. destruct (Hw Eu) as [_ Hl]. destruct (Hl El) as [Hown _].
    by rewrite (mine_owned _ Hown) in Em. }
  destruct (may_store_holds _ P P w r w' Hm Hw) as (C1 & _ & C3).
  - intros [c o] s' _ _ _ Hs HP (r0 & r1 & Eo & Hc & ->). cbn [fst snd] in *. subst o. split; [|exact HP].
    eapply changed_once; [by apply Hdue|exact Hc|exact Hs].
  - split; [eapply holds_weaken; [|exact C1]; by intros d [?|?]|]. intros Eu E' Hok. destruct (C3 Eu E' Hok) as (s & s' & ? & _ & ? & ?). eauto.
Qed.

(** ** Reading the chain *)

(** The commit [cm] has been made; or it may have been. *)
Definition made (cm : JobCommit.t) (c : list Entry.t) : Prop :=
  exists e, c = [e] /\ Entry.operation e = JobCommit.operation_id cm
    /\ Entry.revision e = JobCommit.revision_id cm /\ JobCommit.observed_generation cm < Entry.generation e.
Definition none_made (c : list Entry.t) : Prop := c = [].
Definition may_be_made (cm : JobCommit.t) (c : list Entry.t) : Prop := none_made c \/ made cm c.

Lemma query_holds cm w :
  ours (JobCommit.operation_id cm) = true -> holds (may_be_made cm) w ->
  let '(r, w') := CommitLedger.committed_generation ledger session (JobCommit.operation_id cm)
                    (JobCommit.observed_generation cm) w in
  quiet w w'
  /\ match r with
     | Ok (Some _) => holds (made cm) w'
     | Ok None => holds none_made w'
     | Err _ => holds (may_be_made cm) w'
     end.
Proof.
  intros Hours Hw. pose proof (law_committed _ _ _ _ _ _ _ _ Hrecord (JobCommit.operation_id cm) (JobCommit.observed_generation cm) w) as Hlaw.
  pose proof (law_ledger _ _ _ _ _ _ _ _ Hrecord session (JobCommit.operation_id cm) (JobCommit.observed_generation cm) w) as Hq.
  fold ledger in Hlaw, Hq. destruct (CommitLedger.committed_generation _ _ _ _ w) as [r w']. rename Hlaw into Hr. cbn [snd] in Hq.
  split; [exact Hq|]. pose proof (quiet_holds _ _ _ Hq Hw) as Hw'.
  destruct r as [[g|]|e]; [..|exact Hw']; intros Eu; (split; [by apply Hw'|]; intros E'; destruct (proj2 (Hw' Eu) E') as [Hown Hc];
    split; [exact Hown|]); specialize (Hr Eu E').
  - destruct Hc as [Hc|Hc]; [|exact Hc]. destruct Hr as (e & He & Hop & _). unfold none_made, JobRule.committed in Hc.
    assert (Hin : e ∈ filter (fun e => ours (Entry.operation e) = true) (stored w').1).
    { apply list_elem_of_filter. by rewrite Hop. }
    rewrite Hc in Hin. by apply elem_of_nil in Hin.
  - destruct Hc as [Hc|(e & Hc & Hop & _ & Hg)]; [exact Hc|]. destruct Hr.
    rewrite (held_committed _ _ _ (quiet_held _ _ Hq Eu E' Hown)) in Hc. exists e. split; [|by split].
    assert (Hin : e ∈ committed (stored w).1) by (rewrite Hc; by left). by apply list_elem_of_filter in Hin as [_ Hin].
Qed.

(** ** Reconciling *)

Definition owning (j : OpaqueId JobId) (w : W) : Prop := unsure w = false -> once (stored w) /\ (live w = true -> owns w = Some j).

Lemma quiet_owning j w w' : quiet w w' -> owning j w -> owning j w'.
Proof.
  intros Hq Hh Eu. destruct (Hh (quiet_sure _ _ Hq Eu)) as [Hw Hl]. split; [by eapply quiet_once|]. intros E'.
  destruct (quiet_live _ _ Hq Eu E') as [E Eo]. rewrite Eo. auto.
Qed.

Lemma holds_owning P w : holds P w -> owning job w.
Proof. intros Hh Eu. destruct (Hh Eu) as [Hw Hl]. split; [exact Hw|]. intros E. apply (Hl E). Qed.

Lemma record_stored w :
  owning job w -> unsure w = false -> live w = true ->
  exists r, (stored w).2 = Some r /\ same_or_asked (JobOwner.record owner w) r /\ JobRecord.job_id (JobOwner.record owner w) = job.
Proof.
  intros Hw Eu E. destruct (Hw Eu) as [_ Hl]. destruct (law_record _ _ _ _ _ _ _ _ Hrecord w job Eu E (Hl E)) as [Hj Hr].
  destruct (Hr eq_refl) as (r & Er & Hs). by exists r.
Qed.

(** What the owner knows of what is stored. *)
Lemma owning_holds (P : list Entry.t -> Prop) w :
  (forall r, unsure w = false -> live w = true -> (stored w).2 = Some r -> same_or_asked (JobOwner.record owner w) r ->
     JobRecord.job_id (JobOwner.record owner w) = job -> P (committed (stored w).1)) ->
  owning job w -> holds P w.
Proof.
  intros HP Hw Eu. split; [by apply Hw|]. intros E. split; [by apply Hw|].
  destruct (record_stored w Hw Eu E) as (r & Er & Hs & Hj). eauto.
Qed.

Lemma apply_other j change now w : j <> job -> owning j w -> owning j (JobOwner.apply owner change now w).2.
Proof.
  intros Hj Hw. pose proof (law_apply _ _ _ _ _ _ _ _ Hrecord change now w) as Hlaw. fold jobs owner in Hlaw.
  destruct (JobOwner.apply owner change now w) as [r w']. cbn [snd]. apply (quiet_owning j w w'); [|exact Hw].
  unfold JobRule.may_store in Hlaw. destruct (live w) eqn:E.
  - destruct (mine w) eqn:Em; [|exact Hlaw]. intros Eu'. destruct (Hlaw Eu') as [Eu _]. apply bool_decide_eq_true in Em.
    destruct (Hw Eu) as [_ Hl]. rewrite (Hl E) in Em. by injection Em.
  - unfold JobRule.quiet. by rewrite E.
Qed.

(** The states of the record in which nothing has been committed. *)
Lemma unlanded r c :
  once (c, Some r) -> JobRecord.state r <> Committing -> JobRecord.state r <> Succeeded -> none_made (committed c).
Proof. intros (_ & _ & [(E & _)|(e & _ & _ & Hs)]) H1 H2; [exact E|]. by destruct Hs. Qed.

Lemma end_interrupted_owning now w : holds none_made w -> owning job (end_interrupted owner now w).2.
Proof.
  intros Hw. unfold end_interrupted. cbv zeta.
  match goal with |- context [JobOwner.apply owner ?change now w] =>
    pose proof (apply_holds none_made change now w ltac:(intros c Hc; by destruct (exhausted _)) Hw) as Ha;
    destruct (JobOwner.apply owner change now w) as [r w'] end.
  by eapply holds_owning, Ha.
Qed.

Lemma same_or_asked_committing r r' :
  same_or_asked r r' -> JobRecord.state r = Committing \/ JobRecord.state r = Succeeded ->
  JobRecord.state r' = JobRecord.state r /\ JobRecord.commit r' = JobRecord.commit r.
Proof.
  intros [(_ & _ & _ & _ & E) [Hs|[Hs _]]] Hr; [by split|].
  by destruct Hr as [Hr|Hr]; rewrite Hr in Hs.
Qed.

(** What the record says of the chain: nothing is committed unless it says
    that the job is committing or has succeeded. *)
Lemma record_holds w :
  owning job w ->
  let record := JobOwner.record owner w in
  match JobRecord.state record with
  | Committing =>
      match JobRecord.commit record with
      | Some cm => holds (may_be_made cm) w /\ (unsure w = false -> live w = true -> ours (JobCommit.operation_id cm) = true)
      | None => holds none_made w
      end
  | Succeeded => match JobRecord.commit record with Some cm => holds (made cm) w | None => holds (fun _ => False) w end
  | _ => holds none_made w
  end.
Proof.
  intros Hw record. subst record.
  assert (Hcase : forall r, unsure w = false -> live w = true -> (stored w).2 = Some r ->
    JobRecord.session_id r = session /\ JobRecord.job_id r = job
    /\ ((committed (stored w).1 = [] /\ JobRecord.state r <> Succeeded
         /\ forall commit, JobRecord.commit r = Some commit -> ours (JobCommit.operation_id commit) = true)
        \/ exists e, committed (stored w).1 = [e] /\ tells_of r e /\ (JobRecord.state r = Committing \/ JobRecord.state r = Succeeded))).
  { intros r Eu _ Er. pose proof (proj1 (Hw Eu)) as H1. unfold commits_once in H1. by rewrite Er in H1. }
  destruct (JobRecord.state (JobOwner.record owner w)) eqn:Es.
  1,2,4,5,7,8: apply owning_holds; [|exact Hw]; intros r Eu E Er [_ Hs] _;
    destruct (Hcase r Eu E Er) as (_ & _ & [[E1 _]|(e & _ & _ & Hst)]); [exact E1|];
    rewrite Es in Hs; destruct Hs as [Hs|[_ Hs]]; rewrite Hs in Hst; by destruct Hst.
  all: destruct (JobRecord.commit (JobOwner.record owner w)) as [cm|] eqn:Ecm.
  all: try lazymatch goal with |- _ /\ _ => split end; try (apply owning_holds; [|exact Hw]).
  all: try (intros r Eu E Er Hs _; destruct (same_or_asked_committing _ _ Hs ltac:(auto)) as [Est Ec]; rewrite Es in Est; rewrite Ecm in Ec;
    destruct (Hcase r Eu E Er) as (_ & _ & [(E1 & E2 & E3)|(e & E1 & (cm' & E2 & E3) & E4)])).
  - by left.
  - right. exists e. rewrite Ec in E2. injection E2 as <-. split; [exact E1|]. exact E3.
  - intros Eu E. destruct (record_stored w Hw Eu E) as (r & Er & Hs & _).
    destruct (same_or_asked_committing _ _ Hs ltac:(auto)) as [Est Ec]. rewrite Ecm in Ec.
    destruct (Hcase r Eu E Er) as (_ & _ & [(E1 & E2 & E3)|(e & E1 & (cm' & E2 & E3) & E4)]).
    + by apply E3.
    + rewrite Ec in E2. injection E2 as <-. destruct E3 as [<- _].
      assert (Hin : e ∈ committed (stored w).1) by (rewrite E1; by left). by apply list_elem_of_filter in Hin as [Hin _].
  - exact E1.
  - rewrite Ec in E2. done.
  - by destruct E2.
  - exists e. rewrite Ec in E2. injection E2 as <-. by split.
  - by destruct E2.
  - by rewrite Ec in E2.
Qed.

Lemma apply_owning change now w :
  (forall c, none_made (committed c) -> due ours change c) -> holds none_made w ->
  owning job (JobOwner.apply owner change now w).2.
Proof.
  intros Hdue Hw. pose proof (apply_holds none_made change now w Hdue Hw) as Ha.
  destruct (JobOwner.apply owner change now w) as [r w']. by eapply holds_owning, Ha.
Qed.

Lemma apply_succeed cm now w : holds (made cm) w -> holds (made cm) (JobOwner.apply owner JobChange.Succeed now w).2.
Proof.
  intros Hw. pose proof (apply_holds (made cm) JobChange.Succeed now w) as Ha.
  destruct (JobOwner.apply owner JobChange.Succeed now w) as [r w']. apply Ha; [|exact Hw].
  intros c (e & Hc & _). cbn. by rewrite Hc.
Qed.

(** A process that has ended changes nothing, whatever it would do. *)
Definition ended (w w' : W) : Prop := known unsure w w' (live w = false -> frozen live stored w w').

#[local] Instance ended_pre : PreOrder ended.
Proof.
  unfold ended, known, frozen. split; [by intros w Eu|]. intros a b c Hab Hbc Eu.
  destruct (Hbc Eu) as [Eb Hbc']. destruct (Hab Eb) as [Ea Hab']. split; [exact Ea|]. intros E.
  destruct (Hab' E) as [E1 E2]. destruct (Hbc' E2). split; congruence.
Qed.

Lemma quiet_ended {A} (m : W -> A * W) : keeps quiet m -> keeps ended m.
Proof. intros Hm w Eu. destruct (Hm w Eu) as [Eu' Hq]. split; [exact Eu'|]. intros E. by rewrite E in Hq. Qed.

Lemma apply_ended change now : keeps ended (JobOwner.apply owner change now).
Proof.
  intros w Eu. pose proof (law_apply _ _ _ _ _ _ _ _ Hrecord change now w) as Hlaw. fold jobs owner in Hlaw.
  destruct (JobOwner.apply owner change now w) as [r w']. cbn [snd] in *. unfold JobRule.may_store, JobRule.quiet in Hlaw.
  assert (Hknown : known unsure w w' (live w = false -> frozen live stored w w')).
  { destruct (live w) eqn:E; [|cbn [andb] in Hlaw; intros Eu'; destruct (Hlaw Eu'); auto].
    destruct (negb (mine w)); cbn [andb] in Hlaw; intros Eu'; by destruct (Hlaw Eu'). }
  by apply Hknown.
Qed.

Lemma reconcile_ended now : keeps ended (reconcile owner ledger now).
Proof.
  pose proof (fun change => apply_ended change now) as Ha.
  assert (Hint : keeps ended (end_interrupted owner now)) by (intros w; apply Ha).
  assert (Hl : forall record, keeps ended (landed ledger record)).
  { intros record. unfold landed. pose proof (fun s o a => quiet_ended _ (law_ledger _ _ _ _ _ _ _ _ Hrecord s o a)) as Hq.
    fold ledger in Hq. keep_eff. }
  intros w. unfold reconcile. cbv zeta. destruct (JobRecord.state _); try reflexivity.
  all: match goal with |- ended ?w (?m ?w).2 => enough (keeps ended m) as Hk by apply Hk end; keep_eff.
Qed.

Lemma ended_owning j w w' : ended w w' -> live w = false -> owning j w -> owning j w'.
Proof.
  intros He E Hw Eu'. destruct (He Eu') as [Eu Hf]. destruct (Hf E) as [Es E']. destruct (Hw Eu) as [Hw' _].
  split; [by rewrite Es|congruence].
Qed.

(** Reconciling another job, of the session or not. *)
Lemma reconcile_other j now w : j <> job -> owning j w -> owning j (reconcile owner ledger now w).2.
Proof.
  intros Hj. set (R := fun w w' => owning j w -> owning j w').
  assert (HR : PreOrder R) by (split; unfold R; [by intros x|]; intros x y z Hxy Hyz Hx; auto).
  assert (Ha : forall change, keeps R (JobOwner.apply owner change now)) by (intros change x Hx; by apply apply_other).
  assert (Hint : keeps R (end_interrupted owner now)) by (intros x; apply Ha).
  assert (Hl : forall record, keeps R (landed ledger record)).
  { intros record. unfold landed.
    assert (Hq : forall s o a, keeps R (CommitLedger.committed_generation ledger s o a)).
    { intros s o a x Hx. apply (quiet_owning j x); [apply (law_ledger _ _ _ _ _ _ _ _ Hrecord)|exact Hx]. }
    keep_eff. }
  change (R w (reconcile owner ledger now w).2). unfold reconcile. cbv zeta. destruct (JobRecord.state _); try reflexivity.
  all: match goal with |- ?q ?w (?m ?w).2 => enough (keeps q m) as Hk by apply Hk end; keep_eff.
Qed.

(** Reconciling the job: a commit that landed makes it succeed, and only that. *)
Lemma reconcile_job now w : owning job w -> owning job (reconcile owner ledger now w).2.
Proof.
  intros Hw. destruct (live w) eqn:El; [|by apply (ended_owning _ w); [apply reconcile_ended|..]].
  destruct (unsure w) eqn:Eu.
  { intros Eu'. destruct (reconcile_ended now w Eu') as [E _]. congruence. }
  pose proof (record_holds w Hw) as Hr. destruct (record_stored w Hw Eu El) as (r & Er & Hs & _). cbv zeta in Hr. unfold reconcile. cbv zeta.
  destruct (JobRecord.state (JobOwner.record owner w)) eqn:Es; try exact Hw.
  - pose proof (end_interrupted_owning now w Hr) as Hi. unfold eff_bind. by destruct (end_interrupted owner now w) as [[u|e] w2].
  - unfold landed, eff_map_err.
    destruct (JobRecord.commit (JobOwner.record owner w)) as [cm|] eqn:Ecm; cbn.
    + destruct Hr as [Hmay Hours]. pose proof (query_holds cm w (Hours Eu El) Hmay) as Hq.
      assert (Esess : JobRecord.session_id (JobOwner.record owner w) = session).
      { destruct Hs as [(<- & _) _]. pose proof (proj1 (Hw Eu)) as Honce. unfold commits_once in Honce. rewrite Er in Honce. apply Honce. }
      unfold eff_bind. rewrite Esess.
      destruct (CommitLedger.committed_generation ledger session _ _ w) as [[[g|]|e] w1]; destruct Hq as [_ Hq]; cbn.
      * pose proof (apply_succeed cm now w1 Hq) as Ha.
        destruct (JobOwner.apply owner JobChange.Succeed now w1) as [[u|e] w2]; by eapply holds_owning.
      * pose proof (end_interrupted_owning now w1 Hq) as Hi. by destruct (end_interrupted owner now w1) as [[u|e] w2].
      * by eapply holds_owning.
    + pose proof (end_interrupted_owning now w Hr) as Hi. unfold eff_bind. cbn. by destruct (end_interrupted owner now w) as [[u|e] w2].
  - pose proof (apply_owning JobChange.Cancel now w ltac:(done) Hr) as Ha. unfold eff_bind.
    by destruct (JobOwner.apply owner JobChange.Cancel now w) as [[u|e] w2].
Qed.

Lemma reconcile_owning j now w : owning j w -> owning j (reconcile owner ledger now w).2.
Proof. destruct (decide (j = job)) as [->|]; [apply reconcile_job|by apply reconcile_other]. Qed.

(** ** Committing *)

Context (Hunsure : unsure_when_unread session ours live unsure ports).

(** A committed revision is that of the one commit. *)
Definition shows (id : OpaqueId TranscriptRevisionId) (c : list Entry.t) : Prop := exists e, c = [e] /\ Entry.revision e = id.

Lemma made_shows cm w : holds (made cm) w -> holds (shows (JobCommit.revision_id cm)) w.
Proof. apply holds_weaken. intros c (e & Hc & _ & Hr & _). by exists e. Qed.

Lemma call_holds {A} P (m : W -> A * W) w : keeps quiet m -> holds P w -> holds P (m w).2.
Proof. intros Hm. apply quiet_holds, Hm. Qed.

(** The record says [committing], then the revision is published. *)
Lemma publish_holds cm revision now w :
  ours (JobCommit.operation_id cm) = true -> JobCommit.revision_id cm = TranscriptRevision.id revision ->
  holds none_made w ->
  (unsure w = false -> live w = true -> exists s s', once s /\ changes (JobChange.Commit cm) now s s' /\ held ours s' (stored w)) ->
  let '(r, w') := RevisionStore.publish_revision revisions session (JobCommit.operation_id cm)
                    (JobCommit.observed_generation cm) revision now w in
  holds (may_be_made cm) w' /\ (is_ok r = true -> holds (made cm) w').
Proof.
  intros Hours Hrev Hw Hrec.
  pose proof (law_publish _ _ _ _ _ _ _ _ Hrecord (JobCommit.operation_id cm) (JobCommit.observed_generation cm) revision now w) as Hlaw.
  fold revisions in Hlaw. destruct (RevisionStore.publish_revision _ _ _ _ _ _ w) as [r w'].
  destruct (may_store_holds _ none_made (made cm) w r w' Hlaw Hw) as (C1 & C2 & _); [|by split].
  intros [c o] s' Eu El Hheld Honce Hnone (g & Hg & ->). cbn [fst snd] in *.
  destruct (Hrec Eu El) as ([c0 o0] & s0 & _ & (r0 & r1 & E0 & Hch & ->) & Hs0).
  apply changed_set in Hch as (state & epoch & attempt & failures & commit & -> & _ & [= -> -> -> -> ->]).
  pose proof (held_pre ours) as [_ Htrans]. pose proof (Htrans _ _ _ Hs0 Hheld) as [_ Hsame]. cbn [fst snd] in Hsame.
  destruct o as [r'|]; [|done].
  assert (Hstate : JobRecord.state r' = Committing /\ JobRecord.commit r' = Some cm).
  { apply (same_or_asked_committing _ _ Hsame). by left. }
  destruct Hstate as [Est Ec]. unfold commits_once in Honce. cbn [fst snd] in Honce. destruct Honce as (S1 & S2 & _).
  assert (Ecom : committed (c ++ [Entry.mk g (JobCommit.operation_id cm) (TranscriptRevision.id revision)])
                 = [Entry.mk g (JobCommit.operation_id cm) (TranscriptRevision.id revision)]).
  { rewrite committed_app. unfold none_made in Hnone. rewrite Hnone. unfold JobRule.committed.
    rewrite filter_cons_True by exact Hours. by rewrite filter_nil. }
  rewrite Ecom. split; [|eexists; split; [reflexivity|]; by rewrite Hrev].
  split; [exact S1|]. split; [exact S2|]. right. eexists. split; [exact Ecom|]. split; [|by left].
  exists cm. by rewrite Hrev.
Qed.

(** What an attempt ends with: the one commit, of its revision, or none. *)
Definition ends {A E} (id_of : A -> OpaqueId TranscriptRevisionId) (r : result A E) (w : W) : Prop :=
  match r with Ok a => holds (shows (id_of a)) w | Err _ => holds none_made w end.

(** The chain after a publication that did not answer [Ok]. *)
Lemma query_after_failure cm revision now w :
  ours (JobCommit.operation_id cm) = true ->
  let '(published, w1) := RevisionStore.publish_revision revisions session (JobCommit.operation_id cm)
                            (JobCommit.observed_generation cm) revision now w in
  is_ok published = false -> holds (may_be_made cm) w1 ->
  let '(r, w') := CommitLedger.committed_generation ledger session (JobCommit.operation_id cm)
                    (JobCommit.observed_generation cm) w1 in
  match r with Ok (Some _) => holds (made cm) w' | _ => holds none_made w' end.
Proof.
  intros Hours. pose proof (Hunsure (JobCommit.operation_id cm) (JobCommit.observed_generation cm) revision now w Hours) as Hu.
  fold revisions ledger in Hu.
  destruct (RevisionStore.publish_revision _ _ _ _ _ _ w) as [published w1]. intros Hnot Hw.
  pose proof (query_holds cm w1 Hours Hw) as Hq.
  destruct (CommitLedger.committed_generation _ _ _ _ w1) as [[[g|]|e] w']; destruct Hq as [_ Hq]; try exact Hq.
  intros Eu. split; [by apply Hq|]. intros E'. rewrite (Hu Hnot eq_refl E') in Eu. done.
Qed.

Context (run : RetranscriptionRun.t) (Hsession : RetranscriptionRun.session_id run = session)
  (Hjob : RetranscriptionRun.job_id run = job).
Let timer := RetranscriptionPorts.timer ports.

(** The calls that leave the chain and the record to the others. *)
Lemma bind_quiet operation now : keeps quiet (JobOwner.bind_operation owner operation now).
Proof. apply (law_bind _ _ _ _ _ _ _ _ Hrecord). Qed.
Lemma cancel_requested_quiet : keeps quiet (JobOwner.cancel_requested owner).
Proof. apply (law_cancel_requested _ _ _ _ _ _ _ _ Hrecord). Qed.
Lemma reads_quiet : reads_keep quiet revisions.
Proof. apply (law_reads _ _ _ _ _ _ _ _ Hrecord). Qed.
Lemma jitter_quiet : keeps quiet (RetryTimer.jitter timer).
Proof. apply (law_jitter _ _ _ _ _ _ _ _ Hother). Qed.
Lemma sleep_quiet d : keeps_do quiet (RetryTimer.sleep timer d).
Proof. apply (law_sleep _ _ _ _ _ _ _ _ Hother). Qed.

(** A change of an attempt that has committed nothing. *)
Lemma apply_none change now w :
  (forall c, none_made (committed c) -> due ours change c) -> holds none_made w ->
  holds none_made (JobOwner.apply owner change now w).2.
Proof.
  intros Hdue Hw. pose proof (apply_holds none_made change now w Hdue Hw) as Ha.
  destruct (JobOwner.apply owner change now w) as [r w']. apply Ha.
Qed.

Lemma commit_again_holds transcription retries revision base_id w :
  holds none_made w ->
  let '(round, w') := commit_again run revisions timer transcription retries revision base_id w in
  holds none_made w' /\ match round with Done r _ => is_ok r = false | Again _ _ _ _ => True end.
Proof.
  intros Hw. unfold commit_again. pose proof (call_holds _ _ _ jitter_quiet Hw) as H1.
  destruct (RetryTimer.jitter timer w) as [jitter w1]. cbn [snd] in H1.
  destruct (RetryPolicy.decide _ _ _ _ _) as [delay| |]; [|done..].
  pose proof (quiet_holds _ _ _ (sleep_quiet delay w1) H1) as H2.
  pose proof (call_holds _ _ _ (keep_head _ _ reads_quiet (RetranscriptionRun.session_id run) (RetranscriptionRun.now run)) H2) as H3.
  destruct (RevisionStore.head _ _ _ _) as [[head|e] w3]; (split; [exact H3|]); [|done].
  by destruct (follow _ _ _ _ _) as [[]|].
Qed.

Lemma commit_round_ends transcription operation retries expected revision base_id w :
  ours operation = true -> holds none_made w ->
  let '(round, w') := commit_round run owner revisions ledger timer transcription operation retries expected revision base_id w in
  match round with
  | Done r _ => ends TranscriptRevision.id r w'
  | Again _ _ _ _ => holds none_made w'
  end.
Proof.
  intros Hours Hw. unfold commit_round. rewrite Hsession. cbv zeta.
  set (cm := JobCommit.mk operation expected (TranscriptRevision.id revision)).
  pose proof (apply_holds none_made (JobChange.Commit cm) (RetranscriptionRun.now run) w ltac:(by split) Hw) as Ha.
  destruct (JobOwner.apply owner (JobChange.Commit cm) _ w) as [[u|e] w1]; destruct Ha as [H1 Hrec].
  2:{ pose proof (call_holds _ _ _ cancel_requested_quiet H1) as H2.
      destruct (JobOwner.cancel_requested owner w1) as [[] w2]; [|exact H2].
      pose proof (apply_none JobChange.Cancel (RetranscriptionRun.now run) w2 ltac:(done) H2) as H3.
      by destruct (JobOwner.apply owner JobChange.Cancel _ w2) as [[] w3]. }
  pose proof (publish_holds cm revision (RetranscriptionRun.now run) w1 Hours eq_refl H1 (fun Eu E => Hrec Eu E eq_refl)) as Hp.
  cbn [JobCommit.operation_id JobCommit.observed_generation cm] in Hp.
  pose proof (query_after_failure cm revision (RetranscriptionRun.now run) w1 Hours) as Hq.
  cbn [JobCommit.operation_id JobCommit.observed_generation cm] in Hq.
  destruct (RevisionStore.publish_revision _ _ _ _ _ _ w1) as [[g|e] w2]; destruct Hp as [H2 Hok].
  { by apply (made_shows cm), apply_succeed, Hok. }
  specialize (Hq eq_refl H2). cbn [JobCommit.operation_id JobCommit.observed_generation cm] in Hq.
  destruct (CommitLedger.committed_generation _ _ _ _ w2) as [[[g|]|e'] w3].
  { by apply (made_shows cm), apply_succeed. }
  all: destruct (negb _); [exact Hq|];
    pose proof (commit_again_holds transcription retries revision base_id w3 Hq) as Hc;
    destruct (commit_again _ _ _ _ _ _ _ w3) as [[[]|] w4]; by destruct Hc.
Qed.

Lemma commit_loop_ends transcription operation budget retries expected revision base_id w :
  ours operation = true -> holds none_made w ->
  let '(r, _, w') := commit_loop run owner revisions ledger timer transcription operation budget retries expected revision base_id w in
  ends TranscriptRevision.id r w'.
Proof.
  intros Hours. revert retries expected revision base_id w.
  induction budget as [|budget IH]; intros retries expected revision base_id w Hw; cbn [commit_loop];
    pose proof (commit_round_ends transcription operation retries expected revision base_id w Hours Hw) as Hr;
    destruct (commit_round _ _ _ _ _ _ _ _ _ _ _ w) as [[r n|n g r' b] w']; try exact Hr.
  by apply IH.
Qed.

(** ** One attempt *)

Context (Hnames : operations_told_apart job ours).

Definition quiet_beside (w w' : State.t * W) : Prop := quiet w.2 w'.2.

#[local] Instance quiet_beside_pre : PreOrder quiet_beside.
Proof. split; [intros w; unfold quiet_beside; reflexivity|]. intros a b c. unfold quiet_beside. apply transitivity. Qed.

Lemma beside_quiet {A} (m : W -> A * W) : keeps quiet m -> keeps quiet_beside (beside m).
Proof. intros Hm [st w]. unfold beside, quiet_beside. specialize (Hm w). cbn [snd] in *. by destruct (m w). Qed.

Lemma beside_do_quiet (m : W -> W) : keeps_do quiet m -> keeps_do quiet_beside (beside_do m).
Proof. intros Hm [st w]. apply Hm. Qed.

Lemma job_aware_quiet : keeps quiet (job_aware_cancelled ports).
Proof.
  intros w. unfold job_aware_cancelled.
  related (keep_cancelled _ _ (law_speech _ _ _ _ _ _ _ _ Hother) w) as [[] w1]; [reflexivity|]. apply cancel_requested_quiet.
Qed.

Lemma attempt_ports_keep : ports_keep quiet_beside (attempt_ports ports).
Proof.
  destruct (law_speech _ _ _ _ _ _ _ _ Hother) as [S1 S2 S3 S4].
  constructor; cbn; intros; apply beside_quiet; try done. apply job_aware_quiet.
Qed.

Lemma part_quiet operation expected open part first epoch attempt :
  part_operation_id (RetranscriptionRun.job_id run) epoch attempt part = Ok operation ->
  keeps quiet (RevisionStore.publish_part revisions (RetranscriptionRun.session_id run) operation expected open
                 (RetranscriptionRun.job_id run) part first (RetranscriptionRun.now run)).
Proof.
  rewrite Hjob, Hsession. intros E. apply (law_part _ _ _ _ _ _ _ _ Hrecord). by eapply (names_part _ _ Hnames).
Qed.

Lemma attempt_scope_keeps epoch attempt : scope_keeps quiet_beside (attempt_scope run ports epoch attempt).
Proof.
  constructor; cbn.
  - intros index. apply beside_quiet, (law_load _ _ _ _ _ _ _ _ Hother).
  - intros c. apply beside_quiet, (law_store _ _ _ _ _ _ _ _ Hother).
  - intros index. apply beside_do_quiet, (law_discard _ _ _ _ _ _ _ _ Hother).
  - intros update. apply beside_do_quiet, (law_report _ _ _ _ _ _ _ _ Hother).
  - intros so_far [st w]. unfold quiet_beside. cbn [fst snd].
    apply chunk_finished_keeps; [exact _|apply reads_quiet|apply (law_elapsed _ _ _ _ _ _ _ _ Hother)|].
    intros operation part expected open first. apply part_quiet.
  - apply beside_quiet, (law_elapsed _ _ _ _ _ _ _ _ Hother).
  - intros seed E. destruct (RetranscriptionPorts.seed ports) as [s|] eqn:Es; [|done]. injection E as <-.
    destruct (law_seed _ _ _ _ _ _ _ _ Hother s Es) as [K1 K2]. constructor; cbn; intros.
    + by apply beside_do_quiet.
    + by apply beside_quiet.
  - intros gate E. destruct (RetranscriptionRun.admission run); [done..|].
    destruct (RetranscriptionPorts.gate ports) as [g|] eqn:Eg; [|done]. injection E as <-.
    by apply beside_quiet, (law_gate _ _ _ _ _ _ _ _ Hother).
Qed.

Lemma recognise_quiet w : quiet w (recognise run ports w).2.2.
Proof.
  unfold recognise. cbv zeta.
  set (begun := new run revisions (RetranscriptionPorts.publication ports) w).
  assert (H1 : quiet w begun.2) by (apply publisher_new_keeps; [exact _|apply reads_quiet]).
  etransitivity; [exact H1|].
  match goal with |- context [attempt_scope _ _ ?e ?a] =>
    pose proof (recognition_keeps quiet_beside (attempt_ports ports) (attempt_scope run ports e a)
      (RetranscriptionRun.transcribe run) attempt_ports_keep (attempt_scope_keeps e a) begun) as H2 end.
  exact H2.
Qed.

Lemma revision_to_commit_spec publisher transcription w :
  let '(r, w') := revision_to_commit run ports publisher transcription w in
  quiet w w' /\ forall revision operation, r = Ok (revision, operation) -> ours operation = true.
Proof.
  unfold revision_to_commit, eff_bind, eff_of, eff_result, eff_fail, eff_map_err.
  pose proof (keep_cancelled _ _ (law_speech _ _ _ _ _ _ _ _ Hother) w) as H1.
  destruct (Ports.is_cancelled _ w) as [[] w1]; cbn [snd] in H1; [by split|].
  destruct (map_err _ _) as [revision|e]; [|by split]. destruct (published_differs publisher revision); [by split|].
  pose proof (law_verify _ _ _ _ _ _ _ _ Hother w1) as H2.
  destruct (RetranscriptionPorts.verify ports w1) as [[u|e] w2]; cbn [snd map_err] in *; cbn;
    (split; [by etransitivity|]); [|done].
  intros revision' operation E. rewrite Hjob in E.
  destruct (commit_operation_id job _ _) as [op|] eqn:Eop; [|done]. cbn in E. injection E as <- <-.
  by eapply (names_commit _ _ Hnames).
Qed.

Lemma attempt_once_ends retries waits w :
  holds none_made w ->
  let '(r, _, _, w') := attempt_once run ports retries waits w in
  ends (fun done_ => TranscriptRevision.id done_.1.1) r w'.
Proof.
  intros Hw. unfold attempt_once.
  pose proof (call_holds _ _ _ (law_admit _ _ _ _ _ _ _ _ Hother waits) Hw) as H1.
  destruct (RetranscriptionPorts.admission ports waits w) as [[[u|e] waits'] w1]; cbn [snd] in H1; [|exact H1].
  pose proof (quiet_holds _ _ _ (recognise_quiet w1) H1) as H2.
  destruct (recognise run ports w1) as [recognised [publisher w2]]. cbn [snd] in H2.
  pose proof (quiet_holds _ _ _ (law_give_back _ _ _ _ _ _ _ _ Hother w2) H2) as H3.
  destruct recognised as [[transcription usage]|failure].
  2:{ unfold cancelled_if_requested.
      pose proof (call_holds _ _ _ (keep_cancelled _ _ (law_speech _ _ _ _ _ _ _ _ Hother)) H3) as H4.
      destruct (Ports.is_cancelled _ _) as [c w3]. exact H4. }
  pose proof (revision_to_commit_spec publisher transcription (RetranscriptionPorts.give_back ports w2)) as Hspec.
  destruct (revision_to_commit _ _ _ _ _) as [[[revision operation]|e] w3]; destruct Hspec as [Hq Hours];
    pose proof (quiet_holds _ _ _ Hq H3) as H4; [|exact H4].
  pose proof (commit_loop_ends transcription operation (retries_left retries) retries (RetranscriptionRun.observed run) revision
                (TranscriptRevision.id <$> RetranscriptionRun.base run) w3 (Hours _ _ eq_refl) H4) as Hc.
  unfold commit. fold timer jobs owner ledger revisions.
  destruct (commit_loop _ _ _ _ _ _ _ _ _ _ _ _ _) as [[[r|e] n] w4]; exact Hc.
Qed.

(** ** Settling a failed attempt *)

Lemma seal_holds P w : holds P w -> holds P (seal_what_was_published run ports w).
Proof.
  unfold seal_what_was_published. cbv zeta. apply quiet_holds.
  apply (seal_stopped_keeps quiet); [apply reads_quiet|apply sleep_quiet|].
  intros operation expected revision E. rewrite Hjob in E. rewrite Hsession. intros w'.
  pose proof (law_publish _ _ _ _ _ _ _ _ Hrecord operation expected revision (RetranscriptionRun.now run) w') as Hlaw.
  destruct (RevisionStore.publish_revision _ _ _ _ _ _ w') as [r w2]. unfold JobRule.may_store in Hlaw. unfold JobRule.quiet. cbn [snd].
  intros Eu2. destruct (Hlaw Eu2) as [Eu1 Hlaw']. clear Hlaw. rename Hlaw' into Hlaw. split; [exact Eu1|].
  destruct (live w'); [|exact Hlaw]. destruct Hlaw as (s & s' & Hs & Hput & Hs' & Hend).
  split; [|by intros E2; apply Hend]. etransitivity; [exact Hs|]. etransitivity; [|exact Hs'].
  destruct Hput as [->|(g & Hg & ->)]; [reflexivity|].
  assert (Hheld : held ours s (s.1 ++ [Entry.mk g operation (TranscriptRevision.id revision)], s.2)).
  { split.
    - eexists. split; [reflexivity|]. unfold JobRule.committed. rewrite filter_cons_False, filter_nil; [done|]. cbn.
      by rewrite (names_stop _ _ Hnames _ _ _ E).
    - cbn. destruct (s.2); [reflexivity|done]. }
  destruct (mine w'); [exact Hheld|by apply held_free].
Qed.

Lemma settle_holds stop retries w : holds none_made w -> holds none_made (settle_failure run ports stop retries w).2.
Proof.
  intros Hw. unfold settle_failure. destruct stop as [|error chunk]; [by apply seal_holds|].
  pose proof (call_holds _ _ _ cancel_requested_quiet Hw) as H1. fold jobs owner.
  destruct (JobOwner.cancel_requested owner w) as [[] w1]; cbn [snd] in H1.
  - pose proof (apply_none JobChange.Cancel (RetranscriptionRun.now run) w1 ltac:(done) H1) as H2.
    destruct (JobOwner.apply owner JobChange.Cancel _ w1) as [[u|e] w2]; [by apply seal_holds|exact H2].
  - unfold settle_failed. cbv zeta. fold jobs owner timer.
    pose proof (call_holds _ _ _ jitter_quiet H1) as H2. destruct (RetryTimer.jitter timer w1) as [jitter w2]. cbn [snd] in H2.
    set (ends := ends_job _ _ _).
    match goal with |- context [JobOwner.apply owner ?change ?now w2] =>
      pose proof (apply_none change now w2 ltac:(intros c Hc; by destruct ends) H2) as H3;
      destruct (JobOwner.apply owner change now w2) as [[u|e] w3]; [|exact H3] end.
    cbn [snd] in *. destruct ends; [by apply seal_holds|exact H3].
Qed.

(** ** The whole call *)

(** A record that starts an attempt has committed nothing. *)
Lemma start_holds now w :
  owning job w ->
  let '(r, w') := JobOwner.apply owner JobChange.Start now w in
  owning job w' /\ (is_ok r = true -> holds none_made w').
Proof.
  intros Hw. pose proof (apply_holds (fun _ => True) JobChange.Start now w ltac:(done)) as Ha.
  destruct (JobOwner.apply owner JobChange.Start now w) as [r w']. destruct Ha as [H1 H2].
  { intros Eu. split; [by apply Hw|]. intros E. split; [by apply Hw|done]. }
  split; [by eapply holds_owning|]. intros Hok Eu. split; [by apply H1|]. intros E'. split; [by apply H1|].
  destruct (H2 Eu E' Hok) as ([c o] & s' & Honce & (r0 & r1 & E0 & Hch & ->) & Hheld). cbn [fst snd] in *. subst o.
  rewrite (held_committed _ _ _ Hheld). cbn [fst].
  apply changed_set in Hch as (state & epoch & attempt & failures & commit & _ & Hs & _).
  eapply unlanded; [exact Honce|..]; intros E; by rewrite E in Hs.
Qed.

(** An answer tells the revision of the one commit, if it is of this job. *)
Definition answered (r : result RetranscriptionOutcome.t JobRunError.t) (w : W) : Prop :=
  forall outcome, r = Ok outcome -> JobReport.job_id (RetranscriptionOutcome.report outcome) = job ->
  unsure w = false -> live w = true -> shows (TranscriptRevision.id (RetranscriptionOutcome.revision outcome)) (committed (stored w).1).

Lemma run_attempts_answered budget resumed retries first_use discarded waits w :
  owning job w ->
  let '(r, w') := run_attempts run ports budget resumed retries first_use discarded waits w in
  owning job w' /\ answered r w'.
Proof.
  revert retries first_use discarded waits w.
  induction budget as [|budget IH]; intros retries first_use discarded waits w Hw; cbn [run_attempts]; fold jobs owner timer;
    pose proof (start_holds (RetranscriptionRun.now run) w Hw) as Hs;
    destruct (JobOwner.apply owner JobChange.Start _ w) as [[u|e] w1]; destruct Hs as [H1 H2]; try (by split).
  all: pose proof (attempt_once_ends retries waits w1 (H2 eq_refl)) as Ha;
    destruct (attempt_once run ports retries waits w1) as [[[[[[revision usage] operation]|[stop usage]] n] waits'] w2];
    cbn [ends fst snd] in Ha.
  1,3: match goal with |- owning job ?w3 /\ _ => assert (H3 : holds (shows (TranscriptRevision.id revision)) w3)
        by (destruct (RetranscriptionRun.operation_id run); [exact Ha|by apply (call_holds _ _ _ (bind_quiet _ _))]) end;
    (split; [by eapply holds_owning|]); intros outcome [= <-] _ Eu E; by apply H3.
  all: pose proof (settle_holds stop n w2 Ha) as H3; destruct (settle_failure run ports stop n w2) as [[delay|e] w3];
    cbn [snd] in H3; try (by split; [eapply holds_owning|]).
  apply IH. eapply quiet_owning; [apply sleep_quiet|by eapply holds_owning].
Qed.

(** Answering with the revision of the record's commit. *)
Lemma replay_spec record operation now w :
  let '(r, w') := replay revisions record operation now w in
  quiet w w' /\ forall outcome, r = Ok outcome ->
    JobReport.job_id (RetranscriptionOutcome.report outcome) = JobRecord.job_id record
    /\ exists cm, JobRecord.commit record = Some cm
       /\ (live w' = true -> TranscriptRevision.id (RetranscriptionOutcome.revision outcome) = JobCommit.revision_id cm).
Proof.
  unfold replay, eff_bind, eff_result, eff_map_err, eff_ret.
  destruct (JobRecord.commit record) as [cm|]; cbn; [|split; [reflexivity|done]].
  pose proof (keep_revision _ _ reads_quiet (JobRecord.session_id record) (JobCommit.revision_id cm) now w) as Hq.
  pose proof (law_revision _ _ _ _ _ _ _ _ Hrecord (JobRecord.session_id record) (JobCommit.revision_id cm) now w) as Hr.
  fold revisions in Hr. destruct (RevisionStore.revision _ _ _ _ w) as [[[revision|]|e] w']; cbn in *; (split; [exact Hq|]); [|done..].
  intros outcome [= <-]. split; [done|]. exists cm. split; [done|]. intros E. by apply Hr.
Qed.

(** While others only add to the chain, the one commit stays. *)
Lemma quiet_made w w' cm :
  quiet w w' -> unsure w' = false -> once (stored w) -> live w' = true -> made cm (committed (stored w).1) ->
  made cm (committed (stored w').1).
Proof.
  intros Hq0 Eu Hw E' (e & He & Hrest). exists e. split; [|exact Hrest]. destruct (quiet_live _ _ Hq0 Eu E') as [E _].
  destruct (Hq0 Eu) as [_ Hq]. rewrite E in Hq. destruct Hq as [Hq _].
  destruct (mine w); [by rewrite (held_committed _ _ _ Hq)|by eapply free_committed].
Qed.

(** What an answer from such a record tells. *)
Lemma replay_answered record operation now w :
  (JobRecord.job_id record = job -> unsure w = false -> live w = true ->
   exists cm, JobRecord.commit record = Some cm /\ made cm (committed (stored w).1)) ->
  (unsure w = false -> once (stored w)) -> answered (replay revisions record operation now w).1 (replay revisions record operation now w).2.
Proof.
  intros Hmade Hw. pose proof (replay_spec record operation now w) as Hs.
  destruct (replay revisions record operation now w) as [r w']. destruct Hs as [Hq Hr]. cbn [fst snd].
  intros outcome Eo Ej Eu' E'. destruct (Hr outcome Eo) as (Ej' & cm & Ecm & Hid). rewrite Ej in Ej'.
  pose proof (quiet_sure _ _ Hq Eu') as Eu. destruct (quiet_live _ _ Hq Eu' E') as [E _].
  destruct (Hmade (eq_sym Ej') Eu E) as (cm' & Ecm' & Hm).
  rewrite Ecm in Ecm'. injection Ecm' as <-. destruct (quiet_made _ _ cm Hq Eu' (Hw Eu) E' Hm) as (e & He & _ & Hrev & _).
  exists e. split; [exact He|]. rewrite Hrev. symmetry. by apply Hid.
Qed.

(** A job that turns out to have succeeded. *)
Lemma answer_succeeded_answered w :
  owning job w -> JobRecord.state (JobOwner.record owner w) = Succeeded ->
  let '(r, w') := answer_succeeded run ports w in owning job w' /\ answered r w'.
Proof.
  intros Hw Es. pose proof (record_holds w Hw) as Hr. cbv zeta in Hr. rewrite Es in Hr.
  unfold answer_succeeded. fold jobs owner revisions. set (record := JobOwner.record owner w) in *.
  assert (Hreplay : forall operation w1, quiet w w1 ->
    let '(r, w') := replay revisions record operation (RetranscriptionRun.now run) w1 in owning job w' /\ answered r w').
  { intros operation w1 Hq. pose proof (replay_spec record operation (RetranscriptionRun.now run) w1) as Hs.
    pose proof (replay_answered record operation (RetranscriptionRun.now run) w1) as Ha.
    destruct (replay _ _ _ _ w1) as [r w2]. destruct Hs as [Hq2 _]. cbn [fst snd] in Ha.
    pose proof (quiet_owning _ _ _ Hq Hw) as Hw1. split; [by eapply quiet_owning|]. apply Ha; [|intros Eu; by apply Hw1].
    intros _ Eu E1. destruct (JobRecord.commit record) as [cm|].
    - exists cm. split; [done|]. by apply (quiet_holds _ _ _ Hq Hr).
    - destruct (quiet_live _ _ Hq Eu E1) as [E _]. by destruct (proj2 (Hr (quiet_sure _ _ Hq Eu)) E). }
  unfold eff_bind, eff_map_err, eff_ret, eff_result. destruct (RetranscriptionRun.operation_id run) as [operation|].
  - pose proof (bind_quiet operation (RetranscriptionRun.now run) w) as Hq.
    destruct (JobOwner.bind_operation owner operation _ w) as [[u|e] w1]; cbn in *; [by apply Hreplay|].
    split; [by eapply quiet_owning|done].
  - destruct (committed_operation record) as [operation|e]; [|by split]. apply Hreplay. reflexivity.
Qed.

Lemma start_attempts_answered created w :
  owning job w -> let '(r, w') := start_attempts run ports created w in owning job w' /\ answered r w'.
Proof.
  intros Hw. unfold start_attempts, eff_bind, eff_map_err, eff_ret. cbv zeta. fold jobs owner.
  destruct (RetranscriptionRun.operation_id run) as [operation|]; [|by apply run_attempts_answered].
  pose proof (quiet_owning job _ _ (bind_quiet operation (RetranscriptionRun.now run) w) Hw) as H1.
  destruct (JobOwner.bind_operation owner operation _ w) as [[u|e] w1]; cbn in *; [by apply run_attempts_answered|by split].
Qed.

Lemma run_owned_answered created w :
  owning job w -> let '(r, w') := run_owned run ports created w in owning job w' /\ answered r w'.
Proof.
  intros Hw. unfold run_owned, eff_bind, eff_map_err. fold jobs owner ledger.
  pose proof (reconcile_owning job (RetranscriptionRun.now run) w Hw) as H1.
  destruct (reconcile owner ledger _ w) as [[x|e] w1]; cbn [map_err snd] in *; [|by split].
  pose proof (record_holds w1 H1) as Hr. cbv zeta in Hr.
  destruct (JobRecord.state (JobOwner.record owner w1)) eqn:Es; try by apply start_attempts_answered.
  { by apply answer_succeeded_answered. }
  all: pose proof (apply_owning JobChange.Restart (RetranscriptionRun.now run) w1 ltac:(done) Hr) as H2;
    destruct (JobOwner.apply owner JobChange.Restart _ w1) as [[u|e] w2]; cbn [map_err snd] in *;
    [by apply start_attempts_answered|by split].
Qed.

(** ** A process that owns no job *)

Definition idle (w : W) : Prop := unsure w = false -> once (stored w) /\ (live w = true -> owns w = None).

Lemma quiet_idle w w' : quiet w w' -> idle w -> idle w'.
Proof.
  intros Hq Hh Eu. destruct (Hh (quiet_sure _ _ Hq Eu)) as [Hw Hl]. split; [by eapply quiet_once|]. intros E'.
  destruct (quiet_live _ _ Hq Eu E') as [E ->]. by apply Hl.
Qed.

Lemma idle_mine w : idle w -> unsure w = false -> live w = true -> mine w = false.
Proof. intros Hh Eu E. destruct (Hh Eu) as [_ Hl]. apply bool_decide_eq_false. by rewrite (Hl E). Qed.

(** Taking a job leaves the process with it, or with none. *)
Lemma takes_owning {A E} put j w (r : result A E) w' :
  takes session job ours live unsure owns stored put j w r w' -> idle w ->
  (forall s s', once s -> put s s' -> once s') ->
  match r with Ok _ => owning j w' | Err _ => idle w' end.
Proof.
  intros Ht Hh Hput.
  enough (Hall : unsure w' = false ->
    once (stored w') /\ (live w' = true -> owns w' = match r with Ok _ => Some j | Err _ => None end))
    by (destruct r; exact Hall).
  intros Eu'. destruct (Ht Eu') as [Eu Ht']. destruct (Hh Eu) as [Hw Hl]. destruct (live w).
  - destruct (Ht' (Hl eq_refl)) as (s & s' & [_ Hs] & Hcase & [_ Hs'] & Hend).
    split; [|exact Hend]. apply Hs'. destruct Hcase as [->|Hcase]; [auto|by apply (Hput s s'); auto].
  - destruct Ht' as [Es E']. split; [by rewrite Es|congruence].
Qed.

(** Work done as the owner of a job. *)
Lemma owned_idle {E A} j (m : Eff W E A) w : owning j (m w).2 -> idle (owned jobs m w).2.
Proof.
  unfold owned. destruct (m w) as [r w1]. cbn [snd]. intros Hh Eu'.
  pose proof (law_drop _ _ _ _ _ _ _ _ Hrecord w1) as Hlaw. cbv zeta in Hlaw. fold jobs in Hlaw.
  destruct (Hlaw Eu') as [Eu Hlaw']. destruct (Hh Eu) as [Hw Hl].
  destruct (live w1); [|destruct Hlaw' as [Es E']; split; [by rewrite Es|congruence]].
  destruct Hlaw' as [[_ Hfree] Hend]. split; [by apply Hfree|exact Hend].
Qed.

(** What is committed stays when the owner is dropped. *)
Lemma drop_keeps w e :
  unsure (JobStore.drop_owner jobs w) = false -> live (JobStore.drop_owner jobs w) = true ->
  unsure w = false /\ live w = true
  /\ (once (stored w) -> committed (stored w).1 = [e] -> committed (stored (JobStore.drop_owner jobs w)).1 = [e]).
Proof.
  intros Eu' E'. pose proof (law_drop _ _ _ _ _ _ _ _ Hrecord w) as Hlaw. cbv zeta in Hlaw. fold jobs in Hlaw.
  destruct (Hlaw Eu') as [Eu Hlaw']. split; [exact Eu|].
  destruct (live w); [|destruct Hlaw' as [_ E]; congruence]. split; [done|]. intros Hw He. by eapply free_committed; [apply Hlaw'|..].
Qed.

Lemma creates_once spec now s s' :
  JobSpec.session_id spec = session -> JobSpec.job_id spec = job -> once s -> creates spec now s s' -> once s'.
Proof.
  intros Hs Hj Honce [E ->]. unfold commits_once in *. rewrite E in Honce. cbn. split; [exact Hs|]. split; [exact Hj|]. by left.
Qed.

Lemma run_job_answered w :
  idle w -> let '(r, w') := run_job run ports w in idle w' /\ answered r w'.
Proof.
  intros Hw. unfold run_job, eff_bind, eff_map_err. fold jobs.
  pose proof (law_open _ _ _ _ _ _ _ _ Hrecord (RetranscriptionRun.spec run) (RetranscriptionRun.now run) w Hjob Hsession) as Ht.
  fold jobs in Ht. destruct (JobStore.open_or_create jobs _ _ w) as [[created|e] w1];
    pose proof (takes_owning _ _ _ _ _ Ht Hw (fun s s' => creates_once _ _ s s' Hsession Hjob)) as H1; cbn [map_err]; [|by split].
  pose proof (run_owned_answered created w1 H1) as Hr. pose proof (owned_idle job (run_owned run ports created) w1) as Hi.
  unfold owned in *. destruct (run_owned run ports created w1) as [r w2]. destruct Hr as [H2 Ha]. cbn [snd] in Hi.
  split; [by apply Hi|]. intros outcome Eo Ej Eu' E'.
  destruct (drop_keeps w2 (Entry.mk 0 (mkOpaqueId []) (mkOpaqueId [])) Eu' E') as (Eu & E & _).
  destruct (Ha outcome Eo Ej Eu E) as (e & He & Hrev). exists e. split; [|exact Hrev].
  destruct (drop_keeps w2 e Eu' E') as (_ & _ & Hkeep). apply Hkeep; [by apply H2|exact He].
Qed.

(** What a lookup finds of a job that has succeeded. *)
Definition found_made (found : result OperationLookup.t JobRunError.t) (w : W) : Prop :=
  forall record, found = Ok (OperationLookup.Replay record) -> JobRecord.job_id record = job -> unsure w = false -> live w = true ->
  exists cm, JobRecord.commit record = Some cm /\ made cm (committed (stored w).1).

Lemma lookup_landed_made now j w :
  idle w -> let '(r, w') := lookup_landed jobs ledger session now j w in idle w' /\ found_made r w'.
Proof.
  intros Hw. unfold lookup_landed. pose proof (law_acquire _ _ _ _ _ _ _ _ Hrecord j w) as Ht. fold jobs owner in Ht |- *.
  destruct (JobStore.acquire jobs session j w) as [r w1]. pose proof (takes_owning _ _ _ _ _ Ht Hw ltac:(done)) as H1.
  destruct r as [u|e]; [|destruct e as [| | |[]]; by split].
  set (body := eff_bind _ _).
  assert (Hbody : let '(r, w') := body w1 in owning j w' /\ found_made r w').
  { unfold body, eff_bind, eff_map_err. pose proof (reconcile_owning j now w1 H1) as H2.
    destruct (reconcile owner ledger now w1) as [[x|e] w2]; cbn [map_err snd] in *; [|by split].
    split; [exact H2|]. case_bool_decide as Es; intros record [= <-]. intros Ej Eu E.
    destruct (law_record _ _ _ _ _ _ _ _ Hrecord w2 j Eu E (proj2 (H2 Eu) E)) as [Ej' _]. fold jobs owner in Ej'.
    assert (j = job) as -> by congruence. pose proof (record_holds w2 H2) as Hr. cbv zeta in Hr. rewrite Es in Hr.
    destruct (JobRecord.commit _) as [cm|]; [|by destruct (proj2 (Hr Eu) E)]. exists cm. split; [done|]. by apply Hr. }
  pose proof (owned_idle j body w1) as Hi. unfold owned in *. destruct (body w1) as [r w2]. destruct Hbody as [H2 Hm].
  split; [by apply Hi|]. intros record Er Ej Eu' E'.
  destruct (drop_keeps w2 (Entry.mk 0 (mkOpaqueId []) (mkOpaqueId [])) Eu' E') as (Eu & E & _).
  destruct (Hm record Er Ej Eu E) as (cm & Ec & e & He & Hrest).
  exists cm. split; [exact Ec|]. exists e. split; [|exact Hrest].
  destruct (drop_keeps w2 e Eu' E') as (_ & _ & Hkeep). apply Hkeep; [by apply H2|exact He].
Qed.

Lemma effective_succeeded view : JobView.effective_state view = Succeeded -> JobRecord.state (JobView.record view) = Succeeded.
Proof. unfold JobView.effective_state. by destruct (JobRecord.state _), (JobView.liveness view). Qed.

(** Reading a job: whatever it finds, its record was stored meanwhile. *)
Lemma job_read j w :
  idle w -> let '(r, w') := JobStore.job jobs session j w in
  idle w' /\ forall view, r = Ok (Some view) -> JobRecord.state (JobView.record view) = Succeeded ->
                found_made (Ok (OperationLookup.Replay (JobView.record view))) w'.
Proof.
  intros Hw. pose proof (law_job _ _ _ _ _ _ _ _ Hrecord j w) as Hlaw. fold jobs in Hlaw.
  destruct (JobStore.job jobs session j w) as [r w']. destruct Hlaw as [Hq Hr]. split; [by eapply quiet_idle|].
  intros view Er Es record [= <-] Ej Eu' E'. destruct (quiet_live _ _ Hq Eu' E') as [E _].
  pose proof (quiet_sure _ _ Hq Eu') as Eu. destruct (Hr Eu' E' view Er) as [Ej' Hsnap]. assert (j = job) as -> by congruence.
  destruct (Hsnap eq_refl) as (s & Hs & Erec & Hs'). rewrite (idle_mine _ Hw Eu E) in Hs, Hs'.
  pose proof (proj2 Hs (proj1 (Hw Eu))) as Honce. pose proof Honce as Hcase. unfold commits_once in Hcase. rewrite Erec in Hcase.
  destruct Hcase as (_ & _ & [(_ & Hne & _)|(e & He & (cm & Ec & Hop & Hrev & Hg) & _)]); [done|].
  exists cm. split; [exact Ec|]. exists e. split; [by eapply free_committed|by split].
Qed.

Lemma lookup_made now operation digest w :
  idle w -> let '(r, w') := lookup_operation jobs ledger session now operation digest w in idle w' /\ found_made r w'.
Proof.
  intros Hw. unfold lookup_operation, eff_bind, eff_map_err, eff_ret, eff_fail.
  pose proof (quiet_idle _ _ (law_for_operation _ _ _ _ _ _ _ _ Hrecord operation w) Hw) as H1. fold jobs in H1.
  destruct (JobStore.job_for_operation _ _ _ w) as [[[j|]|e] w1]; cbn [map_err snd] in *; [|by split..].
  pose proof (job_read j w1 H1) as Hj. destruct (JobStore.job jobs session j w1) as [[[view|]|e] w2]; destruct Hj as [H2 Hm];
    cbn [map_err]; [|by split..].
  destruct (negb _); [by split|]. specialize (Hm view eq_refl).
  destruct (JobView.effective_state view) eqn:Es, (JobView.liveness view); try (by split);
    try (split; [exact H2|by apply Hm, effective_succeeded]).
  case_bool_decide; [by apply lookup_landed_made|by split].
Qed.

Lemma run_answered w : idle w -> let '(r, w') := run_retranscription run ports w in idle w' /\ answered r w'.
Proof.
  intros Hw. unfold run_retranscription. destruct (RetranscriptionRun.operation_id run) as [operation|]; [|by apply run_job_answered].
  unfold eff_bind, eff_fail. rewrite Hsession. fold jobs ledger revisions.
  pose proof (lookup_made (RetranscriptionRun.now run) operation (JobSpec.request_digest (RetranscriptionRun.spec run)) w Hw) as Hl.
  destruct (lookup_operation _ _ _ _ _ _ w) as [[found|e] w1]; destruct Hl as [H1 Hm]; [|by split].
  destruct found as [|record|j|j]; [by apply run_job_answered| |by split|by apply run_job_answered].
  pose proof (replay_spec record operation (RetranscriptionRun.now run) w1) as Hs.
  pose proof (replay_answered record operation (RetranscriptionRun.now run) w1 (Hm record eq_refl) (fun Eu => proj1 (H1 Eu))) as Ha.
  destruct (replay _ _ _ _ w1) as [r w2]. split; [|exact Ha].
  apply (quiet_idle w1); [apply Hs|exact H1].
Qed.

(** ** Cancelling and reading the job *)

Lemma cancel_unowned_owning j now w : owning j w -> owning j (cancel_unowned jobs ledger now w).2.
Proof.
  intros Hw. unfold cancel_unowned, eff_bind, eff_ret. fold owner. pose proof (reconcile_owning j now w Hw) as H1.
  destruct (reconcile owner ledger now w) as [[x|e] w1]; cbn [snd] in H1; [|exact H1].
  assert (Hcancel : JobRecord.state (JobOwner.record owner w1) = Queued \/ JobRecord.state (JobOwner.record owner w1) = Interrupted ->
    owning j (JobOwner.apply owner JobChange.Cancel now w1).2).
  { intros Hs. destruct (decide (j = job)) as [->|Hj]; [|by apply apply_other]. apply apply_owning; [done|].
    pose proof (record_holds w1 H1) as Hr. cbv zeta in Hr. by destruct Hs as [Hs|Hs]; rewrite Hs in Hr. }
  destruct x; cbv zeta; try exact H1.
  all: destruct (JobRecord.state (JobOwner.record owner w1)); try exact H1.
  all: specialize (Hcancel ltac:(auto)); by destruct (JobOwner.apply owner JobChange.Cancel now w1) as [[u|e] w2].
Qed.

(** Asking another process to stop. *)
Lemma request_cancel_idle j now w : idle w -> idle (JobStore.request_cancel jobs session j now w).2.
Proof.
  intros Hw. pose proof (law_request_cancel _ _ _ _ _ _ _ _ Hrecord j now w) as Hlaw. fold jobs in Hlaw.
  destruct (JobStore.request_cancel jobs session j now w) as [r w']. cbn [snd]. intros Eu'. destruct (Hlaw Eu') as [Eu Hlaw']. destruct (Hw Eu) as [Hw' Hl].
  destruct (live w) eqn:E; [|destruct Hlaw' as [Es E']; split; [by rewrite Es|congruence]].
  destruct (Hlaw' (Hl eq_refl)) as (s & s' & [_ Hs] & Hcase & [_ Hs'] & Hend). split; [|exact Hend].
  apply Hs'. destruct Hcase as [->|Hcase]; [auto|]. eapply held_once; [exact Hcase|auto].
Qed.

Lemma cancel_job_idle j now w : idle w -> idle (cancel_job jobs ledger session now j w).2.
Proof.
  intros Hw. unfold cancel_job, eff_bind, eff_ret. pose proof (request_cancel_idle j now w Hw) as H1.
  destruct (JobStore.request_cancel jobs session j now w) as [[[| | |[]|]|e] w1]; cbn [snd] in *; try exact H1.
  pose proof (law_acquire _ _ _ _ _ _ _ _ Hrecord j w1) as Ht. fold jobs in Ht.
  destruct (JobStore.acquire jobs session j w1) as [r w2]. pose proof (takes_owning _ _ _ _ _ Ht H1 ltac:(done)) as H2.
  destruct r as [u|e]; [|exact H2]. by apply (owned_idle j), cancel_unowned_owning.
Qed.

Lemma found_job_idle j w : idle w -> idle (found_job jobs session j w).2.
Proof.
  intros Hw. unfold found_job, eff_bind, eff_result. pose proof (job_read j w Hw) as Hj.
  destruct (JobStore.job jobs session j w) as [[o|e] w1]; by destruct Hj.
Qed.

Lemma job_status_idle j now w : idle w -> idle (job_status jobs ledger session now j w).2.
Proof.
  intros Hw. unfold job_status, eff_bind, eff_ret. fold owner. pose proof (found_job_idle j w Hw) as H1.
  destruct (found_job jobs session j w) as [[view|e] w1]; cbn [snd] in H1; [|exact H1].
  destruct (_ || _); [exact H1|].
  pose proof (law_acquire _ _ _ _ _ _ _ _ Hrecord j w1) as Ht. fold jobs in Ht.
  destruct (JobStore.acquire jobs session j w1) as [r w2]. pose proof (takes_owning _ _ _ _ _ Ht H1 ltac:(done)) as H2.
  destruct r as [u|e]; [|destruct e as [| | |[]]; try exact H2; by apply found_job_idle].
  pose proof (owned_idle j (reconcile owner ledger now) w2 (reconcile_owning j now w2 H2)) as H3.
  destruct (owned jobs (reconcile owner ledger now) w2) as [[x|e] w3]; cbn [snd] in H3; [by apply found_job_idle|exact H3].
Qed.

Lemma once_at_most s : once s -> (length (committed s.1) <= 1)%nat.
Proof.
  unfold commits_once. destruct s.2 as [r|]; [|intros ->; cbn; lia].
  intros (_ & _ & [[-> _]|(e & -> & _)]); cbn; lia.
Qed.
End Calls.

(** A retranscription commits at most once. A session holds at most one commit
    of the job, and its record tells of it, whenever a process runs the job, asks
    it to stop or reads its state, whichever port fails, whatever other processes
    do to the session meanwhile, and at whatever call of a port the process ends;
    so the next process, which finds the same stored state, keeps it again. A
    process that lives to answer a run answers with the revision of that one
    commit: that it has just made, or, replayed, that an earlier process made
    whose record was left behind. The one exception is a process that the store
    left unsure whether its commit landed, because it failed to publish it and
    then failed to read the chain: the rule holds for as long as that has not
    happened. [landed_commit_forgotten] shows why it stops there. Claim C2. *)
Theorem job_commits_once {W} `{UnicodeTables} `{Sha256} session job ours live unsure owns stored
    (ports : RetranscriptionPorts.t W) run :
  RetranscriptionRun.session_id run = session ->
  RetranscriptionRun.job_id run = job ->
  operations_told_apart job ours ->
  record_laws session job ours live unsure owns stored ports ->
  other_laws session job ours live unsure owns stored ports ->
  unsure_when_unread session ours live unsure ports ->
  let jobs := RetranscriptionPorts.jobs ports in
  let ledger := RetranscriptionPorts.ledger ports in
  let rule (w : W) := unsure w = false ->
    commits_once session job ours (stored w) /\ (length (committed ours (stored w).1) <= 1)%nat
    /\ (live w = true -> owns w = None) in
  forall w, rule w ->
  (forall r w', run_retranscription run ports w = (r, w') ->
     rule w'
     /\ forall outcome, r = Ok outcome -> JobReport.job_id (RetranscriptionOutcome.report outcome) = job ->
          unsure w' = false -> live w' = true ->
          exists e, committed ours (stored w').1 = [e]
            /\ Entry.revision e = TranscriptRevision.id (RetranscriptionOutcome.revision outcome))
  /\ (forall j now r w', cancel_job jobs ledger session now j w = (r, w') -> rule w')
  /\ (forall j now r w', job_status jobs ledger session now j w = (r, w') -> rule w').
Proof.
  intros Hs Hj Hnames Hrecord Hother Hunsure jobs ledger rule w Hw. subst jobs ledger.
  assert (Hidle : idle session job ours live unsure owns stored w) by (intros Eu; by destruct (Hw Eu) as (? & _ & ?)).
  assert (Hrule : forall w', idle session job ours live unsure owns stored w' -> rule w').
  { intros w' Hi Eu. destruct (Hi Eu) as [H1 H2]. split; [exact H1|]. split; [by eapply once_at_most|exact H2]. }
  split; [|split].
  - intros r w' E. pose proof (run_answered _ _ _ _ _ _ _ _ Hrecord Hother Hunsure run Hs Hj Hnames w Hidle) as Hr. rewrite E in Hr.
    split; [apply Hrule, Hr|]. intros outcome Eo Ej Eu El. exact (proj2 Hr outcome Eo Ej Eu El).
  - intros j now r w' E. apply Hrule. pose proof (cancel_job_idle _ _ _ _ _ _ _ _ Hrecord j now w Hidle) as Hr. by rewrite E in Hr.
  - intros j now r w' E. apply Hrule. pose proof (job_status_idle _ _ _ _ _ _ _ _ Hrecord j now w Hidle) as Hr. by rewrite E in Hr.
Qed.

(** ** Examples

    A host with one job, whose store may fail once a revision is in the chain,
    and the run of PublishSafe.v on it. *)

(** A digest that tells both ends of a message apart. *)
Definition ends_digest : Sha256 := fun bytes =>
  take 8 (drop 8 bytes ++ replicate 8 zero_char) ++ take 24 (reverse bytes ++ replicate 24 zero_char).

Lemma ends_digest_laws : Sha256Laws (H := ends_digest).
Proof.
  intros bytes. change (length (take 8 (drop 8 bytes ++ replicate 8 zero_char) ++ take 24 (reverse bytes ++ replicate 24 zero_char)) = 32%nat).
  rewrite length_app, !length_take, !length_app, !length_replicate. lia.
Qed.

Lemma hexes_length bytes : length (sha256_hex (H := fun bytes => bytes) bytes) = (2 * length bytes)%nat.
Proof. unfold sha256_hex, sha256. induction bytes as [|c bytes IH]; [done|]. rewrite bind_cons, length_app, IH. cbn [length]. lia. Qed.

(** What is made of such a digest begins with what its message begins with. *)
Lemma ends_begin domain parts :
  (16 <= length domain)%nat ->
  take 19 (derived_identity (H := ends_digest) (literal "op_") domain parts)
  = literal "op_" ++ sha256_hex (H := fun bytes => bytes) (take 8 (drop 8 domain)).
Proof.
  intros Hd. rewrite (derived_identity_suffix (H := ends_digest) (H0 := ends_digest_laws)).
  assert (Hm : exists rest, material domain parts = domain ++ rest).
  { unfold material. revert domain Hd. induction parts as [|part parts IH]; intros domain Hd; [exists []; by rewrite app_nil_r|].
    cbn [fold_left]. destruct (IH (domain ++ newline_char ++ part)) as [rest ->]; [rewrite length_app; lia|].
    eexists. by rewrite <- app_assoc. }
  destruct Hm as [rest ->]. unfold identity_suffix.
  set (A := take 8 (drop 8 domain)). assert (HA : length A = 8%nat) by (unfold A; rewrite length_take, length_drop; lia).
  assert (Hsha : exists T, length T = 24%nat /\ sha256_hex (H := ends_digest) (domain ++ rest)
    = sha256_hex (H := fun bytes => bytes) A ++ sha256_hex (H := fun bytes => bytes) T).
  { exists (take 24 (reverse (domain ++ rest) ++ replicate 24 zero_char)).
    split; [rewrite length_take, length_app, length_replicate; lia|].
    unfold sha256_hex at 1. unfold sha256, ends_digest. rewrite bind_app. f_equal.
    rewrite drop_app_le by lia. rewrite <- app_assoc, take_app_le by (rewrite length_drop; lia). reflexivity. }
  destruct Hsha as (T & HT & ->).
  change 19%nat with (length (literal "op_") + 16)%nat. rewrite take_app_add. f_equal.
  rewrite take_take. change (16 `min` IDENTITY_HEX_LENGTH)%nat with 16%nat. rewrite take_app_le by (rewrite hexes_length; lia).
  apply take_ge. rewrite hexes_length. lia.
Qed.

(** What happens once a revision is in the chain: nothing, the end of the
    process, or a failure that the store reports. *)
Inductive Fault := NoFault | ProcessEnds | StoreFails.

Module Host.
Record t := mk {
  alive : bool;
  fault : Fault;
  holds_lock : bool;
  chain : list Entry.t;
  revisions : list TranscriptRevision.t;
  record : option JobRecord.t;
  unpublished : bool;
  unsure : bool
}.

Definition stored (w : t) : Stored := (chain w, record w).

Definition owns (w : t) : option (OpaqueId JobId) := if holds_lock w then JobRecord.job_id <$> record w else None.

Definition with_lock (w : t) (lock : bool) : t :=
  mk (alive w) (fault w) lock (chain w) (revisions w) (record w) (unpublished w) (unsure w).
Definition with_record (w : t) (r : JobRecord.t) : t :=
  mk (alive w) (fault w) (holds_lock w) (chain w) (revisions w) (Some r) (unpublished w) (unsure w).

(** A revision in the chain, whatever the store makes of it afterwards. *)
Definition appended (w : t) (e : Entry.t) (revision : TranscriptRevision.t) : t :=
  mk (match fault w with ProcessEnds => false | _ => true end) (fault w) (holds_lock w) (chain w ++ [e])
    (revisions w ++ [revision]) (record w) (match fault w with NoFault => false | _ => true end) (unsure w).

(** A reading of the chain that failed: after a publication that failed, it
    leaves the process unsure. *)
Definition unread (w : t) : t :=
  mk (alive w) (fault w) (holds_lock w) (chain w) (revisions w) (record w) (unpublished w) (unsure w || unpublished w).

(** A call that only a live process makes. *)
Definition living {E A} (e : E) (m : t -> result A E * t) (w : t) : result A E * t := if alive w then m w else (Err e, w).

(** A process that was started again. *)
Definition restarted (w : t) : t := mk true NoFault false (chain w) (revisions w) (record w) false (unsure w).
End Host.

Definition no_io : JobStoreError.t := JobStoreError.Storage SessionStorageError.Io.

Definition host_owner : JobOwner.t Host.t :=
  JobOwner.mk _
    (fun w => default (JobRecord.queued (RetranscriptionRun.spec publishing_run) 0) (Host.record w))
    (fun change now => Host.living no_io (fun w =>
       if bool_decide (Host.owns w = Some sample_job) then
         match Host.record w with
         | Some r =>
             match JobRecord.changed r change now with
             | Ok r' => (Ok tt, Host.with_record w r')
             | Err e => (Err e, w)
             end
         | None => (Err JobStoreError.NotFound, w)
         end
       else (Err JobStoreError.StaleOwner, w)))
    (fun operation now => Host.living no_io (fun w => (Ok tt, w)))
    (fun w => (false, w)).

Definition host_jobs : JobStore.t Host.t :=
  JobStore.mk _ host_owner
    (fun w => if Host.alive w then Host.with_lock w false else w)
    (fun session job => Host.living no_io (fun w =>
       (Ok (r ← Host.record w; if bool_decide (JobRecord.job_id r = job) then Some (JobView.mk r Unowned 0) else None), w)))
    (fun session operation => Host.living no_io (fun w => (Ok None, w)))
    (fun spec now => Host.living no_io (fun w =>
       match Host.record w with
       | None => (Ok true, Host.with_lock (Host.with_record w (JobRecord.queued spec now)) true)
       | Some r =>
           if bool_decide (JobRecord.job_id r = JobSpec.job_id spec) then (Ok false, Host.with_lock w true)
           else (Err JobStoreError.NotFound, Host.with_lock w false)
       end))
    (fun session job => Host.living no_io (fun w =>
       if bool_decide (JobRecord.job_id <$> Host.record w = Some job) then (Ok tt, Host.with_lock w true)
       else (Err JobStoreError.NotFound, w)))
    (fun session job now w => (Err JobStoreError.NotFound, w)).

(** The chain, which may be [readable] or not. *)
Definition host_ledger (readable : bool) : CommitLedger.t Host.t :=
  CommitLedger.mk _ (fun session operation above => Host.living SessionStorageError.Io (fun w =>
    if readable
    then (Ok (Entry.generation <$> head (filter (fun e => Entry.operation e = operation /\ above < Entry.generation e) (Host.chain w))), w)
    else (Err SessionStorageError.Io, Host.unread w))).

Definition host_revisions : RevisionStore.t Host.t :=
  RevisionStore.mk _
    (fun session now w => (Ok (SessionHead.mk 0 None), w))
    (fun session id now w => (Ok (head (filter (fun r => TranscriptRevision.id r = id) (Host.revisions w))), w))
    (fun session now w => (Ok None, w))
    (fun session operation expected open job part first now w => (Err SessionStorageError.Io, w))
    (fun session operation expected revision now => Host.living SessionStorageError.Io (fun w =>
       (match Host.fault w with NoFault => Ok (expected + 1) | _ => Err SessionStorageError.Io end,
        Host.appended w (Entry.mk (expected + 1) operation (TranscriptRevision.id revision)) revision))).

Definition ports_of (readable : bool) : RetranscriptionPorts.t Host.t :=
  RetranscriptionPorts.mk _ host_jobs (host_ledger readable) host_revisions
    (Ports.mk _ (fun chunk w => (Ok (sample_pcm chunk), w)) (fun w => (Ok sample_identity, w))
       (fun chunk pcm w => (Ok (sample_answer chunk pcm), w)) (fun w => (false, w)))
    (fun index w => (Absent, w)) (fun c w => (true, w)) (fun index w => w)
    (RetryTimer.mk _ (fun w => (Jitter.NONE, w)) (fun d w => w))
    (fun error => FailureCode.StorageIo) (fun update w => w) AtTheSeal (fun w => (0, w)) None
    (fun w => (Ok tt, w)) (fun waits w => (Ok tt, waits, w)) None (fun w => w).

Definition host_ports : RetranscriptionPorts.t Host.t := ports_of true.

Definition host_session : OpaqueId SessionId := RetranscriptionRun.session_id publishing_run.

(** What the commits of the job are made under. *)
Definition host_ours (operation : OpaqueId OperationId) : bool :=
  bool_decide (take 19 (as_str operation)
               = literal "op_" ++ sha256_hex (H := fun bytes => bytes) (take 8 (drop 8 (literal "vsift.job-commit.v1")))).

Definition new_host (fault : Fault) : Host.t := Host.mk true fault false [] [] None false false.

#[local] Abbreviation host_run w :=
  (run_retranscription (H := ascii_tables) (H0 := ends_digest) publishing_run host_ports w) (only parsing).

Lemma host_operations : operations_told_apart (H := ends_digest) sample_job host_ours.
Proof.
  assert (Hparse : forall s op, map_err (fun _ => NotCanonical) (id_parse OperationId s) = Ok op -> as_str op = s).
  { intros s op E. apply map_err_Ok in E. apply id_parse_spec in E as [_ ->]. done. }
  constructor.
  - intros epoch attempt op E%Hparse. unfold host_ours. rewrite E, ends_begin by (vm_compute; lia). by apply bool_decide_eq_true.
  - intros epoch attempt part op E%Hparse. unfold host_ours. rewrite E, ends_begin by (vm_compute; lia).
    vm_compute. reflexivity.
  - intros epoch attempt op E%Hparse. unfold host_ours. rewrite E, ends_begin by (vm_compute; lia).
    vm_compute. reflexivity.
Qed.

Abbreviation host_quiet := (quiet host_session sample_job host_ours Host.alive Host.unsure Host.owns Host.stored).

#[local] Instance host_others_pre b : Reflexive (others host_session sample_job host_ours b).
Proof. destruct b; [apply held_pre|apply free_pre]. Qed.

Lemma host_stays w : host_quiet w w.
Proof. intros Eu. split; [exact Eu|]. unfold frozen. destruct (Host.alive w) eqn:E; [split; [reflexivity|done]|done]. Qed.

Lemma host_living {F A} (e : F) (m : Host.t -> result A F * Host.t) :
  (forall w, (m w).2 = w) -> keeps host_quiet (Host.living e m).
Proof. intros Hm w. unfold Host.living. destruct (Host.alive w); [rewrite Hm|]; apply host_stays. Qed.

(** A call that stores one thing. *)
Lemma host_stores {F A} (put : Stored -> Stored -> Prop) (r : result A F) w w' :
  Host.alive w = true -> Host.unsure w' = Host.unsure w -> Host.owns w' = Host.owns w -> put (Host.stored w) (Host.stored w') ->
  may_store host_session sample_job host_ours Host.alive Host.unsure Host.owns Host.stored put w r w'.
Proof.
  intros E Eu Eo Hput Eu'. split; [congruence|]. rewrite E. exists (Host.stored w), (Host.stored w').
  split; [reflexivity|]. split; [by right|]. split; [reflexivity|]. by split.
Qed.

Lemma host_refuses {F A} (put : Stored -> Stored -> Prop) (e : F) w :
  may_store (A := A) host_session sample_job host_ours Host.alive Host.unsure Host.owns Host.stored put w (Err e) w.
Proof.
  intros Eu. split; [exact Eu|]. unfold frozen. destruct (Host.alive w) eqn:E; [|done]. exists (Host.stored w), (Host.stored w).
  split; [reflexivity|]. split; [by left|]. split; [reflexivity|]. by split.
Qed.

Lemma host_apply change now w :
  let '(r, w') := JobOwner.apply host_owner change now w in
  if Host.alive w && negb (mine sample_job Host.owns w) then host_quiet w w'
  else may_store host_session sample_job host_ours Host.alive Host.unsure Host.owns Host.stored (changes change now) w r w'.
Proof.
  unfold host_owner, JobOwner.apply, Host.living, mine. destruct (Host.alive w) eqn:E; [|apply host_refuses].
  case_bool_decide as Eo; cbn [negb andb]; [|apply host_stays].
  destruct (Host.record w) as [r|] eqn:Er; [|apply host_refuses].
  destruct (JobRecord.changed r change now) as [r'|e] eqn:Ec; [|apply host_refuses].
  apply host_stores; [exact E|done| |].
  - unfold Host.owns in *. cbn. destruct (Host.holds_lock w); [|done]. rewrite Er in Eo |- *. cbn.
    by apply changed_set in Ec as (state & epoch & attempt & failures & commit & -> & _).
  - exists r, r'. split; [exact Er|]. by split.
Qed.

Lemma host_takes_refused {F A} put j (e : F) w w' :
  Host.alive w' = Host.alive w -> Host.unsure w' = Host.unsure w -> Host.stored w' = Host.stored w -> (Host.owns w = None -> Host.owns w' = None) ->
  takes (A := A) host_session sample_job host_ours Host.alive Host.unsure Host.owns Host.stored put j w (Err e) w'.
Proof.
  intros Ea Eu Es Eo Eu'. split; [congruence|]. unfold frozen. destruct (Host.alive w); [|by split]. intros Hn. exists (Host.stored w), (Host.stored w).
  split; [reflexivity|]. split; [by left|]. rewrite Es. split; [reflexivity|]. intros _. by apply Eo.
Qed.

Lemma host_record_laws readable :
  record_laws host_session sample_job host_ours Host.alive Host.unsure Host.owns Host.stored (ports_of readable).
Proof.
  constructor.
  - intros w j _ E Eo. unfold Host.owns in Eo. destruct (Host.holds_lock w); [|done]. cbn.
    destruct (Host.record w) as [r|] eqn:Er; [|done]. cbn in Eo. injection Eo as <-. split; [done|]. intros _. exists r. by split.
  - apply host_apply.
  - intros operation now. by apply host_living.
  - intros w. apply host_stays.
  - intros w. cbn. destruct (Host.alive w) eqn:E; intros Eu; (split; [exact Eu|]); [|by split]. split; [apply free_pre|done].
  - intros j w. cbn. unfold Host.living. destruct (Host.alive w) eqn:E; [|split; [apply host_stays|congruence]].
    split; [apply host_stays|]. intros _ _ view. destruct (Host.record w) as [r|] eqn:Er; cbn; [|done].
    case_bool_decide as Ej; [|done]. intros [= <-]. cbn. split; [exact Ej|]. intros _. exists (Host.stored w).
    split; [reflexivity|]. split; [exact Er|reflexivity].
  - intros operation. by apply host_living.
  - intros spec now w Ej Es. cbn. unfold Host.living. destruct (Host.alive w) eqn:E; [|by apply host_takes_refused].
    destruct (Host.record w) as [r|] eqn:Er.
    + case_bool_decide as Hj; [|by apply host_takes_refused]. intros Eu. split; [exact Eu|]. rewrite E. intros _.
      exists (Host.stored w), (Host.stored w). split; [apply free_pre|]. split; [by left|]. split; [apply free_pre|].
      intros _. unfold Host.owns. cbn. rewrite Er. cbn. congruence.
    + intros Eu. split; [exact Eu|]. rewrite E. intros _. exists (Host.stored w), (Host.chain w, Some (JobRecord.queued spec now)).
      split; [apply free_pre|]. split; [right; split; [exact Er|done]|]. split; [apply free_pre|]. intros _. cbn. congruence.
  - intros j w. cbn. unfold Host.living. destruct (Host.alive w) eqn:E; [|by apply host_takes_refused].
    case_bool_decide as Hj; [|by apply host_takes_refused]. intros Eu. split; [exact Eu|]. rewrite E. intros _.
    exists (Host.stored w), (Host.stored w). split; [apply free_pre|]. split; [by left|]. split; [apply free_pre|]. done.
  - intros j now w. cbn. intros Eu. split; [exact Eu|]. destruct (Host.alive w) eqn:E; [|by split]. intros Eo. exists (Host.stored w), (Host.stored w).
    split; [apply free_pre|]. split; [by left|]. split; [apply free_pre|done].
  - intros s operation above w. cbn. unfold Host.living. destruct (Host.alive w) eqn:E; [|apply host_stays].
    destruct readable; [apply host_stays|]. intros [Eu _]%orb_false_iff. split; [exact Eu|]. rewrite E. split; [reflexivity|done].
  - intros operation above w. cbn. unfold Host.living. destruct (Host.alive w) eqn:E; [|congruence].
    destruct readable; [|done]. intros _ _. destruct (head _) as [e|] eqn:Eh; cbn.
    + assert (Hin : e ∈ filter (fun e => Entry.operation e = operation /\ above < Entry.generation e) (Host.chain w)).
      { destruct (filter _ _); [done|]. injection Eh as ->. by left. }
      apply list_elem_of_filter in Hin as [[Ho Hg] Hin]. by exists e.
    + intros (e & Hin & Ho & Hg).
      assert (Hf : e ∈ filter (fun e => Entry.operation e = operation /\ above < Entry.generation e) (Host.chain w))
        by (apply list_elem_of_filter; by split).
      destruct (filter _ _); [by apply elem_of_nil in Hf|done].
  - intros operation expected revision now w. cbn. unfold Host.living. destruct (Host.alive w) eqn:E; [|apply host_refuses].
    apply host_stores; [exact E|done|done|]. exists (expected + 1). split; [lia|done].
  - intros operation expected open part first now _ w. apply host_stays.
  - constructor; intros; intros w; apply host_stays.
  - intros s id now w. cbn. intros _ revision [= Eh].
    assert (Hin : revision ∈ filter (fun r => TranscriptRevision.id r = id) (Host.revisions w)).
    { destruct (filter _ _); [done|]. injection Eh as ->. by left. }
    by apply list_elem_of_filter in Hin as [Hid _].
Qed.

Lemma host_other_laws readable :
  other_laws host_session sample_job host_ours Host.alive Host.unsure Host.owns Host.stored (ports_of readable).
Proof.
  constructor; try done; try (intros ?; intros w; apply host_stays); try (intros w; apply host_stays).
  constructor; intros; intros w; apply host_stays.
Qed.

Lemma host_unsure readable : unsure_when_unread host_session host_ours Host.alive Host.unsure (ports_of readable).
Proof.
  intros operation expected revision now w _. cbn. unfold Host.living.
  destruct (Host.alive w) eqn:E; [|rewrite E; congruence].
  destruct (Host.fault w) eqn:Ef; unfold Host.appended; rewrite Ef; cbn; [by destruct readable|congruence|].
  destruct readable; [done|]. intros _ _ _. apply orb_true_r.
Qed.

(** A run whose process ends when its revision is in the chain, and the run of
    the process that is started after it. *)
#[local] Abbreviation first_run := (host_run (new_host ProcessEnds)).
#[local] Abbreviation second_run := (host_run (Host.restarted first_run.2)).

Definition committed_once (first second : result RetranscriptionOutcome.t JobRunError.t * Host.t) : Prop :=
  is_ok first.1 = false /\ JobRecord.state <$> Host.record first.2 = Some Committing /\ length (Host.chain first.2) = 1%nat
  /\ JobReport.replayed ∘ RetranscriptionOutcome.report <$> result_ok second.1 = Some true
  /\ Host.alive second.2 = true /\ JobRecord.state <$> Host.record second.2 = Some Succeeded
  /\ Host.chain second.2 = Host.chain first.2.

(** Any result is that of some run. *)
Lemma of_pair {A B} (m : A * B) (P : A -> B -> Prop) : (forall a b, m = (a, b) -> P a b) -> P m.1 m.2.
Proof. intros HP. apply HP. by destruct m. Qed.

Lemma job_commits_once_witness :
  committed_once first_run second_run
  /\ Host.unsure second_run.2 = false
  /\ commits_once host_session sample_job host_ours (Host.stored first_run.2)
  /\ forall outcome, second_run.1 = Ok outcome ->
       JobReport.job_id (RetranscriptionOutcome.report outcome) = sample_job ->
       Host.unsure second_run.2 = false -> Host.alive second_run.2 = true ->
       exists e, committed host_ours (Host.stored second_run.2).1 = [e]
         /\ Entry.revision e = TranscriptRevision.id (RetranscriptionOutcome.revision outcome).
Proof.
  pose proof (job_commits_once (H := ascii_tables) (H0 := ends_digest) host_session sample_job host_ours Host.alive Host.unsure
    Host.owns Host.stored host_ports publishing_run eq_refl eq_refl host_operations (host_record_laws true) (host_other_laws true)
    (host_unsure true)) as Hall.
  cbv zeta in Hall.
  assert (Hnew : forall fault, Host.unsure (new_host fault) = false ->
    commits_once host_session sample_job host_ours (Host.stored (new_host fault))
    /\ (length (committed host_ours (Host.stored (new_host fault)).1) <= 1)%nat
    /\ (Host.alive (new_host fault) = true -> Host.owns (new_host fault) = None)).
  { intros fault _. split; [reflexivity|]. split; [exact (Nat.le_0_l 1)|reflexivity]. }
  pose proof (proj1 (of_pair _ _ (proj1 (Hall (new_host ProcessEnds) (Hnew ProcessEnds))))) as Hfirst.
  assert (Hsure : Host.unsure first_run.2 = false) by (vm_compute; reflexivity).
  split; [vm_compute; by repeat split|]. split; [vm_compute; reflexivity|]. split; [exact (proj1 (Hfirst Hsure))|].
  refine (proj2 (of_pair _ _ (proj1 (Hall (Host.restarted first_run.2) _)))).
  intros _. split; [exact (proj1 (Hfirst Hsure))|]. split; [exact (proj1 (proj2 (Hfirst Hsure)))|]. intros _. reflexivity.
Defined.

(** Why the rule stops there: when the store reports a failure of a revision that
    is in the chain, and the chain cannot be read right then, the failed attempt
    is settled, and the record forgets its commit. The job is then interrupted for
    every reader, although its operation is in the chain, and a later attempt
    would commit again. The laws of the ports hold of that host, and it is unsure. *)
Lemma landed_commit_forgotten :
  let '(r, w) := run_retranscription (H := ascii_tables) (H0 := ends_digest) publishing_run (ports_of false) (new_host StoreFails) in
  is_ok r = false /\ Host.alive w = true /\ Host.unsure w = true /\ length (committed host_ours (Host.chain w)) = 1%nat
  /\ JobRecord.state <$> Host.record w = Some Interrupted /\ JobRecord.commit <$> Host.record w = Some None
  /\ (fun view => JobRecord.state (JobView.record view))
       <$> result_ok (job_status host_jobs (host_ledger true) host_session 0 sample_job (Host.restarted w)).1 = Some Interrupted.
Proof. vm_compute. by repeat split. Qed.
