(* ===== verification/Capacity.v ===== *)
(** * Capacity: waiting for the capacity of a session root

    Models, of [crates/vsift-application/src/job/run.rs], how a run reserves its
    recognizer threads ([admit_waiting]), how it waits for queued work to give
    capacity back, and how queued work does so at a chunk boundary
    ([QueuedGate]). A permit and a demand are held in the world until they are
    dropped. A wait of queued work has no end of its own: its loops are given the
    turns they may take, and answer [None] when they still wait after them. *)

From S2P Require Import Prelude.
From S2P Require Import Retry.
From S2P Require Import Admission.
From S2P Require Import Text.
From S2P Require Import Identity.
From S2P Require Import Transcribe.
From S2P Require Import JobStore.
From S2P Require Import JobCommit.
From S2P Require Import JobRun.
From S2P Require Import JobRecord.

(** The capacity of [RevisionStore], with the timer, the cancellation and the
    progress of a run. *)
Module CapacityPorts.
Record t {W : Type} := mk {
  take : Z -> Eff W SessionStorageError.t unit;
  take_queued : Z -> Eff W SessionStorageError.t unit;
  give_back : W -> W;
  others_waiting : W -> bool * W;
  demand_capacity : W -> bool * W;
  end_demand : W -> W;
  queued_work_holds : W -> bool * W;
  timer : RetryTimer.t W;
  is_cancelled : W -> bool * W;
  admission_waiting : Z -> W -> W;
  queued_work_waiting : Z -> W -> W
}.
Arguments t : clear implicits.
End CapacityPorts.

Definition saturating_duration (d : Duration) : Duration := Z.min DURATION_MAX d.

Section Capacity.
Context {W : Type} (job : OpaqueId JobId) (admission : AdmissionWait.t) (weight : Z) (ports : CapacityPorts.t W).

Let sleep := RetryTimer.sleep (CapacityPorts.timer ports).

Definition cancelled_while_waiting : JobRunError.t :=
  JobRunError.Asr job (AsrRunFailure.from (AsrFailure.at_ AsrStage.Planning AsrFailureReason.Cancelled)).

(** ** Waiting for queued work *)

Definition waited_for_queued (waits : AdmissionWaits.t) : AdmissionWaits.t :=
  AdmissionWaits.mk (saturating_duration (AdmissionWaits.waited waits + QUEUED_YIELD_POLL))
    (saturating_duration (AdmissionWaits.queued_spent waits + QUEUED_YIELD_POLL)) (AdmissionWaits.announced waits).

(** One turn of the loop of [for_queued_work]: whether a permit was taken, or
    [None] to go on. *)
Definition yield_turn (waits : AdmissionWaits.t) (w : W)
    : option (result bool JobRunError.t) * AdmissionWaits.t * W :=
  let w := sleep QUEUED_YIELD_POLL w in
  let waits := waited_for_queued waits in
  let '(cancelled, w) := CapacityPorts.is_cancelled ports w in
  if cancelled then (Some (Err cancelled_while_waiting), waits, w)
  else
    match CapacityPorts.take ports weight w with
    | (Ok _, w) => (Some (Ok true), waits, w)
    | (Err SessionStorageError.Busy, w) =>
        let '(holds, w) := CapacityPorts.queued_work_holds ports w in
        if negb holds || (QUEUED_YIELD_WAIT <=? AdmissionWaits.queued_spent waits) then (Some (Ok false), waits, w)
        else (None, waits, w)
    | (Err other, w) => (Some (Err (JobRunError.Storage other)), waits, w)
    end.

(** The loop; its last turn leaves it by itself ([yield_loop_enough]). *)
Fixpoint yield_loop (turns : nat) (waits : AdmissionWaits.t) (w : W) : result bool JobRunError.t * AdmissionWaits.t * W :=
  match yield_turn waits w with
  | (Some r, waits, w) => (r, waits, w)
  | (None, waits, w) =>
      match turns with
      | S turns => yield_loop turns waits w
      | O => (Ok false, waits, w)
      end
  end.

(** The polls left of [QUEUED_YIELD_WAIT]. *)
Definition yield_turns (waits : AdmissionWaits.t) : nat :=
  Z.to_nat (div_ceil (QUEUED_YIELD_WAIT - AdmissionWaits.queued_spent waits) QUEUED_YIELD_POLL).

Definition for_queued_work (waits : AdmissionWaits.t) (w : W) : result bool JobRunError.t * AdmissionWaits.t * W :=
  if QUEUED_YIELD_WAIT <=? AdmissionWaits.queued_spent waits then (Ok false, waits, w)
  else
    let '(demanded, w) := CapacityPorts.demand_capacity ports w in
    if negb demanded then (Ok false, waits, w)
    else
      let w := if AdmissionWaits.announced waits then w else CapacityPorts.queued_work_waiting ports weight w in
      let waits := AdmissionWaits.mk (AdmissionWaits.waited waits) (AdmissionWaits.queued_spent waits) true in
      let '(r, waits, w) := yield_loop (yield_turns waits) waits w in
      (r, waits, CapacityPorts.end_demand ports w).

(** ** Waiting for admission *)

Definition take_now : Eff W SessionStorageError.t unit := fun w =>
  match admission with
  | AdmissionWait.Queued =>
      let '(waiting, w) := CapacityPorts.others_waiting ports w in
      if waiting then (Err SessionStorageError.Busy, w) else CapacityPorts.take_queued ports weight w
  | AdmissionWait.Immediate | AdmissionWait.Bounded _ => CapacityPorts.take ports weight w
  end.

Inductive Turn := Over (r : result unit JobRunError.t) | Sleep (delay : Duration).

(** What a run does that was not admitted at once and that no queued work made
    room for. *)
Definition refused (polls : Z) (this_wait : Duration) (w : W) : Turn * W :=
  match admission with
  | AdmissionWait.Immediate => (Over (Err (JobRunError.Storage SessionStorageError.Busy)), w)
  | AdmissionWait.Queued => (Sleep QUEUED_ADMISSION_POLL, w)
  | AdmissionWait.Bounded _ =>
      let '(jitter, w) := RetryTimer.jitter (CapacityPorts.timer ports) w in
      match AdmissionWait.decide admission polls this_wait jitter with
      | PollAfter delay => (Sleep delay, w)
      | Admission.Busy retry_after => (Over (Err (JobRunError.AdmissionBusy job retry_after)), w)
      end
  end.

Definition admission_turn (polls : Z) (this_wait : Duration) (waits : AdmissionWaits.t) (w : W)
    : Turn * AdmissionWaits.t * W :=
  match take_now w with
  | (Ok _, w) => (Over (Ok tt), waits, w)
  | (Err SessionStorageError.Busy, w) =>
      let '(yielded, waits, w) := match admission with
                                  | AdmissionWait.Queued => (Ok false, waits, w)
                                  | AdmissionWait.Immediate | AdmissionWait.Bounded _ => for_queued_work waits w
                                  end in
      match yielded with
      | Err error => (Over (Err error), waits, w)
      | Ok true => (Over (Ok tt), waits, w)
      | Ok false => let '(turn, w) := refused polls this_wait w in (turn, waits, w)
      end
  | (Err other, w) => (Over (Err (JobRunError.Storage other)), waits, w)
  end.

(** One turn of the loop of [admit_waiting], its sleep with it. *)
Definition wait_turn (polls : Z) (this_wait : Duration) (waits : AdmissionWaits.t) (w : W) : Turn * AdmissionWaits.t * W :=
  match admission_turn polls this_wait waits w with
  | (Over r, waits, w) => (Over r, waits, w)
  | (Sleep delay, waits, w) =>
      let w := if polls =? 0 then CapacityPorts.admission_waiting ports weight w else w in
      let w := sleep delay w in
      let waits := AdmissionWaits.mk (saturating_duration (AdmissionWaits.waited waits + delay))
                     (AdmissionWaits.queued_spent waits) (AdmissionWaits.announced waits) in
      let '(cancelled, w) := CapacityPorts.is_cancelled ports w in
      (if cancelled then Over (Err cancelled_while_waiting) else Sleep delay, waits, w)
  end.

Fixpoint wait_turns (turns : nat) (polls : Z) (this_wait : Duration) (waits : AdmissionWaits.t) (w : W)
    : option (result unit JobRunError.t) * AdmissionWaits.t * W :=
  match wait_turn polls this_wait waits w with
  | (Over r, waits, w) => (Some r, waits, w)
  | (Sleep delay, waits, w) =>
      match turns with
      | S turns => wait_turns turns (saturating_u32 (polls + 1)) (saturating_duration (this_wait + delay)) waits w
      | O => (None, waits, w)
      end
  end.

Definition admit_waiting (turns : nat) (waits : AdmissionWaits.t) (w : W)
    : option (result unit JobRunError.t) * AdmissionWaits.t * W := wait_turns turns 0 0 waits w.

(** ** The gate of queued work *)

Definition gate_failure (reason : AsrFailureReason.t) : AsrFailure.t := AsrFailure.at_ AsrStage.AudioExtraction reason.

(** One turn of the loop that takes the permit back. *)
Definition take_back_turn (w : W) : option (result unit AsrFailure.t) * W :=
  let w := sleep QUEUED_ADMISSION_POLL w in
  let '(cancelled, w) := CapacityPorts.is_cancelled ports w in
  if cancelled then (Some (Err (gate_failure AsrFailureReason.Cancelled)), w)
  else
    let '(waiting, w) := CapacityPorts.others_waiting ports w in
    if waiting then (None, w)
    else
      match CapacityPorts.take_queued ports weight w with
      | (Ok _, w) => (Some (Ok tt), w)
      | (Err SessionStorageError.Busy, w) => (None, w)
      | (Err _, w) => (Some (Err (gate_failure AsrFailureReason.Busy)), w)
      end.

Fixpoint take_back (turns : nat) (w : W) : option (result unit AsrFailure.t) * W :=
  match take_back_turn w with
  | (Some r, w) => (Some r, w)
  | (None, w) => match turns with S turns => take_back turns w | O => (None, w) end
  end.

Definition before_chunk (turns : nat) (w : W) : option (result unit AsrFailure.t) * W :=
  let '(waiting, w) := CapacityPorts.others_waiting ports w in
  if waiting then take_back turns (CapacityPorts.give_back ports w) else (Some (Ok tt), w).
End Capacity.

(** ** What happened to the capacity *)

Inductive CapacityEvent :=
| Asked (waiting : bool)
| Took (queued : bool)
| GaveBack
| Demanded
| DemandEnded
| Slept (delay : Duration).

(** Of a log, the newest event first: the permits and demands held, and the time
    slept. *)
Fixpoint permits (l : list CapacityEvent) : Z :=
  match l with
  | [] => 0
  | Took _ :: l => permits l + 1
  | GaveBack :: l => permits l - 1
  | _ :: l => permits l
  end.

Fixpoint demands (l : list CapacityEvent) : Z :=
  match l with
  | [] => 0
  | Demanded :: l => demands l + 1
  | DemandEnded :: l => demands l - 1
  | _ :: l => demands l
  end.

Fixpoint slept (l : list CapacityEvent) : Z :=
  match l with
  | [] => 0
  | Slept delay :: l => slept l + delay
  | _ :: l => slept l
  end.

(** Queued work took capacity only right after it had found nobody waiting. *)
Fixpoint gives_way (l : list CapacityEvent) : Prop :=
  match l with
  | [] => True
  | Took true :: l => head l = Some (Asked false) /\ gives_way l
  | _ :: l => gives_way l
  end.

(** The log a session keeps of the calls. *)
Record capacity_laws {W} (ports : CapacityPorts.t W) (log : W -> list CapacityEvent) : Prop := {
  law_take : forall weight w, let '(r, w') := CapacityPorts.take ports weight w in
    log w' = if is_ok r then Took false :: log w else log w;
  law_take_queued : forall weight w, let '(r, w') := CapacityPorts.take_queued ports weight w in
    log w' = if is_ok r then Took true :: log w else log w;
  law_give_back : forall w, log (CapacityPorts.give_back ports w) = GaveBack :: log w;
  law_others : forall w, let '(waiting, w') := CapacityPorts.others_waiting ports w in log w' = Asked waiting :: log w;
  law_demand : forall w, let '(demanded, w') := CapacityPorts.demand_capacity ports w in
    log w' = if demanded : bool then Demanded :: log w else log w;
  law_end_demand : forall w, log (CapacityPorts.end_demand ports w) = DemandEnded :: log w;
  law_holds : forall w, log (CapacityPorts.queued_work_holds ports w).2 = log w;
  law_jitter : forall w, let '(jitter, w') := RetryTimer.jitter (CapacityPorts.timer ports) w in
    Jitter.typed jitter /\ log w' = log w;
  law_sleep : forall delay w, log (RetryTimer.sleep (CapacityPorts.timer ports) delay w) = Slept delay :: log w;
  law_cancelled : forall w, log (CapacityPorts.is_cancelled ports w).2 = log w;
  law_waiting : forall weight w, log (CapacityPorts.admission_waiting ports weight w) = log w;
  law_queued_waiting : forall weight w, log (CapacityPorts.queued_work_waiting ports weight w) = log w
}.

(** From one log to a later one: [p] permits and [d] demands more are held, [t]
    was slept, and queued work gave way. *)
Record goes_on (p d t : Z) (l l' : list CapacityEvent) : Prop := {
  on_permits : permits l' = permits l + p;
  on_demands : demands l' = demands l + d;
  on_slept : slept l' = slept l + t;
  on_way : gives_way l -> gives_way l'
}.

Lemma goes_on_here l : goes_on 0 0 0 l l.
Proof. by split; [lia..|]. Qed.

Lemma goes_on_trans p d t p' d' t' l l' l'' :
  goes_on p d t l l' -> goes_on p' d' t' l' l'' -> goes_on (p + p') (d + d') (t + t') l l''.
Proof. intros [] []. split; [lia..|auto]. Qed.

(** One event. *)
Definition goes_on_event (e : CapacityEvent) (p d t : Z) : Prop := forall l, goes_on p d t l (e :: l).

Lemma asked_on waiting : goes_on_event (Asked waiting) 0 0 0.
Proof. by split; [cbn; lia..|]. Qed.
Lemma took_on : goes_on_event (Took false) 1 0 0.
Proof. by split; [cbn; lia..|]. Qed.
Lemma gave_back_on : goes_on_event GaveBack (-1) 0 0.
Proof. by split; [cbn; lia..|]. Qed.
Lemma demanded_on : goes_on_event Demanded 0 1 0.
Proof. by split; [cbn; lia..|]. Qed.
Lemma demand_ended_on : goes_on_event DemandEnded 0 (-1) 0.
Proof. by split; [cbn; lia..|]. Qed.
Lemma slept_on delay : goes_on_event (Slept delay) 0 0 delay.
Proof. by split; [cbn; lia..|]. Qed.

(** Asking and, when nobody waits, taking. *)
Lemma took_queued_on l : goes_on 1 0 0 l (Took true :: Asked false :: l).
Proof. by split; [cbn; lia..|]. Qed.

(** [goes p d t]: [goes_on] with other names for its figures. *)
Lemma goes_on_eq p d t p' d' t' l l' : goes_on p d t l l' -> p = p' -> d = d' -> t = t' -> goes_on p' d' t' l l'.
Proof. by intros ? <- <- <-. Qed.

(** How many permits an answer holds. *)
Definition held_by {A E} (r : result A E) : Z := if is_ok r then 1 else 0.

Section CapacityLog.
Context {W : Type} (job : OpaqueId JobId) (admission : AdmissionWait.t) (weight : Z) (ports : CapacityPorts.t W)
  (log : W -> list CapacityEvent).
Context (Hlaws : capacity_laws ports log).

(** Waits that count polls of [QUEUED_YIELD_POLL]. *)
Definition poll_counted (waits : AdmissionWaits.t) : Prop :=
  0 <= AdmissionWaits.queued_spent waits <= QUEUED_YIELD_WAIT
  /\ (QUEUED_YIELD_POLL | AdmissionWaits.queued_spent waits)
  /\ AdmissionWaits.waited waits <= DURATION_MAX.

(** A wait of [queued] more for queued work and of [waited] more in all. *)
Definition waited_on (waited queued : Z) (waits waits' : AdmissionWaits.t) : Prop :=
  AdmissionWaits.waited waits' = Z.min DURATION_MAX (AdmissionWaits.waited waits + waited)
  /\ AdmissionWaits.queued_spent waits' = AdmissionWaits.queued_spent waits + queued.

(** What a turn of a loop that still waits, or is over, holds. *)
Definition held_after {E} (r : option (result bool E)) : Z := match r with Some (Ok true) => 1 | _ => 0 end.

Lemma yield_turn_on waits w :
  poll_counted waits -> AdmissionWaits.queued_spent waits < QUEUED_YIELD_WAIT ->
  let '(r, waits', w') := yield_turn job weight ports waits w in
  goes_on (held_after r) 0 QUEUED_YIELD_POLL (log w) (log w')
  /\ waited_on QUEUED_YIELD_POLL QUEUED_YIELD_POLL waits waits' /\ poll_counted waits'
  /\ (r = None -> AdmissionWaits.queued_spent waits' < QUEUED_YIELD_WAIT).
Proof.
  intros (Hs & Hd & Hm) Hlt. unfold yield_turn.
  assert (Hw : waited_on QUEUED_YIELD_POLL QUEUED_YIELD_POLL waits (waited_for_queued waits)
               /\ poll_counted (waited_for_queued waits)).
  { assert (Hle : AdmissionWaits.queued_spent waits + QUEUED_YIELD_POLL <= QUEUED_YIELD_WAIT).
    { destruct Hd as [k Hk]. unfold QUEUED_YIELD_WAIT, QUEUED_YIELD_POLL, from_secs, from_millis in *. lia. }
    assert (HP : 0 < QUEUED_YIELD_POLL) by concrete. assert (HM : QUEUED_YIELD_WAIT <= DURATION_MAX) by concrete.
    unfold waited_on, poll_counted, waited_for_queued, saturating_duration. cbn.
    rewrite (Z.min_r DURATION_MAX (AdmissionWaits.queued_spent waits + _)) by lia.
    split; [done|]. split; [lia|]. split; [by apply Z.divide_add_r, Z.divide_refl|lia]. }
  set (waits' := waited_for_queued waits) in *. destruct Hw as [Hw Hp].
  pose proof (law_sleep _ _ Hlaws QUEUED_YIELD_POLL w) as H1.
  set (w1 := RetryTimer.sleep _ _ w) in *.
  pose proof (slept_on QUEUED_YIELD_POLL (log w)) as Hon. rewrite <- H1 in Hon.
  assert (Hend : forall (r : option (result bool JobRunError.t)) w', goes_on (held_after r) 0 QUEUED_YIELD_POLL (log w) (log w') ->
    (r = None -> AdmissionWaits.queued_spent waits' < QUEUED_YIELD_WAIT) ->
    goes_on (held_after r) 0 QUEUED_YIELD_POLL (log w) (log w')
    /\ waited_on QUEUED_YIELD_POLL QUEUED_YIELD_POLL waits waits' /\ poll_counted waits'
    /\ (r = None -> AdmissionWaits.queued_spent waits' < QUEUED_YIELD_WAIT)) by done.
  pose proof (law_cancelled _ _ Hlaws w1) as H2. destruct (CapacityPorts.is_cancelled ports w1) as [[] w2]; cbn [snd] in H2.
  { apply Hend; [by rewrite H2|done]. }
  pose proof (law_take _ _ Hlaws weight w2) as H3. rewrite H2 in H3.
  destruct (CapacityPorts.take ports weight w2) as [[u|e] w3]; cbn [is_ok] in H3.
  { apply Hend; [|done]. rewrite H3. eapply goes_on_eq; [eapply goes_on_trans; [exact Hon|apply took_on]|..]; cbn [held_after]; lia. }
  rewrite <- H3 in Hon. destruct e; try by apply Hend.
  pose proof (law_holds _ _ Hlaws w3) as H4. destruct (CapacityPorts.queued_work_holds ports w3) as [holds w4]; cbn [snd] in H4.
  destruct (negb holds || _) eqn:E; (apply Hend; [by rewrite H4|]); [done|]. bool_prop. done.
Qed.

Lemma yield_loop_on turns waits w :
  poll_counted waits -> AdmissionWaits.queued_spent waits < QUEUED_YIELD_WAIT ->
  let '(r, waits', w') := yield_loop job weight ports turns waits w in
  exists t, goes_on (held_after (Some r)) 0 t (log w) (log w') /\ 0 <= t /\ waited_on t t waits waits' /\ poll_counted waits'.
Proof.
  assert (HP : 0 < QUEUED_YIELD_POLL) by concrete.
  revert waits w. induction turns as [|turns IH]; intros waits w Hp Hlt; cbn [yield_loop];
    pose proof (yield_turn_on waits w Hp Hlt) as Ht;
    destruct (yield_turn job weight ports waits w) as [[[r|] waits1] w1]; destruct Ht as (Hon & Hw & Hp1 & Hgo);
    try by (exists QUEUED_YIELD_POLL; split; [exact Hon|]; split; [lia|]; split).
  specialize (IH waits1 w1 Hp1 (Hgo eq_refl)). destruct (yield_loop job weight ports turns waits1 w1) as [[r waits2] w2].
  destruct IH as (t & Hon2 & Ht & [Hw2 Hs2] & Hp2). exists (QUEUED_YIELD_POLL + t).
  split; [exact (goes_on_trans _ _ _ _ _ _ _ _ _ Hon Hon2)|]. split; [lia|]. split; [|exact Hp2].
  destruct Hw as [Hw1 Hs1]. split; lia.
Qed.

(** The turns are enough: a loop that may take more is the same. *)
Lemma yield_loop_enough turns waits w :
  poll_counted waits -> AdmissionWaits.queued_spent waits < QUEUED_YIELD_WAIT -> (yield_turns waits <= S turns)%nat ->
  yield_loop job weight ports (S turns) waits w = yield_loop job weight ports turns waits w.
Proof.
  revert waits w. induction turns as [|turns IH]; intros waits w Hp Hlt Hle; pose proof (yield_turn_on waits w Hp Hlt) as Ht.
  all: cbn [yield_loop]; destruct (yield_turn job weight ports waits w) as [[[r|] waits1] w1]; [done|].
  all: destruct Ht as (_ & [_ Hs1] & Hp1 & Hgo); specialize (Hgo eq_refl).
  all: assert (HP : 0 < QUEUED_YIELD_POLL) by concrete.
  all: unfold yield_turns in *.
  - exfalso. assert (Hd : div_ceil (QUEUED_YIELD_WAIT - AdmissionWaits.queued_spent waits) QUEUED_YIELD_POLL <= 1) by lia.
    apply div_ceil_spec in Hd; lia.
  - apply IH; [done..|].
    assert (Hd : div_ceil (QUEUED_YIELD_WAIT - AdmissionWaits.queued_spent waits) QUEUED_YIELD_POLL <= Z.of_nat (S (S turns))) by lia.
    apply div_ceil_spec in Hd; [|done].
    assert (Hd' : div_ceil (QUEUED_YIELD_WAIT - AdmissionWaits.queued_spent waits1) QUEUED_YIELD_POLL <= Z.of_nat (S turns)).
    { apply div_ceil_spec; [done|]. lia. }
    lia.
Qed.

Lemma waited_not waits : poll_counted waits -> waited_on 0 0 waits waits.
Proof. intros (_ & _ & Hm). split; lia. Qed.

Lemma for_queued_work_on waits w :
  poll_counted waits ->
  let '(r, waits', w') := for_queued_work job weight ports waits w in
  exists t, goes_on (held_after (Some r)) 0 t (log w) (log w') /\ 0 <= t /\ waited_on t t waits waits' /\ poll_counted waits'.
Proof.
  intros Hp. unfold for_queued_work.
  assert (Hnot : forall w', log w' = log w ->
    exists t, goes_on 0 0 t (log w) (log w') /\ 0 <= t /\ waited_on t t waits waits /\ poll_counted waits).
  { intros w' ->. exists 0. split; [apply goes_on_here|]. split; [done|]. split; [by apply waited_not|done]. }
  destruct (Z.leb_spec QUEUED_YIELD_WAIT (AdmissionWaits.queued_spent waits)) as [?|Hlt]; [by apply Hnot|].
  pose proof (law_demand _ _ Hlaws w) as H1. destruct (CapacityPorts.demand_capacity ports w) as [[] w1]; cbn [negb]; [|by apply Hnot].
  set (w2 := if AdmissionWaits.announced waits then w1 else _).
  assert (H2 : log w2 = Demanded :: log w).
  { rewrite <- H1. unfold w2. destruct (AdmissionWaits.announced waits); [done|]. apply law_queued_waiting, Hlaws. }
  set (told := AdmissionWaits.mk _ _ true).
  pose proof (yield_loop_on (yield_turns told) told w2 Hp Hlt) as Hloop.
  destruct (yield_loop job weight ports (yield_turns told) told w2) as [[r waits'] w3].
  destruct Hloop as (t & Hon & Ht & Hw & Hp'). exists t. split; [|by split].
  rewrite H2 in Hon. rewrite (law_end_demand _ _ Hlaws w3).
  eapply goes_on_eq; [eapply goes_on_trans; [apply demanded_on|eapply goes_on_trans; [exact Hon|apply demand_ended_on]]|..]; lia.
Qed.

(** A wait for queued work is never what [AdmissionBusy] tells of. *)
Definition plain {A} (r : result A JobRunError.t) : Prop :=
  match r with Err (JobRunError.AdmissionBusy _ _) => False | _ => True end.

Lemma yield_loop_plain turns waits w : plain (yield_loop job weight ports turns waits w).1.1.
Proof.
  assert (Hturn : forall waits w, match (yield_turn job weight ports waits w).1.1 with Some r => plain r | None => True end).
  { clear waits w. intros waits w. unfold yield_turn. destruct (CapacityPorts.is_cancelled _ _) as [[] w2]; [done|].
    destruct (CapacityPorts.take _ _ _) as [[u|[]] w3]; try done.
    destruct (CapacityPorts.queued_work_holds _ _) as [holds w4]. by destruct (negb holds || _). }
  revert waits w. induction turns as [|turns IH]; intros waits w; cbn [yield_loop]; specialize (Hturn waits w);
    by destruct (yield_turn job weight ports waits w) as [[[r|] waits1] w1].
Qed.

Lemma for_queued_work_plain waits w : plain (for_queued_work job weight ports waits w).1.1.
Proof.
  unfold for_queued_work. destruct (_ <=? _); [done|]. destruct (CapacityPorts.demand_capacity _ _) as [[] w1]; [|done].
  cbn [negb]. set (told := AdmissionWaits.mk _ _ true).
  pose proof (yield_loop_plain (yield_turns told) told (if AdmissionWaits.announced waits then w1
    else CapacityPorts.queued_work_waiting ports weight w1)) as H.
  by destruct (yield_loop job weight ports _ told _) as [[r waits'] w3].
Qed.

Lemma take_now_on w : let '(r, w') := take_now admission weight ports w in goes_on (held_by r) 0 0 (log w) (log w').
Proof.
  assert (Htake : let '(r, w') := CapacityPorts.take ports weight w in goes_on (held_by r) 0 0 (log w) (log w')).
  { pose proof (law_take _ _ Hlaws weight w) as H1. destruct (CapacityPorts.take ports weight w) as [[u|e] w1]; cbn [is_ok] in H1;
      rewrite H1; [apply took_on|apply goes_on_here]. }
  unfold take_now. destruct admission; [exact Htake|exact Htake|].
  pose proof (law_others _ _ Hlaws w) as H1. destruct (CapacityPorts.others_waiting ports w) as [[] w1].
  { rewrite H1. apply asked_on. }
  pose proof (law_take_queued _ _ Hlaws weight w1) as H2. destruct (CapacityPorts.take_queued ports weight w1) as [[u|e] w2];
    cbn [is_ok] in H2; rewrite H2, H1; [apply took_queued_on|apply asked_on].
Qed.

(** The time a run may sleep in one wait for admission; queued work has no such
    limit. *)
Definition wait_limit : option Duration :=
  match admission with
  | AdmissionWait.Immediate => Some 0
  | AdmissionWait.Bounded budget => Some (AdmissionBudget.duration budget)
  | AdmissionWait.Queued => None
  end.

Definition admission_wf : Prop :=
  match admission with AdmissionWait.Bounded budget => AdmissionBudget.wf budget | _ => True end.
Context (Hwf : admission_wf).

(** What a turn ends with after [this_wait]: a sleep is within the limit, and at
    least [POLL_FLOOR] unless it ends at it; and a run is told [AdmissionBusy]
    only at the limit. *)
Definition turn_within (this_wait : Duration) (turn : Turn) : Prop :=
  match turn with
  | Sleep delay =>
      0 <= delay /\ forall limit, wait_limit = Some limit ->
        delay <= limit - this_wait /\ Z.min POLL_FLOOR (limit - this_wait) <= delay /\ this_wait < limit
  | Over (Err (JobRunError.AdmissionBusy _ _)) => wait_limit = Some this_wait
  | Over _ => True
  end.

Definition held_by_turn (turn : Turn) : Z := match turn with Over (Ok _) => 1 | _ => 0 end.

Lemma refused_on polls this_wait w :
  0 <= polls -> 0 <= this_wait -> (forall limit, wait_limit = Some limit -> this_wait <= limit) ->
  let '(turn, w') := refused job admission ports polls this_wait w in
  log w' = log w /\ held_by_turn turn = 0 /\ turn_within this_wait turn.
Proof.
  intros Hp Hw Hl. unfold refused, turn_within, wait_limit, admission_wf in *. destruct admission as [|budget|].
  - by split.
  - pose proof (law_jitter _ _ Hlaws w) as H1. destruct (RetryTimer.jitter _ w) as [jitter w1]. destruct H1 as [Hj H1].
    specialize (Hl _ eq_refl). rewrite bounded_decide by done. cbv zeta.
    destruct (Z.eqb_spec (AdmissionBudget.duration budget - this_wait) 0) as [E|E].
    { split; [exact H1|]. split; [done|]. f_equal. lia. }
    split; [exact H1|]. split; [done|]. assert (HF : 0 < POLL_FLOOR) by concrete.
    split; [lia|]. intros limit [= <-]. lia.
  - split; [done|]. split; [done|]. split; [concrete|done].
Qed.

Lemma admission_turn_on polls this_wait waits w :
  0 <= polls -> 0 <= this_wait -> (forall limit, wait_limit = Some limit -> this_wait <= limit) -> poll_counted waits ->
  let '(turn, waits', w') := admission_turn job admission weight ports polls this_wait waits w in
  exists q, goes_on (held_by_turn turn) 0 q (log w) (log w') /\ 0 <= q /\ waited_on q q waits waits' /\ poll_counted waits'
    /\ turn_within this_wait turn.
Proof.
  intros Hpolls Hw Hl Hp. unfold admission_turn. pose proof (take_now_on w) as Hnow.
  destruct (take_now admission weight ports w) as [[u|e] w1]; cbn [held_by is_ok] in Hnow.
  { exists 0. split; [exact Hnow|]. split; [done|]. split; [by apply waited_not|]. by split. }
  assert (Hyield : forall waits1 w2 yielded q,
    goes_on (held_after (Some yielded)) 0 q (log w1) (log w2) -> 0 <= q -> waited_on q q waits waits1 -> poll_counted waits1 ->
    plain yielded ->
    let '(turn, waits', w') :=
      match yielded with
      | Err error => (Over (Err error), waits1, w2)
      | Ok true => (Over (Ok tt), waits1, w2)
      | Ok false => let '(turn, w') := refused job admission ports polls this_wait w2 in (turn, waits1, w')
      end in
    exists q, goes_on (held_by_turn turn) 0 q (log w) (log w') /\ 0 <= q /\ waited_on q q waits waits' /\ poll_counted waits'
      /\ turn_within this_wait turn).
  { intros waits1 w2 yielded q Hon Hq Hw1 Hp1 Herr. pose proof (goes_on_trans _ _ _ _ _ _ _ _ _ Hnow Hon) as Hon2.
    destruct yielded as [[]|error]; cbn [held_after] in Hon2.
    - exists q. split; [exact Hon2|]. by repeat (split; [done|]).
    - pose proof (refused_on polls this_wait w2 Hpolls Hw Hl) as Hr.
      destruct (refused job admission ports polls this_wait w2) as [turn w3]. destruct Hr as (H3 & -> & Ht).
      exists q. rewrite H3. split; [exact Hon2|]. by repeat (split; [done|]).
    - exists q. split; [exact Hon2|]. repeat (split; [done|]). by destruct error. }
  destruct e; try by (exists 0; split; [exact Hnow|]; split; [done|]; split; [by apply waited_not|]; split).
  destruct admission eqn:Ea.
  3:{ by apply (Hyield waits w1 (Ok false) 0); [apply goes_on_here| |apply waited_not|..]. }
  all: pose proof (for_queued_work_on waits w1 Hp) as Hq; pose proof (for_queued_work_plain waits w1) as Herr.
  all: destruct (for_queued_work job weight ports waits w1) as [[yielded waits1] w2].
  all: destruct Hq as (q & Hon & Hq & Hw1 & Hp1); exact (Hyield waits1 w2 yielded q Hon Hq Hw1 Hp1 Herr).
Qed.

Lemma wait_turn_on polls this_wait waits w :
  0 <= polls -> 0 <= this_wait -> (forall limit, wait_limit = Some limit -> this_wait <= limit) -> poll_counted waits ->
  let '(turn, waits', w') := wait_turn job admission weight ports polls this_wait waits w in
  exists q s, goes_on (held_by_turn turn) 0 (q + s) (log w) (log w') /\ 0 <= q /\ 0 <= s
    /\ waited_on (q + s) q waits waits' /\ poll_counted waits'
    /\ (forall limit, wait_limit = Some limit -> this_wait + s <= limit)
    /\ match turn with
       | Sleep delay => s = delay /\ forall limit, wait_limit = Some limit -> Z.min POLL_FLOOR (limit - this_wait) <= s /\ this_wait < limit
       | Over (Err (JobRunError.AdmissionBusy _ _)) => wait_limit = Some (this_wait + s)
       | Over _ => True
       end.
Proof.
  intros Hpolls Hw Hl Hp. unfold wait_turn. pose proof (admission_turn_on polls this_wait waits w Hpolls Hw Hl Hp) as Ht.
  destruct (admission_turn job admission weight ports polls this_wait waits w) as [[[r|delay] waits1] w1];
    destruct Ht as (q & Hon & Hq & [Hw1 Hs1] & Hp1 & Ht).
  { exists q, 0. rewrite !Z.add_0_r. split; [exact Hon|]. do 2 (split; [done|]). split; [by split|]. split; [exact Hp1|].
    split; [intros limit Hlim; specialize (Hl _ Hlim); lia|]. exact Ht. }
  cbn [turn_within held_by_turn] in *. destruct Ht as [Hd Ht].
  set (w2 := if polls =? 0 then _ else w1).
  assert (H2 : log w2 = log w1) by (unfold w2; destruct (polls =? 0); [apply law_waiting, Hlaws|done]).
  pose proof (law_sleep _ _ Hlaws delay w2) as H3. set (w3 := RetryTimer.sleep _ delay w2) in *.
  pose proof (goes_on_trans _ _ _ _ _ _ _ _ _ Hon (slept_on delay (log w1))) as Hon3. rewrite <- H2, <- H3 in Hon3.
  set (waits2 := AdmissionWaits.mk _ _ _).
  pose proof (law_cancelled _ _ Hlaws w3) as H4. destruct (CapacityPorts.is_cancelled ports w3) as [cancelled w4]; cbn [snd] in H4.
  exists q, delay. rewrite H4. split; [by destruct cancelled|]. do 2 (split; [done|]).
  destruct Hp1 as (Hp1 & Hp2 & Hp3).
  split; [unfold waits2, saturating_duration; split; cbn; lia|].
  split; [unfold waits2, saturating_duration, poll_counted; cbn; by repeat (split; [done|]); lia|].
  split; [intros limit Hlim; specialize (Ht _ Hlim); lia|]. destruct cancelled; [done|]. split; [done|].
  intros limit Hlim. by destruct (Ht _ Hlim) as (? & ? & ?).
Qed.

(** What an answer that may be pending holds. *)
Definition held_answer {A E} (answer : option (result A E)) : Z := match answer with Some (Ok _) => 1 | _ => 0 end.

Lemma wait_turns_on turns polls this_wait waits w :
  0 <= polls -> 0 <= this_wait -> (forall limit, wait_limit = Some limit -> this_wait <= limit) -> poll_counted waits ->
  let '(answer, waits', w') := wait_turns job admission weight ports turns polls this_wait waits w in
  exists q s, goes_on (held_answer answer) 0 (q + s) (log w) (log w') /\ 0 <= q /\ 0 <= s
    /\ waited_on (q + s) q waits waits' /\ poll_counted waits'
    /\ (forall limit, wait_limit = Some limit -> this_wait + s <= limit)
    /\ match answer with
       | None => forall limit, wait_limit = Some limit -> this_wait < limit /\ Z.of_nat turns * POLL_FLOOR <= s
       | Some (Err (JobRunError.AdmissionBusy _ _)) => wait_limit = Some (this_wait + s)
       | Some _ => True
       end.
Proof.
  revert polls this_wait waits w. induction turns as [|turns IH]; intros polls this_wait waits w Hpolls Hw Hl Hp;
    cbn [wait_turns]; pose proof (wait_turn_on polls this_wait waits w Hpolls Hw Hl Hp) as Ht;
    destruct (wait_turn job admission weight ports polls this_wait waits w) as [[[r|delay] waits1] w1];
    destruct Ht as (q & s & Hon & Hq & Hs & Hw1 & Hp1 & Hl1 & Ht).
  1, 3: exists q, s; split; [by destruct r as [[]|]|]; do 5 (split; [done|]); exact Ht.
  - exists q, s. split; [exact Hon|]. do 5 (split; [done|]). destruct Ht as [-> Ht].
    intros limit Hlim. destruct (Ht _ Hlim) as [_ Hlt]. split; [exact Hlt|lia].
  - destruct Ht as [-> Ht]. assert (HM : MAX_ADMISSION_WAIT <= DURATION_MAX) by concrete.
    assert (Hsat : forall limit, wait_limit = Some limit -> saturating_duration (this_wait + delay) = this_wait + delay).
    { intros limit Hlim. specialize (Hl1 _ Hlim). unfold wait_limit, admission_wf, AdmissionBudget.wf, saturating_duration in *.
      destruct admission; [injection Hlim as <-; unfold DURATION_MAX, U64_MAX; lia|injection Hlim as <-; lia|done]. }
    specialize (IH (saturating_u32 (polls + 1)) (saturating_duration (this_wait + delay)) waits1 w1 ltac:(ulia)
      ltac:(unfold saturating_duration, DURATION_MAX, U64_MAX; lia)
      ltac:(intros limit Hlim; rewrite (Hsat _ Hlim); by apply Hl1) Hp1).
    destruct (wait_turns job admission weight ports turns _ _ waits1 w1) as [[answer waits2] w2].
    destruct IH as (q2 & s2 & Hon2 & Hq2 & Hs2 & [Hw2 Hs2'] & Hp2 & Hl2 & Hlast). destruct Hw1 as [Hw1 Hs1].
    exists (q + q2), (delay + s2).
    split; [eapply goes_on_eq; [exact (goes_on_trans _ _ _ _ _ _ _ _ _ Hon Hon2)|..]; cbn [held_by_turn]; lia|].
    split; [lia|]. split; [lia|]. split; [split; lia|]. split; [exact Hp2|].
    split; [intros limit Hlim; specialize (Hl2 _ Hlim); rewrite (Hsat _ Hlim) in Hl2; lia|].
    destruct answer as [[|[]]|]; try done.
    + destruct wait_limit as [limit|] eqn:Hlim; [|done]. rewrite (Hsat _ eq_refl) in Hlast. rewrite Hlast. f_equal. lia.
    + intros limit Hlim. specialize (Hlast _ Hlim). destruct (Ht _ Hlim) as [Hfloor Hlt]. specialize (Hl2 _ Hlim).
      rewrite (Hsat _ Hlim) in Hlast. destruct Hlast as [Hlt2 Hlast]. split; [exact Hlt|]. lia.
Qed.

(** One turn more than the longest wait has floors. *)
Definition ADMISSION_TURNS : nat := Z.to_nat (MAX_ADMISSION_WAIT / POLL_FLOOR + 1).

Lemma admission_turns : MAX_ADMISSION_WAIT < Z.of_nat ADMISSION_TURNS * POLL_FLOOR.
Proof. unfold ADMISSION_TURNS. rewrite Z2Nat.id by concrete. concrete. Qed.

(** What a wait for admission does, for a run that is not queued work. *)
Lemma admit_waiting_on limit waits w :
  wait_limit = Some limit -> poll_counted waits ->
  let '(answer, waits', w') := admit_waiting job admission weight ports ADMISSION_TURNS waits w in
  exists r q s, answer = Some r /\ goes_on (held_by r) 0 (q + s) (log w) (log w')
    /\ 0 <= q /\ 0 <= s <= limit /\ waited_on (q + s) q waits waits' /\ poll_counted waits'
    /\ (forall j d, r = Err (JobRunError.AdmissionBusy j d) -> s = limit).
Proof.
  intros Hlim Hp. unfold admit_waiting. assert (HM : 0 <= MAX_ADMISSION_WAIT) by concrete.
  pose proof admission_turns as HT.
  assert (Hlimit : 0 <= limit <= MAX_ADMISSION_WAIT).
  { unfold wait_limit, admission_wf, AdmissionBudget.wf in *. destruct admission; [injection Hlim as <-; lia|injection Hlim as <-; lia|done]. }
  pose proof (wait_turns_on ADMISSION_TURNS 0 0 waits w ltac:(done) ltac:(done) ltac:(intros l E; rewrite Hlim in E; injection E as <-; lia) Hp) as H.
  destruct (wait_turns job admission weight ports ADMISSION_TURNS 0 0 waits w) as [[answer waits'] w'].
  destruct H as (q & s & Hon & Hq & Hs & Hw & Hp' & Hl & Hlast). specialize (Hl _ Hlim).
  destruct answer as [r|]; [|destruct (Hlast _ Hlim); lia].
  exists r, q, s. split; [done|]. split; [by destruct r|]. split; [done|]. split; [lia|]. split; [done|]. split; [done|].
  intros j d ->. rewrite Hlim in Hlast. injection Hlast. lia.
Qed.

Lemma take_back_on turns w :
  let '(answer, w') := take_back weight ports turns w in
  (exists t, goes_on (held_answer answer) 0 t (log w) (log w')) /\ log w `suffix_of` log w'.
Proof.
  assert (Hturn : forall w, let '(answer, w') := take_back_turn weight ports w in
    goes_on (held_answer answer) 0 QUEUED_ADMISSION_POLL (log w) (log w') /\ log w `suffix_of` log w').
  { clear w. intros w. unfold take_back_turn. pose proof (law_sleep _ _ Hlaws QUEUED_ADMISSION_POLL w) as H1.
    set (w1 := RetryTimer.sleep _ _ w) in *. pose proof (slept_on QUEUED_ADMISSION_POLL (log w)) as Hon. rewrite <- H1 in Hon.
    assert (Hs : log w `suffix_of` log w1) by (rewrite H1; by apply suffix_cons_r).
    pose proof (law_cancelled _ _ Hlaws w1) as H2. destruct (CapacityPorts.is_cancelled ports w1) as [[] w2]; cbn [snd] in H2.
    { by rewrite H2. }
    rewrite <- H2 in Hon, Hs. pose proof (law_others _ _ Hlaws w2) as H3.
    destruct (CapacityPorts.others_waiting ports w2) as [waiting w3].
    pose proof (goes_on_trans _ _ _ _ _ _ _ _ _ Hon (asked_on waiting (log w2))) as Hon3. rewrite <- H3 in Hon3.
    assert (Hs3 : log w `suffix_of` log w3) by (rewrite H3; by apply suffix_cons_r).
    destruct waiting; [by split|]. pose proof (law_take_queued _ _ Hlaws weight w3) as H4.
    destruct (CapacityPorts.take_queued ports weight w3) as [[[]|e] w4]; cbn [is_ok] in H4.
    - rewrite H4. split; [|by apply suffix_cons_r]. rewrite H3.
      exact (goes_on_trans _ _ _ _ _ _ _ _ _ Hon (took_queued_on (log w2))).
    - rewrite <- H4 in Hon3, Hs3. by destruct e. }
  revert w. induction turns as [|turns IH]; intros w; cbn [take_back]; specialize (Hturn w);
    destruct (take_back_turn weight ports w) as [[r|] w1]; destruct Hturn as [Hon Hs].
  1, 2, 3: by split; [exists QUEUED_ADMISSION_POLL|].
  specialize (IH w1). destruct (take_back weight ports turns w1) as [answer w2]. destruct IH as [[t Hon2] Hs2].
  split; [|by etransitivity]. exists (QUEUED_ADMISSION_POLL + t). exact (goes_on_trans _ _ _ _ _ _ _ _ _ Hon Hon2).
Qed.
End CapacityLog.

Section MoreTurns.
Context {W : Type} (job : OpaqueId JobId) (admission : AdmissionWait.t) (weight : Z) (ports : CapacityPorts.t W).

(** An answer does not depend on the turns that were allowed. *)
Lemma wait_turns_more turns more polls this_wait waits w r waits' w' :
  (turns <= more)%nat ->
  wait_turns job admission weight ports turns polls this_wait waits w = (Some r, waits', w') ->
  wait_turns job admission weight ports more polls this_wait waits w = (Some r, waits', w').
Proof.
  revert more polls this_wait waits w. induction turns as [|turns IH]; intros [|more] polls this_wait waits w Hle; [done| |lia|];
    cbn [wait_turns]; destruct (wait_turn _ _ _ _ _ _ _ _) as [[[r'|delay] waits1] w1]; try done.
  apply IH. lia.
Qed.

Lemma take_back_more turns more w r w' :
  (turns <= more)%nat ->
  take_back weight ports turns w = (Some r, w') -> take_back weight ports more w = (Some r, w').
Proof.
  revert more w. induction turns as [|turns IH]; intros [|more] w Hle; [done| |lia|];
    cbn [take_back]; destruct (take_back_turn _ _ _) as [[r'|] w1]; try done.
  apply IH. lia.
Qed.
End MoreTurns.

(** A run that is not queued work waits for the capacity of its root only so
    long. It always ends its wait, within 6,001 turns; it sleeps at most its
    budget, which is nothing for one that does not wait, and beside that, over
    all its attempts, at most two minutes for queued work to give capacity back.
    The waits it reports are the time it slept. Every demand it makes of queued
    work is taken back, and it holds one permit more when it is admitted and none
    when it is refused; it is told that the root is busy only once the budget is
    spent to the nanosecond.
    Claim C22. *)
Theorem capacity_wait_bounded {W} job admission weight (ports : CapacityPorts.t W) log limit waits w :
  capacity_laws ports log -> admission_wf admission -> wait_limit admission = Some limit -> poll_counted waits ->
  let '(answer, waits', w') := admit_waiting job admission weight ports ADMISSION_TURNS waits w in
  exists r queued own,
    answer = Some r
    /\ (permits (log w') = permits (log w) + (if is_ok r then 1 else 0) /\ demands (log w') = demands (log w))
    /\ slept (log w') = slept (log w) + (queued + own)
    /\ (0 <= queued /\ 0 <= own <= limit)
    /\ (AdmissionWaits.waited waits' = Z.min DURATION_MAX (AdmissionWaits.waited waits + (queued + own))
        /\ AdmissionWaits.queued_spent waits' = AdmissionWaits.queued_spent waits + queued /\ poll_counted waits')
    /\ (forall j d, r = Err (JobRunError.AdmissionBusy j d) -> own = limit).
Proof.
  intros Hlaws Hwf Hlimit Hp. pose proof (admit_waiting_on job admission weight ports log Hlaws Hwf limit waits w Hlimit Hp) as H.
  destruct (admit_waiting _ _ _ _ _ _ _) as [[answer waits'] w'].
  destruct H as (r & q & s & -> & [Hpermits Hdemands Hslept _] & Hq & Hs & [Hw Hqs] & Hp' & Hbusy).
  exists r, q, s. split; [done|]. split; [split; [exact Hpermits|lia]|]. split; [lia|]. by repeat (split; [done|]).
Qed.

(** A root whose capacity is free from [free_from] on, for whose capacity others
    wait until [waiting_until], and on which no queued work can be asked to yield. *)
Module Root.
Record t := mk { time : Duration; log : list CapacityEvent; free_from : Duration; waiting_until : Duration }.

Definition note (e : CapacityEvent) (w : t) : t := mk (time w) (e :: log w) (free_from w) (waiting_until w).

Definition take (queued : bool) (w : t) : result unit SessionStorageError.t * t :=
  if free_from w <=? time w then (Ok tt, note (Took queued) w) else (Err SessionStorageError.Busy, w).

Definition sleep (d : Duration) (w : t) : t := mk (time w + d) (Slept d :: log w) (free_from w) (waiting_until w).

Definition others_waiting (w : t) : bool * t := let waiting := time w <? waiting_until w in (waiting, note (Asked waiting) w).
End Root.

Definition root_ports : CapacityPorts.t Root.t :=
  CapacityPorts.mk _ (fun _ => Root.take false) (fun _ => Root.take true) (Root.note GaveBack) Root.others_waiting
    (fun w => (false, w)) (Root.note DemandEnded) (fun w => (false, w))
    (RetryTimer.mk _ (fun w => (Jitter.FULL, w)) Root.sleep) (fun w => (false, w)) (fun _ w => w) (fun _ w => w).

Lemma root_laws : capacity_laws root_ports Root.log.
Proof.
  constructor; try (by intros); cbn.
  - intros _ w. unfold Root.take. by destruct (_ <=? _).
  - intros _ w. unfold Root.take. by destruct (_ <=? _).
Qed.

Definition waiting_job : OpaqueId JobId := mkOpaqueId (literal "job_0123456789abcdef").
Definition tenth_of_a_second : AdmissionWait.t := AdmissionWait.Bounded (AdmissionBudget.mk (from_millis 100)).

(** A run that may wait 100 milliseconds for a root that is busy for a second. *)
Definition busy_wait : option (result unit JobRunError.t) * AdmissionWaits.t * Root.t :=
  admit_waiting waiting_job tenth_of_a_second 4 root_ports ADMISSION_TURNS AdmissionWaits.default
    (Root.mk 0 [] (from_secs 1) 0).

Lemma capacity_wait_bounded_witness :
  busy_wait.1.1 = Some (Err (JobRunError.AdmissionBusy waiting_job ADMISSION_RETRY_AFTER))
  /\ Root.log busy_wait.2 = [Slept (from_millis 51); Slept (from_millis 49)]
  /\ exists queued own, slept (Root.log busy_wait.2) = queued + own /\ own = from_millis 100.
Proof.
  pose proof (capacity_wait_bounded waiting_job tenth_of_a_second 4 root_ports Root.log (from_millis 100)
    AdmissionWaits.default (Root.mk 0 [] (from_secs 1) 0) root_laws) as H.
  specialize (H ltac:(concrete) eq_refl ltac:(split; [concrete|]; split; [by exists 0|concrete])).
  fold busy_wait in H.
  assert (E : busy_wait.1.1 = Some (Err (JobRunError.AdmissionBusy waiting_job ADMISSION_RETRY_AFTER))) by (vm_compute; reflexivity).
  split; [exact E|]. split; [vm_compute; reflexivity|].
  destruct busy_wait as [[answer waits'] w']. cbn [fst snd] in *.
  destruct H as (r & queued & own & Hr & _ & Hslept & _ & _ & Hbusy). exists queued, own. split; [exact Hslept|].
  rewrite Hr in E. injection E as E. exact (Hbusy _ _ E).
Defined.

(** Queued work gives way. It never takes capacity but right after it found that
    nobody waits for it, neither when it is admitted nor at a chunk boundary. At
    a chunk boundary it goes on at once when nobody waits; when somebody does, it
    gives its permit back before anything else, and goes on only with a permit
    again, or ends without one. It leaves no demand. Its waits may last as long
    as others do, but an answer does not depend on the turns that are allowed.
    Claim C23. *)
Theorem queued_work_gives_way {W} job weight (ports : CapacityPorts.t W) log turns :
  capacity_laws ports log ->
  (forall waits w, poll_counted waits ->
     let '(answer, waits', w') := admit_waiting job AdmissionWait.Queued weight ports turns waits w in
     (exists t, goes_on (held_answer answer) 0 t (log w) (log w'))
     /\ forall r more, answer = Some r -> (turns <= more)%nat ->
          admit_waiting job AdmissionWait.Queued weight ports more waits w = (answer, waits', w'))
  /\ forall w,
     let '(answer, w') := before_chunk weight ports turns w in
     (if (CapacityPorts.others_waiting ports w).1 then
        let given := GaveBack :: Asked true :: log w in
        given `suffix_of` log w' /\ exists t, goes_on (held_answer answer) 0 t given (log w')
      else answer = Some (Ok tt) /\ log w' = Asked false :: log w)
     /\ forall r more, answer = Some r -> (turns <= more)%nat -> before_chunk weight ports more w = (answer, w').
Proof.
  intros Hlaws. split.
  - intros waits w Hp. unfold admit_waiting.
    pose proof (wait_turns_on job AdmissionWait.Queued weight ports log Hlaws I turns 0 0 waits w) as H.
    specialize (H ltac:(done) ltac:(done) ltac:(done) Hp).
    destruct (wait_turns job AdmissionWait.Queued weight ports turns 0 0 waits w) as [[answer waits'] w'] eqn:E.
    destruct H as (q & s & Hon & _). split; [by exists (q + s)|]. intros r more -> Hle. by eapply wait_turns_more.
  - intros w. unfold before_chunk. pose proof (law_others _ _ Hlaws w) as H1.
    destruct (CapacityPorts.others_waiting ports w) as [[] w1]; cbn [fst]; [|by split].
    pose proof (take_back_on weight ports log Hlaws turns (CapacityPorts.give_back ports w1)) as H2.
    rewrite (law_give_back _ _ Hlaws), H1 in H2.
    destruct (take_back weight ports turns (CapacityPorts.give_back ports w1)) as [answer w'] eqn:E.
    destruct H2 as [Hon Hs]. split; [by split|]. intros r more -> Hle. by eapply take_back_more.
Qed.

(** Queued work whose capacity others wait for during six tenths of a second. *)
Definition given_way : option (result unit AsrFailure.t) * Root.t :=
  before_chunk 4 root_ports 5 (Root.mk 0 [] 0 (from_millis 600)).

Lemma queued_work_gives_way_witness :
  given_way.1 = Some (Ok tt)
  /\ Root.log given_way.2 = [Took true; Asked false; Slept QUEUED_ADMISSION_POLL; Asked true; Slept QUEUED_ADMISSION_POLL;
                             GaveBack; Asked true]
  /\ exists t, goes_on 1 0 t [GaveBack; Asked true] (Root.log given_way.2).
Proof.
  pose proof (queued_work_gives_way waiting_job 4 root_ports Root.log 5 root_laws) as [_ H].
  specialize (H (Root.mk 0 [] 0 (from_millis 600))). fold given_way in H.
  assert (E : given_way.1 = Some (Ok tt)) by (vm_compute; reflexivity).
  split; [exact E|]. split; [vm_compute; reflexivity|].
  destruct given_way as [answer w']. cbn [fst snd] in *. subst answer. destruct H as [[_ Hon] _]. exact Hon.
Defined.
