(* ===== verification/JobPrepare.v ===== *)
(** * JobPrepare: preparing a session, stream by stream

    Models [crates/vsift-application/src/job/prepare.rs]: the identity of a
    [prepare] job, and its run, which takes the job over, reconciles it, runs its
    streams in order and records how they ended. The streams are a port, whose
    transcripts are jobs of JobRun.v. *)

From S2P Require Import Prelude.
From S2P Require Import Text.
From S2P Require Import Timeline.
From S2P Require Import Storage.
From S2P Require Import Identity.
From S2P Require Import Failure.
From S2P Require Import Retry.
From S2P Require Import Pagination.
From S2P Require Import DerivedIdentity.
From S2P Require Import AsrRun.
From S2P Require Import Cues.
From S2P Require Import Progress.
From S2P Require Import Checkpoint.
From S2P Require Import Transcribe.
From S2P Require Import JobKeys.
From S2P Require Import JobStore.
From S2P Require Import JobSteps.
From S2P Require Import JobCommit.
From S2P Require Import JobCalls.
From S2P Require Import JobRule.
From S2P Require Import JobRecord.
From S2P Require Import Job.

(** ** Identity *)

Definition PREPARE_COMMAND : text := literal "job.start".

Definition first_text (first : option TimeRange.t) : text :=
  match first with
  | None => literal "first=none"
  | Some first => literal "first=" ++ decimal (TimeRange.start first) ++ hyphen :: decimal (TimeRange.end_ first)
  end.

Definition prepare_request_lines (session_id : OpaqueId SessionId) (mode : JobMode.t) (first : option TimeRange.t)
    : list text :=
  [as_str session_id; PREPARE_COMMAND; literal "mode=" ++ literal (identifier mode); first_text first].

Definition prepare_request_digest `{Sha256} (session_id : OpaqueId SessionId) (mode : JobMode.t)
    (first : option TimeRange.t) : result RequestDigest.t JobKeyError :=
  let? digest := digest_lines (literal "vsift.prepare-request.v1") (prepare_request_lines session_id mode first) in
  Ok (RequestDigest.mk digest).

Definition prepare_operation_key `{Sha256} (request : RequestDigest.t) (base : option (OpaqueId TranscriptRevisionId))
    : result (DigestId OperationKey) JobKeyError :=
  let? digest := digest_lines (literal "vsift.prepare-op.v1")
                   [Sha256Hex.as_str (RequestDigest.digest request); base_text base] in
  map_err (fun _ => NotCanonical) (from_sha256 OperationKey (Sha256Hex.as_str digest)).

Definition prepare_spec `{Sha256} (session_id : OpaqueId SessionId) (mode : JobMode.t) (first : option TimeRange.t)
    (base : option (OpaqueId TranscriptRevisionId)) : result JobSpec.t JobKeyError :=
  let? request_digest := prepare_request_digest session_id mode first in
  let? operation_key := prepare_operation_key request_digest base in
  let? recognition_key := digest_lines (literal "vsift.prepare-recognition.v1") [digest_str operation_key] in
  let? job := job_id session_id operation_key in
  Ok (JobSpec.mk session_id job request_digest operation_key (RecognitionKey.mk recognition_key)
        (JobRequest.Prepare mode first) None).

(** ** How a stream and a preparation end *)

Module StreamPhase.
Inductive t := Running | Done | Skipped.

Definition ALL : list t := [Running; Done; Skipped].

Definition phase_identifier (p : t) : string :=
  match p with Running => "running" | Done => "done" | Skipped => "skipped" end.

#[global] Instance identified : Identified t :=
  {| all_values := ALL; identifier := phase_identifier |}.

Definition parse (s : string) : option t := parse_identifier s.
End StreamPhase.

Module StreamStop.
Inductive t :=
| Interrupted (job : option (OpaqueId JobId)) (failure : option AttemptFailure)
| Cancelled
| Failed (failure : option AttemptFailure).
End StreamStop.

Module StreamEnd.
Inductive t := Committed (commit : JobCommit.t) | Indexed | Skipped.
End StreamEnd.

(** [PrepareStreams] *)
Module PrepareStreams.
Record t {W : Type} := mk {
  run : PrepareStream -> option TimeRange.t -> Eff W StreamStop.t StreamEnd.t;
  before_start : JobMode.t -> Eff W StreamStop.t unit;
  cancel : OpaqueId JobId -> W -> W
}.
Arguments t : clear implicits.
End PrepareStreams.

Module PrepareOutcome.
Inductive t :=
| Succeeded (commit : JobCommit.t)
| AlreadySucceeded (commit : JobCommit.t)
| Stopped (stop : StreamStop.t).
End PrepareOutcome.

Module PrepareError.
Inductive t :=
| Busy (job : OpaqueId JobId)
| NotResumable (job : OpaqueId JobId) (state : JobState)
| Job (error : JobStoreError.t).
End PrepareError.

(** ** The run *)

#[export] Instance PrepareStream_eq_dec : EqDecision PrepareStream.
Proof. solve_decision. Defined.

Section Prepare.
(** [clock] is [now_unix_seconds], with [None] for its error. *)
Context {W : Type} (jobs : JobStore.t W) (ledger : CommitLedger.t W) (clock : W -> option Z * W)
  (streams : PrepareStreams.t W) (session : OpaqueId SessionId) (job : OpaqueId JobId).

Let owner := JobStore.owner jobs.

(** The closure [now]. *)
Definition clock_or {E} (started : Z) : Eff W E Z := fun w => let '(time, w) := clock w in (Ok (default started time), w).

Definition change (c : JobChange.t) (now : Z) : Eff W PrepareError.t unit :=
  eff_map_err PrepareError.Job (JobOwner.apply owner c now).

Definition settle_wait (stop : StreamStop.t) (now : Z) : Eff W PrepareError.t StreamStop.t :=
  do! cancelled := match stop with
                   | StreamStop.Cancelled => eff_ret true
                   | _ => eff_of (JobOwner.cancel_requested owner)
                   end in
  if cancelled then do! _ := change JobChange.Cancel now in eff_ret StreamStop.Cancelled
  else eff_ret stop.

Definition cancel_stream (job : option (OpaqueId JobId)) : Eff W PrepareError.t unit :=
  match job with
  | Some job => eff_do (PrepareStreams.cancel streams job)
  | None => eff_ret tt
  end.

Definition record_stop (asked_to_stop : bool) (stop : StreamStop.t) (now : Z) : Eff W PrepareError.t unit :=
  match stop with
  | StreamStop.Interrupted _ failure => change (JobChange.Interrupt failure) now
  | StreamStop.Cancelled =>
      do! _ := if negb asked_to_stop then change JobChange.RequestCancel now else eff_ret tt in
      change JobChange.Cancel now
  | StreamStop.Failed failure => change (JobChange.Fail failure) now
  end.

Definition settle_stop (stop : StreamStop.t) (now : Z) : Eff W PrepareError.t PrepareOutcome.t :=
  do! asked_to_stop := eff_of (JobOwner.cancel_requested owner) in
  do! stop := match stop with
              | StreamStop.Interrupted job _ =>
                  if asked_to_stop then do! _ := cancel_stream job in eff_ret StreamStop.Cancelled
                  else eff_ret stop
              | other => eff_ret other
              end in
  do! _ := record_stop asked_to_stop stop now in
  eff_ret (PrepareOutcome.Stopped stop).

(** Whether the loop over the streams passes one over. *)
Definition passed_over (first : option TimeRange.t) (stream : PrepareStream) : bool :=
  bool_decide (stream = FirstWindow) && bool_decide (first = None).

(** The last commit, or how a stream stopped. *)
Fixpoint run_streams (l : list PrepareStream) (first : option TimeRange.t) (last : option JobCommit.t)
    : Eff W StreamStop.t (option JobCommit.t) := fun w =>
  match l with
  | [] => (Ok last, w)
  | stream :: l =>
      if passed_over first stream then run_streams l first last w
      else
        match PrepareStreams.run streams stream first w with
        | (Ok (StreamEnd.Committed commit), w) => run_streams l first (Some commit) w
        | (Ok (StreamEnd.Indexed | StreamEnd.Skipped), w) => run_streams l first last w
        | (Err stop, w) => (Err stop, w)
        end
  end.

(** The streams of a job that was started, and how they ended. *)
Definition run_started (started : Z) : Eff W PrepareError.t PrepareOutcome.t := fun w =>
  let first := JobRequest.first (JobRecord.request (JobOwner.record owner w)) in
  match run_streams PrepareStream_ALL first None w with
  | (Err stop, w) => (do! now := clock_or started in settle_stop stop now) w
  | (Ok last, w) =>
      (do! commit := eff_result (ok_or last (PrepareError.Job (JobStoreError.Storage SessionStorageError.StateConflict))) in
       do! cancelled := eff_of (JobOwner.cancel_requested owner) in
       if cancelled then
         do! now := clock_or started in
         do! _ := change JobChange.Cancel now in
         eff_ret (PrepareOutcome.Stopped StreamStop.Cancelled)
       else
         do! now := clock_or started in
         do! _ := change (JobChange.Commit commit) now in
         do! now := clock_or started in
         do! _ := change JobChange.Succeed now in
         eff_ret (PrepareOutcome.Succeeded commit)) w
  end.

(** A job that is queued or interrupted: its wait, its start and its streams. *)
Definition start_prepare (started : Z) : Eff W PrepareError.t PrepareOutcome.t := fun w =>
  let wait := match JobRequest.mode (JobRecord.request (JobOwner.record owner w)) with
              | Some mode => PrepareStreams.before_start streams mode
              | None => eff_ret tt
              end in
  match wait w with
  | (Err stop, w) =>
      (do! now := clock_or started in
       do! stop := settle_wait stop now in
       eff_ret (PrepareOutcome.Stopped stop)) w
  | (Ok _, w) => (do! now := clock_or started in do! _ := change JobChange.Start now in run_started started) w
  end.

(** What is left once the job is owned. *)
Definition prepare_owned (started : Z) : Eff W PrepareError.t PrepareOutcome.t :=
  do! _ := eff_map_err PrepareError.Job (reconcile owner ledger started) in
  fun w =>
    let record := JobOwner.record owner w in
    match JobRecord.state record with
    | Succeeded =>
        (let? commit := ok_or (JobRecord.commit record)
                          (PrepareError.Job (JobStoreError.Storage SessionStorageError.IntegrityFailure)) in
         Ok (PrepareOutcome.AlreadySucceeded commit), w)
    | (Failed | Cancelled) as state => (Err (PrepareError.NotResumable job state), w)
    | Queued | Interrupted => start_prepare started w
    | Running | Committing | Cancelling =>
        (Err (PrepareError.Job (JobStoreError.Storage SessionStorageError.StateConflict)), w)
    end.

Definition run_prepare : Eff W PrepareError.t PrepareOutcome.t := fun w =>
  let '(time, w) := clock w in
  let started := default 0 time in
  match JobStore.acquire jobs session job w with
  | (Err (JobStoreError.Storage SessionStorageError.Busy), w) => (Err (PrepareError.Busy job), w)
  | (Err error, w) => (Err (PrepareError.Job error), w)
  | (Ok _, w) => owned jobs (prepare_owned started) w
  end.
End Prepare.

(** ** What is recorded *)

(** What happened: a stream was run, and how it ended; the process asked whether
    the job is to stop, and was answered; or a stream's job was cancelled. *)
Inductive PrepareEvent :=
| StreamRan (stream : PrepareStream) (ended : result StreamEnd.t StreamStop.t)
| AskedToStop (answer : bool)
| StreamCancelled (job : OpaqueId JobId).

(** The owner's record, of which others may have asked that it stops. *)
Definition still_asked (r r' : JobRecord.t) : Prop :=
  same_or_asked r r' /\ JobRecord.request r' = JobRecord.request r.

#[global] Instance still_asked_pre : PreOrder still_asked.
Proof. split; [by intros r|]. intros a b c [H1 H2] [H3 H4]. split; [by etransitivity|congruence]. Qed.

Section PrepareLaws.
Context {W : Type} (jobs : JobStore.t W) (ledger : CommitLedger.t W) (clock : W -> option Z * W)
  (streams : PrepareStreams.t W) (session : OpaqueId SessionId) (job : OpaqueId JobId) (events : W -> list PrepareEvent).

Let record := JobOwner.record (JobStore.owner jobs).

Definition idle (w w' : W) : Prop := still_asked (record w) (record w') /\ events w' = events w.

Definition adds (happened : list PrepareEvent) (w w' : W) : Prop :=
  still_asked (record w) (record w') /\ events w' = events w ++ happened.

(** The owner applies a change to the record as it is stored, and nothing but
    its changes and requests to stop alters the record while it owns the job. *)
Record prepare_laws : Prop := {
  law_change : forall c now w,
    match JobOwner.apply (JobStore.owner jobs) c now w with
    | (Ok _, w') => exists r, still_asked (record w) r /\ JobRecord.changed r c now = Ok (record w') /\ events w' = events w
    | (Err _, w') => idle w w'
    end;
  law_asked : forall w,
    let '(answer, w') := JobOwner.cancel_requested (JobStore.owner jobs) w in adds [AskedToStop answer] w w';
  law_chain : forall s operation above, keeps idle (CommitLedger.committed_generation ledger s operation above);
  law_time : keeps idle clock;
  law_taken : forall w, events (JobStore.acquire jobs session job w).2 = events w;
  law_wait : forall mode, keeps idle (PrepareStreams.before_start streams mode);
  law_stream : forall stream first w,
    let '(r, w') := PrepareStreams.run streams stream first w in adds [StreamRan stream r] w w';
  law_stop_stream : forall j w, adds [StreamCancelled j] w (PrepareStreams.cancel streams j w)
}.
End PrepareLaws.

#[global] Instance idle_pre {W} (jobs : JobStore.t W) events : PreOrder (idle jobs events).
Proof. split; [by intros w|]. intros a b c [H1 H2] [H3 H4]. split; [by etransitivity|congruence]. Qed.

(** The streams that a job with this first window runs, in their order. *)
Definition streams_of (first : option TimeRange.t) : list PrepareStream :=
  filter (fun stream => passed_over first stream = false) PrepareStream_ALL.

(** The commit of the last stream that made one. *)
Definition last_commit (last : option JobCommit.t) (ended : list (PrepareStream * StreamEnd.t)) : option JobCommit.t :=
  fold_left (fun last e => match e.2 with StreamEnd.Committed commit => Some commit | _ => last end) ended last.

(** What happens when some streams end, another may stop, the process may ask
    whether the job is to stop, and the job of the stream may be cancelled. *)
Definition happened (ended : list (PrepareStream * StreamEnd.t)) (stopped : option (PrepareStream * StreamStop.t))
    (asked : option bool) (cancelled : option (OpaqueId JobId)) : list PrepareEvent :=
  ((fun e => StreamRan e.1 (Ok e.2)) <$> ended)
  ++ ((fun e => StreamRan e.1 (Err e.2)) <$> option_list stopped)
  ++ (AskedToStop <$> option_list asked) ++ (StreamCancelled <$> option_list cancelled).

(** The state that a stop leaves. *)
Definition state_after (stop : StreamStop.t) : JobState :=
  match stop with
  | StreamStop.Interrupted _ _ => Interrupted
  | StreamStop.Cancelled => Cancelled
  | StreamStop.Failed _ => Failed
  end.

(** A failure that was told is the last of the record. *)
Definition noted (failure : option AttemptFailure) (r : JobRecord.t) : Prop :=
  forall f, failure = Some f -> list.last (JobRecord.failures r) = Some f.

Definition noted_stop (stop : StreamStop.t) (r : JobRecord.t) : Prop :=
  match stop with
  | StreamStop.Interrupted _ failure | StreamStop.Failed failure => noted failure r
  | StreamStop.Cancelled => True
  end.

(** The record [r] of a job whose run answered [outcome] says how it ended. *)
Definition says (r : JobRecord.t) (outcome : PrepareOutcome.t) (ended : list (PrepareStream * StreamEnd.t))
    (stopped : option (PrepareStream * StreamStop.t)) (asked : option bool) (cancelled : option (OpaqueId JobId)) : Prop :=
  let all := streams_of (JobRequest.first (JobRecord.request r)) in
  match outcome, stopped with
  | PrepareOutcome.Succeeded commit, None =>
      ended.*1 = all /\ asked = Some false /\ cancelled = None /\ last_commit None ended = Some commit
      /\ JobRecord.state r = Succeeded /\ JobRecord.commit r = Some commit
  | PrepareOutcome.AlreadySucceeded commit, None =>
      ended = [] /\ asked = None /\ cancelled = None /\ JobRecord.state r = Succeeded /\ JobRecord.commit r = Some commit
  | PrepareOutcome.Stopped stop, None =>
      cancelled = None
      /\ ((stop = StreamStop.Cancelled /\ JobRecord.state r = Cancelled
            /\ ((ended = [] /\ asked <> Some false) \/ (ended.*1 = all /\ asked = Some true)))
          \/ (stop <> StreamStop.Cancelled /\ ended = [] /\ asked = Some false
              /\ (JobRecord.state r = Queued \/ JobRecord.state r = Interrupted \/ JobRecord.state r = Cancelling)))
  | PrepareOutcome.Stopped stop, Some (_, was) =>
      JobRecord.state r = state_after stop /\ noted_stop stop r
      /\ match was, asked with
         | _, None => False
         | StreamStop.Interrupted j _, Some true => stop = StreamStop.Cancelled /\ cancelled = j
         | _, Some _ => stop = was /\ cancelled = None
         end
  | _, Some _ => False
  end.

(** What a change that was made has made of the record. *)
Definition made (c : JobChange.t) (r r' : JobRecord.t) : Prop :=
  match c with
  | JobChange.Start => JobRecord.state r' = Running
  | JobChange.Commit commit => JobRecord.state r' = Committing /\ JobRecord.commit r' = Some commit
  | JobChange.Succeed => JobRecord.state r' = Succeeded /\ JobRecord.commit r' = JobRecord.commit r
  | JobChange.Interrupt failure => JobRecord.state r' = Interrupted /\ noted failure r'
  | JobChange.Fail failure => JobRecord.state r' = Failed /\ noted failure r'
  | JobChange.RequestCancel => JobRecord.state r' = Cancelling
  | JobChange.Cancel => JobRecord.state r' = Cancelled
  | JobChange.Restart => JobRecord.state r' = Queued
  end.

Lemma changed_made r c now r' : JobRecord.changed r c now = Ok r' -> made c r r' /\ JobRecord.request r' = JobRecord.request r.
Proof.
  intros (state & epoch & attempt & failures & commit & -> & Hch)%changed_set. split; [|done].
  assert (Hnoted : forall l f s, noted f (JobRecord.set r s epoch attempt (push_some l f) commit now)).
  { intros l f s g ->. apply last_snoc. }
  destruct c; destruct_and? Hch;
    match goal with E : (_, _, _, _, _) = _ |- _ => injection E as -> -> -> -> -> end; by repeat split.
Qed.

Section PrepareRuns.
Context {W : Type} (jobs : JobStore.t W) (ledger : CommitLedger.t W) (clock : W -> option Z * W)
  (streams : PrepareStreams.t W) (session : OpaqueId SessionId) (job : OpaqueId JobId) (events : W -> list PrepareEvent).
Context (Hlaws : prepare_laws jobs ledger clock streams session job events).

Let record := JobOwner.record (JobStore.owner jobs).

Lemma change_made c now w r w' :
  change jobs c now w = (r, w') ->
  events w' = events w /\ JobRecord.request (record w') = JobRecord.request (record w)
  /\ (r = Ok tt -> made c (record w) (record w')).
Proof.
  unfold change, eff_map_err. pose proof (law_change _ _ _ _ _ _ _ Hlaws c now w) as Hc.
  destruct (JobOwner.apply _ _ _ _) as [[[]|e] w1]; intros [= <- <-].
  - destruct Hc as (q & [[(H1 & H2 & H3 & H4 & H5) H6] H7] & [Hm Hr]%changed_made & He).
    split; [exact He|]. split; [unfold record; congruence|]. intros _.
    destruct c; cbn [made] in *; try done. unfold record. by rewrite <- H5.
  - destruct Hc as [[_ Hr] He]. by repeat split.
Qed.

(** Calls that run no stream and keep the request. *)
Definition silent (w w' : W) : Prop := events w' = events w /\ JobRecord.request (record w') = JobRecord.request (record w).

#[local] Instance silent_pre : PreOrder silent.
Proof. split; [by intros w|]. intros a b c [H1 H2] [H3 H4]. split; congruence. Qed.

Lemma idle_silent w w' : idle jobs events w w' -> silent w w'.
Proof. intros [[_ H1] H2]. by split. Qed.

Lemma apply_silent c now : keeps silent (JobOwner.apply (JobStore.owner jobs) c now).
Proof.
  intros w. pose proof (law_change _ _ _ _ _ _ _ Hlaws c now w) as Hc. destruct (JobOwner.apply _ _ _ _) as [[[]|e] w1].
  - destruct Hc as (q & [_ Hq] & [_ Hr]%changed_made & He). split; [exact He|]. cbn. unfold record. congruence.
  - by apply idle_silent.
Qed.

(** Asking keeps the request, and is told. *)
Lemma asked_told w :
  let '(answer, w') := JobOwner.cancel_requested (JobStore.owner jobs) w in
  still_asked (record w) (record w') /\ events w' = events w ++ [AskedToStop answer].
Proof. apply (law_asked _ _ _ _ _ _ _ Hlaws). Qed.

Lemma clock_silent : keeps silent clock.
Proof. intros w. apply idle_silent, (law_time _ _ _ _ _ _ _ Hlaws). Qed.

Lemma wait_silent mode : keeps silent (PrepareStreams.before_start streams mode).
Proof. intros w. apply idle_silent, (law_wait _ _ _ _ _ _ _ Hlaws). Qed.

Lemma chain_silent s operation above : keeps silent (CommitLedger.committed_generation ledger s operation above).
Proof. intros w. apply idle_silent, (law_chain _ _ _ _ _ _ _ Hlaws). Qed.

#[local] Hint Resolve apply_silent clock_silent wait_silent chain_silent : keeps.

Lemma clock_or_silent {E} started : keeps silent (clock_or (E := E) clock started).
Proof. intros w. pose proof (clock_silent w). unfold clock_or. by destruct (clock w). Qed.

Lemma reconcile_silent now : keeps silent (reconcile (JobStore.owner jobs) ledger now).
Proof.
  assert (Hend : keeps silent (end_interrupted (JobStore.owner jobs) now)) by (intros w; apply apply_silent).
  assert (Hland : forall r, keeps silent (landed ledger r)) by (intros r; unfold landed; keep_eff).
  intros w. unfold reconcile.
  destruct (JobRecord.state _); try done.
  all: match goal with |- silent _ (eff_bind ?m ?k _).2 => apply (keeps_bind silent m k); try (intros []); keep_eff end.
Qed.

(** The streams of a list, one after the other. *)
Lemma run_streams_ends l first last w :
  let '(r, w') := run_streams streams l first last w in
  let all := filter (fun stream => passed_over first stream = false) l in
  JobRecord.request (record w') = JobRecord.request (record w)
  /\ exists ended stopped, events w' = events w ++ happened ended stopped None None
    /\ match r with
       | Ok last' => stopped = None /\ ended.*1 = all /\ last' = last_commit last ended
       | Err stop => exists stream, stopped = Some (stream, stop) /\ (ended.*1 ++ [stream]) `prefix_of` all
       end.
Proof.
  revert last w. induction l as [|stream l IH]; intros last w; cbn [run_streams].
  { split; [done|]. exists [], None. by rewrite app_nil_r. }
  rewrite filter_cons. destruct (passed_over first stream) eqn:Ep; [rewrite decide_False by done; apply IH|].
  rewrite decide_True by done.
  pose proof (law_stream _ _ _ _ _ _ _ Hlaws stream first w) as Hs.
  destruct (PrepareStreams.run streams stream first w) as [[e|stop] w1]; destruct Hs as [[_ Hr] He].
  - assert (Hgo : forall last', last' = last_commit last [(stream, e)] ->
      let '(r, w') := run_streams streams l first last' w1 in
      JobRecord.request (record w') = JobRecord.request (record w)
      /\ exists ended stopped, events w' = events w ++ happened ended stopped None None
        /\ match r with
           | Ok last' => stopped = None /\ ended.*1 = stream :: filter (fun stream => passed_over first stream = false) l
                         /\ last' = last_commit last ended
           | Err stop => exists s, stopped = Some (s, stop)
               /\ (ended.*1 ++ [s]) `prefix_of` (stream :: filter (fun stream => passed_over first stream = false) l)
           end).
    { intros last' Hl. specialize (IH last' w1). destruct (run_streams streams l first last' w1) as [r w'].
      destruct IH as (Hr' & ended & stopped & He' & Hend). split; [by rewrite Hr'|]. exists ((stream, e) :: ended), stopped.
      split; [by rewrite He', He, <- app_assoc|].
      destruct r as [l'|stop].
      - destruct Hend as (-> & <- & ->). split; [done|]. split; [done|]. by rewrite Hl.
      - destruct Hend as (s & -> & Hp). exists s. split; [done|]. by apply prefix_cons. }
    destruct e; by apply Hgo.
  - split; [exact Hr|]. exists [], (Some (stream, stop)). split; [exact He|]. exists stream. split; [done|].
    apply prefix_cons, prefix_nil.
Qed.

Lemma change_silent c now : keeps silent (change jobs c now).
Proof. apply keeps_map_err, apply_silent. Qed.

Lemma record_stop_made asked stop now w :
  let '(r, w') := record_stop jobs asked stop now w in
  silent w w' /\ (r = Ok tt -> JobRecord.state (record w') = state_after stop /\ noted_stop stop (record w')).
Proof.
  assert (Hone : forall c w1, let '(r, w') := change jobs c now w1 in silent w1 w' /\ (r = Ok tt -> made c (record w1) (record w'))).
  { intros c w1. destruct (change jobs c now w1) as [r w'] eqn:E. by destruct (change_made _ _ _ _ _ E) as (? & ? & ?). }
  destruct stop as [j f| |f]; cbn [record_stop state_after noted_stop]; [apply (Hone (JobChange.Interrupt f))| |apply (Hone (JobChange.Fail f))].
  unfold eff_bind. pose proof (Hone JobChange.RequestCancel w) as Hask.
  assert (Hcancel : forall w1, silent w w1 -> let '(r, w') := change jobs JobChange.Cancel now w1 in
    silent w w' /\ (r = Ok tt -> JobRecord.state (record w') = Cancelled /\ True)).
  { intros w1 Hw. specialize (Hone JobChange.Cancel w1). destruct (change jobs JobChange.Cancel now w1) as [r w'].
    destruct Hone as [Hs Hm]. split; [by etransitivity|]. by intros ->%Hm. }
  destruct asked; cbn [negb eff_ret]; [apply Hcancel; reflexivity|].
  destruct (change jobs JobChange.RequestCancel now w) as [[[]|e] w1]; [apply Hcancel, Hask|]. by destruct Hask.
Qed.

(** A stop of a stream is settled by the state that it, or the request to stop,
    leaves; the job of a stream that was interrupted by the request is cancelled. *)
Lemma settle_stop_says stop now w :
  let '(r, w') := settle_stop jobs streams stop now w in
  JobRecord.request (record w') = JobRecord.request (record w)
  /\ exists asked cancelled,
    events w' = events w ++ AskedToStop asked :: (StreamCancelled <$> option_list cancelled)
    /\ forall outcome, r = Ok outcome -> forall ended stream,
         says (record w') outcome ended (Some (stream, stop)) (Some asked) cancelled.
Proof.
  unfold settle_stop, eff_bind at 1, eff_of. pose proof (asked_told w) as Ha.
  destruct (JobOwner.cancel_requested _ w) as [asked w1]. destruct Ha as [[_ Hr1] He1].
  assert (Hsettle : forall stop' cancelled w2,
    JobRecord.request (record w2) = JobRecord.request (record w1) ->
    events w2 = events w1 ++ (StreamCancelled <$> option_list cancelled) ->
    match stop, asked with
    | StreamStop.Interrupted j _, true => stop' = StreamStop.Cancelled /\ cancelled = j
    | _, _ => stop' = stop /\ cancelled = None
    end ->
    let '(r, w') := (do! _ := record_stop jobs asked stop' now in eff_ret (PrepareOutcome.Stopped stop')) w2 in
    JobRecord.request (record w') = JobRecord.request (record w)
    /\ exists asked cancelled, events w' = events w ++ AskedToStop asked :: (StreamCancelled <$> option_list cancelled)
      /\ forall outcome, r = Ok outcome -> forall ended stream,
           says (record w') outcome ended (Some (stream, stop)) (Some asked) cancelled).
  { intros stop' cancelled w2 Hr2 He2 Hstop. pose proof (record_stop_made asked stop' now w2) as Hm. unfold eff_bind.
    rewrite He1, <- app_assoc in He2. cbn [app] in He2.
    destruct (record_stop jobs asked stop' now w2) as [[[]|e] w3]; destruct Hm as [[He3 Hr3] Hm].
    - split; [congruence|]. exists asked, cancelled. split; [congruence|].
      intros outcome [= <-] ended stream. destruct (Hm eq_refl) as [Hs Hn]. split; [exact Hs|]. split; [exact Hn|].
      by destruct stop, asked.
    - split; [congruence|]. exists asked, cancelled. split; [congruence|done]. }
  assert (Hnone : events w1 = events w1 ++ (StreamCancelled <$> option_list None)) by (by rewrite app_nil_r).
  unfold eff_bind at 1. destruct stop as [j f| |f]; [|by apply (Hsettle _ None)..].
  destruct asked; [|by apply (Hsettle _ None)].
  destruct j as [j|]; [|by apply (Hsettle _ None)].
  pose proof (law_stop_stream _ _ _ _ _ _ _ Hlaws j w1) as [[_ Hr2] He2].
  by apply (Hsettle _ (Some j)).
Qed.

(** What a run has done when it ends: it ran its streams in their order, and
    the record says how it ended. *)
Definition told (w : W) (answer : result PrepareOutcome.t PrepareError.t * W) : Prop :=
  let '(r, w') := answer in
  JobRecord.request (record w') = JobRecord.request (record w)
  /\ exists ended stopped asked cancelled,
      events w' = events w ++ happened ended stopped asked cancelled
      /\ (ended.*1 ++ (option_list stopped).*1) `prefix_of` streams_of (JobRequest.first (JobRecord.request (record w')))
      /\ forall outcome, r = Ok outcome -> says (record w') outcome ended stopped asked cancelled.

Lemma told_silent w w1 answer : silent w w1 -> told w1 answer -> told w answer.
Proof. intros [He Hr]. destruct answer as [r w']. unfold told. by rewrite He, Hr. Qed.

(** A run that ends without a stream, and may have asked. *)
Lemma told_without w r w' asked :
  JobRecord.request (record w') = JobRecord.request (record w) ->
  events w' = events w ++ (AskedToStop <$> option_list asked) ->
  (forall outcome, r = Ok outcome -> says (record w') outcome [] None asked None) -> told w (r, w').
Proof.
  intros Hr He Hs. split; [exact Hr|]. exists [], None, asked, None.
  split; [rewrite He; unfold happened; cbn; by rewrite app_nil_r|]. split; [apply prefix_nil|exact Hs].
Qed.

Lemma told_alone w r w' :
  silent w w' -> (forall outcome, r = Ok outcome -> says (record w') outcome [] None None None) -> told w (r, w').
Proof. intros [He Hr] Hs. apply (told_without w r w' None); [exact Hr|by rewrite He, app_nil_r|exact Hs]. Qed.

Lemma told_after {A} (m : Eff W PrepareError.t A) (k : A -> Eff W PrepareError.t PrepareOutcome.t) w :
  keeps silent m -> (forall a w1, m w = (Ok a, w1) -> told w1 (k a w1)) -> told w (eff_bind m k w).
Proof.
  intros Hm Hk. unfold eff_bind. specialize (Hm w). specialize (Hk). destruct (m w) as [[a|e] w1] eqn:E.
  - eapply told_silent; [exact Hm|]. by apply Hk.
  - by apply told_alone.
Qed.

(** How a job ends when all its streams ended. *)
Definition ends_with (last : option JobCommit.t) (w : W) (answer : result PrepareOutcome.t PrepareError.t * W) : Prop :=
  JobRecord.request (record answer.2) = JobRecord.request (record w)
  /\ exists asked, events answer.2 = events w ++ (AskedToStop <$> option_list asked)
    /\ forall outcome, answer.1 = Ok outcome ->
      exists commit, last = Some commit
        /\ ((outcome = PrepareOutcome.Stopped StreamStop.Cancelled /\ asked = Some true /\ JobRecord.state (record answer.2) = Cancelled)
            \/ (outcome = PrepareOutcome.Succeeded commit /\ asked = Some false
                /\ JobRecord.state (record answer.2) = Succeeded /\ JobRecord.commit (record answer.2) = Some commit)).

Lemma commit_and_succeed started commit w :
  let answer := (do! now := clock_or clock started in
                 do! _ := change jobs (JobChange.Commit commit) now in
                 do! now := clock_or clock started in
                 do! _ := change jobs JobChange.Succeed now in
                 eff_ret (PrepareOutcome.Succeeded commit)) w in
  silent w answer.2 /\ forall outcome, answer.1 = Ok outcome ->
    outcome = PrepareOutcome.Succeeded commit /\ JobRecord.state (record answer.2) = Succeeded
    /\ JobRecord.commit (record answer.2) = Some commit.
Proof.
  cbv zeta. unfold eff_bind, clock_or. pose proof (clock_silent w) as H1. destruct (clock w) as [t1 w1]. cbn [snd] in H1.
  pose proof (change_silent (JobChange.Commit commit) (default started t1) w1) as H2.
  destruct (change jobs (JobChange.Commit commit) (default started t1) w1) as [[[]|e] w2] eqn:E2; cbn [snd] in H2;
    [|by split; [etransitivity|]].
  destruct (change_made _ _ _ _ _ E2) as (_ & _ & Hm). destruct (Hm eq_refl) as [_ Hc].
  pose proof (law_time _ _ _ _ _ _ _ Hlaws w2) as [[[(_ & _ & _ & _ & Hkeep) _] _] _].
  pose proof (clock_silent w2) as H3. destruct (clock w2) as [t2 w3]. cbn [snd] in *.
  pose proof (change_silent JobChange.Succeed (default started t2) w3) as H4.
  destruct (change jobs JobChange.Succeed (default started t2) w3) as [[[]|e] w4] eqn:E4; cbn [snd fst eff_ret] in *;
    (split; [do 3 (etransitivity; [eassumption|]); eassumption|]); [|done].
  intros outcome [= <-]. destruct (change_made _ _ _ _ _ E4) as (_ & _ & Hm4). destruct (Hm4 eq_refl) as [Hs Hsame].
  split; [done|]. split; [exact Hs|]. rewrite Hsame. unfold record in *. congruence.
Qed.

Lemma all_ended_ends last started w :
  ends_with last w
    ((do! commit := eff_result (ok_or last (PrepareError.Job (JobStoreError.Storage SessionStorageError.StateConflict))) in
      do! cancelled := eff_of (JobOwner.cancel_requested (JobStore.owner jobs)) in
      if cancelled then
        do! now := clock_or clock started in
        do! _ := change jobs JobChange.Cancel now in
        eff_ret (PrepareOutcome.Stopped StreamStop.Cancelled)
      else
        do! now := clock_or clock started in
        do! _ := change jobs (JobChange.Commit commit) now in
        do! now := clock_or clock started in
        do! _ := change jobs JobChange.Succeed now in
        eff_ret (PrepareOutcome.Succeeded commit)) w).
Proof.
  destruct last as [commit|]; [|by split; [|exists None; rewrite app_nil_r]].
  cbn [ok_or eff_result]. unfold eff_bind at 1, eff_result. unfold eff_bind at 1, eff_of.
  pose proof (asked_told w) as H1. destruct (JobOwner.cancel_requested _ w) as [[] w1]; destruct H1 as [[_ Hr1] He1].
  - unfold eff_bind, clock_or. pose proof (clock_silent w1) as [He2 Hr2]. destruct (clock w1) as [t w2]. cbn [snd] in *.
    pose proof (change_silent JobChange.Cancel (default started t) w2) as [He3 Hr3].
    destruct (change jobs JobChange.Cancel (default started t) w2) as [[[]|e] w3] eqn:E3; unfold ends_with, eff_ret; cbn [snd fst] in *;
      (split; [congruence|]; exists (Some true); split; [cbn; congruence|]); [|done].
    intros outcome [= <-]. exists commit. split; [done|]. left. split; [done|]. split; [done|].
    destruct (change_made _ _ _ _ _ E3) as (_ & _ & Hm). exact (Hm eq_refl).
  - destruct (commit_and_succeed started commit w1) as [[He2 Hr2] H3]. split; [congruence|]. exists (Some false).
    split; [rewrite He2; exact He1|]. intros outcome Ho. exists commit. split; [done|]. right. by destruct (H3 outcome Ho) as (? & ? & ?).
Qed.

Lemma run_started_told started w : told w (run_started jobs clock streams started w).
Proof.
  unfold run_started. fold record. set (first := JobRequest.first (JobRecord.request (record w))).
  pose proof (run_streams_ends PrepareStream_ALL first None w) as Hrun. cbv zeta in Hrun. fold (streams_of first) in Hrun.
  destruct (run_streams streams PrepareStream_ALL first None w) as [[last|stop] w1];
    destruct Hrun as (Hr1 & ended & stopped & He1 & Hend).
  - destruct Hend as (-> & Hall & Hlast). pose proof (all_ended_ends last started w1) as Hends.
    match goal with |- told w ?a => destruct a as [r w2] end. destruct Hends as (Hr2 & asked & He2 & Hout). cbn [fst snd] in *.
    split; [congruence|]. exists ended, None, asked, None.
    split; [rewrite He2, He1; unfold happened; cbn; by rewrite !app_nil_r, <- app_assoc|]. rewrite Hr2, Hr1. fold first.
    split; [by rewrite Hall, app_nil_r|]. intros outcome (commit & Hc & Ho)%Hout.
    destruct Ho as [(-> & -> & Hs)|(-> & -> & Hs & Hcommit)]; cbn [says]; rewrite Hr2, Hr1; fold first.
    + split; [done|]. left. split; [done|]. split; [exact Hs|]. by right.
    + split; [exact Hall|]. split; [done|]. split; [done|]. split; [congruence|]. by split.
  - destruct Hend as (stream & -> & Hprefix). unfold eff_bind, clock_or.
    pose proof (clock_silent w1) as [He2 Hr2]. destruct (clock w1) as [t w2]. cbn [snd] in *.
    pose proof (settle_stop_says stop (default started t) w2) as Hs.
    destruct (settle_stop jobs streams stop (default started t) w2) as [r w3]. destruct Hs as (Hr3 & asked & cancelled & He3 & Hs).
    split; [congruence|]. exists ended, (Some (stream, stop)), (Some asked), cancelled. rewrite He3, He2, He1.
    split; [by unfold happened; cbn [option_list fmap list_fmap]; rewrite <- !app_assoc|].
    assert (E : JobRequest.first (JobRecord.request (record w3)) = first) by (unfold first; congruence).
    rewrite E. split; [exact Hprefix|]. intros outcome Ho. by apply Hs.
Qed.

(** A job that has not started, or was asked to stop before it could. *)
Definition waiting (w : W) : Prop :=
  JobRecord.state (record w) = Queued \/ JobRecord.state (record w) = Interrupted \/ JobRecord.state (record w) = Cancelling.

Lemma still_waiting w w' : still_asked (record w) (record w') -> waiting w -> waiting w'.
Proof. intros [[_ Hs] _] Hw. unfold waiting in *. destruct Hs as [->|[_ ->]]; [exact Hw|auto]. Qed.

Lemma idle_waiting w w' : idle jobs events w w' -> waiting w -> waiting w'.
Proof. intros [Hs _]. by apply still_waiting. Qed.

Lemma settle_wait_told stop now w :
  waiting w -> told w ((do! stop := settle_wait jobs stop now in eff_ret (PrepareOutcome.Stopped stop)) w).
Proof.
  intros Hw.
  assert (Hcancel : forall w1 asked, asked <> Some false ->
    JobRecord.request (record w1) = JobRecord.request (record w) ->
    events w1 = events w ++ (AskedToStop <$> option_list asked) ->
    told w ((do! stop := (do! _ := change jobs JobChange.Cancel now in eff_ret StreamStop.Cancelled) in
             eff_ret (PrepareOutcome.Stopped stop)) w1)).
  { intros w1 asked Hasked Hr1 He1. unfold eff_bind. pose proof (change_silent JobChange.Cancel now w1) as [He2 Hr2].
    destruct (change jobs JobChange.Cancel now w1) as [[[]|e] w2] eqn:E2; cbn [snd] in *;
      (apply (told_without w _ w2 asked); [congruence|congruence|]); [|done].
    intros outcome [= <-]. destruct (change_made _ _ _ _ _ E2) as (_ & _ & Hm). cbn [says]. split; [done|]. left.
    split; [done|]. split; [exact (Hm eq_refl)|]. by left. }
  assert (Hask : stop <> StreamStop.Cancelled -> forall (k : bool -> Eff W PrepareError.t StreamStop.t),
    k = (fun cancelled : bool => if cancelled then do! _ := change jobs JobChange.Cancel now in eff_ret StreamStop.Cancelled
                                 else eff_ret stop) ->
    told w ((do! stop := (do! cancelled := eff_of (JobOwner.cancel_requested (JobStore.owner jobs)) in k cancelled) in
             eff_ret (PrepareOutcome.Stopped stop)) w)).
  { intros Hn k ->. unfold eff_bind at 1. unfold eff_bind at 1. unfold eff_of. pose proof (asked_told w) as Hi.
    destruct (JobOwner.cancel_requested _ w) as [[] w1]; destruct Hi as [Hr1 He1];
      [by apply (Hcancel w1 (Some true)); [..|apply Hr1|]|].
    apply (told_without w _ w1 (Some false)); [apply Hr1|exact He1|]. intros outcome [= <-]. cbn [says]. split; [done|]. right.
    split; [exact Hn|]. split; [done|]. split; [done|]. by apply (still_waiting w w1). }
  unfold settle_wait. destruct stop as [j f| |f]; [by apply Hask|apply (Hcancel w None); [done|done|by rewrite app_nil_r]|by apply Hask].
Qed.

Lemma start_prepare_told started w : waiting w -> told w (start_prepare jobs clock streams started w).
Proof.
  intros Hw. unfold start_prepare. cbv zeta.
  match goal with |- told w (match ?m w with _ => _ end) => assert (Hwait : idle jobs events w (m w).2) end.
  { destruct (JobRequest.mode _); [apply (law_wait _ _ _ _ _ _ _ Hlaws)|reflexivity]. }
  match goal with |- told w (match ?r with _ => _ end) => destruct r as [[u|stop] w1] end; cbn [snd] in Hwait.
  - eapply told_silent; [by apply idle_silent|]. apply told_after; [apply clock_or_silent|]. intros now w2 _.
    apply told_after; [apply change_silent|]. intros _ w3 _. apply run_started_told.
  - eapply told_silent; [by apply idle_silent|]. unfold eff_bind at 1, clock_or.
    pose proof (law_time _ _ _ _ _ _ _ Hlaws w1) as Ht. destruct (clock w1) as [t w2]. cbn [snd] in Ht.
    eapply told_silent; [by apply idle_silent|]. apply settle_wait_told. apply (idle_waiting w1); [exact Ht|].
    by apply (idle_waiting w).
Qed.

Lemma prepare_owned_told started w : told w (prepare_owned jobs ledger clock streams job started w).
Proof.
  apply told_after; [apply keeps_map_err, reconcile_silent|]. intros _ w1 _. cbv zeta.
  destruct (JobRecord.state (JobOwner.record (JobStore.owner jobs) w1)) eqn:Es;
    [apply start_prepare_told; by left| | |apply start_prepare_told; right; by left| | | |].
  4:{ destruct (JobRecord.commit (JobOwner.record (JobStore.owner jobs) w1)) as [commit|] eqn:Ec;
        (apply told_alone; [reflexivity|]); [|done]. intros outcome [= <-]. by cbn [says]. }
  all: by apply told_alone.
Qed.
End PrepareRuns.

(** A preparation is recorded as it ended. A process that cannot take the job
    over runs nothing. One that does runs the streams of the job in their order,
    the first window only if one was named, each once, and none after one that
    stopped; and when it gives the job up, the record says what it answers: a
    success has run every stream and holds the commit of the last that made one,
    a job that had succeeded answers with its commit and runs nothing, a failure
    or an interruption is recorded with what caused it, and a job that stops
    although nothing was recorded was still waiting. After a stream that stopped,
    and before it succeeds, the process asks once whether the job is to stop. A
    stream that was interrupted leaves the job cancelled when the answer is yes,
    and its own job, if it has one, is cancelled with it; when the answer is no,
    the job ends as the stream did and nothing is cancelled. A job of which all
    streams ended is cancelled when the answer is yes, and succeeds only when it
    is no.
    Claim C21. *)
Theorem prepare_recorded_as_it_ended {W} (jobs : JobStore.t W) ledger clock streams session job events w :
  prepare_laws jobs ledger clock streams session job events ->
  let '(r, w') := run_prepare jobs ledger clock streams session job w in
  match JobStore.acquire jobs session job (clock w).2 with
  | (Err _, taken) => is_ok r = false /\ w' = taken /\ events w' = events w
  | (Ok _, _) =>
      exists given_up ended stopped asked cancelled,
        w' = JobStore.drop_owner jobs given_up
        /\ events given_up = events w ++ happened ended stopped asked cancelled
        /\ let record := JobOwner.record (JobStore.owner jobs) given_up in
           (ended.*1 ++ (option_list stopped).*1) `prefix_of` streams_of (JobRequest.first (JobRecord.request record))
           /\ forall outcome, r = Ok outcome -> says record outcome ended stopped asked cancelled
  end.
Proof.
  intros Hlaws. unfold run_prepare. pose proof (law_time _ _ _ _ _ _ _ Hlaws w) as [_ Ht].
  destruct (clock w) as [t w1]. cbn [snd] in *. cbv zeta.
  pose proof (law_taken _ _ _ _ _ _ _ Hlaws w1) as Ha.
  destruct (JobStore.acquire jobs session job w1) as [[u|e] w2]; cbn [snd] in Ha.
  - pose proof (prepare_owned_told _ _ _ _ _ _ _ Hlaws (default 0 t) w2) as Htold. unfold owned.
    destruct (prepare_owned jobs ledger clock streams job (default 0 t) w2) as [r w3].
    destruct Htold as (_ & ended & stopped & asked & cancelled & He & Hp & Hs).
    exists w3, ended, stopped, asked, cancelled. split; [done|]. split; [congruence|]. by split.
  - destruct e as [| | |[]]; (split; [done|]; split; [done|congruence]).
Qed.

(** A session with one preparation, whose transcript is asked to stop by another
    process while it runs, or is not. *)
Module Preparing.
Record t := mk { record : JobRecord.t; log : list PrepareEvent; stopping : bool }.

Definition with_record (w : t) (r : JobRecord.t) : t := mk r (log w) (stopping w).
Definition with_event (w : t) (e : PrepareEvent) : t := mk (record w) (log w ++ [e]) (stopping w).
End Preparing.

Definition preparation_session : OpaqueId SessionId := mkOpaqueId (literal "ses_0123456789abcdef").
Definition transcript_job : OpaqueId JobId := mkOpaqueId (literal "job_fedcba9876543210").
Definition transcript_commit : JobCommit.t :=
  JobCommit.mk (mkOpaqueId (literal "op_0123456789abcdef")) 3
    (mkOpaqueId (literal "trv_0123456789abcdef")).

Definition preparation : JobSpec.t :=
  JobSpec.mk preparation_session (mkOpaqueId (literal "job_0123456789abcdef"))
    (RequestDigest.mk (Sha256Hex.mk zeros)) (mkDigestId zeros) (RecognitionKey.mk (Sha256Hex.mk zeros))
    (JobRequest.Prepare JobMode.Watched None) None.

Definition preparing_jobs : JobStore.t Preparing.t :=
  JobStore.mk _
    (JobOwner.mk _ Preparing.record
       (fun c now w => match JobRecord.changed (Preparing.record w) c now with
                       | Ok r => (Ok tt, Preparing.with_record w r)
                       | Err e => (Err e, w)
                       end)
       (fun operation now w => (Ok tt, w))
       (fun w => let answer := bool_decide (JobRecord.state (Preparing.record w) = Cancelling) in
                 (answer, Preparing.with_event w (AskedToStop answer))))
    (fun w => w)
    (fun session job w => (Ok None, w))
    (fun session operation w => (Ok None, w))
    (fun spec now w => (Ok false, w))
    (fun session job w => (Ok tt, w))
    (fun session job now w => (Err JobStoreError.NotFound, w)).

Definition preparing_ledger : CommitLedger.t Preparing.t := CommitLedger.mk _ (fun session operation above w => (Ok None, w)).
Definition preparing_clock (w : Preparing.t) : option Z * Preparing.t := (Some 1000, w).

(** The transcript hears of the request and stops, or commits. *)
Definition preparing_streams : PrepareStreams.t Preparing.t :=
  PrepareStreams.mk _
    (fun stream first w =>
       match stream with
       | Transcript =>
           if Preparing.stopping w then
             let stop := Err (StreamStop.Interrupted (Some transcript_job) None) in
             let asked := match JobRecord.changed (Preparing.record w) JobChange.RequestCancel 1000 with
                          | Ok r => Preparing.with_record w r
                          | Err _ => w
                          end in
             (stop, Preparing.with_event asked (StreamRan stream stop))
           else
             let done := Ok (StreamEnd.Committed transcript_commit) in
             (done, Preparing.with_event w (StreamRan stream done))
       | FirstWindow | Visual => (Ok StreamEnd.Indexed, Preparing.with_event w (StreamRan stream (Ok StreamEnd.Indexed)))
       end)
    (fun mode w => (Ok tt, w))
    (fun job w => Preparing.with_event w (StreamCancelled job)).

Definition prepare_run (w : Preparing.t) : result PrepareOutcome.t PrepareError.t * Preparing.t :=
  run_prepare preparing_jobs preparing_ledger preparing_clock preparing_streams preparation_session
    (JobSpec.job_id preparation) w.

Definition queued_preparation (stopping : bool) : Preparing.t := Preparing.mk (JobRecord.queued preparation 0) [] stopping.

Lemma preparing_laws :
  prepare_laws preparing_jobs preparing_ledger preparing_clock preparing_streams preparation_session
    (JobSpec.job_id preparation) Preparing.log.
Proof.
  constructor; try (by intros; split).
  - intros c now w. cbn [preparing_jobs JobStore.owner JobOwner.apply JobOwner.record].
    destruct (JobRecord.changed (Preparing.record w) c now) as [r|e] eqn:E; [|by split].
    exists (Preparing.record w). by split.
  - intros stream first w. cbn [preparing_streams PrepareStreams.run]. destruct stream; [by split..|].
    destruct (Preparing.stopping w); [|by split]. split; [|by destruct (JobRecord.changed _ _ _)].
    destruct (JobRecord.changed (Preparing.record w) JobChange.RequestCancel 1000) as [r|e] eqn:E; [|reflexivity].
    cbn. split; [by eapply asked_is_asking|]. by eapply changed_made.
Qed.

(** A job asked to stop while its transcript runs ends cancelled, and so does
    the job of the transcript. *)
Lemma prepare_recorded_as_it_ended_witness :
  (prepare_run (queued_preparation true)).1 = Ok (PrepareOutcome.Stopped StreamStop.Cancelled)
  /\ Preparing.log (prepare_run (queued_preparation true)).2
     = happened [(Visual, StreamEnd.Indexed)] (Some (Transcript, StreamStop.Interrupted (Some transcript_job) None)) (Some true)
         (Some transcript_job)
  /\ exists given_up ended stopped asked cancelled,
       (prepare_run (queued_preparation true)).2 = given_up
       /\ Preparing.log given_up = happened ended stopped asked cancelled
       /\ says (Preparing.record given_up) (PrepareOutcome.Stopped StreamStop.Cancelled) ended stopped asked cancelled.
Proof.
  pose proof (prepare_recorded_as_it_ended _ _ _ _ _ _ _ (queued_preparation true) preparing_laws) as H.
  fold (prepare_run (queued_preparation true)) in H.
  assert (E : (prepare_run (queued_preparation true)).1 = Ok (PrepareOutcome.Stopped StreamStop.Cancelled)) by (vm_compute; reflexivity).
  split; [exact E|]. split; [vm_compute; reflexivity|]. destruct (prepare_run (queued_preparation true)) as [r w']. cbn [fst snd] in *.
  destruct H as (given_up & ended & stopped & asked & cancelled & Hw & He & _ & Hs).
  exists given_up, ended, stopped, asked, cancelled. split; [exact Hw|]. split; [exact He|]. by apply Hs.
Defined.

(** A preparation that nobody stops runs its streams and succeeds, and a second
    run answers with its commit. *)
Example prepare_succeeds :
  let '(r, w) := prepare_run (queued_preparation false) in
  r = Ok (PrepareOutcome.Succeeded transcript_commit)
  /\ Preparing.log w = [StreamRan Visual (Ok StreamEnd.Indexed);
                        StreamRan Transcript (Ok (StreamEnd.Committed transcript_commit)); AskedToStop false]
  /\ (prepare_run w).1 = Ok (PrepareOutcome.AlreadySucceeded transcript_commit).
Proof. vm_compute. by repeat split. Qed.

(** A preparation interrupted in the last attempt it may start is not failed: it
    is reported as resumable, but every run of it is refused and changes nothing. *)
Lemma prepare_out_of_attempts now r w :
  JobRecord.changed r (JobChange.Interrupt None) now = Ok (Preparing.record w) ->
  JobRecord.attempt r = MAX_JOB_ATTEMPTS -> JobRecord.request r = JobRequest.Prepare JobMode.Watched None ->
  Resumability.resumable (Resumability.of_state (JobRecord.state (Preparing.record w)) Unowned true) = true
  /\ prepare_run w = (Err (PrepareError.Job (JobStoreError.Storage SessionStorageError.CapacityExhausted)), w).
Proof.
  intros (state & epoch & attempt & failures & commit & Hr & Hs & [= -> -> -> -> ->])%changed_set Hmax Hreq.
  destruct w as [record log stopping]. cbn [Preparing.record] in *. subst record. split; [done|].
  unfold prepare_run, run_prepare, owned, prepare_owned, reconcile, start_prepare, change, eff_bind, eff_map_err, clock_or.
  cbn -[MAX_JOB_ATTEMPTS]. rewrite Hreq, Hmax. reflexivity.
Qed.
